(* ===== verification/_CoqProject ===== *)
-Q . S2P
Prelude.v
Clcodec.v
Clfwd.v
HtBase.v
HtChain.v
Lamport.v
HtTable.v
HtGrow.v
HtApi.v
Clorder.v
Crc32c.v
WalFmt.v
WalRing.v
Clack.v
Clackf.v
Recover.v
Rdb.v
Ackstate.v
Restart.v
Clterm.v
Clmig.v
Clmap.v
Clplace.v
Hashrec.v
Json.v
Pcglob.v
Ptree.v
PtreeRead.v
PtreeText.v
PtreeJson.v
Clreplay.v
Clretain.v
ArenaCell.v
ArenaCensus.v
ArenaSlot.v
ArenaSlotOk.v
ArenaGive.v
Arena.v
Clpush.v
Clloc.v
