(* ===== verification/Prelude.v ===== *)
(** perfcached: a verification library of its data paths.

    perfcached is an in-memory key-value cache in C: worker threads serve clients
    from a concurrent hash table whose records lie in cells of a slab arena; a
    write-ahead log and snapshots make writes durable; nodes form a cluster that
    forwards writes to a key's holder, replicates and migrates records, orders
    copies of a record by Lamport versions and places keys by rendezvous hashing
    over a map the master publishes.  The sources are under [src/src/], the table
    under [src/src/core/].

    * How the code is modelled

    A w-bit integer is a [Z] with its wrap-around written out ([u32], [s64], ...).
    A buffer with its length is a list of bytes; a pointer-and-length pair into it
    is the bytes it covers.  Code that reads bytes of unknown origin returns an
    [outcome]: [Ret], [Rej] for the refusal the C returns, and [Oob] for a read or
    a pointer outside the buffer.  Structs are records, state is passed
    explicitly.  Where the table runs under a bucket's lock, the model is the body
    the lock serialises; an atomic read-modify-write is its effect.  What the
    sources take from outside, the allocator's answers, the ticks and the CPU's
    CRC instructions, are arguments, with the documented behaviour of the
    instructions as hypotheses.  Loops whose recursion is not structural carry
    fuel, and each such function has a theorem that shows the fuel enough: the
    reader of a log segment consumes a record header a turn and gets the file's
    length; the ring's drain, the validator and the find of a hash record, the JSON
    tokenizer and the snapshot's writer and loader likewise get the length of what
    they consume; the key matcher gets one turn per pair of pattern and text
    positions; growth gets the budget the code has; the tree reader and renderers get
    two turns a byte and the tree's JSON reader two a token; the replay filter's
    clearing gets one turn a sequence of its window, the retained tombstones' drops one an
    entry, a buffer's doubling 64; the arena's refill one turn a cell of a batch and one
    a chunk, its region zone and its tail one a slot or group of the reservation.

    * Files and the parts they model

    - [Prelude]: words, byte lists, the outcome monad, shared tactics.
    - [Clcodec], [Clfwd]: [clcodec.h], the little-endian cursors, and [clfwd.c],
      the frames of the proxy write plane (forwarded operation, acknowledgement,
      demote, tombstone, JSON edit and its answer).
    - [HtBase]: the leaf routines of [core/pcache_htable.c]: the key hash, the
      identical-value test, the decimal parse, the cell classes of
      [core/pcache_arena.c].
    - [HtChain]: the bucket chains: search, append, removal, and the lock-free
      reader's SWAR scan.
    - [Lamport]: the write clock of [compat/compat.c], an interface ([Lamport],
      [LamportLaws]) with the clustered and the standalone edition as instances.
    - [HtTable]: the table operations under their bucket lock, over any clock:
      store, add, touch, set-version, remove, get-version, fetch.  [ht_wf] is the
      table's invariant and [ht_lookup] the map it stands for.
    - [HtGrow]: the linear-hash split and the growth loop.
    - [HtApi]: the public operations with the two-table drain of a resize, and the
      tables reachable by any run of them.
    - [Clorder]: [clorder.c], a copy and a delete of one key that meet, with the
      refusal of [cluster.c], as turns of threads that interleave.
    - [Crc32c]: [crc32c.c], the slice-by-8 table, the hardware routines and their
      dispatch, against the bit-at-a-time CRC.
    - [WalFmt]: the write-ahead log's records ([walfmt.h], [produce] and the pump's
      stamp in [wal.c]), its reader ([walscan.c]) and the CONTROL file.
    - [WalRing]: the producer rings ([walring.h], publish and drain in [wal.c]).
    - [Clack]: [clack.c], the watermarks: which of each origin's numbered deletes are
      applied here without a gap, and how far the log has made them durable.
    - [Recover]: the replay of the log ([recover.c]) over the table, with the lookup
      of [store.c]; [Rdb]: the snapshot ([rdb.c], [rdb_load]); [Ackstate]: the
      watermarks' file and announcements ([ackstate.c]); [Restart]: [pc_recover],
      the three composed.
    - [Clterm]: [clterm.c] and [fnv1a.h], the master's term and its file.
    - [Clmig]: [clmig.c], the migration window, gather buffer and frames, with the
      loops of [cluster.c] that gather a record and walk a received group.
    - [Clmap], [Clplace]: [clmap.c], the cluster map on the wire, and [clplace.c]
      with [pc_mix.h], weighted placement over it.
    - [Hashrec]: [hashrec.c], a Redis hash as one record.
    - [Json]: [json.c], the tokenizer, lookup, unescape and writer.
    - [Pcglob]: [pcglob.c], the key patterns.
    - [Clackf]: [clackf.c], the marks every member reported, and their minimum.
    - [Clreplay]: [clreplay.c], the filter that takes a sealed frame once, and [Clretain]:
      [clretain.c], the tombstones kept for members that were away.
    - [Ptree], [PtreeRead], [PtreeText], [PtreeJson]: [ptree.c], the native value codec:
      the writer with its marks and rollbacks, the reader and its accessors, the JSON and
      RESP renderers, and the reader of JSON.
    - [ArenaCell], [ArenaCensus]: [core/pcache_arena.c]'s cells: classes, chunks, private
      stacks, evacuation, the live meter and the reclaim tick, over an interface of slots
      ([SlotSource]); the invariant places every cell in exactly one of: out, on a private
      stack, in a chunk's uncut rest, home.
    - [ArenaSlot], [ArenaSlotOk], [ArenaGive]: its slots: the reservation's bitmaps and
      frontiers, pages, index regions, commits, and the give-back to the host in its
      phases, with the invariant each step keeps; [Arena]: the two composed, from
      [pcache_arena_init] on.
    - [Clpush]: [clpush.c], the groups in which a worker's writes leave for each peer, with
      the send callback of [clwork.c], the table of groups that wait for an
      acknowledgement and the walk of [spread_ack_drop] in [cluster.c].
    - [Clloc]: [clloc.c], the locator and the negative cache, with its sequence lock word by
      word and the calls of [cluster.c] that pair it with the retained tombstones.

    * What the theorems show

    The table: every reachable table satisfies the invariant; store, accumulate,
    remove and the lock-free read do on every branch what their specification over
    the map says, all other keys unchanged; two versioned copies converge in either
    order; a write after a delete is newer than the delete; a write during a resize
    supersedes the copy left behind; splits and growth change no answer and
    terminate.  The chains implement a list and the SWAR scan finds what the
    writers find.

    Durability: the checksum routines agree with each other and with the CRC; what
    the log writes it reads back; a cut segment yields exactly the records whole
    before the cut; a record with a changed byte, or of another generation at a
    record boundary, is never read; segments are read in generation order; the
    CONTROL file reads back or reads as absent; a ring whose size divides 2^32 is a
    first-in first-out queue of records across every wrap.  A snapshot reads back as
    the copies that counted when it was walked, and one changed byte of it is seen; the
    replay leaves the newest of a key's writes and deletes in whatever order the log
    has them; so a restart from both leaves at every key the newest of the two, with
    the write clock above all of it and the watermarks as they were saved.

    The cluster: however copies and deletes of a key interleave, no copy at or below
    a delete stays; a watermark covers only applied and durable deletes, reaches what
    is complete, and every one is announced in turn; a term claimed was never claimed
    before, across crashes and failing writes.  No datagram makes a parser of the modelled planes leave it, frames
    read back as they were built, the migration window accounts for every record
    and what is gathered is what arrives; every node and client gets one placement
    answer from a map, and a change to one node moves no slot between two others.

    Values: a hash record is an ordered map of fields, and the validator accepts
    exactly its encodings; JSON tokens lie inside their text and nest, a rendered
    document reads back, the writer never passes its buffer; the key matcher decides
    its pattern language.  A native value is written, read, rendered and rolled back as
    the tree it stands for, and its reader accepts exactly the encodings of trees.

    The fleet: the minimum of the marks is one every listed member reported; a frame is
    taken at most once, exactly when its stream's window says so; a delete planted since
    the second the table vouches for is told at its version.  What a thread pushes for a peer
    arrives in order and whole, and a copy taken for another holder goes only when that
    holder acknowledged the datagram the record was in.  A deleted key's old copies are
    refused as long as the tombstones vouch for it; the negative cache answers like one
    without bounds but for what it displaced, and no read of it is torn.

    The arena: under any interleaving of its operations, give-backs whose middle phase
    runs without the lock included, no two cells or regions share a byte and none lies in
    memory on its way to the host; an allocation refuses only for want of memory or size;
    the live meter and the rows of the memory card are exact; an empty arena drains.

    The examples named as findings are runs of the model that show the code doing
    what a comment says it does not: a moved copy restamped, a write stamped below
    a delete, a small-buffer read during a drain, a ring size that does not divide
    2^32, a value replayed as a log record, a uniform map not placed by plain argmax,
    an overwritten value that comes back at a restart, a touch lost by the replay, a
    snapshot writer that spins on a full disk and writes its checksum past its buffer,
    invalid UTF-8 that passes for valid, a tree written that its reader refuses, a sender
    with a stepped-back clock refused stream by stream, a commit map one word short, a
    record size the budget counts as nothing, a free slot announced as a chunk, a count of
    open groups that never comes back to zero, a tombstone whose version a race or an empty
    pull takes away.

    * What is not modelled

    The memory model: operations are serialised where the code locks, and the
    reader scans a bucket nobody is writing; a lock-free push or pop of the arena is one
    step, except where [Arena] takes a cell's way home apart.  The arena's foreign
    backings and its reports; the sweep, the evacuator's walk, iterators and cursors of the
    table; rotation, segment growth, sync policy and start-up of the log; the collection
    records of a replay and the registry's changes; the runtime import of a snapshot and
    the save rules; election, epochs, reconcile and the pull plane of
    the cluster; the client protocols, JSON paths, publish/subscribe, configuration;
    [long double] increments; and all sockets, threads, files and clocks.

    * Plan

    In this order: the registry and the collection records of a replay, the import;
    the log's rotation and segment recycling; epochs over [Clmap]; the pull
    plane; the table's sweep, iterators and cursors, with the evacuator over
    [Arena]; JSON paths over [Json]; the RESP request parser. *)

From Stdlib Require Import ZArith Lia.
From stdpp Require Import base tactics list numbers.

#[global] Open Scope Z_scope.

(** * Machine integers

    An unsigned C integer of width w is a [Z]; the conversions below are the
    casts and wrap-arounds of the source. *)

Definition u8  (x : Z) : Z := x mod 2 ^ 8.
Definition u16 (x : Z) : Z := x mod 2 ^ 16.
Definition u32 (x : Z) : Z := x mod 2 ^ 32.
Definition u64 (x : Z) : Z := x mod 2 ^ 64.

(** [(long long)x] of an unsigned 64-bit value: two's complement. *)
Definition s64 (x : Z) : Z := (x + 2 ^ 63) mod 2 ^ 64 - 2 ^ 63.

(** [(int)x] of an unsigned 32-bit value. *)
Definition s32 (x : Z) : Z := (x + 2 ^ 31) mod 2 ^ 32 - 2 ^ 31.

Definition is_u8  (x : Z) : Prop := 0 <= x < 2 ^ 8.
Definition is_u16 (x : Z) : Prop := 0 <= x < 2 ^ 16.
Definition is_u32 (x : Z) : Prop := 0 <= x < 2 ^ 32.
Definition is_u64 (x : Z) : Prop := 0 <= x < 2 ^ 64.
Definition is_s64 (x : Z) : Prop := - 2 ^ 63 <= x < 2 ^ 63.

#[global] Arguments u8 : simpl never.
#[global] Arguments u16 : simpl never.
#[global] Arguments u32 : simpl never.
#[global] Arguments u64 : simpl never.
#[global] Arguments s64 : simpl never.
#[global] Arguments s32 : simpl never.

(** [1] for true: C's truth values where the code returns them. *)
Definition b2z (b : bool) : Z := if b then 1 else 0.

(** Powers of two that appear in word arithmetic, as numerals for [lia]. *)
Ltac pow2 :=
  change (2 ^ 8) with 256 in *; change (2 ^ 16) with 65536 in *;
  change (2 ^ 24) with 16777216 in *; change (2 ^ 31) with 2147483648 in *;
  change (2 ^ 32) with 4294967296 in *;
  change (2 ^ 63) with 9223372036854775808 in *;
  change (2 ^ 64) with 18446744073709551616 in *.

Ltac unfold_words :=
  unfold u8, u16, u32, u64, s64, s32, is_u8, is_u16, is_u32, is_u64, is_s64 in *; pow2.

(** Word arithmetic by linear arithmetic over quotients and remainders. *)
Ltac word_lia := unfold_words; Z.div_mod_to_equations; lia.

Create HintDb words.
Create Rewrite HintDb words.

Lemma u8_id x : is_u8 x -> u8 x = x.
Proof. intros; apply Z.mod_small; word_lia. Qed.
Lemma u16_id x : is_u16 x -> u16 x = x.
Proof. intros; apply Z.mod_small; word_lia. Qed.
Lemma u32_id x : is_u32 x -> u32 x = x.
Proof. intros; apply Z.mod_small; word_lia. Qed.
Lemma u64_id x : is_u64 x -> u64 x = x.
Proof. intros; apply Z.mod_small; word_lia. Qed.

Lemma u8_range x : is_u8 (u8 x).
Proof. word_lia. Qed.
Lemma u16_range x : is_u16 (u16 x).
Proof. word_lia. Qed.
Lemma u32_range x : is_u32 (u32 x).
Proof. word_lia. Qed.
Lemma u64_range x : is_u64 (u64 x).
Proof. word_lia. Qed.
Lemma s64_range x : is_s64 (s64 x).
Proof. word_lia. Qed.

(** A signed value survives the trip through its unsigned image. *)
Lemma s64_u64 x : is_s64 x -> s64 (u64 x) = x.
Proof. intros; word_lia. Qed.

#[export] Hint Resolve u8_range u16_range u32_range u64_range s64_range : words.
#[export] Hint Rewrite u8_id u16_id u32_id u64_id s64_u64 using (solve [eauto with words | word_lia]) : words.

(** Disjoint bit fields: or-ing a shifted word onto a smaller one adds. *)
Lemma lor_shiftl_add a b k :
  0 <= k -> 0 <= a < 2 ^ k -> Z.lor a (Z.shiftl b k) = a + b * 2 ^ k.
Proof.
  intros Hk Ha. rewrite <- Z.shiftl_mul_pow2 by lia.
  rewrite <- Z.lxor_lor; [symmetry; apply Z.add_nocarry_lxor|];
    (apply Z.bits_inj'; intros n Hn; rewrite Z.land_spec, Z.bits_0;
     destruct (Z.lt_ge_cases n k);
     [ rewrite Z.shiftl_spec_low by lia; apply andb_false_r
     | replace (Z.testbit a n) with false; [done|];
       symmetry; destruct (decide (a = 0)) as [->|]; [apply Z.bits_0|];
       apply Z.bits_above_log2; [lia|]; apply Z.log2_lt_pow2; [lia|];
       apply Z.lt_le_trans with (2 ^ k); [lia|]; apply Z.pow_le_mono_r; lia ]).
Qed.

Lemma shiftr_div x k : 0 <= k -> Z.shiftr x k = x / 2 ^ k.
Proof. apply Z.shiftr_div_pow2. Qed.

(** * Byte strings

    A byte is a [Z]; a buffer, a datagram or a pointer-and-length pair is the
    list of the bytes it spans.  Pointer arithmetic [p + off] is [drop]. *)

Abbreviation bytes := (list Z).

Definition bytes_ok (l : bytes) : Prop := Forall is_u8 l.

Definition zlen {A} (l : list A) : Z := Z.of_nat (length l).

Definition zdrop {A} (n : Z) (l : list A) : list A := drop (Z.to_nat n) l.
Definition ztake {A} (n : Z) (l : list A) : list A := take (Z.to_nat n) l.

Lemma zlen_nonneg {A} (l : list A) : 0 <= zlen l.
Proof. unfold zlen; lia. Qed.
Lemma zlen_nil {A} : zlen (@nil A) = 0.
Proof. done. Qed.
Lemma zlen_cons {A} (x : A) l : zlen (x :: l) = 1 + zlen l.
Proof. unfold zlen; simpl; lia. Qed.
Lemma zlen_app {A} (l k : list A) : zlen (l ++ k) = zlen l + zlen k.
Proof. unfold zlen; rewrite length_app; lia. Qed.
Lemma zlen_zdrop {A} n (l : list A) : zlen (zdrop n l) = Z.max 0 (zlen l - Z.max 0 n).
Proof. unfold zlen, zdrop; rewrite length_drop; lia. Qed.
Lemma zlen_ztake {A} n (l : list A) : zlen (ztake n l) = Z.min (Z.max 0 n) (zlen l).
Proof. unfold zlen, ztake; rewrite length_take; lia. Qed.
Lemma zlen_zero {A} (l : list A) : zlen l = 0 -> l = [].
Proof. unfold zlen; destruct l; [done|]; simpl; lia. Qed.
Lemma zlen_replicate {A} n (x : A) : zlen (replicate n x) = Z.of_nat n.
Proof. unfold zlen; by rewrite length_replicate. Qed.
Lemma zlen_insert {A} i (x : A) l : zlen (<[i := x]> l) = zlen l.
Proof. unfold zlen; by rewrite length_insert. Qed.

Create Rewrite HintDb lens.
#[export] Hint Rewrite @zlen_nil @zlen_cons @zlen_app @zlen_zdrop @zlen_ztake
  @zlen_replicate @zlen_insert : lens.

(** Arithmetic on lengths of concatenations, drops and takes. *)
Ltac zlens := autorewrite with lens in *.
Ltac pose_lens :=
  repeat match goal with
  | |- context [zlen ?l] =>
      lazymatch goal with H : 0 <= zlen l |- _ => fail | _ => pose proof (zlen_nonneg l) end
  | _ : context [zlen ?l] |- _ =>
      lazymatch goal with H : 0 <= zlen l |- _ => fail | _ => pose proof (zlen_nonneg l) end
  end.
Ltac zlia := zlens; pose_lens; lia.

Lemma zdrop_0 {A} n (l : list A) : n <= 0 -> zdrop n l = l.
Proof. intros; unfold zdrop; replace (Z.to_nat n) with 0%nat by lia; done. Qed.
Lemma zdrop_app_ge {A} n (l k : list A) : zlen l <= n -> zdrop n (l ++ k) = zdrop (n - zlen l) k.
Proof.
  unfold zdrop, zlen; intros. rewrite drop_app, drop_ge by lia. simpl. f_equal; lia.
Qed.
Lemma zdrop_app {A} n (l k : list A) : n = zlen l -> zdrop n (l ++ k) = k.
Proof. intros ->. rewrite zdrop_app_ge by lia. apply zdrop_0; lia. Qed.
Lemma ztake_app {A} n (l k : list A) : n = zlen l -> ztake n (l ++ k) = l.
Proof.
  intros ->. unfold ztake, zlen. rewrite Nat2Z.id. apply take_app_length.
Qed.
Lemma ztake_all {A} n (l : list A) : zlen l <= n -> ztake n l = l.
Proof. unfold ztake, zlen; intros; apply take_ge; lia. Qed.
Lemma ztake_zdrop {A} n (l : list A) : ztake n l ++ zdrop n l = l.
Proof. apply take_drop. Qed.
Lemma zdrop_zdrop {A} n m (l : list A) : 0 <= n -> 0 <= m -> zdrop n (zdrop m l) = zdrop (m + n) l.
Proof. intros; unfold zdrop; rewrite drop_drop; f_equal; lia. Qed.
(** An array's element replaced by its last one. *)
Lemma swap_take {A} (l : list A) k x z :
  l !! k = Some x -> l !! pred (length l) = Some z -> l ≡ₚ x :: take (pred (length l)) (<[k := z]> l).
Proof.
  intros Hk Hz. destruct l as [|y m _] using rev_ind; [done|]. rewrite length_app in *. simpl in *.
  replace (pred (length m + 1)) with (length m) in * by lia.
  rewrite lookup_app_r, Nat.sub_diag in Hz by lia. injection Hz as ->.
  destruct (decide (k < length m)%nat) as [Hlt|Hge].
  - rewrite insert_app_l, take_app_le, take_ge by (rewrite ?length_insert; lia).
    rewrite lookup_app_l in Hk by done. apply list_elem_of_split_length in Hk as (m1 & m2 & -> & ->).
    rewrite insert_app_r_alt, Nat.sub_diag by lia. simpl. solve_Permutation.
  - assert (k = length m) as -> by (apply lookup_lt_Some in Hk; rewrite length_app in Hk; simpl in Hk; lia).
    rewrite lookup_app_r, Nat.sub_diag in Hk by lia. injection Hk as ->.
    rewrite insert_app_r_alt, Nat.sub_diag by lia. simpl. rewrite take_app_length. solve_Permutation.
Qed.

Lemma zdrop_after {A} (b x y : list A) n : 0 <= n -> zdrop n b = x ++ y -> zdrop (n + zlen x) b = y.
Proof.
  intros Hn H. pose proof (zlen_nonneg x). rewrite <- (zdrop_zdrop (zlen x) n b) by lia. rewrite H. by apply zdrop_app.
Qed.
Lemma zdrop_all {A} n (l : list A) : zlen l <= n -> zdrop n l = [].
Proof. unfold zdrop, zlen; intros; apply drop_ge; lia. Qed.
Lemma ztake_0 {A} n (l : list A) : n <= 0 -> ztake n l = [].
Proof. intros; unfold ztake; replace (Z.to_nat n) with 0%nat by lia; done. Qed.

(** * Outcomes of code that reads memory

    [Ret] is a normal return, [Rej] a refusal (the [return 0] or [return -1]
    of a parser), and [Oob] a read or a pointer outside the buffer the caller
    gave: the undefined behaviour a parser of network bytes must never reach. *)

Inductive outcome (A : Type) : Type :=
  | Ret (a : A)
  | Rej
  | Oob.
Arguments Ret {A} a.
Arguments Rej {A}.
Arguments Oob {A}.

Definition obind {A B} (m : outcome A) (k : A -> outcome B) : outcome B :=
  match m with Ret a => k a | Rej => Rej | Oob => Oob end.

Declare Scope c_scope.
Delimit Scope c_scope with c.
#[global] Open Scope c_scope.
Notation "'let!' x ':=' m 'in' k" := (obind m (fun x => k))
  (at level 10, x pattern, m at level 100, k at level 200) : c_scope.
(** [if (!c) return 0;] *)
Notation "'guard' c ';' k" := (if (c : bool) then k else Rej)
  (at level 10, c at level 100, k at level 200) : c_scope.

Lemma obind_Ret {A B} (m : outcome A) (k : A -> outcome B) b :
  obind m k = Ret b <-> exists a, m = Ret a /\ k a = Ret b.
Proof. destruct m; simpl; naive_solver. Qed.

Lemma obind_ne_Oob {A B} (m : outcome A) (k : A -> outcome B) :
  m <> Oob -> (forall a, m = Ret a -> k a <> Oob) -> obind m k <> Oob.
Proof. destruct m; simpl; naive_solver. Qed.

(** The byte at [p[i]]. *)
Definition byte_at (p : bytes) (i : Z) : outcome Z :=
  match zdrop i p with b :: _ => Ret b | [] => Oob end.

(** The bytes [p[off .. off+n)] as a pointer-and-length pair into [p]. *)
Definition sub_at (p : bytes) (off n : Z) : outcome bytes :=
  if (0 <=? off) && (0 <=? n) && (off + n <=? zlen p)
  then Ret (ztake n (zdrop off p)) else Oob.

Lemma sub_at_ok p off n :
  0 <= off -> 0 <= n -> off + n <= zlen p -> sub_at p off n = Ret (ztake n (zdrop off p)).
Proof. intros; unfold sub_at. rewrite !(proj2 (Z.leb_le _ _)) by lia. done. Qed.

Lemma sub_at_Ret p off n s :
  sub_at p off n = Ret s ->
  0 <= off /\ 0 <= n /\ off + n <= zlen p /\ s = ztake n (zdrop off p) /\ zlen s = n.
Proof.
  unfold sub_at. case_match eqn:E; [|done]. intros [= <-].
  apply andb_prop in E as [[E1%Z.leb_le E2%Z.leb_le]%andb_prop E3%Z.leb_le].
  repeat split; try done. zlia.
Qed.

Lemma sub_at_app p l n k :
  n = zlen p -> zlen l = k -> forall r, sub_at (p ++ l ++ r) n k = Ret l.
Proof.
  intros -> <- r. rewrite sub_at_ok by zlia. f_equal.
  rewrite zdrop_app by done. by apply ztake_app.
Qed.

Lemma byte_at_ok p i : 0 <= i < zlen p -> exists b, byte_at p i = Ret b.
Proof.
  intros. unfold byte_at. destruct (zdrop i p) eqn:E; [|by eexists].
  apply (f_equal zlen) in E. zlia.
Qed.

Lemma byte_at_app p b r i : i = zlen p -> byte_at (p ++ b :: r) i = Ret b.
Proof. intros ->. unfold byte_at. by rewrite zdrop_app. Qed.

(** Case analysis on the first boolean test or match of a hypothesis or goal,
    with the comparison turned into arithmetic. *)
Ltac bool_facts :=
  repeat match goal with
  | H : _ && _ = true |- _ => apply andb_prop in H; destruct H
  | H : _ || _ = false |- _ => apply orb_false_elim in H; destruct H
  | H : negb _ = true |- _ => apply negb_true_iff in H
  | H : negb _ = false |- _ => apply negb_false_iff in H
  | H : (_ <=? _) = true |- _ => apply Z.leb_le in H
  | H : (_ <=? _) = false |- _ => apply Z.leb_gt in H
  | H : (_ <? _) = true |- _ => apply Z.ltb_lt in H
  | H : (_ <? _) = false |- _ => apply Z.ltb_ge in H
  | H : (_ >? _) = true |- _ => rewrite Z.gtb_ltb in H
  | H : (_ >? _) = false |- _ => rewrite Z.gtb_ltb in H
  | H : (_ >=? _) = true |- _ => rewrite Z.geb_leb in H
  | H : (_ >=? _) = false |- _ => rewrite Z.geb_leb in H
  | H : (_ =? _) = true |- _ => apply Z.eqb_eq in H
  | H : (_ =? _) = false |- _ => apply Z.eqb_neq in H
  end.

(** Decide the comparisons of the goal from the arithmetic context. *)
Ltac btrue := repeat match goal with
  | |- context [?a <=? ?b] =>
      first [rewrite (proj2 (Z.leb_le a b)) by zlia | rewrite (proj2 (Z.leb_gt a b)) by zlia]
  | |- context [?a <? ?b] =>
      first [rewrite (proj2 (Z.ltb_lt a b)) by zlia | rewrite (proj2 (Z.ltb_ge a b)) by zlia]
  | |- context [?a =? ?b] =>
      first [rewrite (proj2 (Z.eqb_eq a b)) by zlia | rewrite (proj2 (Z.eqb_neq a b)) by zlia]
  end; cbn [negb andb orb].

Lemma bytes_ok_zdrop n l : bytes_ok l -> bytes_ok (zdrop n l).
Proof. apply Forall_drop. Qed.
Lemma bytes_ok_ztake n l : bytes_ok l -> bytes_ok (ztake n l).
Proof. apply Forall_take. Qed.
Lemma bytes_ok_cons b l : bytes_ok (b :: l) <-> is_u8 b /\ bytes_ok l.
Proof. apply list.Forall_cons. Qed.
Lemma bytes_ok_app l k : bytes_ok (l ++ k) <-> bytes_ok l /\ bytes_ok k.
Proof. apply Forall_app. Qed.
#[export] Hint Resolve bytes_ok_zdrop bytes_ok_ztake : words.

Lemma byte_at_range p i : bytes_ok p -> 0 <= i < zlen p -> exists b, byte_at p i = Ret b /\ is_u8 b.
Proof.
  intros Hp Hi. destruct (byte_at_ok p i Hi) as [b Hb]. exists b; split; [done|].
  unfold byte_at in Hb. apply (bytes_ok_zdrop i) in Hp.
  destruct (zdrop i p); [done|]. injection Hb as ->. by inversion Hp.
Qed.

(** * Writing into a buffer *)

(** [memcpy(buf + pos, src, n)]. *)
Definition blit (buf : bytes) (pos : Z) (src : bytes) : bytes :=
  ztake pos buf ++ src ++ zdrop (pos + zlen src) buf.

Lemma lookup_blit buf pos src i :
  0 <= pos -> pos + zlen src <= zlen buf -> 0 <= i ->
  blit buf pos src !! Z.to_nat i = if decide (pos <= i < pos + zlen src) then src !! Z.to_nat (i - pos) else buf !! Z.to_nat i.
Proof.
  intros Hp Hl Hi. unfold blit, ztake, zdrop, zlen in *.
  assert (length (take (Z.to_nat pos) buf) = Z.to_nat pos) as Ht by (rewrite length_take; lia).
  destruct (decide _) as [Hin|Hout].
  - rewrite lookup_app_r by lia. rewrite Ht. rewrite lookup_app_l by lia. f_equal. lia.
  - destruct (decide (i < pos)).
    + rewrite lookup_app_l by lia. by rewrite lookup_take_lt by lia.
    + rewrite lookup_app_r by lia. rewrite Ht. rewrite lookup_app_r by lia. rewrite lookup_drop. f_equal. lia.
Qed.

Lemma blit_len buf pos src : 0 <= pos -> pos + zlen src <= zlen buf -> zlen (blit buf pos src) = zlen buf.
Proof. intros. unfold blit. rewrite !zlen_app, zlen_ztake, zlen_zdrop. pose proof (zlen_nonneg src). lia. Qed.

Lemma blit_mid (A B C S : bytes) pos : pos = zlen A -> zlen B = zlen S -> blit (A ++ B ++ C) pos S = A ++ S ++ C.
Proof.
  intros -> HB. unfold blit. rewrite ztake_app by done. do 2 f_equal. rewrite app_assoc. apply zdrop_app. rewrite zlen_app. lia.
Qed.
