(* ===== verification/Clcodec.v ===== *)
(** The little-endian wire codec and its cursors: [src/src/clcodec.h].

    The field packers [pc_p16/32/64] give the bytes they store; the unpackers
    [pc_g16/32/64] read through a pointer and answer [Oob] past its end.  A
    write cursor is the bytes put so far, its capacity and its latched [ok]; a
    read cursor is the bytes between [p] and [end].  The lemmas give the round
    trip of every field, that a cursor with room appends and one without
    latches, and that a checked peek covers the unchecked reads after it. *)

From stdpp Require Import base tactics list numbers.
From S2P Require Import Prelude.
#[local] Open Scope Z_scope.

(** * Field packers *)

Definition pc_p16 (v : Z) : bytes := [u8 v; u8 (Z.shiftr v 8)].

Definition pc_p32 (v : Z) : bytes :=
  pc_p16 (u16 v) ++ pc_p16 (u16 (Z.shiftr v 16)).

Definition pc_p64 (v : Z) : bytes :=
  pc_p32 (u32 v) ++ pc_p32 (u32 (Z.shiftr v 32)).

Definition pc_g16 (p : bytes) : outcome Z :=
  let! b0 := byte_at p 0 in
  let! b1 := byte_at p 1 in
  Ret (u16 (Z.lor b0 (Z.shiftl b1 8))).

Definition pc_g32 (p : bytes) : outcome Z :=
  let! lo := pc_g16 p in
  let! hi := pc_g16 (zdrop 2 p) in
  Ret (Z.lor lo (u32 (Z.shiftl hi 16))).

Definition pc_g64 (p : bytes) : outcome Z :=
  let! lo := pc_g32 p in
  let! hi := pc_g32 (zdrop 4 p) in
  Ret (Z.lor lo (u64 (Z.shiftl hi 32))).

(** * The write cursor *)

Record pc_wcur := mk_wcur {
  w_out : bytes;                 (* the bytes between buf and p *)
  w_cap : Z;                     (* end - buf *)
  w_ok : bool;
}.

Definition pc_wcur_init (cap : Z) : pc_wcur := mk_wcur [] cap true.

Definition pc_wcur_len (c : pc_wcur) : Z := zlen (w_out c).

(** [pc_wroom]: the answer, and the cursor with [ok] cleared on a refusal. *)
Definition pc_wroom (c : pc_wcur) (n : Z) : bool * pc_wcur :=
  if negb (w_ok c) || (w_cap c - zlen (w_out c) <? n)
  then (false, mk_wcur (w_out c) (w_cap c) false)
  else (true, c).

Definition pc_wput (bs : bytes) (c : pc_wcur) : pc_wcur :=
  let '(room, c) := pc_wroom c (zlen bs) in
  if room then mk_wcur (w_out c ++ bs) (w_cap c) (w_ok c) else c.

Definition pc_w8 (v : Z) (c : pc_wcur) : pc_wcur := pc_wput [u8 v] c.
Definition pc_w16 (v : Z) (c : pc_wcur) : pc_wcur := pc_wput (pc_p16 v) c.
Definition pc_w32 (v : Z) (c : pc_wcur) : pc_wcur := pc_wput (pc_p32 v) c.
Definition pc_w64 (v : Z) (c : pc_wcur) : pc_wcur := pc_wput (pc_p64 v) c.
Definition pc_wraw (src : bytes) (c : pc_wcur) : pc_wcur := pc_wput src c.

(** * The read cursor *)

Record pc_rcur := mk_rcur { r_p : bytes }.      (* the bytes from p to end *)

Definition pc_rcur_init (buf : bytes) : pc_rcur := mk_rcur buf.

Definition pc_rfits (c : pc_rcur) (n : Z) : bool := n <=? zlen (r_p c).

Definition pc_radv (c : pc_rcur) (n : Z) : pc_rcur := mk_rcur (zdrop n (r_p c)).

(** The bounded skip: [Rej] is its [return 0], the cursor unmoved. *)
Definition pc_rskip (c : pc_rcur) (n : Z) : outcome pc_rcur :=
  guard pc_rfits c n; Ret (pc_radv c n).

(** The unchecked reads: past the end they are [Oob]. *)
Definition pc_ru8 (c : pc_rcur) : outcome (Z * pc_rcur) :=
  let! v := byte_at (r_p c) 0 in Ret (v, pc_radv c 1).
Definition pc_ru16 (c : pc_rcur) : outcome (Z * pc_rcur) :=
  let! v := pc_g16 (r_p c) in Ret (v, pc_radv c 2).
Definition pc_ru32 (c : pc_rcur) : outcome (Z * pc_rcur) :=
  let! v := pc_g32 (r_p c) in Ret (v, pc_radv c 4).
Definition pc_ru64 (c : pc_rcur) : outcome (Z * pc_rcur) :=
  let! v := pc_g64 (r_p c) in Ret (v, pc_radv c 8).
Definition pc_rubytes (c : pc_rcur) (n : Z) : outcome (bytes * pc_rcur) :=
  let! s := sub_at (r_p c) 0 n in Ret (s, pc_radv c n).

(** The checked reads: a peek, then the unchecked read. *)
Definition pc_r8 (c : pc_rcur) : outcome (Z * pc_rcur) := guard pc_rfits c 1; pc_ru8 c.
Definition pc_r16 (c : pc_rcur) : outcome (Z * pc_rcur) := guard pc_rfits c 2; pc_ru16 c.
Definition pc_r32 (c : pc_rcur) : outcome (Z * pc_rcur) := guard pc_rfits c 4; pc_ru32 c.
Definition pc_r64 (c : pc_rcur) : outcome (Z * pc_rcur) := guard pc_rfits c 8; pc_ru64 c.
Definition pc_rbytes (c : pc_rcur) (n : Z) : outcome (bytes * pc_rcur) :=
  guard pc_rfits c n; pc_rubytes c n.

(** * Facts about the packers *)

Lemma zlen_p16 v : zlen (pc_p16 v) = 2.
Proof. done. Qed.
Lemma zlen_p32 v : zlen (pc_p32 v) = 4.
Proof. done. Qed.
Lemma zlen_p64 v : zlen (pc_p64 v) = 8.
Proof. done. Qed.
#[export] Hint Rewrite zlen_p16 zlen_p32 zlen_p64 : lens.

Lemma g16_cons b0 b1 r :
  is_u8 b0 -> is_u8 b1 -> pc_g16 (b0 :: b1 :: r) = Ret (b0 + b1 * 256).
Proof.
  intros H0 H1. unfold pc_g16, byte_at, zdrop; simpl. f_equal.
  rewrite lor_shiftl_add by word_lia. rewrite u16_id; word_lia.
Qed.

Lemma pc_g16_p16 v r : pc_g16 (pc_p16 v ++ r) = Ret (u16 v).
Proof.
  unfold pc_p16; simpl. rewrite g16_cons by auto with words. f_equal.
  rewrite shiftr_div by lia. word_lia.
Qed.

Lemma pc_g32_p32 v r : pc_g32 (pc_p32 v ++ r) = Ret (u32 v).
Proof.
  unfold pc_g32, pc_p32. rewrite <- app_assoc, pc_g16_p16. cbn [obind].
  rewrite zdrop_app by done. rewrite pc_g16_p16. cbn [obind]. f_equal.
  rewrite shiftr_div by lia. unfold u32 at 1.
  rewrite Z.mod_small by (rewrite Z.shiftl_mul_pow2 by lia; word_lia).
  rewrite lor_shiftl_add by word_lia. word_lia.
Qed.

Lemma pc_g64_p64 v r : pc_g64 (pc_p64 v ++ r) = Ret (u64 v).
Proof.
  unfold pc_g64, pc_p64. rewrite <- app_assoc, pc_g32_p32. cbn [obind].
  rewrite zdrop_app by done. rewrite pc_g32_p32. cbn [obind]. f_equal.
  rewrite shiftr_div by lia. unfold u64 at 1.
  rewrite Z.mod_small by (rewrite Z.shiftl_mul_pow2 by lia; word_lia).
  rewrite lor_shiftl_add by word_lia. word_lia.
Qed.

Lemma pc_g16_ok p : 2 <= zlen p -> exists v, pc_g16 p = Ret v /\ is_u16 v.
Proof.
  intros H. unfold pc_g16.
  destruct (byte_at_ok p 0) as [a Ha]; [zlia|]. destruct (byte_at_ok p 1) as [b Hb]; [zlia|].
  rewrite Ha, Hb. simpl. eauto with words.
Qed.

Lemma pc_g32_ok p : 4 <= zlen p -> exists v, pc_g32 p = Ret v /\ is_u32 v.
Proof.
  intros H. unfold pc_g32.
  destruct (pc_g16_ok p) as (a & Ha & ?); [zlia|].
  destruct (pc_g16_ok (zdrop 2 p)) as (b & Hb & ?); [zlia|].
  rewrite Ha, Hb. simpl. eexists; split; [done|]. unfold u32.
  rewrite Z.mod_small by (rewrite Z.shiftl_mul_pow2 by lia; word_lia).
  rewrite lor_shiftl_add by word_lia. word_lia.
Qed.

Lemma pc_g64_ok p : 8 <= zlen p -> exists v, pc_g64 p = Ret v /\ is_u64 v.
Proof.
  intros H. unfold pc_g64.
  destruct (pc_g32_ok p) as (a & Ha & ?); [zlia|].
  destruct (pc_g32_ok (zdrop 4 p)) as (b & Hb & ?); [zlia|].
  rewrite Ha, Hb. simpl. eexists; split; [done|]. unfold u64.
  rewrite Z.mod_small by (rewrite Z.shiftl_mul_pow2 by lia; word_lia).
  rewrite lor_shiftl_add by word_lia. word_lia.
Qed.

(** * Facts about the cursors *)

Lemma pc_wput_room bs c :
  w_ok c = true -> zlen (w_out c) + zlen bs <= w_cap c ->
  pc_wput bs c = mk_wcur (w_out c ++ bs) (w_cap c) true.
Proof.
  intros Hok Hr. unfold pc_wput, pc_wroom. rewrite Hok; simpl.
  rewrite (proj2 (Z.ltb_ge _ _)) by lia. simpl. by rewrite Hok.
Qed.

Lemma pc_wput_full bs c :
  w_ok c = false \/ w_cap c < zlen (w_out c) + zlen bs ->
  pc_wput bs c = mk_wcur (w_out c) (w_cap c) false.
Proof.
  intros H. unfold pc_wput, pc_wroom.
  destruct (w_ok c) eqn:Hok; simpl; [|done].
  destruct H as [|H]; [done|]. by rewrite (proj2 (Z.ltb_lt _ _)) by lia.
Qed.

Lemma pc_wput_cap bs c : w_cap (pc_wput bs c) = w_cap c.
Proof. unfold pc_wput, pc_wroom. by destruct (negb _ || _). Qed.

(** A cursor never holds more than its capacity, whatever is written. *)
Lemma pc_wput_bound bs c :
  zlen (w_out c) <= w_cap c -> zlen (w_out (pc_wput bs c)) <= w_cap c.
Proof.
  intros H. destruct (decide (w_ok c = false \/ w_cap c < zlen (w_out c) + zlen bs)) as [Hf|Hf].
  - by rewrite pc_wput_full.
  - destruct (w_ok c) eqn:Hok; [|naive_solver]. rewrite pc_wput_room by (auto; lia). simpl. zlia.
Qed.

(** A sequence of writes: [wseq] is the fields in order. *)
Definition wseq (fs : list bytes) (c : pc_wcur) : pc_wcur := foldl (fun c bs => pc_wput bs c) c fs.

Lemma wseq_room fs c :
  w_ok c = true -> zlen (w_out c) + zlen (concat fs) <= w_cap c ->
  wseq fs c = mk_wcur (w_out c ++ concat fs) (w_cap c) true.
Proof.
  revert c. induction fs as [|bs fs IH]; intros c Hok Hr; simpl.
  - rewrite app_nil_r. destruct c; simpl in *; congruence.
  - simpl in Hr. rewrite pc_wput_room by (done || zlia). rewrite IH by (simpl; done || zlia).
    simpl. by rewrite app_assoc.
Qed.

(** A sequence that does not fit latches: the builder answers 0. *)
Lemma wseq_full fs c :
  w_ok c = false \/ w_cap c < zlen (w_out c) + zlen (concat fs) -> w_ok c = false \/ fs <> [] ->
  w_ok (wseq fs c) = false.
Proof.
  revert c. induction fs as [|bs fs IH]; intros c H Hne; simpl in *; [naive_solver|].
  destruct (decide (w_ok c = false \/ w_cap c < zlen (w_out c) + zlen bs)) as [Hf|Hf].
  - apply IH; rewrite pc_wput_full by done; simpl; auto.
  - destruct (w_ok c) eqn:Hok; [|naive_solver].
    rewrite pc_wput_room by (auto; lia).
    destruct fs as [|b2 fs]; [simpl in *; zlens; naive_solver lia|].
    apply IH; [right|right; done]. simpl in *. zlens. naive_solver lia.
Qed.

Lemma wseq_bound fs c :
  zlen (w_out c) <= w_cap c -> zlen (w_out (wseq fs c)) <= w_cap c.
Proof.
  revert c. induction fs as [|bs fs IH]; intros c H; simpl; [done|].
  rewrite <- (pc_wput_cap bs c). apply IH. rewrite pc_wput_cap. by apply pc_wput_bound.
Qed.

(** The unchecked reads at the head of the bytes their packers wrote. *)
Lemma ru8_cons b r : pc_ru8 (mk_rcur (b :: r)) = Ret (b, mk_rcur r).
Proof. done. Qed.
Lemma ru16_app v r : pc_ru16 (mk_rcur (pc_p16 v ++ r)) = Ret (u16 v, mk_rcur r).
Proof. unfold pc_ru16; cbn [r_p]. rewrite pc_g16_p16. cbn [obind]. unfold pc_radv; cbn [r_p]. by rewrite zdrop_app. Qed.
Lemma ru32_app v r : pc_ru32 (mk_rcur (pc_p32 v ++ r)) = Ret (u32 v, mk_rcur r).
Proof. unfold pc_ru32; cbn [r_p]. rewrite pc_g32_p32. cbn [obind]. unfold pc_radv; cbn [r_p]. by rewrite zdrop_app. Qed.
Lemma ru64_app v r : pc_ru64 (mk_rcur (pc_p64 v ++ r)) = Ret (u64 v, mk_rcur r).
Proof. unfold pc_ru64; cbn [r_p]. rewrite pc_g64_p64. cbn [obind]. unfold pc_radv; cbn [r_p]. by rewrite zdrop_app. Qed.

(** An unchecked read covered by a peek is defined, in range, and leaves the
    rest of the peeked group in place. *)
Section Covered.
Context (c : pc_rcur) (n : Z) (Hn : n <= zlen (r_p c)).

Lemma ru8_ok : 1 <= n -> exists v c', pc_ru8 c = Ret (v, c') /\ c' = pc_radv c 1 /\
  (bytes_ok (r_p c) -> is_u8 v).
Proof using Hn.
  intros. unfold pc_ru8, byte_at. rewrite zdrop_0 by lia.
  destruct (r_p c) as [|b l] eqn:E; [zlia|]. simpl.
  eexists _, _; split_and!; [done..|]. by inversion 1.
Qed.
Lemma ru16_ok : 2 <= n -> exists v c', pc_ru16 c = Ret (v, c') /\ c' = pc_radv c 2 /\ is_u16 v.
Proof using Hn.
  intros. unfold pc_ru16. destruct (pc_g16_ok (r_p c)) as (v & -> & ?); [lia|]. simpl; eauto.
Qed.
Lemma ru32_ok : 4 <= n -> exists v c', pc_ru32 c = Ret (v, c') /\ c' = pc_radv c 4 /\ is_u32 v.
Proof using Hn.
  intros. unfold pc_ru32. destruct (pc_g32_ok (r_p c)) as (v & -> & ?); [lia|]. simpl; eauto.
Qed.
Lemma ru64_ok : 8 <= n -> exists v c', pc_ru64 c = Ret (v, c') /\ c' = pc_radv c 8 /\ is_u64 v.
Proof using Hn.
  intros. unfold pc_ru64. destruct (pc_g64_ok (r_p c)) as (v & -> & ?); [lia|]. simpl; eauto.
Qed.
End Covered.

(** The checked reads never leave the buffer, at any length. *)
Lemma pc_r_checked_safe c n :
  0 <= n ->
  pc_r8 c <> Oob /\ pc_r16 c <> Oob /\ pc_r32 c <> Oob /\ pc_r64 c <> Oob /\
  pc_rbytes c n <> Oob /\ pc_rskip c n <> Oob.
Proof.
  intros Hn. unfold pc_r8, pc_r16, pc_r32, pc_r64, pc_rbytes, pc_rskip, pc_rfits.
  repeat split; (case_match; bool_facts; [|done]).
  - by destruct (ru8_ok c 1) as (?&?&->&_); [lia..|].
  - by destruct (ru16_ok c 2) as (?&?&->&_); [lia..|].
  - by destruct (ru32_ok c 4) as (?&?&->&_); [lia..|].
  - by destruct (ru64_ok c 8) as (?&?&->&_); [lia..|].
  - unfold pc_rubytes. by rewrite sub_at_ok by lia.
  - done.
Qed.

(** Rewrite the unchecked reads of a concrete frame in order. *)
Create Rewrite HintDb rd.
#[export] Hint Rewrite ru8_cons ru16_app ru32_app ru64_app : rd.

Lemma pc_radv_len c n : 0 <= n -> zlen (r_p (pc_radv c n)) = Z.max 0 (zlen (r_p c) - n).
Proof. intros; unfold pc_radv; simpl. zlia. Qed.
Lemma pc_radv_ok c n : bytes_ok (r_p c) -> bytes_ok (r_p (pc_radv c n)).
Proof. unfold pc_radv; simpl; auto with words. Qed.
#[export] Hint Resolve pc_radv_ok : words.

(** Walk a parser's unchecked reads under the peek that covers them: each read
    is replaced by a fresh value in range.  [rd_walk] finishes on guards. *)
Ltac cur_len := repeat rewrite pc_radv_len in * by lia; simpl r_p in *; zlia.
Ltac rd_step :=
  match goal with
  | |- context [pc_ru8 ?c] =>
      let v := fresh "v" in let H := fresh "Hr" in let Hv := fresh "Hv" in
      destruct (ru8_ok c (zlen (r_p c))) as (v & ? & H & -> & Hv);
      [lia | cur_len | rewrite H; clear H; cbn [obind]; specialize (Hv ltac:(eauto 20 with words))]
  | |- context [pc_ru16 ?c] =>
      let v := fresh "v" in let H := fresh "Hr" in let Hv := fresh "Hv" in
      destruct (ru16_ok c (zlen (r_p c))) as (v & ? & H & -> & Hv);
      [lia | cur_len | rewrite H; clear H; cbn [obind]]
  | |- context [pc_ru32 ?c] =>
      let v := fresh "v" in let H := fresh "Hr" in let Hv := fresh "Hv" in
      destruct (ru32_ok c (zlen (r_p c))) as (v & ? & H & -> & Hv);
      [lia | cur_len | rewrite H; clear H; cbn [obind]]
  | |- context [pc_ru64 ?c] =>
      let v := fresh "v" in let H := fresh "Hr" in let Hv := fresh "Hv" in
      destruct (ru64_ok c (zlen (r_p c))) as (v & ? & H & -> & Hv);
      [lia | cur_len | rewrite H; clear H; cbn [obind]]
  | |- context [sub_at ?p ?o ?n] => rewrite (sub_at_ok p o n) by (zlens; pose_lens; word_lia); cbn [obind]
  end.

(** * Walking a concrete frame *)

Lemma sub_at_skip p l off n :
  zlen p <= off -> sub_at (p ++ l) off n = sub_at l (off - zlen p) n.
Proof.
  intros H. unfold sub_at. pose_lens.
  replace (0 <=? off) with true by (symmetry; lia).
  replace (0 <=? off - zlen p) with true by (symmetry; lia).
  destruct (0 <=? n) eqn:E; [|done]; bool_facts. simpl.
  replace (off + n <=? zlen (p ++ l)) with (off - zlen p + n <=? zlen l).
  - by rewrite zdrop_app_ge.
  - zlens. destruct (_ <=? _) eqn:E2; symmetry; [apply Z.leb_le|apply Z.leb_gt]; bool_facts; lia.
Qed.
Lemma sub_at_skip1 b l off n : 1 <= off -> sub_at (b :: l) off n = sub_at l (off - 1) n.
Proof. intros H. apply (sub_at_skip [b]). done. Qed.
Lemma sub_at_here l r off n : off = 0 -> n = zlen l -> sub_at (l ++ r) off n = Ret l.
Proof. intros -> ->. by apply (sub_at_app [] l). Qed.
Lemma sub_at_last l off n : off = 0 -> n = zlen l -> sub_at l off n = Ret l.
Proof. intros -> ->. rewrite <- (app_nil_r l) at 1. by apply sub_at_here. Qed.

(** Resolve [sub_at] on a frame written as a concatenation of its fields. *)
Ltac sub_walk :=
  repeat first
    [ rewrite sub_at_here by zlia | rewrite sub_at_last by zlia
    | rewrite sub_at_skip1 by zlia | rewrite sub_at_skip by zlia ]; cbn [obind].

Lemma wseq_built fs len :
  zlen (concat fs) = len -> wseq fs (pc_wcur_init len) = mk_wcur (concat fs) len true.
Proof. intros H. rewrite wseq_room; simpl; [done..|]. zlia. Qed.

Lemma wseq_snoc fs v c : wseq (fs ++ [v]) c = pc_wput v (wseq fs c).
Proof. unfold wseq. by rewrite foldl_app. Qed.

Lemma wseq_snoc_if (b : bool) fs v c :
  (if b then wseq fs c else pc_wput v (wseq fs c)) = wseq (fs ++ (if b then [] else [v])) c.
Proof. unfold wseq. destruct b; by rewrite foldl_app. Qed.

(** Show a builder's cursor as the [wseq] of its fields. *)
Ltac unfold_w :=
  cbv zeta; unfold pc_w8, pc_w16, pc_w32, pc_w64, pc_wraw;
  repeat match goal with
  | |- context [pc_wput ?b (pc_wcur_init ?n)] =>
      change (pc_wput b (pc_wcur_init n)) with (wseq [b] (pc_wcur_init n))
  | |- context [pc_wput ?b (wseq ?fs ?c)] =>
      rewrite <- (wseq_snoc fs b c); cbn [app]
  end.

(** Read a concrete frame field by field. *)
Ltac rd_frame :=
  repeat first
    [ rewrite ru8_cons; cbn [obind] | rewrite ru16_app; cbn [obind]
    | rewrite ru32_app; cbn [obind] | rewrite ru64_app; cbn [obind] ].
