(* ===== verification/Clfwd.v ===== *)
(** The proxy write plane's wire frames: [src/src/clfwd.c], [src/src/clfwd.h].

    A write that reaches a node which does not own its key is forwarded to the
    holder (FWD_OP) and acknowledged (FWD_ACK); a birth race is settled by
    DEMOTE, a delete broadcast by TOMBSTONE, and JSON edits travel as FWD_JSON
    and FWD_JACK.  Each frame has its builder, with the length the C computes
    in 32-bit unsigned arithmetic and the bytes left in the message buffer,
    and its parser, whose pointers into the datagram are checked ([Oob]).

    A pointer-and-length pair of a struct is the list of its bytes, so
    [collen], [klen], ... are the lengths of those lists. *)

From stdpp Require Import base tactics list numbers.
From S2P Require Import Prelude Clcodec.
#[local] Open Scope Z_scope.

Definition CLFWD_OP_HDR : Z := 23.
Definition CLFWD_ACK_LEN : Z := 14.
Definition CLFWD_DEMOTE_HDR : Z := 6.
Definition CLFWD_TOMB_HDR : Z := 4.
Definition CLFWD_TOMB_F_EXPIRY : Z := 1.
Definition CLFWD_TOMB_F_NUMBERED : Z := 2.
Definition CLFWD_TOMB_F_KEEP : Z := 4.
Definition CLFWD_TOMB_NUM_LEN : Z := 20.
Definition CLFWD_JSON_HDR : Z := 30.
Definition CLFWD_JACK_HDR : Z := 23.

(** What a builder leaves: the length it returns (0 when the cursor latched)
    and the bytes it put at [msg]. *)
Definition built (len : Z) (c : pc_wcur) : Z * bytes :=
  (if w_ok c then len else 0, w_out c).

(** * The forwarded operation and its acknowledgement *)

Record clfwd_op := mk_op {
  op_req : Z; op_node : Z; op_op : Z; op_ttl_rel : Z; op_delta : Z;
  op_col : bytes; op_key : bytes; op_val : bytes;
}.

Definition clfwd_op_size (collen klen vlen : Z) : Z :=
  u32 (CLFWD_OP_HDR + collen + klen + vlen).

Definition clfwd_op_build (type : Z) (f : clfwd_op) : Z * bytes :=
  let len := clfwd_op_size (zlen (op_col f)) (zlen (op_key f)) (zlen (op_val f)) in
  let c := pc_wcur_init len in
  let c := pc_w8 type c in
  let c := pc_w32 (op_req f) c in
  let c := pc_w16 (u16 (op_node f)) c in
  let c := pc_w8 (op_op f) c in
  let c := pc_w32 (op_ttl_rel f) c in
  let c := pc_w64 (u64 (op_delta f)) c in
  let c := pc_w8 (zlen (op_col f)) c in
  let c := pc_w16 (u16 (zlen (op_key f))) c in
  let c := pc_wraw (op_col f) c in
  let c := pc_wraw (op_key f) c in
  let c := if zlen (op_val f) =? 0 then c else pc_wraw (op_val f) c in
  built len c.

Definition clfwd_op_parse (pt : bytes) : outcome clfwd_op :=
  let n := zlen pt in
  let! c := pc_rskip (pc_rcur_init pt) 1 in
  guard pc_rfits c (CLFWD_OP_HDR - 1);
  let! (req, c) := pc_ru32 c in
  let! (node, c) := pc_ru16 c in
  let! (op, c) := pc_ru8 c in
  let! (ttl, c) := pc_ru32 c in
  let! (delta, c) := pc_ru64 c in
  let! (collen, c) := pc_ru8 c in
  let! (klen, c) := pc_ru16 c in
  guard negb (n <? CLFWD_OP_HDR + collen + klen);
  let! col := sub_at pt CLFWD_OP_HDR collen in
  let! key := sub_at pt (CLFWD_OP_HDR + collen) klen in
  let! val := sub_at pt (CLFWD_OP_HDR + collen + klen)
                (u32 (n - CLFWD_OP_HDR - collen - klen)) in
  Ret (mk_op req node (u8 op) ttl (s64 delta) col key val).

(** [clfwd_op_frame]: this node's FWD_OP under [M_FWD_OP]. *)
Definition M_FWD_OP : Z := 5.
Definition clfwd_op_frame (req node op ttl_rel delta : Z) (col key val : bytes) : Z * bytes :=
  clfwd_op_build M_FWD_OP (mk_op req (u32 node) (u8 op) ttl_rel delta col key val).

Record clfwd_ack := mk_ack { ack_req : Z; ack_ok : Z; ack_newval : Z }.

Definition clfwd_ack_build (type : Z) (a : clfwd_ack) : Z * bytes :=
  let c := pc_wcur_init CLFWD_ACK_LEN in
  let c := pc_w8 type c in
  let c := pc_w32 (ack_req a) c in
  let c := pc_w8 (ack_ok a) c in
  let c := pc_w64 (u64 (ack_newval a)) c in
  built CLFWD_ACK_LEN c.

Definition clfwd_ack_parse (pt : bytes) : outcome clfwd_ack :=
  let! c := pc_rskip (pc_rcur_init pt) 1 in
  guard pc_rfits c (CLFWD_ACK_LEN - 1);
  let! (req, c) := pc_ru32 c in
  let! (ok, c) := pc_ru8 c in
  let! (newval, c) := pc_ru64 c in
  Ret (mk_ack req ok (s64 newval)).

(** * The ownership-correction frames *)

Record clfwd_key := mk_key { k_col : bytes; k_key : bytes }.

Definition key_tail_build (k : clfwd_key) (c : pc_wcur) : pc_wcur :=
  let c := pc_w8 (zlen (k_col k)) c in
  let c := pc_w16 (u16 (zlen (k_key k))) c in
  let c := pc_wraw (k_col k) c in
  pc_wraw (k_key k) c.

Definition key_tail_size (k : clfwd_key) : Z := u32 (3 + zlen (k_col k) + zlen (k_key k)).

Definition key_tail_parse (c : pc_rcur) (pt : bytes) (n hdr : Z) : outcome clfwd_key :=
  guard pc_rfits c 3;
  let! (collen, c) := pc_ru8 c in
  let! (klen, c) := pc_ru16 c in
  guard negb (n <? hdr + collen + klen);
  let! col := sub_at pt hdr collen in
  let! key := sub_at pt (hdr + collen) klen in
  Ret (mk_key col key).

Definition clfwd_demote_build (type winner : Z) (k : clfwd_key) (ver : Z) : Z * bytes :=
  let len := 3 + key_tail_size k + 8 in
  let c := pc_wcur_init len in
  let c := pc_w8 type c in
  let c := pc_w16 (u16 winner) c in
  let c := key_tail_build k c in
  let c := pc_w64 ver c in
  built len c.

Definition clfwd_demote_parse (pt : bytes) : outcome (Z * clfwd_key * Z) :=
  let n := zlen pt in
  let! c := pc_rskip (pc_rcur_init pt) 1 in
  guard pc_rfits c 2;
  let! (winner, c) := pc_ru16 c in
  let! k := key_tail_parse c pt n CLFWD_DEMOTE_HDR in
  let tail := CLFWD_DEMOTE_HDR + zlen (k_col k) + zlen (k_key k) in
  let! ver := if tail + 8 <=? n then pc_g64 (zdrop tail pt) else Ret 0 in
  Ret (winner, k, ver).

Record clfwd_tomb_num := mk_num { n_oid : Z; n_incarn : Z; n_seq : Z }.

Definition tomb_flags (flags : Z) (num : option clfwd_tomb_num) : Z :=
  let flags := Z.ldiff flags CLFWD_TOMB_F_NUMBERED in
  match num with
  | Some m => if n_seq m =? 0 then flags else Z.lor flags CLFWD_TOMB_F_NUMBERED
  | None => flags
  end.

Definition numbered (flags : Z) : bool := negb (Z.land flags CLFWD_TOMB_F_NUMBERED =? 0).

Definition clfwd_tomb_build_n (type : Z) (k : clfwd_key) (ver flags : Z)
    (num : option clfwd_tomb_num) : Z * bytes :=
  let flags := tomb_flags flags num in
  let len := 1 + key_tail_size k + 8 + (if flags =? 0 then 0 else 1) +
             (if numbered flags then CLFWD_TOMB_NUM_LEN else 0) in
  let c := pc_wcur_init len in
  let c := pc_w8 type c in
  let c := key_tail_build k c in
  let c := pc_w64 ver c in
  let c := if flags =? 0 then c else pc_w8 (Z.land flags 255) c in
  let c := match num with
           | Some m => if numbered flags
                       then pc_w64 (n_seq m) (pc_w32 (n_incarn m) (pc_w64 (n_oid m) c))
                       else c
           | None => c
           end in
  built len c.

Definition clfwd_tomb_build_f (type : Z) (k : clfwd_key) (ver flags : Z) : Z * bytes :=
  clfwd_tomb_build_n type k ver flags None.
Definition clfwd_tomb_build (type : Z) (k : clfwd_key) (ver : Z) : Z * bytes :=
  clfwd_tomb_build_f type k ver 0.

(** [want_num] is the caller's [num != NULL]. *)
Definition clfwd_tomb_parse_n (want_num : bool) (pt : bytes)
    : outcome (clfwd_key * Z * Z * clfwd_tomb_num) :=
  let n := zlen pt in
  let! c := pc_rskip (pc_rcur_init pt) 1 in
  let! k := key_tail_parse c pt n CLFWD_TOMB_HDR in
  let tail := CLFWD_TOMB_HDR + zlen (k_col k) + zlen (k_key k) in
  let! ver := if tail + 8 <=? n then pc_g64 (zdrop tail pt) else Ret 0 in
  let! f := if tail + 9 <=? n then byte_at pt (tail + 8) else Ret 0 in
  let f := if numbered f && (n <? tail + 9 + CLFWD_TOMB_NUM_LEN)
           then Z.ldiff f CLFWD_TOMB_F_NUMBERED else f in
  let! num := if want_num && numbered f
              then let! oid := pc_g64 (zdrop (tail + 9) pt) in
                   let! incarn := pc_g32 (zdrop (tail + 17) pt) in
                   let! seq := pc_g64 (zdrop (tail + 21) pt) in
                   Ret (mk_num oid incarn seq)
              else Ret (mk_num 0 0 0) in
  Ret (k, ver, f, num).

Definition clfwd_tomb_parse_f (pt : bytes) : outcome (clfwd_key * Z * Z) :=
  let! (k, ver, f, _) := clfwd_tomb_parse_n false pt in Ret (k, ver, f).
Definition clfwd_tomb_parse (pt : bytes) : outcome (clfwd_key * Z) :=
  let! (k, ver, _) := clfwd_tomb_parse_f pt in Ret (k, ver).

(** * The JSON forward frames *)

Record clfwd_json := mk_json {
  j_req : Z; j_node : Z; j_jop : Z; j_flags : Z; j_ttl : Z; j_by : Z;
  j_col : bytes; j_key : bytes; j_path : bytes; j_val : bytes;
}.

Definition clfwd_json_build (type : Z) (j : clfwd_json) : Z * bytes :=
  let len := u32 (CLFWD_JSON_HDR + zlen (j_col j) + zlen (j_key j) + zlen (j_path j)
                  + zlen (j_val j)) in
  let c := pc_wcur_init len in
  let c := pc_w8 type c in
  let c := pc_w32 (j_req j) c in
  let c := pc_w16 (u16 (j_node j)) c in
  let c := pc_w8 (j_jop j) c in
  let c := pc_w8 (j_flags j) c in
  let c := pc_w32 (j_ttl j) c in
  let c := pc_w64 (u64 (j_by j)) c in
  let c := pc_w8 (zlen (j_col j)) c in
  let c := pc_w16 (u16 (zlen (j_key j))) c in
  let c := pc_w16 (u16 (zlen (j_path j))) c in
  let c := pc_w32 (zlen (j_val j)) c in
  let c := pc_wraw (j_col j) c in
  let c := pc_wraw (j_key j) c in
  let c := pc_wraw (j_path j) c in
  let c := if zlen (j_val j) =? 0 then c else pc_wraw (j_val j) c in
  built len c.

Definition clfwd_json_parse (pt : bytes) : outcome clfwd_json :=
  let n := zlen pt in
  let! c := pc_rskip (pc_rcur_init pt) 1 in
  guard pc_rfits c (CLFWD_JSON_HDR - 1);
  let! (req, c) := pc_ru32 c in
  let! (node, c) := pc_ru16 c in
  let! (jop, c) := pc_ru8 c in
  let! (flags, c) := pc_ru8 c in
  let! (ttl, c) := pc_ru32 c in
  let! (by_, c) := pc_ru64 c in
  let! (collen, c) := pc_ru8 c in
  let! (klen, c) := pc_ru16 c in
  let! (plen, c) := pc_ru16 c in
  let! (vlen, c) := pc_ru32 c in
  guard negb (n <? u64 (CLFWD_JSON_HDR + collen + klen + plen + vlen));
  let! col := sub_at pt CLFWD_JSON_HDR collen in
  let! key := sub_at pt (CLFWD_JSON_HDR + collen) klen in
  let! path := sub_at pt (CLFWD_JSON_HDR + collen + klen) plen in
  let! val := sub_at pt (CLFWD_JSON_HDR + collen + klen + plen) vlen in
  Ret (mk_json req node (u8 jop) (u8 flags) ttl (s64 by_) col key path val).

Record clfwd_jack := mk_jack {
  ja_req : Z; ja_st : Z; ja_jop : Z; ja_newval : Z; ja_cnt : Z; ja_frag : bytes;
}.

Definition clfwd_jack_build (type : Z) (a : clfwd_jack) : Z * bytes :=
  let fl := if ja_st a =? 0 then zlen (ja_frag a) else 0 in
  let len := u32 (CLFWD_JACK_HDR + fl) in
  let c := pc_wcur_init len in
  let c := pc_w8 type c in
  let c := pc_w32 (ja_req a) c in
  let c := pc_w8 (ja_st a) c in
  let c := pc_w8 (ja_jop a) c in
  let c := pc_w64 (u64 (ja_newval a)) c in
  let c := pc_w32 (ja_cnt a) c in
  let c := pc_w32 fl c in
  let c := if fl =? 0 then c else pc_wraw (ztake fl (ja_frag a)) c in
  built len c.

Definition clfwd_jack_parse (pt : bytes) : outcome clfwd_jack :=
  let n := zlen pt in
  let! c := pc_rskip (pc_rcur_init pt) 1 in
  guard pc_rfits c (CLFWD_JACK_HDR - 1);
  let! (req, c) := pc_ru32 c in
  let! (st, c) := pc_ru8 c in
  let! (jop, c) := pc_ru8 c in
  let! (newval, c) := pc_ru64 c in
  let! (cnt, c) := pc_ru32 c in
  let! (fraglen, c) := pc_ru32 c in
  guard negb (n <? u64 (CLFWD_JACK_HDR + fraglen));
  let! frag := if fraglen =? 0 then Ret [] else sub_at pt CLFWD_JACK_HDR fraglen in
  Ret (mk_jack req (u8 st) (u8 jop) (s64 newval) cnt frag).

(** * Memory safety of the parsers *)

Lemma fwd_skip_fits pt n :
  0 <= n -> forall {A} (k : pc_rcur -> outcome A),
  (n + 1 <= zlen pt -> k (pc_radv (mk_rcur pt) 1) <> Oob) ->
  (let! c := pc_rskip (pc_rcur_init pt) 1 in guard pc_rfits c n; k c) <> Oob.
Proof.
  intros Hn A k Hk. unfold pc_rskip, pc_rcur_init, pc_rfits. simpl r_p.
  case_match; [|done]; bool_facts. cbn [obind]. rewrite pc_radv_len by lia. simpl r_p.
  case_match; [|done]; bool_facts. apply Hk. zlia.
Qed.

Lemma clfwd_op_parse_safe pt : bytes_ok pt -> clfwd_op_parse pt <> Oob.
Proof.
  intros Hb. unfold clfwd_op_parse. apply fwd_skip_fits; [done|].
  unfold CLFWD_OP_HDR in *. intros Hl. do 7 rd_step.
  case_match; [|done]; bool_facts. 
  do 3 rd_step. done.
Qed.

Lemma clfwd_ack_parse_safe pt : bytes_ok pt -> clfwd_ack_parse pt <> Oob.
Proof.
  intros Hb. unfold clfwd_ack_parse. apply fwd_skip_fits; [done|].
  unfold CLFWD_ACK_LEN in *. intros Hl. do 3 rd_step. done.
Qed.

Lemma key_tail_parse_safe c pt n hdr :
  bytes_ok (r_p c) -> n = zlen pt -> 0 <= hdr -> key_tail_parse c pt n hdr <> Oob.
Proof.
  intros Hb -> Hh. unfold key_tail_parse, pc_rfits. case_match; [|done]; bool_facts.
  do 2 rd_step. case_match; [|done]; bool_facts. do 2 rd_step. done.
Qed.

Lemma key_tail_parse_inv c pt n hdr k :
  0 <= hdr -> n = zlen pt -> key_tail_parse c pt n hdr = Ret k ->
  hdr + zlen (k_col k) + zlen (k_key k) <= zlen pt /\
  zdrop hdr pt = k_col k ++ k_key k ++ zdrop (hdr + zlen (k_col k) + zlen (k_key k)) pt.
Proof.
  intros Hh -> H. unfold key_tail_parse in H. case_match; [|done].
  apply obind_Ret in H as ([cl c1] & _ & H). apply obind_Ret in H as ([kl c2] & _ & H).
  case_match; [|done]. bool_facts.
  apply obind_Ret in H as (col & Hc & H). apply obind_Ret in H as (key & Hk & [= <-]).
  apply sub_at_Ret in Hc as (? & ? & ? & -> & El). apply sub_at_Ret in Hk as (? & ? & ? & -> & Ek).
  simpl. rewrite El, Ek. split; [lia|].
  rewrite <- (ztake_zdrop cl (zdrop hdr pt)) at 1. f_equal. rewrite zdrop_zdrop by lia.
  rewrite <- (ztake_zdrop kl (zdrop (hdr + cl) pt)) at 1. f_equal.
  by rewrite zdrop_zdrop by lia.
Qed.

Lemma clfwd_demote_parse_safe pt : bytes_ok pt -> clfwd_demote_parse pt <> Oob.
Proof.
  intros Hb. unfold clfwd_demote_parse. apply fwd_skip_fits; [done|]. intros Hl. rd_step.
  apply obind_ne_Oob; [by apply key_tail_parse_safe; eauto with words|].
  intros k Hk. apply key_tail_parse_inv in Hk as [Hk _]; [|done..].
  unfold CLFWD_DEMOTE_HDR in *. apply obind_ne_Oob; [|done].
  case_match; [|done]; bool_facts. 
  destruct (pc_g64_ok (zdrop (6 + zlen (k_col k) + zlen (k_key k)) pt)) as (x & -> & _); [zlia|done].
Qed.

Lemma pc_rskip1 pt c : pc_rskip (pc_rcur_init pt) 1 = Ret c -> c = pc_radv (mk_rcur pt) 1.
Proof. unfold pc_rskip. case_match; [|done]. by intros [= <-]. Qed.

Lemma clfwd_tomb_parse_safe w pt : bytes_ok pt -> clfwd_tomb_parse_n w pt <> Oob.
Proof.
  intros Hb. unfold clfwd_tomb_parse_n.
  apply obind_ne_Oob; [by apply (pc_r_checked_safe _ 1)|].
  intros c ->%pc_rskip1. apply obind_ne_Oob; [by apply key_tail_parse_safe; eauto with words|].
  intros k Hk. apply key_tail_parse_inv in Hk as [Hk _]; [|done..].
  unfold CLFWD_TOMB_HDR, CLFWD_TOMB_NUM_LEN in *. set (tail := 4 + _ + _) in *.
  pose proof (zlen_nonneg (k_col k)). pose proof (zlen_nonneg (k_key k)).
  apply obind_ne_Oob.
  { case_match; [|done]; bool_facts. destruct (pc_g64_ok (zdrop tail pt)) as (? & -> & _); [zlia|done]. }
  intros ver _. apply obind_ne_Oob.
  { case_match; [|done]; bool_facts. destruct (byte_at_ok pt (tail + 8)) as [? ->]; [lia|done]. }
  intros f Hf. apply obind_ne_Oob; [|done].
  destruct (w && numbered _) eqn:E; [|done]. apply andb_prop in E as [_ E].
  assert (tail + 29 <= zlen pt) as Hl.
  { revert E. destruct (numbered f && _) eqn:E2.
    - unfold numbered. by rewrite Z.land_ldiff.
    - apply andb_false_iff in E2 as [E2|E2]; [by rewrite E2|bool_facts; lia]. }
  destruct (pc_g64_ok (zdrop (tail + 9) pt)) as (? & -> & _); [zlia|].
  destruct (pc_g32_ok (zdrop (tail + 17) pt)) as (? & -> & _); [zlia|].
  destruct (pc_g64_ok (zdrop (tail + 21) pt)) as (? & -> & _); [zlia|]. done.
Qed.

Lemma clfwd_json_parse_safe pt : bytes_ok pt -> clfwd_json_parse pt <> Oob.
Proof.
  intros Hb. unfold clfwd_json_parse. apply fwd_skip_fits; [done|].
  unfold CLFWD_JSON_HDR in *. intros Hl. do 10 rd_step.
  rewrite u64_id by word_lia. case_match; [|done]; bool_facts. do 4 rd_step. done.
Qed.

Lemma clfwd_jack_parse_safe pt : bytes_ok pt -> clfwd_jack_parse pt <> Oob.
Proof.
  intros Hb. unfold clfwd_jack_parse. apply fwd_skip_fits; [done|].
  unfold CLFWD_JACK_HDR in *. intros Hl. do 6 rd_step.
  rewrite u64_id by word_lia. case_match; [|done]; bool_facts.
  case_match; [done|]. rd_step. done.
Qed.

(** * The frames as byte strings *)

Definition op_frame (type : Z) (f : clfwd_op) : bytes :=
  [u8 type] ++ pc_p32 (op_req f) ++ pc_p16 (u16 (op_node f)) ++ [u8 (op_op f)] ++
  pc_p32 (op_ttl_rel f) ++ pc_p64 (u64 (op_delta f)) ++ [u8 (zlen (op_col f))] ++
  pc_p16 (u16 (zlen (op_key f))) ++ op_col f ++ op_key f ++ op_val f.

(** A builder whose last field is skipped when empty. *)
Ltac frame_done frame :=
  unfold frame; rewrite wseq_built; cbn [w_ok w_out concat]; rewrite ?app_nil_r, <- ?app_assoc; done.
Ltac frame_case frame v :=
  let E := fresh "E" in destruct (zlen v =? 0) eqn:E;
  [apply Z.eqb_eq in E; apply zlen_zero in E; unfold frame; rewrite E, ?app_nil_r|];
  frame_done frame.

Lemma zlen_op_frame type f :
  zlen (op_frame type f) = 23 + zlen (op_col f) + zlen (op_key f) + zlen (op_val f).
Proof. unfold op_frame. zlens. lia. Qed.

Record op_wf (f : clfwd_op) : Prop := {
  op_wf_req : is_u32 (op_req f); op_wf_node : is_u16 (op_node f); op_wf_op : is_u8 (op_op f);
  op_wf_ttl : is_u32 (op_ttl_rel f); op_wf_delta : is_s64 (op_delta f);
  op_wf_col : zlen (op_col f) < 2 ^ 8; op_wf_key : zlen (op_key f) < 2 ^ 16;
  op_wf_len : 23 + zlen (op_col f) + zlen (op_key f) + zlen (op_val f) < 2 ^ 32;
}.

Lemma op_build_frame type f :
  23 + zlen (op_col f) + zlen (op_key f) + zlen (op_val f) < 2 ^ 32 ->
  clfwd_op_build type f = (zlen (op_frame type f), op_frame type f).
Proof.
  intros Hl. unfold clfwd_op_build, built.
  replace (clfwd_op_size _ _ _) with (zlen (op_frame type f)); unfold_w.
  - frame_case op_frame (op_val f).
  - rewrite zlen_op_frame. unfold clfwd_op_size, CLFWD_OP_HDR. rewrite u32_id; [done|]. pose_lens. word_lia.
Qed.

Lemma rskip1_cons b r : pc_rskip (pc_rcur_init (b :: r)) 1 = Ret (mk_rcur r).
Proof.
  unfold pc_rskip, pc_rfits, pc_rcur_init, pc_radv. simpl r_p. btrue.
  done.
Qed.

Lemma op_parse_frame type f : op_wf f -> clfwd_op_parse (op_frame type f) = Ret f.
Proof.
  intros [Hr Hn Ho Ht Hd Hc Hk Hl]. unfold clfwd_op_parse. cbv zeta. rewrite zlen_op_frame.
  unfold op_frame. cbn [app]. rewrite rskip1_cons. cbn [obind].
  unfold pc_rfits, CLFWD_OP_HDR in *. cbn [r_p]. btrue.
  rd_frame. pose_lens. autorewrite with words. btrue. sub_walk. autorewrite with words.
  by destruct f.
Qed.

Definition ack_frame (type : Z) (a : clfwd_ack) : bytes :=
  [u8 type] ++ pc_p32 (ack_req a) ++ [u8 (ack_ok a)] ++ pc_p64 (u64 (ack_newval a)).

Record ack_wf (a : clfwd_ack) : Prop := {
  ack_wf_req : is_u32 (ack_req a); ack_wf_ok : is_u8 (ack_ok a);
  ack_wf_newval : is_s64 (ack_newval a);
}.

Lemma ack_build_frame type a : clfwd_ack_build type a = (CLFWD_ACK_LEN, ack_frame type a).
Proof. unfold clfwd_ack_build, built. unfold_w. frame_done ack_frame. Qed.

Lemma ack_parse_frame type a : ack_wf a -> clfwd_ack_parse (ack_frame type a) = Ret a.
Proof.
  intros [Hr Ho Hn]. unfold clfwd_ack_parse, ack_frame. cbn [app]. rewrite rskip1_cons. cbn [obind].
  unfold pc_rfits, CLFWD_ACK_LEN. cbn [r_p]. btrue.
  rewrite <- (app_nil_r (pc_p64 _)). rd_frame. autorewrite with words. by destruct a.
Qed.

(** * The key tail, and the demote and tombstone frames *)

Record key_wf (k : clfwd_key) : Prop := {
  key_wf_col : zlen (k_col k) < 2 ^ 8; key_wf_key : zlen (k_key k) < 2 ^ 16;
}.

Definition key_frame (k : clfwd_key) : bytes :=
  [u8 (zlen (k_col k))] ++ pc_p16 (u16 (zlen (k_key k))) ++ k_col k ++ k_key k.

Lemma zlen_key_frame k : zlen (key_frame k) = 3 + zlen (k_col k) + zlen (k_key k).
Proof. unfold key_frame. zlens. lia. Qed.

Lemma key_tail_size_wf k : key_wf k -> key_tail_size k = zlen (key_frame k).
Proof.
  intros [Hc Hk]. rewrite zlen_key_frame. unfold key_tail_size. apply u32_id. pose_lens. word_lia.
Qed.

(** The tail parses wherever it sits: after any header of length [hdr - 3],
    before any bytes the sender appended. *)
Lemma key_tail_parse_frame h k r hdr :
  key_wf k -> hdr = zlen h + 3 ->
  key_tail_parse (mk_rcur (key_frame k ++ r)) (h ++ key_frame k ++ r)
    (zlen (h ++ key_frame k ++ r)) hdr = Ret k.
Proof.
  intros [Hc Hk] ->. unfold key_tail_parse.
  assert (pc_rfits (mk_rcur (key_frame k ++ r)) 3 = true) as ->.
  { unfold pc_rfits; cbn [r_p]. rewrite zlen_app, zlen_key_frame. apply Z.leb_le. zlia. }
  rewrite !zlen_app, zlen_key_frame. unfold key_frame. cbn [app]. rewrite <- !app_assoc.
  rd_frame. pose_lens. autorewrite with words. btrue. sub_walk. by destruct k.
Qed.

Lemma zdrop_tail h k r : zdrop (zlen h + 3 + zlen (k_col k) + zlen (k_key k)) (h ++ key_frame k ++ r) = r.
Proof. rewrite app_assoc. apply zdrop_app. rewrite zlen_app, zlen_key_frame. lia. Qed.

Definition demote_frame (type winner : Z) (k : clfwd_key) (ver : Z) : bytes :=
  [u8 type] ++ pc_p16 (u16 winner) ++ key_frame k ++ pc_p64 ver.

Lemma demote_build_frame type winner k ver :
  key_wf k ->
  clfwd_demote_build type winner k ver =
    (zlen (demote_frame type winner k ver), demote_frame type winner k ver).
Proof.
  intros Hk. unfold clfwd_demote_build, built. rewrite key_tail_size_wf by done.
  replace (3 + zlen (key_frame k) + 8) with (zlen (demote_frame type winner k ver))
    by (unfold demote_frame; zlens; lia).
  unfold key_tail_build. unfold_w. unfold key_frame, demote_frame.
  rewrite wseq_built; unfold key_frame; cbn [w_ok w_out concat app]; rewrite ?app_nil_r, <- ?app_assoc; done.
Qed.

(** What a demote's bytes after the key say of the version. *)
Definition tail_ver (r : bytes) : outcome Z := if 8 <=? zlen r then pc_g64 r else Ret 0.

Lemma tail_ver_eq h k r :
  let tail := zlen h + 3 + zlen (k_col k) + zlen (k_key k) in
  let pt := h ++ key_frame k ++ r in
  (if tail + 8 <=? zlen pt then pc_g64 (zdrop tail pt) else Ret 0) = tail_ver r.
Proof.
  cbv zeta. rewrite zdrop_tail. unfold tail_ver. rewrite !zlen_app, zlen_key_frame.
  destruct (8 <=? zlen r) eqn:E; bool_facts; by btrue.
Qed.

Lemma demote_parse_split t w k r :
  key_wf k ->
  clfwd_demote_parse ([t] ++ pc_p16 w ++ key_frame k ++ r) =
    (let! ver := tail_ver r in Ret (u16 w, k, ver)).
Proof.
  intros Hk. unfold clfwd_demote_parse. cbv zeta. cbn [app]. rewrite rskip1_cons. cbn [obind].
  unfold pc_rfits; cbn [r_p]. btrue. rd_frame.
  assert (t :: pc_p16 w ++ key_frame k ++ r = (t :: pc_p16 w) ++ key_frame k ++ r) as -> by done.
  rewrite key_tail_parse_frame by done. cbn [obind].
  change CLFWD_DEMOTE_HDR with (zlen (t :: pc_p16 w) + 3). by rewrite tail_ver_eq.
Qed.

Definition num_bytes (m : clfwd_tomb_num) : bytes := pc_p64 (n_oid m) ++ pc_p32 (n_incarn m) ++ pc_p64 (n_seq m).

Definition tomb_tail (ver flags : Z) (num : option clfwd_tomb_num) : bytes :=
  pc_p64 ver ++ (if flags =? 0 then [] else [u8 (Z.land flags 255)]) ++
  (match num with Some m => if numbered flags then num_bytes m else [] | None => [] end).

Definition tomb_frame (type : Z) (k : clfwd_key) (ver flags : Z) (num : option clfwd_tomb_num) : bytes :=
  [u8 type] ++ key_frame k ++ tomb_tail ver (tomb_flags flags num) num.

Lemma numbered_zero : numbered 0 = false.
Proof. done. Qed.

Lemma numbered_ldiff f : numbered (Z.ldiff f CLFWD_TOMB_F_NUMBERED) = false.
Proof. unfold numbered. by rewrite Z.land_ldiff. Qed.

Lemma tomb_flags_numbered flags num :
  numbered (tomb_flags flags num) = match num with Some m => negb (n_seq m =? 0) | None => false end.
Proof.
  unfold tomb_flags. destruct num as [m|]; [|apply numbered_ldiff].
  destruct (n_seq m =? 0); [apply numbered_ldiff|]. unfold numbered, CLFWD_TOMB_F_NUMBERED.
  rewrite Z.land_lor_distr_l, Z.land_ldiff. done.
Qed.

Lemma tomb_build_frame type k ver flags num :
  key_wf k ->
  clfwd_tomb_build_n type k ver flags num =
    (zlen (tomb_frame type k ver flags num), tomb_frame type k ver flags num).
Proof.
  intros Hk. unfold clfwd_tomb_build_n, built. rewrite key_tail_size_wf by done. cbv zeta.
  replace (1 + zlen (key_frame k) + 8 + _ + _) with (zlen (tomb_frame type k ver flags num)).
  - unfold key_tail_build, tomb_frame, tomb_tail. pose proof (tomb_flags_numbered flags num) as Hn.
    destruct (tomb_flags flags num =? 0) eqn:E;
      (destruct num as [m|]; [destruct (numbered (tomb_flags flags (Some m))) eqn:En|]);
      unfold_w; unfold num_bytes; rewrite wseq_built; unfold key_frame;
      cbn [w_ok w_out concat app]; rewrite ?app_nil_r, <- ?app_assoc; done.
  - unfold tomb_frame, tomb_tail. rewrite !zlen_app, tomb_flags_numbered. zlens.
    destruct (tomb_flags flags num =? 0); destruct num as [m|]; try destruct (n_seq m =? 0);
      cbn [negb]; unfold num_bytes, CLFWD_TOMB_NUM_LEN; zlens; lia.
Qed.

(** The tombstone's bytes after the key, as the parser reads them. *)
Definition tail_flags (r : bytes) : outcome Z :=
  let! f := if 9 <=? zlen r then byte_at r 8 else Ret 0 in
  Ret (if numbered f && (zlen r <? 29) then Z.ldiff f CLFWD_TOMB_F_NUMBERED else f).

Definition tail_num (w : bool) (f : Z) (r : bytes) : outcome clfwd_tomb_num :=
  if w && numbered f
  then let! oid := pc_g64 (zdrop 9 r) in let! incarn := pc_g32 (zdrop 17 r) in
       let! seq := pc_g64 (zdrop 21 r) in Ret (mk_num oid incarn seq)
  else Ret (mk_num 0 0 0).

Lemma zdrop_frame h k r n :
  0 <= n -> zdrop (zlen h + 3 + zlen (k_col k) + zlen (k_key k) + n) (h ++ key_frame k ++ r) = zdrop n r.
Proof. intros. rewrite <- zdrop_zdrop by zlia. by rewrite zdrop_tail. Qed.

Lemma tomb_parse_split w t k r :
  key_wf k ->
  clfwd_tomb_parse_n w ([t] ++ key_frame k ++ r) =
    (let! ver := tail_ver r in let! f := tail_flags r in let! num := tail_num w f r in
     Ret (k, ver, f, num)).
Proof.
  intros Hk. unfold clfwd_tomb_parse_n. cbv zeta. cbn [app]. rewrite rskip1_cons. cbn [obind].
  assert (t :: key_frame k ++ r = [t] ++ key_frame k ++ r) as -> by done.
  rewrite key_tail_parse_frame by done. cbn [obind].
  change CLFWD_TOMB_HDR with (zlen [t] + 3). rewrite tail_ver_eq.
  destruct (tail_ver r); cbn [obind]; [|done..]. unfold tail_flags, tail_num, byte_at, CLFWD_TOMB_NUM_LEN.
  rewrite !zdrop_frame by lia. rewrite !zlen_app, zlen_key_frame.
  destruct (9 <=? zlen r) eqn:E9; bool_facts; btrue.
  - destruct (zdrop 8 r) as [|f ?]; cbn [obind]; [done|].
    destruct (zlen r <? 29) eqn:E; bool_facts; by btrue.
  - cbn [obind]. by rewrite numbered_zero, andb_false_r.
Qed.

(** * The JSON frames *)

Definition json_frame (type : Z) (j : clfwd_json) : bytes :=
  [u8 type] ++ pc_p32 (j_req j) ++ pc_p16 (u16 (j_node j)) ++ [u8 (j_jop j)] ++
  [u8 (j_flags j)] ++ pc_p32 (j_ttl j) ++ pc_p64 (u64 (j_by j)) ++ [u8 (zlen (j_col j))] ++
  pc_p16 (u16 (zlen (j_key j))) ++ pc_p16 (u16 (zlen (j_path j))) ++ pc_p32 (zlen (j_val j)) ++
  j_col j ++ j_key j ++ j_path j ++ j_val j.

Definition json_len (j : clfwd_json) : Z :=
  30 + zlen (j_col j) + zlen (j_key j) + zlen (j_path j) + zlen (j_val j).

Lemma zlen_json_frame type j : zlen (json_frame type j) = json_len j.
Proof. unfold json_frame, json_len. zlens. lia. Qed.

Record json_wf (j : clfwd_json) : Prop := {
  j_wf_req : is_u32 (j_req j); j_wf_node : is_u16 (j_node j); j_wf_jop : is_u8 (j_jop j);
  j_wf_flags : is_u8 (j_flags j); j_wf_ttl : is_u32 (j_ttl j); j_wf_by : is_s64 (j_by j);
  j_wf_col : zlen (j_col j) < 2 ^ 8; j_wf_key : zlen (j_key j) < 2 ^ 16;
  j_wf_path : zlen (j_path j) < 2 ^ 16; j_wf_len : json_len j < 2 ^ 32;
}.

Lemma json_build_frame type j :
  json_len j < 2 ^ 32 -> clfwd_json_build type j = (json_len j, json_frame type j).
Proof.
  intros Hl. unfold clfwd_json_build, built. rewrite <- (zlen_json_frame type) in *.
  replace (u32 _) with (zlen (json_frame type j)); unfold_w.
  - frame_case json_frame (j_val j).
  - rewrite zlen_json_frame in *. unfold json_len, CLFWD_JSON_HDR in *.
    rewrite u32_id; [done|]. pose_lens. word_lia.
Qed.

Lemma json_parse_frame type j : json_wf j -> clfwd_json_parse (json_frame type j) = Ret j.
Proof.
  intros [Hr Hn Ho Hf Ht Hb Hc Hk Hp Hl]. unfold clfwd_json_parse. cbv zeta. rewrite zlen_json_frame.
  unfold json_len, json_frame in *. cbn [app]. rewrite rskip1_cons. cbn [obind].
  unfold pc_rfits, CLFWD_JSON_HDR in *. cbn [r_p]. btrue.
  rd_frame. pose_lens. autorewrite with words. btrue. sub_walk. autorewrite with words.
  by destruct j.
Qed.

Definition jack_frag (a : clfwd_jack) : bytes := if ja_st a =? 0 then ja_frag a else [].

Definition jack_frame (type : Z) (a : clfwd_jack) : bytes :=
  [u8 type] ++ pc_p32 (ja_req a) ++ [u8 (ja_st a)] ++ [u8 (ja_jop a)] ++
  pc_p64 (u64 (ja_newval a)) ++ pc_p32 (ja_cnt a) ++ pc_p32 (zlen (jack_frag a)) ++ jack_frag a.

Record jack_wf (a : clfwd_jack) : Prop := {
  ja_wf_req : is_u32 (ja_req a); ja_wf_st : is_u8 (ja_st a); ja_wf_jop : is_u8 (ja_jop a);
  ja_wf_newval : is_s64 (ja_newval a); ja_wf_cnt : is_u32 (ja_cnt a);
  ja_wf_len : 23 + zlen (ja_frag a) < 2 ^ 32;
}.

Lemma jack_build_frame type a :
  jack_wf a -> clfwd_jack_build type a = (23 + zlen (jack_frag a), jack_frame type a).
Proof.
  intros [_ _ _ _ _ Hl]. unfold clfwd_jack_build, built, CLFWD_JACK_HDR. cbv zeta.
  assert ((if ja_st a =? 0 then zlen (ja_frag a) else 0) = zlen (jack_frag a)) as ->
    by (unfold jack_frag; by case_match).
  assert (zlen (jack_frag a) <= zlen (ja_frag a)) by (unfold jack_frag; case_match; zlia).
  rewrite u32_id by (pose_lens; word_lia).
  assert (23 + zlen (jack_frag a) = zlen (jack_frame type a)) as -> by (unfold jack_frame; zlens; lia).
  assert ((zlen (jack_frag a) =? 0) = false -> ztake (zlen (jack_frag a)) (ja_frag a) = jack_frag a) as Ht.
  { unfold jack_frag. case_match; [intros; by apply ztake_all|done]. }
  unfold_w. destruct (zlen (jack_frag a) =? 0) eqn:E.
  - apply Z.eqb_eq, zlen_zero in E. unfold jack_frame. rewrite E, ?app_nil_r.
    rewrite wseq_built; cbn [w_ok w_out concat]; rewrite ?app_nil_r, <- ?app_assoc; done.
  - rewrite Ht by done. frame_done jack_frame.
Qed.

(** The receiver sees the fragment only of a successful result. *)
Lemma jack_parse_frame type a :
  jack_wf a -> clfwd_jack_parse (jack_frame type a) =
    Ret (mk_jack (ja_req a) (ja_st a) (ja_jop a) (ja_newval a) (ja_cnt a) (jack_frag a)).
Proof.
  intros [Hr Hs Ho Hn Hc Hl]. unfold clfwd_jack_parse. cbv zeta.
  assert (zlen (jack_frame type a) = 23 + zlen (jack_frag a)) as -> by (unfold jack_frame; zlens; lia).
  assert (zlen (jack_frag a) <= zlen (ja_frag a)) by (unfold jack_frag; case_match; zlia).
  unfold jack_frame. cbn [app]. rewrite rskip1_cons. cbn [obind].
  unfold pc_rfits, CLFWD_JACK_HDR in *. cbn [r_p]. btrue.
  rd_frame. pose_lens. autorewrite with words. btrue.
  case_match eqn:E; bool_facts; [apply zlen_zero in E as ->|]; cbn [obind]; sub_walk; by autorewrite with words.
Qed.

(** * A tombstone's tail, whole and cut *)

Lemma tail_ver_app ver r : is_u64 ver -> tail_ver (pc_p64 ver ++ r) = Ret ver.
Proof. intros. unfold tail_ver. btrue. rewrite pc_g64_p64. by autorewrite with words. Qed.

Lemma tomb_flags_range flags num : is_u8 flags -> is_u8 (tomb_flags flags num).
Proof.
  intros H. unfold tomb_flags, CLFWD_TOMB_F_NUMBERED.
  assert (forall x, is_u8 x <-> 0 <= x /\ Z.shiftr x 8 = 0) as Hb.
  { intros x. rewrite shiftr_div by lia. split; intros; [word_lia|]. unfold is_u8. pow2.
    destruct H0 as [H0 H1]. apply Z.div_small_iff in H1; lia. }
  assert (is_u8 (Z.ldiff flags 2)) as Hl.
  { rewrite Hb in *. split; [apply Z.ldiff_nonneg; lia|]. rewrite Z.shiftr_ldiff. destruct H as [_ ->]. done. }
  destruct num; [|done]. case_match; [done|]. rewrite Hb in *.
  split; [apply Z.lor_nonneg; lia|]. rewrite Z.shiftr_lor. destruct Hl as [_ ->]. done.
Qed.

Lemma u8_land_255 x : is_u8 x -> u8 (Z.land x 255) = x.
Proof. intros. change 255 with (Z.ones 8). rewrite Z.land_ones by lia. fold (u8 x). rewrite (u8_id x) by done. by apply u8_id. Qed.

Lemma numbered_lt f num : numbered (tomb_flags f num) = true -> (tomb_flags f num =? 0) = false.
Proof. intros H. apply Z.eqb_neq. intros E. by rewrite E in H. Qed.

Lemma zlen_num_bytes m : zlen (num_bytes m) = 20.
Proof. unfold num_bytes. zlens. lia. Qed.
#[local] Hint Rewrite zlen_num_bytes : lens.

(** The flags byte as the parser sees it in a tail of [cut] bytes. *)
Lemma tail_flags_take ver fl num cut :
  is_u8 fl -> 0 <= cut ->
  tail_flags (ztake cut (tomb_tail ver fl num)) =
    Ret (if cut <? 9 then 0
         else if numbered fl && (zlen (ztake cut (tomb_tail ver fl num)) <? 29)
              then Z.ldiff fl CLFWD_TOMB_F_NUMBERED else fl).
Proof.
  intros Hf Hc. unfold tail_flags, tomb_tail. destruct (cut <? 9) eqn:Ec; bool_facts.
  { btrue. cbn [obind]. rewrite numbered_zero. done. }
  destruct (fl =? 0) eqn:E0; bool_facts.
  - subst fl. rewrite numbered_zero. cbn [app andb].
    assert (match num with Some m => [] | None => [] end = @nil Z) as -> by by destruct num.
    rewrite app_nil_r. zlens. btrue. cbn [obind]. by rewrite numbered_zero.
  - set (r := match num with Some _ => _ | None => _ end).
    assert (ztake cut (pc_p64 ver ++ [u8 (Z.land fl 255)] ++ r) =
      pc_p64 ver ++ fl :: ztake (cut - 9) r) as ->.
    { rewrite u8_land_255 by done. unfold ztake.
      replace (Z.to_nat cut) with (9 + Z.to_nat (cut - 9))%nat by lia. reflexivity. }
    rewrite byte_at_app by done. btrue. cbn [obind]. done.
Qed.

Lemma tail_flags_le ver fl num : is_u8 fl -> 
  tail_flags (tomb_tail ver fl num) =
    Ret (if numbered fl && (zlen (tomb_tail ver fl num) <? 29) then Z.ldiff fl CLFWD_TOMB_F_NUMBERED else fl).
Proof.
  intros Hf. pose proof (tail_flags_take ver fl num (Z.max 9 (zlen (tomb_tail ver fl num))) Hf ltac:(lia)) as H.
  rewrite ztake_all in H by lia. rewrite H. by btrue.
Qed.

Lemma tail_num_full ver fl m :
  numbered fl = true -> is_u64 (n_oid m) -> is_u32 (n_incarn m) -> is_u64 (n_seq m) ->
  tail_num true fl (tomb_tail ver fl (Some m)) = Ret m.
Proof.
  intros Hn Ho Hi Hs. unfold tail_num, tomb_tail. rewrite Hn. cbn [andb].
  assert ((fl =? 0) = false) as -> by (apply Z.eqb_neq; intros ->; done).
  assert (forall a r, zdrop 9 (pc_p64 ver ++ [a] ++ r) = r) as E9 by done.
  assert (forall a r, zdrop 17 (pc_p64 ver ++ [a] ++ pc_p64 (n_oid m) ++ r) = r) as E17 by done.
  assert (forall a r, zdrop 21 (pc_p64 ver ++ [a] ++ pc_p64 (n_oid m) ++ pc_p32 (n_incarn m) ++ r) = r) as E21 by done.
  unfold num_bytes. rewrite E9, E17, E21, <- (app_nil_r (pc_p64 (n_seq m))).
  rewrite !pc_g64_p64, pc_g32_p32. cbn [obind].
  autorewrite with words. by destruct m.
Qed.

Lemma zlen_tomb_tail_numbered ver flags m :
  n_seq m <> 0 -> zlen (tomb_tail ver (tomb_flags flags (Some m)) (Some m)) = 29.
Proof.
  intros Hs. unfold tomb_tail. rewrite tomb_flags_numbered.
  rewrite numbered_lt by (rewrite tomb_flags_numbered; btrue; done).
  rewrite (proj2 (Z.eqb_neq _ _) Hs). cbn [negb]. zlens. lia.
Qed.

Lemma tomb_tail_read (k : clfwd_key) ver flags num :
  is_u64 ver -> is_u8 flags ->
  match num with Some m => is_u64 (n_oid m) /\ is_u32 (n_incarn m) /\ is_u64 (n_seq m) | None => True end ->
  let r := tomb_tail ver (tomb_flags flags num) num in
  (let! ver := tail_ver r in let! f := tail_flags r in let! num := tail_num true f r in Ret (k, ver, f, num)) =
  Ret (k, ver, tomb_flags flags num,
    match num with Some m => if n_seq m =? 0 then mk_num 0 0 0 else m | None => mk_num 0 0 0 end).
Proof.
  intros Hv Hf Hn. cbv zeta. rewrite tail_flags_le by by apply tomb_flags_range.
  assert (tail_ver (tomb_tail ver (tomb_flags flags num) num) = Ret ver) as -> by by apply tail_ver_app.
  cbn [obind]. rewrite tomb_flags_numbered.
  destruct num as [m|]; [destruct (n_seq m =? 0) eqn:E|]; cbn [negb andb obind].
  - unfold tail_num. by rewrite tomb_flags_numbered, E.
  - bool_facts. rewrite zlen_tomb_tail_numbered by done. cbn [Z.ltb Z.compare Pos.compare Pos.compare_cont].
    rewrite tail_num_full; [done|rewrite tomb_flags_numbered; btrue; done|tauto..].
  - unfold tail_num. by rewrite tomb_flags_numbered.
Qed.

Lemma ztake_app_ge {A} n (l r : list A) : zlen l <= n -> ztake n (l ++ r) = l ++ ztake (n - zlen l) r.
Proof. intros. unfold ztake, zlen in *. rewrite take_app, take_ge by lia. do 2 f_equal. lia. Qed.

Lemma ztake_key_frame t k r cut :
  CLFWD_TOMB_HDR + zlen (k_col k) + zlen (k_key k) <= cut ->
  ztake cut ([t] ++ key_frame k ++ r) =
    [t] ++ key_frame k ++ ztake (cut - (CLFWD_TOMB_HDR + zlen (k_col k) + zlen (k_key k))) r.
Proof.
  unfold CLFWD_TOMB_HDR. intros Hc. rewrite ztake_app_ge by zlia.
  rewrite ztake_app_ge by (rewrite zlen_key_frame; zlia). rewrite zlen_key_frame.
  do 3 f_equal. zlens. lia.
Qed.

Lemma tail_ver_take ver fl num cut :
  is_u64 ver -> 0 <= cut ->
  tail_ver (ztake cut (tomb_tail ver fl num)) = Ret (if 8 <=? cut then ver else 0).
Proof.
  intros Hv Hc. unfold tomb_tail. destruct (8 <=? cut) eqn:E; bool_facts.
  - rewrite ztake_app_ge by done. by apply tail_ver_app.
  - unfold tail_ver. by btrue.
Qed.

Lemma tomb_tail_cut (k : clfwd_key) ver flags num cut :
  is_u64 ver -> is_u8 flags ->
  match num with Some m => is_u64 (n_oid m) /\ is_u32 (n_incarn m) /\ is_u64 (n_seq m) | None => True end ->
  let r := tomb_tail ver (tomb_flags flags num) num in
  0 <= cut <= zlen r ->
  exists ver' fl' num',
    (let! ver := tail_ver (ztake cut r) in let! f := tail_flags (ztake cut r) in
     let! num := tail_num true f (ztake cut r) in Ret (k, ver, f, num)) = Ret (k, ver', fl', num') /\
    (ver' = ver \/ ver' = 0) /\ (ver' <> 0 -> 8 <= cut) /\
    (numbered fl' = true -> cut = zlen r /\ num' = default (mk_num 0 0 0) num).
Proof.
  intros Hv Hf Hn r Hc. subst r.
  rewrite tail_ver_take, tail_flags_take by (auto using tomb_flags_range; lia). cbn [obind].
  set (fl' := if cut <? 9 then 0 else _).
  assert (numbered fl' = true -> cut = zlen (tomb_tail ver (tomb_flags flags num) num) /\
    exists m, num = Some m /\ n_seq m <> 0) as Hn'.
  { unfold fl'. destruct (cut <? 9); [by rewrite numbered_zero|].
    destruct (numbered _ && _) eqn:E; [by rewrite numbered_ldiff|]. intros Hnum. rewrite Hnum in E. cbn [andb] in E. bool_facts.
    rewrite tomb_flags_numbered in Hnum. destruct num as [m|]; [|done]. bool_facts.
    rewrite zlen_tomb_tail_numbered in * by done. zlens. rewrite zlen_tomb_tail_numbered in * by done.
    split; [lia|eauto]. }
  destruct (numbered fl') eqn:Efl.
  - destruct Hn' as (-> & m & -> & Hs); [done|].
    assert (fl' = tomb_flags flags (Some m)) as ->.
    { revert Efl. unfold fl'. destruct (_ <? 9); [by rewrite numbered_zero|].
      destruct (numbered _ && _); [by rewrite numbered_ldiff|done]. }
    rewrite ztake_all by lia. rewrite tail_num_full by tauto. cbn [obind].
    eexists _, _, _; split_and!; [done| | |done]; destruct (8 <=? _) eqn:E8; bool_facts; solve [auto | intros; congruence].
  - unfold tail_num. rewrite Efl. cbn [andb obind].
    eexists _, _, _; split_and!; [done| | |congruence]; destruct (8 <=? _) eqn:E8; bool_facts; solve [auto | intros; congruence].
Qed.

(** * Properties *)

(** No datagram makes a frame parser read, or point, outside it: for every
    byte string the six parsers of the write plane answer a frame or refuse. *)
Theorem clfwd_parsers_memory_safe pt :
  bytes_ok pt ->
  clfwd_op_parse pt <> Oob /\ clfwd_ack_parse pt <> Oob /\ clfwd_demote_parse pt <> Oob /\
  (forall w, clfwd_tomb_parse_n w pt <> Oob) /\ clfwd_json_parse pt <> Oob /\
  clfwd_jack_parse pt <> Oob.
Proof.
  intros Hb. split_and!; [by apply clfwd_op_parse_safe|by apply clfwd_ack_parse_safe
    |by apply clfwd_demote_parse_safe|intros; by apply clfwd_tomb_parse_safe
    |by apply clfwd_json_parse_safe|by apply clfwd_jack_parse_safe].
Qed.

(** A forwarded operation arrives as it was sent: for every operation whose
    fields fit their wire widths the builder returns the exact frame length and
    the parser of those bytes gives back every field, the value included; and a
    forwarded JSON edit and both acknowledgements likewise (a JSON result's
    fragment only when its status is 0). *)
Theorem clfwd_forward_roundtrip type f j a ja :
  op_wf f -> json_wf j -> ack_wf a -> jack_wf ja ->
  (let '(n, msg) := clfwd_op_build type f in n = zlen msg /\ clfwd_op_parse msg = Ret f) /\
  (let '(n, msg) := clfwd_json_build type j in n = zlen msg /\ clfwd_json_parse msg = Ret j) /\
  (let '(n, msg) := clfwd_ack_build type a in n = zlen msg /\ clfwd_ack_parse msg = Ret a) /\
  (let '(n, msg) := clfwd_jack_build type ja in n = zlen msg /\
     clfwd_jack_parse msg = Ret (mk_jack (ja_req ja) (ja_st ja) (ja_jop ja) (ja_newval ja) (ja_cnt ja)
       (if ja_st ja =? 0 then ja_frag ja else []))).
Proof.
  intros Hf Hj Ha Hja. split_and!.
  - rewrite op_build_frame by apply Hf. split; [done|by apply op_parse_frame].
  - rewrite json_build_frame by apply Hj. split; [by rewrite zlen_json_frame|by apply json_parse_frame].
  - rewrite ack_build_frame. split; [done|by apply ack_parse_frame].
  - rewrite jack_build_frame by done. split; [unfold jack_frame; zlens; lia|by apply jack_parse_frame].
Qed.

Definition ex_op : clfwd_op := mk_op 7 3 1 60 (-5) [99; 111; 108] [107; 49] [1; 2; 3; 255].
Definition ex_json : clfwd_json := mk_json 9 2 1 5 30 (-1) [99] [107] [36; 46; 97] [49; 50].
Definition ex_ack : clfwd_ack := mk_ack 7 1 (-42).
Definition ex_jack : clfwd_jack := mk_jack 9 0 1 12 1 [49; 50].

Lemma clfwd_forward_roundtrip_witness :
  clfwd_op_parse (clfwd_op_build 5 ex_op).2 = Ret ex_op.
Proof.
  refine (proj2 (_ : _ /\ _)).
  refine (proj1 (clfwd_forward_roundtrip 5 ex_op ex_json ex_ack ex_jack _ _ _ _));
    constructor; cbv; intuition congruence.
Defined.

Lemma clfwd_parsers_memory_safe_witness :
  clfwd_op_parse [5; 7; 0; 0; 0; 3; 0; 1; 60; 0; 0; 0; 0; 0; 0; 0; 0; 0; 0; 0; 255; 255; 255; 1] = Rej /\
  clfwd_op_parse [5; 7; 0; 0; 0; 3; 0; 1; 60; 0; 0; 0; 0; 0; 0; 0; 0; 0; 0; 0; 255; 255; 255; 1] <> Oob.
Proof.
  split; [reflexivity|].
  refine (proj1 (clfwd_parsers_memory_safe _ _)). repeat (constructor; [cbv; intuition congruence|]). constructor.
Defined.

(** The operation's length is computed in 32 bits and can wrap, and the
    builder is still safe: it never leaves more bytes in the message than the
    length it computed, it returns 0 exactly when the true length does not fit
    in 32 bits, and otherwise it returns the number of bytes it wrote. *)
Theorem clfwd_op_build_no_overrun type f :
  zlen (op_col f) < 2 ^ 32 -> zlen (op_key f) < 2 ^ 32 -> zlen (op_val f) < 2 ^ 32 ->
  let size := clfwd_op_size (zlen (op_col f)) (zlen (op_key f)) (zlen (op_val f)) in
  let '(n, msg) := clfwd_op_build type f in
  zlen msg <= size /\
  (n = 0 <-> 2 ^ 32 <= CLFWD_OP_HDR + zlen (op_col f) + zlen (op_key f) + zlen (op_val f)) /\
  (n <> 0 -> n = zlen msg).
Proof.
  intros Hc Hk Hv. cbv zeta. unfold CLFWD_OP_HDR.
  destruct (decide (23 + zlen (op_col f) + zlen (op_key f) + zlen (op_val f) < 2 ^ 32)) as [H|H].
  - rewrite op_build_frame by done. rewrite zlen_op_frame. unfold clfwd_op_size, CLFWD_OP_HDR.
    rewrite u32_id by (pose_lens; word_lia). split_and!; [lia|pose_lens; lia|done].
  - assert (0 <= clfwd_op_size (zlen (op_col f)) (zlen (op_key f)) (zlen (op_val f)) <
      23 + zlen (op_col f) + zlen (op_key f) + zlen (op_val f)).
    { unfold clfwd_op_size, CLFWD_OP_HDR. pose_lens. word_lia. }
    unfold clfwd_op_build, built. generalize dependent (clfwd_op_size (zlen (op_col f)) (zlen (op_key f)) (zlen (op_val f))).
    intros sz Hs. unfold_w.
    destruct (zlen (op_val f) =? 0) eqn:E; bool_facts;
      (rewrite (wseq_full _ (pc_wcur_init sz));
        [split_and!; [apply wseq_bound; simpl; zlia|lia|done]
        |right; cbn [concat w_cap w_out pc_wcur_init]; rewrite ?app_nil_r; zlens; pose_lens; lia|right; done]).
Qed.

Lemma clfwd_op_build_no_overrun_witness :
  (clfwd_op_build 5 ex_op).1 = 32 /\ zlen (clfwd_op_build 5 ex_op).2 <= 32.
Proof.
  split; [reflexivity|].
  exact (proj1 (clfwd_op_build_no_overrun 5 ex_op ltac:(reflexivity) ltac:(reflexivity) ltac:(reflexivity))).
Defined.

(** A delete's tombstone is additive on the wire.  Built with a version,
    flags and an origin numbering it reads back exactly (the numbered flag set
    exactly when there is a numbering with a non-zero sequence); and cut at any
    point after its key - a frame from an older sender, or a truncated one - it
    still names the same key, with version 0 unless the whole version is there
    and never with the numbered flag unless all twenty bytes of the numbering
    are. *)
Theorem clfwd_tomb_roundtrip type k ver flags num :
  key_wf k -> is_u64 ver -> is_u8 flags ->
  match num with Some m => is_u64 (n_oid m) /\ is_u32 (n_incarn m) /\ is_u64 (n_seq m) | None => True end ->
  let '(n, msg) := clfwd_tomb_build_n type k ver flags num in
  let fl := tomb_flags flags num in
  n = zlen msg /\
  clfwd_tomb_parse_n true msg =
    Ret (k, ver, fl, match num with Some m => if n_seq m =? 0 then mk_num 0 0 0 else m
                     | None => mk_num 0 0 0 end) /\
  forall cut, CLFWD_TOMB_HDR + zlen (k_col k) + zlen (k_key k) <= cut <= n ->
    exists ver' fl' num', clfwd_tomb_parse_n true (ztake cut msg) = Ret (k, ver', fl', num') /\
      (ver' = ver \/ ver' = 0) /\ (ver' <> 0 -> CLFWD_TOMB_HDR + zlen (k_col k) + zlen (k_key k) + 8 <= cut) /\
      (numbered fl' = true -> cut = n /\ num' = default (mk_num 0 0 0) num).
Proof.
  intros Hk Hv Hf Hn. rewrite tomb_build_frame by done. cbv zeta. unfold tomb_frame.
  split_and!; [done| |].
  - rewrite tomb_parse_split by done. by apply tomb_tail_read.
  - intros cut Hc. unfold CLFWD_TOMB_HDR in *. rewrite ztake_key_frame by (unfold CLFWD_TOMB_HDR; lia).
    rewrite tomb_parse_split by done. rewrite !zlen_app, zlen_key_frame in Hc.
    destruct (tomb_tail_cut k ver flags num (cut - (4 + zlen (k_col k) + zlen (k_key k))))
      as (v & fl & nm & E & H1 & H2 & H3); [done..|zlia|].
    exists v, fl, nm. split_and!; [exact E|done|intros ?%H2; lia|].
    intros [Hl ?]%H3. split; [|done]. rewrite !zlen_app, zlen_key_frame. zlia.
Qed.

Lemma clfwd_tomb_roundtrip_witness :
  clfwd_tomb_parse_n true (clfwd_tomb_build_n 8 (mk_key [99] [107]) 77 1 (Some (mk_num 5 6 7))).2 =
    Ret (mk_key [99] [107], 77, 3, mk_num 5 6 7).
Proof.
  exact (proj1 (proj2 (clfwd_tomb_roundtrip 8 (mk_key [99] [107]) 77 1 (Some (mk_num 5 6 7))
    ltac:(constructor; reflexivity) ltac:(cbv; intuition congruence) ltac:(cbv; intuition congruence)
    ltac:(cbv; intuition congruence)))).
Defined.
