(* ===== verification/HtBase.v ===== *)
(** The leaf routines of the table core: [src/src/core/pcache_htable.c],
    [pcache_htable.h] and the cell classes of [pcache_arena.c].

    - [pcache_key_hash]: MurmurHash3 x86_32 over the key's bytes;
    - [val_eq]: the store's identical-value test, 32 bytes a step, then 8, then
      one overlapping word - proved to be equality of the bytes;
    - [pcache_str2ll]: the strict decimal parse a counter conversion uses;
    - the cell ladder: [cell_sizes], the [size2class] lookup built at start and
      [pcache_cell_bound]. *)

From stdpp Require Import base tactics list numbers sets.
From S2P Require Import Prelude.
#[local] Open Scope Z_scope.

(** * Words in memory *)

(** [memcpy] of a byte range into an unsigned word, little-endian. *)
Definition le_word (l : bytes) : Z := foldr (fun b acc => b + 256 * acc) 0 l.

Lemma le_word_range l : bytes_ok l -> 0 <= le_word l < 256 ^ zlen l.
Proof.
  induction 1 as [|b l Hb _ IH]; [done|]. rewrite zlen_cons, Z.pow_add_r by (pose_lens; lia).
  cbn [le_word foldr]. change (foldr _ 0 l) with (le_word l). unfold is_u8 in Hb; pow2. change (256 ^ 1) with 256. lia.
Qed.

Lemma le_word_inj l k : bytes_ok l -> bytes_ok k -> length l = length k -> le_word l = le_word k -> l = k.
Proof.
  intros Hl. revert k. induction Hl as [|a l Ha Hl IH]; intros [|b k] Hk Hlen; try done.
  inversion Hk as [|? ? Hb Hk']; subst. cbn [le_word foldr].
  change (foldr _ 0 l) with (le_word l); change (foldr _ 0 k) with (le_word k). intros E.
  unfold is_u8 in *; pow2. assert (a = b /\ le_word l = le_word k) as [-> E'] by lia.
  f_equal. apply IH; [done|by injection Hlen|done].
Qed.

(** The byte [i] of a word, lowest first. *)
Definition byte_n (w : Z) (i : nat) : Z := (w / 2 ^ (8 * Z.of_nat i)) mod 2 ^ 8.

Lemma byte_n_lxor a b i : byte_n (Z.lxor a b) i = Z.lxor (byte_n a i) (byte_n b i).
Proof.
  unfold byte_n. rewrite <- !shiftr_div by lia. rewrite <- !Z.land_ones by lia. rewrite Z.shiftr_lxor.
  apply Z.bits_inj'. intros n Hn. rewrite !Z.lxor_spec, !Z.land_spec, Z.lxor_spec.
  destruct (Z.testbit (Z.ones 8) n); by rewrite ?andb_true_r, ?andb_false_r.
Qed.

(** [memcpy] of a 64-bit word into eight bytes. *)
Fixpoint le_bytes (n : nat) (w : Z) : bytes :=
  match n with O => [] | S n => w mod 256 :: le_bytes n (w / 256) end.

Lemma le_bytes_len n w : length (le_bytes n w) = n.
Proof. revert w; induction n; intros; simpl; auto. Qed.

Lemma le_bytes_ok n w : bytes_ok (le_bytes n w).
Proof. revert w; induction n; intros; simpl; constructor; [word_lia|apply IHn]. Qed.

Lemma le_word_bytes n w : 0 <= w < 256 ^ Z.of_nat n -> le_word (le_bytes n w) = w.
Proof.
  revert w; induction n as [|n IH]; intros w H; [simpl in *; lia|].
  rewrite Nat2Z.inj_succ, Z.pow_succ_r in H by lia.
  cbn [le_bytes le_word foldr]. change (foldr _ 0 ?l) with (le_word l). rewrite IH by (Z.div_mod_to_equations; lia).
  Z.div_mod_to_equations; lia.
Qed.

(** The eight raw bytes of a native counter as a [long long], and back. *)
Definition ll_of (v : bytes) : Z := s64 (le_word (take 8 v)).
Definition ll_bytes (x : Z) : bytes := le_bytes 8 (u64 x).

Lemma ll_of_bytes x : is_s64 x -> ll_of (ll_bytes x) = x.
Proof.
  intros H. unfold ll_of, ll_bytes. rewrite take_ge by (by rewrite le_bytes_len).
  rewrite le_word_bytes, s64_u64; [done|done|]. pose proof (u64_range x). unfold is_u64 in *. lia.
Qed.

(** * The key hash *)

Definition murmur_rotl (x r : Z) : Z := Z.lor (u32 (Z.shiftl x r)) (Z.shiftr x (32 - r)).

Definition murmur_k (k : Z) : Z := u32 (murmur_rotl (u32 (k * 0xcc9e2d51)) 15 * 0x1b873593).

(** The body over whole 4-byte words; what is left is the tail. *)
Fixpoint murmur_body (fuel : nat) (h : Z) (p : bytes) : Z * bytes :=
  match fuel, p with
  | S fuel, p0 :: p1 :: p2 :: p3 :: p' =>
      let h := Z.lxor h (murmur_k (le_word [p0; p1; p2; p3])) in
      murmur_body fuel (u32 (murmur_rotl h 13 * 5 + 0xe6546b64)) p'
  | _, _ => (h, p)
  end.

Definition murmur_tail (h : Z) (p : bytes) : Z :=
  match p with
  | [p0; p1; p2] => Z.lxor h (murmur_k (Z.lxor (Z.lxor (Z.shiftl p2 16) (Z.shiftl p1 8)) p0))
  | [p0; p1] => Z.lxor h (murmur_k (Z.lxor (Z.shiftl p1 8) p0))
  | [p0] => Z.lxor h (murmur_k p0)
  | _ => h
  end.

Definition pcache_key_hash (key : bytes) : Z :=
  let '(h, p) := murmur_body (length key) 0x9747b28c key in
  let h := murmur_tail h p in
  let h := Z.lxor h (u32 (zlen key)) in
  let h := Z.lxor h (Z.shiftr h 16) in
  let h := u32 (h * 0x85ebca6b) in
  let h := Z.lxor h (Z.shiftr h 13) in
  let h := u32 (h * 0xc2b2ae35) in
  Z.lxor h (Z.shiftr h 16).

#[global] Arguments pcache_key_hash : simpl never.

(** The published MurmurHash3 x86_32 vectors for this seed. *)
Example murmur_vector_empty : pcache_key_hash [] = 0xEBB6C228.
Proof. vm_compute. reflexivity. Qed.
Example murmur_vector_hello :      (* "Hello, world!" *)
  pcache_key_hash [72; 101; 108; 108; 111; 44; 32; 119; 111; 114; 108; 100; 33] = 0x24884CBA.
Proof. vm_compute. reflexivity. Qed.

Lemma lxor_u32 a b : is_u32 a -> is_u32 b -> is_u32 (Z.lxor a b).
Proof.
  unfold is_u32. intros Ha Hb. split; [apply Z.lxor_nonneg; lia|].
  assert (Z.lxor a b = Z.lxor a b mod 2 ^ 32) as ->; [|apply Z.mod_pos_bound; lia].
  rewrite <- Z.land_ones by lia. apply Z.bits_inj'. intros n Hn. rewrite Z.land_spec, Z.lxor_spec.
  destruct (Z.lt_ge_cases n 32); [rewrite Z.ones_spec_low by lia; by rewrite andb_true_r|].
  assert (forall x, 0 <= x < 2 ^ 32 -> Z.testbit x n = false) as Hz.
  { intros x Hx. rewrite <- (Z.mod_small x (2 ^ 32)) by lia. by apply Z.mod_pow2_bits_high. }
  by rewrite !Hz, andb_false_l by lia.
Qed.

Lemma shiftr_u32 a k : is_u32 a -> 0 <= k -> is_u32 (Z.shiftr a k).
Proof.
  unfold is_u32. intros Ha Hk. rewrite Z.shiftr_div_pow2 by lia.
  pose proof (Z.pow_pos_nonneg 2 k). split; [apply Z.div_pos; lia|].
  apply Z.div_lt_upper_bound; nia.
Qed.

Lemma pcache_key_hash_u32 k : is_u32 (pcache_key_hash k).
Proof.
  unfold pcache_key_hash. destruct (murmur_body _ _ _) as [h p]. cbv zeta.
  apply lxor_u32; [|apply shiftr_u32; [|lia]]; apply u32_range.
Qed.

(** * The identical-value test *)

Definition ld64 (p : bytes) (i : nat) : Z := le_word (take 8 (drop i p)).

(** The 32-byte steps from [i]: where they stop, or [None] at a difference. *)
Fixpoint eq_steps32 (fuel : nat) (p q : bytes) (n i : nat) : option nat :=
  match fuel with
  | O => Some i
  | S fuel =>
      if (i + 32 <=? n)%nat then
        if Z.lor (Z.lor (Z.lor (Z.lxor (ld64 p i) (ld64 q i))
                               (Z.lxor (ld64 p (i + 8)) (ld64 q (i + 8))))
                        (Z.lxor (ld64 p (i + 16)) (ld64 q (i + 16))))
                 (Z.lxor (ld64 p (i + 24)) (ld64 q (i + 24))) =? 0
        then eq_steps32 fuel p q n (i + 32) else None
      else Some i
  end.

Fixpoint eq_steps8 (fuel : nat) (p q : bytes) (n i : nat) : option nat :=
  match fuel with
  | O => Some i
  | S fuel =>
      if (i + 8 <=? n)%nat then
        if ld64 p i =? ld64 q i then eq_steps8 fuel p q n (i + 8) else None
      else Some i
  end.

Fixpoint eq_bytes (p q : bytes) (n : nat) : bool :=
  match n, p, q with
  | O, _, _ => true
  | S n, a :: p, b :: q => (a =? b) && eq_bytes p q n
  | S _, _, _ => false
  end.

Definition val_eq (p q : bytes) (n : nat) : bool :=
  if (n <? 8)%nat then eq_bytes p q n else
  match eq_steps32 n p q n 0 with
  | None => false
  | Some i =>
      match eq_steps8 n p q n i with
      | None => false
      | Some i => negb ((i <? n)%nat && negb (ld64 p (n - 8) =? ld64 q (n - 8)))
      end
  end.

#[global] Arguments val_eq : simpl never.

Section ValEq.
Context (p q : bytes) (n : nat) (Hp : bytes_ok p) (Hq : bytes_ok q).
Context (Lp : length p = n) (Lq : length q = n).

Lemma ld64_eq i : (i + 8 <= n)%nat -> ld64 p i = ld64 q i <-> take 8 (drop i p) = take 8 (drop i q).
Proof.
  intros H. split; [|unfold ld64; by intros ->]. apply le_word_inj.
  1-2: by apply Forall_take, Forall_drop. rewrite !length_take, !length_drop. lia.
Qed.

Lemma agree_more i j :
  (i + j <= n)%nat -> take i p = take i q -> take j (drop i p) = take j (drop i q) ->
  take (i + j) p = take (i + j) q.
Proof. intros H Hi Hj. rewrite <- !take_take_drop. congruence. Qed.

Lemma eq_steps8_spec fuel i :
  (i <= n)%nat -> take i p = take i q -> (n - i < 8 * fuel)%nat ->
  match eq_steps8 fuel p q n i with
  | None => p <> q
  | Some j => take j p = take j q /\ (j <= n)%nat /\ (n < j + 8)%nat
  end.
Proof.
  revert i. induction fuel as [|fuel IH]; intros i Hi Ht Hf; cbn [eq_steps8]; [lia|].
  destruct (i + 8 <=? n)%nat eqn:E; [apply Nat.leb_le in E|apply Nat.leb_gt in E; lia || done].
  destruct (ld64 p i =? ld64 q i) eqn:E2; bool_facts.
  - apply IH; [lia| |lia]. apply agree_more; [lia|done|]. by apply ld64_eq.
  - intros Heq. apply E2. unfold ld64. congruence.
Qed.

Lemma eq_steps32_spec fuel i :
  (i <= n)%nat -> take i p = take i q ->
  match eq_steps32 fuel p q n i with
  | None => p <> q
  | Some j => take j p = take j q /\ (j <= n)%nat
  end.
Proof.
  revert i. induction fuel as [|fuel IH]; intros i Hi Ht; cbn [eq_steps32]; [done|].
  destruct (i + 32 <=? n)%nat eqn:E; [apply Nat.leb_le in E|done].
  match goal with |- context [if ?x =? 0 then _ else _] => destruct (x =? 0) eqn:E2 end; bool_facts.
  - apply Z.lor_eq_0_iff in E2 as [[[E2 E3]%Z.lor_eq_0_iff E4]%Z.lor_eq_0_iff E5].
    apply Z.lxor_eq in E2, E3, E4, E5. apply ld64_eq in E2, E3, E4, E5; try lia.
    apply IH; [lia|]. replace (i + 32)%nat with (i + 8 + 8 + 8 + 8)%nat by lia.
    repeat apply agree_more; try done; try lia.
    all: by rewrite <- ?Nat.add_assoc.
  - intros Heq. apply E2. rewrite Heq. by rewrite !Z.lxor_nilpotent.
Qed.

Lemma eq_bytes_spec : eq_bytes p q n = bool_decide (p = q).
Proof.
  clear Hp Hq. revert p q Lp Lq. induction n as [|m IH]; intros [|a x] [|b y]; try done.
  intros [= H1] [= H2]. cbn [eq_bytes]. rewrite IH by done.
  destruct (a =? b) eqn:E; bool_facts; cbn [andb].
  - subst. apply bool_decide_ext. naive_solver.
  - symmetry. apply bool_decide_eq_false_2. naive_solver.
Qed.

(** The test is equality of the two byte ranges. *)
Lemma val_eq_spec : val_eq p q n = bool_decide (p = q).
Proof.
  unfold val_eq. destruct (n <? 8)%nat eqn:E; [apply eq_bytes_spec|apply Nat.ltb_ge in E].
  pose proof (eq_steps32_spec n 0 ltac:(lia) eq_refl) as H.
  destruct (eq_steps32 n p q n 0) as [i|]; [|by rewrite bool_decide_eq_false_2].
  destruct H as [Ht Hi]. pose proof (eq_steps8_spec n i Hi Ht ltac:(lia)) as H.
  destruct (eq_steps8 n p q n i) as [j|]; [|by rewrite bool_decide_eq_false_2].
  destruct H as (Ht' & Hj & Hlast). symmetry.
  destruct (j <? n)%nat eqn:E2; cbn [andb negb].
  - apply Nat.ltb_lt in E2. rewrite negb_involutive.
    destruct (ld64 p (n - 8) =? ld64 q (n - 8)) eqn:E3; bool_facts.
    + apply bool_decide_eq_true_2. apply ld64_eq in E3; [|lia].
      rewrite <- (take_ge p n), <- (take_ge q n) by lia.
      replace n with (n - 8 + 8)%nat by lia. apply agree_more; [lia| |done].
      apply (f_equal (take (n - 8))) in Ht'. rewrite !take_take in Ht'.
      by rewrite Nat.min_l in Ht' by lia.
    + apply bool_decide_eq_false_2. intros Heq. apply E3. by rewrite Heq.
  - apply Nat.ltb_ge in E2. apply bool_decide_eq_true_2.
    rewrite !take_ge in Ht' by lia. done.
Qed.

End ValEq.

(** * The decimal parse of a counter conversion *)

Definition is_digit (c : Z) : bool := negb ((c <? 48) || (57 <? c)).

Fixpoint digits_ll (v : Z) (p : bytes) : option Z :=
  match p with
  | [] => Some v
  | c :: p => if is_digit c then digits_ll (s64 (v * 10 + (c - 48))) p else None
  end.

(** [None] is the parse's -1. *)
Definition pcache_str2ll (p : bytes) : option Z :=
  match p with
  | [] => None
  | c :: p' =>
      if (c =? 45) || (c =? 43) then
        match p' with
        | [] => None
        | _ => (fun v => if c =? 45 then s64 (- v) else v) <$> digits_ll 0 p'
        end
      else digits_ll 0 p
  end.

(** [snprintf "%lld"]. *)
Fixpoint udec (fuel : nat) (x : Z) (acc : bytes) : bytes :=
  match fuel with
  | O => acc
  | S fuel => if x <? 10 then 48 + x :: acc else udec fuel (x / 10) (48 + x mod 10 :: acc)
  end.

(** Twenty digits hold any 64-bit value. *)
Definition print_ll (x : Z) : bytes :=
  if x <? 0 then 45 :: udec 20 (- x) [] else udec 20 x [].

Lemma digits_udec fuel x acc :
  0 <= x < 10 ^ Z.of_nat fuel -> x < 2 ^ 63 -> digits_ll 0 (udec fuel x acc) = digits_ll x acc.
Proof.
  revert x acc.
  induction fuel as [|fuel IH]; intros x acc Hx Hx'; [simpl in *; assert (x = 0) as -> by lia; done|].
  cbn [udec]. rewrite Nat2Z.inj_succ, Z.pow_succ_r in Hx by lia.
  destruct (x <? 10) eqn:E; bool_facts.
  - cbn [digits_ll]. unfold is_digit. btrue. f_equal. word_lia.
  - rewrite IH by (Z.div_mod_to_equations; lia). cbn [digits_ll].
    unfold is_digit. pose proof (Z.mod_pos_bound x 10 ltac:(lia)). btrue.
    f_equal. rewrite Z.add_simpl_l. assert (x / 10 * 10 + x mod 10 = x) as -> by (Z.div_mod_to_equations; lia).
    word_lia.
Qed.

Lemma udec_head fuel x acc :
  0 <= x -> fuel <> O -> exists c p, udec fuel x acc = c :: p /\ 48 <= c <= 57.
Proof.
  revert x acc. induction fuel as [|fuel IH]; intros x acc Hx Hf; [done|]. cbn [udec].
  destruct (x <? 10) eqn:E; bool_facts; [exists (48 + x), acc; split; [done|lia]|].
  destruct fuel; [|apply IH; [apply Z.div_pos; lia|done]].
  exists (48 + x mod 10), acc. split; [done|]. pose proof (Z.mod_pos_bound x 10). lia.
Qed.

(** What a resize prints of a native counter is what the parse reads back. *)
Lemma str2ll_print x : - 2 ^ 63 < x < 2 ^ 63 -> pcache_str2ll (print_ll x) = Some x.
Proof.
  intros H. unfold print_ll. destruct (x <? 0) eqn:E; bool_facts.
  - cbn [pcache_str2ll]. rewrite Z.eqb_refl. cbn [orb].
    pose proof (digits_udec 20 (- x) [] ltac:(cbn; lia) ltac:(lia)) as Hd.
    destruct (udec_head 20 (- x) [] ltac:(lia) ltac:(done)) as (c & p & Hu & _). rewrite Hu in *.
    rewrite Hd. simpl. f_equal. word_lia.
  - pose proof (digits_udec 20 x [] ltac:(cbn; lia) ltac:(lia)) as Hd.
    destruct (udec_head 20 x [] ltac:(lia) ltac:(done)) as (c & p & Hu & Hc). rewrite Hu in *.
    cbn [pcache_str2ll]. btrue. by rewrite Hd.
Qed.

Lemma udec_ok fuel x acc : 0 <= x -> bytes_ok acc -> bytes_ok (udec fuel x acc).
Proof.
  revert x acc. induction fuel as [|fuel IH]; intros x acc Hx Ha; [done|]. cbn [udec].
  destruct (x <? 10) eqn:E; bool_facts; [constructor; [word_lia|done]|].
  apply IH; [apply Z.div_pos; lia|constructor; [|done]]. pose proof (Z.mod_pos_bound x 10). word_lia.
Qed.

Lemma print_ll_ok x : bytes_ok (print_ll x).
Proof.
  unfold print_ll. destruct (x <? 0) eqn:E; bool_facts; [constructor; [word_lia|]|];
    (apply udec_ok; [lia|constructor]).
Qed.

Lemma udec_len fuel x acc : (length (udec fuel x acc) <= fuel + length acc)%nat.
Proof.
  revert x acc. induction fuel as [|fuel IH]; intros x acc; cbn [udec]; [lia|].
  destruct (x <? 10); simpl; [lia|]. specialize (IH (x / 10) (48 + x mod 10 :: acc)). simpl in IH. lia.
Qed.

Lemma print_ll_len x : zlen (print_ll x) <= 21.
Proof.
  unfold print_ll, zlen. pose proof (udec_len 20 x []). pose proof (udec_len 20 (- x) []).
  destruct (x <? 0); cbn [length] in *; lia.
Qed.

(** * Cell classes *)

Definition PCACHE_CELL_MAX : Z := 262080.
Definition PCACHE_NCLASSES : nat := 27.
Definition PCACHE_REC_HDR : Z := 28.

Definition cell_sizes : list Z :=
  [64; 96; 128; 192; 256; 320; 384; 448; 512; 640; 768; 896;
   1024; 1536; 2048;
   3072; 4096; 6144; 8192; 12288; 16384; 24576; 32768; 49152; 65536;
   98304; 262080].

(** The lookup's entry [idx]: the first class of at least [idx * 32] bytes. *)
Fixpoint class_from (sizes : list Z) (want : Z) (c : Z) : Z :=
  match sizes with
  | [] => c
  | s :: sizes => if s >=? want then c else class_from sizes want (c + 1)
  end.
Definition size2class (idx : Z) : Z := class_from cell_sizes (idx * 32) 0.

Definition PCACHE_REC_SIZE (klen vlen : Z) : Z := PCACHE_REC_HDR + klen + vlen.

Definition pcache_cell_bound (c : Z) : Z :=
  if (0 <=? c) && (c <? Z.of_nat PCACHE_NCLASSES) then default 0 (cell_sizes !! Z.to_nat c) else 0.

(** The class a request of [size] bytes is served from; [None] when it exceeds
    the largest cell. *)
Definition cell_class (size : Z) : option Z :=
  if size >? PCACHE_CELL_MAX then None else Some (size2class (Z.shiftr (size + 31) 5)).

#[global] Arguments pcache_cell_bound : simpl never.

Lemma class_from_ge sizes want c : c <= class_from sizes want c <= c + zlen sizes.
Proof.
  revert c. induction sizes as [|s sizes IH]; intros c; cbn [class_from]; [zlia|].
  destruct (s >=? want); [zlia|]. specialize (IH (c + 1)). zlia.
Qed.

Lemma class_from_fits sizes want c :
  Exists (fun s => want <= s) sizes ->
  exists s, sizes !! Z.to_nat (class_from sizes want c - c) = Some s /\ want <= s.
Proof.
  intros H. revert c. induction H as [s sizes Hs|s sizes H IH]; intros c; cbn [class_from].
  - destruct (s >=? want) eqn:E; bool_facts; [|lia]. rewrite Z.sub_diag. eauto.
  - destruct (s >=? want) eqn:E; bool_facts; [rewrite Z.sub_diag; eauto|].
    destruct (IH (c + 1)) as (t & Ht & Hw). exists t. split; [|done].
    pose proof (class_from_ge sizes want (c + 1)).
    replace (Z.to_nat (class_from sizes want (c + 1) - c)) with (S (Z.to_nat (class_from sizes want (c + 1) - (c + 1)))) by lia.
    done.
Qed.

(** The class picked for a request holds it, and its bound is what the reader
    and the in-place writer test against. *)
Lemma cell_class_fits size c : 0 <= size -> cell_class size = Some c -> size <= pcache_cell_bound c.
Proof.
  intros H0. unfold cell_class. destruct (size >? PCACHE_CELL_MAX) eqn:E; [done|]. intros [= <-]. bool_facts.
  set (want := Z.shiftr (size + 31) 5 * 32).
  assert (size <= want <= 262080) as Hw.
  { unfold want, PCACHE_CELL_MAX in *. rewrite Z.shiftr_div_pow2 by lia. change (2 ^ 5) with 32.
    Z.div_mod_to_equations; lia. }
  destruct (class_from_fits cell_sizes want 0) as (s & Hs & Hle).
  { do 26 apply Exists_cons_tl. apply Exists_cons_hd. lia. }
  pose proof (class_from_ge cell_sizes want 0) as Hr. rewrite Z.sub_0_r in Hs.
  unfold size2class. fold want. unfold pcache_cell_bound.
  pose proof (lookup_lt_Some _ _ _ Hs) as Hlt. change (length cell_sizes) with 27%nat in Hlt.
  unfold PCACHE_NCLASSES. btrue. rewrite Hs. simpl. lia.
Qed.

Lemma cell_bound_max c : pcache_cell_bound c <= PCACHE_CELL_MAX.
Proof.
  unfold pcache_cell_bound. destruct (_ && _); [|unfold PCACHE_CELL_MAX; lia].
  destruct (cell_sizes !! Z.to_nat c) as [s|] eqn:E; [|unfold PCACHE_CELL_MAX; simpl; lia].
  assert (Forall (fun s => s <= PCACHE_CELL_MAX) cell_sizes) as Hf
    by (unfold cell_sizes, PCACHE_CELL_MAX; repeat constructor; lia).
  by eapply Forall_lookup_1 in Hf.
Qed.
