(* ===== verification/HtChain.v ===== *)
(** The bucket chains of the table core: [src/src/core/pcache_htable.c].

    A bucket is one cache line: six tags, six slots, how many are used and the
    link bit that turns slot 5 into the pointer to the next overflow bucket.  A
    chain is the list of its buckets, home first; the pointer in slot 5 is
    [SLink] and the bucket it names is the next of the list.  The operations
    are the writers' - [find_slot], [chain_find], [chain_tail], [chain_append],
    [chain_remove_at] - and the optimistic reader's SWAR scan [scan_bucket].

    [layout l] is the one shape a chain may have for the records [l]: a dense
    sequence, five to each linked bucket and up to six in the last.  Every
    operation is proved to take a layout to a layout, so that a chain refines
    the plain list of its records: append is [++], removal moves the last
    record into the hole, and the reader finds what the writer finds. *)

From stdpp Require Import base tactics list numbers sets.
From S2P Require Import Prelude HtBase.
#[local] Open Scope Z_scope.

Definition PCACHE_SLOTS : nat := 6.

(** * Records and buckets *)

Record pcache_rec := mk_rec {
  cls : Z;                       (* arena class of its cell *)
  rflags : Z;
  expires : Z;                   (* absolute ticks, 0 = never *)
  hash : Z;
  ver : Z;                       (* Lamport version *)
  wtick : Z;
  rkey : bytes;                  (* data[0 .. klen) *)
  rval : bytes;                  (* data[klen .. klen + vlen) *)
}.

Inductive slotv : Type :=
  | SNull
  | SRec (r : pcache_rec)
  | SLink.                       (* slot 5 of a linked bucket *)

Record pcache_bucket := mk_bkt {
  tags : list Z;
  slot : list slotv;
  used : nat;                    (* meta & 7 *)
  link : bool;                   (* meta & 8 *)
}.

(** A bucket fresh from the pool: all zero. *)
Definition bkt_zero : pcache_bucket :=
  mk_bkt (replicate PCACHE_SLOTS 0) (replicate PCACHE_SLOTS SNull) 0 false.

Definition tag_of (h : Z) : Z :=
  let t := u8 (Z.shiftr h 24) in if t =? 0 then 1 else t.

#[global] Arguments tag_of : simpl never.

Definition bkt_cap (b : pcache_bucket) : nat :=
  if link b then PCACHE_SLOTS - 1 else PCACHE_SLOTS.

Definition chained_of (n : nat) : Z :=
  if (PCACHE_SLOTS <? n)%nat then Z.of_nat n - (Z.of_nat PCACHE_SLOTS - 1) else 0.

Definition set_slot (b : pcache_bucket) (i : nat) (s : slotv) (t : Z) : pcache_bucket :=
  mk_bkt (<[i := t]> (tags b)) (<[i := s]> (slot b)) (used b) (link b).
Definition set_used (b : pcache_bucket) (n : nat) : pcache_bucket :=
  mk_bkt (tags b) (slot b) n (link b).
Definition set_link (b : pcache_bucket) (l : bool) : pcache_bucket :=
  mk_bkt (tags b) (slot b) (used b) l.

(** Does the record answer for this key?  [r->hash == hash && klen == len &&
    !memcmp]. *)
Definition rec_is (k : bytes) (h : Z) (r : pcache_rec) : bool :=
  (hash r =? h) && bool_decide (rkey r = k).

(** * The writers' scan *)

Definition slot_is (b : pcache_bucket) (k : bytes) (h tag : Z) (i : nat) : bool :=
  match tags b !! i, slot b !! i with
  | Some t, Some (SRec r) => (t =? tag) && rec_is k h r
  | _, _ => false
  end.

(** The first index of [ids] that passes [p]. *)
Definition find_first (p : nat -> bool) (ids : list nat) : option nat := head (List.filter p ids).

Definition find_slot (b : pcache_bucket) (k : bytes) (h tag : Z) : option nat :=
  find_first (slot_is b k h tag) (seq 0 (used b)).

(** [chain_find]: the bucket's position in the chain and the slot in it. *)
Fixpoint chain_find (bs : list pcache_bucket) (k : bytes) (h tag : Z) : option (nat * nat) :=
  match bs with
  | [] => None
  | b :: bs' =>
      match find_slot b k h tag with
      | Some i => Some (0%nat, i)
      | None => if link b then (fun '(w, i) => (S w, i)) <$> chain_find bs' k h tag else None
      end
  end.

(** [chain_tail]: the last bucket's position and the records over the chain. *)
Fixpoint chain_tail (bs : list pcache_bucket) : nat * nat :=
  match bs with
  | b :: (_ :: _) as bs' =>
      if link b then let '(w, n) := chain_tail bs' in (S w, used b + n)%nat else (0, used b)%nat
  | b :: [] => (0, used b)%nat
  | [] => (0, 0)%nat
  end.

(** * Append and remove *)

(** [chain_append] at the last bucket [w]: the new chain, and whether the
    overflow bucket [ob] (zeroed) was used. *)
Definition chain_append (bs : list pcache_bucket) (r : pcache_rec) (tag : Z)
    : list pcache_bucket * bool :=
  let '(w, _) := chain_tail bs in
  match bs !! w with
  | None => (bs, false)
  | Some tail =>
      let u := used tail in
      if (u <? bkt_cap tail)%nat then
        (<[w := set_used (set_slot tail u (SRec r) tag) (u + 1)]> bs, false)
      else
        let last := (PCACHE_SLOTS - 1)%nat in
        let ob := set_slot bkt_zero 0 (default SNull (slot tail !! last)) (default 0 (tags tail !! last)) in
        let ob := set_used (set_slot ob 1 (SRec r) tag) 2 in
        let tail := set_used (set_link (set_slot tail last SLink 0) true) last in
        (<[w := tail]> bs ++ [ob], true)
  end.

(** [chain_remove_at]: remove slot [i] of the chain's bucket [w].  The new
    chain, whether a bucket left it, and the change in chained records. *)
Definition chain_remove_at (bs : list pcache_bucket) (w i : nat)
    : list pcache_bucket * bool * Z :=
  let '(tw, n) := chain_tail bs in
  let dc := chained_of (n - 1) - chained_of n in
  match bs !! tw with
  | None => (bs, false, 0)
  | Some t =>
      let tu := (used t - 1)%nat in
      let bs := if bool_decide (tw = w /\ tu = i) then bs
                else alter (fun b => set_slot b i (default SNull (slot t !! tu)) (default 0 (tags t !! tu))) w bs in
      let bs := alter (fun b => set_used (set_slot b tu SNull 0) tu) tw bs in
      match tw, bs !! tw with
      | S pw, Some t =>
          if (tu =? 1)%nat then
            let last := (PCACHE_SLOTS - 1)%nat in
            let bs := alter (fun p => set_used (set_link (set_slot p last (default SNull (slot t !! 0%nat))
                          (default 0 (tags t !! 0%nat))) false) PCACHE_SLOTS) pw bs in
            (take tw bs, true, dc)
          else (bs, false, dc)
      | _, _ => (bs, false, dc)
      end
  end.

(** * The canonical layout of a list of records *)

Definition lay_bkt (rs : list pcache_rec) (lnk : bool) : pcache_bucket :=
  mk_bkt (map (fun r => tag_of (hash r)) rs ++ replicate (PCACHE_SLOTS - length rs) 0)
    (map SRec rs ++ (if lnk then [SLink] else replicate (PCACHE_SLOTS - length rs) SNull))
    (length rs) lnk.

Fixpoint layout_fuel (n : nat) (l : list pcache_rec) : list pcache_bucket :=
  match n with
  | O => [lay_bkt l false]
  | S n => if (length l <=? PCACHE_SLOTS)%nat then [lay_bkt l false]
           else lay_bkt (take (PCACHE_SLOTS - 1) l) true :: layout_fuel n (drop (PCACHE_SLOTS - 1) l)
  end.

Definition layout (l : list pcache_rec) : list pcache_bucket := layout_fuel (length l) l.

(** The list operations the chain implements. *)

(** The record at [i] out, the last one into its place. *)
Definition swap_remove (i : nat) (l : list pcache_rec) : list pcache_rec :=
  match list.last l with
  | None => l
  | Some x => if bool_decide (i = length l - 1)%nat then take (length l - 1) l
              else take (length l - 1) (<[i := x]> l)
  end.

(** The index of the record that answers for a key. *)
Fixpoint rec_index (k : bytes) (h : Z) (l : list pcache_rec) : option nat :=
  match l with
  | [] => None
  | r :: l => if rec_is k h r then Some 0%nat else S <$> rec_index k h l
  end.

(** The place [(w, i)] of the chain as an index into its records. *)
Definition pos (p : nat * nat) : nat := ((PCACHE_SLOTS - 1) * p.1 + p.2)%nat.

Lemma pos_eq w i : pos (w, i) = (5 * w + i)%nat.
Proof. done. Qed.
#[global] Arguments pos : simpl never.

(** Overwrite the record at a place, its tag unchanged ([w->slot[i] = nr], or a
    change of the record's own fields). *)
Definition chain_put (bs : list pcache_bucket) (w i : nat) (r : pcache_rec) : list pcache_bucket :=
  alter (fun b => mk_bkt (tags b) (<[i := SRec r]> (slot b)) (used b) (link b)) w bs.

(** * The layout, unfolded *)

Lemma layout_fuel_irrel n m l :
  (length l <= n)%nat -> (length l <= m)%nat -> layout_fuel n l = layout_fuel m l.
Proof.
  revert m l. induction n as [|n IH]; intros [|m] l Hn Hm; simpl; try done;
    case_match eqn:E; try done; apply Nat.leb_gt in E; unfold PCACHE_SLOTS in *; try lia.
  f_equal. apply IH; rewrite length_drop; lia.
Qed.

Lemma layout_fuel_enough n l : (length l <= n)%nat -> layout_fuel n l = layout l.
Proof. intros. by apply layout_fuel_irrel. Qed.

Lemma layout_small l : (length l <= 6)%nat -> layout l = [lay_bkt l false].
Proof.
  intros H. unfold layout. destruct (length l) eqn:E; simpl; [done|].
  rewrite (proj2 (Nat.leb_le _ _)) by (unfold PCACHE_SLOTS; lia). done.
Qed.

Lemma layout_big l :
  (6 < length l)%nat -> layout l = lay_bkt (take 5 l) true :: layout (drop 5 l).
Proof.
  intros H. unfold layout at 1. destruct (length l) as [|n] eqn:E; [lia|]. simpl.
  rewrite (proj2 (Nat.leb_gt _ _)) by (unfold PCACHE_SLOTS; lia). f_equal.
  apply layout_fuel_enough. rewrite length_drop. lia.
Qed.

Lemma layout_ind (P : list pcache_rec -> Prop) :
  (forall l, (length l <= 6)%nat -> P l) ->
  (forall l, (6 < length l)%nat -> P (drop 5 l) -> P l) -> forall l, P l.
Proof.
  intros H1 H2 l. remember (length l) as n eqn:E. revert l E.
  induction n as [n IH] using lt_wf_ind. intros l ->.
  destruct (decide (length l <= 6)%nat); [auto|]. apply H2; [lia|].
  eapply IH; [|done]. rewrite length_drop. lia.
Qed.

Lemma layout_ne l : layout l <> [].
Proof. destruct (decide (length l <= 6)%nat); [rewrite layout_small|rewrite layout_big]; done || lia. Qed.

Lemma layout_cons l : exists b bs, layout l = b :: bs.
Proof. pose proof (layout_ne l). destruct (layout l); [done|eauto]. Qed.

Lemma lay_bkt_slot rs lnk i r :
  rs !! i = Some r -> slot (lay_bkt rs lnk) !! i = Some (SRec r) /\ tags (lay_bkt rs lnk) !! i = Some (tag_of (hash r)).
Proof.
  intros H. pose proof (lookup_lt_Some _ _ _ H). simpl.
  rewrite !lookup_app_l by (by rewrite length_map). rewrite !list_lookup_fmap, H. done.
Qed.

Lemma chain_tail_layout l :
  chain_tail (layout l) = ((length (layout l) - 1)%nat, length l).
Proof.
  induction l as [l Hl|l Hl IH] using layout_ind; [by rewrite layout_small|].
  rewrite layout_big by done. destruct (layout_cons (drop 5 l)) as (b & bs & E). rewrite E in *.
  cbn [chain_tail lay_bkt link]. cbn [chain_tail] in IH. rewrite IH. cbn [used lay_bkt length].
  rewrite length_take, length_drop. f_equal; lia.
Qed.

(** A layout seen as its chunks of five and the last bucket's records. *)
Record chunked (l : list pcache_rec) (cs : list (list pcache_rec)) (rs : list pcache_rec) : Prop := {
  ch_eq : l = concat cs ++ rs;
  ch_five : Forall (fun c => length c = 5%nat) cs;
  ch_le : (length rs <= 6)%nat;
  ch_two : cs <> [] -> (2 <= length rs)%nat;
}.

Definition lay_chunks (cs : list (list pcache_rec)) (rs : list pcache_rec) : list pcache_bucket :=
  map (fun c => lay_bkt c true) cs ++ [lay_bkt rs false].

Lemma chunked_len l cs rs : chunked l cs rs -> (length l = 5 * length cs + length rs)%nat.
Proof.
  intros [-> Hf _ _]. rewrite length_app. f_equal.
  induction Hf as [|c cs Hc _ IH]; [done|]. cbn [concat length]. rewrite length_app. lia.
Qed.

Lemma layout_chunked l cs rs : chunked l cs rs -> layout l = lay_chunks cs rs.
Proof.
  revert l. induction cs as [|c cs IH]; intros l H.
  - destruct H as [-> _ H _]. simpl. by rewrite layout_small.
  - pose proof (chunked_len _ _ _ H) as HL. destruct H as [-> Hf Hle Htwo].
    inversion Hf as [|? ? Hc Hcs]; subst. specialize (Htwo ltac:(done)).
    cbn [length] in HL. rewrite layout_big by lia. cbn [concat] in *. rewrite <- app_assoc.
    rewrite take_app_le, drop_app_le, take_ge, drop_ge by lia. cbn [app]. rewrite (IH (concat cs ++ rs)); [done|].
    constructor; auto.
Qed.

Lemma layout_chunks l : exists cs rs, chunked l cs rs.
Proof.
  induction l as [l Hl|l Hl (cs & rs & [E H1 H2 H3])] using layout_ind.
  - exists [], l. constructor; auto; done.
  - exists (take 5 l :: cs), rs. constructor; [|constructor; [rewrite length_take; lia|done]|done|].
    + simpl. rewrite <- app_assoc, <- E. by rewrite take_drop.
    + intros _. destruct cs; [|by apply H3].
      simpl in E. rewrite <- E, length_drop. lia.
Qed.

Lemma lay_chunks_tail cs rs : lay_chunks cs rs !! length cs = Some (lay_bkt rs false).
Proof. unfold lay_chunks. rewrite lookup_app_r; rewrite length_map; [|done]. by rewrite Nat.sub_diag. Qed.

Lemma lay_chunks_len cs rs : length (lay_chunks cs rs) = S (length cs).
Proof. unfold lay_chunks. rewrite length_app, length_map. simpl. lia. Qed.

Lemma chain_tail_chunks l cs rs : chunked l cs rs -> chain_tail (layout l) = (length cs, length l).
Proof. intros H. rewrite chain_tail_layout, (layout_chunked _ _ _ H), lay_chunks_len. f_equal. lia. Qed.

(** * Finding a record *)

Lemma find_first_cons p i ids : find_first p (i :: ids) = if p i then Some i else find_first p ids.
Proof. unfold find_first; simpl. by destruct (p i). Qed.

Lemma slot_is_lay rs lnk k h i r :
  rs !! i = Some r -> slot_is (lay_bkt rs lnk) k h (tag_of h) i = rec_is k h r.
Proof.
  intros H. unfold slot_is. destruct (lay_bkt_slot rs lnk i r H) as [-> ->].
  unfold rec_is. destruct (hash r =? h) eqn:E; bool_facts; cbn [andb]; [|apply andb_false_r].
  by rewrite E, Z.eqb_refl.
Qed.

Lemma find_slot_from b k h pre rs lnk :
  b = lay_bkt (pre ++ rs) lnk ->
  find_first (slot_is b k h (tag_of h)) (seq (length pre) (length rs)) =
    (fun j => length pre + j)%nat <$> rec_index k h rs.
Proof.
  intros ->. revert pre. induction rs as [|r rs IH]; intros pre; [done|]. cbn [seq length rec_index].
  rewrite find_first_cons, (slot_is_lay _ _ _ _ _ r) by (by rewrite list_lookup_middle).
  destruct (rec_is k h r); simpl; [by rewrite Nat.add_0_r|].
  specialize (IH (pre ++ [r])). rewrite <- app_assoc in IH. simpl in IH.
  rewrite length_app in IH. simpl in IH. rewrite Nat.add_1_r in IH. rewrite IH.
  destruct (rec_index k h rs); simpl; [|done]. f_equal. lia.
Qed.

Lemma find_slot_lay rs lnk k h : find_slot (lay_bkt rs lnk) k h (tag_of h) = rec_index k h rs.
Proof.
  pose proof (find_slot_from (lay_bkt rs lnk) k h [] rs lnk eq_refl) as H.
  unfold find_slot. cbn [used lay_bkt] in *. cbn [length] in H. unfold lay_bkt in *. rewrite H.
  by destruct (rec_index k h rs).
Qed.

Lemma rec_index_lt k h l i : rec_index k h l = Some i -> (i < length l)%nat.
Proof.
  revert i. induction l as [|r l IH]; intros i; simpl; [done|].
  destruct (rec_is k h r); [intros [= <-]; lia|].
  destruct (rec_index k h l); simpl; [|done]. intros [= <-]. specialize (IH _ eq_refl). lia.
Qed.

Lemma rec_index_Some k h l i :
  rec_index k h l = Some i -> exists r, l !! i = Some r /\ rec_is k h r = true.
Proof.
  revert i. induction l as [|r l IH]; intros i; simpl; [done|].
  destruct (rec_is k h r) eqn:E; [intros [= <-]; eauto|].
  destruct (rec_index k h l); simpl; [|done]. intros [= <-]. eauto.
Qed.

Lemma rec_index_None k h l :
  rec_index k h l = None <-> forall r, r ∈ l -> rec_is k h r = false.
Proof.
  induction l as [|r l IH]; simpl; [set_solver|].
  destruct (rec_is k h r) eqn:E.
  - split; [done|]. intros H. rewrite H in E; [done|set_solver].
  - rewrite fmap_None, IH. set_solver.
Qed.

Lemma rec_index_app k h l l' :
  rec_index k h (l ++ l') =
    match rec_index k h l with Some i => Some i | None => (Nat.add (length l)) <$> rec_index k h l' end.
Proof.
  induction l as [|r l IH]; simpl; [by destruct (rec_index k h l')|].
  destruct (rec_is k h r); [done|]. rewrite IH. destruct (rec_index k h l); [done|].
  by destruct (rec_index k h l').
Qed.

(** A slot of a chain that holds a record. *)
Definition at_place (l : list pcache_rec) (w i : nat) : Prop :=
  exists b, layout l !! w = Some b /\ (i < used b)%nat.

Lemma at_place_small l w i : (length l <= 6)%nat -> at_place l w i <-> w = 0%nat /\ (i < length l)%nat.
Proof.
  intros H. unfold at_place. rewrite layout_small by done. split.
  - intros (b & Hb & Hi). apply list_lookup_singleton_Some in Hb as [-> <-]. done.
  - intros [-> ?]. eexists; split; [done|]. done.
Qed.

Lemma at_place_big l w i :
  (6 < length l)%nat -> at_place l w i <->
    match w with O => (i < 5)%nat | S w => at_place (drop 5 l) w i end.
Proof.
  intros H. unfold at_place. rewrite layout_big by done. destruct w as [|w]; simpl; [|done].
  split; [intros (b & [= <-] & Hi); simpl in Hi; rewrite length_take in Hi; lia|].
  intros. eexists; split; [done|]. simpl. rewrite length_take. lia.
Qed.

Lemma at_place_lt l w i : at_place l w i -> (pos (w, i) < length l)%nat.
Proof.
  revert w i. induction l as [l Hl|l Hl IH] using layout_ind; intros w i.
  - rewrite at_place_small by done. rewrite pos_eq. intros [-> ?]. lia.
  - rewrite at_place_big by done. destruct w as [|w]; rewrite pos_eq; [lia|].
    intros H%IH. rewrite pos_eq, length_drop in H. lia.
Qed.

Theorem chain_find_layout l k h :
  match chain_find (layout l) k h (tag_of h) with
  | Some (w, i) => rec_index k h l = Some (pos (w, i)) /\ at_place l w i
  | None => rec_index k h l = None
  end.
Proof.
  induction l as [l Hl|l Hl IH] using layout_ind.
  - rewrite layout_small by done. cbn [chain_find]. rewrite find_slot_lay.
    destruct (rec_index k h l) as [i|] eqn:E; [|done]. simpl. split; [done|].
    rewrite at_place_small by done. split; [done|]. by eapply rec_index_lt.
  - rewrite layout_big by done. cbn [chain_find]. rewrite find_slot_lay. cbn [link lay_bkt].
    assert (rec_index k h l = rec_index k h (take 5 l ++ drop 5 l)) as Hidx by (by rewrite take_drop).
    rewrite rec_index_app in Hidx. rewrite Hidx.
    destruct (rec_index k h (take 5 l)) as [i|] eqn:E.
    + split; [done|]. rewrite at_place_big by done. apply rec_index_lt in E. rewrite length_take in E. lia.
    + destruct (chain_find (layout (drop 5 l)) k h (tag_of h)) as [[w i]|]; simpl.
      * destruct IH as [-> Hp]. rewrite at_place_big by done. split; [|done]. simpl.
        rewrite length_take, !pos_eq. f_equal. lia.
      * by rewrite IH.
Qed.

(** The record the place names. *)
Lemma at_place_slot l w i :
  at_place l w i -> exists b r, layout l !! w = Some b /\ slot b !! i = Some (SRec r) /\
    tags b !! i = Some (tag_of (hash r)) /\ l !! pos (w, i) = Some r.
Proof.
  revert w i. induction l as [l Hl|l Hl IH] using layout_ind; intros w i Hp.
  - rewrite layout_small by done. apply at_place_small in Hp as [-> Hi]; [|done].
    destruct (lookup_lt_is_Some_2 l i Hi) as [r Hr]. eexists _, r; split; [done|].
    change (pos (0%nat, i)) with i. destruct (lay_bkt_slot l false i r Hr). done.
  - rewrite layout_big by done. apply at_place_big in Hp; [|done]. destruct w as [|w].
    + destruct (lookup_lt_is_Some_2 l i) as [r Hr]; [lia|]. eexists _, r; split; [done|].
      change (pos (0%nat, i)) with i.
      destruct (lay_bkt_slot (take 5 l) true i r); [by rewrite lookup_take_lt by lia|done].
    + destruct (IH _ _ Hp) as (b & r & Hb & Hs & Ht & Hr). exists b, r. split_and!; [done..|].
      rewrite lookup_drop in Hr. rewrite <- Hr, !pos_eq. f_equal. lia.
Qed.

(** * Overwriting, appending, removing *)

Lemma lay_bkt_put rs lnk i r :
  (i < length rs)%nat -> (forall o, rs !! i = Some o -> tag_of (hash r) = tag_of (hash o)) ->
  mk_bkt (tags (lay_bkt rs lnk)) (<[i := SRec r]> (slot (lay_bkt rs lnk)))
    (used (lay_bkt rs lnk)) (link (lay_bkt rs lnk)) = lay_bkt (<[i := r]> rs) lnk.
Proof.
  intros Hi Ht. unfold lay_bkt; simpl. rewrite length_insert.
  rewrite insert_app_l by (by rewrite length_map). rewrite <- list_fmap_insert. f_equal. f_equal.
  destruct (lookup_lt_is_Some_2 rs i Hi) as [o Ho].
  apply list_eq. intros j. rewrite !list_lookup_fmap.
  destruct (decide (i = j)) as [<-|Hne].
  - rewrite list_lookup_insert_eq by done. rewrite Ho. simpl. by rewrite (Ht o).
  - by rewrite list_lookup_insert_ne.
Qed.

(** A change of one bucket that overwrites the record at a place. *)
Lemma alter_layout f l w i r :
  at_place l w i ->
  (forall rs lnk, (i < length rs)%nat -> rs !! i = l !! pos (w, i) ->
     f (lay_bkt rs lnk) = lay_bkt (<[i := r]> rs) lnk) ->
  alter f w (layout l) = layout (<[pos (w, i) := r]> l).
Proof.
  revert w i. induction l as [l Hl|l Hl IH] using layout_ind; intros w i Hp Hf.
  - apply at_place_small in Hp as [-> Hi]; [|done]. rewrite !layout_small by (by rewrite ?length_insert).
    exact (f_equal (fun b => [b]) (Hf l false Hi eq_refl)).
  - apply at_place_big in Hp; [|done]. rewrite (layout_big l) by done.
    rewrite (layout_big (<[_ := r]> l)) by (by rewrite length_insert).
    rewrite pos_eq in *. destruct w as [|w].
    + change (5 * 0 + i)%nat with i in *. rewrite take_insert_lt, drop_insert_lt by lia.
      refine (f_equal (fun b => b :: _) (Hf (take 5 l) true _ _)).
      * rewrite length_take; lia.
      * by rewrite lookup_take_lt by lia.
    + rewrite take_insert_ge by lia. refine (f_equal (cons _) _). rewrite drop_insert_ge by lia.
      replace (5 * S w + i - 5)%nat with (pos (w, i)) by (rewrite pos_eq; lia).
      apply IH; [done|]. intros rs lnk Hi Hr. apply Hf; [done|]. rewrite Hr, lookup_drop, pos_eq.
      f_equal. lia.
Qed.

Lemma chain_put_layout l w i r :
  at_place l w i -> (forall o, l !! pos (w, i) = Some o -> tag_of (hash r) = tag_of (hash o)) ->
  chain_put (layout l) w i r = layout (<[pos (w, i) := r]> l).
Proof.
  intros Hp Ht. apply alter_layout; [done|]. intros rs lnk Hi Hr.
  apply lay_bkt_put; [done|]. intros o Ho. apply Ht. congruence.
Qed.

(** * Appending *)

Lemma lay_bkt_used rs lnk : used (lay_bkt rs lnk) = length rs.
Proof. done. Qed.

(** Does appending to the chain take a new overflow bucket? *)
Definition tail_full (l : list pcache_rec) : bool :=
  match layout l !! (chain_tail (layout l)).1 with
  | Some b => (used b =? PCACHE_SLOTS)%nat | None => false end.

Lemma tail_full_chunks l cs rs : chunked l cs rs -> tail_full l = (length rs =? 6)%nat.
Proof.
  intros H. unfold tail_full. rewrite (chain_tail_chunks _ _ _ H), (layout_chunked _ _ _ H).
  cbn [fst]. by rewrite lay_chunks_tail.
Qed.

Lemma insert_tail cs rs b : <[length cs := b]> (lay_chunks cs rs) = map (fun c => lay_bkt c true) cs ++ [b].
Proof. unfold lay_chunks. rewrite insert_app_r_alt; rewrite length_map; [|done]. by rewrite Nat.sub_diag. Qed.

Lemma lay_bkt_snoc rs r :
  (length rs < 6)%nat ->
  set_used (set_slot (lay_bkt rs false) (length rs) (SRec r) (tag_of (hash r))) (length rs + 1) =
    lay_bkt (rs ++ [r]) false.
Proof.
  intros H. unfold lay_bkt, set_used, set_slot; cbn [tags slot used link].
  rewrite !map_app, !length_app. cbn [length map].
  replace (6 - length rs)%nat with (S (6 - (length rs + 1))) by lia.
  replace (PCACHE_SLOTS - length rs)%nat with (S (PCACHE_SLOTS - (length rs + 1))) by (unfold PCACHE_SLOTS; lia).
  cbn [replicate].
  rewrite !insert_app_r_alt by (by rewrite length_map). rewrite !length_map, Nat.sub_diag.
  cbn [insert list_insert]. by rewrite <- !app_assoc.
Qed.

(** A full last bucket gives its slot 5 record to the new bucket. *)
Lemma lay_bkt_spill rs :
  length rs = 6%nat ->
  set_used (set_link (set_slot (lay_bkt rs false) 5 SLink 0) true) 5 = lay_bkt (take 5 rs) true.
Proof.
  intros H. unfold lay_bkt, set_used, set_slot, set_link; cbn [tags slot used link].
  do 6 (destruct rs as [|? rs]; [done|]). destruct rs; [|done]. done.
Qed.

Lemma lay_bkt_two rs r :
  length rs = 6%nat ->
  set_used (set_slot (set_slot bkt_zero 0 (default SNull (slot (lay_bkt rs false) !! 5%nat))
     (default 0 (tags (lay_bkt rs false) !! 5%nat))) 1 (SRec r) (tag_of (hash r))) 2 =
  lay_bkt (drop 5 rs ++ [r]) false.
Proof. intros H. do 6 (destruct rs as [|? rs]; [done|]). destruct rs; [|done]. done. Qed.

Lemma chain_append_layout l r :
  chain_append (layout l) r (tag_of (hash r)) = (layout (l ++ [r]), tail_full l).
Proof.
  destruct (layout_chunks l) as (cs & rs & H). rewrite (tail_full_chunks _ _ _ H).
  unfold chain_append. rewrite (chain_tail_chunks _ _ _ H), (layout_chunked _ _ _ H), lay_chunks_tail.
  cbn [used lay_bkt bkt_cap link]. fold (lay_bkt rs false). unfold PCACHE_SLOTS.
  destruct H as [-> Hf Hle Htwo]. destruct (length rs <? 6)%nat eqn:E.
  - apply Nat.ltb_lt in E. rewrite (proj2 (Nat.eqb_neq _ _)) by lia.
    rewrite insert_tail, lay_bkt_snoc by done. f_equal. symmetry. apply layout_chunked.
    constructor; [by rewrite app_assoc|done|rewrite length_app; simpl; lia|].
    intros ?%Htwo. rewrite length_app. lia.
  - apply Nat.ltb_ge in E. assert (length rs = 6%nat) as E6 by lia. rewrite E6. cbn [Nat.eqb].
    change (6 - 1)%nat with 5%nat. rewrite insert_tail, lay_bkt_spill, lay_bkt_two by done. f_equal.
    symmetry. rewrite (layout_chunked _ (cs ++ [take 5 rs]) (drop 5 rs ++ [r])).
    + unfold lay_chunks. rewrite map_app. simpl. by rewrite <- !app_assoc.
    + constructor.
      * rewrite concat_app. simpl. rewrite app_nil_r, <- !app_assoc. f_equal.
        rewrite app_assoc. f_equal. by rewrite take_drop.
      * apply Forall_app. split; [done|]. constructor; [rewrite length_take; lia|done].
      * rewrite length_app, length_drop. simpl. lia.
      * intros _. rewrite length_app, length_drop. simpl. lia.
Qed.

(** * Removing *)

Lemma at_place_chunks l cs rs w i :
  chunked l cs rs -> at_place l w i ->
  (w < length cs /\ i < 5)%nat \/ (w = length cs /\ i < length rs)%nat.
Proof.
  intros H (b & Hb & Hi). rewrite (layout_chunked _ _ _ H) in Hb.
  apply lookup_app_Some in Hb as [Hb|[Hw Hb]].
  - left. rewrite list_lookup_fmap_Some in Hb. destruct Hb as (c & -> & Hc). simpl in Hi.
    split; [by eapply lookup_lt_Some|].
    pose proof (Forall_lookup_1 _ _ _ _ (ch_five _ _ _ H) Hc). simpl in *. lia.
  - right. rewrite length_map in *. apply list_lookup_singleton_Some in Hb as [? <-]. simpl in Hi. lia.
Qed.

Lemma lay_bkt_set rs lnk i r :
  (i < length rs)%nat -> set_slot (lay_bkt rs lnk) i (SRec r) (tag_of (hash r)) = lay_bkt (<[i := r]> rs) lnk.
Proof.
  intros Hi. unfold set_slot, lay_bkt; cbn [tags slot used link]. rewrite length_insert.
  rewrite !insert_app_l by (by rewrite length_map).
  rewrite <- (list_fmap_insert (fun r => tag_of (hash r))), <- (list_fmap_insert SRec). done.
Qed.

Lemma lay_bkt_pop rs x :
  (length rs < 6)%nat ->
  set_used (set_slot (lay_bkt (rs ++ [x]) false) (length rs) SNull 0) (length rs) = lay_bkt rs false.
Proof.
  intros H. do 6 (destruct rs as [|? rs]; [done|]). simpl in H. lia.
Qed.

Lemma lay_bkt_fold c y :
  length c = 5%nat ->
  set_used (set_link (set_slot (lay_bkt c true) 5 (SRec y) (tag_of (hash y))) false) 6 = lay_bkt (c ++ [y]) false.
Proof. intros H. do 5 (destruct c as [|? c]; [done|]). by destruct c. Qed.

(** Dropping the chain's last record, and the overflow bucket it leaves with
    one. *)
Definition chain_pop (bs : list pcache_bucket) : list pcache_bucket * bool :=
  let '(tw, n) := chain_tail bs in
  match bs !! tw with
  | None => (bs, false)
  | Some t =>
      let tu := (used t - 1)%nat in
      let bs := alter (fun b => set_used (set_slot b tu SNull 0) tu) tw bs in
      match tw, bs !! tw with
      | S pw, Some t =>
          if (tu =? 1)%nat then
            (take tw (alter (fun p => set_used (set_link (set_slot p (PCACHE_SLOTS - 1)
              (default SNull (slot t !! 0%nat)) (default 0 (tags t !! 0%nat))) false) PCACHE_SLOTS) pw bs), true)
          else (bs, false)
      | _, _ => (bs, false)
      end
  end.

Lemma alter_tail f cs rs :
  alter f (length cs) (lay_chunks cs rs) = map (fun c => lay_bkt c true) cs ++ [f (lay_bkt rs false)].
Proof. unfold lay_chunks. rewrite alter_app_r_alt; rewrite length_map; [|done]. by rewrite Nat.sub_diag. Qed.

Lemma take_alter_prev f cs c rs :
  take (S (length cs)) (alter f (length cs) (lay_chunks (cs ++ [c]) rs)) =
    map (fun c => lay_bkt c true) cs ++ [f (lay_bkt c true)].
Proof.
  unfold lay_chunks. rewrite map_app, <- app_assoc. cbn [map app].
  rewrite alter_app_r_alt; rewrite length_map; [|done]. rewrite Nat.sub_diag. simpl alter.
  set (m := map _ cs). replace (S (length cs)) with (length m + 1)%nat by (unfold m; rewrite length_map; lia).
  rewrite take_app_add. done.
Qed.

Lemma chunked_pop l x cs rs :
  chunked (l ++ [x]) cs rs -> exists rs0, rs = rs0 ++ [x] /\ l = concat cs ++ rs0.
Proof.
  intros [E _ _ Htwo]. destruct rs as [|y rs' _] using rev_ind.
  - rewrite app_nil_r in E. destruct cs; [by destruct l|]. specialize (Htwo ltac:(done)). simpl in Htwo; lia.
  - rewrite app_assoc in E. apply app_inj_tail in E as [-> ->]. eauto.
Qed.

Lemma chain_pop_layout l x : fst (chain_pop (layout (l ++ [x]))) = layout l.
Proof.
  destruct (layout_chunks (l ++ [x])) as (cs & rs & H). unfold chain_pop.
  rewrite (chain_tail_chunks _ _ _ H), (layout_chunked _ _ _ H), lay_chunks_tail.
  destruct (chunked_pop _ _ _ _ H) as (rs0 & -> & ->).
  destruct H as [_ Hf Hle Htwo]. rewrite length_app in *. cbn [length] in *.
  rewrite lay_bkt_used, length_app. cbn [length]. rewrite Nat.add_sub.
  rewrite alter_tail, lay_bkt_pop by lia. fold (lay_chunks cs rs0).
  destruct cs as [|c cs _] using rev_ind; cbn [length].
  - simpl. by rewrite layout_small by lia.
  - specialize (Htwo ltac:(by destruct cs)).
    pose proof (lay_chunks_tail (cs ++ [c]) rs0) as Ht. rewrite length_app, Nat.add_1_r in *. rewrite Ht.
    apply Forall_app in Hf as [Hf Hc]. apply Forall_cons in Hc as [Hc _].
    destruct (length rs0 =? 1)%nat eqn:E; cbn [fst].
    + apply Nat.eqb_eq in E. destruct rs0 as [|y [|]]; try done.
      rewrite take_alter_prev. etransitivity; [|symmetry; apply (layout_chunked _ cs (c ++ [y]))].
      * exact (f_equal (fun b => map (fun c => lay_bkt c true) cs ++ [b]) (lay_bkt_fold c y Hc)).
      * constructor; [rewrite concat_app; simpl; by rewrite app_nil_r, <- app_assoc|done| |];
          rewrite length_app; simpl; lia.
    + apply Nat.eqb_neq in E. symmetry. apply layout_chunked. constructor; [done| |lia|lia].
      apply Forall_app; split; [done|by constructor].
Qed.

(** Removal is the move of the last record into the hole, then a pop. *)
Lemma chain_remove_pop bs w i tw n t :
  chain_tail bs = (tw, n) -> bs !! tw = Some t -> (0 < used t)%nat ->
  let tu := (used t - 1)%nat in
  let bs' := if bool_decide (tw = w /\ tu = i) then bs
             else alter (fun b => set_slot b i (default SNull (slot t !! tu)) (default 0 (tags t !! tu))) w bs in
  chain_tail bs' = (tw, n) ->
  fst (chain_remove_at bs w i) = chain_pop bs'.
Proof.
  intros Ht Hb Hu. cbv zeta. intros Ht'. unfold chain_remove_at, chain_pop. rewrite Ht, Ht', Hb.
  set (tu := (used t - 1)%nat) in *. set (bs' := if bool_decide _ then _ else _) in *.
  assert (exists t', bs' !! tw = Some t' /\ used t' = used t) as (t' & -> & Hu').
  { unfold bs'. case_bool_decide as E; [eauto|]. destruct (decide (w = tw)) as [->|].
    - rewrite list_lookup_alter_eq, Hb. eexists; split; [done|done].
    - rewrite list_lookup_alter_ne by done. eauto. }
  rewrite Hu'. fold tu. destruct tw; [done|].
  destruct (alter _ (S tw) bs' !! S tw); [|done]. by destruct (tu =? 1)%nat.
Qed.

Lemma last_snoc_list (l : list pcache_rec) : l <> [] -> exists l0 x, l = l0 ++ [x].
Proof. destruct l as [|x l0 _] using rev_ind; [done|eauto]. Qed.

Lemma swap_remove_snoc i l x :
  (i <= length l)%nat ->
  swap_remove i (l ++ [x]) = if bool_decide (i = length l) then l else <[i := x]> l.
Proof.
  intros Hi. unfold swap_remove. rewrite list.last_snoc, length_app. cbn [length].
  replace (length l + 1 - 1)%nat with (length l) by lia.
  case_bool_decide as E.
  - by rewrite take_app_length.
  - rewrite insert_app_l by lia. replace (length l) with (length (<[i:=x]> l)) at 1 by apply length_insert.
    apply take_app_length.
Qed.

Lemma chain_remove_layout l w i :
  at_place l w i ->
  (chain_remove_at (layout l) w i).1.1 = layout (swap_remove (pos (w, i)) l) /\
  (chain_remove_at (layout l) w i).2 = chained_of (length l - 1) - chained_of (length l).
Proof.
  intros Hp. pose proof (at_place_lt _ _ _ Hp) as Hlt.
  destruct (last_snoc_list l) as (l0 & x & ->); [by intros ->; simpl in Hlt; lia|].
  destruct (layout_chunks (l0 ++ [x])) as (cs & rs & H).
  pose proof (chain_tail_chunks _ _ _ H) as Ht. pose proof (layout_chunked _ _ _ H) as HL.
  destruct (chunked_pop _ _ _ _ H) as (rs0 & -> & El0).
  pose proof (chunked_len _ _ _ H) as Hn. rewrite !length_app in Hn. cbn [length] in Hn.
  assert (layout (l0 ++ [x]) !! length cs = Some (lay_bkt (rs0 ++ [x]) false)) as Htl
    by (rewrite HL; apply lay_chunks_tail).
  split.
  2: { unfold chain_remove_at. rewrite Ht, Htl. repeat case_match; done. }
  assert (lay_bkt (rs0 ++ [x]) false = lay_bkt (rs0 ++ [x]) false /\
    slot (lay_bkt (rs0 ++ [x]) false) !! length rs0 = Some (SRec x) /\
    tags (lay_bkt (rs0 ++ [x]) false) !! length rs0 = Some (tag_of (hash x))) as (_ & Hs & Hg).
  { split; [done|]. apply lay_bkt_slot. by rewrite list_lookup_middle. }
  rewrite swap_remove_snoc by (rewrite length_app in Hlt; simpl in Hlt; lia).
  assert ((if bool_decide (length cs = w /\ length rs0 = i) then layout (l0 ++ [x])
     else alter (fun b => set_slot b i (SRec x) (tag_of (hash x))) w (layout (l0 ++ [x]))) =
     layout ((if bool_decide (pos (w, i) = length l0) then l0 else <[pos (w, i) := x]> l0) ++ [x])) as Hmove.
  { rewrite pos_eq. destruct (at_place_chunks _ _ _ _ _ H Hp) as [[? ?]|[? ?]];
      rewrite ?length_app in *; simpl in *.
    1: rewrite bool_decide_eq_false_2 by lia; rewrite bool_decide_eq_false_2 by lia.
    2: destruct (decide (length rs0 = i));
       [rewrite bool_decide_eq_true_2 by lia; by rewrite bool_decide_eq_true_2 by lia|
        rewrite bool_decide_eq_false_2 by lia; rewrite bool_decide_eq_false_2 by lia].
    all: rewrite (alter_layout _ _ _ i x Hp) by (intros; by apply lay_bkt_set);
      rewrite pos_eq, insert_app_l by lia; done. }
  erewrite chain_remove_pop; [|exact Ht|exact Htl|rewrite lay_bkt_used, length_app; simpl; lia|].
  all: rewrite lay_bkt_used, length_app; cbn [length]; rewrite Nat.add_sub, Hs, Hg; cbn [default];
    unfold default; simpl id; rewrite ?Hmove.
  - apply chain_pop_layout.
  - rewrite chain_tail_layout. rewrite <- Hmove. f_equal.
    + case_bool_decide; rewrite ?length_alter, HL, lay_chunks_len; lia.
    + rewrite !length_app. clear. case_bool_decide; by rewrite ?length_insert.
Qed.

(** * The lock-free reader's scan

    [tag_matches] is the SWAR test of all six tags in one 64-bit word; its set
    bits, lowest first, are the slots the reader compares keys in. *)

Definition tag_word (b : pcache_bucket) : Z :=
  foldr (fun t acc => Z.lor t (Z.shiftl acc 8)) 0 (tags b).

(** [meta] is the word's top sixteen bits. *)
Definition SWAR_ONES : Z := 0x0101010101010101.
Definition SWAR_MASK : Z := 0x0000808080808080.

Definition tag_matches (b : pcache_bucket) (meta tag : Z) : Z :=
  let w := Z.lor (tag_word b) (Z.shiftl meta 48) in
  let x := Z.lxor w (u64 (SWAR_ONES * tag)) in
  Z.land (Z.land (u64 (x - SWAR_ONES)) (Z.lxor x (Z.ones 64))) SWAR_MASK.

(** The slots whose bit is set, in the order [m &= m - 1] visits them. *)
Definition match_slots (m : Z) : list nat :=
  List.filter (fun i => Z.testbit m (8 * Z.of_nat i + 7)) (seq 0 PCACHE_SLOTS).

(** The record lies within its cell. *)
Definition rec_sized (r : pcache_rec) : Prop :=
  PCACHE_REC_SIZE (zlen (rkey r)) (zlen (rval r)) <= pcache_cell_bound (cls r).

(** [scan_bucket] of a quiet bucket: the slot whose record answers, its cell's
    bound checked before the key is compared. *)
Definition scan_slot (b : pcache_bucket) (k : bytes) (h : Z) (i : nat) : bool :=
  match slot b !! i with
  | Some (SRec r) =>
      let bound := pcache_cell_bound (cls r) in
      negb (bound =? 0) && (PCACHE_REC_HDR + zlen (rkey r) <=? bound) && rec_is k h r
  | _ => false
  end.

Definition scan_bucket (b : pcache_bucket) (meta : Z) (k : bytes) (h tag : Z) : option nat :=
  find_first (scan_slot b k h) (match_slots (tag_matches b meta tag)).

Fixpoint scan_chain (bs : list pcache_bucket) (metas : list Z) (k : bytes) (h tag : Z) : option (nat * nat) :=
  match bs, metas with
  | b :: bs', meta :: metas' =>
      match scan_bucket b meta k h tag with
      | Some i => Some (0%nat, i)
      | None => if link b then (fun '(w, i) => (S w, i)) <$> scan_chain bs' metas' k h tag else None
      end
  | _, _ => None
  end.

(** A byte that is zero in [x] sets its bit, whatever its neighbours borrow. *)
Lemma swar_zero_byte x i :
  (i < 6)%nat -> 0 <= x < 2 ^ 64 -> byte_n x i = 0 ->
  Z.testbit (Z.land (Z.land (u64 (x - SWAR_ONES)) (Z.lxor x (Z.ones 64))) SWAR_MASK) (8 * Z.of_nat i + 7) = true.
Proof.
  intros Hi Hx Hb. rewrite !Z.land_spec, Z.lxor_spec. unfold u64. rewrite Z.mod_pow2_bits_low by lia.
  rewrite Z.ones_spec_low by lia.
  assert (Z.testbit x (8 * Z.of_nat i + 7) = false) as ->.
  { apply Z.testbit_false; [lia|]. revert Hb. unfold byte_n.
    do 6 (destruct i as [|i]; [cbn; intros; Z.div_mod_to_equations; lia|]). lia. }
  assert (Z.testbit (x - SWAR_ONES) (8 * Z.of_nat i + 7) = true) as ->.
  { apply Z.testbit_true; [lia|]. revert Hb. unfold byte_n, SWAR_ONES.
    do 6 (destruct i as [|i]; [cbn; intros; Z.div_mod_to_equations; lia|]). lia. }
  do 6 (destruct i as [|i]; [done|]). lia.
Qed.

Lemma lor_shiftl8 t acc : is_u8 t -> 0 <= acc -> Z.lor t (Z.shiftl acc 8) = t + acc * 256.
Proof. intros. apply (lor_shiftl_add t acc 8); [lia|]. unfold is_u8 in *; lia. Qed.

Definition tags_ok (b : pcache_bucket) : Prop := length (tags b) = 6%nat /\ Forall is_u8 (tags b).

Lemma tag_word_sum b t0 t1 t2 t3 t4 t5 :
  tags b = [t0; t1; t2; t3; t4; t5] -> Forall is_u8 (tags b) ->
  tag_word b = t0 + 256 * (t1 + 256 * (t2 + 256 * (t3 + 256 * (t4 + 256 * t5)))).
Proof.
  intros E Hf. unfold tag_word. rewrite E in *. cbn [foldr].
  repeat match goal with H : Forall _ (_ :: _) |- _ => apply Forall_cons in H as [? H] end.
  rewrite Z.shiftl_0_l, Z.lor_0_r. unfold is_u8 in *. pow2.
  rewrite (lor_shiftl8 t4), (lor_shiftl8 t3), (lor_shiftl8 t2), (lor_shiftl8 t1), (lor_shiftl8 t0)
    by (unfold is_u8; pow2; lia). lia.
Qed.

Lemma tag_matches_hit b meta tag i :
  tags_ok b -> is_u16 meta -> is_u8 tag -> tags b !! i = Some tag ->
  Z.testbit (tag_matches b meta tag) (8 * Z.of_nat i + 7) = true.
Proof.
  intros [Hl Hf] Hm Ht Hi. pose proof (lookup_lt_Some _ _ _ Hi) as Hlt. rewrite Hl in Hlt.
  unfold tag_matches. set (w := Z.lor (tag_word b) (Z.shiftl meta 48)).
  assert (0 <= w < 2 ^ 64 /\ byte_n w i = tag) as [Hw Hbw].
  { pose proof (tag_word_sum b) as Hs.
    destruct (tags b) as [|t0 [|t1 [|t2 [|t3 [|t4 [|t5 [|]]]]]]] eqn:E; try done.
    specialize (Hs _ _ _ _ _ _ eq_refl Hf). repeat match goal with H : Forall _ (_ :: _) |- _ => apply Forall_cons in H as [? H] end.
    unfold is_u8, is_u16 in *. pow2.
    unfold w. rewrite Hs, lor_shiftl_add by (change (2 ^ 48) with 281474976710656; lia).
    change (2 ^ 48) with 281474976710656. split; [lia|]. unfold byte_n.
    do 6 (destruct i as [|i]; [injection Hi as ->; cbn; Z.div_mod_to_equations; lia|]). lia. }
  assert (0 <= u64 (SWAR_ONES * tag) < 2 ^ 64) as Ho by apply u64_range.
  assert (byte_n (u64 (SWAR_ONES * tag)) i = tag) as Hbo.
  { rewrite u64_id by (unfold SWAR_ONES; word_lia). unfold byte_n, SWAR_ONES, is_u8 in *.
    do 6 (destruct i as [|i]; [cbn; Z.div_mod_to_equations; lia|]). lia. }
  apply swar_zero_byte; [done| |].
  - split; [apply Z.lxor_nonneg; lia|]. apply Z.log2_lt_cancel.
    eapply Z.le_lt_trans; [apply Z.log2_lxor; lia|]. rewrite Z.log2_pow2 by lia.
    apply Z.max_lub_lt; apply (Z.le_lt_trans _ 63); try lia; apply Z.lt_succ_r;
      destruct (decide (w = 0)), (decide (u64 (SWAR_ONES * tag) = 0));
      try (apply Z.log2_lt_pow2; lia); rewrite ?e, ?e0; cbn; lia.
  - by rewrite byte_n_lxor, Hbw, Hbo, Z.lxor_nilpotent.
Qed.

Lemma find_first_filter p q ids :
  find_first p (List.filter q ids) = find_first (fun i => q i && p i) ids.
Proof. unfold find_first. f_equal. induction ids as [|i ids IH]; simpl; [done|]. destruct (q i); simpl; [destruct (p i)|]; by rewrite ?IH. Qed.

Lemma find_first_ext p q ids :
  (forall i, i ∈ ids -> p i = q i) -> find_first p ids = find_first q ids.
Proof.
  unfold find_first. intros H. f_equal. induction ids as [|i ids IH]; simpl; [done|].
  rewrite H by set_solver. rewrite IH by set_solver. done.
Qed.

Lemma find_first_pad p n m :
  (forall i, (n <= i < n + m)%nat -> p i = false) -> find_first p (seq 0 (n + m)) = find_first p (seq 0 n).
Proof.
  intros H. unfold find_first. rewrite seq_app, List.filter_app. simpl.
  assert (List.filter p (seq n m) = []) as ->; [|by rewrite app_nil_r].
  assert (forall i, i ∈ seq n m -> p i = false) as H' by (intros i Hi%elem_of_seq; auto). clear H.
  induction (seq n m) as [|i l IH]; [done|]. simpl. rewrite H' by set_solver. apply IH. set_solver.
Qed.

Lemma tag_of_u8 h : is_u8 (tag_of h).
Proof. unfold tag_of. destruct (u8 (Z.shiftr h 24) =? 0); [word_lia|apply u8_range]. Qed.

Lemma lay_bkt_tags_ok rs lnk : (length rs <= 6)%nat -> tags_ok (lay_bkt rs lnk).
Proof.
  intros H. split; simpl; [rewrite length_app, length_map, length_replicate; unfold PCACHE_SLOTS; lia|].
  apply Forall_app. split; [|apply Forall_replicate; word_lia].
  apply Forall_fmap, Forall_true. intros r. apply tag_of_u8.
Qed.

Lemma scan_bucket_lay rs lnk meta k h :
  (length rs <= 6)%nat -> is_u16 meta -> Forall rec_sized rs ->
  scan_bucket (lay_bkt rs lnk) meta k h (tag_of h) = find_slot (lay_bkt rs lnk) k h (tag_of h).
Proof.
  intros Hle Hm Hsz. unfold scan_bucket, match_slots. rewrite find_first_filter.
  replace PCACHE_SLOTS with (length rs + (6 - length rs))%nat by (unfold PCACHE_SLOTS; lia).
  rewrite find_first_pad.
  - unfold find_slot. cbn [lay_bkt used]. apply find_first_ext. intros i Hi%elem_of_seq.
    destruct (lookup_lt_is_Some_2 rs i ltac:(lia)) as [r Hr].
    rewrite (slot_is_lay _ _ _ _ _ r Hr). unfold scan_slot.
    destruct (lay_bkt_slot rs lnk i r Hr) as [-> Htag].
    destruct (rec_is k h r) eqn:E; [|by rewrite !andb_false_r]. cbv zeta.
    assert (rec_sized r) as Hs by (by eapply Forall_lookup_1).
    unfold rec_sized, PCACHE_REC_SIZE, PCACHE_REC_HDR in *. btrue. rewrite andb_true_r.
    apply tag_matches_hit; [by apply lay_bkt_tags_ok|done|apply tag_of_u8|].
    apply andb_prop in E as [E%Z.eqb_eq _]. by rewrite Htag, E.
  - intros i Hi. rewrite andb_false_iff. right. unfold scan_slot. simpl.
    rewrite lookup_app_r by (rewrite length_map; lia).
    destruct lnk; [by destruct (i - _)%nat|]. by destruct (replicate _ _ !! _) eqn:E; [apply lookup_replicate in E as [-> _]|].
Qed.

(** The reader's SWAR scan of a chain finds the slot the writers' scan finds,
    whatever the other bits of each metadata word hold. *)
Lemma scan_chain_layout l metas k h :
  length metas = length (layout l) -> Forall is_u16 metas -> Forall rec_sized l ->
  scan_chain (layout l) metas k h (tag_of h) = chain_find (layout l) k h (tag_of h).
Proof.
  revert metas. induction l as [l Hl|l Hl IH] using layout_ind; intros metas Hlen Hm Hs.
  - rewrite layout_small in * by done. destruct metas as [|m [|]]; try done. inversion Hm; subst.
    cbn [scan_chain chain_find]. by rewrite scan_bucket_lay.
  - rewrite layout_big in * by done. destruct metas as [|m metas]; [done|]. inversion Hm; subst.
    cbn [scan_chain chain_find]. rewrite scan_bucket_lay by (rewrite ?length_take; auto using Forall_take; lia).
    cbn [lay_bkt link]. rewrite IH; [done|by injection Hlen|done|by apply Forall_drop].
Qed.

(** * The chain's contract *)

(** A chain is its list of records: on the layout of any list the writers'
    search finds the first record of the key and where it lies, an append lays
    the list with the record at its end (taking an overflow bucket exactly when
    the last one is full), and a removal lays the list with its last record
    moved into the hole and answers how many records left the overflow
    buckets; no other shape is ever reached. *)
Theorem chain_refines_list l k h r :
  match chain_find (layout l) k h (tag_of h) with
  | Some (w, i) =>
      rec_index k h l = Some (pos (w, i)) /\
      (chain_remove_at (layout l) w i).1.1 = layout (swap_remove (pos (w, i)) l) /\
      (chain_remove_at (layout l) w i).2 = chained_of (length l - 1) - chained_of (length l)
  | None => rec_index k h l = None
  end /\
  chain_append (layout l) r (tag_of (hash r)) = (layout (l ++ [r]), tail_full l).
Proof.
  split; [|apply chain_append_layout]. pose proof (chain_find_layout l k h) as Hf.
  destruct (chain_find (layout l) k h (tag_of h)) as [[w i]|]; [|done].
  destruct Hf as [Hi Hp]. split; [done|by apply chain_remove_layout].
Qed.

(** The lock-free reader misses nothing: the SWAR comparison of all six tags
    in one word, its false positives filtered by the key, finds in every chain
    of records within their cells exactly the slot the writers' search finds,
    whatever the metadata bits of each bucket hold. *)
Theorem scan_finds_what_writers_find l metas k h :
  length metas = length (layout l) -> Forall is_u16 metas -> Forall rec_sized l ->
  scan_chain (layout l) metas k h (tag_of h) = chain_find (layout l) k h (tag_of h).
Proof. apply scan_chain_layout. Qed.

(** Eight records, two of them under one tag. *)
Lemma scan_finds_what_writers_find_witness :
  let l := map (fun n => mk_rec 0 0 0 (Z.shiftl (n mod 7) 24 + n) 1 0 [n] [n]) [1; 2; 3; 4; 5; 6; 7; 8] in
  scan_chain (layout l) [5; 3] [8] (Z.shiftl 1 24 + 8) (tag_of (Z.shiftl 1 24 + 8)) = Some (1%nat, 2%nat).
Proof.
  intros l. rewrite (scan_finds_what_writers_find l [5; 3] [8] (Z.shiftl 1 24 + 8)); [vm_compute; reflexivity| | |].
  - vm_compute. reflexivity.
  - repeat constructor; vm_compute; discriminate || reflexivity.
  - repeat constructor; vm_compute; discriminate.
Defined.
