(* ===== verification/Lamport.v ===== *)
(** The write clock: [src/src/compat/compat.c], both editions.

    A version is a 64-bit Lamport number.  The clustered edition keeps one
    shared clock that every write increments; the standalone edition gives each
    thread its own and only reads the shared one, which a delete raises
    ([pc_lamport_publish]) before it lets go of the bucket.  [Lamport] is what
    the table asks of the clock and [LamportLaws] what it may rely on; both
    editions are instances.  An atomic read-modify-write or a compare-exchange
    loop is its effect on the shared word. *)

From stdpp Require Import base tactics list numbers.
From S2P Require Import Prelude.
#[local] Open Scope Z_scope.

Definition PC_LAMPORT_MAX_JUMP : Z := 1000000000.

(** * The interface *)

Class Lamport (C : Type) : Type := {
  pc_lamport_tick : nat -> C -> Z * C;     (* by the thread *)
  pc_lamport_publish : Z -> C -> C;
  pc_lamport_observe : Z -> C -> C;
  pc_lamport_restore : Z -> C -> C;
  pc_lamport_now : C -> Z;
  (* the highest value any thread's clock holds *)
  pc_lamport_top : C -> Z;
  (* the values a publish is promised to reach *)
  issuable : C -> Z -> Prop;
}.

Class LamportLaws (C : Type) `{Lamport C} : Prop := {
  now_top c : pc_lamport_now c <= pc_lamport_top c;
  tick_above t c : 0 <= pc_lamport_now c -> pc_lamport_top c < 2 ^ 64 - 1 -> pc_lamport_now c < (pc_lamport_tick t c).1;
  tick_top t c : 0 <= pc_lamport_now c -> pc_lamport_top c < 2 ^ 64 - 1 ->
    (pc_lamport_tick t c).1 <= pc_lamport_top c + 1 /\ pc_lamport_top (pc_lamport_tick t c).2 <= pc_lamport_top c + 1;
  tick_now t c : 0 <= pc_lamport_now c -> pc_lamport_top c < 2 ^ 64 - 1 -> pc_lamport_now c <= pc_lamport_now (pc_lamport_tick t c).2;
  tick_issuable t c : issuable (pc_lamport_tick t c).2 (pc_lamport_tick t c).1;
  publish_now v c : pc_lamport_now c <= pc_lamport_now (pc_lamport_publish v c);
  publish_top v c : pc_lamport_top (pc_lamport_publish v c) <= Z.max v (pc_lamport_top c);
  publish_reaches v c : issuable c v -> v <= pc_lamport_now (pc_lamport_publish v c);
  observe_now v c : pc_lamport_now c <= pc_lamport_now (pc_lamport_observe v c);
  observe_top v c : pc_lamport_top (pc_lamport_observe v c) <= Z.max v (pc_lamport_top c);
  observe_reaches v c :
    v <= pc_lamport_now c + PC_LAMPORT_MAX_JUMP < 2 ^ 64 -> v <= pc_lamport_now (pc_lamport_observe v c);
  restore_reaches v c : v <= pc_lamport_now (pc_lamport_restore v c) /\ pc_lamport_now c <= pc_lamport_now (pc_lamport_restore v c);
}.

(** * The two editions *)

(** The shared word and the count of refused jumps, common to both. *)
Record shared_clock := mk_shared { sh_v : Z; sh_rejected : Z }.

Definition sh_raise (v : Z) (s : shared_clock) : shared_clock :=
  if v >? sh_v s then mk_shared v (sh_rejected s) else s.

Definition sh_observe (seen : Z) (s : shared_clock) : shared_clock :=
  if seen >? u64 (sh_v s + PC_LAMPORT_MAX_JUMP) then mk_shared (sh_v s) (u64 (sh_rejected s + 1))
  else sh_raise seen s.

Definition clustered_tick (t : nat) (s : shared_clock) : Z * shared_clock :=
  let v := u64 (sh_v s + 1) in (v, mk_shared v (sh_rejected s)).

(** The increment already keeps the shared clock above every number it gave. *)
Definition clustered_publish (v : Z) (s : shared_clock) : shared_clock := s.

#[export] Instance clustered_lamport : Lamport shared_clock := {|
  pc_lamport_tick := clustered_tick;
  pc_lamport_publish := clustered_publish;
  pc_lamport_observe := sh_observe;
  pc_lamport_restore := sh_raise;
  pc_lamport_now := sh_v;
  pc_lamport_top := sh_v;
  issuable := fun s v => v <= sh_v s;
|}.

Record thread_clocks := mk_clock { shared : shared_clock; lt_clock : list Z }.

Definition thread_clock (c : thread_clocks) (t : nat) : Z := default 0 (lt_clock c !! t).

Definition standalone_tick (t : nat) (c : thread_clocks) : Z * thread_clocks :=
  let g := sh_v (shared c) in
  let v := u64 (Z.max (thread_clock c t) g + 1) in
  (v, mk_clock (shared c) (<[t := v]> (lt_clock c))).

Definition standalone_publish (v : Z) (c : thread_clocks) : thread_clocks := mk_clock (sh_raise v (shared c)) (lt_clock c).
Definition standalone_observe (v : Z) (c : thread_clocks) : thread_clocks := mk_clock (sh_observe v (shared c)) (lt_clock c).
Definition standalone_restore (v : Z) (c : thread_clocks) : thread_clocks := mk_clock (sh_raise v (shared c)) (lt_clock c).

Definition standalone_top (c : thread_clocks) : Z := foldr Z.max (sh_v (shared c)) (lt_clock c).

#[export] Instance standalone_lamport : Lamport thread_clocks := {|
  pc_lamport_tick := standalone_tick;
  pc_lamport_publish := standalone_publish;
  pc_lamport_observe := standalone_observe;
  pc_lamport_restore := standalone_restore;
  pc_lamport_now := fun c => sh_v (shared c);
  pc_lamport_top := standalone_top;
  issuable := fun _ _ => True;
|}.

(** * The laws hold of both *)

Lemma sh_raise_v v s : sh_v (sh_raise v s) = Z.max v (sh_v s).
Proof. unfold sh_raise. destruct (v >? sh_v s) eqn:E; bool_facts; simpl; lia. Qed.

Lemma sh_observe_mono v s : sh_v s <= sh_v (sh_observe v s) <= Z.max v (sh_v s).
Proof. unfold sh_observe. destruct (v >? _); simpl; rewrite ?sh_raise_v; lia. Qed.

Lemma sh_observe_reaches v s :
  v <= sh_v s + PC_LAMPORT_MAX_JUMP < 2 ^ 64 -> v <= sh_v (sh_observe v s).
Proof.
  intros H. unfold sh_observe, PC_LAMPORT_MAX_JUMP in *. destruct (v >? _) eqn:E; bool_facts; [|rewrite sh_raise_v; lia].
  simpl. word_lia.
Qed.

Lemma fold_max_base b l : b <= foldr Z.max b l.
Proof. induction l; simpl; lia. Qed.

Lemma fold_max_in b l t x : l !! t = Some x -> x <= foldr Z.max b l.
Proof. revert t; induction l as [|y l IH]; intros [|t]; simpl; try done; [intros [= ->]; lia|]. intros ?%IH. lia. Qed.

Lemma fold_max_insert b l t v : foldr Z.max b (<[t := v]> l) <= Z.max v (foldr Z.max b l).
Proof. revert t; induction l as [|y l IH]; intros [|t]; simpl; try lia. specialize (IH t). lia. Qed.

Lemma fold_max_mono a b l : foldr Z.max b l <= Z.max b (foldr Z.max a l).
Proof. induction l; simpl; lia. Qed.

#[export] Instance clustered_laws : LamportLaws shared_clock.
Proof.
  split; cbn; intros; unfold clustered_publish; auto using sh_observe_reaches; try apply sh_observe_mono;
    rewrite ?u64_id, ?sh_raise_v by (unfold is_u64; lia); try lia.
Qed.

Lemma standalone_tick_val t (c : thread_clocks) :
  0 <= pc_lamport_now c -> pc_lamport_top c < 2 ^ 64 - 1 ->
  (pc_lamport_tick t c).1 = Z.max (thread_clock c t) (pc_lamport_now c) + 1 /\
  (pc_lamport_tick t c).1 <= pc_lamport_top c + 1.
Proof.
  cbn. unfold standalone_top. intros H0 Htop. pose proof (fold_max_base (sh_v (shared c)) (lt_clock c)).
  assert (thread_clock c t <= foldr Z.max (sh_v (shared c)) (lt_clock c)).
  { unfold thread_clock. destruct (lt_clock c !! t) eqn:E; simpl; [by eapply fold_max_in|lia]. }
  rewrite u64_id by (unfold is_u64; lia). lia.
Qed.

#[export] Instance standalone_laws : LamportLaws thread_clocks.
Proof.
  split; intros;
    try (pose proof (standalone_tick_val t c ltac:(done) ltac:(done)) as [Hv Hle]).
  all: cbn -[u64] in *; unfold standalone_publish, standalone_observe, standalone_top in *; cbn -[u64] in *;
    rewrite ?sh_raise_v; auto using sh_observe_reaches, fold_max_base; try apply sh_observe_mono; try lia.
  - split; [done|]. etrans; [apply fold_max_insert|]. lia.
  - etrans; [apply (fold_max_mono (sh_v (shared c)))|]. pose proof (fold_max_base (sh_v (shared c)) (lt_clock c)). lia.
  - etrans; [apply (fold_max_mono (sh_v (shared c)))|]. pose proof (sh_observe_mono v (shared c)).
    pose proof (fold_max_base (sh_v (shared c)) (lt_clock c)). lia.
Qed.

(** * Write after delete

    Any steps the threads take between a delete's publish and a later write of
    the key leave the write's number above the delete's. *)

Inductive clock_op : Type :=
  | OpTick (t : nat)
  | OpPublish (v : Z)
  | OpObserve (v : Z).

Section WriteAfterDelete.
Context {C : Type} `{Lamport C}.

Definition clock_step (o : clock_op) (c : C) : C :=
  match o with
  | OpTick t => (pc_lamport_tick t c).2
  | OpPublish v => pc_lamport_publish v c
  | OpObserve v => pc_lamport_observe v c
  end.

Definition clock_run (os : list clock_op) (c : C) : C := foldl (fun c o => clock_step o c) c os.

(** No step of the run meets a clock at its last value. *)
Fixpoint clock_room (os : list clock_op) (c : C) : Prop :=
  pc_lamport_top c < 2 ^ 64 - 1 /\ match os with [] => True | o :: os => clock_room os (clock_step o c) end.

Context {L : LamportLaws C}.

Lemma clock_step_now o c :
  0 <= pc_lamport_now c -> pc_lamport_top c < 2 ^ 64 - 1 -> pc_lamport_now c <= pc_lamport_now (clock_step o c).
Proof. intros. destruct o; cbn [clock_step]; [by apply tick_now|apply publish_now|apply observe_now]. Qed.

Lemma clock_run_now os c :
  0 <= pc_lamport_now c -> clock_room os c -> pc_lamport_now c <= pc_lamport_now (clock_run os c) /\
  pc_lamport_top (clock_run os c) < 2 ^ 64 - 1.
Proof.
  revert c. induction os as [|o os IH]; intros c H0 [Ht Hr]; [done|].
  change (clock_run (o :: os) c) with (clock_run os (clock_step o c)).
  pose proof (clock_step_now o c H0 Ht). destruct (IH (clock_step o c)); [lia|done|]. split; [lia|done].
Qed.

(** Write after delete: once a delete has published its version [v], every
    number any thread's clock gives after any further ticks, publishes and
    observes of any threads is above [v], in both editions. *)
Theorem lamport_write_after_delete (c : C) v os t :
  0 <= pc_lamport_now c -> issuable c v -> clock_room os (pc_lamport_publish v c) ->
  v < (pc_lamport_tick t (clock_run os (pc_lamport_publish v c))).1.
Proof.
  intros H0 Hv Hr. pose proof (publish_now v c). pose proof (publish_reaches v c Hv).
  assert (0 <= pc_lamport_now (pc_lamport_publish v c)) as Hp by lia.
  destruct (clock_run_now os _ Hp Hr) as [Hn Ht].
  set (c' := clock_run os (pc_lamport_publish v c)) in *.
  enough (pc_lamport_now c' < (pc_lamport_tick t c').1) by lia. apply tick_above; lia.
Qed.

End WriteAfterDelete.

(** Two threads, the delete's on a clock ahead of the writer's. *)
Lemma lamport_write_after_delete_witness :
  7 < (pc_lamport_tick 1%nat (clock_run [OpTick 0; OpObserve 3]
        (pc_lamport_publish 7 (mk_clock (mk_shared 2 0) [6; 1])))).1.
Proof.
  apply (lamport_write_after_delete (mk_clock (mk_shared 2 0) [6; 1]) 7 [OpTick 0; OpObserve 3] 1%nat);
    vm_compute; repeat split; congruence.
Defined.
