(* ===== verification/HtTable.v ===== *)
(** The concurrent hash table's operations: [src/src/core/pcache_htable.c].

    The table is linear-hashed: a routing word [(level << 32) | split], one
    chain of buckets per index and one expiry hint per chain.  An operation
    runs under its bucket's lock after the re-check of the routing word, so its
    effect is that of its body on the state it finds; the model is that body,
    threading the table and the writer's environment (clock, ticks, the
    per-thread versions it reports).  What the allocator answers is an argument
    of the operations that ask it: [cell_ok] for the record's cell, [node_ok]
    for an overflow bucket.

    [ht_wf] is the invariant: every chain is the layout of its records, every
    record is in the chain its hash routes to, once, within its cell, at or
    above its chain's hint, and the [chained] gauge counts what lives outside
    home buckets.  Every operation preserves it and refines an operation on the
    map [ht_lookup] from keys to records. *)

From stdpp Require Import base tactics list numbers sets.
From S2P Require Import Prelude HtBase HtChain Lamport.
#[local] Open Scope Z_scope.

(** * Flags and codes *)

Definition PCACHE_F_INT : Z := 0x01.
Definition PCACHE_F_PASSIVE : Z := 0x02.
Definition PCACHE_F_SHORTENED : Z := 0x80.
Definition PCACHE_E_OLDER : Z := -4.
Definition PCACHE_E_TOOSMALL : Z := -3.
Definition PCACHE_EXP_PRESERVE : Z := 0xFFFFFFFF.

Definition has_flag (fl f : Z) : bool := negb (Z.land fl f =? 0).
Definition clear_passive (fl : Z) : Z := Z.land fl (u8 (Z.lnot PCACHE_F_PASSIVE)).

(** * State *)

Record pcache_pstat := mk_st {
  hits : Z; misses : Z; stores : Z; removes : Z;
  created : Z; destroyed : Z; expired : Z;
  stores_immortal : Z;
  chained : Z;
}.

Record pcache_htable := mk_ht {
  route : Z;                          (* (level << 32) | split *)
  nbuckets : Z;
  chains : list (list pcache_bucket); (* seg[], by bucket index, with its overflow buckets *)
  hints : list Z;                     (* hint_seg[] *)
  st : pcache_pstat;
}.

Definition level (ht : pcache_htable) : Z := Z.shiftr (route ht) 32.
Definition split (ht : pcache_htable) : Z := u32 (route ht).

Definition route_idx (ht : pcache_htable) (h : Z) : nat :=
  let idx := Z.land h (Z.shiftl 1 (level ht) - 1) in
  let idx := if idx <? split ht then Z.land h (Z.shiftl 1 (level ht + 1) - 1) else idx in
  Z.to_nat idx.

Definition bucket_at (ht : pcache_htable) (idx : nat) : list pcache_bucket :=
  default [bkt_zero] (chains ht !! idx).

Definition set_chain (ht : pcache_htable) (idx : nat) (c : list pcache_bucket) : pcache_htable :=
  mk_ht (route ht) (nbuckets ht) (<[idx := c]> (chains ht)) (hints ht) (st ht).

Definition hint_at (ht : pcache_htable) (idx : nat) : Z := default 0 (hints ht !! idx).

Definition set_hint (ht : pcache_htable) (idx : nat) (e : Z) : pcache_htable :=
  mk_ht (route ht) (nbuckets ht) (chains ht) (<[idx := e]> (hints ht)) (st ht).

Definition hint_update (ht : pcache_htable) (idx : nat) (e : Z) : pcache_htable :=
  let h := hint_at ht idx in
  if negb (e =? 0) && ((h =? 0) || (e <? h)) then set_hint ht idx e else ht.

(** Counters: what an operation adds to each. *)
Definition count (ht : pcache_htable) (f : pcache_pstat -> pcache_pstat) : pcache_htable :=
  mk_ht (route ht) (nbuckets ht) (chains ht) (hints ht) (f (st ht)).

Definition add_chained (d : Z) (s : pcache_pstat) : pcache_pstat :=
  mk_st (hits s) (misses s) (stores s) (removes s) (created s) (destroyed s) (expired s)
    (stores_immortal s) (chained s + d).

(** [HT_ST(stores)], [stores_immortal] when never expiring, [created] when inserted. *)
Definition count_store (expires : Z) (inserted : bool) (s : pcache_pstat) : pcache_pstat :=
  mk_st (hits s) (misses s) (stores s + 1) (removes s) (created s + b2z inserted) (destroyed s) (expired s)
    (stores_immortal s + b2z (expires =? 0)) (chained s).

Definition count_remove (drop : bool) (s : pcache_pstat) : pcache_pstat :=
  mk_st (hits s) (misses s) (stores s) (removes s + b2z (negb drop)) (created s) (destroyed s + 1)
    (expired s) (stores_immortal s) (chained s).

(** The record at a place of a chain. *)
Definition chain_get (c : list pcache_bucket) (w i : nat) : option pcache_rec :=
  match c !! w with
  | Some b => match slot b !! i with Some (SRec r) => Some r | _ => None end
  | None => None
  end.

(** [chain_find] and the record it points at. *)
Definition chain_find_rec (c : list pcache_bucket) (k : bytes) (h : Z) : option (nat * nat * pcache_rec) :=
  match chain_find c k h (tag_of h) with
  | Some (w, i) => match chain_get c w i with Some r => Some (w, i, r) | None => None end
  | None => None
  end.

(** The map the table implements: what a locked lookup of the key finds. *)
Definition ht_lookup (ht : pcache_htable) (k : bytes) : option pcache_rec :=
  let h := pcache_key_hash k in
  match chain_find_rec (bucket_at ht (route_idx ht h)) k h with
  | Some (_, _, r) => Some r
  | None => None
  end.

(** What a write over [old] adds to its flags. *)
Definition shortened_fl (old : pcache_rec) (expires now : Z) : Z :=
  let oe := HtChain.expires old in
  if negb (oe =? 0) && (oe <=? now) then 0
  else if has_flag (rflags old) PCACHE_F_SHORTENED then PCACHE_F_SHORTENED
  else if negb (expires =? 0) && ((oe =? 0) || (expires <? oe)) then PCACHE_F_SHORTENED else 0.

Section Ops.
Context {C : Type} `{Lamport C}.

(** The writer's environment: its thread, the clock, the tick counter and the
    versions of its last committed write and delete. *)
Record wenv := mk_env {
  thr : nat;
  clk : C;
  ticks : Z;                          (* get_ticks() *)
  last_ver : Z;
  last_del_ver : Z;
  nomem_inplace : Z;
  nomem_dropped : Z;
}.

Definition set_clk (e : wenv) (c : C) : wenv :=
  mk_env (thr e) c (ticks e) (last_ver e) (last_del_ver e) (nomem_inplace e) (nomem_dropped e).
Definition set_last_ver (e : wenv) (v : Z) : wenv :=
  mk_env (thr e) (clk e) (ticks e) v (last_del_ver e) (nomem_inplace e) (nomem_dropped e).
Definition set_last_del_ver (e : wenv) (v : Z) : wenv :=
  mk_env (thr e) (clk e) (ticks e) (last_ver e) v (nomem_inplace e) (nomem_dropped e).
Definition count_inplace (e : wenv) (nr : option Z) : wenv :=
  match nr with
  | Some _ => e
  | None => mk_env (thr e) (clk e) (ticks e) (last_ver e) (last_del_ver e) (nomem_inplace e + 1) (nomem_dropped e)
  end.

Definition ver_local (e : wenv) (old : option pcache_rec) : Z * wenv :=
  let '(v, c) := pc_lamport_tick (thr e) (clk e) in
  let v := match old with Some r => if v <=? ver r then u64 (ver r + 1) else v | None => v end in
  (v, set_clk e c).

(** A write's version: the sender's, or a fresh local one over [old]. *)
Definition write_ver (e : wenv) (use_ver : bool) (inver : Z) (old : option pcache_rec) : Z * wenv :=
  if use_ver then (inver, e) else ver_local e old.

(** * Store *)

Record store_req := mk_sreq {
  skey : bytes; sval : bytes; sexp : Z; sflags : Z;
  sver : Z; use_ver : bool; keep_wt : bool; swtick : Z;
}.

Definition oversize (klen vlen : Z) : bool :=
  (klen >? 0xFFFF) || (PCACHE_REC_SIZE klen vlen >? PCACHE_CELL_MAX).

(** The prebuilt record's cell: [None] is a refused carve. *)
Definition cell_alloc (size : Z) (cell_ok : bool) : option Z :=
  if cell_ok then cell_class size else None.

(** Insert of a prebuilt record at the end of its chain, the overflow bucket
    taken when the last one is full; [None] when the pool has none. *)
Definition ht_append (ht : pcache_htable) (idx : nat) (nr : pcache_rec) (node_ok : bool) : option pcache_htable :=
  let b := bucket_at ht idx in
  let '(tw, n) := chain_tail b in
  let full := match b !! tw with Some t => (used t =? PCACHE_SLOTS)%nat | None => false end in
  if full && negb node_ok then None else
  let ht := set_chain ht idx (chain_append b nr (tag_of (hash nr))).1 in
  let ht := hint_update ht idx (expires nr) in
  Some (if (PCACHE_SLOTS <=? n)%nat then count ht (add_chained (chained_of (n + 1) - chained_of n)) else ht).

(** Overwrite of the record at a place, under the chain's hint. *)
Definition ht_put (ht : pcache_htable) (idx w i : nat) (r : pcache_rec) : pcache_htable :=
  hint_update (set_chain ht idx (chain_put (bucket_at ht idx) w i r)) idx (expires r).

(** The clock sees a sender's version before any comparison; the version is the
    writer's last once its record is built. *)
Definition store_env (e : wenv) (q : store_req) (nr : option Z) : wenv :=
  let e := if use_ver q then set_clk e (pc_lamport_observe (sver q) (clk e)) else e in
  match nr with Some _ => if use_ver q then set_last_ver e (sver q) else e | None => e end.

(** [store_body] from the clock's observe to its return. *)
Definition store_locked (ht : pcache_htable) (e : wenv) (q : store_req) (cell_ok node_ok : bool)
    : Z * pcache_htable * wenv :=
  let h := pcache_key_hash (skey q) in
  let size := PCACHE_REC_SIZE (zlen (skey q)) (zlen (sval q)) in
  let nr := cell_alloc size cell_ok in
  let wt := if keep_wt q then swtick q else ticks e in
  let e := store_env e q nr in
  let idx := route_idx ht h in
  let b := bucket_at ht idx in
  let done ht inserted := count ht (count_store (sexp q) inserted) in
  match chain_find_rec b (skey q) h with
  | Some (w, i, old) =>
      if use_ver q && (ver old >=? sver q) then (PCACHE_E_OLDER, ht, e)
      else if (zlen (rval old) =? zlen (sval q)) && val_eq (rval old) (sval q) (length (sval q)) then
        (* the same bytes: a TTL bump *)
        let sf := shortened_fl old (sexp q) (ticks e) in
        let '(v, e) := write_ver e (use_ver q) (sver q) (Some old) in
        let r := mk_rec (cls old) (u8 (Z.lor (sflags q) sf)) (sexp q) (hash old) v (ticks e) (rkey old) (rval old) in
        (0, done (ht_put ht idx w i r) false, count_inplace (set_last_ver e v) nr)
      else if size <=? pcache_cell_bound (cls old) then
        (* in place: the new value fits the cell *)
        let sf := shortened_fl old (sexp q) (ticks e) in
        let '(v, e) := write_ver e (use_ver q) (sver q) (Some old) in
        let r := mk_rec (cls old) (u8 (Z.lor (sflags q) sf)) (sexp q) (hash old) v wt (rkey old) (sval q) in
        (0, done (ht_put ht idx w i r) false, count_inplace (set_last_ver e v) nr)
      else
        match nr with
        | None => (-2, ht, e)
        | Some c =>
            let sf := shortened_fl old (sexp q) (ticks e) in
            let '(v, e) := write_ver e (use_ver q) (sver q) (Some old) in
            let r := mk_rec c (u8 (Z.lor (sflags q) sf)) (sexp q) h v wt (skey q) (sval q) in
            (0, done (ht_put ht idx w i r) false, if use_ver q then e else set_last_ver e v)
        end
  | None =>
      match nr with
      | None => (-2, ht, e)
      | Some c =>
          let '(v, e') := write_ver e (use_ver q) (sver q) None in
          let r := mk_rec c (sflags q) (sexp q) h v wt (skey q) (sval q) in
          match ht_append ht idx r node_ok with
          | None => (-2, ht, e)
          | Some ht => (0, done ht true, if use_ver q then e' else set_last_ver e' v)
          end
      end
  end.

(** * Accumulate *)

(** [add_ex_body] after its carry: the result, the new value and the expiry in
    effect when it succeeds. *)
Definition add_locked (ht : pcache_htable) (e : wenv) (key : bytes) (delta exp : Z) (cell_ok node_ok : bool)
    : Z * pcache_htable * wenv * option (Z * Z) :=
  let keep := exp =? PCACHE_EXP_PRESERVE in
  let exp := if keep then 0 else exp in
  let h := pcache_key_hash key in
  match cell_alloc (PCACHE_REC_SIZE (zlen key) 8) cell_ok with
  | None => (-1, ht, e, None)
  | Some c =>
      let idx := route_idx ht h in
      let b := bucket_at ht idx in
      let done ht eff inserted := count ht (count_store eff inserted) in
      match chain_find_rec b key h with
      | Some (w, i, r) =>
          if has_flag (rflags r) PCACHE_F_INT then
            let cur := s64 (ll_of (rval r) + delta) in
            let fl := if keep then rflags r else Z.lor (rflags r) (shortened_fl r exp (ticks e)) in
            let eff := if keep then expires r else exp in
            let '(v, e) := ver_local e (Some r) in
            let r := mk_rec (cls r) (clear_passive fl) eff (hash r) v (ticks e) (rkey r)
                       (take (length (rval r)) (ll_bytes cur ++ drop 8 (rval r))) in
            (0, done (ht_put ht idx w i r) eff false, set_last_ver e v, Some (cur, eff))
          else
            match pcache_str2ll (rval r) with
            | None => (-1, ht, e, None)
            | Some cur =>
                let cur := s64 (cur + delta) in
                let eff := if keep then expires r else exp in
                let fl := Z.lor PCACHE_F_INT (shortened_fl r eff (ticks e)) in
                let '(v, e) := ver_local e (Some r) in
                let nr := mk_rec c fl eff h v (ticks e) key (ll_bytes cur) in
                (0, done (ht_put ht idx w i nr) eff false, set_last_ver e v, Some (cur, eff))
            end
      | None =>
          let '(v, e') := ver_local e None in
          let nr := mk_rec c PCACHE_F_INT exp h v (ticks e) key (ll_bytes delta) in
          match ht_append ht idx nr node_ok with
          | None => (-1, ht, e, None)
          | Some ht => (0, done ht exp true, set_last_ver e' v, Some (delta, exp))
          end
      end
  end.

(** * Version, touch, remove *)

Definition getver_one (ht : pcache_htable) (key : bytes) (now : Z) : option (Z * Z) :=
  let h := pcache_key_hash key in
  match chain_find_rec (bucket_at ht (route_idx ht h)) key h with
  | Some (_, _, r) => if (expires r =? 0) || (expires r >? now) then Some (ver r, wtick r) else None
  | None => None
  end.

(** The version alone: not the tick, not the hint. *)
Definition setver_locked (ht : pcache_htable) (key : bytes) (v : Z) : Z * pcache_htable :=
  let h := pcache_key_hash key in
  let idx := route_idx ht h in
  let b := bucket_at ht idx in
  match chain_find_rec b key h with
  | Some (w, i, r) =>
      (1, set_chain ht idx (chain_put b w i
            (mk_rec (cls r) (rflags r) (expires r) (hash r) v (wtick r) (rkey r) (rval r))))
  | None => (0, ht)
  end.

Definition touch_locked (ht : pcache_htable) (e : wenv) (key : bytes) (exp : Z) (adopt : bool)
    : Z * pcache_htable * wenv * bool :=
  let h := pcache_key_hash key in
  let idx := route_idx ht h in
  match chain_find_rec (bucket_at ht idx) key h with
  | Some (w, i, r) =>
      let fl := Z.lor (rflags r) (shortened_fl r exp (ticks e)) in
      let was_passive := adopt && has_flag fl PCACHE_F_PASSIVE in
      let fl := if was_passive then clear_passive fl else fl in
      let '(v, e) := ver_local e (Some r) in
      let r := mk_rec (cls r) fl exp (hash r) v (ticks e) (rkey r) (rval r) in
      (1, ht_put ht idx w i r, set_last_ver e v, was_passive)
  | None => (0, ht, e, false)
  end.

(** [remove_impl]: [below] 0 is any copy, [drop] leaves the delete's own
    bookkeeping alone. *)
Definition remove_impl (ht : pcache_htable) (e : wenv) (key : bytes) (below : Z) (drop : bool)
    : Z * pcache_htable * wenv :=
  let h := pcache_key_hash key in
  let idx := route_idx ht h in
  let b := bucket_at ht idx in
  let '(dead, ht) :=
    match chain_find_rec b key h with
    | Some (w, i, r) =>
        if negb (below =? 0) && (ver r >=? below) then (None, ht)
        else
          let '(b, _, dc) := chain_remove_at b w i in
          let ht := set_chain ht idx b in
          (Some r, if dc =? 0 then ht else count ht (add_chained dc))
    | None => (None, ht)
    end in
  let e := if drop then e else
    let '(v, e) := ver_local e dead in
    let e := set_last_del_ver e v in
    set_clk e (pc_lamport_publish v (clk e)) in
  match dead with
  | Some _ => (1, count ht (count_remove drop), e)
  | None => (0, ht, e)
  end.

Definition pcache_ht_remove (ht : pcache_htable) (e : wenv) (key : bytes) := remove_impl ht e key 0 false.

Definition pcache_ht_remove_below (ht : pcache_htable) (e : wenv) (key : bytes) (below : Z) :=
  if below =? 0 then (0, ht, e) else remove_impl ht e key below true.

Definition pcache_ht_remove_upto (ht : pcache_htable) (e : wenv) (key : bytes) (v : Z) :=
  if v =? 0 then (0, ht, e) else remove_impl ht e key (u64 (v + 1)) false.

Definition pcache_ht_drop_older (ht : pcache_htable) (e : wenv) (key : bytes) (v : Z) :=
  if v =? 0 then (0, ht, e) else
  let '(r, ht, e) := remove_impl ht e key v true in
  (r, ht, if r =? 0 then e else
     mk_env (thr e) (clk e) (ticks e) (last_ver e) (last_del_ver e) (nomem_inplace e) (nomem_dropped e + 1)).

End Ops.

Arguments wenv C : clear implicits.

(** * The lock-free read *)

(** The metadata word of a bucket nobody holds: used:3 | link:1, owner 0. *)
Definition bkt_meta (b : pcache_bucket) : Z := Z.of_nat (used b) + (if link b then 8 else 0).

Record fetch_out := mk_fo {
  fo_vlen : Z; fo_exp : Z; fo_fl : Z; fo_ver : Z;
  fo_dst : bytes;                     (* what was copied out *)
  fo_ll : Z;
}.

Definition fo_none : fetch_out := mk_fo 0 0 0 0 [] 0.

(** [fetch_core] into a buffer of [dst] bytes, [None] the probe's null; [ll]
    says the caller takes an integer. *)
Definition fetch_core (ht : pcache_htable) (key : bytes) (dst : option Z) (ll : bool) (now : Z)
    : Z * fetch_out :=
  let h := pcache_key_hash key in
  let b := bucket_at ht (route_idx ht h) in
  match scan_chain b (map bkt_meta b) key h (tag_of h) with
  | None => (-2, fo_none)
  | Some (w, i) =>
      match chain_get b w i with
      | None => (-2, fo_none)
      | Some r =>
          let avail := pcache_cell_bound (cls r) - PCACHE_REC_HDR - zlen (rkey r) in
          let vlen := if zlen (rval r) >? avail then avail else zlen (rval r) in
          if negb (expires r =? 0) && (expires r <=? now) then (-2, mk_fo 0 (expires r) 0 0 [] 0)
          else
            let out d l := mk_fo vlen (expires r) (rflags r) (ver r) d l in
            match dst with
            | Some dstlen =>
                if vlen >? dstlen then (PCACHE_E_TOOSMALL, out [] 0)
                else
                  let v := ztake vlen (rval r) in
                  if has_flag (rflags r) PCACHE_F_INT && (vlen =? 8) then
                    if ll then (1, out v (ll_of v)) else (-1, out v 0)
                  else (0, out v 0)
            | None =>
                if has_flag (rflags r) PCACHE_F_INT && (vlen =? 8) then (1, out [] 0) else (0, out [] 0)
            end
      end
  end.

Definition PCACHE_CEILING : Z := 2 ^ 24.

Definition entries (ht : pcache_htable) : Z := created (st ht) - destroyed (st ht).

(** * Records of a chain as a map *)

Definition lfind (k : bytes) (h : Z) (l : list pcache_rec) : option pcache_rec :=
  match rec_index k h l with Some p => l !! p | None => None end.

Lemma rec_is_true k h r : rec_is k h r = true <-> hash r = h /\ rkey r = k.
Proof. unfold rec_is. rewrite andb_true_iff, Z.eqb_eq, bool_decide_eq_true. done. Qed.

Lemma rec_index_hit k h l p :
  rec_index k h l = Some p -> exists r, l !! p = Some r /\ hash r = h /\ rkey r = k.
Proof.
  revert p. induction l as [|r l IH]; intros p; simpl; [done|].
  destruct (rec_is k h r) eqn:E; [intros [= <-]; exists r; split; [done|by apply rec_is_true]|].
  destruct (rec_index k h l) as [q|]; simpl; [|done]. intros [= <-]. apply (IH q eq_refl).
Qed.

Lemma rec_index_miss k h l : rec_index k h l = None <-> forall r, r ∈ l -> ~ (hash r = h /\ rkey r = k).
Proof.
  induction l as [|r l IH]; simpl; [set_solver|].
  destruct (rec_is k h r) eqn:E.
  - apply rec_is_true in E. split; [done|]. intros H. exfalso. apply (H r); set_solver.
  - assert (~ (hash r = h /\ rkey r = k)) by (rewrite <- rec_is_true; congruence).
    destruct (rec_index k h l); simpl; [split; [done|]|set_solver].
    intros H'. assert (Some n = None); [|done]. apply IH. set_solver.
Qed.

(** The keys of a list are its own, and no two records share one. *)
Definition keyed (l : list pcache_rec) : Prop :=
  Forall (fun r => hash r = pcache_key_hash (rkey r)) l /\ NoDup (rkey <$> l).

Lemma keyed_inj l r s : keyed l -> r ∈ l -> s ∈ l -> rkey r = rkey s -> r = s.
Proof.
  intros [_ Hnd] Hr Hs E. apply list_elem_of_lookup in Hr as [i Hi], Hs as [j Hj].
  assert (i = j); [|congruence]. eapply (NoDup_lookup (rkey <$> l) i j (rkey r)); [done|..];
    rewrite list_lookup_fmap, ?Hi, ?Hj; simpl; congruence.
Qed.

Lemma lfind_spec k l r : keyed l -> lfind k (pcache_key_hash k) l = Some r <-> r ∈ l /\ rkey r = k.
Proof.
  intros Hk. unfold lfind. destruct (rec_index k (pcache_key_hash k) l) as [p|] eqn:E.
  - apply rec_index_hit in E as (s & Hs & _ & <-). rewrite Hs.
    pose proof (list_elem_of_lookup_2 _ _ _ Hs) as Hin. split; [intros [= ->]; done|].
    intros [Hr Hrk]. f_equal. by apply (keyed_inj l).
  - split; [done|]. intros [Hr <-]. exfalso. eapply rec_index_miss; [exact E|exact Hr|].
    destruct Hk as [Hf _]. split; [|done]. by eapply Forall_forall in Hf.
Qed.

Lemma lfind_None k l : keyed l -> lfind k (pcache_key_hash k) l = None <-> k ∉ rkey <$> l.
Proof.
  intros Hk. split.
  - intros Hn (r & -> & Hr)%list_elem_of_fmap. enough (lfind (rkey r) (pcache_key_hash (rkey r)) l = Some r) by congruence.
    by apply lfind_spec.
  - intros Hn. destruct (lfind k _ l) as [r|] eqn:E; [|done]. apply lfind_spec in E as [? <-]; [|done].
    exfalso. apply Hn, list_elem_of_fmap. eauto.
Qed.

Lemma keyed_perm l l' : l ≡ₚ l' -> keyed l -> keyed l'.
Proof. intros Hp [Hf Hnd]. split; [by rewrite <- Hp|]. by rewrite <- Hp. Qed.

Lemma keyed_snoc l r :
  keyed l -> hash r = pcache_key_hash (rkey r) -> rkey r ∉ rkey <$> l -> keyed (l ++ [r]).
Proof.
  intros [Hf Hnd] Hh Hn. split; [apply Forall_app; by repeat constructor|].
  rewrite fmap_app. apply NoDup_app. split_and!; [done|set_solver|apply NoDup_singleton].
Qed.

Lemma keyed_insert l p r o :
  keyed l -> l !! p = Some o -> hash r = hash o -> rkey r = rkey o -> keyed (<[p := r]> l).
Proof.
  intros [Hf Hnd] Ho Hh Hr. split.
  - apply Forall_insert; [done|]. rewrite Hh, Hr. by eapply Forall_lookup_1 in Hf.
  - rewrite list_fmap_insert, Hr, list_insert_id; [done|]. by rewrite list_lookup_fmap, Ho.
Qed.

(** Two keyed lists with the same other records answer alike for other keys. *)
Lemma lfind_others l l' k :
  keyed l -> keyed l' -> (forall r, rkey r = k -> r ∈ l <-> r ∈ l') ->
  lfind k (pcache_key_hash k) l = lfind k (pcache_key_hash k) l'.
Proof.
  intros Hl Hl' H. apply option_eq. intros r. rewrite !lfind_spec by done. split; intros [? ?]; split; try done; by apply H.
Qed.

Lemma elem_of_insert_key l p (r o x : pcache_rec) :
  l !! p = Some o -> rkey r = rkey o -> NoDup (rkey <$> l) ->
  x ∈ <[p := r]> l <-> x = r \/ (x ∈ l /\ rkey x <> rkey r).
Proof.
  intros Ho Hr Hnd. rewrite !list_elem_of_lookup. split.
  - intros [i Hi]. apply list_lookup_insert_Some in Hi as [(-> & <- & _)|[Hne Hi]]; [by left|].
    right. split; [eauto|]. intros E. apply Hne. eapply (NoDup_lookup (rkey <$> l) p i (rkey o)); [done|..];
      rewrite list_lookup_fmap, ?Ho, ?Hi; simpl; congruence.
  - intros [->|[[i Hi] Hne]]; [exists p; apply list_lookup_insert_eq; eauto using lookup_lt_Some|].
    exists i. rewrite list_lookup_insert_ne; [done|]. intros ->. congruence.
Qed.

(** * Sums over the chains *)

Definition sumz {A} (f : A -> Z) (l : list A) : Z := foldr (fun x a => f x + a) 0 l.

Lemma sumz_app {A} (f : A -> Z) l k : sumz f (l ++ k) = sumz f l + sumz f k.
Proof. induction l; simpl in *; lia. Qed.

Lemma sumz_insert {A} (f : A -> Z) l i x y :
  l !! i = Some x -> sumz f (<[i := y]> l) = sumz f l - f x + f y.
Proof.
  revert i. induction l as [|z l IH]; intros [|i]; simpl; try done; [intros [= ->]; lia|].
  intros E. rewrite (IH i E). lia.
Qed.

(** * The representation *)

(** A hint no later than any expiry it stands for. *)
Definition hint_covers (hint : Z) (r : pcache_rec) : Prop :=
  expires r <> 0 -> hint <> 0 /\ hint <= expires r.

Record rec_ok (ht : pcache_htable) (i : nat) (r : pcache_rec) : Prop := {
  ok_route : route_idx ht (hash r) = i;
  ok_sized : rec_sized r;
  ok_bytes : bytes_ok (rval r);
  ok_hint : hint_covers (hint_at ht i) r;
  ok_klen : zlen (rkey r) <= 0xFFFF;
}.

(** The table holds, at each index, the layout of [ls]'s list there. *)
Record ht_rep (ht : pcache_htable) (ls : list (list pcache_rec)) : Prop := {
  rep_chains : chains ht = layout <$> ls;
  rep_hints : length (hints ht) = length ls;
  rep_nb : nbuckets ht = zlen ls;
  rep_route : is_u64 (route ht);
  rep_split : split ht < 2 ^ level ht;
  rep_len : zlen ls = 2 ^ level ht + split ht;
  rep_ceiling : zlen ls <= PCACHE_CEILING;
  rep_ok : forall i l, ls !! i = Some l -> Forall (rec_ok ht i) l /\ keyed l;
  rep_chained : chained (st ht) = sumz (fun l => chained_of (length l)) ls;
  rep_entries : entries ht = sumz zlen ls;
}.

(** The invariant. *)
Definition ht_wf (ht : pcache_htable) : Prop := exists ls, ht_rep ht ls.

Lemma level_nonneg ht ls : ht_rep ht ls -> 0 <= level ht.
Proof. intros [? ? ? [? _] ? ?]. by apply Z.shiftr_nonneg. Qed.

Lemma split_nonneg ht : 0 <= split ht.
Proof. pose proof (u32_range (route ht)) as [? _]. done. Qed.

Lemma land_mask h k : 0 <= k -> Z.land h (Z.shiftl 1 k - 1) = h mod 2 ^ k.
Proof. intros. rewrite Z.shiftl_1_l, <- Z.land_ones by lia. by rewrite Z.ones_equiv. Qed.

Lemma route_idx_eq ht h :
  0 <= level ht -> route_idx ht h =
  Z.to_nat (if h mod 2 ^ level ht <? split ht then h mod 2 ^ (level ht + 1) else h mod 2 ^ level ht).
Proof. intros. unfold route_idx. by rewrite !land_mask by lia. Qed.

Lemma mod_next h l :
  0 <= l -> h mod 2 ^ (l + 1) = h mod 2 ^ l + (if Z.testbit h l then 2 ^ l else 0).
Proof.
  intros Hl. rewrite Z.pow_add_r, Z.pow_1_r by lia. rewrite Z.rem_mul_r by (try apply Z.pow_nonzero; lia).
  rewrite Z.testbit_odd, Z.shiftr_div_pow2 by lia. rewrite Zmod_odd. destruct (Z.odd _); lia.
Qed.

Lemma route_idx_lt ht ls h : ht_rep ht ls -> (route_idx ht h < length ls)%nat.
Proof.
  intros Hr. pose proof (level_nonneg _ _ Hr) as Hl. pose proof (rep_len _ _ Hr) as Hlen.
  rewrite route_idx_eq by done. pose proof (split_nonneg ht).
  pose proof (Z.mod_pos_bound h (2 ^ level ht) ltac:(apply Z.pow_pos_nonneg; lia)).
  unfold zlen in Hlen. destruct (_ <? _) eqn:E; bool_facts; [|lia].
  rewrite mod_next by done. destruct (Z.testbit h (level ht)); lia.
Qed.

Lemma bucket_at_rep ht ls h :
  ht_rep ht ls -> exists l, ls !! route_idx ht h = Some l /\ bucket_at ht (route_idx ht h) = layout l /\
    Forall (rec_ok ht (route_idx ht h)) l /\ keyed l.
Proof.
  intros Hr. destruct (lookup_lt_is_Some_2 ls (route_idx ht h) (route_idx_lt _ _ _ Hr)) as [l Hl].
  exists l. destruct (rep_ok _ _ Hr _ _ Hl). split_and!; try done.
  unfold bucket_at. rewrite (rep_chains _ _ Hr), list_lookup_fmap, Hl. done.
Qed.

Lemma chain_get_layout l w i : at_place l w i -> chain_get (layout l) w i = l !! pos (w, i).
Proof.
  unfold chain_get. revert w i. induction l as [l Hl|l Hl IH] using layout_ind; intros w i.
  - rewrite at_place_small by done. intros [-> Hi]. rewrite layout_small by done. cbn [lookup list_lookup].
    destruct (lookup_lt_is_Some_2 l i Hi) as [r Hr]. destruct (lay_bkt_slot l false i r Hr) as [-> _].
    by rewrite pos_eq.
  - rewrite at_place_big by done. rewrite layout_big by done. destruct w as [|w].
    + intros Hi. cbn [lookup list_lookup]. destruct (lookup_lt_is_Some_2 l i ltac:(lia)) as [r Hr].
      destruct (lay_bkt_slot (take 5 l) true i r) as [-> _]; [by rewrite lookup_take_lt|]. by rewrite pos_eq.
    + intros Hp. change ((lay_bkt (take 5 l) true :: layout (drop 5 l)) !! S w) with (layout (drop 5 l) !! w).
      rewrite (IH _ _ Hp), lookup_drop. f_equal. rewrite !pos_eq. lia.
Qed.

Lemma chain_find_rec_layout l k h :
  match chain_find_rec (layout l) k h with
  | Some (w, i, r) => rec_index k h l = Some (pos (w, i)) /\ at_place l w i /\ l !! pos (w, i) = Some r
  | None => rec_index k h l = None
  end.
Proof.
  unfold chain_find_rec. pose proof (chain_find_layout l k h) as Hf.
  destruct (chain_find (layout l) k h (tag_of h)) as [[w i]|]; [|done]. destruct Hf as [Hi Hp].
  rewrite chain_get_layout by done. destruct (l !! pos (w, i)) eqn:E; [done|].
  apply rec_index_hit in Hi as (? & ? & _). congruence.
Qed.

(** The locked lookup is the map of the chain's records. *)
Lemma ht_lookup_lfind ht ls k l :
  ht_rep ht ls -> ls !! route_idx ht (pcache_key_hash k) = Some l ->
  ht_lookup ht k = lfind k (pcache_key_hash k) l.
Proof.
  intros Hr Hl. destruct (bucket_at_rep ht ls (pcache_key_hash k) Hr) as (l' & Hl' & Hb & _ & _).
  simplify_eq. unfold ht_lookup, lfind. rewrite Hb.
  pose proof (chain_find_rec_layout l k (pcache_key_hash k)) as Hf.
  destruct (chain_find_rec (layout l) k (pcache_key_hash k)) as [[[w i] r]|];
    [destruct Hf as (-> & _ & ->)|rewrite Hf]; done.
Qed.

(** A record is found exactly when some chain holds it. *)
Lemma ht_lookup_spec ht ls k r :
  ht_rep ht ls -> ht_lookup ht k = Some r <-> rkey r = k /\ exists i l, ls !! i = Some l /\ r ∈ l.
Proof.
  intros Hr. destruct (bucket_at_rep ht ls (pcache_key_hash k) Hr) as (l & Hl & _ & _ & Hk).
  rewrite (ht_lookup_lfind _ _ _ _ Hr Hl), lfind_spec by done. split.
  - intros [? ?]. eauto.
  - intros (<- & i & l' & Hl' & Hin). split; [|done].
    destruct (rep_ok _ _ Hr _ _ Hl') as [Hf' [Hh' _]].
    pose proof (proj1 (Forall_forall _ _) Hf' r Hin) as Hok. pose proof (proj1 (Forall_forall _ _) Hh' r Hin) as Hh.
    simpl in Hh. rewrite <- Hh, (ok_route _ _ _ Hok) in Hl. congruence.
Qed.

(** * Updates of one chain *)

Lemma hint_update_len ht idx e : length (hints (hint_update ht idx e)) = length (hints ht).
Proof. unfold hint_update. destruct (negb (e =? 0) && _); simpl; by rewrite ?length_insert. Qed.

Lemma hint_update_ne ht idx e i : i <> idx -> hint_at (hint_update ht idx e) i = hint_at ht i.
Proof.
  intros. unfold hint_update. destruct (negb (e =? 0) && _); [|done].
  unfold hint_at, set_hint. simpl. by rewrite list_lookup_insert_ne.
Qed.

Lemma hint_update_covers ht idx e r :
  (idx < length (hints ht))%nat -> hint_covers (hint_at ht idx) r \/ expires r = e ->
  hint_covers (hint_at (hint_update ht idx e) idx) r.
Proof.
  intros Hlt H. unfold hint_update. destruct (negb (e =? 0) && _) eqn:E.
  - bool_facts. assert (hint_at (set_hint ht idx e) idx = e) as ->.
    { unfold hint_at, set_hint. simpl. by rewrite list_lookup_insert_eq. }
    intros Hr. destruct H as [H| ->]; [|done]. specialize (H Hr).
    match goal with E : _ || _ = true |- _ => apply orb_true_iff in E as [?|?] end; bool_facts; lia.
  - destruct H as [H|H]; [done|]. intros Hr. subst e.
    apply andb_false_iff in E as [E|E]; bool_facts; [done|]. split; lia.
Qed.

Lemma hint_update_fields ht idx e :
  route (hint_update ht idx e) = route ht /\ nbuckets (hint_update ht idx e) = nbuckets ht /\
  chains (hint_update ht idx e) = chains ht /\ st (hint_update ht idx e) = st ht.
Proof. unfold hint_update. by destruct (negb (e =? 0) && _). Qed.

Section OneChain.
Context (ht ht' : pcache_htable) (ls : list (list pcache_rec)) (idx : nat) (l l' : list pcache_rec).
Context (Hrep : ht_rep ht ls) (Hl : ls !! idx = Some l).
Context (Hroute : route ht' = route ht) (Hnb : nbuckets ht' = nbuckets ht).
Context (Hch : chains ht' = <[idx := layout l']> (chains ht)).
Context (Hhl : length (hints ht') = length (hints ht)) (Hhn : forall i, i <> idx -> hint_at ht' i = hint_at ht i).
Context (Hok : Forall (rec_ok ht' idx) l') (Hkey : keyed l').

Lemma route_idx_same h : route_idx ht' h = route_idx ht h.
Proof. unfold route_idx, level, split. by rewrite Hroute. Qed.

Lemma one_chain_rep :
  chained (st ht') = chained (st ht) + chained_of (length l') - chained_of (length l) ->
  entries ht' = entries ht + zlen l' - zlen l ->
  ht_rep ht' (<[idx := l']> ls).
Proof.
  intros Hc He. destruct Hrep as [R1 R2 R3 R4 R5 R6 R7 R8 R9 R10].
  split; unfold level, split in *; rewrite ?Hroute, ?Hnb, ?zlen_insert, ?length_insert; try done; try congruence.
  - by rewrite Hch, R1, list_fmap_insert.
  - intros i k Hi. apply list_lookup_insert_Some in Hi as [(<- & <- & _)|[Hne Hi]]; [done|].
    destruct (R8 _ _ Hi) as [Hf Hk]. split; [|done]. eapply Forall_impl; [exact Hf|].
    intros r [? ? ? ? ?]. split; rewrite ?route_idx_same, ?Hhn by done; done.
  - rewrite (sumz_insert _ _ _ _ _ Hl). lia.
  - rewrite (sumz_insert _ _ _ _ _ Hl). lia.
Qed.

Lemma one_chain_lookup ls' k :
  ht_rep ht' ls' -> ls' = <[idx := l']> ls ->
  ht_lookup ht' k = if decide (route_idx ht (pcache_key_hash k) = idx)
                    then lfind k (pcache_key_hash k) l' else ht_lookup ht k.
Proof.
  intros Hr' ->. pose proof (lookup_lt_Some _ _ _ Hl). case_decide as E.
  - apply (ht_lookup_lfind _ _ _ _ Hr'). rewrite route_idx_same, E. by apply list_lookup_insert_eq.
  - destruct (bucket_at_rep ht ls (pcache_key_hash k) Hrep) as (m & Hm & _).
    rewrite (ht_lookup_lfind _ _ _ _ Hrep Hm). apply (ht_lookup_lfind _ _ _ _ Hr').
    rewrite route_idx_same. by rewrite list_lookup_insert_ne.
Qed.

End OneChain.

Lemma rec_ok_hint ht ht' i r :
  route ht' = route ht -> rec_ok ht i r -> hint_covers (hint_at ht' i) r -> rec_ok ht' i r.
Proof. intros E [? ? ? ? ?] ?. split; try done. unfold route_idx, level, split in *. by rewrite E. Qed.

Lemma rep_count ht ls f :
  (forall s, chained (f s) = chained s /\ created (f s) - destroyed (f s) = created s - destroyed s) ->
  ht_rep ht ls -> ht_rep (count ht f) ls.
Proof.
  intros Hf [R1 R2 R3 R4 R5 R6 R7 R8 R9 R10]. split; try done.
  - intros i l Hi. destruct (R8 i l Hi) as [Ho Hk]. split; [|done].
    eapply Forall_impl; [exact Ho|]. intros r Hr. apply (rec_ok_hint ht); [done|done|apply Hr].
  - simpl. by rewrite (proj1 (Hf _)).
  - unfold entries. simpl. by rewrite (proj2 (Hf _)).
Qed.

(** Where a key's chain is, and what a locked search of it finds. *)
Lemma ht_found ht ls k :
  ht_rep ht ls ->
  let h := pcache_key_hash k in
  let idx := route_idx ht h in
  exists l, ls !! idx = Some l /\ bucket_at ht idx = layout l /\ Forall (rec_ok ht idx) l /\ keyed l /\
    match chain_find_rec (bucket_at ht idx) k h with
    | Some (w, i, r) => ht_lookup ht k = Some r /\ at_place l w i /\ l !! pos (w, i) = Some r /\
                        hash r = h /\ rkey r = k
    | None => ht_lookup ht k = None /\ k ∉ rkey <$> l
    end.
Proof.
  intros Hr h idx. destruct (bucket_at_rep ht ls h Hr) as (l & Hl & Hb & Hf & Hk).
  change (bucket_at ht idx = layout l) in Hb.
  exists l. split_and!; try done. rewrite Hb. pose proof (chain_find_rec_layout l k h) as Hc.
  rewrite (ht_lookup_lfind _ _ _ _ Hr Hl).
  destruct (chain_find_rec (layout l) k h) as [[[w i] r]|].
  - destruct Hc as (Hi & Hp & Hlk). unfold lfind. fold h. rewrite Hi.
    apply rec_index_hit in Hi as (r' & Hr' & ? & ?). simplify_eq. done.
  - assert (lfind k h l = None) as Hn by (unfold lfind; by rewrite Hc). split; [done|].
    by apply lfind_None in Hn.
Qed.

(** [ht'] is well formed and is [ht] with [k] bound to [v]. *)
Definition ht_updates (ht ht' : pcache_htable) (k : bytes) (v : option pcache_rec) : Prop :=
  ht_wf ht' /\ forall k', ht_lookup ht' k' = if decide (k' = k) then v else ht_lookup ht k'.

Lemma ht_updates_id ht k : ht_wf ht -> ht_updates ht ht k (ht_lookup ht k).
Proof. intros H. split; [done|]. intros k'. by case_decide as E; [subst|]. Qed.

Lemma ht_updates_count ht ht' k v f :
  (forall s, chained (f s) = chained s /\ created (f s) - destroyed (f s) = created s - destroyed s) ->
  ht_updates ht ht' k v -> ht_updates ht (count ht' f) k v.
Proof. intros Hf [[ls Hw] Hl]. split; [exists ls; by apply rep_count|done]. Qed.

Lemma count_store_put exp s :
  chained (count_store exp false s) = chained s /\
  created (count_store exp false s) - destroyed (count_store exp false s) = created s - destroyed s.
Proof. simpl. lia. Qed.

Lemma swap_remove_perm l p r : l !! p = Some r -> r :: swap_remove p l ≡ₚ l.
Proof.
  intros Hp. pose proof (lookup_lt_Some _ _ _ Hp) as Hlt.
  destruct l as [|x l0 _] using rev_ind; [done|]. rewrite length_app in Hlt. cbn [length] in Hlt.
  rewrite swap_remove_snoc by lia. rewrite <- Permutation_cons_append. case_bool_decide as E.
  - subst p. rewrite list_lookup_middle in Hp by done. by injection Hp as ->.
  - rewrite lookup_app_l in Hp by lia. rewrite insert_take_drop by lia.
    rewrite <- Permutation_middle, perm_swap. apply perm_skip.
    by rewrite Permutation_middle, take_drop_middle.
Qed.

Section KeyChain.
Context (ht : pcache_htable) (ls : list (list pcache_rec)) (k : bytes) (l : list pcache_rec).
Let idx := route_idx ht (pcache_key_hash k).
Context (Hrep : ht_rep ht ls) (Hl : ls !! idx = Some l) (Hb : bucket_at ht idx = layout l).
Context (Hok : Forall (rec_ok ht idx) l) (Hk : keyed l).

Lemma idx_hints : (idx < length (hints ht))%nat.
Proof. rewrite (rep_hints _ _ Hrep). by eapply lookup_lt_Some. Qed.

(** The chain at [idx] becomes [l'], whose records of other keys are [l]'s. *)
Lemma key_chain_updates ht' l' v :
  route ht' = route ht -> nbuckets ht' = nbuckets ht -> chains ht' = <[idx := layout l']> (chains ht) ->
  length (hints ht') = length (hints ht) -> (forall i, i <> idx -> hint_at ht' i = hint_at ht i) ->
  Forall (rec_ok ht' idx) l' -> keyed l' ->
  chained (st ht') = chained (st ht) + chained_of (length l') - chained_of (length l) ->
  entries ht' = entries ht + zlen l' - zlen l ->
  (forall r, rkey r <> k -> r ∈ l <-> r ∈ l') -> lfind k (pcache_key_hash k) l' = v ->
  ht_updates ht ht' k v.
Proof.
  intros H1 H2 H3 H4 H5 H6 H7 H8 H9 Hother Hv.
  assert (ht_rep ht' (<[idx := l']> ls)) as Hr' by (by eapply one_chain_rep).
  split; [by eexists|]. intros k'. rewrite (one_chain_lookup ht ht' ls idx l l' Hrep Hl H1 _ k' Hr' eq_refl).
  case_decide as E; case_decide as E'; subst; try done.
  assert (ls !! route_idx ht (pcache_key_hash k') = Some l) as Hl' by (by rewrite E).
  rewrite (ht_lookup_lfind _ _ _ _ Hrep Hl').
  symmetry. apply lfind_others; [done..|]. intros r Hr. apply Hother. congruence.
Qed.

Lemma ht_put_updates w i o r :
  at_place l w i -> l !! pos (w, i) = Some o -> rkey o = k -> rkey r = k -> hash r = hash o ->
  rec_sized r -> bytes_ok (rval r) ->
  ht_updates ht (ht_put ht idx w i r) k (Some r).
Proof.
  intros Hp Ho Hko Hkr Hh Hs Hv.
  assert (forall x, x ∈ <[pos (w, i) := r]> l <-> x = r \/ (x ∈ l /\ rkey x <> rkey r)) as Hin.
  { intros x. apply (elem_of_insert_key l (pos (w, i)) r o); [done|congruence|apply Hk]. }
  assert (keyed (<[pos (w, i) := r]> l)) as Hk' by (by eapply keyed_insert; eauto; congruence).
  destruct (hint_update_fields (set_chain ht idx (chain_put (bucket_at ht idx) w i r)) idx (expires r)) as (F1 & F2 & F3 & F4).
  eapply (key_chain_updates _ (<[pos (w, i) := r]> l)); unfold ht_put, entries; rewrite ?F1, ?F2, ?F3, ?F4; try done.
  - simpl. rewrite Hb, chain_put_layout; [done|done|]. intros ? ?. simplify_eq. by rewrite Hh.
  - by rewrite hint_update_len.
  - intros j Hj. by rewrite hint_update_ne.
  - apply Forall_forall. intros x Hx. apply Hin in Hx as [->|[Hx Hne]].
    + assert (rec_ok ht idx o) as [Or Os Ob Oh Ol] by (eapply Forall_lookup_1; eauto).
      split; [|done|done|apply hint_update_covers; [apply idx_hints|by right]|by rewrite Hkr, <- Hko].
      unfold route_idx, level, split in *. by rewrite F1, Hh.
    + assert (rec_ok ht idx x) as Hx' by (by eapply Forall_forall in Hok).
      apply (rec_ok_hint ht); [done|done|]. apply hint_update_covers; [apply idx_hints|]. left. apply Hx'.
  - rewrite length_insert. simpl. lia.
  - rewrite zlen_insert. simpl. lia.
  - intros x Hx. rewrite Hin, Hkr. split; [auto|]. intros [->|[? ?]]; done.
  - apply lfind_spec; [done|]. split; [apply Hin; by left|done].
Qed.

Lemma ht_append_updates r node_ok ht' exp :
  k ∉ rkey <$> l -> rkey r = k -> zlen k <= 0xFFFF -> hash r = pcache_key_hash k -> rec_sized r -> bytes_ok (rval r) ->
  ht_append ht idx r node_ok = Some ht' ->
  ht_updates ht (count ht' (count_store exp true)) k (Some r).
Proof.
  intros Hn Hkr Hkl Hh Hs Hv. unfold ht_append. rewrite Hb, chain_tail_layout.
  destruct (_ && negb node_ok); [done|]. rewrite chain_append_layout. cbv beta iota zeta. cbn [fst].
  set (ht1 := hint_update (set_chain ht idx (layout (l ++ [r]))) idx (expires r)). intros Heq.
  destruct (hint_update_fields (set_chain ht idx (layout (l ++ [r]))) idx (expires r)) as (F1 & F2 & F3 & F4).
  fold ht1 in F1, F2, F3, F4.
  assert (route ht' = route ht1 /\ nbuckets ht' = nbuckets ht1 /\ chains ht' = chains ht1 /\ hints ht' = hints ht1 /\
    chained (st ht') = chained (st ht) + chained_of (length l + 1) - chained_of (length l) /\
    created (st ht') = created (st ht) /\ destroyed (st ht') = destroyed (st ht)) as (G1 & G2 & G3 & G4 & G5 & G6 & G7).
  { apply (inj Some) in Heq. subst ht'. destruct (PCACHE_SLOTS <=? length l)%nat eqn:E;
      cbn [count st add_chained chained created destroyed route nbuckets chains hints]; rewrite ?F4;
      cbn [set_chain st]; split_and!; try done; [lia|].
    apply Nat.leb_gt in E. unfold chained_of, PCACHE_SLOTS in *.
    rewrite !(proj2 (Nat.ltb_ge _ _)) by lia. lia. }
  assert (keyed (l ++ [r])) as Hk' by (by apply keyed_snoc; rewrite ?Hkr).
  eapply (key_chain_updates _ (l ++ [r])); unfold entries; cbn [count st route nbuckets chains hints count_store chained created destroyed];
    rewrite ?G1, ?G2, ?G3, ?G4, ?G5, ?G6, ?G7, ?F1, ?F2, ?F3; try done.
  - unfold ht1. by rewrite hint_update_len.
  - intros j Hj. unfold hint_at. simpl. rewrite G4. by apply hint_update_ne.
  - assert (forall x, hint_covers (hint_at ht idx) x \/ x = r -> hint_covers (hint_at ht1 idx) x) as Hc.
    { intros x Hx. apply hint_update_covers; [apply idx_hints|]. destruct Hx as [?| ->]; [by left|by right]. }
    assert (forall x, hint_at (count ht' (count_store exp true)) x = hint_at ht1 x) as Hh'
      by (intros; unfold hint_at; simpl; by rewrite G4).
    apply Forall_app. split; [eapply Forall_impl; [exact Hok|]|constructor; [|done]].
    + intros x Hx. apply (rec_ok_hint ht); [by simpl; rewrite G1, F1|done|]. rewrite Hh'. apply Hc. left. apply Hx.
    + split; [|done|done|rewrite Hh'; apply Hc; by right|by rewrite Hkr].
      rewrite Hh. unfold route_idx, level, split. simpl. by rewrite G1, F1.
  - rewrite length_app. simpl. lia.
  - rewrite zlen_app, zlen_cons, zlen_nil. simpl. lia.
  - intros x Hx. rewrite elem_of_app, list_elem_of_singleton. split; [auto|]. intros [?| ->]; done.
  - apply lfind_spec; [done|]. split; [|done]. apply elem_of_app. right. by apply list_elem_of_singleton.
Qed.

Lemma ht_remove_updates w i r drop ht' :
  at_place l w i -> l !! pos (w, i) = Some r -> rkey r = k ->
  (let '(b, _, dc) := chain_remove_at (bucket_at ht idx) w i in
   let ht := set_chain ht idx b in if dc =? 0 then ht else count ht (add_chained dc)) = ht' ->
  ht_updates ht (count ht' (count_remove drop)) k None.
Proof.
  intros Hp Hr Hkr. rewrite Hb. destruct (chain_remove_layout l w i Hp) as [E1 E2].
  destruct (chain_remove_at (layout l) w i) as [[b fb] dc]. cbn [fst snd] in E1, E2. subst b. cbv zeta.
  pose proof (swap_remove_perm _ _ _ Hr) as Hperm. pose proof (Permutation_length Hperm) as Hlen. simpl in Hlen.
  intros Heq.
  assert (route ht' = route ht /\ nbuckets ht' = nbuckets ht /\ hints ht' = hints ht /\
    chains ht' = <[idx := layout (swap_remove (pos (w, i)) l)]> (chains ht) /\
    chained (st ht') = chained (st ht) + dc /\
    created (st ht') = created (st ht) /\ destroyed (st ht') = destroyed (st ht)) as (G1 & G2 & G3 & G4 & G5 & G6 & G7).
  { subst ht'. destruct (dc =? 0) eqn:E; bool_facts; simpl; split_and!; try done. lia. }
  assert (keyed (r :: swap_remove (pos (w, i)) l)) as [Hf Hnd] by (by eapply keyed_perm; [symmetry|]).
  apply Forall_cons in Hf as [Hh Hf']. rewrite fmap_cons in Hnd. apply NoDup_cons in Hnd as [Hni Hnd'].
  eapply (key_chain_updates _ (swap_remove (pos (w, i)) l)); unfold entries;
    cbn [count st route nbuckets chains hints count_remove chained created destroyed];
    rewrite ?G1, ?G2, ?G3, ?G4, ?G5, ?G6, ?G7; try done.
  - intros j _. unfold hint_at. simpl. by rewrite G3.
  - apply Forall_forall. intros x Hx.
    assert (rec_ok ht idx x) as Hx' by (eapply Forall_forall in Hok; [exact Hok|]; rewrite <- Hperm; set_solver).
    apply (rec_ok_hint ht); [by simpl; rewrite G1|done|]. unfold hint_at. simpl. rewrite G3. apply Hx'.
  - rewrite E2. replace (length l - 1)%nat with (length (swap_remove (pos (w, i)) l)) by lia. lia.
  - unfold zlen. lia.
  - intros x Hx. transitivity (x ∈ r :: swap_remove (pos (w, i)) l); [by rewrite Hperm|].
    rewrite elem_of_cons. split; [intros [->|?]; done|auto].
  - rewrite <- Hkr. apply lfind_None; done.
Qed.

End KeyChain.

(** * What each operation does to the map *)

Lemma cell_alloc_fits size ok c : 0 <= size -> cell_alloc size ok = Some c -> size <= pcache_cell_bound c.
Proof. unfold cell_alloc. destruct ok; [apply cell_class_fits|done]. Qed.

Lemma cell_alloc_some size : size <= PCACHE_CELL_MAX -> exists c, cell_alloc size true = Some c.
Proof. intros. unfold cell_alloc, cell_class. destruct (size >? PCACHE_CELL_MAX) eqn:E; bool_facts; [lia|eauto]. Qed.

Lemma rec_size_nonneg (k v : bytes) : 0 <= PCACHE_REC_SIZE (zlen k) (zlen v).
Proof. unfold PCACHE_REC_SIZE, PCACHE_REC_HDR. zlia. Qed.

(** The store's identical-value test, on bytes. *)
Lemma same_value_spec (a b : bytes) :
  bytes_ok a -> bytes_ok b -> (zlen a =? zlen b) && val_eq a b (length b) = bool_decide (a = b).
Proof.
  intros Ha Hb. destruct (zlen a =? zlen b) eqn:E; bool_facts; cbn [andb].
  - apply val_eq_spec; [done..| |done]. unfold zlen in E. lia.
  - symmetry. apply bool_decide_eq_false_2. intros ->. done.
Qed.

(** The append of a locked insert fails only for want of an overflow bucket. *)
Lemma ht_append_room ht idx r : exists ht', ht_append ht idx r true = Some ht'.
Proof. unfold ht_append. destruct (chain_tail _). rewrite andb_false_r. eauto. Qed.

Section Laws.
Context {C : Type} `{LC : Lamport C}.

Lemma write_ver_ticks (e : wenv C) uv v old : ticks (write_ver e uv v old).2 = ticks e.
Proof. unfold write_ver, ver_local. destruct uv; [done|]. by destruct (pc_lamport_tick _ _). Qed.

Lemma ver_local_ticks (e : wenv C) old : ticks (ver_local e old).2 = ticks e.
Proof. apply (write_ver_ticks e false 0). Qed.

(** A local version is above the record it replaces and above the clock. *)
Lemma ver_local_above (e : wenv C) old : 0 <= ver old < 2 ^ 64 - 1 -> ver old < (ver_local e (Some old)).1.
Proof.
  intros Hv. unfold ver_local. destruct (pc_lamport_tick _ _) as [v c]. simpl.
  destruct (v <=? ver old) eqn:E; bool_facts; [|lia]. rewrite u64_id; [lia|unfold is_u64; lia].
Qed.

(** The record a store leaves for its key. *)
Record stored (e : wenv C) (q : store_req) (old : option pcache_rec) (r : pcache_rec) : Prop := {
  st_key : rkey r = skey q;
  st_val : rval r = sval q;
  st_exp : expires r = sexp q;
  st_flags : rflags r = match old with
               | Some o => u8 (Z.lor (sflags q) (shortened_fl o (sexp q) (ticks e)))
               | None => sflags q end;
  st_ver : ver r = if use_ver q then sver q else (ver_local e old).1;
  st_wtick : wtick r = (if keep_wt q then swtick q else ticks e) \/
             (wtick r = ticks e /\ exists o, old = Some o /\ rval o = sval q);
}.

(** Is the value already where it needs no new cell? *)
Definition fits_old (q : store_req) (old : pcache_rec) : bool :=
  bool_decide (rval old = sval q) ||
  (PCACHE_REC_SIZE (zlen (skey q)) (zlen (sval q)) <=? pcache_cell_bound (cls old)).

Definition store_outcome (ht : pcache_htable) (e : wenv C) (q : store_req) (cell_ok node_ok : bool)
    (rc : Z) (ht' : pcache_htable) : Prop :=
  match ht_lookup ht (skey q) with
  | Some old =>
      if use_ver q && (ver old >=? sver q) then rc = PCACHE_E_OLDER /\ ht' = ht
      else if fits_old q old || cell_ok then
        rc = 0 /\ exists r, stored e q (Some old) r /\ ht_updates ht ht' (skey q) (Some r)
      else rc = -2 /\ ht' = ht
  | None =>
      (rc = -2 /\ ht' = ht /\ (cell_ok = false \/ node_ok = false)) \/
      (rc = 0 /\ cell_ok = true /\ exists r, stored e q None r /\ ht_updates ht ht' (skey q) (Some r))
  end.

Lemma store_env_ticks e q nr : ticks (store_env e q nr) = ticks e.
Proof. unfold store_env. by destruct nr, (use_ver q). Qed.

Lemma store_env_ver e q nr old :
  (write_ver (store_env e q nr) (use_ver q) (sver q) old).1 = if use_ver q then sver q else (ver_local e old).1.
Proof. unfold store_env, write_ver. by destruct (use_ver q), nr. Qed.

Lemma store_locked_outcome ht e q cell_ok node_ok :
  ht_wf ht -> bytes_ok (sval q) -> oversize (zlen (skey q)) (zlen (sval q)) = false ->
  store_outcome ht e q cell_ok node_ok (store_locked ht e q cell_ok node_ok).1.1
    (store_locked ht e q cell_ok node_ok).1.2.
Proof.
  intros [ls Hr] Hbv Hov. unfold oversize in Hov. bool_facts.
  destruct (ht_found ht ls (skey q) Hr) as (l & Hl & Hb & Hok & Hk & Hf).
  unfold store_outcome, store_locked. cbv zeta.
  set (size := PCACHE_REC_SIZE (zlen (skey q)) (zlen (sval q))) in *.
  pose proof (rec_size_nonneg (skey q) (sval q)) as Hsz. fold size in Hsz.
  set (nr := cell_alloc size cell_ok).
  pose proof (store_env_ticks e q nr) as Ht. pose proof (store_env_ver e q nr) as Hv.
  destruct (chain_find_rec _ _ _) as [[[w i] old]|].
  - destruct Hf as (-> & Hp & Hlk & Hh & Hkey).
    assert (rec_ok ht (route_idx ht (pcache_key_hash (skey q))) old) as Hoo by (by eapply Forall_lookup_1).
    destruct (use_ver q && (ver old >=? sver q)) eqn:Eold; [done|].
    unfold fits_old. fold size. rewrite same_value_spec by (done || apply Hoo).
    specialize (Hv (Some old)). pose proof (write_ver_ticks (store_env e q nr) (use_ver q) (sver q) (Some old)) as Hwt.
    destruct (write_ver (store_env e q nr) (use_ver q) (sver q) (Some old)) as [v e2]. cbn [fst snd] in Hv, Hwt.
    rewrite Ht in *.
    assert (forall r, rkey r = skey q -> hash r = pcache_key_hash (skey q) -> rec_sized r -> bytes_ok (rval r) ->
      ht_updates ht (count (ht_put ht (route_idx ht (pcache_key_hash (skey q))) w i r) (count_store (sexp q) false))
        (skey q) (Some r)) as Hput.
    { intros r ? ? ? ?. apply ht_updates_count; [apply count_store_put|].
      eapply (ht_put_updates ht ls (skey q) l Hr Hl Hb Hok Hk); eauto; congruence. }
    case_bool_decide as Eval; cbn [orb].
    { cbn [fst snd]. split; [done|]. eexists. split; [|apply Hput]; try done; [|apply Hoo|apply Hoo].
      split; try done. simpl. right. split; [done|]. eauto. }
    destruct (size <=? pcache_cell_bound (cls old)) eqn:Efit; cbn [orb].
    { bool_facts. cbn [fst snd]. split; [done|]. eexists. split; [|apply Hput]; try done.
      - split; try done. by left.
      - unfold rec_sized. simpl. by rewrite Hkey. }
    destruct nr as [c|] eqn:En; unfold nr in En.
    + assert (cell_ok = true) as -> by (by destruct cell_ok).
      cbn [fst snd]. split; [done|]. eexists. split; [|apply Hput]; try done.
      * split; try done. by left.
      * by apply (cell_alloc_fits size true).
    + destruct cell_ok; [|done]. destruct (cell_alloc_some size) as [? ?]; [lia|congruence].
  - destruct Hf as [-> Hn]. destruct nr as [c|] eqn:En; unfold nr in En.
    2: { left. split_and!; try done. left. destruct cell_ok; [|done].
         destruct (cell_alloc_some size) as [? ?]; [lia|congruence]. }
    assert (cell_ok = true) as -> by (by destruct cell_ok).
    specialize (Hv None). pose proof (write_ver_ticks (store_env e q (Some c)) (use_ver q) (sver q) None) as Hwt.
    destruct (write_ver (store_env e q (Some c)) (use_ver q) (sver q) None) as [v e2]. cbn [fst snd] in Hv, Hwt.
    match goal with |- context [ht_append ht ?i ?r node_ok] => set (r0 := r); destruct (ht_append ht i r0 node_ok) as [ht'|] eqn:Ea end.
    + right. split_and!; [done..|]. exists r0. split; [split; try done; by left|].
      eapply (ht_append_updates ht ls (skey q) l Hr Hl Hb Hok Hk); eauto; try done.
      by apply (cell_alloc_fits size true).
    + left. split_and!; try done. right. destruct node_ok; [|done].
      destruct (ht_append_room ht (route_idx ht (pcache_key_hash (skey q))) r0) as [? ?]. congruence.
Qed.

(** ** Accumulate *)

(** The integer a record holds for a counter: its raw eight bytes, or the
    decimal a string spells. *)
Definition counter_value (r : pcache_rec) : option Z :=
  if has_flag (rflags r) PCACHE_F_INT then Some (ll_of (rval r)) else pcache_str2ll (rval r).

(** A native counter's value is its eight bytes. *)
Definition int_ok (r : pcache_rec) : Prop := has_flag (rflags r) PCACHE_F_INT = true -> length (rval r) = 8%nat.

Lemma ll_bytes_len x : length (ll_bytes x) = 8%nat.
Proof. apply le_bytes_len. Qed.

Lemma zlen_ll x : zlen (ll_bytes x) = 8.
Proof. unfold zlen. by rewrite ll_bytes_len. Qed.

Lemma ll_bytes_ok x : bytes_ok (ll_bytes x).
Proof. apply le_bytes_ok. Qed.

Record accumulated (e : wenv C) (key : bytes) (n exp : Z) (old : option pcache_rec) (r : pcache_rec) : Prop := {
  ac_key : rkey r = key;
  ac_val : rval r = ll_bytes n;
  ac_exp : expires r = exp;
  ac_ver : ver r = (ver_local e old).1;
  ac_wtick : wtick r = ticks e;
  ac_int : has_flag (rflags r) PCACHE_F_INT = true;
  ac_own : has_flag (rflags r) PCACHE_F_PASSIVE = false;
}.

Definition add_outcome (ht : pcache_htable) (e : wenv C) (key : bytes) (delta exp : Z) (cell_ok node_ok : bool)
    (rc : Z) (ht' : pcache_htable) (out : option (Z * Z)) : Prop :=
  let keep := exp =? PCACHE_EXP_PRESERVE in
  match ht_lookup ht key with
  | Some o =>
      match counter_value o with
      | Some n =>
          if cell_ok then
            let eff := if keep then expires o else exp in
            rc = 0 /\ out = Some (s64 (n + delta), eff) /\
            exists r, accumulated e key (s64 (n + delta)) eff (Some o) r /\ ht_updates ht ht' key (Some r)
          else rc = -1 /\ ht' = ht
      | None => rc = -1 /\ ht' = ht
      end
  | None =>
      (rc = -1 /\ ht' = ht /\ (cell_ok = false \/ node_ok = false)) \/
      (rc = 0 /\ out = Some (delta, if keep then 0 else exp) /\
       exists r, accumulated e key delta (if keep then 0 else exp) None r /\ ht_updates ht ht' key (Some r))
  end.

(** Flags: or-ing and clearing, bit by bit. *)
Lemma has_flag_bit fl b : 0 <= b -> has_flag fl (2 ^ b) = Z.testbit fl b.
Proof.
  intros Hb. unfold has_flag. destruct (Z.testbit fl b) eqn:E.
  - apply negb_true_iff, Z.eqb_neq. intros E0. apply (f_equal (fun x => Z.testbit x b)) in E0.
    rewrite Z.land_spec, E, Z.pow2_bits_true, Z.bits_0 in E0 by done. done.
  - apply negb_false_iff, Z.eqb_eq. apply Z.bits_inj'. intros n Hn. rewrite Z.land_spec, Z.bits_0.
    destruct (decide (n = b)) as [->|]; [by rewrite E|]. rewrite Z.pow2_bits_false by done. apply andb_false_r.
Qed.

Lemma flag_int fl : has_flag fl PCACHE_F_INT = Z.testbit fl 0.
Proof. by apply (has_flag_bit fl 0). Qed.
Lemma flag_passive fl : has_flag fl PCACHE_F_PASSIVE = Z.testbit fl 1.
Proof. by apply (has_flag_bit fl 1). Qed.

Lemma shortened_bits o exp now : shortened_fl o exp now = 0 \/ shortened_fl o exp now = PCACHE_F_SHORTENED.
Proof. unfold shortened_fl. repeat case_match; auto. Qed.

Lemma shortened_testbit o exp now b : (b = 0 \/ b = 1) -> Z.testbit (shortened_fl o exp now) b = false.
Proof. destruct (shortened_bits o exp now) as [->| ->]; intros [->| ->]; done. Qed.

Lemma clear_passive_bits fl :
  Z.testbit (clear_passive fl) 0 = Z.testbit fl 0 /\ Z.testbit (clear_passive fl) 1 = false.
Proof. unfold clear_passive. rewrite !Z.land_spec. change (u8 _) with 253. split; [apply andb_true_r|apply andb_false_r]. Qed.

Lemma add_locked_outcome ht e key delta exp cell_ok node_ok :
  ht_wf ht -> zlen key <= 0xFFFF -> (forall o, ht_lookup ht key = Some o -> int_ok o) ->
  add_outcome ht e key delta exp cell_ok node_ok (add_locked ht e key delta exp cell_ok node_ok).1.1.1
    (add_locked ht e key delta exp cell_ok node_ok).1.1.2 (add_locked ht e key delta exp cell_ok node_ok).2.
Proof.
  intros [ls Hr] Hlen Hint.
  destruct (ht_found ht ls key Hr) as (l & Hl & Hb & Hok & Hk & Hf).
  unfold add_outcome, add_locked. cbv zeta.
  set (size := PCACHE_REC_SIZE (zlen key) 8) in *.
  assert (0 <= size <= PCACHE_CELL_MAX) as Hsz by (unfold size, PCACHE_REC_SIZE, PCACHE_REC_HDR, PCACHE_CELL_MAX; zlia).
  destruct (cell_alloc size cell_ok) as [c|] eqn:En.
  2: { assert (cell_ok = false) as ->.
       { destruct cell_ok; [|done]. destruct (cell_alloc_some size) as [? ?]; [lia|congruence]. }
       destruct (ht_lookup ht key) as [o|]; [by destruct (counter_value o)|]. left. auto. }
  pose proof (cell_alloc_fits size cell_ok c ltac:(lia) En) as Hfit.
  assert (cell_ok = true) as -> by (by destruct cell_ok).
  assert (forall a : Z, (if exp =? PCACHE_EXP_PRESERVE then a else if exp =? PCACHE_EXP_PRESERVE then 0 else exp) =
    if exp =? PCACHE_EXP_PRESERVE then a else exp) as Heff by (intros; by destruct (exp =? _)).
  destruct (chain_find_rec _ _ _) as [[[w i] r]|].
  - destruct Hf as (Hlk & Hp & Hpos & Hh & Hkey). rewrite Hlk.
    assert (rec_ok ht (route_idx ht (pcache_key_hash key)) r) as Hoo by (by eapply Forall_lookup_1).
    assert (forall x ex, rkey x = key -> hash x = pcache_key_hash key -> rec_sized x -> bytes_ok (rval x) ->
      ht_updates ht (count (ht_put ht (route_idx ht (pcache_key_hash key)) w i x) (count_store ex false)) key (Some x)) as Hput.
    { intros x ex ? ? ? ?. apply ht_updates_count; [apply count_store_put|].
      eapply (ht_put_updates ht ls key l Hr Hl Hb Hok Hk); eauto; congruence. }
    pose proof (ver_local_ticks e (Some r)) as Ht. unfold counter_value. specialize (Hint r Hlk). unfold int_ok in Hint.
    destruct (has_flag (rflags r) PCACHE_F_INT) eqn:EI.
    + specialize (Hint eq_refl). destruct (ver_local e (Some r)) as [v e2] eqn:Ev. cbn [fst snd] in *.
      assert (take (length (rval r)) (ll_bytes (s64 (ll_of (rval r) + delta)) ++ drop 8 (rval r)) =
        ll_bytes (s64 (ll_of (rval r) + delta))) as Etk.
      { rewrite Hint, (drop_ge (rval r)), app_nil_r, take_ge by (rewrite ?ll_bytes_len; lia). done. }
      rewrite Etk, !Heff. split_and!; [done..|]. eexists. split; [|apply Hput]; cbn [rkey rval hash]; try done.
      * split; cbn [rkey rval expires ver wtick rflags]; rewrite ?Ev, ?flag_int, ?flag_passive; try done; try apply clear_passive_bits.
        rewrite (proj1 (clear_passive_bits _)). rewrite flag_int in EI.
        destruct (exp =? _); [done|]. rewrite Z.lor_spec, EI. done.
      * unfold rec_sized. cbn [rkey rval cls]. pose proof (ok_sized _ _ _ Hoo) as Hs. unfold rec_sized in Hs.
        replace (zlen (ll_bytes _)) with (zlen (rval r)) by (unfold zlen; by rewrite Hint, ll_bytes_len). done.
      * apply ll_bytes_ok.
    + destruct (pcache_str2ll (rval r)) as [n|]; [|done].
      destruct (ver_local e (Some r)) as [v e2] eqn:Ev. cbn [fst snd] in *. rewrite !Heff.
      split_and!; [done..|]. eexists. split; [|apply Hput]; cbn [rkey rval hash]; try done.
      * split; cbn [rkey rval expires ver wtick rflags]; rewrite ?Ev, ?flag_int, ?flag_passive, ?Z.lor_spec, ?shortened_testbit by auto; done.
      * apply ll_bytes_ok.
  - destruct Hf as [-> Hn]. destruct (ver_local e None) as [v e2] eqn:Ev.
    match goal with |- context [ht_append ht ?i ?r node_ok] => set (r0 := r); destruct (ht_append ht i r0 node_ok) as [ht'|] eqn:Ea end.
    + right. split_and!; [done..|]. exists r0. split; [by split; cbn [rkey rval expires ver wtick rflags]; rewrite ?Ev|].
      eapply (ht_append_updates ht ls key l Hr Hl Hb Hok Hk); eauto; try done.
      * apply ll_bytes_ok.
    + left. split_and!; try done. right. destruct node_ok; [|done].
      destruct (ht_append_room ht (route_idx ht (pcache_key_hash key)) r0) as [? ?]. congruence.
Qed.

(** ** Touch, set-version, remove *)

Lemma hint_noop ht idx r : hint_covers (hint_at ht idx) r -> hint_update ht idx (expires r) = ht.
Proof.
  intros Hc. unfold hint_update. destruct (expires r =? 0) eqn:E; bool_facts; [done|]. cbn [negb andb].
  destruct (Hc E). by btrue.
Qed.

Lemma setver_outcome ht key v :
  ht_wf ht ->
  match ht_lookup ht key with
  | Some o => (setver_locked ht key v).1 = 1 /\
      ht_updates ht (setver_locked ht key v).2 key
        (Some (mk_rec (cls o) (rflags o) (expires o) (hash o) v (wtick o) (rkey o) (rval o)))
  | None => setver_locked ht key v = (0, ht)
  end.
Proof.
  intros [ls Hr]. destruct (ht_found ht ls key Hr) as (l & Hl & Hb & Hok & Hk & Hf). unfold setver_locked. cbv zeta.
  destruct (chain_find_rec _ _ _) as [[[w i] o]|]; [|by destruct Hf as [-> _]].
  destruct Hf as (-> & Hp & Hpos & Hh & Hkey). split; [done|]. cbn [snd].
  assert (rec_ok ht (route_idx ht (pcache_key_hash key)) o) as [Or Os Ob Oh Ol] by (by eapply Forall_lookup_1).
  set (r := mk_rec _ _ _ _ _ _ _ _).
  pose proof (ht_put_updates ht ls key l Hr Hl Hb Hok Hk w i o r Hp Hpos Hkey Hkey eq_refl Os Ob) as Hu.
  unfold ht_put in Hu. by rewrite hint_noop in Hu.
Qed.

Definition touched (e : wenv C) (exp : Z) (adopt : bool) (o r : pcache_rec) : Prop :=
  r = mk_rec (cls o)
        (let fl := Z.lor (rflags o) (shortened_fl o exp (ticks e)) in
         if adopt && has_flag fl PCACHE_F_PASSIVE then clear_passive fl else fl)
        exp (hash o) (ver_local e (Some o)).1 (ticks e) (rkey o) (rval o).

Lemma touch_outcome ht e key exp adopt :
  ht_wf ht ->
  match ht_lookup ht key with
  | Some o => (touch_locked ht e key exp adopt).1.1.1 = 1 /\
      exists r, touched e exp adopt o r /\ ht_updates ht (touch_locked ht e key exp adopt).1.1.2 key (Some r) /\
      last_ver (touch_locked ht e key exp adopt).1.2 = ver r
  | None => touch_locked ht e key exp adopt = (0, ht, e, false)
  end.
Proof.
  intros [ls Hr]. destruct (ht_found ht ls key Hr) as (l & Hl & Hb & Hok & Hk & Hf). unfold touch_locked. cbv zeta.
  destruct (chain_find_rec _ _ _) as [[[w i] o]|]; [|by destruct Hf as [-> _]].
  destruct Hf as (-> & Hp & Hpos & Hh & Hkey).
  assert (rec_ok ht (route_idx ht (pcache_key_hash key)) o) as [Or Os Ob Oh Ol] by (by eapply Forall_lookup_1).
  pose proof (ver_local_ticks e (Some o)) as Ht. unfold touched.
  destruct (ver_local e (Some o)) as [v e2]. cbn [fst snd] in *. split; [done|]. rewrite Ht.
  eexists; split_and!; [done| |done]. by eapply (ht_put_updates ht ls key l Hr Hl Hb Hok Hk); eauto.
Qed.

(** The environment after a remove: a delete stamps and publishes its version,
    a drop leaves it alone. *)
Definition remove_env (e : wenv C) (dead : option pcache_rec) (drop : bool) : wenv C :=
  if drop then e else
  let '(v, e) := ver_local e dead in
  let e := set_last_del_ver e v in
  set_clk e (pc_lamport_publish v (clk e)).

Lemma remove_outcome ht e key below drop :
  ht_wf ht ->
  let '(rc, ht', e') := remove_impl ht e key below drop in
  match ht_lookup ht key with
  | Some o =>
      if negb (below =? 0) && (ver o >=? below) then rc = 0 /\ ht' = ht /\ e' = remove_env e None drop
      else rc = 1 /\ ht_updates ht ht' key None /\ e' = remove_env e (Some o) drop
  | None => rc = 0 /\ ht' = ht /\ e' = remove_env e None drop
  end.
Proof.
  intros [ls Hr]. destruct (ht_found ht ls key Hr) as (l & Hl & Hb & Hok & Hk & Hf). unfold remove_impl. cbv zeta.
  destruct (chain_find_rec _ _ _) as [[[w i] o]|]; [|by destruct Hf as [-> _]].
  destruct Hf as (-> & Hp & Hpos & Hh & Hkey).
  destruct (negb (below =? 0) && (ver o >=? below)) eqn:E; [done|].
  pose proof (fun d ht' => ht_remove_updates ht ls key l Hr Hl Hb Hok Hk w i o d ht' Hp Hpos Hkey) as Hu.
  destruct (chain_remove_at _ w i) as [[b fb] dc]. split_and!; [done| |done].
  by eapply Hu.
Qed.

(** ** Reads *)

Lemma bkt_meta_u16 l : Forall is_u16 (map bkt_meta (layout l)) .
Proof.
  apply Forall_fmap. induction l as [l Hl|l Hl IH] using layout_ind.
  - rewrite layout_small by done. repeat constructor; unfold bkt_meta, is_u16; cbn [lay_bkt used link compose]; pow2; lia.
  - rewrite layout_big by done. constructor; [|done].
    unfold bkt_meta, is_u16; cbn [lay_bkt used link compose]; rewrite length_take; pow2; lia.
Qed.

(** What a read of a record answers: its code and what it hands out. *)
Definition read_rec (r : pcache_rec) (dst : option Z) (ll : bool) (now : Z) : Z * fetch_out :=
  let out d n := mk_fo (zlen (rval r)) (expires r) (rflags r) (ver r) d n in
  let counter := has_flag (rflags r) PCACHE_F_INT && (zlen (rval r) =? 8) in
  if negb (expires r =? 0) && (expires r <=? now) then (-2, mk_fo 0 (expires r) 0 0 [] 0)
  else match dst with
  | None => (b2z counter, out [] 0)
  | Some cap =>
      if zlen (rval r) >? cap then (PCACHE_E_TOOSMALL, out [] 0)
      else if counter then if ll then (1, out (rval r) (ll_of (rval r))) else (-1, out (rval r) 0)
      else (0, out (rval r) 0)
  end.

Lemma fetch_outcome ht key dst ll now :
  ht_wf ht ->
  fetch_core ht key dst ll now =
    match ht_lookup ht key with Some r => read_rec r dst ll now | None => (-2, fo_none) end.
Proof.
  intros [ls Hr]. destruct (ht_found ht ls key Hr) as (l & Hl & Hb & Hok & Hk & Hf). unfold fetch_core. cbv zeta.
  unfold chain_find_rec in Hf. rewrite Hb in *.
  rewrite scan_chain_layout; [|by rewrite length_map|apply bkt_meta_u16|].
  2: { eapply Forall_impl; [exact Hok|]. intros r Ho. apply Ho. }
  destruct (chain_find (layout l) _ _ _) as [[w i]|]; [|by destruct Hf as [-> _]].
  destruct (chain_get (layout l) w i) as [r|]; [|by destruct Hf as [-> _]].
  destruct Hf as (-> & Hp & Hpos & Hh & Hkey).
  assert (rec_sized r) as Hs by (eapply Forall_lookup_1 in Hok; [apply Hok|done]).
  unfold rec_sized, PCACHE_REC_SIZE in Hs. unfold read_rec.
  destruct (zlen (rval r) >? _) eqn:E; bool_facts; [lia|].
  destruct (negb (expires r =? 0) && _); [done|]. rewrite ztake_all by done.
  destruct dst as [cap|]; [done|]. by destruct (has_flag _ _ && _).
Qed.

End Laws.

