(* ===== verification/HtGrow.v ===== *)
(** Linear-hash growth: [pcache_ht_split] and [pcache_ht_grow_at] of
    [src/src/core/pcache_htable.c].

    A split takes the records of one chain apart and lays them again in two, by
    one more bit of each hash, out of the chain's own overflow buckets.  The
    theorems: the spare buckets are never short, the split table is well formed
    and answers every key as before, and growth stops at its target, its budget
    or the ceiling. *)

From stdpp Require Import base tactics list numbers sets.
From S2P Require Import Prelude HtBase HtChain Lamport HtTable.
#[local] Open Scope Z_scope.

(** The records of a chain with their tags, in order. *)
Definition bkt_recs (b : pcache_bucket) : list (pcache_rec * Z) :=
  omap (fun i => match slot b !! i, tags b !! i with
                 | Some (SRec r), Some t => Some (r, t) | _, _ => None end) (seq 0 (used b)).

Fixpoint chain_recs (c : list pcache_bucket) : list (pcache_rec * Z) :=
  match c with
  | [] => []
  | b :: c => bkt_recs b ++ (if link b then chain_recs c else [])
  end.

(** One half of a split under construction: its chain, count and least expiry. *)
Record half := mk_half { h_chain : list pcache_bucket; h_n : nat; h_min : Z }.

Definition half_zero : half := mk_half [bkt_zero] 0 0.

(** Lay one record: [None] when it needs a bucket and the spare list is empty. *)
Definition half_add (x : half) (r : pcache_rec) (tag : Z) (spare : nat) : option (half * nat) :=
  let '(tw, _) := chain_tail (h_chain x) in
  let full := match h_chain x !! tw with Some t => (used t =? PCACHE_SLOTS)%nat | None => false end in
  let mn := if negb (expires r =? 0) && ((h_min x =? 0) || (expires r <? h_min x)) then expires r else h_min x in
  let x' := mk_half (chain_append (h_chain x) r tag).1 (h_n x + 1) mn in
  if full then match spare with O => None | S spare => Some (x', spare) end else Some (x', spare).

Fixpoint split_lay (lvl : Z) (rs : list (pcache_rec * Z)) (s p : half) (spare : nat) : option (half * half * nat) :=
  match rs with
  | [] => Some (s, p, spare)
  | (r, tag) :: rs =>
      if Z.testbit (hash r) lvl then
        match half_add p r tag spare with Some (p, spare) => split_lay lvl rs s p spare | None => None end
      else
        match half_add s r tag spare with Some (s, spare) => split_lay lvl rs s p spare | None => None end
  end.

(** [pcache_ht_split]: 1 with the split table, 0 at the ceiling, -1 when the
    segment or the scratch is refused; [None] would be a null spare bucket. *)
Definition pcache_ht_split (ht : pcache_htable) (seg_ok scratch_ok : bool) : option (Z * pcache_htable) :=
  let lvl := level ht in
  let sidx := Z.to_nat (split ht) in
  let pidx := split ht + Z.shiftl 1 lvl in
  if pidx >=? PCACHE_CEILING then Some (0, ht)
  else if negb seg_ok then Some (-1, ht)
  else if negb scratch_ok then Some (-1, ht)
  else
    let b := bucket_at ht sidx in
    let n := (chain_tail b).2 in
    match split_lay lvl (chain_recs b) half_zero half_zero (length b - 1) with
    | None => None
    | Some (s, p, _) =>
        let dc := chained_of (h_n s) + chained_of (h_n p) - chained_of n in
        let nr := if split ht + 1 =? Z.shiftl 1 lvl then Z.shiftl (lvl + 1) 32
                  else Z.lor (Z.shiftl lvl 32) (split ht + 1) in
        let ht := mk_ht nr (nbuckets ht + 1) (<[sidx := h_chain s]> (chains ht) ++ [h_chain p])
                    (<[sidx := h_min s]> (hints ht) ++ [h_min p]) (st ht) in
        Some (1, if dc =? 0 then ht else count ht (add_chained dc))
    end.

(** [pcache_ht_grow_at] with the segment allocator's answer per split. *)
Fixpoint grow_loop (ents pct : Z) (ht : pcache_htable) (seg_ok : list bool) (budget : nat) (did : Z)
    : option (Z * pcache_htable) :=
  match budget with
  | O => Some (did, ht)
  | S budget =>
      if ents * 100 >? pct * Z.of_nat PCACHE_SLOTS * nbuckets ht then
        match pcache_ht_split ht (default true (head seg_ok)) true with
        | None => None
        | Some (rc, ht') =>
            if rc <=? 0 then Some (did, ht') else grow_loop ents pct ht' (tail seg_ok) budget (did + 1)
        end
      else Some (did, ht)
  end.

Definition pcache_ht_grow_at (ht : pcache_htable) (pct : Z) (budget : nat) (seg_ok : list bool)
    : option (Z * pcache_htable) :=
  if pct =? 0 then Some (0, ht) else
  let pct := if pct >? 100 then 100 else pct in
  grow_loop (entries ht) pct ht seg_ok budget 0.

(** * The records out of a chain *)

Definition tagged (r : pcache_rec) : pcache_rec * Z := (r, tag_of (hash r)).

Lemma bkt_recs_from rs lnk pre post :
  rs = pre ++ post ->
  omap (fun i => match slot (lay_bkt rs lnk) !! i, tags (lay_bkt rs lnk) !! i with
                 | Some (SRec r), Some t => Some (r, t) | _, _ => None end)
    (seq (length pre) (length post)) = map tagged post.
Proof.
  intros ->. revert pre. induction post as [|r post IH]; intros pre; [done|]. cbn [seq length map].
  destruct (lay_bkt_slot (pre ++ r :: post) lnk (length pre) r) as [E1 E2]; [by rewrite list_lookup_middle|].
  cbn [omap list_omap]. rewrite E1, E2. f_equal.
  specialize (IH (pre ++ [r])).
  replace ((pre ++ [r]) ++ post) with (pre ++ r :: post) in IH by (by rewrite <- app_assoc).
  replace (length (pre ++ [r])) with (S (length pre)) in IH by (rewrite length_app; simpl; lia).
  exact IH.
Qed.

Lemma bkt_recs_lay rs lnk : bkt_recs (lay_bkt rs lnk) = map tagged rs.
Proof. apply (bkt_recs_from rs lnk [] rs eq_refl). Qed.

Lemma chain_recs_layout l : chain_recs (layout l) = map tagged l.
Proof.
  induction l as [l Hl|l Hl IH] using layout_ind.
  - rewrite layout_small by done. cbn [chain_recs]. by rewrite bkt_recs_lay, app_nil_r.
  - rewrite layout_big by done. cbn [chain_recs]. rewrite bkt_recs_lay. cbn [lay_bkt link].
    by rewrite IH, <- map_app, take_drop.
Qed.

(** * Overflow buckets *)

(** The overflow buckets [n] records take. *)
Definition ovf (n : nat) : nat := ((n - 2) / 5)%nat.

Lemma layout_len l : length (layout l) = S (ovf (length l)).
Proof.
  unfold ovf. induction l as [l Hl|l Hl IH] using layout_ind.
  - rewrite layout_small by done. cbn [length]. rewrite Nat.div_small by lia. done.
  - rewrite layout_big by done. cbn [length]. rewrite IH, length_drop.
    replace (length l - 2)%nat with (length l - 5 - 2 + 1 * 5)%nat by lia. rewrite Nat.div_add by lia. lia.
Qed.

(** The halves never need more than the whole had. *)
Lemma ovf_add a b : (ovf a + ovf b <= ovf (a + b))%nat.
Proof.
  unfold ovf. pose proof (Nat.div_mod_eq (a - 2) 5). pose proof (Nat.div_mod_eq (b - 2) 5).
  pose proof (Nat.div_mod_eq (a + b - 2) 5). pose proof (Nat.mod_upper_bound (a - 2) 5).
  pose proof (Nat.mod_upper_bound (b - 2) 5). pose proof (Nat.mod_upper_bound (a + b - 2) 5). lia.
Qed.

Lemma ovf_mono a b : (a <= b)%nat -> (ovf a <= ovf b)%nat.
Proof. intros. unfold ovf. apply Nat.Div0.div_le_mono. lia. Qed.

Lemma append_len l r : length (layout (l ++ [r])) = (length (layout l) + (if tail_full l then 1 else 0))%nat.
Proof.
  pose proof (chain_append_layout l r) as E. unfold chain_append in E. rewrite chain_tail_layout in E.
  destruct (layout l !! _) as [t|] eqn:Et.
  2: { apply lookup_ge_None in Et. destruct (layout_cons l) as (b & bs & El). rewrite El in Et. simpl in Et. lia. }
  destruct (used t <? bkt_cap t)%nat; apply pair_eq in E as [<- <-].
  - rewrite length_insert. lia.
  - rewrite length_app, length_insert. simpl. lia.
Qed.

(** * The lay-out of the two halves *)

Record half_rep (x : half) (l : list pcache_rec) : Prop := {
  hr_chain : h_chain x = layout l;
  hr_n : h_n x = length l;
  hr_min : Forall (hint_covers (h_min x)) l;
}.

Lemma half_zero_rep : half_rep half_zero [].
Proof. by split. Qed.

Lemma half_min_covers x r l :
  Forall (hint_covers (h_min x)) l ->
  let mn := if negb (expires r =? 0) && ((h_min x =? 0) || (expires r <? h_min x)) then expires r else h_min x in
  Forall (hint_covers mn) (l ++ [r]).
Proof.
  intros Hf mn. unfold mn, hint_covers in *. apply Forall_app. split; [eapply Forall_impl; [exact Hf|]; intros y Hy Hn; specialize (Hy Hn)|constructor; [|done]];
    destruct (expires r =? 0) eqn:E1; destruct (h_min x =? 0) eqn:E2; destruct (expires r <? h_min x) eqn:E3;
    bool_facts; cbn [negb andb orb]; intros; lia.
Qed.

Lemma half_add_rep x l r spare :
  half_rep x l -> (ovf (length l + 1) <= ovf (length l) + spare)%nat ->
  exists x' spare', half_add x r (tag_of (hash r)) spare = Some (x', spare') /\ half_rep x' (l ++ [r]) /\
    (spare' + ovf (length l + 1) = spare + ovf (length l))%nat.
Proof.
  intros [Hc Hn Hm] Hs. unfold half_add. rewrite Hc, chain_tail_layout.
  pose proof (append_len l r) as Hlen. rewrite !layout_len, length_app in Hlen. cbn [length] in Hlen.
  assert (match layout l !! (length (layout l) - 1)%nat with Some t => (used t =? PCACHE_SLOTS)%nat | None => false end
    = tail_full l) as -> by (unfold tail_full; by rewrite chain_tail_layout).
  assert (half_rep (mk_half (chain_append (layout l) r (tag_of (hash r))).1 (h_n x + 1)
    (if negb (expires r =? 0) && ((h_min x =? 0) || (expires r <? h_min x)) then expires r else h_min x)) (l ++ [r])) as Hx.
  { split; cbn [h_chain h_n h_min]; [by rewrite chain_append_layout|rewrite Hn, length_app; done|by apply half_min_covers]. }
  destruct (tail_full l); [destruct spare as [|spare]; [lia|]|]; eexists _, _; (split; [done|]); (split; [exact Hx|lia]).
Qed.

Definition lo_half (lvl : Z) (l : list pcache_rec) : list pcache_rec := List.filter (fun r => negb (Z.testbit (hash r) lvl)) l.
Definition hi_half (lvl : Z) (l : list pcache_rec) : list pcache_rec := List.filter (fun r => Z.testbit (hash r) lvl) l.

Lemma split_lay_rep lvl l s p ls lp spare :
  half_rep s ls -> half_rep p lp -> (ovf (length ls + length lp + length l) <= ovf (length ls) + ovf (length lp) + spare)%nat ->
  exists s' p' spare', split_lay lvl (map tagged l) s p spare = Some (s', p', spare') /\
    half_rep s' (ls ++ lo_half lvl l) /\ half_rep p' (lp ++ hi_half lvl l).
Proof.
  revert s p ls lp spare. induction l as [|r l IH]; intros s p ls lp spare Hs Hp Hsp.
  - exists s, p, spare. cbn. by rewrite !app_nil_r.
  - cbn [map tagged split_lay lo_half hi_half List.filter length] in *.
    pose proof (ovf_add (length ls + 1) (length lp)). pose proof (ovf_add (length ls) (length lp + 1)).
    pose proof (ovf_mono (length ls + 1 + length lp) (length ls + length lp + S (length l)) ltac:(lia)).
    pose proof (ovf_mono (length ls + (length lp + 1)) (length ls + length lp + S (length l)) ltac:(lia)).
    destruct (Z.testbit (hash r) lvl); cbn [negb].
    + destruct (half_add_rep p lp r spare Hp ltac:(lia)) as (p' & sp' & -> & Hp' & Hsp').
      destruct (IH s p' ls (lp ++ [r]) sp' Hs Hp') as (s2 & p2 & sp2 & E & H1' & H2');
        [rewrite length_app; cbn [length]; replace (length ls + (length lp + 1) + length l)%nat with (length ls + length lp + S (length l))%nat by lia; lia|].
      rewrite E, <- app_assoc in *. eauto 6.
    + destruct (half_add_rep s ls r spare Hs ltac:(lia)) as (s' & sp' & -> & Hs' & Hsp').
      destruct (IH s' p (ls ++ [r]) lp sp' Hs' Hp) as (s2 & p2 & sp2 & E & H1' & H2');
        [rewrite length_app; cbn [length]; replace (length ls + 1 + length lp + length l)%nat with (length ls + length lp + S (length l))%nat by lia; lia|].
      rewrite E, <- app_assoc in *. eauto 6.
Qed.

(** * The routing word *)

Lemma shiftr_join a s : 0 <= s < 2 ^ 32 -> Z.shiftr (Z.lor (Z.shiftl a 32) s) 32 = a.
Proof.
  intros Hs. rewrite Z.lor_comm, lor_shiftl_add by lia. rewrite Z.shiftr_div_pow2 by lia.
  rewrite Z.div_add, Z.div_small by lia. lia.
Qed.

Lemma u32_join a s : 0 <= s < 2 ^ 32 -> u32 (Z.lor (Z.shiftl a 32) s) = s.
Proof.
  intros Hs. rewrite Z.lor_comm, lor_shiftl_add by lia. unfold u32. rewrite Z.mod_add by lia. by apply Z.mod_small.
Qed.

Definition next_route (lvl sp : Z) : Z :=
  if sp + 1 =? Z.shiftl 1 lvl then Z.shiftl (lvl + 1) 32 else Z.lor (Z.shiftl lvl 32) (sp + 1).

(** One more bucket: where a hash routes after the split. *)
Section NextRoute.
Context (ht ht' : pcache_htable) (lvl sp : Z).
Context (Hl : level ht = lvl) (Hs : split ht = sp) (H0 : 0 <= lvl <= 24) (Hsp : 0 <= sp < 2 ^ lvl).
Context (Hr : route ht' = next_route lvl sp).

Lemma sp_small : sp < 2 ^ 24.
Proof. pose proof (Z.pow_le_mono_r 2 lvl 24). lia. Qed.

Lemma next_route_fields :
  (sp + 1 = 2 ^ lvl /\ level ht' = lvl + 1 /\ split ht' = 0) \/
  (sp + 1 < 2 ^ lvl /\ level ht' = lvl /\ split ht' = sp + 1).
Proof.
  pose proof sp_small. unfold level, split. rewrite Hr. unfold next_route. rewrite Z.shiftl_1_l.
  destruct (sp + 1 =? 2 ^ lvl) eqn:E; bool_facts.
  - left. split; [done|]. rewrite <- (Z.lor_0_r (Z.shiftl (lvl + 1) 32)), shiftr_join, u32_join by lia. done.
  - right. rewrite shiftr_join, u32_join by lia. lia.
Qed.

Lemma next_route_u64 : is_u64 (route ht').
Proof.
  pose proof sp_small. rewrite Hr. unfold next_route, is_u64.
  assert (Z.shiftl (lvl + 1) 32 = (lvl + 1) * 2 ^ 32) as E1 by (by rewrite Z.shiftl_mul_pow2 by lia).
  destruct (_ =? _); [lia|]. rewrite Z.lor_comm, lor_shiftl_add by lia. lia.
Qed.

Lemma next_route_idx h :
  route_idx ht' h = if decide (route_idx ht h = Z.to_nat sp)
                    then Z.to_nat (if Z.testbit h lvl then sp + 2 ^ lvl else sp) else route_idx ht h.
Proof.
  pose proof (Z.mod_pos_bound h (2 ^ lvl) ltac:(lia)) as Hm.
  rewrite (route_idx_eq ht h) by lia. rewrite Hl, Hs.
  destruct next_route_fields as [(E & Hl' & Hs')|(E & Hl' & Hs')];
    rewrite (route_idx_eq ht' h) by lia; rewrite Hl', Hs'.
  - pose proof (Z.mod_pos_bound h (2 ^ (lvl + 1)) ltac:(apply Z.pow_pos_nonneg; lia)).
    rewrite (proj2 (Z.ltb_ge (h mod 2 ^ (lvl + 1)) 0)) by lia. rewrite mod_next by lia.
    destruct (h mod 2 ^ lvl <? sp) eqn:E2; bool_facts; destruct (Z.testbit h lvl); case_decide; lia.
  - rewrite mod_next by lia. destruct (h mod 2 ^ lvl <? sp + 1) eqn:E1; destruct (h mod 2 ^ lvl <? sp) eqn:E2;
      bool_facts; destruct (Z.testbit h lvl); case_decide; lia.
Qed.

End NextRoute.

(** * The split table *)

Lemma keyed_filter (f : pcache_rec -> bool) l : keyed l -> keyed (List.filter f l).
Proof.
  intros [Hf Hnd]. split.
  - rewrite Forall_forall in *. intros x Hx. apply Hf. apply list_elem_of_In, filter_In in Hx as [Hx _].
    by apply list_elem_of_In.
  - clear Hf. induction l as [|r l IH]; [constructor|]. rewrite fmap_cons in Hnd. apply NoDup_cons in Hnd as [Hn Hnd].
    simpl. destruct (f r); [|auto]. rewrite fmap_cons. constructor; [|auto].
    intros (x & Hx & Hin)%list_elem_of_fmap. apply Hn. apply list_elem_of_fmap. exists x. split; [done|].
    by apply list_elem_of_In, filter_In in Hin as [Hin%list_elem_of_In _].
Qed.

Lemma elem_of_lo lvl l r : r ∈ lo_half lvl l <-> r ∈ l /\ Z.testbit (hash r) lvl = false.
Proof. unfold lo_half. rewrite !list_elem_of_In, filter_In, negb_true_iff. done. Qed.

Lemma elem_of_hi lvl l r : r ∈ hi_half lvl l <-> r ∈ l /\ Z.testbit (hash r) lvl = true.
Proof. unfold hi_half. by rewrite !list_elem_of_In, filter_In. Qed.

Lemma halves_len lvl l : (length (lo_half lvl l) + length (hi_half lvl l) = length l)%nat.
Proof. induction l as [|r l IH]; [done|]. simpl. destruct (Z.testbit (hash r) lvl); simpl; lia. Qed.

Lemma split_rep ht ls l s p :
  ht_rep ht ls -> ls !! Z.to_nat (split ht) = Some l -> zlen ls < PCACHE_CEILING ->
  half_rep s (lo_half (level ht) l) -> half_rep p (hi_half (level ht) l) ->
  let sidx := Z.to_nat (split ht) in
  let ht' := mk_ht (next_route (level ht) (split ht)) (nbuckets ht + 1) (<[sidx := h_chain s]> (chains ht) ++ [h_chain p])
    (<[sidx := h_min s]> (hints ht) ++ [h_min p])
    (add_chained (chained_of (h_n s) + chained_of (h_n p) - chained_of (length l)) (st ht)) in
  ht_rep ht' (<[sidx := lo_half (level ht) l]> ls ++ [hi_half (level ht) l]).
Proof.
  intros Hr Hl Hc [Sc Sn Sm] [Pc Pn Pm] sidx ht'. pose proof (level_nonneg _ _ Hr) as H0.
  pose proof (split_nonneg ht) as Hs0. pose proof (rep_split _ _ Hr) as Hs1. pose proof (rep_len _ _ Hr) as Hlen.
  assert (level ht <= 24) as H24.
  { destruct (Z.le_gt_cases (level ht) 24); [done|]. pose proof (Z.pow_le_mono_r 2 25 (level ht)). unfold PCACHE_CEILING in Hc. lia. }
  pose proof (next_route_fields ht' (level ht) (split ht) (conj H0 H24) (conj Hs0 Hs1) eq_refl) as Hnf.
  pose proof (next_route_idx ht ht' (level ht) (split ht) eq_refl eq_refl (conj H0 H24) (conj Hs0 Hs1) eq_refl) as Hidx.
  pose proof (lookup_lt_Some _ _ _ Hl) as Hlt. pose proof (rep_hints _ _ Hr) as Hhl.
  assert (forall j, (j < length ls)%nat -> hint_at ht' j = if decide (j = sidx) then h_min s else hint_at ht j) as Hhj.
  { intros j Hj. unfold hint_at. simpl. rewrite lookup_app_l by (rewrite length_insert; lia).
    case_decide as E; [subst; rewrite list_lookup_insert_eq by lia; done|by rewrite list_lookup_insert_ne]. }
  assert (hint_at ht' (length ls) = h_min p) as Hhp.
  { unfold hint_at. simpl. rewrite lookup_app_r; rewrite length_insert; [|lia]. by rewrite Hhl, Nat.sub_diag. }
  destruct (rep_ok _ _ Hr _ _ Hl) as [Hok Hk]. rewrite Forall_forall in Hok, Sm, Pm.
  split; try (rewrite ?length_app, ?zlen_app, ?length_insert, ?zlen_insert, ?zlen_cons, ?zlen_nil).
  - simpl. rewrite Sc, Pc, (rep_chains _ _ Hr), fmap_app, list_fmap_insert. done.
  - simpl. rewrite length_app, length_insert. simpl. lia.
  - simpl. rewrite (rep_nb _ _ Hr). lia.
  - exact (next_route_u64 ht ht' (level ht) (split ht) eq_refl (conj H0 H24) (conj Hs0 Hs1) eq_refl).
  - destruct Hnf as [(? & -> & ->)|(? & -> & ->)]; [apply Z.pow_pos_nonneg; lia|lia].
  - destruct Hnf as [(? & -> & ->)|(? & -> & ->)]; [rewrite Z.pow_add_r by lia|]; lia.
  - lia.
  - intros i k Hi. apply lookup_app_Some in Hi as [Hi|[Hge Hi]].
    + apply list_lookup_insert_Some in Hi as [(<- & <- & _)|[Hne Hi]].
      * split; [|by apply keyed_filter]. apply Forall_forall. intros r Hin. pose proof (Sm r Hin).
        apply elem_of_lo in Hin as [Hin Hbit]. destruct (Hok r Hin) as [O1 O2 O3 O4 O5]. split; try done.
        -- rewrite Hidx, O1, Hbit, decide_True by done. done.
        -- rewrite Hhj, decide_True by done. done.
      * assert (i <> Z.to_nat (split ht)) as Hne' by (intros E; apply Hne; symmetry; exact E).
        destruct (rep_ok _ _ Hr _ _ Hi) as [Hok' Hk']. split; [|done]. eapply Forall_impl; [exact Hok'|].
        intros r [O1 O2 O3 O4 O5]. split; try done.
        -- rewrite Hidx, O1, decide_False by exact Hne'. done.
        -- rewrite Hhj, decide_False by first [exact Hne' | by eapply lookup_lt_Some]. done.
    + rewrite length_insert in *. apply list_lookup_singleton_Some in Hi as [Hi <-].
      assert (i = length ls) as -> by lia. split; [|by apply keyed_filter].
      apply Forall_forall. intros r Hin. pose proof (Pm r Hin).
      apply elem_of_hi in Hin as [Hin Hbit]. destruct (Hok r Hin) as [O1 O2 O3 O4 O5]. split; try done.
      * rewrite Hidx, O1, Hbit, decide_True by done. unfold zlen in Hlen. lia.
      * by rewrite Hhp.
  - cbn [ht' st add_chained chained]. rewrite sumz_app, (sumz_insert _ _ _ _ _ Hl), (rep_chained _ _ Hr), Sn, Pn. cbn [sumz foldr]. lia.
  - unfold entries. cbn [ht' st add_chained created destroyed]. rewrite sumz_app, (sumz_insert _ _ _ _ _ Hl).
    pose proof (rep_entries _ _ Hr) as He. unfold entries in He. rewrite He.
    pose proof (halves_len (level ht) l). cbn [sumz foldr]. unfold zlen. lia.
Qed.

Lemma add_chained_0 s : add_chained 0 s = s.
Proof. destruct s. unfold add_chained. simpl. by rewrite Z.add_0_r. Qed.

Lemma split_lookup ht ht' ls l k :
  ht_rep ht ls -> ls !! Z.to_nat (split ht) = Some l ->
  ht_rep ht' (<[Z.to_nat (split ht) := lo_half (level ht) l]> ls ++ [hi_half (level ht) l]) ->
  ht_lookup ht' k = ht_lookup ht k.
Proof.
  intros Hr Hl Hr'. pose proof (lookup_lt_Some _ _ _ Hl) as Hlt. apply option_eq. intros r.
  rewrite (ht_lookup_spec _ _ _ _ Hr), (ht_lookup_spec _ _ _ _ Hr').
  apply and_iff_compat_l. split.
  - intros (i & m & Hi & Hin). apply lookup_app_Some in Hi as [Hi|[_ Hi]].
    + apply list_lookup_insert_Some in Hi as [(<- & <- & _)|[_ Hi]]; [|eauto].
      apply elem_of_lo in Hin as [? _]. eauto.
    + apply list_lookup_singleton_Some in Hi as [_ <-]. apply elem_of_hi in Hin as [? _]. eauto.
  - intros (i & m & Hi & Hin). destruct (decide (i = Z.to_nat (split ht))) as [->|Hne].
    + simplify_eq. destruct (Z.testbit (hash r) (level ht)) eqn:E.
      * exists (length ls), (hi_half (level ht) l). split; [|by apply elem_of_hi].
        rewrite lookup_app_r; rewrite length_insert; [|done]. by rewrite Nat.sub_diag.
      * exists (Z.to_nat (split ht)), (lo_half (level ht) l). split; [|by apply elem_of_lo].
        rewrite lookup_app_l by (by rewrite length_insert). by rewrite list_lookup_insert_eq.
    + exists i, m. split; [|done]. rewrite lookup_app_l by (rewrite length_insert; by eapply lookup_lt_Some).
      by rewrite list_lookup_insert_ne.
Qed.

Lemma split_outcome ht seg_ok scratch_ok :
  ht_wf ht ->
  exists rc ht', pcache_ht_split ht seg_ok scratch_ok = Some (rc, ht') /\ ht_wf ht' /\
    (forall k, ht_lookup ht' k = ht_lookup ht k) /\ entries ht' = entries ht /\
    ((rc = 1 /\ nbuckets ht' = nbuckets ht + 1) \/
     (ht' = ht /\ ((rc = 0 /\ nbuckets ht = PCACHE_CEILING) \/ (rc = -1 /\ (seg_ok = false \/ scratch_ok = false))))).
Proof.
  intros [ls Hr]. unfold pcache_ht_split. cbv zeta. pose proof (level_nonneg _ _ Hr) as H0.
  pose proof (split_nonneg ht) as Hs0. pose proof (rep_split _ _ Hr) as Hs1. pose proof (rep_len _ _ Hr) as Hlen.
  rewrite Z.shiftl_1_l. destruct (split ht + 2 ^ level ht >=? PCACHE_CEILING) eqn:Ec; bool_facts.
  { exists 0, ht. split_and!; [done|by eexists|done|done|]. right. split; [done|]. left. split; [done|].
    rewrite (rep_nb _ _ Hr). pose proof (rep_ceiling _ _ Hr). lia. }
  destruct seg_ok; cbn [negb]; [|exists (-1), ht; split_and!; [done|by eexists|done|done|right; auto]].
  destruct scratch_ok; cbn [negb]; [|exists (-1), ht; split_and!; [done|by eexists|done|done|right; auto]].
  assert (Z.to_nat (split ht) < length ls)%nat as Hlt by (unfold zlen in Hlen; lia).
  destruct (lookup_lt_is_Some_2 ls _ Hlt) as [l Hl].
  assert (bucket_at ht (Z.to_nat (split ht)) = layout l) as Hb.
  { unfold bucket_at. by rewrite (rep_chains _ _ Hr), list_lookup_fmap, Hl. }
  rewrite Hb, chain_tail_layout, chain_recs_layout, layout_len. cbn [snd].
  destruct (split_lay_rep (level ht) l half_zero half_zero [] [] (S (ovf (length l)) - 1) half_zero_rep half_zero_rep)
    as (s & p & sp & -> & Hs & Hp); [cbn [length]; change (0 + 0 + length l)%nat with (length l); lia|]. simpl app in Hs, Hp.
  assert (zlen ls < PCACHE_CEILING) as Hc by lia.
  pose proof (split_rep ht ls l s p Hr Hl Hc Hs Hp) as Hrep. cbv zeta in Hrep.
  rewrite <- (Z.shiftl_1_l (level ht)). fold (next_route (level ht) (split ht)).
  eexists 1, _. split; [reflexivity|].
  set (dc := chained_of (h_n s) + chained_of (h_n p) - chained_of (length l)) in *.
  match goal with |- context [if dc =? 0 then ?h else _] => set (ht1 := h) end.
  assert ((if dc =? 0 then ht1 else count ht1 (add_chained dc)) = count ht1 (add_chained dc)) as ->.
  { destruct (dc =? 0) eqn:E; bool_facts; [|done]. rewrite E. unfold count. rewrite add_chained_0. by unfold ht1. }
  split_and!; [by eexists|intros k; by eapply split_lookup|done|by left].
Qed.

Lemma grow_loop_outcome ents pct ht seg_ok budget did :
  ht_wf ht ->
  exists n ht', grow_loop ents pct ht seg_ok budget did = Some (did + Z.of_nat n, ht') /\ (n <= budget)%nat /\
    ht_wf ht' /\ (forall k, ht_lookup ht' k = ht_lookup ht k) /\ nbuckets ht' = nbuckets ht + Z.of_nat n /\
    (n = budget \/ ents * 100 <= pct * 6 * nbuckets ht' \/ nbuckets ht' = PCACHE_CEILING \/ false ∈ seg_ok).
Proof.
  revert ht seg_ok did. induction budget as [|b IH]; intros ht seg_ok did Hw; cbn [grow_loop].
  { exists 0%nat, ht. rewrite Z.add_0_r. split_and!; try done; [lia|by left]. }
  change (Z.of_nat PCACHE_SLOTS) with 6.
  destruct (ents * 100 >? pct * 6 * nbuckets ht) eqn:E; bool_facts.
  2: { exists 0%nat, ht. rewrite Z.add_0_r. split_and!; try done; lia. }
  destruct (split_outcome ht (default true (head seg_ok)) true Hw) as (rc & ht' & -> & Hw' & Hlk & _ & Hrc).
  destruct Hrc as [[-> Hnb]|(-> & [[-> Hc]|[-> Hseg]])]; cbn [Z.leb Z.compare].
  - destruct (IH ht' (tail seg_ok) (did + 1) Hw') as (n & ht2 & -> & Hn & Hw2 & Hlk2 & Hnb2 & Hend).
    exists (S n), ht2. split_and!; [f_equal; f_equal; lia|lia|done|intros; by rewrite Hlk2|lia|].
    destruct Hend as [->|[?|[?|Hin]]]; auto. right. right. right. destruct seg_ok; [done|]. by right.
  - exists 0%nat, ht. rewrite Z.add_0_r. split_and!; try done; [lia|lia|]. auto.
  - exists 0%nat, ht. rewrite Z.add_0_r. split_and!; try done; [lia|lia|]. right. right. right.
    destruct seg_ok as [|x seg_ok]; simpl in Hseg; [by destruct Hseg|]. destruct Hseg as [->|]; [left|done].
Qed.

Lemma grow_at_outcome ht pct budget seg_ok :
  ht_wf ht ->
  exists n ht', pcache_ht_grow_at ht pct budget seg_ok = Some (Z.of_nat n, ht') /\ (n <= budget)%nat /\
    ht_wf ht' /\ (forall k, ht_lookup ht' k = ht_lookup ht k) /\ nbuckets ht' = nbuckets ht + Z.of_nat n /\
    (pct = 0 \/ n = budget \/ entries ht * 100 <= Z.min pct 100 * 6 * nbuckets ht' \/
     nbuckets ht' = PCACHE_CEILING \/ false ∈ seg_ok).
Proof.
  intros Hw. unfold pcache_ht_grow_at. destruct (pct =? 0) eqn:E; bool_facts.
  { exists 0%nat, ht. split_and!; try done; try lia. }
  assert ((if pct >? 100 then 100 else pct) = Z.min pct 100) as -> by (destruct (pct >? 100) eqn:E2; bool_facts; lia).
  destruct (grow_loop_outcome (entries ht) (Z.min pct 100) ht seg_ok budget 0 Hw) as (n & ht' & H1 & H2 & H3 & H4 & H5 & H6).
  exists n, ht'. rewrite H1. split_and!; try done. by right.
Qed.

(** C25. A split: it always returns - its spare buckets are never short - and the
    table it leaves is well formed, has one bucket more and answers every key
    with the record it had; at the ceiling or out of memory it changes nothing. *)
Theorem ht_split_spec ht seg_ok scratch_ok :
  ht_wf ht ->
  exists rc ht', pcache_ht_split ht seg_ok scratch_ok = Some (rc, ht') /\ ht_wf ht' /\
    (forall k, ht_lookup ht' k = ht_lookup ht k) /\ entries ht' = entries ht /\
    ((rc = 1 /\ nbuckets ht' = nbuckets ht + 1) \/
     (ht' = ht /\ ((rc = 0 /\ nbuckets ht = PCACHE_CEILING) \/ (rc = -1 /\ (seg_ok = false \/ scratch_ok = false))))).
Proof. apply split_outcome. Qed.

(** Growth: it makes at most its budget of splits, changes no answer, and
    stops early only at its target load, at the ceiling or out of memory. *)
Theorem ht_grow_spec ht pct budget seg_ok :
  ht_wf ht ->
  exists n ht', pcache_ht_grow_at ht pct budget seg_ok = Some (Z.of_nat n, ht') /\ (n <= budget)%nat /\
    ht_wf ht' /\ (forall k, ht_lookup ht' k = ht_lookup ht k) /\ nbuckets ht' = nbuckets ht + Z.of_nat n /\
    (pct = 0 \/ n = budget \/ entries ht * 100 <= Z.min pct 100 * 6 * nbuckets ht' \/
     nbuckets ht' = PCACHE_CEILING \/ false ∈ seg_ok).
Proof. apply grow_at_outcome. Qed.
