(* ===== verification/HtApi.v ===== *)
(** The table's public operations: [src/src/core/pcache_htable.c], with the
    drain of a resize.

    While a table is being resized it keeps the old table as [drain_from]: a
    write first carries the key's newer copy over ([drain_carry]) and drops the
    old copy afterwards ([drain_forget]); a read takes the newer of the two
    ([fetch_main]).  This file composes the locked bodies of [HtTable] the way
    the code does and states the properties of the whole. *)

From stdpp Require Import base tactics list numbers sets.
From S2P Require Import Prelude HtBase HtChain Lamport HtTable HtGrow.
#[local] Open Scope Z_scope.

(** [pcache_htable_new]: [None] past the directory's ceiling (or refused memory). *)
Definition PCACHE_MAX_SIZE_LOG2 : Z := 24.

Definition pcache_htable_new (size_log2 : Z) (room : bool) : option pcache_htable :=
  if size_log2 >? PCACHE_MAX_SIZE_LOG2 then None
  else if negb room then None
  else
    let n := Z.to_nat (Z.shiftl 1 size_log2) in
    Some (mk_ht (Z.shiftl size_log2 32) (Z.shiftl 1 size_log2) (replicate n [bkt_zero]) (replicate n 0)
            (mk_st 0 0 0 0 0 0 0 0 0)).

Record tables := mk_tabs { main : pcache_htable; drain_from : option pcache_htable }.

Definition PCACHE_F_CARRY : Z := 0xBC.     (* the type bits and SHORTENED *)

Section Api.
Context {C : Type} `{LC : Lamport C}.

(** What the allocators answer to one operation: the carried copy's cell and
    overflow bucket, then the operation's own. *)
Record mem := mk_mem { m_cell0 : bool; m_node0 : bool; m_cell : bool; m_node : bool }.

(** A counter is carried as the decimal the walk prints of it. *)
Definition carry_val (r : pcache_rec) : bytes :=
  if has_flag (rflags r) PCACHE_F_INT && (zlen (rval r) =? 8) then print_ll (ll_of (rval r)) else rval r.

Definition carry_req (r : pcache_rec) : store_req :=
  mk_sreq (rkey r) (carry_val r) (expires r) (Z.land (rflags r) (Z.lor PCACHE_F_PASSIVE PCACHE_F_CARRY))
    (ver r) true true (wtick r).

(** [store_body] of a copy: no carry of its own. *)
Definition store_copy_body (ht : pcache_htable) (e : wenv C) (q : store_req) (cell_ok node_ok : bool)
    : Z * pcache_htable * wenv C :=
  if oversize (zlen (skey q)) (zlen (sval q)) then (-1, ht, e) else store_locked ht e q cell_ok node_ok.

Definition drain_carry (t : tables) (e : wenv C) (key : bytes) (m : mem) : tables * wenv C :=
  match drain_from t with
  | None => (t, e)
  | Some dr =>
      let now := ticks e in
      let '(i, fo) := fetch_core (main t) key None false now in
      let nver := if i =? -2 then 0 else fo_ver fo in
      let h := pcache_key_hash key in
      match chain_find_rec (bucket_at dr (route_idx dr h)) key h with
      | Some (_, _, r) =>
          if ((expires r =? 0) || (expires r >? now)) && (ver r >? nver) then
            let '(_, ht, e) := store_copy_body (main t) e (carry_req r) (m_cell0 m) (m_node0 m) in
            (mk_tabs ht (Some dr), e)
          else (t, e)
      | None => (t, e)
      end
  end.

Definition drain_forget (t : tables) (e : wenv C) (key : bytes) : tables * wenv C :=
  match drain_from t with
  | None => (t, e)
  | Some dr =>
      match getver_one (main t) key 0 with
      | Some (v, _) =>
          if v =? 0 then (t, e)
          else let '(_, dr, e) := pcache_ht_remove_below dr e key (u64 (v + 1)) in (mk_tabs (main t) (Some dr), e)
      | None => (t, e)
      end
  end.

Definition store_body (t : tables) (e : wenv C) (q : store_req) (m : mem) : Z * tables * wenv C :=
  if oversize (zlen (skey q)) (zlen (sval q)) then (-1, t, e)
  else
    let '(t, e) := if keep_wt q then (t, e) else drain_carry t e (skey q) m in
    let '(rc, ht, e) := store_locked (main t) e q (m_cell m) (m_node m) in
    (rc, mk_tabs ht (drain_from t), e).

Definition store_impl (t : tables) (e : wenv C) (q : store_req) (m : mem) : Z * tables * wenv C :=
  let '(rc, t, e) := store_body t e q m in
  let '(t, e) := drain_forget t e (skey q) in
  (rc, t, e).

Definition pcache_ht_store_ex t e key val exp rflags m := store_impl t e (mk_sreq key val exp rflags 0 false false 0) m.
Definition pcache_ht_store t e key val exp m := pcache_ht_store_ex t e key val exp 0 m.
Definition pcache_ht_store_ver t e key val exp rflags v m := store_impl t e (mk_sreq key val exp rflags v true false 0) m.
Definition pcache_ht_store_copy t e key val exp rflags v wt m := store_impl t e (mk_sreq key val exp rflags v true true wt) m.

Definition pcache_ht_add_ex (t : tables) (e : wenv C) (key : bytes) (delta exp : Z) (m : mem)
    : Z * tables * wenv C * option (Z * Z) :=
  let '(rc, t, e, out) :=
    if zlen key >? 0xFFFF then (-1, t, e, None)
    else
      let '(t, e) := drain_carry t e key m in
      let '(rc, ht, e, out) := add_locked (main t) e key delta exp (m_cell m) (m_node m) in
      (rc, mk_tabs ht (drain_from t), e, out) in
  let '(t, e) := drain_forget t e key in
  (rc, t, e, out).

Definition touch_inner (t : tables) (e : wenv C) (key : bytes) (exp : Z) (adopt : bool) (m : mem)
    : Z * tables * wenv C * bool :=
  let '(t, e) := drain_carry t e key m in
  let '(rc, ht, e, was) := touch_locked (main t) e key exp adopt in
  let '(t, e) := drain_forget (mk_tabs ht (drain_from t)) e key in
  (rc, t, e, was).

Definition pcache_ht_touch t e key exp m := (touch_inner t e key exp false m).1.
Definition pcache_ht_touch_adopt t e key exp m := touch_inner t e key exp true m.

Definition pcache_ht_setver (t : tables) (e : wenv C) (key : bytes) (v : Z) (m : mem) : Z * tables * wenv C :=
  let '(t, e) := drain_carry t e key m in
  let '(rc, ht) := setver_locked (main t) key v in
  let '(t, e) := drain_forget (mk_tabs ht (drain_from t)) e key in
  (rc, t, e).

End Api.

Arguments mk_mem : clear implicits.

(** [getver_impl]: the newer of the two tables' versions. *)
Definition getver_impl (t : tables) (key : bytes) (now : Z) : option (Z * Z) :=
  let rc := getver_one (main t) key now in
  match drain_from t with
  | None => rc
  | Some dr =>
      match rc, getver_one dr key now with
      | None, r => r
      | Some (v, w), Some (vo, wo) => if vo >? v then Some (vo, wo) else Some (v, w)
      | Some r, None => Some r
      end
  end.

(** [fetch_main]: the table's own read, the drained table's on a miss and when
    its copy is newer. *)
Definition fetch_main (t : tables) (key : bytes) (dst : option Z) (ll : bool) (now : Z) : Z * fetch_out :=
  let '(rc, fo) := fetch_core (main t) key dst ll now in
  match drain_from t with
  | None => (rc, fo)
  | Some dr =>
      if negb (rc =? -2) then
        let '(r2, lo) := fetch_core dr key None false now in
        if (0 <=? r2) && (fo_ver lo >? fo_ver fo) then
          let '(r3, fo3) := fetch_core dr key dst ll now in
          if r3 =? r2 then (r2, fo3) else fetch_core (main t) key dst ll now
        else (rc, fo)
      else fetch_core dr key dst ll now
  end.

(** * The invariant over both tables *)

(** Every native counter of the table is eight bytes. *)
Definition ints_ok (ht : pcache_htable) : Prop := forall k r, ht_lookup ht k = Some r -> int_ok r.

Definition table_ok (ht : pcache_htable) : Prop := ht_wf ht /\ ints_ok ht.

Record tabs_ok (t : tables) : Prop := {
  to_main : table_ok (main t);
  to_drain : forall dr, drain_from t = Some dr -> table_ok dr;
}.

(** A request the callers make: a value of bytes, no raw-counter flag. *)
Record req_ok (q : store_req) : Prop := {
  rq_bytes : bytes_ok (sval q);
  rq_flags : has_flag (sflags q) PCACHE_F_INT = false;
}.

Lemma updates_table_ok ht ht' k v :
  table_ok ht -> ht_updates ht ht' k v -> (forall r, v = Some r -> int_ok r) -> table_ok ht'.
Proof.
  intros [Hw Hi] [Hw' Hl] Hv. split; [done|]. intros k' r E. rewrite Hl in E.
  case_decide; [by apply Hv|by eapply Hi].
Qed.

Lemma lookup_rec_ok ht k r :
  ht_wf ht -> ht_lookup ht k = Some r ->
  rkey r = k /\ rec_sized r /\ bytes_ok (rval r) /\ zlen k <= 0xFFFF /\ hash r = pcache_key_hash k.
Proof.
  intros [ls Hr] Hl. apply (ht_lookup_spec _ _ _ _ Hr) in Hl as (<- & i & l & Hi & Hin).
  destruct (rep_ok _ _ Hr _ _ Hi) as [Hf [Hh _]]. rewrite Forall_forall in Hf, Hh.
  destruct (Hf r Hin) as [? ? ? ? ?]. split_and!; auto.
Qed.

Lemma u8_bit0 x : Z.testbit (u8 x) 0 = Z.testbit x 0.
Proof. unfold u8. by rewrite Z.mod_pow2_bits_low. Qed.

Section ApiLaws.
Context {C : Type} `{LC : Lamport C}.

Lemma stored_no_int (e : wenv C) q old r : req_ok q -> stored e q old r -> has_flag (rflags r) PCACHE_F_INT = false.
Proof.
  intros [_ Hf] [_ _ _ Hfl _ _]. rewrite flag_int in *. rewrite Hfl. destruct old as [o|]; [|done].
  by rewrite u8_bit0, Z.lor_spec, Hf, shortened_testbit by auto.
Qed.

Lemma stored_int_ok (e : wenv C) q old r : req_ok q -> stored e q old r -> int_ok r.
Proof. intros Hq Hs Hi. pose proof (stored_no_int _ _ _ _ Hq Hs). congruence. Qed.

Lemma store_locked_ok ht (e : wenv C) q cell_ok node_ok :
  table_ok ht -> req_ok q -> oversize (zlen (skey q)) (zlen (sval q)) = false ->
  table_ok (store_locked ht e q cell_ok node_ok).1.2.
Proof.
  intros Hok Hq Hov. pose proof (store_locked_outcome ht e q cell_ok node_ok (proj1 Hok) (rq_bytes _ Hq) Hov) as Ho.
  unfold store_outcome in Ho.
  assert (forall old ht', (exists r, stored e q old r /\ ht_updates ht ht' (skey q) (Some r)) -> table_ok ht') as Hup.
  { intros old ht' (r & Hs & Hu). eapply updates_table_ok; [done..|]. intros ? [= <-]. by eapply stored_int_ok. }
  destruct (ht_lookup ht (skey q)) as [old|].
  - destruct (use_ver q && _); [destruct Ho as [_ ->]; done|].
    destruct (fits_old q old || cell_ok); [destruct Ho as [_ Ho]; by eapply Hup|by destruct Ho as [_ ->]].
  - destruct Ho as [(_ & -> & _)|(_ & _ & Ho)]; [done|by eapply Hup].
Qed.

Lemma carry_req_ok r : bytes_ok (rval r) -> req_ok (carry_req r).
Proof.
  intros Hb. split; cbn [carry_req sval sflags].
  - unfold carry_val. destruct (has_flag _ _ && _); [|done]. apply print_ll_ok.
  - rewrite flag_int, Z.land_spec. by rewrite andb_false_r.
Qed.

(** A record a read at [now] sees. *)
Definition live (now : Z) (r : pcache_rec) : bool := (expires r =? 0) || (expires r >? now).

Lemma live_spec now r : live now r = negb (negb (expires r =? 0) && (expires r <=? now)).
Proof. unfold live. rewrite Z.gtb_ltb, Z.leb_antisym. destruct (expires r =? 0); [done|]. by destruct (now <? expires r). Qed.

(** What a probe of a table says of a key's version. *)
Lemma probe_ver ht key now :
  ht_wf ht ->
  (let '(i, fo) := fetch_core ht key None false now in if i =? -2 then 0 else fo_ver fo) =
  match ht_lookup ht key with Some r => if live now r then ver r else 0 | None => 0 end.
Proof.
  intros Hw. rewrite (fetch_outcome ht key None false now Hw). destruct (ht_lookup ht key) as [r|]; [|done].
  unfold read_rec. rewrite live_spec. destruct (negb (expires r =? 0) && _); [done|]. by destruct (has_flag _ _ && _).
Qed.

Lemma find_lookup ht k :
  match chain_find_rec (bucket_at ht (route_idx ht (pcache_key_hash k))) k (pcache_key_hash k) with
  | Some (_, _, r) => ht_lookup ht k = Some r
  | None => ht_lookup ht k = None
  end.
Proof. unfold ht_lookup. by destruct (chain_find_rec _ _ _) as [[[w i] r]|]. Qed.

Lemma getver_lookup ht key now :
  getver_one ht key now = match ht_lookup ht key with
    | Some r => if live now r then Some (ver r, wtick r) else None | None => None end.
Proof.
  unfold getver_one. cbv zeta. pose proof (find_lookup ht key) as Hf.
  destruct (chain_find_rec _ _ _) as [[[w i] r]|]; by rewrite Hf.
Qed.

Lemma carry_fits ht key r : ht_wf ht -> ht_lookup ht key = Some r -> oversize (zlen (rkey r)) (zlen (carry_val r)) = false.
Proof.
  intros Hw Hl. destruct (lookup_rec_ok _ _ _ Hw Hl) as (<- & Hs & _ & Hk & _). unfold oversize, carry_val.
  unfold rec_sized in Hs. pose proof (cell_bound_max (cls r)). pose proof (print_ll_len (ll_of (rval r))).
  unfold PCACHE_REC_SIZE, PCACHE_REC_HDR, PCACHE_CELL_MAX in *.
  destruct (has_flag _ _ && _); rewrite !Z.gtb_ltb; btrue; done.
Qed.

Lemma count_inplace_same (e : wenv C) nr : ticks (count_inplace e nr) = ticks e /\ clk (count_inplace e nr) = clk e.
Proof. by destruct nr. Qed.

(** A copy's store leaves the ticks alone and moves the clock by one observe. *)
Lemma store_locked_env ht (e : wenv C) q c n :
  use_ver q = true ->
  ticks (store_locked ht e q c n).2 = ticks e /\
  clk (store_locked ht e q c n).2 = pc_lamport_observe (sver q) (clk e).
Proof.
  intros Huv. unfold store_locked. cbv zeta. set (nr := cell_alloc _ c).
  assert (ticks (store_env e q nr) = ticks e /\ clk (store_env e q nr) = pc_lamport_observe (sver q) (clk e)) as [H1 H2].
  { unfold store_env. rewrite Huv. by destruct nr. }
  unfold write_ver. rewrite Huv. destruct (chain_find_rec _ _ _) as [[[w i] old]|]; repeat case_match; cbn [snd];
    rewrite ?(proj1 (count_inplace_same _ _)), ?(proj2 (count_inplace_same _ _)); done.
Qed.

(** The carry: the drained table is untouched, other keys too, and a live copy
    there leaves the main table one at least as new. *)
Lemma drain_carry_spec t (e : wenv C) key m t' e' :
  tabs_ok t -> drain_carry t e key m = (t', e') ->
  tabs_ok t' /\ drain_from t' = drain_from t /\ ticks e' = ticks e /\
  (forall k, k <> key -> ht_lookup (main t') k = ht_lookup (main t) k) /\
  (clk e' = clk e \/ exists dr r, drain_from t = Some dr /\ ht_lookup dr key = Some r /\
     clk e' = pc_lamport_observe (ver r) (clk e)) /\
  (forall r', ht_lookup (main t') key = Some r' -> ht_lookup (main t) key = Some r' \/
     exists dr r, drain_from t = Some dr /\ ht_lookup dr key = Some r /\ ver r' = ver r) /\
  (m_cell0 m = true -> m_node0 m = true -> forall dr r, drain_from t = Some dr -> ht_lookup dr key = Some r ->
     live (ticks e) r = true -> 0 < ver r ->
     exists r', ht_lookup (main t') key = Some r' /\ ver r <= ver r').
Proof.
  intros Ht. unfold drain_carry. destruct (drain_from t) as [dr|] eqn:Ed.
  2: { intros [= <- <-]. split_and!; try done; auto; intros; congruence. }
  destruct (to_main _ Ht) as [Hw Hi]. destruct (to_drain _ Ht dr Ed) as [Hwd Hid].
  pose proof (probe_ver (main t) key (ticks e) Hw) as Hp. destruct (fetch_core (main t) key None false (ticks e)) as [i fo].
  cbv zeta. rewrite Hp. clear Hp. pose proof (find_lookup dr key) as Hf.
  set (nver := match ht_lookup (main t) key with Some _ => _ | None => _ end).
  assert (forall k r', ht_lookup (main t) k = Some r' -> live (ticks e) r' = true -> k = key -> nver = ver r') as Hnv
    by (intros k r' E El ->; unfold nver; by rewrite E, El).
  destruct (chain_find_rec _ _ _) as [[[w j] r]|].
  2: { intros [= <- <-]. split_and!; try done; auto; intros; congruence. }
  fold (live (ticks e) r). destruct (live (ticks e) r && (ver r >? nver)) eqn:Ec.
  2: { intros [= <- <-]. split_and!; try done; auto. intros _ _ dr' r0 [= <-] Hr0 Hl Hpos. rewrite Hf in Hr0. injection Hr0 as <-.
       rewrite Hl in Ec. cbn [andb] in Ec. bool_facts. unfold nver in Ec. destruct (ht_lookup (main t) key) as [r'|]; [|lia].
       destruct (live (ticks e) r'); [eauto|lia]. }
  bool_facts. unfold store_copy_body. cbn [carry_req skey sval]. rewrite (carry_fits dr key r Hwd Hf). fold (carry_req r).
  destruct (lookup_rec_ok _ _ _ Hwd Hf) as (Hk & _ & Hb & _ & _).
  pose proof (store_locked_outcome (main t) e (carry_req r) (m_cell0 m) (m_node0 m) Hw (rq_bytes _ (carry_req_ok r Hb)) (carry_fits dr key r Hwd Hf)) as Ho.
  pose proof (store_locked_ok (main t) e (carry_req r) (m_cell0 m) (m_node0 m) (conj Hw Hi) (carry_req_ok r Hb) (carry_fits dr key r Hwd Hf)) as Htok.
  pose proof (store_locked_env (main t) e (carry_req r) (m_cell0 m) (m_node0 m) eq_refl) as [Htk Hck].
  destruct (store_locked (main t) e (carry_req r) (m_cell0 m) (m_node0 m)) as [[rc ht] e2]. cbn [fst snd] in *.
  intros [= <- <-]. cbn [main drain_from]. unfold store_outcome in Ho. cbn [carry_req skey sver use_ver] in Ho, Hck. rewrite Hk in Ho.
  assert (ht = main t \/ exists r', ver r' = ver r /\ ht_updates (main t) ht key (Some r')) as Hcase.
  { assert (forall o, (exists r', stored e (carry_req r) o r' /\ ht_updates (main t) ht key (Some r')) ->
      exists r', ver r' = ver r /\ ht_updates (main t) ht key (Some r')) as Hst.
    { intros o (r' & Hs & Hu). exists r'. split; [apply Hs|done]. }
    destruct (ht_lookup (main t) key) as [old|]; [destruct (true && _); [naive_solver|]; destruct (fits_old _ _ || _)|]; naive_solver. }
  split_and!.
  - split; [done|]. cbn. intros ? [= <-]. done.
  - done.
  - done.
  - intros k Hne. destruct Hcase as [->|(r' & _ & Hu)]; [done|]. by rewrite (proj2 Hu), decide_False.
  - right. eauto 6.
  - intros r' Hr'. destruct Hcase as [->|(r2 & Hv & Hu)]; [by left|]. right.
    rewrite (proj2 Hu), decide_True in Hr' by done. injection Hr' as <-. eauto 6.
  - intros Hc0 Hn0 dr' r0 [= <-] Hr0 _ Hpos. rewrite Hf in Hr0. injection Hr0 as <-. rewrite Hc0, Hn0 in Ho.
    destruct (ht_lookup (main t) key) as [old|] eqn:El; cbn [andb] in Ho.
    + destruct (ver old >=? ver r) eqn:Eo; bool_facts.
      * destruct Ho as [_ ->]. eauto.
      * rewrite orb_true_r in Ho. destruct Ho as (_ & r' & Hs & Hu). exists r'. rewrite (proj2 Hu), decide_True by done.
        split; [done|]. rewrite (st_ver _ _ _ _ Hs). cbn. lia.
    + destruct Ho as [(_ & _ & [?|?])|(_ & _ & r' & Hs & Hu)]; [done..|]. exists r'. rewrite (proj2 Hu), decide_True by done.
      split; [done|]. rewrite (st_ver _ _ _ _ Hs). cbn. lia.
Qed.

(** The forget: the main table and the environment are untouched, and what is
    left of the key in the drained table is newer than the main table's. *)
Lemma drain_forget_spec t (e : wenv C) key t' e' :
  tabs_ok t -> drain_forget t e key = (t', e') ->
  tabs_ok t' /\ main t' = main t /\ e' = e /\
  (forall dr', drain_from t' = Some dr' -> exists dr, drain_from t = Some dr /\
     (forall k, k <> key -> ht_lookup dr' k = ht_lookup dr k) /\
     (forall o, ht_lookup dr' key = Some o -> ht_lookup dr key = Some o /\
        forall r, ht_lookup (main t) key = Some r -> 0 <= expires r -> 0 < ver r < 2 ^ 64 - 1 -> ver r < ver o)).
Proof.
  intros Ht. unfold drain_forget. destruct (drain_from t) as [dr|] eqn:Ed.
  2: { intros [= <- <-]. split_and!; try done. intros; congruence. }
  rewrite getver_lookup. destruct (to_drain _ Ht dr Ed) as [Hwd Hid].
  assert ((forall r, ht_lookup (main t) key = Some r -> 0 <= expires r -> 0 < ver r -> False) ->
    forall dr', drain_from t = Some dr' -> exists dr0, Some dr = Some dr0 /\
     (forall k, k <> key -> ht_lookup dr' k = ht_lookup dr0 k) /\
     (forall o, ht_lookup dr' key = Some o -> ht_lookup dr0 key = Some o /\
        forall r, ht_lookup (main t) key = Some r -> 0 <= expires r -> 0 < ver r < 2 ^ 64 - 1 -> ver r < ver o)) as Hstay.
  { intros Hno dr' E. exists dr'. split_and!; [congruence|done|]. intros o Ho. split; [done|]. intros r Hr He Hv. exfalso. eapply Hno; [done..|lia]. }
  destruct (ht_lookup (main t) key) as [r|] eqn:Er.
  2: { intros [= <- <-]. split_and!; try done. by apply Hstay. }
  destruct (live 0 r) eqn:El.
  2: { intros [= <- <-]. split_and!; try done. apply Hstay. intros ? [= <-] He _. unfold live in El. apply orb_false_elim in El as [? ?]. bool_facts. lia. }
  destruct (ver r =? 0) eqn:Ev; bool_facts.
  { intros [= <- <-]. split_and!; try done. apply Hstay. intros ? [= <-] _ ?. lia. }
  unfold pcache_ht_remove_below. destruct (u64 (ver r + 1) =? 0) eqn:Eb; bool_facts.
  { intros [= <- <-]. split_and!; [split; [apply Ht|cbn; by intros ? [= <-]]|done|done|]. intros dr' E. exists dr. cbn in E. injection E as <-. split_and!; [done..|].
    intros o Ho. split; [done|]. intros ? [= <-] _ Hv. rewrite u64_id in Eb; [lia|unfold is_u64; lia]. }
  pose proof (remove_outcome dr e key (u64 (ver r + 1)) true Hwd) as Ho.
  destruct (remove_impl dr e key (u64 (ver r + 1)) true) as [[rc dr2] e2]. intros [= <- <-].
  assert (table_ok dr2 /\ e2 = e /\ (forall k, k <> key -> ht_lookup dr2 k = ht_lookup dr k) /\
    forall o, ht_lookup dr2 key = Some o -> ht_lookup dr key = Some o /\ u64 (ver r + 1) <= ver o) as (Hok2 & -> & Hne & Ho2).
  { destruct (ht_lookup dr key) as [o|] eqn:Eo; [destruct (negb (u64 (ver r + 1) =? 0) && (ver o >=? u64 (ver r + 1))) eqn:Ec|].
    - destruct Ho as (_ & -> & ->). bool_facts. split_and!; try done. rewrite Eo. by intros ? [= <-].
    - destruct Ho as (_ & Hu & ->). split_and!; try done; [by eapply updates_table_ok|..].
      + intros k Hk. by rewrite (proj2 Hu), decide_False.
      + rewrite (proj2 Hu), decide_True by done. done.
    - destruct Ho as (_ & -> & ->). split_and!; try done. by rewrite Eo. }
  cbn [main drain_from]. split_and!; try done.
  - split; [apply Ht|]. cbn. intros ? [= <-]. done.
  - intros dr' [= <-]. exists dr. split_and!; try done. intros o Hl. destruct (Ho2 o Hl) as [Hod Hle]. split; [done|].
    intros ? [= <-] _ Hv. rewrite u64_id in Hle; [lia|unfold is_u64; lia].
Qed.

Lemma store_impl_alone ht (e : wenv C) q m :
  store_impl (mk_tabs ht None) e q m =
    if oversize (zlen (skey q)) (zlen (sval q)) then (-1, mk_tabs ht None, e)
    else let '(rc, ht', e') := store_locked ht e q (m_cell m) (m_node m) in (rc, mk_tabs ht' None, e').
Proof.
  unfold store_impl, store_body, drain_carry. destruct (oversize _ _); [done|]. cbn [drain_from].
  destruct (keep_wt q); cbn [main drain_from]; by destruct (store_locked ht e q (m_cell m) (m_node m)) as [[? ?] ?].
Qed.


(** Insert, then look up: after a store that answers 0, a read of the key
    before its expiry returns the stored bytes, expiry and version in a buffer
    that holds them, and reports the length a smaller one would need; reads of
    every other key answer as before. *)
Theorem ht_store_fetch ht (e : wenv C) q m cap now :
  table_ok ht -> req_ok q -> (sexp q = 0 \/ now < sexp q) ->
  let '(rc, t', e') := store_impl (mk_tabs ht None) e q m in
  rc = 0 ->
  (exists fo, fetch_core (main t') (skey q) (Some cap) true now =
      ((if zlen (sval q) >? cap then PCACHE_E_TOOSMALL else 0), fo) /\
    fo_vlen fo = zlen (sval q) /\ fo_exp fo = sexp q /\
    (zlen (sval q) <= cap -> fo_dst fo = sval q) /\
    (use_ver q = true -> fo_ver fo = sver q)) /\
  forall k dst ll now', k <> skey q -> fetch_core (main t') k dst ll now' = fetch_core ht k dst ll now'.
Proof.
  intros Hok Hq Hexp. rewrite store_impl_alone. destruct (oversize _ _) eqn:Hov; [done|].
  pose proof (store_locked_outcome ht e q (m_cell m) (m_node m) (proj1 Hok) (rq_bytes _ Hq) Hov) as Ho.
  destruct (store_locked _ _ _ _ _) as [[rc ht'] e']. intros ->. cbn [fst snd main] in *.
  assert (exists old r, stored e q old r /\ ht_updates ht ht' (skey q) (Some r)) as (old & r & Hs & [Hw' Hl]).
  { unfold store_outcome in Ho. destruct (ht_lookup ht (skey q)) as [o|].
    - destruct (use_ver q && _); [by destruct Ho|]. destruct (fits_old q o || _); [naive_solver|by destruct Ho].
    - naive_solver. }
  split.
  - rewrite (fetch_outcome _ _ _ _ _ Hw'), Hl, decide_True by done.
    unfold read_rec. rewrite (stored_no_int _ _ _ _ Hq Hs), (st_exp _ _ _ _ Hs), (st_val _ _ _ _ Hs), (st_ver _ _ _ _ Hs).
    assert (negb (sexp q =? 0) && (sexp q <=? now) = false) as ->.
    { destruct Hexp as [->|]; [done|]. rewrite (proj2 (Z.leb_gt _ _)) by done. apply andb_false_r. }
    cbn [andb]. destruct (zlen (sval q) >? cap) eqn:E; bool_facts; eexists; (split; [done|]); cbn;
      split_and!; try done; try (intros; lia); by intros ->.
  - intros k dst ll now' Hk. rewrite (fetch_outcome _ _ _ _ _ Hw'), Hl, decide_False by done.
    by rewrite (fetch_outcome _ _ _ _ _ (proj1 Hok)).
Qed.

(** * Convergence *)

(** What peers compare of a key: its bytes, deadline and version. *)
Definition view (ht : pcache_htable) (k : bytes) : option (bytes * Z * Z) :=
  (fun r => (rval r, expires r, ver r)) <$> ht_lookup ht k.

(** A copy applied with the memory it needs leaves the newer of the two. *)
Lemma store_ver_view ht (e : wenv C) q :
  table_ok ht -> req_ok q -> oversize (zlen (skey q)) (zlen (sval q)) = false -> use_ver q = true ->
  let ht' := (store_locked ht e q true true).1.2 in
  table_ok ht' /\
  view ht' (skey q) = match view ht (skey q) with
    | Some (v, x, n) => if n >=? sver q then Some (v, x, n) else Some (sval q, sexp q, sver q)
    | None => Some (sval q, sexp q, sver q) end /\
  forall k, k <> skey q -> view ht' k = view ht k.
Proof.
  intros Hok Hq Hov Huv ht'. split; [by apply store_locked_ok|].
  pose proof (store_locked_outcome ht e q true true (proj1 Hok) (rq_bytes _ Hq) Hov) as Ho. fold ht' in Ho.
  unfold store_outcome in Ho. rewrite Huv in Ho. unfold view. cbn [andb] in Ho.
  assert (forall old, (exists r, stored e q old r /\ ht_updates ht ht' (skey q) (Some r)) ->
    (fun r => (rval r, expires r, ver r)) <$> ht_lookup ht' (skey q) = Some (sval q, sexp q, sver q) /\
    forall k, k <> skey q -> (fun r => (rval r, expires r, ver r)) <$> ht_lookup ht' k = (fun r => (rval r, expires r, ver r)) <$> ht_lookup ht k) as Hst.
  { intros old (r & Hs & [_ Hl]). split.
    - rewrite Hl, decide_True by done. simpl. by rewrite (st_val _ _ _ _ Hs), (st_exp _ _ _ _ Hs), (st_ver _ _ _ _ Hs), Huv.
    - intros k Hk. by rewrite Hl, decide_False. }
  destruct (ht_lookup ht (skey q)) as [old|] eqn:El; simpl.
  - destruct (ver old >=? sver q); [destruct Ho as [_ ->]; by rewrite El|].
    rewrite orb_true_r in Ho. destruct Ho as [_ Ho]. by apply (Hst _ Ho).
  - destruct Ho as [(_ & _ & [?|?])|(_ & _ & Ho)]; [done..|]. by apply (Hst _ Ho).
Qed.


(** * Counters *)

Lemma accumulated_int_ok (e : wenv C) key n exp old r : accumulated e key n exp old r -> int_ok r.
Proof. intros Ha _. by rewrite (ac_val _ _ _ _ _ _ Ha), ll_bytes_len. Qed.

Lemma add_locked_ok ht (e : wenv C) key delta exp c n :
  table_ok ht -> zlen key <= 0xFFFF -> table_ok (add_locked ht e key delta exp c n).1.1.2.
Proof.
  intros Hok Hk. pose proof (add_locked_outcome ht e key delta exp c n (proj1 Hok) Hk (proj2 Hok key)) as Ho.
  unfold add_outcome in Ho.
  assert (forall n exp old ht', (exists r, accumulated e key n exp old r /\ ht_updates ht ht' key (Some r)) -> table_ok ht') as Hup.
  { intros ? ? ? ht' (r & Ha & Hu). eapply updates_table_ok; [done..|]. intros ? [= <-]. by eapply accumulated_int_ok. }
  destruct (ht_lookup ht key) as [o|].
  - destruct (counter_value o); [destruct c|]; [destruct Ho as (_ & _ & Ho); by eapply Hup|by destruct Ho as [_ ->]..].
  - destruct Ho as [(_ & -> & _)|(_ & _ & Ho)]; [done|by eapply Hup].
Qed.

Lemma add_ex_alone ht (e : wenv C) key delta exp m :
  pcache_ht_add_ex (mk_tabs ht None) e key delta exp m =
    if zlen key >? 0xFFFF then (-1, mk_tabs ht None, e, None)
    else let '(rc, ht', e', out) := add_locked ht e key delta exp (m_cell m) (m_node m) in (rc, mk_tabs ht' None, e', out).
Proof.
  unfold pcache_ht_add_ex. destruct (zlen key >? 0xFFFF); [done|]. cbn.
  by destruct (add_locked ht e key delta exp (m_cell m) (m_node m)) as [[[? ?] ?] ?].
Qed.

(** Accumulate: an absent key becomes a counter holding the delta; a native
    counter, or a string that spells a decimal, becomes the 64-bit sum, keeps
    its deadline when asked to and is this node's own; anything else is refused
    with -1 and unchanged; the other keys keep their records. *)
Theorem ht_add_spec ht (e : wenv C) key delta exp m :
  table_ok ht -> zlen key <= 0xFFFF ->
  let '(rc, t', e', out) := pcache_ht_add_ex (mk_tabs ht None) e key delta exp m in
  add_outcome ht e key delta exp (m_cell m) (m_node m) rc (main t') out /\ table_ok (main t').
Proof.
  intros Hok Hk. rewrite add_ex_alone, Z.gtb_ltb, (proj2 (Z.ltb_ge _ _)) by done.
  pose proof (add_locked_outcome ht e key delta exp (m_cell m) (m_node m) (proj1 Hok) Hk (proj2 Hok key)) as H1.
  pose proof (add_locked_ok ht e key delta exp (m_cell m) (m_node m) Hok Hk) as H2.
  by destruct (add_locked _ _ _ _ _ _ _) as [[[rc ht'] e'] out].
Qed.

(** * Deletes and versions *)

Context {LL : LamportLaws C}.

(** Write after delete: the version a remove stamps is below the version of
    any later store of the key, by any thread, after any further traffic on the
    clock (for a delete the clock can publish). *)
Theorem store_after_remove ht (e e2 : wenv C) key os q :
  table_ok ht -> 0 <= pc_lamport_now (clk e) -> pc_lamport_top (clk e) < 2 ^ 64 - 1 ->
  skey q = key -> use_ver q = false -> req_ok q -> oversize (zlen key) (zlen (sval q)) = false ->
  let '(rc, ht', e') := pcache_ht_remove ht e key in
  issuable (clk (ver_local e (ht_lookup ht key)).2) (last_del_ver e') ->
  clock_room os (clk e') -> clk e2 = clock_run os (clk e') ->
  ht_lookup ht' key = None /\
  exists r, ht_lookup (store_locked ht' e2 q true true).1.2 key = Some r /\ last_del_ver e' < ver r.
Proof.
  intros Hok H0 Htop Hk Huv Hq Hov. pose proof (remove_outcome ht e key 0 false (proj1 Hok)) as Ho.
  unfold pcache_ht_remove. destruct (remove_impl ht e key 0 false) as [[rc ht'] e']. cbn [Z.eqb negb andb] in Ho.
  assert (e' = remove_env e (ht_lookup ht key) false /\ ht_lookup ht' key = None /\ table_ok ht') as (-> & Hnone & Hok').
  { destruct (ht_lookup ht key) as [o|] eqn:El.
    - destruct Ho as (_ & Hu & ->). split_and!; [done|by rewrite (proj2 Hu), decide_True|by eapply updates_table_ok].
    - destruct Ho as (_ & -> & ->). done. }
  unfold remove_env. destruct (ver_local e (ht_lookup ht key)) as [v e1] eqn:Ev. cbn [snd last_del_ver set_clk set_last_del_ver clk].
  intros Hiss Hroom Hclk. split; [done|].
  rewrite <- Hk in Hov, Hnone.
  pose proof (store_locked_outcome ht' e2 q true true (proj1 Hok') (rq_bytes _ Hq) Hov) as Hs.
  unfold store_outcome in Hs. rewrite Hnone in Hs. destruct Hs as [(_ & _ & [?|?])|(_ & _ & r & Hst & Hu)]; [done..|].
  rewrite Hk in *. exists r. rewrite (proj2 Hu), decide_True by done. split; [done|].
  rewrite (st_ver _ _ _ _ Hst), Huv. unfold ver_local. rewrite Hclk.
  assert (pc_lamport_now (clk e) <= pc_lamport_now (clk e1)) as Hn1.
  { assert (clk e1 = (pc_lamport_tick (thr e) (clk e)).2) as ->; [|by apply tick_now].
    unfold ver_local in Ev. destruct (pc_lamport_tick _ _). by injection Ev as <- <-. }
  pose proof (publish_now v (clk e1)). pose proof (publish_reaches v (clk e1) Hiss).
  assert (0 <= pc_lamport_now (pc_lamport_publish v (clk e1))) as Hp by lia.
  destruct (clock_run_now os _ Hp Hroom) as [Hn Ht].
  set (c' := clock_run os (pc_lamport_publish v (clk e1))) in *.
  assert (pc_lamport_now c' < (pc_lamport_tick (thr e2) c').1) as Htick by (apply tick_above; lia).
  destruct (pc_lamport_tick (thr e2) c') as [w c2]. cbn [fst] in *. lia.
Qed.

(** * Writes during a resize *)

Lemma ver_local_bound (e : wenv C) old B :
  0 <= pc_lamport_now (clk e) -> pc_lamport_top (clk e) < B -> B <= 2 ^ 64 - 2 ->
  (forall o, old = Some o -> 0 <= ver o < B) ->
  0 < (ver_local e old).1 <= B /\ (forall o, old = Some o -> ver o < (ver_local e old).1).
Proof.
  intros H0 Ht HB Ho. unfold ver_local.
  assert (pc_lamport_now (clk e) < (pc_lamport_tick (thr e) (clk e)).1) as Ha by (apply tick_above; lia).
  assert ((pc_lamport_tick (thr e) (clk e)).1 <= pc_lamport_top (clk e) + 1) as Hb by (apply tick_top; lia).
  destruct (pc_lamport_tick (thr e) (clk e)) as [v c]. cbn [fst] in *.
  destruct old as [o|]; [|split; [lia|done]]. specialize (Ho o eq_refl).
  destruct (v <=? ver o) eqn:E; bool_facts; cbn [fst]; rewrite ?u64_id by (unfold is_u64; lia);
    (split; [lia|intros ? [= <-]; lia]).
Qed.

Lemma live_mono now now' r : now <= now' -> live now r = false -> live now' r = false.
Proof. unfold live. intros H. destruct (expires r =? 0); [done|]. cbn. rewrite !Z.gtb_ltb, !Z.ltb_ge. lia. Qed.

Lemma read_rec_dead r dst ll now : live now r = false -> (read_rec r dst ll now).1 = -2.
Proof. rewrite live_spec. unfold read_rec. by intros ->%negb_false_iff. Qed.

Lemma read_rec_live r dst ll now : live now r = true -> (read_rec r dst ll now).1 <> -2.
Proof.
  rewrite live_spec. unfold read_rec. intros ->%negb_true_iff.
  repeat case_match; cbn; try done; by destruct (has_flag _ _ && _).
Qed.

(** The main table answers a read when the drained one has nothing live. *)
Lemma fetch_main_own t key r dst ll now :
  tabs_ok t -> ht_lookup (main t) key = Some r -> live now r = true ->
  (forall dr o, drain_from t = Some dr -> ht_lookup dr key = Some o -> live now o = false) ->
  fetch_main t key dst ll now = read_rec r dst ll now.
Proof.
  intros Ht Hr Hl Hd. unfold fetch_main. rewrite (fetch_outcome _ _ _ _ _ (proj1 (to_main _ Ht))), Hr.
  pose proof (read_rec_live r dst ll now Hl) as Hne. destruct (read_rec r dst ll now) as [rc fo]. cbn [fst] in Hne.
  destruct (drain_from t) as [dr|] eqn:Ed; [|done]. rewrite (proj2 (Z.eqb_neq _ _) Hne). cbn [negb].
  rewrite (fetch_outcome _ _ _ _ _ (proj1 (to_drain _ Ht dr Ed))). destruct (ht_lookup dr key) as [o|] eqn:Eo; [|done].
  pose proof (read_rec_dead o None false now (Hd dr o eq_refl Eo)) as H2. destruct (read_rec o None false now) as [r2 lo].
  cbn [fst] in H2. by rewrite H2.
Qed.


(** * Every reachable table *)

(** One operation on the table in use. *)
Inductive api_step : tables -> tables -> Prop :=
  | StepStore t e q m rc t' e' :
      req_ok q -> store_impl t e q m = (rc, t', e') -> api_step t t'
  | StepAdd t (e : wenv C) key delta exp m rc t' e' out :
      pcache_ht_add_ex t e key delta exp m = (rc, t', e', out) -> api_step t t'
  | StepTouch t (e : wenv C) key exp adopt m rc t' e' was :
      touch_inner t e key exp adopt m = (rc, t', e', was) -> api_step t t'
  | StepSetver t (e : wenv C) key v m rc t' e' :
      pcache_ht_setver t e key v m = (rc, t', e') -> api_step t t'
  | StepRemove t (e : wenv C) key below drop rc ht' e' :
      remove_impl (main t) e key below drop = (rc, ht', e') -> api_step t (mk_tabs ht' (drain_from t))
  | StepGrow t pct budget seg_ok did ht' :
      pcache_ht_grow_at (main t) pct budget seg_ok = Some (did, ht') -> api_step t (mk_tabs ht' (drain_from t))
  | StepDrained t : api_step t (mk_tabs (main t) None).

Inductive reachable : tables -> Prop :=
  | ReachNew size_log2 room ht :
      0 <= size_log2 -> pcache_htable_new size_log2 room = Some ht -> reachable (mk_tabs ht None)
  | ReachStep t t' : reachable t -> api_step t t' -> reachable t'
  (* a resize puts a table filled on the side in use, draining the old one *)
  | ReachSwap t ht' : reachable t -> reachable (mk_tabs ht' None) -> reachable (mk_tabs ht' (Some (main t))).

Lemma layout_nil : layout [] = [bkt_zero].
Proof. done. Qed.

Lemma sumz_replicate {A} (f : A -> Z) n x : f x = 0 -> sumz f (replicate n x) = 0.
Proof. intros E. induction n; simpl; lia. Qed.

Lemma ht_new_ok n room ht : 0 <= n -> pcache_htable_new n room = Some ht -> table_ok ht.
Proof.
  intros Hn. unfold pcache_htable_new. destruct (n >? PCACHE_MAX_SIZE_LOG2) eqn:E; [done|].
  destruct room; [|done]. cbn [negb]. intros [= <-]. bool_facts. unfold PCACHE_MAX_SIZE_LOG2 in E.
  rewrite !Z.shiftl_1_l. pose proof (Z.pow_pos_nonneg 2 n ltac:(lia) Hn). pose proof (Z.pow_le_mono_r 2 n 24 ltac:(lia) E) as Hp.
  set (ht := mk_ht _ _ _ _ _).
  assert (level ht = n /\ split ht = 0) as [Hl Hs].
  { unfold level, split, ht. cbn [route]. rewrite <- (Z.lor_0_r (Z.shiftl n 32)). by rewrite shiftr_join, u32_join by lia. }
  assert (ht_rep ht (replicate (Z.to_nat (2 ^ n)) [])) as Hrep.
  { split; rewrite ?Hl, ?Hs, ?zlen_replicate, ?length_replicate; try done; try lia.
    - cbn. by rewrite fmap_replicate, layout_nil.
    - cbn. by rewrite length_replicate.
    - cbn. lia.
    - unfold ht, is_u64. cbn [route]. rewrite Z.shiftl_mul_pow2 by lia. lia.
    - unfold PCACHE_CEILING. lia.
    - intros i l Hi. apply lookup_replicate in Hi as [-> _]. split; [constructor|]. split; constructor.
    - cbn [ht st chained]. by rewrite sumz_replicate.
    - unfold entries. cbn [ht st created destroyed]. by rewrite sumz_replicate. }
  split; [by eexists|]. intros k r Hk. apply (ht_lookup_spec _ _ _ _ Hrep) in Hk as (_ & i & l & Hi & Hin).
  apply lookup_replicate in Hi as [-> _]. set_solver.
Qed.

Lemma touch_locked_ok ht (e : wenv C) key exp adopt : table_ok ht -> table_ok (touch_locked ht e key exp adopt).1.1.2.
Proof.
  intros Hok. pose proof (touch_outcome ht e key exp adopt (proj1 Hok)) as Ho.
  destruct (ht_lookup ht key) as [o|] eqn:El; [|by rewrite Ho].
  destruct Ho as (_ & r & Ht & Hu & _). eapply updates_table_ok; [done..|]. intros ? [= <-].
  unfold touched in Ht. subst r. unfold int_ok. cbn [rflags rval]. rewrite flag_int. intros Hf. apply (proj2 Hok key o El).
  rewrite flag_int. destruct (adopt && _); rewrite ?(proj1 (clear_passive_bits _)), Z.lor_spec, shortened_testbit, orb_false_r in Hf by auto; done.
Qed.

Lemma setver_locked_ok ht key v : table_ok ht -> table_ok (setver_locked ht key v).2.
Proof.
  intros Hok. pose proof (setver_outcome ht key v (proj1 Hok)) as Ho.
  destruct (ht_lookup ht key) as [o|] eqn:El; [|by rewrite Ho]. destruct Ho as [_ Hu].
  eapply updates_table_ok; [done..|]. intros ? [= <-]. exact (proj2 Hok key o El).
Qed.

Lemma remove_impl_ok ht (e : wenv C) key below drop : table_ok ht -> table_ok (remove_impl ht e key below drop).1.2.
Proof.
  intros Hok. pose proof (remove_outcome ht e key below drop (proj1 Hok)) as Ho.
  destruct (remove_impl ht e key below drop) as [[rc ht'] e']. cbn [fst snd].
  destruct (ht_lookup ht key) as [o|]; [destruct (negb _ && _)|]; try (by destruct Ho as (_ & -> & _)).
  destruct Ho as (_ & Hu & _). by eapply updates_table_ok.
Qed.

Lemma set_main_ok t ht : tabs_ok t -> table_ok ht -> tabs_ok (mk_tabs ht (drain_from t)).
Proof. intros Ht Hh. split; [done|]. apply Ht. Qed.

Lemma api_step_ok t t' : tabs_ok t -> api_step t t' -> tabs_ok t'.
Proof.
  intros Ht Hs. destruct Hs as [t e q m rc t' e' Hq E|t e key delta exp m rc t' e' out E|t e key exp adopt m rc t' e' was E
    |t e key v m rc t' e' E|t e key below drop rc ht' e' E|t pct budget seg did ht' E|t].
  - unfold store_impl, store_body in E. destruct (oversize _ _) eqn:Hov.
    { destruct (drain_forget t e (skey q)) as [t3 e3] eqn:Ef. apply drain_forget_spec in Ef; [|done].
      destruct Ef as [Ht3 _]. by injection E as <- <- <-. }
    assert (exists t1 e1, (if keep_wt q then (t, e) else drain_carry t e (skey q) m) = (t1, e1) /\ tabs_ok t1) as (t1 & e1 & Ec & Ht1).
    { destruct (keep_wt q); [eauto|]. destruct (drain_carry t e (skey q) m) as [t1 e1] eqn:Ec.
      apply drain_carry_spec in Ec as [? _]; [eauto|done]. }
    rewrite Ec in E. pose proof (store_locked_ok (main t1) e1 q (m_cell m) (m_node m) (to_main _ Ht1) Hq Hov) as Hok.
    destruct (store_locked _ _ _ _ _) as [[rc2 ht2] e2]. destruct (drain_forget _ e2 _) as [t3 e3] eqn:Ef.
    apply drain_forget_spec in Ef as [Ht3 _]; [by injection E as <- <- <-|by apply set_main_ok].
  - unfold pcache_ht_add_ex in E. destruct (zlen key >? 0xFFFF) eqn:Hk; bool_facts.
    { destruct (drain_forget t e key) as [t3 e3] eqn:Ef. apply drain_forget_spec in Ef as [Ht3 _]; [|done]. by injection E as <- <- <- <-. }
    destruct (drain_carry t e key m) as [t1 e1] eqn:Ec. apply drain_carry_spec in Ec as [Ht1 _]; [|done].
    pose proof (add_locked_ok (main t1) e1 key delta exp (m_cell m) (m_node m) (to_main _ Ht1) Hk) as Hok.
    destruct (add_locked _ _ _ _ _ _ _) as [[[rc2 ht2] e2] o2]. destruct (drain_forget _ e2 _) as [t3 e3] eqn:Ef.
    apply drain_forget_spec in Ef as [Ht3 _]; [by injection E as <- <- <- <-|by apply set_main_ok].
  - unfold touch_inner in E. destruct (drain_carry t e key m) as [t1 e1] eqn:Ec. apply drain_carry_spec in Ec as [Ht1 _]; [|done].
    pose proof (touch_locked_ok (main t1) e1 key exp adopt (to_main _ Ht1)) as Hok.
    destruct (touch_locked _ _ _ _ _) as [[[rc2 ht2] e2] o2]. destruct (drain_forget _ e2 _) as [t3 e3] eqn:Ef.
    apply drain_forget_spec in Ef as [Ht3 _]; [by injection E as <- <- <- <-|by apply set_main_ok].
  - unfold pcache_ht_setver in E. destruct (drain_carry t e key m) as [t1 e1] eqn:Ec. apply drain_carry_spec in Ec as [Ht1 _]; [|done].
    pose proof (setver_locked_ok (main t1) key v (to_main _ Ht1)) as Hok.
    destruct (setver_locked _ _ _) as [rc2 ht2]. destruct (drain_forget _ e1 _) as [t3 e3] eqn:Ef.
    apply drain_forget_spec in Ef as [Ht3 _]; [by injection E as <- <- <-|by apply set_main_ok].
  - apply set_main_ok; [done|]. pose proof (remove_impl_ok (main t) e key below drop (to_main _ Ht)) as Hok. by rewrite E in Hok.
  - apply set_main_ok; [done|]. destruct (to_main _ Ht) as [Hw Hi].
    destruct (grow_at_outcome (main t) pct budget seg Hw) as (n & ht2 & E2 & _ & Hw2 & Hlk & _). simplify_eq.
    split; [done|]. intros k r. rewrite Hlk. apply Hi.
  - split; [apply Ht|done].
Qed.


(** Remove: the key is unbound (or, with a floor, kept when its version is at
    or above it), every other key keeps its record and the table stays well
    formed; a delete stamps and publishes a version, a drop does not. *)
Theorem ht_remove_spec ht (e : wenv C) key below drop :
  table_ok ht ->
  let '(rc, ht', e') := remove_impl ht e key below drop in
  table_ok ht' /\
  match ht_lookup ht key with
  | Some o =>
      if negb (below =? 0) && (ver o >=? below) then rc = 0 /\ ht' = ht /\ e' = remove_env e None drop
      else rc = 1 /\ ht_updates ht ht' key None /\ e' = remove_env e (Some o) drop
  | None => rc = 0 /\ ht' = ht /\ e' = remove_env e None drop
  end.
Proof.
  intros Hok. pose proof (remove_outcome ht e key below drop (proj1 Hok)) as Ho.
  pose proof (remove_impl_ok ht e key below drop Hok) as Hk. by destruct (remove_impl _ _ _ _ _) as [[rc ht'] e'].
Qed.

End ApiLaws.

(** * Concrete runs *)

Module Runs.

Definition ht0 : pcache_htable := default (mk_ht 0 0 [] [] (mk_st 0 0 0 0 0 0 0 0 0)) (pcache_htable_new 1 true).

Definition e0 : wenv shared_clock := mk_env 0 (mk_shared 40 0) 100 0 0 0 0.
Definition m0 : mem := mk_mem true true true true.

Definition kA : bytes := [107; 101; 121].
Definition put (v : bytes) : store_req := mk_sreq kA v 0 0 0 false false 0.
Definition copy (v : bytes) (n : Z) : store_req := mk_sreq kA v 500 PCACHE_F_PASSIVE n true false 0.

Lemma ht0_ok : table_ok ht0.
Proof. by apply (ht_new_ok 1 true). Qed.

Lemma ht0_empty k : ht_lookup ht0 k = None.
Proof.
  unfold ht_lookup. generalize (pcache_key_hash k). intros h. unfold bucket_at.
  generalize (route_idx ht0 h). intros i. change (chains ht0) with [[bkt_zero]; [bkt_zero]].
  destruct i as [|[|i]]; reflexivity.
Qed.

Lemma put_ok v : bytes_ok v -> req_ok (put v).
Proof. by split. Qed.
Lemma copy_ok v n : bytes_ok v -> req_ok (copy v n).
Proof. by split. Qed.

(** The table with the key stored, and the one drained into a new one. *)
Definition ht1 : pcache_htable := (store_locked ht0 e0 (put [49; 50]) true true).1.2.
Definition e1 : wenv shared_clock := (store_locked ht0 e0 (put [49; 50]) true true).2.
Definition t1 : tables := mk_tabs ht0 (Some ht1).

Lemma ht1_ok : table_ok ht1.
Proof. apply store_locked_ok; [apply ht0_ok|apply put_ok; repeat constructor; done|done]. Qed.

Lemma t1_ok : tabs_ok t1.
Proof.
  split; [apply ht0_ok|]. change (forall dr, Some ht1 = Some dr -> table_ok dr). intros dr E.
  apply (inj Some) in E. rewrite <- E. apply ht1_ok.
Qed.

End Runs.

Import Runs.


Lemma ht_store_fetch_witness :
  exists fo, fetch_core (main (store_impl (mk_tabs ht1 None) e0 (copy [7; 8; 9] 77) m0).1.2) kA (Some 3) true 400 = (0, fo) /\
    fo_dst fo = [7; 8; 9].
Proof.
  pose proof (ht_store_fetch ht1 e0 (copy [7; 8; 9] 77) m0 3 400 ht1_ok (copy_ok [7; 8; 9] _ ltac:(repeat constructor; done))
    (or_intror eq_refl)) as Hw.
  destruct (store_impl (mk_tabs ht1 None) e0 (copy [7; 8; 9] 77) m0) as [[rc t'] e'] eqn:E.
  assert (rc = 0) as Hrc by (vm_compute in E; by injection E as <- _ _).
  destruct (Hw Hrc) as [(fo & Hf & _ & _ & Hd & _) _]. exists fo. split; [exact Hf|]. apply Hd. vm_compute. discriminate.
Defined.


Lemma ht_add_spec_witness :
  let '(rc, t', e', out) := pcache_ht_add_ex (mk_tabs ht1 None) e0 kA 5 0 m0 in
  (rc = 0 /\ out = Some (17, 0)) /\
  add_outcome ht1 e0 kA 5 0 true true rc (main t') out /\ table_ok (main t').
Proof.
  pose proof (ht_add_spec ht1 e0 kA 5 0 m0 ht1_ok ltac:(vm_compute; discriminate)) as Hw.
  destruct (pcache_ht_add_ex (mk_tabs ht1 None) e0 kA 5 0 m0) as [[[rc t'] e'] out] eqn:E.
  split; [|exact Hw]. vm_compute in E. by injection E as <- _ _ <-.
Defined.

Lemma store_after_remove_witness :
  exists r, ht_lookup (store_locked (pcache_ht_remove ht1 e1 kA).1.2
      (pcache_ht_remove ht1 e1 kA).2 (put [3]) true true).1.2 kA = Some r /\
    last_del_ver (pcache_ht_remove ht1 e1 kA).2 < ver r.
Proof.
  assert (0 <= pc_lamport_now (clk e1)) as Hn by (vm_compute; discriminate).
  assert (pc_lamport_top (clk e1) < 2 ^ 64 - 1) as Ht by (vm_compute; reflexivity).
  pose proof (store_after_remove ht1 e1 (pcache_ht_remove ht1 e1 kA).2 kA [] (put [3]) ht1_ok Hn Ht eq_refl eq_refl
    (put_ok [3] ltac:(repeat constructor; done)) eq_refl) as Hw.
  destruct (pcache_ht_remove ht1 e1 kA) as [[rc ht'] e'] eqn:E. vm_compute in E. injection E as <- <- <-.
  refine (proj2 (Hw _ _ _)); vm_compute; [discriminate|split; [reflexivity|exact I]|reflexivity].
Defined.




Lemma ht_remove_spec_witness :
  let '(rc, ht', e') := remove_impl ht1 e0 kA 0 false in rc = 1 /\ table_ok ht' /\ ht_lookup ht' kA = None.
Proof.
  pose proof (ht_remove_spec ht1 e0 kA 0 false ht1_ok) as Hw.
  assert (exists o, ht_lookup ht1 kA = Some o) as [o Ho] by (eexists; vm_compute; reflexivity).
  rewrite Ho in Hw. destruct (remove_impl ht1 e0 kA 0 false) as [[rc ht'] e'].
  destruct Hw as (Hok & Hrc & Hu & _). split; [exact Hrc|]. split; [exact Hok|].
  rewrite (proj2 Hu). rewrite decide_True by reflexivity. reflexivity.
Defined.

Lemma ht_split_spec_witness :
  exists rc ht', pcache_ht_split ht1 true true = Some (rc, ht') /\ ht_lookup ht' kA = ht_lookup ht1 kA.
Proof.
  destruct (ht_split_spec ht1 true true (proj1 ht1_ok)) as (rc & ht' & E & _ & Hlk & _).
  exists rc, ht'. split; [exact E|apply Hlk].
Defined.

Lemma ht_grow_spec_witness :
  exists n ht', pcache_ht_grow_at ht1 1 8 [] = Some (Z.of_nat n, ht') /\ ht_lookup ht' kA = ht_lookup ht1 kA.
Proof.
  destruct (ht_grow_spec ht1 1 8 [] (proj1 ht1_ok)) as (n & ht' & E & _ & _ & Hlk & _).
  exists n, ht'. split; [exact E|apply Hlk].
Defined.

(** * Where the code and its comments part *)

(** A record moved between tables is to keep its own write tick; a moved copy
    whose bytes the destination already holds at an older version is stamped
    with the current tick instead (100 here, not 7). *)
Example copy_of_same_bytes_restamps :
  wtick <$> ht_lookup (main (pcache_ht_store_copy (mk_tabs ht1 None) e0 kA [49; 50] 0 0 77 7 m0).1.2) kA = Some 100.
Proof. vm_compute. reflexivity. Qed.

(** The clustered clock's publish is empty because its increment is said to stay
    above every version issued.  A copy further ahead than the observe's guard
    allows is stored all the same; a delete of it stamps above the copy, the
    clock stays behind, and the next write of the key stamps below the delete. *)
Example write_below_delete :
  let s := pcache_ht_store_ver (mk_tabs ht0 None) e0 kA [1] 0 PCACHE_F_PASSIVE 5000000000 m0 in
  let d := pcache_ht_remove (main s.1.2) s.2 kA in
  let w := pcache_ht_store (mk_tabs d.1.2 None) d.2 kA [2] 0 m0 in
  last_del_ver d.2 = 5000000001 /\ ver <$> ht_lookup (main w.1.2) kA = Some 42.
Proof. vm_compute. done. Qed.

(** During a drain, a read into a buffer the newer copy does not fit is not told
    so: the mismatch of the two codes is taken for a copy gone meanwhile, and
    the older value is returned. *)
Example drain_read_small_buffer :
  let old := (store_locked ht0 e0 (copy [1] 50) true true).1.2 in
  let new := (store_locked ht0 e0 (copy [2; 2; 2; 2] 60) true true).1.2 in
  (fetch_main (mk_tabs old (Some new)) kA (Some 8) true 100).2 = mk_fo 4 500 2 60 [2; 2; 2; 2] 0 /\
  fetch_main (mk_tabs old (Some new)) kA (Some 2) true 100 = (0, mk_fo 1 500 2 50 [1] 0).
Proof. vm_compute. done. Qed.
