(* ===== verification/Clorder.v ===== *)
(** Replicated sets and deletes of one key ([clorder.c], [apply_refuse] and
    [apply_tomb] of [cluster.c]).

    A replicated set checks the key's tombstone, stores, reads the tombstone again
    and takes its own write back when a delete covers it; a replicated delete
    plants its tombstone and removes what is at or below its version.  The table
    operations run under the bucket lock, so between two of them any other
    thread's may run.  [clorder_set] and [clorder_del] are the functions as the
    code writes them, the answers of the callbacks as arguments; [tstep] cuts them
    at the points where another thread can run, and a pool of threads takes such
    steps in any order.  The tombstones a key has are the newest version planted
    ([pc_neg_ver] keeps the highest); they do not lapse during a run. *)

From Stdlib Require Import ZArith Lia.
From stdpp Require Import base tactics list numbers gmap.
From S2P Require Import Prelude HtBase HtChain Lamport HtTable HtGrow HtApi.

Definition CLORDER_REFUSED : Z := 2.
Definition CLORDER_TAKEN : Z := 3.

Section Order.
Context {C : Type} `{LC : Lamport C}.

(** [tv && ver <= tv && pcache_ht_remove_below(ht, k, tv + 1) == 1]. *)
Definition clorder_take_back (t : tables) (e : wenv C) (k : bytes) (ver tv : Z) : bool * tables * wenv C :=
  if negb (tv =? 0) && (ver <=? tv) then
    let '(r, ht, e) := pcache_ht_remove_below (main t) e k (u64 (tv + 1)) in
    (r =? 1, mk_tabs ht (drain_from t), e)
  else (false, t, e).

(** [refused] and [tv] are the answers of [t->refuse] and of [t->ver]. *)
Definition clorder_set (t : tables) (e : wenv C) (k v : bytes) (exp fl ver : Z) (m : mem) (refused : bool) (tv : Z)
    : Z * tables * wenv C :=
  if refused then (CLORDER_REFUSED, t, e)
  else
    let '(rc, t, e) := pcache_ht_store_ver t e k v exp fl ver m in
    if negb (rc =? 0) then (rc, t, e)
    else
      let '(took, t, e) := clorder_take_back t e k ver tv in
      (if took then CLORDER_TAKEN else 0, t, e).

Definition del_one (ht : pcache_htable) (e : wenv C) (k : bytes) (ver : Z) : Z * pcache_htable * wenv C :=
  if ver =? 0 then pcache_ht_remove ht e k else pcache_ht_remove_upto ht e k ver.

Definition del_shadow (sh : option pcache_htable) (e : wenv C) (k : bytes) (ver : Z) : option pcache_htable * wenv C :=
  match sh with
  | None => (None, e)
  | Some sh => let '(_, sh, e) := del_one sh e k ver in (Some sh, e)
  end.

Definition clorder_del (t : tables) (shadow : option pcache_htable) (e : wenv C) (k : bytes) (ver : Z)
    : bool * tables * option pcache_htable * wenv C :=
  let '(shadow, e) := del_shadow shadow e k ver in
  let '(r, ht, e) := del_one (main t) e k ver in
  (r =? 1, mk_tabs ht (drain_from t), shadow, e).

(** [apply_refuse] of [cluster.c]: the tombstone covers the copy, or the version
    dropped at the ceiling does ([low], [dropfloor_refuses]'s answer). *)
Definition apply_refuse (tv ver : Z) (low : bool) : bool := (negb (tv =? 0) && (ver <=? tv)) || low.

(** * Threads that take turns *)

Record world := mk_world {
  w_tabs : tables;
  w_shadow : option pcache_htable;
  w_tomb : bytes -> Z                    (* the newest tombstone version of a key, 0 none *)
}.

(** Where a thread stands in [clorder_set] or in the delete around [clorder_del]. *)
Inductive thread :=
  | SCheck (k v : bytes) (exp fl ver : Z)
  | SStore (k v : bytes) (exp fl ver : Z)
  | STomb (k : bytes) (ver : Z)
  | STake (k : bytes) (ver tv : Z)
  | DPlant (k : bytes) (ver : Z)
  | DShadow (k : bytes) (ver : Z)
  | DMain (k : bytes) (ver : Z)
  | Done (rc : Z).

Definition plant (tomb : bytes -> Z) (k : bytes) (ver : Z) : bytes -> Z :=
  fun k' => if decide (k' = k) then Z.max (tomb k) ver else tomb k'.

(** One turn.  [e] is the thread's environment and the shared clock at that time,
    [m] the allocator's answers, [low] the ceiling's; they may be anything. *)
Definition tstep (w : world) (th : thread) (e : wenv C) (m : mem) (low : bool) : world * thread :=
  match th with
  | SCheck k v exp fl ver =>
      (w, if apply_refuse (w_tomb w k) ver low then Done CLORDER_REFUSED else SStore k v exp fl ver)
  | SStore k v exp fl ver =>
      let '(rc, t, _) := pcache_ht_store_ver (w_tabs w) e k v exp fl ver m in
      (mk_world t (w_shadow w) (w_tomb w), if rc =? 0 then STomb k ver else Done rc)
  | STomb k ver => (w, STake k ver (w_tomb w k))
  | STake k ver tv =>
      let '(took, t, _) := clorder_take_back (w_tabs w) e k ver tv in
      (mk_world t (w_shadow w) (w_tomb w), Done (if took then CLORDER_TAKEN else 0))
  | DPlant k ver => (mk_world (w_tabs w) (w_shadow w) (plant (w_tomb w) k ver), DShadow k ver)
  | DShadow k ver => (mk_world (w_tabs w) (del_shadow (w_shadow w) e k ver).1 (w_tomb w), DMain k ver)
  | DMain k ver =>
      let '(r, ht, _) := del_one (main (w_tabs w)) e k ver in
      (mk_world (mk_tabs ht (drain_from (w_tabs w))) (w_shadow w) (w_tomb w), Done (b2z (r =? 1)))
  | Done rc => (w, Done rc)
  end.

(** A pool of threads: any of them takes the next turn. *)
Inductive pstep : world * list thread -> world * list thread -> Prop :=
  | ps_turn w l i th e m low w' th' :
      l !! i = Some th -> tstep w th e m low = (w', th') -> pstep (w, l) (w', <[i := th']> l).

Definition finished (th : thread) : Prop := match th with Done _ => True | _ => False end.

(** Left to itself a set is [clorder_set]. *)
Lemma set_alone w k v exp fl ver e m low :
  let e1 := (pcache_ht_store_ver (w_tabs w) e k v exp fl ver m).2 in
  let '(w1, t1) := tstep w (SCheck k v exp fl ver) e m low in
  let '(w2, t2) := tstep w1 t1 e m low in
  let '(w3, t3) := tstep w2 t2 e1 m low in
  let '(w4, t4) := tstep w3 t3 e1 m low in
  let '(rc, t, _) := clorder_set (w_tabs w) e k v exp fl ver m (apply_refuse (w_tomb w k) ver low) (w_tomb w k) in
  t4 = Done rc /\ w_tabs w4 = t.
Proof.
  unfold clorder_set. simpl. destruct (apply_refuse _ _ _); simpl; [done|].
  destruct (pcache_ht_store_ver _ _ _ _ _ _ _ _) as [[rc t] e1] eqn:Es. simpl.
  destruct (Z.eqb_spec rc 0) as [->|Hrc]; simpl; [|done].
  by destruct (clorder_take_back t e1 k ver (w_tomb w k)) as [[took t'] e'] eqn:Et.
Qed.

(** Left to itself a delete is its plant and [clorder_del]. *)
Lemma del_alone w k ver e m low :
  let e1 := (del_shadow (w_shadow w) e k ver).2 in
  let '(w1, t1) := tstep w (DPlant k ver) e m low in
  let '(w2, t2) := tstep w1 t1 e m low in
  let '(w3, t3) := tstep w2 t2 e1 m low in
  let '(removed, t, sh, _) := clorder_del (w_tabs w) (w_shadow w) e k ver in
  t3 = Done (b2z removed) /\ w_tabs w3 = t /\ w_shadow w3 = sh /\ w_tomb w3 = plant (w_tomb w) k ver.
Proof.
  unfold clorder_del. simpl. destruct (del_shadow (w_shadow w) e k ver) as [sh e1]. simpl.
  by destruct (del_one _ e1 k ver) as [[r ht] e2].
Qed.

(** * The invariant of a pool *)

Definition ver_ok (v : Z) : Prop := 1 <= v < 2 ^ 64 - 1.

(** The threads a pool starts with: versioned sets and deletes. *)
Definition start_ok (th : thread) : Prop :=
  match th with
  | SCheck k v exp fl ver => ver_ok ver /\ req_ok (mk_sreq k v exp fl ver true false 0)
  | DPlant k ver => ver_ok ver
  | _ => False
  end.

Definition rec_at (w : world) (k : bytes) : option pcache_rec := ht_lookup (main (w_tabs w)) k.

Record world_ok (w : world) : Prop := {
  wo_tab : table_ok (main (w_tabs w));
  wo_drain : drain_from (w_tabs w) = None;
  wo_tomb : forall k, 0 <= w_tomb w k < 2 ^ 64 - 1
}.

(** A set of version [a] has reached the key: something as new is there, or a delete covers it. *)
Definition landed (w : world) (k : bytes) (a : Z) : Prop :=
  a <= w_tomb w k \/ exists r, rec_at w k = Some r /\ a <= ver r.

(** What a thread has established on its way from [th0]. *)
Definition th_ok (w : world) (th0 th : thread) : Prop :=
  match th0, th with
  | SCheck _ _ _ _ _, SCheck _ _ _ _ _ => th = th0
  | SCheck k v exp fl a, SStore k' v' exp' fl' a' => k' = k /\ v' = v /\ exp' = exp /\ fl' = fl /\ a' = a
  | SCheck k _ _ _ a, STomb k' a' => k' = k /\ a' = a /\ landed w k a
  | SCheck k _ _ _ a, STake k' a' tv => k' = k /\ a' = a /\ landed w k a /\ 0 <= tv <= w_tomb w k
  | SCheck k _ _ _ a, Done rc => rc = 0 \/ rc = PCACHE_E_OLDER \/ rc = CLORDER_TAKEN -> landed w k a
  | DPlant _ _, DPlant _ _ => th = th0
  | DPlant k d, DShadow k' d' => k' = k /\ d' = d /\ d <= w_tomb w k
  | DPlant k d, DMain k' d' => k' = k /\ d' = d /\ d <= w_tomb w k
  | DPlant k d, Done _ => d <= w_tomb w k
  | _, _ => False
  end.

(** The thread will still remove a record of this version. *)
Definition will_remove (th : thread) (k : bytes) (v : Z) : Prop :=
  match th with
  | DShadow k' d | DMain k' d => k' = k /\ v <= d
  | STomb k' a => k' = k /\ a = v
  | STake k' a tv => k' = k /\ a = v /\ v <= tv
  | _ => False
  end.

Record pool_ok (w0 : world) (l0 : list thread) (w : world) (l : list thread) : Prop := {
  po_world : world_ok w;
  po_len : length l = length l0;
  po_th : forall i th0 th, l0 !! i = Some th0 -> l !! i = Some th -> th_ok w th0 th;
  (* a record a delete covers has a thread on its way to remove it *)
  po_cov : forall k r, rec_at w k = Some r -> ver r <= w_tomb w k -> exists i th, l !! i = Some th /\ will_remove th k (ver r);
  (* a record is the one the run began with or one of the sets' *)
  po_from : forall k r, rec_at w k = Some r -> rec_at w0 k = Some r \/
    exists i v exp fl, l0 !! i = Some (SCheck k v exp fl (ver r)) /\ rval r = v /\ expires r = exp;
  (* the tombstone is the one the run began with or one of the deletes' *)
  po_tomb : forall k, w_tomb w k = w_tomb w0 k \/ exists i, l0 !! i = Some (DPlant k (w_tomb w k));
  po_mono : forall k, w_tomb w0 k <= w_tomb w k;
  po_first : forall k r, rec_at w0 k = Some r -> landed w k (ver r)
}.

(** What a turn may do to the table: nothing, a newer record, or a removal a tombstone covers. *)
Definition changes (w w' : world) : Prop :=
  (forall k, w_tomb w k <= w_tomb w' k) /\
  forall k, rec_at w' k = rec_at w k \/
    (exists r', rec_at w' k = Some r' /\ forall r, rec_at w k = Some r -> ver r < ver r') \/
    (exists r, rec_at w k = Some r /\ rec_at w' k = None /\ ver r <= w_tomb w' k).

Lemma landed_changes w w' k a : changes w w' -> landed w k a -> landed w' k a.
Proof.
  intros [Ht Hr] [Ha|(r & Hk & Ha)]; [left; specialize (Ht k); lia|].
  destruct (Hr k) as [He|[(r' & He & Hv)|(r0 & H0 & _ & Hv)]].
  - right. exists r. by rewrite He.
  - right. exists r'. split; [done|]. specialize (Hv r Hk). lia.
  - left. assert (r0 = r) as -> by congruence. lia.
Qed.

Lemma th_ok_changes w w' th0 th : changes w w' -> th_ok w th0 th -> th_ok w' th0 th.
Proof.
  intros Hc. pose proof Hc as [Ht _]. destruct th0, th; simpl; try done; intros H; destruct_and?; split_and?; try done;
    try (by eapply landed_changes); try (intros; eapply landed_changes; eauto);
    match goal with |- context [w_tomb w' ?k] => specialize (Ht k); lia end.
Qed.

(** A removal up to a version, under the lock. *)
Lemma remove_upto_lookup ht (e : wenv C) k d drop :
  table_ok ht -> 1 <= d < 2 ^ 64 - 1 ->
  let '(rc, ht', _) := remove_impl ht e k (u64 (d + 1)) drop in
  table_ok ht' /\
  forall k', ht_lookup ht' k' =
    match ht_lookup ht k' with
    | Some r => if decide (k' = k /\ ver r <= d) then None else Some r
    | None => None
    end.
Proof.
  intros Hok Hd. pose proof (remove_outcome ht e k (u64 (d + 1)) drop (proj1 Hok)) as Ho.
  pose proof (remove_impl_ok ht e k (u64 (d + 1)) drop Hok) as Hok'.
  rewrite u64_id in * by (unfold is_u64; lia).
  destruct (remove_impl ht e k (d + 1) drop) as [[rc ht'] e']. split; [done|]. intros k'.
  destruct (ht_lookup ht k) as [o|] eqn:El.
  - rewrite (proj2 (Z.eqb_neq (d + 1) 0)) in Ho by lia. simpl in Ho. rewrite Z.geb_leb in Ho.
    destruct (Z.leb_spec (d + 1) (ver o)) as [Hge|Hlt].
    + destruct Ho as (_ & -> & _). destruct (ht_lookup ht k') as [r|] eqn:Er; [|done].
      rewrite decide_False; [done|]. intros [-> ?]. simplify_eq. lia.
    + destruct Ho as (_ & [_ Hl] & _). rewrite Hl. destruct (decide (k' = k)) as [->|].
      * rewrite El, decide_True by (split; [done|lia]). done.
      * destruct (ht_lookup ht k'); [|done]. rewrite decide_False; [done|]. by intros [? _].
  - destruct Ho as (_ & -> & _). destruct (ht_lookup ht k') as [r|] eqn:Er; [|done].
    rewrite decide_False; [done|]. intros [-> _]. congruence.
Qed.

(** A versioned store, under the lock: it is refused and nothing changes, or the key has the copy. *)
Lemma store_lookup ht (e : wenv C) k v exp fl a m :
  table_ok ht -> req_ok (mk_sreq k v exp fl a true false 0) ->
  let '(rc, t', _) := pcache_ht_store_ver (mk_tabs ht None) e k v exp fl a m in
  table_ok (main t') /\ drain_from t' = None /\
  ((main t' = ht /\ rc <> 0 /\ rc <> CLORDER_TAKEN /\
    (rc = PCACHE_E_OLDER -> exists r, ht_lookup ht k = Some r /\ a <= ver r)) \/
   (rc = 0 /\ exists r, ver r = a /\ rval r = v /\ expires r = exp /\
    (forall o, ht_lookup ht k = Some o -> ver o < a) /\
    forall k', ht_lookup (main t') k' = if decide (k' = k) then Some r else ht_lookup ht k')).
Proof.
  intros Hok Hq. unfold pcache_ht_store_ver. rewrite store_impl_alone. cbn [skey sval].
  set (q := mk_sreq k v exp fl a true false 0) in *.
  destruct (oversize _ _) eqn:Hov; [split; [done|]; split; [done|]; by left|].
  pose proof (store_locked_outcome ht e q (m_cell m) (m_node m) (proj1 Hok) (rq_bytes _ Hq) Hov) as Ho.
  pose proof (store_locked_ok ht e q (m_cell m) (m_node m) Hok Hq Hov) as Hok'.
  destruct (store_locked ht e q (m_cell m) (m_node m)) as [[rc ht'] e']. cbn [fst snd main drain_from] in *.
  split; [done|]. split; [done|]. unfold store_outcome in Ho. cbn [skey use_ver sver q] in Ho.
  assert (forall old, (forall o, ht_lookup ht k = Some o -> ver o < a) ->
    (exists r, stored e q old r /\ ht_updates ht ht' k (Some r)) ->
    exists r, ver r = a /\ rval r = v /\ expires r = exp /\ (forall o, ht_lookup ht k = Some o -> ver o < a) /\
      forall k', ht_lookup ht' k' = if decide (k' = k) then Some r else ht_lookup ht k') as Hst.
  { intros old Hlt (r & Hs & [_ Hl]). exists r. split_and!; try done; by destruct Hs. }
  destruct (ht_lookup ht k) as [o|] eqn:El; simpl in Ho.
  - rewrite Z.geb_leb in Ho. destruct (Z.leb_spec a (ver o)).
    + destruct Ho as [-> ->]. left. split_and!; try done. intros _. by exists o.
    + case_match; destruct Ho as [-> Ho].
      * right. split; [done|]. apply (Hst (Some o)); [|done]. intros ? [= <-]. lia.
      * left. by rewrite Ho.
  - destruct Ho as [(-> & -> & _)|(-> & _ & Ho)]; [by left|right]. split; [done|]. by apply (Hst None).
Qed.

(** A turn that does all this keeps the pool's invariant. *)
Lemma pool_turn w0 l0 w l i th0 th w' th' :
  pool_ok w0 l0 w l -> l0 !! i = Some th0 -> l !! i = Some th ->
  world_ok w' -> changes w w' -> th_ok w' th0 th' ->
  (forall k r, rec_at w' k = Some r -> ver r <= w_tomb w' k ->
     will_remove th' k (ver r) \/ (rec_at w k = Some r /\ ver r <= w_tomb w k /\ ~ will_remove th k (ver r))) ->
  (forall k r, rec_at w' k = Some r -> rec_at w k = Some r \/
     exists v exp fl, th0 = SCheck k v exp fl (ver r) /\ rval r = v /\ expires r = exp) ->
  (forall k, w_tomb w' k = w_tomb w k \/ th0 = DPlant k (w_tomb w' k)) ->
  pool_ok w0 l0 w' (<[i := th']> l).
Proof.
  intros [Hw Hlen Hth Hcov Hfrom Htomb Hmono Hfirst] H0 Hi Hw' Hc Hth' Hcov' Hfrom' Htomb'.
  pose proof (lookup_lt_Some _ _ _ Hi) as Hlt. split; try done.
  - by rewrite length_insert.
  - intros j t0 t Hj0 Hj. destruct (decide (j = i)) as [->|Hne].
    + rewrite list_lookup_insert_eq in Hj by done. by simplify_eq.
    + rewrite list_lookup_insert_ne in Hj by done. eapply th_ok_changes; [done|]. by eapply Hth.
  - intros k r Hr Hle. destruct (Hcov' k r Hr Hle) as [?|(Hr' & Hle' & Hn)].
    + exists i, th'. by rewrite list_lookup_insert_eq by done.
    + destruct (Hcov k r Hr' Hle') as (j & t & Hj & Hrm). exists j, t.
      assert (j <> i) by (intros ->; by simplify_eq). by rewrite list_lookup_insert_ne by done.
  - intros k r Hr. destruct (Hfrom' k r Hr) as [Hr'|(v & exp & fl & -> & Hv & Hx)]; [by apply Hfrom|].
    right. by exists i, v, exp, fl.
  - intros k. destruct (Htomb' k) as [->|He]; [apply Htomb|]. right. exists i. by rewrite H0, He.
  - intros k. destruct Hc as [Ht _]. specialize (Ht k). specialize (Hmono k). lia.
  - intros k r Hr. eapply landed_changes; [done|]. by apply Hfirst.
Qed.

Lemma changes_refl w : changes w w.
Proof. split; [lia|]. intros; by left. Qed.

(** A removal of what a tombstone of the key covers. *)
Lemma removal_changes w ht' k d :
  d <= w_tomb w k ->
  (forall k', ht_lookup ht' k' = match rec_at w k' with
     | Some r => if decide (k' = k /\ ver r <= d) then None else Some r | None => None end) ->
  changes w (mk_world (mk_tabs ht' None) (w_shadow w) (w_tomb w)).
Proof.
  intros Hd Hl. split; [simpl; lia|]. intros k'.
  change (rec_at (mk_world (mk_tabs ht' None) (w_shadow w) (w_tomb w)) k') with (ht_lookup ht' k'). rewrite Hl.
  destruct (rec_at w k') as [r|] eqn:Er; [|by left]. destruct (decide _) as [[-> Hle]|]; [|by left].
  right. right. exists r. split_and!; try done. simpl. lia.
Qed.

Lemma removal_world w ht' : world_ok w -> table_ok ht' -> world_ok (mk_world (mk_tabs ht' None) (w_shadow w) (w_tomb w)).
Proof. intros [? ? ?] ?. by split. Qed.

Lemma store_turn w0 l0 w l i th0 k v exp fl a e m low w' th' :
  pool_ok w0 l0 w l -> start_ok th0 -> l0 !! i = Some th0 -> l !! i = Some (SStore k v exp fl a) ->
  tstep w (SStore k v exp fl a) e m low = (w', th') -> pool_ok w0 l0 w' (<[i := th']> l).
Proof.
  intros Hp Hs H0 Hi E. pose proof (po_th _ _ _ _ Hp _ _ _ H0 Hi) as Hth.
  destruct th0 as [k0 v0 exp0 fl0 a0| | | | | | |]; try done. simpl in Hth. destruct Hth as (-> & -> & -> & -> & ->).
  destruct Hs as [Ha Hq]. pose proof (po_world _ _ _ _ Hp) as [Ht Hdr Htb]. simpl in E.
  destruct w as [[ht dr] sh tomb]. simpl in *. subst dr.
  pose proof (store_lookup ht e k0 v0 exp0 fl0 a0 m Ht Hq) as Hst.
  destruct (pcache_ht_store_ver _ _ _ _ _ _ _ _) as [[rc t'] e']. injection E as <- <-.
  destruct Hst as (Hok & Hdr & [(Hm & Hrc & Hrc3 & Hold)|(-> & r & Hv & Hval & Hx & Hlt & Hl)]).
  - destruct t' as [ht' dr']. simpl in *. subst. rewrite (proj2 (Z.eqb_neq rc 0)) by done.
    eapply pool_turn; try done; [apply changes_refl| | |by intros; left|by intros; left].
    + simpl. intros [?|[?|?]]; [done| |done]. right. by apply Hold.
    + intros k r Hr Hle. right. split_and!; [done|done|by intros []].
  - simpl. eapply pool_turn; try done.
    + split; [simpl; lia|]. intros k. unfold rec_at. simpl. rewrite Hl. destruct (decide (k = k0)) as [->|]; [|by left].
      right. left. exists r. split; [done|]. intros o Ho. specialize (Hlt o Ho). lia.
    + simpl. split_and!; try done. right. unfold rec_at. simpl. exists r. rewrite Hl, decide_True by done. split; [done|lia].
    + intros k r' Hr Hle. unfold rec_at in *. simpl in *. rewrite Hl in Hr. destruct (decide (k = k0)) as [->|].
      * left. by simplify_eq.
      * right. split_and!; [done|done|by intros []].
    + intros k r' Hr. unfold rec_at in *. simpl in *. rewrite Hl in Hr. destruct (decide (k = k0)) as [->|]; [|by left].
      right. simplify_eq. by eexists _, _, _.
    + intros; by left.
Qed.

(** A turn that removes up to [d], and nothing else. *)
Lemma remove_turn w0 l0 w l i th0 th ht' k d th' :
  pool_ok w0 l0 w l -> l0 !! i = Some th0 -> l !! i = Some th -> d <= w_tomb w k -> table_ok ht' ->
  (forall k', ht_lookup ht' k' = match rec_at w k' with
     | Some r => if decide (k' = k /\ ver r <= d) then None else Some r | None => None end) ->
  (forall w', (forall k', w_tomb w' k' = w_tomb w k') -> changes w w' -> th_ok w' th0 th') ->
  (forall k' v, will_remove th k' v -> k' = k /\ v <= d) ->
  pool_ok w0 l0 (mk_world (mk_tabs ht' None) (w_shadow w) (w_tomb w)) (<[i := th']> l).
Proof.
  intros Hp H0 Hi Hd Hok Hl Hth Hwr. pose proof (po_world _ _ _ _ Hp) as Hw.
  pose proof (removal_changes w ht' k d Hd Hl) as Hc.
  assert (forall k' r, ht_lookup ht' k' = Some r -> rec_at w k' = Some r /\ ~ (k' = k /\ ver r <= d)) as Hleft.
  { intros k' r Hr. rewrite Hl in Hr. destruct (rec_at w k') as [r'|]; [|done]. destruct (decide _); [done|]. by simplify_eq. }
  eapply pool_turn; try done.
  - by apply removal_world.
  - apply Hth; done.
  - intros k' r Hr Hle. apply Hleft in Hr as [Hr Hn]. right. split_and!; try done. intros H. by apply Hwr in H.
  - intros k' r Hr. left. by apply Hleft.
  - intros; by left.
Qed.

Lemma take_turn w0 l0 w l i th0 k a tv e m low w' th' :
  pool_ok w0 l0 w l -> start_ok th0 -> l0 !! i = Some th0 -> l !! i = Some (STake k a tv) ->
  tstep w (STake k a tv) e m low = (w', th') -> pool_ok w0 l0 w' (<[i := th']> l).
Proof.
  intros Hp Hs H0 Hi E. pose proof (po_th _ _ _ _ Hp _ _ _ H0 Hi) as Hth.
  destruct th0 as [k0 v0 exp0 fl0 a0| | | | | | |]; try done. simpl in Hth. destruct Hth as (-> & -> & Hland & Htv).
  destruct Hs as [Ha _]. pose proof (po_world _ _ _ _ Hp) as Hw. pose proof Hw as [Ht Hdr Htb]. unfold ver_ok in Ha.
  simpl in E. unfold clorder_take_back in E. destruct (negb (tv =? 0) && (a0 <=? tv)) eqn:Ec.
  - bool_facts. unfold pcache_ht_remove_below in E. specialize (Htb k0).
    rewrite (proj2 (Z.eqb_neq (u64 (tv + 1)) 0)) in E by (rewrite u64_id; unfold is_u64; lia).
    pose proof (remove_upto_lookup (main (w_tabs w)) e k0 tv true Ht ltac:(lia)) as Hr.
    destruct (remove_impl _ _ _ _ _) as [[rc ht'] e']. destruct Hr as [Hok Hl]. rewrite Hdr in E. injection E as <- <-.
    eapply (remove_turn _ _ _ _ _ _ _ _ k0 tv); try done; [lia| |].
    + intros w' Hw' Hc. simpl. intros _. by eapply landed_changes.
    + simpl. intros k' v (-> & -> & ?). done.
  - injection E as <- <-. replace (mk_world (w_tabs w) (w_shadow w) (w_tomb w)) with w by (by destruct w).
    eapply pool_turn; try done; [apply changes_refl|by intros _| |by intros; left..].
    intros k r Hr Hle. right. split_and!; try done. simpl. intros (-> & Hv & ?).
    apply andb_false_iff in Ec as [Ec|Ec]; bool_facts; lia.
Qed.

Lemma main_turn w0 l0 w l i th0 k d e m low w' th' :
  pool_ok w0 l0 w l -> start_ok th0 -> l0 !! i = Some th0 -> l !! i = Some (DMain k d) ->
  tstep w (DMain k d) e m low = (w', th') -> pool_ok w0 l0 w' (<[i := th']> l).
Proof.
  intros Hp Hs H0 Hi E. pose proof (po_th _ _ _ _ Hp _ _ _ H0 Hi) as Hth.
  destruct th0 as [| | | |k0 d0| | |]; try done. simpl in Hth. destruct Hth as (-> & -> & Hle). simpl in Hs. unfold ver_ok in Hs.
  pose proof (po_world _ _ _ _ Hp) as [Ht Hdr Htb]. simpl in E. unfold del_one, pcache_ht_remove_upto in E.
  rewrite !(proj2 (Z.eqb_neq d0 0)) in E by lia.
  pose proof (remove_upto_lookup (main (w_tabs w)) e k0 d0 false Ht ltac:(lia)) as Hr.
  destruct (remove_impl _ _ _ _ _) as [[rc ht'] e']. destruct Hr as [Hok Hl]. rewrite Hdr in E. injection E as <- <-.
  eapply (remove_turn _ _ _ _ _ _ _ _ k0 d0); try done.
  - intros w' Hw' _. simpl. by rewrite Hw'.
  - by intros k' v [-> ?].
Qed.

Lemma pool_step w0 l0 w l w' l' :
  Forall start_ok l0 -> pool_ok w0 l0 w l -> pstep (w, l) (w', l') -> pool_ok w0 l0 w' l'.
Proof.
  intros Hs Hp Hst. inversion Hst as [? ? i th e m low ? th' Hi E]; subst.
  assert (exists th0, l0 !! i = Some th0) as [th0 H0].
  { apply lookup_lt_is_Some. rewrite <- (po_len _ _ _ _ Hp). by eapply lookup_lt_Some. }
  assert (start_ok th0) as Hs0 by (by eapply Forall_lookup_1).
  pose proof (po_th _ _ _ _ Hp _ _ _ H0 Hi) as Hth. pose proof (po_world _ _ _ _ Hp) as Hw.
  destruct th as [k v exp fl a|k v exp fl a|k a|k a tv|k d|k d|k d|rc].
  - (* check *) simpl in E. injection E as <- <-. eapply pool_turn; try done; [apply changes_refl| | |by intros; left..].
    + destruct th0; simpl in Hth; try done. injection Hth as -> -> -> -> ->. by case_match; simpl; [intros [?|[?|?]]|].
    + intros; right. split_and!; [done|done|by intros []].
  - by eapply store_turn.
  - (* read the tombstone *) simpl in E. injection E as <- <-. eapply pool_turn; try done; [apply changes_refl| | |by intros; left..].
    + destruct th0; simpl in Hth; try done. destruct Hth as (-> & -> & ?). simpl. split_and!; try done. apply Hw.
    + intros k' r Hr Hle. destruct (decide (k = k' /\ a = ver r)) as [[-> ->]|Hn].
      * left. simpl. by split_and!.
      * right. by split_and!.
  - by eapply take_turn.
  - (* plant *) simpl in E. injection E as <- <-. destruct th0; simpl in Hth; try done. injection Hth as -> ->.
    assert (forall k, w_tomb w k <= plant (w_tomb w) k0 ver k) as Hmono.
    { intros k. unfold plant. destruct (decide (k = k0)) as [->|]; lia. }
    eapply pool_turn; try done.
    + destruct Hw as [? ? Htb]. split; try done. intros k. simpl. unfold plant. simpl in Hs0. unfold ver_ok in Hs0.
      pose proof (Htb k). pose proof (Htb k0). case_decide; lia.
    + split; [done|]. intros k. by left.
    + simpl. split_and!; try done. unfold plant. rewrite decide_True by done. lia.
    + intros k r Hr Hle. simpl in Hle. unfold plant in Hle. destruct (decide (k = k0)) as [->|].
      * destruct (decide (HtChain.ver r <= w_tomb w k0)); [right; split_and!; [done|done|by intros []]|]. left. simpl. split; [done|lia].
      * right. split_and!; [done|done|by intros []].
    + intros; by left.
    + intros k. simpl. unfold plant. destruct (decide (k = k0)) as [->|]; [|by left].
      destruct (Z.max_spec (w_tomb w k0) ver) as [[_ ->]|[_ ->]]; [by right|by left].
  - (* the shadow *) simpl in E. injection E as <- <-. eapply pool_turn; try done.
    + destruct Hw; by split.
    + split; [simpl; lia|]. intros; by left.
    + intros k' r Hr Hle. destruct (decide (k = k' /\ HtChain.ver r <= d)) as [[-> ?]|Hn]; [by left|].
      right. by split_and!.
    + intros; by left.
    + intros; by left.
  - by eapply main_turn.
  - (* done *) simpl in E. injection E as <- <-. rewrite list_insert_id by done. done.
Qed.

Lemma pool_steps w0 l0 w l w' l' :
  Forall start_ok l0 -> pool_ok w0 l0 w l -> rtc pstep (w, l) (w', l') -> pool_ok w0 l0 w' l'.
Proof.
  intros Hs Hp Hr. remember (w, l) as a eqn:Ea. remember (w', l') as b eqn:Eb. revert w l Ea Hp.
  induction Hr as [|x [w1 l1] z Hst _ IH]; intros w l -> Hp; [by simplify_eq|].
  apply (IH Eb w1 l1 eq_refl). by eapply pool_step.
Qed.

(** A settled world: no record its key's tombstone covers. *)
Definition settled (w : world) : Prop := forall k r, rec_at w k = Some r -> w_tomb w k < ver r.

Lemma pool_start w l : world_ok w -> settled w -> Forall start_ok l -> pool_ok w l w l.
Proof.
  intros Hw Hset Hs. split; try done.
  - intros i th0 th H0 Hi. simplify_eq. assert (start_ok th0) as H by (by eapply Forall_lookup_1). by destruct th0.
  - intros k r Hr Hle. specialize (Hset k r Hr). lia.
  - intros; by left.
  - intros; by left.
  - intros k r Hr. right. by exists r.
Qed.

End Order.

(** * A race, run *)

(** The turns taken in the order of [sched]. *)
Fixpoint run_sched {C : Type} `{Lamport C} (w : world) (l : list thread) (e : wenv C) (m : mem) (sched : list nat)
    : world * list thread :=
  match sched with
  | [] => (w, l)
  | i :: sched =>
      match l !! i with
      | None => (w, l)
      | Some th => let '(w', th') := tstep w th e m false in run_sched w' (<[i := th']> l) e m sched
      end
  end.

Lemma run_sched_rtc {C : Type} `{Lamport C} e m sched : forall w l, rtc (pstep (C := C)) (w, l) (run_sched w l e m sched).
Proof.
  induction sched as [|i sched IH]; intros w l; simpl; [apply rtc_refl|].
  destruct (l !! i) as [th|] eqn:Ei; [|apply rtc_refl]. destruct (tstep w th e m false) as [w' th'] eqn:E.
  eapply rtc_l; [|apply IH]. by eapply ps_turn.
Qed.

Import Runs.

Definition race_world : world := mk_world (mk_tabs ht0 None) None (fun _ => 0).
Definition race_threads : list thread := [SCheck kA [7] 0 0 90; DPlant kA 95].

