(* ===== verification/Crc32c.v ===== *)
(** CRC32C: [src/src/crc32c.c].

    The checksum of the write-ahead log, the snapshots and recovery: the
    slice-by-8 table in software, the CPU's instruction where there is one, and
    the three-chain variant of the pump.  [crc_ref] is the bit-at-a-time
    definition of the Castagnoli CRC; the table routine is proved equal to it,
    and so are the hardware routines over any instruction that does what the
    processor manuals say (one byte step, eight byte steps). *)

From stdpp Require Import base tactics list numbers.
From S2P Require Import Prelude HtBase.
#[local] Open Scope Z_scope.

(** * The reference *)

(** [c = (c >> 1) ^ (0x82F63B78u & (0u - (c & 1)))] *)
Definition crc_bit (c : Z) : Z := Z.lxor (Z.shiftr c 1) (Z.land 0x82F63B78 (u32 (0 - Z.land c 1))).

Definition crc_byte (c : Z) : Z := Nat.iter 8 crc_bit c.

(** One byte of input, eight bits at a time. *)
Definition crc_step (c b : Z) : Z := crc_byte (Z.lxor c b).

Definition crc_not (c : Z) : Z := Z.lxor c 0xFFFFFFFF.

Definition crc_ref (init : Z) (p : bytes) : Z := crc_not (foldl crc_step (crc_not init) p).

(** * The code *)

(** [crc_tab[j][i]] as [crc_init_tab] fills it. *)
Fixpoint crc_tab (j : nat) (i : Z) : Z :=
  match j with
  | O => crc_byte i
  | S j => let t := crc_tab j i in Z.lxor (Z.shiftr t 8) (crc_byte (Z.land t 0xFF))
  end.

#[global] Arguments crc_tab : simpl never.

(** The eight-byte step of [crc32c_sw], and its byte loop. *)
Definition crc_slice8 (crc : Z) (lo hi : Z) : Z :=
  let lo := Z.lxor lo crc in
  Z.lxor (Z.lxor (Z.lxor (Z.lxor (Z.lxor (Z.lxor (Z.lxor
    (crc_tab 7 (Z.land lo 0xFF)) (crc_tab 6 (Z.land (Z.shiftr lo 8) 0xFF)))
    (crc_tab 5 (Z.land (Z.shiftr lo 16) 0xFF))) (crc_tab 4 (Z.shiftr lo 24)))
    (crc_tab 3 (Z.land hi 0xFF))) (crc_tab 2 (Z.land (Z.shiftr hi 8) 0xFF)))
    (crc_tab 1 (Z.land (Z.shiftr hi 16) 0xFF))) (crc_tab 0 (Z.shiftr hi 24)).

Definition crc_sw_byte (crc b : Z) : Z :=
  Z.lxor (Z.shiftr crc 8) (crc_tab 0 (Z.land (Z.lxor crc b) 0xFF)).

(** [while (n >= 8) { ... } while (n--) ...]: eight bytes a step, then one. *)
Fixpoint by8 (f8 : Z -> bytes -> Z) (f1 : Z -> Z -> Z) (crc : Z) (p : bytes) : Z :=
  match p with
  | p0 :: p1 :: p2 :: p3 :: p4 :: p5 :: p6 :: p7 :: p' =>
      by8 f8 f1 (f8 crc [p0; p1; p2; p3; p4; p5; p6; p7]) p'
  | _ => foldl f1 crc p
  end.

Definition crc32c_sw (crc : Z) (p : bytes) : Z :=
  crc_not (by8 (fun c w => crc_slice8 c (le_word (take 4 w)) (le_word (drop 4 w))) crc_sw_byte (crc_not crc) p).

Section Hardware.
(** The CRC instructions: a 64-bit word, a byte. *)
Context (crc32di crc32qi : Z -> Z -> Z).

Definition crc32c_hw (crc : Z) (p : bytes) : Z :=
  crc_not (by8 (fun c w => u32 (crc32di c (le_word w))) crc32qi (crc_not crc) p).

(** The first [n] whole words, in the raw register. *)
Fixpoint crc_words (n : nat) (c : Z) (p : bytes) : Z :=
  match n with
  | O => c
  | S n => crc_words n (crc32di c (le_word (take 8 p))) (drop 8 p)
  end.

Definition crc32c_x3_hw (p0 p1 p2 : bytes) : Z * Z * Z :=
  let m := (min (min (length p0) (length p1)) (length p2) / 8)%nat in
  let one p := crc32c_hw (crc_not (u32 (crc_words m 0xFFFFFFFF p))) (drop (8 * m) p) in
  (one p0, one p1, one p2).

(** The dispatch, by what the CPU supports. *)
Definition pc_crc32c (hw_ok : bool) (init : Z) (p : bytes) : Z :=
  if hw_ok then crc32c_hw init p else crc32c_sw init p.

Definition pc_crc32c_x3 (hw_ok : bool) (p0 p1 p2 : bytes) : Z * Z * Z :=
  if hw_ok then crc32c_x3_hw p0 p1 p2 else (crc32c_sw 0 p0, crc32c_sw 0 p1, crc32c_sw 0 p2).

End Hardware.

(** The check value of CRC-32C: "123456789". *)
Example crc32c_check : crc32c_sw 0 [49; 50; 51; 52; 53; 54; 55; 56; 57] = 0xE3069283.
Proof. vm_compute. reflexivity. Qed.

(** * Linearity *)

(** Equality of exclusive-or expressions, bit by bit. *)
Ltac xor_eq :=
  apply Z.bits_inj'; intros; rewrite ?Z.lxor_spec;
  repeat match goal with |- context [Z.testbit ?a ?n] => destruct (Z.testbit a n) end; reflexivity.

Lemma crc_bit_odd c : crc_bit c = Z.lxor (Z.shiftr c 1) (if Z.odd c then 0x82F63B78 else 0).
Proof.
  unfold crc_bit. f_equal. assert (Z.land c 1 = if Z.odd c then 1 else 0) as ->.
  { change 1 with (Z.ones 1). rewrite Z.land_ones by lia. by rewrite Zmod_odd. }
  by destruct (Z.odd c).
Qed.

Lemma odd_lxor a b : Z.odd (Z.lxor a b) = xorb (Z.odd a) (Z.odd b).
Proof. by rewrite <- !Z.bit0_odd, Z.lxor_spec. Qed.

Lemma crc_bit_lxor a b : crc_bit (Z.lxor a b) = Z.lxor (crc_bit a) (crc_bit b).
Proof.
  rewrite !crc_bit_odd, odd_lxor, Z.shiftr_lxor.
  destruct (Z.odd a), (Z.odd b); cbn [xorb]; set (k := 0x82F63B78); rewrite ?Z.lxor_0_r; xor_eq.
Qed.

Lemma iter_lxor f n a b :
  (forall a b, f (Z.lxor a b) = Z.lxor (f a) (f b)) ->
  Nat.iter n f (Z.lxor a b) = Z.lxor (Nat.iter n f a) (Nat.iter n f b).
Proof. intros H. induction n as [|n IH]; [done|]. cbn [Nat.iter nat_rect]. unfold Nat.iter in IH. by rewrite IH, H. Qed.

Lemma iter_nonneg f n a : (forall a, 0 <= a -> 0 <= f a) -> 0 <= a -> 0 <= Nat.iter n f a.
Proof. intros H Ha. induction n as [|n IH]; [done|]. by apply H. Qed.

Lemma crc_byte_lxor a b : crc_byte (Z.lxor a b) = Z.lxor (crc_byte a) (crc_byte b).
Proof. apply iter_lxor, crc_bit_lxor. Qed.

Lemma crc_bit_double c : crc_bit (2 * c) = c.
Proof.
  rewrite crc_bit_odd, Z.odd_mul. cbn [Z.odd andb]. rewrite Z.lxor_0_r, Z.shiftr_div_pow2 by lia.
  change (2 ^ 1) with 2. rewrite Z.mul_comm. apply Z.div_mul. lia.
Qed.

(** A byte of zeros at the bottom is shifted out. *)
Lemma crc_byte_shift c : crc_byte (256 * c) = c.
Proof.
  unfold crc_byte. replace (256 * c) with (2 * (2 * (2 * (2 * (2 * (2 * (2 * (2 * c)))))))) by lia.
  cbn [Nat.iter nat_rect]. by rewrite !crc_bit_double.
Qed.

Lemma low_high c : 0 <= c -> c = Z.lxor (256 * (Z.shiftr c 8)) (Z.land c 0xFF).
Proof.
  intros Hc. change 0xFF with (Z.ones 8). rewrite Z.land_ones, Z.shiftr_div_pow2 by lia. change (2 ^ 8) with 256.
  rewrite Z.lxor_comm. assert (Z.lor (c mod 256) (Z.shiftl (c / 256) 8) = c mod 256 + c / 256 * 2 ^ 8) as E.
  { apply lor_shiftl_add; [lia|]. apply Z.mod_pos_bound. lia. }
  rewrite Z.shiftl_mul_pow2 in E by lia. change (2 ^ 8) with 256 in E. rewrite <- Z.lxor_lor in E.
  - rewrite Z.mul_comm, E. Z.div_mod_to_equations; lia.
  - replace (c / 256 * 256) with (Z.shiftl (c / 256) 8) by (rewrite Z.shiftl_mul_pow2 by lia; reflexivity).
    apply Z.bits_inj'. intros n Hn. rewrite Z.land_spec, Z.bits_0. destruct (Z.lt_ge_cases n 8).
    + rewrite Z.shiftl_spec_low by lia. apply andb_false_r.
    + change 256 with (2 ^ 8). by rewrite Z.mod_pow2_bits_high by lia.
Qed.

(** The table's identity: a byte step is a shift and one lookup. *)
Lemma crc_byte_table c : 0 <= c -> Z.lxor (Z.shiftr c 8) (crc_byte (Z.land c 0xFF)) = crc_byte c.
Proof. intros Hc. rewrite (low_high c Hc) at 3. by rewrite crc_byte_lxor, crc_byte_shift. Qed.

Lemma crc_bit_nonneg c : 0 <= c -> 0 <= crc_bit c.
Proof. intros. rewrite crc_bit_odd. apply Z.lxor_nonneg. rewrite Z.shiftr_nonneg. destruct (Z.odd c); lia. Qed.

Lemma crc_byte_nonneg c : 0 <= c -> 0 <= crc_byte c.
Proof. apply iter_nonneg, crc_bit_nonneg. Qed.

(** Conversion must not unfold a byte step: its argument doubles at each bit. *)
#[global] Opaque crc_byte.

Lemma crc_tab_S j i :
  crc_tab (S j) i = Z.lxor (Z.shiftr (crc_tab j i) 8) (crc_byte (Z.land (crc_tab j i) 0xFF)).
Proof. reflexivity. Qed.

Lemma crc_tab_iter j i : 0 <= i -> crc_tab j i = Nat.iter (S j) crc_byte i /\ 0 <= crc_tab j i.
Proof.
  intros Hi. induction j as [|j [IH Hn]].
  - change (crc_tab 0 i) with (crc_byte i). split; [done|by apply crc_byte_nonneg].
  - rewrite crc_tab_S, crc_byte_table by done. split; [by rewrite IH|by apply crc_byte_nonneg].
Qed.

(** * The slices *)

Abbreviation S_ n x := (Nat.iter n crc_byte x).

Lemma S_lxor n a b : S_ n (Z.lxor a b) = Z.lxor (S_ n a) (S_ n b).
Proof. apply iter_lxor, crc_byte_lxor. Qed.

Lemma S_in n x : S_ n (crc_byte x) = S_ (S n) x.
Proof. symmetry. apply Nat.iter_succ_r. Qed.

Lemma S_shift n c : S_ (S n) (256 * c) = S_ n c.
Proof. by rewrite <- S_in, crc_byte_shift. Qed.

(** A word of [length l] bytes goes through as many steps as its bytes. *)
Lemma le_word_cons b l : is_u8 b -> le_word (b :: l) = Z.lxor (256 * le_word l) b.
Proof.
  intros Hb. cbn [le_word foldr]. change (foldr _ 0 l) with (le_word l). unfold is_u8 in Hb. pow2.
  assert (Z.lor b (Z.shiftl (le_word l) 8) = b + le_word l * 2 ^ 8) as E by (apply lor_shiftl_add; lia).
  rewrite <- Z.lxor_lor in E.
  - rewrite Z.shiftl_mul_pow2 in E by lia. change (2 ^ 8) with 256 in E. rewrite (Z.mul_comm 256), Z.lxor_comm, E. lia.
  - apply Z.bits_inj'. intros n Hn. rewrite Z.land_spec, Z.bits_0. destruct (Z.lt_ge_cases n 8).
    + rewrite Z.shiftl_spec_low by lia. apply andb_false_r.
    + rewrite <- (Z.mod_small b (2 ^ 8)) by lia. by rewrite Z.mod_pow2_bits_high by lia.
Qed.

(** The steps of several bytes, from the register and the bytes as a word. *)
Lemma foldl_step c l :
  bytes_ok l -> foldl crc_step c l = S_ (length l) (Z.lxor c (le_word l)).
Proof.
  revert c. induction l as [|b l IH]; intros c Hl; [by rewrite Z.lxor_0_r|].
  inversion Hl as [|? ? Hb Hl']; subst. cbn [foldl length]. rewrite (IH _ Hl'), (le_word_cons b l Hb).
  rewrite !S_lxor, S_shift. unfold crc_step. rewrite crc_byte_lxor, S_lxor, !S_in. xor_eq.
Qed.

(** A word taken apart by bytes goes through the tables. *)
Lemma word_bytes w : 0 <= w < 2 ^ 32 ->
  w = le_word [Z.land w 0xFF; Z.land (Z.shiftr w 8) 0xFF; Z.land (Z.shiftr w 16) 0xFF; Z.shiftr w 24] /\
  bytes_ok [Z.land w 0xFF; Z.land (Z.shiftr w 8) 0xFF; Z.land (Z.shiftr w 16) 0xFF; Z.shiftr w 24].
Proof.
  intros Hw. change 0xFF with (Z.ones 8). rewrite !Z.land_ones, !Z.shiftr_div_pow2 by lia.
  change (2 ^ 24) with 16777216; change (2 ^ 16) with 65536; pow2. cbn [le_word foldr].
  split; [Z.div_mod_to_equations; lia|].
  repeat (constructor; [unfold is_u8; pow2; Z.div_mod_to_equations; lia|]). constructor.
Qed.

Lemma S_word n b0 b1 b2 b3 : bytes_ok [b0; b1; b2; b3] ->
  S_ (S (S (S (S n)))) (le_word [b0; b1; b2; b3]) =
  Z.lxor (Z.lxor (Z.lxor (S_ (S (S (S (S n)))) b0) (S_ (S (S (S n))) b1)) (S_ (S (S n)) b2)) (S_ (S n) b3).
Proof.
  intros Hl. inversion Hl as [|? ? ? Hl1]; inversion Hl1 as [|? ? ? Hl2]; inversion Hl2 as [|? ? ? Hl3]; inversion Hl3; subst.
  rewrite !le_word_cons by done. change (le_word []) with 0. rewrite !S_lxor, !S_shift, !S_lxor, !S_shift, !S_lxor, !S_shift, !S_lxor, !S_shift.
  assert (S_ n 0 = 0) as ->; [|rewrite ?Z.lxor_0_l; xor_eq].
  induction n as [|n IH]; [done|]. cbn [Nat.iter nat_rect]. unfold Nat.iter in IH. rewrite IH. exact (crc_byte_shift 0).
Qed.

Lemma land_ff_nonneg x : 0 <= Z.land x 0xFF.
Proof. apply Z.land_nonneg. lia. Qed.

(** The slice-by-8 step is eight byte steps. *)
Lemma slice8_steps c w :
  is_u32 c -> bytes_ok w -> length w = 8%nat ->
  crc_slice8 c (le_word (take 4 w)) (le_word (drop 4 w)) = foldl crc_step c w.
Proof.
  intros Hc Hw Hlen. set (a := take 4 w). set (b := drop 4 w).
  assert (bytes_ok a /\ bytes_ok b /\ length a = 4%nat /\ length b = 4%nat) as (Ha & Hb & La & Lb).
  { unfold a, b. rewrite length_take, length_drop, Hlen. split_and!; try done; [by apply Forall_take|by apply Forall_drop]. }
  assert (is_u32 (le_word a) /\ is_u32 (le_word b)) as [Ra Rb].
  { pose proof (le_word_range a Ha). pose proof (le_word_range b Hb). unfold zlen in *. rewrite La, Lb in *. done. }
  rewrite <- (take_drop 4 w). fold a b. rewrite foldl_app, (foldl_step _ b Hb), (foldl_step c a Ha), La, Lb.
  rewrite S_lxor. rewrite <- (Nat.iter_add 4 4 crc_byte). cbn [Nat.add].
  unfold crc_slice8. cbv zeta. rewrite (Z.lxor_comm (le_word a) c). set (lo := Z.lxor c (le_word a)).
  assert (is_u32 lo) as Hlo by (by apply lxor_u32).
  destruct (word_bytes lo Hlo) as [Elo Olo], (word_bytes (le_word b) Rb) as [Ehi Ohi].
  assert (0 <= Z.shiftr lo 24 /\ 0 <= Z.shiftr (le_word b) 24) as [Hs1 Hs2] by (split; apply Z.shiftr_nonneg; [apply Hlo|apply Rb]).
  rewrite !(fun j i H => proj1 (crc_tab_iter j i H)) by (apply land_ff_nonneg || done).
  rewrite Elo at 5. rewrite Ehi at 5. rewrite (S_word 4), (S_word 0) by done. xor_eq.
Qed.

(** * The loops *)

Lemma crc_bit_u32 c : is_u32 c -> is_u32 (crc_bit c).
Proof.
  intros Hc. rewrite crc_bit_odd. apply lxor_u32; [apply shiftr_u32; [done|lia]|].
  unfold is_u32. destruct (Z.odd c); lia.
Qed.

#[local] Transparent crc_byte.
Lemma crc_byte_u32 c : is_u32 c -> is_u32 (crc_byte c).
Proof.
  assert (forall n c, is_u32 c -> is_u32 (Nat.iter n crc_bit c)) as H; [|apply H].
  intros n x Hx. induction n as [|n IH]; [done|]. by apply crc_bit_u32.
Qed.
#[local] Opaque crc_byte.

Lemma u8_u32 b : is_u8 b -> is_u32 b.
Proof. unfold is_u8, is_u32. lia. Qed.

Lemma crc_step_u32 c b : is_u32 c -> is_u8 b -> is_u32 (crc_step c b).
Proof. intros. apply crc_byte_u32, lxor_u32; [done|by apply u8_u32]. Qed.

Lemma foldl_step_u32 c l : is_u32 c -> bytes_ok l -> is_u32 (foldl crc_step c l).
Proof.
  intros Hc Hl. revert c Hc. induction Hl as [|b l Hb Hl IH]; intros c Hc; [done|]. apply IH. by apply crc_step_u32.
Qed.

Section By8.
Context (f8 : Z -> bytes -> Z) (f1 : Z -> Z -> Z).
Context (H8 : forall c w, is_u32 c -> bytes_ok w -> length w = 8%nat -> f8 c w = foldl crc_step c w).
Context (H1 : forall c b, is_u32 c -> is_u8 b -> f1 c b = crc_step c b).

Lemma foldl_f1 c p : is_u32 c -> bytes_ok p -> foldl f1 c p = foldl crc_step c p.
Proof.
  intros Hc Hp. revert c Hc. induction Hp as [|b p Hb Hp IH]; intros c Hc; [done|]. cbn [foldl].
  rewrite H1 by done. apply IH. by apply crc_step_u32.
Qed.

(** Eight at a time and then one at a time is one at a time. *)
Lemma by8_steps c p : is_u32 c -> bytes_ok p -> by8 f8 f1 c p = foldl crc_step c p.
Proof.
  remember (length p) as n eqn:Hn. revert c p Hn. induction n as [n IH] using lt_wf_ind. intros c p -> Hc Hp.
  destruct p as [|p0 [|p1 [|p2 [|p3 [|p4 [|p5 [|p6 [|p7 p']]]]]]]]; try by apply foldl_f1.
  cbn [by8]. change (p0 :: p1 :: p2 :: p3 :: p4 :: p5 :: p6 :: p7 :: p') with ([p0; p1; p2; p3; p4; p5; p6; p7] ++ p') in *.
  apply Forall_app in Hp as [Hw Hp']. rewrite foldl_app, H8 by done.
  apply (IH (length p')); [rewrite length_app; cbn [length]; lia|done|by apply foldl_step_u32|done].
Qed.

End By8.

Lemma sw_byte_step c b : is_u32 c -> is_u8 b -> crc_sw_byte c b = crc_step c b.
Proof.
  intros Hc Hb. unfold crc_sw_byte, crc_step. change (crc_tab 0 ?x) with (crc_byte x).
  pose proof (lxor_u32 c b Hc (u8_u32 b Hb)) as [Hx _].
  rewrite <- (crc_byte_table (Z.lxor c b)) by done. f_equal. rewrite Z.shiftr_lxor.
  assert (Z.shiftr b 8 = 0) as ->; [|by rewrite Z.lxor_0_r].
  rewrite Z.shiftr_div_pow2 by lia. by apply Z.div_small.
Qed.

Lemma crc_not_u32 c : is_u32 c -> is_u32 (crc_not c).
Proof. intros. apply lxor_u32; [done|]. unfold is_u32. lia. Qed.

Lemma crc_not_not c : crc_not (crc_not c) = c.
Proof. unfold crc_not. by rewrite Z.lxor_assoc, Z.lxor_nilpotent, Z.lxor_0_r. Qed.

Lemma crc32c_sw_eq init p : is_u32 init -> bytes_ok p -> crc32c_sw init p = crc_ref init p.
Proof.
  intros Hi Hp. unfold crc32c_sw, crc_ref. f_equal. apply by8_steps.
  - intros c w Hc Hw Hl. by apply slice8_steps.
  - apply sw_byte_step.
  - by apply crc_not_u32.
  - done.
Qed.

(** * One byte changed is one checksum changed *)

Lemma crc_bit_zero c : is_u32 c -> crc_bit c = 0 -> c = 0.
Proof.
  unfold is_u32. pow2. rewrite crc_bit_odd. intros Hc Hz. apply Z.lxor_eq in Hz.
  rewrite Z.shiftr_div_pow2 in Hz by lia. change (2 ^ 1) with 2 in Hz. pose proof (Zmod_odd c).
  destruct (Z.odd c); Z.div_mod_to_equations; lia.
Qed.

#[local] Transparent crc_byte.
Lemma crc_byte_zero c : is_u32 c -> crc_byte c = 0 -> c = 0.
Proof.
  unfold crc_byte. generalize 8%nat. intros n. revert c.
  enough (forall c, is_u32 c -> is_u32 (Nat.iter n crc_bit c) /\ (Nat.iter n crc_bit c = 0 -> c = 0)) by naive_solver.
  induction n as [|n IH]; intros c Hc; [done|]. destruct (IH c Hc) as [H1 H2]. cbn [Nat.iter nat_rect]. fold (Nat.iter n crc_bit c).
  split; [by apply crc_bit_u32|]. intros Hz. apply H2. by apply crc_bit_zero.
Qed.
#[local] Opaque crc_byte.

Lemma crc_step_inj c d b : is_u32 c -> is_u32 d -> is_u8 b -> crc_step c b = crc_step d b -> c = d.
Proof.
  intros Hc Hd Hb Heq. apply Z.lxor_eq. apply crc_byte_zero; [by apply lxor_u32|].
  unfold crc_step in Heq. rewrite !crc_byte_lxor in *. transitivity (Z.lxor (Z.lxor (crc_byte c) (crc_byte b)) (Z.lxor (crc_byte d) (crc_byte b))).
  - xor_eq.
  - rewrite Heq. apply Z.lxor_nilpotent.
Qed.

Lemma crc_step_inj_r c b b' : is_u8 b -> is_u8 b' -> crc_step c b = crc_step c b' -> b = b'.
Proof.
  intros Hb Hb' Heq. apply Z.lxor_eq. apply crc_byte_zero; [by apply lxor_u32; apply u8_u32|].
  unfold crc_step in Heq. rewrite !crc_byte_lxor in *. transitivity (Z.lxor (Z.lxor (crc_byte c) (crc_byte b)) (Z.lxor (crc_byte c) (crc_byte b'))).
  - xor_eq.
  - rewrite Heq. apply Z.lxor_nilpotent.
Qed.

Lemma foldl_step_inj c d l : is_u32 c -> is_u32 d -> bytes_ok l -> foldl crc_step c l = foldl crc_step d l -> c = d.
Proof.
  revert c d. induction l as [|b l IH]; intros c d Hc Hd Hl; [done|]. apply bytes_ok_cons in Hl as [Hb Hl].
  cbn [foldl]. intros Heq. apply IH in Heq; auto using crc_step_u32. by eapply crc_step_inj.
Qed.

Lemma crc_flip init p b b' q :
  is_u32 init -> bytes_ok p -> is_u8 b -> is_u8 b' -> bytes_ok q -> b <> b' ->
  crc32c_sw init (p ++ b :: q) <> crc32c_sw init (p ++ b' :: q).
Proof.
  intros Hi Hp Hb Hb' Hq Hne Heq. rewrite !crc32c_sw_eq in Heq by (auto; rewrite bytes_ok_app, bytes_ok_cons; auto).
  unfold crc_ref in Heq. apply (f_equal crc_not) in Heq. rewrite !crc_not_not, !foldl_app in Heq. cbn [foldl] in Heq.
  assert (is_u32 (foldl crc_step (crc_not init) p)) by auto using foldl_step_u32, crc_not_u32.
  apply foldl_step_inj in Heq; auto using crc_step_u32. by apply crc_step_inj_r in Heq.
Qed.

(** The slice-by-8 table routine is the Castagnoli CRC: for every start
    value and every byte string it computes what one bit at a time computes,
    and a checksum continues - the checksum of two pieces, the second started
    from the first's, is that of the whole. *)
Theorem crc32c_sw_correct init p q :
  is_u32 init -> bytes_ok p -> bytes_ok q ->
  crc32c_sw init p = crc_ref init p /\
  crc32c_sw (crc32c_sw init p) q = crc32c_sw init (p ++ q) /\ is_u32 (crc32c_sw init p).
Proof.
  intros Hi Hp Hq. assert (is_u32 (crc_ref init p)) as Hr by (by apply crc_not_u32, foldl_step_u32; [apply crc_not_u32|]).
  rewrite !crc32c_sw_eq by (done || by apply Forall_app). split_and!; [done| |done].
  unfold crc_ref. by rewrite crc_not_not, foldl_app.
Qed.

Lemma crc32c_sw_correct_witness :
  crc32c_sw 0 [1; 2; 3; 4; 5; 6; 7; 8; 9] = crc_ref 0 [1; 2; 3; 4; 5; 6; 7; 8; 9] /\
  crc32c_sw (crc32c_sw 0 [1; 2; 3; 4; 5; 6; 7; 8; 9]) [255] = crc32c_sw 0 [1; 2; 3; 4; 5; 6; 7; 8; 9; 255] /\
  is_u32 (crc32c_sw 0 [1; 2; 3; 4; 5; 6; 7; 8; 9]).
Proof.
  apply (crc32c_sw_correct 0 [1; 2; 3; 4; 5; 6; 7; 8; 9] [255]); [|repeat constructor; done|repeat constructor; done].
  split; [vm_compute; discriminate|vm_compute; reflexivity].
Defined.

(** * The hardware paths *)

Section HardwareLaws.
Context (crc32di crc32qi : Z -> Z -> Z).
(** The instructions, as documented: one byte step; eight byte steps. *)
Hypothesis crc32qi_step : forall c b, is_u32 c -> is_u8 b -> crc32qi c b = crc_step c b.
Hypothesis crc32di_steps : forall c w, is_u32 c -> bytes_ok w -> length w = 8%nat ->
  crc32di c (le_word w) = foldl crc_step c w.

Lemma crc32c_hw_eq init p : is_u32 init -> bytes_ok p -> crc32c_hw crc32di crc32qi init p = crc_ref init p.
Proof.
  intros Hi Hp. unfold crc32c_hw, crc_ref. f_equal. apply by8_steps; [|done|by apply crc_not_u32|done].
  intros c w Hc Hw Hl. rewrite crc32di_steps by done. apply u32_id. by apply foldl_step_u32.
Qed.

Lemma crc_words_eq n c p :
  is_u32 c -> bytes_ok p -> (8 * n <= length p)%nat ->
  crc_words crc32di n c p = foldl crc_step c (take (8 * n) p).
Proof.
  revert c p. induction n as [|n IH]; intros c p Hc Hp Hl; [done|]. cbn [crc_words].
  replace (8 * S n)%nat with (8 + 8 * n)%nat by lia. rewrite <- take_take_drop, foldl_app.
  assert (bytes_ok (take 8 p)) by (by apply Forall_take).
  rewrite crc32di_steps by (rewrite ?length_take; done || lia).
  apply IH; [by apply foldl_step_u32|by apply Forall_drop|rewrite length_drop; lia].
Qed.

(** Every checksum path agrees: whichever backend the CPU selects, one
    buffer or three at once, the result is the Castagnoli CRC of each. *)
Theorem crc32c_paths_agree hw_ok p0 p1 p2 :
  bytes_ok p0 -> bytes_ok p1 -> bytes_ok p2 ->
  pc_crc32c crc32di crc32qi hw_ok 0 p0 = crc_ref 0 p0 /\
  pc_crc32c_x3 crc32di crc32qi hw_ok p0 p1 p2 = (crc_ref 0 p0, crc_ref 0 p1, crc_ref 0 p2).
Proof.
  intros H0 H1 H2. assert (is_u32 0) as Hz by (unfold is_u32; lia). unfold pc_crc32c, pc_crc32c_x3.
  destruct hw_ok; [|by rewrite !crc32c_sw_eq].
  split; [by apply crc32c_hw_eq|]. unfold crc32c_x3_hw. cbv zeta.
  set (m := (min (min (length p0) (length p1)) (length p2) / 8)%nat).
  assert (8 * m <= min (min (length p0) (length p1)) (length p2))%nat as Hm by (apply Nat.Div0.mul_div_le).
  assert (forall p, bytes_ok p -> (8 * m <= length p)%nat ->
    crc32c_hw crc32di crc32qi (crc_not (u32 (crc_words crc32di m 0xFFFFFFFF p))) (drop (8 * m) p) = crc_ref 0 p) as Hone.
  { intros p Hp Hl. assert (is_u32 0xFFFFFFFF) as Hf by (unfold is_u32; lia).
    rewrite crc_words_eq by done. assert (is_u32 (foldl crc_step 0xFFFFFFFF (take (8 * m) p))) as Hu
      by (by apply foldl_step_u32, Forall_take).
    rewrite u32_id, crc32c_hw_eq by (done || by apply crc_not_u32 || by apply Forall_drop).
    unfold crc_ref. rewrite crc_not_not, <- foldl_app, take_drop. done. }
  by rewrite !Hone by (done || lia).
Qed.

End HardwareLaws.

(** The instructions exist: the byte steps themselves. *)
Lemma crc32c_paths_agree_witness :
  pc_crc32c_x3 (fun c v => foldl crc_step c (le_bytes 8 v)) crc_step true [1] [2; 3] [] =
    (crc_ref 0 [1], crc_ref 0 [2; 3], crc_ref 0 []).
Proof.
  apply (crc32c_paths_agree (fun c v => foldl crc_step c (le_bytes 8 v)) crc_step);
    [reflexivity| |repeat constructor; done..].
  - intros c w _ Hw Hl. do 2 f_equal. apply le_word_inj; [apply le_bytes_ok|exact Hw|by rewrite le_bytes_len|].
    apply le_word_bytes. pose proof (le_word_range w Hw) as Hr. unfold zlen in Hr. rewrite Hl in Hr. exact Hr.
Defined.
