(* ===== verification/WalFmt.v ===== *)
(** The write-ahead log's format: [src/src/walfmt.h], the record [produce]
    builds and the pump stamps ([src/src/wal.c]), the CONTROL file of the same
    file, and the reader [src/src/walscan.c].

    A segment is a header (magic, generation) and records, each a length, a
    checksum and the generation echo before its payload.  The reader stops at
    the first thing that is not a record of its segment's generation.  Proved:
    what was written is read back, in order, field by field; a record of an
    older life of the segment is never read; a segment cut anywhere yields
    exactly the records that lie whole before the cut; and segments are read in
    generation order. *)

From stdpp Require Import base tactics list numbers sorting.
From S2P Require Import Prelude HtBase Crc32c.
#[local] Open Scope Z_scope.

(** * Little-endian fields *)

Definition w16 (v : Z) : bytes := [u8 v; u8 (Z.shiftr v 8)].
Definition w32 (v : Z) : bytes := [u8 v; u8 (Z.shiftr v 8); u8 (Z.shiftr v 16); u8 (Z.shiftr v 24)].
Definition w64 (v : Z) : bytes := w32 (u32 v) ++ w32 (u32 (Z.shiftr v 32)).

(** The byte at [p[i]] of a buffer that covers it. *)
Definition at_ (p : bytes) (i : nat) : Z := default 0 (p !! i).

Definition r16 (p : bytes) : Z := u16 (Z.lor (at_ p 0) (Z.shiftl (at_ p 1) 8)).
Definition r32 (p : bytes) : Z :=
  Z.lor (Z.lor (Z.lor (at_ p 0) (Z.shiftl (at_ p 1) 8)) (Z.shiftl (at_ p 2) 16)) (Z.shiftl (at_ p 3) 24).
Definition r64 (p : bytes) : Z := Z.lor (r32 p) (Z.shiftl (r32 (drop 4 p)) 32).

#[global] Arguments w16 : simpl never.
#[global] Arguments w32 : simpl never.
#[global] Arguments w64 : simpl never.
#[global] Arguments r16 : simpl never.
#[global] Arguments r32 : simpl never.
#[global] Arguments r64 : simpl never.

(** * Record types *)

Definition PC_WAL_MAGIC : Z := 0x4C574350.
Definition PC_WAL_HDR : nat := 8.
Definition PC_WAL_RECHDR : nat := 12.
Definition PC_WAL_T_UPSERT : Z := 1.
Definition PC_WAL_T_DEL : Z := 2.
Definition PC_WAL_T_TOUCH : Z := 3.
Definition PC_WAL_T_UPSERT_V : Z := 4.
Definition PC_WAL_T_TOUCH_V : Z := 5.
Definition PC_WAL_T_COL_CREATE : Z := 6.
Definition PC_WAL_T_COL_DROP : Z := 7.
Definition PC_WAL_T_COL_RENAME : Z := 8.
Definition PC_WAL_T_DEL_N : Z := 9.

Definition PC_WAL_T_KNOWN (t : Z) : bool := (PC_WAL_T_UPSERT <=? t) && (t <=? PC_WAL_T_DEL_N).
Definition PC_WAL_T_HASVER (t : Z) : bool := (t =? PC_WAL_T_UPSERT_V) || (t =? PC_WAL_T_TOUCH_V).
Definition PC_WAL_HDRLEN (t : Z) : Z :=
  if t =? PC_WAL_T_UPSERT_V then 33 else if PC_WAL_T_HASVER t then 32 else 24.

Definition MAX_REC : Z := Z.of_nat PC_WAL_RECHDR + 32 + 255 + PCACHE_CELL_MAX.

(** * Writing *)

Record wal_rec := mk_wal {
  wr_type : Z; wr_col : bytes; wr_key : bytes; wr_val : bytes;
  wr_exp : Z; wr_seq : Z; wr_ver : Z; wr_flags : Z;
}.

(** The record as [produce] lays it in its scratch: checksum and generation
    zero, for the log's thread to stamp. *)
Definition wal_payload (r : wal_rec) : bytes :=
  [u8 (wr_type r); u8 (zlen (wr_col r))] ++ w16 (zlen (wr_key r)) ++ w32 (zlen (wr_val r)) ++
  w64 (wr_exp r) ++ w64 (wr_seq r) ++
  (if PC_WAL_T_HASVER (wr_type r) then w64 (wr_ver r) else []) ++
  (if PC_WAL_HDRLEN (wr_type r) =? 33 then [wr_flags r] else []) ++
  wr_col r ++ wr_key r ++ wr_val r.

Definition payload_len (r : wal_rec) : Z :=
  PC_WAL_HDRLEN (wr_type r) + zlen (wr_col r) + zlen (wr_key r) + zlen (wr_val r).

(** [None]: over the largest record, counted as dropped. *)
Definition produce_rec (r : wal_rec) : option bytes :=
  let pl := u32 (payload_len r) in
  let need := u32 (Z.of_nat PC_WAL_RECHDR + pl) in
  if need >? MAX_REC then None else Some (w32 pl ++ w32 0 ++ w32 0 ++ wal_payload r).

(** [w32(p + off, v)] into a record. *)
Definition poke32 (b : bytes) (off : nat) (v : Z) : bytes := take off b ++ w32 v ++ drop (off + 4) b.

(** The pump's stamp: the generation of the segment it lands in, then the
    checksum of all that follows the checksum. *)
Definition wal_stamp (gen : Z) (b : bytes) : bytes :=
  let b := poke32 b 8 gen in
  poke32 b 4 (crc32c_sw 0 (drop 8 b)).

Definition seg_write_header (gen : Z) : bytes := w32 PC_WAL_MAGIC ++ w32 gen.

(** * Reading *)

Inductive wal_item : Type :=
  | IRec (r : wal_rec)
  | IUnknown (type : Z).              (* a newer build's, handed on unparsed *)

Inductive wal_why : Type := WEnd | WTorn | WStale.

(** [pread]: [None] for a short read. *)
Definition pread (file : bytes) (n off : nat) : option bytes :=
  let b := take n (drop off file) in
  if (length b =? n)%nat then Some b else None.

(** The known record at [p = buf + 4], [len] bytes of it just read. *)
Definition parse_rec (p : bytes) (len : Z) : option wal_rec :=
  let type := at_ p 0 in
  let collen := at_ p 1 in
  let klen := r16 (drop 2 p) in
  let vlen := r32 (drop 4 p) in
  let exp := r64 (drop 8 p) in
  let seq := r64 (drop 16 p) in
  let hdr := PC_WAL_HDRLEN type in
  let ver := if 32 <=? hdr then r64 (drop 24 p) else 0 in
  let flags := if hdr =? 33 then at_ p 32 else 0 in
  let col := zdrop hdr p in
  let key := zdrop collen col in
  let val := zdrop klen key in
  if negb (u32 (hdr + u32 (collen + klen) + vlen) =? len) then None
  else Some (mk_wal type (ztake collen col) (ztake klen key) (ztake vlen val) exp seq ver flags).

Inductive scan_step : Type :=
  | SBreak (why : wal_why)            (* WEnd leaves [*why] as it was *)
  | SItem (it : wal_item) (buf : bytes) (next : nat).

(** One turn of the reader's loop; [buf] is its record buffer, reused. *)
Definition scan_one (gen : Z) (file buf : bytes) (off : nat) : scan_step :=
  match pread file PC_WAL_RECHDR off with
  | None => SBreak WEnd
  | Some rh =>
      let len := r32 rh in
      if (len =? 0) || (len >? MAX_REC) then SBreak (if len =? 0 then WEnd else WTorn)
      else if negb (r32 (drop 8 rh) =? gen) then SBreak WStale
      else match pread file (Z.to_nat len) (off + PC_WAL_RECHDR) with
      | None => SBreak WTorn
      | Some body =>
          let buf := take 4 (drop 8 rh) ++ body ++ drop (4 + Z.to_nat len) buf in
          let next := (off + PC_WAL_RECHDR + Z.to_nat len)%nat in
          if negb (crc32c_sw 0 (take (4 + Z.to_nat len) buf) =? r32 (drop 4 rh)) then SBreak WTorn
          else if negb (PC_WAL_T_KNOWN (at_ buf 4)) then SItem (IUnknown (at_ buf 4)) buf next
          else match parse_rec (drop 4 buf) len with
          | None => SBreak WTorn
          | Some r => SItem (IRec r) buf next
          end
      end
  end.

(** A segment: what its loop hands to the callback, why it stopped, and the
    buffer as it leaves it. *)
Fixpoint scan_seg (fuel : nat) (gen : Z) (file buf : bytes) (off : nat) : list wal_item * wal_why * bytes :=
  match fuel with
  | O => ([], WEnd, buf)
  | S fuel =>
      match scan_one gen file buf off with
      | SBreak why => ([], why, buf)
      | SItem it buf next => let '(its, why, buf) := scan_seg fuel gen file buf next in (it :: its, why, buf)
      end
  end.

(** Every turn consumes at least a record header, so the file's length is fuel
    enough. *)
Definition scan_file (gen : Z) (file buf : bytes) : list wal_item * wal_why * bytes :=
  scan_seg (S (length file)) gen file buf PC_WAL_HDR.

(** The segments the directory holds: those that open with the magic, in
    generation order. *)
Definition seg_meta (file : bytes) : option (Z * bytes) :=
  match pread file PC_WAL_HDR 0 with
  | Some h => if r32 h =? PC_WAL_MAGIC then Some (r32 (drop 4 h), file) else None
  | None => None
  end.

Definition gen_le (a b : Z * bytes) : Prop := a.1 <= b.1.
#[global] Instance gen_le_dec a b : Decision (gen_le a b).
Proof. unfold gen_le. apply _. Defined.

Definition sort_segs (segs : list (Z * bytes)) : list (Z * bytes) := merge_sort gen_le segs.

(** [*why] is set where a segment stops early, and keeps its last value. *)
Definition why_set (old new : wal_why) : wal_why := match new with WEnd => old | _ => new end.

Fixpoint scan_segs (segs : list (Z * bytes)) (buf : bytes) (why : wal_why) : list wal_item * wal_why :=
  match segs with
  | [] => ([], why)
  | s :: segs =>
      let '(its, w, buf) := scan_file s.1 s.2 buf in
      let '(its', why) := scan_segs segs buf (why_set why w) in
      (its ++ its', why)
  end.

(** [pc_wal_scan] with a callback that takes every record; [dir] is the segment
    files there are, by index, [buf] what [malloc] returned. *)
Definition pc_wal_scan (dir : list bytes) (buf : bytes) : list wal_item * wal_why :=
  scan_segs (sort_segs (omap seg_meta dir)) buf WEnd.

(** * CONTROL *)

Definition PC_WAL_CTRL_MAGIC : Z := 0x50435743.
Definition PC_WAL_CTRL_FMT : Z := 1.
Definition CTRL_HDR : Z := 24.
Definition CTRL_ENT : Z := 24.
Definition WAL_SEG_CAP : Z := 256.
Definition CTRL_MAX : Z := CTRL_HDR + CTRL_ENT * WAL_SEG_CAP.

(** [a ? a[i] : 0] *)
Definition arr_at (a : option (list Z)) (i : nat) : Z :=
  match a with Some a => default 0 (a !! i) | None => 0 end.

Definition ctrl_ent (gen first last : option (list Z)) (i : nat) : bytes :=
  w32 (arr_at gen i) ++ w32 0 ++ w64 (arr_at first i) ++ w64 (arr_at last i).

Definition ctrl_build (nseg : nat) (seq : Z) (gen first last : option (list Z)) : bytes :=
  let b12 := w32 (Z.of_nat nseg) ++ w64 seq ++ concat (map (ctrl_ent gen first last) (List.seq 0 nseg)) in
  w32 PC_WAL_CTRL_MAGIC ++ w32 PC_WAL_CTRL_FMT ++ w32 (crc32c_sw 0 b12) ++ b12.

(** The sequence and, per segment, generation, first and last; [(0, [])] for a
    file that is absent, of another kind or torn. *)
Definition ctrl_read (file : option bytes) : Z * list (Z * Z * Z) :=
  match file with
  | None => (0, [])
  | Some f =>
      let b := ztake CTRL_MAX f in
      let len := zlen b in
      if (len <? CTRL_HDR) || negb (r32 b =? PC_WAL_CTRL_MAGIC) || negb (r32 (drop 4 b) =? PC_WAL_CTRL_FMT) then (0, [])
      else
        let nseg := s32 (r32 (drop 12 b)) in
        let want := CTRL_HDR + CTRL_ENT * nseg in
        if (nseg <? 1) || (nseg >? WAL_SEG_CAP) || (len <? want) then (0, [])
        else if negb (crc32c_sw 0 (ztake (want - 12) (drop 12 b)) =? r32 (drop 8 b)) then (0, [])
        else (r64 (drop 16 b),
              map (fun i => let e := drop (24 + 24 * i) b in (r32 e, r64 (drop 8 e), r64 (drop 16 e))) (List.seq 0 (Z.to_nat nseg)))
  end.

(** * Fields read back *)

Lemma u8_shiftr v k : 0 <= k -> u8 (Z.shiftr v (8 * k)) = byte_n v (Z.to_nat k).
Proof. intros. unfold u8, byte_n. rewrite Z.shiftr_div_pow2 by lia. by rewrite Z2Nat.id. Qed.

Lemma r32_word b0 b1 b2 b3 p : bytes_ok [b0; b1; b2; b3] -> r32 (b0 :: b1 :: b2 :: b3 :: p) = le_word [b0; b1; b2; b3].
Proof.
  intros Hb. rewrite !bytes_ok_cons in Hb. destruct Hb as (? & ? & ? & ? & _).
  unfold r32, at_, is_u8 in *. pow2. cbn [lookup list_lookup default]. unfold default. cbn [id].
  rewrite (lor_shiftl_add b0 b1 8), (lor_shiftl_add _ b2 16), (lor_shiftl_add _ b3 24)
    by (change (2 ^ 24) with 16777216; change (2 ^ 16) with 65536; change (2 ^ 8) with 256; lia).
  change (2 ^ 24) with 16777216; change (2 ^ 16) with 65536; change (2 ^ 8) with 256. cbn [le_word foldr]. lia.
Qed.

Lemma w32_word v : le_word (w32 v) = u32 v.
Proof.
  unfold w32, u8, u32. rewrite !Z.shiftr_div_pow2 by lia. change (2 ^ 24) with 16777216; change (2 ^ 16) with 65536; pow2.
  cbn [le_word foldr]. Z.div_mod_to_equations; lia.
Qed.

Lemma w32_ok v : bytes_ok (w32 v).
Proof. repeat constructor; apply u8_range. Qed.
Lemma w16_ok v : bytes_ok (w16 v).
Proof. repeat constructor; apply u8_range. Qed.
Lemma w64_ok v : bytes_ok (w64 v).
Proof. apply Forall_app; split; apply w32_ok. Qed.

Lemma r32_w32 v p : is_u32 v -> r32 (w32 v ++ p) = v.
Proof.
  intros Hv. rewrite <- (u32_id v Hv) at 2. rewrite <- w32_word. apply (r32_word _ _ _ _ p (w32_ok v)).
Qed.

Lemma r16_w16 v p : is_u16 v -> r16 (w16 v ++ p) = v.
Proof.
  intros Hv. unfold r16, w16, at_, is_u16 in *. cbn [app lookup list_lookup default]. unfold default. cbn [id].
  rewrite lor_shiftl_add by (pose proof (u8_range v); unfold is_u8 in *; lia).
  unfold u8, u16. rewrite Z.shiftr_div_pow2 by lia. pow2. Z.div_mod_to_equations; lia.
Qed.

Lemma r64_w64 v p : is_u64 v -> r64 (w64 v ++ p) = v.
Proof.
  intros Hv. unfold r64, w64. rewrite <- app_assoc. rewrite r32_w32 by apply u32_range.
  change (drop 4 (w32 (u32 v) ++ w32 (u32 (Z.shiftr v 32)) ++ p)) with (w32 (u32 (Z.shiftr v 32)) ++ p).
  rewrite r32_w32 by apply u32_range. pose proof (u32_range v). unfold is_u32 in *.
  rewrite lor_shiftl_add by lia. unfold u32, is_u64 in *. rewrite Z.shiftr_div_pow2 by lia. pow2.
  Z.div_mod_to_equations; lia.
Qed.

Lemma w32_len v : length (w32 v) = 4%nat.
Proof. done. Qed.
Lemma w64_len v : length (w64 v) = 8%nat.
Proof. done. Qed.

Lemma w16_len v : length (w16 v) = 2%nat.
Proof. done. Qed.

Create Rewrite HintDb wlen.
#[export] Hint Rewrite @length_app w16_len w32_len w64_len @length_cons @length_nil : wlen.

(** * A record and its frame *)

(** What the callers of [produce] pass: a known type, a collection name of at
    most 255 bytes, a key of at most 65535, a version and flags only where the
    type carries them, and no more than a record can hold. *)
Record rec_ok (r : wal_rec) : Prop := {
  ro_type : PC_WAL_T_KNOWN (wr_type r) = true;
  ro_col : zlen (wr_col r) <= 255;
  ro_key : zlen (wr_key r) <= 65535;
  ro_fits : Z.of_nat PC_WAL_RECHDR + payload_len r <= MAX_REC;
  ro_bytes : bytes_ok (wr_col r) /\ bytes_ok (wr_key r) /\ bytes_ok (wr_val r);
  ro_exp : is_u64 (wr_exp r);
  ro_seq : is_u64 (wr_seq r);
  ro_ver : is_u64 (wr_ver r);
  ro_flags : is_u8 (wr_flags r);
  ro_nover : PC_WAL_T_HASVER (wr_type r) = false -> wr_ver r = 0;
  ro_noflags : PC_WAL_HDRLEN (wr_type r) <> 33 -> wr_flags r = 0;
}.

(** The three header shapes. *)
Lemma hdr_cases t :
  (PC_WAL_T_HASVER t = false /\ PC_WAL_HDRLEN t = 24) \/
  (PC_WAL_T_HASVER t = true /\ (PC_WAL_HDRLEN t = 32 \/ PC_WAL_HDRLEN t = 33)).
Proof.
  unfold PC_WAL_HDRLEN, PC_WAL_T_HASVER. destruct (t =? PC_WAL_T_UPSERT_V), (t =? PC_WAL_T_TOUCH_V); auto.
Qed.

Ltac hdr_split t :=
  destruct (hdr_cases t) as [[?Hv ?Hh]|[?Hv [?Hh|?Hh]]]; rewrite ?Hv, ?Hh in *.

Lemma payload_length r : zlen (wal_payload r) = payload_len r.
Proof.
  unfold wal_payload, payload_len, zlen. hdr_split (wr_type r); cbn [Z.eqb Pos.eqb]; autorewrite with wlen; lia.
Qed.

Lemma payload_u32 r : rec_ok r -> is_u32 (payload_len r) /\ is_u32 (zlen (wr_val r)) /\ is_u16 (zlen (wr_key r)) /\ 24 <= payload_len r.
Proof.
  intros [_ Hc Hk Hf _ _ _ _ _ _ _]. unfold payload_len, MAX_REC, PCACHE_CELL_MAX, PC_WAL_RECHDR, is_u32, is_u16 in *.
  pose proof (zlen_nonneg (wr_val r)). pose proof (zlen_nonneg (wr_col r)). pose proof (zlen_nonneg (wr_key r)).
  hdr_split (wr_type r); lia.
Qed.

Lemma known_u8 t : PC_WAL_T_KNOWN t = true -> u8 t = t.
Proof. unfold PC_WAL_T_KNOWN, PC_WAL_T_UPSERT, PC_WAL_T_DEL_N. intros. bool_facts. apply u8_id. unfold is_u8. lia. Qed.

(** The fixed fields of a payload, whatever follows them. *)
Lemma fixed_fields t c k v e q X :
  is_u16 k -> is_u32 v -> is_u64 e -> is_u64 q ->
  let P := [t; c] ++ w16 k ++ w32 v ++ w64 e ++ w64 q ++ X in
  at_ P 0 = t /\ at_ P 1 = c /\ r16 (drop 2 P) = k /\ r32 (drop 4 P) = v /\
  r64 (drop 8 P) = e /\ r64 (drop 16 P) = q /\ drop 24 P = X.
Proof.
  intros Hk Hv He Hq P. subst P.
  change (drop 2 _) with (w16 k ++ w32 v ++ w64 e ++ w64 q ++ X). change (drop 4 _) with (w32 v ++ w64 e ++ w64 q ++ X).
  change (drop 8 _) with (w64 e ++ w64 q ++ X). change (drop 16 _) with (w64 q ++ X). change (drop 24 _) with X.
  rewrite r16_w16, r32_w32, !r64_w64 by done. done.
Qed.

Lemma parse_payload r tl : rec_ok r -> parse_rec (wal_payload r ++ tl) (payload_len r) = Some r.
Proof.
  intros Hok. pose proof (payload_u32 r Hok) as (Hpl & Hvl & Hkl & _). destruct Hok as [Ht Hc Hk Hf _ He Hs Hve Hfl Hnv Hnf].
  apply known_u8 in Ht. pose proof (zlen_nonneg (wr_col r)) as Hc0. pose proof (u8_id (zlen (wr_col r)) ltac:(unfold is_u8; lia)) as Hc'.
  set (S_ := (if PC_WAL_T_HASVER (wr_type r) then w64 (wr_ver r) else []) ++
             (if PC_WAL_HDRLEN (wr_type r) =? 33 then [wr_flags r] else []) ++ wr_col r ++ wr_key r ++ wr_val r ++ tl).
  assert (wal_payload r ++ tl = [wr_type r; zlen (wr_col r)] ++ w16 (zlen (wr_key r)) ++ w32 (zlen (wr_val r)) ++
    w64 (wr_exp r) ++ w64 (wr_seq r) ++ S_) as ->.
  { unfold wal_payload, S_. rewrite Ht, Hc'. by rewrite <- !app_assoc. }
  destruct (fixed_fields (wr_type r) (zlen (wr_col r)) _ _ _ _ S_ Hkl Hvl He Hs) as (F0 & F1 & F2 & F3 & F4 & F5 & F6).
  set (P := _ ++ w16 _ ++ _) in *. unfold parse_rec. rewrite F0, F1, F2, F3, F4, F5.
  assert (zdrop (PC_WAL_HDRLEN (wr_type r)) P = wr_col r ++ wr_key r ++ wr_val r ++ tl /\
    (if 32 <=? PC_WAL_HDRLEN (wr_type r) then r64 (drop 24 P) else 0) = wr_ver r /\
    (if PC_WAL_HDRLEN (wr_type r) =? 33 then at_ P 32 else 0) = wr_flags r) as (-> & -> & ->).
  { assert (forall n, drop (24 + n) P = drop n S_) as Hd by (intros n; by rewrite <- drop_drop, F6).
    assert (P !! 32%nat = S_ !! 8%nat) as H32 by (by rewrite <- F6, lookup_drop).
    unfold zdrop, at_. rewrite F6, H32. clearbody P. unfold S_ in *. pose proof (Hd 0%nat). pose proof (Hd 8%nat). pose proof (Hd 9%nat).
    hdr_split (wr_type r); cbn [Z.eqb Z.leb Z.compare Pos.compare Pos.compare_cont Pos.eqb app] in *;
      (split; [done|rewrite ?Hnv, ?Hnf by (done || lia); split; try done; by apply r64_w64]). }
  rewrite !zdrop_app, !ztake_app by done.
  assert (u32 (PC_WAL_HDRLEN (wr_type r) + u32 (zlen (wr_col r) + zlen (wr_key r)) + zlen (wr_val r)) = payload_len r) as ->.
  { rewrite (u32_id (zlen (wr_col r) + zlen (wr_key r))). 2: { unfold is_u32, is_u16 in *. lia. } rewrite <- (u32_id (payload_len r)) by done. f_equal. unfold payload_len. lia. }
  rewrite Z.eqb_refl. by destruct r.
Qed.

(** The record in its segment. *)
Definition frame (gen : Z) (r : wal_rec) : bytes :=
  w32 (payload_len r) ++ w32 (crc32c_sw 0 (w32 gen ++ wal_payload r)) ++ w32 gen ++ wal_payload r.

Lemma produce_stamp gen r :
  rec_ok r -> exists b, produce_rec r = Some b /\ wal_stamp gen b = frame gen r.
Proof.
  intros Hok. pose proof (payload_u32 r Hok) as (Hpl & _ & _ & _). destruct Hok as [_ _ _ Hf _ _ _ _ _ _ _].
  unfold produce_rec. rewrite (u32_id (payload_len r)) by done.
  rewrite u32_id by (unfold is_u32, MAX_REC, PCACHE_CELL_MAX, PC_WAL_RECHDR in *; lia).
  destruct (_ >? _) eqn:E; [bool_facts; lia|]. eexists; split; [done|]. reflexivity.
Qed.

Lemma frame_length gen r : Z.of_nat (length (frame gen r)) = 12 + payload_len r.
Proof. unfold frame. autorewrite with wlen. rewrite <- payload_length. unfold zlen. lia. Qed.

Lemma payload_ok r : rec_ok r -> bytes_ok (wal_payload r).
Proof.
  intros [_ _ _ _ (? & ? & ?) _ _ _ ? _ _]. unfold wal_payload. rewrite !bytes_ok_app.
  repeat split; auto using w16_ok, w32_ok, w64_ok.
  - do 2 (apply bytes_ok_cons; split; [apply u8_range|]). by apply Forall_nil.
  - destruct (PC_WAL_T_HASVER _); [apply w64_ok|by apply Forall_nil].
  - destruct (_ =? 33); [by apply Forall_singleton|by apply Forall_nil].
Qed.

Lemma crc_u32 p : bytes_ok p -> is_u32 (crc32c_sw 0 p).
Proof.
  intros. rewrite crc32c_sw_eq by (done || unfold is_u32; lia). apply crc_not_u32, foldl_step_u32; [|done]. by apply crc_not_u32.
Qed.

(** * One turn of the reader *)

Lemma pread_some file n off m X : drop off file = m ++ X -> length m = n -> pread file n off = Some m.
Proof. intros Hd <-. unfold pread. by rewrite Hd, take_app_length, Nat.eqb_refl. Qed.

Lemma pread_none file n off : (length (drop off file) < n)%nat -> pread file n off = None.
Proof. intros Hl. unfold pread. rewrite length_take. destruct (_ =? _)%nat eqn:E; [|done]. apply Nat.eqb_eq in E. lia. Qed.

Lemma drop_more {A} n m (l : list A) X Y : drop n l = X ++ Y -> length X = m -> drop (n + m) l = Y.
Proof. intros Hd <-. by rewrite <- drop_drop, Hd, drop_app_length. Qed.

(** A frame's header at [off], and whatever payload the checksum of its header
    admits: what the reader does next is decided by the payload. *)
Lemma scan_one_header gen file buf off len crc g body X :
  is_u32 len -> is_u32 crc -> is_u32 g -> 0 < len <= MAX_REC -> zlen body = len ->
  drop off file = (w32 len ++ w32 crc ++ w32 g) ++ body ++ X ->
  scan_one gen file buf off =
    if negb (g =? gen) then SBreak WStale
    else if negb (crc32c_sw 0 (w32 g ++ body) =? crc) then SBreak WTorn
    else let buf := w32 g ++ body ++ drop (4 + Z.to_nat len) buf in
         let next := (off + PC_WAL_RECHDR + Z.to_nat len)%nat in
         if negb (PC_WAL_T_KNOWN (at_ buf 4)) then SItem (IUnknown (at_ buf 4)) buf next
         else match parse_rec (drop 4 buf) len with
              | None => SBreak WTorn
              | Some r => SItem (IRec r) buf next
              end.
Proof.
  intros Hl Hc Hg Hlen Hb Hd. assert (length body = Z.to_nat len) as Hbl by (unfold zlen in Hb; lia). unfold scan_one.
  rewrite (pread_some _ PC_WAL_RECHDR _ (w32 len ++ w32 crc ++ w32 g) _ Hd eq_refl). cbv zeta.
  change (drop 8 (w32 len ++ w32 crc ++ w32 g)) with (w32 g). change (drop 4 (w32 len ++ w32 crc ++ w32 g)) with (w32 crc ++ w32 g).
  rewrite !r32_w32 by done. pose proof (r32_w32 g [] Hg) as Hg'. rewrite app_nil_r in Hg'. rewrite Hg'.
  assert ((len =? 0) = false) as -> by lia. assert ((len >? MAX_REC) = false) as -> by lia. cbn [orb].
  destruct (negb (g =? gen)) eqn:?; [done|].
  rewrite (pread_some _ _ _ body X) by (done || by eapply drop_more).
  change (take 4 (w32 g)) with (w32 g).
  assert (take (4 + Z.to_nat len) (w32 g ++ body ++ drop (4 + Z.to_nat len) buf) = w32 g ++ body) as ->; [|done].
  rewrite app_assoc. apply take_app_length'. rewrite length_app, w32_len. lia.
Qed.

Lemma scan_one_frame gen file buf off r X :
  rec_ok r -> is_u32 gen -> drop off file = frame gen r ++ X ->
  exists buf', scan_one gen file buf off = SItem (IRec r) buf' (off + length (frame gen r)).
Proof.
  intros Hok Hg Hd. pose proof (payload_u32 r Hok) as (Hpl & _ & _ & Hp24).
  assert (is_u32 (crc32c_sw 0 (w32 gen ++ wal_payload r))) as Hcrc
    by (apply crc_u32, bytes_ok_app; auto using w32_ok, payload_ok).
  unfold frame in Hd. rewrite <- !app_assoc in Hd.
  erewrite (scan_one_header gen file buf off (payload_len r) _ gen (wal_payload r) X); try done.
  - rewrite !Z.eqb_refl. cbn [negb]. cbv zeta.
    change (at_ (w32 gen ++ wal_payload r ++ drop (4 + Z.to_nat (payload_len r)) buf) 4) with (u8 (wr_type r)).
    rewrite (known_u8 (wr_type r)) by apply Hok. rewrite (ro_type r Hok). cbn [negb].
    change (drop 4 (w32 gen ++ wal_payload r ++ drop (4 + Z.to_nat (payload_len r)) buf))
      with (wal_payload r ++ drop (4 + Z.to_nat (payload_len r)) buf).
    rewrite parse_payload by done. eexists. f_equal. pose proof (frame_length gen r). unfold PC_WAL_RECHDR. lia.
  - pose proof (ro_fits r Hok). unfold PC_WAL_RECHDR in *. lia.
  - apply payload_length.
Qed.

(** A frame of another generation. *)
Lemma scan_one_stale gen g file buf off r X :
  rec_ok r -> is_u32 g -> g <> gen -> drop off file = frame g r ++ X ->
  scan_one gen file buf off = SBreak WStale.
Proof.
  intros Hok Hg Hne Hd. pose proof (payload_u32 r Hok) as (Hpl & _ & _ & Hp24). pose proof (ro_fits r Hok).
  assert (is_u32 (crc32c_sw 0 (w32 g ++ wal_payload r))) as Hcrc
    by (apply crc_u32, bytes_ok_app; auto using w32_ok, payload_ok).
  unfold frame in Hd. rewrite <- !app_assoc in Hd.
  erewrite (scan_one_header gen file buf off (payload_len r) _ g (wal_payload r) X); try done.
  - by assert ((g =? gen) = false) as -> by lia.
  - unfold PC_WAL_RECHDR in *. lia.
  - apply payload_length.
Qed.

(** Nothing there: the file ends inside a header, or a zero length follows. *)
Lemma scan_one_end gen file buf off X :
  drop off file = X -> (length X < PC_WAL_RECHDR)%nat \/ (exists Y, X = w32 0 ++ Y) -> scan_one gen file buf off = SBreak WEnd.
Proof.
  intros Hd HX. unfold scan_one. destruct (pread file PC_WAL_RECHDR off) as [rh|] eqn:E; [|done].
  unfold pread in E. rewrite Hd in E. destruct (_ =? _)%nat eqn:El; [|done]. apply Nat.eqb_eq in El. rewrite length_take in El.
  destruct HX as [HX|[Y ->]]; [lia|]. apply (inj Some) in E as <-. change PC_WAL_RECHDR with (length (w32 0) + 8)%nat.
  rewrite take_app_add. rewrite r32_w32 by (unfold is_u32; lia). done.
Qed.

(** A frame cut after its header. *)
Lemma scan_one_cut gen file buf off r n :
  rec_ok r -> is_u32 gen -> (PC_WAL_RECHDR <= n < length (frame gen r))%nat -> drop off file = take n (frame gen r) ->
  scan_one gen file buf off = SBreak WTorn.
Proof.
  intros Hok Hg Hn Hd. pose proof (payload_u32 r Hok) as (Hpl & _ & _ & Hp24). pose proof (ro_fits r Hok).
  set (h := w32 (payload_len r) ++ w32 (crc32c_sw 0 (w32 gen ++ wal_payload r)) ++ w32 gen).
  assert (take n (frame gen r) = h ++ take (n - 12) (wal_payload r)) as Ht.
  { unfold frame. rewrite !app_assoc. rewrite <- (app_assoc (w32 (payload_len r))). fold h.
    replace n with (length h + (n - 12))%nat at 1 by (unfold PC_WAL_RECHDR in *; change (length h) with 12%nat; lia). by rewrite take_app_add. }
  rewrite Ht in Hd. unfold scan_one. rewrite (pread_some _ PC_WAL_RECHDR _ h _ Hd eq_refl).
  assert (is_u32 (crc32c_sw 0 (w32 gen ++ wal_payload r))) as Hcrc
    by (apply crc_u32, bytes_ok_app; auto using w32_ok, payload_ok).
  cbv zeta. change (drop 8 h) with (w32 gen ++ []). unfold h at 1 2 3 4. rewrite !r32_w32 by done. rewrite Z.eqb_refl. cbn [negb].
  unfold PC_WAL_RECHDR in *. assert ((payload_len r =? 0) = false) as -> by lia. assert ((payload_len r >? MAX_REC) = false) as -> by lia.
  cbn [orb]. rewrite pread_none; [done|]. rewrite (drop_more _ 12 _ _ _ Hd eq_refl), length_take.
  pose proof (payload_length r). pose proof (frame_length gen r). unfold zlen in *. lia.
Qed.

(** * A segment *)

(** What the log's thread has written of a segment: its header, then the
    records [produce] built, stamped with its generation. *)
Definition segment (gen : Z) (rs : list wal_rec) : bytes :=
  seg_write_header gen ++ concat (wal_stamp gen <$> omap produce_rec rs).

Lemma segment_frames gen rs : Forall rec_ok rs -> segment gen rs = seg_write_header gen ++ concat (frame gen <$> rs).
Proof.
  intros Hrs. unfold segment. f_equal. induction Hrs as [|r rs Hr Hrs IH]; [done|].
  destruct (produce_stamp gen r Hr) as (b & Hb & Hst). cbn [omap list_omap]. rewrite Hb. cbn [fmap list_fmap concat].
  by rewrite Hst, IH.
Qed.

Lemma scan_seg_frames fuel gen file rs X why buf off :
  is_u32 gen -> Forall rec_ok rs -> (length rs < fuel)%nat ->
  drop off file = concat (frame gen <$> rs) ++ X ->
  (forall buf off', drop off' file = X -> scan_one gen file buf off' = SBreak why) ->
  exists buf', scan_seg fuel gen file buf off = (IRec <$> rs, why, buf').
Proof.
  intros Hg Hrs Hf Hd Hstop. revert fuel buf off Hf Hd. induction Hrs as [|r rs Hr Hrs IH]; intros fuel buf off Hf Hd.
  - destruct fuel as [|fuel]; [cbn in Hf; lia|]. cbn [scan_seg]. rewrite Hstop by done. by eexists.
  - destruct fuel as [|fuel]; [lia|]. cbn [scan_seg]. cbn [fmap list_fmap concat] in Hd. rewrite <- app_assoc in Hd.
    destruct (scan_one_frame gen file buf off r _ Hr Hg Hd) as (buf1 & ->).
    destruct (IH fuel buf1 (off + length (frame gen r))%nat) as (buf' & ->).
    + cbn in Hf. lia.
    + by eapply drop_more.
    + by eexists.
Qed.

Lemma frames_length gen rs : (length rs <= length (concat (frame gen <$> rs)))%nat.
Proof. induction rs as [|r rs IH]; [done|]. cbn [fmap list_fmap concat length]. rewrite length_app. unfold frame at 1. rewrite length_app, w32_len. lia. Qed.

(** The segment's records, then whatever the reader stops at. *)
Lemma scan_file_stop gen rs X why buf :
  is_u32 gen -> Forall rec_ok rs ->
  (forall file buf off, drop off file = X -> scan_one gen file buf off = SBreak why) ->
  exists buf', scan_file gen (segment gen rs ++ X) buf = (IRec <$> rs, why, buf').
Proof.
  intros Hg Hrs Hstop. rewrite segment_frames by done. unfold scan_file. apply scan_seg_frames with X; try done.
  - rewrite !length_app. pose proof (frames_length gen rs). lia.
  - intros. by apply Hstop.
Qed.

Lemma zeros_stop gen n file buf off : drop off file = replicate n 0 -> scan_one gen file buf off = SBreak WEnd.
Proof.
  intros Hd. eapply scan_one_end; [done|]. destruct (decide (n < PC_WAL_RECHDR)%nat); [left; by rewrite length_replicate|right].
  exists (replicate (n - 4) 0). unfold PC_WAL_RECHDR in *. replace n with (4 + (n - 4))%nat at 1 by lia. done.
Qed.

(** Cutting the records after [n] bytes leaves whole ones and a piece of the next. *)
Lemma cut_frames gen rs n :
  exists k X, take n (concat (frame gen <$> rs)) = concat (frame gen <$> take k rs) ++ X /\
    ((X = [] /\ (length rs <= k)%nat) \/
     exists r m, rs !! k = Some r /\ X = take m (frame gen r) /\ (m < length (frame gen r))%nat).
Proof.
  revert n. induction rs as [|r rs IH]; intros n; [exists 0%nat, []; cbn; rewrite take_nil; auto|].
  cbn [fmap list_fmap concat]. destruct (decide (n < length (frame gen r))%nat) as [Hn|Hn].
  - exists 0%nat, (take n (frame gen r)). rewrite take_app_le by lia. split; [done|right]. by eexists _, _.
  - destruct (IH (n - length (frame gen r))%nat) as (k & X & Ht & Hc). exists (S k), X. split.
    + rewrite take_app_ge by lia. cbn [take fmap list_fmap concat]. by rewrite Ht, app_assoc.
    + destruct Hc as [[? ?]|?]; [left; split; [done|cbn; lia]|by right].
Qed.

Lemma cut_stop gen r m file buf off :
  rec_ok r -> is_u32 gen -> (m < length (frame gen r))%nat -> drop off file = take m (frame gen r) ->
  scan_one gen file buf off = SBreak (if decide (m < PC_WAL_RECHDR)%nat then WEnd else WTorn).
Proof.
  intros Hr Hg Hm Hd. destruct (decide _) as [Hlt|Hge].
  - eapply scan_one_end; [done|]. left. rewrite length_take. lia.
  - eapply scan_one_cut; [done|done| |done]. lia.
Qed.

(** A frame whose payload has one byte changed. *)
Lemma flip_stop gen r p b b' q file buf off X :
  rec_ok r -> is_u32 gen -> wal_payload r = p ++ b :: q -> is_u8 b' -> b <> b' ->
  drop off file = (w32 (payload_len r) ++ w32 (crc32c_sw 0 (w32 gen ++ wal_payload r)) ++ w32 gen) ++ (p ++ b' :: q) ++ X ->
  scan_one gen file buf off = SBreak WTorn.
Proof.
  intros Hok Hg Hpay Hb' Hne Hd. pose proof (payload_u32 r Hok) as (Hpl & _ & _ & Hp24). pose proof (ro_fits r Hok) as Hf.
  pose proof (payload_ok r Hok) as Hby. assert (is_u32 (crc32c_sw 0 (w32 gen ++ wal_payload r))) as Hcrc
    by (apply crc_u32, bytes_ok_app; auto using w32_ok).
  rewrite (scan_one_header gen file buf off (payload_len r) _ gen (p ++ b' :: q) X Hpl Hcrc Hg) by
    first [exact Hd | unfold PC_WAL_RECHDR in *; lia | rewrite <- payload_length, Hpay, !zlen_app, !zlen_cons; lia].
  rewrite Z.eqb_refl. cbn [negb]. rewrite Hpay in Hby |- *. apply bytes_ok_app in Hby as [Hp Hbq]. apply bytes_ok_cons in Hbq as [Hb Hq].
  assert ((crc32c_sw 0 (w32 gen ++ p ++ b' :: q) =? crc32c_sw 0 (w32 gen ++ p ++ b :: q)) = false) as ->; [|done].
  apply Z.eqb_neq. rewrite !(app_assoc (w32 gen) p). apply crc_flip; auto; [unfold is_u32; lia|].
  apply bytes_ok_app; auto using w32_ok.
Qed.

(** Two records, for the witnesses. *)
Definition ex_set : wal_rec := mk_wal PC_WAL_T_UPSERT_V [99] [107] [1; 2; 3] 0 7 70 1.
Definition ex_del : wal_rec := mk_wal PC_WAL_T_DEL [99] [107] [] 0 8 0 0.

Ltac rec_ok_tac :=
  constructor; first [done | by vm_compute | by intros _ | repeat split; by repeat constructor].

Lemma ex_recs_ok : Forall rec_ok [ex_set; ex_del].
Proof. apply Forall_cons; split; [rec_ok_tac|]. apply Forall_cons; split; [rec_ok_tac|by apply Forall_nil]. Qed.

(** What the log writes it reads back: scanning a segment that holds any
    records [produce] accepts, followed by its preallocated zeros (or nothing),
    yields exactly those records, in order and field by field, and stops at the
    end of the log. *)
Theorem wal_segment_roundtrip gen rs n buf :
  is_u32 gen -> Forall rec_ok rs ->
  (scan_file gen (segment gen rs ++ replicate n 0) buf).1 = (IRec <$> rs, WEnd).
Proof.
  intros Hg Hrs. edestruct scan_file_stop as (? & ->); [done|done| |done]. intros. by eapply zeros_stop.
Qed.

Lemma wal_segment_roundtrip_witness :
  (scan_file 5 (segment 5 [ex_set; ex_del] ++ replicate 40 0) []).1 = ([IRec ex_set; IRec ex_del], WEnd).
Proof. apply (wal_segment_roundtrip 5 [ex_set; ex_del] 40 []); [by unfold is_u32; lia|exact ex_recs_ok]. Defined.



(** A recycled segment is not cleared: behind the records of its present
    generation lie those of an earlier one.  Where one begins at the end of the
    present records, it is recognised by its generation and nothing of it, or of
    what follows it, is read. *)
Theorem wal_stale_fence gen g rs old rest buf :
  is_u32 gen -> is_u32 g -> g <> gen -> Forall rec_ok (rs ++ old) -> old <> [] ->
  (scan_file gen (segment gen rs ++ concat (wal_stamp g <$> omap produce_rec old) ++ rest) buf).1 = (IRec <$> rs, WStale).
Proof.
  intros Hg Hg' Hne Hok Hold. apply Forall_app in Hok as [Hrs Ho]. destruct old as [|o old]; [done|].
  inversion Ho as [|? ? Hoo Hos]; subst. destruct (produce_stamp g o Hoo) as (b & Hb & Hst).
  cbn [omap list_omap]. rewrite Hb. cbn [fmap list_fmap concat]. rewrite Hst, <- app_assoc.
  edestruct scan_file_stop as (? & ->); [done|done| |done]. intros. by eapply scan_one_stale.
Qed.

Lemma wal_stale_fence_witness :
  (scan_file 5 (segment 5 [ex_set] ++ concat (wal_stamp 4 <$> omap produce_rec [ex_del]) ++ []) []).1 = ([IRec ex_set], WStale).
Proof.
  apply (wal_stale_fence 5 4 [ex_set] [ex_del] [] []); [by unfold is_u32; lia|by unfold is_u32; lia|lia|exact ex_recs_ok|done].
Defined.

(** A damaged record is never taken for a record: with any one byte of its
    payload changed, whichever byte and to whatever value, the reader delivers
    the records before it and stops there as torn. *)
Theorem wal_damage_detected gen rs r p b b' q rest buf :
  is_u32 gen -> Forall rec_ok (rs ++ [r]) -> wal_payload r = p ++ b :: q -> is_u8 b' -> b <> b' ->
  let hdr := take PC_WAL_RECHDR (wal_stamp gen (default [] (produce_rec r))) in
  (scan_file gen (segment gen rs ++ hdr ++ (p ++ b' :: q) ++ rest) buf).1 = (IRec <$> rs, WTorn).
Proof.
  intros Hg Hok Hpay Hb' Hne. apply Forall_app in Hok as [Hrs Hr]. inversion Hr as [|? ? Hrok _]; subst.
  destruct (produce_stamp gen r Hrok) as (x & Hx & Hst). rewrite Hx. unfold default, id. rewrite Hst. cbv zeta.
  change (take PC_WAL_RECHDR (frame gen r)) with (w32 (payload_len r) ++ w32 (crc32c_sw 0 (w32 gen ++ wal_payload r)) ++ w32 gen).
  edestruct scan_file_stop as (? & ->); [done|done| |done]. intros. by eapply flip_stop.
Qed.

Lemma wal_damage_detected_witness :
  let hdr := take PC_WAL_RECHDR (wal_stamp 5 (default [] (produce_rec ex_del))) in
  (scan_file 5 (segment 5 [ex_set] ++ hdr ++ (take 2 (wal_payload ex_del) ++ 9 :: drop 3 (wal_payload ex_del)) ++ []) []).1 =
    ([IRec ex_set], WTorn).
Proof.
  apply (wal_damage_detected 5 [ex_set] ex_del (take 2 (wal_payload ex_del)) 1 9 (drop 3 (wal_payload ex_del)) [] []);
    [by unfold is_u32; lia|exact ex_recs_ok|reflexivity|by unfold is_u8; lia|lia].
Defined.

(** * CONTROL read back *)

Lemma ctrl_ents_len gen first last l : length (concat (map (ctrl_ent gen first last) l)) = (24 * length l)%nat.
Proof. induction l as [|i l IH]; [done|]. cbn [map concat length]. rewrite length_app, IH. unfold ctrl_ent. autorewrite with wlen. lia. Qed.

Lemma drop_ents gen first last i n X :
  (i < n)%nat ->
  exists Y, drop (24 * i) (concat (map (ctrl_ent gen first last) (List.seq 0 n)) ++ X) = ctrl_ent gen first last i ++ Y.
Proof.
  intros Hi. replace n with (i + S (n - S i))%nat by lia. rewrite seq_app, map_app, concat_app. cbn [List.seq map concat Nat.add].
  rewrite <- !app_assoc. rewrite drop_app_length' by (rewrite ctrl_ents_len, length_seq; lia). by eexists.
Qed.

Definition arr_ok (P : Z -> Prop) (a : option (list Z)) : Prop := match a with Some a => Forall P a | None => True end.

Lemma arr_at_ok P a i : P 0 -> arr_ok P a -> P (arr_at a i).
Proof.
  intros H0 Ha. destruct a as [a|]; [|done]. cbn. destruct (a !! i) eqn:E; [|done]. by eapply Forall_lookup_1 in Ha.
Qed.

Lemma ctrl_ents_ok gen first last l : bytes_ok (concat (map (ctrl_ent gen first last) l)).
Proof.
  induction l as [|i l IH]; [by apply Forall_nil|]. cbn [map concat]. unfold ctrl_ent. rewrite !bytes_ok_app. auto 10 using w32_ok, w64_ok.
Qed.

Lemma r32_take n m p : (m + 4 <= n)%nat -> r32 (drop m (take n p)) = r32 (drop m p).
Proof.
  intros Hm. unfold r32, at_. rewrite !lookup_drop. rewrite !lookup_take_lt by lia. done.
Qed.

Section Control.
Context (nseg : nat) (seq : Z) (gen first last : option (list Z)).
Context (Hn : (1 <= nseg <= 256)%nat) (Hseq : is_u64 seq).
Context (Hgen : arr_ok is_u32 gen) (Hfirst : arr_ok is_u64 first) (Hlast : arr_ok is_u64 last).

#[local] Notation ents := (concat (map (ctrl_ent gen first last) (List.seq 0 nseg))).
#[local] Notation b12 := (w32 (Z.of_nat nseg) ++ w64 seq ++ ents).
#[local] Notation built := (ctrl_build nseg seq gen first last).

Lemma ctrl_build_len : zlen built = 24 + 24 * Z.of_nat nseg.
Proof. unfold ctrl_build, zlen. autorewrite with wlen. rewrite ctrl_ents_len, length_seq. lia. Qed.

Lemma b12_ok : bytes_ok b12.
Proof. rewrite !bytes_ok_app. auto using w32_ok, w64_ok, ctrl_ents_ok. Qed.

(** The fields of a file that starts with what was built. *)
Lemma ctrl_fields X :
  r32 (built ++ X) = PC_WAL_CTRL_MAGIC /\ r32 (drop 4 (built ++ X)) = PC_WAL_CTRL_FMT /\
  r32 (drop 8 (built ++ X)) = crc32c_sw 0 b12 /\ r32 (drop 12 (built ++ X)) = Z.of_nat nseg /\
  r64 (drop 16 (built ++ X)) = seq /\ drop 12 (built ++ X) = b12 ++ X.
Proof.
  assert (is_u32 (crc32c_sw 0 b12)) as Hcrc by apply crc_u32, b12_ok.
  assert (is_u32 (Z.of_nat nseg)) as Hu by (unfold is_u32; lia).
  unfold ctrl_build. rewrite <- !app_assoc.
  change (drop 4 (w32 PC_WAL_CTRL_MAGIC ++ ?x)) with x. change (drop 8 (w32 PC_WAL_CTRL_MAGIC ++ w32 PC_WAL_CTRL_FMT ++ ?x)) with x.
  change (drop 12 (w32 PC_WAL_CTRL_MAGIC ++ w32 PC_WAL_CTRL_FMT ++ w32 ?c ++ ?x)) with x.
  change (drop 16 (w32 PC_WAL_CTRL_MAGIC ++ w32 PC_WAL_CTRL_FMT ++ w32 ?c ++ w32 ?d ++ ?x)) with x.
  rewrite !r32_w32 by (done || (unfold is_u32, PC_WAL_CTRL_MAGIC, PC_WAL_CTRL_FMT; lia)). by rewrite r64_w64.
Qed.

Lemma ctrl_entry X i : (i < nseg)%nat ->
  let e := drop (24 + 24 * i) (built ++ X) in (r32 e, r64 (drop 8 e), r64 (drop 16 e)) = (arr_at gen i, arr_at first i, arr_at last i).
Proof.
  intros Hi. cbv zeta. rewrite <- drop_drop.
  assert (drop 24 (built ++ X) = ents ++ X) as -> by (unfold ctrl_build; by rewrite <- !app_assoc).
  destruct (drop_ents gen first last i nseg X Hi) as (Y & ->). unfold ctrl_ent. rewrite <- !app_assoc.
  change (drop 8 (w32 (arr_at gen i) ++ w32 0 ++ ?x)) with x. change (drop 16 (w32 (arr_at gen i) ++ w32 0 ++ w64 (arr_at first i) ++ ?x)) with x.
  rewrite r32_w32, !r64_w64 by (apply arr_at_ok; [unfold is_u32, is_u64; lia|done]). done.
Qed.

Lemma s32_nseg : s32 (Z.of_nat nseg) = Z.of_nat nseg.
Proof. unfold s32. pow2. change (2 ^ 31) with 2147483648. Z.div_mod_to_equations. lia. Qed.

Lemma ctrl_read_built X : ctrl_read (Some (built ++ X)) = (seq, map (fun i => (arr_at gen i, arr_at first i, arr_at last i)) (List.seq 0 nseg)).
Proof.
  pose proof ctrl_build_len as Hlen.
  assert (exists X', ztake CTRL_MAX (built ++ X) = built ++ X') as (X' & HX').
  { exists (take (Z.to_nat CTRL_MAX - length built) X). unfold ztake. rewrite take_app.
    rewrite (take_ge built); [done|]. unfold zlen, CTRL_MAX, CTRL_HDR, CTRL_ENT, WAL_SEG_CAP in *. lia. }
  unfold ctrl_read. rewrite HX'. cbv zeta. destruct (ctrl_fields X') as (-> & -> & -> & -> & -> & ->). rewrite s32_nseg.
  rewrite zlen_app, Hlen. pose proof (zlen_nonneg X'). unfold CTRL_HDR, CTRL_ENT, WAL_SEG_CAP.
  rewrite !Z.eqb_refl. cbn [negb orb]. rewrite !(proj2 (Z.ltb_ge _ _)) by lia.
  assert ((Z.of_nat nseg >? 256) = false) as -> by lia. cbn [orb].
  rewrite ztake_app. 2: { rewrite <- Hlen at 1. unfold ctrl_build. rewrite !zlen_app. change (zlen (w32 _)) with 4. change (zlen (w64 _)) with 8. lia. }
  rewrite Z.eqb_refl, Nat2Z.id. cbn [negb]. f_equal. apply map_ext_in. intros i Hi. apply in_seq in Hi. apply ctrl_entry. lia.
Qed.

Lemma ctrl_read_cut n : (n < length built)%nat -> ctrl_read (Some (take n built)) = (0, []).
Proof.
  intros Hlt. pose proof ctrl_build_len as Hlen. unfold ctrl_read. cbv zeta.
  rewrite ztake_all by (unfold zlen, CTRL_MAX, CTRL_HDR, CTRL_ENT, WAL_SEG_CAP in *; rewrite length_take; lia).
  destruct (zlen (take n built) <? CTRL_HDR) eqn:Hh; [done|]. cbn [orb]. bool_facts. unfold zlen, CTRL_HDR in *. rewrite length_take in *.
  destruct (ctrl_fields []) as (H0 & H4 & _ & H12 & _ & _). rewrite app_nil_r in *.
  pose proof (r32_take n 0 built ltac:(lia)) as E0. rewrite !drop_0 in E0. rewrite E0, !r32_take by lia.
  rewrite H0, H4, H12, s32_nseg, !Z.eqb_refl. cbn [negb orb]. unfold CTRL_ENT, WAL_SEG_CAP.
  rewrite (proj2 (Z.ltb_lt (Z.of_nat (n `min` length built)) _)) by lia. by rewrite orb_true_r.
Qed.

End Control.

(** The CONTROL file: what [ctrl_build] writes [ctrl_read] returns, the
    sequence and every segment's generation and span, also when an older, longer
    file's bytes follow it; and any cut of it reads as absent, which recovery
    takes as every segment holding records no snapshot covers. *)
Theorem ctrl_roundtrip nseg seq gen first last X n :
  (1 <= nseg <= 256)%nat -> is_u64 seq -> arr_ok is_u32 gen -> arr_ok is_u64 first -> arr_ok is_u64 last ->
  ctrl_read (Some (ctrl_build nseg seq gen first last ++ X)) =
    (seq, map (fun i => (arr_at gen i, arr_at first i, arr_at last i)) (List.seq 0 nseg)) /\
  ((n < length (ctrl_build nseg seq gen first last))%nat ->
   ctrl_read (Some (take n (ctrl_build nseg seq gen first last))) = (0, [])).
Proof. intros. split; [by apply ctrl_read_built|]. intros. by apply ctrl_read_cut. Qed.

Lemma ctrl_roundtrip_witness :
  ctrl_read (Some (ctrl_build 2 9 (Some [5; 4]) (Some [3; 1]) None ++ [1])) = (9, [(5, 3, 0); (4, 1, 0)]) /\
  (Nat.lt 40 (length (ctrl_build 2 9 (Some [5; 4]) (Some [3; 1]) None)) ->
   ctrl_read (Some (take 40 (ctrl_build 2 9 (Some [5; 4]) (Some [3; 1]) None))) = (0, [])).
Proof.
  apply (ctrl_roundtrip 2 9 (Some [5; 4]) (Some [3; 1]) None [1] 40); [lia|by unfold is_u64; lia| | |done];
    repeat constructor; by vm_compute.
Defined.

(** * Segments in generation order *)

Lemma seg_meta_segment gen rs X : is_u32 gen -> seg_meta (segment gen rs ++ X) = Some (gen, segment gen rs ++ X).
Proof.
  intros Hg. unfold seg_meta. erewrite (pread_some _ PC_WAL_HDR _ (seg_write_header gen)); [|by unfold segment; rewrite <- !app_assoc|done].
  unfold seg_write_header. change (drop 4 (w32 PC_WAL_MAGIC ++ w32 gen)) with (w32 gen).
  rewrite r32_w32 by (unfold is_u32, PC_WAL_MAGIC; lia). rewrite Z.eqb_refl.
  pose proof (r32_w32 gen [] Hg) as H. rewrite app_nil_r in H. by rewrite H.
Qed.

(** A segment file: its generation, its records, the zeros left of it. *)
Definition seg_file (s : Z * list wal_rec * nat) : bytes := segment s.1.1 s.1.2 ++ replicate s.2 0.

Definition seg_ok (s : Z * list wal_rec * nat) : Prop := is_u32 s.1.1 /\ Forall rec_ok s.1.2.

#[local] Instance gen_le_trans : Transitive gen_le.
Proof. unfold gen_le. intros x y z. lia. Qed.
#[local] Instance gen_le_total : Total gen_le.
Proof. unfold gen_le. intros x y. lia. Qed.

Lemma metas_of segs : Forall seg_ok segs -> omap seg_meta (seg_file <$> segs) = (fun s => (s.1.1, seg_file s)) <$> segs.
Proof.
  induction 1 as [|s segs [Hg _] Hs IH]; [done|]. cbn [fmap list_fmap omap list_omap]. unfold seg_file at 1.
  rewrite seg_meta_segment by done. by rewrite IH.
Qed.

Lemma omap_none {A B} (f : A -> option B) l : Forall (fun x => f x = None) l -> omap f l = [].
Proof. induction 1 as [|x l Hx _ IH]; [done|]. cbn. by rewrite Hx. Qed.

Lemma sort_metas dir segs junk :
  dir ≡ₚ (seg_file <$> segs) ++ junk -> Forall (fun f => seg_meta f = None) junk -> Forall seg_ok segs ->
  StronglySorted (fun s t => s.1.1 < t.1.1) segs ->
  sort_segs (omap seg_meta dir) = (fun s => (s.1.1, seg_file s)) <$> segs.
Proof.
  intros Hp Hj Hok Hs.
  assert (omap seg_meta dir ≡ₚ (fun s => (s.1.1, seg_file s)) <$> segs) as Hm.
  { rewrite Hp, omap_app, metas_of by done. by rewrite (omap_none _ junk), app_nil_r. }
  unfold sort_segs. apply (Sorted_unique_strong gen_le).
  - intros x y Hx Hy. rewrite merge_sort_Permutation, Hm in Hx. apply list_elem_of_fmap in Hx as (a & -> & Ha).
    apply list_elem_of_fmap in Hy as (b & -> & Hb). unfold gen_le. cbn [fst]. intros Hab Hba.
    apply list_elem_of_lookup in Ha as (i & Hi). apply list_elem_of_lookup in Hb as (j & Hj').
    destruct (decide (i = j)) as [->|Hij]; [congruence|].
    assert (forall i j a b, (i < j)%nat -> segs !! i = Some a -> segs !! j = Some b -> a.1.1 < b.1.1) as Hlt.
    { clear -Hs. induction Hs as [|s segs Hs IH Hf]; intros i j a b Hij Hi Hj; [done|].
      destruct j as [|j]; [lia|]. destruct i as [|i].
      - cbn in Hi. simplify_eq. by eapply Forall_lookup_1 in Hf.
      - eapply (IH i j); [lia|done|done]. }
    destruct (decide (i < j)%nat).
    + pose proof (Hlt i j a b ltac:(lia) Hi Hj'). lia.
    + pose proof (Hlt j i b a ltac:(lia) Hj' Hi). lia.
  - apply Sorted_merge_sort, _.
  - clear -Hs. apply StronglySorted_Sorted. induction Hs as [|s segs Hs IH Hf]; cbn; constructor; [done|].
    apply Forall_fmap. eapply Forall_impl; [exact Hf|]. unfold gen_le. cbn. intros. lia.
  - by rewrite merge_sort_Permutation.
Qed.

Lemma scan_segs_ok segs buf :
  Forall seg_ok segs -> scan_segs ((fun s => (s.1.1, seg_file s)) <$> segs) buf WEnd = (IRec <$> concat (segs.*1.*2), WEnd).
Proof.
  intros Hok. revert buf. induction Hok as [|s segs [Hg Hr] Hs IH]; intros buf; [done|].
  cbn [fmap list_fmap scan_segs fst snd concat]. unfold seg_file at 1.
  destruct (scan_file_stop s.1.1 s.1.2 (replicate s.2 0) WEnd buf Hg Hr) as (buf' & ->); [intros; by eapply zeros_stop|].
  cbn [why_set]. rewrite IH. by rewrite fmap_app.
Qed.

(** Recovery reads the log in generation order: whatever order the segment
    files come in, and whatever else with no segment header is among them, the
    scan delivers every record of every segment, those of a lower generation
    first and each segment's in the order they were written. *)
Theorem wal_scan_generations dir segs junk buf :
  dir ≡ₚ (seg_file <$> segs) ++ junk -> Forall (fun f => seg_meta f = None) junk -> Forall seg_ok segs ->
  StronglySorted (fun s t => s.1.1 < t.1.1) segs ->
  pc_wal_scan dir buf = (IRec <$> concat (segs.*1.*2), WEnd).
Proof. intros. unfold pc_wal_scan. erewrite sort_metas by done. by apply scan_segs_ok. Qed.

Lemma wal_scan_generations_witness :
  pc_wal_scan [[1; 2]; seg_file (7, [ex_del], 3%nat); seg_file (6, [ex_set], 20%nat)] [] = ([IRec ex_set; IRec ex_del], WEnd).
Proof.
  apply (wal_scan_generations _ [(6, [ex_set], 20%nat); (7, [ex_del], 3%nat)] [[1; 2]] []).
  - change (fmap seg_file _ ++ [[1; 2]]) with ([seg_file (6, [ex_set], 20%nat); seg_file (7, [ex_del], 3%nat)] ++ [[1; 2]]).
    generalize (seg_file (7, [ex_del], 3%nat)), (seg_file (6, [ex_set], 20%nat)). intros. solve_Permutation.
  - by repeat constructor.
  - pose proof ex_recs_ok as H. inversion H as [|? ? H1 H2]; subst. inversion H2; subst.
    apply Forall_cons; split; [split; [unfold is_u32; cbn; lia|by apply Forall_singleton]|].
    apply Forall_singleton; split; [unfold is_u32; cbn; lia|by apply Forall_singleton].
  - repeat constructor; cbn; lia.
Defined.

(** * The fence holds at record boundaries *)

(** A client's value may hold any bytes, a whole frame included. *)
Definition ex_forged : wal_rec := mk_wal PC_WAL_T_DEL [99] [107] [] 0 1000 0 0.
Definition ex_carrier : wal_rec :=
  mk_wal PC_WAL_T_UPSERT_V [99] [107] ([1; 2; 3] ++ wal_stamp 2 (default [] (produce_rec ex_forged))) 0 7 70 0.

(** The generation echo does not fence an earlier life's bytes where the
    present records end inside one of its records: a value that holds a frame of
    the coming generation, stored in the segment's earlier life (generation 1),
    is read as a record of the present one (generation 2) when the present
    records end where that frame begins.  No write of generation 2 produced it. *)
Example wal_value_replayed :
  let old := segment 1 [ex_carrier] in
  let new := segment 2 [ex_set] in
  (scan_file 2 (new ++ drop (length new) old) []).1 = ([IRec ex_set; IRec ex_forged], WEnd).
Proof. vm_compute. reflexivity. Qed.
