(* ===== verification/WalRing.v ===== *)
(** The producer rings of the write-ahead log: [walring_copy] of
    [src/src/walring.h], the publish of [produce] and the drain of
    [pc_wal_pump] ([src/src/wal.c]).

    Each worker thread appends whole records to a byte ring of its own and the
    log's thread takes them out.  [head] and [tail] are free-running 32-bit
    counters; a position is the counter modulo the ring's size.  Proved, for a
    size that divides 2^32: the ring is a queue of records.  For a size that
    does not, which the configuration accepts, an example in which a publish
    overwrites a record not yet taken. *)

From stdpp Require Import base tactics list numbers.
From S2P Require Import Prelude HtBase Crc32c WalFmt.
#[local] Open Scope Z_scope.

Record ring := mk_ring { rbuf : bytes; rsize : Z; rhead : Z; rtail : Z; rdropped : Z }.

(** [memcpy] of [n] bytes from [buf + pos]. *)
Definition sub (buf : bytes) (pos n : Z) : bytes := ztake n (zdrop pos buf).

Definition walring_copy (buf : bytes) (size pos n : Z) : bytes :=
  let first := u32 (size - pos) in
  if n <=? first then sub buf pos n else sub buf pos first ++ sub buf 0 (u32 (n - first)).

(** [false]: it does not fit, and is counted as dropped. *)
Definition ring_publish (r : ring) (scratch : bytes) : bool * ring :=
  let need := zlen scratch in
  let free_ := u32 (rsize r - u32 (rtail r - rhead r)) in
  if free_ <? need then (false, mk_ring (rbuf r) (rsize r) (rhead r) (rtail r) (rdropped r + 1))
  else
    let pos := rtail r mod rsize r in
    let buf :=
      if u32 (pos + need) <=? rsize r then blit (rbuf r) pos scratch
      else
        let first := u32 (rsize r - pos) in
        blit (blit (rbuf r) pos (ztake first scratch)) 0 (zdrop first scratch) in
    (true, mk_ring buf (rsize r) (rhead r) (u32 (rtail r + need)) (rdropped r)).

(** The pump's loop on one ring: the records it takes, where [head] ends, and
    whether the stage was full.  [stage_len] and [nrec] continue from the rings
    before. *)
Fixpoint ring_drain (fuel : nat) (r : ring) (head stage_len stage_cap nrec batch_max : Z) : list bytes * Z * bool :=
  match fuel with
  | O => ([], head, false)
  | S fuel =>
      if (head =? rtail r) || (batch_max <=? nrec) then ([], head, false)
      else
        let pos := head mod rsize r in
        let hdr := walring_copy (rbuf r) (rsize r) pos (Z.of_nat PC_WAL_RECHDR) in
        let len := r32 hdr in
        let total := u32 (Z.of_nat PC_WAL_RECHDR + len) in
        if stage_len + total >? stage_cap then ([], head, true)
        else
          let rec := walring_copy (rbuf r) (rsize r) pos total in
          let '(recs, head, left_) := ring_drain fuel r (u32 (head + total)) (stage_len + total) stage_cap (nrec + 1) batch_max in
          (rec :: recs, head, left_)
  end.

(** The pump's pass over one ring, [head] stored back.  A record is at least a
    header, so the ring's size is fuel enough. *)
Definition ring_pump (r : ring) (stage_len stage_cap nrec batch_max : Z) : list bytes * ring * bool :=
  let '(recs, head, left_) := ring_drain (S (Z.to_nat (rsize r))) r (rhead r) stage_len stage_cap nrec batch_max in
  (recs, mk_ring (rbuf r) (rsize r) head (rtail r) (rdropped r), left_).

Definition BATCH_MAX : Z := 4096.

(** A worker and the pump, in any order: what was accepted, what was taken. *)
Inductive ring_op : Type := OPublish (scratch : bytes) | OPump (stage_len stage_cap nrec : Z).

Definition ring_step (st : list bytes * list bytes * ring) (o : ring_op) : list bytes * list bytes * ring :=
  let '(acc, tak, r) := st in
  match o with
  | OPublish s => let '(ok, r') := ring_publish r s in (if ok : bool then acc ++ [s] else acc, tak, r')
  | OPump len cap n => let '(recs, r', _) := ring_pump r len cap n BATCH_MAX in (acc, tak ++ recs, r')
  end.

(** * The ring as a sequence of bytes *)

(** What is published and not yet taken. *)
Definition ring_used (r : ring) : Z := u32 (rtail r - rhead r).
Definition ring_bytes (r : ring) : bytes := walring_copy (rbuf r) (rsize r) (rhead r mod rsize r) (ring_used r).

Record ring_ok (r : ring) : Prop := {
  rg_size : 0 < rsize r < 2 ^ 31;
  rg_div : (rsize r | 2 ^ 32);
  rg_buf : zlen (rbuf r) = rsize r;
  rg_head : is_u32 (rhead r);
  rg_tail : is_u32 (rtail r);
  rg_used : ring_used r <= rsize r;
}.

Lemma lookup_sub buf pos n i :
  0 <= pos -> 0 <= i < n -> sub buf pos n !! Z.to_nat i = buf !! Z.to_nat (pos + i).
Proof.
  intros Hp Hi. unfold sub, ztake, zdrop. rewrite lookup_take_lt by lia. rewrite lookup_drop. f_equal. lia.
Qed.

Lemma zlen_sub buf pos n : 0 <= pos -> 0 <= n -> pos + n <= zlen buf -> zlen (sub buf pos n) = n.
Proof. intros. unfold sub. rewrite zlen_ztake, zlen_zdrop. lia. Qed.

(** The copy is the byte loop it replaced. *)
Lemma walring_copy_lookup buf size pos n i :
  zlen buf = size -> 0 < size < 2 ^ 32 -> 0 <= pos < size -> 0 <= n <= size -> 0 <= i < n ->
  walring_copy buf size pos n !! Z.to_nat i = buf !! Z.to_nat ((pos + i) mod size).
Proof.
  intros Hb Hs Hp Hn Hi. unfold walring_copy. rewrite (u32_id (size - pos)) by (unfold is_u32; lia).
  destruct (n <=? size - pos) eqn:E; bool_facts.
  - rewrite lookup_sub by lia. by rewrite Z.mod_small by lia.
  - rewrite u32_id by (unfold is_u32; lia). pose proof (zlen_sub buf pos (size - pos) ltac:(lia) ltac:(lia) ltac:(lia)) as Hl.
    unfold zlen in Hl. destruct (decide (i < size - pos)).
    + rewrite lookup_app_l by lia. rewrite lookup_sub by lia. by rewrite Z.mod_small by lia.
    + rewrite lookup_app_r by lia. replace (Z.to_nat i - _)%nat with (Z.to_nat (i - (size - pos))) by lia.
      rewrite lookup_sub by lia. do 2 f_equal. apply Z.mod_unique_pos with 1; lia.
Qed.

Lemma walring_copy_len buf size pos n :
  zlen buf = size -> 0 < size < 2 ^ 32 -> 0 <= pos < size -> 0 <= n <= size -> zlen (walring_copy buf size pos n) = n.
Proof.
  intros Hb Hs Hp Hn. unfold walring_copy. rewrite (u32_id (size - pos)) by (unfold is_u32; lia).
  destruct (n <=? size - pos) eqn:E; bool_facts; [apply zlen_sub; lia|].
  rewrite u32_id by (unfold is_u32; lia). rewrite zlen_app, !zlen_sub; lia.
Qed.

(** The counters at their positions. *)
Lemma u32_mod_size r k : ring_ok r -> u32 k mod rsize r = k mod rsize r.
Proof. intros [Hs Hd _ _ _ _]. unfold u32. by apply Z.mod_mod_divide. Qed.

Lemma ring_bytes_lookup r i :
  ring_ok r -> 0 <= i < ring_used r -> ring_bytes r !! Z.to_nat i = rbuf r !! Z.to_nat ((rhead r + i) mod rsize r).
Proof.
  intros Hok Hi. destruct Hok as [Hs Hd Hb Hh Ht Hu]. unfold ring_bytes. pose proof (Z.mod_pos_bound (rhead r) (rsize r) ltac:(lia)).
  rewrite walring_copy_lookup by (done || lia). by rewrite Zplus_mod_idemp_l.
Qed.

Lemma ring_bytes_len r : ring_ok r -> zlen (ring_bytes r) = ring_used r.
Proof.
  intros [Hs Hd Hb Hh Ht Hu]. apply walring_copy_len; [done|lia|apply Z.mod_pos_bound; lia|].
  pose proof (u32_range (rtail r - rhead r)). unfold ring_used, is_u32 in *. lia.
Qed.

Lemma zlist_eq (l k : bytes) : zlen l = zlen k -> (forall i, 0 <= i < zlen l -> l !! Z.to_nat i = k !! Z.to_nat i) -> l = k.
Proof.
  intros Hl Hi. apply list_eq. intros i. destruct (decide (i < length l)%nat).
  - specialize (Hi (Z.of_nat i)). rewrite Nat2Z.id in Hi. apply Hi. unfold zlen. lia.
  - rewrite !lookup_ge_None_2; [done| |]; unfold zlen in *; lia.
Qed.

(** ** Publishing *)

Definition ring_put (buf : bytes) (size pos : Z) (s : bytes) : bytes :=
  if u32 (pos + zlen s) <=? size then blit buf pos s
  else blit (blit buf pos (ztake (u32 (size - pos)) s)) 0 (zdrop (u32 (size - pos)) s).

Lemma ring_put_lookup buf size pos s p :
  zlen buf = size -> 0 < size < 2 ^ 31 -> 0 <= pos < size -> zlen s <= size -> 0 <= p < size ->
  ring_put buf size pos s !! Z.to_nat p =
    if decide ((p - pos) mod size < zlen s) then s !! Z.to_nat ((p - pos) mod size) else buf !! Z.to_nat p.
Proof.
  intros Hb Hs Hp Hl Hpp. pose proof (zlen_nonneg s). unfold ring_put. rewrite !u32_id by (unfold is_u32; lia).
  assert ((p - pos) mod size = if decide (pos <= p) then p - pos else p - pos + size) as ->.
  { destruct (decide _); [apply Z.mod_small; lia|]. symmetry. apply Z.mod_unique_pos with (-1); lia. }
  destruct (_ <=? size) eqn:E; bool_facts.
  - rewrite lookup_blit by lia. repeat destruct (decide _); try lia; done.
  - assert (zlen (ztake (size - pos) s) = size - pos) as Ht by (rewrite zlen_ztake; lia).
    assert (zlen (zdrop (size - pos) s) = zlen s - (size - pos)) as Hd by (rewrite zlen_zdrop; lia).
    rewrite lookup_blit, Hd by (rewrite ?blit_len; lia). rewrite lookup_blit, Ht by lia.
    repeat destruct (decide _); try lia; try done.
    + unfold zdrop. rewrite lookup_drop. f_equal. lia.
    + unfold ztake. by rewrite lookup_take_lt by lia.
Qed.

Lemma ring_put_len buf size pos s :
  zlen buf = size -> 0 < size < 2 ^ 31 -> 0 <= pos < size -> zlen s <= size -> zlen (ring_put buf size pos s) = size.
Proof.
  intros Hb Hs Hp Hl. pose proof (zlen_nonneg s). unfold ring_put. rewrite !u32_id by (unfold is_u32; lia).
  destruct (_ <=? size) eqn:E; bool_facts; rewrite !blit_len; rewrite ?zlen_ztake, ?zlen_zdrop, ?blit_len; rewrite ?zlen_ztake; lia.
Qed.

Lemma used_after r n : ring_ok r -> 0 <= n -> ring_used r + n <= rsize r -> u32 (u32 (rtail r + n) - rhead r) = ring_used r + n.
Proof.
  intros [Hs _ _ Hh Ht _] Hn Hfit. unfold ring_used, u32 in *. rewrite Zminus_mod_idemp_l.
  replace (rtail r + n - rhead r) with ((rtail r - rhead r) + n) by lia. rewrite <- Zplus_mod_idemp_l.
  apply Z.mod_small. pose proof (Z.mod_pos_bound (rtail r - rhead r) (2 ^ 32) ltac:(lia)). lia.
Qed.

(** Where byte [i] after [head] lies, counted from the tail's position. *)
Lemma from_tail r i :
  ring_ok r -> ((rhead r + i) mod rsize r - rtail r mod rsize r) mod rsize r = (i - ring_used r) mod rsize r.
Proof.
  intros Hok. rewrite <- Zminus_mod. rewrite <- (Zminus_mod_idemp_r i). unfold ring_used. rewrite u32_mod_size by done.
  rewrite Zminus_mod_idemp_r. f_equal. lia.
Qed.

Lemma ring_publish_fits r s :
  ring_ok r -> ring_used r + zlen s <= rsize r ->
  exists r', ring_publish r s = (true, r') /\ ring_ok r' /\ rdropped r' = rdropped r /\ ring_bytes r' = ring_bytes r ++ s.
Proof.
  intros Hok Hfit. pose proof Hok as [Hs Hd Hb Hh Ht Hu]. pose proof (zlen_nonneg s). pose proof (u32_range (rtail r - rhead r)) as Hr0.
  fold (ring_used r) in Hr0. unfold is_u32 in Hr0. pose proof (Z.mod_pos_bound (rtail r) (rsize r) ltac:(lia)) as Hpos.
  unfold ring_publish. fold (ring_used r). rewrite (u32_id (rsize r - ring_used r)) by (unfold is_u32; lia).
  destruct (_ <? _) eqn:E; bool_facts; [lia|]. eexists; split; [reflexivity|].
  fold (ring_put (rbuf r) (rsize r) (rtail r mod rsize r) s). set (r' := mk_ring _ _ _ _ _).
  assert (ring_used r' = ring_used r + zlen s) as Hu' by exact (used_after r (zlen s) Hok ltac:(done) Hfit).
  assert (ring_ok r') as Hok'.
  { constructor; cbn [rsize rbuf rhead rtail]; try done; [unfold r'; cbn; apply ring_put_len; lia|apply u32_range|rewrite Hu'; unfold r'; cbn; lia]. }
  split; [done|]. split; [done|]. apply zlist_eq; rewrite ?zlen_app, !ring_bytes_len by done; [lia|]. intros i Hi.
  rewrite ring_bytes_lookup by done. cbn [rsize rbuf rhead r'].
  rewrite ring_put_lookup by (try done; try lia; apply Z.mod_pos_bound; lia). rewrite from_tail by done.
  assert (length (ring_bytes r) = Z.to_nat (ring_used r)) as Hl by (pose proof (ring_bytes_len r Hok) as Hx; unfold zlen in Hx; lia).
  destruct (decide (i < ring_used r)) as [Hold|Hnew].
  - rewrite lookup_app_l by lia. rewrite ring_bytes_lookup by (done || lia).
    replace ((i - ring_used r) mod rsize r) with (i - ring_used r + rsize r) by (apply Z.mod_unique_pos with (-1); lia).
    by destruct (decide _); [lia|].
  - rewrite lookup_app_r by lia. rewrite Z.mod_small by lia. destruct (decide _); [|lia]. f_equal. lia.
Qed.

(** The ring with one more record dropped. *)
Definition ring_drop (r : ring) : ring := mk_ring (rbuf r) (rsize r) (rhead r) (rtail r) (rdropped r + 1).

Lemma ring_drop_ok r : ring_ok r -> ring_ok (ring_drop r) /\ ring_bytes (ring_drop r) = ring_bytes r.
Proof. intros [H1 H2 H3 H4 H5 H6]. by split; [constructor|]. Qed.

Lemma ring_publish_full r s : ring_ok r -> rsize r < ring_used r + zlen s -> ring_publish r s = (false, ring_drop r).
Proof.
  intros Hok Hfull. pose proof Hok as [Hs Hd Hb Hh Ht Hu]. pose proof (u32_range (rtail r - rhead r)) as Hr0.
  fold (ring_used r) in Hr0. unfold is_u32 in Hr0. unfold ring_publish. fold (ring_used r).
  rewrite (u32_id (rsize r - ring_used r)) by (unfold is_u32; lia). by rewrite (proj2 (Z.ltb_lt _ _)) by lia.
Qed.

(** ** Draining *)

Lemma copy_prefix buf size pos n m :
  zlen buf = size -> 0 < size < 2 ^ 31 -> 0 <= pos < size -> 0 <= n <= m -> m <= size ->
  walring_copy buf size pos n = ztake n (walring_copy buf size pos m).
Proof.
  intros Hb Hs Hp Hn Hm. apply zlist_eq; rewrite ?zlen_ztake, !walring_copy_len by lia; [lia|]. intros i Hi.
  unfold ztake. rewrite lookup_take_lt by lia. by rewrite !walring_copy_lookup by lia.
Qed.

Lemma ring_front r q rest n :
  ring_ok r -> ring_bytes r = q ++ rest -> 0 <= n <= zlen q ->
  walring_copy (rbuf r) (rsize r) (rhead r mod rsize r) n = ztake n q.
Proof.
  intros Hok Hb Hn. pose proof (ring_bytes_len r Hok) as Hl. pose proof Hok as [Hs Hd Hbl Hh Ht Hu].
  rewrite Hb, zlen_app in Hl. pose proof (zlen_nonneg rest). pose proof (Z.mod_pos_bound (rhead r) (rsize r) ltac:(lia)).
  rewrite (copy_prefix _ _ _ n (ring_used r)) by lia. fold (ring_bytes r). rewrite Hb. unfold ztake.
  rewrite take_app_le by (unfold zlen in *; lia). done.
Qed.

Definition at_head (r : ring) (head : Z) : ring := mk_ring (rbuf r) (rsize r) head (rtail r) (rdropped r).

Lemma ring_advance r q rest :
  ring_ok r -> ring_bytes r = q ++ rest ->
  ring_ok (at_head r (u32 (rhead r + zlen q))) /\ ring_bytes (at_head r (u32 (rhead r + zlen q))) = rest.
Proof.
  intros Hok Hb. pose proof (ring_bytes_len r Hok) as Hl. pose proof Hok as [Hs Hd Hbl Hh Ht Hu].
  rewrite Hb, zlen_app in Hl. pose proof (zlen_nonneg q). pose proof (zlen_nonneg rest). set (r' := at_head r _).
  assert (ring_used r' = zlen rest) as Hu'.
  { unfold ring_used, r', u32 in *. cbn [rtail rhead at_head]. rewrite Zminus_mod_idemp_r.
    replace (rtail r - (rhead r + zlen q)) with ((rtail r - rhead r) - zlen q) by lia. rewrite <- Zminus_mod_idemp_l, <- Hl.
    rewrite Z.mod_small; lia. }
  assert (ring_ok r') as Hok' by (constructor; try done; [apply u32_range|rewrite Hu'; unfold r'; cbn; lia]).
  split; [done|]. apply zlist_eq; rewrite ring_bytes_len by done; [done|]. intros i Hi.
  rewrite ring_bytes_lookup by done. unfold r'. cbn [rbuf rsize rhead at_head].
  rewrite <- Zplus_mod_idemp_l, u32_mod_size, Zplus_mod_idemp_l by done. rewrite <- Z.add_assoc.
  rewrite <- (ring_bytes_lookup r) by (done || lia). rewrite Hb, lookup_app_r by (unfold zlen in *; lia). f_equal. unfold zlen. lia.
Qed.

(** A record as [produce] builds it: its length field counts what follows the
    record header. *)
Definition is_rec (q : bytes) : Prop := r32 q = zlen q - Z.of_nat PC_WAL_RECHDR /\ 12 <= zlen q < 2 ^ 31.

Lemma produce_is_rec x b : rec_ok x -> produce_rec x = Some b -> is_rec b.
Proof.
  intros Hok Hb. destruct (produce_stamp 0 x Hok) as (b' & Hb' & _). rewrite Hb' in Hb. apply (inj Some) in Hb as ->.
  pose proof (payload_u32 x Hok) as (Hpl & _ & _ & ?). pose proof (ro_fits x Hok) as Hf.
  unfold produce_rec in Hb'. rewrite (u32_id (payload_len x)) in Hb' by done. destruct (_ >? _); [done|]. apply (inj Some) in Hb' as <-.
  split.
  - rewrite r32_w32 by done. rewrite !zlen_app, payload_length. change (zlen (w32 _)) with 4. unfold PC_WAL_RECHDR. lia.
  - rewrite !zlen_app, payload_length. unfold MAX_REC, PCACHE_CELL_MAX, PC_WAL_RECHDR in *. change (zlen (w32 _)) with 4. lia.
Qed.

Lemma r32_ztake q : 12 <= zlen q -> r32 (ztake 12 q) = r32 q.
Proof. intros Hq. pose proof (r32_take 12 0 q ltac:(lia)) as H. by rewrite !drop_0 in H. Qed.

Lemma ring_empty r : ring_ok r -> ring_bytes r = [] <-> rhead r = rtail r.
Proof.
  intros Hok. pose proof (ring_bytes_len r Hok) as Hl. pose proof Hok as [_ _ _ Hh Ht _]. unfold ring_used, u32, is_u32 in *. split.
  - intros E. rewrite E in Hl. change (zlen []) with 0 in Hl. Z.div_mod_to_equations. lia.
  - intros E. apply zlen_zero. rewrite Hl, E, Z.sub_diag. done.
Qed.

Lemma ring_drain_spec fuel r qs len cap n bmax :
  ring_ok r -> ring_bytes r = concat qs -> Forall is_rec qs -> (length qs < fuel)%nat ->
  exists k head left_, ring_drain fuel r (rhead r) len cap n bmax = (take k qs, head, left_) /\
    ring_ok (at_head r head) /\ ring_bytes (at_head r head) = concat (drop k qs) /\
    (len + zlen (concat qs) <= cap -> n + zlen qs <= bmax -> k = length qs).
Proof.
  intros Hok Hb Hqs Hf.
  enough (forall h, ring_ok (at_head r h) -> ring_bytes (at_head r h) = concat qs ->
    exists k head left_, ring_drain fuel r h len cap n bmax = (take k qs, head, left_) /\
      ring_ok (at_head r head) /\ ring_bytes (at_head r head) = concat (drop k qs) /\
      (len + zlen (concat qs) <= cap -> n + zlen qs <= bmax -> k = length qs)) as H by (apply H; by destruct r).
  clear Hok Hb. revert fuel len n Hf. induction Hqs as [|q qs [Hq1 Hq2] Hqs IH]; intros fuel len n Hf h Hok Hb;
    (destruct fuel as [|fuel]; [cbn in Hf; lia|]); cbn [ring_drain].
  - apply (ring_empty _ Hok) in Hb as Hh. cbn in Hh. rewrite Hh, Z.eqb_refl. cbn [orb]. rewrite Hh in Hok, Hb.
    exists 0%nat, (rtail r), false. done.
  - assert (h <> rtail r) as Hne.
    { intros ->. assert (ring_bytes (at_head r (rtail r)) = []) as E by by apply ring_empty.
      rewrite E in Hb. apply (f_equal zlen) in Hb. cbn [concat] in Hb. rewrite zlen_app in Hb. change (zlen []) with 0 in Hb.
      pose proof (zlen_nonneg (concat qs)). lia. }
    rewrite (proj2 (Z.eqb_neq _ _)) by done. cbn [orb]. cbn [concat] in Hb |- *.
    destruct (bmax <=? n) eqn:Eb; bool_facts.
    { exists 0%nat, h, false. repeat split; try done; [by apply Hok..|]. intros _. rewrite zlen_cons. pose proof (zlen_nonneg qs). lia. }
    pose proof (ring_front _ _ _ (Z.of_nat PC_WAL_RECHDR) Hok Hb ltac:(unfold PC_WAL_RECHDR; lia)) as Hhdr. cbn [rbuf rsize rhead at_head] in Hhdr.
    rewrite Hhdr. change (Z.of_nat PC_WAL_RECHDR) with 12 in *. rewrite r32_ztake, Hq1 by lia.
    replace (12 + (zlen q - 12)) with (zlen q) by lia. rewrite (u32_id (zlen q)) by (unfold is_u32; lia).
    pose proof (ring_front _ _ _ (zlen q) Hok Hb ltac:(lia)) as Hcp. cbn [rbuf rsize rhead at_head] in Hcp. rewrite Hcp.
    rewrite (ztake_all _ q) by lia. destruct (_ >? cap) eqn:Ec; bool_facts.
    { exists 0%nat, h, true. repeat split; try done; [by apply Hok..|]. rewrite zlen_app. pose proof (zlen_nonneg (concat qs)). lia. }
    destruct (ring_advance _ _ _ Hok Hb) as [Hok' Hb']. cbn [rhead at_head] in Hok', Hb'.
    destruct (IH fuel (len + zlen q) (n + 1) ltac:(cbn in Hf; lia) (u32 (h + zlen q)) Hok' Hb') as (k & head & left_ & -> & Hk1 & Hk2 & Hk3).
    exists (S k), head, left_. repeat split; try done; [by apply Hk1..|]. rewrite zlen_app, zlen_cons. intros. cbn [length]. rewrite Hk3; lia.
Qed.

Lemma ring_pump_spec r qs len cap n :
  ring_ok r -> ring_bytes r = concat qs -> Forall is_rec qs ->
  exists k r' left_, ring_pump r len cap n BATCH_MAX = (take k qs, r', left_) /\
    ring_ok r' /\ rdropped r' = rdropped r /\ ring_bytes r' = concat (drop k qs) /\
    (len + zlen (concat qs) <= cap -> n + zlen qs <= BATCH_MAX -> k = length qs).
Proof.
  intros Hok Hb Hqs. unfold ring_pump.
  assert (length qs <= length (concat qs))%nat as Hl.
  { clear -Hqs. induction Hqs as [|q qs [_ Hq] _ IH]; [done|]. cbn. rewrite length_app. unfold zlen in Hq. lia. }
  pose proof (ring_bytes_len r Hok) as Hlen. rewrite Hb in Hlen. pose proof (rg_used r Hok). unfold zlen in Hlen.
  destruct (ring_drain_spec (S (Z.to_nat (rsize r))) r qs len cap n BATCH_MAX Hok Hb Hqs ltac:(lia)) as (k & head & left_ & -> & H1 & H2 & H3).
  by exists k, (at_head r head), left_.
Qed.

Definition op_ok (o : ring_op) : Prop := match o with OPublish s => is_rec s | OPump _ _ _ => True end.

Definition published (ops : list ring_op) : Z :=
  zlen (List.filter (fun o => match o with OPublish _ => true | OPump _ _ _ => false end) ops).

Lemma ring_run_queue ops acc tak r q :
  ring_ok r -> ring_bytes r = concat q -> acc = tak ++ q -> Forall is_rec q -> Forall op_ok ops ->
  let '(acc', tak', r') := foldl ring_step (acc, tak, r) ops in
  exists q', acc' = tak' ++ q' /\ ring_ok r' /\ ring_bytes r' = concat q' /\ Forall is_rec q' /\
    zlen acc' + rdropped r' = zlen acc + rdropped r + published ops.
Proof.
  intros Hok Hb Hacc Hq Hops. revert acc tak r q Hok Hb Hacc Hq. induction Hops as [|o ops Ho Hops IH]; intros acc tak r q Hok Hb Hacc Hq.
  - exists q. split_and!; try done. change (published []) with 0. lia.
  - cbn [foldl]. destruct o as [s|len cap n]; cbn [ring_step op_ok] in *.
    + assert (published (OPublish s :: ops) = 1 + published ops) as Hpub by (unfold published; cbn [List.filter]; by rewrite zlen_cons).
      destruct (decide (ring_used r + zlen s <= rsize r)) as [Hfit|Hfull].
      * destruct (ring_publish_fits r s Hok Hfit) as (r' & -> & Hok' & Hd & Hb').
        specialize (IH (acc ++ [s]) tak r' (q ++ [s]) Hok'). destruct (foldl _ _ _) as [[acc' tak'] r2].
        destruct IH as (q' & G1 & G2 & G3 & G4 & G5).
        -- rewrite Hb', Hb, concat_app. cbn. by rewrite app_nil_r.
        -- by rewrite Hacc, app_assoc.
        -- apply Forall_app; split; [done|by apply Forall_singleton].
        -- exists q'. split_and!; try done. rewrite zlen_app in G5. change (zlen [s]) with 1 in G5. lia.
      * rewrite ring_publish_full by (done || lia). destruct (ring_drop_ok r Hok) as [Hok' Hb'].
        specialize (IH acc tak (ring_drop r) q Hok'). destruct (foldl _ _ _) as [[acc' tak'] r2].
        destruct IH as (q' & G1 & G2 & G3 & G4 & G5); [by rewrite Hb'|done|done|]. exists q'. split_and!; try done. cbn [rdropped ring_drop] in G5. lia.
    + destruct (ring_pump_spec r q len cap n Hok Hb Hq) as (k & r' & left_ & -> & Hok' & Hd & Hb' & _).
      specialize (IH acc (tak ++ take k q) r' (drop k q) Hok' Hb'). destruct (foldl _ _ _) as [[acc' tak'] r2].
      destruct IH as (q' & G1 & G2 & G3 & G4 & G5); [by rewrite Hacc, <- app_assoc, take_drop|by apply Forall_drop|].
      exists q'. split_and!; try done. change (published (OPump len cap n :: ops)) with (published ops). lia.
Qed.

(** C16. Between a worker and the log's thread the ring is a first-in first-out
    queue of whole records, across every wrap of the buffer and of the 32-bit
    counters, for a ring size that divides 2^32: after any sequence of publishes
    and pump passes, the records taken, then those still queued, are exactly the
    records accepted, in order; a pump pass with room for them takes all that is
    queued; a record is refused only when it does not fit beside them; and the
    refused are counted. *)
Theorem wal_ring_fifo ops r :
  ring_ok r -> rhead r = rtail r -> Forall op_ok ops ->
  let '(acc, tak, r') := foldl ring_step ([], [], r) ops in
  exists q, acc = tak ++ q /\ ring_bytes r' = concat q /\
    (forall cap, zlen (concat q) <= cap -> zlen q <= BATCH_MAX -> (ring_pump r' 0 cap 0 BATCH_MAX).1.1 = q) /\
    (forall s, (ring_publish r' s).1 = false <-> rsize r' < zlen (concat q) + zlen s) /\
    zlen acc + rdropped r' = rdropped r + published ops.
Proof.
  intros Hok He Hops. pose proof (proj2 (ring_empty r Hok) He) as Hb.
  pose proof (ring_run_queue ops [] [] r [] Hok Hb eq_refl ltac:(by apply Forall_nil) Hops) as H.
  destruct (foldl _ _ _) as [[acc tak] r']. destruct H as (q & Hacc & Hok' & Hb' & Hq & Hd). exists q. split_and!; [done|done| | |change (zlen (@nil bytes)) with 0 in Hd; lia].
  - intros cap Hc Hn. destruct (ring_pump_spec r' q 0 cap 0 Hok' Hb' Hq) as (k & r2 & left_ & -> & _ & _ & _ & Hk).
    cbn. rewrite Hk by lia. by apply firstn_all.
  - intros s. rewrite <- Hb', (ring_bytes_len _ Hok'). split; [|intros; by rewrite ring_publish_full].
    destruct (decide (ring_used r' + zlen s <= rsize r')) as [Hfit|]; [|lia].
    destruct (ring_publish_fits r' s Hok' Hfit) as (? & -> & _). done.
Qed.

(** A record of [n] bytes, filled with [c]. *)
Definition ex_frame (n c : Z) : bytes := w32 (n - 12) ++ replicate (Z.to_nat (n - 4)) c.

Lemma wal_ring_fifo_witness :
  let r := mk_ring (replicate 64 0) 64 (2 ^ 32 - 20) (2 ^ 32 - 20) 0 in
  let '(acc, tak, r') := foldl ring_step ([], [], r) [OPublish (ex_frame 30 7); OPublish (ex_frame 20 8); OPump 0 30 0] in
  exists q, acc = tak ++ q /\ ring_bytes r' = concat q /\
    (forall cap, zlen (concat q) <= cap -> zlen q <= BATCH_MAX -> (ring_pump r' 0 cap 0 BATCH_MAX).1.1 = q) /\
    (forall s, (ring_publish r' s).1 = false <-> rsize r' < zlen (concat q) + zlen s) /\
    zlen acc + rdropped r' = 0 + published [OPublish (ex_frame 30 7); OPublish (ex_frame 20 8); OPump 0 30 0].
Proof.
  apply (wal_ring_fifo [OPublish (ex_frame 30 7); OPublish (ex_frame 20 8); OPump 0 30 0]
    (mk_ring (replicate 64 0) 64 (2 ^ 32 - 20) (2 ^ 32 - 20) 0)).
  - constructor; cbn [rsize rbuf rhead rtail]; try by vm_compute. by exists (2 ^ 26).
  - reflexivity.
  - do 3 (constructor; [by vm_compute|]). constructor.
Defined.

(** The configuration takes any [ring_kb] from 4 to 16384, and a size that is
    not a power of two does not divide 2^32: where the 32-bit tail wraps, the
    position jumps.  In a 6 KB ring, empty with the counters 4090 short of the
    wrap, three records that fit together are published, none refused; the third
    is written over the first, which the log's thread then takes in its place. *)
Example wal_ring_overwrites :
  let size := Z.shiftl 6 10 in
  let a := ex_frame 4080 1 in let b := ex_frame 60 2 in let c := ex_frame 100 3 in
  let r := mk_ring (replicate (Z.to_nat size) 0) size (2 ^ 32 - 4090) (2 ^ 32 - 4090) 0 in
  let '(acc, _, r') := foldl ring_step ([], [], r) [OPublish a; OPublish b; OPublish c] in
  acc = [a; b; c] /\ rdropped r' = 0 /\
  exists a', (ring_pump r' 0 (2 ^ 22) 0 BATCH_MAX).1.1 = [a'; b; c] /\ a' <> a.
Proof. vm_compute. split; [reflexivity|]. split; [reflexivity|]. eexists. split; [reflexivity|]. discriminate. Qed.
