(* ===== verification/Clack.v ===== *)
(** The watermarks of the acknowledgement plane ([clack.c]).

    An origin numbers its deletes within a space [(oid, incarn)].  A member keeps,
    per space, the highest contiguous number it has applied and the part of it
    its write-ahead log has made durable; origins forget what every member
    confirms.  The code folds the log positions into a running maximum and a queue
    of sixteen pairs, and what arrives out of order into a bitmap of 4096 bits.

    [struct space] is [space], [struct clack] is [clack]; [calloc]'s answer is an
    argument.  The specification is a [ledger]: which numbers were recorded with
    which log position, and the base a restore or a floor set.  [led_ok] relates
    the two and every operation preserves it; the theorems read off it. *)

From Stdlib Require Import ZArith Lia.
From stdpp Require Import base tactics list numbers gmap sets sorting.
From S2P Require Import Prelude.

Definition CLACK_SPACES : Z := 1026.
Definition CLACK_WIN : Z := 4096.
Definition CLACK_PEND : Z := 16.

Definition CLACK_NEW : Z := 0.
Definition CLACK_DUP : Z := 1.
Definition CLACK_FAR : Z := 2.
Definition CLACK_FULL : Z := -1.
Definition CLACK_BAD : Z := -2.

Record space := mk_space {
  oid : Z; incarn : Z;
  nahead : Z;                 (* bits set in ahead *)
  mark : Z; dmark : Z; hi : Z;
  wmax : Z; wahead : Z;
  pend : list (Z * Z);        (* the first npend pairs (seq, w) *)
  ahead : list Z              (* CLACK_WIN / 64 words *)
}.

Record clack := mk_clack {
  durable_on_apply : bool;
  synced : Z;
  st_applied : Z; st_dups : Z; st_far : Z; st_full : Z;
  spaces : list space
}.

Definition no_bits : list Z := replicate 64 0.

Definition bit (ah : list Z) (seq : Z) : bool :=
  let b := seq mod CLACK_WIN in
  Z.land (Z.shiftr (nth (Z.to_nat (b / 64)) ah 0) (b mod 64)) 1 =? 1.

Definition bit_set (ah : list Z) (seq : Z) (on : bool) : list Z :=
  let b := seq mod CLACK_WIN in
  let i := Z.to_nat (b / 64) in
  let w := nth i ah 0 in
  <[i := if on then Z.lor w (Z.shiftl 1 (b mod 64)) else Z.ldiff w (Z.shiftl 1 (b mod 64))]> ah.

Definition is_space (o i : Z) (sp : space) : bool := (oid sp =? o) && (incarn sp =? i).

Fixpoint find_from (l : list space) (o i : Z) (k : nat) : option nat :=
  match l with
  | [] => None
  | sp :: l => if is_space o i sp then Some k else find_from l o i (S k)
  end.

Definition find (a : clack) (o i : Z) : option nat := find_from (spaces a) o i 0.

Definition new_space (o i : Z) : space := mk_space o i 0 0 0 0 0 0 [] no_bits.

Definition set_spaces (a : clack) (l : list space) : clack :=
  mk_clack (durable_on_apply a) (synced a) (st_applied a) (st_dups a) (st_far a) (st_full a) l.

(** [get]: the index of the space, made when it is new; [mem] is [calloc]'s answer. *)
Definition get (a : clack) (o i : Z) (mem : bool) : option nat * clack :=
  match find a o i with
  | Some k => (Some k, a)
  | None =>
      if (zlen (spaces a) =? CLACK_SPACES) || negb mem then
        (None, mk_clack (durable_on_apply a) (synced a) (st_applied a) (st_dups a) (st_far a)
                 (u64 (st_full a + 1)) (spaces a))
      else (Some (length (spaces a)), set_spaces a (spaces a ++ [new_space o i]))
  end.

Definition clack_new (doa : bool) : clack := mk_clack doa 0 0 0 0 0 [].

Definition put_space (a : clack) (k : nat) (sp : space) : clack :=
  set_spaces a (<[k := sp]> (spaces a)).

(** The tail pair replaced: [t->seq = ..; t->w = ..]. *)
Definition set_last (l : list (Z * Z)) (p : Z * Z) : list (Z * Z) := <[pred (length l) := p]> l.

Definition confirm (doa : bool) (syn : Z) (sp : space) : space :=
  let upd d p := mk_space (oid sp) (incarn sp) (nahead sp) (mark sp) d (hi sp) (wmax sp) (wahead sp) p (ahead sp) in
  if doa || (wmax sp <=? syn) then upd (mark sp) []
  else
    let t := last (pend sp) in
    match t with
    | Some t =>
        if snd t =? wmax sp then upd (dmark sp) (set_last (pend sp) (mark sp, snd t))
        else if zlen (pend sp) =? CLACK_PEND then upd (dmark sp) (set_last (pend sp) (mark sp, wmax sp))
        else upd (dmark sp) (pend sp ++ [(mark sp, wmax sp)])
    | None => upd (dmark sp) (pend sp ++ [(mark sp, wmax sp)])
    end.

(** [while (sp->nahead && bit(sp, sp->mark + 1))]: [(mark, nahead, ahead, took)]. *)
Fixpoint connect (fuel : nat) (m na : Z) (ah : list Z) (took : bool) : Z * Z * list Z * bool :=
  match fuel with
  | O => (m, na, ah, took)
  | S fuel =>
      if negb (na =? 0) && bit ah (u64 (m + 1))
      then connect fuel (u64 (m + 1)) (na - 1) (bit_set ah (u64 (m + 1)) false) true
      else (m, na, ah, took)
  end.

Definition count_clack (a : clack) (ap du fa : Z) : clack :=
  mk_clack (durable_on_apply a) (synced a) (u64 (st_applied a + ap)) (u64 (st_dups a + du))
    (u64 (st_far a + fa)) (st_full a) (spaces a).

Definition sp_applied (doa : bool) (syn : Z) (sp : space) (seq walseq : Z) : Z * space :=
  if (seq <=? mark sp) || ((seq - mark sp <=? CLACK_WIN) && bit (ahead sp) seq) then (CLACK_DUP, sp)
  else
    let h := if seq >? hi sp then seq else hi sp in
    if seq - mark sp >? CLACK_WIN then
      (CLACK_FAR, mk_space (oid sp) (incarn sp) (nahead sp) (mark sp) (dmark sp) h (wmax sp) (wahead sp) (pend sp) (ahead sp))
    else if negb (seq =? u64 (mark sp + 1)) then
      (CLACK_NEW, mk_space (oid sp) (incarn sp) (u32 (nahead sp + 1)) (mark sp) (dmark sp) h (wmax sp)
         (if walseq >? wahead sp then walseq else wahead sp) (pend sp) (bit_set (ahead sp) seq true))
    else
      let w := if walseq >? wmax sp then walseq else wmax sp in
      let '(m, na, ah, took) := connect (Z.to_nat (nahead sp)) seq (nahead sp) (ahead sp) false in
      let w := if took && (wahead sp >? w) then wahead sp else w in
      let wa := if na =? 0 then 0 else wahead sp in
      (CLACK_NEW, confirm doa syn (mk_space (oid sp) (incarn sp) na m (dmark sp) h w wa (pend sp) ah)).

Definition clack_applied (a : clack) (o i seq walseq : Z) (mem : bool) : Z * clack :=
  if seq =? 0 then (CLACK_BAD, a)
  else
    match get a o i mem with
    | (None, a) => (CLACK_FULL, a)
    | (Some k, a) =>
        match spaces a !! k with
        | None => (CLACK_FULL, a)
        | Some sp =>
            let '(rc, sp) := sp_applied (durable_on_apply a) (synced a) sp seq walseq in
            (rc, put_space (count_clack a (b2z (rc =? CLACK_NEW)) (b2z (rc =? CLACK_DUP)) (b2z (rc =? CLACK_FAR))) k sp)
        end
    end.

(** The scan of [clack_synced] over one space's queue. *)
Fixpoint take_synced (d : Z) (p : list (Z * Z)) (walseq : Z) : Z * list (Z * Z) :=
  match p with
  | (s, w) :: p' => if w <=? walseq then take_synced (if s >? d then s else d) p' walseq else (d, p)
  | [] => (d, [])
  end.

Definition sp_synced (walseq : Z) (sp : space) : space :=
  let '(d, p) := take_synced (dmark sp) (pend sp) walseq in
  mk_space (oid sp) (incarn sp) (nahead sp) (mark sp) d (hi sp) (wmax sp) (wahead sp) p (ahead sp).

Definition clack_synced (a : clack) (walseq : Z) : clack :=
  if walseq <=? synced a then a
  else mk_clack (durable_on_apply a) walseq (st_applied a) (st_dups a) (st_far a) (st_full a)
         (map (sp_synced walseq) (spaces a)).

Definition clack_mark (a : clack) (o i : Z) : option Z :=
  k ← find a o i; sp ← spaces a !! k; Some (dmark sp).

(** The first held number from [s] on, at most [n] of them. *)
Fixpoint first_held (ah : list Z) (s : Z) (n : nat) : option Z :=
  match n with
  | O => None
  | S n => if bit ah s then Some s else first_held ah (s + 1) n
  end.

Definition sp_gap (sp : space) : option (Z * Z) :=
  if hi sp <=? mark sp then None
  else
    let n := Z.to_nat (u64 (mark sp + CLACK_WIN) - u64 (mark sp + 2) + 1) in
    let to := if nahead sp =? 0 then None else first_held (ahead sp) (u64 (mark sp + 2)) n in
    Some (u64 (mark sp + 1), match to with Some s => s - 1 | None => hi sp end).

Definition clack_gap (a : clack) (o i : Z) : option (Z * Z) :=
  k ← find a o i; sp ← spaces a !! k; sp_gap sp.

Definition clack_restore (a : clack) (o i m : Z) (mem : bool) : Z * clack :=
  match get a o i mem with
  | (None, a) => (CLACK_FULL, a)
  | (Some k, a) => (CLACK_NEW, put_space a k (mk_space o i 0 m m m 0 0 [] no_bits))
  end.

(** The loop that clears what lies at or below the floor. *)
Fixpoint clear_upto (n : nat) (s floor na : Z) (ah : list Z) : Z * list Z :=
  match n with
  | O => (na, ah)
  | S n =>
      if (s <=? floor) && negb (na =? 0) then
        if bit ah s then clear_upto n (u64 (s + 1)) floor (na - 1) (bit_set ah s false)
        else clear_upto n (u64 (s + 1)) floor na ah
      else (na, ah)
  end.

Definition sp_floor (doa : bool) (syn : Z) (sp : space) (floor : Z) : Z * space :=
  if floor <=? mark sp then (CLACK_DUP, sp)
  else
    let '(na, ah) :=
      if floor - mark sp >? CLACK_WIN then (0, no_bits)
      else clear_upto (S (Z.to_nat CLACK_WIN)) (u64 (mark sp + 1)) floor (nahead sp) (ahead sp) in
    let h := if hi sp <? floor then floor else hi sp in
    let d := if dmark sp <? floor then floor else dmark sp in
    let p := filter (fun q => floor < fst q) (pend sp) in
    let '(m, na, ah, took) := connect (Z.to_nat na) floor na ah false in
    let sp1 := mk_space (oid sp) (incarn sp) na m d h
                 (if took && (wahead sp >? wmax sp) then wahead sp else wmax sp) (wahead sp) p ah in
    let sp2 := if took then confirm doa syn sp1 else sp1 in
    (CLACK_NEW, mk_space (oid sp2) (incarn sp2) (nahead sp2) (mark sp2) (dmark sp2) (hi sp2) (wmax sp2)
                  (if na =? 0 then 0 else wahead sp2) (pend sp2) (ahead sp2)).

Definition clack_floor (a : clack) (o i floor : Z) (mem : bool) : Z * clack :=
  match get a o i mem with
  | (None, a) => (CLACK_FULL, a)
  | (Some k, a) =>
      match spaces a !! k with
      | None => (CLACK_FULL, a)
      | Some sp =>
          let '(rc, sp) := sp_floor (durable_on_apply a) (synced a) sp floor in
          (rc, put_space a k sp)
      end
  end.

Definition clack_known (a : clack) (o i : Z) : bool :=
  match find a o i with Some _ => true | None => false end.

(** [a->s[i] = a->s[--a->n]]. *)
Definition clack_drop (a : clack) (o i : Z) : clack :=
  match find a o i with
  | None => a
  | Some k =>
      let n := pred (length (spaces a)) in
      match spaces a !! n with
      | None => a
      | Some l => set_spaces a (take n (<[k := l]> (spaces a)))
      end
  end.

(** [clack_each] with a callback over the accumulated context. *)
Fixpoint clack_each_from {X} (l : list space) (cb : Z -> Z -> Z -> Z -> Z -> X -> Z * X) (ctx : X) : Z * X :=
  match l with
  | [] => (0, ctx)
  | sp :: l =>
      let '(rc, ctx) := cb (oid sp) (incarn sp) (dmark sp) (mark sp) (hi sp) ctx in
      if negb (rc =? 0) then (rc, ctx) else clack_each_from l cb ctx
  end.

Definition clack_each {X} (a : clack) (cb : Z -> Z -> Z -> Z -> Z -> X -> Z * X) (ctx : X) : Z * X :=
  clack_each_from (spaces a) cb ctx.

Record clack_stats := mk_stats {
  s_applied : Z; s_dups : Z; s_far : Z; s_full : Z; s_spaces : Z; s_durable_on_apply : bool }.

Definition clack_get_stats (a : clack) : clack_stats :=
  mk_stats (st_applied a) (st_dups a) (st_far a) (st_full a) (zlen (spaces a)) (durable_on_apply a).

(** * The bitmap *)

Lemma bit_testbit ah s : bit ah s = Z.testbit (nth (Z.to_nat (s mod CLACK_WIN / 64)) ah 0) (s mod CLACK_WIN mod 64).
Proof.
  unfold bit. rewrite Z.testbit_odd. set (x := Z.shiftr _ _).
  replace (Z.land x 1) with (x mod 2 ^ 1) by (symmetry; apply (Z.land_ones x 1); lia).
  rewrite Zmod_odd. by destruct (Z.odd x).
Qed.

Lemma bit_idx s : (Z.to_nat (s mod CLACK_WIN / 64) < 64)%nat.
Proof. pose proof (Z.mod_pos_bound s CLACK_WIN). unfold CLACK_WIN in *. apply Nat2Z.inj_lt. rewrite Z2Nat.id; [|apply Z.div_pos; lia].
  apply Z.div_lt_upper_bound; lia. Qed.

Lemma bit_set_len ah s on : length (bit_set ah s on) = length ah.
Proof. apply length_insert. Qed.

Lemma bit_bit_set ah s s' on :
  length ah = 64%nat ->
  bit (bit_set ah s on) s' = if decide (s mod CLACK_WIN = s' mod CLACK_WIN) then on else bit ah s'.
Proof.
  intros Hl. rewrite !bit_testbit. unfold bit_set.
  set (b := s mod CLACK_WIN). set (b' := s' mod CLACK_WIN).
  assert (0 <= b < 4096) by (apply Z.mod_pos_bound; done).
  assert (0 <= b' < 4096) by (apply Z.mod_pos_bound; done).
  assert (0 <= b mod 64 < 64) by (apply Z.mod_pos_bound; done).
  assert (0 <= b' mod 64 < 64) by (apply Z.mod_pos_bound; done).
  pose proof (bit_idx s) as Hi. fold b in Hi.
  destruct (decide (b / 64 = b' / 64)) as [Hq|Hq].
  - rewrite <- Hq. rewrite (nth_lookup _ (Z.to_nat (b / 64)) 0), list_lookup_insert_eq by lia. simpl.
    assert (forall n, 0 <= n -> Z.testbit (Z.shiftl 1 (b mod 64)) n = (n =? b mod 64)) as Hs.
    { intros n Hn. rewrite Z.shiftl_1_l, Z.pow2_bits_eqb, Z.eqb_sym by lia. done. }
    destruct on; [rewrite Z.lor_spec|rewrite Z.ldiff_spec]; rewrite Hs by lia;
      destruct (decide (b = b')) as [->|Hne].
    1,3: rewrite Z.eqb_refl; simpl; by rewrite ?orb_true_r, ?andb_false_r.
    all: rewrite (proj2 (Z.eqb_neq _ _)); [by rewrite ?orb_false_r, ?andb_true_r|].
    all: intros Hm; apply Hne; rewrite (Z.div_mod b 64), (Z.div_mod b' 64) by lia; lia.
  - rewrite decide_False by congruence. rewrite !nth_lookup, list_lookup_insert_ne; [done|].
    intros Hc. apply Hq. apply Z2Nat.inj in Hc; [done| |]; apply Z.div_pos; lia.
Qed.

Lemma win_inj m s s' : m < s <= m + CLACK_WIN -> m < s' <= m + CLACK_WIN -> s mod CLACK_WIN = s' mod CLACK_WIN -> s = s'.
Proof. unfold CLACK_WIN. intros. Z.div_mod_to_equations. lia. Qed.

Lemma bit_no_bits s : bit no_bits s = false.
Proof. rewrite bit_testbit. unfold no_bits. rewrite nth_lookup.
  destruct (_ !! _) eqn:E; [apply lookup_replicate in E as [-> _]|]; apply Z.testbit_0_l. Qed.

(** * The ledger: what was recorded, and with which log position *)

Record ledger := mk_led { base : Z; log : gmap Z Z }.

Definition led_new : ledger := mk_led 0 ∅.

(** The number is below the base, or was recorded. *)
Definition covered (L : ledger) (s : Z) : Prop := 1 <= s /\ (s <= base L \/ is_Some (log L !! s)).

(** The recorded numbers above [m]. *)
Definition above (lg : gmap Z Z) (m : Z) : gset Z := filter (fun s => m < s) (dom lg).

Lemma elem_above lg m s : s ∈ above lg m <-> m < s /\ is_Some (lg !! s).
Proof. unfold above. rewrite elem_of_filter, elem_of_dom. done. Qed.

(** Every recorded number above [m] is in the window and the bitmap holds exactly those. *)
Record held_ok (lg : gmap Z Z) (m na : Z) (ah : list Z) : Prop := {
  h_pos : 0 <= m;
  h_len : length ah = 64%nat;
  h_key : forall s, is_Some (lg !! s) -> s - m <= CLACK_WIN /\ s < 2 ^ 64;
  h_bit : forall s, m < s <= m + CLACK_WIN -> bit ah s = bool_decide (is_Some (lg !! s));
  h_cnt : na = Z.of_nat (size (above lg m))
}.

Lemma above_empty lg m : size (above lg m) = 0%nat <-> forall s, is_Some (lg !! s) -> s <= m.
Proof.
  rewrite size_empty_iff. split.
  - intros He s Hs. destruct (decide (m < s)); [|lia]. exfalso.
    apply (not_elem_of_empty (C := gset Z) s), He. by apply elem_above.
  - intros H. apply set_equiv. intros s. split; [|set_solver].
    intros Hs%elem_above. destruct Hs as [? Hs]. apply H in Hs. lia.
Qed.

Lemma cnt_zero lg m : (forall s, is_Some (lg !! s) -> s <= m) -> 0 = Z.of_nat (size (above lg m)).
Proof. intros H. apply above_empty in H. lia. Qed.

Lemma above_step lg m : is_Some (lg !! (m + 1)) -> size (above lg m) = S (size (above lg (m + 1))).
Proof.
  intros Hs. assert (above lg m = {[m + 1]} ∪ above lg (m + 1)) as ->.
  { apply set_eq. intros s. rewrite elem_of_union, elem_of_singleton, !elem_above. split.
    - intros [? ?]. destruct (decide (s = m + 1)); [by left|right; split; [lia|done]].
    - intros [->|[? ?]]; (split; [lia|done]). }
  rewrite size_union, size_singleton; [lia|]. intros x ->%elem_of_singleton Hx%elem_above. lia.
Qed.

Lemma above_step_none lg m : lg !! (m + 1) = None -> above lg (m + 1) = above lg m.
Proof.
  intros Hn. apply set_eq. intros s. rewrite !elem_above. split; intros [? [w Hw]]; (split; [|by eexists]); [lia|].
  destruct (decide (s = m + 1)); [congruence|lia].
Qed.

Lemma above_bound lg m na ah : held_ok lg m na ah -> 0 <= na <= CLACK_WIN.
Proof.
  intros [? ? Hk _ ->]. split; [lia|].
  assert (above lg m ⊆ (list_to_set (seqZ (m + 1) CLACK_WIN) : gset Z)) as Hsub.
  { intros s [? Hs]%elem_above. apply elem_of_list_to_set, elem_of_seqZ. apply Hk in Hs. lia. }
  apply subseteq_size in Hsub. rewrite size_list_to_set in Hsub by apply NoDup_seqZ.
  rewrite length_seqZ in Hsub. unfold CLACK_WIN in *. lia.
Qed.

(** The mark moves onto a number the bitmap holds: its bit goes. *)
Lemma held_take lg m na ah :
  held_ok lg m na ah -> is_Some (lg !! (m + 1)) -> held_ok lg (m + 1) (na - 1) (bit_set ah (m + 1) false).
Proof.
  intros [Hp Hl Hk Hb ->] Hs. split; [lia|by rewrite bit_set_len| | |].
  - intros s Hs'. apply Hk in Hs'. lia.
  - intros s Hsr. rewrite bit_bit_set by done. destruct (decide _) as [Hm|Hm].
    + symmetry. apply bool_decide_eq_false. intros Hs'. apply Hk in Hs' as [? ?].
      assert (m + 1 = s) by (apply (win_inj m); unfold CLACK_WIN in *; lia). lia.
    + destruct (decide (s <= m + CLACK_WIN)); [apply Hb; lia|].
      exfalso. apply Hm. replace s with (m + 1 + 1 * CLACK_WIN) by lia. by rewrite Z_mod_plus_full.
  - rewrite (above_step lg m) by done. lia.
Qed.

(** The mark moves onto a number just recorded that the bitmap does not hold. *)
Lemma held_next lg m na ah w :
  held_ok lg m na ah -> lg !! (m + 1) = None -> m + 1 < 2 ^ 64 -> held_ok (<[m + 1 := w]> lg) (m + 1) na ah.
Proof.
  intros [Hp Hl Hk Hb ->] Hn Hu. split; [lia|done| | |].
  - intros s Hs. destruct (decide (s = m + 1)); [unfold CLACK_WIN; lia|].
    rewrite lookup_insert_ne in Hs by done. apply Hk in Hs. lia.
  - intros s Hsr. rewrite lookup_insert_ne by lia. destruct (decide (s <= m + CLACK_WIN)); [apply Hb; lia|].
    replace s with (m + 1 + CLACK_WIN) by lia.
    transitivity (bit ah (m + 1)).
    { rewrite !bit_testbit. replace (m + 1 + CLACK_WIN) with (m + 1 + 1 * CLACK_WIN) by lia. by rewrite Z_mod_plus_full. }
    rewrite Hb by (unfold CLACK_WIN; lia). rewrite Hn.
    apply bool_decide_ext. split; [by intros [? ?]|]. intros Hs. apply Hk in Hs. lia.
  - do 2 f_equal. apply set_eq. intros s. rewrite !elem_above. split; intros [Hs Hw].
    + assert (s <> m + 1) by (intros ->; rewrite Hn in Hw; by destruct Hw).
      split; [lia|]. by rewrite lookup_insert_ne by lia.
    + split; [lia|]. by rewrite lookup_insert_ne in Hw by lia.
Qed.

(** The loop that takes what is now contiguous. *)
Lemma connect_ok lg fuel : forall m na ah took m' na' ah' took',
  held_ok lg m na ah -> (Z.to_nat na <= fuel)%nat ->
  connect fuel m na ah took = (m', na', ah', took') ->
  held_ok lg m' na' ah' /\ m <= m' /\ (forall s, m < s <= m' -> is_Some (lg !! s)) /\
  lg !! (m' + 1) = None /\ took' = took || (m <? m').
Proof.
  induction fuel as [|fuel IH]; intros m na ah took m' na' ah' took' Hok Hf E; simpl in E.
  - injection E as <- <- <- <-. split; [done|]. split; [lia|]. split; [intros; lia|].
    assert (lg !! (m + 1) = None).
    { destruct (lg !! (m + 1)) eqn:El; [|done]. pose proof (h_cnt _ _ _ _ Hok) as Hc.
      pose proof (above_bound _ _ _ _ Hok). rewrite above_step in Hc by (by eexists). lia. }
    split; [done|]. rewrite Z.ltb_irrefl. by rewrite orb_false_r.
  - pose proof (h_cnt _ _ _ _ Hok) as Hc. destruct (Z.eqb_spec na 0) as [Hz|Hnz]; simpl in E.
    { injection E as <- <- <- <-. split; [done|]. split; [lia|]. split; [intros; lia|]. split.
      - destruct (lg !! (m + 1)) eqn:El; [|done]. rewrite above_step in Hc by (by eexists). lia.
      - rewrite Z.ltb_irrefl. by rewrite orb_false_r. }
    assert (m + 1 < 2 ^ 64) as Hu.
    { destruct (set_choose_or_empty (above lg m)) as [[s [Hs1 Hs2]%elem_above]|He].
      - apply (h_key _ _ _ _ Hok) in Hs2. lia.
      - rewrite He, size_empty in Hc. lia. }
    rewrite u64_id in E by (pose proof (h_pos _ _ _ _ Hok); unfold is_u64; lia).
    rewrite (h_bit _ _ _ _ Hok) in E by (unfold CLACK_WIN; lia). case_bool_decide as Hs; simpl in E.
    + apply IH in E; [|by apply held_take|lia]. destruct E as (? & ? & Hin & ? & ->).
      split; [done|]. split; [lia|]. split.
      { intros s Hsr. destruct (decide (s = m + 1)) as [->|]; [done|]. apply Hin. lia. }
      split; [done|]. rewrite (proj2 (Z.ltb_lt m m')) by lia. by rewrite orb_true_r.
    + injection E as <- <- <- <-. split; [done|]. split; [lia|]. split; [intros; lia|].
      split; [by apply eq_None_not_Some|]. rewrite Z.ltb_irrefl. by rewrite orb_false_r.
Qed.

(** * What relates a space to its ledger *)

(** Every entry of [(b, m]] is at or below [w]. *)
Definition wal_upto (lg : gmap Z Z) (b m w : Z) : Prop :=
  forall s x, lg !! s = Some x -> b < s <= m -> x <= w.

Record led_ok (doa : bool) (syn : Z) (sp : space) (L : ledger) : Prop := {
  l_held : held_ok (log L) (mark sp) (nahead sp) (ahead sp);
  l_base : 0 <= base L <= dmark sp;
  l_dmark : dmark sp <= mark sp;
  l_hi : mark sp <= hi sp < 2 ^ 64;
  l_key : forall s x, log L !! s = Some x -> 1 <= s <= hi sp /\ 0 <= x;
  l_cov : forall s, base L < s <= mark sp -> is_Some (log L !! s);
  l_next : log L !! (mark sp + 1) = None;
  l_wpos : 0 <= wmax sp /\ 0 <= wahead sp;
  l_wmax : wal_upto (log L) (base L) (mark sp) (wmax sp);
  l_wahead : wal_upto (log L) (mark sp) (hi sp) (wahead sp);
  (* the maxima never exceed what was recorded *)
  l_wtop : forall M, 0 <= M -> (forall s x, log L !! s = Some x -> x <= M) -> wmax sp <= M /\ wahead sp <= M;
  l_pend : Forall (fun q => fst q <= mark sp /\ syn < snd q <= wmax sp /\ wal_upto (log L) (base L) (fst q) (snd q)) (pend sp);
  l_sort : StronglySorted (fun p q => snd p < snd q) (pend sp);
  l_last : match last (pend sp) with Some q => fst q = mark sp | None => dmark sp = mark sp end;
  l_doa : doa = true -> pend sp = [];
  l_dur : doa = false -> wal_upto (log L) (base L) (dmark sp) syn
}.

Lemma set_last_snoc l t p : set_last (l ++ [t]) p = l ++ [p].
Proof.
  unfold set_last. rewrite length_app. simpl. replace (pred (length l + 1)) with (length l + 0)%nat by lia.
  by rewrite insert_app_r.
Qed.

Lemma sorted_snoc (l : list (Z * Z)) t t' :
  StronglySorted (fun p q => snd p < snd q) (l ++ [t]) -> snd t <= snd t' ->
  StronglySorted (fun p q => snd p < snd q) (l ++ [t']).
Proof.
  rewrite !StronglySorted_app. intros (H1 & H2 & H3) Ht. split; [|split; [done|repeat constructor]].
  intros x y Hx ->%list_elem_of_singleton. specialize (H1 x t Hx (list_elem_of_here _ _)). lia.
Qed.

Lemma sorted_app1 (l : list (Z * Z)) t :
  StronglySorted (fun p q => snd p < snd q) l -> Forall (fun q => snd q < snd t) l ->
  StronglySorted (fun p q => snd p < snd q) (l ++ [t]).
Proof.
  intros H1 H2. rewrite StronglySorted_app. split; [|split; [done|repeat constructor]].
  intros x y Hx ->%list_elem_of_singleton. rewrite Forall_forall in H2. by apply H2.
Qed.

(** Before [confirm]: the queue speaks of an older mark. *)
Record pre_confirm (doa : bool) (syn : Z) (sp : space) (L : ledger) : Prop := {
  p_dm : dmark sp < mark sp;
  p_syn : 0 <= syn;
  p_pend : Forall (fun q => fst q <= mark sp /\ syn < snd q <= wmax sp /\ wal_upto (log L) (base L) (fst q) (snd q)) (pend sp);
  p_sort : StronglySorted (fun p q => snd p < snd q) (pend sp);
  p_wmax : wal_upto (log L) (base L) (mark sp) (wmax sp);
  p_doa : doa = true -> pend sp = [];
  p_dur : doa = false -> wal_upto (log L) (base L) (dmark sp) syn
}.

(** What [confirm] leaves of the queue and of the confirmed mark. *)
Lemma confirm_ok doa syn sp L :
  pre_confirm doa syn sp L ->
  exists d p,
    confirm doa syn sp = mk_space (oid sp) (incarn sp) (nahead sp) (mark sp) d (hi sp) (wmax sp) (wahead sp) p (ahead sp) /\
    dmark sp <= d <= mark sp /\
    Forall (fun q => fst q <= mark sp /\ syn < snd q <= wmax sp /\ wal_upto (log L) (base L) (fst q) (snd q)) p /\
    StronglySorted (fun p q => snd p < snd q) p /\
    match last p with Some q => fst q = mark sp | None => d = mark sp end /\
    (doa = true -> p = []) /\ (doa = false -> wal_upto (log L) (base L) d syn).
Proof.
  intros [Hd Hs Hp Hst Hw Hdoa Hdur]. unfold confirm. destruct doa; simpl.
  { eexists _, _. split; [reflexivity|]. repeat split; try done; try lia; constructor. }
  destruct (Z.leb_spec (wmax sp) syn).
  { eexists _, _. split; [reflexivity|]. repeat split; try done; try lia; try constructor.
    intros _ s x Hx Hsr. specialize (Hw s x Hx Hsr). lia. }
  assert (forall x, wal_upto (log L) (base L) (mark sp) x -> syn < x <= wmax sp ->
    (fun q => fst q <= mark sp /\ syn < snd q <= wmax sp /\ wal_upto (log L) (base L) (fst q) (snd q)) (mark sp, x)) as Hnew.
  { intros x ? ?. simpl. repeat split; try done; lia. }
  destruct (pend sp) as [|t0 l0] eqn:Ep using rev_ind; [|clear IHl0; rename l0 into l, t0 into t].
  { simpl. eexists _, _. split; [reflexivity|]. simpl. repeat split; try done; try lia.
    - constructor; [by apply Hnew; [|lia]|constructor].
    - repeat constructor. }
  rewrite last_snoc. apply Forall_app in Hp as [Hp1 Hp2]. inversion Hp2 as [|? ? [Ht1 [Ht2 Ht3]] _]; subst.
  destruct (Z.eqb_spec (snd t) (wmax sp)) as [Hq|Hq].
  { eexists _, _. split; [reflexivity|]. rewrite set_last_snoc, last_snoc. repeat split; try done; try lia.
    - apply Forall_app. split; [done|]. constructor; [|constructor]. apply Hnew; [by rewrite Hq|lia].
    - apply (sorted_snoc _ t); [done|simpl; lia]. }
  case_match.
  { eexists _, _. split; [reflexivity|]. rewrite set_last_snoc, last_snoc. repeat split; try done; try lia.
    - apply Forall_app. split; [done|]. constructor; [|constructor]. by apply Hnew; [|lia].
    - apply (sorted_snoc _ t); [done|simpl; lia]. }
  eexists _, _. split; [reflexivity|]. rewrite last_snoc. repeat split; try done; try lia.
  - rewrite !Forall_app. split; [split; [done|by constructor]|]. constructor; [|constructor]. by apply Hnew; [|lia].
  - apply sorted_app1; [done|]. apply Forall_app. simpl. split.
    + apply Forall_forall. intros x Hx. rewrite StronglySorted_app in Hst. destruct Hst as [Hlt _].
      specialize (Hlt x t Hx (list_elem_of_here _ _)). lia.
    + constructor; [lia|constructor].
Qed.

Lemma confirm_oid doa syn sp : oid (confirm doa syn sp) = oid sp.
Proof. unfold confirm. repeat case_match; done. Qed.
Lemma confirm_nahead doa syn sp : nahead (confirm doa syn sp) = nahead sp.
Proof. unfold confirm. repeat case_match; done. Qed.
Lemma confirm_incarn doa syn sp : incarn (confirm doa syn sp) = incarn sp.
Proof. unfold confirm. repeat case_match; done. Qed.

(** A space whose mark has just moved is related again once [confirm] has run. *)
Lemma led_confirm doa syn sp L :
  pre_confirm doa syn sp L ->
  held_ok (log L) (mark sp) (nahead sp) (ahead sp) ->
  0 <= base L <= dmark sp -> mark sp <= hi sp < 2 ^ 64 ->
  (forall s x, log L !! s = Some x -> 1 <= s <= hi sp /\ 0 <= x) ->
  (forall s, base L < s <= mark sp -> is_Some (log L !! s)) ->
  log L !! (mark sp + 1) = None ->
  0 <= wmax sp /\ 0 <= wahead sp ->
  wal_upto (log L) (mark sp) (hi sp) (wahead sp) ->
  (forall M, 0 <= M -> (forall s x, log L !! s = Some x -> x <= M) -> wmax sp <= M /\ wahead sp <= M) ->
  led_ok doa syn (confirm doa syn sp) L.
Proof.
  intros Hpre Hh Hb Hhi Hk Hc Hn Hp Hwa Ht.
  destruct (confirm_ok _ _ _ _ Hpre) as (d & p & -> & Hd & Hpe & Hs & Hl & Hdoa & Hdur).
  destruct Hpre. split; simpl; try done; lia.
Qed.

(** Nothing is ahead: the maximum over it can go. *)
Lemma led_wahead doa syn sp L wa :
  led_ok doa syn sp L -> (wa = wahead sp \/ (nahead sp = 0 /\ wa = 0)) ->
  led_ok doa syn (mk_space (oid sp) (incarn sp) (nahead sp) (mark sp) (dmark sp) (hi sp) (wmax sp) wa (pend sp) (ahead sp)) L.
Proof.
  intros H [->|[Hz ->]]; [by destruct sp, H|].
  pose proof (h_cnt _ _ _ _ (l_held _ _ _ _ H)) as Hc. rewrite Hz in Hc.
  assert (forall s, is_Some (log L !! s) -> s <= mark sp) as Habove by (apply above_empty; lia).
  destruct H. split; simpl; try done; [lia|..].
  - intros s x Hx Hs. assert (is_Some (log L !! s)) as Hi by (by eexists). apply Habove in Hi. lia.
  - intros M HM Hle. split; [by apply l_wtop0|lia].
Qed.

Definition led_add (L : ledger) (seq w : Z) : ledger := mk_led (base L) (<[seq := w]> (log L)).
Definition led_floor (L : ledger) (f : Z) : ledger := mk_led f (log L).

Lemma wal_upto_insert lg b m w seq x :
  wal_upto lg b m w -> (b < seq <= m -> x <= w) -> wal_upto (<[seq := x]> lg) b m w.
Proof.
  intros H Hx s y Hy Hs. destruct (decide (s = seq)) as [->|].
  - rewrite lookup_insert_eq in Hy. injection Hy as <-. by apply Hx.
  - rewrite lookup_insert_ne in Hy by done. by apply (H s).
Qed.

Lemma wal_upto_le lg b m w w' b' m' : wal_upto lg b m w -> w <= w' -> b <= b' -> m' <= m -> wal_upto lg b' m' w'.
Proof. intros H ? ? ? s x Hx Hs. assert (x <= w) by (apply (H s); [done|lia]). lia. Qed.

Lemma key_insert (lg : gmap Z Z) seq w h h' :
  (forall s x, lg !! s = Some x -> 1 <= s <= h /\ 0 <= x) -> 1 <= seq <= h' -> 0 <= w -> h <= h' ->
  forall s x, <[seq := w]> lg !! s = Some x -> 1 <= s <= h' /\ 0 <= x.
Proof.
  intros H Hs Hw Hh s x Hx. destruct (decide (s = seq)) as [->|].
  - rewrite lookup_insert_eq in Hx. injection Hx as <-. lia.
  - rewrite lookup_insert_ne in Hx by done. apply H in Hx. lia.
Qed.

Lemma top_insert (lg : gmap Z Z) seq w M :
  lg !! seq = None -> (forall s x, <[seq := w]> lg !! s = Some x -> x <= M) ->
  w <= M /\ forall s x, lg !! s = Some x -> x <= M.
Proof.
  intros Hn H. split; [apply (H seq); apply lookup_insert_eq|].
  intros s x Hx. apply (H s). rewrite lookup_insert_ne; [done|]. congruence.
Qed.

Lemma held_insert lg m na ah seq w :
  held_ok lg m na ah -> lg !! seq = None -> m + 1 < seq <= m + CLACK_WIN -> seq < 2 ^ 64 ->
  held_ok (<[seq := w]> lg) m (na + 1) (bit_set ah seq true).
Proof.
  intros [Hp Hl Hk Hb ->] Hn Hs Hu. split; [lia|by rewrite bit_set_len| | |].
  - intros s Hi. destruct (decide (s = seq)) as [->|]; [lia|]. rewrite lookup_insert_ne in Hi by done. by apply Hk.
  - intros s Hsr. rewrite bit_bit_set by done. destruct (decide _) as [Hm|Hm].
    + assert (seq = s) as -> by (apply (win_inj m); lia || done).
      rewrite lookup_insert_eq. symmetry. apply bool_decide_eq_true. by eexists.
    + rewrite lookup_insert_ne by congruence. by apply Hb.
  - assert (above (<[seq := w]> lg) m = {[seq]} ∪ above lg m) as ->.
    { apply set_eq. intros s. rewrite elem_of_union, elem_of_singleton, !elem_above, lookup_insert_is_Some'.
      naive_solver lia. }
    rewrite size_union, size_singleton; [lia|].
    intros x ->%elem_of_singleton [_ Hx]%elem_above. rewrite Hn in Hx. by destruct Hx.
Qed.

(** * A delete recorded *)

(** The code's test for a duplicate is the ledger's. *)
Lemma dup_test doa syn sp L seq :
  led_ok doa syn sp L -> 1 <= seq ->
  covered L seq <-> (seq <=? mark sp) || ((seq - mark sp <=? CLACK_WIN) && bit (ahead sp) seq) = true.
Proof.
  intros H Hseq. pose proof (l_held _ _ _ _ H) as Hh. unfold covered.
  destruct (Z.leb_spec seq (mark sp)) as [Hle|Hgt]; simpl.
  - split; [done|]. intros _. split; [lia|]. destruct (decide (base L < seq)); [right|left; lia].
    apply (l_cov _ _ _ _ H). lia.
  - pose proof (l_base _ _ _ _ H). pose proof (l_dmark _ _ _ _ H).
    destruct (Z.leb_spec (seq - mark sp) CLACK_WIN) as [Hin|Hout]; simpl.
    + rewrite (h_bit _ _ _ _ Hh) by lia. rewrite bool_decide_eq_true.
      split; [intros [_ [?|?]]; [lia|done]|]. intros; split; [lia|by right].
    + split; [|done]. intros [_ [?|Hi]]; [lia|]. apply (h_key _ _ _ _ Hh) in Hi. lia.
Qed.

Lemma max_if a b : (if a >? b then a else b) = Z.max a b.
Proof. rewrite Z.gtb_ltb. destruct (Z.ltb_spec b a); lia. Qed.

(** What the queue says stays true when a number above it is recorded. *)
Lemma pend_insert lg b m syn wm wm' seq x (p : list (Z * Z)) :
  Forall (fun q => fst q <= m /\ syn < snd q <= wm /\ wal_upto lg b (fst q) (snd q)) p -> m < seq -> wm <= wm' ->
  forall m', m <= m' ->
  Forall (fun q => fst q <= m' /\ syn < snd q <= wm' /\ wal_upto (<[seq := x]> lg) b (fst q) (snd q)) p.
Proof.
  intros H Hs Hw m' Hm. eapply Forall_impl; [exact H|]. intros q (? & ? & ?). repeat split; try lia.
  apply wal_upto_insert; [done|lia].
Qed.

(** The number next in line, with what it connects. *)
Lemma applied_in_line doa syn sp L seq walseq h m na ah took :
  led_ok doa syn sp L -> 0 <= syn -> 0 <= walseq ->
  log L !! seq = None -> seq = mark sp + 1 -> h = Z.max seq (hi sp) -> h < 2 ^ 64 ->
  connect (Z.to_nat (nahead sp)) seq (nahead sp) (ahead sp) false = (m, na, ah, took) ->
  let w0 := Z.max walseq (wmax sp) in
  let w1 := if took && (wahead sp >? w0) then wahead sp else w0 in
  led_ok doa syn (confirm doa syn (mk_space (oid sp) (incarn sp) na m (dmark sp) h w1
    (if na =? 0 then 0 else wahead sp) (pend sp) ah)) (led_add L seq walseq).
Proof.
  intros H Hsyn Hw Hfresh Hnext Hh Hu Ec w0 w1.
  assert (held_ok (<[seq := walseq]> (log L)) seq (nahead sp) (ahead sp)) as Hh0.
  { subst seq. apply held_next; [apply (l_held _ _ _ _ H)|done|lia]. }
  apply (connect_ok (<[seq := walseq]> (log L))) in Ec as (Hh' & Hm & Hin & Hn' & Htook); [|done|lia].
  assert (w0 <= w1 /\ (seq < m -> wahead sp <= w1) /\ (w1 = w0 \/ w1 = wahead sp)) as (Hw1 & Hw2 & Hw3).
  { subst w1. rewrite Htook, Z.gtb_ltb. simpl. destruct (Z.ltb_spec seq m), (Z.ltb_spec w0 (wahead sp)); simpl; lia. }
  assert (forall s, seq < s <= m -> s <= hi sp) as Hmh.
  { intros s Hs. destruct (Hin s) as [x Hx]; [lia|]. rewrite lookup_insert_ne in Hx by lia.
    apply (l_key _ _ _ _ H) in Hx. lia. }
  assert (m <= h) by (destruct (decide (seq < m)); [pose proof (Hmh m)|]; lia).
  destruct H as [_ Hb Hd Hhi Hkey Hcov _ Hpos Hwm Hwa Htop Hpend Hsort _ Hdoa Hdur].
  apply led_confirm; simpl; try done; try lia.
  - split; simpl; try done; try lia.
    + apply (pend_insert _ _ (mark sp) _ (wmax sp)); [done|lia..].
    + apply wal_upto_insert; [|lia]. intros s x Hx Hs. assert (s <> seq) by congruence.
      destruct (decide (s <= mark sp)); [specialize (Hwm s x Hx)|specialize (Hwa s x Hx); specialize (Hmh s)]; lia.
    + intros ?. apply wal_upto_insert; [by apply Hdur|lia].
  - apply (key_insert _ _ _ (hi sp)); try lia. apply Hkey.
  - intros s Hs. destruct (decide (s = seq)) as [->|]; [rewrite lookup_insert_eq; by eexists|].
    destruct (decide (s <= mark sp)); [rewrite lookup_insert_ne by done; apply Hcov; lia|]. apply Hin. lia.
  - split; [lia|]. case_match; lia.
  - apply wal_upto_insert; [|lia]. intros s x Hx Hs. destruct (Z.eqb_spec na 0) as [Hz|Hz].
    + pose proof (h_cnt _ _ _ _ Hh') as Hc. rewrite Hz in Hc.
      assert (s <= m); [|lia]. apply (proj1 (above_empty (<[seq := walseq]> (log L)) m)); [lia|].
      rewrite lookup_insert_ne by congruence. by eexists.
    + apply (Hwa s x Hx). apply Hkey in Hx. lia.
  - intros M HM Hle. apply top_insert in Hle as [Hle1 Hle2]; [|done].
    destruct (Htop M HM Hle2). split; [destruct Hw3; lia|case_match; lia].
Qed.

(** A number ahead of the mark, inside the window. *)
Lemma applied_ahead doa syn sp L seq walseq h :
  led_ok doa syn sp L -> 0 <= walseq -> log L !! seq = None ->
  mark sp + 1 < seq -> seq - mark sp <= CLACK_WIN -> h = Z.max seq (hi sp) -> h < 2 ^ 64 ->
  led_ok doa syn (mk_space (oid sp) (incarn sp) (u32 (nahead sp + 1)) (mark sp) (dmark sp) h (wmax sp)
    (Z.max walseq (wahead sp)) (pend sp) (bit_set (ahead sp) seq true)) (led_add L seq walseq).
Proof.
  intros H Hw Hfresh Hgt Hin Hh Hu. pose proof (above_bound _ _ _ _ (l_held _ _ _ _ H)) as Hna.
  rewrite u32_id by (unfold is_u32, CLACK_WIN in *; lia).
  destruct H as [Hheld Hb Hd Hhi Hkey Hcov Hnx Hpos Hwm Hwa Htop Hpend Hsort Hlast Hdoa Hdur].
  split; simpl; try done; try lia.
  - apply held_insert; try done; lia.
  - apply (key_insert _ _ _ (hi sp)); try lia. apply Hkey.
  - intros s Hs. rewrite lookup_insert_ne by lia. by apply Hcov.
  - rewrite lookup_insert_ne by lia. done.
  - apply wal_upto_insert; [done|lia].
  - apply wal_upto_insert; [|lia]. intros s x Hx Hs. specialize (Hwa s x Hx). apply Hkey in Hx. lia.
  - intros M HM Hle. apply top_insert in Hle as [Hle1 Hle2]; [|done]. destruct (Htop M HM Hle2). lia.
  - apply (pend_insert _ _ (mark sp) _ (wmax sp)); [done|lia..].
  - intros ?. apply wal_upto_insert; [by apply Hdur|lia].
Qed.

Lemma sp_applied_ok doa syn sp L seq walseq rc sp' :
  led_ok doa syn sp L -> 0 <= syn -> 1 <= seq < 2 ^ 64 -> 0 <= walseq ->
  sp_applied doa syn sp seq walseq = (rc, sp') ->
  oid sp' = oid sp /\ incarn sp' = incarn sp /\
  led_ok doa syn sp' (if rc =? CLACK_NEW then led_add L seq walseq else L) /\
  rc = (if decide (covered L seq) then CLACK_DUP
        else if seq - mark sp >? CLACK_WIN then CLACK_FAR else CLACK_NEW).
Proof.
  intros H Hsyn Hseq Hw E. unfold sp_applied in E.
  pose proof (dup_test _ _ _ _ seq H ltac:(lia)) as Hcov. rewrite !max_if in E.
  destruct ((seq <=? mark sp) || _) eqn:Ed.
  { injection E as <- <-. rewrite decide_True by (by apply Hcov). done. }
  assert (~ covered L seq) as Hnc by (rewrite Hcov; congruence). rewrite decide_False by done.
  assert (log L !! seq = None) as Hfresh.
  { apply eq_None_not_Some. intros Hi. apply Hnc. split; [lia|by right]. }
  apply orb_false_elim in Ed as [Hgt%Z.leb_gt _]. pose proof (l_hi _ _ _ _ H).
  destruct (seq - mark sp >? CLACK_WIN) eqn:Ef.
  { injection E as <- <-. split_and!; try done. simpl. destruct H. split; simpl; try done; try lia.
    - intros s x Hx. apply l_key0 in Hx. lia.
    - intros s x Hx Hs. apply (l_wahead0 s x Hx). apply l_key0 in Hx. lia. }
  bool_facts. pose proof (h_pos _ _ _ _ (l_held _ _ _ _ H)).
  rewrite u64_id in E by (unfold is_u64; lia).
  destruct (Z.eqb_spec seq (mark sp + 1)) as [Hnext|Hnext]; simpl in E.
  - destruct (connect _ _ _ _ _) as [[[m na] ah] took] eqn:Ec. injection E as <- <-.
    rewrite confirm_oid, confirm_incarn. split_and!; try done.
    by eapply applied_in_line; eauto; lia.
  - injection E as <- <-. split_and!; try done. apply applied_ahead; try done; lia.
Qed.

(** * The log synced, a mark restored, a floor *)

Lemma take_synced_ok d p walseq d' p' :
  take_synced d p walseq = (d', p') ->
  exists q, p = q ++ p' /\ Forall (fun x => snd x <= walseq) q /\
    d' = foldl Z.max d (map fst q) /\ match p' with [] => True | x :: _ => walseq < snd x end.
Proof.
  revert d. induction p as [|[s w] p IH]; intros d E; simpl in E.
  - injection E as <- <-. by exists [].
  - destruct (Z.leb_spec w walseq).
    + rewrite max_if, Z.max_comm in E. apply IH in E as (q & -> & ? & -> & ?).
      exists ((s, w) :: q). repeat split; try done. by constructor.
    + injection E as <- <-. exists []. repeat split; try done; constructor.
Qed.

Lemma foldl_max d l : d <= foldl Z.max d l /\ (foldl Z.max d l = d \/ foldl Z.max d l ∈ l) /\ forall x, x ∈ l -> x <= foldl Z.max d l.
Proof.
  revert d. induction l as [|y l IH]; intros d; simpl; [set_solver by lia|].
  destruct (IH (Z.max d y)) as (H1 & H2 & H3). split; [lia|]. split.
  - destruct H2 as [->|?]; [|set_solver]. destruct (Z.max_spec d y) as [[_ ->]|[_ ->]]; set_solver.
  - intros x [->|Hx]%elem_of_cons; [lia|]. by apply H3.
Qed.

Lemma sp_synced_ok doa syn sp L walseq :
  led_ok doa syn sp L -> syn < walseq -> led_ok doa walseq (sp_synced walseq sp) L.
Proof.
  intros H Hlt. unfold sp_synced. destruct (take_synced _ _ _) as [d p] eqn:E.
  apply take_synced_ok in E as (q & Ep & Hq & Ed & Hhd).
  pose proof (foldl_max (dmark sp) (map fst q)) as (Hd1 & Hd2 & Hd3). rewrite <- Ed in *.
  destruct H as [Hheld Hb Hd Hhi Hkey Hcov Hnx Hpos Hwm Hwa Htop Hpend Hsort Hlast Hdoa Hdur].
  rewrite Ep in Hpend, Hsort, Hlast, Hdoa. apply Forall_app in Hpend as [Hpq Hpp].
  apply StronglySorted_app in Hsort as (_ & _ & Hsort). rewrite Forall_forall in Hpq, Hq.
  assert (d = dmark sp \/ exists x, x ∈ q /\ fst x = d) as Hdq.
  { destruct Hd2 as [?|(x & -> & ?)%list_elem_of_fmap]; [by left|right; by exists x]. }
  assert (d <= mark sp) by (destruct Hdq as [->|(x & Hx & <-)]; [done|]; by apply Hpq).
  split; simpl; try done; try lia.
  - apply Forall_forall. intros x Hx. rewrite Forall_forall in Hpp. destruct (Hpp x Hx) as (? & ? & ?).
    split_and!; try done; [|lia]. destruct p as [|y p]; [by apply elem_of_nil in Hx|].
    apply elem_of_cons in Hx as [->|Hx]; [done|]. apply StronglySorted_inv in Hsort as [_ Hs].
    rewrite Forall_forall in Hs. specialize (Hs x Hx). simpl in Hs. lia.
  - destruct (last p) as [y|] eqn:El.
    + rewrite last_app, El in Hlast. done.
    + apply last_None in El as ->. rewrite app_nil_r in Hlast. destruct (last q) as [y|] eqn:El; [|].
      * assert (fst y <= d) by (apply Hd3; apply list_elem_of_fmap; exists y; split; [done|]; by apply last_Some_elem_of). lia.
      * apply last_None in El as ->. simpl in Ed. lia.
  - intros Hd0. apply Hdoa in Hd0. by apply app_eq_nil in Hd0 as [_ ->].
  - intros Hd0 s x Hx Hs. destruct Hdq as [->|(y & Hy & <-)].
    + specialize (Hdur Hd0 s x Hx Hs). lia.
    + specialize (Hq y Hy). destruct (Hpq y Hy) as (_ & _ & Hu). specialize (Hu s x Hx Hs). lia.
Qed.

Lemma held_empty m : 0 <= m -> held_ok ∅ m 0 no_bits.
Proof.
  intros. split; try done.
  - intros s Hs. rewrite lookup_empty in Hs. by destruct Hs.
  - intros s _. rewrite bit_no_bits, lookup_empty. symmetry. apply bool_decide_eq_false. by intros [? ?].
Qed.

Lemma restored_ok doa syn o i m : is_u64 m -> led_ok doa syn (mk_space o i 0 m m m 0 0 [] no_bits) (mk_led m ∅).
Proof.
  intros [? ?]. split; simpl; try done; try lia; try (intros s x Hx; by rewrite lookup_empty in Hx).
  - by apply held_empty.
  - constructor.
Qed.

(** The mark passes a number nobody holds. *)
Lemma held_skip lg m na ah : held_ok lg m na ah -> lg !! (m + 1) = None -> held_ok lg (m + 1) na ah.
Proof.
  intros H Hn. pose proof (above_step_none lg m Hn) as Ha. destruct H as [Hp Hl Hk Hb ->]. split; [lia|done| | |by rewrite Ha].
  - intros s Hs. apply Hk in Hs. lia.
  - intros s Hs. destruct (decide (s <= m + CLACK_WIN)); [apply Hb; lia|].
    transitivity (bit ah (m + 1)).
    { rewrite !bit_testbit. replace s with (m + 1 + 1 * CLACK_WIN) by lia. by rewrite Z_mod_plus_full. }
    rewrite Hb by (unfold CLACK_WIN; lia). rewrite Hn. apply bool_decide_ext.
    split; [by intros [? ?]|]. intros Hs'. apply Hk in Hs'. lia.
Qed.

(** Nothing is held: the bitmap is empty at any later mark. *)
Lemma held_far lg m ah f : held_ok lg m 0 ah -> m <= f -> held_ok lg f 0 ah.
Proof.
  intros [Hp Hl Hk Hb Hc] Hf.
  assert (forall s, is_Some (lg !! s) -> s <= m) as Hno by (apply above_empty; lia).
  split; [lia|done| | |].
  - intros s Hs. apply Hk in Hs. lia.
  - intros s Hs. set (s' := m + 1 + (s - m - 1) mod CLACK_WIN).
    assert (m < s' <= m + CLACK_WIN) by (subst s'; unfold CLACK_WIN; Z.div_mod_to_equations; lia).
    transitivity (bit ah s').
    { rewrite !bit_testbit. replace (s' mod CLACK_WIN) with (s mod CLACK_WIN); [done|].
      subst s'. rewrite Zplus_mod_idemp_r. f_equal. lia. }
    rewrite Hb by done. apply bool_decide_ext. split; intros Hi; apply Hno in Hi; lia.
  - apply cnt_zero. intros s Hs. apply Hno in Hs. lia.
Qed.

Lemma clear_upto_ok lg n : forall m f na ah na' ah',
  held_ok lg m na ah -> m <= f -> is_u64 f -> (Z.to_nat (f - m) < n)%nat ->
  clear_upto n (u64 (m + 1)) f na ah = (na', ah') -> held_ok lg f na' ah'.
Proof.
  induction n as [|n IH]; intros m f na ah na' ah' H Hm Hf Hn E; [lia|].
  pose proof (h_pos _ _ _ _ H). destruct (decide (m = f)) as [->|Hne].
  { simpl in E. destruct (decide (f + 1 < 2 ^ 64)).
    - rewrite u64_id in E by (unfold is_u64; lia). rewrite (proj2 (Z.leb_gt _ _)) in E by lia. by injection E as <- <-.
    - assert (na = 0) as ->.
      { rewrite (h_cnt _ _ _ _ H). symmetry. apply cnt_zero.
        intros s Hs. apply (h_key _ _ _ _ H) in Hs. lia. }
      rewrite andb_false_r in E. by injection E as <- <-. }
  simpl in E. rewrite u64_id in E by (unfold is_u64 in *; lia). rewrite (proj2 (Z.leb_le _ _)) in E by lia. simpl in E.
  destruct (Z.eqb_spec na 0) as [->|Hz]; simpl in E.
  { injection E as <- <-. by apply (held_far lg m). }
  rewrite (h_bit _ _ _ _ H) in E by (unfold CLACK_WIN; lia). case_bool_decide as Hs.
  - apply IH in E; try done; [by apply held_take|lia..].
  - apply IH in E; try done; [apply held_skip; [done|by apply eq_None_not_Some]|lia..].
Qed.

Lemma pend_floor L doa syn sp f : led_ok doa syn sp L -> mark sp <= f -> filter (fun q => f < fst q) (pend sp) = [].
Proof.
  intros H Hf. pose proof (l_pend _ _ _ _ H) as Hp. induction Hp as [|q p (? & _) Hp IH]; [done|].
  rewrite filter_cons_False by lia. done.
Qed.

(** Nothing above the floor connects: the floor is confirmed as it stands. *)
Lemma floor_alone doa syn sp L f na ah h :
  led_ok doa syn sp L -> mark sp < f -> h = Z.max f (hi sp) -> h < 2 ^ 64 ->
  held_ok (log L) f na ah -> log L !! (f + 1) = None ->
  led_ok doa syn (mk_space (oid sp) (incarn sp) na f f h (wmax sp) (wahead sp) [] ah) (led_floor L f).
Proof.
  intros [Hheld Hb Hd Hhi Hkey Hcov Hnx Hpos Hwm Hwa Htop Hpend Hsort Hlast Hdoa Hdur] Hf Hh Hu Hheld' Hn.
  split; simpl; try done; try lia; try (intros; lia).
  - intros s x Hx. apply Hkey in Hx. lia.
  - intros s x Hx Hs. lia.
  - intros s x Hx Hs. apply (Hwa s x Hx). apply Hkey in Hx. lia.
  - constructor.
  - intros _ s x Hx Hs. lia.
Qed.

(** What the floor connects waits for its records. *)
Lemma floor_connects doa syn sp L f na ah h m :
  led_ok doa syn sp L -> 0 <= syn -> mark sp < f < m -> h = Z.max f (hi sp) -> h < 2 ^ 64 ->
  held_ok (log L) m na ah -> log L !! (m + 1) = None -> (forall s, f < s <= m -> is_Some (log L !! s)) ->
  led_ok doa syn (confirm doa syn
    (mk_space (oid sp) (incarn sp) na m f h (Z.max (wahead sp) (wmax sp)) (wahead sp) [] ah)) (led_floor L f).
Proof.
  intros [Hheld Hb Hd Hhi Hkey Hcov Hnx Hpos Hwm Hwa Htop Hpend Hsort Hlast Hdoa Hdur] Hsyn Hf Hh Hu Hheld' Hn Hin.
  assert (m <= hi sp) by (destruct (Hin m) as [x Hx]; [lia|]; apply Hkey in Hx; lia).
  apply led_confirm; simpl; try done; try lia.
  - split; simpl; try done; try lia; try constructor.
    + intros s x Hx Hs. specialize (Hwa s x Hx). lia.
    + intros _ s x Hx Hs. lia.
  - intros s x Hx. apply Hkey in Hx. lia.
  - intros s x Hx Hs. apply (Hwa s x Hx). apply Hkey in Hx. lia.
  - intros M HM Hle. destruct (Htop M HM Hle). lia.
Qed.

Lemma sp_floor_ok doa syn sp L f rc sp' :
  led_ok doa syn sp L -> 0 <= syn -> is_u64 f ->
  sp_floor doa syn sp f = (rc, sp') ->
  oid sp' = oid sp /\ incarn sp' = incarn sp /\
  led_ok doa syn sp' (if rc =? CLACK_NEW then led_floor L f else L) /\
  rc = (if f <=? mark sp then CLACK_DUP else CLACK_NEW).
Proof.
  intros H Hsyn Hf E. unfold sp_floor in E. destruct (Z.leb_spec f (mark sp)) as [Hle|Hgt].
  { injection E as <- <-. done. }
  destruct (if f - mark sp >? CLACK_WIN then _ else _) as [na ah] eqn:Ec.
  pose proof (l_held _ _ _ _ H) as Hh. pose proof (l_dmark _ _ _ _ H). pose proof (l_hi _ _ _ _ H).
  assert (held_ok (log L) f na ah) as Hh1.
  { clear E. destruct (f - mark sp >? CLACK_WIN) eqn:Ef; bool_facts.
    - injection Ec as <- <-. apply (held_far _ (mark sp + CLACK_WIN)); [|lia]. destruct Hh as [Hp Hl Hk Hb Hc].
      assert (forall s, is_Some (log L !! s) -> s <= mark sp + CLACK_WIN) as Hno by (intros s Hs; apply Hk in Hs; lia).
      split; try done; [unfold CLACK_WIN; lia| | |].
      + intros s Hs. pose proof (Hno s Hs). apply Hk in Hs. unfold CLACK_WIN in *; lia.
      + intros s Hs. rewrite bit_no_bits. symmetry. apply bool_decide_eq_false. intros Hi. apply Hno in Hi. lia.
      + by apply cnt_zero.
    - apply (clear_upto_ok (log L)) with (m := mark sp) in Ec; try done; unfold CLACK_WIN in *; lia. }
  destruct (connect _ _ _ _ _) as [[[m na'] ah'] took] eqn:En.
  apply (connect_ok (log L)) in En as (Hh2 & Hm & Hin & Hn & Htook); [|done|lia]. simpl in Htook.
  rewrite (pend_floor L doa syn) in E by (done || lia).
  replace (if dmark sp <? f then f else dmark sp) with f in E by (destruct (Z.ltb_spec (dmark sp) f); lia).
  replace (if hi sp <? f then f else hi sp) with (Z.max f (hi sp)) in E by (destruct (Z.ltb_spec (hi sp) f); lia).
  rewrite Htook in E. injection E as <- <-. change (0 =? CLACK_NEW) with true. cbn iota. unfold is_u64 in Hf.
  destruct (Z.ltb_spec f m) as [Hfm|Hfm]; simpl.
  - rewrite max_if, confirm_oid, confirm_incarn. split_and!; try done.
    set (sp1 := mk_space (oid sp) _ _ _ _ _ _ _ _ _).
    pose proof (floor_connects doa syn sp L f na' ah' (Z.max f (hi sp)) m H) as Hok. fold sp1 in Hok.
    apply (led_wahead _ _ _ _ (if na' =? 0 then 0 else wahead (confirm doa syn sp1))) in Hok; try done; try lia.
    + by rewrite confirm_oid, confirm_incarn in Hok.
    + rewrite confirm_nahead. simpl. destruct (Z.eqb_spec na' 0); [by right|by left].
  - assert (m = f) as -> by lia. split_and!; try done.
    apply (led_wahead _ _ (mk_space (oid sp) (incarn sp) na' f f (Z.max f (hi sp)) (wmax sp) (wahead sp) [] ah')).
    + apply floor_alone; try done; lia.
    + simpl. destruct (Z.eqb_spec na' 0); [by right|by left].
Qed.

(** * Every space at once *)

Definition key (sp : space) : Z * Z := (oid sp, incarn sp).

Record sys_ok (a : clack) (Ls : gmap (Z * Z) ledger) : Prop := {
  y_syn : 0 <= synced a;
  y_nodup : NoDup (map key (spaces a));
  y_led : forall sp, sp ∈ spaces a -> exists L, Ls !! key sp = Some L /\ led_ok (durable_on_apply a) (synced a) sp L;
  y_dom : forall k, is_Some (Ls !! k) -> k ∈ map key (spaces a)
}.

Definition ledger_of (Ls : gmap (Z * Z) ledger) (k : Z * Z) : ledger := default led_new (Ls !! k).

Lemma is_space_key o i sp : is_space o i sp = true <-> key sp = (o, i).
Proof. unfold is_space, key. rewrite andb_true_iff, !Z.eqb_eq. split; [by intros [-> ->]|by intros [= -> ->]]. Qed.

Lemma find_from_Some l o i : forall n k, find_from l o i n = Some k ->
  exists j sp, k = (n + j)%nat /\ l !! j = Some sp /\ key sp = (o, i).
Proof.
  induction l as [|x l IH]; intros n k E; simpl in E; [done|]. case_match eqn:Ei.
  - injection E as <-. apply is_space_key in Ei. exists 0%nat, x. split_and!; done || lia.
  - apply IH in E as (j & sp & -> & ? & ?). exists (S j), sp. split_and!; done || lia.
Qed.

Lemma find_from_None l o i : forall n, find_from l o i n = None <-> (o, i) ∉ map key l.
Proof.
  induction l as [|x l IH]; intros n; simpl; [split; [by intros _ ?%elem_of_nil|done]|].
  rewrite not_elem_of_cons, <- (IH (S n)). destruct (is_space o i x) eqn:Ei.
  - apply is_space_key in Ei. rewrite Ei. split; [done|]. by intros [? _].
  - split; [|by intros [_ ?]]. intros ->. split; [|done]. intros Hk. symmetry in Hk. apply is_space_key in Hk. congruence.
Qed.

Lemma find_Some a o i k : find a o i = Some k -> exists sp, spaces a !! k = Some sp /\ key sp = (o, i).
Proof. intros (j & sp & -> & ? & ?)%find_from_Some. by exists sp. Qed.

Lemma find_None a o i : find a o i = None <-> (o, i) ∉ map key (spaces a).
Proof. apply find_from_None. Qed.

Lemma put_space_ok a Ls k sp sp' L :
  sys_ok a Ls -> spaces a !! k = Some sp -> key sp' = key sp ->
  led_ok (durable_on_apply a) (synced a) sp' L -> sys_ok (put_space a k sp') (<[key sp := L]> Ls).
Proof.
  intros [Hs Hn Hl Hd] Hk Hkey Hok.
  assert (map key (<[k := sp']> (spaces a)) = map key (spaces a)) as Hm.
  { change (map key) with (fmap (M := list) key). rewrite list_fmap_insert, Hkey. apply list_insert_id.
    by rewrite list_lookup_fmap, Hk. }
  split; simpl; rewrite ?Hm; try done.
  - intros x Hx. apply list_elem_of_lookup in Hx as [j Hx].
    destruct (decide (j = k)) as [->|Hjk].
    + rewrite list_lookup_insert_eq in Hx by (by eapply lookup_lt_Some). injection Hx as <-.
      rewrite Hkey, lookup_insert_eq. by exists L.
    + rewrite list_lookup_insert_ne in Hx by done. rewrite lookup_insert_ne; [by apply Hl; apply (list_elem_of_lookup_2 _ j)|].
      intros He. apply Hjk. apply (NoDup_lookup _ j k (key sp) Hn).
      * change (map key) with (fmap (M := list) key). by rewrite list_lookup_fmap, Hx, He.
      * change (map key) with (fmap (M := list) key). by rewrite list_lookup_fmap, Hk.
  - intros k' Hk'. destruct (decide (k' = key sp)) as [->|].
    + apply list_elem_of_fmap. exists sp. split; [done|]. by apply (list_elem_of_lookup_2 _ k).
    + rewrite lookup_insert_ne in Hk' by done. by apply Hd.
Qed.

Lemma new_space_ok doa syn o i : led_ok doa syn (new_space o i) led_new.
Proof. apply restored_ok. split; [lia|done]. Qed.

(** [get] finds the space with its ledger, or opens it with an empty one. *)
Lemma get_ok a Ls o i mem k a' :
  sys_ok a Ls -> get a o i mem = (k, a') ->
  durable_on_apply a' = durable_on_apply a /\ synced a' = synced a /\
  match k with
  | None => sys_ok a' Ls
  | Some k => exists sp, spaces a' !! k = Some sp /\ key sp = (o, i) /\
      led_ok (durable_on_apply a) (synced a) sp (ledger_of Ls (o, i)) /\
      sys_ok a' (<[(o, i) := ledger_of Ls (o, i)]> Ls)
  end.
Proof.
  intros H E. unfold get in E. destruct (find a o i) as [j|] eqn:Ef.
  - injection E as <- <-. apply find_Some in Ef as (sp & Hsp & Hk). split_and!; try done. exists sp.
    destruct (y_led _ _ H sp) as (L & HL & Hok); [by eapply list_elem_of_lookup_2|].
    unfold ledger_of. rewrite <- Hk, HL. simpl. rewrite insert_id by done. done.
  - apply find_None in Ef. destruct H as [Hs Hn Hl Hd]. case_match; injection E as <- <-; (split; [done|]; split; [done|]); [by split|].
    exists (new_space o i). split; [simpl; rewrite lookup_app_r by lia; by rewrite Nat.sub_diag|]. split; [done|].
    assert (Ls !! (o, i) = None) as Hfresh by (apply eq_None_not_Some; intros Hi; by apply Ef, Hd).
    unfold ledger_of. rewrite Hfresh. simpl. split; [apply new_space_ok|]. split; simpl; try done; rewrite ?map_app.
    + apply NoDup_app. split_and!; [done| |simpl; apply NoDup_singleton].
      intros x Hx ->%list_elem_of_singleton. by apply Ef.
    + intros sp [Hsp| ->%list_elem_of_singleton]%elem_of_app.
      * destruct (Hl sp Hsp) as (L & HL & Hok). exists L. rewrite lookup_insert_ne by congruence. done.
      * exists led_new. rewrite lookup_insert_eq. split; [done|apply new_space_ok].
    + intros k Hk. apply elem_of_app. destruct (decide (k = (o, i))) as [->|]; [right; by apply list_elem_of_singleton|left].
      rewrite lookup_insert_ne in Hk by done. by apply Hd.
Qed.

(** * Runs *)

Inductive op :=
  | OApplied (o i seq w : Z) (mem : bool)
  | OSynced (w : Z)
  | ORestore (o i m : Z) (mem : bool)
  | OFloor (o i f : Z) (mem : bool)
  | ODrop (o i : Z).

Definition op_ok (x : op) : Prop :=
  match x with
  | OApplied _ _ seq w _ => is_u64 seq /\ is_u64 w
  | OSynced w => is_u64 w
  | ORestore _ _ m _ => is_u64 m
  | OFloor _ _ f _ => is_u64 f
  | ODrop _ _ => True
  end.

(** The ledgers follow the codes the operations return. *)
Definition led_put (Ls : gmap (Z * Z) ledger) (k : Z * Z) (rc : Z) (f : ledger -> ledger) : gmap (Z * Z) ledger :=
  if rc <? 0 then Ls
  else <[k := if rc =? CLACK_NEW then f (ledger_of Ls k) else ledger_of Ls k]> Ls.

Definition step (st : clack * gmap (Z * Z) ledger) (x : op) : clack * gmap (Z * Z) ledger :=
  let '(a, Ls) := st in
  match x with
  | OApplied o i seq w mem =>
      let '(rc, a) := clack_applied a o i seq w mem in (a, led_put Ls (o, i) rc (fun L => led_add L seq w))
  | OSynced w => (clack_synced a w, Ls)
  | ORestore o i m mem =>
      let '(rc, a) := clack_restore a o i m mem in (a, led_put Ls (o, i) rc (fun _ => mk_led m ∅))
  | OFloor o i f mem =>
      let '(rc, a) := clack_floor a o i f mem in (a, led_put Ls (o, i) rc (fun L => led_floor L f))
  | ODrop o i => (clack_drop a o i, delete (o, i) Ls)
  end.

Definition run (doa : bool) (ops : list op) : clack * gmap (Z * Z) ledger :=
  foldl step (clack_new doa, ∅) ops.

Lemma drop_ok a Ls o i : sys_ok a Ls -> sys_ok (clack_drop a o i) (delete (o, i) Ls).
Proof.
  intros [Hs Hn Hl Hd]. unfold clack_drop. destruct (find a o i) as [k|] eqn:Ef.
  - apply find_Some in Ef as (sp & Hsp & Hkey).
    destruct (spaces a !! pred (length (spaces a))) as [z|] eqn:Ez.
    2:{ apply lookup_ge_None in Ez. apply lookup_lt_Some in Hsp. lia. }
    pose proof (swap_take _ _ _ _ Hsp Ez) as Hp. set (r := take _ _) in *.
    assert (NoDup ((o, i) :: map key r)) as [Hni Hn']%NoDup_cons.
    { rewrite <- Hkey. change (key sp :: map key r) with (map key (sp :: r)). by rewrite <- Hp. }
    split; simpl; try done.
    + intros x Hx. destruct (Hl x) as (L & HL & Hok); [rewrite Hp; by right|]. exists L.
      rewrite lookup_delete_ne; [done|]. intros Heq. apply Hni. rewrite Heq. by apply list_elem_of_fmap_2.
    + intros q [L Hq]. apply lookup_delete_Some in Hq as [Hne Hq].
      assert (q ∈ map key (spaces a)) as Hin by (apply Hd; by eexists).
      rewrite Hp in Hin. simpl in Hin. apply elem_of_cons in Hin as [?|?]; [congruence|done].
  - apply find_None in Ef. rewrite delete_id; [by split|]. apply eq_None_not_Some. intros Hi. by apply Ef, Hd.
Qed.

Lemma synced_ok a Ls w : sys_ok a Ls -> sys_ok (clack_synced a w) Ls.
Proof.
  intros [Hs Hn Hl Hd]. unfold clack_synced. destruct (Z.leb_spec w (synced a)); [by split|].
  assert (map key (map (sp_synced w) (spaces a)) = map key (spaces a)) as Hk.
  { rewrite map_map. apply map_ext. intros sp. unfold sp_synced. by case_match. }
  split; simpl; rewrite ?Hk; try done; [lia|].
  intros x (sp & -> & Hsp)%list_elem_of_fmap. destruct (Hl sp Hsp) as (L & HL & Hok). exists L.
  split; [|by apply (sp_synced_ok _ (synced a))]. rewrite <- HL. f_equal. unfold sp_synced. by case_match.
Qed.

(** The counters are not the invariant's. *)
Lemma count_ok a Ls x y z : sys_ok a Ls -> sys_ok (count_clack a x y z) Ls.
Proof. by intros [? ? ? ?]. Qed.

(** A space written back with its new ledger. *)
Lemma led_put_ok a Ls o i k sp sp' rc f :
  sys_ok a (<[(o, i) := ledger_of Ls (o, i)]> Ls) -> spaces a !! k = Some sp -> key sp = (o, i) ->
  oid sp' = oid sp -> incarn sp' = incarn sp -> 0 <= rc ->
  led_ok (durable_on_apply a) (synced a) sp' (if rc =? CLACK_NEW then f (ledger_of Ls (o, i)) else ledger_of Ls (o, i)) ->
  sys_ok (put_space a k sp') (led_put Ls (o, i) rc f).
Proof.
  intros Hsys Hsp Hkey Ho Hi Hrc Hok. unfold led_put. rewrite (proj2 (Z.ltb_ge rc 0)) by done.
  pose proof (put_space_ok _ _ k sp sp' _ Hsys Hsp ltac:(unfold key; congruence) Hok) as Hp.
  by rewrite Hkey, insert_insert_eq in Hp.
Qed.

Lemma step_ok a Ls x : op_ok x -> sys_ok a Ls ->
  let '(a', Ls') := step (a, Ls) x in sys_ok a' Ls' /\ durable_on_apply a' = durable_on_apply a.
Proof.
  intros Hx H. destruct x as [o i seq w mem|w|o i m mem|o i f mem|o i]; simpl in *.
  - destruct Hx as [[? ?] [? ?]]. unfold clack_applied. destruct (Z.eqb_spec seq 0); [done|].
    destruct (get a o i mem) as [k a'] eqn:Eg. apply (get_ok _ Ls) in Eg as (Hdoa & Hsyn & Hg); [|done].
    destruct k as [k|]; [|done]. destruct Hg as (sp & Hsp & Hkey & Hok & Hsys). rewrite Hsp.
    destruct (sp_applied _ _ _ _ _) as [rc sp'] eqn:Ea. rewrite Hdoa, Hsyn in Ea.
    apply (sp_applied_ok _ _ _ (ledger_of Ls (o, i))) in Ea; [|done|apply (y_syn _ _ H)|lia|lia].
    destruct Ea as (Ho & Hi & Hl & Hrc). split; [|done].
    apply (led_put_ok _ _ _ _ _ sp); simpl; rewrite ?Hdoa, ?Hsyn; try done; [by apply count_ok|].
    rewrite Hrc; repeat case_match; done.
  - split; [by apply synced_ok|]. unfold clack_synced. by case_match.
  - unfold clack_restore. destruct (get a o i mem) as [k a'] eqn:Eg. apply (get_ok _ Ls) in Eg as (Hdoa & Hsyn & Hg); [|done].
    destruct k as [k|]; [|done]. destruct Hg as (sp & Hsp & Hkey & Hok & Hsys). split; [|done].
    pose proof Hkey as [= Ho Hi]. apply (led_put_ok _ _ _ _ _ sp); try done. by apply restored_ok.
  - unfold clack_floor. destruct (get a o i mem) as [k a'] eqn:Eg. apply (get_ok _ Ls) in Eg as (Hdoa & Hsyn & Hg); [|done].
    destruct k as [k|]; [|done]. destruct Hg as (sp & Hsp & Hkey & Hok & Hsys). rewrite Hsp.
    destruct (sp_floor _ _ _ _) as [rc sp'] eqn:Ea. rewrite Hdoa, Hsyn in Ea.
    apply (sp_floor_ok _ _ _ (ledger_of Ls (o, i))) in Ea; [|done|apply (y_syn _ _ H)|done].
    destruct Ea as (Ho & Hi & Hl & Hrc). split; [|done].
    apply (led_put_ok _ _ _ _ _ sp); rewrite ?Hdoa, ?Hsyn; try done. rewrite Hrc; case_match; done.
  - split; [by apply drop_ok|]. unfold clack_drop. by repeat case_match.
Qed.

Lemma run_ok doa ops : Forall op_ok ops -> let '(a, Ls) := run doa ops in sys_ok a Ls /\ durable_on_apply a = doa.
Proof.
  intros H. unfold run.
  assert (sys_ok (clack_new doa) ∅ /\ durable_on_apply (clack_new doa) = doa) as H0.
  { split; [|done]. split; simpl; try done; [constructor| |].
    - by intros sp ?%elem_of_nil.
    - intros k Hk. rewrite lookup_empty in Hk. by destruct Hk. }
  revert H0. generalize (clack_new doa) (∅ : gmap (Z * Z) ledger).
  induction H as [|x ops Hx _ IH]; intros a Ls [Ha Hd]; [done|].
  cbn [foldl]. pose proof (step_ok a Ls x Hx Ha) as Hs. destruct (step (a, Ls) x) as [a' Ls'].
  apply IH. destruct Hs as [? ?]. split; congruence.
Qed.

Lemma find_led a Ls o i k sp :
  sys_ok a Ls -> find a o i = Some k -> spaces a !! k = Some sp ->
  exists L, Ls !! (o, i) = Some L /\ led_ok (durable_on_apply a) (synced a) sp L.
Proof.
  intros H Hf Hsp. apply find_Some in Hf as (sp' & Hsp' & Hkey). assert (sp' = sp) as -> by congruence.
  rewrite <- Hkey. apply (y_led _ _ H). by eapply list_elem_of_lookup_2.
Qed.

Lemma mark_Some a o i d : clack_mark a o i = Some d -> exists k sp, find a o i = Some k /\ spaces a !! k = Some sp /\ d = dmark sp.
Proof.
  unfold clack_mark. destruct (find a o i) as [k|]; [|done]. simpl. destruct (spaces a !! k) as [sp|] eqn:E; [|done].
  simpl. intros [= <-]. by exists k, sp.
Qed.

(** C9. The confirmed mark is sound: after any run of arrivals in any order, log
    syncs, restores, floors and drops, every number at or below the mark a member
    announces for a space was recorded with its log record synced (or lies below
    the base a restore or floor set); nothing past a lost delete, and nothing the
    log may still lose, is ever confirmed. *)
Theorem clack_confirms_only_durable (doa : bool) (ops : list op) (Hops : Forall op_ok ops) :
  let '(a, Ls) := run doa ops in
  forall o i d, clack_mark a o i = Some d ->
  exists L, Ls !! (o, i) = Some L /\ base L <= d /\
    forall s, base L < s <= d -> exists w, log L !! s = Some w /\ (doa = true \/ w <= synced a).
Proof.
  pose proof (run_ok doa ops Hops) as H. destruct (run doa ops) as [a Ls]. destruct H as [H Hdoa].
  intros o i d (k & sp & Hf & Hsp & ->)%mark_Some. destruct (find_led _ _ _ _ _ _ H Hf Hsp) as (L & HL & Hok).
  exists L. split; [done|]. split; [apply (l_base _ _ _ _ Hok)|]. intros s Hs.
  pose proof (l_dmark _ _ _ _ Hok). destruct (l_cov _ _ _ _ Hok s) as [w Hw]; [lia|]. exists w. split; [done|].
  destruct doa; [by left|right]. by apply (l_dur _ _ _ _ Hok Hdoa s w Hw).
Qed.

Lemma clack_confirms_only_durable_witness :
  let ops := [OApplied 7 1 2 30 true; OApplied 7 1 1 10 true; OSynced 20] in
  clack_mark (run false ops).1 7 1 = Some 0 /\ Forall op_ok ops /\
  exists L, (run false ops).2 !! (7, 1) = Some L /\ base L <= 0.
Proof.
  assert (Forall op_ok [OApplied 7 1 2 30 true; OApplied 7 1 1 10 true; OSynced 20]) as H.
  { by repeat constructor. }
  split; [vm_compute; reflexivity|]. split; [exact H|].
  pose proof (clack_confirms_only_durable false _ H) as T.
  destruct (T 7 1 0 ltac:(vm_compute; reflexivity)) as (L & HL & Hb & _). exists L. split; [exact HL|exact Hb].
Defined.


Definition led_123 : ledger := mk_led 0 {[1 := 10; 2 := 20; 3 := 30]}.


Lemma first_held_ok ah n : forall s, match first_held ah s n with
  | Some t => s <= t < s + Z.of_nat n /\ bit ah t = true /\ forall x, s <= x < t -> bit ah x = false
  | None => forall x, s <= x < s + Z.of_nat n -> bit ah x = false end.
Proof.
  induction n as [|n IH]; intros s; simpl; [intros; lia|]. destruct (bit ah s) eqn:E.
  - split; [lia|]. split; [done|]. intros; lia.
  - specialize (IH (s + 1)). destruct (first_held ah (s + 1) n).
    + destruct IH as (? & ? & Hx). split; [lia|]. split; [done|]. intros x ?.
      destruct (decide (x = s)) as [->|]; [done|]. apply Hx. lia.
    + intros x ?. destruct (decide (x = s)) as [->|]; [done|]. apply IH. lia.
Qed.

(** The gap request is exact: a space reports a hole exactly when a number
    above its contiguous ones was seen, the hole starts right after them, nothing
    in it is held, and it ends where the next held number begins or, when only
    numbers past the window were seen, at the highest of them. *)
Theorem clack_gap_exact (doa : bool) (ops : list op) (Hops : Forall op_ok ops) :
  let '(a, Ls) := run doa ops in
  forall o i k sp L, find a o i = Some k -> spaces a !! k = Some sp -> Ls !! (o, i) = Some L ->
  mark sp + CLACK_WIN < 2 ^ 64 ->
  match clack_gap a o i with
  | None => hi sp = mark sp
  | Some (from, to) =>
      from = mark sp + 1 /\ from <= to <= hi sp /\ (forall s, 1 <= s < from -> covered L s) /\
      (forall s, from <= s <= to -> ~ covered L s) /\ (to = hi sp \/ covered L (to + 1))
  end.
Proof.
  pose proof (run_ok doa ops Hops) as H. destruct (run doa ops) as [a Ls]. destruct H as [H _].
  intros o i k sp L Hf Hsp HL Hu. destruct (find_led _ _ _ _ _ _ H Hf Hsp) as (L' & HL' & Hok).
  assert (L' = L) as -> by congruence. unfold clack_gap. rewrite Hf. simpl. rewrite Hsp. simpl. unfold sp_gap.
  pose proof (l_hi _ _ _ _ Hok). pose proof (l_base _ _ _ _ Hok). pose proof (l_dmark _ _ _ _ Hok).
  pose proof (l_held _ _ _ _ Hok) as Hh. pose proof (h_pos _ _ _ _ Hh). pose proof (l_next _ _ _ _ Hok) as Hn.
  destruct (Z.leb_spec (hi sp) (mark sp)); [lia|].
  rewrite !u64_id by (unfold is_u64, CLACK_WIN in *; lia).
  assert (forall s, 1 <= s < mark sp + 1 -> covered L s) as Hcov.
  { intros s Hs. split; [lia|]. destruct (decide (s <= base L)); [by left|right]. apply (l_cov _ _ _ _ Hok). lia. }
  assert (forall s, mark sp < s -> covered L s -> is_Some (log L !! s)) as Hgt by (intros s ? [_ [?|?]]; [lia|done]).
  destruct (Z.eqb_spec (nahead sp) 0) as [Hz|Hz].
  { split; [done|]. split; [lia|]. split; [done|]. split; [|by left]. intros s Hs Hc. apply Hgt in Hc; [|lia].
    pose proof (h_cnt _ _ _ _ Hh) as Hcnt. rewrite Hz in Hcnt. apply (proj1 (above_empty (log L) (mark sp))) in Hc; lia. }
  pose proof (first_held_ok (ahead sp) (Z.to_nat (mark sp + CLACK_WIN - (mark sp + 2) + 1)) (mark sp + 2)) as Hfh.
  assert (forall s, mark sp < s <= mark sp + CLACK_WIN -> covered L s -> bit (ahead sp) s = true) as Hbit.
  { intros s Hs Hc. rewrite (h_bit _ _ _ _ Hh) by lia. apply bool_decide_eq_true. apply Hgt; [lia|done]. }
  destruct (first_held _ _ _) as [t|].
  - destruct Hfh as (Ht & Hb & Hx). rewrite (h_bit _ _ _ _ Hh) in Hb by (unfold CLACK_WIN in *; lia).
    apply bool_decide_eq_true in Hb as [w Hw]. pose proof (l_key _ _ _ _ Hok _ _ Hw).
    split; [done|]. split; [lia|]. split; [done|]. split.
    + intros s Hs Hc. destruct (decide (s = mark sp + 1)) as [->|].
      * apply Hgt in Hc; [|lia]. rewrite Hn in Hc. by destruct Hc.
      * assert (s <= mark sp + CLACK_WIN) by (unfold CLACK_WIN in *; lia).
        specialize (Hx s ltac:(lia)). rewrite Hbit in Hx; [done|lia|done].
    + right. replace (t - 1 + 1) with t by lia. split; [lia|]. right. by eexists.
  - exfalso. destruct (set_choose_or_empty (above (log L) (mark sp))) as [[s [Hs1 Hs2]%elem_above]|He].
    + assert (covered L s) as Hc by (split; [lia|by right]). pose proof (h_key _ _ _ _ Hh s Hs2).
      destruct (decide (s = mark sp + 1)) as [->|]; [rewrite Hn in Hs2; by destruct Hs2|].
      specialize (Hfh s ltac:(unfold CLACK_WIN in *; lia)). rewrite Hbit in Hfh; [done|lia|done].
    + pose proof (h_cnt _ _ _ _ Hh) as Hcnt. rewrite He, size_empty in Hcnt. lia.
Qed.

Definition led_15 : ledger := mk_led 0 {[1 := 10; 5 := 11]}.

Lemma clack_gap_exact_witness :
  let st := run false [OApplied 7 1 1 10 true; OApplied 7 1 5 11 true; OApplied 7 1 9000 12 true] in
  clack_gap st.1 7 1 = Some (2, 4) /\ exists L, st.2 !! (7, 1) = Some L /\ ~ covered L 3.
Proof.
  assert (Forall op_ok [OApplied 7 1 1 10 true; OApplied 7 1 5 11 true; OApplied 7 1 9000 12 true]) as H.
  { by repeat constructor. }
  split; [vm_compute; reflexivity|]. exists led_15. split; [vm_compute; reflexivity|].
  pose proof (clack_gap_exact false _ H) as T.
  specialize (T 7 1 0%nat _ led_15 ltac:(vm_compute; reflexivity)
    ltac:(vm_compute; reflexivity) ltac:(vm_compute; reflexivity) ltac:(done)).
  vm_compute in T. intros Hc. destruct T as (_ & _ & _ & T & _). apply (T 3); [split; discriminate|].
  destruct Hc as [? Hc]. split; [discriminate|exact Hc].
Defined.
