(* ===== verification/Clackf.v ===== *)
(** The marks the members of a fleet announce ([clackf.c]).

    Each member's table of marks is kept under its incarnation; a delete is everywhere
    once the lowest mark of its numbering space has passed it ([clackf_min]).  Arrays are
    lists, an entry is found by the first place of its key; [mem] is what [realloc]
    answers.  [fleet_of] is the map the tables stand for. *)

From Stdlib Require Import ZArith Lia.
From stdpp Require Import base tactics list numbers gmap sorting.
From S2P Require Import Prelude.

Definition CLACKF_MEMBERS : Z := 513.
Definition CLACKF_SPACES : Z := 1026.

Record fmark := mk_fmark { f_oid : Z; f_sincarn : Z; f_mark : Z; f_moved : Z }.

Record fmember := mk_fmember {
  fm_member : Z; fm_incarn : Z;
  fm_cap : Z; fm_m : list fmark;       (* the first n of cap *)
  fm_heard : Z
}.

Record clackf := mk_clackf { mb : list fmember; reports : Z; lowered : Z; resets : Z; refused : Z }.

(** The first place a test holds at. *)
Fixpoint place {A} (p : A -> bool) (l : list A) : option nat :=
  match l with
  | [] => None
  | x :: l => if p x then Some 0%nat else S <$> place p l
  end.

Definition mfind (f : clackf) (member : Z) : option (nat * fmember) :=
  i ← place (fun m => fm_member m =? member) (mb f); m ← mb f !! i; Some (i, m).

Definition sfind (m : fmember) (oid sincarn : Z) : option (nat * fmark) :=
  i ← place (fun s => (f_oid s =? oid) && (f_sincarn s =? sincarn)) (fm_m m); s ← fm_m m !! i; Some (i, s).

Definition clackf_new : clackf := mk_clackf [] 0 0 0 0.

Definition set_mb (f : clackf) (i : nat) (m : fmember) : clackf :=
  mk_clackf (<[i := m]> (mb f)) (reports f) (lowered f) (resets f) (refused f).

Definition set_marks (m : fmember) (cap : Z) (l : list fmark) : fmember :=
  mk_fmember (fm_member m) (fm_incarn m) cap l (fm_heard m).

Definition refuse (f : clackf) : clackf := mk_clackf (mb f) (reports f) (lowered f) (resets f) (u64 (refused f + 1)).

Definition clackf_member (f : clackf) (member incarn : Z) : Z * clackf :=
  match mfind f member with
  | None =>
      if zlen (mb f) =? CLACKF_MEMBERS then (-1, refuse f)
      else (0, mk_clackf (mb f ++ [mk_fmember member incarn 0 [] 0]) (reports f) (lowered f) (resets f) (refused f))
  | Some (i, m) =>
      if fm_incarn m =? incarn then (0, f)
      else
        let f := set_mb f i (mk_fmember (fm_member m) incarn (fm_cap m) [] (fm_heard m)) in
        (1, mk_clackf (mb f) (reports f) (lowered f) (u64 (resets f + 1)) (refused f))
  end.

Definition clackf_heard (f : clackf) (member now : Z) : Z * clackf :=
  match mfind f member with
  | None => (0, f)
  | Some (i, m) => (fm_heard m, set_mb f i (mk_fmember (fm_member m) (fm_incarn m) (fm_cap m) (fm_m m) now))
  end.

Definition clackf_report (f : clackf) (member oid sincarn mark now : Z) (mem : bool) : Z * clackf :=
  match mfind f member with
  | None => (-1, f)
  | Some (i, m) =>
      let f := mk_clackf (mb f) (u64 (reports f + 1)) (lowered f) (resets f) (refused f) in
      match sfind m oid sincarn with
      | Some (j, s) =>
          let down := b2z (mark <? f_mark s) in
          let s := mk_fmark (f_oid s) (f_sincarn s) mark (if negb (mark =? f_mark s) then now else f_moved s) in
          let f := set_mb f i (set_marks m (fm_cap m) (<[j := s]> (fm_m m))) in
          (down, mk_clackf (mb f) (reports f) (u64 (lowered f + down)) (resets f) (refused f))
      | None =>
          let put cap := (0, set_mb f i (set_marks m cap (fm_m m ++ [mk_fmark oid sincarn mark now]))) in
          if zlen (fm_m m) =? fm_cap m then
            let cap := if fm_cap m =? 0 then 4 else u32 (fm_cap m * 2) in
            let cap := if cap >? CLACKF_SPACES then CLACKF_SPACES else cap in
            if (zlen (fm_m m) =? cap) || negb mem then (-1, refuse f) else put cap
          else put (fm_cap m)
      end
  end.

Definition clackf_clear (f : clackf) (member : Z) : clackf :=
  match mfind f member with
  | None => f
  | Some (i, m) => set_mb f i (set_marks m (fm_cap m) [])
  end.

(** [*m = f->mb[--f->n]]. *)
Definition clackf_forget (f : clackf) (member : Z) : clackf :=
  match mfind f member with
  | None => f
  | Some (i, _) =>
      let n := pred (length (mb f)) in
      match mb f !! n with
      | None => f
      | Some l => mk_clackf (take n (<[i := l]> (mb f))) (reports f) (lowered f) (resets f) (refused f)
      end
  end.

Definition clackf_mark (f : clackf) (member oid sincarn : Z) : option Z :=
  p ← mfind f member; s ← sfind p.2 oid sincarn; Some (f_mark s.2).

Definition clackf_moved (f : clackf) (member oid sincarn : Z) : option Z :=
  p ← mfind f member; s ← sfind p.2 oid sincarn; Some (f_moved s.2).

Fixpoint min_loop (f : clackf) (oid sincarn : Z) (members : list Z) (lo : Z) : Z :=
  match members with
  | [] => lo
  | m :: members =>
      match clackf_mark f m oid sincarn with
      | None => 0
      | Some v => min_loop f oid sincarn members (if v <? lo then v else lo)
      end
  end.

Definition clackf_min (f : clackf) (oid sincarn : Z) (members : list Z) : Z :=
  if zlen members <=? 0 then 0 else min_loop f oid sincarn members (2 ^ 64 - 1).

(** [members]: [None] for every member of the table, by its place. *)
Definition clackf_max (f : clackf) (oid sincarn : Z) (members : option (list Z)) : Z :=
  let ms := match members with
            | Some l => (fun x => snd <$> mfind f x) <$> l
            | None => Some <$> mb f
            end in
  foldl (fun hi m => match m with
                     | Some m => match sfind m oid sincarn with Some (_, s) => if f_mark s >? hi then f_mark s else hi | None => hi end
                     | None => hi
                     end) 0 ms.

Fixpoint each_marks {X} (cb : Z -> Z -> Z -> Z -> Z -> X -> Z * X) (m : fmember) (l : list fmark) (ctx : X) : Z * X :=
  match l with
  | [] => (0, ctx)
  | s :: l =>
      let '(rc, ctx) := cb (fm_member m) (fm_incarn m) (f_oid s) (f_sincarn s) (f_mark s) ctx in
      if negb (rc =? 0) then (rc, ctx) else each_marks cb m l ctx
  end.

Fixpoint each_members {X} (cb : Z -> Z -> Z -> Z -> Z -> X -> Z * X) (l : list fmember) (ctx : X) : Z * X :=
  match l with
  | [] => (0, ctx)
  | m :: l => let '(rc, ctx) := each_marks cb m (fm_m m) ctx in if negb (rc =? 0) then (rc, ctx) else each_members cb l ctx
  end.

Definition clackf_each {X} (f : clackf) (cb : Z -> Z -> Z -> Z -> Z -> X -> Z * X) (ctx : X) : Z * X :=
  each_members cb (mb f) ctx.

Record clackf_stats := mk_fstats { fs_members : Z; fs_marks : Z; fs_reports : Z; fs_lowered : Z; fs_resets : Z; fs_refused : Z }.

Definition clackf_get_stats (f : clackf) : clackf_stats :=
  mk_fstats (zlen (mb f)) (u32 (foldl (fun n m => n + zlen (fm_m m)) 0 (mb f))) (reports f) (lowered f) (resets f) (refused f).

(** * The members that stand still *)

Record clackf_stuck := mk_stuck { sk_member : Z; sk_mark : Z; sk_moved : Z }.

(** What a listed member has of the space. *)
Definition of_space (f : clackf) (oid sincarn member : Z) : option fmark :=
  p ← mfind f member; s ← sfind p.2 oid sincarn; Some s.2.

Definition latest_moved (f : clackf) (oid sincarn : Z) (members : list Z) (also : Z) : Z :=
  foldl (fun lt x => match of_space f oid sincarn x with Some s => if f_moved s >? lt then f_moved s else lt | None => lt end) also members.

(** The conditions of the second loop. *)
Definition is_stuck (s : fmark) (head now still_ms latest : Z) : bool :=
  negb ((f_mark s >=? head) || (f_moved s =? 0) || (f_moved s >? now - still_ms) || (latest <=? f_moved s)).

(** [for (; j > 0 && out[j - 1].moved > moved; j--) out[j] = out[j - 1];] *)
Fixpoint shift (out : list clackf_stuck) (j : nat) (moved : Z) : list clackf_stuck * nat :=
  match j with
  | O => (out, O)
  | S i =>
      match out !! i with
      | Some x => if sk_moved x >? moved then shift (<[j := x]> out) i moved else (out, j)
      | None => (out, j)
      end
  end.

(** One member that is stuck, [k] counted before it, into the [max] places of [out]. *)
Definition stuck_put (out : list clackf_stuck) (k : nat) (max : nat) (e : clackf_stuck) : list clackf_stuck :=
  let place j := let '(out, j) := shift out j (sk_moved e) in <[j := e]> out in
  if (k <? max)%nat then place k
  else match max with
       | O => out
       | S last =>
           match out !! last with
           | Some x => if sk_moved x <=? sk_moved e then out else place last
           | None => out
           end
       end.

Fixpoint stuck_loop (f : clackf) (oid sincarn : Z) (members : list Z) (head now still_ms latest : Z)
    (out : list clackf_stuck) (k max : nat) : nat * list clackf_stuck :=
  match members with
  | [] => (k, out)
  | x :: members =>
      match of_space f oid sincarn x with
      | Some s =>
          if is_stuck s head now still_ms latest
          then stuck_loop f oid sincarn members head now still_ms latest
                 (stuck_put out k max (mk_stuck x (f_mark s) (f_moved s))) (S k) max
          else stuck_loop f oid sincarn members head now still_ms latest out k max
      | None => stuck_loop f oid sincarn members head now still_ms latest out k max
      end
  end.

(** How many, and [out]: an array of [length out] places. *)
Definition clackf_stuck_ (f : clackf) (oid sincarn : Z) (members : list Z) (head also now still_ms : Z) (out : list clackf_stuck)
    : nat * list clackf_stuck :=
  stuck_loop f oid sincarn members head now still_ms (latest_moved f oid sincarn members also) out 0 (length out).

(** * Tables and the maps they stand for *)

Section Tab.
Context {X K V : Type} `{Countable K} (kf : X -> K) (vf : X -> V).

Definition tab (l : list X) : gmap K V := list_to_map ((fun x => (kf x, vf x)) <$> l).

Lemma tab_cons x l : tab (x :: l) = <[kf x := vf x]> (tab l).
Proof. done. Qed.

Context (k : K) (p : X -> bool) (Hp : forall x, p x = true <-> kf x = k).

Lemma place_None l : place p l = None -> tab l !! k = None /\ k ∉ (kf <$> l).
Proof.
  induction l as [|x l IH]; cbn [place]; [intros; split; [done|apply not_elem_of_nil]|]. destruct (p x) eqn:E; [done|].
  destruct (place p l); [done|]. intros _. destruct IH as [H1 H2]; [done|].
  assert (kf x <> k) as Hne by (intros Hk%Hp; congruence). rewrite tab_cons, lookup_insert_ne by done. split; [done|].
  cbn [fmap list_fmap]. apply not_elem_of_cons. by split.
Qed.

Lemma place_Some l i : place p l = Some i -> exists x, l !! i = Some x /\ kf x = k /\ tab l !! k = Some (vf x).
Proof.
  revert i. induction l as [|x l IH]; intros i; cbn [place]; [done|]. destruct (p x) eqn:E.
  - intros [= <-]. exists x. apply Hp in E. subst k. rewrite tab_cons, lookup_insert_eq. done.
  - destruct (place p l) as [j|]; [|done]. intros [= <-]. destruct (IH j eq_refl) as (y & H1 & H2 & H3). exists y.
    assert (kf x <> k) as Hne by (intros Hk%Hp; congruence). by rewrite tab_cons, lookup_insert_ne.
Qed.

Lemma tab_set l i x : place p l = Some i -> kf x = k -> tab (<[i := x]> l) = <[k := vf x]> (tab l).
Proof.
  revert i. induction l as [|y l IH]; intros i; cbn [place]; [done|]. intros Hi Hk. destruct (p y) eqn:E.
  - injection Hi as <-. apply Hp in E. cbn [insert list_insert]. rewrite !tab_cons, Hk, E. by rewrite insert_insert_eq.
  - destruct (place p l) as [j|]; [|done]. injection Hi as <-. cbn [insert list_insert]. change (list_insert j x l) with (<[j := x]> l).
    rewrite !tab_cons, IH by done. apply insert_insert_ne. intros Hk'%Hp. congruence.
Qed.

Lemma tab_snoc l x : k ∉ (kf <$> l) -> kf x = k -> tab (l ++ [x]) = <[k := vf x]> (tab l).
Proof.
  intros Hn Hk. induction l as [|y l IH]; [cbn [app]; by rewrite tab_cons, Hk|]. cbn [app fmap list_fmap] in *. apply not_elem_of_cons in Hn as [Hy Hn].
  rewrite !tab_cons, IH by done. by apply insert_insert_ne.
Qed.
End Tab.

Lemma tab_perm {X K V} `{Countable K} (kf : X -> K) (vf : X -> V) l l' : NoDup (kf <$> l) -> l ≡ₚ l' -> tab kf vf l = tab kf vf l'.
Proof.
  intros Hd Hp. apply list_to_map_proper; [|by rewrite Hp]. rewrite <- list_fmap_compose. exact Hd.
Qed.

Definition space_key (s : fmark) : Z * Z := (f_oid s, f_sincarn s).
Definition space_val (s : fmark) : Z * Z := (f_mark s, f_moved s).
Definition marks_of (l : list fmark) : gmap (Z * Z) (Z * Z) := tab space_key space_val l.

(** A member: its incarnation, when it was heard, its marks. *)
#[local] Abbreviation fstate := (Z * Z * gmap (Z * Z) (Z * Z))%type.
Definition member_val (m : fmember) : fstate := (fm_incarn m, fm_heard m, marks_of (fm_m m)).
Definition fleet_of (f : clackf) : gmap Z fstate := tab fm_member member_val (mb f).

Lemma mfind_spec f member :
  match mfind f member with
  | Some (i, m) => mb f !! i = Some m /\ fm_member m = member /\ fleet_of f !! member = Some (member_val m) /\
      place (fun m => fm_member m =? member) (mb f) = Some i
  | None => fleet_of f !! member = None /\ member ∉ (fm_member <$> mb f)
  end.
Proof.
  unfold mfind. assert (forall x, (fm_member x =? member) = true <-> fm_member x = member) as Hp by (intros; apply Z.eqb_eq).
  destruct (place _ _) as [i|] eqn:E; cbn [mbind option_bind].
  - destruct (place_Some fm_member member_val member _ Hp _ _ E) as (m & H1 & H2 & H3). rewrite H1. done.
  - by apply (place_None fm_member member_val member _ Hp).
Qed.

Lemma sfind_spec m o s :
  match sfind m o s with
  | Some (j, x) => fm_m m !! j = Some x /\ space_key x = (o, s) /\ marks_of (fm_m m) !! (o, s) = Some (space_val x) /\
      place (fun s0 => (f_oid s0 =? o) && (f_sincarn s0 =? s)) (fm_m m) = Some j
  | None => marks_of (fm_m m) !! (o, s) = None /\ (o, s) ∉ (space_key <$> fm_m m)
  end.
Proof.
  unfold sfind. assert (forall x, (f_oid x =? o) && (f_sincarn x =? s) = true <-> space_key x = (o, s)) as Hp.
  { intros x. unfold space_key. rewrite andb_true_iff, !Z.eqb_eq. split; [by intros [-> ->]|by intros [= -> ->]]. }
  destruct (place _ _) as [i|] eqn:E; cbn [mbind option_bind].
  - destruct (place_Some space_key space_val (o, s) _ Hp _ _ E) as (x & H1 & H2 & H3). rewrite H1. done.
  - by apply (place_None space_key space_val (o, s) _ Hp).
Qed.

(** * Every operation is the map's *)

Record fok (f : clackf) : Prop := {
  fk_keys : NoDup (fm_member <$> mb f);
  fk_len : zlen (mb f) <= CLACKF_MEMBERS;
  fk_marks : Forall (fun m => zlen (fm_m m) <= fm_cap m <= CLACKF_SPACES /\ NoDup (space_key <$> fm_m m)) (mb f)
}.

Inductive fop :=
  | FMember (member incarn : Z)
  | FHeard (member now : Z)
  | FReport (member oid sincarn mark now : Z) (mem : bool)
  | FClear (member : Z)
  | FForget (member : Z).

Definition frun1 (f : clackf) (o : fop) : Z * clackf :=
  match o with
  | FMember m i => clackf_member f m i
  | FHeard m now => clackf_heard f m now
  | FReport m o s v now mem => clackf_report f m o s v now mem
  | FClear m => (0, clackf_clear f m)
  | FForget m => (0, clackf_forget f m)
  end.

(** What an operation that answered [rc] makes of the fleet. *)
Definition fspec (M : gmap Z fstate) (o : fop) (rc : Z) : gmap Z fstate :=
  match o with
  | FMember m inc =>
      if rc =? -1 then M
      else match M !! m with
           | None => <[m := (inc, 0, ∅)]> M
           | Some (i, h, _) => if i =? inc then M else <[m := (inc, h, ∅)]> M
           end
  | FHeard m now => match M !! m with Some (i, _, s) => <[m := (i, now, s)]> M | None => M end
  | FReport m o s v now _ =>
      if rc =? -1 then M
      else match M !! m with
           | Some (i, h, l) =>
               let moved := match l !! (o, s) with Some (v0, t0) => if v =? v0 then t0 else now | None => now end in
               <[m := (i, h, <[(o, s) := (v, moved)]> l)]> M
           | None => M
           end
  | FClear m => match M !! m with Some (i, h, _) => <[m := (i, h, ∅)]> M | None => M end
  | FForget m => delete m M
  end.

(** When an operation is refused, and what it answers. *)
Definition fanswer (M : gmap Z fstate) (o : fop) (rc : Z) : Prop :=
  match o with
  | FMember m inc => match M !! m with
      | Some (i, _, _) => rc = (if i =? inc then 0 else 1)
      | None => if bool_decide (size M = Z.to_nat CLACKF_MEMBERS) then rc = -1 else rc = 0 end
  | FHeard m _ => rc = match M !! m with Some (_, h, _) => h | None => 0 end
  | FReport m o s v _ mem => match M !! m with
      | None => rc = -1
      | Some (_, _, l) => match l !! (o, s) with
          | Some (v0, _) => rc = b2z (v <? v0)
          | None => rc = 0 \/ (rc = -1 /\ (mem = false \/ CLACKF_SPACES <= Z.of_nat (size l))) end end
  | _ => rc = 0
  end.

Lemma set_mb_ok f i m m' :
  fok f -> mb f !! i = Some m -> fm_member m' = fm_member m ->
  zlen (fm_m m') <= fm_cap m' <= CLACKF_SPACES /\ NoDup (space_key <$> fm_m m') ->
  fok (set_mb f i m').
Proof.
  intros [H1 H2 H3] Hi Hm Hm'. split; cbn [set_mb mb].
  - assert (fm_member <$> <[i := m']> (mb f) = fm_member <$> mb f) as ->; [|done].
    rewrite list_fmap_insert, Hm. apply list_insert_id. rewrite list_lookup_fmap, Hi. done.
  - unfold zlen in *. by rewrite length_insert.
  - by apply Forall_insert.
Qed.

Lemma fleet_set f i m m' member : mfind f member = Some (i, m) -> fm_member m' = member ->
  fleet_of (set_mb f i m') = <[member := member_val m']> (fleet_of f).
Proof.
  intros Hf Hm. pose proof (mfind_spec f member) as Hs. rewrite Hf in Hs. destruct Hs as (_ & _ & _ & Hp).
  unfold fleet_of, set_mb. cbn [mb]. apply (tab_set _ _ member (fun x => fm_member x =? member)); [intros; apply Z.eqb_eq|done|done].
Qed.

Lemma fleet_size f : NoDup (fm_member <$> mb f) -> size (fleet_of f) = length (mb f).
Proof.
  intros Hd. unfold fleet_of, tab. rewrite map_size_list_to_map; [by rewrite length_fmap|]. rewrite <- list_fmap_compose. exact Hd.
Qed.

Lemma marks_size l : NoDup (space_key <$> l) -> size (marks_of l) = length l.
Proof.
  intros Hd. unfold marks_of, tab. rewrite map_size_list_to_map; [by rewrite length_fmap|]. rewrite <- list_fmap_compose. exact Hd.
Qed.

Lemma member_ok f i m : fok f -> mb f !! i = Some m -> zlen (fm_m m) <= fm_cap m <= CLACKF_SPACES /\ NoDup (space_key <$> fm_m m).
Proof. intros Hf Hi. pose proof (fk_marks f Hf) as H. rewrite Forall_lookup in H. by eapply H. Qed.

(** What each operation leaves, and its answer. *)
Definition does (f : clackf) (o : fop) : Prop :=
  let '(rc, f') := frun1 f o in fok f' /\ fleet_of f' = fspec (fleet_of f) o rc /\ fanswer (fleet_of f) o rc.

Lemma member_does f m inc : fok f -> does f (FMember m inc).
Proof.
  intros Hf. unfold does, frun1, clackf_member. pose proof (mfind_spec f m) as Hm. destruct (mfind f m) as [[i x]|] eqn:E.
  - destruct Hm as (Hi & Hk & Hl & _). cbn [fspec fanswer]. rewrite Hl. unfold member_val. destruct (Z.eqb_spec (fm_incarn x) inc) as [He|He].
    + by split_and!.
    + set (x' := mk_fmember _ _ _ _ _). split_and!; [|exact (fleet_set f i x x' m E Hk)|done].
      destruct (member_ok f i x Hf Hi) as [Hc _]. pose proof (zlen_nonneg (fm_m x)).
      destruct (set_mb_ok f i x x' Hf Hi eq_refl) as [A B D]; [|by split]. cbn. split; [change (zlen []) with 0; lia|constructor].
  - destruct Hm as [Hl Hn]. destruct (Z.eqb_spec (zlen (mb f)) CLACKF_MEMBERS) as [He|He]; cbn [fspec fanswer]; rewrite ?Hl, ?(fleet_size f (fk_keys f Hf)).
    + split_and!; [by destruct Hf|done|]. rewrite bool_decide_true; [done|]. unfold zlen in He. lia.
    + destruct Hf as [H1 H2 H3]. split_and!.
      * split; cbn [mb].
        -- rewrite fmap_app. apply NoDup_app. split_and!; [done| |apply NoDup_singleton]. cbn. intros y Hy Hy'%list_elem_of_singleton. congruence.
        -- rewrite zlen_app. change (zlen [_]) with 1. lia.
        -- apply Forall_app. split; [done|]. constructor; [|constructor]. cbn. split; [change (zlen []) with 0; unfold CLACKF_SPACES; lia|constructor].
      * unfold fleet_of. cbn [mb Z.eqb]. by rewrite (tab_snoc _ _ m).
      * rewrite bool_decide_false; [done|]. unfold zlen, CLACKF_MEMBERS in *. lia.
Qed.

Lemma heard_does f m now : fok f -> does f (FHeard m now).
Proof.
  intros Hf. unfold does, frun1, clackf_heard. pose proof (mfind_spec f m) as Hm. destruct (mfind f m) as [[i x]|] eqn:E; cbn [fspec fanswer].
  - destruct Hm as (Hi & Hk & Hl & _). rewrite Hl. split_and!; [|etransitivity; [apply (fleet_set f i x _ m E); exact Hk|reflexivity]|done].
    apply (set_mb_ok f i x); [done|done|done|exact (member_ok f i x Hf Hi)].
  - destruct Hm as [-> _]. done.
Qed.

Lemma clear_does f m : fok f -> does f (FClear m).
Proof.
  intros Hf. unfold does, frun1, clackf_clear. pose proof (mfind_spec f m) as Hm. destruct (mfind f m) as [[i x]|] eqn:E; cbn [fspec fanswer].
  - destruct Hm as (Hi & Hk & Hl & _). rewrite Hl. split_and!; [|etransitivity; [apply (fleet_set f i x _ m E); exact Hk|reflexivity]|done].
    apply (set_mb_ok f i x); [done|done|done|]. cbn. destruct (member_ok f i x Hf Hi) as [Hc _]. pose proof (zlen_nonneg (fm_m x)).
    split; [change (zlen []) with 0; lia|constructor].
  - destruct Hm as [-> _]. done.
Qed.

Lemma forget_does f m : fok f -> does f (FForget m).
Proof.
  intros Hf. unfold does, frun1, clackf_forget. pose proof (mfind_spec f m) as Hm. destruct (mfind f m) as [[i x]|] eqn:E; cbn [fspec fanswer].
  - destruct Hm as (Hi & Hk & Hl & _). destruct (mb f !! pred (length (mb f))) as [z|] eqn:Ez.
    2: { apply lookup_ge_None in Ez. apply lookup_lt_Some in Hi. lia. }
    pose proof (swap_take _ _ _ _ Hi Ez) as Hp. set (r := take _ _) in *. destruct Hf as [H1 H2 H3].
    assert (NoDup (m :: (fm_member <$> r))) as Hd by (rewrite <- Hk; change (fm_member x :: (fm_member <$> r)) with (fm_member <$> x :: r); by rewrite <- Hp).
    apply NoDup_cons in Hd as [Hn Hd]. split_and!; [| |done].
    + split; cbn [mb]; [done| |rewrite Hp in H3; by apply list.Forall_cons in H3 as [_ H3]].
      apply Permutation_length in Hp. cbn in Hp. unfold zlen in *. lia.
    + unfold fleet_of. cbn [mb]. rewrite (tab_perm _ _ _ _ H1 Hp), tab_cons, Hk, delete_insert_eq. symmetry. apply delete_id.
      apply not_elem_of_list_to_map_1. rewrite <- list_fmap_compose. exact Hn.
  - destruct Hm as [Hl Hn]. split_and!; [done| |done]. symmetry. by apply delete_id.
Qed.

Lemma report_append f i m member o s v now cap :
  fok f -> mfind f member = Some (i, m) -> mb f !! i = Some m -> fm_member m = member ->
  marks_of (fm_m m) !! (o, s) = None -> (o, s) ∉ (space_key <$> fm_m m) -> zlen (fm_m m) < cap <= CLACKF_SPACES ->
  let f' := set_mb f i (set_marks m cap (fm_m m ++ [mk_fmark o s v now])) in
  fok f' /\ fleet_of f' = <[member := (fm_incarn m, fm_heard m, <[(o, s) := (v, now)]> (marks_of (fm_m m)))]> (fleet_of f).
Proof.
  intros Hf Hm Hi Hk Hl Hn Hc. cbv zeta. destruct (member_ok f i m Hf Hi) as [_ Hd]. split.
  - apply (set_mb_ok f i m); [done|done|done|]. cbn [fm_m fm_cap set_marks]. split; [rewrite zlen_app; change (zlen [_]) with 1; lia|].
    rewrite fmap_app. apply NoDup_app. split_and!; [done| |apply NoDup_singleton]. cbn. intros y Hy Hy'%list_elem_of_singleton. subst y. done.
  - rewrite (fleet_set f i m _ member Hm) by done. f_equal. unfold member_val. cbn [fm_incarn fm_heard fm_m set_marks]. f_equal.
    unfold marks_of. by rewrite (tab_snoc _ _ (o, s)).
Qed.

Lemma report_does f m o s v now mem : fok f -> does f (FReport m o s v now mem).
Proof.
  intros Hf. unfold does, frun1, clackf_report. pose proof (mfind_spec f m) as Hm. destruct (mfind f m) as [[i x]|] eqn:E.
  2: { destruct Hm as [Hl _]. cbn [fspec fanswer Z.eqb]. by rewrite Hl. }
  destruct Hm as (Hi & Hk & Hl & _). set (f1 := mk_clackf (mb f) _ _ _ _). assert (fok f1) as Hf1 by (by destruct Hf).
  assert (mfind f1 m = Some (i, x)) as E1 by exact E. assert (fleet_of f1 = fleet_of f) as Efl by done.
  destruct (member_ok f i x Hf Hi) as [Hcap Hnd]. pose proof (sfind_spec x o s) as Hs. destruct (sfind x o s) as [[j y]|] eqn:Es.
  - destruct Hs as (Hj & Hky & Hly & Hp). cbn [fspec fanswer]. rewrite Hl. unfold member_val. rewrite Hly. unfold space_val at 2.
    assert ((b2z (v <? f_mark y) =? -1) = false) as -> by (by destruct (v <? f_mark y)).
    set (y' := mk_fmark _ _ _ _). set (x' := set_marks _ _ _). split_and!; [| |done].
    + destruct (set_mb_ok f1 i x x' Hf1 Hi eq_refl) as [A B D]; [|by split]. cbn [fm_m fm_cap set_marks x']. split; [unfold zlen in *; by rewrite length_insert|].
      assert (space_key <$> <[j := y']> (fm_m x) = space_key <$> fm_m x) as ->; [|done].
      rewrite list_fmap_insert. apply list_insert_id. rewrite list_lookup_fmap, Hj. done.
    + etransitivity; [apply (fleet_set f1 i x x' m E1); exact Hk|]. rewrite Efl. f_equal. unfold member_val. cbn [fm_incarn fm_heard fm_m set_marks x']. f_equal.
      unfold marks_of. rewrite (tab_set _ _ (o, s) (fun s0 => (f_oid s0 =? o) && (f_sincarn s0 =? s))); [|intros z; unfold space_key; rewrite andb_true_iff, !Z.eqb_eq; split; [by intros [-> ->]|by intros [= -> ->]]|done|done].
      f_equal. unfold space_val. cbn [f_mark f_moved y']. by destruct (v =? f_mark y).
  - destruct Hs as [Hly Hny].
    assert (forall cap, zlen (fm_m x) < cap <= CLACKF_SPACES ->
      fok (set_mb f1 i (set_marks x cap (fm_m x ++ [mk_fmark o s v now]))) /\
      fleet_of (set_mb f1 i (set_marks x cap (fm_m x ++ [mk_fmark o s v now]))) = fspec (fleet_of f) (FReport m o s v now mem) 0 /\
      fanswer (fleet_of f) (FReport m o s v now mem) 0) as Hput.
    { intros cap Hc. destruct (report_append f1 i x m o s v now cap Hf1 E1 Hi Hk Hly Hny Hc) as [A B]. split; [exact A|]. rewrite B, Efl.
      cbn [fspec fanswer Z.eqb]. rewrite Hl. unfold member_val. rewrite Hly. by split; [|left]. }
    destruct (Z.eqb_spec (zlen (fm_m x)) (fm_cap x)) as [Hfull|Hroom]; [|apply Hput; lia].
    set (c0 := if fm_cap x =? 0 then 4 else u32 (fm_cap x * 2)). set (c1 := if c0 >? CLACKF_SPACES then CLACKF_SPACES else c0).
    pose proof (zlen_nonneg (fm_m x)). unfold CLACKF_SPACES in *.
    assert (zlen (fm_m x) < c1 <= 1026 \/ (zlen (fm_m x) = c1 /\ fm_cap x = 1026)) as Hc1.
    { subst c1 c0. unfold CLACKF_SPACES. destruct (Z.eqb_spec (fm_cap x) 0); [cbn; lia|]. rewrite u32_id by (unfold is_u32; lia).
      rewrite Z.gtb_ltb. destruct (Z.ltb_spec 1026 (fm_cap x * 2)); lia. }
    destruct (Z.eqb_spec (zlen (fm_m x)) c1) as [He|He].
    + cbn [orb fspec fanswer Z.eqb]. rewrite Hl. unfold member_val. rewrite Hly. split_and!; [by destruct Hf1|done|]. right. split; [done|]. right.
      rewrite marks_size by done. unfold CLACKF_SPACES, zlen in *. lia.
    + destruct mem; cbn [orb negb].
      * apply Hput. lia.
      * cbn [fspec fanswer Z.eqb]. rewrite Hl. unfold member_val. rewrite Hly. split_and!; [by destruct Hf1|done|]. right. by split; [|left].
Qed.

Lemma frun1_does f o : fok f -> does f o.
Proof. destruct o; auto using member_does, heard_does, report_does, clear_does, forget_does. Qed.

(** A run of operations, with the fleet the specification makes of it. *)
Definition fruns (ops : list fop) : clackf * gmap Z fstate :=
  foldl (fun st o => let '(rc, f) := frun1 st.1 o in (f, fspec st.2 o rc)) (clackf_new, ∅) ops.

Lemma fruns_ok ops : let '(f, M) := fruns ops in fok f /\ fleet_of f = M.
Proof.
  unfold fruns. assert (fok clackf_new /\ fleet_of clackf_new = (clackf_new, ∅ : gmap Z fstate).2) as H.
  { split; [|done]. split; [constructor|unfold CLACKF_MEMBERS; done|constructor]. }
  change clackf_new with ((clackf_new, ∅ : gmap Z fstate).1) in H at 1 2. revert H. generalize (clackf_new, ∅ : gmap Z fstate). induction ops as [|o ops IH]; intros [f M] [H1 H2]; cbn [foldl fst snd] in *; [done|].
  apply IH. pose proof (frun1_does f o H1) as Hd. unfold does in Hd. destruct (frun1 f o) as [rc f']. cbn [fst snd]. destruct Hd as (A & B & _). rewrite H2 in B. done.
Qed.

Lemma mark_fleet f m o s : clackf_mark f m o s = (st ← fleet_of f !! m; fst <$> st.2 !! (o, s)).
Proof.
  unfold clackf_mark. pose proof (mfind_spec f m) as Hm. destruct (mfind f m) as [[i x]|]; cbn [mbind option_bind].
  - destruct Hm as (_ & _ & -> & _). cbn [mbind option_bind snd member_val]. pose proof (sfind_spec x o s) as Hs. destruct (sfind x o s) as [[j y]|].
    + destruct Hs as (_ & _ & -> & _). done.
    + destruct Hs as [-> _]. done.
  - destruct Hm as [-> _]. done.
Qed.

Lemma min_loop_spec f o s ms : forall lo v, 0 < v -> v <= lo ->
  (v <= min_loop f o s ms lo <-> forall m, m ∈ ms -> exists x, clackf_mark f m o s = Some x /\ v <= x).
Proof.
  induction ms as [|m ms IH]; intros lo v Hv Hlo; cbn [min_loop]; [split; [by intros _ m Hm%elem_of_nil|done]|].
  destruct (clackf_mark f m o s) as [x|] eqn:E.
  - destruct (decide (v <= x)) as [Hx|Hx].
    + rewrite (IH (if x <? lo then x else lo) v Hv) by (destruct (x <? lo); lia). split.
      * intros H m' [->|Hm']%elem_of_cons; [by exists x|by apply H].
      * intros H m' Hm'. apply H. by right.
    + split; [|intros H; destruct (H m) as (y & Hy & Hvy); [left|]; simplify_eq; lia]. intros H. exfalso.
      assert (forall l lo, lo < v -> min_loop f o s l lo < v) as Hlt.
      { clear - Hv. induction l as [|y l IH]; intros lo Hlo; cbn [min_loop]; [done|]. destruct (clackf_mark f y o s) as [z|]; [|lia]. apply IH. destruct (Z.ltb_spec z lo); lia. }
      specialize (Hlt ms (if x <? lo then x else lo)). rewrite (proj2 (Z.ltb_lt x lo)) in * by lia. lia.
  - split; [lia|]. intros H. destruct (H m) as (y & Hy & _); [left|]. congruence.
Qed.

(** C32. The fleet's marks: after any run of keepalives, reports, resets, clears and
    departures the tables are the map their specification builds - a member's marks are
    those it reported since its incarnation began, the last of each space, with the time
    the mark last changed - within their bounds, the next operation answers what the map
    says, and [clackf_min] reaches a number exactly when every listed member has reported
    at least that: nothing is confirmed for a member that has said nothing. *)
Theorem clackf_refines_fleet (ops : list fop) (o : fop) (oid sincarn v : Z) (members : list Z)
    (Hv : 0 < v < 2 ^ 64) (Hm : members <> []) :
  let '(f, M) := fruns ops in
  fok f /\ fleet_of f = M /\
  (let '(rc, f') := frun1 f o in fok f' /\ fleet_of f' = fspec M o rc /\ fanswer M o rc) /\
  (v <= clackf_min f oid sincarn members <->
     forall m, m ∈ members -> exists st x t, M !! m = Some st /\ st.2 !! (oid, sincarn) = Some (x, t) /\ v <= x).
Proof.
  pose proof (fruns_ok ops) as H. destruct (fruns ops) as [f M]. destruct H as [Hf HM]. split; [done|]. split; [done|]. split.
  - pose proof (frun1_does f o Hf) as Hd. unfold does in Hd. destruct (frun1 f o) as [rc f']. by rewrite <- HM.
  - unfold clackf_min. assert (0 < zlen members) by (destruct members; [done|rewrite zlen_cons; pose proof (zlen_nonneg members); lia]).
    rewrite (proj2 (Z.leb_gt _ _)) by lia. rewrite min_loop_spec by lia. rename v into v0.
    assert (forall m, (exists x, clackf_mark f m oid sincarn = Some x /\ v0 <= x) <->
      (exists st x t, M !! m = Some st /\ st.2 !! (oid, sincarn) = Some (x, t) /\ v0 <= x)) as Hiff.
    { intros m. rewrite mark_fleet, HM. destruct (M !! m) as [st|]; cbn [mbind option_bind]; [|naive_solver].
      destruct (st.2 !! (oid, sincarn)) as [[x t]|] eqn:E; cbn; [|naive_solver]. split; [intros (y & [= <-] & Hy); eauto 6|].
      intros (st' & x' & t' & [= <-] & H2 & H3). rewrite E in H2. simplify_eq. eauto. }
    split; intros Hall m Hin; apply Hiff; auto.
Qed.

(** * The longest still come first *)

Definition stiller (x y : clackf_stuck) : Prop := sk_moved x <= sk_moved y.

Fixpoint ins (e : clackf_stuck) (l : list clackf_stuck) : list clackf_stuck :=
  match l with
  | [] => [e]
  | x :: l' => if sk_moved x >? sk_moved e then e :: l else x :: ins e l'
  end.

(** By the time of the last move, earlier listed members first among equals. *)
Definition by_stillness (l : list clackf_stuck) : list clackf_stuck := foldl (fun s e => ins e s) [] l.

Lemma ins_perm e l : ins e l ≡ₚ e :: l.
Proof. induction l as [|x l IH]; cbn [ins]; [done|]. destruct (_ >? _); [done|]. rewrite IH. solve_Permutation. Qed.

Lemma ins_sorted e l : StronglySorted stiller l -> StronglySorted stiller (ins e l).
Proof.
  induction l as [|x l IH]; cbn [ins]; intros H; [repeat constructor|]. apply StronglySorted_inv in H as [H1 H2]. rewrite Z.gtb_ltb.
  destruct (Z.ltb_spec (sk_moved e) (sk_moved x)) as [Hlt|Hge].
  - constructor; [by constructor|]. constructor; [unfold stiller; lia|]. eapply Forall_impl; [exact H2|]. unfold stiller. intros; lia.
  - constructor; [by apply IH|]. rewrite ins_perm. constructor; [unfold stiller; lia|done].
Qed.

Lemma ins_before e l x r : sk_moved e < sk_moved x -> ins e (l ++ x :: r) = ins e l ++ x :: r.
Proof.
  intros H. induction l as [|y l IH]; cbn [ins app].
  - by rewrite Z.gtb_ltb, (proj2 (Z.ltb_lt _ _)).
  - destruct (_ >? _); [done|]. by rewrite IH.
Qed.

Lemma ins_after e l r : Forall (fun x => sk_moved x <= sk_moved e) l -> ins e (l ++ r) = l ++ ins e r.
Proof.
  induction 1 as [|x l Hx Hl IH]; cbn [ins app]; [done|]. rewrite Z.gtb_ltb, (proj2 (Z.ltb_ge _ _)) by done. by rewrite IH.
Qed.

Lemma sorted_below l x r y : StronglySorted stiller (l ++ x :: r) -> sk_moved x <= y -> Forall (fun z => sk_moved z <= y) (l ++ [x]).
Proof.
  intros H Hx. apply Forall_app. split; [|by constructor]. induction l as [|z l IH]; [constructor|]. cbn [app] in H.
  apply StronglySorted_inv in H as [H1 H2]. constructor; [|by apply IH]. apply Forall_app in H2 as [_ H2]. apply list.Forall_cons in H2 as [H2 _]. unfold stiller in H2. lia.
Qed.

(** The shift opens the place the entry belongs in. *)
Lemma shift_ins e : forall p y q, StronglySorted stiller p ->
  (let '(out, j) := shift (p ++ y :: q) (length p) (sk_moved e) in <[j := e]> out) = ins e p ++ q.
Proof.
  induction p as [|x p IH] using rev_ind; intros y q Hs; [done|]. rewrite length_app. cbn [length]. rewrite Nat.add_1_r. cbn [shift].
  rewrite <- app_assoc. cbn [app]. rewrite lookup_app_r, Nat.sub_diag by lia. cbn [lookup list_lookup]. rewrite Z.gtb_ltb.
  destruct (Z.ltb_spec (sk_moved e) (sk_moved x)) as [Hlt|Hge].
  - rewrite insert_app_r_alt by lia. replace (S (length p) - length p)%nat with 1%nat by lia. cbn [insert list_insert].
    rewrite (IH x (x :: q)) by (by apply StronglySorted_app_1_l in Hs). rewrite (ins_before e p x []) by done. by rewrite <- app_assoc.
  - rewrite insert_app_r_alt by lia. replace (S (length p) - length p)%nat with 1%nat by lia. cbn [insert list_insert].
    rewrite <- (app_nil_r (p ++ [x])), ins_after by (eapply sorted_below; [exact Hs|done]). cbn [ins]. by rewrite <- !app_assoc.
Qed.

Lemma ins_len e l : length (ins e l) = S (length l).
Proof. by rewrite ins_perm. Qed.

(** The places hold the stillest of those met. *)
Definition holds (out s : list clackf_stuck) : Prop := take (length s) out = take (length out) s.

Lemma stuck_put_holds out s e : holds out s -> StronglySorted stiller s ->
  holds (stuck_put out (length s) (length out) e) (ins e s) /\ length (stuck_put out (length s) (length out) e) = length out.
Proof.
  unfold holds. intros Hh Hs. unfold stuck_put. destruct (Nat.ltb_spec (length s) (length out)) as [Hlt|Hge].
  - rewrite (take_ge s) in Hh by lia. destruct (drop (length s) out) as [|y q] eqn:Ed; [apply (f_equal length) in Ed; rewrite length_drop in Ed; cbn in Ed; lia|].
    assert (out = s ++ y :: q) as -> by (rewrite <- (take_drop (length s) out), Hh, Ed at 1; done).
    pose proof (shift_ins e s y q Hs) as E. destruct (shift _ _ _) as [o j]. rewrite E. rewrite !length_app, ins_len. cbn [length].
    split; [|lia]. rewrite <- (ins_len e s), take_app_length, take_ge by (rewrite ins_len; lia). done.
  - rewrite take_ge in Hh by lia. destruct (length out) as [|last] eqn:El.
    { destruct out; [|done]. cbn. by rewrite take_nil. }
    destruct (lookup_lt_is_Some_2 out last) as [x Hx]; [lia|]. rewrite Hx. assert (s !! last = Some x) as Hsx by (rewrite Hh in Hx; by apply lookup_take_Some in Hx as [? _]).
    apply list_elem_of_split_length in Hsx as (p & r & -> & ->). destruct (Z.leb_spec (sk_moved x) (sk_moved e)) as [Hle|Hgt].
    + split; [|done]. rewrite El. pose proof (sorted_below p x r (sk_moved e) Hs Hle) as Hb.
      replace (p ++ x :: r) with ((p ++ [x]) ++ r) in * by (by rewrite <- app_assoc). rewrite ins_after by done.
      rewrite take_ge by (rewrite !length_app, ins_len; cbn; lia). rewrite Hh.
      rewrite (take_app_le (p ++ [x]) r), (take_app_le (p ++ [x]) (ins e r)) by (rewrite length_app; cbn; lia). done.
    + assert (out = p ++ [x]) as ->.
      { rewrite Hh. replace (p ++ x :: r) with ((p ++ [x]) ++ r) by (by rewrite <- app_assoc). rewrite take_app_le by (rewrite length_app; cbn; lia). apply take_ge. rewrite length_app. cbn. lia. }
      pose proof (shift_ins e p x []) as E. destruct (shift _ _ _) as [o j]. rewrite E by (by apply StronglySorted_app_1_l in Hs). rewrite app_nil_r, !ins_len.
      split; [|done]. rewrite (ins_before e p x r) by lia. rewrite (take_ge (ins e p)) by (rewrite length_app, !ins_len; cbn; lia).
      rewrite <- (ins_len e p). by rewrite take_app_length.
Qed.

(** The listed members that stand still, in the order listed. *)
Definition stuck_of (f : clackf) (oid sincarn : Z) (members : list Z) (head now still_ms latest : Z) : list clackf_stuck :=
  omap (fun x => s ← of_space f oid sincarn x; if is_stuck s head now still_ms latest then Some (mk_stuck x (f_mark s) (f_moved s)) else None) members.

Lemma stuck_loop_holds f oid sincarn head now still_ms latest members : forall out s, holds out s -> StronglySorted stiller s ->
  let l := stuck_of f oid sincarn members head now still_ms latest in
  let '(k, out') := stuck_loop f oid sincarn members head now still_ms latest out (length s) (length out) in
  let s' := foldl (fun s e => ins e s) s l in
  k = length s' /\ length out' = length out /\ holds out' s' /\ StronglySorted stiller s' /\ s' ≡ₚ l ++ s.
Proof.
  induction members as [|x members IH]; intros out s Hh Hs; [cbn; by split_and!|]. cbv zeta. unfold stuck_of. cbn [omap list_omap stuck_loop].
  fold (stuck_of f oid sincarn members head now still_ms latest).
  destruct (of_space f oid sincarn x) as [sp|]; cbn [mbind option_bind]; [|by apply IH]. destruct (is_stuck _ _ _ _ _); [|by apply IH].
  set (e := mk_stuck _ _ _). destruct (stuck_put_holds out s e Hh Hs) as [H1 H2]. pose proof (ins_sorted e s Hs) as H3.
  specialize (IH _ _ H1 H3). cbv zeta in IH. rewrite ins_len, H2 in IH. destruct (stuck_loop _ _ _ _ _ _ _ _ _ _ _) as [k out'].
  cbn [foldl]. destruct IH as (A & B & D & G & P). split_and!; [done|done|done|done|]. rewrite P, ins_perm. solve_Permutation.
Qed.

(** The members that stand still: the count is that of all listed members below the
    head whose mark has not moved for the given time while another's has, and the array
    given holds the ones that moved longest ago, in that order, as many as it has room
    for, whatever was in it. *)
Theorem clackf_stuck_longest (f : clackf) (oid sincarn : Z) (members : list Z) (head also now still_ms : Z) (out : list clackf_stuck) :
  let l := stuck_of f oid sincarn members head now still_ms (latest_moved f oid sincarn members also) in
  let '(k, out') := clackf_stuck_ f oid sincarn members head also now still_ms out in
  k = length l /\ length out' = length out /\
  take k out' = take (length out) (by_stillness l) /\ by_stillness l ≡ₚ l /\ StronglySorted stiller (by_stillness l).
Proof.
  cbv zeta. unfold clackf_stuck_, by_stillness. set (lt := latest_moved _ _ _ _ _).
  assert (holds out [] /\ StronglySorted stiller []) as [H1 H2] by (split; [unfold holds; cbn; by rewrite take_nil|constructor]).
  pose proof (stuck_loop_holds f oid sincarn head now still_ms lt members out [] H1 H2) as H. cbv zeta in H. cbn [length] in H.
  destruct (stuck_loop _ _ _ _ _ _ _ _ _ _ _) as [k out']. destruct H as (A & B & D & G & P). rewrite app_nil_r in P.
  split_and!; [by rewrite A, P|done| |done|done]. unfold holds in D. rewrite A, D, B. done.
Qed.

(** * Runs *)

Definition x_ops : list fop := [FMember 1 5; FMember 2 7; FReport 1 9 1 30 100 true; FReport 2 9 1 40 110 true; FReport 1 9 1 35 120 true].

Lemma clackf_refines_fleet_witness : 35 <= clackf_min (fruns x_ops).1 9 1 [1; 2].
Proof.
  assert ((st ← (fruns x_ops).2 !! 1; st.2 !! (9, 1)) = Some (35, 120)) as H1 by (vm_compute; reflexivity).
  assert ((st ← (fruns x_ops).2 !! 2; st.2 !! (9, 1)) = Some (40, 110)) as H2 by (vm_compute; reflexivity).
  pose proof (clackf_refines_fleet x_ops (FClear 1) 9 1 35 [1; 2] ltac:(lia) ltac:(discriminate)) as H.
  destruct (fruns x_ops) as [f M]. cbn [fst snd] in *. destruct H as (_ & _ & _ & H). apply H. intros m Hm.
  apply elem_of_cons in Hm as [->|Hm]; [destruct (M !! 1) as [st|]; [|discriminate]; exists st, 35, 120|
    apply list_elem_of_singleton in Hm as ->; destruct (M !! 2) as [st|]; [|discriminate]; exists st, 40, 110]; (split; [reflexivity|]; split; [assumption|lia]).
Defined.
