(* ===== verification/Recover.v ===== *)
(** Start-up recovery ([recover.c]): the snapshot's load and the replay of the log.

    [rdb_load] reads a snapshot into the collections' tables; [replay_cb] takes the
    records of the log one by one, by version and not by their order in the file:
    an upsert lands over an older version only, a delete removes what is older and
    is remembered, so that an older upsert behind it does not bring the key back.
    The registry is the live collections with their tables, at boot without a
    drain; the log is what [pc_wal_scan] of [WalFmt] hands over; ticks and wall
    clock stand still during a recovery.  The collection records of the log
    (create, drop, rename) are outside the model: [replay_cb] answers [None].

    The specification of a replay is [newest]: of the copy the table began with and
    all the log's writes and deletes of a key, the one with the highest version. *)

From Stdlib Require Import ZArith Lia.
From stdpp Require Import base tactics list numbers gmap.
From S2P Require Import Prelude Clack HtBase HtChain Lamport HtTable HtGrow HtApi Crc32c WalFmt.

Definition PC_WAL_DEL_VERLEN : Z := 8.
Definition PC_WAL_DELN_VLEN : Z := 28.

(** A deadline in wall-clock seconds as ticks: 0 never, 1 already over. *)
Definition wall_to_ticks (wall now_wall ticks : Z) : Z :=
  if wall =? 0 then 0
  else if s64 wall <=? now_wall then 1
  else u32 (ticks + u32 (s64 wall - now_wall)).

(** * The deletes remembered *)

Definition TOMB_BUCKETS : Z := 65536.

Definition tomb_hash (s : bytes) : Z :=
  Z.land (foldl (fun h c => u32 (Z.lxor h c * 16777619)) 2166136261 s) (TOMB_BUCKETS - 1).

Definition tomb_key (col key : bytes) : bytes := col ++ 0 :: key.

(** The bucket array, [None] before the first [calloc]; a chain has its newest entry first. *)
Definition tombs : Type := option (gmap Z (list (bytes * Z))).

Definition chain_of (t : gmap Z (list (bytes * Z))) (h : Z) : list (bytes * Z) := default [] (t !! h).

Fixpoint chain_ver (l : list (bytes * Z)) (k : bytes) : option Z :=
  match l with
  | [] => None
  | (k', v) :: l => if bool_decide (k' = k) then Some v else chain_ver l k
  end.

Definition tomb_get (t : tombs) (k : bytes) : Z :=
  match t with None => 0 | Some t => default 0 (chain_ver (chain_of t (tomb_hash k)) k) end.

Fixpoint chain_raise (l : list (bytes * Z)) (k : bytes) (ver : Z) : list (bytes * Z) :=
  match l with
  | [] => []
  | (k', v) :: l => if bool_decide (k' = k) then (k', if ver >? v then ver else v) :: l else (k', v) :: chain_raise l k ver
  end.

(** [tab_ok], [ent_ok]: what [calloc] and [malloc] answer. *)
Definition tomb_note (t : tombs) (k : bytes) (ver : Z) (tab_ok ent_ok : bool) : tombs :=
  match (match t with None => if tab_ok then Some ∅ else None | Some t => Some t end) with
  | None => None
  | Some t =>
      let h := tomb_hash k in
      let l := chain_of t h in
      match chain_ver l k with
      | Some _ => Some (<[h := chain_raise l k ver]> t)
      | None => if ent_ok then Some (<[h := (k, ver) :: l]> t) else Some t
      end
  end.

(** * State *)

(** A live collection of the registry. *)
Record coll := mk_coll { c_name : bytes; c_tab : pcache_htable; c_durable : bool }.

(** [pc_store_find]: the first of that name. *)
Fixpoint pc_store_find (reg : list coll) (name : bytes) : option nat :=
  match reg with
  | [] => None
  | c :: reg => if bool_decide (c_name c = name) then Some 0%nat else S <$> pc_store_find reg name
  end.

Definition set_tab (reg : list coll) (i : nat) (ht : pcache_htable) : list coll :=
  alter (fun c => mk_coll (c_name c) ht (c_durable c)) i reg.

Record pc_recover_stats := mk_rs {
  last_seq : Z; marker : Z; ver_high : Z; rdb_ok : bool; rdb_wall : Z; rdb_fmt_newer : Z;
  rdb_records : Z; rdb_skipped_expired : Z; rdb_skipped_nocol : Z; rdb_skipped_cache : Z;
  wal_applied : Z; wal_below_marker : Z; wal_skipped : Z; wal_skipped_cache : Z; wal_older : Z;
  wal_unknown : Z; wal_unknown_covered : Z; wal_unknown_type : Z; ack_replayed : Z
}.

Definition rs_zero : pc_recover_stats := mk_rs 0 0 0 false 0 0 0 0 0 0 0 0 0 0 0 0 0 0 0.

(** The counters a replay moves, each by its increment. *)
Definition rs_add (s : pc_recover_stats) (applied below skipped cache older : Z) : pc_recover_stats :=
  mk_rs (last_seq s) (marker s) (ver_high s) (rdb_ok s) (rdb_wall s) (rdb_fmt_newer s)
    (rdb_records s) (rdb_skipped_expired s) (rdb_skipped_nocol s) (rdb_skipped_cache s)
    (wal_applied s + applied) (wal_below_marker s + below) (wal_skipped s + skipped) (wal_skipped_cache s + cache)
    (wal_older s + older) (wal_unknown s) (wal_unknown_covered s) (wal_unknown_type s) (ack_replayed s).

Definition rs_rdb (s : pc_recover_stats) (records expired nocol cache : Z) : pc_recover_stats :=
  mk_rs (last_seq s) (marker s) (ver_high s) (rdb_ok s) (rdb_wall s) (rdb_fmt_newer s)
    (rdb_records s + records) (rdb_skipped_expired s + expired) (rdb_skipped_nocol s + nocol) (rdb_skipped_cache s + cache)
    (wal_applied s) (wal_below_marker s) (wal_skipped s) (wal_skipped_cache s)
    (wal_older s) (wal_unknown s) (wal_unknown_covered s) (wal_unknown_type s) (ack_replayed s).

(** [if (ver > st->ver_high) st->ver_high = ver;] *)
Definition rs_high (s : pc_recover_stats) (ver : Z) : pc_recover_stats :=
  mk_rs (last_seq s) (marker s) (if ver >? ver_high s then ver else ver_high s) (rdb_ok s) (rdb_wall s) (rdb_fmt_newer s)
    (rdb_records s) (rdb_skipped_expired s) (rdb_skipped_nocol s) (rdb_skipped_cache s)
    (wal_applied s) (wal_below_marker s) (wal_skipped s) (wal_skipped_cache s)
    (wal_older s) (wal_unknown s) (wal_unknown_covered s) (wal_unknown_type s) (ack_replayed s).

Definition rs_seen (s : pc_recover_stats) (seq : Z) : pc_recover_stats :=
  mk_rs (if seq >? last_seq s then seq else last_seq s) (marker s) (ver_high s) (rdb_ok s) (rdb_wall s) (rdb_fmt_newer s)
    (rdb_records s) (rdb_skipped_expired s) (rdb_skipped_nocol s) (rdb_skipped_cache s)
    (wal_applied s) (wal_below_marker s) (wal_skipped s) (wal_skipped_cache s)
    (wal_older s) (wal_unknown s) (wal_unknown_covered s) (wal_unknown_type s) (ack_replayed s).

Definition rs_unknown (s : pc_recover_stats) (unknown covered type : Z) : pc_recover_stats :=
  mk_rs (last_seq s) (marker s) (ver_high s) (rdb_ok s) (rdb_wall s) (rdb_fmt_newer s)
    (rdb_records s) (rdb_skipped_expired s) (rdb_skipped_nocol s) (rdb_skipped_cache s)
    (wal_applied s) (wal_below_marker s) (wal_skipped s) (wal_skipped_cache s)
    (wal_older s) unknown covered type (ack_replayed s).

Definition rs_acked (s : pc_recover_stats) (n : Z) : pc_recover_stats :=
  mk_rs (last_seq s) (marker s) (ver_high s) (rdb_ok s) (rdb_wall s) (rdb_fmt_newer s)
    (rdb_records s) (rdb_skipped_expired s) (rdb_skipped_nocol s) (rdb_skipped_cache s)
    (wal_applied s) (wal_below_marker s) (wal_skipped s) (wal_skipped_cache s)
    (wal_older s) (wal_unknown s) (wal_unknown_covered s) (wal_unknown_type s) (ack_replayed s + n).

Section Replay.
Context {C : Type} `{LC : Lamport C}.

(** What the allocators answer while one record is replayed. *)
Record rmem := mk_rmem { t_key : bool; t_tab : bool; t_ent : bool; t_cells : mem; t_ack : bool }.

Record rstate := mk_rst {
  rs_reg : list coll;
  rs_env : wenv C;
  rs_tombs : tombs;
  rs_ack : option clack;
  rs_unk : Z;                          (* unk_pending *)
  rs_st : pc_recover_stats
}.

(** What one record does to its collection's table and the rest. *)
Record work := mk_work { k_tab : pcache_htable; k_env : wenv C; k_tombs : tombs; k_st : pc_recover_stats }.

Definition with_st (w : work) (s : pc_recover_stats) : work := mk_work (k_tab w) (k_env w) (k_tombs w) s.
Definition applied (w : work) : work := with_st w (rs_add (k_st w) 1 0 0 0 0).
Definition older (w : work) : work := with_st w (rs_add (k_st w) 0 0 0 0 1).
Definition skipped (w : work) : work := with_st w (rs_add (k_st w) 0 0 1 0 0).
Definition high (w : work) (v : Z) : work := with_st w (rs_high (k_st w) v).

Definition w_remove (w : work) (key : bytes) : work :=
  let '(_, ht, e) := pcache_ht_remove (k_tab w) (k_env w) key in mk_work ht e (k_tombs w) (k_st w).

Definition w_setver (w : work) (key : bytes) (v : Z) (m : mem) : work :=
  let '(_, t, e) := pcache_ht_setver (mk_tabs (k_tab w) None) (k_env w) key v m in
  mk_work (main t) e (k_tombs w) (k_st w).

(** [pcache_ht_getver(...) == 0 && have >= ver]. *)
Definition has_newer (w : work) (key : bytes) (v : Z) : bool :=
  match getver_impl (mk_tabs (k_tab w) None) key (ticks (k_env w)) with
  | Some (have, _) => have >=? v
  | None => false
  end.

Definition note_tomb (w : work) (col key : bytes) (v : Z) (rm : rmem) : work :=
  if t_key rm then mk_work (k_tab w) (k_env w) (tomb_note (k_tombs w) (tomb_key col key) v (t_tab rm) (t_ent rm)) (k_st w)
  else w.

(** [PC_WAL_T_UPSERT], [PC_WAL_T_UPSERT_V] *)
Definition replay_upsert (w : work) (r : wal_rec) (exp : Z) (rm : rmem) : work :=
  let v := wr_ver r in
  let fl := Z.land (wr_flags r) PCACHE_F_CARRY in
  if exp =? 1 then skipped w
  else if negb (v =? 0) then
    if t_key rm && (tomb_get (k_tombs w) (tomb_key (wr_col r) (wr_key r)) >=? v) then older w
    else
      let '(rc, t, e) := pcache_ht_store_ver (mk_tabs (k_tab w) None) (k_env w) (wr_key r) (wr_val r) exp fl v (t_cells rm) in
      let w := mk_work (main t) e (k_tombs w) (k_st w) in
      if rc =? PCACHE_E_OLDER then older w
      else
        let w := if rc =? -2 then
            let '(_, ht, e) := pcache_ht_drop_older (k_tab w) (k_env w) (wr_key r) v in mk_work ht e (k_tombs w) (k_st w)
          else w in
        if rc =? 0 then applied (high w v) else w
  else
    let '(rc, t, e) := pcache_ht_store_ex (mk_tabs (k_tab w) None) (k_env w) (wr_key r) (wr_val r) exp fl (t_cells rm) in
    let w := mk_work (main t) e (k_tombs w) (k_st w) in
    if rc =? 0 then applied (high (w_setver w (wr_key r) v (t_cells rm)) v) else w.

(** [PC_WAL_T_DEL], [PC_WAL_T_DEL_N] *)
Definition replay_del (w : work) (r : wal_rec) (rm : rmem) : work :=
  let vlen := zlen (wr_val r) in
  if negb (vlen =? PC_WAL_DEL_VERLEN) && negb ((wr_type r =? PC_WAL_T_DEL_N) && (vlen =? PC_WAL_DELN_VLEN)) then
    applied (w_remove w (wr_key r))
  else
    let v := r64 (wr_val r) in
    let w := note_tomb w (wr_col r) (wr_key r) v rm in
    if has_newer w (wr_key r) v then older w
    else applied (high (w_remove w (wr_key r)) v).

(** [PC_WAL_T_TOUCH], [PC_WAL_T_TOUCH_V] *)
Definition replay_touch (w : work) (r : wal_rec) (exp : Z) (rm : rmem) : work :=
  let v := wr_ver r in
  if (exp =? 1) && negb (v =? 0) then
    let w := note_tomb w (wr_col r) (wr_key r) v rm in
    if has_newer w (wr_key r) v then older w else applied (w_remove w (wr_key r))
  else if exp =? 1 then applied (w_remove w (wr_key r))
  else if negb (v =? 0) && has_newer w (wr_key r) v then older w
  else
    let '(rc, t, e) := pcache_ht_touch (mk_tabs (k_tab w) None) (k_env w) (wr_key r) exp (t_cells rm) in
    let w := mk_work (main t) e (k_tombs w) (k_st w) in
    applied (if (rc =? 1) && negb (v =? 0) then high (w_setver w (wr_key r) v (t_cells rm)) v else w).

(** The switch of [replay_cb], on a record of a durable collection. *)
Definition replay_data (w : work) (r : wal_rec) (now_wall : Z) (rm : rmem) : work :=
  let exp := wall_to_ticks (wr_exp r) now_wall (ticks (k_env w)) in
  let ty := wr_type r in
  if (ty =? PC_WAL_T_UPSERT) || (ty =? PC_WAL_T_UPSERT_V) then replay_upsert w r exp rm
  else if (ty =? PC_WAL_T_DEL_N) || (ty =? PC_WAL_T_DEL) then replay_del w r rm
  else if (ty =? PC_WAL_T_TOUCH) || (ty =? PC_WAL_T_TOUCH_V) then replay_touch w r exp rm
  else skipped w.

Definition with_stats (s : rstate) (st : pc_recover_stats) : rstate :=
  mk_rst (rs_reg s) (rs_env s) (rs_tombs s) (rs_ack s) (rs_unk s) st.

(** Unknown records met before this one are bounded by it. *)
Definition settle_unknown (s : rstate) (seq : Z) : rstate :=
  if rs_unk s =? 0 then s
  else
    let st := rs_st s in
    let st := if rdb_ok st && (seq <=? marker st)
      then rs_unknown st (wal_unknown st) (wal_unknown_covered st + rs_unk s) (wal_unknown_type st)
      else rs_unknown st (wal_unknown st + rs_unk s) (wal_unknown_covered st) (wal_unknown_type st) in
    mk_rst (rs_reg s) (rs_env s) (rs_tombs s) (rs_ack s) 0 st.

(** A numbered delete is counted wherever it lies ([pc_ack_applied]). *)
Definition count_ack (s : rstate) (r : wal_rec) (rm : rmem) : rstate :=
  if (wr_type r =? PC_WAL_T_DEL_N) && (zlen (wr_val r) =? PC_WAL_DELN_VLEN) then
    match rs_ack s with
    | None => s
    | Some a =>
        let u := wr_val r in
        let '(rc, a) := clack_applied a (r64 (drop 8 u)) (r32 (drop 16 u)) (r64 (drop 20 u)) 0 (t_ack rm) in
        mk_rst (rs_reg s) (rs_env s) (rs_tombs s) (Some a) (rs_unk s)
          (if rc =? CLACK_NEW then rs_acked (rs_st s) 1 else rs_st s)
    end
  else s.

(** The collection record types. *)
Definition is_col_rec (ty : Z) : bool :=
  (ty =? PC_WAL_T_COL_RENAME) || (ty =? PC_WAL_T_COL_CREATE) || (ty =? PC_WAL_T_COL_DROP).

(** One record of the log; [None] for a collection record above the marker. *)
Definition replay_cb (now_wall : Z) (s : rstate) (it : wal_item) (rm : rmem) : option rstate :=
  match it with
  | IUnknown ty =>
      let st := rs_st s in
      let st := if (rs_unk s =? 0) && (wal_unknown st =? 0) && (wal_unknown_covered st =? 0)
        then rs_unknown st (wal_unknown st) (wal_unknown_covered st) ty else st in
      Some (mk_rst (rs_reg s) (rs_env s) (rs_tombs s) (rs_ack s) (rs_unk s + 1) (rs_add st 0 0 1 0 0))
  | IRec r =>
      let s := settle_unknown s (wr_seq r) in
      let s := with_stats s (rs_seen (rs_st s) (wr_seq r)) in
      let s := count_ack s r rm in
      if wr_seq r <=? marker (rs_st s) then Some (with_stats s (rs_add (rs_st s) 0 1 0 0 0))
      else if is_col_rec (wr_type r) then None
      else
        match pc_store_find (rs_reg s) (wr_col r) with
        | None => Some (with_stats s (rs_add (rs_st s) 0 0 1 0 0))
        | Some i =>
            match rs_reg s !! i with
            | None => None
            | Some c =>
                if negb (c_durable c) then Some (with_stats s (rs_add (rs_st s) 0 0 0 1 0))
                else
                  let w := replay_data (mk_work (c_tab c) (rs_env s) (rs_tombs s) (rs_st s)) r now_wall rm in
                  Some (mk_rst (set_tab (rs_reg s) i (k_tab w)) (k_env w) (k_tombs w) (rs_ack s) (rs_unk s) (k_st w))
            end
        end
  end.

Fixpoint replay (now_wall : Z) (s : rstate) (l : list (wal_item * rmem)) : option rstate :=
  match l with
  | [] => Some s
  | (it, rm) :: l => s ← replay_cb now_wall s it rm; replay now_wall s l
  end.

(** [pc_recover] from the scan of the log on: [None] when a record this build does
    not know refuses the start; otherwise the clock resumes above what came back. *)
Definition recover_tail (now_wall : Z) (s : rstate) (l : list (wal_item * rmem)) (skip_unknown : bool)
    : option (option rstate) :=
  s ← replay now_wall (mk_rst (rs_reg s) (rs_env s) None (rs_ack s) 0 (rs_st s)) l;
  let st := rs_st s in
  let st := rs_unknown st (wal_unknown st + rs_unk s) (wal_unknown_covered st) (wal_unknown_type st) in
  Some (if negb (wal_unknown st =? 0) && negb skip_unknown then None
        else Some (mk_rst (rs_reg s) (set_clk (rs_env s) (pc_lamport_restore (ver_high st) (clk (rs_env s)))) None (rs_ack s) 0 st)).

End Replay.

(** * The deletes remembered are a map of the highest versions *)

Lemma chain_ver_raise l k v k' :
  chain_ver (chain_raise l k v) k' =
    if decide (k' = k) then (fun n => Z.max n v) <$> chain_ver l k else chain_ver l k'.
Proof.
  induction l as [|[k0 n] l IH]; simpl; [by case_decide|].
  destruct (decide (k0 = k)) as [->|Hk].
  - rewrite (bool_decide_true (k = k)) by done. simpl. destruct (decide (k' = k)) as [->|].
    + rewrite !bool_decide_true by done. simpl. f_equal. destruct (Z.gtb_spec v n); lia.
    + by rewrite !bool_decide_false by congruence.
  - rewrite (bool_decide_false (k0 = k)) by done. simpl. rewrite IH. destruct (decide (k' = k)) as [->|]; [|done].
    by rewrite (bool_decide_false (k0 = k)).
Qed.

Lemma chain_of_insert t h l h' : chain_of (<[h := l]> t) h' = if decide (h' = h) then l else chain_of t h'.
Proof.
  unfold chain_of. destruct (decide (h' = h)) as [->|]; [by rewrite lookup_insert_eq|by rewrite lookup_insert_ne by congruence].
Qed.

Lemma tomb_get_note t k v k' : 0 <= v ->
  tomb_get (tomb_note t k v true true) k' = if decide (k' = k) then Z.max (tomb_get t k) v else tomb_get t k'.
Proof.
  intros Hv. unfold tomb_note. assert (forall t : gmap Z (list (bytes * Z)), tomb_get (match chain_ver (chain_of t (tomb_hash k)) k with
      | Some _ => Some (<[tomb_hash k := chain_raise (chain_of t (tomb_hash k)) k v]> t)
      | None => Some (<[tomb_hash k := (k, v) :: chain_of t (tomb_hash k)]> t) end) k' =
      if decide (k' = k) then Z.max (tomb_get (Some t) k) v else tomb_get (Some t) k') as H.
  { clear t. intros t. destruct (chain_ver _ _) as [n|] eqn:E; simpl; rewrite chain_of_insert.
    - destruct (decide (k' = k)) as [->|Hk].
      + rewrite decide_True by done. by rewrite chain_ver_raise, decide_True, E by done.
      + destruct (decide (tomb_hash k' = tomb_hash k)) as [->|]; [|done]. by rewrite chain_ver_raise, decide_False.
    - destruct (decide (k' = k)) as [->|Hk].
      + rewrite decide_True by done. simpl. rewrite bool_decide_true, E by done. simpl. lia.
      + destruct (decide (tomb_hash k' = tomb_hash k)) as [->|]; [|done]. simpl. by rewrite bool_decide_false by congruence. }
  destruct t as [t|]; [apply H|]. rewrite H. unfold tomb_get, chain_of. rewrite !lookup_empty. done.
Qed.

Lemma tomb_key_inj col key col' key' : 0 ∉ col -> 0 ∉ col' -> tomb_key col key = tomb_key col' key' -> col = col' /\ key = key'.
Proof.
  unfold tomb_key. revert col'. induction col as [|c col IH]; intros [|c' col'] H H' E; simpl in E.
  - by injection E.
  - injection E as <- _. by destruct H'; left.
  - injection E as -> _. by destruct H; left.
  - injection E as -> E. destruct (IH col') as [-> ->]; [by intros ?; apply H; right|by intros ?; apply H'; right|done|done].
Qed.

(** * The registry *)

Lemma find_lookup_col reg name i : pc_store_find reg name = Some i -> exists c, reg !! i = Some c /\ c_name c = name.
Proof.
  revert i. induction reg as [|c reg IH]; intros i; simpl; [done|]. case_bool_decide; [intros [= <-]; by exists c|].
  destruct (pc_store_find reg name) as [j|]; [|done]. intros [= <-]. by apply IH.
Qed.

Lemma find_set_tab reg i ht name : pc_store_find (set_tab reg i ht) name = pc_store_find reg name.
Proof.
  revert i. induction reg as [|c reg IH]; intros i; [done|]. destruct i as [|i]; [done|].
  change (set_tab (c :: reg) (S i) ht) with (c :: set_tab reg i ht). simpl. by rewrite IH.
Qed.

Lemma lookup_set_tab reg i ht j c : set_tab reg i ht !! j = Some c ->
  exists c0, reg !! j = Some c0 /\ c_name c = c_name c0 /\ c_durable c = c_durable c0 /\ c_tab c = (if decide (j = i) then ht else c_tab c0).
Proof.
  unfold set_tab. destruct (decide (j = i)) as [->|].
  - rewrite list_lookup_alter_eq. destruct (reg !! i) as [c0|]; [|done]. intros [= <-]. by exists c0.
  - rewrite list_lookup_alter_ne by congruence. intros H. by exists c.
Qed.

Lemma lookup_set_tab_eq reg i ht c : reg !! i = Some c -> set_tab reg i ht !! i = Some (mk_coll (c_name c) ht (c_durable c)).
Proof. intros H. unfold set_tab. by rewrite list_lookup_alter_eq, H. Qed.

Lemma lookup_set_tab_ne reg i ht j : j <> i -> set_tab reg i ht !! j = reg !! j.
Proof. intros H. unfold set_tab. by rewrite list_lookup_alter_ne by congruence. Qed.

(** What the collection of that name says of a key: bytes, deadline, version. *)
Definition cview (reg : list coll) (name key : bytes) : option (bytes * Z * Z) :=
  match pc_store_find reg name with
  | Some i => match reg !! i with Some c => view (c_tab c) key | None => None end
  | None => None
  end.

(** * What a replay should leave *)

(** A version of a key, and the bytes and deadline it had or [None] for its absence. *)
#[local] Abbreviation entry := (Z * option (bytes * Z))%type.

Definition better (b : option entry) (o : entry) : option entry :=
  match b with Some (n, c) => if o.1 >? n then Some o else Some (n, c) | None => Some o end.

Definition best (l : list entry) : option entry := foldl better None l.

Definition shown (b : option entry) : option (bytes * Z * Z) :=
  match b with Some (n, Some (v, x)) => Some (v, x, n) | _ => None end.

Definition newest (l : list entry) : option (bytes * Z * Z) := shown (best l).

Definition start_entry (v : option (bytes * Z * Z)) : list entry :=
  match v with Some (v, x, n) => [(n, Some (v, x))] | None => [] end.

(** The entry a record of the log stands for: a live versioned upsert, a versioned
    delete, a touch whose deadline has passed. *)
Definition op_of (now_wall ticks : Z) (r : wal_rec) : option entry :=
  let exp := wall_to_ticks (wr_exp r) now_wall ticks in
  let ty := wr_type r in
  let vlen := zlen (wr_val r) in
  if (ty =? PC_WAL_T_UPSERT_V) && negb (wr_ver r =? 0) && negb (exp =? 1) then Some (wr_ver r, Some (wr_val r, exp))
  else if ((ty =? PC_WAL_T_DEL) || (ty =? PC_WAL_T_DEL_N)) &&
          ((vlen =? PC_WAL_DEL_VERLEN) || ((ty =? PC_WAL_T_DEL_N) && (vlen =? PC_WAL_DELN_VLEN)))
    then Some (r64 (wr_val r), None)
  else if (ty =? PC_WAL_T_TOUCH_V) && negb (wr_ver r =? 0) && (exp =? 1) then Some (wr_ver r, None)
  else None.

Definition key_ops (now_wall ticks : Z) (l : list wal_rec) (name key : bytes) : list entry :=
  omap (fun r => if decide (wr_col r = name /\ wr_key r = key) then op_of now_wall ticks r else None) l.

Lemma best_snoc l o : best (l ++ [o]) = better (best l) o.
Proof. unfold best. by rewrite foldl_app. Qed.

Lemma best_spec l : match best l with
  | None => l = []
  | Some o => o ∈ l /\ forall o', o' ∈ l -> o'.1 <= o.1 end.
Proof.
  induction l as [|o l IH] using rev_ind; [done|]. rewrite best_snoc. destruct (best l) as [[n c]|]; simpl.
  - destruct IH as [Hin Hmax]. destruct (Z.gtb_spec o.1 n).
    + split; [set_solver|]. intros o' [Ho|Ho%list_elem_of_singleton]%elem_of_app; [specialize (Hmax o' Ho); simpl in Hmax; lia|subst; lia].
    + split; [set_solver|]. intros o' [Ho|Ho%list_elem_of_singleton]%elem_of_app; [by apply Hmax|subst; simpl; lia].
  - subst l. split; [set_solver|]. intros o' Ho%list_elem_of_singleton. by subst.
Qed.

(** Entries with different versions have one newest, in whatever order. *)
Lemma best_perm l l' : l ≡ₚ l' -> NoDup (fst <$> l) -> best l = best l'.
Proof.
  intros Hp Hd. pose proof (best_spec l) as H1. pose proof (best_spec l') as H2.
  destruct (best l) as [o|], (best l') as [o'|].
  - destruct H1 as [Hin Hmax], H2 as [Hin' Hmax']. f_equal.
    assert (o' ∈ l) as Ho' by (by rewrite Hp). assert (o ∈ l') as Ho by (by rewrite <- Hp).
    specialize (Hmax _ Ho'). specialize (Hmax' _ Ho). apply list_elem_of_lookup in Hin as [i Hi]. apply list_elem_of_lookup in Ho' as [j Hj].
    assert (i = j) as ->; [|congruence]. eapply (NoDup_lookup (fst <$> l)); [done|rewrite list_lookup_fmap, Hi; reflexivity|].
    rewrite list_lookup_fmap, Hj. simpl. f_equal. lia.
  - subst l'. apply Permutation_nil_r in Hp. subst l. destruct H1 as [H1 _]. by apply elem_of_nil in H1.
  - subst l. symmetry in Hp. apply Permutation_nil_r in Hp. subst l'. destruct H2 as [H2 _]. by apply elem_of_nil in H2.
  - done.
Qed.

Section ReplayLaws.
Context {C : Type} `{LC : Lamport C}.
Implicit Types (w : work (C := C)) (s : rstate (C := C)) (rm : rmem).

Definition mem_ok rm : Prop := t_key rm = true /\ t_tab rm = true /\ t_ent rm = true /\ m_cell (t_cells rm) = true /\ m_node (t_cells rm) = true.

(** Every record of the table is live at [now] and has a version. *)
Definition tab_live (ht : pcache_htable) (now : Z) : Prop :=
  forall k v x n, view ht k = Some (v, x, n) -> (x = 0 \/ now < x) /\ 0 <= n.

Definition work_ok w : Prop := table_ok (k_tab w) /\ tab_live (k_tab w) (ticks (k_env w)).

Lemma carry_flags fl : has_flag (Z.land fl PCACHE_F_CARRY) PCACHE_F_INT = false.
Proof. by rewrite flag_int, Z.land_spec, andb_false_r. Qed.

(** ** One record of each kind, on its key and on the others *)

Lemma upsert_view w r exp rm :
  work_ok w -> mem_ok rm -> bytes_ok (wr_val r) -> oversize (zlen (wr_key r)) (zlen (wr_val r)) = false ->
  1 <= wr_ver r -> exp <> 1 -> (exp = 0 \/ ticks (k_env w) < exp) ->
  let w' := replay_upsert w r exp rm in
  work_ok w' /\ k_tombs w' = k_tombs w /\ ticks (k_env w') = ticks (k_env w) /\
  view (k_tab w') (wr_key r) =
    (if tomb_get (k_tombs w) (tomb_key (wr_col r) (wr_key r)) >=? wr_ver r then view (k_tab w) (wr_key r)
     else match view (k_tab w) (wr_key r) with
          | Some (v, x, n) => if n >=? wr_ver r then Some (v, x, n) else Some (wr_val r, exp, wr_ver r)
          | None => Some (wr_val r, exp, wr_ver r) end) /\
  forall k, k <> wr_key r -> view (k_tab w') k = view (k_tab w) k.
Proof.
  intros [Hok Hlive] (Hk & _ & _ & Hc & Hn) Hb Hov Hv He Hx. cbv zeta. unfold replay_upsert.
  rewrite (proj2 (Z.eqb_neq exp 1)) by done. rewrite (proj2 (Z.eqb_neq (wr_ver r) 0)) by lia. cbn [negb]. rewrite Hk. cbn [andb].
  destruct (_ >=? wr_ver r); [by split_and!|].
  unfold pcache_ht_store_ver. rewrite store_impl_alone. cbn [skey sval]. rewrite Hov, Hc, Hn.
  set (q := mk_sreq (wr_key r) (wr_val r) exp _ (wr_ver r) true false 0).
  assert (req_ok q) as Hq by (split; [done|apply carry_flags]).
  destruct (store_ver_view (k_tab w) (k_env w) q Hok Hq Hov eq_refl) as (Hok' & Hview & Hoth).
  destruct (store_locked_env (k_tab w) (k_env w) q true true eq_refl) as [Ht _].
  pose proof (store_locked_outcome (k_tab w) (k_env w) q true true (proj1 Hok) Hb Hov) as Ho.
  destruct (store_locked _ _ q true true) as [[rc ht'] e']. cbn [fst snd skey sval sexp sver main q] in *.
  assert (rc = PCACHE_E_OLDER \/ rc = 0) as Hrc.
  { unfold store_outcome in Ho. cbn [skey] in Ho. destruct (ht_lookup _ _) as [o|].
    - destruct (use_ver q && _); [left; apply Ho|]. rewrite orb_true_r in Ho. right. apply Ho.
    - destruct Ho as [(_ & _ & [?|?])|(? & _)]; [done|done|by right]. }
  assert (tab_live ht' (ticks e')) as Hlive'.
  { rewrite Ht. intros k v x n Hkv. destruct (decide (k = wr_key r)) as [->|]; [|rewrite Hoth in Hkv by done; by eapply Hlive].
    rewrite Hview in Hkv. destruct (view (k_tab w) (wr_key r)) as [[[v0 x0] n0]|] eqn:Ev.
    - destruct (n0 >=? wr_ver r); simplify_eq; [by eapply Hlive|lia].
    - simplify_eq. lia. }
  destruct Hrc as [->| ->]; simpl; by split_and!.
Qed.

Lemma remove_view w k :
  work_ok w ->
  let w' := w_remove w k in
  work_ok w' /\ k_tombs w' = k_tombs w /\ ticks (k_env w') = ticks (k_env w) /\
  view (k_tab w') k = None /\ forall k', k' <> k -> view (k_tab w') k' = view (k_tab w) k'.
Proof.
  intros [Hok Hlive]. cbv zeta. unfold w_remove, pcache_ht_remove.
  pose proof (remove_outcome (k_tab w) (k_env w) k 0 false (proj1 Hok)) as Ho.
  pose proof (remove_impl_ok (k_tab w) (k_env w) k 0 false Hok) as Hok'.
  destruct (remove_impl _ _ _ _ _) as [[rc ht'] e']. cbn [k_tab k_env k_tombs fst snd] in *.
  assert (ticks e' = ticks (k_env w) /\ forall k', view ht' k' = if decide (k' = k) then None else view (k_tab w) k') as [Ht Hl].
  { assert (forall o, ticks (remove_env (k_env w) o false) = ticks (k_env w)) as He.
    { intros o. unfold remove_env. pose proof (ver_local_ticks (k_env w) o). by destruct (ver_local _ _). }
    destruct (ht_lookup (k_tab w) k) as [o|] eqn:El; simpl in Ho.
    - destruct Ho as (_ & [_ Hu] & ->). split; [apply He|]. intros k'. unfold view. rewrite Hu. by case_decide.
    - destruct Ho as (_ & -> & ->). split; [apply He|]. intros k'. case_decide; [subst|done]. unfold view. by rewrite El. }
  split_and!; try done.
  - split; [done|]. simpl. intros k' v x n. rewrite Hl, Ht. case_decide; [done|]. apply Hlive.
  - by rewrite Hl, decide_True.
  - intros k' Hk'. by rewrite Hl, decide_False.
Qed.

(** On live records the version read is the record's. *)
Lemma has_newer_view w k v : work_ok w ->
  has_newer w k v = match view (k_tab w) k with Some (_, _, n) => n >=? v | None => false end.
Proof.
  intros [Hok Hlive]. unfold has_newer, getver_impl. cbn [main drain_from]. rewrite getver_lookup. specialize (Hlive k). unfold view in *.
  destruct (ht_lookup (k_tab w) k) as [r|]; [|done]. simpl in *. specialize (Hlive _ _ _ eq_refl).
  assert (live (ticks (k_env w)) r = true) as ->; [|done]. unfold live. destruct (Z.eqb_spec (expires r) 0); [done|]. simpl.
  rewrite Z.gtb_ltb. apply Z.ltb_lt. lia.
Qed.

(** A delete at version [v]: remembered, and what is older goes. *)
Definition delete_at w (r : wal_rec) (v : Z) rm : work :=
  let w := note_tomb w (wr_col r) (wr_key r) v rm in
  if has_newer w (wr_key r) v then w else w_remove w (wr_key r).

Lemma delete_view w r v rm :
  work_ok w -> mem_ok rm -> 0 <= v ->
  let w' := delete_at w r v rm in
  work_ok w' /\ ticks (k_env w') = ticks (k_env w) /\
  (forall tk, tomb_get (k_tombs w') tk = if decide (tk = tomb_key (wr_col r) (wr_key r)) then Z.max (tomb_get (k_tombs w) tk) v else tomb_get (k_tombs w) tk) /\
  view (k_tab w') (wr_key r) =
    match view (k_tab w) (wr_key r) with Some (x, y, n) => if n >=? v then Some (x, y, n) else None | None => None end /\
  forall k, k <> wr_key r -> view (k_tab w') k = view (k_tab w) k.
Proof.
  intros Hw (Hk & Ht & He & _) Hv. cbv zeta. unfold delete_at, note_tomb. rewrite Hk, Ht, He.
  set (w1 := mk_work (k_tab w) (k_env w) _ (k_st w)). assert (work_ok w1) as Hw1 by done.
  assert (forall tk, tomb_get (k_tombs w1) tk = if decide (tk = tomb_key (wr_col r) (wr_key r)) then Z.max (tomb_get (k_tombs w) tk) v else tomb_get (k_tombs w) tk) as Htomb.
  { intros tk. simpl. rewrite tomb_get_note by done. case_decide; [by subst|done]. }
  rewrite has_newer_view by done. change (k_tab w1) with (k_tab w).
  destruct (view (k_tab w) (wr_key r)) as [[[x y] n]|] eqn:Ev.
  - destruct (n >=? v); [by split_and!|]. destruct (remove_view w1 (wr_key r) Hw1) as (H1 & H2 & H3 & H4 & H5).
    split_and!; try done. intros tk. by rewrite H2.
  - destruct (remove_view w1 (wr_key r) Hw1) as (H1 & H2 & H3 & H4 & H5). split_and!; try done. intros tk. by rewrite H2.
Qed.

(** ** The key's entry and tombstone follow the newest *)

Definition slot_step (vt : option (bytes * Z * Z) * Z) (o : entry) : option (bytes * Z * Z) * Z :=
  let '(v, t) := vt in
  match o with
  | (n, Some (val, x)) =>
      (if t >=? n then v
       else match v with Some (a, b, m) => if m >=? n then Some (a, b, m) else Some (val, x, n) | None => Some (val, x, n) end, t)
  | (n, None) => (match v with Some (a, b, m) => if m >=? n then Some (a, b, m) else None | None => None end, Z.max t n)
  end.

(** The newest entry [b] shows as [v], with the deletes up to [t]. *)
Definition slot_is (b : option entry) (vt : option (bytes * Z * Z) * Z) : Prop :=
  vt.1 = shown b /\ match b with None => vt.2 = 0 | Some (n, Some _) => 0 <= vt.2 <= n | Some (n, None) => vt.2 = n /\ 0 <= n end.

Lemma slot_step_is b vt o : slot_is b vt -> 0 <= o.1 -> (o.2 <> None -> 1 <= o.1) -> slot_is (better b o) (slot_step vt o).
Proof.
  destruct vt as [v t], o as [n [[val x]|]]; intros [Hv Ht] Hn Hu; simpl in *; subst v.
  - specialize (Hu ltac:(done)). destruct b as [[m [[val' x']|]]|]; simpl in *; unfold slot_is; rewrite ?Z.geb_leb, ?Z.gtb_ltb.
    + destruct (Z.leb_spec n t), (Z.leb_spec n m), (Z.ltb_spec m n); simpl; try lia; (split; [done|simpl; lia]).
    + destruct (Z.leb_spec n t), (Z.ltb_spec m n); simpl; try lia; (split; [done|simpl; lia]).
    + destruct (Z.leb_spec n t); simpl; try lia. split; [done|simpl; lia].
  - destruct b as [[m [[val' x']|]]|]; simpl in *; unfold slot_is; rewrite ?Z.geb_leb, ?Z.gtb_ltb.
    + destruct (Z.leb_spec n m), (Z.ltb_spec m n); simpl; try lia; (split; [done|simpl; lia]).
    + destruct (Z.ltb_spec m n); simpl; (split; [done|simpl; lia]).
    + split; [done|simpl; lia].
Qed.

(** A record of the log the specification speaks of. *)
Record vrec (now_wall now : Z) (r : wal_rec) : Prop := {
  vr_op : exists o, op_of now_wall now r = Some o /\ 0 <= o.1;
  vr_fit : oversize (zlen (wr_key r)) (zlen (wr_val r)) = false;
  vr_bytes : bytes_ok (wr_val r);
  vr_exp : let x := wall_to_ticks (wr_exp r) now_wall now in x <= 1 \/ now < x
}.

Lemma st_remove w k : k_st (w_remove w k) = k_st w.
Proof. unfold w_remove. by destruct (pcache_ht_remove _ _ _) as [[? ?] ?]. Qed.
Lemma st_setver w k v m : k_st (w_setver w k v m) = k_st w.
Proof. unfold w_setver. by destruct (pcache_ht_setver _ _ _ _ _) as [[? ?] ?]. Qed.
Lemma st_note w col key v rm : k_st (note_tomb w col key v rm) = k_st w.
Proof. unfold note_tomb. by destruct (t_key rm). Qed.

(** No record moves the marker. *)
Lemma data_marker w r now_wall rm : marker (k_st (replay_data w r now_wall rm)) = marker (k_st w).
Proof.
  assert (forall w, marker (k_st (applied w)) = marker (k_st w)) as Ha by done.
  assert (forall w, marker (k_st (older w)) = marker (k_st w)) as Ho by done.
  assert (forall w, marker (k_st (skipped w)) = marker (k_st w)) as Hs by done.
  assert (forall w v, marker (k_st (high w v)) = marker (k_st w)) as Hh by done.
  unfold replay_data, replay_upsert, replay_del, replay_touch.
  repeat case_match; rewrite ?Ha, ?Ho, ?Hs, ?Hh, ?st_setver, ?st_remove, ?st_note; simplify_eq; try done.
Qed.

Lemma wall_ticks_nonneg wall now_wall now : 0 <= wall_to_ticks wall now_wall now.
Proof. unfold wall_to_ticks. repeat case_match; try lia. apply Z.mod_pos_bound. lia. Qed.

Lemma op_cases now_wall now r o : op_of now_wall now r = Some o ->
  let x := wall_to_ticks (wr_exp r) now_wall now in
  (wr_type r = PC_WAL_T_UPSERT_V /\ wr_ver r <> 0 /\ x <> 1 /\ o = (wr_ver r, Some (wr_val r, x))) \/
  ((wr_type r = PC_WAL_T_DEL \/ wr_type r = PC_WAL_T_DEL_N) /\ o = (r64 (wr_val r), None) /\
   (zlen (wr_val r) = PC_WAL_DEL_VERLEN \/ (wr_type r = PC_WAL_T_DEL_N /\ zlen (wr_val r) = PC_WAL_DELN_VLEN))) \/
  (wr_type r = PC_WAL_T_TOUCH_V /\ wr_ver r <> 0 /\ x = 1 /\ o = (wr_ver r, None)).
Proof.
  cbv zeta. unfold op_of. set (x := wall_to_ticks _ _ _). intros H.
  destruct (Z.eqb_spec (wr_type r) PC_WAL_T_UPSERT_V) as [E|_]; simpl in H.
  { left. rewrite E in H. destruct (Z.eqb_spec (wr_ver r) 0), (Z.eqb_spec x 1); simpl in H; try done. by simplify_eq. }
  destruct (((wr_type r =? PC_WAL_T_DEL) || _) && _) eqn:E.
  { right. left. simplify_eq. apply andb_prop in E as [E1 E2]. apply orb_prop in E1, E2.
    rewrite andb_true_iff, !Z.eqb_eq in E2. rewrite !Z.eqb_eq in E1. done. }
  destruct (Z.eqb_spec (wr_type r) PC_WAL_T_TOUCH_V), (Z.eqb_spec (wr_ver r) 0), (Z.eqb_spec x 1); simpl in H; simplify_eq.
  right. right. done.
Qed.

(** A record's effect on the tables, the clock and the tombstones, without its counters. *)
Definition same_work w w' : Prop :=
  k_tab w' = k_tab w /\ k_env w' = k_env w /\ k_tombs w' = k_tombs w /\ marker (k_st w') = marker (k_st w).

Lemma delete_data w r now_wall rm v :
  (wr_type r = PC_WAL_T_TOUCH_V /\ wr_ver r <> 0 /\ wall_to_ticks (wr_exp r) now_wall (ticks (k_env w)) = 1 /\ v = wr_ver r) \/
  ((wr_type r = PC_WAL_T_DEL \/ wr_type r = PC_WAL_T_DEL_N) /\ v = r64 (wr_val r) /\
   (zlen (wr_val r) = PC_WAL_DEL_VERLEN \/ (wr_type r = PC_WAL_T_DEL_N /\ zlen (wr_val r) = PC_WAL_DELN_VLEN))) ->
  same_work (delete_at w r v rm) (replay_data w r now_wall rm).
Proof.
  assert (forall w k, same_work (w_remove w k) (applied (w_remove w k))) as Happ by done.
  intros [(Ht & Hv & Hx & ->)|(Ht & -> & Hl)]; unfold replay_data.
  - rewrite Hx, Ht. cbn. unfold replay_touch. rewrite Z.eqb_refl, (proj2 (Z.eqb_neq _ _)) by done. cbn [negb andb].
    unfold delete_at. by destruct (has_newer _ _ _).
  - assert (replay_data w r now_wall rm = replay_del w r rm) as E by (unfold replay_data; destruct Ht as [->| ->]; done).
    unfold replay_data in E. rewrite E. unfold replay_del. cbv zeta.
    assert (negb (zlen (wr_val r) =? PC_WAL_DEL_VERLEN) && negb ((wr_type r =? PC_WAL_T_DEL_N) && (zlen (wr_val r) =? PC_WAL_DELN_VLEN)) = false) as ->.
    { destruct Hl as [->|[-> ->]]; [done|]. by rewrite !Z.eqb_refl, andb_false_r. }
    unfold delete_at. by destruct (has_newer _ _ _).
Qed.

Lemma data_step w r now_wall rm o :
  work_ok w -> mem_ok rm -> vrec now_wall (ticks (k_env w)) r -> op_of now_wall (ticks (k_env w)) r = Some o ->
  let w' := replay_data w r now_wall rm in
  let tk := tomb_key (wr_col r) (wr_key r) in
  work_ok w' /\ ticks (k_env w') = ticks (k_env w) /\
  (view (k_tab w') (wr_key r), tomb_get (k_tombs w') tk) = slot_step (view (k_tab w) (wr_key r), tomb_get (k_tombs w) tk) o /\
  (forall k, k <> wr_key r -> view (k_tab w') k = view (k_tab w) k) /\
  (forall tk', tk' <> tk -> tomb_get (k_tombs w') tk' = tomb_get (k_tombs w) tk') /\
  marker (k_st w') = marker (k_st w).
Proof.
  intros Hw Hm [(o' & Ho' & Hn) Hfit Hb Hx] Ho. assert (o' = o) as -> by congruence. clear Ho'. cbv zeta in *.
  pose proof (op_cases _ _ _ _ Ho) as Hc. cbv zeta in Hc. set (x := wall_to_ticks _ _ _) in *.
  assert (forall v, o = (v, None) -> same_work (delete_at w r v rm) (replay_data w r now_wall rm) ->
    let w' := replay_data w r now_wall rm in let tk := tomb_key (wr_col r) (wr_key r) in
    work_ok w' /\ ticks (k_env w') = ticks (k_env w) /\
    (view (k_tab w') (wr_key r), tomb_get (k_tombs w') tk) = slot_step (view (k_tab w) (wr_key r), tomb_get (k_tombs w) tk) o /\
    (forall k, k <> wr_key r -> view (k_tab w') k = view (k_tab w) k) /\
    (forall tk', tk' <> tk -> tomb_get (k_tombs w') tk' = tomb_get (k_tombs w) tk') /\
    marker (k_st w') = marker (k_st w)) as Hdel.
  { intros v -> (Htab & Henv & Htombs & Hmk). cbv zeta. unfold work_ok. rewrite Htab, Henv, Htombs, Hmk.
    destruct (delete_view w r v rm Hw Hm Hn) as (H1 & H2 & H3 & H4 & H5). split_and!; try done; try apply H1.
    - rewrite H4, H3, decide_True by done. done.
    - intros tk' Htk. by rewrite H3, decide_False.
    - rewrite <- Hmk. apply data_marker. }
  destruct Hc as [(Ht & Hv & Hx1 & ->)|[(Ht & -> & Hl)|(Ht & Hv & Hx1 & ->)]].
  - pose proof (data_marker w r now_wall rm) as Hmk.
    assert (replay_data w r now_wall rm = replay_upsert w r x rm) as E by (unfold replay_data; fold x; by rewrite Ht). rewrite E in *.
    simpl in Hn. assert (x = 0 \/ ticks (k_env w) < x) as Hx'.
    { destruct Hx; [left|by right]. pose proof (wall_ticks_nonneg (wr_exp r) now_wall (ticks (k_env w))). lia. }
    destruct (upsert_view w r x rm Hw Hm Hb Hfit) as (H1 & H2 & H3 & H4 & H5); [lia|done|done|].
    split_and!; try done; [|by rewrite H2]. simpl. rewrite H2, H4. by destruct (_ >=? _).
  - apply (Hdel (r64 (wr_val r))); [done|]. apply delete_data. by right.
  - apply (Hdel (wr_ver r)); [done|]. apply delete_data. by left.
Qed.

(** ** A log *)

Record state_ok s : Prop := {
  so_tab : forall i c, rs_reg s !! i = Some c -> table_ok (c_tab c) /\ tab_live (c_tab c) (ticks (rs_env s)) /\ 0 ∉ c_name c
}.

(** Above the marker, in a durable collection. *)
Definition in_reach s (r : wal_rec) : Prop :=
  marker (rs_st s) < wr_seq r /\ exists i c, pc_store_find (rs_reg s) (wr_col r) = Some i /\ rs_reg s !! i = Some c /\ c_durable c = true.

Definition slot_of s (name key : bytes) : option (bytes * Z * Z) * Z :=
  (cview (rs_reg s) name key, tomb_get (rs_tombs s) (tomb_key name key)).

(** What the head of [replay_cb] leaves alone. *)
Lemma head_same s r rm :
  let s1 := count_ack (with_stats (settle_unknown s (wr_seq r)) (rs_seen (rs_st (settle_unknown s (wr_seq r))) (wr_seq r))) r rm in
  rs_reg s1 = rs_reg s /\ rs_env s1 = rs_env s /\ rs_tombs s1 = rs_tombs s /\ marker (rs_st s1) = marker (rs_st s).
Proof.
  cbv zeta. assert (rs_reg (settle_unknown s (wr_seq r)) = rs_reg s /\ rs_env (settle_unknown s (wr_seq r)) = rs_env s /\
    rs_tombs (settle_unknown s (wr_seq r)) = rs_tombs s /\ marker (rs_st (settle_unknown s (wr_seq r))) = marker (rs_st s)) as (H1 & H2 & H3 & H4).
  { unfold settle_unknown. by repeat case_match. }
  unfold count_ack. repeat case_match; simplify_eq; simpl; done.
Qed.

Lemma col_rec_op now_wall now r o : op_of now_wall now r = Some o -> is_col_rec (wr_type r) = false.
Proof. intros H%op_cases. unfold is_col_rec. destruct H as [(-> & _)|[([->| ->] & _)|(-> & _)]]; done. Qed.

Lemma cb_step now_wall s r rm o :
  state_ok s -> mem_ok rm -> in_reach s r -> vrec now_wall (ticks (rs_env s)) r -> op_of now_wall (ticks (rs_env s)) r = Some o ->
  exists s', replay_cb now_wall s (IRec r) rm = Some s' /\ state_ok s' /\ ticks (rs_env s') = ticks (rs_env s) /\
    (forall r', in_reach s r' -> in_reach s' r') /\ (forall name, pc_store_find (rs_reg s') name = pc_store_find (rs_reg s) name) /\
    forall name key i, pc_store_find (rs_reg s) name = Some i ->
      slot_of s' name key = if decide (wr_col r = name /\ wr_key r = key) then slot_step (slot_of s name key) o else slot_of s name key.
Proof.
  intros Hok Hm (Hseq & i & c & Hf & Hc & Hd) Hv Ho. unfold replay_cb.
  pose proof (head_same s r rm) as Hh. cbv zeta in Hh. set (s1 := count_ack _ _ _) in *. destruct Hh as (E1 & E2 & E3 & E4).
  cbv zeta. rewrite E4, (proj2 (Z.leb_gt _ _)) by lia. rewrite (col_rec_op _ _ _ _ Ho), E1, Hf, Hc, Hd. cbn [negb].
  set (w := mk_work (c_tab c) (rs_env s1) (rs_tombs s1) (rs_st s1)).
  destruct (so_tab s Hok i c Hc) as (Htab & Hlive & Hnul).
  destruct (data_step w r now_wall rm o) as (H1 & H2 & H3 & H4 & H5 & H6); [by split; simpl; rewrite ?E2|done|by simpl; rewrite E2|by simpl; rewrite E2|].
  set (w' := replay_data w r now_wall rm) in *. eexists. split; [reflexivity|]. simpl in H2, H6. rewrite E2 in H2.
  split_and!.
  - split. simpl. intros j c' Hj. apply lookup_set_tab in Hj as (c0 & Hj & -> & _ & ->). destruct (so_tab s Hok j c0 Hj) as (? & ? & ?).
    destruct (decide (j = i)); [split_and!; [apply H1|apply H1|done]|split_and!; [done|by rewrite H2|done]].
  - simpl. done.
  - intros r' (Hs' & j & c' & Hj & Hcj & Hdj). split; [simpl; rewrite H6; lia|]. simpl.
    destruct (decide (j = i)) as [->|].
    + exists i, (mk_coll (c_name c) (k_tab w') (c_durable c)). rewrite find_set_tab. split_and!; [done|by apply lookup_set_tab_eq|done].
    + exists j, c'. rewrite find_set_tab, lookup_set_tab_ne by done. done.
  - intros name. simpl. apply find_set_tab.
  - intros name key j Hj. destruct (find_lookup_col _ _ _ Hj) as (cj & Hcj & Hnj). destruct (find_lookup_col _ _ _ Hf) as (c2 & Hc2 & Hn2).
    assert (c2 = c) as -> by congruence. unfold slot_of, cview. simpl. rewrite find_set_tab, Hj, Hcj.
    assert (forall tk, tk <> tomb_key (wr_col r) (wr_key r) -> tomb_get (k_tombs w') tk = tomb_get (rs_tombs s) tk) as Ht
      by (intros; rewrite H5 by done; simpl; by rewrite E3).
    destruct (decide (j = i)) as [->|Hji].
    + assert (wr_col r = name) as -> by congruence. assert (cj = c) as -> by congruence. rewrite (lookup_set_tab_eq _ _ _ c) by done. simpl.
      destruct (decide (name = name /\ wr_key r = key)) as [[_ <-]|Hk].
      * assert (name = wr_col r) as -> by congruence. rewrite H3. simpl. by rewrite E3.
      * assert (key <> wr_key r) by naive_solver. rewrite H4 by done. f_equal. apply Ht. intros [_ ?]%tomb_key_inj; [done|congruence..].
    + rewrite lookup_set_tab_ne, Hcj by done. rewrite decide_False by (intros [? _]; congruence). f_equal.
      apply Ht. intros [? _]%tomb_key_inj; [congruence|rewrite <- Hnj; by apply (so_tab s Hok j cj)|rewrite <- Hn2; done].
Qed.

Definition log_ok now_wall s (l : list (wal_rec * rmem)) : Prop :=
  Forall (fun p => in_reach s p.1 /\ vrec now_wall (ticks (rs_env s)) p.1 /\ mem_ok p.2) l.

Definition as_items (l : list (wal_rec * rmem)) : list (wal_item * rmem) := (fun p => (IRec p.1, p.2)) <$> l.

Lemma replay_slots now_wall l : forall s, state_ok s -> log_ok now_wall s l ->
  exists s', replay now_wall s (as_items l) = Some s' /\ state_ok s' /\
    (forall name, pc_store_find (rs_reg s') name = pc_store_find (rs_reg s) name) /\
    forall name key i, pc_store_find (rs_reg s) name = Some i ->
      slot_of s' name key = foldl slot_step (slot_of s name key) (key_ops now_wall (ticks (rs_env s)) l.*1 name key).
Proof.
  induction l as [|[r rm] l IH]; intros s Hok Hl; [by exists s|].
  apply list.Forall_cons in Hl as [(Hr & Hv & Hm) Hl]. destruct (vr_op _ _ _ Hv) as (o & Ho & _). cbn [fst snd] in *.
  destruct (cb_step now_wall s r rm o Hok Hm Hr Hv Ho) as (s1 & E & Hok1 & Ht & Hreach & Hfind & Hslot).
  destruct (IH s1 Hok1) as (s' & E' & Hok' & Hfind' & Hslot').
  { eapply Forall_impl; [exact Hl|]. intros p (? & ? & ?). rewrite Ht. split_and!; auto. }
  exists s'. change (as_items ((r, rm) :: l)) with ((IRec r, rm) :: as_items l). cbn [replay]. rewrite E. cbn [mbind option_bind].
  split_and!; try done; [intros; by rewrite Hfind', Hfind|].
  intros name key i Hi. rewrite (Hslot' name key i) by (by rewrite Hfind). rewrite (Hslot name key i Hi), Ht.
  unfold key_ops. simpl. destruct (decide (wr_col r = name /\ wr_key r = key)); [rewrite Ho|]; done.
Qed.

(** The entries of a log have versions, an upsert's above 0. *)
Lemma key_ops_ok now_wall s l name key : log_ok now_wall s l ->
  Forall (fun o : entry => 0 <= o.1 /\ (o.2 <> None -> 1 <= o.1)) (key_ops now_wall (ticks (rs_env s)) l.*1 name key).
Proof.
  intros Hl. unfold key_ops. induction Hl as [|[r rm] l (_ & Hv & _) Hl IH]; simpl; [constructor|].
  case_decide; [|done]. destruct (vr_op _ _ _ Hv) as (o & Ho & Hn). simpl in Ho. rewrite Ho. constructor; [|done]. split; [done|].
  intros Hc. apply op_cases in Ho as [(_ & Hver & _ & ->)|[(_ & -> & _)|(_ & _ & _ & ->)]]; simpl in *; [lia|done|done].
Qed.

Lemma slots_newest ops : forall b vt, Forall (fun o : entry => 0 <= o.1 /\ (o.2 <> None -> 1 <= o.1)) ops ->
  slot_is b vt -> slot_is (foldl better b ops) (foldl slot_step vt ops).
Proof.
  induction ops as [|o ops IH]; intros b vt H Hs; [done|]. apply list.Forall_cons in H as [[H1 H2] H]. simpl. apply IH; [done|].
  by apply slot_step_is.
Qed.

Lemma replay_newest now_wall s l : state_ok s -> rs_tombs s = None -> log_ok now_wall s l ->
  exists s', replay now_wall s (as_items l) = Some s' /\
    forall name key i, pc_store_find (rs_reg s) name = Some i ->
      cview (rs_reg s') name key =
        newest (start_entry (cview (rs_reg s) name key) ++ key_ops now_wall (ticks (rs_env s)) l.*1 name key).
Proof.
  intros Hok Ht Hl. destruct (replay_slots now_wall l s Hok Hl) as (s' & E & _ & _ & Hs). exists s'. split; [done|].
  intros name key i Hi. specialize (Hs name key i Hi).
  assert (slot_is (best (start_entry (cview (rs_reg s) name key))) (slot_of s name key)) as H0.
  { unfold slot_of. rewrite Ht. unfold cview. rewrite Hi. destruct (find_lookup_col _ _ _ Hi) as (c & Hc & _). rewrite Hc.
    destruct (view (c_tab c) key) as [[[v x] n]|] eqn:Ev; [|done]. split; [done|]. simpl. destruct (so_tab s Hok i c Hc) as (_ & Hlive & _).
    destruct (Hlive _ _ _ _ Ev) as [_ ?]. lia. }
  apply (slots_newest _ _ _ (key_ops_ok now_wall s l name key Hl)) in H0. rewrite <- Hs in H0. destruct H0 as [H0 _].
  simpl in H0. rewrite H0. unfold newest, best. by rewrite foldl_app.
Qed.

Lemma key_ops_perm now_wall now (l l' : list wal_rec) name key : l ≡ₚ l' -> key_ops now_wall now l name key ≡ₚ key_ops now_wall now l' name key.
Proof. intros H. unfold key_ops. by apply omap_Permutation. Qed.


(** * The clock resumes above what came back *)

Definition vers_le (ht : pcache_htable) (B : Z) : Prop := forall k r, ht_lookup ht k = Some r -> ver r <= B.

Definition bounded w : Prop := table_ok (k_tab w) /\ vers_le (k_tab w) (ver_high (k_st w)).

Lemma high_max w v : ver_high (k_st (high w v)) = Z.max (ver_high (k_st w)) v.
Proof. simpl. destruct (Z.gtb_spec v (ver_high (k_st w))); lia. Qed.

Lemma vers_le_mono ht B B' : B <= B' -> vers_le ht B -> vers_le ht B'.
Proof. intros ? H k r Hk. specialize (H k r Hk). lia. Qed.

Lemma updates_vers ht ht' k v B : vers_le ht B -> ht_updates ht ht' k v -> (forall r, v = Some r -> ver r <= B) -> vers_le ht' B.
Proof. intros H [_ Hl] Hv k' r Hk. rewrite Hl in Hk. case_decide; [by apply Hv|by eapply H]. Qed.

Lemma remove_vers ht (e : wenv C) k below drop B : table_ok ht -> vers_le ht B ->
  table_ok (remove_impl ht e k below drop).1.2 /\ vers_le (remove_impl ht e k below drop).1.2 B.
Proof.
  intros Hok Hb. split; [by apply remove_impl_ok|]. pose proof (remove_outcome ht e k below drop (proj1 Hok)) as Ho.
  destruct (remove_impl _ _ _ _ _) as [[rc ht'] e']. simpl. destruct (ht_lookup ht k) as [o|]; [|by destruct Ho as (_ & -> & _)].
  destruct (_ && _); [by destruct Ho as (_ & -> & _)|]. destruct Ho as (_ & Hu & _). by eapply updates_vers.
Qed.

Lemma remove_bounded w k : bounded w -> bounded (w_remove w k).
Proof.
  intros [H1 H2]. unfold w_remove, pcache_ht_remove. pose proof (remove_vers (k_tab w) (k_env w) k 0 false _ H1 H2) as H.
  by destruct (remove_impl _ _ _ _ _) as [[rc ht'] e'].
Qed.

(** A version set after any change of its key. *)
Lemma setver_bounded w k v m B : table_ok (k_tab w) ->
  (forall k' r, k' <> k -> ht_lookup (k_tab w) k' = Some r -> ver r <= B) ->
  table_ok (k_tab (w_setver w k v m)) /\ vers_le (k_tab (w_setver w k v m)) (Z.max B v).
Proof.
  intros Hok Hb. unfold w_setver, pcache_ht_setver, drain_carry. cbn [drain_from main].
  pose proof (setver_outcome (k_tab w) k v (proj1 Hok)) as Ho. pose proof (setver_locked_ok (k_tab w) k v Hok) as Hok'.
  destruct (setver_locked _ _ _) as [rc ht']. cbn [fst snd drain_forget drain_from main k_tab] in *. split; [done|]. intros k' r Hk.
  destruct (ht_lookup (k_tab w) k) as [o|] eqn:El.
  - destruct Ho as [_ [_ Hl]]. rewrite Hl in Hk. destruct (decide (k' = k)); simplify_eq; [simpl; lia|]. specialize (Hb k' r ltac:(done) Hk). lia.
  - injection Ho as _ ->. destruct (decide (k' = k)) as [->|]; [congruence|]. specialize (Hb k' r ltac:(done) Hk). lia.
Qed.

(** What any store leaves of the versions, by its code. *)
Lemma store_vers ht (e : wenv C) q m B : table_ok ht -> req_ok q -> vers_le ht B ->
  let '(rc, t, _) := store_impl (mk_tabs ht None) e q m in
  table_ok (main t) /\ (rc <> 0 -> main t = ht) /\
  (forall k r, k <> skey q -> ht_lookup (main t) k = Some r -> ver r <= B) /\
  (use_ver q = true -> vers_le (main t) (Z.max B (sver q))).
Proof.
  intros Hok Hq Hb. rewrite store_impl_alone. destruct (oversize _ _) eqn:Hov.
  { simpl. split_and!; try done; [intros; by eapply Hb|intros _; eapply vers_le_mono; [|exact Hb]; lia]. }
  pose proof (store_locked_outcome ht e q (m_cell m) (m_node m) (proj1 Hok) (rq_bytes _ Hq) Hov) as Ho.
  pose proof (store_locked_ok ht e q (m_cell m) (m_node m) Hok Hq Hov) as Hok'.
  destruct (store_locked _ _ _ _ _) as [[rc ht'] e']. cbn [fst snd main] in *. split; [done|].
  assert ((rc <> 0 /\ ht' = ht) \/ (rc = 0 /\ exists old r, stored e q old r /\ ht_updates ht ht' (skey q) (Some r))) as [[Hr ->]|(-> & old & r & Hs & Hu)].
  { unfold store_outcome in Ho. destruct (ht_lookup ht (skey q)).
    - repeat case_match; destruct Ho as [-> Ho]; [by left| |by left]. right. destruct Ho as (r & ? & ?). split; [done|]. by eexists _, r.
    - destruct Ho as [(-> & -> & _)|(-> & _ & r & ? & ?)]; [by left|]. right. split; [done|]. by eexists _, r. }
  - split_and!; [done|intros; by eapply Hb|intros _; eapply vers_le_mono; [|exact Hb]; lia].
  - split_and!; [done| |].
    + intros k r' Hk Hl. rewrite (proj2 Hu), decide_False in Hl by done. by eapply Hb.
    + intros Huv. eapply updates_vers; [eapply vers_le_mono; [|exact Hb]; lia|exact Hu|]. intros ? [= <-].
      rewrite (st_ver _ _ _ _ Hs), Huv. lia.
Qed.

Lemma upsert_bounded w r exp rm : bounded w -> bytes_ok (wr_val r) -> bounded (replay_upsert w r exp rm).
Proof.
  intros [H1 H2] Hb. unfold replay_upsert. destruct (exp =? 1); [done|]. destruct (negb (wr_ver r =? 0)).
  - destruct (_ && _); [done|]. unfold pcache_ht_store_ver. set (q := mk_sreq _ _ _ _ _ _ _ _).
    assert (req_ok q) as Hq by (split; [done|apply carry_flags]).
    pose proof (store_vers (k_tab w) (k_env w) q (t_cells rm) _ H1 Hq H2) as Hs.
    destruct (store_impl _ _ _ _) as [[rc t] e]. destruct Hs as (S1 & S2 & _ & S4). specialize (S4 eq_refl). cbn [sver q] in S4.
    destruct (Z.eqb_spec rc PCACHE_E_OLDER); [split; [done|]; simpl; rewrite S2 by (subst; done); done|].
    destruct (Z.eqb_spec rc (-2)) as [->|].
    + simpl. unfold pcache_ht_drop_older. cbn [k_tab k_env]. rewrite S2 by done. destruct (wr_ver r =? 0); [by split|].
      pose proof (remove_vers (k_tab w) e (wr_key r) (wr_ver r) true _ H1 H2) as Hr. by destruct (remove_impl _ _ _ _ _) as [[? ?] ?].
    + destruct (Z.eqb_spec rc 0); [|split; [done|]; simpl; rewrite S2 by done; done].
      split; [done|]. change (ver_high (k_st (applied ?x))) with (ver_high (k_st x)). rewrite high_max. exact S4.
  - unfold pcache_ht_store_ex. set (q := mk_sreq _ _ _ _ _ _ _ _). assert (req_ok q) as Hq by (split; [done|apply carry_flags]).
    pose proof (store_vers (k_tab w) (k_env w) q (t_cells rm) _ H1 Hq H2) as Hs.
    destruct (store_impl _ _ _ _) as [[rc t] e]. destruct Hs as (S1 & S2 & S3 & _). set (w1 := mk_work (main t) e _ _).
    destruct (Z.eqb_spec rc 0); [|split; [done|]; simpl; rewrite S2 by done; done].
    destruct (setver_bounded w1 (wr_key r) (wr_ver r) (t_cells rm) (ver_high (k_st w)) S1 S3) as [T1 T2].
    split; [done|]. change (ver_high (k_st (applied ?x))) with (ver_high (k_st x)). rewrite high_max, st_setver. exact T2.
Qed.

Lemma note_bounded w col key v rm : bounded w -> bounded (note_tomb w col key v rm).
Proof. unfold note_tomb. by destruct (t_key rm). Qed.

Lemma high_bounded w v : bounded w -> bounded (high w v).
Proof. intros [H1 H2]. split; [done|]. rewrite high_max. eapply vers_le_mono; [|exact H2]. lia. Qed.

Lemma del_bounded w r rm : bounded w -> bounded (replay_del w r rm).
Proof.
  intros Hw. unfold replay_del. destruct (_ && _); [by apply (remove_bounded w)|]. cbv zeta.
  destruct (has_newer _ _ _); [by apply (note_bounded w)|]. by apply (high_bounded (w_remove _ _)), remove_bounded, note_bounded.
Qed.

Lemma touch_bounded w r exp rm : bounded w -> wr_ver r <> 0 -> bounded (replay_touch w r exp rm).
Proof.
  intros Hw Hv. unfold replay_touch. rewrite (proj2 (Z.eqb_neq (wr_ver r) 0)) by done. cbn [negb]. rewrite andb_true_r.
  destruct (exp =? 1).
  { destruct (has_newer _ _ _); [by apply (note_bounded w)|by apply (remove_bounded (note_tomb _ _ _ _ _)), note_bounded]. }
  destruct (true && has_newer _ _ _); [done|]. destruct Hw as [H1 H2].
  unfold pcache_ht_touch, touch_inner, drain_carry. cbn [drain_from main].
  pose proof (touch_outcome (k_tab w) (k_env w) (wr_key r) exp false (proj1 H1)) as Ho.
  pose proof (touch_locked_ok (k_tab w) (k_env w) (wr_key r) exp false H1) as Hok.
  destruct (touch_locked _ _ _ _ _) as [[[rc ht'] e'] was]. cbn [fst snd drain_forget drain_from main] in *. rewrite andb_true_r.
  destruct (ht_lookup (k_tab w) (wr_key r)) as [o|] eqn:El.
  - destruct Ho as (-> & r' & _ & Hu & _). simpl. set (w1 := mk_work ht' e' _ _).
    destruct (setver_bounded w1 (wr_key r) (wr_ver r) (t_cells rm) (ver_high (k_st w)) Hok) as [T1 T2].
    { intros k' r0 Hk Hl. simpl in Hl. rewrite (proj2 Hu), decide_False in Hl by done. by eapply H2. }
    split; [done|]. change (ver_high (k_st (applied ?x))) with (ver_high (k_st x)). rewrite high_max, st_setver. exact T2.
  - injection Ho as -> -> -> _. by split.
Qed.

(** Bytes, and a touch with its version: what every log since versions came holds. *)
Definition item_ok (it : wal_item) : Prop :=
  match it with
  | IRec r => bytes_ok (wr_val r) /\ (wr_type r = PC_WAL_T_TOUCH \/ wr_type r = PC_WAL_T_TOUCH_V -> wr_ver r <> 0)
  | IUnknown _ => True
  end.

Lemma data_bounded w r now_wall rm : bounded w -> item_ok (IRec r) -> bounded (replay_data w r now_wall rm).
Proof.
  intros Hw [Hb Ht]. unfold replay_data. destruct (_ || _); [by apply upsert_bounded|]. destruct (_ || _); [by apply del_bounded|].
  destruct ((wr_type r =? PC_WAL_T_TOUCH) || _) eqn:E; [|done]. apply touch_bounded; [done|]. apply Ht. apply orb_prop in E.
  by rewrite !Z.eqb_eq in E.
Qed.

Definition all_bounded s : Prop :=
  forall i c, rs_reg s !! i = Some c -> table_ok (c_tab c) /\ vers_le (c_tab c) (ver_high (rs_st s)).

Lemma head_high s r rm :
  let s1 := count_ack (with_stats (settle_unknown s (wr_seq r)) (rs_seen (rs_st (settle_unknown s (wr_seq r))) (wr_seq r))) r rm in
  ver_high (rs_st s1) = ver_high (rs_st s).
Proof.
  cbv zeta. assert (ver_high (rs_st (settle_unknown s (wr_seq r))) = ver_high (rs_st s)) as H by (unfold settle_unknown; by repeat case_match).
  unfold count_ack. repeat case_match; simplify_eq; simpl; done.
Qed.

(** No record lowers [ver_high]. *)
Lemma data_high w r now_wall rm : ver_high (k_st w) <= ver_high (k_st (replay_data w r now_wall rm)).
Proof.
  assert (forall w, ver_high (k_st (applied w)) = ver_high (k_st w)) as Ha by done.
  assert (forall w, ver_high (k_st (older w)) = ver_high (k_st w)) as Ho by done.
  assert (forall w, ver_high (k_st (skipped w)) = ver_high (k_st w)) as Hs by done.
  unfold replay_data, replay_upsert, replay_del, replay_touch.
  repeat case_match; rewrite ?Ha, ?Ho, ?Hs, ?high_max, ?st_setver, ?st_remove, ?st_note; simplify_eq; simpl; lia.
Qed.

Lemma cb_bounded now_wall s it rm s' : all_bounded s -> item_ok it -> replay_cb now_wall s it rm = Some s' -> all_bounded s'.
Proof.
  intros Hb Hit E. destruct it as [r|ty]; simpl in E.
  2: { injection E as <-. intros i c Hc. simpl in *. destruct (Hb i c Hc). split; [done|]. by case_match. }
  pose proof (head_same s r rm) as Hh. pose proof (head_high s r rm) as Hv. cbv zeta in *.
  set (s1 := count_ack _ _ _) in *. destruct Hh as (E1 & _).
  assert (all_bounded s1) as Hb1 by (intros i c Hc; rewrite E1 in Hc; rewrite Hv; by apply (Hb i c)).
  destruct (_ <=? _); [by injection E as <-|]. destruct (is_col_rec _); [done|].
  destruct (pc_store_find _ _) as [i|]; [|by injection E as <-]. destruct (rs_reg s1 !! i) as [c|] eqn:Ec; [|done].
  destruct (negb (c_durable c)); [by injection E as <-|]. injection E as <-.
  set (w := mk_work (c_tab c) (rs_env s1) (rs_tombs s1) (rs_st s1)). destruct (Hb1 i c Ec) as [T1 T2].
  destruct (data_bounded w r now_wall rm ltac:(done) Hit) as [D1 D2]. pose proof (data_high w r now_wall rm) as Hle.
  intros j c' Hj. simpl in *. apply lookup_set_tab in Hj as (c0 & Hj & _ & _ & ->). destruct (decide (j = i)); [done|].
  destruct (Hb1 j c0 Hj). split; [done|]. by eapply vers_le_mono.
Qed.

Lemma replay_bounded now_wall l : forall s s', all_bounded s -> Forall (fun p => item_ok p.1) l -> replay now_wall s l = Some s' -> all_bounded s'.
Proof.
  induction l as [|[it rm] l IH]; intros s s' Hb Hl E; [by injection E as <-|]. apply list.Forall_cons in Hl as [Hi Hl]. cbn [replay] in E.
  destruct (replay_cb now_wall s it rm) as [s1|] eqn:E1; [|done]. cbn [mbind option_bind] in E. by eapply IH, E; [eapply cb_bounded|].
Qed.

Context {LL : LamportLaws C}.

(** The clock resumes above the data.  Whatever the log holds (records of unknown
    types, unversioned ones, deletes, refusals for lack of memory) and wherever its
    records lie, a recovery that starts from tables within [ver_high] ends with every
    table well formed and every record's version at most the new [ver_high], and the
    first number the restored clock gives to any thread is above all of them: no
    write after a restart compares older than what the restart brought back. *)
Theorem recover_clock_above (now_wall : Z) (s s' : rstate (C := C)) (l : list (wal_item * rmem)) (skip : bool) (t : nat)
    (Hs : all_bounded s) (Hl : Forall (fun p => item_ok p.1) l) (Hrun : recover_tail now_wall s l skip = Some (Some s'))
    (Hclk : 0 <= pc_lamport_now (clk (rs_env s')) /\ pc_lamport_top (clk (rs_env s')) < 2 ^ 64 - 1) :
  forall i c, rs_reg s' !! i = Some c -> table_ok (c_tab c) /\
    forall k r, ht_lookup (c_tab c) k = Some r -> ver r <= ver_high (rs_st s') /\ ver r < (pc_lamport_tick t (clk (rs_env s'))).1.
Proof.
  unfold recover_tail in Hrun. destruct (replay _ _ l) as [s1|] eqn:E; [|done]. cbn [mbind option_bind] in Hrun.
  apply replay_bounded in E; [|done|done]. destruct (_ && _); [done|]. injection Hrun as <-. cbn [rs_reg rs_env rs_st clk set_clk rs_unknown ver_high] in *.
  intros i c Hc. destruct (E i c Hc) as [H1 H2]. split; [done|]. intros k r Hk. specialize (H2 k r Hk). split; [done|].
  pose proof (tick_above t _ (proj1 Hclk) (proj2 Hclk)). destruct (restore_reaches (ver_high (rs_st s1)) (clk (rs_env s1))) as [H3 _]. lia.
Qed.
End ReplayLaws.

(** * Runs *)

Import Runs.

Definition rm0 : rmem := mk_rmem true true true m0 true.
Definition r_start : rstate (C := shared_clock) := mk_rst [mk_coll [99] ht0 true] e0 None None 0 rs_zero.
Definition r_set (v : bytes) (wall seq n : Z) : wal_rec := mk_wal PC_WAL_T_UPSERT_V [99] kA v wall seq n 0.
Definition r_del (seq n : Z) : wal_rec := mk_wal PC_WAL_T_DEL [99] kA (w64 n) 0 seq 0 0.
Definition r_touch (wall seq n : Z) : wal_rec := mk_wal PC_WAL_T_TOUCH_V [99] kA [] wall seq n 0.

Lemma r_start_ok : state_ok r_start.
Proof.
  split. intros [|i] c Hc; [|done]. injection Hc as <-. split_and!; [apply ht0_ok| |].
  - intros k v x n. unfold view. simpl. by rewrite ht0_empty.
  - intros H. by apply list_elem_of_singleton in H.
Qed.


Definition r_log : list (wal_item * rmem) := [(IRec (r_set [7] 0 7 75), rm0); (IUnknown 40, rm0)].
Definition r_end : rstate (C := shared_clock) :=
  match recover_tail 1000 r_start r_log true with Some (Some s) => s | _ => r_start end.
Definition r_col : coll := default (mk_coll [] ht0 true) (rs_reg r_end !! 0%nat).

Lemma recover_clock_above_witness :
  (ver <$> ht_lookup (c_tab r_col) kA) = Some 75 /\ 75 < (pc_lamport_tick 0%nat (clk (rs_env r_end))).1.
Proof.
  assert (ver <$> ht_lookup (c_tab r_col) kA = Some 75) as H by (vm_compute; reflexivity). split; [exact H|].
  destruct (ht_lookup (c_tab r_col) kA) as [r|] eqn:Er; [|discriminate]. injection H as Hr. rewrite <- Hr.
  refine (proj2 (proj2 (recover_clock_above 1000 r_start r_end r_log true 0%nat _ _ _ _ 0%nat r_col _) kA r Er)).
  - intros [|i] c Hc; [|done]. injection Hc as <-. split; [apply ht0_ok|]. intros k r'. by rewrite ht0_empty.
  - repeat constructor; [cbn; lia|intros [H1|H1]; discriminate].
  - vm_compute. reflexivity.
  - vm_compute. split; congruence.
  - vm_compute. reflexivity.
Defined.

(** A value overwritten by one with a deadline comes back when the deadline passed
    before the restart: the expired write is skipped, and not remembered as the touch
    of an expired key is. *)
Example replay_expired_overwrite :
  (fun s' => cview (rs_reg s') [99] kA) <$>
    replay 1000 r_start (as_items [(r_set [1] 0 7 60, rm0); (r_set [2] 500 8 70, rm0)]) = Some (Some ([1], 0, 60)) /\
  (fun s' => cview (rs_reg s') [99] kA) <$>
    replay 1000 r_start (as_items [(r_set [1] 0 7 60, rm0); (r_touch 500 8 70, rm0)]) = Some None.
Proof. vm_compute. done. Qed.

(** A touch logged ahead of the write it follows is lost: the key is restored
    without its deadline, where the order of the versions keeps it. *)
Example replay_touch_lost :
  (fun s' => cview (rs_reg s') [99] kA) <$>
    replay 1000 r_start (as_items [(r_touch 2000 7 70, rm0); (r_set [1] 0 8 60, rm0)]) = Some (Some ([1], 0, 60)) /\
  (fun s' => cview (rs_reg s') [99] kA) <$>
    replay 1000 r_start (as_items [(r_set [1] 0 7 60, rm0); (r_touch 2000 8 70, rm0)]) = Some (Some ([1], 1100, 70)).
Proof. vm_compute. done. Qed.
