(* ===== verification/Rdb.v ===== *)
(** The snapshot file ([rdb.c], [rdb_load] of [recover.c]).

    [rdb_save] streams every durable collection through a 64 KB buffer into a
    temporary file, a checksum over all of it last; [rdb_load] checks magic, format
    and checksum and stores the records, each under its own version.  The writer's
    state is [wr], the file's bytes [w_out]; what each flush's [write] calls answer
    is the list [w_io] (nothing left: they succeed).  The walk of a table is the list
    of records it hands over.  The rate limit, the rename and the directory sync are
    outside.  The loader reads by offset in the file and answers [Oob] where it would
    leave it.

    The specification of a file is its list of items ([ritem]). *)

From Stdlib Require Import ZArith Lia.
From stdpp Require Import base tactics list numbers gmap.
From S2P Require Import Prelude Clack HtBase HtChain Lamport HtTable HtGrow HtApi Crc32c WalFmt Recover.

Definition PC_RDB_MAGIC : Z := 0x44524350.
Definition PC_RDB_FMT : Z := 3.
Definition PC_RDB_RHDR (fmt : Z) : Z := if fmt >=? 3 then 25 else if fmt >=? 2 then 24 else 16.
Definition WBUF : Z := 65536.                  (* sizeof w->buf *)

(** * The buffered writer *)

Record wr := mk_wr { w_out : bytes; w_buf : bytes; w_crc : Z; w_total : Z; w_failed : bool; w_io : list (option nat) }.

(** [Some k]: k bytes went out, then [write] failed; the buffer keeps its bytes. *)
Definition wr_flush (w : wr) : wr :=
  match w_io w with
  | Some k :: io => mk_wr (w_out w ++ take k (w_buf w)) (w_buf w) (w_crc w) (w_total w) true io
  | None :: io => mk_wr (w_out w ++ w_buf w) [] (w_crc w) (w_total w) (w_failed w) io
  | [] => mk_wr (w_out w ++ w_buf w) [] (w_crc w) (w_total w) (w_failed w) []
  end.

(** The loop of [wr_put]; [None]: not done in this many turns.  A turn takes a byte or
    an answer of [write]. *)
Fixpoint put_loop (fuel : nat) (w : wr) (b : bytes) : option wr :=
  match b with
  | [] => Some w
  | _ =>
      match fuel with
      | O => None
      | S fuel =>
          let room := WBUF - zlen (w_buf w) in
          let c := if zlen b <? room then zlen b else room in
          let w := mk_wr (w_out w) (w_buf w ++ ztake c b) (w_crc w) (w_total w) (w_failed w) (w_io w) in
          put_loop fuel (if zlen (w_buf w) =? WBUF then wr_flush w else w) (zdrop c b)
      end
  end.

Definition wr_put (w : wr) (p : bytes) : option wr :=
  put_loop (S (length p + length (w_io w)))
    (mk_wr (w_out w) (w_buf w) (crc32c_sw (w_crc w) p) (w_total w + zlen p) (w_failed w) (w_io w)) p.

Definition put8 (w : wr) (v : Z) : option wr := wr_put w [u8 v].
Definition put32 (w : wr) (v : Z) : option wr := wr_put w (w32 v).
Definition put64 (w : wr) (v : Z) : option wr := w ← put32 w (u32 v); put32 w (u32 (Z.shiftr v 32)).

(** * Saving *)

(** What the walk hands over of a record: [key], [val] and [pcache_rec_meta]. *)
Record smeta := mk_sm { sm_key : bytes; sm_val : bytes; sm_exp : Z; sm_ver : Z; sm_flags : Z }.

Record walk_ctx := mk_wc { now_ticks : Z; now_wall : Z; other : option (bytes -> option Z); other_old : bool }.

(** Expired, or the other table of a draining resize has the copy that counts. *)
Definition walk_skips (c : walk_ctx) (r : smeta) : bool :=
  (negb (sm_exp r =? 0) && (sm_exp r <=? now_ticks c)) ||
  match other c with
  | None => false
  | Some getver => match getver (sm_key r) with
                   | Some ov => if other_old c then ov >? sm_ver r else ov >=? sm_ver r
                   | None => false end
  end.

Definition walk_wall (c : walk_ctx) (r : smeta) : Z :=
  if sm_exp r =? 0 then 0 else u64 (now_wall c + u32 (sm_exp r - now_ticks c)).

Definition put_rec (c : walk_ctx) (w : wr) (r : smeta) : option wr :=
  w ← put8 w 2;
  w ← put32 w (u32 (zlen (sm_key r)));
  w ← put32 w (u32 (zlen (sm_val r)));
  w ← put64 w (walk_wall c r);
  w ← put64 w (sm_ver r);
  w ← put8 w (Z.land (sm_flags r) PCACHE_F_CARRY);
  w ← wr_put w (sm_key r);
  wr_put w (sm_val r).

(** [None] here is a writer that does not return; [Some (false, w)] ends the walk. *)
Definition walk_cb (c : walk_ctx) (w : wr) (r : smeta) : option (bool * wr) :=
  if w_failed w then Some (false, w)
  else if walk_skips c r then Some (true, w)
  else w ← put_rec c w r; Some (true, w).

Fixpoint walk (c : walk_ctx) (w : wr) (l : list smeta) : option wr :=
  match l with
  | [] => Some w
  | r :: l => p ← walk_cb c w r; if (p.1 : bool) then walk c p.2 l else Some p.2
  end.

(** A registry slot at the save: its table's records, a drained one's when a resize
    is under way, and the versions either answers. *)
Record scol := mk_sc {
  sc_name : bytes; sc_live : bool; sc_durable : bool;
  sc_new : list smeta; sc_old : option (list smeta);
  sc_newver : bytes -> option Z; sc_oldver : bytes -> option Z
}.

Definition save_col (nt nw : Z) (w : wr) (c : scol) : option wr :=
  if negb (sc_live c) || negb (sc_durable c) then Some w
  else
    w ← put8 w 1;
    w ← put8 w (zlen (sc_name c));
    w ← wr_put w (sc_name c);
    match sc_old c with
    | None => walk (mk_wc nt nw None true) w (sc_new c)
    | Some old =>
        w ← walk (mk_wc nt nw (Some (sc_newver c)) false) w old;
        walk (mk_wc nt nw (Some (sc_oldver c)) true) w (sc_new c)
    end.

Fixpoint save_cols (nt nw : Z) (w : wr) (l : list scol) : option wr :=
  match l with
  | [] => Some w
  | c :: l => if w_failed w then Some w else w ← save_col nt nw w c; save_cols nt nw w l
  end.

(** The last four bytes, outside the checksum. *)
Definition put_crc (w : wr) : wr :=
  let b := w32 (w_crc w) in
  let w := if zlen (w_buf w) + 4 >? WBUF then wr_flush w else w in
  mk_wr (w_out w) (w_buf w ++ b) (w_crc w) (w_total w + 4) (w_failed w) (w_io w).

(** Everything the checksum covers. *)
Definition save_body (w : wr) (last_seq wall nt nw : Z) (cols : list scol) : option wr :=
  w ← put32 w PC_RDB_MAGIC;
  w ← put32 w PC_RDB_FMT;
  w ← put64 w last_seq;
  w ← put64 w wall;
  w ← save_cols nt nw w cols;
  put8 w 0xFF.

(** [rdb_save] up to the sync of the temporary file: its bytes, or [inr] when a write
    failed and the file is removed. *)
Definition rdb_save (io : list (option nat)) (last_seq wall nt nw : Z) (cols : list scol) : option (bytes + unit) :=
  w ← save_body (mk_wr [] [] 0 0 false io) last_seq wall nt nw cols;
  let w := wr_flush (put_crc w) in
  Some (if w_failed w then inr tt else inl (w_out w)).

(** * Loading *)

Definition rd32 (data : bytes) (off : Z) : outcome Z := let! b := sub_at data off 4 in Ret (r32 b).
Definition rd64 (data : bytes) (off : Z) : outcome Z := let! b := sub_at data off 8 in Ret (r64 b).

Section Load.
Context {C : Type} `{LC : Lamport C}.

(** The loader's place: the collection's slot, [None] when it has none to fill, and
    whether that is for being a cache. *)
Record lstate := mk_ls { l_s : rstate (C := C); l_ht : option nat; l_cache : bool }.

Definition load_stats (s : rstate) (st : pc_recover_stats) : rstate (C := C) :=
  mk_rst (rs_reg s) (rs_env s) (rs_tombs s) (rs_ack s) (rs_unk s) st.

Definition load_col (ls : lstate) (name : bytes) : lstate :=
  let s := l_s ls in
  match pc_store_find (rs_reg s) name with
  | None => mk_ls (load_stats s (rs_rdb (rs_st s) 0 0 1 0)) None false
  | Some i =>
      let durable := match rs_reg s !! i with Some c => c_durable c | None => true end in
      mk_ls s (if durable then Some i else None) (negb durable)
  end.

Definition load_rec (now_wall : Z) (ls : lstate) (key val : bytes) (wall v fl : Z) (m : mem) : lstate :=
  let s := l_s ls in
  match l_ht ls with
  | None => if l_cache ls then mk_ls (load_stats s (rs_rdb (rs_st s) 0 0 0 1)) (l_ht ls) (l_cache ls) else ls
  | Some i =>
      let exp := wall_to_ticks wall now_wall (ticks (rs_env s)) in
      if exp =? 1 then mk_ls (load_stats s (rs_rdb (rs_st s) 0 1 0 0)) (l_ht ls) (l_cache ls)
      else
        match rs_reg s !! i with
        | None => ls
        | Some c =>
            let '(rc, t, e) := pcache_ht_store_ex (mk_tabs (c_tab c) None) (rs_env s) key val exp fl m in
            if rc =? 0 then
              let '(_, t, e) := pcache_ht_setver t e key v m in
              mk_ls (mk_rst (set_tab (rs_reg s) i (main t)) e (rs_tombs s) (rs_ack s) (rs_unk s)
                       (rs_rdb (rs_high (rs_st s) v) 1 0 0 0)) (l_ht ls) (l_cache ls)
            else
              mk_ls (mk_rst (set_tab (rs_reg s) i (main t)) e (rs_tombs s) (rs_ack s) (rs_unk s) (rs_st s)) (l_ht ls) (l_cache ls)
        end
  end.

(** The loop over the items, [end_] being [n - 4]; the [Z] is the return code. *)
Fixpoint load_loop (fuel : nat) (now_wall fmt : Z) (data : bytes) (end_ off : Z) (m : Z -> mem) (ls : lstate) : outcome (Z * lstate) :=
  if off <? end_ then
    match fuel with
    | O => Rej
    | S fuel =>
        let! tag := byte_at data off in
        let off := off + 1 in
        if tag =? 0xFF then Ret (0, ls)
        else if tag =? 1 then
          let! cl := byte_at data off in
          let! name := sub_at data (off + 1) cl in
          load_loop fuel now_wall fmt data end_ (off + (1 + cl)) m (load_col ls name)
        else if tag =? 2 then
          let! kl := rd32 data off in
          let! vl := rd32 data (off + 4) in
          let! wall := rd64 data (off + 8) in
          let! v := (if fmt >=? 2 then rd64 data (off + 16) else Ret 0) in
          let! fl := (if fmt >=? 3 then let! f := byte_at data (off + 24) in Ret (Z.land f PCACHE_F_CARRY) else Ret 0) in
          let off := off + PC_RDB_RHDR fmt in
          let! key := sub_at data off kl in
          let! val := sub_at data (off + kl) vl in
          load_loop fuel now_wall fmt data end_ (off + u32 (kl + vl)) m (load_rec now_wall ls key val wall v fl (m off))
        else Ret (-1, ls)
    end
  else Ret (0, ls).

Definition rs_header (st : pc_recover_stats) (mk wall newer : Z) : pc_recover_stats :=
  mk_rs (last_seq st) mk (ver_high st) (rdb_ok st) wall newer
    (rdb_records st) (rdb_skipped_expired st) (rdb_skipped_nocol st) (rdb_skipped_cache st)
    (wal_applied st) (wal_below_marker st) (wal_skipped st) (wal_skipped_cache st) (wal_older st)
    (wal_unknown st) (wal_unknown_covered st) (wal_unknown_type st) (ack_replayed st).

(** [rdb_load]: 1 no file, -1 not a snapshot, -2 a newer format, 0 loaded. *)
Definition rdb_load (file : option bytes) (now_wall : Z) (m : Z -> mem) (s : rstate) : outcome (Z * rstate (C := C)) :=
  match file with
  | None => Ret (1, s)
  | Some data =>
      let n := zlen data in
      if n <? 28 then Ret (-1, s)
      else
        let! fmt := rd32 data 4 in
        let! magic := rd32 data 0 in
        let st := rs_st s in
        if (magic =? PC_RDB_MAGIC) && (fmt >? PC_RDB_FMT) then
          Ret (-2, load_stats s (rs_header st (marker st) (rdb_wall st) fmt))
        else
          let! crc := rd32 data (n - 4) in
          if negb (magic =? PC_RDB_MAGIC) || (fmt <? 1) || negb (crc32c_sw 0 (ztake (n - 4) data) =? crc) then Ret (-1, s)
          else
            let! mk := rd64 data 8 in
            let! wall := rd64 data 16 in
            let s := load_stats s (rs_header st mk wall (rdb_fmt_newer st)) in
            let! r := load_loop (length data) now_wall fmt data (n - 4) 24 m (mk_ls s None false) in
            Ret (r.1, l_s r.2)
  end.
End Load.

(** * The writer appends *)

(** From [w] the stream gained [s]; every write succeeded. *)
Record adds (w : wr) (s : bytes) (w' : wr) : Prop := {
  a_out : w_out w' ++ w_buf w' = w_out w ++ w_buf w ++ s;
  a_buf : zlen (w_buf w') < WBUF;
  a_crc : w_crc w' = crc32c_sw (w_crc w) s;
  a_failed : w_failed w' = w_failed w;
  a_io : w_io w' = []
}.

Definition wr_ok (w : wr) : Prop := zlen (w_buf w) < WBUF /\ is_u32 (w_crc w) /\ w_failed w = false /\ w_io w = [].

Lemma put_loop_ok fuel : forall w b, w_io w = [] -> zlen (w_buf w) < WBUF -> (length b < fuel)%nat ->
  exists w', put_loop fuel w b = Some w' /\ w_out w' ++ w_buf w' = w_out w ++ w_buf w ++ b /\ zlen (w_buf w') < WBUF /\
    w_crc w' = w_crc w /\ w_failed w' = w_failed w /\ w_io w' = [].
Proof.
  induction fuel as [|fuel IH]; intros w b Hio Hb Hf; [lia|]. destruct b as [|x b]; [exists w; simpl; by rewrite app_nil_r|].
  cbn [put_loop]. set (room := WBUF - zlen (w_buf w)). set (c := if zlen (x :: b) <? room then zlen (x :: b) else room).
  assert (0 < c <= zlen (x :: b) /\ c <= room) as Hc.
  { subst c. pose proof (zlen_nonneg b). rewrite zlen_cons. destruct (Z.ltb_spec (1 + zlen b) room); subst room; lia. }
  pose proof (zlen_nonneg (w_buf w)).
  assert (zlen (ztake c (x :: b)) = c) as Hlen by (rewrite zlen_ztake; lia).
  assert ((length (zdrop c (x :: b)) < fuel)%nat) as Hlt by (unfold zdrop; rewrite length_drop; cbn [length] in *; lia).
  set (w1 := mk_wr _ (w_buf w ++ ztake c (x :: b)) _ _ _ _).
  set (w2 := if zlen (w_buf w1) =? WBUF then wr_flush w1 else w1).
  assert (w_io w2 = [] /\ zlen (w_buf w2) < WBUF /\ w_out w2 ++ w_buf w2 = w_out w ++ w_buf w ++ ztake c (x :: b) /\
    w_crc w2 = w_crc w /\ w_failed w2 = w_failed w) as (G1 & G2 & G3 & G4 & G5).
  { subst w2. assert (zlen (w_buf w1) = zlen (w_buf w) + c) as Hl1 by (simpl; rewrite zlen_app; lia).
    destruct (Z.eqb_spec (zlen (w_buf w1)) WBUF).
    - unfold wr_flush. cbn [w_io w1]. rewrite Hio. simpl. by rewrite app_nil_r.
    - simpl. rewrite Hio. split_and!; try done. subst room. simpl in *. lia. }
  destruct (IH w2 (zdrop c (x :: b)) G1 G2 Hlt) as (w' & E & E1 & E2 & E3 & E4 & E5).
  exists w'. rewrite E. split_and!; try done; try congruence. rewrite E1, app_assoc, G3, <- !app_assoc. by rewrite ztake_zdrop.
Qed.

Lemma wr_put_adds w p : wr_ok w -> bytes_ok p -> exists w', wr_put w p = Some w' /\ adds w p w' /\ wr_ok w'.
Proof.
  intros (Hb & Hc & Hf & Hio) Hp. unfold wr_put.
  destruct (put_loop_ok (S (length p + length (w_io w)))
    (mk_wr (w_out w) (w_buf w) (crc32c_sw (w_crc w) p) (w_total w + zlen p) (w_failed w) (w_io w)) p) as (w' & E & E1 & E2 & E3 & E4 & E5);
    [done|done|lia|].
  exists w'. split; [done|]. simpl in *. split; [by split|]. split_and!; try done; [|congruence]. rewrite E3.
  rewrite crc32c_sw_eq by done. unfold crc_ref. apply crc_not_u32, foldl_step_u32; [by apply crc_not_u32|done].
Qed.

Lemma adds_nil w : wr_ok w -> adds w [] w.
Proof.
  intros (? & Hc & ? & ?). split; try done; [by rewrite app_nil_r|]. rewrite crc32c_sw_eq by (done || constructor). unfold crc_ref. simpl.
  by rewrite crc_not_not.
Qed.

Lemma adds_app w s w1 t w2 : wr_ok w -> bytes_ok s -> bytes_ok t -> adds w s w1 -> adds w1 t w2 -> adds w (s ++ t) w2.
Proof.
  intros (_ & Hc & _) Hs Ht [a1 b1 c1 d1 e1] [a2 b2 c2 d2 e2]. split; try done; [|rewrite c2, c1|congruence].
  - by rewrite a2, app_assoc, a1, <- !app_assoc.
  - rewrite (crc32c_sw_eq (w_crc w) s), (crc32c_sw_eq (w_crc w) (s ++ t)) by (done || by apply bytes_ok_app). rewrite crc32c_sw_eq; [|unfold crc_ref; apply crc_not_u32, foldl_step_u32; [by apply crc_not_u32|done]|done].
    unfold crc_ref. by rewrite crc_not_not, foldl_app.
Qed.

(** * The file of a save *)

Inductive ritem :=
  | RCol (name : bytes)
  | RRec (key val : bytes) (wall v fl : Z).

Definition item_bytes (it : ritem) : bytes :=
  match it with
  | RCol name => [1] ++ [u8 (zlen name)] ++ name
  | RRec key val wall v fl => [2] ++ w32 (u32 (zlen key)) ++ w32 (u32 (zlen val)) ++ w64 wall ++ w64 v ++ [u8 fl] ++ key ++ val
  end.

Definition items_bytes (l : list ritem) : bytes := concat (item_bytes <$> l).

Definition walk_items (c : walk_ctx) (l : list smeta) : list ritem :=
  omap (fun r => if walk_skips c r then None
                 else Some (RRec (sm_key r) (sm_val r) (walk_wall c r) (sm_ver r) (Z.land (sm_flags r) PCACHE_F_CARRY))) l.

Definition col_items (nt nw : Z) (c : scol) : list ritem :=
  if negb (sc_live c) || negb (sc_durable c) then []
  else RCol (sc_name c) ::
    match sc_old c with
    | None => walk_items (mk_wc nt nw None true) (sc_new c)
    | Some old => walk_items (mk_wc nt nw (Some (sc_newver c)) false) old ++ walk_items (mk_wc nt nw (Some (sc_oldver c)) true) (sc_new c)
    end.

Definition save_items (nt nw : Z) (cols : list scol) : list ritem := concat (col_items nt nw <$> cols).

Definition rdb_body (last_seq wall : Z) (l : list ritem) : bytes :=
  w32 PC_RDB_MAGIC ++ w32 PC_RDB_FMT ++ w64 last_seq ++ w64 wall ++ items_bytes l ++ [0xFF].

Definition rdb_file (last_seq wall : Z) (l : list ritem) : bytes :=
  let b := rdb_body last_seq wall l in b ++ w32 (crc32c_sw 0 b).

Definition item_ok (it : ritem) : Prop :=
  match it with
  | RCol name => bytes_ok name /\ zlen name <= 255
  | RRec key val wall v fl => bytes_ok key /\ bytes_ok val /\ zlen key + zlen val < 2 ^ 31 /\ is_u64 wall /\ is_u64 v /\ is_u8 fl
  end.

Definition sm_ok (r : smeta) : Prop :=
  bytes_ok (sm_key r) /\ bytes_ok (sm_val r) /\ zlen (sm_key r) + zlen (sm_val r) < 2 ^ 31 /\ is_u64 (sm_ver r) /\
  oversize (zlen (sm_key r)) (zlen (sm_val r)) = false.

Definition sc_ok (c : scol) : Prop :=
  bytes_ok (sc_name c) /\ zlen (sc_name c) <= 255 /\ Forall sm_ok (sc_new c) /\ (forall l, sc_old c = Some l -> Forall sm_ok l).

Lemma u8_byte x : is_u8 (u8 x).
Proof. unfold is_u8, u8. apply Z.mod_pos_bound. lia. Qed.

Lemma carry_u8 fl : is_u8 (Z.land fl PCACHE_F_CARRY).
Proof.
  replace (Z.land fl PCACHE_F_CARRY) with (Z.land (Z.land fl PCACHE_F_CARRY) (Z.ones 8)) by (by rewrite <- Z.land_assoc).
  rewrite Z.land_ones by lia. unfold is_u8. apply Z.mod_pos_bound. lia.
Qed.

Lemma bytes_ok_1 x : is_u8 x -> bytes_ok [x].
Proof. intros. constructor; [done|constructor]. Qed.

Lemma item_bytes_ok it : item_ok it -> bytes_ok (item_bytes it).
Proof.
  destruct it as [name|key val wall v fl]; cbn [item_ok item_bytes]; intros H.
  - destruct H as [H _]. repeat (apply bytes_ok_app; split); auto using bytes_ok_1, u8_byte. apply bytes_ok_1. unfold is_u8. lia.
  - destruct H as (Hk & Hv & _). repeat (apply bytes_ok_app; split); auto using w32_ok, w64_ok, bytes_ok_1, u8_byte. apply bytes_ok_1. unfold is_u8. lia.
Qed.

Lemma items_bytes_ok l : Forall item_ok l -> bytes_ok (items_bytes l).
Proof.
  unfold items_bytes. induction 1 as [|it l Hi Hl IH]; simpl; [constructor|]. apply bytes_ok_app. split; [by apply item_bytes_ok|done].
Qed.

Lemma rec_item_ok c r : sm_ok r ->
  item_ok (RRec (sm_key r) (sm_val r) (walk_wall c r) (sm_ver r) (Z.land (sm_flags r) PCACHE_F_CARRY)).
Proof.
  intros (H1 & H2 & H3 & H4 & _). simpl. split_and!; try done; [|apply carry_u8].
  unfold walk_wall, is_u64, u64. case_match; [lia|]. apply Z.mod_pos_bound. lia.
Qed.

Lemma walk_items_ok c l : Forall sm_ok l -> Forall item_ok (walk_items c l).
Proof.
  unfold walk_items. induction 1 as [|r l Hr Hl IH]; simpl; [constructor|]. destruct (walk_skips c r); [done|].
  constructor; [by apply rec_item_ok|done].
Qed.

Lemma save_items_ok nt nw cols : Forall sc_ok cols -> Forall item_ok (save_items nt nw cols).
Proof.
  unfold save_items. induction 1 as [|c l (H1 & H2 & H3 & H4) Hl IH]; simpl; [constructor|]. apply Forall_app. split; [|done].
  unfold col_items. destruct (_ || _); [constructor|]. constructor; [done|]. destruct (sc_old c); [|by apply walk_items_ok].
  apply Forall_app. split; apply walk_items_ok; auto.
Qed.

(** One write after another. *)
Definition reach (w : wr) (s : bytes) (r : option wr) : Prop := exists w', r = Some w' /\ adds w s w' /\ wr_ok w'.

Lemma reach_put w p : wr_ok w -> bytes_ok p -> reach w p (wr_put w p).
Proof. apply wr_put_adds. Qed.

Lemma reach_bind w s t r (k : wr -> option wr) :
  wr_ok w -> bytes_ok s -> bytes_ok t -> reach w s r -> (forall w1, wr_ok w1 -> reach w1 t (k w1)) -> reach w (s ++ t) (r ≫= k).
Proof.
  intros Hw Hs Ht (w1 & -> & A1 & Hw1) Hk. destruct (Hk w1 Hw1) as (w2 & E & A2 & Hw2). exists w2. split; [done|]. split; [|done].
  by eapply adds_app.
Qed.

Lemma reach_put64 w v : wr_ok w -> reach w (w64 v) (put64 w v).
Proof.
  intros Hw. apply reach_bind; [done|apply w32_ok|apply w32_ok|by apply reach_put, w32_ok|]. intros. by apply reach_put, w32_ok.
Qed.

Lemma reach_put8 w v : wr_ok w -> reach w [u8 v] (put8 w v).
Proof. intros Hw. apply reach_put; [done|]. apply bytes_ok_1, u8_byte. Qed.
Lemma reach_put32 w v : wr_ok w -> reach w (w32 v) (put32 w v).
Proof. intros Hw. by apply reach_put, w32_ok. Qed.

Lemma u8_ok x : bytes_ok [u8 x].
Proof. apply bytes_ok_1, u8_byte. Qed.

Create HintDb rdb.
#[local] Hint Resolve w32_ok w64_ok u8_ok reach_put reach_put8 reach_put32 reach_put64 items_bytes_ok : rdb.
#[local] Hint Extern 5 (bytes_ok (_ ++ _)) => apply bytes_ok_app; split : rdb.

(** The chain of writes that a text is. *)
Ltac reach_all := repeat first [eapply reach_bind; [done|by auto 20 with rdb|by auto 20 with rdb|by auto with rdb|intros] | by auto with rdb].

Lemma put_rec_reach c w r : wr_ok w -> sm_ok r ->
  reach w (item_bytes (RRec (sm_key r) (sm_val r) (walk_wall c r) (sm_ver r) (Z.land (sm_flags r) PCACHE_F_CARRY))) (put_rec c w r).
Proof.
  intros Hw (Hk & Hv & _). unfold put_rec. cbn [item_bytes].
  change [2] with [u8 2]. reach_all.
Qed.

Lemma walk_reach c l : forall w, wr_ok w -> Forall sm_ok l -> reach w (items_bytes (walk_items c l)) (walk c w l).
Proof.
  induction l as [|r l IH]; intros w Hw Hl; [exists w; split; [done|]; split; [by apply adds_nil|done]|].
  apply list.Forall_cons in Hl as [Hr Hl]. cbn [walk]. unfold walk_cb. destruct Hw as (H1 & H2 & H3 & H4) eqn:Ew. rewrite H3.
  unfold walk_items. cbn [omap list_omap]. destruct (walk_skips c r); [by apply IH|]. fold (walk_items c l).
  destruct (put_rec_reach c w r ltac:(done) Hr) as (w1 & E & A & Hw1). rewrite E. cbn [mbind option_bind fst snd].
  destruct (IH w1 Hw1 Hl) as (w2 & E2 & A2 & Hw2). exists w2. split; [done|]. split; [|done]. unfold items_bytes. cbn [fmap list_fmap concat].
  eapply adds_app; [done|by apply item_bytes_ok, rec_item_ok|by apply items_bytes_ok, walk_items_ok|exact A|exact A2].
Qed.

Lemma items_bytes_app a b : items_bytes (a ++ b) = items_bytes a ++ items_bytes b.
Proof. unfold items_bytes. by rewrite fmap_app, concat_app. Qed.

Lemma save_col_reach nt nw w c : wr_ok w -> sc_ok c -> reach w (items_bytes (col_items nt nw c)) (save_col nt nw w c).
Proof.
  intros Hw (Hn & Hl & Hnew & Hold). unfold save_col, col_items. destruct (_ || _); [exists w; split; [done|]; split; [by apply adds_nil|done]|].
  change (items_bytes (RCol (sc_name c) :: ?l)) with (([u8 1] ++ [u8 (zlen (sc_name c))] ++ sc_name c) ++ items_bytes l).
  rewrite <- !app_assoc. pose proof (walk_items_ok) as Hi.
  destruct (sc_old c) as [old|].
  - specialize (Hold old eq_refl). rewrite items_bytes_app.
    repeat (eapply reach_bind; [done|by auto 20 using Hi with rdb|by auto 20 using Hi with rdb|first [by auto with rdb|by apply walk_reach]|intros]).
    by apply walk_reach.
  - repeat (eapply reach_bind; [done|by auto 20 using Hi with rdb|by auto 20 using Hi with rdb|by auto with rdb|intros]). by apply walk_reach.
Qed.

Lemma save_cols_reach nt nw cols : forall w, wr_ok w -> Forall sc_ok cols -> reach w (items_bytes (save_items nt nw cols)) (save_cols nt nw w cols).
Proof.
  induction cols as [|c l IH]; intros w Hw Hl; [exists w; split; [done|]; split; [by apply adds_nil|done]|].
  pose proof (save_items_ok nt nw (c :: l) Hl) as Hok. apply list.Forall_cons in Hl as [Hc Hl]. cbn [save_cols].
  assert (w_failed w = false) as -> by apply Hw. unfold save_items in *. cbn [fmap list_fmap concat] in *. apply Forall_app in Hok as [Ho1 Ho2].
  rewrite items_bytes_app. apply reach_bind; auto with rdb. by apply save_col_reach.
Qed.

Lemma save_body_reach w last_seq wall nt nw cols : wr_ok w -> Forall sc_ok cols ->
  reach w (rdb_body last_seq wall (save_items nt nw cols)) (save_body w last_seq wall nt nw cols).
Proof.
  intros Hw Hc. pose proof (save_items_ok nt nw cols Hc) as Hok. unfold rdb_body, save_body. change [0xFF] with [u8 0xFF].
  repeat (eapply reach_bind; [done|by auto 20 with rdb|by auto 20 with rdb|first [by auto with rdb|by apply save_cols_reach]|intros]).
  by apply reach_put8.
Qed.

(** The whole file, when every write succeeds. *)
Lemma rdb_save_file last_seq wall nt nw cols : Forall sc_ok cols ->
  rdb_save [] last_seq wall nt nw cols = Some (inl (rdb_file last_seq wall (save_items nt nw cols))).
Proof.
  intros Hc. unfold rdb_save. set (w0 := mk_wr [] [] 0 0 false []). assert (wr_ok w0) as Hw0 by (unfold wr_ok, is_u32; simpl; split_and!; done).
  destruct (save_body_reach w0 last_seq wall nt nw cols Hw0 Hc) as (w & -> & A & Hw). cbn [mbind option_bind].
  destruct Hw as (Hb & _ & Hf & Hio). destruct A as [Ho _ Hcrc _ _]. cbn [w_out w_buf w_crc w0 app] in Ho, Hcrc.
  unfold rdb_file. rewrite <- Hcrc, <- Ho. unfold put_crc. generalize (w32 (w_crc w)). intros x.
  destruct (_ >? WBUF); unfold wr_flush; rewrite Hio; cbn [w_io w_out w_buf w_failed]; rewrite ?Hio, Hf; by rewrite ?app_nil_l, ?app_assoc.
Qed.

(** * Loading what was saved *)

Lemma sub_at_text data off x y : 0 <= off -> zdrop off data = x ++ y -> x <> [] \/ off <= zlen data -> sub_at data off (zlen x) = Ret x.
Proof.
  intros Ho Hd Hx. pose proof (zlen_nonneg x). pose proof (zlen_nonneg y). apply (f_equal zlen) in Hd as Hl. rewrite zlen_zdrop, zlen_app in Hl.
  assert (zlen x = 0 -> x = []) by apply zlen_zero.
  rewrite sub_at_ok by (first [lia | destruct Hx; [destruct x; [done|rewrite zlen_cons in *; pose proof (zlen_nonneg x)]|]; lia]).
  rewrite Hd, ztake_app; done.
Qed.

Lemma byte_at_here data off b y : zdrop off data = b :: y -> byte_at data off = Ret b.
Proof. intros H. unfold byte_at. by rewrite H. Qed.

Lemma rd32_here data off v y : 0 <= off -> is_u32 v -> zdrop off data = w32 v ++ y -> rd32 data off = Ret v.
Proof.
  intros Ho Hv Hd. unfold rd32. change 4 with (zlen (w32 v)). rewrite (sub_at_text data off (w32 v) y) by (done || by left).
  simpl obind. by rewrite <- (app_nil_r (w32 v)), r32_w32.
Qed.

Lemma rd64_here data off v y : 0 <= off -> is_u64 v -> zdrop off data = w64 v ++ y -> rd64 data off = Ret v.
Proof.
  intros Ho Hv Hd. unfold rd64. change 8 with (zlen (w64 v)). rewrite (sub_at_text data off (w64 v) y) by (done || by left).
  simpl obind. by rewrite <- (app_nil_r (w64 v)), r64_w64.
Qed.

Lemma rdb_body_ok lsq wl l : Forall item_ok l -> bytes_ok (rdb_body lsq wl l).
Proof.
  intros Hl. unfold rdb_body. repeat (apply bytes_ok_app; split); auto using w32_ok, w64_ok, items_bytes_ok. apply bytes_ok_1. unfold is_u8. lia.
Qed.

Lemma zlen_rdb_body lsq wl l : zlen (rdb_body lsq wl l) = 24 + zlen (items_bytes l) + 1.
Proof.
  unfold rdb_body. rewrite !zlen_app. change (zlen (w32 PC_RDB_MAGIC)) with 4. change (zlen (w32 PC_RDB_FMT)) with 4.
  change (zlen (w64 lsq)) with 8. change (zlen (w64 wl)) with 8. change (zlen [0xFF]) with 1. lia.
Qed.

Section LoadLaws.
Context {C : Type} `{LC : Lamport C}.

Definition load_item (now_wall : Z) (ls : lstate (C := C)) (it : ritem) (m : mem) : lstate :=
  match it with
  | RCol name => load_col ls name
  | RRec key val wall v fl => load_rec now_wall ls key val wall v (Z.land fl PCACHE_F_CARRY) m
  end.

(** The items in turn, the allocator's answers by the place of the item in the file. *)
Fixpoint load_items (now_wall : Z) (off : Z) (m : Z -> mem) (ls : lstate (C := C)) (l : list ritem) : lstate :=
  match l with
  | [] => ls
  | it :: l => load_items now_wall (off + zlen (item_bytes it)) m (load_item now_wall ls it (m (off + 26))) l
  end.

Lemma load_step fuel now_wall data end_ off m ls it y :
  0 <= off < end_ -> item_ok it -> zdrop off data = item_bytes it ++ y ->
  load_loop (S fuel) now_wall 3 data end_ off m ls =
  load_loop fuel now_wall 3 data end_ (off + zlen (item_bytes it)) m (load_item now_wall ls it (m (off + 26))).
Proof.
  intros Ho Hit Hd. cbn [load_loop]. rewrite (proj2 (Z.ltb_lt _ _)) by lia. pose proof (zlen_nonneg y).
  assert (off + zlen (item_bytes it) <= zlen data) as Hin.
  { apply (f_equal zlen) in Hd. rewrite zlen_zdrop, zlen_app in Hd. destruct it; cbn [item_bytes] in *; rewrite ?zlen_app in *; pose_lens; change (zlen [1]) with 1 in *; change (zlen [2]) with 1 in *; lia. }
  destruct it as [name|key val wall v fl]; cbn [item_ok item_bytes load_item] in *; rewrite !zlen_app in *.
  - destruct Hit as [Hn Hl]. pose proof (zlen_nonneg name). change (zlen [1]) with 1 in *. change (zlen [u8 (zlen name)]) with 1 in *.
    rewrite <- !app_assoc in Hd. rewrite (byte_at_here data off 1 ([u8 (zlen name)] ++ name ++ y)) by done. cbn [obind Z.eqb Pos.eqb].
    apply zdrop_after in Hd; [|lia]. change (zlen [1]) with 1 in Hd. rewrite (byte_at_here _ _ _ _ Hd). cbn [obind].
    apply zdrop_after in Hd; [|lia]. change (zlen [u8 (zlen name)]) with 1 in Hd. rewrite u8_id by (unfold is_u8; lia).
    rewrite (sub_at_text data (off + 1 + 1) name y) by (first [lia|done]). cbn [obind]. f_equal. lia.
  - destruct Hit as (Hk & Hv & Hsz & Hw & Hver & Hfl). pose proof (zlen_nonneg key). pose proof (zlen_nonneg val).
    assert (is_u32 (zlen key) /\ is_u32 (zlen val)) as [Hk32 Hv32] by (unfold is_u32; lia).
    rewrite (u32_id (zlen key) Hk32), (u32_id (zlen val) Hv32) in *.
    change (zlen [2]) with 1 in *. change (zlen (w32 (zlen key))) with 4 in *. change (zlen (w32 (zlen val))) with 4 in *.
    change (zlen (w64 wall)) with 8 in *. change (zlen (w64 v)) with 8 in *. change (zlen [u8 fl]) with 1 in *.
    rewrite <- !app_assoc in Hd. rewrite (byte_at_here data off 2 (zdrop 1 (zdrop off data))) by (by rewrite Hd). cbn [obind Z.eqb Pos.eqb].
    apply zdrop_after in Hd; [|lia]. change (zlen [2]) with 1 in Hd. rewrite (rd32_here data (off + 1) (zlen key) _ ltac:(lia) Hk32 Hd). cbn [obind].
    apply zdrop_after in Hd; [|lia]. change (zlen (w32 (zlen key))) with 4 in Hd. rewrite (rd32_here data (off + 1 + 4) (zlen val) _ ltac:(lia) Hv32 Hd). cbn [obind].
    apply zdrop_after in Hd; [|lia]. change (zlen (w32 (zlen val))) with 4 in Hd.
    replace (off + 1 + 8) with (off + 1 + 4 + 4) by lia. rewrite (rd64_here data (off + 1 + 4 + 4) wall _ ltac:(lia) Hw Hd). cbn [obind Z.geb Z.compare Pos.compare Pos.compare_cont].
    apply zdrop_after in Hd; [|lia]. change (zlen (w64 wall)) with 8 in Hd.
    replace (off + 1 + 16) with (off + 1 + 4 + 4 + 8) by lia. rewrite (rd64_here data (off + 1 + 4 + 4 + 8) v _ ltac:(lia) Hver Hd). cbn [obind].
    apply zdrop_after in Hd; [|lia]. change (zlen (w64 v)) with 8 in Hd.
    replace (off + 1 + 24) with (off + 1 + 4 + 4 + 8 + 8) by lia. rewrite (byte_at_here _ _ _ _ Hd). cbn [obind].
    apply zdrop_after in Hd; [|lia]. change (zlen [u8 fl]) with 1 in Hd. change (PC_RDB_RHDR 3) with 25. rewrite u8_id by done.
    replace (off + 1 + 25) with (off + 1 + 4 + 4 + 8 + 8 + 1) by lia. rewrite (sub_at_text data (off + 1 + 4 + 4 + 8 + 8 + 1) key _ ltac:(lia) Hd) by lia. cbn [obind].
    apply zdrop_after in Hd; [|lia]. rewrite (sub_at_text data (off + 1 + 4 + 4 + 8 + 8 + 1 + zlen key) val _ ltac:(lia) Hd) by lia. cbn [obind].
    rewrite u32_id by (unfold is_u32; lia). f_equal; [lia|]. f_equal. f_equal. lia.
Qed.

Lemma items_len l : Z.of_nat (length l) <= zlen (items_bytes l).
Proof.
  induction l as [|it l IH]; [done|]. change (items_bytes (it :: l)) with (item_bytes it ++ items_bytes l). rewrite zlen_app.
  assert (1 <= zlen (item_bytes it)); [|cbn [length]; lia].
  destruct it as [name|key val wall v fl]; cbn [item_bytes]; rewrite !zlen_app; pose_lens; [change (zlen [1]) with 1|change (zlen [2]) with 1]; lia.
Qed.

Lemma load_loop_items l : forall fuel now_wall data end_ off m ls y,
  0 <= off -> Forall item_ok l -> zdrop off data = items_bytes l ++ 0xFF :: y -> off + zlen (items_bytes l) < end_ -> (length l < fuel)%nat ->
  load_loop fuel now_wall 3 data end_ off m ls = Ret (0, load_items now_wall off m ls l).
Proof.
  induction l as [|it l IH]; intros fuel now_wall data end_ off m ls y Ho Hl Hd He Hf; (destruct fuel as [|fuel]; [simpl in Hf; lia|]).
  - cbn [load_loop items_bytes fmap list_fmap concat app] in *. change (zlen (@nil Z)) with 0 in He. rewrite (proj2 (Z.ltb_lt _ _)) by lia.
    by rewrite (byte_at_here _ _ _ _ Hd).
  - apply list.Forall_cons in Hl as [Hi Hl]. change (items_bytes (it :: l)) with (item_bytes it ++ items_bytes l) in *. rewrite <- app_assoc in Hd.
    rewrite zlen_app in He. pose proof (zlen_nonneg (item_bytes it)). pose proof (zlen_nonneg (items_bytes l)).
    rewrite (load_step fuel now_wall data end_ off m ls it _ ltac:(lia) Hi Hd). simpl in Hf.
    eapply IH; [lia|done| |lia|lia]. apply zdrop_after in Hd; [exact Hd|lia].
Qed.

(** A file of a save is read to its end. *)
Lemma rdb_load_file lsq wl l now_wall m (s : rstate (C := C)) : is_u64 lsq -> is_u64 wl -> Forall item_ok l ->
  rdb_load (Some (rdb_file lsq wl l)) now_wall m s =
  Ret (0, l_s (load_items now_wall 24 m (mk_ls (load_stats s (rs_header (rs_st s) lsq wl (rdb_fmt_newer (rs_st s)))) None false) l)).
Proof.
  intros Hs Hw Hl. pose proof (items_bytes_ok l Hl) as Hib. unfold rdb_load. set (body := rdb_body lsq wl l). set (crc := crc32c_sw 0 body).
  pose proof (rdb_body_ok lsq wl l Hl) as Hbody. fold body in Hbody.
  assert (is_u32 crc) as Hcrc by (by apply crc_u32).
  set (data := rdb_file lsq wl l). assert (data = body ++ w32 crc) as Ed by done.
  pose proof (zlen_rdb_body lsq wl l) as Hlb. fold body in Hlb.
  pose proof (zlen_nonneg (items_bytes l)). assert (zlen data = zlen body + 4) as Hld by (rewrite Ed, zlen_app; done).
  rewrite (proj2 (Z.ltb_ge (zlen data) 28)) by lia.
  assert (zdrop 0 data = w32 PC_RDB_MAGIC ++ w32 PC_RDB_FMT ++ w64 lsq ++ w64 wl ++ items_bytes l ++ 0xFF :: w32 crc) as Hd.
  { rewrite Ed. unfold body, rdb_body, zdrop. simpl drop. by rewrite <- !app_assoc. }
  rewrite (rd32_here data 0 PC_RDB_MAGIC _ ltac:(lia) ltac:(done) Hd).
  apply zdrop_after in Hd; [|lia]. change (0 + zlen (w32 PC_RDB_MAGIC)) with 4 in Hd. rewrite (rd32_here data 4 PC_RDB_FMT _ ltac:(lia) ltac:(done) Hd).
  cbn [obind]. change ((PC_RDB_MAGIC =? PC_RDB_MAGIC) && (PC_RDB_FMT >? PC_RDB_FMT)) with false. cbv iota.
  assert (zdrop (zlen data - 4) data = w32 crc ++ []) as Hc.
  { rewrite Hld, Ed. replace (zlen body + 4 - 4) with (zlen body) by lia. rewrite zdrop_app, app_nil_r; done. }
  rewrite (rd32_here data (zlen data - 4) crc [] ltac:(lia) Hcrc Hc). cbn [obind].
  assert (ztake (zlen data - 4) data = body) as ->.
  { rewrite Hld, Ed. replace (zlen body + 4 - 4) with (zlen body) by lia. by rewrite ztake_app. }
  fold crc. rewrite (Z.eqb_refl crc). change (negb (PC_RDB_MAGIC =? PC_RDB_MAGIC) || (PC_RDB_FMT <? 1) || negb true) with false. cbv iota.
  apply zdrop_after in Hd; [|lia]. change (4 + zlen (w32 PC_RDB_FMT)) with 8 in Hd. rewrite (rd64_here data 8 lsq _ ltac:(lia) Hs Hd). cbn [obind].
  apply zdrop_after in Hd; [|lia]. change (8 + zlen (w64 lsq)) with 16 in Hd. rewrite (rd64_here data 16 wl _ ltac:(lia) Hw Hd). cbn [obind].
  apply zdrop_after in Hd; [|lia]. change (16 + zlen (w64 wl)) with 24 in Hd.
  erewrite load_loop_items; [reflexivity|lia|done|exact Hd|lia|].
  assert (zlen data = Z.of_nat (length data)) as E by done. pose proof (items_len l). lia.
Qed.

(** ** What the loaded records show *)

(** A collection the loader fills. *)
Definition fills (s : rstate (C := C)) (name : bytes) : Prop :=
  exists i c, pc_store_find (rs_reg s) name = Some i /\ rs_reg s !! i = Some c /\ c_durable c = true.

Definition tabs_ok (s : rstate (C := C)) : Prop := forall i c, rs_reg s !! i = Some c -> table_ok (c_tab c).

(** The records of a file with the collection each lies under. *)
Fixpoint placed (cur : option bytes) (l : list ritem) : list (option bytes * (bytes * bytes * Z * Z)) :=
  match l with
  | [] => []
  | RCol name :: l => placed (Some name) l
  | RRec key val wall v fl :: l => (cur, (key, val, wall, v)) :: placed cur l
  end.

(** A record under the name and key puts its bytes, deadline and version there. *)
Definition put_view (now_wall now : Z) (name key : bytes) (a : option (bytes * Z * Z))
    (p : option bytes * (bytes * bytes * Z * Z)) : option (bytes * Z * Z) :=
  let '(col, (k, val, wall, v)) := p in
  let x := wall_to_ticks wall now_wall now in
  if bool_decide (col = Some name) && bool_decide (k = key) && negb (x =? 1) then Some (val, x, v) else a.

Definition all_mem (m : mem) : Prop := m_cell m = true /\ m_node m = true.

Lemma store_locked_ticks ht (e : wenv C) q c n : ticks (store_locked ht e q c n).2 = ticks e.
Proof.
  unfold store_locked. cbv zeta. set (nr := cell_alloc _ c). pose proof (store_env_ticks e q nr) as H1.
  assert (forall o, ticks (write_ver (store_env e q nr) (use_ver q) (sver q) o).2 = ticks e) as H2 by (intros; by rewrite write_ver_ticks).
  assert (forall (e1 : wenv C) v, ticks (count_inplace (set_last_ver e1 v) nr) = ticks e1) as H3 by (intros; by destruct nr).
  destruct (chain_find_rec _ _ _) as [[[w i] old]|].
  - specialize (H2 (Some old)). destruct (write_ver _ _ _ (Some old)) as [v e1]. cbn [snd] in H2.
    repeat case_match; cbn [snd]; rewrite ?H3; simplify_eq; done.
  - specialize (H2 None). destruct (write_ver _ _ _ None) as [v e1]. cbn [snd] in H2. repeat case_match; cbn [snd]; simplify_eq; try done.
Qed.

Lemma store_setver_view ht (e : wenv C) key val exp fl v m :
  table_ok ht -> all_mem m -> bytes_ok val -> oversize (zlen key) (zlen val) = false ->
  exists ht' e', pcache_ht_store_ex (mk_tabs ht None) e key val exp (Z.land fl PCACHE_F_CARRY) m = (0, mk_tabs ht' None, e') /\
    ticks e' = ticks e /\
    exists rc ht'', pcache_ht_setver (mk_tabs ht' None) e' key v m = (rc, mk_tabs ht'' None, e') /\ table_ok ht'' /\
    view ht'' key = Some (val, exp, v) /\ forall k, k <> key -> view ht'' k = view ht k.
Proof.
  intros Hok [Hc Hn] Hb Hov. unfold pcache_ht_store_ex. rewrite store_impl_alone. cbn [skey sval]. rewrite Hov, Hc, Hn.
  set (q := mk_sreq key val exp _ 0 false false 0). assert (req_ok q) as Hq by (split; [done|apply carry_flags]).
  pose proof (store_locked_outcome ht e q true true (proj1 Hok) Hb Hov) as Ho. pose proof (store_locked_ok ht e q true true Hok Hq Hov) as Hok'.
  pose proof (store_locked_ticks ht e q true true) as Ht. destruct (store_locked _ _ _ _ _) as [[rc ht'] e']. cbn [fst snd] in *.
  assert (rc = 0 /\ exists old r, stored e q old r /\ ht_updates ht ht' key (Some r)) as (-> & old & r & Hs & Hu).
  { unfold store_outcome in Ho. cbn [skey q use_ver andb] in Ho. destruct (ht_lookup ht key) as [o|].
    - rewrite orb_true_r in Ho. destruct Ho as [? Ho]. split; [done|]. by exists (Some o).
    - destruct Ho as [(_ & _ & [?|?])|(? & _ & Ho)]; [done..|]. split; [done|]. by exists None. }
  exists ht', e'. split_and!; [done|done|]. unfold pcache_ht_setver, drain_carry. cbn [drain_from main].
  pose proof (setver_outcome ht' key v (proj1 Hok')) as Hv. pose proof (setver_locked_ok ht' key v Hok') as Hok''.
  destruct (setver_locked ht' key v) as [rc ht'']. cbn [fst snd drain_forget drain_from main] in *.
  rewrite (proj2 Hu), decide_True in Hv by done. destruct Hv as [_ [_ Hl]].
  exists rc, ht''. split_and!; [done|done| |].
  - unfold view. rewrite Hl, decide_True by done. cbn. by rewrite (st_val _ _ _ _ Hs), (st_exp _ _ _ _ Hs).
  - intros k Hk. unfold view. by rewrite Hl, (proj2 Hu), !decide_False by done.
Qed.

(** The loader's collection is the name it last read. *)
Definition at_col (ls : lstate (C := C)) (cur : option bytes) : Prop :=
  match cur with
  | None => l_ht ls = None
  | Some name => (forall i, l_ht ls = Some i -> pc_store_find (rs_reg (l_s ls)) name = Some i) /\ (fills (l_s ls) name -> is_Some (l_ht ls))
  end.

Lemma load_col_at ls name : at_col (load_col ls name) (Some name) /\ rs_reg (l_s (load_col ls name)) = rs_reg (l_s ls) /\
  rs_env (l_s (load_col ls name)) = rs_env (l_s ls).
Proof.
  unfold load_col. destruct (pc_store_find _ name) as [i|] eqn:E.
  - cbn [l_s]. split; [|done]. split; cbn [l_ht l_s].
    + intros j. destruct (rs_reg (l_s ls) !! i) as [c|]; [destruct (c_durable c)|]; congruence.
    + intros (j & c & Hj & Hc & Hd). assert (j = i) as -> by congruence. rewrite Hc, Hd. by eexists.
  - split; [|done]. split; cbn [l_ht l_s load_stats rs_reg]; [done|]. intros (j & c & Hj & _). simpl in Hj. congruence.
Qed.

Definition item_fits (it : ritem) : Prop :=
  match it with RCol _ => True | RRec key val _ _ _ => bytes_ok val /\ oversize (zlen key) (zlen val) = false end.

Lemma load_rec_view now_wall ls cur key val wall v fl m :
  tabs_ok (l_s ls) -> at_col ls cur -> all_mem m -> item_fits (RRec key val wall v fl) ->
  let ls' := load_rec now_wall ls key val wall v (Z.land fl PCACHE_F_CARRY) m in
  tabs_ok (l_s ls') /\ at_col ls' cur /\ ticks (rs_env (l_s ls')) = ticks (rs_env (l_s ls)) /\
  (forall name, fills (l_s ls) name -> fills (l_s ls') name) /\
  forall name k, fills (l_s ls) name ->
    cview (rs_reg (l_s ls')) name k =
    put_view now_wall (ticks (rs_env (l_s ls))) name k (cview (rs_reg (l_s ls)) name k) (cur, (key, val, wall, v)).
Proof.
  intros Hok Hat Hm [Hb Hov]. cbv zeta. unfold load_rec. destruct (l_ht ls) as [i|] eqn:Ei.
  2: { assert (forall name k, fills (l_s ls) name -> cview (rs_reg (l_s ls)) name k = put_view now_wall (ticks (rs_env (l_s ls))) name k (cview (rs_reg (l_s ls)) name k) (cur, (key, val, wall, v))) as H.
    { intros name k Hf. unfold put_view. rewrite (bool_decide_false (cur = Some name)); [done|]. intros ->. destruct Hat as [_ Hat].
      destruct (Hat Hf) as [? ?]. congruence. }
    destruct (l_cache ls) eqn:Ec; [|by split_and!]. split_and!; try done. unfold at_col in *. rewrite Ei in Hat. exact Hat. }
  destruct cur as [name0|]; [|cbn in Hat; congruence]. destruct Hat as [Hfind Hfill]. specialize (Hfind i Ei).
  set (x := wall_to_ticks wall now_wall (ticks (rs_env (l_s ls)))).
  destruct (Z.eqb_spec x 1) as [Hx|Hx].
  { split_and!; try done; [by split; [intros j [= <-]|intros; by eexists]|]. intros name k _. cbn [put_view]. fold x. rewrite Hx, andb_false_r. done. }
  destruct (find_lookup_col _ _ _ Hfind) as (c & Hc & Hn). rewrite Hc.
  destruct (store_setver_view (c_tab c) (rs_env (l_s ls)) key val x fl v m (Hok i c Hc) Hm Hb Hov) as (h1 & e1 & -> & Ht & rc & h2 & E & Hok2 & Hv & Hoth).
  cbn [Z.eqb]. rewrite E. cbn [main l_s rs_reg rs_env l_ht l_cache].
  set (reg' := set_tab (rs_reg (l_s ls)) i h2). split_and!.
  - intros j c' Hj. apply lookup_set_tab in Hj as (c0 & Hj & _ & _ & ->). case_decide; [done|]. by eapply Hok.
  - split; cbn [l_ht l_s rs_reg]; [intros j [= <-]; subst reg'; by rewrite find_set_tab|intros _; by eexists].
  - done.
  - intros name (j & c' & Hj & Hcj & Hd). destruct (decide (j = i)) as [->|].
    + exists i, (mk_coll (c_name c) h2 (c_durable c)). subst reg'. cbn [l_s rs_reg]. rewrite find_set_tab. split_and!; [done|by apply lookup_set_tab_eq|].
      assert (c' = c) as -> by congruence. done.
    + exists j, c'. subst reg'. cbn [l_s rs_reg]. by rewrite find_set_tab, lookup_set_tab_ne.
  - intros name k (j & c' & Hj & Hcj & _). unfold cview, reg'. rewrite find_set_tab, Hj. destruct (find_lookup_col _ _ _ Hj) as (cj & Hcj' & Hnj).
    unfold put_view. fold x. rewrite (proj2 (Z.eqb_neq x 1) Hx), andb_true_r. destruct (decide (j = i)) as [->|Hji].
    + rewrite (lookup_set_tab_eq _ _ _ c), Hc by done. cbn [c_tab]. rewrite (bool_decide_true (Some name0 = Some name)) by congruence. cbn [andb].
      case_bool_decide as Hk; [by subst k|]. apply Hoth. congruence.
    + rewrite lookup_set_tab_ne by done. rewrite (bool_decide_false (Some name0 = Some name)); [done|]. intros [= ->]. congruence.
Qed.

Lemma load_items_view now_wall m l : forall off ls cur,
  (forall o, all_mem (m o)) -> tabs_ok (l_s ls) -> at_col ls cur -> Forall item_fits l ->
  let ls' := load_items now_wall off m ls l in
  tabs_ok (l_s ls') /\ forall name k, fills (l_s ls) name ->
    cview (rs_reg (l_s ls')) name k =
    foldl (put_view now_wall (ticks (rs_env (l_s ls))) name k) (cview (rs_reg (l_s ls)) name k) (placed cur l).
Proof.
  induction l as [|it l IH]; intros off ls cur Hm Hok Hat Hl; [done|]. apply list.Forall_cons in Hl as [Hi Hl]. cbn [load_items].
  destruct it as [name0|key val wall v fl]; cbn [load_item placed].
  - destruct (load_col_at ls name0) as (Hat' & Hr & He).
    destruct (IH (off + zlen (item_bytes (RCol name0))) (load_col ls name0) (Some name0) Hm) as [H1 H2]; [intros i c; rewrite Hr; apply Hok|done|done|].
    split; [done|]. intros name k Hf. rewrite H2; [by rewrite Hr, He|]. unfold fills. by rewrite Hr.
  - destruct (load_rec_view now_wall ls cur key val wall v fl (m (off + 26)) Hok Hat (Hm _) Hi) as (G1 & G2 & G3 & G4 & G5).
    destruct (IH (off + zlen (item_bytes (RRec key val wall v fl))) (load_rec now_wall ls key val wall v (Z.land fl PCACHE_F_CARRY) (m (off + 26))) cur Hm G1 G2 Hl) as [H1 H2].
    split; [done|]. intros name k Hf. rewrite H2 by auto. rewrite G3, G5 by done. done.
Qed.

Lemma load_items_marker now_wall m l : forall off ls, marker (rs_st (l_s (load_items now_wall off m ls l))) = marker (rs_st (l_s ls)).
Proof.
  induction l as [|it l IH]; intros off ls; [done|]. cbn [load_items]. rewrite IH. clear IH.
  destruct it as [name|key val wall v fl]; cbn [load_item]; unfold load_col, load_rec; repeat case_match; done.
Qed.

(** ** What a save writes *)

Definition saved (c : scol) : bool := sc_live c && sc_durable c.

(** The record of a key in a walk. *)
Definition copy (l : list smeta) (key : bytes) : option smeta := head (filter (fun r => sm_key r = key) l).

Definition alive (nt : Z) (r : smeta) : bool := (sm_exp r =? 0) || (nt <? sm_exp r).

Definition live_copy (nt : Z) (l : list smeta) (key : bytes) : option smeta :=
  r ← copy l key; if alive nt r then Some r else None.

(** The copy of a key that counts: a draining table's only when it is newer. *)
Definition newest_copy (nt : Z) (c : scol) (key : bytes) : option smeta :=
  match live_copy nt (default [] (sc_old c)) key, live_copy nt (sc_new c) key with
  | Some o, Some n => if sm_ver o >? sm_ver n then Some o else Some n
  | Some o, None => Some o
  | None, n => n
  end.

(** A key once per table, and the versions the tables answer are those of the walk. *)
Record walk_ok (nt : Z) (c : scol) : Prop := {
  wk_new : NoDup (sm_key <$> sc_new c);
  wk_old : NoDup (sm_key <$> default [] (sc_old c));
  wk_newver : forall k, sc_newver c k = sm_ver <$> live_copy nt (sc_new c) k;
  wk_oldver : forall k, sc_oldver c k = sm_ver <$> live_copy nt (default [] (sc_old c)) k
}.

Definition at_name (c : walk_ctx) (name : bytes) (r : smeta) : option bytes * (bytes * bytes * Z * Z) :=
  (Some name, (sm_key r, sm_val r, walk_wall c r, sm_ver r)).

Lemma placed_walk c name l rest :
  placed (Some name) (walk_items c l ++ rest) = (at_name c name <$> filter (fun r => walk_skips c r = false) l) ++ placed (Some name) rest.
Proof.
  unfold walk_items. induction l as [|r l IH]; [done|]. cbn [omap list_omap]. destruct (walk_skips c r) eqn:E.
  - rewrite filter_cons_False by congruence. apply IH.
  - rewrite filter_cons_True by done. cbn [app placed fmap list_fmap]. by rewrite IH.
Qed.

Lemma copy_none l key : key ∉ (sm_key <$> l) -> copy l key = None.
Proof.
  unfold copy. induction l as [|r l IH]; [done|]. cbn [fmap list_fmap]. intros [H1 H2]%not_elem_of_cons. rewrite filter_cons_False by congruence. auto.
Qed.

Lemma put_view_miss now_wall now name key c name' (l : list smeta) a :
  name' <> name \/ key ∉ (sm_key <$> l) ->
  foldl (put_view now_wall now name key) a (at_name c name' <$> l) = a.
Proof.
  intros H. revert a. induction l as [|r l IH]; intros a; [done|]. cbn [fmap list_fmap foldl] in *.
  assert (put_view now_wall now name key a (at_name c name' r) = a) as ->.
  { unfold put_view, at_name. destruct H as [H|H]; [by rewrite (bool_decide_false (Some name' = Some name)) by congruence|].
    rewrite (bool_decide_false (sm_key r = key)), andb_false_r by (intros <-; apply H; left). done. }
  apply IH. destruct H as [H|H]; [by left|right]. intros Hin. apply H. by right.
Qed.

Lemma walk_put now_wall now name key c l a : NoDup (sm_key <$> l) ->
  foldl (put_view now_wall now name key) a (at_name c name <$> filter (fun r => walk_skips c r = false) l) =
  match copy l key with
  | Some r => if walk_skips c r then a else put_view now_wall now name key a (at_name c name r)
  | None => a end.
Proof.
  revert a. induction l as [|r l IH]; intros a Hd; [done|]. cbn [fmap list_fmap] in Hd. apply NoDup_cons in Hd as [Hr Hd].
  unfold copy. destruct (decide (sm_key r = key)) as [Hk|Hk].
  - rewrite (filter_cons_True (fun r => sm_key r = key)) by done. cbn [head].
    assert (forall b, foldl (put_view now_wall now name key) b (at_name c name <$> filter (fun r => walk_skips c r = false) l) = b) as Hl.
    { intros b. rewrite IH by done. by rewrite copy_none by congruence. }
    destruct (walk_skips c r) eqn:E; [by rewrite filter_cons_False by congruence|]. rewrite filter_cons_True by done. apply Hl.
  - rewrite (filter_cons_False (fun r => sm_key r = key)) by done. fold (copy l key). rewrite <- IH by done.
    destruct (walk_skips c r) eqn:E; [by rewrite filter_cons_False by congruence|]. rewrite filter_cons_True by done. cbn [fmap list_fmap foldl].
    unfold put_view at 2. unfold at_name at 1. by rewrite (bool_decide_false (sm_key r = key)), andb_false_r by done.
Qed.

(** One collection's part of the file, and the rest after it. *)
Lemma placed_col nt nw c cur rest : saved c = true ->
  placed cur (col_items nt nw c ++ rest) =
    (match sc_old c with
     | Some old => at_name (mk_wc nt nw (Some (sc_newver c)) false) (sc_name c) <$> filter (fun r => walk_skips (mk_wc nt nw (Some (sc_newver c)) false) r = false) old
     | None => [] end) ++
    (let x := mk_wc nt nw ((fun _ => sc_oldver c) <$> sc_old c) true in at_name x (sc_name c) <$> filter (fun r => walk_skips x r = false) (sc_new c)) ++
    placed (Some (sc_name c)) rest.
Proof.
  intros Hs. unfold col_items. apply andb_prop in Hs as [-> ->]. cbn [negb orb app placed]. destruct (sc_old c) as [old|].
  - rewrite <- app_assoc, placed_walk, placed_walk. done.
  - by rewrite placed_walk.
Qed.

Definition back (now_wall now nt nw : Z) (a : option (bytes * Z * Z)) (o : option smeta) : option (bytes * Z * Z) :=
  match o with
  | Some r => let x := wall_to_ticks (walk_wall (mk_wc nt nw None true) r) now_wall now in
              if x =? 1 then a else Some (sm_val r, x, sm_ver r)
  | None => a
  end.

Lemma put_view_hit nw' now nt nw name r a c : now_ticks c = nt -> now_wall c = nw ->
  put_view nw' now name (sm_key r) a (at_name c name r) = back nw' now nt nw a (Some r).
Proof.
  intros <- <-. unfold put_view, at_name, back, walk_wall. cbn [now_ticks now_wall]. rewrite !bool_decide_true by done. cbn [andb].
  by destruct (_ =? 1).
Qed.

Lemma copy_key l key r : copy l key = Some r -> sm_key r = key.
Proof.
  unfold copy. intros H. destruct (filter _ l) as [|r0 l0] eqn:E; [done|]. injection H as ->.
  assert (r ∈ filter (fun r => sm_key r = key) l) as Hin by (rewrite E; left). by apply list_elem_of_filter in Hin as [? _].
Qed.

Lemma skips_expired c r : alive (now_ticks c) r = false -> walk_skips c r = true.
Proof. unfold alive, walk_skips. rewrite Z.ltb_antisym. destruct (sm_exp r =? 0), (sm_exp r <=? now_ticks c); done. Qed.

Lemma skips_alive c r : alive (now_ticks c) r = true ->
  walk_skips c r = match other c with Some g => match g (sm_key r) with
    | Some ov => if other_old c then ov >? sm_ver r else ov >=? sm_ver r | None => false end | None => false end.
Proof. unfold alive, walk_skips. rewrite Z.ltb_antisym. destruct (sm_exp r =? 0), (sm_exp r <=? now_ticks c); done. Qed.

Lemma col_put now_wall now nt nw c cur rest key a : saved c = true -> walk_ok nt c ->
  foldl (put_view now_wall now (sc_name c) key) a (placed cur (col_items nt nw c ++ rest)) =
  foldl (put_view now_wall now (sc_name c) key) (back now_wall now nt nw a (newest_copy nt c key)) (placed (Some (sc_name c)) rest).
Proof.
  intros Hs [W1 W2 W3 W4]. rewrite placed_col by done. rewrite !foldl_app. f_equal. unfold newest_copy.
  set (xn := mk_wc nt nw ((fun _ => sc_oldver c) <$> sc_old c) true). cbv zeta. rewrite walk_put by done.
  set (o := live_copy nt (default [] (sc_old c)) key).
  assert (foldl (put_view now_wall now (sc_name c) key) a
      (match sc_old c with
       | Some old => at_name (mk_wc nt nw (Some (sc_newver c)) false) (sc_name c) <$> filter (fun r => walk_skips (mk_wc nt nw (Some (sc_newver c)) false) r = false) old
       | None => [] end) =
    match o with
    | Some r => if match live_copy nt (sc_new c) key with Some n => sm_ver n >=? sm_ver r | None => false end then a else back now_wall now nt nw a (Some r)
    | None => a end) as ->.
  { subst o. destruct (sc_old c) as [old|]; [|done]. cbn [default from_option id] in *. rewrite walk_put by done. unfold live_copy at 1.
    destruct (copy old key) as [r|] eqn:Er; [|done]. cbn [mbind option_bind]. destruct (alive nt r) eqn:Ea; [|by rewrite skips_expired].
    rewrite skips_alive by done. cbn [other other_old]. rewrite W3. rewrite <- (copy_key _ _ _ Er).
    destruct (live_copy nt (sc_new c) (sm_key r)) as [n|]; cbn [fmap option_fmap option_map]; [destruct (_ >=? _); [done|]|]; by apply put_view_hit. }
  unfold live_copy. destruct (copy (sc_new c) key) as [n|] eqn:En; cbn [mbind option_bind].
  2: { by destruct o. }
  destruct (alive nt n) eqn:Ea; [|rewrite skips_expired by done; by destruct o].
  rewrite skips_alive by done. pose proof (copy_key _ _ _ En) as Hk. cbn [other other_old xn].
  assert (match (fun _ => sc_oldver c) <$> sc_old c with Some g => match g (sm_key n) with Some ov => ov >? sm_ver n | None => false end | None => false end =
    match o with Some r => sm_ver r >? sm_ver n | None => false end) as ->.
  { destruct (sc_old c) as [old|]; [|done]. cbn. rewrite W4, Hk. subst o. cbn. by destruct (live_copy nt old key). }
  destruct o as [r|].
  - rewrite Z.geb_leb, Z.gtb_ltb. destruct (Z.leb_spec (sm_ver r) (sm_ver n)), (Z.ltb_spec (sm_ver n) (sm_ver r)); try lia; [|done].
    rewrite <- Hk. by apply put_view_hit.
  - rewrite <- Hk. by apply put_view_hit.
Qed.

Lemma save_items_cons nt nw c cols : save_items nt nw (c :: cols) = col_items nt nw c ++ save_items nt nw cols.
Proof. done. Qed.

Lemma col_unsaved nt nw c : saved c = false -> col_items nt nw c = [].
Proof. unfold saved, col_items. by destruct (sc_live c), (sc_durable c). Qed.

Lemma cols_other now_wall now nt nw name key cols : (forall c, c ∈ cols -> saved c = true -> sc_name c <> name) ->
  forall cur a, foldl (put_view now_wall now name key) a (placed cur (save_items nt nw cols)) = a.
Proof.
  induction cols as [|c cols IH]; intros H cur a; [done|]. rewrite save_items_cons. destruct (saved c) eqn:Es.
  - assert (sc_name c <> name) as Hn by (apply H; [left|done]). rewrite placed_col, !foldl_app by done. cbv zeta.
    rewrite IH by (intros; apply H; [by right|done]). rewrite put_view_miss by (by left). destruct (sc_old c); [|done]. rewrite put_view_miss by (by left). done.
  - rewrite col_unsaved by done. apply IH. intros; apply H; [by right|done].
Qed.

Lemma cols_put now_wall now nt nw c key cols : c ∈ cols -> saved c = true -> walk_ok nt c -> NoDup (sc_name <$> filter (fun c => saved c = true) cols) ->
  forall cur a, foldl (put_view now_wall now (sc_name c) key) a (placed cur (save_items nt nw cols)) = back now_wall now nt nw a (newest_copy nt c key).
Proof.
  intros Hin Hs Hw. induction cols as [|c' cols IH]; intros Hd cur a; [by apply elem_of_nil in Hin|]. rewrite save_items_cons.
  destruct (saved c') eqn:Es.
  2: { rewrite col_unsaved by done. rewrite filter_cons_False in Hd by congruence. apply IH; [|done]. apply elem_of_cons in Hin as [->|]; [congruence|done]. }
  rewrite filter_cons_True in Hd by done. cbn [fmap list_fmap] in Hd. apply NoDup_cons in Hd as [Hn Hd].
  assert (forall c2, c2 ∈ cols -> saved c2 = true -> sc_name c2 <> sc_name c') as Hne.
  { intros c2 H1 H2 E. apply Hn. rewrite <- E. apply list_elem_of_fmap. exists c2. split; [done|]. by apply list_elem_of_filter. }
  apply elem_of_cons in Hin as [->|Hin].
  - rewrite col_put by done. by apply cols_other.
  - rewrite placed_col, !foldl_app by done. cbv zeta. rewrite IH by done. specialize (Hne c Hin Hs). rewrite put_view_miss by (left; congruence).
    destruct (sc_old c'); [|done]. rewrite put_view_miss by (left; congruence). done.
Qed.

Lemma save_items_fit nt nw cols : Forall sc_ok cols -> Forall item_fits (save_items nt nw cols).
Proof.
  assert (forall c l, Forall sm_ok l -> Forall item_fits (walk_items c l)) as Hw.
  { intros c l. unfold walk_items. induction 1 as [|r l (_ & Hv & _ & _ & Ho) Hl IH]; simpl; [constructor|]. destruct (walk_skips c r); [done|]. by constructor. }
  unfold save_items. induction 1 as [|c l (H1 & H2 & H3 & H4) Hl IH]; simpl; [constructor|]. apply Forall_app. split; [|done].
  unfold col_items. destruct (_ || _); [constructor|]. constructor; [done|]. destruct (sc_old c); [|by apply Hw]. apply Forall_app. split; apply Hw; auto.
Qed.

(** C21. Saved and loaded: a snapshot written without a failing write is loaded
    whole.  The log's marker comes back; a collection that was saved shows at each
    key the copy that counted at the save - of a draining resize's two tables the
    newer one - with its bytes, its version and the deadline that is left of it, what
    had expired staying away; a collection the file does not name is as it was. *)
Theorem rdb_roundtrip (lsq wl nt nw now_wall : Z) (cols : list scol) (m : Z -> mem) (s : rstate (C := C))
    (Hseq : is_u64 lsq) (Hwl : is_u64 wl) (Hcols : Forall sc_ok cols) (Hwalk : Forall (walk_ok nt) cols)
    (Hnames : NoDup (sc_name <$> filter (fun c => saved c = true) cols))
    (Hm : forall off, all_mem (m off)) (Hs : tabs_ok s) :
  exists file s', rdb_save [] lsq wl nt nw cols = Some (inl file) /\ rdb_load (Some file) now_wall m s = Ret (0, s') /\
    marker (rs_st s') = lsq /\ tabs_ok s' /\
    (forall c key, c ∈ cols -> saved c = true -> fills s (sc_name c) ->
      cview (rs_reg s') (sc_name c) key =
      back now_wall (ticks (rs_env s)) nt nw (cview (rs_reg s) (sc_name c) key) (newest_copy nt c key)) /\
    (forall name key, (forall c, c ∈ cols -> saved c = true -> sc_name c <> name) -> fills s name ->
      cview (rs_reg s') name key = cview (rs_reg s) name key).
Proof.
  set (items := save_items nt nw cols). pose proof (save_items_ok nt nw cols Hcols) as Hi.
  set (s0 := load_stats s (rs_header (rs_st s) lsq wl (rdb_fmt_newer (rs_st s)))).
  destruct (load_items_view now_wall m items 24 (mk_ls s0 None false) None Hm Hs eq_refl (save_items_fit nt nw cols Hcols)) as [H1 H2].
  eexists _, _. split; [by apply rdb_save_file|]. split; [by apply rdb_load_file|]. split_and!; [apply load_items_marker|done| |].
  - intros c key Hc Hsv Hf. rewrite (H2 _ _ Hf). rewrite Forall_forall in Hwalk. apply cols_put; auto.
  - intros name key Hn Hf. rewrite (H2 _ _ Hf). by apply cols_other.
Qed.

(** ** Damage *)

Lemma load_bad_crc data now_wall m (s : rstate (C := C)) : 28 <= zlen data ->
  crc32c_sw 0 (ztake (zlen data - 4) data) <> r32 (ztake 4 (zdrop (zlen data - 4) data)) ->
  exists rc s', rdb_load (Some data) now_wall m s = Ret (rc, s') /\ (rc = -1 \/ rc = -2) /\ rs_reg s' = rs_reg s /\ rs_env s' = rs_env s.
Proof.
  intros Hl Hc. unfold rdb_load, rd32. rewrite (proj2 (Z.ltb_ge _ _)) by lia. rewrite !sub_at_ok by lia. cbn [obind].
  destruct (_ && _); [eexists _, _; split; [done|]; auto|]. rewrite (proj2 (Z.eqb_neq _ _) Hc), orb_true_r. eexists _, _. split; [done|]. auto.
Qed.

Lemma r32_inj x y : bytes_ok x -> bytes_ok y -> length x = 4%nat -> length y = 4%nat -> r32 x = r32 y -> x = y.
Proof.
  intros Hx Hy Lx Ly. destruct x as [|x0 [|x1 [|x2 [|x3 [|]]]]]; try done. destruct y as [|y0 [|y1 [|y2 [|y3 [|]]]]]; try done.
  pose proof (r32_word x0 x1 x2 x3 [] Hx) as Ex. pose proof (r32_word y0 y1 y2 y3 [] Hy) as Ey. cbn [app] in Ex, Ey. rewrite Ex, Ey.
  cbn [le_word foldr]. repeat match goal with H : bytes_ok (_ :: _) |- _ => apply bytes_ok_cons in H as [? ?] end. unfold is_u8 in *.
  intros E. repeat (f_equal; try lia).
Qed.

Lemma trailer_flip crc k b b' q : is_u32 crc -> is_u8 b' -> b' <> b -> w32 crc = k ++ b :: q -> crc <> r32 (ztake 4 (k ++ b' :: q)).
Proof.
  intros Hc Hb Hne E Heq. assert (length (k ++ b' :: q) = 4%nat) as Hl.
  { rewrite length_app. cbn [length]. apply (f_equal length) in E. rewrite length_app in E. cbn [length] in E. change (length (w32 crc)) with 4%nat in E. lia. }
  unfold ztake in Heq. rewrite take_ge in Heq by (rewrite Hl; lia). rewrite <- (r32_w32 crc [] Hc), app_nil_r, E in Heq.
  pose proof (w32_ok crc) as Hok. rewrite E in Hok. apply bytes_ok_app in Hok as [Hk [H0 Hq]%bytes_ok_cons].
  apply r32_inj in Heq; [by simplify_list_eq|by apply bytes_ok_app; split; [|apply bytes_ok_cons]|by apply bytes_ok_app; split; [|apply bytes_ok_cons]| |done].
  by rewrite <- E.
Qed.

(** One byte of a text and its checksum changed: they no longer agree. *)
Lemma crc_trailer_flip body p b b' q : bytes_ok body -> body ++ w32 (crc32c_sw 0 body) = p ++ b :: q -> is_u8 b' -> b' <> b ->
  let data := p ++ b' :: q in
  crc32c_sw 0 (ztake (zlen data - 4) data) <> r32 (ztake 4 (zdrop (zlen data - 4) data)).
Proof.
  intros Hbody E Hb Hne. cbv zeta. pose proof (crc_u32 body Hbody) as Hcrc. set (crc := crc32c_sw 0 body) in *.
  assert (zlen p + 1 + zlen q = zlen body + 4) as Hn.
  { apply (f_equal zlen) in E. rewrite !zlen_app, zlen_cons in E. change (zlen (w32 crc)) with 4 in E. lia. }
  assert (bytes_ok (p ++ b :: q)) as Hok by (rewrite <- E; apply bytes_ok_app; split; [done|apply w32_ok]).
  apply bytes_ok_app in Hok as [Hp [Hb0 Hq]%bytes_ok_cons].
  rewrite zlen_app, zlen_cons. replace (zlen p + (1 + zlen q) - 4) with (zlen body) by lia.
  apply app_eq_inv in E as [(k & E1 & E2)|(k & E1 & E2)].
  - destruct k as [|x k]; cbn [app] in E2.
    + rewrite app_nil_r in E1. subst p. rewrite ztake_app, zdrop_app by done. by apply (trailer_flip crc [] b b' q).
    + injection E2 as <- ->. rewrite E1, (app_assoc p (b' :: k) (w32 crc) : p ++ b' :: k ++ w32 crc = (p ++ b' :: k) ++ w32 crc).
      assert (zlen (p ++ b :: k) = zlen (p ++ b' :: k)) as -> by (rewrite !zlen_app, !zlen_cons; done).
      rewrite ztake_app, zdrop_app by done. change (ztake 4 (w32 crc)) with (w32 crc). rewrite <- (app_nil_r (w32 crc)), r32_w32 by done.
      unfold crc. rewrite E1. apply not_eq_sym, crc_flip; try done; [apply (bytes_ok_app k (w32 crc)), Hq].
  - subst p. rewrite <- app_assoc, ztake_app, zdrop_app by done. by apply (trailer_flip crc k b b' q).
Qed.

(** C29. Damage is seen: with any one byte of a snapshot changed, wherever it lies,
    the load answers an error and no table and no clock has changed. *)
Theorem rdb_damage_detected (lsq wl : Z) (l : list ritem) (p q : bytes) (b b' now_wall : Z) (m : Z -> mem) (s : rstate (C := C))
    (Hl : Forall item_ok l) (Hfile : rdb_file lsq wl l = p ++ b :: q) (Hb : is_u8 b') (Hne : b' <> b) :
  exists rc s', rdb_load (Some (p ++ b' :: q)) now_wall m s = Ret (rc, s') /\ (rc = -1 \/ rc = -2) /\ rs_reg s' = rs_reg s /\ rs_env s' = rs_env s.
Proof.
  pose proof (zlen_rdb_body lsq wl l) as Hlen. pose proof (zlen_nonneg (items_bytes l)).
  change (rdb_file lsq wl l) with (rdb_body lsq wl l ++ w32 (crc32c_sw 0 (rdb_body lsq wl l))) in Hfile.
  apply load_bad_crc; [|by eapply crc_trailer_flip; [apply rdb_body_ok|exact Hfile| |]].
  apply (f_equal zlen) in Hfile. rewrite !zlen_app, zlen_cons in Hfile. rewrite zlen_app, zlen_cons. change (zlen (w32 _)) with 4 in Hfile. lia.
Qed.
End LoadLaws.

(** * A disk that refuses *)

(** While [write] keeps failing the buffer stays full, and [wr_put] takes nothing more
    of its input in as many turns as the failure lasts. *)
Lemma wr_put_spins n : forall w b k, w_io w = replicate n (Some k) -> zlen (w_buf w) = WBUF -> b <> [] -> put_loop n w b = None.
Proof.
  induction n as [|n IH]; intros w b k Hio Hb Hne; [by destruct b|]. destruct b as [|x b]; [done|]. cbn [put_loop]. rewrite Hb, Z.sub_diag.
  pose proof (zlen_nonneg b). rewrite (proj2 (Z.ltb_ge _ _)) by (rewrite zlen_cons; lia). cbn [w_buf]. rewrite app_nil_r, Hb, Z.eqb_refl.
  unfold wr_flush. cbn [w_io w_buf]. rewrite Hio. cbn [replicate]. by apply (IH _ _ k).
Qed.

(** And the four bytes of the checksum are then written past the buffer. *)
Lemma put_crc_overruns w k io : w_io w = Some k :: io -> WBUF < zlen (w_buf w) + 4 -> WBUF < zlen (w_buf (put_crc w)).
Proof.
  intros Hio Hb. unfold put_crc. cbv zeta. rewrite Z.gtb_ltb, (proj2 (Z.ltb_lt _ _)) by lia. unfold wr_flush. rewrite Hio. cbn [w_buf].
  rewrite zlen_app. done.
Qed.

(** * Runs *)

Import Runs.

(** A key in both tables of a draining resize, the newer copy in the old one. *)
Definition x_old : list smeta := [mk_sm kA [1] 0 9 0].
Definition x_new : list smeta := [mk_sm kA [2] 0 7 0].
Definition x_col : scol :=
  mk_sc [99] true true x_new (Some x_old)
    (fun k => sm_ver <$> live_copy 100 x_new k) (fun k => sm_ver <$> live_copy 100 x_old k).

Lemma rdb_roundtrip_witness :
  exists file s', rdb_save [] 12 1000 100 1000 [x_col] = Some (inl file) /\ rdb_load (Some file) 1500 (fun _ => m0) r_start = Ret (0, s') /\
    marker (rs_st s') = 12 /\ cview (rs_reg s') [99] kA = Some ([1], 0, 9).
Proof.
  assert (forall v n, 0 <= v < 256 -> is_u64 n -> sm_ok (mk_sm kA [v] 0 n 0)) as Hsm.
  { intros v n Hv Hn. split_and!; try done; repeat constructor; unfold is_u8; lia. }
  destruct (rdb_roundtrip 12 1000 100 1000 1500 [x_col] (fun _ => m0) r_start) as (file & s' & H1 & H2 & H3 & _ & H4 & _).
  - unfold is_u64. lia.
  - unfold is_u64. lia.
  - constructor; [|constructor]. split_and!; [by repeat constructor|done| |].
    + constructor; [|constructor]. apply Hsm; unfold is_u64; lia.
    + intros l [= <-]. constructor; [|constructor]. apply Hsm; unfold is_u64; lia.
  - constructor; [|constructor]. split; try done; repeat constructor; apply not_elem_of_nil.
  - constructor; [apply not_elem_of_nil|constructor].
  - done.
  - intros [|i] c Hc; [|done]. injection Hc as <-. apply ht0_ok.
  - exists file, s'. split; [exact H1|]. split; [exact H2|]. split; [exact H3|].
    assert (fills r_start (sc_name x_col)) as Hf by (exists 0%nat, (mk_coll [99] ht0 true); repeat split).
    specialize (H4 x_col kA ltac:(by left) eq_refl Hf). cbn [sc_name x_col] in H4. rewrite H4. vm_compute. reflexivity.
Defined.

Lemma rdb_damage_detected_witness :
  exists rc s', rdb_load (Some (0x51 :: drop 1 (rdb_file 12 1000 []))) 1500 (fun _ => m0) r_start = Ret (rc, s') /\ rc <> 0 /\ rs_reg s' = rs_reg r_start.
Proof.
  destruct (rdb_damage_detected 12 1000 [] [] (drop 1 (rdb_file 12 1000 [])) 0x50 0x51 1500 (fun _ => m0) r_start)
    as (rc & s' & H1 & H2 & H3 & _).
  - constructor.
  - reflexivity.
  - unfold is_u8. lia.
  - lia.
  - exists rc, s'. split; [exact H1|]. split; [destruct H2; lia|exact H3].
Defined.
