(* ===== verification/Ackstate.v ===== *)
(** The node's watermarks and their file ([ackstate.c]).

    The marks themselves are [Clack]'s; this is what a snapshot keeps of them.  The
    file-scope variables are the fields of [ackst]; [pc_ack_capture] copies the applied
    marks as the walk of a snapshot begins, [pc_ack_save] writes them beside it,
    [pc_ack_load] restores them at a start.  [pc_ack_slice] is what a keepalive
    announces: a few spaces in turn.  The mutex makes each call one step; the fleet's
    marks ([clackf.c]) are not here. *)

From Stdlib Require Import ZArith Lia.
From stdpp Require Import base tactics list numbers gmap.
From S2P Require Import Prelude Clack Crc32c WalFmt Rdb.

Definition ACK_MAGIC : Z := 0x4B414350.
Definition ACK_VER : Z := 1.
Definition ACK_HDR : Z := 20.
Definition ACK_ENT : Z := 20.

Record cap := mk_cap { cp_oid : Z; cp_incarn : Z; cp_mark : Z }.

Record ackst := mk_ackst {
  as_a : option clack;                 (* A *)
  capv : list cap;                     (* the first capn *)
  cap_valid : bool;
  slcur : Z
}.

Definition set_a (s : ackst) (a : clack) : ackst := mk_ackst (Some a) (capv s) (cap_valid s) (slcur s).

(** [mem] is what [clack_new]'s [calloc] answers. *)
Definition pc_ack_init (s : ackst) (doa mem : bool) : ackst :=
  match as_a s with
  | Some _ => s
  | None => if mem then set_a s (clack_new doa) else s
  end.

Definition pc_ack_enabled (s : ackst) : bool := match as_a s with Some _ => true | None => false end.

Definition pc_ack_applied (s : ackst) (o i seq walseq : Z) (mem : bool) : Z * ackst :=
  match as_a s with
  | None => (CLACK_FULL, s)
  | Some a => let '(rc, a) := clack_applied a o i seq walseq mem in (rc, set_a s a)
  end.

Definition pc_ack_synced (s : ackst) (durable : Z) : ackst :=
  match as_a s with None => s | Some a => set_a s (clack_synced a durable) end.

Definition pc_ack_floor (s : ackst) (o i floor : Z) (mem : bool) : Z * ackst :=
  match as_a s with
  | None => (CLACK_FULL, s)
  | Some a => let '(rc, a) := clack_floor a o i floor mem in (rc, set_a s a)
  end.

(** * The file *)

Definition cap_cb (o i mark applied hi : Z) (l : list cap) : Z * list cap :=
  (0, if zlen l <? CLACK_SPACES then l ++ [mk_cap o i applied] else l).

Definition pc_ack_capture (s : ackst) : ackst :=
  match as_a s with
  | None => s
  | Some a => mk_ackst (Some a) (clack_each a cap_cb []).2 true (slcur s)
  end.

Definition cap_bytes (c : cap) : bytes := w64 (cp_oid c) ++ w32 (cp_incarn c) ++ w64 (cp_mark c).

Definition ack_bytes (marker : Z) (l : list cap) : bytes :=
  let b := w32 ACK_MAGIC ++ w32 ACK_VER ++ w64 marker ++ w32 (zlen l) ++ concat (cap_bytes <$> l) in
  b ++ w32 (crc32c_sw 0 b).

(** [None]: the file stays what it was.  [renamed] says whether the write, the sync, the
    close and the rename went through, [synced] whether the directory's sync did too. *)
Definition pc_ack_save (s : ackst) (marker : Z) (mem renamed synced : bool) : Z * option bytes * ackst :=
  if negb (pc_ack_enabled s) || negb (cap_valid s) then (0, None, s)
  else if negb mem then (-1, None, s)
  else (if renamed && synced then 0 else -1,
        if renamed then Some (ack_bytes marker (capv s)) else None,
        mk_ackst (as_a s) (capv s) false (slcur s)).

(** The loop of [pc_ack_load] over [n] entries: how many were taken, and the marks. *)
Fixpoint restore_ents (n : nat) (data : bytes) (off : Z) (a : clack) (mem : Z -> bool) (done : Z) : outcome (Z * clack) :=
  match n with
  | O => Ret (done, a)
  | S n =>
      let! o := rd64 data off in
      let! i := rd32 data (off + 8) in
      let! m := rd64 data (off + 12) in
      let '(rc, a) := clack_restore a o i m (mem off) in
      restore_ents n data (off + ACK_ENT) a mem (if rc =? CLACK_NEW then done + 1 else done)
  end.

Definition pc_ack_load (s : ackst) (file : option bytes) (marker : Z) (mem : Z -> bool) : outcome (Z * ackst) :=
  match as_a s, file with
  | None, _ => Ret (0, s)
  | _, None => Ret (0, s)
  | Some a, Some data =>
      let len := zlen data in
      if (len <? ACK_HDR + 4) || negb (mem 0) then Ret (-1, s)
      else
        let! n := rd32 data 16 in
        let! magic := rd32 data 0 in
        let! v := rd32 data 4 in
        if negb (magic =? ACK_MAGIC) || negb (v =? ACK_VER) || (n >? CLACK_SPACES) || negb (len =? ACK_HDR + n * ACK_ENT + 4)
        then Ret (-1, s)
        else
          let! crc := rd32 data (len - 4) in
          if negb (crc32c_sw 0 (ztake (len - 4) data) =? crc) then Ret (-1, s)
          else
            let! mk := rd64 data 8 in
            if negb (mk =? marker) then Ret (0, s)
            else
              let! r := restore_ents (Z.to_nat n) data ACK_HDR a mem 0 in
              Ret (r.1, set_a s r.2)
  end.

(** * What is asked of the marks *)

Record pc_ack_hole := mk_hole { h_oid : Z; h_incarn : Z; h_from : Z; h_to : Z }.

Definition holes_cb (a : clack) (max : Z) (o i mark applied hi : Z) (l : list pc_ack_hole) : Z * list pc_ack_hole :=
  (0, if (hi >? applied) && (zlen l <? max) then
        match clack_gap a o i with Some (f, t) => l ++ [mk_hole o i f t] | None => l end
      else l).

Definition pc_ack_holes (s : ackst) (max : Z) : list pc_ack_hole :=
  match as_a s with None => [] | Some a => (clack_each a (holes_cb a max) []).2 end.

Definition known_cb (ko ki o i mark applied hi : Z) (k : option (Z * Z)) : Z * option (Z * Z) :=
  if negb (o =? ko) || negb (i =? ki) then (0, k) else (1, Some (applied, hi)).

Definition pc_ack_known (s : ackst) (o i : Z) : option (Z * Z) :=
  match as_a s with None => None | Some a => (clack_each a (known_cb o i) None).2 end.

Definition slice_cb (o i mark applied hi : Z) (l : list cap) : Z * list cap :=
  (0, if zlen l <? CLACK_SPACES then l ++ [mk_cap o i mark] else l).

(** The entries of one keepalive, and how many spaces there are. *)
Definition pc_ack_slice (s : ackst) (max : Z) : list cap * Z * ackst :=
  match as_a s with
  | None => ([], 0, s)
  | Some a =>
      if max <=? 0 then ([], 0, s)
      else
        let slv := (clack_each a slice_cb []).2 in
        let sln := zlen slv in
        if sln =? 0 then ([], 0, s)
        else
          let n := if sln <? max then sln else max in
          let cur := if slcur s >=? sln then 0 else slcur s in
          (omap (fun i => slv !! Z.to_nat ((cur + Z.of_nat i) mod sln)) (seq 0 (Z.to_nat n)), sln,
           mk_ackst (Some a) (capv s) (cap_valid s) ((cur + n) mod sln))
  end.

(** * The callbacks read the spaces in order *)

Lemma each_list f l (acc : list cap) : zlen acc + zlen l <= CLACK_SPACES ->
  (clack_each_from l (fun o i mark applied hi (l : list cap) => (0, if zlen l <? CLACK_SPACES then l ++ [f o i mark applied] else l)) acc).2 =
  acc ++ ((fun sp => f (oid sp) (incarn sp) (dmark sp) (mark sp)) <$> l).
Proof.
  revert acc. induction l as [|sp l IH]; intros acc H; [by rewrite app_nil_r|]. rewrite zlen_cons in H. pose proof (zlen_nonneg l).
  cbn [clack_each_from]. rewrite (proj2 (Z.ltb_lt (zlen acc) _)) by lia. cbn [Z.eqb negb]. rewrite IH by (rewrite zlen_app; change (zlen [_]) with 1; lia).
  cbn [fmap list_fmap]. by rewrite <- app_assoc.
Qed.

Definition cap_of (sp : space) : cap := mk_cap (oid sp) (incarn sp) (mark sp).
Definition conf_of (sp : space) : cap := mk_cap (oid sp) (incarn sp) (dmark sp).

Lemma capture_list a : zlen (spaces a) <= CLACK_SPACES -> (clack_each a cap_cb []).2 = cap_of <$> spaces a.
Proof. intros H. apply (each_list (fun o i _ applied => mk_cap o i applied) (spaces a) []). done. Qed.

Lemma slice_list a : zlen (spaces a) <= CLACK_SPACES -> (clack_each a slice_cb []).2 = conf_of <$> spaces a.
Proof. intros H. apply (each_list (fun o i m _ => mk_cap o i m) (spaces a) []). done. Qed.

(** * The file's marks come back *)

Definition cap_ok (c : cap) : Prop := is_u64 (cp_oid c) /\ is_u32 (cp_incarn c) /\ is_u64 (cp_mark c).

Definition restored (c : cap) : space := mk_space (cp_oid c) (cp_incarn c) 0 (cp_mark c) (cp_mark c) (cp_mark c) 0 0 [] no_bits.

Lemma restore_new a c : (cp_oid c, cp_incarn c) ∉ map key (spaces a) -> zlen (spaces a) < CLACK_SPACES ->
  clack_restore a (cp_oid c) (cp_incarn c) (cp_mark c) true = (CLACK_NEW, set_spaces a (spaces a ++ [restored c])).
Proof.
  intros Hk Hn. unfold clack_restore, get. rewrite (proj2 (find_None a _ _) Hk). rewrite (proj2 (Z.eqb_neq _ _)) by lia. cbn [orb negb].
  unfold put_space, set_spaces. cbn [spaces]. by rewrite insert_app_r_alt, Nat.sub_diag by lia.
Qed.

Lemma restore_all l : forall data off a mem done y,
  0 <= off -> zdrop off data = concat (cap_bytes <$> l) ++ y -> Forall cap_ok l -> (forall o, mem o = true) ->
  NoDup (map key (spaces a) ++ ((fun c => (cp_oid c, cp_incarn c)) <$> l)) -> zlen (spaces a) + zlen l <= CLACK_SPACES ->
  restore_ents (length l) data off a mem done = Ret (done + zlen l, set_spaces a (spaces a ++ (restored <$> l))).
Proof.
  induction l as [|c l IH]; intros data off a mem done y Ho Hd Hl Hm Hk Hn.
  { cbn. rewrite Z.add_0_r, app_nil_r. by destruct a. }
  apply list.Forall_cons in Hl as [(H1 & H2 & H3) Hl]. rewrite zlen_cons in Hn. pose proof (zlen_nonneg l).
  cbn [length restore_ents fmap list_fmap concat] in *. unfold cap_bytes at 1 in Hd. rewrite <- !app_assoc in Hd.
  rewrite (rd64_here data off _ _ Ho H1 Hd). cbn [obind]. apply zdrop_after in Hd; [|lia]. change (zlen (w64 (cp_oid c))) with 8 in Hd.
  rewrite (rd32_here data (off + 8) _ _ ltac:(lia) H2 Hd). cbn [obind]. apply zdrop_after in Hd; [|lia]. change (zlen (w32 (cp_incarn c))) with 4 in Hd.
  replace (off + 8 + 4) with (off + 12) in Hd by lia. rewrite (rd64_here data (off + 12) _ _ ltac:(lia) H3 Hd). cbn [obind].
  apply zdrop_after in Hd; [|lia]. change (zlen (w64 (cp_mark c))) with 8 in Hd. replace (off + 12 + 8) with (off + ACK_ENT) in Hd by (unfold ACK_ENT; lia).
  rewrite Hm, restore_new; [|intros Hin; apply NoDup_app in Hk as (_ & Hk & _); apply (Hk _ Hin); left|lia]. cbn [Z.eqb].
  rewrite (IH data (off + ACK_ENT) _ mem (done + 1) y); [|unfold ACK_ENT; lia|done|done|done| |].
  - unfold set_spaces. cbn [spaces durable_on_apply synced st_applied st_dups st_far st_full]. rewrite <- app_assoc, zlen_cons.
    replace (done + 1 + zlen l) with (done + (1 + zlen l)) by lia. reflexivity.
  - unfold set_spaces. cbn [spaces]. rewrite map_app, <- app_assoc. done.
  - unfold set_spaces. cbn [spaces]. rewrite zlen_app. change (zlen [restored c]) with 1. lia.
Qed.

Lemma zlen_caps l : zlen (concat (cap_bytes <$> l)) = 20 * zlen l.
Proof. induction l as [|c l IH]; [done|]. cbn [fmap list_fmap concat]. rewrite zlen_app, IH, zlen_cons. change (zlen (cap_bytes c)) with 20. lia. Qed.

Lemma caps_ok l : bytes_ok (concat (cap_bytes <$> l)).
Proof.
  induction l as [|c l IH]; [constructor|]. cbn [fmap list_fmap concat]. apply bytes_ok_app. split; [|done]. unfold cap_bytes.
  repeat (apply bytes_ok_app; split); auto using w64_ok, w32_ok.
Qed.

Definition ack_body (marker : Z) (l : list cap) : bytes :=
  w32 ACK_MAGIC ++ w32 ACK_VER ++ w64 marker ++ w32 (zlen l) ++ concat (cap_bytes <$> l).

Lemma ack_body_ok marker l : bytes_ok (ack_body marker l).
Proof. unfold ack_body. repeat (apply bytes_ok_app; split); auto using w64_ok, w32_ok, caps_ok. Qed.

Lemma zlen_ack_body marker l : zlen (ack_body marker l) = 20 + 20 * zlen l.
Proof.
  unfold ack_body. rewrite !zlen_app, zlen_caps. change (zlen (w32 ACK_MAGIC)) with 4. change (zlen (w32 ACK_VER)) with 4.
  change (zlen (w64 marker)) with 8. change (zlen (w32 (zlen l))) with 4. lia.
Qed.

(** The file read back, whatever marker is asked for. *)
Lemma ack_load_file s a marker mk l mem :
  as_a s = Some a -> is_u64 marker -> Forall cap_ok l -> (forall o, mem o = true) ->
  NoDup (map key (spaces a) ++ ((fun c => (cp_oid c, cp_incarn c)) <$> l)) -> zlen (spaces a) + zlen l <= CLACK_SPACES ->
  pc_ack_load s (Some (ack_bytes marker l)) mk mem =
    if mk =? marker then Ret (zlen l, set_a s (set_spaces a (spaces a ++ (restored <$> l)))) else Ret (0, s).
Proof.
  intros Ha Hm Hl Hmem Hk Hn. unfold pc_ack_load. rewrite Ha. set (body := ack_body marker l). set (crc := crc32c_sw 0 body).
  assert (ack_bytes marker l = body ++ w32 crc) as Ed by done. set (data := ack_bytes marker l) in *. clearbody data.
  pose proof (zlen_ack_body marker l) as Hlb. fold body in Hlb. pose proof (zlen_nonneg l). pose proof (zlen_nonneg (spaces a)).
  assert (zlen data = zlen body + 4) as Hld by (rewrite Ed, zlen_app; done).
  assert (is_u32 crc) as Hcrc by (apply crc_u32, ack_body_ok).
  assert (zdrop 0 data = w32 ACK_MAGIC ++ w32 ACK_VER ++ w64 marker ++ w32 (zlen l) ++ concat (cap_bytes <$> l) ++ w32 crc) as Hd.
  { rewrite zdrop_0, Ed by lia. unfold body, ack_body. by rewrite <- !app_assoc. }
  rewrite (proj2 (Z.ltb_ge (zlen data) (ACK_HDR + 4))) by (unfold ACK_HDR; lia). rewrite Hmem. cbn [orb negb].
  rewrite (rd32_here data 0 ACK_MAGIC _ ltac:(lia) ltac:(done) Hd). apply zdrop_after in Hd; [|lia]. change (0 + zlen (w32 ACK_MAGIC)) with 4 in Hd.
  rewrite (rd32_here data 4 ACK_VER _ ltac:(lia) ltac:(done) Hd). apply zdrop_after in Hd; [|lia]. change (4 + zlen (w32 ACK_VER)) with 8 in Hd.
  rewrite (rd64_here data 8 _ _ ltac:(lia) Hm Hd). apply zdrop_after in Hd; [|lia]. change (8 + zlen (w64 marker)) with 16 in Hd.
  unfold CLACK_SPACES in *. assert (is_u32 (zlen l)) as Hu by (unfold is_u32; lia).
  rewrite (rd32_here data 16 _ _ ltac:(lia) Hu Hd). apply zdrop_after in Hd; [|lia]. change (16 + zlen (w32 (zlen l))) with 20 in Hd. cbn [obind].
  rewrite !Z.eqb_refl. unfold CLACK_SPACES.
  assert ((zlen l >? 1026) = false) as -> by (rewrite Z.gtb_ltb; apply Z.ltb_ge; lia).
  assert ((zlen data =? ACK_HDR + zlen l * ACK_ENT + 4) = true) as -> by (apply Z.eqb_eq; unfold ACK_HDR, ACK_ENT; lia). cbn [orb negb].
  assert (zdrop (zlen data - 4) data = w32 crc ++ []) as Hc.
  { rewrite Hld, Ed. replace (zlen body + 4 - 4) with (zlen body) by lia. rewrite zdrop_app, app_nil_r; done. }
  rewrite (rd32_here data (zlen data - 4) crc [] ltac:(lia) Hcrc Hc). cbn [obind].
  assert (ztake (zlen data - 4) data = body) as ->.
  { rewrite Hld, Ed. replace (zlen body + 4 - 4) with (zlen body) by lia. by rewrite ztake_app. }
  fold crc. rewrite Z.eqb_refl, (Z.eqb_sym marker mk). cbn [negb obind]. destruct (mk =? marker); [|done]. cbn [negb]. cbv iota.
  replace (Z.to_nat (zlen l)) with (length l) by (unfold zlen; lia). unfold ACK_HDR.
  by rewrite (restore_all l data 20 a mem 0 (w32 crc) ltac:(lia) Hd Hl Hmem Hk).
Qed.

(** A file whose checksum is not its own is not taken. *)
Lemma ack_load_bad s data mk mem :
  24 <= zlen data -> crc32c_sw 0 (ztake (zlen data - 4) data) <> r32 (ztake 4 (zdrop (zlen data - 4) data)) ->
  exists rc, pc_ack_load s (Some data) mk mem = Ret (rc, s) /\ (as_a s <> None -> rc = -1).
Proof.
  intros Hl Hc. unfold pc_ack_load, rd32. destruct (as_a s) as [a|]; [|by eexists]. destruct (_ || negb (mem 0)); [by eexists|].
  rewrite !sub_at_ok by lia. cbn [obind]. destruct (_ || _); [by eexists|]. rewrite (proj2 (Z.eqb_neq _ _) Hc). by eexists.
Qed.

(** C30. A restart's watermarks: the marks captured as a snapshot's walk begins and saved
    beside it come back when that snapshot is the one loaded - every numbering space,
    confirmed up to exactly what had been applied then, and no other; beside another
    snapshot nothing is restored; and with any one byte of the file changed the load
    says so and restores nothing. *)
Theorem acks_restored (s : ackst) (a : clack) (marker mk : Z) (doa : bool) (mem : Z -> bool)
    (Ha : as_a s = Some a) (Hk : NoDup (map key (spaces a))) (Hn : zlen (spaces a) <= CLACK_SPACES)
    (Hr : Forall (fun sp => is_u64 (oid sp) /\ is_u32 (incarn sp) /\ is_u64 (mark sp)) (spaces a))
    (Hm : is_u64 marker) (Hmem : forall o, mem o = true) :
  exists file s', pc_ack_save (pc_ack_capture s) marker true true true = (0, Some file, s') /\ cap_valid s' = false /\
    (let fresh := mk_ackst (Some (clack_new doa)) [] false 0 in
     (exists a', pc_ack_load fresh (Some file) marker mem = Ret (zlen (spaces a), set_a fresh a') /\
        (forall sp, sp ∈ spaces a -> clack_mark a' (oid sp) (incarn sp) = Some (mark sp)) /\
        (forall o i, (o, i) ∉ map key (spaces a) -> clack_mark a' o i = None)) /\
     (mk <> marker -> pc_ack_load fresh (Some file) mk mem = Ret (0, fresh)) /\
     (forall p b b' q, file = p ++ b :: q -> is_u8 b' -> b' <> b -> pc_ack_load fresh (Some (p ++ b' :: q)) mk mem = Ret (-1, fresh))).
Proof.
  unfold pc_ack_capture. rewrite Ha, capture_list by done. set (l := cap_of <$> spaces a).
  eexists _, _. split; [reflexivity|]. split; [done|]. cbn [as_a capv pc_ack_enabled cap_valid negb orb andb]. cbv zeta. set (fresh := mk_ackst _ _ _ _).
  assert (zlen l = zlen (spaces a)) as Hzl by (unfold zlen, l; by rewrite length_fmap).
  assert (Forall cap_ok l) as Hok by (apply Forall_fmap; exact Hr).
  assert ((fun c => (cp_oid c, cp_incarn c)) <$> l = map key (spaces a)) as Hkeys by (unfold l; by rewrite <- list_fmap_compose).
  pose proof (fun mk => ack_load_file fresh (clack_new doa) marker mk l mem eq_refl Hm Hok Hmem) as Hload. cbn [spaces clack_new map app] in Hload.
  rewrite Hkeys in Hload. split_and!.
  - eexists. rewrite Hload, Z.eqb_refl by (done || (change (zlen (@nil space)) with 0; lia)). rewrite Hzl. split; [reflexivity|].
    set (a' := set_spaces _ _). assert (map key (spaces a') = map key (spaces a)) as Hk' by (cbn; rewrite <- Hkeys; unfold l; rewrite <- !list_fmap_compose; done).
    split.
    + intros sp Hsp. unfold clack_mark. destruct (find a' (oid sp) (incarn sp)) as [k|] eqn:E.
      2: { apply find_None in E. destruct E. rewrite Hk'. apply list_elem_of_fmap. by exists sp. }
      apply find_Some in E as (sp' & Hl' & Hkey). cbn [mbind option_bind]. rewrite Hl'. cbn. f_equal.
      cbn in Hl'. apply list_lookup_fmap_Some in Hl' as (c & -> & Hc). unfold l in Hc. apply list_lookup_fmap_Some in Hc as (sp2 & -> & Hsp2).
      cbn. apply list_elem_of_lookup in Hsp as [j Hj]. assert (j = k) as ->; [|congruence].
      eapply (NoDup_lookup (map key (spaces a))); [done|by apply (list_lookup_fmap_Some_2 key)|]. change (oid sp, incarn sp) with (key sp) in Hkey. rewrite <- Hkey. by apply (list_lookup_fmap_Some_2 key _ _ sp2).
    + intros o i Hoi. unfold clack_mark. rewrite <- Hk' in Hoi. apply find_None in Hoi. by rewrite Hoi.
  - intros Hne. rewrite Hload by (done || (change (zlen (@nil space)) with 0; lia)). by rewrite (proj2 (Z.eqb_neq mk marker)).
  - intros p b b' q E Hb Hne. change (ack_bytes marker l) with (ack_body marker l ++ w32 (crc32c_sw 0 (ack_body marker l))) in E.
    destruct (ack_load_bad fresh (p ++ b' :: q) mk mem) as (rc & -> & Hrc); [| |by rewrite Hrc].
    + apply (f_equal zlen) in E. rewrite !zlen_app, zlen_cons, zlen_ack_body in E. rewrite zlen_app, zlen_cons. pose proof (zlen_nonneg l).
      change (zlen (w32 _)) with 4 in E. lia.
    + eapply crc_trailer_flip; [apply ack_body_ok|exact E|done|done].
Qed.

(** * The keepalives' turns *)

(** [k] keepalives in a row with room for [max] entries each. *)
Fixpoint beats_of (k : nat) (s : ackst) (max : Z) : list cap :=
  match k with
  | O => []
  | S k => let '(l, _, s) := pc_ack_slice s max in l ++ beats_of k s max
  end.

Lemma slice_run s a max : as_a s = Some a -> zlen (spaces a) <= CLACK_SPACES -> 0 < max -> 0 < zlen (spaces a) -> 0 <= slcur s ->
  let n := zlen (spaces a) in
  let c := if slcur s >=? n then 0 else slcur s in
  let d := Z.min n max in
  let '(l, sln, s') := pc_ack_slice s max in
  sln = n /\ as_a s' = Some a /\ slcur s' = (c + d) mod n /\ zlen l = d /\
  forall t, 0 <= t < d -> exists sp, spaces a !! Z.to_nat ((c + t) mod n) = Some sp /\ conf_of sp ∈ l.
Proof.
  intros Ha Hn Hmax Hpos Hcur. cbv zeta. unfold pc_ack_slice. rewrite Ha, (proj2 (Z.leb_gt _ _)) by lia. rewrite slice_list by done.
  set (n := zlen (spaces a)). assert (zlen (conf_of <$> spaces a) = n) as -> by (unfold zlen; by rewrite length_fmap).
  rewrite (proj2 (Z.eqb_neq n 0)) by lia. set (c := if slcur s >=? n then 0 else slcur s).
  assert (0 <= c < n) as Hc by (subst c; destruct (Z.geb_spec (slcur s) n); lia).
  assert ((if n <? max then n else max) = Z.min n max) as -> by (destruct (Z.ltb_spec n max); lia). set (d := Z.min n max).
  assert (forall t, 0 <= t -> exists sp, spaces a !! Z.to_nat ((c + t) mod n) = Some sp /\ (conf_of <$> spaces a) !! Z.to_nat ((c + t) mod n) = Some (conf_of sp)) as Hl.
  { intros t Ht. destruct (lookup_lt_is_Some_2 (spaces a) (Z.to_nat ((c + t) mod n))) as [sp Hsp].
    - pose proof (Z.mod_pos_bound (c + t) n Hpos). unfold n, zlen in *. lia.
    - exists sp. split; [done|]. by apply list_lookup_fmap_Some_2. }
  split_and!; [done|done|done| |].
  - assert (forall k st, length (omap (fun i => (conf_of <$> spaces a) !! Z.to_nat ((c + Z.of_nat i) mod n)) (seq st k)) = k) as H.
    { induction k as [|k IH]; intros st; [done|]. cbn [seq omap list_omap]. destruct (Hl (Z.of_nat st) ltac:(lia)) as (sp & _ & ->). cbn. by rewrite IH. }
    unfold zlen. rewrite H. lia.
  - intros t Ht. destruct (Hl t ltac:(lia)) as (sp & H1 & H2). exists sp. split; [done|]. apply list_elem_of_omap. exists (Z.to_nat t).
    rewrite Z2Nat.id by lia. split; [apply elem_of_seq; lia|done].
Qed.

Lemma beats_cover k : forall s a max, as_a s = Some a -> zlen (spaces a) <= CLACK_SPACES -> 0 < max -> 0 < zlen (spaces a) -> 0 <= slcur s ->
  let n := zlen (spaces a) in
  let c := if slcur s >=? n then 0 else slcur s in
  zlen (beats_of k s max) = Z.of_nat k * Z.min n max /\
  forall t, 0 <= t < Z.of_nat k * Z.min n max -> exists sp, spaces a !! Z.to_nat ((c + t) mod n) = Some sp /\ conf_of sp ∈ beats_of k s max.
Proof.
  induction k as [|k IH]; intros s a max Ha Hn Hmax Hpos Hcur; [cbn; split; [done|lia]|]. cbv zeta. cbn [beats_of].
  pose proof (slice_run s a max Ha Hn Hmax Hpos Hcur) as H. cbv zeta in H. destruct (pc_ack_slice s max) as [[l sln] s'].
  destruct H as (_ & Ha' & Hs' & Hl & Hcov). set (n := zlen (spaces a)) in *. set (c := if slcur s >=? n then 0 else slcur s) in *.
  pose proof (Z.mod_pos_bound (c + Z.min n max) n Hpos) as Hb. destruct (IH s' a max Ha' Hn Hmax Hpos ltac:(lia)) as [IH1 IH2]. fold n in IH1, IH2.
  assert ((slcur s' >=? n) = false) as E by (rewrite Z.geb_leb; apply Z.leb_gt; lia). rewrite E in IH2.
  split; [rewrite zlen_app, IH1, Hl; lia|]. intros t Ht. destruct (decide (t < Z.min n max)) as [Hlt|Hge].
  - destruct (Hcov t ltac:(lia)) as (sp & H1 & H2). exists sp. split; [done|]. apply elem_of_app. by left.
  - destruct (IH2 (t - Z.min n max) ltac:(lia)) as (sp & H1 & H2). exists sp. split; [|apply elem_of_app; by right].
    rewrite <- H1, Hs', Zplus_mod_idemp_l. do 3 f_equal. lia.
Qed.

(** Every watermark is announced: while the numbering spaces stay the same, as many
    keepalives as their entries need to hold all spaces once have announced each of
    them, from whatever space the rotation stood at, and no keepalive was over its room. *)
Theorem ack_slices_reach_all (s : ackst) (a : clack) (max : Z) (k : nat) (sp : space)
    (Ha : as_a s = Some a) (Hn : zlen (spaces a) <= CLACK_SPACES) (Hmax : 0 < max) (Hcur : 0 <= slcur s)
    (Hk : zlen (spaces a) <= Z.of_nat k * max) (Hsp : sp ∈ spaces a) :
  conf_of sp ∈ beats_of k s max /\ zlen (beats_of k s max) = Z.of_nat k * Z.min (zlen (spaces a)) max.
Proof.
  assert (0 < zlen (spaces a)) as Hpos by (destruct (spaces a); [by apply elem_of_nil in Hsp|rewrite zlen_cons; pose proof (zlen_nonneg l); lia]).
  destruct (beats_cover k s a max Ha Hn Hmax Hpos Hcur) as [Hlen Hcov]. split; [|exact Hlen]. set (n := zlen (spaces a)) in *.
  set (c := if slcur s >=? n then 0 else slcur s) in *. assert (0 <= c < n) as Hc by (subst c; destruct (Z.geb_spec (slcur s) n); lia).
  apply list_elem_of_lookup in Hsp as [i Hi]. pose proof (lookup_lt_Some _ _ _ Hi) as Hin.
  destruct (Hcov ((Z.of_nat i - c) mod n)) as (sp' & H1 & H2).
  - pose proof (Z.mod_pos_bound (Z.of_nat i - c) n Hpos). assert (1 <= Z.of_nat k) by nia. destruct (Z.min_spec n max) as [[_ ->]|[_ ->]]; nia.
  - assert (sp' = sp) as ->; [|done]. rewrite Zplus_mod_idemp_r in H1. replace (c + (Z.of_nat i - c)) with (Z.of_nat i) in H1 by lia.
    rewrite Z.mod_small in H1 by (unfold n, zlen; lia). rewrite Nat2Z.id in H1. congruence.
Qed.

(** * Runs *)

Definition x_marks : clack := (clack_applied (clack_applied (clack_new true) 7 1 1 0 true).2 9 2 1 0 true).2.
Definition x_acks : ackst := mk_ackst (Some x_marks) [] false 1.

Lemma acks_restored_witness :
  exists file s', pc_ack_save (pc_ack_capture x_acks) 12 true true true = (0, Some file, s') /\
    pc_ack_load (mk_ackst (Some (clack_new false)) [] false 0) (Some file) 13 (fun _ => true) = Ret (0, mk_ackst (Some (clack_new false)) [] false 0).
Proof.
  destruct (acks_restored x_acks x_marks 12 13 false (fun _ => true)) as (file & s' & H1 & _ & _ & H2 & _).
  - reflexivity.
  - apply (bool_decide_unpack _). vm_compute. exact I.
  - vm_compute. discriminate.
  - repeat constructor; vm_compute; done.
  - unfold is_u64. lia.
  - done.
  - exists file, s'. split; [exact H1|]. apply H2. lia.
Defined.

Lemma ack_slices_reach_all_witness : mk_cap 7 1 1 ∈ beats_of 2 x_acks 1 /\ zlen (beats_of 2 x_acks 1) = 2.
Proof.
  assert (exists sp, spaces x_marks !! 0%nat = Some sp /\ conf_of sp = mk_cap 7 1 1) as (sp & Hsp & <-) by (eexists; vm_compute; done).
  destruct (ack_slices_reach_all x_acks x_marks 1 2 sp) as [H1 H2].
  - reflexivity.
  - vm_compute. discriminate.
  - lia.
  - vm_compute. discriminate.
  - vm_compute. discriminate.
  - by eapply list_elem_of_lookup_2.
  - split; [exact H1|]. rewrite H2. reflexivity.
Defined.
