(* ===== verification/Restart.v ===== *)
(** A start from disk ([pc_recover] of [recover.c]): the snapshot ([Rdb]), the watermarks
    beside it ([Ackstate]) and the replay of the log above its marker ([Recover]), in the
    order the code runs them.  The theorem follows a write from the tables a snapshot
    walked, or from the log, to the table it is restored in. *)

From Stdlib Require Import ZArith Lia.
From stdpp Require Import base tactics list numbers gmap.
From S2P Require Import Prelude Clack HtBase HtChain Lamport HtTable HtGrow HtApi Crc32c WalFmt Recover Rdb Ackstate.

Section Restart.
Context {C : Type} `{LC : Lamport C}.

(** [st->rdb_ok = 1] and [st->marker = 0] *)
Definition rs_loaded (st : pc_recover_stats) (ok : bool) (mk : Z) : pc_recover_stats :=
  mk_rs (last_seq st) mk (ver_high st) ok (rdb_wall st) (rdb_fmt_newer st)
    (rdb_records st) (rdb_skipped_expired st) (rdb_skipped_nocol st) (rdb_skipped_cache st)
    (wal_applied st) (wal_below_marker st) (wal_skipped st) (wal_skipped_cache st) (wal_older st)
    (wal_unknown st) (wal_unknown_covered st) (wal_unknown_type st) (ack_replayed st).

(** The two files, the clock at the load and at the scan, the records of the log.  [Some None]
    refuses the start; [None] is a log with collection records, which [replay] leaves out. *)
Definition pc_recover (file acks : option bytes) (t_load t_scan : Z) (m : Z -> mem) (amem : Z -> bool)
    (s : rstate (C := C)) (l : list (wal_item * rmem)) (skip : bool) : outcome (option (option rstate)) :=
  let! r := rdb_load file t_load m (load_stats s rs_zero) in
  let '(rc, s) := r in
  if rc =? -2 then Ret (Some None)
  else if rc =? 0 then
    let s := load_stats s (rs_loaded (rs_st s) true (marker (rs_st s))) in
    let! k := pc_ack_load (mk_ackst (rs_ack s) [] false 0) acks (marker (rs_st s)) amem in
    Ret (recover_tail t_scan (mk_rst (rs_reg s) (rs_env s) (rs_tombs s) (as_a k.2) (rs_unk s) (rs_st s)) l skip)
  else
    let s := if rc <? 0 then load_stats s (rs_loaded (rs_st s) (rdb_ok (rs_st s)) 0) else s in
    Ret (recover_tail t_scan s l skip).

(** * The watermarks' file cannot hurt *)

Lemma restore_total n : forall data off a mem done, 0 <= off -> off + Z.of_nat n * 20 <= zlen data ->
  exists r, restore_ents n data off a mem done = Ret r.
Proof.
  induction n as [|n IH]; intros data off a mem done Ho Hl; [by eexists|]. cbn [restore_ents]. unfold rd64, rd32.
  rewrite !sub_at_ok by lia. cbn [obind]. destruct (clack_restore _ _ _ _ _) as [rc a']. apply IH; unfold ACK_ENT; lia.
Qed.

Lemma ack_load_total s file mk mem : exists r, pc_ack_load s file mk mem = Ret r.
Proof.
  unfold pc_ack_load. destruct (as_a s) as [a|]; [|by eexists]. destruct file as [data|]; [|by eexists].
  destruct (Z.ltb_spec (zlen data) (ACK_HDR + 4)) as [|Hl]; [by eexists|]. unfold ACK_HDR in Hl. destruct (mem 0); [|by eexists]. cbn [orb negb].
  unfold rd64, rd32. rewrite !sub_at_ok by lia. cbn [obind]. set (n := r32 (ztake 4 (zdrop 16 data))).
  destruct (_ || _) eqn:E; [by eexists|]. apply orb_false_iff in E as [_ E]. apply negb_false_iff, Z.eqb_eq in E.
  destruct (negb _); [by eexists|]. cbn [obind]. destruct (negb _); [by eexists|]. unfold ACK_HDR, ACK_ENT in *.
  destruct (restore_total (Z.to_nat n) data 20 a mem 0 ltac:(lia) ltac:(lia)) as [r ->]. by eexists.
Qed.

(** * What a load leaves for the replay *)

Definition item_live (now_wall now : Z) (it : ritem) : Prop :=
  match it with
  | RCol _ => True
  | RRec _ _ wall v _ => (let x := wall_to_ticks wall now_wall now in x <= 1 \/ now < x) /\ 0 <= v
  end.

Lemma load_rec_state_ok now_wall ls key val wall v fl m :
  state_ok (l_s ls) -> all_mem m -> item_fits (RRec key val wall v fl) -> item_live now_wall (ticks (rs_env (l_s ls))) (RRec key val wall v fl) ->
  state_ok (l_s (load_rec now_wall ls key val wall v (Z.land fl PCACHE_F_CARRY) m)).
Proof.
  intros [Hs] Hm [Hb Hov] [Hx Hv]. cbv zeta in Hx. unfold load_rec. destruct (l_ht ls) as [i|]; [|by destruct (l_cache ls)].
  set (x := wall_to_ticks _ _ _) in *. destruct (Z.eqb_spec x 1) as [|Hx1]; [by split|]. destruct (rs_reg (l_s ls) !! i) as [c|] eqn:Hc; [|by split].
  destruct (Hs i c Hc) as (Hok & Hlive & Hnul).
  destruct (store_setver_view (c_tab c) (rs_env (l_s ls)) key val x fl v m Hok Hm Hb Hov) as (h1 & e1 & -> & Ht & rc & h2 & E & Hok2 & Hview & Hoth).
  cbn [Z.eqb]. rewrite E. cbn [main l_s]. split. cbn [rs_reg rs_env]. rewrite Ht.
  intros j c' Hj. apply lookup_set_tab in Hj as (c0 & Hj & -> & _ & ->). destruct (Hs j c0 Hj) as (G1 & G2 & G3).
  destruct (decide (j = i)) as [->|]; [|done]. split_and!; [done| |done]. intros k v' x' n' Hk. destruct (decide (k = key)) as [->|].
  - rewrite Hview in Hk. injection Hk as <- <- <-. split; [|done]. pose proof (wall_ticks_nonneg wall now_wall (ticks (rs_env (l_s ls)))) as Hge. fold x in Hge. lia.
  - rewrite Hoth in Hk by done. by eapply Hlive.
Qed.

Lemma load_items_keep now_wall m l : forall off ls cur,
  (forall o, all_mem (m o)) -> state_ok (l_s ls) -> at_col ls cur -> Forall item_fits l ->
  Forall (item_live now_wall (ticks (rs_env (l_s ls)))) l ->
  let s' := l_s (load_items now_wall off m ls l) in
  state_ok s' /\ ticks (rs_env s') = ticks (rs_env (l_s ls)) /\ (forall name, fills (l_s ls) name -> fills s' name) /\
  wal_unknown (rs_st s') = wal_unknown (rs_st (l_s ls)).
Proof.
  induction l as [|it l IH]; intros off ls cur Hm Hs Hat Hf Hl; [done|].
  apply list.Forall_cons in Hf as [Hf1 Hf]. apply list.Forall_cons in Hl as [Hl1 Hl]. cbn [load_items].
  destruct it as [name0|key val wall v fl]; cbn [load_item].
  - destruct (load_col_at ls name0) as (Hat' & Hr & He).
    assert (state_ok (l_s (load_col ls name0))) as Hs' by (split; intros i c; rewrite Hr, He; apply (so_tab _ Hs)).
    destruct (IH (off + zlen (item_bytes (RCol name0))) (load_col ls name0) (Some name0) Hm Hs' Hat' Hf) as (H1 & H2 & H3 & H4); [by rewrite He|].
    split_and!; [done|by rewrite H2, He|intros; apply H3; unfold fills; by rewrite Hr|].
    rewrite H4. unfold load_col. by repeat case_match.
  - assert (tabs_ok (l_s ls)) as Ht by (intros i c Hc; apply (so_tab _ Hs i c Hc)).
    destruct (load_rec_view now_wall ls cur key val wall v fl (m (off + 26)) Ht Hat (Hm _) Hf1) as (_ & G2 & G3 & G4 & _).
    pose proof (load_rec_state_ok now_wall ls key val wall v fl (m (off + 26)) Hs (Hm _) Hf1 Hl1) as Hs'.
    destruct (IH (off + zlen (item_bytes (RRec key val wall v fl))) _ cur Hm Hs' G2 Hf) as (H1 & H2 & H3 & H4); [by rewrite G3|].
    split_and!; [done|by rewrite H2, G3|auto|]. rewrite H4. unfold load_rec. by repeat case_match.
Qed.

(** A log of known records leaves no unknown ones. *)
Lemma data_unknown w r now_wall rm : wal_unknown (k_st (replay_data (C := C) w r now_wall rm)) = wal_unknown (k_st w).
Proof.
  assert (forall w : work (C := C), wal_unknown (k_st (applied w)) = wal_unknown (k_st w)) as Ha by done.
  assert (forall w : work (C := C), wal_unknown (k_st (older w)) = wal_unknown (k_st w)) as Ho by done.
  assert (forall w : work (C := C), wal_unknown (k_st (skipped w)) = wal_unknown (k_st w)) as Hs by done.
  assert (forall (w : work (C := C)) v, wal_unknown (k_st (high w v)) = wal_unknown (k_st w)) as Hh by done.
  unfold replay_data, replay_upsert, replay_del, replay_touch.
  repeat case_match; rewrite ?Ha, ?Ho, ?Hs, ?Hh, ?st_setver, ?st_remove, ?st_note; simplify_eq; try done.
Qed.

Lemma replay_unknown now_wall l : forall s s' : rstate (C := C), rs_unk s = 0 -> replay now_wall s (as_items l) = Some s' ->
  rs_unk s' = 0 /\ wal_unknown (rs_st s') = wal_unknown (rs_st s).
Proof.
  induction l as [|[r rm] l IH]; intros s s' Hu H; [by simplify_eq/=|].
  change (as_items ((r, rm) :: l)) with ((IRec r, rm) :: as_items l) in H. cbn [replay] in H.
  destruct (replay_cb now_wall s (IRec r) rm) as [s1|] eqn:E; [|done]. cbn [mbind option_bind] in H.
  assert (rs_unk s1 = 0 /\ wal_unknown (rs_st s1) = wal_unknown (rs_st s)) as [H1 H2].
  { clear H IH. unfold replay_cb in E. cbv zeta in E. unfold settle_unknown in E. rewrite Hu, Z.eqb_refl in E.
    set (s0 := with_stats s _) in *. assert (rs_unk (count_ack s0 r rm) = 0 /\ wal_unknown (rs_st (count_ack s0 r rm)) = wal_unknown (rs_st s)) as [G1 G2].
    { unfold count_ack. repeat case_match; simplify_eq; done. }
    repeat case_match; simplify_eq; cbn [rs_unk rs_st with_stats]; rewrite ?data_unknown; by split. }
  destruct (IH s1 s' H1 H) as [H3 H4]. split; [done|congruence].
Qed.

(** A deadline that is left at the load is ahead of the ticks, in 32 bits. *)
Definition deadlines_fit (nt nw t_load now : Z) (c : scol) : Prop :=
  Forall (fun r => let x := wall_to_ticks (walk_wall (mk_wc nt nw None true) r) t_load now in x <= 1 \/ now < x) (sc_new c ++ default [] (sc_old c)).

Lemma save_items_live nt nw t_load now cols : Forall sc_ok cols -> Forall (deadlines_fit nt nw t_load now) cols ->
  Forall (item_live t_load now) (save_items nt nw cols).
Proof.
  assert (forall c l, now_ticks c = nt -> now_wall c = nw -> Forall sm_ok l ->
    Forall (fun r => let x := wall_to_ticks (walk_wall (mk_wc nt nw None true) r) t_load now in x <= 1 \/ now < x) l ->
    Forall (item_live t_load now) (walk_items c l)) as Hw.
  { intros c l <- <- Hok Hl. unfold walk_items. induction Hl as [|r l Hr Hl IH]; [constructor|].
    apply list.Forall_cons in Hok as [(_ & _ & _ & Hv & _) Hok]. cbn [omap list_omap]. specialize (IH Hok). destruct (walk_skips c r); [done|].
    constructor; [|done]. split; [exact Hr|]. unfold is_u64 in Hv. lia. }
  intros Hs Hd. unfold save_items. induction Hs as [|c l (_ & _ & H3 & H4) Hl IH]; [constructor|].
  apply list.Forall_cons in Hd as [Hd1 Hd]. cbn [fmap list_fmap concat]. apply Forall_app. split; [|by apply IH].
  unfold deadlines_fit in Hd1. apply Forall_app in Hd1 as [D1 D2]. unfold col_items. destruct (_ || _); [constructor|]. constructor; [done|].
  destruct (sc_old c) as [old|]; [|by apply Hw]. apply Forall_app. split; apply Hw; auto.
Qed.

(** A record the replay takes: above the marker, in a collection that is filled. *)
Definition logged (lsq t_scan : Z) (s : rstate (C := C)) (p : wal_rec * rmem) : Prop :=
  lsq < wr_seq p.1 /\ fills s (wr_col p.1) /\ vrec t_scan (ticks (rs_env s)) p.1 /\ mem_ok p.2.

End Restart.

(** * Runs *)

Import Runs.

