(* ===== verification/Clterm.v ===== *)
(** The mastership term ([clterm.c], [fnv1a.h]).

    A promoting node claims a term above everything it has seen and writes it to
    its state directory before it uses it; a master that sees a higher one steps
    down.  The file is three lines of text with an FNV-1a check, written through a
    temporary file and a rename.

    [struct T] is [tstate] and the file [node-term] is [option bytes]; [io] is
    whether the write, sync and rename of a store succeeded, and a crash in the
    middle of one leaves the old file or the new one, as a rename does.  [node_step]
    runs claims, observed terms, crashes and restarts in any order.  The theorems:
    the file reads back and no cut of it reads as a term; no run issues a term
    twice, whatever crashes and restarts lie between. *)

From Stdlib Require Import ZArith Lia Sorting.Sorted.
From stdpp Require Import base tactics list numbers sets.
From S2P Require Import Prelude Clcodec HtBase.

(** * FNV-1a *)

Definition FNV1A64_BASIS : Z := 14695981039346656037.
Definition FNV1A64_PRIME : Z := 1099511628211.

Definition fnv1a64_byte (h b : Z) : Z := u64 (Z.lxor h b * FNV1A64_PRIME).
Definition fnv1a64_more (h : Z) (p : bytes) : Z := foldl fnv1a64_byte h p.
Definition fnv1a64 (p : bytes) : Z := fnv1a64_more FNV1A64_BASIS p.

(** * The file *)

Definition TERM_MAGIC : Z := 0x4D544350.
Definition PC_TERM_MAX_JUMP : Z := 1000000.
Definition PC_TERM_STALE : Z := -1.
Definition PC_TERM_SAME : Z := 0.
Definition PC_TERM_AHEAD : Z := 1.

(** "perfcached-node-term 1", "term ", "check " *)
Definition TERM_HEADER : bytes :=
  [112; 101; 114; 102; 99; 97; 99; 104; 101; 100; 45; 110; 111; 100; 101; 45; 116; 101; 114; 109; 32; 49].
Definition s_term : bytes := [116; 101; 114; 109; 32].
Definition s_check : bytes := [99; 104; 101; 99; 107; 32].
Definition nl : Z := 10.

Definition term_check (t : Z) : Z := fnv1a64 (pc_p32 t).

Definition hexval (c : Z) : Z :=
  if (48 <=? c) && (c <=? 57) then c - 48
  else if (97 <=? c) && (c <=? 102) then c - 97 + 10
  else if (65 <=? c) && (c <=? 70) then c - 65 + 10
  else -1.

(** [memcmp(s, p, n) == 0] with enough bytes: what follows the prefix. *)
Fixpoint after_prefix (p s : bytes) : option bytes :=
  match p, s with
  | [], s => Some s
  | x :: p, y :: s => if x =? y then after_prefix p s else None
  | _ :: _, [] => None
  end.

(** The digits up to the newline: the value, how many, and what starts there. *)
Fixpoint term_digits (s : bytes) (d : nat) (v : Z) : option (Z * nat * bytes) :=
  match s with
  | [] => Some (v, d, [])
  | c :: s' =>
      if c =? nl then Some (v, d, s)
      else if (c <? 48) || (57 <? c) || (10 <=? d)%nat then None
      else term_digits s' (S d) (u64 (v * 10 + (c - 48)))
  end.

Fixpoint hex_digits (s : bytes) (want : Z) : option Z :=
  match s with
  | [] => Some want
  | c :: s => let x := hexval c in if x <? 0 then None else hex_digits s (Z.lor (u64 (Z.shiftl want 4)) x)
  end.

Definition term_parse (buf : bytes) : option Z :=
  match after_prefix (TERM_HEADER ++ [nl]) buf with
  | None => None
  | Some s =>
      if zlen s <? 7 then None
      else match after_prefix s_term s with
      | None => None
      | Some s =>
          match term_digits s 0 0 with
          | None => None
          | Some (v, d, r) =>
              let lead0 := match s with c :: _ => c =? 48 | [] => false end in
              match r with
              | [] => None
              | _ :: r =>
                  if (d =? 0)%nat || ((1 <? d)%nat && lead0) || (v >? 0xFFFFFFFF) then None
                  else if negb (zlen r =? 23) then None
                  else match after_prefix s_check r with
                  | None => None
                  | Some h =>
                      if negb (nth 16 h 0 =? nl) then None
                      else match hex_digits (take 16 h) 0 with
                      | None => None
                      | Some want => if want =? term_check (u32 v) then Some (u32 v) else None
                      end
                  end
              end
          end
      end
  end.

(** [%016llx]. *)
Definition hexdig (x : Z) : Z := if x <? 10 then 48 + x else 97 + (x - 10).
Fixpoint hexn (n : nat) (v : Z) : bytes :=
  match n with O => [] | S n => hexn n (v / 16) ++ [hexdig (v mod 16)] end.

(** What [term_store] writes: TERM_HEADER "\nterm %u\ncheck %016llx\n". *)
Definition term_text (t : Z) : bytes :=
  TERM_HEADER ++ [nl] ++ s_term ++ udec 20 t [] ++ [nl] ++ s_check ++ hexn 16 (term_check t) ++ [nl].

(** * The state *)

Record tstate := mk_t { term : Z; durable : bool; dir : bool; rejected : Z }.

Abbreviation disk := (option bytes).

(** Whether it is remembered, and the file after it; [io] is the write, sync and rename. *)
Definition term_store (T : tstate) (f : disk) (t : Z) (io : bool) : bool * disk :=
  if negb (dir T) then (false, f)
  else if io then (true, Some (term_text t)) else (false, f).

Definition legacy (buf : bytes) : option Z :=
  if zlen buf =? 8 then
    match pc_g32 buf, pc_g32 (zdrop 4 buf) with
    | Ret m, Ret t => if m =? TERM_MAGIC then Some t else None
    | _, _ => None
    end
  else None.

(** [pc_term_init]: [has_dir] is a state directory given, [rd] the read's answer. *)
Definition pc_term_init (has_dir : bool) (f : disk) (io rd : bool) : Z * tstate * disk :=
  if negb has_dir then (0, mk_t 0 false false 0, f)
  else
    match f with
    | None =>
        let '(ok, f) := term_store (mk_t 0 false true 0) f 0 io in (0, mk_t 0 ok true 0, f)
    | Some file =>
        let buf := ztake 128 file in
        if negb rd then (-1, mk_t 0 false true 0, f)
        else match legacy buf with
        | Some t =>
            let '(ok, f') := term_store (mk_t t false true 0) f t io in
            if ok then (0, mk_t t true true 0, f') else (-1, mk_t t false true 0, f')
        | None =>
            match term_parse buf with
            | None => (-1, mk_t 0 false true 0, f)
            | Some t => (0, mk_t t true true 0, f)
            end
        end
    end.

Definition pc_term_current (T : tstate) : Z := term T.
Definition pc_term_durable (T : tstate) : bool := durable T.

Definition set_term (T : tstate) (t : Z) : tstate := mk_t t (durable T) (dir T) (rejected T).

Definition pc_term_plausible (T : tstate) (seen : Z) : bool * tstate :=
  if (seen <=? term T) || (u32 (seen - term T) <=? PC_TERM_MAX_JUMP) then (true, T)
  else (false, mk_t (term T) (durable T) (dir T) (u64 (rejected T + 1))).

Definition pc_term_observe (T : tstate) (f : disk) (seen : Z) (io : bool) : Z * tstate * disk :=
  if seen <=? term T then (0, T, f)
  else
    let '(ok, T) := pc_term_plausible T seen in
    if negb ok then (-1, T, f)
    else if dir T then
      let '(ok, f) := term_store T f seen io in
      if ok then (1, set_term T seen, f) else (-1, T, f)
    else (1, set_term T seen, f).

Definition pc_term_claim (T : tstate) (f : disk) (io : bool) : Z * tstate * disk :=
  let next := u32 (term T + 1) in
  if next <? term T then (0, T, f)
  else if dir T then
    let '(ok, f) := term_store T f next io in
    if ok then (next, set_term T next, f) else (0, T, f)
  else if durable T then (0, T, f)
  else (next, set_term T next, f).

Definition pc_term_cmp (mine theirs : Z) : Z :=
  if theirs <? mine then PC_TERM_STALE else if theirs >? mine then PC_TERM_AHEAD else PC_TERM_SAME.

Definition pc_term_must_stepdown (is_master : bool) (mine theirs : Z) : bool := is_master && (theirs >? mine).

(** * The file reads back *)

Lemma after_prefix_app p s : after_prefix p (p ++ s) = Some s.
Proof. induction p as [|x p IH]; simpl; [done|]. by rewrite Z.eqb_refl. Qed.

Lemma after_prefix_Some p s r : after_prefix p s = Some r -> s = p ++ r.
Proof.
  revert s. induction p as [|x p IH]; intros s E; simpl in E; [by injection E as ->|].
  destruct s as [|y s]; [done|]. destruct (Z.eqb_spec x y) as [->|]; [|done]. simpl. f_equal. by apply IH.
Qed.

Definition digit (c : Z) : Prop := 48 <= c <= 57.
Definition decval (v : Z) (ds : bytes) : Z := foldl (fun v c => v * 10 + (c - 48)) v ds.

Lemma decval_app v a b : decval v (a ++ b) = decval (decval v a) b.
Proof. apply foldl_app. Qed.

(** Decimal digits as printed: no leading zero, and as many as the value needs. *)
Lemma udec_digits fuel : forall x acc k, 0 <= x < 10 ^ Z.of_nat fuel -> x < 10 ^ Z.of_nat k -> (k <> 0)%nat -> fuel <> 0%nat ->
  exists ds, udec fuel x acc = ds ++ acc /\ Forall digit ds /\ decval 0 ds = x /\ (1 <= length ds <= k)%nat /\
    ((1 < length ds)%nat -> exists c r, ds = c :: r /\ c <> 48).
Proof.
  induction fuel as [|fuel IH]; intros x acc k Hx Hk Hk0 Hf; [done|]. cbn [udec].
  rewrite Nat2Z.inj_succ, Z.pow_succ_r in Hx by lia. destruct (Z.ltb_spec x 10) as [Hs|Hs].
  - exists [48 + x]. repeat split; try done; simpl; try lia. repeat constructor; lia.
  - destruct k as [|[|k]]; [done|simpl in Hk; lia|]. rewrite (Nat2Z.inj_succ (S k)), Z.pow_succ_r in Hk by lia.
    destruct (IH (x / 10) (48 + x mod 10 :: acc) (S k)) as (ds & -> & Hd & Hv & Hl & Hz); try done.
    + Z.div_mod_to_equations; lia.
    + Z.div_mod_to_equations; lia.
    + intros ->. simpl in Hx. lia.
    + exists (ds ++ [48 + x mod 10]). pose proof (Z.mod_pos_bound x 10 ltac:(lia)). repeat split.
      * by rewrite <- app_assoc.
      * apply Forall_app. split; [done|]. repeat constructor; lia.
      * rewrite decval_app, Hv. unfold decval. simpl. Z.div_mod_to_equations; lia.
      * rewrite length_app. lia.
      * rewrite length_app. simpl. lia.
      * intros _. destruct ds as [|c r]; [simpl in Hl; lia|]. exists c, (r ++ [48 + x mod 10]). split; [done|].
        destruct r as [|c' r]; [|destruct Hz as (? & ? & [= <- <-] & ?); [simpl; lia|done]].
        unfold decval in Hv. simpl in Hv. assert (1 <= x / 10) by (Z.div_mod_to_equations; lia). lia.
Qed.

Lemma decval_mono ds : forall v, 0 <= v -> Forall digit ds -> v <= decval v ds.
Proof.
  unfold decval. induction ds as [|c ds IH]; intros v Hv Hd; [simpl; lia|]. inversion Hd as [|? ? Hc Hd']; subst.
  unfold digit in Hc. simpl. specialize (IH (v * 10 + (c - 48)) ltac:(lia) Hd'). lia.
Qed.

Lemma term_digits_ok ds r : forall d v, Forall digit ds -> (d + length ds <= 10)%nat -> 0 <= v -> decval v ds < 2 ^ 64 ->
  term_digits (ds ++ nl :: r) d v = Some (decval v ds, (d + length ds)%nat, nl :: r).
Proof.
  induction ds as [|c ds IH]; intros d v Hd Hl Hv Hu; cbn [app term_digits].
  - rewrite Z.eqb_refl. simpl. by rewrite Nat.add_0_r.
  - inversion Hd as [|? ? Hc Hd']; subst. unfold digit in Hc. simpl in Hl. unfold nl.
    rewrite (proj2 (Z.eqb_neq c 10)), (proj2 (Z.ltb_ge c 48)), (proj2 (Z.ltb_ge 57 c)), (proj2 (Nat.leb_gt 10 d)) by lia.
    cbn [orb]. change (decval v (c :: ds)) with (decval (v * 10 + (c - 48)) ds) in *.
    pose proof (decval_mono ds (v * 10 + (c - 48)) ltac:(lia) Hd').
    rewrite u64_id by (unfold is_u64; lia). rewrite IH by (done || lia). cbn [length]. by rewrite Nat.add_succ_r.
Qed.

Lemma hexn_len n v : length (hexn n v) = n.
Proof. revert v. induction n as [|n IH]; intros v; simpl; [done|]. rewrite length_app, IH. simpl. lia. Qed.

Lemma zlen_hexn n v : zlen (hexn n v) = Z.of_nat n.
Proof. unfold zlen. by rewrite hexn_len. Qed.

Lemma hexval_dig x : 0 <= x < 16 -> hexval (hexdig x) = x.
Proof. intros Hx. unfold hexval, hexdig. destruct (Z.ltb_spec x 10); btrue; lia. Qed.

Lemma hex_digits_app a b w : hex_digits (a ++ b) w = hex_digits a w ≫= hex_digits b.
Proof. revert w. induction a as [|c a IH]; intros w; simpl; [done|]. case_match; [done|]. apply IH. Qed.

Lemma hex_digits_hexn n v : (n <= 16)%nat -> 0 <= v < 16 ^ Z.of_nat n -> hex_digits (hexn n v) 0 = Some v.
Proof.
  revert v. induction n as [|n IH]; intros v Hn Hv; [simpl in *; f_equal; lia|].
  cbn [hexn]. rewrite Nat2Z.inj_succ, Z.pow_succ_r in Hv by lia.
  rewrite hex_digits_app, IH by (Z.div_mod_to_equations; lia). cbn -[Z.div Z.modulo].
  pose proof (Z.mod_pos_bound v 16 ltac:(lia)). rewrite hexval_dig by lia. rewrite (proj2 (Z.ltb_ge _ _)) by lia.
  assert (16 ^ Z.of_nat n <= 16 ^ 15) by (apply Z.pow_le_mono_r; lia).
  rewrite Z.shiftl_mul_pow2, u64_id by (unfold is_u64; Z.div_mod_to_equations; lia). f_equal.
  rewrite Z.lor_comm, <- Z.shiftl_mul_pow2, lor_shiftl_add by lia. Z.div_mod_to_equations; lia.
Qed.

Lemma fnv_range p : is_u64 (fnv1a64 p).
Proof.
  unfold fnv1a64, fnv1a64_more. assert (is_u64 FNV1A64_BASIS) as H by (unfold is_u64; split; [done|reflexivity]).
  revert H. generalize FNV1A64_BASIS. induction p as [|c p IH]; intros h Hh; simpl; [done|]. apply IH, u64_range.
Qed.

(** The text of a term, as its parts. *)
Lemma term_text_parts t : 0 <= t < 2 ^ 32 -> exists ds,
  term_text t = (TERM_HEADER ++ [nl]) ++ s_term ++ ds ++ nl :: s_check ++ hexn 16 (term_check t) ++ [nl] /\
  Forall digit ds /\ decval 0 ds = t /\ (1 <= length ds <= 10)%nat /\ ((1 < length ds)%nat -> exists c r, ds = c :: r /\ c <> 48).
Proof.
  intros Ht. destruct (udec_digits 20 t [] 10) as (ds & E & ?); [simpl; lia|simpl; lia|done|done|].
  exists ds. split; [|done]. unfold term_text. rewrite E, app_nil_r. by rewrite <- (app_assoc TERM_HEADER).
Qed.

Lemma term_parse_text t : is_u32 t -> term_parse (term_text t) = Some t.
Proof.
  intros Ht. destruct (term_text_parts t Ht) as (ds & -> & Hd & Hv & Hl & Hz). unfold term_parse.
  rewrite after_prefix_app. rewrite (proj2 (Z.ltb_ge _ _)).
  2:{ zlens. rewrite zlen_hexn. pose_lens. unfold s_term, s_check. zlens. lia. }
  rewrite after_prefix_app, term_digits_ok by (unfold is_u32 in Ht; try done; lia). rewrite Hv.
  replace ((0 + length ds =? 0)%nat) with false by (symmetry; apply Nat.eqb_neq; lia).
  assert (((1 <? 0 + length ds)%nat && match ds ++ nl :: s_check ++ hexn 16 (term_check t) ++ [nl] with c :: _ => c =? 48 | [] => false end) = false) as ->.
  { destruct (Nat.ltb_spec 1 (0 + length ds)) as [H1|]; [|done]. destruct (Hz H1) as (c & r & -> & Hc). simpl.
    by apply Z.eqb_neq. }
  unfold is_u32 in Ht. rewrite Z.gtb_ltb, (proj2 (Z.ltb_ge _ _)) by lia. cbn [orb].
  replace (zlen (s_check ++ hexn 16 (term_check t) ++ [nl])) with 23 by (zlens; by rewrite zlen_hexn).
  cbn [Z.eqb Pos.eqb negb]. rewrite after_prefix_app.
  rewrite (nth_lookup _ 16 0), lookup_app_r, hexn_len, Nat.sub_diag by (rewrite hexn_len; lia). cbn [lookup list_lookup default].
  rewrite Z.eqb_refl. cbn [negb]. rewrite take_app_le, take_ge by (rewrite hexn_len; lia).
  pose proof (fnv_range (pc_p32 t)) as Hf. unfold is_u64 in Hf.
  rewrite hex_digits_hexn by (try lia; unfold term_check; simpl; lia). rewrite u32_id by done. by rewrite Z.eqb_refl.
Qed.

Lemma term_digits_inv s : forall d v v' d' c r, term_digits s d v = Some (v', d', c :: r) ->
  exists ds, s = ds ++ nl :: r /\ nl ∉ ds.
Proof.
  induction s as [|x s IH]; intros d v v' d' c r E; cbn [term_digits] in E; [done|].
  destruct (Z.eqb_spec x nl) as [->|Hx].
  - injection E as _ _ <- <-. exists []. split; [done|]. apply not_elem_of_nil.
  - case_match; [done|]. apply IH in E as (ds & -> & Hn). exists (x :: ds). split; [done|]. set_solver.
Qed.

(** The first newline splits a line one way. *)
Lemma line_split (a b x y : bytes) : nl ∉ a -> nl ∉ b -> a ++ nl :: x = b ++ nl :: y -> a = b /\ x = y.
Proof.
  revert b. induction a as [|c a IH]; intros b Ha Hb E; destruct b as [|c' b]; simpl in E.
  - by injection E as ->.
  - injection E as <- _. exfalso. apply Hb. by left.
  - injection E as -> _. exfalso. apply Ha. by left.
  - injection E as <- E. apply not_elem_of_cons in Ha as [_ Ha], Hb as [_ Hb]. by destruct (IH b Ha Hb E) as [-> ->].
Qed.

Lemma term_parse_shape buf t : term_parse buf = Some t ->
  is_u32 t /\ exists ds r, buf = (TERM_HEADER ++ [nl]) ++ s_term ++ ds ++ nl :: r /\ (nl ∉ ds) /\ zlen r = 23.
Proof.
  unfold term_parse. destruct (after_prefix (TERM_HEADER ++ [nl]) buf) as [s|] eqn:E1; [|done].
  apply after_prefix_Some in E1 as ->. case_match; [done|].
  destruct (after_prefix s_term s) as [s2|] eqn:E2; [|done]. apply after_prefix_Some in E2 as ->.
  destruct (term_digits s2 0 0) as [[[v d] r]|] eqn:E3; [|done]. destruct r as [|c r]; [done|].
  apply term_digits_inv in E3 as (ds & -> & Hn). destruct (_ || _ || _); [done|].
  destruct (negb (zlen r =? 23)) eqn:E4; [done|]. bool_facts.
  destruct (after_prefix s_check r); [|done]. destruct (negb _); [done|]. destruct (hex_digits _ _) as [w|]; [|done].
  destruct (w =? _); [|done]. intros [= <-]. split; [apply u32_range|]. by exists ds, r.
Qed.

Lemma digits_no_nl ds : Forall digit ds -> nl ∉ ds.
Proof. intros H Hn. rewrite Forall_forall in H. specialize (H _ Hn). unfold digit, nl in H. lia. Qed.

(** The term file is remembered exactly: what a store writes reads back as the
    term, for every 32-bit term, and no proper cut of it, as a torn write would
    leave, reads as a term. *)
Theorem term_file_exact (t : Z) (Ht : is_u32 t) :
  term_parse (term_text t) = Some t /\
  forall k, (k < length (term_text t))%nat -> term_parse (take k (term_text t)) = None.
Proof.
  split; [by apply term_parse_text|]. intros k Hk. destruct (term_parse _) as [t'|] eqn:E; [|done]. exfalso.
  apply term_parse_shape in E as (_ & ds' & r & E & Hn' & Hr).
  destruct (term_text_parts t Ht) as (ds & Htext & Hd & _). apply digits_no_nl in Hd.
  set (tl := s_check ++ hexn 16 (term_check t) ++ [nl]) in Htext.
  assert (length tl = 23%nat) as Htl by (subst tl; rewrite !length_app, hexn_len; done).
  pose proof (take_drop k (term_text t)) as Hsplit.
  assert (0 < length (drop k (term_text t)))%nat as Hpos by (rewrite length_drop; lia).
  set (rest := drop k (term_text t)) in *. clearbody rest. rewrite E, Htext, <- !app_assoc in Hsplit.
  do 3 apply app_inv_head in Hsplit. simpl in Hsplit.
  apply line_split in Hsplit as [-> Hsplit]; [|done..].
  apply (f_equal length) in Hsplit. rewrite length_app, Htl in Hsplit. unfold zlen in Hr. lia.
Qed.

Lemma term_file_exact_witness : term_parse (take 50 (term_text 11)) = None.
Proof. apply (proj2 (term_file_exact 11 ltac:(done))). vm_compute. lia. Defined.

(** * Crashes and restarts *)

(** The process, when it runs, and the file. *)
Record node := mk_node { proc : option tstate; file : disk }.

Inductive event :=
  | EClaim (io : bool)
  | EObserve (seen : Z) (io : bool)
  | ECrash                               (* between calls *)
  | ECrashClaim (landed : bool)          (* inside a claim's store: the rename done or not *)
  | ECrashObserve (seen : Z) (landed : bool)
  | EStart (io rd : bool).

(** One event; [Some t] is a term a claim returned. *)
Definition node_step (n : node) (ev : event) : node * option Z :=
  match proc n, ev with
  | Some T, EClaim io =>
      let '(t, T, f) := pc_term_claim T (file n) io in
      (mk_node (Some T) f, if t =? 0 then None else Some t)
  | Some T, EObserve seen io =>
      let '(_, T, f) := pc_term_observe T (file n) seen io in (mk_node (Some T) f, None)
  | Some T, ECrash => (mk_node None (file n), None)
  | Some T, ECrashClaim landed =>
      (mk_node None (pc_term_claim T (file n) landed).2, None)
  | Some T, ECrashObserve seen landed =>
      (mk_node None (pc_term_observe T (file n) seen landed).2, None)
  | None, EStart io rd =>
      let '(rc, T, f) := pc_term_init true (file n) io rd in
      (mk_node (if rc =? 0 then Some T else None) f, None)
  | _, _ => (n, None)
  end.

Fixpoint node_run (n : node) (evs : list event) : node * list Z :=
  match evs with
  | [] => (n, [])
  | ev :: evs =>
      let '(n, o) := node_step n ev in
      let '(n, l) := node_run n evs in
      (n, match o with Some t => t :: l | None => l end)
  end.

Definition event_ok (ev : event) : Prop :=
  match ev with EObserve seen _ | ECrashObserve seen _ => is_u32 seen | _ => True end.

(** The term a file holds: none is 0, and an unreadable one has none. *)
Definition file_term (f : disk) : option Z :=
  match f with
  | None => Some 0
  | Some b => match legacy (ztake 128 b) with Some t => Some t | None => term_parse (ztake 128 b) end
  end.

#[local] Arguments file_term : simpl never.
#[local] Arguments term_text : simpl never.

(** A running node holds the term of its file. *)
Definition node_ok (n : node) : Prop :=
  match proc n with
  | Some T => dir T = true /\ is_u32 (term T) /\ file_term (file n) = Some (term T)
  | None => True
  end.

Lemma term_text_len t : is_u32 t -> zlen (term_text t) <= 62 /\ 53 <= zlen (term_text t).
Proof.
  intros Ht. destruct (term_text_parts t Ht) as (ds & -> & _ & _ & Hl & _). zlens. rewrite zlen_hexn. unfold zlen. simpl. lia.
Qed.

Lemma file_term_text t : is_u32 t -> file_term (Some (term_text t)) = Some t.
Proof.
  intros Ht. pose proof (term_text_len t Ht). unfold file_term. rewrite ztake_all by lia.
  unfold legacy. rewrite (proj2 (Z.eqb_neq _ _)) by lia. by apply term_parse_text.
Qed.

Lemma legacy_range b t : legacy b = Some t -> is_u32 t.
Proof.
  unfold legacy. destruct (Z.eqb_spec (zlen b) 8); [|done]. destruct (pc_g32 b); try done.
  destruct (pc_g32_ok (zdrop 4 b)) as (x & -> & Hx); [zlia|]. case_match; [|done]. by intros [= <-].
Qed.

Lemma file_term_range f t : file_term f = Some t -> is_u32 t.
Proof.
  destruct f as [b|]; unfold file_term; [|by intros [= <-]]. destruct (legacy _) eqn:E; [intros [= <-]; by eapply legacy_range|].
  intros H. by apply term_parse_shape in H as [? _].
Qed.

(** A claim with a directory: refused, or the next term in the file before it is used. *)
Lemma claim_cases T f io : dir T = true -> is_u32 (term T) ->
  let '(t, T', f') := pc_term_claim T f io in
  (t = 0 /\ T' = T /\ f' = f) \/
  (t = term T + 1 /\ T' = set_term T t /\ is_u32 t /\ f' = Some (term_text t)).
Proof.
  intros Hdir Hrange. unfold pc_term_claim. rewrite Hdir. destruct (Z.ltb_spec (u32 (term T + 1)) (term T)); [by left|].
  unfold is_u32 in Hrange. assert (u32 (term T + 1) = term T + 1) as -> by word_lia.
  unfold term_store. rewrite Hdir. destruct io; [|by left]. right. split_and!; try done; unfold is_u32; word_lia.
Qed.

(** An observed term with a directory: nothing moves, or the file has it first. *)
Lemma observe_cases T f seen io : dir T = true ->
  let '(_, T', f') := pc_term_observe T f seen io in
  dir T' = true /\ ((term T' = term T /\ f' = f) \/ (term T < seen /\ term T' = seen /\ f' = Some (term_text seen))).
Proof.
  intros Hdir. unfold pc_term_observe. destruct (Z.leb_spec seen (term T)); [by split; [|left]|].
  destruct (pc_term_plausible T seen) as [ok T1] eqn:Ep.
  assert (term T1 = term T /\ dir T1 = true) as [H1 H2].
  { unfold pc_term_plausible in Ep. case_match; by injection Ep as <- <-. }
  destruct ok; simpl; [|split; [done|by left]]. rewrite H2. unfold term_store. rewrite H2. simpl.
  destruct io; (split; [done|]); [right|left]; done.
Qed.

(** An event leaves a term in the file no lower than before, and a claim is above it. *)
Lemma node_step_ok n ev n' o t0 :
  event_ok ev -> node_ok n -> file_term (file n) = Some t0 -> node_step n ev = (n', o) ->
  node_ok n' /\ exists t1, file_term (file n') = Some t1 /\ t0 <= t1 /\ match o with Some c => t0 < c /\ c <= t1 | None => True end.
Proof.
  intros Hev Hok Hf E. destruct n as [[T|] f]; unfold node_step in E; cbn [proc file] in E, Hf.
  - destruct Hok as (Hdir & Hrange & Hft). cbn [proc file] in *. assert (t0 = term T) as -> by congruence.
    pose proof (fun io => claim_cases T f io Hdir Hrange) as Hclaim.
    pose proof (fun seen io => observe_cases T f seen io Hdir) as Hobs.
    destruct ev as [io|seen io| |landed|seen landed|io rd]; simpl in E.
    + specialize (Hclaim io). destruct (pc_term_claim T f io) as [[t T'] f']. injection E as <- <-.
      destruct Hclaim as [(-> & -> & ->)|(-> & -> & Ht & ->)].
      * split; [done|]. by exists (term T).
      * unfold node_ok. cbn [proc file set_term term dir]. rewrite file_term_text by done. split; [done|]. exists (term T + 1). split; [done|]. split; [lia|].
        unfold is_u32 in *. rewrite (proj2 (Z.eqb_neq _ _)) by lia. lia.
    + specialize (Hobs seen io). destruct (pc_term_observe T f seen io) as [[x T'] f']. injection E as <- <-.
      destruct Hobs as (Hd & [(Ht & ->)|(Hlt & Ht & ->)]); unfold node_ok; simpl; rewrite Ht.
      * split; [done|]. by exists (term T).
      * rewrite file_term_text by done. split; [done|]. exists seen. split_and!; done || lia.
    + injection E as <- <-. split; [done|]. by exists (term T).
    + specialize (Hclaim landed). destruct (pc_term_claim T f landed) as [[t T'] f']. injection E as <- <-. split; [done|].
      destruct Hclaim as [(_ & _ & ->)|(-> & _ & Ht & ->)]; simpl; [by exists (term T)|].
      rewrite file_term_text by done. exists (term T + 1). split_and!; done || lia.
    + specialize (Hobs seen landed). destruct (pc_term_observe T f seen landed) as [[x T'] f']. injection E as <- <-. split; [done|].
      destruct Hobs as (_ & [(_ & ->)|(Hlt & _ & ->)]); simpl; [by exists (term T)|].
      rewrite file_term_text by done. exists seen. split_and!; done || lia.
    + injection E as <- <-. split; [done|]. by exists (term T).
  - destruct ev; try (injection E as <- <-; split; [done|]; by exists t0).
    assert (node_ok n' /\ file_term (file n') = Some t0 /\ o = None) as (H1 & H2 & ->); [|split; [done|]; by exists t0].
    pose proof (file_term_range _ _ Hf) as Hr. unfold pc_term_init in E. simpl in E.
    destruct f as [b|]; unfold file_term in Hf.
    + destruct rd; simpl in E; [|by injection E as <- <-]. destruct (legacy (ztake 128 b)) as [t|] eqn:El; simpl in E.
      * destruct io; simpl in E; injection E as <- <-; unfold node_ok; cbn [proc file dir term].
        -- injection Hf as ->. rewrite file_term_text by done. done.
        -- split_and!; try done. unfold file_term. by rewrite El.
      * destruct (term_parse (ztake 128 b)) as [t|] eqn:Ep; injection E as <- <-; [|done].
        injection Hf as <-. unfold node_ok. cbn [proc file dir term Z.eqb]. unfold file_term. by rewrite El, Ep.
    + injection Hf as <-. destruct io; simpl in E; injection E as <- <-; unfold node_ok; cbn [proc file dir term]; [|done].
      rewrite file_term_text by done. done.
Qed.

(** An unreadable file keeps the node down. *)
Lemma node_step_bad n ev : proc n = None -> file_term (file n) = None -> node_step n ev = (n, None).
Proof.
  intros Hp Hf. destruct n as [p f]. simpl in *. subst p. destruct ev; try done. unfold node_step. simpl.
  unfold pc_term_init. simpl. destruct f as [b|]; [|done]. unfold file_term in Hf. destruct rd; [|done]. simpl.
  destruct (legacy _); [done|]. by rewrite Hf.
Qed.

Lemma node_run_bad n evs : proc n = None -> file_term (file n) = None -> node_run n evs = (n, []).
Proof.
  intros Hp Hf. induction evs as [|ev evs IH]; [done|]. simpl. rewrite node_step_bad by done. by rewrite IH.
Qed.

Lemma node_run_sorted evs : forall n t0, Forall event_ok evs -> node_ok n -> file_term (file n) = Some t0 ->
  let '(n', l) := node_run n evs in StronglySorted Z.lt (t0 :: l) /\ (exists t1, file_term (file n') = Some t1 /\ Forall (fun c => c <= t1) (t0 :: l)).
Proof.
  induction evs as [|ev evs IH]; intros n t0 Hev Hok Hf; [simpl; split; [repeat constructor|exists t0; repeat constructor; done || lia]|].
  inversion Hev as [|? ? He Hev']; subst. simpl. destruct (node_step n ev) as [n1 o] eqn:E.
  destruct (node_step_ok _ _ _ _ _ He Hok Hf E) as (Hok1 & t1 & Hf1 & Hle & Ho).
  specialize (IH n1 t1 Hev' Hok1 Hf1). destruct (node_run n1 evs) as [n2 l]. destruct IH as (Hs & t2 & Hf2 & Hb).
  apply StronglySorted_inv in Hs as [Hs Hlt]. apply Forall_cons in Hb as [Hb1 Hb2].
  assert (Forall (Z.lt t0) l) as Hlt0 by (eapply Forall_impl; [exact Hlt|]; simpl; lia).
  destruct o as [c|].
  - split; [|exists t2; split; [done|repeat (apply Forall_cons; split); [lia|lia|done]]].
    repeat constructor; try done; [|lia]. eapply Forall_impl; [exact Hlt|]. simpl. lia.
  - split; [by constructor|]. exists t2. split; [done|]. apply Forall_cons; split; [lia|done].
Qed.


