(* ===== verification/Clmig.v ===== *)
(** Migration: the in-flight window, the gather buffer and the frames of
    [src/src/clmig.c], [src/src/clmig.h], with the two loops of
    [src/src/cluster.c] that use them: the gathering of one record in [mig_cb]
    and the walk of a received group in [handle_migrate_many].

    Records are appended to groups in one buffer, a group becomes one datagram,
    the window remembers which datagrams are unacknowledged.  Proved: the window
    accounts for every record it was given; what is gathered is what the
    receiver of the groups parses, record by record and in order; and no
    datagram makes a parser leave it. *)

From stdpp Require Import base tactics list numbers.
From S2P Require Import Prelude Clcodec Clfwd.
#[local] Open Scope Z_scope.

(** * The in-flight window *)

Definition CLMIG_WINDOW : nat := 3.
Definition CLMIG_RETX : Z := 2.
Definition CLMIG_RETX_MS : Z := 1500.

Record clmig_slot := mk_slot { sl_req : Z; sl_recs : Z; sl_off : Z; sl_sent_ms : Z; sl_retx : Z }.
Record clmig := mk_clmig { m_out : list clmig_slot; m_retx_total : Z }.

Definition clmig_slot0 : clmig_slot := mk_slot 0 0 0 0 0.

Definition clmig_reset (m : clmig) : clmig := mk_clmig (replicate (CLMIG_WINDOW * 2) clmig_slot0) (m_retx_total m).

Fixpoint track_slots (out : list clmig_slot) (req recs off now : Z) : option (list clmig_slot) :=
  match out with
  | [] => None
  | s :: out =>
      if negb (sl_req s =? 0) then cons s <$> track_slots out req recs off now
      else Some (mk_slot req recs off now 0 :: out)
  end.

Definition clmig_track (m : clmig) (req recs off now : Z) : bool * clmig :=
  match track_slots (m_out m) req recs off now with
  | Some out => (true, mk_clmig out (m_retx_total m))
  | None => (false, m)
  end.

Fixpoint ack_slots (out : list clmig_slot) (req : Z) : Z * list clmig_slot :=
  match out with
  | [] => (0, [])
  | s :: out =>
      if negb (sl_req s =? req) then let '(r, out) := ack_slots out req in (r, s :: out)
      else (sl_recs s, mk_slot 0 0 (sl_off s) (sl_sent_ms s) (sl_retx s) :: out)
  end.

Definition clmig_ack (m : clmig) (req : Z) : Z * clmig :=
  if req =? 0 then (0, m)
  else let '(r, out) := ack_slots (m_out m) req in (r, mk_clmig out (m_retx_total m)).

(** The offsets handed to the resend function, in order. *)
Fixpoint retx_slots (out : list clmig_slot) (now : Z) : list Z * list clmig_slot :=
  match out with
  | [] => ([], [])
  | s :: out =>
      let '(offs, out) := retx_slots out now in
      if (sl_req s =? 0) || (CLMIG_RETX <=? sl_retx s) || (now - sl_sent_ms s <? CLMIG_RETX_MS) then (offs, s :: out)
      else (sl_off s :: offs, mk_slot (sl_req s) (sl_recs s) (sl_off s) now (u8 (sl_retx s + 1)) :: out)
  end.

Definition clmig_retransmit (m : clmig) (now : Z) : list Z * clmig :=
  let '(offs, out) := retx_slots (m_out m) now in (offs, mk_clmig out (u64 (m_retx_total m + zlen offs))).

Definition clmig_lost_records (m : clmig) : Z :=
  foldr (fun s acc => (if sl_req s =? 0 then 0 else sl_recs s) + acc) 0 (m_out m).

Definition clmig_inflight (m : clmig) : Z :=
  foldr (fun s acc => (if sl_req s =? 0 then 0 else 1) + acc) 0 (m_out m).

(** * The record codec and the frames *)

Definition CLMIG_RHDR : Z := 20.
Definition CLMIG_GHDR : Z := 9.
Definition CLMIG_SHDR : Z := 14.

Record clmig_rec := mk_mrec {
  mr_ttl_left : Z; mr_col : bytes; mr_key : bytes; mr_val : bytes; mr_ver : Z; mr_flags : Z;
}.

Definition clmig_rec_size (collen klen vlen : Z) : Z := CLMIG_RHDR + collen + klen + vlen.

Definition clmig_rec_hdr_write (r : clmig_rec) : bytes :=
  let c := pc_wcur_init CLMIG_RHDR in
  let c := pc_w32 (mr_ttl_left r) c in
  let c := pc_w8 (zlen (mr_col r)) c in
  let c := pc_w16 (u16 (zlen (mr_key r))) c in
  let c := pc_w32 (zlen (mr_val r)) c in
  let c := pc_w64 (mr_ver r) c in
  let c := pc_w8 (mr_flags r) c in
  w_out c.

(** The bytes put at [p]. *)
Definition clmig_rec_write (r : clmig_rec) : bytes :=
  let body := zlen (mr_col r) + zlen (mr_key r) + zlen (mr_val r) in
  let c := pc_wcur_init body in
  let c := pc_wraw (mr_col r) c in
  let c := pc_wraw (mr_key r) c in
  let c := pc_wraw (mr_val r) c in
  clmig_rec_hdr_write r ++ w_out c.

(** [ttl_left], [collen], [klen], [vlen], [ver], [flags]. *)
Definition clmig_rec_hdr_parse (p : bytes) : outcome (Z * Z * Z * Z * Z * Z) :=
  let c := pc_rcur_init p in
  let! (ttl, c) := pc_ru32 c in
  let! (collen, c) := pc_ru8 c in
  let! (klen, c) := pc_ru16 c in
  let! (vlen, c) := pc_ru32 c in
  let! (ver, c) := pc_ru64 c in
  let! (flags, c) := pc_ru8 c in
  Ret (ttl, collen, klen, vlen, ver, u8 flags).

(** The record at [off] and the offset behind it. *)
Definition clmig_rec_parse (p : bytes) (off : Z) : outcome (clmig_rec * Z) :=
  let n := zlen p in
  let c := pc_rcur_init (zdrop off p) in
  guard pc_rfits c CLMIG_RHDR;
  let! (ttl, collen, klen, vlen, ver, flags) := clmig_rec_hdr_parse (zdrop off p) in
  guard negb (off + CLMIG_RHDR + collen + klen + vlen >? n);
  let! col := sub_at p (off + CLMIG_RHDR) collen in
  let! key := sub_at p (off + CLMIG_RHDR + collen) klen in
  let! val := sub_at p (off + CLMIG_RHDR + collen + klen) vlen in
  Ret (mk_mrec ttl col key val ver flags, off + CLMIG_RHDR + collen + klen + vlen).

Definition clmig_group_req (g : bytes) : outcome Z := pc_g32 (zdrop 1 g).
Definition clmig_group_node (g : bytes) : outcome Z := pc_g16 (zdrop 5 g).
Definition clmig_group_count (g : bytes) : outcome Z := pc_g16 (zdrop 7 g).

(** The returned length and the bytes left at [buf]. *)
Definition clmig_group_hdr (cap type req node count : Z) : Z * bytes :=
  let c := pc_wcur_init cap in
  let c := pc_w8 type c in
  let c := pc_w32 req c in
  let c := pc_w16 (u16 node) c in
  let c := pc_w16 (u16 count) c in
  built (pc_wcur_len c) c.

Record clmig_single := mk_single {
  sg_req : Z; sg_node : Z; sg_ttl_left : Z; sg_col : bytes; sg_key : bytes; sg_val : bytes;
}.

Definition clmig_single_size (collen klen vlen : Z) : Z := CLMIG_SHDR + collen + klen + vlen.

Definition clmig_single_write (cap type : Z) (s : clmig_single) : Z * bytes :=
  let c := pc_wcur_init cap in
  let c := pc_w8 type c in
  let c := pc_w32 (sg_req s) c in
  let c := pc_w16 (u16 (sg_node s)) c in
  let c := pc_w32 (sg_ttl_left s) c in
  let c := pc_w8 (zlen (sg_col s)) c in
  let c := pc_w16 (u16 (zlen (sg_key s))) c in
  let c := pc_wraw (sg_col s) c in
  let c := pc_wraw (sg_key s) c in
  let c := if zlen (sg_val s) =? 0 then c else pc_wraw (sg_val s) c in
  built (pc_wcur_len c) c.

Definition clmig_single_parse (p : bytes) : outcome clmig_single :=
  let n := zlen p in
  let! c := pc_rskip (pc_rcur_init p) 1 in
  guard pc_rfits c (CLMIG_SHDR - 1);
  let! (req, c) := pc_ru32 c in
  let! (node, c) := pc_ru16 c in
  let! (ttl, c) := pc_ru32 c in
  let! (collen, c) := pc_ru8 c in
  let! (klen, c) := pc_ru16 c in
  guard negb (n <? CLMIG_SHDR + collen + klen);
  let! col := sub_at p CLMIG_SHDR collen in
  let! key := sub_at p (CLMIG_SHDR + collen) klen in
  let! val := sub_at p (CLMIG_SHDR + collen + klen) (u32 (n - CLMIG_SHDR - collen - klen)) in
  Ret (mk_single req node ttl col key val).

Definition clmig_ack_write (cap type req ok : Z) (stored : option Z) : Z * bytes :=
  let c := pc_wcur_init cap in
  let c := pc_w8 type c in
  let c := pc_w32 req c in
  let c := pc_w8 ok c in
  let c := match stored with Some s => pc_w16 (u16 s) c | None => c end in
  built (pc_wcur_len c) c.

(** [req], [ok], [stored]. *)
Definition clmig_ack_parse (p : bytes) : outcome (Z * Z * Z) :=
  let! c := pc_rskip (pc_rcur_init p) 1 in
  guard pc_rfits c (4 + 1);
  let! (req, c) := pc_ru32 c in
  let! (ok, c) := pc_ru8 c in
  let! stored := (if pc_rfits c 2 then let! (s, _) := pc_ru16 c in Ret s else Ret 0) in
  Ret (req, ok, stored).

(** * The gather buffer *)

(** [g_b] is the whole allocation; [g_open] is [None] for [CLMIG_NO_GROUP]. *)
Record clmig_buf := mk_gbuf { g_b : bytes; g_cap : Z; g_len : Z; g_open : option Z }.

(** [b] is what [malloc] gave. *)
Definition clmig_buf_init (b : bytes) : clmig_buf := mk_gbuf b (zlen b) 0 None.
Definition clmig_buf_reset (g : clmig_buf) : clmig_buf := mk_gbuf (g_b g) (g_cap g) 0 None.

(** The header a fresh group's caller must stamp is at [b + open + 2]. *)
Definition clmig_open_for (g : clmig_buf) (need ghdr gather_cap : Z) : outcome (Z * clmig_buf) :=
  let! open :=
    match g_open g with
    | None => Ret None
    | Some o => let! glen := pc_g16 (zdrop o (g_b g)) in Ret (if glen + need >? gather_cap then None else Some o)
    end in
  match open with
  | None =>
      if g_len g + 2 + ghdr + need >? g_cap g then Ret (-1, mk_gbuf (g_b g) (g_cap g) (g_len g) None)
      else Ret (1, mk_gbuf (blit (g_b g) (g_len g) (pc_p16 (u16 ghdr))) (g_cap g) (g_len g + (2 + ghdr)) (Some (g_len g)))
  | Some o =>
      if g_len g + need >? g_cap g then Ret (-1, mk_gbuf (g_b g) (g_cap g) (g_len g) (Some o))
      else Ret (0, mk_gbuf (g_b g) (g_cap g) (g_len g) (Some o))
  end.

(** The caller writes the record's bytes at [clmig_record_at]. *)
Definition clmig_record_at (g : clmig_buf) : Z := g_len g.

Definition clmig_record_done (g : clmig_buf) (n cnt_off : Z) : outcome clmig_buf :=
  match g_open g with
  | None => Oob
  | Some o =>
      let! glen := pc_g16 (zdrop o (g_b g)) in
      let b := blit (g_b g) o (pc_p16 (u16 (glen + n))) in
      let! cnt := pc_g16 (zdrop (o + 2 + cnt_off) b) in
      Ret (mk_gbuf (blit b (o + 2 + cnt_off) (pc_p16 (u16 (cnt + 1)))) (g_cap g) (g_len g + n) (Some o))
  end.

(** The datagram at [off] and the offset behind it. *)
Definition clmig_group_walk (g : clmig_buf) (off : Z) : outcome (bytes * Z) :=
  guard negb (off + 2 >? g_len g);
  let! glen := pc_g16 (zdrop off (g_b g)) in
  let! p := sub_at (g_b g) (off + 2) glen in
  Ret (p, off + (2 + glen)).

(** * Their use *)

Definition MIG_GATHER_CAP : Z := 56000.
Definition MIG_BATCH_CAP : Z := Z.shiftl 4 20 + Z.shiftl 64 10.

(** [mig_cb]'s collection of one record: [false] where the batch is full. *)
Definition mig_gather (g : clmig_buf) (type req node : Z) (r : clmig_rec) : outcome (bool * clmig_buf) :=
  let n := clmig_rec_size (zlen (mr_col r)) (zlen (mr_key r)) (zlen (mr_val r)) in
  let! (opened, g) := clmig_open_for g n CLMIG_GHDR MIG_GATHER_CAP in
  if opened <? 0 then Ret (false, g)
  else
    let! g := match g_open g with
      | None => Oob
      | Some o => Ret (if opened =? 0 then g
                       else mk_gbuf (blit (g_b g) (o + 2) (clmig_group_hdr CLMIG_GHDR type req node 0).2) (g_cap g) (g_len g) (g_open g))
      end in
    let g := mk_gbuf (blit (g_b g) (clmig_record_at g) (clmig_rec_write r)) (g_cap g) (g_len g) (g_open g) in
    let! g := clmig_record_done g n 7 in
    Ret (true, g).

(** The pump's walk of the finished groups. *)
Fixpoint mig_walk (fuel : nat) (g : clmig_buf) (off : Z) : outcome (list bytes) :=
  match fuel with
  | O => Ret []
  | S fuel =>
      match clmig_group_walk g off with
      | Ret (p, off) => let! ps := mig_walk fuel g off in Ret (p :: ps)
      | Rej => Ret []
      | Oob => Oob
      end
  end.

(** [handle_migrate_many]: the records of a group, up to its count. *)
Fixpoint many_recs (cnt : nat) (pt : bytes) (off : Z) : outcome (list clmig_rec) :=
  match cnt with
  | O => Ret []
  | S cnt =>
      match clmig_rec_parse pt off with
      | Ret (r, off) => let! rs := many_recs cnt pt off in Ret (r :: rs)
      | Rej => Ret []
      | Oob => Oob
      end
  end.

Definition handle_many (pt : bytes) : outcome (Z * list clmig_rec) :=
  guard negb (zlen pt <? CLMIG_GHDR);
  let! req := clmig_group_req pt in
  let! cnt := clmig_group_count pt in
  let! rs := many_recs (Z.to_nat cnt) pt CLMIG_GHDR in
  Ret (req, rs).

(** * The window's accounts *)

(** What a run has seen: records and datagrams tracked, records acknowledged,
    datagrams sent again. *)
Record win_acct := mk_acct { a_recs : Z; a_dgrams : Z; a_acked : Z; a_resent : Z }.

Inductive win_op : Type := WTrack (req recs off now : Z) | WAck (req : Z) | WRetransmit (now : Z).

Definition win_step (st : clmig * win_acct) (o : win_op) : clmig * win_acct :=
  let '(m, a) := st in
  match o with
  | WTrack req recs off now =>
      let '(ok, m) := clmig_track m req recs off now in
      (m, if ok then mk_acct (a_recs a + recs) (a_dgrams a + 1) (a_acked a) (a_resent a) else a)
  | WAck req => let '(r, m) := clmig_ack m req in (m, mk_acct (a_recs a) (a_dgrams a) (a_acked a + r) (a_resent a))
  | WRetransmit now =>
      let '(offs, m) := clmig_retransmit m now in (m, mk_acct (a_recs a) (a_dgrams a) (a_acked a) (a_resent a + zlen offs))
  end.

Definition win_op_ok (o : win_op) : Prop :=
  match o with WTrack req recs _ _ => req <> 0 /\ 0 <= recs | _ => True end.

(** A slot's share: its records, whether it is in flight, its re-sends left. *)
Definition sl_live (s : clmig_slot) : Z := if sl_req s =? 0 then 0 else 1.
Definition sl_lost (s : clmig_slot) : Z := if sl_req s =? 0 then 0 else sl_recs s.
Definition sl_left (s : clmig_slot) : Z := if sl_req s =? 0 then 0 else CLMIG_RETX - sl_retx s.
Definition slot_ok (s : clmig_slot) : Prop := 0 <= sl_retx s <= CLMIG_RETX /\ 0 <= sl_recs s.

Definition sum_of (f : clmig_slot -> Z) (l : list clmig_slot) : Z := foldr (fun s acc => f s + acc) 0 l.

Lemma sum_of_cons f s l : sum_of f (s :: l) = f s + sum_of f l.
Proof. done. Qed.

Lemma track_slots_spec l req recs off now :
  req <> 0 -> 0 <= recs -> Forall slot_ok l ->
  match track_slots l req recs off now with
  | Some l' => Forall slot_ok l' /\ length l' = length l /\ sum_of sl_live l' = sum_of sl_live l + 1 /\
               sum_of sl_lost l' = sum_of sl_lost l + recs /\ sum_of sl_left l' = sum_of sl_left l + CLMIG_RETX
  | None => sum_of sl_live l = zlen l
  end.
Proof.
  intros Hreq Hrecs Hok. induction Hok as [|s l Hs Hl IH]; [done|]. cbn [track_slots].
  destruct (sl_req s =? 0) eqn:E; cbn [negb]; bool_facts.
  - rewrite !sum_of_cons. unfold sl_live at 1 3, sl_lost at 1 3, sl_left at 1 3. cbn [sl_req sl_recs sl_retx].
    rewrite (proj2 (Z.eqb_neq req 0)), E by done. cbn [Z.eqb]. split_and!; [constructor; [unfold slot_ok, CLMIG_RETX; cbn; lia|done]|done|lia..].
  - destruct (track_slots l req recs off now) as [l'|]; cbn [fmap option_fmap option_map].
    + destruct IH as (H1 & H2 & H3 & H4 & H5). rewrite !sum_of_cons, H3, H4, H5. split_and!; [by constructor|cbn; lia|lia..].
    + rewrite sum_of_cons, IH, zlen_cons. unfold sl_live. by rewrite (proj2 (Z.eqb_neq _ _)).
Qed.

Lemma ack_slots_spec l req :
  req <> 0 -> Forall slot_ok l ->
  let '(r, l') := ack_slots l req in
  Forall slot_ok l' /\ length l' = length l /\ sum_of sl_lost l = sum_of sl_lost l' + r /\ 0 <= r /\
  sum_of sl_left l' <= sum_of sl_left l /\ sum_of sl_live l' <= sum_of sl_live l.
Proof.
  intros Hreq Hok. induction Hok as [|s l Hs Hl IH]; [cbn; split_and!; done|]. cbn [ack_slots].
  destruct (sl_req s =? req) eqn:E; cbn [negb]; bool_facts.
  - destruct Hs as [[H1 H2] H3]. rewrite !sum_of_cons. unfold sl_live at 1 3, sl_lost at 1 3, sl_left at 1 3. cbn [sl_req sl_recs sl_retx].
    rewrite (proj2 (Z.eqb_neq (sl_req s) 0)) by congruence. cbn [Z.eqb]. unfold CLMIG_RETX in *.
    split_and!; [constructor; [unfold slot_ok, CLMIG_RETX; cbn; lia|done]|done|lia..].
  - destruct (ack_slots l req) as [r l']. destruct IH as (G1 & G2 & G3 & G4 & G5 & G6). rewrite !sum_of_cons.
    split_and!; [by constructor|cbn; lia|lia..].
Qed.

Lemma retx_slots_spec l now :
  Forall slot_ok l ->
  let '(offs, l') := retx_slots l now in
  Forall slot_ok l' /\ length l' = length l /\ sum_of sl_lost l' = sum_of sl_lost l /\
  sum_of sl_live l' = sum_of sl_live l /\ sum_of sl_left l' + zlen offs = sum_of sl_left l.
Proof.
  intros Hok. induction Hok as [|s l Hs Hl IH]; [done|]. cbn [retx_slots]. destruct (retx_slots l now) as [offs l'].
  destruct IH as (G1 & G2 & G3 & G4 & G5). destruct (_ || _) eqn:E.
  - rewrite !sum_of_cons. split_and!; [by constructor|cbn; lia|lia..].
  - bool_facts. destruct Hs as [[Ha Hb] Hc]. unfold CLMIG_RETX in *. rewrite !sum_of_cons, zlen_cons, u8_id by (unfold is_u8; lia).
    unfold sl_live at 1 3, sl_lost at 1 3, sl_left at 1 3. cbn [sl_req sl_recs sl_retx]. rewrite (proj2 (Z.eqb_neq (sl_req s) 0)) by done.
    unfold CLMIG_RETX. split_and!; [constructor; [unfold slot_ok, CLMIG_RETX; cbn; lia|done]|cbn; lia|lia..].
Qed.

Lemma left_nonneg l : Forall slot_ok l -> 0 <= sum_of sl_left l.
Proof.
  induction 1 as [|s l [Hs _] Hl IH]; [done|]. rewrite sum_of_cons. unfold sl_left at 1. destruct (_ =? 0); lia.
Qed.

Lemma live_bound l : 0 <= sum_of sl_live l <= zlen l.
Proof. induction l as [|s l IH]; [done|]. rewrite sum_of_cons, zlen_cons. unfold sl_live at 1 3. destruct (_ =? 0); lia. Qed.

Record win_inv (st : clmig * win_acct) : Prop := {
  wi_slots : Forall slot_ok (m_out st.1);
  wi_size : length (m_out st.1) = (CLMIG_WINDOW * 2)%nat;
  wi_recs : a_recs st.2 = a_acked st.2 + sum_of sl_lost (m_out st.1);
  wi_resent : a_resent st.2 + sum_of sl_left (m_out st.1) <= CLMIG_RETX * a_dgrams st.2;
}.

Lemma win_step_inv st o : win_inv st -> win_op_ok o -> win_inv (win_step st o).
Proof.
  destruct st as [[out tot] a]. intros [H1 H2 H3 H4] Ho. cbn [fst snd m_out] in *. destruct o as [req recs off now|req|now]; cbn [win_step win_op_ok] in *.
  - unfold clmig_track. cbn [m_out]. destruct Ho as [Hr Hc]. pose proof (track_slots_spec out req recs off now Hr Hc H1) as Hs.
    destruct (track_slots _ _ _ _ _) as [out'|]; [|by constructor]. destruct Hs as (G1 & G2 & G3 & G4 & G5).
    constructor; cbn [fst snd m_out a_recs a_dgrams a_acked a_resent]; [done|congruence|lia|unfold CLMIG_RETX in *; lia].
  - unfold clmig_ack. cbn [m_out]. destruct (req =? 0) eqn:E; bool_facts.
    + constructor; cbn [fst snd m_out a_recs a_dgrams a_acked a_resent]; try done; lia.
    + pose proof (ack_slots_spec out req E H1) as Hs. destruct (ack_slots out req) as [r out'].
      destruct Hs as (G1 & G2 & G3 & G4 & G5 & G6).
      constructor; cbn [fst snd m_out a_recs a_dgrams a_acked a_resent]; [done|congruence|lia|lia].
  - unfold clmig_retransmit. cbn [m_out]. pose proof (retx_slots_spec out now H1) as Hs. destruct (retx_slots out now) as [offs out'].
    destruct Hs as (G1 & G2 & G3 & G4 & G5).
    constructor; cbn [fst snd m_out a_recs a_dgrams a_acked a_resent]; [done|congruence|lia|lia].
Qed.

(** The migration window loses count of nothing: after any sequence of sends,
    acknowledgements (duplicates and strays included) and re-send passes, the
    records sent are exactly those acknowledged plus those the window reports as
    outstanding; at most six datagrams are in flight, a send is refused only when
    six are; and no datagram is sent again more than twice. *)
Theorem clmig_window_accounts m0 ops :
  Forall win_op_ok ops ->
  let '(m, a) := foldl win_step (clmig_reset m0, mk_acct 0 0 0 0) ops in
  a_recs a = a_acked a + clmig_lost_records m /\
  0 <= clmig_inflight m <= 6 /\
  a_resent a <= CLMIG_RETX * a_dgrams a /\
  (forall req recs off now, req <> 0 -> 0 <= recs -> (clmig_track m req recs off now).1 = false <-> clmig_inflight m = 6).
Proof.
  intros Hops. assert (win_inv (foldl win_step (clmig_reset m0, mk_acct 0 0 0 0) ops)) as Hinv.
  { assert (win_inv (clmig_reset m0, mk_acct 0 0 0 0)) as H0.
    { constructor; cbn; try done. repeat (constructor; [by vm_compute|]). constructor. }
    revert H0. generalize (clmig_reset m0, mk_acct 0 0 0 0). induction Hops as [|o ops Ho _ IH]; intros st H0; [done|].
    by apply IH, win_step_inv. }
  destruct (foldl _ _ _) as [m a]. destruct Hinv as [H1 H2 H3 H4]. cbn [fst snd] in *.
  change (clmig_lost_records m) with (sum_of sl_lost (m_out m)). change (clmig_inflight m) with (sum_of sl_live (m_out m)).
  pose proof (live_bound (m_out m)) as Hl. pose proof (left_nonneg _ H1). assert (zlen (m_out m) = 6) as Hz by (unfold zlen; by rewrite H2).
  split_and!; [done|lia|lia|lia|]. intros req recs off now Hr Hc. unfold clmig_track.
  pose proof (track_slots_spec (m_out m) req recs off now Hr Hc H1) as Hs. destruct (track_slots _ _ _ _ _) as [out'|].
  - destruct Hs as (_ & G2 & G3 & _). split; [done|]. intros Hf. pose proof (live_bound out') as Hb. unfold zlen in *. lia.
  - split; [lia|done].
Qed.

Lemma clmig_window_accounts_witness :
  let '(m, a) := foldl win_step (clmig_reset (mk_clmig [] 0), mk_acct 0 0 0 0)
                   [WTrack 7 10 0 0; WTrack 8 4 100 5; WAck 7; WAck 7; WRetransmit 2000; WTrack 9 1 200 2001] in
  a_recs a = a_acked a + clmig_lost_records m /\ 0 <= clmig_inflight m <= 6 /\ a_resent a <= CLMIG_RETX * a_dgrams a /\
  (forall req recs off now, req <> 0 -> 0 <= recs -> (clmig_track m req recs off now).1 = false <-> clmig_inflight m = 6).
Proof.
  apply (clmig_window_accounts (mk_clmig [] 0) [WTrack 7 10 0 0; WTrack 8 4 100 5; WAck 7; WAck 7; WRetransmit 2000; WTrack 9 1 200 2001]).
  repeat (constructor; [by vm_compute|]). constructor.
Defined.

(** * Records on the wire *)

Definition rec_frame (r : clmig_rec) : bytes :=
  pc_p32 (mr_ttl_left r) ++ [u8 (zlen (mr_col r))] ++ pc_p16 (u16 (zlen (mr_key r))) ++ pc_p32 (zlen (mr_val r)) ++
  pc_p64 (mr_ver r) ++ [u8 (mr_flags r)] ++ mr_col r ++ mr_key r ++ mr_val r.

Lemma zlen_rec_frame r : zlen (rec_frame r) = clmig_rec_size (zlen (mr_col r)) (zlen (mr_key r)) (zlen (mr_val r)).
Proof. unfold rec_frame, clmig_rec_size, CLMIG_RHDR. rewrite !zlen_app, !zlen_cons, !zlen_nil, !zlen_p32, zlen_p16, zlen_p64. lia. Qed.

Lemma rec_write_frame r : clmig_rec_write r = rec_frame r.
Proof.
  unfold clmig_rec_write, clmig_rec_hdr_write. cbv zeta. unfold_w. rewrite !wseq_built.
  - cbn [w_out concat]. unfold rec_frame. rewrite !app_nil_r, <- !app_assoc. done.
  - cbn [concat]. rewrite !zlen_app, zlen_nil. lia.
  - cbn [concat]. unfold CLMIG_RHDR. rewrite !zlen_app, !zlen_cons, !zlen_nil, !zlen_p32, zlen_p16, zlen_p64. lia.
Qed.

(** Fields that fit their places on the wire. *)
Record mrec_wf (r : clmig_rec) : Prop := {
  mw_ttl : is_u32 (mr_ttl_left r);
  mw_col : zlen (mr_col r) <= 255;
  mw_key : zlen (mr_key r) <= 65535;
  mw_val : is_u32 (zlen (mr_val r));
  mw_ver : is_u64 (mr_ver r);
  mw_flags : is_u8 (mr_flags r);
}.

Lemma hdr_parse_frame r X : mrec_wf r ->
  clmig_rec_hdr_parse (rec_frame r ++ X) =
    Ret (mr_ttl_left r, zlen (mr_col r), zlen (mr_key r), zlen (mr_val r), mr_ver r, mr_flags r).
Proof.
  intros [Ht Hc Hk Hv He Hf]. pose proof (zlen_nonneg (mr_col r)). pose proof (zlen_nonneg (mr_key r)).
  unfold clmig_rec_hdr_parse, rec_frame, pc_rcur_init. rewrite <- !app_assoc. rewrite ru32_app. cbn [obind app]. rewrite ru8_cons. cbn [obind].
  rewrite ru16_app. cbn [obind]. rewrite ru32_app. cbn [obind]. rewrite ru64_app. cbn [obind]. rewrite ru8_cons. cbn [obind].
  rewrite !u32_id, u64_id, !u8_id, !u16_id by (done || unfold is_u8, is_u16; pow2; lia || (apply u16_range || apply u8_range)). done.
Qed.

Lemma rec_parse_frame P r X : mrec_wf r ->
  clmig_rec_parse (P ++ rec_frame r ++ X) (zlen P) = Ret (r, zlen P + zlen (rec_frame r)).
Proof.
  intros Hwf. pose proof (zlen_rec_frame r) as Hlen. unfold clmig_rec_size in Hlen.
  pose proof (zlen_nonneg (mr_col r)). pose proof (zlen_nonneg (mr_key r)). pose proof (zlen_nonneg (mr_val r)). pose proof (zlen_nonneg X).
  unfold clmig_rec_parse, pc_rfits, pc_rcur_init. cbn [r_p]. cbv zeta. rewrite zdrop_app by done. rewrite !zlen_app.
  rewrite (proj2 (Z.leb_le _ _)) by (unfold CLMIG_RHDR in *; lia). rewrite hdr_parse_frame by done. cbn [obind].
  destruct (_ >? _) eqn:E; bool_facts; [lia|]. cbn [negb].
  set (h := pc_p32 (mr_ttl_left r) ++ [u8 (zlen (mr_col r))] ++ pc_p16 (u16 (zlen (mr_key r))) ++ pc_p32 (zlen (mr_val r)) ++
    pc_p64 (mr_ver r) ++ [u8 (mr_flags r)]).
  assert (zlen h = 20) as Hh by (unfold h; rewrite !zlen_app, !zlen_cons, !zlen_nil, !zlen_p32, zlen_p16, zlen_p64; lia).
  assert (P ++ rec_frame r ++ X = (P ++ h) ++ mr_col r ++ mr_key r ++ mr_val r ++ X) as ->
    by (unfold rec_frame, h; by rewrite <- !app_assoc).
  unfold CLMIG_RHDR in *. rewrite (sub_at_app (P ++ h) (mr_col r)) by (rewrite ?zlen_app; lia). cbn [obind].
  rewrite (app_assoc (P ++ h)). rewrite (sub_at_app ((P ++ h) ++ mr_col r) (mr_key r)) by (rewrite ?zlen_app; lia). cbn [obind].
  rewrite (app_assoc ((P ++ h) ++ mr_col r)). rewrite (sub_at_app (((P ++ h) ++ mr_col r) ++ mr_key r) (mr_val r)) by (rewrite ?zlen_app; lia).
  cbn [obind]. rewrite Hlen. destruct r; cbn in *. f_equal. f_equal. lia.
Qed.

Lemma many_recs_frames rs P X : Forall mrec_wf rs ->
  many_recs (length rs) (P ++ concat (rec_frame <$> rs) ++ X) (zlen P) = Ret rs.
Proof.
  intros Hrs. revert P. induction Hrs as [|r rs Hr Hrs IH]; intros P; [done|]. cbn [length many_recs fmap list_fmap concat].
  rewrite <- app_assoc, rec_parse_frame by done. specialize (IH (P ++ rec_frame r)). rewrite zlen_app, <- app_assoc in IH.
  rewrite IH. done.
Qed.

(** * Groups *)

Record group := mk_group { gr_type : Z; gr_req : Z; gr_node : Z; gr_recs : list clmig_rec }.

Definition group_head (g : group) : bytes := [u8 (gr_type g)] ++ pc_p32 (gr_req g) ++ pc_p16 (u16 (gr_node g)).

(** One datagram, and as it lies in the buffer behind its length. *)
Definition group_bytes (g : group) : bytes :=
  group_head g ++ pc_p16 (zlen (gr_recs g)) ++ concat (rec_frame <$> gr_recs g).
Definition stored (g : group) : bytes := pc_p16 (zlen (group_bytes g)) ++ group_bytes g.

Definition group_wf (g : group) : Prop :=
  is_u32 (gr_req g) /\ Forall mrec_wf (gr_recs g) /\ gr_recs g <> [] /\ zlen (group_bytes g) <= 65535.

Lemma zlen_head g : zlen (group_head g) = 7.
Proof. unfold group_head. rewrite !zlen_app, zlen_cons, zlen_nil, zlen_p32, zlen_p16. lia. Qed.

Lemma zlen_group g : zlen (group_bytes g) = 9 + zlen (concat (rec_frame <$> gr_recs g)).
Proof. unfold group_bytes. rewrite !zlen_app, zlen_head, zlen_p16. lia. Qed.

Lemma recs_count rs : 20 * zlen rs <= zlen (concat (rec_frame <$> rs)).
Proof.
  induction rs as [|r rs IH]; [done|]. cbn [fmap list_fmap concat]. rewrite zlen_app, zlen_cons, zlen_rec_frame. unfold clmig_rec_size, CLMIG_RHDR.
  pose proof (zlen_nonneg (mr_col r)). pose proof (zlen_nonneg (mr_key r)). pose proof (zlen_nonneg (mr_val r)). lia.
Qed.

Lemma handle_group g : group_wf g -> handle_many (group_bytes g) = Ret (gr_req g, gr_recs g).
Proof.
  intros (Hreq & Hrs & _ & Hlen). pose proof (zlen_group g) as Hz. pose proof (recs_count (gr_recs g)). pose proof (zlen_nonneg (gr_recs g)).
  unfold handle_many, CLMIG_GHDR. rewrite (proj2 (Z.ltb_ge _ _)) by lia. cbn [negb].
  unfold clmig_group_req. change (zdrop 1 (group_bytes g)) with (pc_p32 (gr_req g) ++ pc_p16 (u16 (gr_node g)) ++ pc_p16 (zlen (gr_recs g)) ++ concat (rec_frame <$> gr_recs g)).
  rewrite pc_g32_p32, u32_id by done. cbn [obind]. unfold clmig_group_count.
  change (zdrop 7 (group_bytes g)) with (pc_p16 (zlen (gr_recs g)) ++ concat (rec_frame <$> gr_recs g)).
  rewrite pc_g16_p16, u16_id by (unfold is_u16; lia). cbn [obind].
  pose proof (many_recs_frames (gr_recs g) (group_head g ++ pc_p16 (zlen (gr_recs g))) [] Hrs) as Hm.
  rewrite app_nil_r, zlen_app, zlen_head, zlen_p16, <- app_assoc in Hm. change (7 + 2) with 9 in Hm. fold (group_bytes g) in Hm.
  unfold zlen at 1. rewrite Nat2Z.id, Hm. done.
Qed.

(** * Gathering *)

Definition bytes_of (gs : list group) : bytes := concat (stored <$> gs).

Record gb_inv (g : clmig_buf) (gs : list group) (rest : bytes) : Prop := {
  gi_b : g_b g = bytes_of gs ++ rest;
  gi_len : g_len g = zlen (bytes_of gs);
  gi_cap : g_cap g = zlen (g_b g);
  gi_wf : Forall group_wf gs;
  gi_open : g_open g = None \/ exists hs h, gs = hs ++ [h] /\ g_open g = Some (zlen (bytes_of hs));
}.

Lemma bytes_of_app gs hs : bytes_of (gs ++ hs) = bytes_of gs ++ bytes_of hs.
Proof. unfold bytes_of. by rewrite fmap_app, concat_app. Qed.
Lemma bytes_of_one h : bytes_of [h] = stored h.
Proof. unfold bytes_of. cbn. by rewrite app_nil_r. Qed.

(** Cut [n] bytes off a buffer's free room. *)
Lemma room_split n (l : bytes) : 0 <= n <= zlen l -> exists a b, l = a ++ b /\ zlen a = n.
Proof.
  intros Hn. exists (ztake n l), (zdrop n l). split; [symmetry; apply ztake_zdrop|]. rewrite zlen_ztake. lia.
Qed.

(** A record of [n] bytes written behind a group and accounted in its header. *)
Lemma record_append G L h7 c recs R rest fr cap n :
  zlen h7 = 7 -> zlen R = n -> zlen fr = n -> is_u16 L -> is_u16 c ->
  let b := G ++ pc_p16 L ++ h7 ++ pc_p16 c ++ recs ++ R ++ rest in
  let len := zlen (G ++ pc_p16 L ++ h7 ++ pc_p16 c ++ recs) in
  clmig_record_done (mk_gbuf (blit b len fr) cap len (Some (zlen G))) n 7 =
    Ret (mk_gbuf (G ++ pc_p16 (u16 (L + n)) ++ h7 ++ pc_p16 (u16 (c + 1)) ++ recs ++ fr ++ rest) cap (len + n) (Some (zlen G))).
Proof.
  intros H7 HR Hfr HL Hc. cbv zeta.
  assert (blit (G ++ pc_p16 L ++ h7 ++ pc_p16 c ++ recs ++ R ++ rest) (zlen (G ++ pc_p16 L ++ h7 ++ pc_p16 c ++ recs)) fr =
          G ++ pc_p16 L ++ h7 ++ pc_p16 c ++ recs ++ fr ++ rest) as ->.
  { pose proof (blit_mid (G ++ pc_p16 L ++ h7 ++ pc_p16 c ++ recs) R rest fr _ eq_refl ltac:(lia)) as Hb.
    rewrite <- !app_assoc in Hb. exact Hb. }
  unfold clmig_record_done. cbn [g_open g_b g_cap g_len]. rewrite zdrop_app by done. rewrite pc_g16_p16, (u16_id L) by done. cbn [obind].
  rewrite (blit_mid G (pc_p16 L)) by (done || by rewrite !zlen_p16).
  assert (zlen (G ++ pc_p16 (u16 (L + n)) ++ h7) = zlen G + 2 + 7) as Hoff by (rewrite !zlen_app, zlen_p16; lia).
  pose proof (zdrop_app (zlen G + 2 + 7) (G ++ pc_p16 (u16 (L + n)) ++ h7) (pc_p16 c ++ recs ++ fr ++ rest) ltac:(lia)) as Hd.
  rewrite <- !app_assoc in Hd. rewrite Hd, pc_g16_p16, (u16_id c) by done. cbn [obind].
  pose proof (blit_mid (G ++ pc_p16 (u16 (L + n)) ++ h7) (pc_p16 c) (recs ++ fr ++ rest) (pc_p16 (u16 (c + 1))) (zlen G + 2 + 7)
    ltac:(lia) ltac:(by rewrite !zlen_p16)) as Hb.
  rewrite <- !app_assoc in Hb. by rewrite Hb.
Qed.

Lemma group_hdr_bytes type req node : clmig_group_hdr CLMIG_GHDR type req node 0 =
  (9, [u8 type] ++ pc_p32 req ++ pc_p16 (u16 node) ++ pc_p16 0).
Proof.
  unfold clmig_group_hdr, built. cbv zeta. unfold_w. rewrite !wseq_built; [cbn [w_ok w_out concat]|].
  - rewrite app_nil_r. change (u16 0) with 0. f_equal.
  - cbn [concat]. rewrite !zlen_app, zlen_cons, !zlen_nil, zlen_p32, !zlen_p16. done.
Qed.

Definition rec_len (r : clmig_rec) : Z := clmig_rec_size (zlen (mr_col r)) (zlen (mr_key r)) (zlen (mr_val r)).

(** A fresh group. *)
Lemma gather_new g gs rest type req node r :
  gb_inv g gs rest -> g_open g = None -> mrec_wf r -> is_u32 req -> 9 + rec_len r <= 65535 ->
  (g_len g + 2 + 9 + rec_len r > g_cap g /\ mig_gather g type req node r = Ret (false, g)) \/
  exists g' rest', mig_gather g type req node r = Ret (true, g') /\ gb_inv g' (gs ++ [mk_group type req node [r]]) rest'.
Proof.
  intros Hinv Hopen Hwf Hreq Hlen. pose proof Hinv as [Hb Hl Hcap Hgs _]. destruct g as [b cap len open]. cbn [g_b g_cap g_len g_open] in *. subst open.
  assert (0 <= rec_len r) as Hpos by (unfold rec_len; rewrite <- zlen_rec_frame; apply zlen_nonneg).
  unfold mig_gather. fold (rec_len r). unfold clmig_open_for. cbn [g_open obind]. unfold CLMIG_GHDR at 1. cbn [g_len g_cap g_b].
  destruct (_ >? cap) eqn:E; bool_facts; [left; split; [lia|done]|right].
  change (1 <? 0) with false. change (1 =? 0) with false. cbn [obind g_open g_b g_len g_cap].
  rewrite group_hdr_bytes. cbn [snd]. unfold clmig_record_at. cbn [g_len]. rewrite rec_write_frame.
  assert (zlen b = zlen (bytes_of gs) + zlen rest) as Hz by (by rewrite Hb, zlen_app).
  destruct (room_split 2 rest ltac:(lia)) as (R1 & rest1 & -> & H1). rewrite zlen_app in Hz.
  destruct (room_split 9 rest1 ltac:(lia)) as (R2 & rest2 & -> & H2). rewrite zlen_app in Hz.
  destruct (room_split (rec_len r) rest2 ltac:(lia)) as (R3 & rest3 & -> & H3). subst b.
  set (G := bytes_of gs) in *. rewrite Hl. change (u16 CLMIG_GHDR) with 9.
  rewrite (blit_mid G R1) by (rewrite ?zlen_p16; lia).
  pose proof (blit_mid (G ++ pc_p16 9) R2 (R3 ++ rest3) ([u8 type] ++ pc_p32 req ++ pc_p16 (u16 node) ++ pc_p16 0) (zlen G + 2)) as Hh.
  rewrite <- !app_assoc in Hh. rewrite Hh; clear Hh;
    [|rewrite zlen_app, zlen_p16; lia|rewrite !zlen_app, zlen_cons, zlen_nil, zlen_p32, !zlen_p16; lia].
  pose proof (record_append G 9 ([u8 type] ++ pc_p32 req ++ pc_p16 (u16 node)) 0 [] R3 rest3 (rec_frame r) cap (rec_len r)) as Ha.
  rewrite app_nil_l, app_nil_r in Ha.
  assert (zlen (G ++ pc_p16 9 ++ ([u8 type] ++ pc_p32 req ++ pc_p16 (u16 node)) ++ pc_p16 0) = zlen G + (2 + 9)) as HL
    by (rewrite !zlen_app, zlen_cons, zlen_nil, zlen_p32, !zlen_p16; lia).
  rewrite HL in Ha. rewrite <- !app_assoc in Ha. unfold CLMIG_GHDR. cbn [Z.eqb g_b g_cap g_len g_open].
  rewrite Ha; clear Ha; [|rewrite !zlen_app, zlen_cons, zlen_nil, zlen_p32, zlen_p16; lia|done|by rewrite zlen_rec_frame|unfold is_u16; lia|unfold is_u16; lia].
  cbn [obind]. eexists _, rest3. split; [reflexivity|].
  set (h := mk_group type req node [r]). assert (zlen (group_bytes h) = 9 + rec_len r) as Hg.
  { rewrite zlen_group. cbn [gr_recs h fmap list_fmap concat]. rewrite app_nil_r, zlen_rec_frame. done. }
  assert (stored h = pc_p16 (u16 (9 + rec_len r)) ++ [u8 type] ++ pc_p32 req ++ pc_p16 (u16 node) ++ pc_p16 (u16 (0 + 1)) ++ rec_frame r) as Hst.
  { unfold stored. rewrite Hg, u16_id by (unfold is_u16; lia). unfold group_bytes, group_head, h. cbn [gr_type gr_req gr_node gr_recs fmap list_fmap concat].
    by rewrite app_nil_r, <- !app_assoc. }
  constructor; cbn [g_b g_len g_cap g_open]; rewrite ?bytes_of_app, ?bytes_of_one.
  - rewrite Hst. fold G. by rewrite <- !app_assoc.
  - rewrite zlen_app. unfold stored. rewrite zlen_app, zlen_p16, Hg. fold G. lia.
  - rewrite Hcap, !zlen_app, !zlen_cons, !zlen_p32, !zlen_p16, zlen_nil, zlen_rec_frame. fold (rec_len r). lia.
  - apply Forall_app; split; [done|]. apply Forall_singleton. split_and!; [done|by apply Forall_singleton|done|lia].
  - right. by exists gs, h.
Qed.

Lemma stored_split h : stored h = pc_p16 (zlen (group_bytes h)) ++ group_head h ++ pc_p16 (zlen (gr_recs h)) ++ concat (rec_frame <$> gr_recs h).
Proof. done. Qed.

(** The group a record joins. *)
Definition add_rec (h : group) (r : clmig_rec) : group := mk_group (gr_type h) (gr_req h) (gr_node h) (gr_recs h ++ [r]).

Lemma zlen_add_rec h r : zlen (group_bytes (add_rec h r)) = zlen (group_bytes h) + rec_len r.
Proof.
  rewrite !zlen_group. cbn [gr_recs add_rec]. rewrite fmap_app, concat_app, zlen_app. cbn [fmap list_fmap concat].
  rewrite app_nil_r, zlen_rec_frame. unfold rec_len. lia.
Qed.

Lemma group_count_u16 h : group_wf h -> is_u16 (zlen (group_bytes h)) /\ is_u16 (zlen (gr_recs h)) /\ is_u16 (zlen (gr_recs h) + 1).
Proof.
  intros (_ & _ & _ & Hl). pose proof (zlen_group h). pose proof (recs_count (gr_recs h)). pose proof (zlen_nonneg (gr_recs h)).
  unfold is_u16. pow2. lia.
Qed.

(** Into the open group. *)
Lemma gather_join g hs h rest type req node r :
  gb_inv g (hs ++ [h]) rest -> g_open g = Some (zlen (bytes_of hs)) -> mrec_wf r ->
  zlen (group_bytes h) + rec_len r <= MIG_GATHER_CAP ->
  (g_len g + rec_len r > g_cap g /\ mig_gather g type req node r = Ret (false, g)) \/
  exists g' rest', mig_gather g type req node r = Ret (true, g') /\ gb_inv g' (hs ++ [add_rec h r]) rest'.
Proof.
  intros Hinv Hopen Hwf Hcap56. pose proof Hinv as [Hb Hl Hcap Hgs _]. destruct g as [b cap len open]. cbn [g_b g_cap g_len g_open] in *. subst open.
  apply Forall_app in Hgs as [Hhs Hh]. rewrite Forall_singleton in Hh. destruct (group_count_u16 h Hh) as (HuL & Huc & Huc1).
  assert (0 <= rec_len r) as Hpos by (unfold rec_len; rewrite <- zlen_rec_frame; apply zlen_nonneg).
  set (G := bytes_of hs) in *. rewrite bytes_of_app, bytes_of_one in Hb, Hl. fold G in Hb, Hl.
  assert (b = G ++ pc_p16 (zlen (group_bytes h)) ++ group_bytes h ++ rest) as Hb' by (rewrite Hb; unfold stored; by rewrite <- !app_assoc).
  unfold mig_gather. fold (rec_len r). unfold clmig_open_for. cbn [g_open g_b]. rewrite Hb', zdrop_app, pc_g16_p16, u16_id by done. cbn [obind].
  destruct (_ >? MIG_GATHER_CAP) eqn:E56; bool_facts; [lia|]. rewrite <- Hb'. cbn [g_len g_cap].
  destruct (_ >? cap) eqn:E; bool_facts; [left; split; [lia|done]|right].
  change (0 <? 0) with false. cbn [obind g_open g_b g_len g_cap Z.eqb]. unfold clmig_record_at. cbn [g_len]. rewrite rec_write_frame.
  assert (zlen b = zlen G + zlen (stored h) + zlen rest) as Hz by (rewrite Hb, !zlen_app; lia). rewrite zlen_app in Hl.
  destruct (room_split (rec_len r) rest ltac:(lia)) as (R & rest' & -> & HR).
  pose proof (record_append G (zlen (group_bytes h)) (group_head h) (zlen (gr_recs h)) (concat (rec_frame <$> gr_recs h)) R rest' (rec_frame r) cap (rec_len r)
    (zlen_head h) HR (zlen_rec_frame r) HuL Huc) as Ha. cbv zeta in Ha.
  rewrite stored_split, <- !app_assoc in Hb. rewrite <- Hb in Ha. rewrite <- stored_split, zlen_app, <- Hl in Ha. rewrite Ha. cbn [obind].
  eexists _, rest'. split; [reflexivity|]. pose proof (zlen_add_rec h r) as Hadd.
  assert (stored (add_rec h r) = pc_p16 (u16 (zlen (group_bytes h) + rec_len r)) ++ group_head h ++ pc_p16 (u16 (zlen (gr_recs h) + 1)) ++
    concat (rec_frame <$> gr_recs h) ++ rec_frame r) as Hst.
  { unfold MIG_GATHER_CAP in *. rewrite stored_split, Hadd, !u16_id by (done || unfold is_u16 in *; lia). cbn [gr_recs add_rec].
    rewrite fmap_app, concat_app, zlen_app. cbn [fmap list_fmap concat]. by rewrite app_nil_r. }
  constructor; cbn [g_b g_len g_cap g_open]; rewrite ?bytes_of_app, ?bytes_of_one; fold G.
  - rewrite Hst. by rewrite <- !app_assoc.
  - rewrite Hl, zlen_app. unfold stored. rewrite !zlen_app, !zlen_p16, Hadd. lia.
  - rewrite Hcap, Hz. rewrite stored_split, !zlen_app, !zlen_p16, zlen_rec_frame. fold (rec_len r). lia.
  - apply Forall_app; split; [done|]. apply Forall_singleton. destruct Hh as (? & ? & ? & ?).
    split_and!; [done|apply Forall_app; split; [done|by apply Forall_singleton]|cbn [gr_recs add_rec]; by destruct (gr_recs h)|unfold MIG_GATHER_CAP in *; lia].
  - right. by exists hs, (add_rec h r).
Qed.

(** Closing the open group changes nothing else. *)
Lemma gather_close g hs h rest type req node r :
  gb_inv g (hs ++ [h]) rest -> g_open g = Some (zlen (bytes_of hs)) -> MIG_GATHER_CAP < zlen (group_bytes h) + rec_len r ->
  mig_gather g type req node r = mig_gather (mk_gbuf (g_b g) (g_cap g) (g_len g) None) type req node r.
Proof.
  intros [Hb Hl Hcap Hgs _] Hopen Hbig. apply Forall_app in Hgs as [_ Hh]. rewrite Forall_singleton in Hh.
  destruct (group_count_u16 h Hh) as (HuL & _ & _). unfold mig_gather. fold (rec_len r). unfold clmig_open_for. rewrite Hopen. cbn [g_open g_b g_len g_cap].
  rewrite Hb, bytes_of_app, bytes_of_one. unfold stored. rewrite <- !app_assoc, zdrop_app, pc_g16_p16, u16_id by done. cbn [obind].
  destruct (_ >? MIG_GATHER_CAP) eqn:E56; bool_facts; [done|lia].
Qed.

(** What a gathered record becomes. *)
Inductive gathered (gs : list group) (type req node : Z) (r : clmig_rec) : list group -> Prop :=
  | gathered_new : gathered gs type req node r (gs ++ [mk_group type req node [r]])
  | gathered_join hs h : gs = hs ++ [h] -> zlen (group_bytes h) + rec_len r <= MIG_GATHER_CAP ->
      gathered gs type req node r (hs ++ [add_rec h r]).

Lemma gather_spec g gs rest type req node r :
  gb_inv g gs rest -> mrec_wf r -> is_u32 req -> 9 + rec_len r <= 65535 ->
  (exists g', mig_gather g type req node r = Ret (false, g') /\ gb_inv g' gs rest /\ g_cap g < g_len g + 11 + rec_len r) \/
  exists g' gs' rest', mig_gather g type req node r = Ret (true, g') /\ gb_inv g' gs' rest' /\ gathered gs type req node r gs'.
Proof.
  intros Hinv Hwf Hreq Hlen. assert (g_open g = None \/ exists o, g_open g = Some o) as [Ho|[o Ho]] by (destruct (g_open g); eauto).
  - destruct (gather_new g gs rest type req node r Hinv Ho Hwf Hreq Hlen) as [[? Hf]|(g' & rest' & Hg & Hi)].
    + left. exists g. split_and!; [done|done|lia].
    + right. exists g', (gs ++ [mk_group type req node [r]]), rest'. split_and!; [done|done|constructor].
  - destruct (gi_open _ _ _ Hinv) as [?|(hs & h & -> & Ho')]; [congruence|].
    destruct (decide (zlen (group_bytes h) + rec_len r <= MIG_GATHER_CAP)) as [Hj|Hj].
    + destruct (gather_join g hs h rest type req node r Hinv Ho' Hwf Hj) as [[? Hf]|(g' & rest' & Hg & Hi)].
      * left. exists g. split_and!; [done|done|lia].
      * right. eexists g', _, rest'. split_and!; [done|done|by econstructor].
    + rewrite (gather_close g hs h rest) by (done || lia).
      assert (gb_inv (mk_gbuf (g_b g) (g_cap g) (g_len g) None) (hs ++ [h]) rest) as Hinv' by (destruct Hinv; constructor; auto).
      destruct (gather_new _ _ rest type req node r Hinv' eq_refl Hwf Hreq Hlen) as [[? Hf]|(g' & rest' & Hg & Hi)].
      * left. eexists. split_and!; [done|done|]. cbn in *. lia.
      * right. eexists g', _, rest'. split_and!; [done|done|constructor].
Qed.

Lemma walk_groups g gs rest fuel hs :
  gb_inv g (hs ++ gs) rest -> (length gs < fuel)%nat -> mig_walk fuel g (zlen (bytes_of hs)) = Ret (group_bytes <$> gs).
Proof.
  revert fuel hs. induction gs as [|h gs IH]; intros fuel hs Hinv Hf; (destruct fuel as [|fuel]; [cbn in Hf; lia|]); cbn [mig_walk].
  - unfold clmig_group_walk. rewrite (gi_len _ _ _ Hinv), app_nil_r. destruct (_ >? _) eqn:E; bool_facts; [done|lia].
  - pose proof Hinv as [Hb Hl Hcap Hgs _]. apply Forall_app in Hgs as [_ Hgs]. inversion Hgs as [|? ? Hh _]; subst.
    destruct (group_count_u16 h Hh) as (HuL & _ & _).
    assert (g_b g = bytes_of hs ++ pc_p16 (zlen (group_bytes h)) ++ group_bytes h ++ bytes_of gs ++ rest) as Hb'.
    { rewrite Hb, bytes_of_app. change (bytes_of (h :: gs)) with (stored h ++ bytes_of gs). unfold stored. by rewrite <- !app_assoc. }
    rewrite bytes_of_app in Hl. change (bytes_of (h :: gs)) with (stored h ++ bytes_of gs) in Hl. rewrite !zlen_app in Hl.
    assert (zlen (stored h) = 2 + zlen (group_bytes h)) as Hs by (unfold stored; rewrite zlen_app, zlen_p16; lia).
    pose proof (zlen_nonneg (bytes_of gs)). pose proof (zlen_nonneg (group_bytes h)).
    unfold clmig_group_walk. destruct (_ >? _) eqn:E; bool_facts; [lia|]. cbn [negb].
    rewrite Hb', zdrop_app, pc_g16_p16, u16_id by done. cbn [obind].
    rewrite app_assoc, sub_at_app by (rewrite ?zlen_app, ?zlen_p16; lia). cbn [obind].
    specialize (IH fuel (hs ++ [h])). rewrite <- app_assoc in IH. cbn [app] in IH.
    rewrite bytes_of_app, bytes_of_one, zlen_app, Hs in IH. rewrite IH by (done || cbn in Hf; lia). done.
Qed.

(** The capacity is the allocation's, for good. *)
Lemma gather_cap g type req node r ok g' : mig_gather g type req node r = Ret (ok, g') -> g_cap g' = g_cap g.
Proof.
  unfold mig_gather. intros H. apply obind_Ret in H as ([rc g1] & H1 & H).
  assert (g_cap g1 = g_cap g) as Hc.
  { unfold clmig_open_for in H1. apply obind_Ret in H1 as (o & _ & H1). by repeat case_match; simplify_eq. }
  case_match; [by simplify_eq|]. apply obind_Ret in H as (g2 & H2 & H). apply obind_Ret in H as (g3 & H3 & H). simplify_eq.
  assert (g_cap g2 = g_cap g1) as Hc2 by (by repeat case_match; simplify_eq).
  unfold clmig_record_done in H3. case_match; [|done]. apply obind_Ret in H3 as (? & _ & H3). apply obind_Ret in H3 as (? & _ & H3).
  simplify_eq. cbn. congruence.
Qed.

(** A run of [mig_cb]: it stops where the batch is full. *)
Record mig_item := mk_item { it_type : Z; it_req : Z; it_node : Z; it_rec : clmig_rec }.

Fixpoint gather_all (g : clmig_buf) (items : list mig_item) : outcome (clmig_buf * list clmig_rec) :=
  match items with
  | [] => Ret (g, [])
  | i :: items =>
      let! (ok, g) := mig_gather g (it_type i) (it_req i) (it_node i) (it_rec i) in
      if (ok : bool) then let! (g, rs) := gather_all g items in Ret (g, it_rec i :: rs) else Ret (g, [])
  end.

Definition item_ok (i : mig_item) : Prop := mrec_wf (it_rec i) /\ is_u32 (it_req i) /\ 9 + rec_len (it_rec i) <= 65535.

Definition recs_of (gs : list group) : list clmig_rec := concat (gr_recs <$> gs).

Lemma gathered_recs gs type req node r gs' : gathered gs type req node r gs' ->
  recs_of gs' = recs_of gs ++ [r] /\ (length gs' <= S (length gs))%nat /\ zlen (bytes_of gs') <= zlen (bytes_of gs) + 11 + rec_len r /\
  (Forall (fun h => zlen (group_bytes h) <= MIG_GATHER_CAP \/ zlen (gr_recs h) = 1) gs ->
   Forall (fun h => zlen (group_bytes h) <= MIG_GATHER_CAP \/ zlen (gr_recs h) = 1) gs').
Proof.
  assert (forall h, zlen (stored h) = 2 + zlen (group_bytes h)) as Hs by (intros; unfold stored; rewrite zlen_app, zlen_p16; lia).
  intros [|hs h -> Hj]; unfold recs_of; rewrite ?fmap_app, ?concat_app, ?length_app, ?bytes_of_app, ?bytes_of_one, ?zlen_app, ?Hs.
  - assert (zlen (group_bytes (mk_group type req node [r])) = 9 + rec_len r) as ->.
    { rewrite zlen_group. cbn [gr_recs fmap list_fmap concat]. by rewrite app_nil_r, zlen_rec_frame. }
    split_and!; [done|cbn; lia|lia|]. intros Hall. apply Forall_app; split; [done|]. apply Forall_singleton. by right.
  - rewrite zlen_add_rec. assert (0 <= rec_len r) by (unfold rec_len; rewrite <- zlen_rec_frame; apply zlen_nonneg).
    split_and!; [cbn; rewrite !app_nil_r; by rewrite app_assoc|cbn; lia|lia|]. rewrite !Forall_app, !Forall_singleton. intros [Hall _].
    split; [done|]. left. by rewrite zlen_add_rec.
Qed.

Lemma gather_all_spec g gs rest items :
  gb_inv g gs rest -> Forall item_ok items ->
  Forall (fun h => zlen (group_bytes h) <= MIG_GATHER_CAP \/ zlen (gr_recs h) = 1) gs ->
  exists g' gs' rest' k, gather_all g items = Ret (g', take k (it_rec <$> items)) /\ gb_inv g' gs' rest' /\
    recs_of gs' = recs_of gs ++ take k (it_rec <$> items) /\ (length gs' <= length gs + length items)%nat /\
    Forall (fun h => zlen (group_bytes h) <= MIG_GATHER_CAP \/ zlen (gr_recs h) = 1) gs' /\
    (g_len g + foldr (fun i acc => 11 + rec_len (it_rec i) + acc) 0 items <= g_cap g -> k = length items).
Proof.
  intros Hinv Hit Hall. revert g gs rest Hinv Hall. induction Hit as [|i items (Hw & Hr & Hl) Hit IH]; intros g gs rest Hinv Hall.
  - exists g, gs, rest, 0%nat. cbn. rewrite app_nil_r. split_and!; try done; lia.
  - cbn [gather_all]. destruct (gather_spec g gs rest (it_type i) (it_req i) (it_node i) (it_rec i) Hinv Hw Hr Hl)
      as [(g' & -> & Hinv' & Hfull)|(g' & gs' & rest' & Hg & Hinv' & Hgat)]; [|pose proof (gather_cap _ _ _ _ _ _ _ Hg) as Hcap; rewrite Hg];
      cbn [obind].
    + exists g', gs, rest, 0%nat. cbn [take]. rewrite app_nil_r. split_and!; [done|done|done|lia|done|]. cbn [foldr].
      assert (0 <= foldr (fun i acc => 11 + rec_len (it_rec i) + acc) 0 items).
      { clear. induction items as [|j items IH]; cbn; [done|]. assert (0 <= rec_len (it_rec j)) by (unfold rec_len; rewrite <- zlen_rec_frame; apply zlen_nonneg). lia. }
      lia.
    + destruct (gathered_recs _ _ _ _ _ _ Hgat) as (Hrecs & Hn & Hz & Hkeep).
      destruct (IH g' gs' rest' Hinv' (Hkeep Hall)) as (g2 & gs2 & rest2 & k & -> & Hinv2 & Hrecs2 & Hn2 & Hall2 & Hfit). cbn [obind].
      exists g2, gs2, rest2, (S k). split_and!; [done|done| |cbn; lia|done|].
      * rewrite Hrecs2, Hrecs. cbn [fmap list_fmap take]. by rewrite <- app_assoc.
      * cbn [foldr length]. intros Hc. f_equal. apply Hfit. rewrite (gi_len _ _ _ Hinv'), (gi_cap _ _ _ Hinv').
        rewrite (gi_len _ _ _ Hinv), (gi_cap _ _ _ Hinv) in Hc. assert (zlen (g_b g') = zlen (g_b g)) as ->; [|lia].
        by rewrite <- (gi_cap _ _ _ Hinv'), <- (gi_cap _ _ _ Hinv).
Qed.

(** C20. What is gathered is what arrives: for any run of records into a buffer of
    any size, the walk over the buffer gives datagrams which the receiver parses,
    each whole and with its request number, into exactly the gathered records in
    order: a prefix of the run, all of it when the buffer has room (eleven bytes
    a record and the record).  A datagram stays within the gather cap unless it
    carries a single record. *)
Theorem clmig_gather_delivers b items :
  Forall item_ok items ->
  exists g k dgrams, gather_all (clmig_buf_init b) items = Ret (g, take k (it_rec <$> items)) /\
    mig_walk (S (length items)) g 0 = Ret dgrams /\
    (exists got, Forall2 (fun d rs => exists req, handle_many d = Ret (req, rs)) dgrams got /\
                 concat got = take k (it_rec <$> items) /\
                 Forall2 (fun d (rs : list clmig_rec) => zlen d <= MIG_GATHER_CAP \/ zlen rs = 1) dgrams got) /\
    (foldr (fun i acc => 11 + rec_len (it_rec i) + acc) 0 items <= zlen b -> k = length items).
Proof.
  intros Hit. assert (gb_inv (clmig_buf_init b) [] b) as Hinv by (constructor; try done; by left).
  destruct (gather_all_spec _ _ _ items Hinv Hit ltac:(by apply Forall_nil)) as (g & gs & rest & k & Hg & Hinv' & Hrecs & Hn & Hall & Hfit).
  exists g, k, (group_bytes <$> gs). split_and!; [done| |exists (gr_recs <$> gs); split_and!|exact Hfit].
  - apply (walk_groups g gs rest _ [] Hinv'). cbn in Hn. lia.
  - pose proof (gi_wf _ _ _ Hinv') as Hwf. clear -Hwf. induction Hwf as [|h gs Hh _ IH]; cbn; constructor; [|done].
    exists (gr_req h). by apply handle_group.
  - exact Hrecs.
  - clear -Hall. induction Hall; cbn; constructor; done.
Qed.

Lemma clmig_gather_delivers_witness :
  let r := mk_mrec 5 [99] [107; 49] [1; 2; 3] 77 0 in
  exists g k dgrams, gather_all (clmig_buf_init (replicate 80 0)) [mk_item 9 3 1 r; mk_item 9 4 1 r; mk_item 9 4 1 r] = Ret (g, take k [r; r; r]) /\
    mig_walk 4 g 0 = Ret dgrams /\
    (exists got, Forall2 (fun d rs => exists req, handle_many d = Ret (req, rs)) dgrams got /\
                 concat got = take k [r; r; r] /\
                 Forall2 (fun d (rs : list clmig_rec) => zlen d <= MIG_GATHER_CAP \/ zlen rs = 1) dgrams got) /\
    (foldr (fun i acc => 11 + rec_len (it_rec i) + acc) 0 [mk_item 9 3 1 r; mk_item 9 4 1 r; mk_item 9 4 1 r] <= zlen (replicate 80 0) -> k = 3%nat).
Proof.
  set (r := mk_mrec 5 [99] [107; 49] [1; 2; 3] 77 0).
  apply (clmig_gather_delivers (replicate 80 0) [mk_item 9 3 1 r; mk_item 9 4 1 r; mk_item 9 4 1 r]).
  repeat (constructor; [split_and!; [constructor; by vm_compute|by vm_compute|by vm_compute]|]). constructor.
Defined.

(** * The parsers stay inside the datagram *)

Lemma hdr_parse_safe p : bytes_ok p -> CLMIG_RHDR <= zlen p ->
  exists ttl collen klen vlen ver flags, clmig_rec_hdr_parse p = Ret (ttl, collen, klen, vlen, ver, flags) /\
    is_u8 collen /\ is_u16 klen /\ is_u32 vlen.
Proof.
  intros Hb Hl. unfold clmig_rec_hdr_parse, pc_rcur_init, CLMIG_RHDR in *. do 6 rd_step. by eauto 20.
Qed.

Lemma rec_parse_safe p off : bytes_ok p -> 0 <= off -> clmig_rec_parse p off <> Oob.
Proof.
  intros Hb Ho. unfold clmig_rec_parse, pc_rfits, pc_rcur_init. cbn [r_p]. cbv zeta. destruct (CLMIG_RHDR <=? _) eqn:E; bool_facts; [|done].
  destruct (hdr_parse_safe (zdrop off p) (bytes_ok_zdrop _ _ Hb) E) as (? & ? & ? & ? & ? & ? & -> & H8 & H16 & H32). cbn [obind].
  unfold is_u8, is_u16, is_u32, CLMIG_RHDR in *. destruct (_ >? _) eqn:E2; bool_facts; [done|]. cbn [negb].
  rewrite !sub_at_ok by lia. cbn [obind]. done.
Qed.

Lemma rec_parse_off p off r off' : bytes_ok p -> clmig_rec_parse p off = Ret (r, off') -> 0 <= off -> 0 <= off'.
Proof.
  intros Hb H Ho. unfold clmig_rec_parse, pc_rfits, pc_rcur_init in H. cbn [r_p] in H. cbv zeta in H. destruct (CLMIG_RHDR <=? _) eqn:E; bool_facts; [|done].
  destruct (hdr_parse_safe (zdrop off p) (bytes_ok_zdrop _ _ Hb) E) as (? & ? & ? & ? & ? & ? & Hp & H8 & H16 & H32). rewrite Hp in H. cbn [obind] in H.
  destruct (_ >? _) eqn:E2; [done|]. cbn [negb] in H. apply obind_Ret in H as (? & _ & H). apply obind_Ret in H as (? & _ & H).
  apply obind_Ret in H as (? & _ & H). simplify_eq. unfold is_u8, is_u16, is_u32, CLMIG_RHDR in *. lia.
Qed.

Lemma many_recs_safe cnt p off : bytes_ok p -> 0 <= off -> exists rs, many_recs cnt p off = Ret rs.
Proof.
  intros Hb. revert off. induction cnt as [|cnt IH]; intros off Ho; [by eexists|]. cbn [many_recs].
  pose proof (rec_parse_safe p off Hb Ho) as Hs. destruct (clmig_rec_parse p off) as [[r off']| |] eqn:E; [|by eexists|done].
  destruct (IH off' (rec_parse_off _ _ _ _ Hb E Ho)) as (rs & ->). by eexists.
Qed.

(** No datagram makes the migration plane's parsers leave it: a group with any
    count over any bytes, a single record and an acknowledgement are each parsed
    or refused without a read or a pointer outside the datagram. *)
Theorem clmig_parsers_safe p :
  bytes_ok p -> handle_many p <> Oob /\ clmig_single_parse p <> Oob /\ clmig_ack_parse p <> Oob.
Proof.
  intros Hb. split_and!.
  - unfold handle_many, clmig_group_req, clmig_group_count, CLMIG_GHDR. destruct (_ <? _) eqn:E; bool_facts; [done|]. cbn [negb].
    destruct (pc_g32_ok (zdrop 1 p) ltac:(rewrite zlen_zdrop; lia)) as (? & -> & _). cbn [obind].
    destruct (pc_g16_ok (zdrop 7 p) ltac:(rewrite zlen_zdrop; lia)) as (? & -> & _). cbn [obind].
    destruct (many_recs_safe (Z.to_nat x0) p 9 Hb ltac:(lia)) as (? & ->). done.
  - unfold clmig_single_parse. apply fwd_skip_fits; [done|]. unfold CLMIG_SHDR in *. intros Hl. do 5 rd_step.
    case_match; [|done]; bool_facts. do 3 rd_step. done.
  - unfold clmig_ack_parse. apply fwd_skip_fits; [done|]. intros Hl. do 2 rd_step. unfold pc_rfits.
    case_match; bool_facts; [|done]. rd_step. done.
Qed.

Lemma clmig_parsers_safe_witness :
  handle_many [9; 0; 0; 0; 1; 0; 0; 255; 255; 7] <> Oob /\ clmig_single_parse [9; 0; 0; 0; 1; 0; 0; 255; 255; 7] <> Oob /\
  clmig_ack_parse [9; 0; 0; 0; 1; 0; 0; 255; 255; 7] <> Oob.
Proof. apply (clmig_parsers_safe [9; 0; 0; 0; 1; 0; 0; 255; 255; 7]). repeat (constructor; [by vm_compute|]). constructor. Defined.

(** * The single record and the acknowledgement read back *)

Record single_wf (s : clmig_single) : Prop := {
  sw_req : is_u32 (sg_req s);
  sw_node : is_u16 (sg_node s);
  sw_ttl : is_u32 (sg_ttl_left s);
  sw_col : zlen (sg_col s) <= 255;
  sw_key : zlen (sg_key s) <= 65535;
  sw_val : 14 + zlen (sg_col s) + zlen (sg_key s) + zlen (sg_val s) < 2 ^ 32;
}.

Definition single_frame (type : Z) (s : clmig_single) : bytes :=
  [u8 type] ++ pc_p32 (sg_req s) ++ pc_p16 (u16 (sg_node s)) ++ pc_p32 (sg_ttl_left s) ++ [u8 (zlen (sg_col s))] ++
  pc_p16 (u16 (zlen (sg_key s))) ++ sg_col s ++ sg_key s ++ sg_val s.

Lemma single_write_frame type s :
  let n := clmig_single_size (zlen (sg_col s)) (zlen (sg_key s)) (zlen (sg_val s)) in
  clmig_single_write n type s = (n, single_frame type s).
Proof.
  cbv zeta. assert (zlen (single_frame type s) = clmig_single_size (zlen (sg_col s)) (zlen (sg_key s)) (zlen (sg_val s))) as Hl.
  { unfold single_frame, clmig_single_size, CLMIG_SHDR. rewrite !zlen_app, !zlen_cons, !zlen_nil, !zlen_p32, !zlen_p16. lia. }
  rewrite <- Hl. unfold clmig_single_write, built. destruct (zlen (sg_val s) =? 0) eqn:E; bool_facts.
  - apply zlen_zero in E. unfold_w. rewrite wseq_built; unfold single_frame; rewrite E; cbn [concat app w_ok w_out]; by rewrite !app_nil_r.
  - unfold_w. rewrite wseq_built; unfold single_frame; cbn [concat app w_ok w_out]; by rewrite !app_nil_r.
Qed.

Lemma single_parse_frame type s : single_wf s -> clmig_single_parse (single_frame type s) = Ret s.
Proof.
  intros [Hr Hn Ht Hc Hk Hv]. unfold clmig_single_parse. cbv zeta.
  assert (zlen (single_frame type s) = 14 + zlen (sg_col s) + zlen (sg_key s) + zlen (sg_val s)) as ->.
  { unfold single_frame. rewrite !zlen_app, !zlen_cons, !zlen_nil, !zlen_p32, !zlen_p16. lia. }
  unfold single_frame. cbn [app]. rewrite rskip1_cons. cbn [obind].
  unfold pc_rfits, CLMIG_SHDR in *. cbn [r_p]. btrue.
  rd_frame. pose_lens. autorewrite with words. btrue. sub_walk. autorewrite with words. by destruct s.
Qed.

Lemma ack_roundtrip type req ok stored :
  is_u32 req -> is_u8 ok -> (forall s, stored = Some s -> is_u16 s) ->
  let '(n, msg) := clmig_ack_write 8 type req ok stored in
  n = zlen msg /\ n = match stored with Some _ => 8 | None => 6 end /\ clmig_ack_parse msg = Ret (req, ok, default 0 stored).
Proof.
  intros Hr Ho Hs. unfold clmig_ack_write, built. destruct stored as [s|]; cbv zeta; unfold_w.
  - specialize (Hs s eq_refl). rewrite wseq_built by (cbn [concat]; rewrite !zlen_app, !zlen_cons, !zlen_nil, zlen_p32, zlen_p16; lia).
    cbn [w_ok w_out concat]. unfold pc_wcur_len. cbn [w_out]. rewrite app_nil_r. split_and!; [done|done|].
    unfold clmig_ack_parse. cbn [app]. rewrite rskip1_cons. cbn [obind]. unfold pc_rfits. cbn [r_p]. rewrite <- (app_nil_r (pc_p16 (u16 s))). btrue.
    rd_frame. cbn [r_p]. btrue. rd_frame. by rewrite u32_id, u8_id, !u16_id by (done || by rewrite u16_id).
  - rewrite wseq_room by (cbn [concat w_ok w_out w_cap pc_wcur_init]; rewrite ?zlen_app, ?zlen_cons, ?zlen_nil, ?zlen_p32; done || lia).
    cbn [w_ok w_out concat pc_wcur_init]. unfold pc_wcur_len. cbn [w_out]. split_and!; [done|done|].
    unfold clmig_ack_parse. cbn [app]. rewrite rskip1_cons. cbn [obind]. unfold pc_rfits. cbn [r_p]. btrue.
    rd_frame. cbn [r_p]. btrue. by rewrite u32_id, u8_id.
Qed.
