(* ===== verification/Clmap.v ===== *)
(** The cluster map: [src/src/clmap.c], [src/src/clmap.h].

    The map is what the master decided: the fleet's nodes with their addresses,
    states and weights, under an epoch.  It arrives over the network, and
    placement is computed from it alone, so a map that is not read the same way
    by every node splits ownership.  Proved: a map reads back as it was encoded;
    the decoder stays inside its bytes whatever they are; and a map it accepts
    names no node twice.

    The file's local little-endian accessors are those of [clcodec.h] under
    other names, and the same definitions here. *)

From stdpp Require Import base tactics list numbers.
From S2P Require Import Prelude Clcodec.
#[local] Open Scope Z_scope.

Definition PC_CLMAP_MAGIC : Z := 0x504D4350.
Definition PC_CLMAP_VER : Z := 2.
Definition PC_CLMAP_HDR : Z := 30.
Definition PC_CLMAP_NODESZ : Z := 32.
Definition PC_CLMAP_MAXNODE : Z := 257.
Definition PC_CLMAP_ST_READY : Z := 2.
Definition PC_CLMAP_W_UNSET : Z := 0xFFFF.

Record pc_clmap_node := mk_cnode {
  cn_ident : bytes; cn_node_id : Z; cn_addr : Z; cn_cluster_port : Z; cn_client_port : Z;
  cn_state : Z; cn_master_pref : Z; cn_cap_weight : Z; cn_admin_weight : Z;
}.

(** [cm_node] is the [nnodes] entries in use. *)
Record pc_clmap := mk_clmap {
  cm_term : Z; cm_seq : Z; cm_master_id : Z; cm_backup_id : Z; cm_mode : Z; cm_eager : Z;
  cm_config_digest : Z; cm_node : list pc_clmap_node;
}.

(** * Encode *)

Definition clmap_node_bytes (n : pc_clmap_node) : bytes :=
  ztake 16 (cn_ident n) ++ pc_p16 (cn_node_id n) ++ pc_p32 (cn_addr n) ++ pc_p16 (cn_cluster_port n) ++
  pc_p16 (cn_client_port n) ++ [cn_state n] ++ [cn_master_pref n] ++ pc_p16 (cn_cap_weight n) ++ pc_p16 (cn_admin_weight n).

Definition clmap_hdr_bytes (m : pc_clmap) : bytes :=
  pc_p32 PC_CLMAP_MAGIC ++ pc_p16 PC_CLMAP_VER ++ pc_p32 (cm_term m) ++ pc_p32 (cm_seq m) ++
  pc_p16 (cm_master_id m) ++ pc_p16 (cm_backup_id m) ++ [cm_mode m] ++ [if cm_eager m =? 0 then 0 else 1] ++
  pc_p64 (cm_config_digest m) ++ pc_p16 (zlen (cm_node m)).

(** [None] is the [-1]; else what it wrote, the byte count its length. *)
Definition pc_clmap_encode (m : pc_clmap) (cap : Z) : option bytes :=
  if zlen (cm_node m) >? PC_CLMAP_MAXNODE then None
  else if cap <? PC_CLMAP_HDR + zlen (cm_node m) * PC_CLMAP_NODESZ then None
  else Some (clmap_hdr_bytes m ++ concat (clmap_node_bytes <$> cm_node m)).

(** * Decode *)

Inductive clmap_why : Type := YShort | YMagic | YVersion | YCount | YTrunc | YDup.

Definition clmap_node_read (p : bytes) : outcome pc_clmap_node :=
  let! ident := sub_at p 0 16 in
  let! node_id := pc_g16 (zdrop 16 p) in
  let! addr := pc_g32 (zdrop 18 p) in
  let! cluster_port := pc_g16 (zdrop 22 p) in
  let! client_port := pc_g16 (zdrop 24 p) in
  let! state := byte_at p 26 in
  let! master_pref := byte_at p 27 in
  let! cap_weight := pc_g16 (zdrop 28 p) in
  let! admin_weight := pc_g16 (zdrop 30 p) in
  Ret (mk_cnode ident node_id addr cluster_port client_port state master_pref cap_weight admin_weight).

Fixpoint clmap_nodes_read (cnt : nat) (p : bytes) : outcome (list pc_clmap_node) :=
  match cnt with
  | O => Ret []
  | S cnt =>
      let! n := clmap_node_read p in
      let! ns := clmap_nodes_read cnt (zdrop PC_CLMAP_NODESZ p) in
      Ret (n :: ns)
  end.

Definition same_node (a b : pc_clmap_node) : bool :=
  (cn_node_id a =? cn_node_id b) || bool_decide (cn_ident a = cn_ident b).

(** The two nested loops: some [i < j] name the same node. *)
Fixpoint clmap_dup (ns : list pc_clmap_node) : bool :=
  match ns with
  | [] => false
  | n :: ns => existsb (same_node n) ns || clmap_dup ns
  end.

Definition pc_clmap_decode (buf : bytes) : outcome (clmap_why + pc_clmap) :=
  if zlen buf <? PC_CLMAP_HDR then Ret (inl YShort)
  else
    let! magic := pc_g32 buf in
    if negb (magic =? PC_CLMAP_MAGIC) then Ret (inl YMagic)
    else
      let! ver := pc_g16 (zdrop 4 buf) in
      if negb (ver =? PC_CLMAP_VER) then Ret (inl YVersion)
      else
        let! cnt := pc_g16 (zdrop 28 buf) in
        if cnt >? PC_CLMAP_MAXNODE then Ret (inl YCount)
        else if negb (zlen buf =? PC_CLMAP_HDR + cnt * PC_CLMAP_NODESZ) then Ret (inl YTrunc)
        else
          let! term := pc_g32 (zdrop 6 buf) in
          let! seq := pc_g32 (zdrop 10 buf) in
          let! master_id := pc_g16 (zdrop 14 buf) in
          let! backup_id := pc_g16 (zdrop 16 buf) in
          let! mode := byte_at buf 18 in
          let! eager := byte_at buf 19 in
          let! config_digest := pc_g64 (zdrop 20 buf) in
          let! ns := clmap_nodes_read (Z.to_nat cnt) (zdrop PC_CLMAP_HDR buf) in
          if clmap_dup ns then Ret (inl YDup)
          else Ret (inr (mk_clmap term seq master_id backup_id mode eager config_digest ns)).

(** * Ordering and weights *)

Definition pc_clmap_epoch_cmp (a_term a_seq b_term b_seq : Z) : Z :=
  if negb (a_term =? b_term) then (if a_term <? b_term then -1 else 1)
  else if negb (a_seq =? b_seq) then (if a_seq <? b_seq then -1 else 1)
  else 0.

Definition pc_clmap_weight (n : pc_clmap_node) : Z :=
  if negb (cn_admin_weight n =? PC_CLMAP_W_UNSET) then cn_admin_weight n else cn_cap_weight n.

Definition pc_clmap_placeable (n : pc_clmap_node) : bool :=
  (cn_state n =? PC_CLMAP_ST_READY) && (0 <? pc_clmap_weight n).

Definition pc_clmap_placeable_count (m : pc_clmap) : Z := zlen (List.filter pc_clmap_placeable (cm_node m)).

Definition pc_clmap_find (m : pc_clmap) (id : Z) : option pc_clmap_node :=
  List.find (fun n => cn_node_id n =? id) (cm_node m).

(** * What the decoder guarantees *)

(** Fields at their widths. *)
Record cnode_wf (n : pc_clmap_node) : Prop := {
  nw_ident : zlen (cn_ident n) = 16;
  nw_id : is_u16 (cn_node_id n);
  nw_addr : is_u32 (cn_addr n);
  nw_port : is_u16 (cn_cluster_port n);
  nw_client : is_u16 (cn_client_port n);
  nw_cap : is_u16 (cn_cap_weight n);
  nw_admin : is_u16 (cn_admin_weight n);
}.

Record clmap_wf (m : pc_clmap) : Prop := {
  cw_term : is_u32 (cm_term m);
  cw_seq : is_u32 (cm_seq m);
  cw_master : is_u16 (cm_master_id m);
  cw_backup : is_u16 (cm_backup_id m);
  cw_eager : cm_eager m = 0 \/ cm_eager m = 1;
  cw_digest : is_u64 (cm_config_digest m);
  cw_count : zlen (cm_node m) <= PC_CLMAP_MAXNODE;
  cw_nodes : Forall cnode_wf (cm_node m);
  cw_nodup : clmap_dup (cm_node m) = false;
}.

(** No two nodes of a map share an id or an identity. *)
Definition clmap_distinct (ns : list pc_clmap_node) : Prop :=
  NoDup (cn_node_id <$> ns) /\ NoDup (cn_ident <$> ns).

Lemma same_node_false n ns :
  existsb (same_node n) ns = false <->
  (cn_node_id n ∉ (cn_node_id <$> ns)) /\ (cn_ident n ∉ (cn_ident <$> ns)).
Proof.
  induction ns as [|x ns IH]; [cbn; rewrite !elem_of_nil; tauto|]. cbn [existsb fmap list_fmap]. rewrite !not_elem_of_cons, orb_false_iff, IH.
  unfold same_node. rewrite orb_false_iff, Z.eqb_neq, bool_decide_eq_false. tauto.
Qed.

Lemma clmap_dup_spec ns : clmap_dup ns = false <-> clmap_distinct ns.
Proof.
  unfold clmap_distinct. induction ns as [|n ns IH]; [split; [split; constructor|done]|].
  cbn [clmap_dup fmap list_fmap]. rewrite orb_false_iff, IH, !list.NoDup_cons, same_node_false. tauto.
Qed.

Lemma zlen_node_bytes n : cnode_wf n -> zlen (clmap_node_bytes n) = PC_CLMAP_NODESZ.
Proof.
  intros Hn. unfold clmap_node_bytes, PC_CLMAP_NODESZ. rewrite (ztake_all _ (cn_ident n)) by (rewrite (nw_ident n Hn); lia).
  rewrite !zlen_app, (nw_ident n Hn). done.
Qed.

Lemma node_read_bytes n X : cnode_wf n -> clmap_node_read (clmap_node_bytes n ++ X) = Ret n.
Proof.
  intros [Hi Hid Ha Hp Hc Hca Had]. unfold clmap_node_read, clmap_node_bytes, byte_at. rewrite (ztake_all _ (cn_ident n)) by lia. rewrite <- !app_assoc.
  rewrite sub_at_here by done. cbn [obind]. rewrite !(zdrop_app_ge _ (cn_ident n)) by lia. rewrite Hi.
  set (T4 := pc_p16 (cn_cap_weight n) ++ pc_p16 (cn_admin_weight n) ++ X).
  set (T3 := [cn_state n] ++ [cn_master_pref n] ++ T4). set (T2 := pc_p16 (cn_client_port n) ++ T3).
  set (T1 := pc_p16 (cn_cluster_port n) ++ T2). set (T0 := pc_p32 (cn_addr n) ++ T1). set (T := pc_p16 (cn_node_id n) ++ T0).
  change (zdrop (16 - 16) T) with T. change (zdrop (18 - 16) T) with T0. change (zdrop (22 - 16) T) with T1.
  change (zdrop (24 - 16) T) with T2. change (zdrop (26 - 16) T) with T3. change (zdrop (27 - 16) T) with ([cn_master_pref n] ++ T4).
  change (zdrop (28 - 16) T) with T4. change (zdrop (30 - 16) T) with (pc_p16 (cn_admin_weight n) ++ X).
  unfold T, T0, T1, T2, T3, T4. rewrite !pc_g16_p16, pc_g32_p32, !u16_id, u32_id by done. cbn [obind app]. by destruct n.
Qed.

Lemma nodes_read_bytes ns X : Forall cnode_wf ns ->
  clmap_nodes_read (length ns) (concat (clmap_node_bytes <$> ns) ++ X) = Ret ns.
Proof.
  induction 1 as [|n ns Hn _ IH]; [done|]. cbn [length clmap_nodes_read fmap list_fmap concat]. rewrite <- app_assoc, node_read_bytes by done.
  cbn [obind]. rewrite zdrop_app by (by rewrite zlen_node_bytes). by rewrite IH.
Qed.

Lemma zlen_nodes ns : Forall cnode_wf ns -> zlen (concat (clmap_node_bytes <$> ns)) = zlen ns * PC_CLMAP_NODESZ.
Proof.
  induction 1 as [|n ns Hn _ IH]; [done|]. cbn [fmap list_fmap concat]. rewrite zlen_app, zlen_cons, IH, zlen_node_bytes by done. lia.
Qed.

Lemma zlen_hdr_bytes m : zlen (clmap_hdr_bytes m) = PC_CLMAP_HDR.
Proof. unfold clmap_hdr_bytes, PC_CLMAP_HDR. rewrite !zlen_app, !zlen_p32, !zlen_p16, zlen_p64, !zlen_cons, !zlen_nil. lia. Qed.

Lemma decode_encoded m : clmap_wf m -> pc_clmap_decode (clmap_hdr_bytes m ++ concat (clmap_node_bytes <$> cm_node m)) = Ret (inr m).
Proof.
  intros [Ht Hs Hma Hba Hea Hdi Hcnt Hno Hdup]. pose proof (zlen_nonneg (cm_node m)) as Hn0.
  assert (is_u16 (zlen (cm_node m))) as Hu by (unfold is_u16, PC_CLMAP_MAXNODE in *; pow2; lia).
  unfold pc_clmap_decode. rewrite zlen_app, zlen_hdr_bytes, zlen_nodes by done. unfold PC_CLMAP_NODESZ at 1.
  rewrite (proj2 (Z.ltb_ge _ _)) by (unfold PC_CLMAP_HDR; lia). set (N := concat (clmap_node_bytes <$> cm_node m)).
  rewrite (zdrop_app PC_CLMAP_HDR (clmap_hdr_bytes m)) by (by rewrite zlen_hdr_bytes). unfold clmap_hdr_bytes, byte_at. rewrite <- !app_assoc.
  set (T9 := pc_p16 (zlen (cm_node m)) ++ N). set (T8 := pc_p64 (cm_config_digest m) ++ T9).
  set (T7 := [if cm_eager m =? 0 then 0 else 1] ++ T8). set (T6 := [cm_mode m] ++ T7). set (T5 := pc_p16 (cm_backup_id m) ++ T6).
  set (T4 := pc_p16 (cm_master_id m) ++ T5). set (T3 := pc_p32 (cm_seq m) ++ T4). set (T2 := pc_p32 (cm_term m) ++ T3).
  set (T1 := pc_p16 PC_CLMAP_VER ++ T2). set (T0 := pc_p32 PC_CLMAP_MAGIC ++ T1).
  change (zdrop 4 T0) with T1. change (zdrop 28 T0) with T9. change (zdrop 6 T0) with T2. change (zdrop 10 T0) with T3.
  change (zdrop 14 T0) with T4. change (zdrop 16 T0) with T5. change (zdrop 18 T0) with T6. change (zdrop 19 T0) with T7. change (zdrop 20 T0) with T8.
  unfold T0, T1, T2, T3, T4, T5, T6, T7, T8, T9.
  rewrite !pc_g32_p32, !pc_g16_p16, pc_g64_p64, !u32_id, !u16_id, u64_id by (done || (unfold is_u32, is_u16, PC_CLMAP_MAGIC, PC_CLMAP_VER; pow2; lia)).
  cbn [obind app]. rewrite !Z.eqb_refl. cbn [negb]. destruct (_ >? _) eqn:E; bool_facts; [lia|].
  unfold zlen at 1. rewrite Nat2Z.id. unfold N. rewrite <- (app_nil_r (concat _)), nodes_read_bytes by done. cbn [obind]. rewrite Hdup.
  do 3 f_equal. destruct m; cbn in *. f_equal. destruct Hea as [->| ->]; done.
Qed.

(** ** Any bytes *)

Lemma node_read_ok p : bytes_ok p -> PC_CLMAP_NODESZ <= zlen p -> exists n, clmap_node_read p = Ret n.
Proof.
  intros Hb Hl. unfold clmap_node_read, PC_CLMAP_NODESZ in *. rewrite sub_at_ok by lia. cbn [obind].
  destruct (byte_at_ok p 26 ltac:(lia)) as (? & ->). destruct (byte_at_ok p 27 ltac:(lia)) as (? & ->).
  repeat match goal with
  | |- context [pc_g16 (zdrop ?k p)] => destruct (pc_g16_ok (zdrop k p)) as (? & -> & _); [rewrite zlen_zdrop; lia|]; cbn [obind]
  | |- context [pc_g32 (zdrop ?k p)] => destruct (pc_g32_ok (zdrop k p)) as (? & -> & _); [rewrite zlen_zdrop; lia|]; cbn [obind]
  end. by eexists.
Qed.

Lemma nodes_read_ok cnt p : bytes_ok p -> Z.of_nat cnt * PC_CLMAP_NODESZ <= zlen p -> exists ns, clmap_nodes_read cnt p = Ret ns.
Proof.
  revert p. induction cnt as [|cnt IH]; intros p Hb Hl; [by eexists|]. cbn [clmap_nodes_read]. unfold PC_CLMAP_NODESZ in *.
  destruct (node_read_ok p Hb ltac:(unfold PC_CLMAP_NODESZ; lia)) as (n & ->). cbn [obind].
  destruct (IH (zdrop 32 p) (bytes_ok_zdrop _ _ Hb) ltac:(rewrite zlen_zdrop; lia)) as (ns & ->). by eexists.
Qed.

Lemma decode_total buf : bytes_ok buf -> exists r, pc_clmap_decode buf = Ret r /\ (forall m, r = inr m -> clmap_distinct (cm_node m)).
Proof.
  intros Hb. unfold pc_clmap_decode. destruct (_ <? _) eqn:E; bool_facts; [eexists; split; [done|done]|]. unfold PC_CLMAP_HDR in *.
  destruct (pc_g32_ok buf ltac:(lia)) as (? & -> & _). cbn [obind]. case_match; [by eexists|].
  repeat match goal with
  | |- context [pc_g16 (zdrop ?k buf)] => destruct (pc_g16_ok (zdrop k buf)) as (? & -> & ?); [rewrite zlen_zdrop; lia|]; cbn [obind]
  | |- context [pc_g32 (zdrop ?k buf)] => destruct (pc_g32_ok (zdrop k buf)) as (? & -> & ?); [rewrite zlen_zdrop; lia|]; cbn [obind]
  end.
  destruct (pc_g64_ok (zdrop 20 buf) ltac:(rewrite zlen_zdrop; lia)) as (? & -> & _).
  destruct (byte_at_ok buf 18 ltac:(lia)) as (? & ->). destruct (byte_at_ok buf 19 ltac:(lia)) as (? & ->). cbn [obind].
  case_match; [by eexists|]. case_match; [by eexists|]. case_match; [by eexists|]. bool_facts.
  match goal with |- context [clmap_nodes_read (Z.to_nat ?c)] =>
    destruct (nodes_read_ok (Z.to_nat c) (zdrop 30 buf) (bytes_ok_zdrop _ _ Hb)) as (ns & ->); [rewrite zlen_zdrop; unfold PC_CLMAP_NODESZ, is_u16 in *; lia|] end.
  cbn [obind]. destruct (clmap_dup ns) eqn:Ed; [by eexists|]. eexists. split; [done|]. intros m [= <-]. by apply clmap_dup_spec.
Qed.

(** The cluster map on the wire: every well-formed map decodes to itself from
    what the encoder wrote; and whatever bytes arrive, the decoder reads nothing
    outside them, and what it accepts names no node id and no identity twice, so
    that no lookup or placement over it depends on the order of its entries. *)
Theorem clmap_roundtrip_and_safe m cap buf :
  clmap_wf m -> PC_CLMAP_HDR + zlen (cm_node m) * PC_CLMAP_NODESZ <= cap -> bytes_ok buf ->
  (exists b, pc_clmap_encode m cap = Some b /\ pc_clmap_decode b = Ret (inr m)) /\
  (exists r, pc_clmap_decode buf = Ret r /\ (forall m', r = inr m' -> clmap_distinct (cm_node m'))).
Proof.
  intros Hm Hc Hb. split; [|by apply decode_total]. unfold pc_clmap_encode. destruct (_ >? _) eqn:E; bool_facts; [pose proof (cw_count m Hm); lia|].
  rewrite (proj2 (Z.ltb_ge _ _)) by lia. eexists. split; [done|]. by apply decode_encoded.
Qed.

(** Two nodes, for the witnesses. *)
Definition ex_node (id w : Z) : pc_clmap_node := mk_cnode (replicate 16 id) id (0x0A000000 + id) 7000 6379 PC_CLMAP_ST_READY 1 w PC_CLMAP_W_UNSET.
Definition ex_map : pc_clmap := mk_clmap 3 9 1 2 PC_CLMAP_ST_READY 1 77 [ex_node 1 1000; ex_node 2 500].

Lemma ex_map_wf : clmap_wf ex_map.
Proof.
  constructor; try by vm_compute.
  - by right.
  - repeat (constructor; [constructor; by vm_compute|]). constructor.
Qed.

Lemma clmap_roundtrip_and_safe_witness :
  (exists b, pc_clmap_encode ex_map 94 = Some b /\ pc_clmap_decode b = Ret (inr ex_map)) /\
  (exists r, pc_clmap_decode [1; 2] = Ret r /\ (forall m', r = inr m' -> clmap_distinct (cm_node m'))).
Proof.
  apply (clmap_roundtrip_and_safe ex_map 94 [1; 2]); [exact ex_map_wf|by vm_compute|].
  repeat (constructor; [by vm_compute|]). constructor.
Defined.
