(* ===== verification/Clplace.v ===== *)
(** Placement: weighted rendezvous over the cluster map, [src/src/clplace.c],
    [src/src/clplace.h], with the mix of [src/src/pc_mix.h].

    Every node and every client computes the owner of a slot from the map alone,
    in integers.  Proved: the fixed-point term is positive and falls as the mix
    rises; the comparison is a strict total order; the copy-set predicate, the
    ranked list and the owner agree; and a change to one node moves no slot
    between two others.  An example shows where equal weights do not give the
    plain argmax. *)

From stdpp Require Import base tactics list numbers sorting.
From S2P Require Import Prelude HtBase Clcodec Clmap.
#[local] Open Scope Z_scope.

Definition xorshift (h k : Z) : Z := Z.lxor h (Z.shiftr h k).

Definition pc_hrw_mix (kh addr port : Z) : Z :=
  let h := Z.lxor kh (u64 (Z.lor (Z.shiftl addr 16) port * 0x9E3779B97F4A7C15)) in
  let h := xorshift h 33 in
  let h := u64 (h * 0xff51afd7ed558ccd) in
  let h := xorshift h 33 in
  let h := u64 (h * 0xc4ceb9fe1a85ec53) in
  xorshift h 33.

Definition pc_clplace_mix (kh addr port : Z) : Z := pc_hrw_mix kh addr port.

Definition PC_CLPLACE_FBITS : Z := 20.

Definition LOG2_TAB : list Z :=
  [0; 46551; 91711; 135563; 178179; 219628; 259971; 299266;
   337566; 374920; 411375; 446971; 481749; 515745; 548995; 581529;
   613378; 644570; 675132; 705089; 734464; 763280; 791557; 819315;
   846573; 873348; 899658; 925518; 950944; 975949; 1000547; 1024752;
   1048576].

Definition log2_tab (i : Z) : Z := default 0 (LOG2_TAB !! Z.to_nat i).

(** [msb = 63; while (!(h & (1ull << msb))) msb--;] *)
Fixpoint msb_from (msb : nat) (h : Z) : nat :=
  match msb with
  | O => O
  | S m => if Z.testbit h (Z.of_nat msb) then msb else msb_from m h
  end.

Definition frac_of (norm : Z) : Z :=
  let idx := Z.land (Z.shiftr norm 58) 0x1F in
  let rem := Z.land (Z.shiftr norm 38) 0xFFFFF in
  let lo := log2_tab idx in
  let hi := log2_tab (idx + 1) in
  lo + Z.shiftr ((hi - lo) * rem) 20.

Definition pc_clplace_dterm (h : Z) : Z :=
  if h =? 0 then Z.shiftl 64 PC_CLPLACE_FBITS
  else
    let msb := Z.of_nat (msb_from 63 h) in
    let norm := u64 (Z.shiftl h (63 - msb)) in
    Z.shiftl (64 - msb) PC_CLPLACE_FBITS - frac_of norm.

(** A candidate: weight, term and id. *)
Record cand := mk_cand { c_w : Z; c_d : Z; c_id : Z }.

Definition beats (a b : cand) : bool :=
  let la := u64 (c_w a * c_d b) in
  let lb := u64 (c_w b * c_d a) in
  if negb (la =? lb) then lb <? la else c_id b <? c_id a.

Definition cand_of (kh : Z) (n : pc_clmap_node) : cand :=
  mk_cand (pc_clmap_weight n) (pc_clplace_dterm (pc_clplace_mix kh (cn_addr n) (cn_cluster_port n))) (cn_node_id n).

(** The placeable nodes' candidates, in map order. *)
Definition cands (m : pc_clmap) (kh : Z) : list cand := cand_of kh <$> List.filter pc_clmap_placeable (cm_node m).

Fixpoint owner_loop (best : option cand) (ns : list pc_clmap_node) (kh : Z) : option cand :=
  match ns with
  | [] => best
  | n :: ns =>
      if negb (pc_clmap_placeable n) then owner_loop best ns kh
      else
        let c := cand_of kh n in
        match best with
        | None => owner_loop (Some c) ns kh
        | Some b => owner_loop (Some (if beats c b then c else b)) ns kh
        end
  end.

Definition pc_clplace_owner (m : pc_clmap) (kh : Z) : Z :=
  match owner_loop None (cm_node m) kh with Some b => c_id b | None => 0 end.

(** The best of [c[k]] and the entries behind it, by index. *)
Fixpoint best_idx (best : cand) (bi : option nat) (j : nat) (rest : list cand) : cand * option nat :=
  match rest with
  | [] => (best, bi)
  | c :: rest => if beats c best then best_idx c (Some j) (S j) rest else best_idx best bi (S j) rest
  end.

(** The selection sort of the top [max]: the best is swapped to the front. *)
Fixpoint rank_sel (max : nat) (c : list cand) : list cand :=
  match max, c with
  | S max, x :: rest =>
      let '(b, bi) := best_idx x None 0 rest in
      b :: rank_sel max (match bi with Some j => <[j := x]> rest | None => rest end)
  | _, _ => []
  end.

(** What is written to [out]. *)
Definition pc_clplace_rank (m : pc_clmap) (kh : Z) (max : Z) : list Z :=
  if max <=? 0 then [] else c_id <$> rank_sel (Z.to_nat max) (cands m kh).

Fixpoint ahead_loop (ns : list pc_clmap_node) (kh : Z) (me : cand) (k ahead : Z) : bool :=
  match ns with
  | [] => true
  | n :: ns =>
      if (cn_node_id n =? c_id me) || negb (pc_clmap_placeable n) then ahead_loop ns kh me k ahead
      else if beats (cand_of kh n) me then
        if k <=? ahead + 1 then false else ahead_loop ns kh me k (ahead + 1)
      else ahead_loop ns kh me k ahead
  end.

Definition pc_clplace_in_set (m : pc_clmap) (kh node_id k : Z) : bool :=
  if k <=? 0 then false
  else
    match pc_clmap_find m node_id with
    | None => false
    | Some n => if negb (pc_clmap_placeable n) then false else ahead_loop (cm_node m) kh (cand_of kh n) k 0
    end.

Definition pc_clplace_has (m : pc_clmap) (node_id : Z) : bool :=
  existsb (fun n => cn_node_id n =? node_id) (cm_node m).

(** * The term *)

Lemma msb_from_log2 m h : 0 < h < 2 ^ (Z.of_nat m + 1) -> Z.of_nat (msb_from m h) = Z.log2 h.
Proof.
  induction m as [|m IH]; intros Hh.
  - cbn [msb_from]. change (2 ^ (Z.of_nat 0 + 1)) with 2 in Hh. assert (h = 1) as -> by lia. done.
  - cbn [msb_from]. destruct (Z.testbit h (Z.of_nat (S m))) eqn:E.
    + symmetry. apply Z.log2_unique; [lia|]. replace (Z.succ (Z.of_nat (S m))) with (Z.of_nat (S m) + 1) by lia. split; [|lia].
      destruct (decide (2 ^ Z.of_nat (S m) <= h)); [done|]. rewrite Z.bits_above_log2 in E; [done|lia|]. apply Z.log2_lt_pow2; lia.
    + apply IH. split; [lia|]. destruct (decide (h < 2 ^ (Z.of_nat m + 1))); [done|exfalso].
      assert (Z.log2 h = Z.of_nat (S m)) as Hl.
      { apply Z.log2_unique; [lia|]. replace (Z.of_nat (S m)) with (Z.of_nat m + 1) in * by lia.
        replace (Z.succ (Z.of_nat m + 1)) with (Z.of_nat m + 1 + 1) by lia. lia. }
      rewrite <- Hl, Z.bit_log2 in E by lia. done.
Qed.

(** The table rises by at least [2^14] and at most [2^16] a step. *)
Lemma log2_tab_step i : 0 <= i < 32 -> log2_tab i < log2_tab (i + 1) /\ 0 <= log2_tab i /\ log2_tab (i + 1) <= 1048576.
Proof.
  intros Hi. assert (forall n, (n < 32)%nat -> (log2_tab (Z.of_nat n) <? log2_tab (Z.of_nat n + 1)) && (0 <=? log2_tab (Z.of_nat n)) &&
    (log2_tab (Z.of_nat n + 1) <=? 1048576) = true) as H by (intros n Hn; do 32 (destruct n as [|n]; [done|]); lia).
  specialize (H (Z.to_nat i) ltac:(lia)). rewrite Z2Nat.id in H by lia. bool_facts. lia.
Qed.

Lemma log2_tab_mono i j : 0 <= i <= j -> j <= 32 -> log2_tab i <= log2_tab j.
Proof.
  assert (forall n : nat, 0 <= i -> i + Z.of_nat n <= 32 -> log2_tab i <= log2_tab (i + Z.of_nat n)) as H.
  { induction n as [|n IH]; intros Hi Hn; [by rewrite Z.add_0_r|].
    assert (0 <= i + Z.of_nat n < 32) as Hr by lia. pose proof (log2_tab_step _ Hr) as [Hs _]. replace (i + Z.of_nat (S n)) with (i + Z.of_nat n + 1) by lia.
    specialize (IH Hi ltac:(lia)). lia. }
  intros Hij Hj. specialize (H (Z.to_nat (j - i))). replace (i + Z.of_nat (Z.to_nat (j - i))) with j in H by lia. apply H; lia.
Qed.

(** The interpolation, over the 25 bits below the leading one. *)
Definition interp (x : Z) : Z :=
  let lo := log2_tab (x / 2 ^ 20) in lo + (log2_tab (x / 2 ^ 20 + 1) - lo) * (x mod 2 ^ 20) / 2 ^ 20.

Lemma interp_bounds x : 0 <= x < 2 ^ 25 ->
  log2_tab (x / 2 ^ 20) <= interp x < log2_tab (x / 2 ^ 20 + 1) /\ 0 <= x / 2 ^ 20 < 32.
Proof.
  intros Hx. assert (0 <= x / 2 ^ 20 < 32) as Hi by (split; [apply Z.div_pos; lia|apply Z.div_lt_upper_bound; lia]).
  split; [|done]. destruct (log2_tab_step _ Hi) as (Hs & H0 & _). unfold interp. cbv zeta.
  set (lo := log2_tab (x / 2 ^ 20)) in *. set (hi := log2_tab (x / 2 ^ 20 + 1)) in *.
  pose proof (Z.mod_pos_bound x (2 ^ 20) ltac:(lia)). split.
  - assert (0 <= (hi - lo) * (x mod 2 ^ 20) / 2 ^ 20); [|lia]. apply Z.div_pos; [|lia]. apply Z.mul_nonneg_nonneg; lia.
  - assert ((hi - lo) * (x mod 2 ^ 20) / 2 ^ 20 < hi - lo); [|lia]. apply Z.div_lt_upper_bound; nia.
Qed.

Lemma interp_mono x y : 0 <= x <= y -> y < 2 ^ 25 -> interp x <= interp y.
Proof.
  intros Hxy Hy. destruct (interp_bounds x ltac:(lia)) as [Bx Ix]. destruct (interp_bounds y ltac:(lia)) as [By_ Iy].
  pose proof (Z.div_le_mono x y (2 ^ 20) ltac:(lia) ltac:(lia)). destruct (decide (x / 2 ^ 20 = y / 2 ^ 20)) as [E|].
  - unfold interp. rewrite E. destruct (log2_tab_step _ Iy) as (Hs & _ & _). apply Zplus_le_compat_l, Z.div_le_mono; [lia|].
    apply Z.mul_le_mono_nonneg_l; [lia|]. rewrite !Z.mod_eq by lia. rewrite E. lia.
  - pose proof (log2_tab_mono (x / 2 ^ 20 + 1) (y / 2 ^ 20) ltac:(lia) ltac:(lia)). lia.
Qed.

Lemma frac_interp norm : 2 ^ 63 <= norm < 2 ^ 64 -> frac_of norm = interp ((norm - 2 ^ 63) / 2 ^ 38).
Proof.
  intros Hn. unfold frac_of, interp. change 0x1F with (Z.ones 5). change 0xFFFFF with (Z.ones 20). rewrite !Z.land_ones, !Z.shiftr_div_pow2 by lia.
  set (r := norm - 2 ^ 63). replace norm with (r + 2 ^ 63) by lia.
  assert (0 <= r < 2 ^ 63) as Hr by lia.
  assert ((r + 2 ^ 63) / 2 ^ 58 = r / 2 ^ 58 + 32) as E1 by (change (2 ^ 63) with (2 ^ 5 * 2 ^ 58); by rewrite Z.div_add by lia).
  assert ((r + 2 ^ 63) / 2 ^ 38 = r / 2 ^ 38 + 2 ^ 5 * 2 ^ 20) as E2 by (change (2 ^ 63) with (2 ^ 25 * 2 ^ 38); by rewrite Z.div_add by lia).
  rewrite E1, E2, Z.mod_add by lia. assert (0 <= r / 2 ^ 58 < 32) by (split; [apply Z.div_pos; lia|apply Z.div_lt_upper_bound; lia]).
  assert ((r / 2 ^ 58 + 32) mod 2 ^ 5 = r / 2 ^ 58) as ->.
  { replace (r / 2 ^ 58 + 32) with (r / 2 ^ 58 + 1 * 2 ^ 5) by lia. rewrite Z.mod_add by lia. apply Z.mod_small. lia. }
  rewrite Z.div_div by lia. done.
Qed.

(** The term of a nonzero mix, from its logarithm. *)
Lemma dterm_log2 h : 0 < h < 2 ^ 64 ->
  let m := Z.log2 h in let x := (h * 2 ^ (63 - m) - 2 ^ 63) / 2 ^ 38 in
  pc_clplace_dterm h = (64 - m) * 2 ^ 20 - interp x /\ 0 <= x < 2 ^ 25 /\ 0 <= m <= 63.
Proof.
  intros Hh m x. assert (0 <= m <= 63) as Hm.
  { split; [apply Z.log2_nonneg|]. assert (m < 64); [|lia]. apply Z.log2_lt_pow2; lia. }
  assert (2 ^ m <= h < 2 ^ (m + 1)) as Hlog by (destruct (Z.log2_spec h ltac:(lia)); unfold m; replace (Z.log2 h + 1) with (Z.succ (Z.log2 h)) by lia; lia).
  assert (2 ^ m * 2 ^ (63 - m) = 2 ^ 63) as E1 by (rewrite <- Z.pow_add_r by lia; f_equal; lia).
  assert (2 ^ (m + 1) * 2 ^ (63 - m) = 2 ^ 64) as E2 by (rewrite <- Z.pow_add_r by lia; f_equal; lia).
  assert (0 < 2 ^ (63 - m)) by (apply Z.pow_pos_nonneg; lia).
  assert (2 ^ 63 <= h * 2 ^ (63 - m) < 2 ^ 64) as Hn by nia.
  split_and!; [|apply Z.div_pos; lia|apply Z.div_lt_upper_bound; lia|lia|lia].
  unfold pc_clplace_dterm. rewrite (proj2 (Z.eqb_neq h 0)) by lia. cbv zeta. rewrite msb_from_log2 by (change (Z.of_nat 63 + 1) with 64; lia). fold m.
  unfold PC_CLPLACE_FBITS. rewrite !Z.shiftl_mul_pow2 by lia. rewrite u64_id by (unfold is_u64; lia). rewrite frac_interp by lia. done.
Qed.

Lemma dterm_range h : is_u64 h -> 0 < pc_clplace_dterm h <= 64 * 2 ^ 20.
Proof.
  intros Hh. destruct (decide (h = 0)) as [->|Hnz]; [done|]. destruct (dterm_log2 h ltac:(unfold is_u64 in *; lia)) as (-> & Hx & Hm).
  destruct (interp_bounds _ Hx) as [Hb Hi]. destruct (log2_tab_step _ Hi) as (_ & H0 & H1). change (2 ^ 20) with 1048576 in *. nia.
Qed.

Lemma dterm_antitone h h' : is_u64 h -> is_u64 h' -> h <= h' -> pc_clplace_dterm h' <= pc_clplace_dterm h.
Proof.
  intros Hh Hh' Hle. destruct (decide (h = 0)) as [->|Hnz]; [change (pc_clplace_dterm 0) with (64 * 2 ^ 20); by apply dterm_range|].
  unfold is_u64 in *. destruct (dterm_log2 h ltac:(lia)) as (-> & Hx & Hm). destruct (dterm_log2 h' ltac:(lia)) as (-> & Hx' & Hm').
  pose proof (Z.log2_le_mono h h' ltac:(lia)) as Hl. set (m := Z.log2 h) in *. set (m' := Z.log2 h') in *.
  destruct (decide (m = m')) as [E|].
  - rewrite <- E in *. assert (interp ((h * 2 ^ (63 - m) - 2 ^ 63) / 2 ^ 38) <= interp ((h' * 2 ^ (63 - m) - 2 ^ 63) / 2 ^ 38)); [|lia].
    apply interp_mono; [|lia]. split; [lia|]. apply Z.div_le_mono; [lia|]. assert (0 < 2 ^ (63 - m)) by (apply Z.pow_pos_nonneg; lia). nia.
  - destruct (interp_bounds _ Hx) as [Hb Hi]. destruct (interp_bounds _ Hx') as [Hb' Hi']. destruct (log2_tab_step _ Hi) as (_ & _ & H1).
    destruct (log2_tab_step _ Hi') as (_ & H0 & _). change (2 ^ 20) with 1048576 in *. nia.
Qed.

(** * The order *)

#[global] Instance cand_eq_dec : EqDecision cand.
Proof. solve_decision. Defined.

Definition cand_ok (c : cand) : Prop := 0 < c_w c < 2 ^ 16 /\ 0 < c_d c <= 64 * 2 ^ 20.

Lemma beats_spec a b : cand_ok a -> cand_ok b ->
  beats a b = true <-> c_w b * c_d a < c_w a * c_d b \/ (c_w b * c_d a = c_w a * c_d b /\ c_id b < c_id a).
Proof.
  intros [Hwa Hda] [Hwb Hdb]. unfold beats. cbv zeta. rewrite !u64_id by (unfold is_u64; nia).
  destruct (_ =? _) eqn:E; cbn [negb]; bool_facts; rewrite Z.ltb_lt; lia.
Qed.

Lemma beats_irrefl a : cand_ok a -> beats a a = false.
Proof. intros Ha. apply not_true_iff_false. rewrite beats_spec by done. lia. Qed.

Lemma beats_asym a b : cand_ok a -> cand_ok b -> beats a b = true -> beats b a = false.
Proof. intros Ha Hb Hab. apply not_true_iff_false. rewrite beats_spec in * by done. lia. Qed.

Lemma beats_total a b : cand_ok a -> cand_ok b -> c_id a <> c_id b -> beats a b = true \/ beats b a = true.
Proof. intros Ha Hb Hne. rewrite !beats_spec by done. lia. Qed.

(** Fractions [w/d] compare transitively. *)
Lemma cross_trans wa da wb db wc dc :
  0 < da -> 0 < db -> 0 < dc -> wb * da <= wa * db -> wc * db <= wb * dc ->
  wc * da <= wa * dc /\ (wc * da = wa * dc -> wb * da = wa * db /\ wc * db = wb * dc).
Proof.
  intros Ha Hb Hc H1 H2.
  assert (wb * da * dc <= wa * db * dc) as G1 by (apply Z.mul_le_mono_nonneg_r; lia).
  assert (wc * db * da <= wb * dc * da) as G2 by (apply Z.mul_le_mono_nonneg_r; lia).
  split; [apply (Zmult_le_reg_r _ _ db); lia|]. intros E.
  assert (wc * da * db = wa * dc * db) as E' by congruence.
  split; [apply (Z.mul_reg_r _ _ dc); lia|apply (Z.mul_reg_r _ _ da); lia].
Qed.

Lemma beats_trans a b c : cand_ok a -> cand_ok b -> cand_ok c -> beats a b = true -> beats b c = true -> beats a c = true.
Proof.
  intros Ha Hb Hc. rewrite !beats_spec by done. intros Hab Hbc.
  destruct (cross_trans (c_w a) (c_d a) (c_w b) (c_d b) (c_w c) (c_d c)) as [Hle Heq]; try (unfold cand_ok in *; lia).
Qed.

Lemma lxor_u64 a b : is_u64 a -> is_u64 b -> is_u64 (Z.lxor a b).
Proof.
  unfold is_u64. intros Ha Hb. assert (0 <= Z.lxor a b) by (apply Z.lxor_nonneg; lia). split; [done|].
  destruct (decide (Z.lxor a b = 0)); [lia|]. apply Z.log2_lt_pow2; [lia|]. eapply Z.le_lt_trans; [apply Z.log2_lxor; lia|].
  apply Z.max_lub_lt.
  - destruct (decide (a = 0)) as [->|]; [done|]. apply Z.log2_lt_pow2; lia.
  - destruct (decide (b = 0)) as [->|]; [done|]. apply Z.log2_lt_pow2; lia.
Qed.

Lemma xorshift_u64 h : is_u64 h -> is_u64 (xorshift h 33).
Proof.
  intros Hh. apply lxor_u64; [done|]. unfold is_u64 in *. rewrite Z.shiftr_div_pow2 by lia. split; [apply Z.div_pos; lia|].
  apply Z.div_lt_upper_bound; lia.
Qed.

Lemma mix_u64 kh addr port : is_u64 (pc_clplace_mix kh addr port).
Proof. apply xorshift_u64, u64_range. Qed.

(** The map's candidates are comparable. *)
Definition place_wf (m : pc_clmap) : Prop :=
  Forall (fun n => is_u16 (cn_cap_weight n) /\ is_u16 (cn_admin_weight n)) (cm_node m) /\ NoDup (cn_node_id <$> cm_node m).

Lemma cand_of_ok kh n :
  is_u16 (cn_cap_weight n) -> is_u16 (cn_admin_weight n) -> pc_clmap_placeable n = true -> cand_ok (cand_of kh n).
Proof.
  unfold pc_clmap_placeable, pc_clmap_weight. intros Hc Ha Hp. bool_facts. split; cbn [cand_of c_w c_d]; [|apply dterm_range, mix_u64].
  unfold pc_clmap_weight, is_u16 in *. destruct (negb _); lia.
Qed.

Definition good (l : list cand) : Prop := Forall cand_ok l /\ NoDup (c_id <$> l).

Lemma cands_ok m kh : place_wf m -> good (cands m kh).
Proof.
  intros [Hw Hid]. unfold good, cands. induction (cm_node m) as [|n ns IH]; [split; constructor|].
  inversion Hw as [|? ? [Hc Ha] Hw']; subst. cbn [fmap list_fmap] in Hid. apply list.NoDup_cons in Hid as [Hnin Hid].
  specialize (IH Hw' Hid) as [IH1 IH2]. cbn [List.filter]. destruct (pc_clmap_placeable n) eqn:E; [|done]. cbn [fmap list_fmap]. split.
  - constructor; [by apply cand_of_ok|done].
  - apply list.NoDup_cons; split; [|done]. intros (c & Hc1 & Hc2)%list_elem_of_fmap. apply list_elem_of_fmap in Hc2 as (n' & -> & Hn').
    apply Hnin. apply list_elem_of_fmap. exists n'. split; [done|]. apply list_elem_of_In. apply list_elem_of_In, filter_In in Hn'. tauto.
Qed.

(** * Ranking *)


Lemma good_perm l l' : l ≡ₚ l' -> good l -> good l'.
Proof. intros Hp [H1 H2]. split; [by rewrite <- Hp|]. by rewrite <- (fmap_Permutation c_id _ _ Hp). Qed.

Lemma good_cons x l : good (x :: l) -> cand_ok x /\ (forall y, y ∈ l -> c_id x <> c_id y) /\ good l.
Proof.
  intros [H1 H2]. inversion H1; subst. cbn [fmap list_fmap] in H2. apply list.NoDup_cons in H2 as [Hn H2]. split_and!; try done.
  intros y Hy E. apply Hn. apply list_elem_of_fmap. eauto.
Qed.

(** [b] beats every other of [l]. *)
Definition tops (b : cand) (l : list cand) : Prop := forall x, x ∈ l -> x <> b -> beats b x = true.

Lemma best_idx_spec b bi j rest b' bi' :
  good (b :: rest) -> best_idx b bi j rest = (b', bi') ->
  tops b' (b :: rest) /\ ((bi' = bi /\ b' = b) \/ exists i, bi' = Some (j + i)%nat /\ rest !! i = Some b').
Proof.
  revert b bi j. induction rest as [|c rest IH]; intros b bi j Hg; cbn [best_idx].
  - intros [= <- <-]. split; [|by left]. intros x Hx Hne. apply list_elem_of_singleton in Hx. done.
  - pose proof Hg as (Hb & Hid & Hg')%good_cons. pose proof Hg' as (Hc & Hid' & Hgr)%good_cons.
    assert (c_id b <> c_id c) as Hbc by (apply Hid; left).
    destruct (beats c b) eqn:E; intros H.
    + apply IH in H as [Ht Hi]; [|done]. split.
      * intros x Hx Hne. apply elem_of_cons in Hx as [->|Hx]; [|by apply Ht].
        destruct (decide (c = b')) as [->|Hcb]; [done|]. assert (cand_ok b') as Hb'.
        { destruct Hi as [[_ ->]|(i & _ & Hi)]; [done|]. apply (Forall_lookup_1 _ _ _ _ (proj1 Hgr) Hi). }
        apply (beats_trans b' c b); try done. apply Ht; [left|done].
      * right. destruct Hi as [[-> ->]|(i & -> & Hi)]; [exists 0%nat; split; [f_equal; lia|done]|]. exists (S i). split; [f_equal; lia|done].
    + assert (good (b :: rest)) as Hg2.
      { split; [constructor; [done|apply Hgr]|]. cbn. apply list.NoDup_cons; split; [|apply Hgr].
        intros (y & Hy1 & Hy2)%list_elem_of_fmap. eapply Hid; [right; exact Hy2|done]. }
      apply IH in H as [Ht Hi]; [|done]. split.
      * intros x Hx Hne. apply elem_of_cons in Hx as [->|Hx]; [apply Ht; [left|done]|]. apply elem_of_cons in Hx as [->|Hx]; [|apply Ht; [by right|done]].
        destruct (beats_total b c Hb Hc Hbc) as [Hb1|]; [|congruence]. destruct (decide (b = b')) as [->|Hbb]; [done|]. assert (cand_ok b') as Hb'.
        { destruct Hi as [[_ ->]|(i & _ & Hi)]; [done|]. apply (Forall_lookup_1 _ _ _ _ (proj1 Hgr) Hi). }
        apply (beats_trans b' b c); try done. apply Ht; [left|done].
      * destruct Hi as [?|(i & -> & Hi)]; [by left|right]. exists (S i). split; [f_equal; lia|done].
Qed.

(** The swap keeps the candidates. *)
Lemma swap_perm (x b : cand) rest (i : nat) : rest !! i = Some b -> x :: rest ≡ₚ b :: <[i := x]> rest.
Proof.
  intros Hi. pose proof (lookup_lt_Some _ _ _ Hi). rewrite insert_take_drop by done. rewrite <- (take_drop_middle rest i b Hi) at 1.
  generalize (take i rest), (drop (S i) rest). intros. solve_Permutation.
Qed.

(** The ranked list: the best [max], best first, and nothing left out beats any of them. *)
Lemma rank_sel_spec max l :
  good l -> exists rest, l ≡ₚ rank_sel max l ++ rest /\ length (rank_sel max l) = (max `min` length l)%nat /\
    StronglySorted (fun a b => beats a b = true) (rank_sel max l) /\
    (forall o r, o ∈ rank_sel max l -> r ∈ rest -> beats o r = true).
Proof.
  revert l. induction max as [|max IH]; intros l Hg.
  - exists l. split_and!; [done|done|constructor|]. intros o r Ho. by apply elem_of_nil in Ho.
  - destruct l as [|x l]; [exists []; split_and!; [done|done|constructor|intros o r Ho; by apply elem_of_nil in Ho]|].
    cbn [rank_sel]. destruct (best_idx x None 0 l) as [b bi] eqn:E. destruct (best_idx_spec _ _ _ _ _ _ Hg E) as [Ht Hi].
    set (l' := match bi with Some j => <[j := x]> l | None => l end).
    assert (x :: l ≡ₚ b :: l') as Hp.
    { destruct Hi as [[-> ->]|(i & -> & Hi)]; [done|]. by apply swap_perm. }
    pose proof (good_perm _ _ Hp Hg) as Hg'. pose proof Hg' as (Hb & Hid & Hgl)%good_cons.
    assert (forall y, y ∈ l' -> beats b y = true) as Hbt.
    { intros y Hy. apply Ht; [rewrite Hp; by right|]. intros ->. by apply (Hid b). }
    destruct (IH l' Hgl) as (rest & Hperm & Hlen & Hsort & Hout). exists rest. split_and!.
    + rewrite Hp. cbn [app]. by constructor.
    + cbn [length]. rewrite Hlen. apply Permutation_length in Hp. cbn in Hp |- *. lia.
    + constructor; [done|]. apply list.Forall_forall. intros y Hy. apply Hbt. rewrite Hperm. apply elem_of_app. by left.
    + intros o r Ho Hr. apply elem_of_cons in Ho as [->|Ho]; [|by apply Hout]. apply Hbt. rewrite Hperm. apply elem_of_app. by right.
Qed.

(** ** The copy set *)

Definition ahead_of (me : cand) (l : list cand) : list cand := List.filter (fun c => beats c me) l.

Lemma ahead_loop_spec ns kh me k ahead :
  ahead < k -> (forall n, n ∈ ns -> pc_clmap_placeable n = true -> cn_node_id n = c_id me -> beats (cand_of kh n) me = false) ->
  ahead_loop ns kh me k ahead = (ahead + zlen (ahead_of me (cand_of kh <$> List.filter pc_clmap_placeable ns)) <? k).
Proof.
  revert ahead. induction ns as [|n ns IH]; intros ahead Hk Hme; [symmetry; apply Z.ltb_lt; change (ahead + 0 < k); lia|].
  assert (forall n, n ∈ ns -> pc_clmap_placeable n = true -> cn_node_id n = c_id me -> beats (cand_of kh n) me = false) as Hme'.
  { intros n' Hn'. apply Hme. by right. }
  cbn [ahead_loop List.filter]. destruct (pc_clmap_placeable n) eqn:Ep; cbn [negb]; [|by rewrite orb_true_r, IH].
  rewrite orb_false_r. cbn [fmap list_fmap ahead_of List.filter]. unfold ahead_of in *. destruct (cn_node_id n =? c_id me) eqn:Eid; bool_facts.
  - rewrite (Hme n) by (done || left). by apply IH.
  - destruct (beats (cand_of kh n) me); [|by apply IH]. rewrite zlen_cons. destruct (k <=? ahead + 1) eqn:Ek; bool_facts.
    + symmetry. apply Z.ltb_ge. pose proof (zlen_nonneg (List.filter (fun c => beats c me) (cand_of kh <$> List.filter pc_clmap_placeable ns))). lia.
    + rewrite IH by (done || lia). f_equal. lia.
Qed.

Lemma ahead_of_perm me l l' : l ≡ₚ l' -> zlen (ahead_of me l) = zlen (ahead_of me l').
Proof.
  intros Hp. unfold zlen, ahead_of. f_equal. induction Hp as [|x l l' Hp IH|x y l|l1 l2 l3 _ IH1 _ IH2]; cbn.
  - done.
  - destruct (beats x me); cbn; lia.
  - destruct (beats x me), (beats y me); done.
  - lia.
Qed.

Lemma ahead_of_app me l l' : ahead_of me (l ++ l') = ahead_of me l ++ ahead_of me l'.
Proof. apply List.filter_app. Qed.

Lemma ahead_none me l : (forall x, x ∈ l -> beats x me = false) -> ahead_of me l = [].
Proof.
  intros H. unfold ahead_of. induction l as [|x l IH]; [done|]. cbn. rewrite (H x) by left. apply IH. intros y Hy. apply H. by right.
Qed.

Lemma ahead_all me l : (forall x, x ∈ l -> beats x me = true) -> ahead_of me l = l.
Proof.
  intros H. unfold ahead_of. induction l as [|x l IH]; [done|]. cbn. rewrite (H x) by left. f_equal. apply IH. intros y Hy. apply H. by right.
Qed.

Lemma ahead_le me l : (length (ahead_of me l) <= length l)%nat.
Proof. unfold ahead_of. induction l as [|x l IH]; [done|]. cbn. destruct (beats x me); cbn; lia. Qed.

(** Fewer than [k] are ahead of a candidate exactly when it is ranked. *)
Lemma ahead_rank me l k : good l -> me ∈ l -> (0 < k)%nat -> zlen (ahead_of me l) < Z.of_nat k <-> me ∈ rank_sel k l.
Proof.
  intros Hg Hme Hk. destruct (rank_sel_spec k l Hg) as (rest & Hp & Hlen & Hsort & Hout). rewrite (ahead_of_perm _ _ _ Hp), ahead_of_app, zlen_app.
  pose proof (good_perm _ _ Hp Hg) as [Hok _]. rewrite Hp in Hme. rewrite list.Forall_forall in Hok.
  split.
  - intros Hlt. apply elem_of_app in Hme as [?|Hr]; [done|exfalso]. rewrite ahead_all in Hlt by (intros x Hx; by apply Hout).
    pose proof (zlen_nonneg (ahead_of me rest)). apply Permutation_length in Hp. rewrite length_app in Hp.
    assert (0 < length rest)%nat by (destruct rest; [by apply elem_of_nil in Hr|cbn; lia]). unfold zlen in *. lia.
  - intros Hin. assert (ahead_of me rest = []) as ->.
    { apply ahead_none. intros x Hx. apply beats_asym; [by apply Hok|apply Hok; apply elem_of_app; by right|by apply Hout]. }
    apply list_elem_of_split in Hin as (l1 & l2 & El). rewrite El in *. rewrite ahead_of_app, zlen_app.
    assert (ahead_of me (me :: l2) = []) as ->.
    { apply StronglySorted_app in Hsort as (_ & _ & Hs). inversion Hs as [|? ? _ Hf]; subst. rewrite list.Forall_forall in Hf.
      apply ahead_none. intros x Hx. apply elem_of_cons in Hx as [->|Hx]; [apply beats_irrefl, Hok; rewrite <- app_assoc; apply elem_of_app; right; left|].
      apply beats_asym; [apply Hok; rewrite <- app_assoc; apply elem_of_app; right; left
        |apply Hok; rewrite <- app_assoc; apply elem_of_app; right; right; apply elem_of_app; by left|by apply Hf]. }
    pose proof (ahead_le me l1). rewrite length_app in Hlen. cbn in Hlen. unfold zlen. cbn [length]. lia.
Qed.

(** ** Nodes and their candidates *)

Lemma elem_of_cands m kh c : c ∈ cands m kh <-> exists n, n ∈ cm_node m /\ pc_clmap_placeable n = true /\ c = cand_of kh n.
Proof.
  unfold cands. rewrite list_elem_of_fmap. split.
  - intros (n & -> & Hn). apply list_elem_of_In, filter_In in Hn as [Hn Hp]. apply list_elem_of_In in Hn. eauto.
  - intros (n & Hn & Hp & ->). exists n. split; [done|]. apply list_elem_of_In, filter_In. split; [by apply list_elem_of_In|done].
Qed.

Lemma same_id m n n' : place_wf m -> n ∈ cm_node m -> n' ∈ cm_node m -> cn_node_id n = cn_node_id n' -> n = n'.
Proof.
  intros [_ Hnd] Hn Hn' E. apply list_elem_of_lookup in Hn as (i & Hi). apply list_elem_of_lookup in Hn' as (j & Hj).
  assert (i = j) as ->; [|congruence]. eapply NoDup_lookup; [exact Hnd| |]; rewrite list_lookup_fmap; [by rewrite Hi|by rewrite Hj, E].
Qed.

Lemma find_spec m id : match pc_clmap_find m id with
  | Some n => n ∈ cm_node m /\ cn_node_id n = id
  | None => forall n, n ∈ cm_node m -> cn_node_id n <> id
  end.
Proof.
  unfold pc_clmap_find. destruct (List.find _ _) as [n|] eqn:E.
  - apply find_some in E as [Hn Hid]. bool_facts. split; [by apply list_elem_of_In|done].
  - intros n Hn Hid. pose proof (find_none _ _ E n) as H. cbn in H. rewrite Hid, Z.eqb_refl in H. by apply diff_true_false, H, list_elem_of_In.
Qed.

Lemma in_set_rank m kh id k : place_wf m -> 0 < k ->
  pc_clplace_in_set m kh id k = true <-> id ∈ (c_id <$> rank_sel (Z.to_nat k) (cands m kh)).
Proof.
  intros Hwf Hk. pose proof (cands_ok m kh Hwf) as Hg. destruct (rank_sel_spec (Z.to_nat k) _ Hg) as (rest & Hp & _ & _ & _).
  unfold pc_clplace_in_set. rewrite (proj2 (Z.leb_gt k 0)) by lia. pose proof (find_spec m id) as Hf.
  assert (forall c, c ∈ rank_sel (Z.to_nat k) (cands m kh) -> c ∈ cands m kh) as Hsub by (intros; rewrite Hp; apply elem_of_app; by left).
  destruct (pc_clmap_find m id) as [n|].
  - destruct Hf as [Hn Hid]. destruct (pc_clmap_placeable n) eqn:Epl; cbn [negb].
    + assert (cand_of kh n ∈ cands m kh) as Hc by (apply elem_of_cands; eauto).
      rewrite ahead_loop_spec; [|lia|].
      2: { intros n' Hn' _ Hid'. rewrite (same_id m n' n Hwf Hn' Hn) by done. apply beats_irrefl. destruct Hg as [Hg _].
           rewrite list.Forall_forall in Hg. by apply Hg. }
      fold (cands m kh). rewrite Z.ltb_lt, Z.add_0_l. rewrite <- (Z2Nat.id k) at 1 by lia. rewrite ahead_rank by (done || lia).
      rewrite list_elem_of_fmap. split; [intros H; exists (cand_of kh n); auto|]. intros (c & Hcid & Hc'). pose proof (Hsub _ Hc') as Hcc.
      apply elem_of_cands in Hcc as (n' & Hn' & Hp' & ->). by rewrite (same_id m n n' Hwf Hn Hn') by (by rewrite Hid, Hcid).
    + split; [done|]. intros (c & Hcid & Hc')%list_elem_of_fmap. apply Hsub, elem_of_cands in Hc' as (n' & Hn' & Hp' & ->).
      rewrite (same_id m n n' Hwf Hn Hn') in Epl by (by rewrite Hid, Hcid). congruence.
  - split; [done|]. intros (c & Hcid & Hc')%list_elem_of_fmap. apply Hsub, elem_of_cands in Hc' as (n' & Hn' & Hp' & ->). exfalso. by apply (Hf n').
Qed.

(** The owner's loop finds the candidate that beats all others. *)
Lemma owner_loop_tops kh ns b :
  good (b :: (cand_of kh <$> List.filter pc_clmap_placeable ns)) ->
  exists b', owner_loop (Some b) ns kh = Some b' /\ b' ∈ b :: (cand_of kh <$> List.filter pc_clmap_placeable ns) /\
    tops b' (b :: (cand_of kh <$> List.filter pc_clmap_placeable ns)).
Proof.
  intros Hg. set (l := cand_of kh <$> List.filter pc_clmap_placeable ns) in *.
  assert (owner_loop (Some b) ns kh = Some (best_idx b None 0 l).1) as ->.
  { unfold l. clear. generalize (@None nat), 0%nat. revert b. induction ns as [|n ns IH]; intros b bi j; [done|]. cbn [owner_loop List.filter].
    destruct (pc_clmap_placeable n); cbn [negb fmap list_fmap best_idx]; [destruct (beats _ b); apply IH|apply IH]. }
  destruct (best_idx b None 0 l) as [b' bi] eqn:E. destruct (best_idx_spec _ _ _ _ _ _ Hg E) as [Ht Hi]. exists b'. split_and!; [done| |done].
  destruct Hi as [[_ ->]|(i & _ & Hi)]; [left|right]. by eapply list_elem_of_lookup_2.
Qed.

Definition owner_cand (m : pc_clmap) (kh : Z) : option cand := owner_loop None (cm_node m) kh.

Lemma owner_tops m kh : place_wf m ->
  match owner_cand m kh with Some b => b ∈ cands m kh /\ tops b (cands m kh) | None => cands m kh = [] end.
Proof.
  intros Hwf. pose proof (cands_ok m kh Hwf) as Hg. unfold owner_cand, cands in *. clear Hwf. induction (cm_node m) as [|n ns IH]; [done|].
  cbn [owner_loop List.filter] in *. destruct (pc_clmap_placeable n); cbn [negb]; [|by apply IH]. cbn [fmap list_fmap] in *.
  destruct (owner_loop_tops kh ns _ Hg) as (b' & -> & Hin & Ht). done.
Qed.

Lemma tops_unique l b b' : Forall cand_ok l -> b ∈ l -> b' ∈ l -> tops b l -> tops b' l -> b = b'.
Proof.
  intros Hok Hb Hb' Ht Ht'. destruct (decide (b = b')) as [|Hne]; [done|]. rewrite list.Forall_forall in Hok.
  pose proof (Ht _ Hb' (not_eq_sym Hne)) as H1. pose proof (Ht' _ Hb Hne) as H2. pose proof (beats_asym _ _ (Hok _ Hb) (Hok _ Hb') H1). congruence.
Qed.

Lemma owner_rank m kh : place_wf m -> owner_cand m kh = head (rank_sel 1 (cands m kh)).
Proof.
  intros Hwf. pose proof (cands_ok m kh Hwf) as Hg. pose proof (owner_tops m kh Hwf) as Ho. destruct (owner_cand m kh) as [b|]; [|by rewrite Ho].
  destruct Ho as [Hin Ht]. destruct (rank_sel_spec 1 _ Hg) as (rest & Hp & Hlen & _ & Hout).
  destruct (rank_sel 1 (cands m kh)) as [|o os]; [cbn in Hlen; destruct (cands m kh); [by apply elem_of_nil in Hin|done]|].
  assert (os = []) as -> by (assert (length (o :: os) <= 1)%nat by (rewrite Hlen; lia); destruct os; [done|cbn [length] in *; lia]).
  cbn [head]. f_equal.
  apply (tops_unique (cands m kh)); [apply Hg|done|rewrite Hp; left|done|]. intros x Hx Hne. rewrite Hp in Hx. cbn [app] in Hx.
  apply elem_of_cons in Hx as [?|Hx]; [congruence|]. apply Hout; [left|done].
Qed.

Lemma rank_nested k k' l : (k <= k')%nat -> rank_sel k l = take k (rank_sel k' l).
Proof.
  revert k' l. induction k as [|k IH]; intros k' l Hk; [done|]. destruct k' as [|k']; [lia|]. destruct l as [|x l]; [done|]. cbn [rank_sel].
  destruct (best_idx x None 0 l) as [b bi]. cbn [take]. f_equal. apply IH. lia.
Qed.

(** Every other node's candidates. *)
Definition others (m : pc_clmap) (x : Z) : list pc_clmap_node := List.filter (fun n => negb (cn_node_id n =? x)) (cm_node m).

Lemma elem_of_others m x n : n ∈ others m x <-> n ∈ cm_node m /\ cn_node_id n <> x.
Proof.
  unfold others. rewrite list_elem_of_In, filter_In, <- list_elem_of_In, negb_true_iff, Z.eqb_neq. done.
Qed.

(** An owner other than [x] tops the candidates of the others. *)
Lemma owner_among_others m kh x b :
  place_wf m -> owner_cand m kh = Some b -> c_id b <> x ->
  exists n, n ∈ others m x /\ pc_clmap_placeable n = true /\ b = cand_of kh n /\
    (forall n', n' ∈ others m x -> pc_clmap_placeable n' = true -> cand_of kh n' <> b -> beats b (cand_of kh n') = true).
Proof.
  intros Hwf Ho Hx. pose proof (owner_tops m kh Hwf) as H. rewrite Ho in H. destruct H as [Hin Ht].
  apply elem_of_cands in Hin as (n & Hn & Hp & ->). exists n. split_and!; [by apply elem_of_others|done|done|].
  intros n' Hn' Hp' Hne. apply elem_of_others in Hn' as [Hn' _]. apply Ht; [apply elem_of_cands; eauto|done].
Qed.

(** C19. Where a key lives is one answer, however it is asked: a node is in the
    copy set of size [k] exactly when the ranked list of [k] names it, the owner
    is the first of the ranked list (0 when there is none), the ranked list of
    fewer copies is the start of the list of more, and each node in it scores
    above all that follow and all left out. *)
Theorem place_answers_agree m kh id k k' :
  place_wf m -> 0 < k <= k' ->
  (pc_clplace_in_set m kh id k = true <-> id ∈ pc_clplace_rank m kh k) /\
  pc_clplace_owner m kh = default 0 (head (pc_clplace_rank m kh k)) /\
  pc_clplace_rank m kh k = ztake k (pc_clplace_rank m kh k') /\
  zlen (pc_clplace_rank m kh k) = Z.min k (pc_clmap_placeable_count m) /\
  exists rest, cands m kh ≡ₚ rank_sel (Z.to_nat k) (cands m kh) ++ rest /\
    StronglySorted (fun a b => beats a b = true) (rank_sel (Z.to_nat k) (cands m kh)) /\
    (forall o r, o ∈ rank_sel (Z.to_nat k) (cands m kh) -> r ∈ rest -> beats o r = true).
Proof.
  intros Hwf Hk. unfold pc_clplace_rank. rewrite !(proj2 (Z.leb_gt _ 0)) by lia. pose proof (cands_ok m kh Hwf) as Hg.
  destruct (rank_sel_spec (Z.to_nat k) _ Hg) as (rest & Hp & Hlen & Hsort & Hout). split_and!; [| | | |by exists rest].
  - apply in_set_rank; [done|lia].
  - unfold pc_clplace_owner. fold (owner_cand m kh). rewrite owner_rank by done. rewrite (rank_nested 1 (Z.to_nat k)) by lia.
    by destruct (rank_sel (Z.to_nat k) (cands m kh)).
  - unfold ztake. rewrite <- fmap_take. f_equal. apply rank_nested. lia.
  - unfold zlen, pc_clmap_placeable_count. rewrite length_fmap, Hlen. unfold cands, zlen. rewrite length_fmap. lia.
Qed.

(** A change to one node moves no key between two others: if two maps hold the
    same nodes but for node [x], in any order, with [x] added, removed, drained,
    re-weighted, moved or failed between them, then a slot that [x] owns under
    neither has the same owner under both. *)
Theorem place_moves_least m m' kh x :
  place_wf m -> place_wf m' -> others m x ≡ₚ others m' x ->
  pc_clplace_owner m kh <> x -> pc_clplace_owner m' kh <> x -> pc_clplace_owner m kh = pc_clplace_owner m' kh.
Proof.
  intros Hwf Hwf' Hoth. unfold pc_clplace_owner. fold (owner_cand m kh) (owner_cand m' kh).
  pose proof (owner_tops m kh Hwf) as Ho. pose proof (owner_tops m' kh Hwf') as Ho'.
  assert (forall n, n ∈ others m x <-> n ∈ others m' x) as Hiff by (intros; by rewrite Hoth).
  destruct (owner_cand m kh) as [b|] eqn:E, (owner_cand m' kh) as [b'|] eqn:E'; intros Hx Hx'; [| | |done].
  - destruct (owner_among_others m kh x b Hwf E Hx) as (n & Hn & Hp & -> & Ht). destruct (owner_among_others m' kh x b' Hwf' E' Hx') as (n' & Hn' & Hp' & -> & Ht').
    destruct (decide (cand_of kh n = cand_of kh n')) as [->|Hne]; [done|exfalso].
    pose proof (Ht n' (proj2 (Hiff n') Hn') Hp' (not_eq_sym Hne)) as H1. pose proof (Ht' n (proj1 (Hiff n) Hn) Hp Hne) as H2.
    destruct (cands_ok m kh Hwf) as [Hok _]. destruct (cands_ok m' kh Hwf') as [Hok' _]. rewrite list.Forall_forall in Hok, Hok'.
    pose proof (beats_asym _ _ (Hok _ (proj1 Ho)) (Hok' _ (proj1 Ho')) H1). congruence.
  - destruct (owner_among_others m kh x b Hwf E Hx) as (n & Hn & Hp & -> & _). apply Hiff, elem_of_others in Hn as [Hn _].
    assert (cand_of kh n ∈ cands m' kh) as Hc by (apply elem_of_cands; eauto). rewrite Ho' in Hc. by apply elem_of_nil in Hc.
  - destruct (owner_among_others m' kh x b' Hwf' E' Hx') as (n & Hn & Hp & -> & _). apply Hiff, elem_of_others in Hn as [Hn _].
    assert (cand_of kh n ∈ cands m kh) as Hc by (apply elem_of_cands; eauto). rewrite Ho in Hc. by apply elem_of_nil in Hc.
Qed.

(** A map of [ns], for the witnesses. *)
Definition ex_fleet (ns : list pc_clmap_node) : pc_clmap := mk_clmap 1 1 1 0 1 1 0 ns.

Lemma place_answers_agree_witness :
  let m := ex_fleet [ex_node 1 1000; ex_node 2 500; ex_node 3 800] in
  (pc_clplace_in_set m 77 2 2 = true <-> 2 ∈ pc_clplace_rank m 77 2) /\
  pc_clplace_owner m 77 = default 0 (head (pc_clplace_rank m 77 2)) /\
  pc_clplace_rank m 77 2 = ztake 2 (pc_clplace_rank m 77 3) /\
  zlen (pc_clplace_rank m 77 2) = Z.min 2 (pc_clmap_placeable_count m) /\
  exists rest, cands m 77 ≡ₚ rank_sel (Z.to_nat 2) (cands m 77) ++ rest /\
    StronglySorted (fun a b => beats a b = true) (rank_sel (Z.to_nat 2) (cands m 77)) /\
    (forall o r, o ∈ rank_sel (Z.to_nat 2) (cands m 77) -> r ∈ rest -> beats o r = true).
Proof.
  apply (place_answers_agree (ex_fleet [ex_node 1 1000; ex_node 2 500; ex_node 3 800]) 77 2 2 3); [|lia].
  split; [repeat (constructor; [by vm_compute|]); constructor|apply (bool_decide_unpack _); by vm_compute].
Defined.

Lemma place_moves_least_witness :
  let m := ex_fleet [ex_node 1 1000; ex_node 2 500; ex_node 3 820] in
  let m' := ex_fleet [ex_node 2 500; ex_node 1 1000] in
  pc_clplace_owner m 82 <> 3 /\ pc_clplace_owner m 82 = pc_clplace_owner m' 82.
Proof.
  split; [by vm_compute|].
  apply (place_moves_least (ex_fleet [ex_node 1 1000; ex_node 2 500; ex_node 3 820]) (ex_fleet [ex_node 2 500; ex_node 1 1000]) 82 3);
    [| |change ([ex_node 1 1000; ex_node 2 500] ≡ₚ [ex_node 2 500; ex_node 1 1000]); apply perm_swap|by vm_compute|by vm_compute].
  - split; [repeat (constructor; [by vm_compute|]); constructor|apply (bool_decide_unpack _); by vm_compute].
  - split; [repeat (constructor; [by vm_compute|]); constructor|apply (bool_decide_unpack _); by vm_compute].
Defined.

(** With equal weights the owner is not always the plain argmax of the mix:
    of two nodes of equal weight, 10.0.1.75 (id 1) has the higher mix for slot
    2639 and 10.0.1.76 (id 2) owns it, because the fixed-point terms of the two
    mixes are equal and the tie falls to the higher id. *)
Example place_uniform_not_argmax :
  let a := mk_cnode (replicate 16 1) 1 0x0A00014B 7000 6379 PC_CLMAP_ST_READY 1 1000 PC_CLMAP_W_UNSET in
  let b := mk_cnode (replicate 16 2) 2 0x0A00014C 7000 6379 PC_CLMAP_ST_READY 1 1000 PC_CLMAP_W_UNSET in
  pc_hrw_mix 2639 (cn_addr b) 7000 < pc_hrw_mix 2639 (cn_addr a) 7000 /\ pc_clplace_owner (ex_fleet [a; b]) 2639 = 2.
Proof. by vm_compute. Qed.
