(* ===== verification/Hashrec.v ===== *)
(** A Redis hash as one value: [src/src/hashrec.c], [src/src/hashrec.h].

    The record is a header with a count and the fields in insertion order.  The
    operations work on the bytes; [enc] is the record of a list of fields and
    values.  Proved: the validator accepts exactly the encodings of lists within
    the limits, without a read outside the record; and get, set, delete and
    increment are the operations of an ordered association list, size limits and
    refusals included.  [pc_hr_incrbyfloat] works in [long double] and is not
    modelled. *)

From stdpp Require Import base tactics list numbers.
From S2P Require Import Prelude HtBase Clcodec.
#[local] Open Scope Z_scope.

Definition PC_HR_HDR : Z := 8.
Definition PC_HR_MAX : Z := 58000.
Definition PC_HR_FIELD_MAX : Z := 4096.
Definition PC_HR_E_SIZE : Z := -2.
Definition PC_HR_E_NUM : Z := -3.
Definition PC_HR_E_OVF : Z := -4.
Definition PC_HR_E_ARG : Z := -5.

(** * Reading *)

(** The validator's loop: [Rej] is [return 0].  An entry is at least seven bytes,
    so the record's length is fuel enough. *)
Fixpoint hr_valid_loop (fuel : nat) (r : bytes) (cnt i off : Z) : outcome Z :=
  match fuel with
  | O => Rej
  | S fuel =>
      if i <? cnt then
        let n := zlen r in
        guard negb (n - off <? 6);
        let! fl := pc_g16 (zdrop off r) in
        let! vl := pc_g32 (zdrop (off + 2) r) in
        guard negb ((fl =? 0) || (fl >? PC_HR_FIELD_MAX) || (n - off - 6 <? fl) || (n - off - 6 - fl <? vl));
        hr_valid_loop fuel r cnt (i + 1) (off + (6 + fl + vl))
      else Ret off
  end.

(** [Ret count], or [Rej]. *)
Definition pc_hr_valid (r : bytes) : outcome Z :=
  let n := zlen r in
  guard negb ((n >? PC_HR_MAX) || (n <? PC_HR_HDR));
  let! b0 := byte_at r 0 in
  let! b1 := byte_at r 1 in
  let! b2 := byte_at r 2 in
  let! b3 := byte_at r 3 in
  guard negb (negb (b0 =? 1) || negb (b1 =? 0) || negb (b2 =? 0) || negb (b3 =? 0));
  let! cnt := pc_g32 (zdrop 4 r) in
  let! off := hr_valid_loop (S (length r)) r cnt 0 PC_HR_HDR in
  guard off =? n;
  Ret cnt.

(** The entry at [off] (0 for the first): field, value and the next offset. *)
Definition pc_hr_next (r : bytes) (off : Z) : outcome (bytes * bytes * Z) :=
  let o := if off =? 0 then PC_HR_HDR else off in
  guard negb (o + 6 >? zlen r);
  let! fl := pc_g16 (zdrop o r) in
  let! vl := pc_g32 (zdrop (o + 2) r) in
  let! f := sub_at r (o + 6) fl in
  let! v := sub_at r (o + 6 + fl) vl in
  Ret (f, v, o + 6 + fl + vl).

(** The offset of [field]'s entry, or 0. *)
Fixpoint hr_find_loop (fuel : nat) (r field : bytes) (off : Z) : outcome Z :=
  match fuel with
  | O => Ret 0
  | S fuel =>
      let at_ := if off =? 0 then PC_HR_HDR else off in
      match pc_hr_next r off with
      | Rej => Ret 0
      | Oob => Oob
      | Ret (f, v, off) =>
          if (zlen f =? zlen field) && bool_decide (f = field) then Ret at_ else hr_find_loop fuel r field off
      end
  end.

Definition hr_find (r : option bytes) (field : bytes) : outcome Z :=
  match r with
  | None => Ret 0
  | Some r => if zlen r <? PC_HR_HDR then Ret 0 else hr_find_loop (S (length r)) r field 0
  end.

(** [Rej]: absent. *)
Definition pc_hr_get (r : option bytes) (field : bytes) : outcome bytes :=
  let! at_ := hr_find r field in
  guard negb (at_ =? 0);
  match r with
  | None => Oob
  | Some r =>
      let! vl := pc_g32 (zdrop (at_ + 2) r) in
      let! fl := pc_g16 (zdrop at_ r) in
      sub_at r (at_ + 6 + fl) vl
  end.

(** * Editing *)

Definition hr_hdr (cnt : Z) : bytes := [1; 0; 0; 0] ++ pc_p32 cnt.

(** The returned length or error, [out] as far as it was written, [*added]. *)
Definition pc_hr_set (r : option bytes) (field val : bytes) (nx : bool) (cap : Z) : outcome (Z * bytes * bool) :=
  let flen := zlen field in
  let vlen := zlen val in
  let present := match r with Some r => negb (zlen r <? PC_HR_HDR) | None => false end in
  if (flen =? 0) || (flen >? PC_HR_FIELD_MAX) then Ret (PC_HR_E_ARG, [], false)
  else
    let r0 := if present then r else None in
    let n := match r0 with Some r => zlen r | None => PC_HR_HDR end in
    let! cnt := match r0 with Some r => pc_g32 (zdrop 4 r) | None => Ret 0 end in
    let! at_ := match r0 with Some _ => hr_find r0 field | None => Ret 0 end in
    match r0 with
    | Some r =>
        if negb (at_ =? 0) then
          if nx then if n >? cap then Ret (PC_HR_E_SIZE, [], false) else Ret (n, r, false)
          else
            let! ofl := pc_g16 (zdrop at_ r) in
            let! ovl := pc_g32 (zdrop (at_ + 2) r) in
            let tail := at_ + 6 + ofl + ovl in
            let need := n - ovl + vlen in
            if (need >? PC_HR_MAX) || (need >? cap) then Ret (PC_HR_E_SIZE, [], false)
            else
              let! front := sub_at r 0 (at_ + 6 + ofl) in
              let! rest := sub_at r tail (n - tail) in
              Ret (need, blit front (at_ + 2) (pc_p32 (u32 vlen)) ++ val ++ rest, false)
        else
          let need := n + 6 + flen + vlen in
          if (need >? PC_HR_MAX) || (need >? cap) then Ret (PC_HR_E_SIZE, [], false)
          else Ret (need, blit r 0 (hr_hdr (u32 (cnt + 1))) ++ pc_p16 (u16 flen) ++ pc_p32 (u32 vlen) ++ field ++ val, true)
    | None =>
        let need := n + 6 + flen + vlen in
        if (need >? PC_HR_MAX) || (need >? cap) then Ret (PC_HR_E_SIZE, [], false)
        else Ret (need, hr_hdr (u32 (cnt + 1)) ++ pc_p16 (u16 flen) ++ pc_p32 (u32 vlen) ++ field ++ val, true)
    end.

Definition pc_hr_del (r : option bytes) (field : bytes) (cap : Z) : outcome (Z * bytes * bool) :=
  match r with
  | Some r =>
      if zlen r <? PC_HR_HDR then
        if cap <? PC_HR_HDR then Ret (PC_HR_E_SIZE, [], false) else Ret (PC_HR_HDR, hr_hdr 0, false)
      else
        let n := zlen r in
        let! at_ := hr_find (Some r) field in
        if at_ =? 0 then if n >? cap then Ret (PC_HR_E_SIZE, [], false) else Ret (n, r, false)
        else
          let! fl := pc_g16 (zdrop at_ r) in
          let! vl := pc_g32 (zdrop (at_ + 2) r) in
          let len := 6 + fl + vl in
          let keep := n - len in
          if keep >? cap then Ret (PC_HR_E_SIZE, [], false)
          else
            let! front := sub_at r 0 at_ in
            let! rest := sub_at r (at_ + len) (n - at_ - len) in
            let! cnt := pc_g32 (zdrop 4 r) in
            Ret (keep, blit (front ++ rest) 0 (hr_hdr (u32 (cnt - 1))), true)
  | None => if cap <? PC_HR_HDR then Ret (PC_HR_E_SIZE, [], false) else Ret (PC_HR_HDR, hr_hdr 0, false)
  end.

(** * Integers *)

(** The digits, with the limit test before each; [v], [lim] unsigned 64-bit. *)
Fixpoint strict_digits (v lim : Z) (s : bytes) : option Z :=
  match s with
  | [] => Some v
  | c :: s =>
      if (c <? 48) || (57 <? c) then None
      else if u64 (lim - (c - 48)) / 10 <? v then None
      else strict_digits (u64 (v * 10 + (c - 48))) lim s
  end.

Definition strict_ll (s : bytes) : option Z :=
  let n := zlen s in
  if (n =? 0) || (n >? 20) then None
  else
    let neg := match s with 45 :: _ => true | _ => false end in
    let d := if neg then drop 1 s else s in
    if neg && (n =? 1) then None
    else if match d with 48 :: _ :: _ => true | _ => false end then None
    else
      let lim := if neg then 2 ^ 63 else 2 ^ 63 - 1 in
      match strict_digits 0 lim d with
      | None => None
      | Some v => Some (if neg then (if v =? 2 ^ 63 then - 2 ^ 63 else - v) else s64 v)
      end.

(** The length or error, [out], and [*result] where it is set. *)
Definition pc_hr_incrby (r : option bytes) (field : bytes) (by_ cap : Z) : outcome (Z * bytes * option Z) :=
  let! cur :=
    match pc_hr_get r field with
    | Ret v => Ret (strict_ll v)
    | Rej => Ret (Some 0)
    | Oob => Oob
    end in
  match cur with
  | None => Ret (PC_HR_E_NUM, [], None)
  | Some cur =>
      if ((0 <? by_) && (2 ^ 63 - 1 - by_ <? cur)) || ((by_ <? 0) && (cur <? - 2 ^ 63 - by_)) then Ret (PC_HR_E_OVF, [], None)
      else
        let! (rc, out, _) := pc_hr_set r field (print_ll (cur + by_)) false cap in
        Ret (rc, out, Some (cur + by_))
  end.

(** * Ordered fields *)

Definition fields := list (bytes * bytes).

Definition ent (e : bytes * bytes) : bytes := pc_p16 (zlen e.1) ++ pc_p32 (zlen e.2) ++ e.1 ++ e.2.
Definition ents (fs : fields) : bytes := concat (ent <$> fs).
Definition enc (fs : fields) : bytes := hr_hdr (zlen fs) ++ ents fs.

Definition field_ok (e : bytes * bytes) : Prop := 0 < zlen e.1 <= PC_HR_FIELD_MAX.
Definition fields_ok (fs : fields) : Prop := Forall field_ok fs /\ zlen (enc fs) <= PC_HR_MAX.

Fixpoint hget (fs : fields) (f : bytes) : option bytes :=
  match fs with [] => None | e :: fs => if decide (e.1 = f) then Some e.2 else hget fs f end.
Fixpoint hset (fs : fields) (f v : bytes) : fields :=
  match fs with [] => [(f, v)] | e :: fs => if decide (e.1 = f) then (f, v) :: fs else e :: hset fs f v end.
Fixpoint hdel (fs : fields) (f : bytes) : fields :=
  match fs with [] => [] | e :: fs => if decide (e.1 = f) then fs else e :: hdel fs f end.

Lemma zlen_ent e : zlen (ent e) = 6 + zlen e.1 + zlen e.2.
Proof. unfold ent. rewrite !zlen_app, zlen_p16, zlen_p32. lia. Qed.
Lemma zlen_enc fs : zlen (enc fs) = 8 + zlen (ents fs).
Proof. unfold enc, hr_hdr. rewrite !zlen_app, zlen_p32. done. Qed.
Lemma ents_app l k : ents (l ++ k) = ents l ++ ents k.
Proof. unfold ents. by rewrite fmap_app, concat_app. Qed.
Lemma ents_cons e l : ents (e :: l) = ent e ++ ents l.
Proof. done. Qed.
Lemma ents_count fs : Forall field_ok fs -> 7 * zlen fs <= zlen (ents fs).
Proof.
  induction 1 as [|e fs [He _] _ IH]; [done|]. rewrite ents_cons, zlen_app, zlen_cons, zlen_ent. pose proof (zlen_nonneg e.2). lia.
Qed.

(** Where a field is. *)
Lemma hget_split fs f :
  (hget fs f = None /\ (forall e, e ∈ fs -> e.1 <> f)) \/
  exists l v k, fs = l ++ (f, v) :: k /\ (forall e, e ∈ l -> e.1 <> f) /\ hget fs f = Some v.
Proof.
  induction fs as [|e fs IH]; [left; split; [done|]; intros e He; by apply elem_of_nil in He|]. cbn [hget]. destruct (decide (e.1 = f)) as [<-|Hne].
  - right. exists [], e.2, fs. split_and!; [by destruct e|intros x Hx; by apply elem_of_nil in Hx|done].
  - destruct IH as [[IH Hn]|(l & v & k & -> & Hn & IH)]; [left; split; [done|]|right].
    + intros x Hx. apply elem_of_cons in Hx as [->|Hx]; auto.
    + exists (e :: l), v, k. split_and!; [done| |done]. intros x Hx. apply elem_of_cons in Hx as [->|Hx]; auto.
Qed.

Lemma hset_absent fs f v : (forall e, e ∈ fs -> e.1 <> f) -> hset fs f v = fs ++ [(f, v)] /\ hdel fs f = fs.
Proof.
  induction fs as [|e fs IH]; intros Hn; [done|]. cbn [hset hdel]. destruct (decide (e.1 = f)) as [E|]; [by apply Hn in E; [|left]|].
  destruct IH as [-> ->]; [|done]. intros x Hx. apply Hn. by right.
Qed.

Lemma hset_present l f v v' k : (forall e, e ∈ l -> e.1 <> f) -> hset (l ++ (f, v) :: k) f v' = l ++ (f, v') :: k /\ hdel (l ++ (f, v) :: k) f = l ++ k.
Proof.
  induction l as [|e l IH]; intros Hn; cbn [hset hdel app]; [by rewrite !decide_True|].
  destruct (decide (e.1 = f)) as [E|]; [by apply Hn in E; [|left]|]. destruct IH as [-> ->]; [|done]. intros x Hx. apply Hn. by right.
Qed.

(** ** Reading an encoding *)

Definition small (e : bytes * bytes) : Prop := is_u16 (zlen e.1) /\ is_u32 (zlen e.2).

Lemma ok_small fs : fields_ok fs -> Forall small fs.
Proof.
  intros [Hf Hl]. rewrite zlen_enc in Hl. assert (zlen (ents fs) <= PC_HR_MAX) as Hl' by lia. clear Hl. induction Hf as [|e fs [H1 H2] Hf IH]; [constructor|].
  rewrite ents_cons, zlen_app, zlen_ent in Hl'. pose proof (zlen_nonneg e.2). pose proof (zlen_nonneg (ents fs)). unfold PC_HR_MAX, PC_HR_FIELD_MAX in *.
  constructor; [unfold small, is_u16, is_u32; lia|]. apply IH. lia.
Qed.

Lemma ent_read P e X o : small e -> zlen P = o ->
  pc_g16 (zdrop o (P ++ ent e ++ X)) = Ret (zlen e.1) /\ pc_g32 (zdrop (o + 2) (P ++ ent e ++ X)) = Ret (zlen e.2) /\
  sub_at (P ++ ent e ++ X) (o + 6) (zlen e.1) = Ret e.1 /\ sub_at (P ++ ent e ++ X) (o + 6 + zlen e.1) (zlen e.2) = Ret e.2.
Proof.
  intros [H16 H32] <-. unfold ent. rewrite <- !app_assoc. split_and!.
  - rewrite zdrop_app by done. by rewrite pc_g16_p16, u16_id.
  - rewrite app_assoc. rewrite zdrop_app by (rewrite zlen_app, zlen_p16; lia). by rewrite pc_g32_p32, u32_id.
  - rewrite !app_assoc, <- (app_assoc _ e.1), <- (app_assoc _ (e.1 ++ e.2)), <- (app_assoc e.1).
    apply sub_at_app; [rewrite !zlen_app, zlen_p16, zlen_p32; lia|done].
  - rewrite !app_assoc, <- (app_assoc _ e.2). apply sub_at_app; [rewrite !zlen_app, zlen_p16, zlen_p32; lia|done].
Qed.

Lemma next_ent P e X off : small e -> zlen P = (if off =? 0 then PC_HR_HDR else off) ->
  pc_hr_next (P ++ ent e ++ X) off = Ret (e.1, e.2, zlen P + zlen (ent e)).
Proof.
  intros Hs HP. destruct (ent_read P e X _ Hs eq_refl) as (E1 & E2 & E3 & E4). unfold pc_hr_next. rewrite <- HP.
  pose proof (zlen_nonneg X). pose proof (zlen_nonneg e.1). pose proof (zlen_nonneg e.2).
  destruct (_ >? _) eqn:E; bool_facts; [rewrite !zlen_app, zlen_ent in *; lia|]. cbn [negb].
  rewrite E1. cbn [obind]. rewrite E2. cbn [obind]. rewrite E3. cbn [obind]. rewrite E4. cbn [obind]. do 2 f_equal. rewrite zlen_ent. lia.
Qed.

Lemma find_loop_spec fs P f off fuel :
  Forall small fs -> zlen P = (if off =? 0 then PC_HR_HDR else off) -> 0 < zlen P -> (length fs < fuel)%nat ->
  (forall e, e ∈ fs -> e.1 <> f) -> hr_find_loop fuel (P ++ ents fs) f off = Ret 0.
Proof.
  intros Hs. revert P off fuel. induction Hs as [|e fs He Hs IH]; intros P off fuel HP Hpos Hf Hn; (destruct fuel as [|fuel]; [cbn in Hf; lia|]); cbn [hr_find_loop].
  - unfold pc_hr_next. rewrite <- HP. rewrite app_nil_r. destruct (_ >? _) eqn:E; bool_facts; [done|lia].
  - rewrite ents_cons, next_ent by done. rewrite bool_decide_eq_false_2 by (apply Hn; left). rewrite andb_false_r. rewrite app_assoc.
    pose proof (zlen_nonneg (ent e)). apply IH; [|rewrite zlen_app; lia|cbn in Hf; lia|intros x Hx; apply Hn; by right].
    rewrite zlen_app. rewrite (proj2 (Z.eqb_neq _ 0)); lia.
Qed.

Lemma find_loop_hit l f v k P off fuel :
  Forall small (l ++ (f, v) :: k) -> zlen P = (if off =? 0 then PC_HR_HDR else off) -> 0 < zlen P -> (length l < fuel)%nat ->
  (forall e, e ∈ l -> e.1 <> f) -> hr_find_loop fuel (P ++ ents (l ++ (f, v) :: k)) f off = Ret (zlen P + zlen (ents l)).
Proof.
  revert P off fuel. induction l as [|e l IH]; intros P off fuel Hs HP Hpos Hf Hn; (destruct fuel as [|fuel]; [cbn in Hf; lia|]); cbn [app] in *; inversion Hs as [|? ? He Hs']; subst;
    cbn [hr_find_loop]; rewrite ents_cons, next_ent by done.
  - rewrite Z.eqb_refl, bool_decide_eq_true_2 by done. cbn [andb]. rewrite <- HP. change (zlen (ents [])) with 0. f_equal. lia.
  - rewrite bool_decide_eq_false_2 by (apply Hn; left). rewrite andb_false_r, app_assoc. pose proof (zlen_nonneg (ent e)).
    rewrite IH; [|done|rewrite zlen_app, (proj2 (Z.eqb_neq _ 0)); lia|rewrite zlen_app; lia|cbn in Hf; lia|intros x Hx; apply Hn; by right].
    rewrite ents_cons, !zlen_app. f_equal. lia.
Qed.

Lemma fuel_enough fs : (length fs <= length (ents fs) <= length (enc fs))%nat.
Proof.
  split; [|unfold enc; rewrite length_app; lia]. induction fs as [|e fs IH]; [done|]. rewrite ents_cons. cbn [length]. rewrite length_app.
  pose proof (zlen_ent e). pose proof (zlen_nonneg e.1). pose proof (zlen_nonneg e.2). unfold zlen in *. lia.
Qed.

(** What [find] answers on an encoding. *)
Lemma find_enc fs f : fields_ok fs ->
  (hget fs f = None /\ hr_find (Some (enc fs)) f = Ret 0 /\ (forall e, e ∈ fs -> e.1 <> f)) \/
  exists l v k, fs = l ++ (f, v) :: k /\ (forall e, e ∈ l -> e.1 <> f) /\ hget fs f = Some v /\ hr_find (Some (enc fs)) f = Ret (8 + zlen (ents l)).
Proof.
  intros Hok. pose proof (ok_small fs Hok) as Hs. pose proof (zlen_enc fs). pose proof (zlen_nonneg (ents fs)). pose proof (fuel_enough fs) as Hfu.
  assert (hr_find (Some (enc fs)) f = hr_find_loop (S (length (enc fs))) (hr_hdr (zlen fs) ++ ents fs) f 0) as ->.
  { unfold hr_find. rewrite (proj2 (Z.ltb_ge _ _)) by (unfold PC_HR_HDR; lia). done. }
  destruct (hget_split fs f) as [[Hg Hn]|(l & v & k & -> & Hn & Hg)]; [left|right].
  - split_and!; [done| |done]. apply find_loop_spec; try done. lia.
  - exists l, v, k. split_and!; [done|done|done|]. rewrite find_loop_hit; try done. rewrite length_app in Hfu. lia.
Qed.

(** ** The operations on an encoding *)

Lemma enc_split l e k : enc (l ++ e :: k) = (hr_hdr (zlen (l ++ e :: k)) ++ ents l) ++ ent e ++ ents k.
Proof. unfold enc. by rewrite ents_app, ents_cons, <- app_assoc. Qed.

Lemma zlen_hdr c : zlen (hr_hdr c) = 8.
Proof. unfold hr_hdr. rewrite zlen_app, zlen_p32. done. Qed.

Lemma enc_count fs : fields_ok fs -> pc_g32 (zdrop 4 (enc fs)) = Ret (zlen fs) /\ is_u32 (zlen fs) /\ is_u32 (zlen fs + 1).
Proof.
  intros [Hf Hl]. pose proof (ents_count fs Hf). rewrite zlen_enc in Hl. pose proof (zlen_nonneg fs). unfold PC_HR_MAX in *.
  change (zdrop 4 (enc fs)) with (pc_p32 (zlen fs) ++ ents fs). rewrite pc_g32_p32, u32_id by (unfold is_u32; lia).
  split; [done|]. unfold is_u32. lia.
Qed.

(** The header rewritten in place. *)
Lemma blit_hdr c c' X : blit (hr_hdr c ++ X) 0 (hr_hdr c') = hr_hdr c' ++ X.
Proof. apply (blit_mid [] (hr_hdr c) X (hr_hdr c')); [done|by rewrite !zlen_hdr]. Qed.

Lemma get_enc fs f : fields_ok fs -> pc_hr_get (Some (enc fs)) f = match hget fs f with Some v => Ret v | None => Rej end.
Proof.
  intros Hok. unfold pc_hr_get. destruct (find_enc fs f Hok) as [(-> & -> & _)|(l & v & k & -> & Hn & -> & ->)]; [done|]. cbn [obind].
  pose proof (zlen_nonneg (ents l)). rewrite (proj2 (Z.eqb_neq _ 0)) by lia. cbn [negb].
  pose proof (ok_small _ Hok) as Hs. apply Forall_app in Hs as [_ Hs]. inversion Hs as [|? ? Hse _]; subst. rewrite enc_split.
  destruct (ent_read (hr_hdr (zlen (l ++ (f, v) :: k)) ++ ents l) (f, v) (ents k) (8 + zlen (ents l)) Hse) as (E1 & E2 & _ & E4);
    [rewrite zlen_app, zlen_hdr; lia|]. rewrite E2. cbn [obind]. rewrite E1. cbn [obind]. exact E4.
Qed.

(** What set and delete return, over the fields. *)
Definition hr_answer (fs : fields) (cap : Z) (flag : bool) : Z * bytes * bool :=
  if (zlen (enc fs) >? PC_HR_MAX) || (zlen (enc fs) >? cap) then (PC_HR_E_SIZE, [], false) else (zlen (enc fs), enc fs, flag).

Definition has (fs : fields) (f : bytes) : bool := match hget fs f with Some _ => true | None => false end.

Lemma set_enc fs f v nx cap : fields_ok fs ->
  pc_hr_set (Some (enc fs)) f v nx cap =
    if (zlen f =? 0) || (zlen f >? PC_HR_FIELD_MAX) then Ret (PC_HR_E_ARG, [], false)
    else Ret (hr_answer (if nx && has fs f then fs else hset fs f v) cap (negb (has fs f))).
Proof.
  intros Hok. pose proof (enc_count fs Hok) as (Hcnt & Hu & Hu1). pose proof (zlen_enc fs) as Hlen. pose proof (zlen_nonneg (ents fs)).
  unfold pc_hr_set. rewrite (proj2 (Z.ltb_ge (zlen (enc fs)) _)) by (unfold PC_HR_HDR; lia). cbn [negb]. cbv zeta.
  destruct (_ || _) eqn:Earg; [done|]. bool_facts. rewrite Hcnt. cbn [obind].
  destruct (find_enc fs f Hok) as [(Hg & -> & Hn)|(l & v0 & k & -> & Hn & Hg & ->)]; cbn [obind]; unfold has; rewrite Hg.
  - cbn [Z.eqb negb]. rewrite andb_false_r. destruct (hset_absent fs f v Hn) as [-> _].
    assert (zlen (enc (fs ++ [(f, v)])) = zlen (enc fs) + 6 + zlen f + zlen v) as Hl.
    { rewrite !zlen_enc, ents_app, zlen_app, ents_cons, zlen_app, zlen_ent. change (zlen (ents [])) with 0. cbn [fst snd]. lia. }
    unfold hr_answer. rewrite Hl. destruct (_ || _) eqn:E; [done|]. bool_facts. do 3 f_equal.
    unfold enc at 1. rewrite blit_hdr. rewrite (u32_id (zlen fs + 1)) by done.
    pose proof (zlen_nonneg f). pose proof (zlen_nonneg v). unfold PC_HR_MAX, PC_HR_FIELD_MAX in *.
    rewrite u16_id, u32_id by (unfold is_u16, is_u32; lia). unfold enc. rewrite ents_app, ents_cons, zlen_app. unfold ent. cbn [fst snd].
    change (zlen [(f, v)]) with 1. change (ents []) with (@nil Z). by rewrite app_nil_r, <- !app_assoc.
  - pose proof (zlen_nonneg (ents l)). rewrite (proj2 (Z.eqb_neq (8 + zlen (ents l)) 0)) by lia. cbn [negb]. rewrite andb_true_r.
    destruct nx; cbn [andb].
    { unfold hr_answer. destruct Hok as [_ Hmax]. destruct (_ >? PC_HR_MAX) eqn:E; bool_facts; [lia|]. cbn [orb]. by destruct (_ >? cap). }
    pose proof (ok_small _ Hok) as Hs. apply Forall_app in Hs as [_ Hs]. inversion Hs as [|? ? Hse _]; subst. rewrite enc_split in *.
    set (hd := hr_hdr (zlen (l ++ (f, v0) :: k))) in *. assert (zlen (hd ++ ents l) = 8 + zlen (ents l)) as HP by (rewrite zlen_app; unfold hd; by rewrite zlen_hdr).
    destruct (ent_read (hd ++ ents l) (f, v0) (ents k) (8 + zlen (ents l)) Hse HP) as (E1 & E2 & _ & _).
    rewrite E1. cbn [obind]. rewrite E2. cbn [obind fst snd]. destruct (hset_present l f v0 v k Hn) as [-> _].
    assert (zlen ((hd ++ ents l) ++ ent (f, v0) ++ ents k) = 8 + zlen (ents l) + 6 + zlen f + zlen v0 + zlen (ents k)) as Hz
      by (rewrite zlen_app, HP, zlen_app, zlen_ent; cbn [fst snd]; lia).
    assert (zlen (enc (l ++ (f, v) :: k)) = 8 + zlen (ents l) + 6 + zlen f + zlen v + zlen (ents k)) as Hl
      by (rewrite zlen_enc, ents_app, ents_cons, !zlen_app, zlen_ent; cbn [fst snd]; lia).
    unfold hr_answer. rewrite Hl, Hz. replace (_ - zlen v0 + zlen v) with (8 + zlen (ents l) + 6 + zlen f + zlen v + zlen (ents k)) by lia.
    destruct (_ || _) eqn:E; [done|]. bool_facts. pose proof (zlen_nonneg v). pose proof (zlen_nonneg (ents k)). pose proof (zlen_nonneg f). pose proof (zlen_nonneg v0).
    set (Q := hd ++ ents l) in *. unfold ent. cbn [fst snd]. rewrite <- !app_assoc.
    assert (Q ++ pc_p16 (zlen f) ++ pc_p32 (zlen v0) ++ f ++ v0 ++ ents k = (Q ++ pc_p16 (zlen f) ++ pc_p32 (zlen v0) ++ f) ++ v0 ++ ents k) as -> by (by rewrite <- !app_assoc).
    assert (zlen (Q ++ pc_p16 (zlen f) ++ pc_p32 (zlen v0) ++ f) = 8 + zlen (ents l) + 6 + zlen f) as HQ by (rewrite !zlen_app, HP, zlen_p16, zlen_p32; lia).
    rewrite sub_at_here by lia. cbn [obind]. rewrite sub_at_skip, sub_at_skip, sub_at_last by lia. cbn [obind]. do 3 f_equal.
    assert (Q ++ pc_p16 (zlen f) ++ pc_p32 (zlen v0) ++ f = (Q ++ pc_p16 (zlen f)) ++ pc_p32 (zlen v0) ++ f) as -> by (by rewrite <- !app_assoc).
    rewrite (blit_mid (Q ++ pc_p16 (zlen f)) (pc_p32 (zlen v0))) by (rewrite ?zlen_app, ?HP, ?zlen_p16, ?zlen_p32; lia).
    unfold PC_HR_MAX in *. rewrite u32_id by (unfold is_u32; lia). rewrite enc_split. unfold Q, hd, ent. cbn [fst snd].
    rewrite !zlen_app, !zlen_cons. by rewrite <- !app_assoc.
Qed.

(** A hash that is not there yet. *)
Lemma set_none f v nx cap :
  pc_hr_set None f v nx cap =
    if (zlen f =? 0) || (zlen f >? PC_HR_FIELD_MAX) then Ret (PC_HR_E_ARG, [], false)
    else Ret (hr_answer (hset [] f v) cap true).
Proof.
  unfold pc_hr_set. cbn [obind]. destruct (_ || _) eqn:Earg; [done|]. bool_facts. cbn [hset]. pose proof (zlen_nonneg f). pose proof (zlen_nonneg v).
  assert (zlen (enc [(f, v)]) = PC_HR_HDR + 6 + zlen f + zlen v) as Hl by (rewrite zlen_enc, ents_cons, zlen_app, zlen_ent; change (zlen (ents [])) with 0; cbn [fst snd]; unfold PC_HR_HDR; lia).
  unfold hr_answer. rewrite Hl. destruct (_ || _) eqn:E; [done|]. bool_facts. do 3 f_equal. unfold PC_HR_MAX, PC_HR_FIELD_MAX in *.
  rewrite u16_id, !u32_id by (unfold is_u16, is_u32, PC_HR_HDR in *; lia). unfold enc. rewrite ents_cons. unfold ent. cbn [fst snd].
  change (ents []) with (@nil Z). by rewrite app_nil_r.
Qed.

Lemma del_enc fs f cap : fields_ok fs -> pc_hr_del (Some (enc fs)) f cap = Ret (hr_answer (hdel fs f) cap (has fs f)).
Proof.
  intros Hok. pose proof (enc_count fs Hok) as (Hcnt & Hu & _). pose proof (zlen_enc fs) as Hlen. pose proof (zlen_nonneg (ents fs)).
  unfold pc_hr_del. rewrite (proj2 (Z.ltb_ge (zlen (enc fs)) _)) by (unfold PC_HR_HDR; lia). cbv zeta. pose proof (proj2 Hok) as Hmax.
  destruct (find_enc fs f Hok) as [(Hg & -> & Hn)|(l & v0 & k & -> & Hn & Hg & ->)]; cbn [obind]; unfold has; rewrite Hg.
  - destruct (hset_absent fs f [] Hn) as [_ ->]. unfold hr_answer. destruct (_ >? PC_HR_MAX) eqn:E; bool_facts; [lia|]. cbn [orb Z.eqb]. by destruct (_ >? cap).
  - pose proof (zlen_nonneg (ents l)). rewrite (proj2 (Z.eqb_neq (8 + zlen (ents l)) 0)) by lia. destruct (hset_present l f v0 [] k Hn) as [_ ->].
    pose proof (ok_small _ Hok) as Hs. apply Forall_app in Hs as [_ Hs]. inversion Hs as [|? ? Hse _]; subst. rewrite Hcnt. rewrite enc_split in *.
    set (hd := hr_hdr (zlen (l ++ (f, v0) :: k))) in *. assert (zlen (hd ++ ents l) = 8 + zlen (ents l)) as HP by (rewrite zlen_app; unfold hd; by rewrite zlen_hdr).
    destruct (ent_read (hd ++ ents l) (f, v0) (ents k) (8 + zlen (ents l)) Hse HP) as (E1 & E2 & _ & _).
    rewrite E1. cbn [obind]. rewrite E2. cbn [obind fst snd]. pose proof (zlen_ent (f, v0)) as He. cbn [fst snd] in He.
    pose proof (zlen_nonneg f). pose proof (zlen_nonneg v0). pose proof (zlen_nonneg (ents k)).
    assert (zlen ((hd ++ ents l) ++ ent (f, v0) ++ ents k) = 8 + zlen (ents l) + zlen (ent (f, v0)) + zlen (ents k)) as Hz by (rewrite zlen_app, HP, zlen_app; lia).
    assert (zlen (enc (l ++ k)) = 8 + zlen (ents l) + zlen (ents k)) as Hl by (rewrite zlen_enc, ents_app, zlen_app; lia).
    unfold hr_answer. rewrite Hl. rewrite Hz in *. replace (_ - (6 + zlen f + zlen v0)) with (8 + zlen (ents l) + zlen (ents k)) by lia.
    destruct (8 + zlen (ents l) + zlen (ents k) >? PC_HR_MAX) eqn:E; bool_facts; [lia|]. cbn [orb]. destruct (_ >? cap); [done|].
    rewrite sub_at_here by lia. cbn [obind]. rewrite sub_at_skip, sub_at_skip, sub_at_last by lia. cbn [obind]. do 3 f_equal.
    rewrite <- (app_assoc hd). unfold hd. rewrite blit_hdr. unfold enc. rewrite ents_app, !zlen_app, zlen_cons. do 2 f_equal.
    pose proof (zlen_nonneg l). pose proof (zlen_nonneg k). rewrite !zlen_app, zlen_cons in Hu. rewrite u32_id by (unfold is_u32 in *; lia). lia.
Qed.

(** * The validator *)

Lemma valid_loop_enc fs P fuel i cnt :
  Forall small fs -> Forall field_ok fs -> cnt = i + zlen fs -> (length fs < fuel)%nat ->
  hr_valid_loop fuel (P ++ ents fs) cnt i (zlen P) = Ret (zlen P + zlen (ents fs)).
Proof.
  intros Hs. revert P fuel i. induction Hs as [|e fs He Hs IH]; intros P fuel i Hf Hc Hfu; (destruct fuel as [|fuel]; [cbn in Hfu; lia|]); cbn [hr_valid_loop].
  - change (zlen []) with 0 in Hc. rewrite (proj2 (Z.ltb_ge _ _)) by lia. change (zlen (ents [])) with 0. f_equal. lia.
  - inversion Hf as [|? ? [Hf1 Hf2] Hf']; subst. rewrite zlen_cons. pose proof (zlen_nonneg fs). rewrite (proj2 (Z.ltb_lt _ _)) by lia. rewrite ents_cons.
    destruct (ent_read P e (ents fs) _ He eq_refl) as (E1 & E2 & _ & _). pose proof (zlen_nonneg (ents fs)). pose proof (zlen_nonneg e.2).
    rewrite !zlen_app, zlen_ent. rewrite (proj2 (Z.ltb_ge _ 6)) by lia. cbn [negb]. rewrite E1. cbn [obind]. rewrite E2. cbn [obind].
    rewrite (proj2 (Z.eqb_neq _ 0)) by lia. destruct (zlen e.1 >? PC_HR_FIELD_MAX) eqn:E; bool_facts; [lia|]. cbn [orb].
    rewrite !(proj2 (Z.ltb_ge _ _)) by lia. cbn [orb negb]. rewrite app_assoc. specialize (IH (P ++ ent e) fuel (i + 1) Hf' ltac:(rewrite zlen_cons; lia) ltac:(cbn in Hfu; lia)).
    rewrite zlen_app, zlen_ent, zlen_cons in IH. rewrite IH. f_equal. lia.
Qed.

Lemma g16_inv p v : bytes_ok p -> pc_g16 p = Ret v -> p = pc_p16 v ++ zdrop 2 p /\ is_u16 v.
Proof.
  intros Hb H. destruct p as [|b0 [|b1 p]]; [done..|]. apply bytes_ok_cons in Hb as [H0 Hb]. apply bytes_ok_cons in Hb as [H1 _].
  rewrite g16_cons in H by done. injection H as <-. split; [|word_lia]. change (zdrop 2 (b0 :: b1 :: p)) with p.
  unfold pc_p16, u8. rewrite Z.shiftr_div_pow2 by lia. cbn [app]. f_equal; [word_lia|]. f_equal. word_lia.
Qed.

Lemma g32_inv p v : bytes_ok p -> pc_g32 p = Ret v -> p = pc_p32 v ++ zdrop 4 p /\ is_u32 v.
Proof.
  intros Hb H. unfold pc_g32 in H. apply obind_Ret in H as (lo & Hlo & H). apply obind_Ret in H as (hi & Hhi & H). injection H as <-.
  apply g16_inv in Hlo as [Ep Hlo]; [|done]. apply g16_inv in Hhi as [Ep2 Hhi]; [|by apply bytes_ok_zdrop].
  unfold u32 at 1 2. rewrite (Z.mod_small (Z.shiftl hi 16)) by (rewrite Z.shiftl_mul_pow2 by lia; word_lia). rewrite lor_shiftl_add by word_lia.
  split; [|word_lia]. rewrite Ep at 1. rewrite Ep2 at 1. rewrite zdrop_zdrop by lia. unfold pc_p32. rewrite <- app_assoc.
  f_equal; [f_equal; word_lia|]. f_equal. f_equal. rewrite Z.shiftr_div_pow2 by lia. word_lia.
Qed.

Lemma valid_loop_sound fuel r cnt i off :
  bytes_ok r -> 0 <= off <= zlen r -> i <= cnt ->
  hr_valid_loop fuel r cnt i off <> Oob /\
  forall off', hr_valid_loop fuel r cnt i off = Ret off' ->
    exists fs, zdrop off r = ents fs ++ zdrop off' r /\ i + zlen fs = cnt /\ Forall field_ok fs /\ off <= off' <= zlen r.
Proof.
  intros Hb. revert i off. induction fuel as [|fuel IH]; intros i off Hoff Hi; [done|]. cbn [hr_valid_loop]. destruct (i <? cnt) eqn:Ei; bool_facts.
  2: { split; [done|]. intros off' [= <-]. exists []. split_and!; [done|change (zlen []) with 0; lia|by apply Forall_nil|lia|lia]. }
  destruct (zlen r - off <? 6) eqn:E6; bool_facts; [done|]. cbn [negb].
  destruct (pc_g16_ok (zdrop off r) ltac:(rewrite zlen_zdrop; lia)) as (fl & Hfl & _). rewrite Hfl. cbn [obind].
  destruct (pc_g32_ok (zdrop (off + 2) r) ltac:(rewrite zlen_zdrop; lia)) as (vl & Hvl & _). rewrite Hvl. cbn [obind].
  apply g16_inv in Hfl as [Ef Hf16]; [|by apply bytes_ok_zdrop]. apply g32_inv in Hvl as [Ev Hv32]; [|by apply bytes_ok_zdrop].
  destruct (_ || _) eqn:Eg; [done|]. bool_facts. cbn [negb]. unfold is_u16, is_u32 in *.
  destruct (IH (i + 1) (off + (6 + fl + vl)) ltac:(lia) ltac:(lia)) as [Hne Hs]. split; [done|]. intros off' Hret.
  destruct (Hs off' Hret) as (fs & Hz & Hcnt & Hfs & Hoff'). rewrite zdrop_zdrop in Ef, Ev by lia. replace (off + 2 + 4) with (off + 6) in Ev by lia.
  set (f := ztake fl (zdrop (off + 6) r)). set (v := ztake vl (zdrop (off + 6 + fl) r)).
  assert (zlen f = fl) as Lf by (unfold f; rewrite zlen_ztake, zlen_zdrop; lia). assert (zlen v = vl) as Lv by (unfold v; rewrite zlen_ztake, zlen_zdrop; lia).
  exists ((f, v) :: fs). split_and!; [|rewrite zlen_cons; lia|constructor; [unfold field_ok; cbn [fst]; lia|done]|lia|lia].
  rewrite ents_cons. unfold ent. cbn [fst snd]. rewrite Lf, Lv, <- !app_assoc, <- Hz. rewrite Ef, Ev. do 2 f_equal.
  rewrite <- (ztake_zdrop fl (zdrop (off + 6) r)) at 1. fold f. f_equal. rewrite zdrop_zdrop by lia.
  rewrite <- (ztake_zdrop vl (zdrop (off + 6 + fl) r)) at 1. fold v. f_equal. rewrite zdrop_zdrop by lia. f_equal. lia.
Qed.

Lemma four_bytes r : bytes_ok r -> 8 <= zlen r -> exists b0 b1 b2 b3,
  byte_at r 0 = Ret b0 /\ byte_at r 1 = Ret b1 /\ byte_at r 2 = Ret b2 /\ byte_at r 3 = Ret b3 /\ r = [b0; b1; b2; b3] ++ zdrop 4 r.
Proof.
  intros _ Hl. destruct r as [|b0 [|b1 [|b2 [|b3 r]]]]; [by vm_compute in Hl..|]. by exists b0, b1, b2, b3.
Qed.

(** The validator accepts the encodings and nothing else. *)
Lemma valid_exact r : bytes_ok r ->
  pc_hr_valid r <> Oob /\ (forall cnt, pc_hr_valid r = Ret cnt <-> exists fs, r = enc fs /\ fields_ok fs /\ cnt = zlen fs).
Proof.
  intros Hb.
  assert (forall fs, r = enc fs -> fields_ok fs -> pc_hr_valid r = Ret (zlen fs)) as Hacc.
  { intros fs -> Hok. pose proof (ok_small fs Hok) as Hs. pose proof (enc_count fs Hok) as (Hcnt & _ & _). destruct Hok as [Hf Hmax]. pose proof (zlen_enc fs) as Hlen.
    pose proof (zlen_nonneg (ents fs)). unfold pc_hr_valid. destruct (_ >? _) eqn:E; bool_facts; [lia|]. rewrite (proj2 (Z.ltb_ge _ _)) by (unfold PC_HR_HDR; lia). cbn [orb negb].
    change (byte_at (enc fs) 0) with (@Ret Z 1). change (byte_at (enc fs) 1) with (@Ret Z 0). change (byte_at (enc fs) 2) with (@Ret Z 0). change (byte_at (enc fs) 3) with (@Ret Z 0).
    cbn [obind Z.eqb Pos.eqb negb orb]. rewrite Hcnt. cbn [obind]. pose proof (valid_loop_enc fs (hr_hdr (zlen fs)) (S (length (enc fs))) 0 (zlen fs) Hs Hf eq_refl) as Hv.
    rewrite zlen_hdr in Hv. change PC_HR_HDR with 8. unfold enc at 2. rewrite Hv by (pose proof (fuel_enough fs); lia). cbn [obind]. rewrite Hlen, Z.eqb_refl. done. }
  unfold pc_hr_valid in *. destruct (_ || _) eqn:E; cbn [negb] in *.
  { split; [done|]. intros cnt. split; [done|]. intros (fs & Hr & Hok & _). by specialize (Hacc fs Hr Hok). }
  bool_facts. unfold PC_HR_HDR in *. destruct (four_bytes r Hb ltac:(lia)) as (b0 & b1 & b2 & b3 & E0 & E1 & E2 & E3 & Er). rewrite E0, E1, E2, E3 in *. cbn [obind] in *.
  destruct (_ || _) eqn:Eh; cbn [negb] in *.
  { split; [done|]. intros cnt. split; [done|]. intros (fs & Hr & Hok & _). by specialize (Hacc fs Hr Hok). }
  bool_facts. subst. destruct (pc_g32_ok (zdrop 4 r) ltac:(rewrite zlen_zdrop; lia)) as (c & Hc & Hcu). rewrite Hc in *. cbn [obind] in *.
  destruct (valid_loop_sound (S (length r)) r c 0 8 Hb ltac:(lia) ltac:(unfold is_u32 in *; lia)) as [Hne Hs].
  destruct (hr_valid_loop (S (length r)) r c 0 8) as [off| |]; [|split; [done|]; intros cnt; split; [done|]; intros (fs & Hr & Hok & _); by specialize (Hacc fs Hr Hok)|done].
  cbn [obind] in *. destruct (off =? zlen r) eqn:Eo; bool_facts; [|split; [done|]; intros cnt; split; [done|]; intros (fs & Hr & Hok & _); by specialize (Hacc fs Hr Hok)].
  split; [done|]. intros cnt. split; [|intros (fs & Hr & Hok & ->); by apply Hacc]. intros [= <-].
  destruct (Hs off eq_refl) as (fs & Hz & Hcnt & Hfs & _). apply g32_inv in Hc as [Ec _]; [|by apply bytes_ok_zdrop].
  rewrite zdrop_zdrop in Ec by lia. change (4 + 4) with 8 in Ec. rewrite (zdrop_all off) in Hz by lia. rewrite app_nil_r in Hz.
  assert (c = zlen fs) as -> by lia. exists fs. assert (r = enc fs) as Henc by (rewrite Er, Ec, Hz; done). split_and!; [done|split; [done|rewrite <- Henc; lia]|done].
Qed.

(** * Integers read back *)

Lemma strict_udec fuel x acc lim :
  0 <= x < 10 ^ Z.of_nat fuel -> x <= lim <= 2 ^ 63 -> 9 <= lim ->
  strict_digits 0 lim (udec fuel x acc) = strict_digits x lim acc.
Proof.
  revert x acc. induction fuel as [|fuel IH]; intros x acc Hx Hl H9; [simpl in *; assert (x = 0) as -> by lia; done|].
  cbn [udec]. rewrite Nat2Z.inj_succ, Z.pow_succ_r in Hx by lia. destruct (x <? 10) eqn:E; bool_facts.
  - cbn [strict_digits]. rewrite !Z.add_simpl_l. rewrite (u64_id (lim - x)) by (unfold is_u64; lia). btrue.
    assert (0 <= (lim - x) / 10) by (apply Z.div_pos; lia). btrue. by rewrite u64_id by (unfold is_u64; lia).
  - rewrite IH by (Z.div_mod_to_equations; lia). cbn [strict_digits]. rewrite !Z.add_simpl_l. pose proof (Z.mod_pos_bound x 10 ltac:(lia)).
    rewrite (u64_id (lim - _)) by (unfold is_u64; lia). btrue.
    assert (x / 10 <= (lim - x mod 10) / 10) by (Z.div_mod_to_equations; lia). btrue.
    f_equal. rewrite u64_id by (unfold is_u64; Z.div_mod_to_equations; lia). Z.div_mod_to_equations; lia.
Qed.

Lemma udec_len_k k fuel x acc : (k <= fuel)%nat -> (0 < k)%nat -> 0 <= x < 10 ^ Z.of_nat k -> (length (udec fuel x acc) <= k + length acc)%nat.
Proof.
  revert k x acc. induction fuel as [|fuel IH]; intros k x acc Hk H0 Hx; [lia|]. cbn [udec]. destruct (x <? 10) eqn:E; bool_facts; [cbn; lia|].
  destruct k as [|[|k]]; [lia|change (10 ^ Z.of_nat 1) with 10 in Hx; lia|]. rewrite Nat2Z.inj_succ, Z.pow_succ_r in Hx by lia.
  specialize (IH (S k) (x / 10) (48 + x mod 10 :: acc) ltac:(lia) ltac:(lia) ltac:(Z.div_mod_to_equations; lia)). cbn [length] in IH. lia.
Qed.

(** No leading zero. *)
Lemma udec_lead fuel x acc : 0 <= x < 10 ^ Z.of_nat fuel -> fuel <> O ->
  exists c p, udec fuel x acc = c :: p /\ 48 <= c <= 57 /\ (c = 48 -> x = 0 /\ p = acc).
Proof.
  revert x acc. induction fuel as [|fuel IH]; intros x acc Hx Hf; [done|]. cbn [udec]. rewrite Nat2Z.inj_succ, Z.pow_succ_r in Hx by lia.
  destruct (x <? 10) eqn:E; bool_facts; [exists (48 + x), acc; split_and!; [done|lia|lia|]; intros; split; [lia|done]|].
  destruct fuel as [|fuel]; [simpl in Hx; lia|]. destruct (IH (x / 10) (48 + x mod 10 :: acc) ltac:(Z.div_mod_to_equations; lia) ltac:(done)) as (c & p & Hu & Hc & Hz).
  exists c, p. split_and!; [done|lia|lia|]. intros Hc0. destruct (Hz Hc0) as [Hd _]. Z.div_mod_to_equations. lia.
Qed.

Lemma strict_ll_print x : is_s64 x -> strict_ll (print_ll x) = Some x.
Proof.
  unfold is_s64. intros Hx. unfold print_ll. destruct (x <? 0) eqn:E; bool_facts.
  - destruct (udec_lead 20 (- x) [] ltac:(cbn; lia) ltac:(done)) as (c & p & Hu & Hc & Hz).
    pose proof (udec_len_k 19 20 (- x) [] ltac:(lia) ltac:(lia) ltac:(cbn; lia)) as Hlen. pose proof (strict_udec 20 (- x) [] (2 ^ 63) ltac:(cbn; lia) ltac:(lia) ltac:(lia)) as Hs.
    rewrite Hu in *. unfold strict_ll. cbn [length] in Hlen. assert (zlen (45 :: c :: p) = Z.of_nat (2 + length p)) as -> by (unfold zlen; done).
    rewrite (proj2 (Z.eqb_neq _ 0)) by lia. destruct (_ >? 20) eqn:E20; bool_facts; [lia|]. cbn [orb andb drop]. rewrite (proj2 (Z.eqb_neq _ 1)) by lia.
    assert ((match c :: p with 48 :: _ :: _ => true | _ => false end) = false) as ->.
    { destruct (decide (c = 48)) as [->|Hne]; [by destruct (Hz eq_refl) as [_ ->]|]. by repeat case_match. }
    rewrite Hs. cbn [strict_digits]. destruct (- x =? 2 ^ 63) eqn:Em; bool_facts; f_equal; lia.
  - destruct (udec_lead 20 x [] ltac:(cbn; lia) ltac:(done)) as (c & p & Hu & Hc & Hz).
    pose proof (udec_len_k 19 20 x [] ltac:(lia) ltac:(lia) ltac:(cbn; lia)) as Hlen. pose proof (strict_udec 20 x [] (2 ^ 63 - 1) ltac:(cbn; lia) ltac:(lia) ltac:(lia)) as Hs.
    rewrite Hu in *. unfold strict_ll. cbn [length] in Hlen. assert (zlen (c :: p) = Z.of_nat (1 + length p)) as -> by (unfold zlen; done).
    rewrite (proj2 (Z.eqb_neq _ 0)) by lia. destruct (_ >? 20) eqn:E20; bool_facts; [lia|].
    assert ((match c :: p with 45 :: _ => true | _ => false end) = false) as -> by (repeat case_match; (done || lia)). cbn [orb andb].
    assert ((match c :: p with 48 :: _ :: _ => true | _ => false end) = false) as ->.
    { destruct (decide (c = 48)) as [->|Hne]; [by destruct (Hz eq_refl) as [_ ->]|]. by repeat case_match. }
    rewrite Hs. cbn [strict_digits]. f_equal. rewrite <- (u64_id x) at 1 by (unfold is_u64; lia). apply s64_u64. unfold is_s64. lia.
Qed.

Lemma strict_digits_range v lim s w : 0 <= v <= lim -> 9 <= lim <= 2 ^ 63 -> strict_digits v lim s = Some w -> 0 <= w <= lim.
Proof.
  revert v. induction s as [|c s IH]; intros v Hv Hl; cbn [strict_digits]; [by intros [= <-]|].
  destruct (_ || _) eqn:E; [done|]. bool_facts. rewrite (u64_id (lim - _)) by (unfold is_u64; lia). destruct (_ <? v) eqn:E2; [done|]. bool_facts.
  assert (0 <= v * 10 + (c - 48) <= lim) by (Z.div_mod_to_equations; lia). rewrite u64_id by (unfold is_u64; lia). by apply IH.
Qed.

Lemma strict_ll_range s x : strict_ll s = Some x -> is_s64 x.
Proof.
  unfold strict_ll. destruct (_ || _); [done|]. set (neg := match s with 45 :: _ => true | _ => false end). destruct (neg && _); [done|].
  destruct (match (if neg then drop 1 s else s) with 48 :: _ :: _ => true | _ => false end); [done|].
  destruct (strict_digits 0 _ _) as [v|] eqn:E; [|done]. apply strict_digits_range in E; [|destruct neg; lia|destruct neg; lia].
  intros [= <-]. unfold is_s64. destruct neg; [destruct (_ =? _); lia|apply s64_range].
Qed.

(** * The contract *)

#[global] Instance is_s64_dec x : Decision (is_s64 x).
Proof. unfold is_s64. apply _. Defined.

(** The four operations on a record [r] that holds the fields [fs]. *)
Record hr_contract (r : option bytes) (fs : fields) : Prop := {
  hc_get f : pc_hr_get r f = match hget fs f with Some v => Ret v | None => Rej end;
  hc_set f v nx cap : 0 < zlen f <= PC_HR_FIELD_MAX ->
    pc_hr_set r f v nx cap = Ret (hr_answer (if nx && has fs f then fs else hset fs f v) cap (negb (has fs f)));
  hc_arg f v nx cap : ~ (0 < zlen f <= PC_HR_FIELD_MAX) -> pc_hr_set r f v nx cap = Ret (PC_HR_E_ARG, [], false);
  hc_del f cap : pc_hr_del r f cap = Ret (hr_answer (hdel fs f) cap (has fs f));
  hc_incrby f by_ cap : 0 < zlen f <= PC_HR_FIELD_MAX -> is_s64 by_ ->
    pc_hr_incrby r f by_ cap =
      match (match hget fs f with Some t => strict_ll t | None => Some 0 end) with
      | None => Ret (PC_HR_E_NUM, [], None)
      | Some c =>
          if decide (is_s64 (c + by_)) then
            let '(rc, out, _) := hr_answer (hset fs f (print_ll (c + by_))) cap false in Ret (rc, out, Some (c + by_))
          else Ret (PC_HR_E_OVF, [], None)
      end;
}.

Lemma incrby_spec r fs f by_ cap :
  pc_hr_get r f = match hget fs f with Some v => Ret v | None => Rej end ->
  (forall v, pc_hr_set r f v false cap = Ret (hr_answer (hset fs f v) cap (negb (has fs f)))) -> is_s64 by_ ->
  pc_hr_incrby r f by_ cap =
    match (match hget fs f with Some t => strict_ll t | None => Some 0 end) with
    | None => Ret (PC_HR_E_NUM, [], None)
    | Some c =>
        if decide (is_s64 (c + by_)) then
          let '(rc, out, _) := hr_answer (hset fs f (print_ll (c + by_))) cap false in Ret (rc, out, Some (c + by_))
        else Ret (PC_HR_E_OVF, [], None)
    end.
Proof.
  intros Hget Hset Hby. unfold pc_hr_incrby. rewrite Hget.
  assert ((match (match hget fs f with Some v => Ret v | None => Rej end) with Ret v => Ret (strict_ll v) | Rej => Ret (Some 0) | Oob => Oob end) =
    Ret (match hget fs f with Some t => strict_ll t | None => Some 0 end)) as -> by (by destruct (hget fs f)). cbn [obind].
  destruct (match hget fs f with Some t => strict_ll t | None => Some 0 end) as [c|] eqn:Ec; [|done].
  assert (is_s64 c) as Hc by (destruct (hget fs f); [by eapply strict_ll_range|injection Ec as <-; done]).
  unfold is_s64 in Hc, Hby. destruct (_ || _) eqn:E.
  - rewrite decide_False; [done|]. unfold is_s64. apply orb_true_iff in E as [E|E]; bool_facts; lia.
  - rewrite decide_True. 2: { unfold is_s64. apply orb_false_iff in E as [E1 E2]. apply andb_false_iff in E1, E2. destruct E1, E2; bool_facts; lia. }
    rewrite Hset. unfold hr_answer. by destruct ((zlen (enc _) >? PC_HR_MAX) || _).
Qed.

Lemma bad_field (f : bytes) : (zlen f =? 0) || (zlen f >? PC_HR_FIELD_MAX) = negb (bool_decide (0 < zlen f <= PC_HR_FIELD_MAX)).
Proof.
  pose proof (zlen_nonneg f). destruct (bool_decide _) eqn:E; [apply bool_decide_eq_true in E|apply bool_decide_eq_false in E]; cbn [negb].
  - rewrite (proj2 (Z.eqb_neq _ 0)) by lia. destruct (_ >? _) eqn:E2; bool_facts; [lia|done].
  - destruct (zlen f =? 0) eqn:E1; bool_facts; [done|]. destruct (_ >? _) eqn:E2; bool_facts; [done|lia].
Qed.

Lemma contract_enc fs : fields_ok fs -> hr_contract (Some (enc fs)) fs.
Proof.
  intros Hok. constructor; intros.
  - by apply get_enc.
  - rewrite set_enc by done. rewrite bad_field. by rewrite bool_decide_eq_true_2.
  - rewrite set_enc by done. rewrite bad_field. by rewrite bool_decide_eq_false_2.
  - by apply del_enc.
  - apply incrby_spec; [by apply get_enc| |done]. intros v. rewrite set_enc by done. rewrite bad_field. by rewrite bool_decide_eq_true_2.
Qed.

Lemma contract_none : hr_contract None [].
Proof.
  assert (forall f v nx cap, 0 < zlen f <= PC_HR_FIELD_MAX -> pc_hr_set None f v nx cap = Ret (hr_answer (hset [] f v) cap true)) as Hset.
  { intros. rewrite set_none, bad_field. by rewrite bool_decide_eq_true_2. }
  constructor; intros.
  - done.
  - rewrite Hset by done. unfold has. cbn [hget]. by rewrite andb_false_r.
  - rewrite set_none, bad_field. by rewrite bool_decide_eq_false_2.
  - unfold pc_hr_del, hr_answer. cbn [hdel has hget]. change (zlen (enc [])) with 8. unfold PC_HR_HDR, PC_HR_MAX. cbn [Z.gtb Z.compare Pos.compare Pos.compare_cont orb].
    rewrite Z.gtb_ltb. by destruct (cap <? 8).
  - apply incrby_spec; [done| |done]. intros v. rewrite Hset by done. done.
Qed.

(** C24. A hash record is a map of fields in insertion order.  Whatever bytes a
    record arrives as, the validator reads nothing outside them; it accepts
    exactly the encodings of field lists within the limits, with their count; and
    on a record it accepts, as on a hash not there yet, get, set, delete and
    increment answer as the list operations do: the value, the new record with a
    changed field in its place and a new one last, the count of changes, and the
    refusals for a bad field, a result too large, a value that is not an integer
    and an overflow.  What an increment stores an increment reads back. *)
Theorem hashrec_refines_fields r :
  bytes_ok r ->
  pc_hr_valid r <> Oob /\
  (forall cnt, pc_hr_valid r = Ret cnt <-> exists fs, r = enc fs /\ fields_ok fs /\ cnt = zlen fs) /\
  (forall cnt, pc_hr_valid r = Ret cnt -> exists fs, r = enc fs /\ cnt = zlen fs /\ hr_contract (Some r) fs) /\
  hr_contract None [] /\
  (forall x, is_s64 x -> strict_ll (print_ll x) = Some x).
Proof.
  intros Hb. destruct (valid_exact r Hb) as [H1 H2]. split_and!; [done|done| |exact contract_none|exact strict_ll_print].
  intros cnt Hv. apply H2 in Hv as (fs & -> & Hok & ->). exists fs. split_and!; [done|done|by apply contract_enc].
Qed.

Lemma hashrec_refines_fields_witness :
  let r := enc [([97], [49; 50])] in
  pc_hr_valid r <> Oob /\
  (forall cnt, pc_hr_valid r = Ret cnt <-> exists fs, r = enc fs /\ fields_ok fs /\ cnt = zlen fs) /\
  (forall cnt, pc_hr_valid r = Ret cnt -> exists fs, r = enc fs /\ cnt = zlen fs /\ hr_contract (Some r) fs) /\
  hr_contract None [] /\
  (forall x, is_s64 x -> strict_ll (print_ll x) = Some x).
Proof. apply (hashrec_refines_fields (enc [([97], [49; 50])])). repeat (constructor; [by vm_compute|]). constructor. Defined.
