(* ===== verification/Json.v ===== *)
(** The JSON codec ([json.c], [json.h]): tokenizer, lookup, unescape, writer.

    [pc_json_parse] turns a buffer into an array of tokens, each with its span, its
    member count and its parent; [pc_json_get] finds a member of an object in it.
    The tokenizer's state is [jp], the token array a list of at most [maxt] tokens;
    an [int] made of a position is [s32].  The loop runs on fuel, one byte at
    least a turn, and gets the buffer's length.  The writer is [pc_jw] with the
    bytes written as a list; [mem] is what [realloc] answers.

    The specification is the document: a tree [jval], its text [render] and its
    tokens [doc_toks].  Any bytes are tokenized within bounds; the text of any
    document gives exactly its tokens; a member is found by its key and its
    string read back. *)

From Stdlib Require Import ZArith Lia.
From stdpp Require Import base tactics list numbers relations.
From S2P Require Import Prelude HtBase.

Inductive pc_jtype := PC_J_UNDEF | PC_J_OBJ | PC_J_ARR | PC_J_STR | PC_J_PRIM.

#[global] Instance pc_jtype_eq_dec : EqDecision pc_jtype.
Proof. solve_decision. Defined.

Record pc_jtok := mk_jtok { jtype : pc_jtype; start : Z; end_ : Z; size : Z; parent : Z }.

(** The bytes the grammar names. *)
Definition c_quote : Z := 34.
Definition c_bslash : Z := 92.
Definition c_u : Z := 117.
Definition c_lbrace : Z := 123.
Definition c_rbrace : Z := 125.
Definition c_lbrack : Z := 91.
Definition c_rbrack : Z := 93.
Definition c_colon : Z := 58.
Definition c_comma : Z := 44.
Definition is_ws (c : Z) : bool := (c =? 32) || (c =? 9) || (c =? 10) || (c =? 13).

Record jp := mk_jp { pos : Z; toks : list pc_jtok; jparent : Z; expect_key : bool }.

Definition tok_new (maxt : Z) (p : jp) (ty : pc_jtype) (s : Z) : option (Z * jp) :=
  if zlen (toks p) >=? maxt then None
  else Some (zlen (toks p), mk_jp (pos p) (toks p ++ [mk_jtok ty s (-1) 0 (jparent p)]) (jparent p) (expect_key p)).

Definition set_toks (p : jp) (l : list pc_jtok) : jp := mk_jp (pos p) l (jparent p) (expect_key p).
Definition set_pos (p : jp) (n : Z) : jp := mk_jp n (toks p) (jparent p) (expect_key p).
Definition set_key (p : jp) (b : bool) : jp := mk_jp (pos p) (toks p) (jparent p) b.
Definition set_parent (p : jp) (i : Z) : jp := mk_jp (pos p) (toks p) i (expect_key p).

Definition set_size (t : pc_jtok) (n : Z) : pc_jtok := mk_jtok (jtype t) (start t) (end_ t) n (parent t).
Definition set_end (t : pc_jtok) (n : Z) : pc_jtok := mk_jtok (jtype t) (start t) n (size t) (parent t).

Definition count_in_parent (p : jp) : jp :=
  if jparent p >=? 0 then set_toks p (alter (fun t => set_size t (s32 (size t + 1))) (Z.to_nat (jparent p)) (toks p)) else p.

(** The scan of a string's bytes: the position of the closing quote. *)
Fixpoint str_scan (s : bytes) (n : Z) : option Z :=
  match s with
  | [] => None
  | c :: s1 =>
      if c =? c_quote then Some n
      else if c =? c_bslash then
        match s1 with
        | [] => None
        | d :: s2 =>
            if d =? c_u then
              match s2 with _ :: _ :: _ :: _ :: s3 => str_scan s3 (n + 6) | _ => None end
            else str_scan s2 (n + 2)
        end
      else if c <? 0x20 then None
      else str_scan s1 (n + 1)
  end.

(** The last token's end is set where it was made. *)
Definition close_tok (p : jp) (i e : Z) : jp := set_toks p (alter (fun t => set_end t e) (Z.to_nat i) (toks p)).

Definition parse_string (b : bytes) (maxt : Z) (p : jp) : option jp :=
  let s := pos p + 1 in
  match str_scan (zdrop s b) s with
  | None => None
  | Some e =>
      match tok_new maxt (set_pos p e) PC_J_STR (s32 s) with
      | None => None
      | Some (i, p) => Some (set_pos (close_tok p i (s32 e)) (e + 1))
      end
  end.

Definition ends_prim (c : Z) : bool := (c =? c_comma) || (c =? c_rbrace) || (c =? c_rbrack) || is_ws c.

Fixpoint prim_scan (s : bytes) (n : Z) : Z :=
  match s with
  | [] => n
  | c :: s => if ends_prim c then n else prim_scan s (n + 1)
  end.

Definition parse_prim (b : bytes) (maxt : Z) (p : jp) : option jp :=
  let s := pos p in
  let e := prim_scan (zdrop s b) s in
  if e =? s then None
  else match tok_new maxt (set_pos p e) PC_J_PRIM (s32 s) with
       | None => None
       | Some (i, p) => Some (close_tok p i (s32 e))
       end.

Definition type_at (p : jp) (i : Z) : pc_jtype := match toks p !! Z.to_nat i with Some t => jtype t | None => PC_J_UNDEF end.
Definition parent_at (p : jp) (i : Z) : Z := match toks p !! Z.to_nat i with Some t => parent t | None => -1 end.

(** One turn of the loop, at the byte [c] of [pos]; [None] is the return of -1. *)
Definition parse_turn (b : bytes) (maxt : Z) (p : jp) (c : Z) : option jp :=
  if is_ws c then Some (set_pos p (pos p + 1))
  else if (c =? c_lbrace) || (c =? c_lbrack) then
    match tok_new maxt (count_in_parent p) (if c =? c_lbrace then PC_J_OBJ else PC_J_ARR) (s32 (pos p)) with
    | None => None
    | Some (i, p) => Some (set_pos (set_key (set_parent p i) (c =? c_lbrace)) (pos p + 1))
    end
  else if (c =? c_rbrace) || (c =? c_rbrack) then
    if (jparent p <? 0) || negb (bool_decide (type_at p (jparent p) = if c =? c_rbrace then PC_J_OBJ else PC_J_ARR)) then None
    else
      let p := close_tok p (jparent p) (s32 (pos p + 1)) in
      Some (set_pos (set_key (set_parent p (parent_at p (jparent p))) false) (pos p + 1))
  else if c =? c_colon then Some (set_pos (set_key p false) (pos p + 1))
  else if c =? c_comma then
    Some (set_pos (if (jparent p >=? 0) && bool_decide (type_at p (jparent p) = PC_J_OBJ) then set_key p true else p) (pos p + 1))
  else if c =? c_quote then
    (fun q => set_key q false) <$> parse_string b maxt (if expect_key p then p else count_in_parent p)
  else parse_prim b maxt (count_in_parent p).

Fixpoint parse_loop (fuel : nat) (b : bytes) (maxt : Z) (p : jp) : option jp :=
  if pos p <? zlen b then
    match fuel with
    | O => None
    | S fuel =>
        match zdrop (pos p) b with
        | [] => None
        | c :: _ => match parse_turn b maxt p c with None => None | Some p => parse_loop fuel b maxt p end
        end
    end
  else Some p.

(** The token array, or the return of -1. *)
Definition pc_json_parse (b : bytes) (maxt : Z) : option (list pc_jtok) :=
  match parse_loop (length b) b maxt (mk_jp 0 [] (-1) false) with
  | Some p => if jparent p =? -1 then Some (toks p) else None
  | None => None
  end.

(** The bytes of a token's span. *)
Definition span (b : bytes) (t : pc_jtok) : bytes := ztake (end_ t - start t) (zdrop (start t) b).

Definition span_is (b : bytes) (t : pc_jtok) (key : bytes) : bool :=
  (end_ t - start t =? zlen key) && bool_decide (span b t = key).

(** The loop of [pc_json_get] over the tokens from [i]; [child] counts the object's. *)
Fixpoint get_loop (b : bytes) (l : list pc_jtok) (i child obj ntok : Z) (key : bytes) : Z :=
  match l with
  | [] => -1
  | t :: l =>
      if negb (parent t =? obj) then get_loop b l (i + 1) child obj ntok key
      else if (Z.land child 1 =? 0) && bool_decide (jtype t = PC_J_STR) && span_is b t key && (i + 1 <? ntok) then i + 1
      else get_loop b l (i + 1) (child + 1) obj ntok key
  end.

Definition pc_json_get (b : bytes) (t : list pc_jtok) (obj : Z) (key : bytes) : Z :=
  if (obj <? 0) || (obj >=? zlen t) then -1
  else match t !! Z.to_nat obj with
       | Some o => if bool_decide (jtype o = PC_J_OBJ) then get_loop b (zdrop (obj + 1) t) (obj + 1) 0 obj (zlen t) key else -1
       | None => -1
       end.

Definition hexd (c : Z) : option Z :=
  if (48 <=? c) && (c <=? 57) then Some (c - 48)
  else if (97 <=? c) && (c <=? 102) then Some (c - 97 + 10)
  else if (65 <=? c) && (c <=? 70) then Some (c - 65 + 10)
  else None.

Definition hex4 (a b c d : Z) : option Z :=
  x ← hexd a; y ← hexd b; z ← hexd c; w ← hexd d;
  Some (Z.lor (Z.shiftl (Z.lor (Z.shiftl (Z.lor (Z.shiftl x 4) y) 4) z) 4) w).

(** The bytes a code point of the basic plane becomes. *)
Definition utf8_enc (u : Z) : bytes :=
  if u <? 0x80 then [u]
  else if u <? 0x800 then [Z.lor 0xC0 (Z.shiftr u 6); Z.lor 0x80 (Z.land u 0x3F)]
  else [Z.lor 0xE0 (Z.shiftr u 12); Z.lor 0x80 (Z.land (Z.shiftr u 6) 0x3F); Z.lor 0x80 (Z.land u 0x3F)].

(** What a one-letter escape stands for. *)
Definition esc_char (c : Z) : option Z :=
  if c =? 34 then Some 34 else if c =? 92 then Some 92 else if c =? 47 then Some 47
  else if c =? 98 then Some 8 else if c =? 102 then Some 12 else if c =? 110 then Some 10
  else if c =? 114 then Some 13 else if c =? 116 then Some 9 else None.

(** [n + k > outcap ? -1], then the bytes. *)
Definition put (out : bytes) (x : bytes) (cap : Z) : option bytes :=
  if zlen out + zlen x >? cap then None else Some (out ++ x).

Fixpoint unescape_loop (s out : bytes) (cap : Z) : option bytes :=
  match s with
  | [] => Some out
  | c :: s1 =>
      if negb (c =? c_bslash) then o ← put out [c] cap; unescape_loop s1 o cap
      else
        match s1 with
        | [] => None
        | d :: s2 =>
            if d =? c_u then
              match s2 with
              | h1 :: h2 :: h3 :: h4 :: s3 =>
                  u ← hex4 h1 h2 h3 h4; o ← put out (utf8_enc u) cap; unescape_loop s3 o cap
              | _ => None
              end
            else x ← esc_char d; o ← put out [x] cap; unescape_loop s2 o cap
        end
  end.

Definition pc_json_unescape (b : bytes) (t : pc_jtok) (outcap : Z) : option bytes := unescape_loop (span b t) [] outcap.

Definition pc_json_streq (b : bytes) (t : pc_jtok) (s : bytes) : bool :=
  bool_decide (jtype t = PC_J_STR) && span_is b t s.

(** * The writer *)

Definition JW_HEAP_MAX : Z := Z.shiftl 4 20.

Record pc_jw := mk_jw { jw_buf : bytes; cap : Z; overflow : bool; owned : bool }.

Definition pc_jw_init (c : Z) : pc_jw := mk_jw [] c false false.

(** [None] is the -1. *)
Definition pc_jw_init_heap (w : pc_jw) (c : Z) (mem : Z -> bool) : option pc_jw :=
  if negb (zlen (jw_buf w) =? 0) then None
  else
    let c := if c <? 4096 then 4096 else c in
    if c >? JW_HEAP_MAX then None
    else if negb (mem c) then None
    else Some (mk_jw [] c false true).

Definition pc_jw_free (w : pc_jw) : pc_jw := mk_jw [] 0 (overflow w) false.

(** [for (c = w->cap; c < w->len + n; c *= 2) ;] *)
Fixpoint grow_cap (fuel : nat) (c need : Z) : option Z :=
  if c <? need then match fuel with O => None | S fuel => grow_cap fuel (u64 (c * 2)) need end else Some c.

Definition set_over (w : pc_jw) : pc_jw := mk_jw (jw_buf w) (cap w) true (owned w).

Definition pc_jw_raw_slow (w : pc_jw) (s : bytes) (mem : Z -> bool) : pc_jw :=
  let need := zlen (jw_buf w) + zlen s in
  if need >? cap w then
    if negb (owned w) then set_over w
    else match grow_cap 64 (cap w) need with
         | None => set_over w
         | Some c =>
             if c >? JW_HEAP_MAX then set_over w
             else if negb (mem c) then set_over w
             else mk_jw (jw_buf w ++ s) c (overflow w) (owned w)
         end
  else mk_jw (jw_buf w ++ s) (cap w) (overflow w) (owned w).

Definition pc_jw_raw (w : pc_jw) (s : bytes) (mem : Z -> bool) : pc_jw :=
  if zlen (jw_buf w) + zlen s <=? cap w then mk_jw (jw_buf w ++ s) (cap w) (overflow w) (owned w)
  else pc_jw_raw_slow w s mem.

Definition pc_jw_lit := pc_jw_raw.

Definition hx (x : Z) : Z := if x <? 10 then 48 + x else 97 + (x - 10).

(** What [pc_jw_str] writes for one byte. *)
Definition jw_esc (c : Z) : bytes :=
  if (c =? c_quote) || (c =? c_bslash) then [c_bslash; c]
  else if c <? 0x20 then [c_bslash; c_u; 48; 48; hx (Z.shiftr c 4); hx (Z.land c 15)]
  else [c].

Definition pc_jw_str (w : pc_jw) (s : bytes) (mem : Z -> bool) : pc_jw :=
  let w := pc_jw_lit w [c_quote] mem in
  let w := foldl (fun w c => pc_jw_raw w (jw_esc c) mem) w s in
  pc_jw_lit w [c_quote] mem.

(** [for (t = u; t >= 10; t /= 10) n++;] *)
Fixpoint dec_len (fuel : nat) (t n : Z) : Z :=
  match fuel with
  | O => n
  | S fuel => if t >=? 10 then dec_len fuel (t / 10) (n + 1) else n
  end.

Definition pc_jw_i64 (w : pc_jw) (v : Z) (mem : Z -> bool) : pc_jw :=
  let u := if v <? 0 then u64 (0 - u64 v) else u64 v in
  let n := dec_len 20 u (if v <? 0 then 2 else 1) in
  let s := (if v <? 0 then [45] else []) ++ udec 20 u [] in
  if zlen (jw_buf w) + n <=? cap w then mk_jw (jw_buf w ++ s) (cap w) (overflow w) (owned w)
  else pc_jw_raw_slow w s mem.

Definition cont (c : Z) : bool := Z.land c 0xC0 =? 0x80.

(** The length of the sequence that starts here, as the code accepts it; 0 when none. *)
Definition utf8_seq (s : bytes) : nat :=
  match s with
  | c :: s1 =>
      if (Z.land c 0xE0 =? 0xC0) && (c >=? 0xC2) && match s1 with a :: _ => cont a | _ => false end then 2%nat
      else if (Z.land c 0xF0 =? 0xE0) && match s1 with a :: b :: _ => cont a && cont b | _ => false end then 3%nat
      else if (Z.land c 0xF8 =? 0xF0) && match s1 with a :: b :: d :: _ => cont a && cont b && cont d | _ => false end then 4%nat
      else 0%nat
  | [] => 0%nat
  end.

Fixpoint utf8_loop (fuel : nat) (w : pc_jw) (s : bytes) (mem : Z -> bool) : pc_jw :=
  match fuel, s with
  | O, _ | _, [] => w
  | S fuel, c :: s1 =>
      if (c =? c_quote) || (c =? c_bslash) || (c <? 0x20) then utf8_loop fuel (pc_jw_raw w (jw_esc c) mem) s1 mem
      else if c <? 0x80 then utf8_loop fuel (pc_jw_raw w [c] mem) s1 mem
      else match utf8_seq s with
           | O => utf8_loop fuel (pc_jw_lit w [92; 117; 102; 102; 102; 100] mem) s1 mem
           | n => utf8_loop fuel (pc_jw_raw w (take n s) mem) (drop n s) mem
           end
  end.

Definition pc_jw_str_utf8 (w : pc_jw) (s : bytes) (mem : Z -> bool) : pc_jw :=
  let w := pc_jw_lit w [c_quote] mem in
  pc_jw_lit (utf8_loop (length s) w s mem) [c_quote] mem.

Fixpoint utf8_clean_loop (fuel : nat) (s : bytes) : bool :=
  match fuel, s with
  | _, [] => true
  | O, _ => false
  | S fuel, c :: s1 =>
      if c =? 0 then false
      else if c <? 0x80 then utf8_clean_loop fuel s1
      else match utf8_seq s with O => false | n => utf8_clean_loop fuel (drop n s) end
  end.

Definition pc_utf8_clean (s : bytes) : bool := utf8_clean_loop (length s) s.

(** * Any bytes *)

Definition is_cont (t : pc_jtok) : Prop := jtype t = PC_J_OBJ \/ jtype t = PC_J_ARR.

(** The open containers, from the innermost. *)
Fixpoint chain (l : list pc_jtok) (par : Z) (st : list Z) : Prop :=
  match st with
  | [] => par = -1
  | i :: st => par = i /\ 0 <= i /\ exists t, l !! Z.to_nat i = Some t /\ is_cont t /\ end_ t = -1 /\ parent t < i /\ chain l (parent t) st
  end.

(** A token and its parent, in an array read up to [n]. *)
Record tok_ok (l : list pc_jtok) (n i : Z) (t : pc_jtok) : Prop := {
  k_start : 0 <= start t <= n /\ (is_cont t -> start t < n);
  k_end : end_ t = -1 \/ start t <= end_ t <= n;
  k_par : parent t = -1 \/ exists q, 0 <= parent t < i /\ l !! Z.to_nat (parent t) = Some q /\ is_cont q /\
    start q < start t /\ (end_ q = -1 \/ (end_ t <> -1 /\ end_ t <= end_ q))
}.

Record jp_ok (len maxt : Z) (p : jp) (st : list Z) : Prop := {
  j_pos : 0 <= pos p <= len;
  j_max : zlen (toks p) <= Z.max 0 maxt;
  j_tok : forall i t, toks p !! i = Some t -> tok_ok (toks p) (pos p) (Z.of_nat i) t;
  j_chain : chain (toks p) (jparent p) st;
  j_open : forall i t, toks p !! i = Some t -> end_ t = -1 -> Z.of_nat i ∈ st
}.

Lemma s32_id x : 0 <= x < 2 ^ 31 -> s32 x = x.
Proof. intros. word_lia. Qed.

(** The chain's indices fall below its first. *)
Lemma chain_lt l par st : chain l par st -> forall i, i ∈ st -> i <= par.
Proof.
  revert par. induction st as [|j st IH]; intros par H i Hi; [by apply elem_of_nil in Hi|].
  destruct H as (-> & ? & t & _ & _ & _ & Hlt & Hc). apply elem_of_cons in Hi as [->|Hi]; [lia|].
  specialize (IH _ Hc i Hi). lia.
Qed.

(** What leaves a token as the chain and the tokens above it see it. *)
Definition same_frame (t t' : pc_jtok) : Prop :=
  jtype t' = jtype t /\ start t' = start t /\ end_ t' = end_ t /\ parent t' = parent t.

Lemma chain_mono l l' par st :
  (forall i t, l !! i = Some t -> exists t', l' !! i = Some t' /\ same_frame t t') -> chain l par st -> chain l' par st.
Proof.
  intros Hl. revert par. induction st as [|j st IH]; intros par H; [done|].
  destruct H as (-> & ? & t & Ht & Hc & He & Hp & H). split; [done|]. split; [done|].
  destruct (Hl _ _ Ht) as (t' & Ht' & (Hj & Hs & He' & Hp')). exists t'.
  unfold is_cont in *. rewrite Hj, He', Hp'. split_and!; try done. by apply IH.
Qed.

Lemma tok_ok_mono l l' n n' i t :
  (forall j q, l !! j = Some q -> exists q', l' !! j = Some q' /\ same_frame q q') -> n <= n' ->
  tok_ok l n i t -> tok_ok l' n' i t.
Proof.
  intros Hl Hn [[Hs Hc] He Hp]. split; [split; [lia|intros H; specialize (Hc H); lia]|lia|].
  destruct Hp as [?|(q & Hq & Hlq & Hcq & Hlt & Hend)]; [by left|right].
  destruct (Hl _ _ Hlq) as (q' & Hq' & (Hj & Hsq & Heq & _)). exists q'. unfold is_cont. by rewrite Hj, Hsq, Heq.
Qed.

Lemma tok_ok_frame l n i t t' : same_frame t t' -> tok_ok l n i t -> tok_ok l n i t'.
Proof. intros (Hj & Hs & He & Hp) [H1 H2 H3]. split; unfold is_cont in *; by rewrite ?Hj, ?Hs, ?He, ?Hp. Qed.

Lemma frame_refl t : same_frame t t.
Proof. done. Qed.

Lemma alter_frame f (l : list pc_jtok) k i t :
  (forall t, same_frame t (f t)) -> l !! i = Some t -> exists t', alter f k l !! i = Some t' /\ same_frame t t'.
Proof.
  intros Hf Hi. destruct (decide (i = k)) as [->|].
  - exists (f t). rewrite list_lookup_alter_eq, Hi. split; [done|apply Hf].
  - exists t. by rewrite list_lookup_alter_ne.
Qed.

Lemma alter_back f (l : list pc_jtok) k i t' :
  alter f k l !! i = Some t' -> exists t, l !! i = Some t /\ ((i <> k /\ t' = t) \/ (i = k /\ t' = f t)).
Proof.
  intros Hi. destruct (decide (i = k)) as [->|].
  - rewrite list_lookup_alter_eq in Hi. destruct (l !! k) as [t|]; [|done]. injection Hi as <-. exists t. split; [done|by right].
  - rewrite list_lookup_alter_ne in Hi by done. exists t'. split; [done|by left].
Qed.

Lemma count_jparent p : jparent (count_in_parent p) = jparent p.
Proof. unfold count_in_parent. by destruct (jparent p >=? 0). Qed.
Lemma count_pos p : pos (count_in_parent p) = pos p.
Proof. unfold count_in_parent. by destruct (jparent p >=? 0). Qed.

Lemma count_in_ok len maxt p st : jp_ok len maxt p st -> jp_ok len maxt (count_in_parent p) st.
Proof.
  intros H. unfold count_in_parent. case_match; [|done]. destruct H as [Hp Hm Ht Hc Ho].
  set (f := fun t => set_size t (s32 (size t + 1))). assert (forall t, same_frame t (f t)) as Hf by done.
  pose proof (fun i t => alter_frame f (toks p) (Z.to_nat (jparent p)) i t Hf) as Hfw.
  split; simpl; try done.
  - unfold zlen in *. by rewrite length_alter.
  - intros i t Hi. apply alter_back in Hi as (t0 & Hi & Ht0).
    assert (same_frame t0 t) by (destruct Ht0 as [[_ ->]|[_ ->]]; done).
    eapply tok_ok_frame; [done|]. eapply tok_ok_mono; [exact Hfw|done|]. by apply Ht.
  - by eapply chain_mono.
  - intros i t Hi He. apply alter_back in Hi as (t0 & Hi & Ht0). apply (Ho i t0 Hi). destruct Ht0 as [[_ ->]|[_ ->]]; done.
Qed.

(** A token appended under the innermost open container. *)
Lemma append_ok len maxt p st t n :
  jp_ok len maxt p st -> zlen (toks p) < maxt -> pos p <= n <= len ->
  parent t = jparent p -> pos p <= start t <= n -> (is_cont t -> start t < n) -> (end_ t = -1 \/ start t <= end_ t <= n) ->
  forall st', (end_ t = -1 -> st' = zlen (toks p) :: st) -> (end_ t <> -1 -> st' = st) -> (end_ t = -1 -> is_cont t) ->
  forall par' k, par' = (if decide (end_ t = -1) then zlen (toks p) else jparent p) ->
  jp_ok len maxt (mk_jp n (toks p ++ [t]) par' k) st'.
Proof.
  intros [Hp Hm Ht Hc Ho] Hroom Hn Hpar Hs Hcs He st' Hst1 Hst2 Hcont par' k Hpar'.
  assert (forall i u, toks p !! i = Some u -> exists u', (toks p ++ [t]) !! i = Some u' /\ same_frame u u') as Hext.
  { intros i u Hi. exists u. split; [|done]. by apply lookup_app_l_Some. }
  assert (jparent p < zlen (toks p)) as Hlt.
  { destruct st as [|j st]; simpl in Hc; [unfold zlen; lia|]. destruct Hc as (-> & ? & u & Hu & _).
    apply lookup_lt_Some in Hu. unfold zlen. lia. }
  assert (tok_ok (toks p ++ [t]) n (zlen (toks p)) t) as Hnew.
  { split; [split; [lia|done]|done|]. rewrite Hpar. destruct st as [|j st]; simpl in Hc; [by left|].
    destruct Hc as (Hj & ? & q & Hq & Hcq & Heq & _). right. exists q. rewrite Hj in *. split_and!; try done; [|..].
    - by apply lookup_app_l_Some.
    - pose proof (Ht _ _ Hq) as [[_ Hsq] _ _]. specialize (Hsq Hcq). lia.
    - by left. }
  split; simpl; [lia|unfold zlen in *; rewrite length_app; simpl; lia| | |].
  - intros i u Hi. apply lookup_app_Some in Hi as [Hi|[Hge Hi]].
    + eapply tok_ok_mono; [exact Hext| |by apply Ht]. lia.
    + apply list_lookup_singleton_Some in Hi as [Hz <-]. replace (Z.of_nat i) with (zlen (toks p)) by (unfold zlen; lia). done.
  - subst par'. destruct (decide (end_ t = -1)) as [He1|He1].
    + rewrite (Hst1 He1). split; [done|]. split; [apply zlen_nonneg|]. exists t.
      split; [unfold zlen; rewrite Nat2Z.id, lookup_app_r, Nat.sub_diag by lia; done|].
      split_and!; [by apply Hcont|done|lia|]. rewrite Hpar. eapply chain_mono; [exact Hext|done].
    + rewrite (Hst2 He1). eapply chain_mono; [exact Hext|done].
  - intros i u Hi Hu. apply lookup_app_Some in Hi as [Hi|[Hge Hi]].
    + specialize (Ho i u Hi Hu). destruct (decide (end_ t = -1)) as [H1|H1]; [rewrite (Hst1 H1); by right|by rewrite (Hst2 H1)].
    + apply list_lookup_singleton_Some in Hi as [Hz <-]. rewrite (Hst1 Hu). replace (Z.of_nat i) with (zlen (toks p)) by (unfold zlen; lia). by left.
Qed.

Lemma str_scan_range s : forall n e, str_scan s n = Some e -> n <= e < n + zlen s.
Proof.
  induction s as [s IH] using (induction_ltof1 _ (@length Z)); unfold ltof in IH. intros n e E.
  destruct s as [|c s1]; [done|]. cbn [str_scan] in E. zlens. pose proof (zlen_nonneg s1).
  destruct (c =? c_quote); [injection E as <-; lia|]. destruct (c =? c_bslash).
  - destruct s1 as [|d s2]; [done|]. zlens. pose proof (zlen_nonneg s2). destruct (d =? c_u).
    + destruct s2 as [|? [|? [|? [|? s3]]]]; try done. apply IH in E; [|simpl; lia]. zlens. lia.
    + apply IH in E; [|simpl; lia]. lia.
  - destruct (c <? 32); [done|]. apply IH in E; [|simpl; lia]. lia.
Qed.

Lemma prim_scan_range s : forall n, n <= prim_scan s n <= n + zlen s.
Proof.
  induction s as [|c s IH]; intros n; simpl; zlens; [lia|]. pose proof (zlen_nonneg s). case_match; [lia|]. specialize (IH (n + 1)). lia.
Qed.

(** [tok_new] then the end set: the token appended whole. *)
Lemma new_close maxt p ty s e i q :
  tok_new maxt p ty s = Some (i, q) ->
  zlen (toks p) < maxt /\ close_tok q i e = set_toks p (toks p ++ [mk_jtok ty s e 0 (jparent p)]).
Proof.
  unfold tok_new. rewrite Z.geb_leb. destruct (Z.leb_spec maxt (zlen (toks p))); [done|]. intros [= <- <-]. split; [done|].
  unfold close_tok, set_toks. simpl. f_equal. unfold zlen. rewrite Nat2Z.id.
  rewrite <- (Nat.add_0_r (length (toks p))). rewrite alter_app_r. done.
Qed.

(** The innermost container closes. *)
Lemma close_ok len maxt p st :
  jp_ok len maxt p st -> 0 <= jparent p -> pos p < len ->
  exists st', jp_ok len maxt (mk_jp (pos p + 1) (alter (fun t => set_end t (pos p + 1)) (Z.to_nat (jparent p)) (toks p))
    (parent_at (set_toks p (alter (fun t => set_end t (pos p + 1)) (Z.to_nat (jparent p)) (toks p))) (jparent p)) false) st'.
Proof.
  intros [Hp Hm Ht Hc Ho] Hpar Hlt. destruct st as [|j st]; simpl in Hc; [lia|].
  destruct Hc as (Hj & Hj0 & t & Hk & Hcont & Hend & Hptlt & Hc). rewrite Hj in *.
  set (f := fun t => set_end t (pos p + 1)). exists st.
  assert (parent_at (set_toks p (alter f (Z.to_nat j) (toks p))) j = parent t) as ->.
  { unfold parent_at. simpl. rewrite list_lookup_alter_eq, Hk. done. }
  pose proof (Ht _ _ Hk) as [[Hs1 Hs2] _ Hpk]. specialize (Hs2 Hcont). rewrite Z2Nat.id in Hpk by done.
  assert (forall i u, toks p !! i = Some u -> i <> Z.to_nat j -> alter f (Z.to_nat j) (toks p) !! i = Some u) as Hother.
  { intros i u Hi Hne. by rewrite list_lookup_alter_ne. }
  split; simpl; [lia|unfold zlen in *; by rewrite length_alter| | |].
  - intros i u Hi. apply alter_back in Hi as (u0 & Hi & Hu).
    assert (tok_ok (toks p) (pos p) (Z.of_nat i) u0) as [[Ha Hb] He Hpq] by (by apply Ht).
    destruct Hu as [[_ ->]|[-> ->]].
    + split; [split; [lia|intros H; specialize (Hb H); lia]|lia|].
      destruct Hpq as [?|(q & Hq & Hlq & Hcq & Hsq & Heq)]; [by left|right].
      destruct (decide (Z.to_nat (parent u0) = Z.to_nat j)) as [E|E].
      * exists (f t). assert (q = t) as -> by congruence. rewrite E, list_lookup_alter_eq, Hk. split_and!; try done; try lia.
        right. simpl. destruct He as [He|He]; [|lia].
        exfalso. specialize (Ho i u0 Hi He). apply elem_of_cons in Ho as [?|Ho]; [lia|].
        apply (chain_lt _ _ _ Hc) in Ho. lia.
      * exists q. rewrite (Hother _ q) by done. done.
    + assert (u0 = t) as -> by congruence. split; simpl; [split; [lia|lia]|right; lia|].
      rewrite Z2Nat.id by done. destruct Hpk as [?|(q & Hq & Hlq & Hcq & Hsq & Heq)]; [by left|right].
      exists q. rewrite (Hother _ q) by (done || lia). split_and!; try done; try lia.
  - assert (forall st par, (forall i, i ∈ st -> i < j) -> chain (toks p) par st -> chain (alter f (Z.to_nat j) (toks p)) par st) as Hch.
    { clear -Hother. intros st0. induction st0 as [|k st0 IH]; intros par Hlt H; [done|].
      destruct H as (-> & ? & u & Hu & ? & ? & ? & H). split; [done|]. split; [done|]. exists u.
      assert (k < j) by (apply Hlt; by left). rewrite (Hother _ u) by (done || lia). split_and!; try done.
      apply IH; [|done]. intros i Hi. apply Hlt. by right. }
    apply Hch; [|done]. intros i Hi. apply (chain_lt _ _ _ Hc) in Hi. lia.
  - intros i u Hi Hu. apply alter_back in Hi as (u0 & Hi & [[Hne ->]|[-> ->]]).
    + specialize (Ho i u0 Hi Hu). apply elem_of_cons in Ho as [Ho|Ho]; [|done].
      exfalso. lia.
    + simpl in Hu. lia.
Qed.

Lemma set_pos_ok len maxt p st n k : jp_ok len maxt p st -> pos p <= n <= len -> jp_ok len maxt (mk_jp n (toks p) (jparent p) k) st.
Proof.
  intros [Hp Hm Ht Hc Ho] Hn. split; simpl; try done; [lia|].
  intros i t Hi. apply (tok_ok_mono (toks p) _ (pos p)); [|lia|by apply Ht]. intros j q Hq. by exists q.
Qed.

(** A turn keeps the array in order and moves on. *)
Lemma parse_turn_ok b maxt p st c r p' :
  jp_ok (zlen b) maxt p st -> zlen b < 2 ^ 31 -> zdrop (pos p) b = c :: r -> parse_turn b maxt p c = Some p' ->
  exists st', jp_ok (zlen b) maxt p' st' /\ pos p < pos p'.
Proof.
  intros Hok Hlen Hd E. pose proof (j_pos _ _ _ _ Hok).
  assert (pos p < zlen b) as Hlt by (apply (f_equal zlen) in Hd; zlens; pose proof (zlen_nonneg r); lia).
  unfold parse_turn in E. destruct (is_ws c) eqn:Ews.
  { injection E as <-. exists st. split; [apply set_pos_ok; [done|lia]|simpl; lia]. }
  destruct ((c =? c_lbrace) || (c =? c_lbrack)).
  { pose proof (count_jparent p) as Hc1. pose proof (count_pos p) as Hc2.
    destruct (tok_new _ _ _ _) as [[i q]|] eqn:En; [|done]. injection E as <-.
    assert (toks q = toks (count_in_parent p) ++ [mk_jtok (if c =? c_lbrace then PC_J_OBJ else PC_J_ARR) (s32 (pos p)) (-1) 0 (jparent p)]
      /\ zlen (toks (count_in_parent p)) < maxt /\ pos q = pos p /\ i = zlen (toks (count_in_parent p))) as (Hq & Hroom & Hpq & ->).
    { unfold tok_new in En. rewrite Z.geb_leb in En. destruct (Z.leb_spec maxt (zlen (toks (count_in_parent p)))); [done|].
      injection En as <- <-. simpl. by rewrite Hc1, Hc2. }
    exists (zlen (toks (count_in_parent p)) :: st). split; [|simpl; lia].
    unfold set_pos, set_key, set_parent. simpl. rewrite Hq, Hpq, s32_id by lia.
    eapply append_ok; try done; simpl; rewrite ?Hc2; try lia; [by apply count_in_ok|].
    intros _. unfold is_cont. simpl. destruct (c =? c_lbrace); [by left|by right]. }
  destruct ((c =? c_rbrace) || (c =? c_rbrack)).
  { destruct (_ || _) eqn:Eb; [done|]. bool_facts. injection E as <-. unfold close_tok. rewrite s32_id by lia.
    destruct (close_ok _ _ _ _ Hok) as [st' Hst']; [lia|lia|]. exists st'. split; [exact Hst'|simpl; lia]. }
  destruct (c =? c_colon); [injection E as <-; exists st; split; [apply (set_pos_ok _ _ p); [done|lia]|simpl; lia]|].
  destruct (c =? c_comma).
  { injection E as <-. exists st. case_match; (split; [apply (set_pos_ok _ _ p); [done|simpl; lia]|simpl; lia]). }
  destruct (c =? c_quote).
  - set (p1 := if expect_key p then p else count_in_parent p) in E.
    assert (jp_ok (zlen b) maxt p1 st /\ pos p1 = pos p) as [Hok1 Hp1].
    { subst p1. destruct (expect_key p); [done|]. split; [by apply count_in_ok|]. apply count_pos. }
    destruct (parse_string b maxt p1) as [q|] eqn:Eq; [|done]. simpl in E. injection E as <-.
    unfold parse_string in Eq. rewrite Hp1 in Eq. destruct (str_scan _ _) as [e|] eqn:Es; [|done].
    apply str_scan_range in Es. zlens. destruct (tok_new _ _ _ _) as [[i q']|] eqn:En; [|done]. injection Eq as <-.
    apply (new_close _ _ _ _ (s32 e)) in En as [Hroom ->]. exists st. split; [|simpl; lia].
    unfold set_key, set_pos, set_toks. simpl. rewrite !s32_id by lia. simpl in Hroom.
    apply (append_ok _ _ p1 st); simpl; try done; try lia.
    by rewrite decide_False by lia.
  - set (p1 := count_in_parent p) in E. assert (jp_ok (zlen b) maxt p1 st /\ pos p1 = pos p) as [Hok1 Hp1].
    { split; [by apply count_in_ok|]. apply count_pos. }
    unfold parse_prim in E. rewrite Hp1 in E. pose proof (prim_scan_range (zdrop (pos p) b) (pos p)) as Hr.
    destruct (Z.eqb_spec (prim_scan (zdrop (pos p) b) (pos p)) (pos p)); [done|]. zlens.
    destruct (tok_new _ _ _ _) as [[i q']|] eqn:En; [|done]. injection E as <-.
    apply (new_close _ _ _ _ (s32 (prim_scan (zdrop (pos p) b) (pos p)))) in En as [Hroom ->]. exists st. split; [|simpl; lia].
    unfold set_pos, set_toks. simpl. rewrite !s32_id by lia. simpl in Hroom.
    apply (append_ok _ _ p1 st); simpl; try done; try lia.
    by rewrite decide_False by lia.
Qed.

Lemma parse_loop_ok b maxt fuel : forall p st p',
  jp_ok (zlen b) maxt p st -> zlen b < 2 ^ 31 -> parse_loop fuel b maxt p = Some p' -> exists st', jp_ok (zlen b) maxt p' st'.
Proof.
  induction fuel as [|fuel IH]; intros p st p' Hok Hlen E; simpl in E.
  - destruct (pos p <? zlen b); [done|]. injection E as <-. by exists st.
  - destruct (pos p <? zlen b); [|injection E as <-; by exists st].
    destruct (zdrop (pos p) b) as [|c r] eqn:Ed; [done|]. destruct (parse_turn b maxt p c) as [q|] eqn:Et; [|done].
    destruct (parse_turn_ok _ _ _ _ _ _ _ Hok Hlen Ed Et) as (st' & Hok' & _). by eapply IH.
Qed.

Lemma jp_init (b : bytes) maxt : jp_ok (zlen b) maxt (mk_jp 0 [] (-1) false) [].
Proof. pose proof (zlen_nonneg b). split; simpl; try done; zlens; lia. Qed.

Lemma get_loop_range b l obj ntok key : forall i child, 0 <= i ->
  get_loop b l i child obj ntok key = -1 \/ 0 <= get_loop b l i child obj ntok key < ntok.
Proof.
  induction l as [|t l IH]; intros i child Hi; simpl; [by left|]. case_match; [apply IH; lia|].
  destruct (_ && _) eqn:E; [|apply IH; lia]. apply andb_prop in E as [_ E%Z.ltb_lt]. right. lia.
Qed.

Lemma put_Some out x c o : put out x c = Some o -> o = out ++ x /\ zlen o <= c.
Proof. unfold put. rewrite Z.gtb_ltb. case_match; [done|]. intros [= <-]. bool_facts. split; [done|]. zlens. lia. Qed.

Lemma unescape_cap s : forall out c o, zlen out <= c -> unescape_loop s out c = Some o -> zlen o <= c.
Proof.
  induction s as [s IH] using (induction_ltof1 _ (@length Z)); unfold ltof in IH. intros out c o Hc E.
  destruct s as [|x s1]; [by injection E as <-|]. cbn [unescape_loop] in E. destruct (negb _).
  - destruct (put out [x] c) as [o1|] eqn:Ep; [|done]. apply put_Some in Ep as [_ Hp]. by eapply IH in E; [|simpl; lia|].
  - destruct s1 as [|d s2]; [done|]. destruct (d =? c_u).
    + destruct s2 as [|h1 [|h2 [|h3 [|h4 s3]]]]; try done. destruct (hex4 h1 h2 h3 h4) as [u|]; [|done]. simpl in E.
      destruct (put out (utf8_enc u) c) as [o1|] eqn:Ep; [|done]. apply put_Some in Ep as [_ Hp]. by eapply IH in E; [|simpl; lia|].
    + destruct (esc_char d) as [x0|]; [|done]. simpl in E. destruct (put out [x0] c) as [o1|] eqn:Ep; [|done].
      apply put_Some in Ep as [_ Hp]. by eapply IH in E; [|simpl; lia|].
Qed.



(** * Documents *)

Unset Elimination Schemes.
Inductive jval :=
  | JStr (s : bytes)
  | JPrim (p : bytes)
  | JArr (l : list jval)
  | JObj (l : list (bytes * jval)).
Set Elimination Schemes.

Lemma jval_ind (P : jval -> Prop) :
  (forall s, P (JStr s)) -> (forall p, P (JPrim p)) ->
  (forall l, Forall P l -> P (JArr l)) -> (forall l, Forall (fun m => P (snd m)) l -> P (JObj l)) ->
  forall v, P v.
Proof.
  intros Hs Hp Ha Ho. fix IH 1. intros [s|p|l|l].
  - apply Hs.
  - apply Hp.
  - apply Ha. revert l. fix IHl 1. intros [|v l]; constructor; [apply IH|apply IHl].
  - apply Ho. revert l. fix IHl 1. intros [|[k v] l]; constructor; [apply IH|apply IHl].
Qed.

(** A string's text between its quotes, as [pc_jw_str] escapes it. *)
Definition escape (s : bytes) : bytes := flat_map jw_esc s.
Definition quoted (s : bytes) : bytes := c_quote :: escape s ++ [c_quote].

Fixpoint commas (l : list bytes) : bytes :=
  match l with [] => [] | [x] => x | x :: l => x ++ c_comma :: commas l end.

Fixpoint render (v : jval) : bytes :=
  match v with
  | JStr s => quoted s
  | JPrim p => p
  | JArr l => c_lbrack :: commas (map render l) ++ [c_rbrack]
  | JObj l => c_lbrace :: commas (map (fun m => quoted (fst m) ++ c_colon :: render (snd m)) l) ++ [c_rbrace]
  end.

(** A bare word: no separator in it, and a first byte that starts nothing else. *)
Definition prim_ok (p : bytes) : Prop :=
  Forall (fun c => ends_prim c = false) p /\
  match p with [] => False | c :: _ => c <> c_lbrace /\ c <> c_lbrack /\ c <> c_colon /\ c <> c_quote end.

Fixpoint val_ok (v : jval) : Prop :=
  match v with
  | JStr s => bytes_ok s
  | JPrim p => prim_ok p
  | JArr l => foldr (fun v P => val_ok v /\ P) True l
  | JObj l => foldr (fun m P => (bytes_ok (fst m) /\ val_ok (snd m)) /\ P) True l
  end.

(** The tokens of a value whose text starts at [p], under parent [par], the first at index [i]. *)
Fixpoint doc_toks (v : jval) (p par i : Z) : list pc_jtok :=
  match v with
  | JStr s => [mk_jtok PC_J_STR (p + 1) (p + 1 + zlen (escape s)) 0 par]
  | JPrim b => [mk_jtok PC_J_PRIM p (p + zlen b) 0 par]
  | JArr l =>
      mk_jtok PC_J_ARR p (p + zlen (render v)) (zlen l) par ::
      (fix go (l : list jval) (p j : Z) : list pc_jtok :=
         match l with
         | [] => []
         | v :: l => let t := doc_toks v p i j in t ++ go l (p + zlen (render v) + 1) (j + zlen t)
         end) l (p + 1) (i + 1)
  | JObj l =>
      mk_jtok PC_J_OBJ p (p + zlen (render v)) (zlen l) par ::
      (fix go (l : list (bytes * jval)) (p j : Z) : list pc_jtok :=
         match l with
         | [] => []
         | (k, v) :: l =>
             let q := p + zlen (quoted k) + 1 in
             let t := doc_toks v q i (j + 1) in
             mk_jtok PC_J_STR (p + 1) (p + 1 + zlen (escape k)) 0 i :: t ++ go l (q + zlen (render v) + 1) (j + 1 + zlen t)
         end) l (p + 1) (i + 1)
  end.

Definition arr_toks (par : Z) : list jval -> Z -> Z -> list pc_jtok :=
  fix go (l : list jval) (p j : Z) : list pc_jtok :=
    match l with
    | [] => []
    | v :: l => let t := doc_toks v p par j in t ++ go l (p + zlen (render v) + 1) (j + zlen t)
    end.

Definition obj_toks (par : Z) : list (bytes * jval) -> Z -> Z -> list pc_jtok :=
  fix go (l : list (bytes * jval)) (p j : Z) : list pc_jtok :=
    match l with
    | [] => []
    | (k, v) :: l =>
        let q := p + zlen (quoted k) + 1 in
        let t := doc_toks v q par (j + 1) in
        mk_jtok PC_J_STR (p + 1) (p + 1 + zlen (escape k)) 0 par :: t ++ go l (q + zlen (render v) + 1) (j + 1 + zlen t)
    end.

Lemma doc_toks_arr l p par i :
  doc_toks (JArr l) p par i = mk_jtok PC_J_ARR p (p + zlen (render (JArr l))) (zlen l) par :: arr_toks i l (p + 1) (i + 1).
Proof. done. Qed.
Lemma doc_toks_obj l p par i :
  doc_toks (JObj l) p par i = mk_jtok PC_J_OBJ p (p + zlen (render (JObj l))) (zlen l) par :: obj_toks i l (p + 1) (i + 1).
Proof. done. Qed.

(** * The tokenizer on a document *)

(** The string scan passes what the writer escaped. *)
Lemma hx_range x : 0 <= x < 16 -> hx x <> c_quote /\ hx x <> c_bslash.
Proof. intros. unfold hx, c_quote, c_bslash. case_match; bool_facts; lia. Qed.

Lemma str_scan_esc c s n : is_u8 c -> str_scan (jw_esc c ++ s) n = str_scan s (n + zlen (jw_esc c)).
Proof.
  intros Hc. unfold jw_esc. destruct ((c =? c_quote) || (c =? c_bslash)) eqn:E.
  - simpl. assert ((c =? c_u) = false) as -> by (apply orb_true_iff in E as [E|E]; bool_facts; subst; done). done.
  - bool_facts. destruct (Z.ltb_spec c 32).
    + simpl. done.
    + simpl. rewrite (proj2 (Z.eqb_neq _ _)), (proj2 (Z.eqb_neq c c_bslash)), (proj2 (Z.ltb_ge _ _)) by lia. done.
Qed.

Lemma str_scan_escape t r : forall n, bytes_ok t -> str_scan (escape t ++ c_quote :: r) n = Some (n + zlen (escape t)).
Proof.
  induction t as [|c t IH]; intros n Ht; [simpl; f_equal; zlens; lia|].
  apply bytes_ok_cons in Ht as [Hc Ht]. unfold escape. simpl. rewrite <- app_assoc, str_scan_esc by done.
  fold (escape t). rewrite IH by done. f_equal. zlens. lia.
Qed.

Lemma prim_scan_word p r : forall n, Forall (fun c => ends_prim c = false) p ->
  (r = [] \/ exists c r', r = c :: r' /\ ends_prim c = true) -> prim_scan (p ++ r) n = n + zlen p.
Proof.
  induction p as [|c p IH]; intros n Hp Hr.
  - simpl. zlens. destruct Hr as [->|(c & r' & -> & Hc)]; simpl; [lia|]. rewrite Hc. lia.
  - apply list.Forall_cons in Hp as [Hc Hp]. simpl. rewrite Hc, IH by done. zlens. lia.
Qed.

(** Turns of the loop. *)
Definition jstep (b : bytes) (maxt : Z) (p p' : jp) : Prop :=
  exists c r, zdrop (pos p) b = c :: r /\ parse_turn b maxt p c = Some p'.

Lemma parse_turn_adv b maxt p c r p' :
  0 <= pos p -> zdrop (pos p) b = c :: r -> parse_turn b maxt p c = Some p' -> pos p < pos p'.
Proof.
  intros H0 Hd E. unfold parse_turn in E. destruct (is_ws c); [injection E as <-; simpl; lia|].
  destruct (_ || _).
  { destruct (tok_new _ _ _ _) as [[i q]|] eqn:En; [|done]. injection E as <-. unfold tok_new in En.
    destruct (_ >=? _); [done|]. injection En as <- <-. simpl. rewrite count_pos. lia. }
  destruct (_ || _).
  { destruct (_ || _); [done|]. injection E as <-. simpl. lia. }
  destruct (c =? c_colon); [injection E as <-; simpl; lia|].
  destruct (c =? c_comma); [injection E as <-; case_match; simpl; lia|].
  destruct (c =? c_quote).
  - set (p1 := if expect_key p then p else count_in_parent p) in E.
    assert (pos p1 = pos p) as Hp1 by (subst p1; destruct (expect_key p); [done|apply count_pos]).
    destruct (parse_string b maxt p1) as [q|] eqn:Eq; [|done]. injection E as <-.
    unfold parse_string in Eq. rewrite Hp1 in Eq. destruct (str_scan _ _) as [e|] eqn:Es; [|done].
    apply str_scan_range in Es. destruct (tok_new _ _ _ _) as [[i q']|]; [|done]. injection Eq as <-. simpl. lia.
  - unfold parse_prim in E. rewrite count_pos in E. pose proof (prim_scan_range (zdrop (pos p) b) (pos p)).
    destruct (Z.eqb_spec (prim_scan (zdrop (pos p) b) (pos p)) (pos p)); [done|].
    destruct (tok_new _ _ _ _) as [[i q']|] eqn:En; [|done]. injection E as <-.
    apply (new_close _ _ _ _ 0) in En as [_ Hn]. unfold tok_new in *. apply (f_equal pos) in Hn. simpl in Hn. simpl. lia.
Qed.

(** Turns that reach the end of the buffer are what the loop does, on any fuel the bytes left. *)
Lemma jsteps_loop b maxt p p' :
  rtc (jstep b maxt) p p' -> 0 <= pos p -> pos p' = zlen b -> forall fuel, zlen b - pos p <= Z.of_nat fuel ->
  parse_loop fuel b maxt p = Some p'.
Proof.
  induction 1 as [p|p q p' (c & r & Hd & Ht) _ IH]; intros H0 He fuel Hf.
  - destruct fuel; simpl; by rewrite (proj2 (Z.ltb_ge _ _)) by lia.
  - pose proof (parse_turn_adv _ _ _ _ _ _ H0 Hd Ht).
    assert (pos p < zlen b) by (apply (f_equal zlen) in Hd; zlens; pose proof (zlen_nonneg r); lia).
    destruct fuel as [|fuel]; [lia|]. simpl. rewrite (proj2 (Z.ltb_lt _ _)) by lia. rewrite Hd, Ht. apply IH; lia.
Qed.

Lemma jstep_one b maxt p c r p' : zdrop (pos p) b = c :: r -> parse_turn b maxt p c = Some p' -> rtc (jstep b maxt) p p'.
Proof. intros Hd Ht. apply rtc_once. by exists c, r. Qed.

(** The array with a member more of container [i]. *)
Definition bump (i : Z) (l : list pc_jtok) : list pc_jtok :=
  if i >=? 0 then alter (fun t => set_size t (s32 (size t + 1))) (Z.to_nat i) l else l.

Lemma alter_mid f (A : list pc_jtok) c B : alter f (Z.to_nat (zlen A)) (A ++ c :: B) = A ++ f c :: B.
Proof. unfold zlen. by rewrite Nat2Z.id, <- (Nat.add_0_r (length A)), alter_app_r. Qed.

Lemma count_is_bump p : count_in_parent p = mk_jp (pos p) (bump (jparent p) (toks p)) (jparent p) (expect_key p).
Proof. unfold count_in_parent, bump. destruct (jparent p >=? 0); by destruct p. Qed.

Lemma bump_len i l : zlen (bump i l) = zlen l.
Proof. unfold bump, zlen. case_match; [by rewrite length_alter|done]. Qed.

Lemma bump_mid A c B : 0 <= size c < 2 ^ 31 - 1 -> bump (zlen A) (A ++ c :: B) = A ++ set_size c (size c + 1) :: B.
Proof.
  intros Hs. unfold bump. pose proof (zlen_nonneg A). rewrite Z.geb_leb, (proj2 (Z.leb_le _ _)) by lia.
  rewrite alter_mid. by rewrite s32_id by lia.
Qed.

Lemma tok_new_room maxt p ty s : zlen (toks p) < maxt ->
  tok_new maxt p ty s = Some (zlen (toks p), mk_jp (pos p) (toks p ++ [mk_jtok ty s (-1) 0 (jparent p)]) (jparent p) (expect_key p)).
Proof. intros H. unfold tok_new. rewrite Z.geb_leb. by rewrite (proj2 (Z.leb_gt _ _)) by lia. Qed.

Lemma turn_quote b maxt p : parse_turn b maxt p c_quote =
  (fun q => set_key q false) <$> parse_string b maxt (if expect_key p then p else count_in_parent p).
Proof. done. Qed.

(** A quoted string, as a value or as a key. *)
Lemma sim_string b maxt t r n T par k :
  bytes_ok t -> 0 <= n -> zlen b < 2 ^ 31 -> zdrop n b = quoted t ++ r -> zlen T < maxt ->
  rtc (jstep b maxt) (mk_jp n T par k)
    (mk_jp (n + zlen (quoted t)) ((if (k : bool) then T else bump par T) ++ [mk_jtok PC_J_STR (n + 1) (n + 1 + zlen (escape t)) 0 par]) par false).
Proof.
  intros Ht Hn Hb Hd Hroom. set (T' := if (k : bool) then T else bump par T). assert (zlen (quoted t) = zlen (escape t) + 2) as Hq by (unfold quoted; zlens; lia).
  pose proof (zlen_nonneg (escape t)).
  assert (n + zlen (quoted t) <= zlen b) as Hle by (apply (f_equal zlen) in Hd; rewrite zlen_zdrop, zlen_app in Hd; pose proof (zlen_nonneg r); lia).
  assert (zlen T' = zlen T) as HT by (subst T'; destruct k; [done|apply bump_len]).
  eapply jstep_one; [exact Hd|]. rewrite turn_quote.
  assert ((if k then mk_jp n T par k else count_in_parent (mk_jp n T par k)) = mk_jp n T' par k) as Hc.
  { subst T'. destruct k; [done|]. by rewrite count_is_bump. }
  cbn [expect_key]. rewrite Hc. clear Hc. clearbody T'. unfold parse_string. cbn [pos].
  assert (zdrop (n + 1) b = escape t ++ c_quote :: r) as ->.
  { change 1 with (zlen [c_quote]). apply (zdrop_after _ [c_quote]); [done|]. rewrite Hd. unfold quoted. simpl. by rewrite <- app_assoc. }
  rewrite str_scan_escape by done. rewrite tok_new_room by (simpl; lia). cbn [set_pos toks pos jparent expect_key fmap option_fmap option_map].
  unfold close_tok, set_toks, set_pos, set_key. cbn [toks pos jparent expect_key]. f_equal. f_equal; [lia|].
  rewrite alter_mid. unfold set_end. cbn [jtype start size parent]. by rewrite !s32_id by lia.
Qed.

Lemma sim_prim b maxt w r n T par :
  prim_ok w -> 0 <= n -> zlen b < 2 ^ 31 -> zdrop n b = w ++ r -> zlen T < maxt ->
  (r = [] \/ exists c r', r = c :: r' /\ ends_prim c = true) ->
  rtc (jstep b maxt) (mk_jp n T par false)
    (mk_jp (n + zlen w) (bump par T ++ [mk_jtok PC_J_PRIM n (n + zlen w) 0 par]) par false).
Proof.
  intros [Hw Hf] Hn Hb Hd Hroom Hr. destruct w as [|c w]; [done|]. destruct Hf as (H1 & H2 & H3 & H4).
  pose proof (zlen_nonneg w).
  assert (n + zlen (c :: w) <= zlen b) as Hle by (apply (f_equal zlen) in Hd; zlens; pose proof (zlen_nonneg r); lia).
  assert (ends_prim c = false) as Hc by (by apply list.Forall_cons in Hw as [? _]).
  eapply jstep_one; [exact Hd|]. unfold parse_turn. unfold ends_prim in Hc.
  apply orb_false_elim in Hc as [Hc Hws]. rewrite Hws. bool_facts.
  rewrite !(proj2 (Z.eqb_neq _ _)) by done. cbn [orb]. rewrite count_is_bump. cbn [pos toks jparent expect_key].
  unfold parse_prim. cbn [pos]. rewrite Hd, prim_scan_word by done. rewrite (proj2 (Z.eqb_neq _ _)) by (zlens; lia).
  rewrite tok_new_room by (simpl; rewrite bump_len; lia). cbn [set_pos toks pos jparent expect_key].
  unfold close_tok, set_toks. cbn [toks pos jparent expect_key]. f_equal. f_equal.
  rewrite alter_mid. unfold set_end. cbn [jtype start size parent]. zlens. by rewrite !s32_id by lia.
Qed.

Lemma turn_open_arr b maxt p : zlen (toks p) < maxt -> 0 <= pos p < 2 ^ 31 ->
  parse_turn b maxt p c_lbrack =
  Some (mk_jp (pos p + 1) (bump (jparent p) (toks p) ++ [mk_jtok PC_J_ARR (pos p) (-1) 0 (jparent p)]) (zlen (toks p)) false).
Proof.
  intros H Hp. unfold parse_turn. cbn -[tok_new count_in_parent s32]. rewrite count_is_bump, tok_new_room by (simpl; by rewrite bump_len).
  cbn -[s32 bump]. unfold set_pos, set_key, set_parent. cbn -[s32 bump]. rewrite bump_len, s32_id by done. done.
Qed.

Lemma turn_open_obj b maxt p : zlen (toks p) < maxt -> 0 <= pos p < 2 ^ 31 ->
  parse_turn b maxt p c_lbrace =
  Some (mk_jp (pos p + 1) (bump (jparent p) (toks p) ++ [mk_jtok PC_J_OBJ (pos p) (-1) 0 (jparent p)]) (zlen (toks p)) true).
Proof.
  intros H Hp. unfold parse_turn. cbn -[tok_new count_in_parent s32]. rewrite count_is_bump, tok_new_room by (simpl; by rewrite bump_len).
  cbn -[s32 bump]. unfold set_pos, set_key, set_parent. cbn -[s32 bump]. rewrite bump_len, s32_id by done. done.
Qed.

(** A closing bracket under its own container. *)
Lemma turn_close b maxt n A c B k (arr : bool) :
  jtype c = (if arr then PC_J_ARR else PC_J_OBJ) -> 0 <= n < 2 ^ 31 - 1 ->
  parse_turn b maxt (mk_jp n (A ++ c :: B) (zlen A) k) (if arr then c_rbrack else c_rbrace) =
  Some (mk_jp (n + 1) (A ++ set_end c (n + 1) :: B) (parent c) false).
Proof.
  intros Hc Hn. pose proof (zlen_nonneg A).
  assert ((A ++ c :: B) !! Z.to_nat (zlen A) = Some c) as Hl by (unfold zlen; rewrite Nat2Z.id; by apply list_lookup_middle).
  unfold parse_turn, type_at, parent_at, close_tok, set_pos, set_key, set_parent, set_toks. cbn [pos toks jparent expect_key].
  destruct arr; cbn -[Z.to_nat s32 Z.ltb alter bool_decide lookup Z.add];
    rewrite (proj2 (Z.ltb_ge _ _)) by lia; rewrite Hl, Hc; rewrite bool_decide_true by done; cbn [orb negb];
    rewrite s32_id by lia; rewrite alter_mid;
    assert ((A ++ set_end c (n + 1) :: B) !! Z.to_nat (zlen A) = Some (set_end c (n + 1))) as ->
      by (unfold zlen; rewrite Nat2Z.id; by apply list_lookup_middle); done.
Qed.

Lemma turn_close_at b maxt n i A c B k (arr : bool) :
  i = zlen A -> jtype c = (if arr then PC_J_ARR else PC_J_OBJ) -> 0 <= n < 2 ^ 31 - 1 ->
  parse_turn b maxt (mk_jp n (A ++ c :: B) i k) (if arr then c_rbrack else c_rbrace) =
  Some (mk_jp (n + 1) (A ++ set_end c (n + 1) :: B) (parent c) false).
Proof. intros ->. apply turn_close. Qed.

Lemma turn_comma b maxt n A c B k :
  is_cont c -> parse_turn b maxt (mk_jp n (A ++ c :: B) (zlen A) k) c_comma =
  Some (mk_jp (n + 1) (A ++ c :: B) (zlen A) (if decide (jtype c = PC_J_OBJ) then true else k)).
Proof.
  intros Hc. pose proof (zlen_nonneg A).
  assert ((A ++ c :: B) !! Z.to_nat (zlen A) = Some c) as Hl by (unfold zlen; rewrite Nat2Z.id; by apply list_lookup_middle).
  unfold parse_turn, type_at. cbn -[Z.to_nat s32 Z.geb bool_decide lookup decide].
  rewrite Z.geb_leb, (proj2 (Z.leb_le _ _)) by lia. rewrite Hl. cbn [andb].
  destruct (decide (jtype c = PC_J_OBJ)); [rewrite bool_decide_true by done|rewrite bool_decide_false by done]; done.
Qed.

Lemma doc_toks_pos v p par i : 1 <= zlen (doc_toks v p par i).
Proof. destruct v; simpl; zlens; pose_lens; lia. Qed.

(** What [sim_value] says of one value. *)
Definition sims (b : bytes) (maxt : Z) (v : jval) : Prop := forall n T par r,
  0 <= n -> zdrop n b = render v ++ r -> (r = [] \/ exists c r', r = c :: r' /\ ends_prim c = true) ->
  zlen T + zlen (doc_toks v n par (zlen T)) <= maxt ->
  rtc (jstep b maxt) (mk_jp n T par false)
    (mk_jp (n + zlen (render v)) (bump par T ++ doc_toks v n par (zlen T)) par false).

(** The elements of an array, up to its closing bracket. *)
Lemma sim_elems b maxt l : zlen b < 2 ^ 31 -> maxt < 2 ^ 31 -> Forall (sims b maxt) l -> forall n A c B r,
  jtype c = PC_J_ARR -> 0 <= size c -> 0 <= n -> zdrop n b = commas (map render l) ++ c_rbrack :: r ->
  size c <= zlen B -> zlen A + 1 + zlen B + zlen (arr_toks (zlen A) l n (zlen A + 1 + zlen B)) <= maxt ->
  rtc (jstep b maxt) (mk_jp n (A ++ c :: B) (zlen A) false)
    (mk_jp (n + zlen (commas (map render l)))
       (A ++ set_size c (size c + zlen l) :: B ++ arr_toks (zlen A) l n (zlen A + 1 + zlen B)) (zlen A) false).
Proof.
  intros Hb Hm Hl. induction Hl as [|v l Hv Hl IH]; intros n A c B r Hc Hs Hn Hd HB Hroom.
  { simpl. zlens. rewrite !Z.add_0_r, app_nil_r. replace (set_size c (size c)) with c by (by destruct c). apply rtc_refl. }
  pose proof (zlen_nonneg A). pose proof (zlen_nonneg B). cbn [arr_toks] in *. fold (arr_toks (zlen A)) in *.
  set (t := doc_toks v n (zlen A) (zlen A + 1 + zlen B)) in *. pose proof (doc_toks_pos v n (zlen A) (zlen A + 1 + zlen B)) as Ht. fold t in Ht.
  rewrite zlen_app in Hroom. pose proof (zlen_nonneg (arr_toks (zlen A) l (n + zlen (render v) + 1) (zlen A + 1 + zlen B + zlen t))).
  assert (zlen (A ++ c :: B) = zlen A + 1 + zlen B) as HT by (zlens; lia).
  assert (exists r1, zdrop n b = render v ++ r1 /\ (exists x r', r1 = x :: r' /\ ends_prim x = true) /\
    r1 = match l with [] => c_rbrack :: r | _ => c_comma :: commas (map render l) ++ c_rbrack :: r end) as (r1 & Hd1 & Hr1 & Er1).
  { rewrite Hd. destruct l as [|v' l']; simpl; eexists; (split; [rewrite <- ?app_assoc; reflexivity|]); (split; [by eexists _, _|done]). }
  pose proof (Hv n (A ++ c :: B) (zlen A) r1 Hn Hd1 (or_intror Hr1)) as Hstep. rewrite HT in Hstep. fold t in Hstep.
  rewrite bump_mid, <- app_assoc in Hstep by lia. cbn [app] in Hstep.
  apply (zdrop_after _ _ _ _ Hn) in Hd1 as Hd2. pose proof (zlen_nonneg (render v)).
  destruct l as [|v' l'].
  - simpl arr_toks. rewrite app_nil_r. zlens. replace (size c + (1 + 0)) with (size c + 1) by lia. apply Hstep. lia.
  - assert (commas (map render (v :: v' :: l')) = render v ++ c_comma :: commas (map render (v' :: l'))) as -> by done.
    etrans; [apply Hstep; lia|]. rewrite Er1 in Hd2.
    etrans; [eapply jstep_one; [exact Hd2|apply turn_comma; right; done]|]. cbn [set_size jtype]. rewrite decide_False by (by rewrite Hc).
    change (c_comma :: commas (map render (v' :: l')) ++ c_rbrack :: r) with ([c_comma] ++ commas (map render (v' :: l')) ++ c_rbrack :: r) in Hd2.
    apply zdrop_after in Hd2; [|lia]. change (zlen [c_comma]) with 1 in Hd2.
    specialize (IH (n + zlen (render v) + 1) A (set_size c (size c + 1)) (B ++ t) r Hc).
    rewrite zlen_app in IH. replace (zlen A + 1 + (zlen B + zlen t)) with (zlen A + 1 + zlen B + zlen t) in IH by lia.
    rewrite <- app_assoc in IH. simpl size in IH. etrans; [apply IH; try done; lia|].
    replace (n + zlen (render v ++ c_comma :: commas (map render (v' :: l')))) with (n + zlen (render v) + 1 + zlen (commas (map render (v' :: l')))) by (zlens; lia).
    replace (size c + zlen (v :: v' :: l')) with (size c + 1 + zlen (v' :: l')) by (zlens; lia).
    apply rtc_refl.
Qed.

Lemma turn_colon b maxt p : parse_turn b maxt p c_colon = Some (mk_jp (pos p + 1) (toks p) (jparent p) false).
Proof. done. Qed.

Definition member (m : bytes * jval) : bytes := quoted (fst m) ++ c_colon :: render (snd m).

Lemma render_obj l : render (JObj l) = c_lbrace :: commas (map member l) ++ [c_rbrace].
Proof. done. Qed.

(** The members of an object, up to its closing brace. *)
Lemma sim_members b maxt l : zlen b < 2 ^ 31 -> maxt < 2 ^ 31 ->
  Forall (fun m => bytes_ok (fst m) /\ sims b maxt (snd m)) l -> forall n A c B r,
  jtype c = PC_J_OBJ -> 0 <= size c -> 0 <= n -> zdrop n b = commas (map member l) ++ c_rbrace :: r ->
  size c <= zlen B -> zlen A + 1 + zlen B + zlen (obj_toks (zlen A) l n (zlen A + 1 + zlen B)) <= maxt ->
  exists k, rtc (jstep b maxt) (mk_jp n (A ++ c :: B) (zlen A) true)
    (mk_jp (n + zlen (commas (map member l)))
       (A ++ set_size c (size c + zlen l) :: B ++ obj_toks (zlen A) l n (zlen A + 1 + zlen B)) (zlen A) k).
Proof.
  intros Hb Hm Hl. induction Hl as [|[key v] l [Hkey Hv] Hl IH]; intros n A c B r Hc Hs Hn Hd HB Hroom.
  { exists true. simpl. zlens. rewrite !Z.add_0_r, app_nil_r. replace (set_size c (size c)) with c by (by destruct c). apply rtc_refl. }
  simpl in Hkey, Hv. pose proof (zlen_nonneg A). pose proof (zlen_nonneg B). cbn [obj_toks] in *. fold (obj_toks (zlen A)) in *.
  set (q := n + zlen (quoted key) + 1) in *. set (kt := mk_jtok PC_J_STR (n + 1) (n + 1 + zlen (escape key)) 0 (zlen A)) in *.
  set (t := doc_toks v q (zlen A) (zlen A + 1 + zlen B + 1)) in *.
  pose proof (doc_toks_pos v q (zlen A) (zlen A + 1 + zlen B + 1)) as Ht. fold t in Ht.
  rewrite zlen_cons, zlen_app in Hroom. pose proof (zlen_nonneg (obj_toks (zlen A) l (q + zlen (render v) + 1) (zlen A + 1 + zlen B + 1 + zlen t))).
  pose proof (zlen_nonneg (quoted key)).
  assert (exists r1, zdrop n b = quoted key ++ [c_colon] ++ render v ++ r1 /\ (exists x r', r1 = x :: r' /\ ends_prim x = true) /\
    r1 = match l with [] => c_rbrace :: r | _ => c_comma :: commas (map member l) ++ c_rbrace :: r end) as (r1 & Hd1 & Hr1 & Er1).
  { rewrite Hd. destruct l as [|m' l'].
    - exists (c_rbrace :: r). split; [|split; [by eexists _, _|done]]. cbn [map commas]. unfold member. simpl. by rewrite <- app_assoc.
    - exists (c_comma :: commas (map member (m' :: l')) ++ c_rbrace :: r). split; [|split; [by eexists _, _|done]].
      change (commas (map member ((key, v) :: m' :: l'))) with (member (key, v) ++ c_comma :: commas (map member (m' :: l'))).
      generalize (commas (map member (m' :: l'))). intros rest. unfold member. simpl. by rewrite <- !app_assoc. }
  (* the key *)
  pose proof (sim_string b maxt key _ n (A ++ c :: B) (zlen A) true Hkey Hn Hb Hd1 ltac:(zlens; lia)) as Hk. cbv iota in Hk. fold kt in Hk.
  rewrite <- app_assoc in Hk. cbn [app] in Hk.
  apply (zdrop_after _ _ _ _ Hn) in Hd1 as Hd2. pose proof Hd2 as Hd3. apply zdrop_after in Hd3; [|lia]. change (zlen [c_colon]) with 1 in Hd3. fold q in Hd3.
  (* the value *)
  pose proof (Hv q (A ++ c :: B ++ [kt]) (zlen A) r1 ltac:(lia) Hd3 (or_intror Hr1)) as Hstep.
  replace (zlen (A ++ c :: B ++ [kt])) with (zlen A + 1 + zlen B + 1) in Hstep by (zlens; lia). fold t in Hstep.
  rewrite bump_mid, <- app_assoc in Hstep by lia. cbn [app] in Hstep. rewrite <- app_assoc in Hstep. cbn [app] in Hstep.
  apply zdrop_after in Hd3 as Hd4; [|lia]. pose proof (zlen_nonneg (render v)).
  assert (rtc (jstep b maxt) (mk_jp n (A ++ c :: B) (zlen A) true)
    (mk_jp (q + zlen (render v)) (A ++ set_size c (size c + 1) :: B ++ kt :: t) (zlen A) false)) as Hone.
  { etrans; [exact Hk|]. etrans; [eapply jstep_one; [exact Hd2|apply turn_colon]|]. cbn [pos toks jparent]. fold q. apply Hstep. lia. }
  assert (zlen (member (key, v)) = zlen (quoted key) + 1 + zlen (render v)) as Hml by (unfold member; cbn [fst snd]; rewrite zlen_app, zlen_cons; lia).
  destruct l as [|m' l'].
  - exists false. simpl obj_toks. rewrite app_nil_r. simpl commas. rewrite Hml.
    replace (n + (zlen (quoted key) + 1 + zlen (render v))) with (q + zlen (render v)) by (subst q; lia). exact Hone.
  - rewrite Er1 in Hd4. pose proof Hd4 as Hd5.
    change (c_comma :: commas (map member (m' :: l')) ++ c_rbrace :: r) with ([c_comma] ++ commas (map member (m' :: l')) ++ c_rbrace :: r) in Hd5.
    apply zdrop_after in Hd5; [|lia]. change (zlen [c_comma]) with 1 in Hd5.
    destruct (IH (q + zlen (render v) + 1) A (set_size c (size c + 1)) (B ++ kt :: t) r Hc) as [k Hrest]; try done.
    1-3: simpl; zlens; lia.
    { rewrite zlen_app, zlen_cons. replace (zlen A + 1 + (zlen B + (1 + zlen t))) with (zlen A + 1 + zlen B + 1 + zlen t) by lia. lia. }
    exists k. etrans; [exact Hone|]. etrans; [eapply jstep_one; [exact Hd4|apply turn_comma; by left]|]. simpl jtype.
    rewrite decide_True by done. rewrite zlen_app, (zlen_cons kt) in Hrest.
    replace (zlen A + 1 + (zlen B + (1 + zlen t))) with (zlen A + 1 + zlen B + 1 + zlen t) in Hrest by lia.
    rewrite <- app_assoc in Hrest. simpl size in Hrest. cbn [app] in Hrest.
    assert (commas (map member ((key, v) :: m' :: l')) = member (key, v) ++ c_comma :: commas (map member (m' :: l'))) as -> by done.
    rewrite zlen_app, Hml, zlen_cons.
    replace (n + (zlen (quoted key) + 1 + zlen (render v) + (1 + zlen (commas (map member (m' :: l')))))) with (q + zlen (render v) + 1 + zlen (commas (map member (m' :: l')))) by (subst q; lia).
    rewrite (zlen_cons (key, v)). replace (size c + (1 + zlen (m' :: l'))) with (size c + 1 + zlen (m' :: l')) by lia. exact Hrest.
Qed.

Lemma set_both t n e : set_end (set_size t n) e = mk_jtok (jtype t) (start t) e n (parent t).
Proof. done. Qed.

Lemma foldr_Forall {A} (P : A -> Prop) l : foldr (fun x Q => P x /\ Q) True l <-> Forall P l.
Proof. induction l; simpl; [split; [constructor|done]|]. rewrite list.Forall_cons. naive_solver. Qed.

(** The tokenizer follows any value. *)
Lemma sim_value b maxt v : zlen b < 2 ^ 31 -> maxt < 2 ^ 31 -> val_ok v -> sims b maxt v.
Proof.
  intros Hb Hm. induction v as [s|w|l IH|l IH] using jval_ind; intros Hok n T par r Hn Hd Hr Hroom.
  - apply (sim_string b maxt s r n T par false); try done. simpl in Hroom. zlens. lia.
  - apply (sim_prim b maxt w r); try done. simpl in Hroom. zlens. lia.
  - rewrite doc_toks_arr in *. rewrite zlen_cons in Hroom. simpl in Hok. apply foldr_Forall in Hok.
    pose proof (zlen_nonneg T). pose proof (zlen_nonneg (arr_toks (zlen T) l (n + 1) (zlen T + 1))).
    simpl render in *. rewrite zlen_cons, zlen_app in *. change (zlen [c_rbrack]) with 1 in *. cbn [app] in Hd. rewrite <- app_assoc in Hd.
    pose proof (zlen_nonneg (commas (map render l))).
    assert (n + (1 + (zlen (commas (map render l)) + 1)) <= zlen b) as Hlb by (apply (f_equal zlen) in Hd; zlens; pose proof (zlen_nonneg r); lia).
    etrans; [eapply jstep_one; [exact Hd|apply turn_open_arr; simpl; lia]|]. cbn [pos toks jparent].
    change (c_lbrack :: commas (map render l) ++ [c_rbrack] ++ r) with ([c_lbrack] ++ commas (map render l) ++ c_rbrack :: r) in Hd.
    apply zdrop_after in Hd; [|done]. change (zlen [c_lbrack]) with 1 in Hd.
    rewrite <- (bump_len par T). set (c := mk_jtok PC_J_ARR n (-1) 0 par).
    pose proof (sim_elems b maxt l Hb Hm ltac:(rewrite Forall_forall in *; naive_solver) (n + 1) (bump par T) c [] r eq_refl) as Hel.
    rewrite bump_len in *. change (zlen []) with 0 in Hel. rewrite Z.add_0_r in Hel. simpl size in Hel. cbn [app] in Hel.
    etrans; [apply Hel; try done; lia|].
    apply zdrop_after in Hd; [|lia].
    etrans; [eapply jstep_one; [exact Hd|apply (turn_close_at b maxt _ _ _ _ _ _ true); [by rewrite bump_len|done|lia]]|].
    rewrite set_both. simpl. replace (n + 1 + zlen (commas (map render l)) + 1) with (n + (1 + (zlen (commas (map render l)) + 1))) by lia. apply rtc_refl.
  - rewrite doc_toks_obj in *. rewrite zlen_cons in Hroom. simpl in Hok. apply foldr_Forall in Hok.
    pose proof (zlen_nonneg T). pose proof (zlen_nonneg (obj_toks (zlen T) l (n + 1) (zlen T + 1))).
    rewrite render_obj in *.
    rewrite zlen_cons, zlen_app in *. change (zlen [c_rbrace]) with 1 in *. cbn [app] in Hd. rewrite <- app_assoc in Hd.
    pose proof (zlen_nonneg (commas (map member l))).
    assert (n + (1 + (zlen (commas (map member l)) + 1)) <= zlen b) as Hlb
      by (apply (f_equal zlen) in Hd; rewrite zlen_zdrop, zlen_cons, !zlen_app in Hd; change (zlen [c_rbrace]) with 1 in Hd; pose proof (zlen_nonneg r); lia).
    etrans; [eapply jstep_one; [exact Hd|apply turn_open_obj; simpl; lia]|]. cbn [pos toks jparent].
    change (c_lbrace :: commas (map member l) ++ [c_rbrace] ++ r) with ([c_lbrace] ++ commas (map member l) ++ c_rbrace :: r) in Hd.
    apply zdrop_after in Hd; [|done]. change (zlen [c_lbrace]) with 1 in Hd.
    rewrite <- (bump_len par T). set (c := mk_jtok PC_J_OBJ n (-1) 0 par).
    pose proof (sim_members b maxt l Hb Hm ltac:(rewrite Forall_forall in *; naive_solver) (n + 1) (bump par T) c [] r eq_refl) as Hel.
    rewrite bump_len in *. change (zlen []) with 0 in Hel. rewrite Z.add_0_r in Hel. simpl size in Hel. cbn [app] in Hel.
    destruct Hel as [k Hel]; try done; [lia|lia|]. etrans; [exact Hel|].
    apply zdrop_after in Hd; [|lia].
    etrans; [eapply jstep_one; [exact Hd|apply (turn_close_at b maxt _ _ _ _ _ _ false); [by rewrite bump_len|done|lia]]|].
    rewrite set_both. simpl. replace (n + 1 + zlen (commas (map member l)) + 1) with (n + (1 + (zlen (commas (map member l)) + 1))) by lia. apply rtc_refl.
Qed.

Lemma parse_render v maxt : val_ok v -> zlen (render v) < 2 ^ 31 -> zlen (doc_toks v 0 (-1) 0) <= maxt < 2 ^ 31 ->
  pc_json_parse (render v) maxt = Some (doc_toks v 0 (-1) 0).
Proof.
  intros Hv Hb Hm. unfold pc_json_parse.
  assert (rtc (jstep (render v) maxt) (mk_jp 0 [] (-1) false) (mk_jp (zlen (render v)) (doc_toks v 0 (-1) 0) (-1) false)) as Hs.
  { apply (sim_value (render v) maxt v Hb (proj2 Hm) Hv 0 [] (-1) []); [done| |by left|change (zlen (@nil pc_jtok)) with 0; lia].
    unfold zdrop. simpl. by rewrite app_nil_r. }
  rewrite (jsteps_loop _ _ _ _ Hs); simpl; try done. unfold zlen. lia.
Qed.

(** * Lookup and read back *)

(** A value's first token hangs on its parent, the others on tokens of its own. *)
Lemma arr_toks_parents i l : Forall (fun v => forall p par i, Forall (fun t => i <= parent t) (tail (doc_toks v p par i)) /\
    (exists h r, doc_toks v p par i = h :: r /\ parent h = par)) l ->
  forall p j, i <= j -> Forall (fun t => i <= parent t) (arr_toks i l p j).
Proof.
  intros Hl. induction Hl as [|v l Hv Hl IH]; intros p j Hj; [constructor|]. simpl. apply Forall_app.
  pose proof (zlen_nonneg (doc_toks v p i j)). split; [|apply IH; lia].
  destruct (Hv p i j) as (Ht & h & r & E & Hh). rewrite E in Ht |- *. constructor; [lia|].
  eapply Forall_impl; [exact Ht|simpl; lia].
Qed.

Lemma obj_toks_parents i l : Forall (fun m => forall p par i, Forall (fun t => i <= parent t) (tail (doc_toks (snd m) p par i)) /\
    (exists h r, doc_toks (snd m) p par i = h :: r /\ parent h = par)) l ->
  forall p j, i <= j -> Forall (fun t => i <= parent t) (obj_toks i l p j).
Proof.
  intros Hl. induction Hl as [|[k v] l Hv Hl IH]; intros p j Hj; [constructor|]. simpl in *. constructor; [simpl; lia|]. apply Forall_app.
  set (q := p + zlen (quoted k) + 1). pose proof (zlen_nonneg (doc_toks v q i (j + 1))). split; [|apply IH; lia].
  destruct (Hv q i (j + 1)) as (Ht & h & r & E & Hh). rewrite E in Ht |- *. constructor; [lia|].
  eapply Forall_impl; [exact Ht|simpl; lia].
Qed.

Lemma doc_toks_parents v : forall p par i, Forall (fun t => i <= parent t) (tail (doc_toks v p par i)) /\
  exists h r, doc_toks v p par i = h :: r /\ parent h = par.
Proof.
  induction v as [s|w|l IH|l IH] using jval_ind; intros p par i.
  - split; [constructor|by eexists _, _].
  - split; [constructor|by eexists _, _].
  - rewrite doc_toks_arr. split; [|by eexists _, _]. apply arr_toks_parents; [done|lia].
  - rewrite doc_toks_obj. split; [|by eexists _, _]. apply obj_toks_parents; [done|lia].
Qed.

Lemma get_skip b A B i child obj ntok key :
  Forall (fun t => parent t <> obj) A -> get_loop b (A ++ B) i child obj ntok key = get_loop b B (i + zlen A) child obj ntok key.
Proof.
  intros H. revert i. induction H as [|t A Ht HA IH]; intros i; [f_equal; simpl; zlens; lia|].
  simpl. rewrite (proj2 (Z.eqb_neq _ _)) by done. simpl. rewrite IH. f_equal. zlens. lia.
Qed.

Lemma span_key b k r p par : 0 <= p -> zdrop p b = quoted k ++ r ->
  span b (mk_jtok PC_J_STR (p + 1) (p + 1 + zlen (escape k)) 0 par) = escape k.
Proof.
  intros Hp Hd. unfold span. cbn [start end_]. replace (p + 1 + zlen (escape k) - (p + 1)) with (zlen (escape k)) by lia.
  replace (zdrop (p + 1) b) with (escape k ++ c_quote :: r).
  - unfold ztake, zlen. rewrite Nat2Z.id. apply take_app_length.
  - symmetry. change 1 with (zlen [c_quote]). apply (zdrop_after _ [c_quote]); [done|]. rewrite Hd. unfold quoted. simpl. by rewrite <- app_assoc.
Qed.

(** The first member with a key of this text. *)
Definition find_member (l : list (bytes * jval)) (key : bytes) : option jval :=
  snd <$> List.find (fun m => bool_decide (escape (fst m) = key)) l.

Lemma land1 c : Z.land c 1 = c mod 2.
Proof. change 1 with (Z.ones 1). by rewrite Z.land_ones. Qed.

Lemma span_is_true b t key : span b t = key -> end_ t - start t = zlen key -> span_is b t key = true.
Proof. intros <- H. unfold span_is. rewrite H, Z.eqb_refl. by rewrite bool_decide_true. Qed.

Lemma span_is_false b t key : span b t <> key -> span_is b t key = false.
Proof. intros H. unfold span_is. rewrite (bool_decide_false (span b t = key)) by done. apply andb_false_r. Qed.

(** The text after a member. *)
Lemma members_step b k v l n r : 0 <= n -> zdrop n b = commas (map member ((k, v) :: l)) ++ c_rbrace :: r ->
  exists r1, zdrop n b = quoted k ++ [c_colon] ++ render v ++ r1 /\ zdrop (n + zlen (quoted k) + 1) b = render v ++ r1 /\
    (l <> [] -> zdrop (n + zlen (quoted k) + 1 + zlen (render v) + 1) b = commas (map member l) ++ c_rbrace :: r).
Proof.
  intros Hn Hd. pose proof (zlen_nonneg (quoted k)). pose proof (zlen_nonneg (render v)).
  assert (exists r1, zdrop n b = quoted k ++ [c_colon] ++ render v ++ r1 /\
    (l <> [] -> r1 = [c_comma] ++ commas (map member l) ++ c_rbrace :: r)) as (r1 & H1 & H2).
  { rewrite Hd. destruct l as [|m l].
    - exists (c_rbrace :: r). split; [|done]. cbn [map commas]. unfold member. cbn [fst snd]. by rewrite <- !app_assoc.
    - exists ([c_comma] ++ commas (map member (m :: l)) ++ c_rbrace :: r). split; [|done].
      change (commas (map member ((k, v) :: m :: l))) with (member (k, v) ++ c_comma :: commas (map member (m :: l))).
      generalize (commas (map member (m :: l))). intros rest. unfold member. cbn [fst snd]. by rewrite <- !app_assoc. }
  exists r1. split; [done|]. apply zdrop_after in H1; [|done]. apply zdrop_after in H1; [|lia]. change (zlen [c_colon]) with 1 in H1.
  split; [done|]. intros Hl. rewrite (H2 Hl) in H1. apply zdrop_after in H1; [|lia]. apply zdrop_after in H1; [|lia]. done.
Qed.

Lemma get_members b key obj ntok l : forall n j child r,
  child mod 2 = 0 -> 0 <= n -> 0 <= obj < j -> zdrop n b = commas (map member l) ++ c_rbrace :: r ->
  j + zlen (obj_toks obj l n j) <= ntok ->
  match find_member l key with
  | None => get_loop b (obj_toks obj l n j) j child obj ntok key = -1
  | Some v => exists p r1 A B, get_loop b (obj_toks obj l n j) j child obj ntok key = j + zlen A /\ 0 <= p /\
      obj_toks obj l n j = A ++ doc_toks v p obj (j + zlen A) ++ B /\ zdrop p b = render v ++ r1
  end.
Proof.
  induction l as [|[k v] l IH]; intros n j child r Hc Hn Hj Hd Hlen; [done|].
  destruct (members_step _ _ _ _ _ _ Hn Hd) as (r1 & Hk & Hv & Hrest). cbn [obj_toks] in *. fold (obj_toks obj) in *.
  pose proof (zlen_nonneg (quoted k)). pose proof (zlen_nonneg (render v)).
  set (q := n + zlen (quoted k) + 1) in *. set (t := doc_toks v q obj (j + 1)) in *. set (rest := obj_toks obj l _ _) in *.
  pose proof (doc_toks_pos v q obj (j + 1)) as Ht. fold t in Ht. pose proof (span_key b k _ n obj Hn Hk) as Hspan.
  set (kt := mk_jtok PC_J_STR (n + 1) (n + 1 + zlen (escape k)) 0 obj) in *. pose proof (zlen_nonneg rest).
  rewrite zlen_cons, zlen_app in Hlen.
  cbn [get_loop]. change (parent kt) with obj. rewrite Z.eqb_refl, land1, Hc. cbn [negb andb Z.eqb].
  rewrite bool_decide_true by done. unfold find_member. cbn [List.find fst].
  destruct (decide (escape k = key)) as [E|E].
  - rewrite (bool_decide_true _ E), span_is_true, (proj2 (Z.ltb_lt _ _)) by (first [lia|congruence|simpl; rewrite <- E; lia]). simpl.
    exists q, r1, [kt], rest. change (zlen [kt]) with 1. split_and!; [done|lia|done|done].
  - rewrite (bool_decide_false _ E), span_is_false by congruence. cbn [andb].
    destruct (doc_toks_parents v q obj (j + 1)) as (Htl & h & tl & Et & Hh). fold t in Htl, Et. rewrite Et in Htl |- *.
    cbn [app get_loop]. rewrite Hh, Z.eqb_refl, land1. replace ((child + 1) mod 2) with 1 by (Z.to_euclidean_division_equations; lia). cbn [negb andb Z.eqb].
    rewrite get_skip by (eapply Forall_impl; [exact Htl|simpl; lia]).
    replace (j + 1 + 1 + zlen tl) with (j + 1 + zlen t) by (rewrite Et; zlens; lia).
    fold (find_member l key). destruct l as [|m l]; [done|].
    specialize (IH (q + zlen (render v) + 1) (j + 1 + zlen t) (child + 1 + 1) r ltac:(Z.to_euclidean_division_equations; lia) ltac:(lia) ltac:(lia) (Hrest ltac:(done)) ltac:(fold rest; lia)).
    fold rest in IH. destruct (find_member (m :: l) key) as [v'|]; [|exact IH].
    destruct IH as (p & r2 & A & B & Hg & Hp & HA & Hz). exists p, r2, (kt :: t ++ A), B.
    assert (zlen (kt :: t ++ A) = 1 + zlen t + zlen A) as -> by (zlens; lia).
    replace (j + (1 + zlen t + zlen A)) with (j + 1 + zlen t + zlen A) by lia. split_and!; try done.
    rewrite HA, Et. simpl. f_equal. f_equal. by rewrite app_assoc.
Qed.

(** What the writer escapes reads back. *)
Lemma unescape_one c s out k : is_u8 c -> unescape_loop (jw_esc c ++ s) out k = (o ← put out [c] k; unescape_loop s o k).
Proof.
  intros Hc. unfold jw_esc. destruct (Z.eqb_spec c c_quote) as [->|]; [done|]. destruct (Z.eqb_spec c c_bslash) as [->|]; [done|].
  cbn [orb]. destruct (Z.ltb_spec c 0x20).
  - assert (c ∈ seqZ 0 32) as Hin by (apply elem_of_seqZ; unfold is_u8 in Hc; lia).
    assert (Forall (fun c => hex4 48 48 (hx (Z.shiftr c 4)) (hx (Z.land c 15)) = Some c /\ utf8_enc c = [c]) (seqZ 0 32)) as Hall
      by (repeat constructor).
    rewrite Forall_forall in Hall. destruct (Hall c Hin) as [Hx Hu].
    cbn [app unescape_loop]. cbn [c_bslash Z.eqb negb Pos.eqb c_u]. rewrite Hx. cbn [mbind option_bind]. by rewrite Hu.
  - cbn [app unescape_loop]. rewrite (proj2 (Z.eqb_neq c c_bslash)) by done. done.
Qed.

Lemma unescape_escape s : forall out k, bytes_ok s -> zlen out + zlen s <= k -> unescape_loop (escape s) out k = Some (out ++ s).
Proof.
  induction s as [|c s IH]; intros out k Hs Hk; [simpl; by rewrite app_nil_r|].
  apply list.Forall_cons in Hs as [Hc Hs]. change (escape (c :: s)) with (jw_esc c ++ escape s).
  rewrite unescape_one by done. rewrite zlen_cons in Hk. pose proof (zlen_nonneg s).
  unfold put. rewrite Z.gtb_ltb, (proj2 (Z.ltb_ge _ _)) by (change (zlen [c]) with 1; lia). cbn [mbind option_bind].
  rewrite IH by (first [done|rewrite zlen_app; change (zlen [c]) with 1; lia]). by rewrite <- app_assoc.
Qed.

(** C22. The text of a document gives exactly the document: for any tree of strings, bare
    words, arrays and objects, written with the escapes of the writer, [pc_json_parse] on
    an array with room returns the tokens of the tree: one per value and per key, in the
    order of the text, each with its type, the span of its bytes, its member count and
    its parent's index, whatever the nesting.  [pc_json_get] on the document's object
    then finds the first member whose key has the text asked for: the index it returns is
    the first token of that member's value, and a string value unescapes to the bytes the
    document holds; an absent key gives -1. *)
Theorem json_document_read_back (l : list (bytes * jval)) (maxt : Z) (key : bytes)
    (Hv : val_ok (JObj l)) (Hb : zlen (render (JObj l)) < 2 ^ 31)
    (Hm : zlen (doc_toks (JObj l) 0 (-1) 0) <= maxt < 2 ^ 31) :
  let b := render (JObj l) in
  let T := doc_toks (JObj l) 0 (-1) 0 in
  pc_json_parse b maxt = Some T /\
  match find_member l key with
  | None => pc_json_get b T 0 key = -1
  | Some v =>
      exists p rest, let i := pc_json_get b T 0 key in
        0 < i < zlen T /\ zdrop i T = doc_toks v p 0 i ++ rest /\ ztake (zlen (render v)) (zdrop p b) = render v /\
        forall s t outcap, v = JStr s -> T !! Z.to_nat i = Some t -> zlen s <= outcap ->
          pc_json_unescape b t outcap = Some s /\ pc_json_streq b t (escape s) = true
  end.
Proof.
  cbv zeta. split; [by apply parse_render|]. set (b := render (JObj l)). set (T := doc_toks (JObj l) 0 (-1) 0).
  assert (pc_json_get b T 0 key = get_loop b (obj_toks 0 l 1 1) 1 0 0 (zlen T) key) as Hget.
  { unfold pc_json_get. subst T. rewrite doc_toks_obj. pose proof (zlen_nonneg (obj_toks 0 l (0 + 1) (0 + 1))).
    rewrite Z.geb_leb, (proj2 (Z.leb_gt _ _)) by (rewrite zlen_cons; lia). done. }
  assert (T = mk_jtok PC_J_OBJ 0 (zlen b) (zlen l) (-1) :: obj_toks 0 l 1 1) as HT by done.
  pose proof (get_members b key 0 (zlen T) l 1 1 0 [] eq_refl ltac:(lia) ltac:(lia) eq_refl ltac:(rewrite HT, zlen_cons; lia)) as H.
  rewrite <- Hget in H. destruct (find_member l key) as [v|] eqn:Ef; [|done].
  destruct H as (p & r1 & A & B & Hi & Hp & HA & Hz). exists p, B. cbv zeta. rewrite Hi.
  pose proof (zlen_nonneg A). pose proof (doc_toks_pos v p 0 (1 + zlen A)). pose proof (zlen_nonneg B).
  assert (zdrop (1 + zlen A) T = doc_toks v p 0 (1 + zlen A) ++ B) as Hdrop.
  { rewrite HT, HA. generalize (doc_toks v p 0 (1 + zlen A) ++ B). intros D. rewrite <- (zlen_cons (mk_jtok PC_J_OBJ 0 (zlen b) (zlen l) (-1))).
    rewrite app_comm_cons. by apply zdrop_app. }
  split; [rewrite HT, HA, zlen_cons, !zlen_app; lia|]. split; [done|]. split.
  { rewrite Hz. unfold ztake, zlen. rewrite Nat2Z.id. apply take_app_length. }
  intros s t outcap -> Ht Hcap.
  assert (t = mk_jtok PC_J_STR (p + 1) (p + 1 + zlen (escape s)) 0 0) as ->.
  { unfold zdrop in Hdrop. rewrite <- (Nat.add_0_r (Z.to_nat _)), <- lookup_drop, Hdrop in Ht. by injection Ht. }
  pose proof (span_key b s r1 p 0 Hp Hz) as Hspan. split.
  - unfold pc_json_unescape. rewrite Hspan. rewrite unescape_escape; [done| |done].
    unfold find_member in Ef. destruct (List.find _ l) as [m|] eqn:Efd; [|done]. injection Ef as Em.
    apply List.find_some in Efd as [Hin _]. simpl in Hv. apply foldr_Forall in Hv. rewrite List.Forall_forall in Hv.
    apply Hv in Hin as [_ Hin]. by rewrite Em in Hin.
  - unfold pc_json_streq. rewrite bool_decide_true by done. apply span_is_true; [done|simpl; lia].
Qed.

Lemma json_document_read_back_witness :
  let l := [([97], JArr [JPrim [49]; JObj [([98; 34], JStr [120])]]); ([98], JStr [10; 34; 200])] in
  pc_json_parse (render (JObj l)) 16 = Some (doc_toks (JObj l) 0 (-1) 0) /\
  exists p rest, let i := pc_json_get (render (JObj l)) (doc_toks (JObj l) 0 (-1) 0) 0 [98] in
    0 < i < 9 /\ zdrop i (doc_toks (JObj l) 0 (-1) 0) = doc_toks (JStr [10; 34; 200]) p 0 i ++ rest.
Proof.
  intros l. assert (val_ok (JObj l)) as Hv by (simpl; unfold prim_ok, bytes_ok; repeat constructor; done).
  destruct (json_document_read_back l 16 [98] Hv eq_refl ltac:(split; vm_compute; congruence)) as [H1 H2].
  split; [exact H1|]. destruct H2 as (p & rest & Hi & Hd & _). exists p, rest. split; [vm_compute in Hi |- *; exact Hi|exact Hd].
Defined.

(** * The writer *)

(** The calls a writer's client makes, and the text each stands for. *)
Inductive jw_op := WRaw (s : bytes) | WStr (s : bytes) | WI64 (v : Z).

Definition i64_text (v : Z) : bytes := (if v <? 0 then [45] else []) ++ udec 20 (Z.abs v) [].

Definition op_text (o : jw_op) : bytes := match o with WRaw s => s | WStr s => quoted s | WI64 v => i64_text v end.

Definition op_run (mem : Z -> bool) (w : pc_jw) (o : jw_op) : pc_jw :=
  match o with WRaw s => pc_jw_raw w s mem | WStr s => pc_jw_str w s mem | WI64 v => pc_jw_i64 w v mem end.

Definition op_ok (o : jw_op) : Prop := match o with WI64 v => - 2 ^ 63 <= v < 2 ^ 63 | _ => True end.

(** [w'] is [w] with text [s] appended, or [w] overflowed; [fits] says it was appended. *)
Record wrote (mem : Z -> bool) (w : pc_jw) (s : bytes) (w' : pc_jw) : Prop := {
  w_len : zlen (jw_buf w) <= cap w -> zlen (jw_buf w') <= cap w';
  w_cap : cap w <= cap w' <= Z.max (cap w) JW_HEAP_MAX;
  w_own : owned w' = owned w /\ (owned w = false -> cap w' = cap w);
  w_over : overflow w = true -> overflow w' = true;
  w_text : overflow w' = false -> jw_buf w' = jw_buf w ++ s;
  w_room : overflow w = false -> zlen (jw_buf w) + zlen s <= cap w -> overflow w' = false;
  w_heap : owned w = true -> (forall c, mem c = true) -> overflow w = false -> 0 < cap w ->
    2 * (zlen (jw_buf w) + zlen s) <= JW_HEAP_MAX -> overflow w' = false
}.

Lemma grow_cap_ok fuel : forall c need, 0 < c -> need <= c * 2 ^ Z.of_nat fuel -> 2 * need <= 2 ^ 63 ->
  exists c', grow_cap fuel c need = Some c' /\ c <= c' /\ need <= c' /\ (c < need -> c' < 2 * need).
Proof.
  induction fuel as [|fuel IH]; intros c need Hc Hn Hm; simpl.
  - change (2 ^ Z.of_nat 0) with 1 in Hn. rewrite (proj2 (Z.ltb_ge _ _)) by lia. exists c. split; [done|lia].
  - destruct (Z.ltb_spec c need); [|exists c; split; [done|lia]]. rewrite Nat2Z.inj_succ, Z.pow_succ_r, Z.mul_assoc in Hn by lia.
    replace (u64 (c * 2)) with (c * 2) by word_lia. destruct (IH (c * 2) need) as (c' & E & H1 & H2 & H3); [lia|lia|lia|].
    exists c'. split; [done|]. destruct (Z.ltb_spec (c * 2) need); [lia|]. destruct fuel; simpl in E; rewrite (proj2 (Z.ltb_ge _ _)) in E by lia; injection E as <-; lia.
Qed.

Lemma grow_cap_ge fuel : forall c need c', grow_cap fuel c need = Some c' -> need <= c'.
Proof.
  induction fuel as [|fuel IH]; intros c need c' E; simpl in E; destruct (Z.ltb_spec c need); try done; try (injection E as <-; lia).
  by apply IH in E.
Qed.

Lemma slow_wrote mem w s : wrote mem w s (pc_jw_raw_slow w s mem).
Proof.
  unfold pc_jw_raw_slow. pose proof (zlen_nonneg s). destruct (Z.gtb_spec (zlen (jw_buf w) + zlen s) (cap w)) as [Hgt|Hle].
  2: { split; simpl; rewrite ?zlen_app; try done; lia. }
  destruct (owned w) eqn:Ho; cbn [negb]; [|split; simpl; rewrite ?Ho; try done; lia].
  destruct (grow_cap 64 (cap w) _) as [c|] eqn:Eg.
  2: { split; simpl; try done; try lia. intros _ _ _ Hc Hm. destruct (grow_cap_ok 64 (cap w) (zlen (jw_buf w) + zlen s)) as (c & E & _); [done| |change JW_HEAP_MAX with 4194304 in Hm; lia|congruence].
       change JW_HEAP_MAX with 4194304 in Hm. change (2 ^ Z.of_nat 64) with 18446744073709551616. lia. }
  pose proof (grow_cap_ge _ _ _ _ Eg).
  assert (owned w = true -> (forall c, mem c = true) -> overflow w = false -> 0 < cap w ->
    2 * (zlen (jw_buf w) + zlen s) <= JW_HEAP_MAX -> c <= JW_HEAP_MAX) as Hc.
  { intros _ _ _ Hc Hm. destruct (grow_cap_ok 64 (cap w) (zlen (jw_buf w) + zlen s)) as (c1 & E & _ & _ & H1); [done| |change JW_HEAP_MAX with 4194304 in Hm; lia|].
    - change JW_HEAP_MAX with 4194304 in Hm. change (2 ^ Z.of_nat 64) with 18446744073709551616. lia.
    - replace c1 with c in * by congruence. lia. }
  clear Eg. destruct (Z.gtb_spec c JW_HEAP_MAX).
  { split; simpl; try done; try lia. intros X1 X2 X3 X4 X5. specialize (Hc Ho X2 X3 X4 X5). lia. }
  destruct (mem c) eqn:Em; simpl; split; simpl; rewrite ?zlen_app; try done; try lia.
  - by rewrite Ho.
  - intros _ Hmem. by rewrite Hmem in Em.
Qed.

Lemma raw_wrote mem w s : wrote mem w s (pc_jw_raw w s mem).
Proof.
  unfold pc_jw_raw. destruct (Z.leb_spec (zlen (jw_buf w) + zlen s) (cap w)); [|apply slow_wrote].
  split; simpl; rewrite ?zlen_app; try done; lia.
Qed.

Lemma wrote_nil mem w : wrote mem w [] w.
Proof. split; try done; [lia|]. by rewrite app_nil_r. Qed.

(** One text after another. *)
Lemma wrote_app mem w s w1 t w2 : wrote mem w s w1 -> wrote mem w1 t w2 -> wrote mem w (s ++ t) w2.
Proof.
  intros [l1 c1 o1 v1 t1 r1 h1] [l2 c2 o2 v2 t2 r2 h2]. pose proof (zlen_nonneg s). pose proof (zlen_nonneg t).
  assert (overflow w2 = false -> overflow w1 = false) as Hback by (intros E; destruct (overflow w1); [by rewrite v2 in E|done]).
  split.
  - auto.
  - lia.
  - destruct o1 as [E1 o1], o2 as [E2 o2]. split; [congruence|]. intros E. rewrite o2 by congruence. by apply o1.
  - auto.
  - intros E. by rewrite (t2 E), (t1 (Hback E)), app_assoc.
  - intros Ho Hr. rewrite zlen_app in Hr. apply r2; [apply r1; [done|lia]|]. rewrite t1 by (apply r1; [done|lia]). rewrite zlen_app. lia.
  - intros Hw Hm Ho Hc Hr. rewrite zlen_app in Hr. assert (overflow w1 = false) as H1 by (apply h1; auto; lia).
    apply h2; auto; [by rewrite (proj1 o1)|lia|]. rewrite (t1 H1), zlen_app. lia.
Qed.

Lemma escape_wrote mem s : forall w, wrote mem w (escape s) (foldl (fun w c => pc_jw_raw w (jw_esc c) mem) w s).
Proof.
  induction s as [|c s IH]; intros w; [apply wrote_nil|]. simpl. eapply wrote_app; [apply raw_wrote|apply IH].
Qed.

Lemma str_wrote mem w s : wrote mem w (quoted s) (pc_jw_str w s mem).
Proof.
  unfold pc_jw_str, quoted. change (c_quote :: escape s ++ [c_quote]) with ([c_quote] ++ (escape s ++ [c_quote])).
  eapply wrote_app; [apply raw_wrote|]. eapply wrote_app; [apply escape_wrote|apply raw_wrote].
Qed.

(** The length counted is the length written. *)
Lemma dec_len_udec fuel : forall x n acc, 0 <= x < 10 ^ Z.of_nat fuel -> fuel <> 0%nat ->
  n + zlen (udec fuel x acc) = dec_len fuel x (n + 1) + zlen acc.
Proof.
  induction fuel as [|fuel IH]; intros x n acc Hx Hf; [done|]. cbn [udec dec_len].
  rewrite Nat2Z.inj_succ, Z.pow_succ_r in Hx by lia. rewrite Z.geb_leb. destruct (Z.ltb_spec x 10); [rewrite (proj2 (Z.leb_gt _ _)) by lia|rewrite (proj2 (Z.leb_le _ _)) by lia].
  - zlens. lia.
  - destruct fuel as [|fuel]; [simpl in Hx; lia|]. pose proof (IH (x / 10) (n + 1) ((48 + x mod 10) :: acc)) as IH'.
    rewrite zlen_cons in IH'. assert (0 <= x / 10 < 10 ^ Z.of_nat (S fuel)) by (Z.to_euclidean_division_equations; lia).
    specialize (IH' ltac:(done) ltac:(done)). lia.
Qed.

Lemma i64_wrote mem w v : - 2 ^ 63 <= v < 2 ^ 63 -> wrote mem w (i64_text v) (pc_jw_i64 w v mem).
Proof.
  intros Hv. unfold pc_jw_i64, i64_text.
  assert ((if v <? 0 then u64 (0 - u64 v) else u64 v) = Z.abs v) as -> by (destruct (Z.ltb_spec v 0); word_lia).
  set (s := (if v <? 0 then [45] else []) ++ udec 20 (Z.abs v) []).
  assert (dec_len 20 (Z.abs v) (if v <? 0 then 2 else 1) = zlen s) as ->.
  { pose proof (dec_len_udec 20 (Z.abs v) (if v <? 0 then 1 else 0) [] ltac:(change (10 ^ Z.of_nat 20) with 100000000000000000000; lia) ltac:(done)) as H.
    subst s. rewrite zlen_app. change (zlen (@nil Z)) with 0 in H. rewrite Z.add_0_r in H. destruct (v <? 0);
      [change (zlen [45]) with 1; change (1 + 1) with 2 in H|change (zlen (@nil Z)) with 0; change (0 + 1) with 1 in H]; lia. }
  destruct (Z.leb_spec (zlen (jw_buf w) + zlen s) (cap w)); [|apply slow_wrote].
  split; simpl; rewrite ?zlen_app; try done; lia.
Qed.

Lemma ops_wrote mem ops : Forall op_ok ops -> forall w, wrote mem w (concat (map op_text ops)) (foldl (op_run mem) w ops).
Proof.
  intros H. induction H as [|o ops Ho H IH]; intros w; simpl; [apply wrote_nil|].
  eapply wrote_app; [|apply IH]. destruct o; [apply raw_wrote|apply str_wrote|by apply i64_wrote].
Qed.

(** The calls that write a document. *)
Fixpoint val_ops (v : jval) : list jw_op :=
  match v with
  | JStr s => [WStr s]
  | JPrim p => [WRaw p]
  | JArr l =>
      WRaw [c_lbrack] ::
      (fix go (l : list jval) : list jw_op :=
         match l with [] => [] | [v] => val_ops v | v :: l => val_ops v ++ WRaw [c_comma] :: go l end) l ++ [WRaw [c_rbrack]]
  | JObj l =>
      WRaw [c_lbrace] ::
      (fix go (l : list (bytes * jval)) : list jw_op :=
         match l with
         | [] => []
         | [(k, v)] => WStr k :: WRaw [c_colon] :: val_ops v
         | (k, v) :: l => WStr k :: WRaw [c_colon] :: val_ops v ++ WRaw [c_comma] :: go l
         end) l ++ [WRaw [c_rbrace]]
  end.

Definition ops_text (ops : list jw_op) : bytes := concat (map op_text ops).

Lemma ops_text_app a b : ops_text (a ++ b) = ops_text a ++ ops_text b.
Proof. unfold ops_text. by rewrite map_app, concat_app. Qed.

Lemma val_ops_ok v : Forall op_ok (val_ops v) /\ ops_text (val_ops v) = render v.
Proof.
  induction v as [s|w|l IH|l IH] using jval_ind.
  - split; [by repeat constructor|]. unfold ops_text. simpl. by rewrite app_nil_r.
  - split; [by repeat constructor|]. unfold ops_text. simpl. by rewrite app_nil_r.
  - cbn [val_ops render]. set (go := fix go (l : list jval) := _).
    assert (Forall op_ok (go l) /\ ops_text (go l) = commas (map render l)) as [H1 H2].
    { induction IH as [|v l [Hv1 Hv2] Hl IH]; [done|]. destruct l as [|v' l]; [done|]. destruct IH as [IH1 IH2].
      change (go (v :: v' :: l)) with (val_ops v ++ WRaw [c_comma] :: go (v' :: l)). split.
      - apply Forall_app. split; [done|]. by constructor.
      - rewrite ops_text_app, Hv2. change (ops_text (WRaw [c_comma] :: go (v' :: l))) with (c_comma :: ops_text (go (v' :: l))). by rewrite IH2. }
    split; [constructor; [done|]; apply Forall_app; split; [done|by repeat constructor]|].
    change (ops_text (WRaw [c_lbrack] :: go l ++ [WRaw [c_rbrack]])) with (c_lbrack :: ops_text (go l ++ [WRaw [c_rbrack]])).
    by rewrite ops_text_app, H2.
  - cbn [val_ops]. rewrite render_obj. set (go := fix go (l : list (bytes * jval)) := _).
    assert (Forall op_ok (go l) /\ ops_text (go l) = commas (map member l)) as [H1 H2].
    { induction IH as [|[k v] l [Hv1 Hv2] Hl IH]; [done|]. cbn [snd] in *. destruct l as [|m l].
      - split; [by repeat constructor|]. cbn [map commas]. unfold member. cbn [fst snd]. rewrite <- Hv2. done.
      - destruct IH as [IH1 IH2].
        change (go ((k, v) :: m :: l)) with (WStr k :: WRaw [c_colon] :: val_ops v ++ WRaw [c_comma] :: go (m :: l)). split.
        + constructor; [done|]. constructor; [done|]. apply Forall_app. split; [done|]. by constructor.
        + change (commas (map member ((k, v) :: m :: l))) with (member (k, v) ++ c_comma :: commas (map member (m :: l))).
          rewrite <- IH2. unfold member. cbn [fst snd]. rewrite <- Hv2, <- app_assoc.
          change (ops_text (WStr k :: WRaw [c_colon] :: val_ops v ++ WRaw [c_comma] :: go (m :: l)))
            with (quoted k ++ c_colon :: ops_text (val_ops v ++ WRaw [c_comma] :: go (m :: l))).
          by rewrite ops_text_app. }
    split; [constructor; [done|]; apply Forall_app; split; [done|by repeat constructor]|].
    change (ops_text (WRaw [c_lbrace] :: go l ++ [WRaw [c_rbrace]])) with (c_lbrace :: ops_text (go l ++ [WRaw [c_rbrace]])).
    by rewrite ops_text_app, H2.
Qed.

(** C31. The writer writes exactly what it is told or says that it did not.  After any
    sequence of raw texts, strings and 64-bit numbers the bytes held never exceed the
    capacity, a caller's buffer is never grown, and the overflow mark, once set, stays.
    When it is not set the buffer is the old text followed by every text in full, the
    digits of each number included (the count made before they are written is their
    count).  It is not set when the text fits, nor, on a heap writer whose allocations
    succeed, when twice the text is within the 4 MB bound.  A document written without
    the mark parses back, on an array with room, to exactly its tokens. *)
Theorem json_writer_exact (mem : Z -> bool) (w : pc_jw) (ops : list jw_op)
    (Hops : Forall op_ok ops) (Hw : zlen (jw_buf w) <= cap w) :
  let w' := foldl (op_run mem) w ops in
  zlen (jw_buf w') <= cap w' <= Z.max (cap w) JW_HEAP_MAX /\ (owned w = false -> cap w' = cap w) /\
  (overflow w = true -> overflow w' = true) /\
  (overflow w' = false -> jw_buf w' = jw_buf w ++ ops_text ops) /\
  (overflow w = false -> zlen (jw_buf w) + zlen (ops_text ops) <= cap w -> overflow w' = false) /\
  (overflow w = false -> owned w = true -> (forall c, mem c = true) -> 0 < cap w ->
     2 * (zlen (jw_buf w) + zlen (ops_text ops)) <= JW_HEAP_MAX -> overflow w' = false) /\
  (forall v maxt, ops = val_ops v -> jw_buf w = [] -> overflow w' = false -> val_ok v -> zlen (jw_buf w') < 2 ^ 31 ->
     zlen (doc_toks v 0 (-1) 0) <= maxt < 2 ^ 31 -> pc_json_parse (jw_buf w') maxt = Some (doc_toks v 0 (-1) 0)).
Proof.
  cbv zeta. destruct (ops_wrote mem ops Hops w) as [H1 H2 H3 H4 H5 H6 H7]. fold (ops_text ops) in *.
  split; [split; [auto|lia]|]. split; [naive_solver|]. split; [done|]. split; [done|]. split; [auto|]. split; [auto|].
  intros v maxt -> Hb Ho Hv Hl Hm. rewrite H5 in * by done. rewrite Hb, (proj2 (val_ops_ok v)) in *. by apply parse_render.
Qed.

Lemma json_writer_exact_witness :
  let v := JObj [([97], JArr [JPrim [49]; JStr [34; 10]])] in
  let w' := foldl (op_run (fun _ => true)) (mk_jw [] 4 false true) (val_ops v) in
  overflow w' = false /\ jw_buf w' = render v /\ cap w' = 32 /\ pc_json_parse (jw_buf w') 16 = Some (doc_toks v 0 (-1) 0).
Proof.
  intros v w'. destruct (json_writer_exact (fun _ => true) (mk_jw [] 4 false true) (val_ops v)) as (_ & _ & _ & _ & _ & _ & H7).
  - repeat constructor.
  - done.
  - assert (overflow w' = false) as Ho by (vm_compute; reflexivity).
    assert (jw_buf w' = render v) as Hb by (vm_compute; reflexivity).
    split; [exact Ho|]. split; [exact Hb|]. split; [vm_compute; reflexivity|].
    apply (H7 v 16 eq_refl eq_refl Ho); [simpl; unfold prim_ok, bytes_ok; repeat constructor; done| |split; vm_compute; congruence].
    fold w'. rewrite Hb. vm_compute. reflexivity.
Defined.

(** A three-byte sequence that is no UTF-8 is taken for clean and written as it is: an
    overlong form, a surrogate, a lead byte past F4. *)
Example utf8_overlong_passes :
  pc_utf8_clean [0xE0; 0x80; 0x80] = true /\ pc_utf8_clean [0xED; 0xA0; 0x80] = true /\
  pc_utf8_clean [0xF5; 0x80; 0x80; 0x80] = true /\
  jw_buf (pc_jw_str_utf8 (pc_jw_init 64) [0xED; 0xA0; 0x80] (fun _ => true)) = [34; 0xED; 0xA0; 0x80; 34].
Proof. vm_compute. done. Qed.
