(* ===== verification/Pcglob.v ===== *)
(** The key glob ([pcglob.c]): the pattern matcher of SCAN, KEYS, the pattern
    subscriptions and the allow-lists.

    [pc_glob] walks pattern and subject with one backtrack point, the last [*].
    The positions [pi] and [si] are the suffixes that start there; the backtrack
    point is the pattern after the [*] and the subject where it was met.  [ch] is
    the conversion of a byte to the platform's [char], which the range test of a
    class compares; the theorems hold for every [ch].

    The reference is the meaning of a pattern: its tokens ([tokens]) and which
    strings they describe ([matches]).  [pc_glob_decides] shows the one-point
    backtracking complete and [glob_loop]'s fuel enough. *)

From Stdlib Require Import ZArith Lia.
From stdpp Require Import base tactics list numbers.
From S2P Require Import Prelude.

Definition c_star : Z := 42.
Definition c_quest : Z := 63.
Definition c_lbr : Z := 91.
Definition c_rbr : Z := 93.
Definition c_bsl : Z := 92.
Definition c_dash : Z := 45.
Definition c_caret : Z := 94.
Definition c_bang : Z := 33.

Section Glob.
Context (ch : Z -> Z).

(** The loop over a class: [q] is the pattern from [j], [first] is [j == first].
    [Some] is the pattern after the closing bracket and [matched]; [None] is the
    end of the pattern. *)
Fixpoint class_scan (q : bytes) (first : bool) (c : Z) (matched : bool) : option (bytes * bool) :=
  match q with
  | [] => None
  | x :: q1 =>
      if (x =? c_rbr) && negb first then Some (q1, matched)
      else
        let item lo q2 :=
          match q2 with
          | d :: h :: q3 =>
              if (d =? c_dash) && negb (h =? c_rbr)
              then class_scan q3 false c (matched || ((ch lo <=? ch c) && (ch c <=? ch h)))
              else class_scan q2 false c (matched || (c =? lo))
          | _ => class_scan q2 false c (matched || (c =? lo))
          end in
        match q1 with
        | y :: q1' => if x =? c_bsl then item y q1' else item x q1
        | [] => item x q1
        end
  end.

(** What one turn of the loop does at [p[pi]] and [s[si]]. *)
Inductive turn :=
  | TStar' (p : bytes)          (* a star: remember the point *)
  | TStep (p : bytes)           (* matched one byte *)
  | TMiss                       (* to the backtrack *)
  | TFail.                      (* an unterminated class: return 0 *)

Definition glob_turn (p : bytes) (c : Z) : turn :=
  match p with
  | [] => TMiss
  | pc :: p' =>
      if pc =? c_star then TStar' p'
      else if pc =? c_quest then TStep p'
      else if pc =? c_lbr then
        let '(neg, q) := match p' with
                         | x :: q => if (x =? c_caret) || (x =? c_bang) then (true, q) else (false, p')
                         | [] => (false, p')
                         end in
        match class_scan q true c false with
        | None => TFail
        | Some (p'', matched) => if Bool.eqb matched neg then TMiss else TStep p''
        end
      else
        match p' with
        | e :: p'' => if pc =? c_bsl then (if e =? c then TStep p'' else TMiss)
                      else if pc =? c then TStep p' else TMiss
        | [] => if pc =? c then TStep p' else TMiss
        end
  end.

(** [while (pi < pn && p[pi] == '*') pi++; return pi == pn;] *)
Fixpoint only_stars (p : bytes) : bool :=
  match p with
  | [] => true
  | x :: p => if x =? c_star then only_stars p else false
  end.

Fixpoint glob_loop (fuel : nat) (p s : bytes) (star : option (bytes * bytes)) : option bool :=
  match fuel with
  | O => None
  | S fuel =>
      match s with
      | [] => Some (only_stars p)
      | c :: s' =>
          let backtrack :=
            match star with
            | None => Some false
            | Some (sp, ss) => glob_loop fuel sp (tail ss) (Some (sp, tail ss))
            end in
          match glob_turn p c with
          | TStar' p' => glob_loop fuel p' s (Some (p', s))
          | TStep p' => glob_loop fuel p' s' star
          | TMiss => backtrack
          | TFail => Some false
          end
      end
  end.

Definition glob_fuel (p s : bytes) : nat := (S (S (length s)) * S (S (length p)))%nat.

Definition pc_glob (p s : bytes) : bool :=
  match glob_loop (glob_fuel p s) p s None with Some b => b | None => false end.

Definition pc_glob_match (p s : bytes) : bool := pc_glob p s.

(** * What a pattern means *)

Inductive citem := COne (c : Z) | CRange (lo hi : Z).
Inductive tok := KAny | KLit (c : Z) | KClass (neg : bool) (items : list citem).

Definition in_item (c : Z) (i : citem) : bool :=
  match i with COne x => c =? x | CRange lo hi => (ch lo <=? ch c) && (ch c <=? ch hi) end.

Definition tok_ok (t : tok) (c : Z) : bool :=
  match t with
  | KAny => true
  | KLit x => x =? c
  | KClass neg items => negb (Bool.eqb (existsb (in_item c) items) neg)
  end.

(** The items of a class up to its closing bracket, which closes it unless it is the first. *)
Fixpoint class_items (q : bytes) (first : bool) : option (list citem * bytes) :=
  match q with
  | [] => None
  | x :: q1 =>
      if (x =? c_rbr) && negb first then Some ([], q1)
      else
        let item lo q2 :=
          match q2 with
          | d :: h :: q3 =>
              if (d =? c_dash) && negb (h =? c_rbr)
              then prod_map (cons (CRange lo h)) id <$> class_items q3 false
              else prod_map (cons (COne lo)) id <$> class_items q2 false
          | _ => prod_map (cons (COne lo)) id <$> class_items q2 false
          end in
        match q1 with
        | y :: q1' => if x =? c_bsl then item y q1' else item x q1
        | [] => item x q1
        end
  end.

(** The first token of a pattern that does not start with a star. *)
Definition next_tok (p : bytes) : option (tok * bytes) :=
  match p with
  | [] => None
  | pc :: p' =>
      if pc =? c_star then None
      else if pc =? c_quest then Some (KAny, p')
      else if pc =? c_lbr then
        match p' with
        | x :: q =>
            if (x =? c_caret) || (x =? c_bang)
            then prod_map (KClass true) id <$> class_items q true
            else prod_map (KClass false) id <$> class_items p' true
        | [] => None
        end
      else
        match p' with
        | e :: p'' => if pc =? c_bsl then Some (KLit e, p'') else Some (KLit pc, p')
        | [] => Some (KLit pc, p')
        end
  end.

(** The strings a pattern describes. *)
Inductive gmatch : bytes -> bytes -> Prop :=
  | gm_nil : gmatch [] []
  | gm_star0 p s : gmatch p s -> gmatch (c_star :: p) s
  | gm_star1 p c s : gmatch (c_star :: p) s -> gmatch (c_star :: p) (c :: s)
  | gm_tok p t p' c s : next_tok p = Some (t, p') -> tok_ok t c = true -> gmatch p' s -> gmatch p (c :: s).

(** * The matcher decides it *)

Lemma class_scan_items q : forall first c m,
  class_scan q first c m = (fun r => (snd r, m || existsb (in_item c) (fst r))) <$> class_items q first.
Proof.
  induction q as [q IH] using (induction_ltof1 _ (@length Z)); unfold ltof in IH. intros first c m.
  destruct q as [|x q1]; [done|]. cbn [class_scan class_items].
  destruct ((x =? c_rbr) && negb first); [simpl; by rewrite orb_false_r|].
  assert (forall lo q2, (length q2 <= length q1)%nat ->
    match q2 with
    | d :: h :: q3 =>
        if (d =? c_dash) && negb (h =? c_rbr)
        then class_scan q3 false c (m || ((ch lo <=? ch c) && (ch c <=? ch h)))
        else class_scan q2 false c (m || (c =? lo))
    | _ => class_scan q2 false c (m || (c =? lo))
    end = (fun r => (snd r, m || existsb (in_item c) (fst r))) <$>
    match q2 with
    | d :: h :: q3 =>
        if (d =? c_dash) && negb (h =? c_rbr)
        then prod_map (cons (CRange lo h)) id <$> class_items q3 false
        else prod_map (cons (COne lo)) id <$> class_items q2 false
    | _ => prod_map (cons (COne lo)) id <$> class_items q2 false
    end) as Hitem.
  { intros lo q2 Hl. destruct q2 as [|d [|h q3]]; simpl in Hl.
    1,2: rewrite IH by (simpl; lia); destruct (class_items _ _) as [[? ?]|]; simpl; by rewrite ?orb_assoc.
    case_match; rewrite IH by (simpl; lia); destruct (class_items _ _) as [[? ?]|]; simpl; by rewrite ?orb_assoc. }
  destruct q1 as [|y q1']; [by apply (Hitem x [])|].
  destruct (x =? c_bsl); [apply (Hitem y q1')|apply (Hitem x (y :: q1'))]; simpl; lia.
Qed.

Lemma class_items_shorter q : forall first l r, class_items q first = Some (l, r) -> (length r < length q)%nat.
Proof.
  induction q as [q IH] using (induction_ltof1 _ (@length Z)); unfold ltof in IH. intros first l r.
  destruct q as [|x q1]; [done|]. cbn [class_items].
  destruct ((x =? c_rbr) && negb first); [intros [= _ <-]; simpl; lia|].
  assert (forall lo q2, (length q2 <= length q1)%nat ->
    match q2 with
    | d :: h :: q3 =>
        if (d =? c_dash) && negb (h =? c_rbr)
        then prod_map (cons (CRange lo h)) id <$> class_items q3 false
        else prod_map (cons (COne lo)) id <$> class_items q2 false
    | _ => prod_map (cons (COne lo)) id <$> class_items q2 false
    end = Some (l, r) -> (length r < S (length q1))%nat) as Hitem.
  { intros lo q2 Hl E.
    assert (forall f q', (length q' <= length q1)%nat -> prod_map (cons f) id <$> class_items q' false = Some (l, r) ->
      (length r < S (length q1))%nat) as Hone.
    { intros f q' Hq' E'. destruct (class_items q' false) as [[l' r']|] eqn:Ec; [|done].
      injection E' as _ <-. apply IH in Ec; simpl in *; lia. }
    destruct q2 as [|d [|h q3]]; simpl in Hl; [eapply Hone in E; [done|simpl; lia]..|].
    case_match; (eapply Hone in E; [done|simpl; lia]). }
  destruct q1 as [|y q1']; [by apply (Hitem x [])|].
  destruct (x =? c_bsl); [apply (Hitem y q1')|apply (Hitem x (y :: q1'))]; simpl; lia.
Qed.

Lemma next_tok_shorter p t p' : next_tok p = Some (t, p') -> (length p' < length p)%nat.
Proof.
  destruct p as [|pc q]; [done|]. unfold next_tok. intros E. simpl.
  assert (forall neg q' b, (length q' <= length q)%nat -> prod_map (KClass neg) id <$> class_items q' b = Some (t, p') ->
    (length p' < S (length q))%nat) as Hc.
  { intros neg q' b Hl E'. destruct (class_items q' b) as [[l r]|] eqn:Ec; [|done].
    injection E' as _ <-. apply class_items_shorter in Ec. unfold id. lia. }
  destruct (pc =? c_star); [done|]. destruct (pc =? c_quest); [injection E as _ <-; lia|]. destruct (pc =? c_lbr).
  - destruct q as [|x q]; [done|]. destruct (_ || _); eapply Hc in E; simpl in *; lia.
  - destruct q as [|e q]; [injection E as _ <-; simpl; lia|]. destruct (pc =? c_bsl); injection E as _ <-; simpl; lia.
Qed.

(** One turn follows the first token. *)
Lemma glob_turn_tok p c :
  glob_turn p c =
  match p with
  | [] => TMiss
  | pc :: p' =>
      if pc =? c_star then TStar' p'
      else match next_tok p with
           | None => TFail
           | Some (t, q) => if tok_ok t c then TStep q else TMiss
           end
  end.
Proof.
  destruct p as [|pc p']; [done|]. unfold glob_turn, next_tok.
  destruct (pc =? c_star); [done|]. destruct (pc =? c_quest); [done|]. destruct (pc =? c_lbr).
  - destruct p' as [|x q]; [done|]. destruct ((x =? c_caret) || (x =? c_bang)); rewrite class_scan_items;
      destruct (class_items _ _) as [[l r]|]; simpl; try done; by destruct (existsb _ _).
  - destruct p' as [|e p'']; [done|]. by destruct (pc =? c_bsl).
Qed.

Lemma gmatch_star p s : gmatch (c_star :: p) s <-> exists k, gmatch p (drop k s).
Proof.
  split.
  - intros H. remember (c_star :: p) as q eqn:Eq. induction H as [|p0 s H _|p0 c s _ IH|p0 t p' c s Ht _ _ _]; simplify_eq.
    + by exists 0%nat.
    + destruct (IH eq_refl) as [k Hk]. by exists (S k).
  - intros [k H]. revert s H. induction k as [|k IH]; intros s H; [by apply gm_star0|].
    destruct s as [|c s]; [by apply gm_star0|]. apply gm_star1. by apply IH.
Qed.

(** A pattern that does not start with a star is matched through its first token. *)
Lemma gmatch_tok p t p' s : next_tok p = Some (t, p') ->
  gmatch p s <-> exists c s', s = c :: s' /\ tok_ok t c = true /\ gmatch p' s'.
Proof.
  intros Ht. split.
  - intros H. destruct H as [|p s H|p c s H|p t' q c s Ht' Hc H]; simplify_eq.
    by exists c, s.
  - intros (c & s' & -> & ? & ?). by eapply gm_tok.
Qed.

Lemma gmatch_stuck pc p s : (pc =? c_star) = false -> next_tok (pc :: p) = None -> ~ gmatch (pc :: p) s.
Proof. intros Hs Hn H. inversion H; subst; bool_facts; congruence. Qed.

Lemma only_stars_match p : only_stars p = true <-> gmatch p [].
Proof.
  induction p as [|x p IH]; simpl; [split; [constructor|done]|]. destruct (Z.eqb_spec x c_star) as [->|Hx].
  - rewrite IH. split; [by constructor|]. intros [k H]%gmatch_star. by rewrite drop_nil in H.
  - split; [done|]. intros H. inversion H; subst; done.
Qed.

(** From [sp] the pattern reaches [p] by [k] single-byte tokens. *)
Inductive seg : bytes -> bytes -> nat -> Prop :=
  | seg_nil p : seg p p 0
  | seg_snoc sp p t p' k : seg sp p k -> next_tok p = Some (t, p') -> seg sp p' (S k).

Lemma seg_match sp p k x : seg sp p k -> gmatch sp x -> (k <= length x)%nat /\ gmatch p (drop k x).
Proof.
  induction 1 as [|sp p t p' k _ IH Ht]; intros H; [split; [lia|done]|].
  destruct (IH H) as [Hk Hp]. apply (gmatch_tok _ _ _ _ Ht) in Hp as (c & s' & Hd & _ & Hp').
  assert (drop (S k) x = s') as -> by (rewrite <- (Nat.add_1_r k), <- drop_drop, Hd; done).
  split; [|done]. assert (length (drop k x) = S (length s')) as Hl by (by rewrite Hd). rewrite length_drop in Hl. lia.
Qed.

(** The backtrack point describes how the loop got to [p] and [s]. *)
Definition star_inv (star : option (bytes * bytes)) (p s : bytes) : Prop :=
  match star with
  | None => True
  | Some (sp, ss) => exists k, seg sp p k /\ s = drop k ss /\ (k <= length ss)%nat
  end.

Lemma length_tl (l : bytes) : length (tail l) = pred (length l).
Proof. by destruct l. Qed.

Lemma drop_tl k (l : bytes) : drop k (tail l) = drop (S k) l.
Proof. destruct l; [simpl tail; by rewrite !drop_nil|done]. Qed.

(** What the backtrack point could still match. *)
Definition star_alt (star : option (bytes * bytes)) : Prop :=
  match star with None => False | Some (sp, ss) => gmatch (c_star :: sp) (tail ss) end.

Definition star_rank (n : nat) (star : option (bytes * bytes)) : nat :=
  match star with None => S n | Some (_, ss) => length ss end.

Lemma star_alt_meet star p s : star_inv star (c_star :: p) s -> star_alt star -> gmatch (c_star :: p) s.
Proof.
  destruct star as [[sp ss]|]; [|done]. intros (k & Hseg & -> & _) Halt.
  apply gmatch_star in Halt as [j Hj]. destruct (seg_match _ _ _ _ Hseg Hj) as [_ Hm].
  apply gmatch_star in Hm as [i Hi]. apply gmatch_star. exists (1 + j + i)%nat.
  replace (drop (1 + j + i) (drop k ss)) with (drop i (drop k (drop j (tail ss)))); [done|].
  destruct ss as [|y ss]; [simpl tail; by rewrite !drop_nil|]. simpl tail. rewrite !drop_drop.
  replace (k + (1 + j + i))%nat with (S (j + (k + i))) by lia. done.
Qed.

Lemma star_alt_stuck star pc p s :
  star_inv star (pc :: p) s -> (pc =? c_star) = false -> next_tok (pc :: p) = None -> ~ star_alt star.
Proof.
  destruct star as [[sp ss]|]; [|by intros _ _ _ []]. intros (k & Hseg & _) Hs Hn [j Hj]%gmatch_star.
  destruct (seg_match _ _ _ _ Hseg Hj) as [_ Hm]. by apply gmatch_stuck in Hm.
Qed.

Lemma star_alt_end star p : star_inv star p [] -> star_alt star -> gmatch p [].
Proof.
  destruct star as [[sp ss]|]; [|done]. intros (k & Hseg & Hd & Hk) [j Hj]%gmatch_star.
  destruct (seg_match _ _ _ _ Hseg Hj) as [Hl Hm]. symmetry in Hd. apply (f_equal length) in Hd.
  rewrite length_drop in Hd. rewrite length_drop, length_tl in Hl. simpl in Hd.
  assert (drop j (tail ss) = []) as Hz by (apply nil_length_inv; rewrite length_drop, length_tl; lia).
  by rewrite Hz, drop_nil in Hm.
Qed.

(** A star takes nothing, or one byte more. *)
Lemma gmatch_star_tl p s : gmatch (c_star :: p) s <-> gmatch p s \/ gmatch (c_star :: p) (tail s).
Proof.
  rewrite !gmatch_star. split.
  - intros [[|k] Hk]; [by left|right]. exists k. by rewrite drop_tl.
  - intros [H|[k Hk]]; [by exists 0%nat|]. exists (S k). by rewrite drop_tl in Hk.
Qed.

(** With fuel above the rank the loop returns, and says what the pattern says. *)
Lemma glob_loop_ok n m fuel : forall p s star,
  star_inv star p s -> (length s <= n)%nat -> (length p <= m)%nat ->
  match star with Some (sp, ss) => (length sp <= m /\ length ss <= n)%nat | None => True end ->
  (star_rank n star * S (S m) + length p < fuel)%nat ->
  exists b, glob_loop fuel p s star = Some b /\ (b = true <-> gmatch p s \/ star_alt star).
Proof.
  induction fuel as [|fuel IH]; intros p s star Hinv Hs Hp Hsp Hf; [lia|].
  cbn [glob_loop]. destruct s as [|c s'].
  { exists (only_stars p). split; [done|]. rewrite only_stars_match. split; [by left|].
    intros [?|Ha]; [done|]. by apply (star_alt_end _ _ Hinv). }
  assert (~ gmatch p (c :: s') ->
    exists b, match star with
      | None => Some false
      | Some (sp, ss) => glob_loop fuel sp (tail ss) (Some (sp, tail ss)) end = Some b /\
      (b = true <-> gmatch p (c :: s') \/ star_alt star)) as Hback.
  { intros Hno. destruct star as [[sp ss]|]; [|exists false; split; [done|]; simpl; naive_solver].
    destruct Hinv as (k & Hseg & Hd & Hk).
    assert (exists y ss', ss = y :: ss') as (y & ss' & ->).
    { destruct ss; [by rewrite drop_nil in Hd|by eexists _, _]. }
    simpl tail. destruct (IH sp ss' (Some (sp, ss'))) as (b & Hb & Hbm).
    - exists 0%nat. split; [constructor|]. split; [done|lia].
    - simpl in *. lia.
    - simpl in *. lia.
    - simpl in *. lia.
    - simpl in *. lia.
    - exists b. split; [done|]. rewrite Hbm. simpl. rewrite (gmatch_star_tl sp ss'). tauto. }
  rewrite glob_turn_tok. destruct p as [|pc p']; [apply Hback; by inversion 1|].
  destruct (Z.eqb_spec pc c_star) as [->|Hpc].
  - destruct (IH p' (c :: s') (Some (p', c :: s'))) as (b & Hb & Hbm).
    + exists 0%nat. split; [constructor|]. split; [done|lia].
    + done.
    + simpl in Hp; lia.
    + simpl in Hp; lia.
    + assert (star_rank n (Some (p', c :: s')) <= star_rank n star)%nat.
      { destruct star as [[sp ss]|]; simpl in *; [|lia]. destruct Hinv as (k & _ & Hd & _).
        apply (f_equal length) in Hd. rewrite length_drop in Hd. simpl in Hd. lia. }
      simpl length in *. nia.
    + exists b. split; [done|]. rewrite Hbm, (gmatch_star_tl p'). pose proof (star_alt_meet _ _ _ Hinv) as Hm.
      rewrite gmatch_star_tl in Hm. simpl in *. tauto.
  - destruct (next_tok (pc :: p')) as [[t q]|] eqn:Ht.
    + pose proof (next_tok_shorter _ _ _ Ht) as Hq. destruct (tok_ok t c) eqn:Hc.
      * destruct (IH q s' star) as (b & Hb & Hbm).
        -- destruct star as [[sp ss]|]; [|done]. destruct Hinv as (k & Hseg & Hd & Hk). exists (S k).
           split; [by eapply seg_snoc|]. apply (f_equal length) in Hd as Hl. rewrite length_drop in Hl. simpl in Hl.
           split; [|lia]. rewrite <- (Nat.add_1_r k), <- drop_drop, <- Hd. done.
        -- simpl in Hs. lia.
        -- simpl in *. lia.
        -- done.
        -- simpl in *. lia.
        -- exists b. split; [done|]. rewrite Hbm, (gmatch_tok _ _ _ _ Ht).
           split; (intros [H|H]; [left|by right]); [by exists c, s'|].
           by destruct H as (? & ? & [= <- <-] & _ & H).
      * apply Hback. rewrite (gmatch_tok _ _ _ _ Ht). intros (? & ? & [= <- <-] & ? & _). congruence.
    + exists false. split; [done|]. split; [done|]. apply Z.eqb_neq in Hpc.
      intros [H|H]; [by apply gmatch_stuck in H|by eapply star_alt_stuck in H].
Qed.
End Glob.

(** C26. The glob matcher decides the pattern language: for every pattern, every
    subject and either signedness of [char], the loop ends within its fuel and
    [pc_glob] says whether the pattern describes the subject; remembering only
    the last star loses no match. *)
Theorem pc_glob_decides (ch : Z -> Z) (p s : bytes) :
  (exists b, glob_loop ch (glob_fuel p s) p s None = Some b) /\ (pc_glob ch p s = true <-> gmatch ch p s).
Proof.
  destruct (glob_loop_ok ch (length s) (length p) (glob_fuel p s) p s None) as (b & Hb & Hm);
    [done|lia|lia|done|unfold glob_fuel; simpl; nia|].
  split; [by exists b|]. unfold pc_glob. rewrite Hb, Hm. simpl. tauto.
Qed.
