(* ===== verification/Ptree.v ===== *)
(** The native protocol's value codec ([ptree.c], [ptree.h]): the writer and the reader.

    A request's parameters and every reply are one tree of tagged items.  The writer
    [pc_tw] holds a buffer of [tcap] bytes, fixed or grown by [realloc], with [tn]
    bytes written and the open containers of [st], innermost first (the first
    [depth] entries of the array, backwards): a container's count is written back
    when it closes.  [mem] is what the allocator answers, a block's first contents or
    nothing.  The reader indexes the bytes into nodes and the accessors walk them.

    [Oob] stands for a read or a write outside a buffer and for fuel that runs out;
    the theorems show that it does not arise.  The growth loop doubles a size of at
    least one up to 2^24 and gets 64 turns; the reader consumes a byte an item and
    gets two turns a byte.

    The specification is the tree [ptree], its bytes [encode] and its nodes
    [nodes_of]. *)

From Stdlib Require Import ZArith Lia.
From stdpp Require Import base tactics list numbers.
From S2P Require Import Prelude Clcodec HtBase.

Definition PT_DEPTH : Z := 32.
Definition PT_HEAP_MAX : Z := Z.shiftl 16 20.

(** The tags. *)
Definition t_int : Z := 105.
Definition t_num : Z := 100.
Definition t_bulk : Z := 98.
Definition t_nil : Z := 110.
Definition t_true : Z := 116.
Definition t_false : Z := 102.
Definition t_arr : Z := 97.
Definition t_map : Z := 109.
Definition t_ok : Z := 111.
Definition t_err : Z := 101.

(** * The writer *)

Record pt_open := mk_open { o_at : Z; o_cnt : Z; o_map : bool }.

Record pc_tw := mk_tw { tb : bytes; tn : Z; tcap : Z; over : bool; towned : bool; st : list pt_open }.

Record pc_tw_mark := mk_mark { m_n : Z; m_depth : nat; m_cnt : Z }.

Definition tw_over (w : pc_tw) : pc_tw := mk_tw (tb w) (tn w) (tcap w) true (towned w) (st w).
Definition tw_n (w : pc_tw) (n : Z) : pc_tw := mk_tw (tb w) n (tcap w) (over w) (towned w) (st w).
Definition tw_st (w : pc_tw) (s : list pt_open) : pc_tw := mk_tw (tb w) (tn w) (tcap w) (over w) (towned w) s.

(** A store of [s] at [b + at]. *)
Definition tw_write (w : pc_tw) (at_ : Z) (s : bytes) : outcome pc_tw :=
  if (0 <=? at_) && (at_ + zlen s <=? zlen (tb w))
  then Ret (mk_tw (blit (tb w) at_ s) (tn w) (tcap w) (over w) (towned w) (st w)) else Oob.

Definition pc_tw_init (buf : option bytes) (cap : Z) : pc_tw :=
  match buf with
  | Some b => mk_tw b 0 cap false false []
  | None => mk_tw [] 0 0 false true []
  end.

Definition pc_tw_free (w : pc_tw) : pc_tw := mk_tw [] 0 0 (over w) (towned w) (st w).

(** The contents of a fresh block of [n] bytes. *)
Definition block (n : Z) (f : nat -> Z) : bytes := f <$> seq 0 (Z.to_nat n).

(** [realloc(b, n)]: the old bytes as far as they fit, then what the block held. *)
Definition realloc (b : bytes) (n : Z) (f : nat -> Z) : bytes := ztake n (b ++ block n f).

(** [while (nc - w->n < k) nc *= 2;] *)
Fixpoint grow (fuel : nat) (nc n k : Z) : outcome Z :=
  if u64 (nc - n) <? k then match fuel with O => Oob | S fuel => grow fuel (u64 (nc * 2)) n k end else Ret nc.

Section Writer.
Context (mem : Z -> option (nat -> Z)).

Definition room (w : pc_tw) (k : Z) : outcome (bool * pc_tw) :=
  if over w then Ret (false, w)
  else if u64 (tcap w - tn w) >=? k then Ret (true, w)
  else if negb (towned w) || (u64 (tn w + k) >? PT_HEAP_MAX) then Ret (false, tw_over w)
  else
    let! nc := grow 64 (if tcap w =? 0 then 512 else tcap w) (tn w) k in
    let nc := if nc >? PT_HEAP_MAX then PT_HEAP_MAX else nc in
    match mem nc with
    | None => Ret (false, tw_over w)
    | Some f => Ret (true, mk_tw (realloc (tb w) nc f) (tn w) nc (over w) (towned w) (st w))
    end.

Definition put32 (v : Z) : bytes := [u8 v; u8 (Z.shiftr v 8); u8 (Z.shiftr v 16); u8 (Z.shiftr v 24)].

Definition get32 (p : bytes) : outcome Z :=
  let! b0 := byte_at p 0 in
  let! b1 := byte_at p 1 in
  let! b2 := byte_at p 2 in
  let! b3 := byte_at p 3 in
  Ret (Z.lor (Z.lor (Z.lor b0 (Z.shiftl b1 8)) (Z.shiftl b2 16)) (u32 (Z.shiftl b3 24))).

(** One more item in the open container; a map counts its keys, not the values after them. *)
Definition counted (w : pc_tw) (is_key : bool) : pc_tw :=
  match st w with
  | o :: s => if eqb (o_map o) is_key then tw_st w (mk_open (o_at o) (u32 (o_cnt o + 1)) (o_map o) :: s) else w
  | [] => w
  end.

Definition open_c (w : pc_tw) (tag : Z) (mp : bool) : outcome pc_tw :=
  if zlen (st w) >=? PT_DEPTH then Ret (tw_over w)
  else
    let! (r, w) := room w 5 in
    if negb r then Ret w
    else
      let w := counted w false in
      let! w := tw_write w (tn w) [tag] in
      Ret (tw_n (tw_st w (mk_open (tn w + 1) 0 mp :: st w)) (tn w + 5)).

Definition pc_tw_map (w : pc_tw) : outcome pc_tw := open_c w t_map true.
Definition pc_tw_arr (w : pc_tw) : outcome pc_tw := open_c w t_arr false.

Definition pc_tw_end (w : pc_tw) : outcome pc_tw :=
  match st w with
  | o :: s => if over w then Ret (tw_over w) else tw_write (tw_st w s) (o_at o) (put32 (o_cnt o))
  | [] => Ret (tw_over w)
  end.

Definition lenitem (w : pc_tw) (tag : Z) (p : bytes) : outcome pc_tw :=
  if zlen p >? 0xffffffff then Ret (tw_over w)
  else
    let! (r, w) := room w (5 + zlen p) in
    if negb r then Ret (tw_over w)
    else
      let! w := tw_write w (tn w) [tag] in
      let! w := tw_write w (tn w + 1) (put32 (zlen p)) in
      let! w := if zlen p =? 0 then Ret w else tw_write w (tn w + 5) p in
      Ret (tw_n w (tn w + (5 + zlen p))).

Definition pc_tw_keyn (w : pc_tw) (k : bytes) : outcome pc_tw :=
  match st w with
  | o :: _ => if o_map o then lenitem (counted w true) t_bulk k else Ret (tw_over w)
  | [] => Ret (tw_over w)
  end.

Definition pc_tw_i64 (w : pc_tw) (v : Z) : outcome pc_tw :=
  let u := u64 v in
  let! (r, w) := room w 9 in
  if negb r then Ret w
  else
    let w := counted w false in
    let! w := tw_write w (tn w) [t_int] in
    let! w := tw_write w (tn w + 1) ((fun k => u8 (Z.shiftr u (8 * k))) <$> [0; 1; 2; 3; 4; 5; 6; 7]) in
    Ret (tw_n w (tn w + 9)).

Definition pc_tw_num (w : pc_tw) (text : bytes) : outcome pc_tw :=
  if zlen text >? 0xffff then Ret (tw_over w)
  else
    let! (r, w) := room w (3 + zlen text) in
    if negb r then Ret (tw_over w)
    else
      let w := counted w false in
      let! w := tw_write w (tn w) [t_num; u8 (zlen text); u8 (Z.shiftr (zlen text) 8)] in
      let! w := tw_write w (tn w + 3) text in
      Ret (tw_n w (tn w + (3 + zlen text))).

Definition pc_tw_bulk (w : pc_tw) (p : bytes) : outcome pc_tw := lenitem (counted w false) t_bulk p.

Definition tag1 (w : pc_tw) (t : Z) : outcome pc_tw :=
  let! (r, w) := room w 1 in
  if negb r then Ret w
  else
    let w := counted w false in
    let! w := tw_write w (tn w) [t] in
    Ret (tw_n w (tn w + 1)).

Definition pc_tw_bool (w : pc_tw) (v : bool) : outcome pc_tw := tag1 w (if v then t_true else t_false).
Definition pc_tw_nil (w : pc_tw) : outcome pc_tw := tag1 w t_nil.
Definition pc_tw_ok (w : pc_tw) : outcome pc_tw := tag1 w t_ok.

Definition pc_tw_err (w : pc_tw) (line : bytes) : outcome pc_tw := lenitem (counted w false) t_err line.

Definition pc_tw_raw (w : pc_tw) (item : bytes) : outcome pc_tw :=
  let! (r, w) := room w (zlen item) in
  if negb r then Ret w
  else
    let w := counted w false in
    let! w := tw_write w (tn w) item in
    Ret (tw_n w (tn w + zlen item)).

(** A C string: the calls that take one pass its bytes up to the NUL. *)
Definition pc_tw_key (w : pc_tw) (k : bytes) : outcome pc_tw := pc_tw_keyn w k.
Definition pc_tw_str (w : pc_tw) (s : bytes) : outcome pc_tw := pc_tw_bulk w s.

Definition pc_tw_mark_ (w : pc_tw) : pc_tw_mark :=
  mk_mark (tn w) (length (st w)) (match st w with o :: _ => o_cnt o | [] => 0 end).

Definition pc_tw_rollback (w : pc_tw) (m : pc_tw_mark) : pc_tw :=
  if (m_n m >? tn w) || bool_decide (length (st w) < m_depth m)%nat then w
  else
    let s := drop (length (st w) - m_depth m) (st w) in
    mk_tw (tb w) (m_n m) (tcap w) false (towned w)
      (match s with o :: s => mk_open (o_at o) (m_cnt m) (o_map o) :: s | [] => [] end).

Definition pc_tw_done (w : pc_tw) : Z := if over w || negb (zlen (st w) =? 0) then -1 else 0.

Definition pc_tw_to_heap (w : pc_tw) (cap : Z) : Z * pc_tw :=
  if negb (tn w =? 0) || towned w || negb (zlen (st w) =? 0) then (-1, w)
  else
    let cap := if cap <? 512 then 512 else cap in
    let cap := if cap >? PT_HEAP_MAX then PT_HEAP_MAX else cap in
    match mem cap with
    | None => (-1, w)
    | Some f => (0, mk_tw (block cap f) (tn w) cap (over w) true (st w))
    end.

End Writer.

(** * The reader *)

(** [tn_p] is the bytes [p] points at, [tn_len] of them. *)
Record pc_tn := mk_tn { tn_type : Z; tn_len : Z; tn_p : bytes; tn_i : Z; tn_next : Z }.

Inductive tv_err := E_mem | E_deep | E_trunc | E_key | E_tag | E_trailing.

(** The nodes [v->n[0 .. nn)] and the capacity of the array. *)
Record pc_tv := mk_tv { nodes : list pc_tn; vcap : Z }.

Inductive ires := IOk (me off : Z) | IErr (e : tv_err) | IOob.

Section Reader.
Context (mem : Z -> bool).

(** [None] is the -1 with "out of memory". *)
Definition node_add (v : pc_tv) : option (Z * pc_tv) :=
  let n0 := mk_tn 0 0 [] 0 0 in
  let add v := Some (zlen (nodes v), mk_tv (nodes v ++ [n0]) (vcap v)) in
  if zlen (nodes v) =? vcap v then
    let nc := if vcap v =? 0 then 32 else s32 (vcap v * 2) in
    if mem nc then add (mk_tv (nodes v) nc) else None
  else add v.

Definition tv_set (v : pc_tv) (me : Z) (f : pc_tn -> pc_tn) : pc_tv :=
  mk_tv (alter f (Z.to_nat me) (nodes v)) (vcap v).

Definition set_type (t : Z) (n : pc_tn) : pc_tn := mk_tn t (tn_len n) (tn_p n) (tn_i n) (tn_next n).
Definition set_len (l : Z) (n : pc_tn) : pc_tn := mk_tn (tn_type n) l (tn_p n) (tn_i n) (tn_next n).
Definition set_p (p : bytes) (n : pc_tn) : pc_tn := mk_tn (tn_type n) (tn_len n) p (tn_i n) (tn_next n).
Definition set_i (i : Z) (n : pc_tn) : pc_tn := mk_tn (tn_type n) (tn_len n) (tn_p n) i (tn_next n).
Definition set_next (x : Z) (n : pc_tn) : pc_tn := mk_tn (tn_type n) (tn_len n) (tn_p n) (tn_i n) x.

(** [for (k = 7; k >= 0; k--) u = u << 8 | b[o + k];] *)
Fixpoint int_bytes (b : bytes) (o : Z) (k : nat) (u : Z) : outcome Z :=
  match k with
  | O => Ret u
  | S k => let! x := byte_at b (o + Z.of_nat k) in int_bytes b o k (Z.lor (u64 (Z.shiftl u 8)) x)
  end.

(** The two bytes of a number's length. *)
Definition len16 (b : bytes) (o : Z) : outcome Z :=
  let! b0 := byte_at b o in
  let! b1 := byte_at b (o + 1) in
  Ret (Z.lor b0 (Z.shiftl b1 8)).

(** [v->n[me].next = v->nn; *off = o; return me;] *)
Definition item_done (v : pc_tv) (me o : Z) : pc_tv * ires :=
  (tv_set v me (set_next (zlen (nodes v))), IOk me o).

(** The run of [len] bytes at [o]: the span of a 'd', 'b' or 'e'. *)
Definition item_span (v : pc_tv) (b : bytes) (me o len : Z) : pc_tv * ires :=
  let v := tv_set v me (set_len len) in
  if zlen b - o <? len then (v, IErr E_trunc)
  else match sub_at b o len with
       | Ret s => item_done (tv_set v me (set_p s)) me (o + len)
       | _ => (v, IOob)
       end.

Fixpoint item (fuel : nat) (b : bytes) (v : pc_tv) (o depth : Z) {struct fuel} : pc_tv * ires :=
  match fuel with
  | O => (v, IOob)
  | S fuel =>
      let n := zlen b in
      if depth >? PT_DEPTH then (v, IErr E_deep)
      else if o >=? n then (v, IErr E_trunc)
      else
        match node_add v with
        | None => (v, IErr E_mem)
        | Some (me, v) =>
            match byte_at b o with
            | Ret t =>
                let v := tv_set v me (set_type t) in
                let o := o + 1 in
                if (t =? t_nil) || (t =? t_true) || (t =? t_false) || (t =? t_ok) then item_done v me o
                else if t =? t_int then
                  if n - o <? 8 then (v, IErr E_trunc)
                  else match int_bytes b o 8 0 with
                       | Ret u => item_done (tv_set v me (set_i (s64 u))) me (o + 8)
                       | _ => (v, IOob)
                       end
                else if t =? t_num then
                  if n - o <? 2 then (v, IErr E_trunc)
                  else match len16 b o with Ret l => item_span v b me (o + 2) l | _ => (v, IOob) end
                else if (t =? t_bulk) || (t =? t_err) then
                  if n - o <? 4 then (v, IErr E_trunc)
                  else match get32 (zdrop o b) with Ret l => item_span v b me (o + 4) l | _ => (v, IOob) end
                else if (t =? t_arr) || (t =? t_map) then
                  if n - o <? 4 then (v, IErr E_trunc)
                  else match get32 (zdrop o b) with
                       | Ret cnt =>
                           match items fuel b (tv_set v me (set_len cnt)) (o + 4) depth (t =? t_map) cnt with
                           | (v, IOk _ o) => item_done v me o
                           | r => r
                           end
                       | _ => (v, IOob)
                       end
                else (v, IErr E_tag)
            | _ => (v, IOob)
            end
        end
  end
(** The loop over a container's [todo] more items or pairs. *)
with items (fuel : nat) (b : bytes) (v : pc_tv) (o depth : Z) (mp : bool) (todo : Z) {struct fuel} : pc_tv * ires :=
  match fuel with
  | O => (v, IOob)
  | S fuel =>
      if todo <=? 0 then (v, IOk 0 o)
      else
        let value v o :=
          match item fuel b v o (depth + 1) with
          | (v, IOk _ o) => items fuel b v o depth mp (todo - 1)
          | r => r
          end in
        if mp then
          if o >=? zlen b then (v, IErr E_trunc)
          else match byte_at b o with
               | Ret t =>
                   if negb (t =? t_bulk) then (v, IErr E_key)
                   else match item fuel b v o (depth + 1) with
                        | (v, IOk _ o) => value v o
                        | r => r
                        end
               | _ => (v, IOob)
               end
        else value v o
  end.

(** The fuel the items of [n] bytes need. *)
Definition item_fuel (b : bytes) : nat := 2 * length b + 2.

(** 0, or -1 with the error. *)
Definition pc_tv_parse (v : pc_tv) (b : bytes) : pc_tv * ires :=
  match item (item_fuel b) b (mk_tv [] (vcap v)) 0 1 with
  | (v, IOk me off) => if negb (off =? zlen b) then (v, IErr E_trailing) else (v, IOk 0 off)
  | r => r
  end.

End Reader.

Definition pc_tv_free (v : pc_tv) : pc_tv := mk_tv [] 0.

(** ** The accessors *)

(** [v->n[k]]. *)
Definition node_at (v : pc_tv) (k : Z) : outcome pc_tn :=
  if k <? 0 then Oob else match nodes v !! Z.to_nat k with Some n => Ret n | None => Oob end.

(** [map < 0 || map >= v->nn], and the node otherwise. *)
Definition in_nodes (v : pc_tv) (k : Z) : bool := (0 <=? k) && (k <? zlen (nodes v)).

Fixpoint get_keys (v : pc_tv) (cnt : nat) (k : Z) (key : bytes) : outcome Z :=
  match cnt with
  | O => Ret (-1)
  | S cnt =>
      let! nk := node_at v k in
      let val := tn_next nk in
      if (tn_len nk =? zlen key) && bool_decide (ztake (zlen key) (tn_p nk) = key) then Ret val
      else let! nv := node_at v val in get_keys v cnt (tn_next nv) key
  end.

Definition pc_tv_get (v : pc_tv) (map : Z) (key : bytes) : outcome Z :=
  if negb (in_nodes v map) then Ret (-1)
  else
    let! n := node_at v map in
    if negb (tn_type n =? t_map) then Ret (-1) else get_keys v (Z.to_nat (tn_len n)) (map + 1) key.

(** [i] counts up to [idx]; [todo] is what is left of it. *)
Fixpoint at_loop (v : pc_tv) (mp : bool) (todo : nat) (k : Z) : outcome Z :=
  let! k := if mp then let! n := node_at v k in Ret (tn_next n) else Ret k in
  match todo with
  | O => Ret k
  | S todo => let! n := node_at v k in at_loop v mp todo (tn_next n)
  end.

Definition pc_tv_at (v : pc_tv) (arr idx : Z) : outcome Z :=
  if negb (in_nodes v arr) then Ret (-1)
  else
    let! n := node_at v arr in
    if (negb (tn_type n =? t_arr) && negb (tn_type n =? t_map)) || (idx >=? tn_len n) then Ret (-1)
    else at_loop v (tn_type n =? t_map) (Z.to_nat idx) (arr + 1).

Fixpoint key_loop (v : pc_tv) (todo : nat) (k : Z) : outcome Z :=
  match todo with
  | O => Ret k
  | S todo =>
      let! nk := node_at v k in
      let! nv := node_at v (tn_next nk) in
      key_loop v todo (tn_next nv)
  end.

Definition pc_tv_key_at (v : pc_tv) (map idx : Z) : outcome Z :=
  if negb (in_nodes v map) then Ret (-1)
  else
    let! n := node_at v map in
    if negb (tn_type n =? t_map) || (idx >=? tn_len n) then Ret (-1) else key_loop v (Z.to_nat idx) (map + 1).

(** [None] is the -1. *)
Definition pc_tv_get_str (v : pc_tv) (map : Z) (key : bytes) (cap : Z) : outcome (option bytes) :=
  let! k := pc_tv_get v map key in
  if k <? 0 then Ret None
  else
    let! n := node_at v k in
    if negb (tn_type n =? t_bulk) || (tn_len n >? cap) then Ret None else Ret (Some (tn_p n)).

(** [strtoll(s, &end, 10)] on a text that a NUL ends: the number as it stands and what is
    left at [end]; nothing is taken when there is no digit. *)
Definition is_space (c : Z) : bool := (c =? 32) || ((9 <=? c) && (c <=? 13)).

Fixpoint skip_space (s : bytes) : bytes :=
  match s with c :: s' => if is_space c then skip_space s' else s | [] => [] end.

Fixpoint dec_digits (s : bytes) (x : Z) : Z * bytes :=
  match s with
  | c :: s' => if is_digit c then dec_digits s' (x * 10 + (c - 48)) else (x, s)
  | [] => (x, [])
  end.

Definition strtoll_scan (s : bytes) : Z * bytes :=
  let t := skip_space s in
  let '(neg, u) :=
    match t with c :: u => if c =? 45 then (true, u) else if c =? 43 then (false, u) else (false, t) | [] => (false, t) end in
  match u with
  | c :: _ => if is_digit c then let '(x, r) := dec_digits u 0 in (if neg then - x else x, r) else (0, s)
  | [] => (0, s)
  end.

(** The value, the nearest a [long long] holds, and whether [errno] is set to ERANGE. *)
Definition strtoll (s : bytes) : Z * bytes :=
  let '(x, r) := strtoll_scan s in (Z.max (- 2 ^ 63) (Z.min (2 ^ 63 - 1) x), r).
Definition strtoll_erange (s : bytes) : bool :=
  let '(x, _) := strtoll_scan s in (x <? - 2 ^ 63) || (2 ^ 63 - 1 <? x).

(** The text up to its first NUL. *)
Fixpoint c_str (s : bytes) : bytes :=
  match s with c :: s => if c =? 0 then [] else c :: c_str s | [] => [] end.

Definition pc_tv_get_int (v : pc_tv) (map : Z) (key : bytes) : outcome (option Z) :=
  let! k := pc_tv_get v map key in
  if k <? 0 then Ret None
  else
    let! n := node_at v k in
    if tn_type n =? t_int then Ret (Some (tn_i n))
    else if negb (tn_type n =? t_num) || (tn_len n =? 0) || (tn_len n >=? 24) then Ret None
    else match strtoll (c_str (tn_p n)) with (x, []) => Ret (Some x) | _ => Ret None end.

Definition pc_tv_get_bool (v : pc_tv) (map : Z) (key : bytes) : outcome bool :=
  let! k := pc_tv_get v map key in
  if k <? 0 then Ret false else let! n := node_at v k in Ret (tn_type n =? t_true).

Definition pc_tv_streq (v : pc_tv) (k : Z) (s : bytes) : outcome bool :=
  if negb (in_nodes v k) then Ret false
  else
    let! n := node_at v k in
    Ret ((tn_type n =? t_bulk) && (tn_len n =? zlen s) && bool_decide (ztake (zlen s) (tn_p n) = s)).

(** * Trees *)

#[local] Arguments pc_p16 : simpl never.
#[local] Arguments pc_p32 : simpl never.
#[local] Arguments pc_p64 : simpl never.
#[local] Arguments put32 : simpl never.

Unset Elimination Schemes.
Inductive ptree :=
  | PInt (v : Z)
  | PNum (text : bytes)
  | PBulk (s : bytes)
  | PErr (line : bytes)
  | PNil
  | PBool (b : bool)
  | POk
  | PArr (l : list ptree)
  | PMap (l : list (bytes * ptree)).
Set Elimination Schemes.

(** The items of a container: a map's are its keys and its values in turn. *)
Definition flat (l : list (bytes * ptree)) : list ptree := flat_map (fun m => [PBulk m.1; m.2]) l.

Lemma ptree_ind (P : ptree -> Prop) :
  (forall v, P (PInt v)) -> (forall s, P (PNum s)) -> (forall s, P (PBulk s)) -> (forall s, P (PErr s)) ->
  P PNil -> (forall b, P (PBool b)) -> P POk ->
  (forall l, Forall P l -> P (PArr l)) -> (forall l, Forall P (flat l) -> P (PMap l)) -> forall v, P v.
Proof.
  intros Hi Hn Hb He Hl Ht Ho Ha Hm. fix IH 1. intros [v|s|s|s| |b| |l|l]; [apply Hi|apply Hn|apply Hb|apply He|apply Hl|apply Ht|apply Ho| |].
  - apply Ha. revert l. fix IHl 1. intros [|v l]; constructor; [apply IH|apply IHl].
  - apply Hm. revert l. fix IHl 1. intros [|[k v] l]; constructor; [apply Hb|]. constructor; [apply IH|apply IHl].
Qed.

(** The bytes of a tree. *)
Fixpoint encode (v : ptree) : bytes :=
  match v with
  | PInt x => t_int :: pc_p64 (u64 x)
  | PNum s => t_num :: pc_p16 (zlen s) ++ s
  | PBulk s => t_bulk :: pc_p32 (zlen s) ++ s
  | PErr s => t_err :: pc_p32 (zlen s) ++ s
  | PNil => [t_nil]
  | PBool b => [if b then t_true else t_false]
  | POk => [t_ok]
  | PArr l => t_arr :: pc_p32 (zlen l) ++ flat_map encode l
  | PMap l => t_map :: pc_p32 (zlen l) ++ flat_map (fun m => (t_bulk :: pc_p32 (zlen m.1) ++ m.1) ++ encode m.2) l
  end.

Lemma encode_map l : encode (PMap l) = t_map :: pc_p32 (zlen l) ++ flat_map encode (flat l).
Proof.
  cbn [encode]. do 2 f_equal. induction l as [|[k v] l IH]; [done|]. simpl in *. by rewrite IH, <- !app_assoc.
Qed.

(** Nesting: a tree's levels, and its levels of containers. *)
Fixpoint levels (v : ptree) : Z :=
  match v with
  | PArr l => 1 + foldr (fun v d => Z.max (levels v) d) 0 l
  | PMap l => 1 + foldr (fun m d => Z.max (Z.max 1 (levels m.2)) d) 0 l
  | _ => 1
  end.

Fixpoint nest (v : ptree) : Z :=
  match v with
  | PArr l => 1 + foldr (fun v d => Z.max (nest v) d) 0 l
  | PMap l => 1 + foldr (fun m d => Z.max (nest m.2) d) 0 l
  | _ => 0
  end.

Definition levels_of (l : list ptree) : Z := foldr (fun v d => Z.max (levels v) d) 0 l.
Definition nest_of (l : list ptree) : Z := foldr (fun v d => Z.max (nest v) d) 0 l.

Lemma levels_of_pos l : 0 <= levels_of l.
Proof. induction l; simpl; unfold levels_of in *; lia. Qed.
Lemma nest_of_pos l : 0 <= nest_of l.
Proof. induction l; simpl; unfold nest_of in *; lia. Qed.

Lemma levels_map l : levels (PMap l) = 1 + levels_of (flat l).
Proof.
  cbn [levels]. f_equal. induction l as [|[k v] l IH]; [done|]. cbn. rewrite IH.
  pose proof (levels_of_pos (flat l)). unfold levels_of, flat in *. lia.
Qed.

Lemma nest_map l : nest (PMap l) = 1 + nest_of (flat l).
Proof.
  cbn [nest]. f_equal. induction l as [|[k v] l IH]; [done|]. cbn. rewrite IH.
  pose proof (nest_of_pos (flat l)). unfold nest_of, flat in *. lia.
Qed.

(** What fits the fields of the format. *)
Fixpoint tree_ok (v : ptree) : Prop :=
  match v with
  | PInt x => is_s64 x
  | PNum s => zlen s < 2 ^ 16
  | PBulk s | PErr s => zlen s < 2 ^ 32
  | PArr l => zlen l < 2 ^ 32 /\ foldr (fun v P => tree_ok v /\ P) True l
  | PMap l => zlen l < 2 ^ 32 /\ foldr (fun m P => (zlen m.1 < 2 ^ 32 /\ tree_ok m.2) /\ P) True l
  | _ => True
  end.

Definition trees_ok (l : list ptree) : Prop := Forall tree_ok l.

Lemma tree_ok_arr l : tree_ok (PArr l) <-> zlen l < 2 ^ 32 /\ trees_ok l.
Proof.
  simpl. apply and_iff_compat_l. unfold trees_ok. induction l as [|v l IH]; simpl; [split; constructor|].
  rewrite list.Forall_cons. by rewrite IH.
Qed.

Lemma tree_ok_map l : tree_ok (PMap l) <-> zlen l < 2 ^ 32 /\ trees_ok (flat l).
Proof.
  simpl. apply and_iff_compat_l. unfold trees_ok. induction l as [|[k v] l IH]; simpl; [split; constructor|].
  rewrite !list.Forall_cons. rewrite IH. simpl. tauto.
Qed.

(** The nodes of a tree, the first at index [i]. *)
Fixpoint count (v : ptree) : Z :=
  match v with
  | PArr l => 1 + foldr (fun v n => count v + n) 0 l
  | PMap l => 1 + foldr (fun m n => 1 + count m.2 + n) 0 l
  | _ => 1
  end.
Definition counts (l : list ptree) : Z := foldr (fun v n => count v + n) 0 l.

Fixpoint nodes_of (v : ptree) (i : Z) : list pc_tn :=
  let nx := i + count v in
  match v with
  | PInt x => [mk_tn t_int 0 [] x nx]
  | PNum s => [mk_tn t_num (zlen s) s 0 nx]
  | PBulk s => [mk_tn t_bulk (zlen s) s 0 nx]
  | PErr s => [mk_tn t_err (zlen s) s 0 nx]
  | PNil => [mk_tn t_nil 0 [] 0 nx]
  | PBool b => [mk_tn (if b then t_true else t_false) 0 [] 0 nx]
  | POk => [mk_tn t_ok 0 [] 0 nx]
  | PArr l =>
      mk_tn t_arr (zlen l) [] 0 nx ::
      (fix go (l : list ptree) (j : Z) : list pc_tn :=
         match l with [] => [] | v :: l => nodes_of v j ++ go l (j + count v) end) l (i + 1)
  | PMap l =>
      mk_tn t_map (zlen l) [] 0 nx ::
      (fix go (l : list (bytes * ptree)) (j : Z) : list pc_tn :=
         match l with
         | [] => []
         | (k, v) :: l => mk_tn t_bulk (zlen k) k 0 (j + 1) :: nodes_of v (j + 1) ++ go l (j + 1 + count v)
         end) l (i + 1)
  end.

Fixpoint forest (l : list ptree) (j : Z) : list pc_tn :=
  match l with [] => [] | v :: l => nodes_of v j ++ forest l (j + count v) end.

Lemma count_map l : count (PMap l) = 1 + counts (flat l).
Proof. simpl. f_equal. induction l as [|[k v] l IH]; [done|]. simpl in *. rewrite IH. lia. Qed.

Lemma nodes_arr l i : nodes_of (PArr l) i = mk_tn t_arr (zlen l) [] 0 (i + count (PArr l)) :: forest l (i + 1).
Proof. done. Qed.

Lemma nodes_map l i : nodes_of (PMap l) i = mk_tn t_map (zlen l) [] 0 (i + count (PMap l)) :: forest (flat l) (i + 1).
Proof.
  cbn [nodes_of]. f_equal. generalize (i + 1). induction l as [|[k v] l IH]; intros j; [done|]. simpl. by rewrite IH.
Qed.

Lemma forest_app l k j : forest (l ++ k) j = forest l j ++ forest k (j + counts l).
Proof.
  revert j. induction l as [|v l IH]; intros j; simpl; [f_equal; lia|]. rewrite IH, <- app_assoc. do 2 f_equal. f_equal.
  unfold counts. simpl. lia.
Qed.

Lemma counts_pos l : Forall (fun v => 1 <= count v) l -> 0 <= counts l.
Proof. induction 1; simpl; unfold counts in *; lia. Qed.

Lemma count_ge1 v : 1 <= count v.
Proof.
  induction v as [| | | | | | |l Hl|l Hl] using ptree_ind; try (simpl; lia).
  - pose proof (counts_pos _ Hl). cbn [count]. unfold counts in *. lia.
  - pose proof (counts_pos _ Hl). rewrite count_map. lia.
Qed.

Lemma forest_len l j : Forall (fun v => forall i, zlen (nodes_of v i) = count v) l -> zlen (forest l j) = counts l.
Proof.
  intros H. revert j. induction H as [|v l Hv Hl IH]; intros j; [done|]. simpl. rewrite zlen_app, Hv, IH. done.
Qed.

Lemma nodes_len v : forall i, zlen (nodes_of v i) = count v.
Proof.
  induction v as [| | | | | | |l Hl|l Hl] using ptree_ind; intros i; try done.
  - rewrite nodes_arr, zlen_cons, (forest_len _ _ Hl). done.
  - rewrite nodes_map, zlen_cons, (forest_len _ _ Hl), count_map. done.
Qed.

Lemma zlen_forest l j : zlen (forest l j) = counts l.
Proof. apply forest_len, Forall_forall. intros v _. apply nodes_len. Qed.

(** * The writer writes the tree *)

(** The bytes written so far. *)
Definition written (w : pc_tw) : bytes := ztake (tn w) (tb w).

Record tw_ok (w : pc_tw) : Prop := {
  tk_buf : zlen (tb w) = tcap w;
  tk_n : 0 <= tn w <= tcap w;
  tk_cap : tcap w < 2 ^ 62;
  tk_heap : towned w = true -> tcap w <= PT_HEAP_MAX;
  tk_depth : zlen (st w) <= PT_DEPTH;
  tk_open : Forall (fun o => 0 <= o_at o /\ o_at o + 4 <= tcap w) (st w)
}.

Definition bump (s : list pt_open) (is_key : bool) : list pt_open :=
  match s with
  | o :: s' => if eqb (o_map o) is_key then mk_open (o_at o) (u32 (o_cnt o + 1)) (o_map o) :: s' else s
  | [] => []
  end.

Lemma counted_bump w k : counted w k = tw_st w (bump (st w) k).
Proof. destruct w as [b n c o ow [|f s]]; [done|]. unfold counted, bump; simpl. by destruct (eqb _ _). Qed.

Lemma bumped_len s k : zlen (bump s k) = zlen s.
Proof. destruct s as [|o s]; [done|]. simpl. by destruct (eqb _ _). Qed.

Lemma bump_ok c s k : Forall (fun o => 0 <= o_at o /\ o_at o + 4 <= c) s -> Forall (fun o => 0 <= o_at o /\ o_at o + 4 <= c) (bump s k).
Proof. destruct 1 as [|o s Ho Hs]; simpl; [constructor|]. destruct (eqb _ _); constructor; auto. Qed.

(** Two byte strings equal byte by byte. *)
Ltac word_list := repeat (apply (f_equal2 cons); [rewrite ?shiftr_div by lia; word_lia|]); done.

Lemma put32_p32 v : put32 v = pc_p32 v.
Proof. unfold put32, pc_p32, pc_p16. cbn [app]. word_list. Qed.

Lemma p32_u32 v : pc_p32 (u32 v) = pc_p32 v.
Proof. unfold pc_p32, pc_p16. cbn [app]. word_list. Qed.

Lemma int_p64 u : ((fun k => u8 (Z.shiftr u (8 * k))) <$> [0; 1; 2; 3; 4; 5; 6; 7]) = pc_p64 u.
Proof.
  unfold pc_p64, pc_p32, pc_p16. cbn -[Z.shiftr u8 u16 u32]. word_list.
Qed.

Lemma block_len n f : 0 <= n -> zlen (block n f) = n.
Proof. intros. unfold block, zlen. rewrite length_fmap, length_seq. lia. Qed.

Lemma realloc_len b n f : 0 <= n -> zlen (realloc b n f) = n.
Proof. intros. unfold realloc. rewrite zlen_ztake, zlen_app, block_len by done. pose proof (zlen_nonneg b). lia. Qed.

Lemma realloc_keeps b n f k : k <= zlen b -> k <= n -> ztake k (realloc b n f) = ztake k b.
Proof.
  intros. unfold realloc, ztake. rewrite take_take, Nat.min_l by lia. rewrite take_app_le; [done|]. unfold zlen in *. lia.
Qed.

Lemma grow_ok fuel : forall nc n k, 0 < nc <= PT_HEAP_MAX -> 0 <= n <= nc -> 0 <= k -> n + k <= PT_HEAP_MAX ->
  PT_HEAP_MAX <= nc * 2 ^ Z.of_nat fuel -> exists c, grow fuel nc n k = Ret c /\ nc <= c /\ n + k <= c < 2 ^ 62.
Proof.
  change PT_HEAP_MAX with 16777216.
  induction fuel as [|fuel IH]; intros nc n k Hc Hn Hk Hs Hf; cbn [grow]; rewrite u64_id by word_lia.
  - change (2 ^ Z.of_nat 0) with 1 in Hf. rewrite (proj2 (Z.ltb_ge _ _)) by lia. exists nc. split; [done|lia].
  - destruct (Z.ltb_spec (nc - n) k) as [Hlt|Hge]; [|exists nc; split; [done|lia]].
    rewrite Nat2Z.inj_succ, Z.pow_succ_r in Hf by lia. rewrite u64_id by word_lia.
    destruct (decide (nc * 2 <= 16777216)).
    + destruct (IH (nc * 2) n k) as (c & E & H1 & H2); [lia..|]. exists c. split; [done|lia].
    + exists (nc * 2). destruct fuel; cbn [grow]; rewrite u64_id by word_lia; rewrite (proj2 (Z.ltb_ge _ _)) by lia; (split; [done|lia]).
Qed.

Section WriterProofs.
Context (mem : Z -> option (nat -> Z)).

(** [w'] is [w] with [s] appended and the open containers [st'], unless it overflowed;
    it does not when [s] fits and [d] more containers may be open. *)
Record puts (w : pc_tw) (s : bytes) (d : Z) (st' : list pt_open) (w' : pc_tw) : Prop := {
  pu_ok : tw_ok w';
  pu_own : towned w' = towned w;
  pu_cap : tcap w <= tcap w' /\ (towned w = false -> tcap w' = tcap w);
  pu_over : over w = true -> over w' = true;
  pu_text : over w' = false -> written w' = written w ++ s /\ st w' = st' /\ tn w' = tn w + zlen s;
  pu_deep : over w' = false -> zlen (st w) + d <= PT_DEPTH;
  pu_room : over w = false -> zlen (st w) + d <= PT_DEPTH -> tn w + zlen s <= tcap w -> over w' = false;
  pu_heap : over w = false -> zlen (st w) + d <= PT_DEPTH -> towned w = true -> (forall c, mem c <> None) ->
    tn w + zlen s <= PT_HEAP_MAX -> over w' = false
}.

Lemma puts_over w s d st' w' : tw_ok w' -> towned w' = towned w -> tcap w' = tcap w -> over w' = true ->
  (over w = true \/ PT_DEPTH < zlen (st w) + d \/
    (tcap w < tn w + zlen s /\ (towned w = true -> (forall c, mem c <> None) -> PT_HEAP_MAX < tn w + zlen s))) ->
  puts w s d st' w'.
Proof. intros Hok Hw Hc Ho Hwhy. split; try done; try congruence; try lia; intros; exfalso; destruct Hwhy as [?|[?|[? ?]]]; try congruence; try lia; intuition lia. Qed.

Lemma puts_app w s d st1 w1 e s' d' st2 w2 :
  puts w s d st1 w1 -> puts w1 s' d' st2 w2 -> zlen st1 = zlen (st w) + e -> puts w (s ++ s') (Z.max d (d' + e)) st2 w2.
Proof.
  intros P Q He. pose proof (zlen_nonneg s). pose proof (zlen_nonneg s').
  destruct P as [Pk Po [Pc Pc'] Pv Pt Pd Pr Ph], Q as [Qk Qo [Qc Qc'] Qv Qt Qd Qr Qh].
  assert (over w2 = false -> over w1 = false) as Hb by (intros E; destruct (over w1); [by rewrite Qv in E|done]).
  split; try done.
  - congruence.
  - split; [lia|]. intros E. rewrite Qc' by congruence. by apply Pc'.
  - auto.
  - intros E. destruct (Qt E) as (-> & -> & ->), (Pt (Hb E)) as (-> & _ & ->). rewrite app_assoc, zlen_app. split_and!; [done|done|lia].
  - intros E. specialize (Qd E). specialize (Pd (Hb E)). destruct (Pt (Hb E)) as (_ & E1 & _). rewrite E1 in Qd. lia.
  - intros E Hd Hr. rewrite zlen_app in Hr. assert (over w1 = false) as E1 by (apply Pr; [done|lia..]).
    destruct (Pt E1) as (_ & Es & En). apply Qr; [done|rewrite Es; lia|lia].
  - intros E Hd Hw Hm Hr. rewrite zlen_app in Hr. assert (over w1 = false) as E1 by (apply Ph; [done|lia|done..|lia]).
    destruct (Pt E1) as (_ & Es & En). apply Qh; [done|rewrite Es; lia|congruence|done|lia].
Qed.

Lemma puts_nil w : tw_ok w -> puts w [] 0 (st w) w.
Proof. intros Hok. split; try done; intros; [by rewrite app_nil_r, zlen_nil, Z.add_0_r|destruct Hok; lia]. Qed.

(** What [room] answers. *)
Record roomy (w : pc_tw) (k : Z) (r : bool) (w' : pc_tw) : Prop := {
  ro_ok : tw_ok w';
  ro_same : tn w' = tn w /\ st w' = st w /\ towned w' = towned w /\ written w' = written w;
  ro_cap : tcap w <= tcap w' /\ (towned w = false \/ r = false -> tcap w' = tcap w);
  ro_yes : r = true -> over w = false /\ over w' = false /\ tn w + k <= tcap w';
  ro_no : r = false -> over w' = true /\
    (over w = true \/ (tcap w < tn w + k /\ (towned w = true -> (forall c, mem c <> None) -> PT_HEAP_MAX < tn w + k)))
}.

Lemma tw_over_ok w : tw_ok w -> tw_ok (tw_over w).
Proof. by intros [? ? ? ? ? ?]. Qed.

Lemma tw_st_ok w s : tw_ok w -> zlen s <= PT_DEPTH -> Forall (fun o => 0 <= o_at o /\ o_at o + 4 <= tcap w) s -> tw_ok (tw_st w s).
Proof. by intros [? ? ? ? ? ?] ? ?. Qed.

Lemma roomy_no w k : tw_ok w ->
  (over w = true \/ (tcap w < tn w + k /\ (towned w = true -> (forall c, mem c <> None) -> PT_HEAP_MAX < tn w + k))) ->
  roomy w k false (tw_over w).
Proof. intros Hok Hwhy. split; try done. by apply tw_over_ok. Qed.

Lemma room_ok w k : tw_ok w -> 0 <= k < 2 ^ 62 -> exists r w', room mem w k = Ret (r, w') /\ roomy w k r w'.
Proof.
  intros Hok Hk. pose proof Hok as [Hb Hn Hc Hh Hd Ho]. unfold room. destruct (over w) eqn:Eo.
  { exists false, (tw_over w). split; [destruct w; simpl in *; by subst|]. apply roomy_no; auto. }
  rewrite u64_id by word_lia. rewrite Z.geb_leb. destruct (Z.leb_spec k (tcap w - tn w)) as [Hfit|Hnot].
  { exists true, w. split; [done|]. split; try done. intros _. split_and!; [done..|lia]. }
  rewrite u64_id by word_lia. destruct (towned w) eqn:Ew; cbn [negb orb].
  2: { exists false, (tw_over w). split; [done|]. apply roomy_no; [done|]. right. split; [lia|congruence]. }
  rewrite Z.gtb_ltb. destruct (Z.ltb_spec PT_HEAP_MAX (tn w + k)) as [Hbig|Hsm].
  { exists false, (tw_over w). split; [done|]. apply roomy_no; [done|]. right. split; [lia|done]. }
  specialize (Hh eq_refl). change PT_HEAP_MAX with 16777216 in *.
  destruct (grow_ok 64 (if tcap w =? 0 then 512 else tcap w) (tn w) k) as (c & -> & Hc1 & Hc2);
    change PT_HEAP_MAX with 16777216 in *; [destruct (Z.eqb_spec (tcap w) 0); lia..| |].
  { change (2 ^ Z.of_nat 64) with 18446744073709551616. destruct (Z.eqb_spec (tcap w) 0); lia. }
  cbn [obind]. set (nc := if c >? 16777216 then 16777216 else c).
  assert (tcap w <= nc /\ tn w + k <= nc <= 16777216) as Hnc.
  { subst nc. rewrite Z.gtb_ltb. destruct (Z.eqb_spec (tcap w) 0), (Z.ltb_spec 16777216 c); lia. }
  destruct (mem nc) as [f|] eqn:Em.
  - exists true. eexists. split; [done|]. split; simpl; try done.
    + split; simpl; try done; [apply realloc_len; lia|lia|lia|change PT_HEAP_MAX with 16777216; lia|].
      eapply list.Forall_impl; [exact Ho|]. simpl. lia.
    + split_and!; [done..|]. unfold written. simpl. apply realloc_keeps; lia.
    + split; [lia|]. intros [?|?]; [congruence|done].
    + intros _. split_and!; [done|done|lia].
  - exists false, (tw_over w). split; [done|]. apply roomy_no; [done|]. right.
    split; [lia|]. intros _ H. by specialize (H nc).
Qed.

(** A store at the end of what is written, made part of it. *)
Lemma write_end w s : tw_ok w -> tn w + zlen s <= tcap w -> exists w1, tw_write w (tn w) s = Ret w1 /\
  tw_ok w1 /\ tcap w1 = tcap w /\ towned w1 = towned w /\ over w1 = over w /\ st w1 = st w /\ tn w1 = tn w /\
  ztake (tn w + zlen s) (tb w1) = written w ++ s.
Proof.
  intros Hok Hs. pose proof Hok as [Hb Hn Hc Hh Hd Ho]. pose proof (zlen_nonneg s). unfold tw_write. rewrite !(proj2 (Z.leb_le _ _)) by lia. simpl.
  eexists. split; [done|]. simpl. split_and!; try done.
  - split; simpl; try done. by rewrite blit_len by lia.
  - unfold blit, written. rewrite app_assoc. apply ztake_app. rewrite zlen_app, zlen_ztake. lia.
Qed.

(** Two stores one behind the other are one. *)
Lemma write_write {A} w at_ s t (k : pc_tw -> outcome A) : tw_ok w -> 0 <= at_ -> at_ + zlen s + zlen t <= tcap w ->
  (let! w1 := tw_write w at_ s in let! w2 := tw_write w1 (at_ + zlen s) t in k w2) = (let! w2 := tw_write w at_ (s ++ t) in k w2).
Proof.
  intros [Hb _ _ _ _ _] H0 Hl. pose proof (zlen_nonneg s). pose proof (zlen_nonneg t). unfold tw_write at 1 3. rewrite zlen_app.
  rewrite !(proj2 (Z.leb_le _ _)) by lia. cbn [obind andb]. unfold tw_write. cbn [tb]. rewrite blit_len by lia.
  rewrite !(proj2 (Z.leb_le _ _)) by lia. cbn. do 2 f_equal. unfold blit.
  assert (ztake at_ (tb w) ++ s ++ zdrop (at_ + zlen s) (tb w) = (ztake at_ (tb w) ++ s) ++ zdrop (at_ + zlen s) (tb w)) as -> by by rewrite app_assoc.
  assert (zlen (ztake at_ (tb w) ++ s) = at_ + zlen s) as Hz by (rewrite zlen_app, zlen_ztake; lia).
  rewrite ztake_app by done. rewrite zdrop_app_ge by lia. rewrite Hz, zdrop_zdrop by lia. rewrite <- !app_assoc. rewrite zlen_app. do 4 f_equal. lia.
Qed.

(** A store at the end and the step over it. *)
Definition emit (w : pc_tw) (s : bytes) : outcome pc_tw :=
  let! w := tw_write w (tn w) s in Ret (tw_n w (tn w + zlen s)).

Lemma write_emit w s t a b : tw_ok w -> tn w + b <= tcap w -> a = zlen s -> b = a + zlen t ->
  (let! w1 := tw_write w (tn w) s in let! w2 := tw_write w1 (tn w1 + a) t in Ret (tw_n w2 (tn w2 + b))) = emit w (s ++ t).
Proof.
  intros Hok Hl -> ->. unfold emit. rewrite zlen_app. rewrite <- (write_write w (tn w) s t) by (try done; destruct Hok; lia).
  unfold tw_write at 1 3. by destruct ((0 <=? tn w) && _).
Qed.

Lemma emit_puts w s w1 s1 : roomy w (zlen s) true w1 -> zlen s1 = zlen (st w) -> 
  Forall (fun o => 0 <= o_at o /\ o_at o + 4 <= tcap w1) s1 ->
  exists w', emit (tw_st w1 s1) s = Ret w' /\ puts w s 0 s1 w'.
Proof.
  intros [Hok (En & Es & Eo & Ew) [Hc1 Hc2] Hy _] Hl Hf. destruct (Hy eq_refl) as (Ov & Ov1 & Hr). pose proof (zlen_nonneg s). pose proof Hok as [Hb Hn Hcap Hh Hd Ho].
  assert (tw_ok (tw_st w1 s1)) as Hok1 by (apply tw_st_ok; [done| |done]; rewrite Hl, <- Es; done).
  destruct (write_end (tw_st w1 s1) s) as (w2 & E & Hok2 & H1 & H2 & H3 & H4 & H5 & H6); [done|simpl; lia|].
  unfold emit. rewrite E. cbn [obind]. eexists. split; [done|]. simpl in *. pose proof Hok2 as [Jb Jn Jc Jh Jd Jo].
  split; simpl; try congruence.
  - split; simpl; try done; lia.
  - split; [lia|]. intros ?. rewrite H1. auto.
  - intros _. rewrite H4, H5, En. split_and!; try done. unfold written at 1. simpl. rewrite ?H5, ?En. rewrite <- Ew, <- En. exact H6.
  - intros _. rewrite <- Es. lia.
Qed.

Lemma refuse_puts w s w1 st' : roomy w (zlen s) false w1 -> puts w s 0 st' w1.
Proof.
  intros [Hok (En & Es & Eo & Ew) [Hc1 Hc2] _ Hn]. destruct (Hn eq_refl) as (Ov & Hwhy).
  apply puts_over; auto. destruct Hwhy; auto.
Qed.

Lemma puts_tw_over w s d st' w1 : puts w s d st' w1 -> over w1 = true -> puts w s d st' (tw_over w1).
Proof. intros [Pk Po Pc Pv Pt Pd Pr Ph] Ho. split; try done; [by apply tw_over_ok|..]; simpl; intros; try done; exfalso; [specialize (Pr H H0 H1)|specialize (Ph H H0 H1 H2 H3)]; congruence. Qed.

Lemma puts_st w s1 x d st' w' : puts (tw_st w s1) x d st' w' -> zlen s1 = zlen (st w) -> puts w x d st' w'.
Proof. intros [Pk Po Pc Pv Pt Pd Pr Ph] E. simpl in *. rewrite E in *. by split. Qed.

Lemma bump_st_ok w k : tw_ok w -> Forall (fun o => 0 <= o_at o /\ o_at o + 4 <= tcap w) (bump (st w) k).
Proof. intros [? ? ? ? ? ?]. by apply bump_ok. Qed.

(** Proves that an operation puts its bytes: [room], then the stores. *)
Ltac puts_op w k :=
  let r := fresh "r" in let w1 := fresh "w1" in let R := fresh "R" in let E := fresh "E" in
  destruct (room_ok w k) as (r & w1 & E & R); [done|pose_lens; lia|]; rewrite E; cbn [obind]; clear E;
  destruct r; cbn [negb]; [|eexists; split; [done|]].

Lemma counted_ok w k : tw_ok w -> tw_ok (counted w k).
Proof. intros Hok. rewrite counted_bump. apply tw_st_ok; [done|rewrite bumped_len; apply Hok|by apply bump_st_ok]. Qed.

(** The containers after an item are those of the room's answer with one more counted. *)
Lemma emit_bump w s w1 : roomy w (zlen s) true w1 -> exists w', emit (counted w1 false) s = Ret w' /\ puts w s 0 (bump (st w) false) w'.
Proof.
  intros R. rewrite counted_bump. pose proof (ro_ok _ _ _ _ R) as Hok. destruct (ro_same _ _ _ _ R) as (_ & Es & _).
  rewrite <- Es. apply emit_puts; [done|by rewrite bumped_len, Es|by apply bump_st_ok].
Qed.

Lemma tag1_puts w t : tw_ok w -> exists w', tag1 mem w t = Ret w' /\ puts w [t] 0 (bump (st w) false) w'.
Proof. intros Hok. unfold tag1. puts_op w 1; [by apply (emit_bump w [t])|by apply (refuse_puts w [t])]. Qed.

Lemma i64_puts w v : tw_ok w -> exists w', pc_tw_i64 mem w v = Ret w' /\ puts w (encode (PInt v)) 0 (bump (st w) false) w'.
Proof.
  intros Hok. unfold pc_tw_i64. puts_op w 9; [|by apply (refuse_puts w (encode (PInt v)))].
  rewrite int_p64. destruct (ro_yes _ _ _ _ R eq_refl) as (_ & _ & Hr). destruct (ro_same _ _ _ _ R) as (En & _).
  rewrite (write_emit (counted w1 false) [t_int] (pc_p64 (u64 v)) 1 9); [| | |done|done].
  - by apply (emit_bump w (encode (PInt v))).
  - by apply counted_ok, (ro_ok _ _ _ _ R).
  - rewrite counted_bump. simpl. lia.
Qed.

Lemma num_puts w s : tw_ok w -> zlen s < 2 ^ 16 -> exists w', pc_tw_num mem w s = Ret w' /\ puts w (encode (PNum s)) 0 (bump (st w) false) w'.
Proof.
  intros Hok Hs. assert (zlen (encode (PNum s)) = 3 + zlen s) as Hz by (simpl; zlens; lia). unfold pc_tw_num.
  rewrite Z.gtb_ltb, (proj2 (Z.ltb_ge _ _)) by lia. puts_op w (3 + zlen s).
  2: { rewrite <- Hz in R. apply puts_tw_over; [by apply refuse_puts|]. by apply (ro_no _ _ _ _ R). }
  destruct (ro_yes _ _ _ _ R eq_refl) as (_ & _ & Hr). destruct (ro_same _ _ _ _ R) as (En & _).
  rewrite (write_emit (counted w1 false) [t_num; u8 (zlen s); u8 (zlen s ≫ 8)] s 3 (3 + zlen s)); [| | |done|done].
  - rewrite <- Hz in R. by apply (emit_bump w (encode (PNum s))).
  - by apply counted_ok, (ro_ok _ _ _ _ R).
  - rewrite counted_bump. simpl. lia.
Qed.

Lemma lenitem_puts w t s : tw_ok w -> zlen s < 2 ^ 32 ->
  exists w', lenitem mem w t s = Ret w' /\ puts w (t :: pc_p32 (zlen s) ++ s) 0 (st w) w'.
Proof.
  intros Hok Hs. assert (zlen (t :: pc_p32 (zlen s) ++ s) = 5 + zlen s) as Hz by (zlens; lia). unfold lenitem.
  rewrite Z.gtb_ltb, (proj2 (Z.ltb_ge _ _)) by lia. puts_op w (5 + zlen s).
  2: { rewrite <- Hz in R. apply puts_tw_over; [by apply refuse_puts|]. by apply (ro_no _ _ _ _ R). }
  destruct (ro_yes _ _ _ _ R eq_refl) as (_ & _ & Hr). destruct (ro_same _ _ _ _ R) as (En & Es & _). pose proof (ro_ok _ _ _ _ R) as Hok1.
  pose proof (zlen_nonneg s). rewrite put32_p32.
  assert (tw_st w1 (st w1) = w1) as Hst by by destruct w1.
  assert ((let! w := tw_write w1 (tn w1) [t] in
    let! w := tw_write w (tn w + 1) (pc_p32 (zlen s)) in
    let! w := if zlen s =? 0 then Ret w else tw_write w (tn w + 5) s in Ret (tw_n w (tn w + (5 + zlen s)))) = emit w1 (t :: pc_p32 (zlen s) ++ s)) as ->.
  { destruct (Z.eqb_spec (zlen s) 0) as [E|Hne].
    - apply zlen_zero in E as ->. rewrite app_nil_r. cbn [obind]. apply (write_emit w1 [t]); [done|zlens; lia|done|done].
    - change (t :: pc_p32 (zlen s) ++ s) with ((t :: pc_p32 (zlen s)) ++ s). rewrite <- (write_emit w1 (t :: pc_p32 (zlen s)) s 5 (5 + zlen s)) by (try done; zlens; lia).
      change (t :: pc_p32 (zlen s)) with ([t] ++ pc_p32 (zlen s)).
      rewrite <- (write_write w1 (tn w1) [t] (pc_p32 (zlen s))) by (try done; zlens; destruct Hok1; lia).
      unfold tw_write at 1 4. by destruct ((0 <=? tn w1) && _). }
  rewrite <- Hst. rewrite <- Es. apply emit_puts; [by rewrite Hz|by rewrite Es|by destruct Hok1].
Qed.

Lemma bulk_puts w t s : tw_ok w -> zlen s < 2 ^ 32 ->
  exists w', lenitem mem (counted w false) t s = Ret w' /\ puts w (t :: pc_p32 (zlen s) ++ s) 0 (bump (st w) false) w'.
Proof.
  intros Hok Hs. destruct (lenitem_puts (counted w false) t s) as (w' & E & P); [by apply counted_ok|done|]. exists w'. split; [done|].
  rewrite counted_bump in P. simpl in P. eapply puts_st; [done|]. apply bumped_len.
Qed.

Lemma keyn_puts w k o s : tw_ok w -> zlen k < 2 ^ 32 -> st w = o :: s -> o_map o = true ->
  exists w', pc_tw_keyn mem w k = Ret w' /\ puts w (encode (PBulk k)) 0 (bump (st w) true) w'.
Proof.
  intros Hok Hs Es Eo. assert (pc_tw_keyn mem w k = lenitem mem (counted w true) t_bulk k) as -> by (unfold pc_tw_keyn; by rewrite Es, Eo).
  destruct (lenitem_puts (counted w true) t_bulk k) as (w' & E & P); [by apply counted_ok|done|]. exists w'. split; [done|].
  rewrite counted_bump in P. simpl in P. eapply puts_st; [done|]. apply bumped_len.
Qed.

(** An opened container: its tag and four bytes for the count. *)
Lemma open_puts w t mp : tw_ok w -> exists w' j, open_c mem w t mp = Ret w' /\ zlen j = 4 /\
  puts w (t :: j) 1 (mk_open (tn w + 1) 0 mp :: bump (st w) false) w'.
Proof.
  intros Hok. unfold open_c. rewrite Z.geb_leb. destruct (Z.leb_spec PT_DEPTH (zlen (st w))) as [Hd|Hd].
  { exists (tw_over w), [0; 0; 0; 0]. split_and!; [done|done|]. apply puts_over; [by apply tw_over_ok|done..|]. right; left; lia. }
  destruct (room_ok w 5) as (r & w1 & E & R); [done|lia|]. rewrite E. cbn [obind]. clear E.
  destruct (ro_same _ _ _ _ R) as (En & Es & Eo & Ew). pose proof (ro_ok _ _ _ _ R) as Hok1. destruct r; cbn [negb].
  2: { exists w1, [0; 0; 0; 0]. split_and!; [done|done|]. destruct (ro_no _ _ _ _ R eq_refl) as (Ov & Hwhy).
       apply puts_over; auto; [apply (ro_cap _ _ _ _ R); auto|]. destruct Hwhy; auto. }
  destruct (ro_yes _ _ _ _ R eq_refl) as (Ov & Ov1 & Hr).
  destruct (write_end (counted w1 false) [t]) as (w2 & E & Hok2 & H1 & H2 & H3 & H4 & H5 & H6);
    [by apply counted_ok|rewrite counted_bump; simpl; change (zlen [t]) with 1; lia|].
  rewrite E. cbn [obind]. rewrite counted_bump in H1, H2, H3, H4, H5, H6. simpl in *. change (zlen [t]) with 1 in H6.
  set (j := ztake 4 (zdrop (tn w + 1) (tb w2))). pose proof Hok2 as [Jb Jn Jc Jh Jd Jo].
  assert (zlen j = 4) as Hj by (subst j; rewrite zlen_ztake, zlen_zdrop; lia).
  eexists _, j. split_and!; [done|done|]. rewrite H4, H5, Es, En. split; simpl; try congruence.
  - split; simpl; try done; [lia| |].
    + rewrite zlen_cons, bumped_len. lia.
    + constructor; [simpl; lia|]. rewrite H1. rewrite <- Es. by apply bump_st_ok.
  - destruct (ro_cap _ _ _ _ R) as [Hc1 Hc2]. split; [lia|]. intros ?. rewrite H1. auto.
  - intros _. rewrite zlen_cons, Hj. split_and!; [|done|lia]. rewrite <- Ew.
    assert (written w1 ++ t :: j = ztake (tn w + 1) (tb w2) ++ j) as ->.
    { rewrite <- En, H6. by rewrite <- app_assoc. }
    unfold written. simpl. subst j. unfold ztake, zdrop. rewrite take_take_drop. f_equal. lia.
  - lia.
Qed.

(** ** Sequences of calls *)

End WriterProofs.

Inductive twop :=
  | WMap | WArr | WEnd | WKey (k : bytes) | WInt (v : Z) | WNum (s : bytes) | WBulk (s : bytes) | WErr (s : bytes)
  | WBool (b : bool) | WNil | WOk | WRaw (s : bytes) | WBack (m : pc_tw_mark).

Definition tw_op (mem : Z -> option (nat -> Z)) (o : twop) (w : pc_tw) : outcome pc_tw :=
  match o with
  | WMap => pc_tw_map mem w
  | WArr => pc_tw_arr mem w
  | WEnd => pc_tw_end w
  | WKey k => pc_tw_keyn mem w k
  | WInt v => pc_tw_i64 mem w v
  | WNum s => pc_tw_num mem w s
  | WBulk s => pc_tw_bulk mem w s
  | WErr s => pc_tw_err mem w s
  | WBool b => pc_tw_bool mem w b
  | WNil => pc_tw_nil mem w
  | WOk => pc_tw_ok mem w
  | WRaw s => pc_tw_raw mem w s
  | WBack m => Ret (pc_tw_rollback w m)
  end.

Fixpoint tw_run (mem : Z -> option (nat -> Z)) (ops : list twop) (w : pc_tw) : outcome pc_tw :=
  match ops with [] => Ret w | o :: ops => let! w := tw_op mem o w in tw_run mem ops w end.

(** The calls that write a tree. *)
Fixpoint tree_ops (v : ptree) : list twop :=
  match v with
  | PInt x => [WInt x]
  | PNum s => [WNum s]
  | PBulk s => [WBulk s]
  | PErr s => [WErr s]
  | PNil => [WNil]
  | PBool b => [WBool b]
  | POk => [WOk]
  | PArr l => WArr :: flat_map tree_ops l ++ [WEnd]
  | PMap l => WMap :: flat_map (fun m => WKey m.1 :: tree_ops m.2) l ++ [WEnd]
  end.

Section WriterRuns.
Context (mem : Z -> option (nat -> Z)).

Lemma tw_run_app a b w : tw_run mem (a ++ b) w = let! w := tw_run mem a w in tw_run mem b w.
Proof. revert w. induction a as [|o a IH]; intros w; [done|]. simpl. destruct (tw_op mem o w); simpl; [apply IH|done|done]. Qed.

Lemma puts_was_over w s d st' w' s2 d2 st2 : over w = true -> puts mem w s d st' w' -> puts mem w s2 d2 st2 w'.
Proof. intros Ho [Pk Po Pc Pv Pt Pd Pr Ph]. pose proof (Pv Ho). split; try done; congruence. Qed.

Lemma puts_over_len w s d st1 w2 s' st' : puts mem w s d st1 w2 -> over w2 = true -> zlen s' = zlen s ->
  puts mem w s' d st' (tw_over w2).
Proof. intros P Ho Hl. apply puts_tw_over; [|done]. destruct P as [Pk Po Pc Pv Pt Pd Pr Ph]. split; try done; rewrite ?Hl; try done; congruence. Qed.

Definition top (b : bool) (w : pc_tw) : Prop := exists o s, st w = o :: s /\ o_map o = b.

Fixpoint bumps (n : nat) (b : bool) (s : list pt_open) : list pt_open :=
  match n with O => s | S n => bumps n b (bump s b) end.

Lemma bumps_open n b a c s : 0 <= c < 2 ^ 32 -> bumps n b (mk_open a c b :: s) = mk_open a (u32 (c + Z.of_nat n)) b :: s.
Proof.
  revert c. induction n as [|n IH]; intros c Hc; cbn [bumps bump o_map o_cnt o_at]; [do 2 f_equal; word_lia|].
  rewrite eqb_reflx. rewrite IH by word_lia. do 2 f_equal. word_lia.
Qed.

Lemma bumps_len n b s : zlen (bumps n b s) = zlen s.
Proof. revert s. induction n as [|n IH]; intros s; [done|]. simpl. by rewrite IH, bumped_len. Qed.

(** A call, or a run of them, that puts [s] as one item counted for [b]. *)
Definition item_puts (b : bool) (ops : list twop) (s : bytes) (d : Z) : Prop :=
  forall w, tw_ok w -> (over w = false -> top b w) ->
  exists w', tw_run mem ops w = Ret w' /\ puts mem w s d (bump (st w) b) w'.

Lemma puts_top w s d b w' : puts mem w s d (bump (st w) b) w' -> (over w = false -> top b w) -> over w' = false -> top b w'.
Proof.
  intros P Ht Ho. destruct (pu_text _ _ _ _ _ _ P Ho) as (_ & E & _).
  assert (over w = false) as Hw by (destruct (over w) eqn:Ew; [by rewrite (pu_over _ _ _ _ _ _ P Ew) in Ho|done]).
  destruct (Ht Hw) as (o & s' & E' & Eb). rewrite E' in E. simpl in E. rewrite Eb, eqb_reflx in E. by eexists _, _.
Qed.

Lemma elems_puts {A} (ops : A -> list twop) (enc : A -> bytes) (d : A -> Z) b l :
  Forall (fun a => item_puts b (ops a) (enc a) (d a)) l -> forall w, tw_ok w -> (over w = false -> top b w) ->
  exists w', tw_run mem (flat_map ops l) w = Ret w' /\
    puts mem w (flat_map enc l) (foldr (fun a x => Z.max (d a) x) 0 l) (bumps (length l) b (st w)) w'.
Proof.
  induction 1 as [|a l Ha Hl IH]; intros w Hok Ht; [exists w; split; [done|by apply puts_nil]|].
  simpl. destruct (Ha w Hok Ht) as (w1 & E1 & P1). rewrite tw_run_app, E1. cbn [obind].
  destruct (IH w1) as (w2 & E2 & P2); [apply P1|by eapply puts_top|]. exists w2. split; [done|].
  assert (puts mem w1 (flat_map enc l) (foldr (fun a x => Z.max (d a) x) 0 l) (bumps (length l) b (bump (st w) b)) w2) as P2'.
  { destruct (over w1) eqn:Eo; [by eapply puts_was_over|]. destruct (pu_text _ _ _ _ _ _ P1 Eo) as (_ & <- & _). done. }
  pose proof (puts_app _ _ _ _ _ _ 0 _ _ _ _ P1 P2' ltac:(rewrite bumped_len; lia)) as P. by rewrite Z.add_0_r in P.
Qed.

(** A container: opened, its items, closed. *)
Lemma ztake_blit b n at_ s : 0 <= at_ -> at_ + zlen s <= n -> n <= zlen b -> ztake n (blit b at_ s) = blit (ztake n b) at_ s.
Proof.
  intros H0 H1 H2. pose proof (zlen_nonneg s). unfold blit. rewrite <- (ztake_zdrop n b) at 1 2.
  assert (zlen (ztake n b) = n) as Hn by (rewrite zlen_ztake; lia).
  set (x := ztake n b) in *. set (y := zdrop n b).
  assert (ztake at_ (x ++ y) = ztake at_ x) as -> by (unfold ztake; rewrite take_app_le; [done|unfold zlen in *; lia]).
  assert (zdrop (at_ + zlen s) (x ++ y) = zdrop (at_ + zlen s) x ++ y) as -> by (unfold zdrop; rewrite drop_app_le; [done|unfold zlen in *; lia]).
  rewrite !app_assoc. apply ztake_app. rewrite !zlen_app, zlen_ztake, zlen_zdrop. lia.
Qed.

Lemma end_puts w o s w2 a t j body c d :
  puts mem w (t :: j ++ body) d (o :: s) w2 -> zlen j = 4 -> o = mk_open a c (o_map o) -> a = tn w + 1 -> tw_ok w ->
  exists w', pc_tw_end w2 = Ret w' /\ puts mem w (t :: pc_p32 c ++ body) d s w'.
Proof.
  intros P Hj Eo Ea Hw. unfold pc_tw_end. assert (zlen (t :: pc_p32 c ++ body) = zlen (t :: j ++ body)) as Hl by (zlens; lia).
  destruct (over w2) eqn:Ov.
  { exists (tw_over w2). split; [by destruct (st w2)|]. by eapply puts_over_len. }
  destruct P as [Pk Po Pc Pv Pt Pd Pr Ph]. destruct (Pt Ov) as (Ew & Es & En). rewrite Es, Eo. cbn [o_at o_cnt].
  pose proof Pk as [Kb Kn Kc Kh Kd Ko]. pose proof Hw as [Wb Wn Wc Wh Wd Wo]. pose proof (zlen_nonneg body).
  rewrite Es in Kd, Ko. apply list.Forall_cons in Ko as [Ho Ko]. rewrite zlen_cons in Kd.
  assert (zlen (t :: j ++ body) = 5 + zlen body) as Hlen by (zlens; lia).
  unfold tw_write. cbn [tb tw_st]. rewrite put32_p32, zlen_p32, !(proj2 (Z.leb_le _ _)) by lia. cbn [andb].
  eexists. split; [done|]. split; simpl; try done; try congruence.
  - split; simpl; try done; [rewrite blit_len; rewrite ?zlen_p32; lia|lia].
  - intros _. change (tn w2 = tn w + _) with (tn w2 = tn w + zlen (t :: pc_p32 c ++ body)). rewrite Hl. split_and!; [|done|done]. unfold written. simpl. rewrite ztake_blit by (rewrite ?zlen_p32; lia).
    change (ztake (tn w2) (tb w2)) with (written w2). rewrite Ew. fold (written w).
    assert (zlen (written w) = tn w) as Hwl by (unfold written; rewrite zlen_ztake; lia).
    replace (written w ++ t :: j ++ body) with ((written w ++ [t]) ++ j ++ body) by by rewrite <- app_assoc.
    rewrite blit_mid; [by rewrite <- app_assoc|rewrite zlen_app, Hwl; change (zlen [t]) with 1; lia|by rewrite zlen_p32].
Qed.

Lemma container_puts t mp ops body d n : 0 <= d ->
  (forall w, tw_ok w -> (over w = false -> top mp w) -> exists w', tw_run mem ops w = Ret w' /\ puts mem w body d (bumps n mp (st w)) w') ->
  forall w, tw_ok w -> exists w',
    (let! w := open_c mem w t mp in tw_run mem (ops ++ [WEnd]) w) = Ret w' /\
    puts mem w (t :: pc_p32 (Z.of_nat n) ++ body) (1 + d) (bump (st w) false) w'.
Proof.
  intros Hd Hin w Hok. destruct (open_puts mem w t mp Hok) as (w1 & j & E1 & Hj & P1). rewrite E1. cbn [obind].
  assert (over w1 = false -> st w1 = mk_open (tn w + 1) 0 mp :: bump (st w) false) as Hst.
  { intros Ho. by destruct (pu_text _ _ _ _ _ _ P1 Ho) as (_ & -> & _). }
  destruct (Hin w1) as (w2 & E2 & P2); [apply P1|intros Ho; by eexists _, _; split; [apply Hst|]|].
  assert (puts mem w1 body d (mk_open (tn w + 1) (u32 (Z.of_nat n)) mp :: bump (st w) false) w2) as P2'.
  { destruct (over w1) eqn:Eo; [by eapply puts_was_over|]. rewrite Hst, bumps_open in P2 by (done || lia). done. }
  pose proof (puts_app _ _ _ _ _ _ 1 _ _ _ _ P1 P2' ltac:(rewrite zlen_cons, bumped_len; lia)) as P. simpl in P.
  replace (Z.max 1 (d + 1)) with (1 + d) in P by lia.
  destruct (end_puts _ _ _ _ _ _ _ _ (u32 (Z.of_nat n)) _ P Hj eq_refl eq_refl Hok) as (w3 & E3 & P3).
  rewrite p32_u32 in P3. exists w3. split; [|done]. rewrite tw_run_app, E2. cbn [obind tw_run tw_op]. by rewrite E3.
Qed.

Lemma nest_nonneg v : 0 <= nest v.
Proof. destruct v; simpl; try lia; [pose proof (nest_of_pos l); unfold nest_of in *; lia|]. pose proof (nest_map l) as E. simpl in E. pose proof (nest_of_pos (flat l)). lia. Qed.

Lemma key_puts k : zlen k < 2 ^ 32 -> item_puts true [WKey k] (encode (PBulk k)) 0.
Proof.
  intros Hk w Hok Ht. cbn [tw_run tw_op]. destruct (st w) as [|o s] eqn:Es.
  { exists (tw_over w). unfold pc_tw_keyn. rewrite Es. split; [done|]. apply puts_over; [by apply tw_over_ok|done..|]. left.
    destruct (over w); [done|]. destruct Ht as (? & ? & E & _); [done|congruence]. }
  destruct (o_map o) eqn:Eo.
  - rewrite <- Es. destruct (keyn_puts mem w k o s) as (w' & E & P); try done. exists w'. by rewrite E.
  - exists (tw_over w). unfold pc_tw_keyn. rewrite Es, Eo. split; [done|]. apply puts_over; [by apply tw_over_ok|done..|]. left.
    destruct (over w); [done|]. destruct Ht as (? & ? & E & ?); [done|congruence].
Qed.

Lemma pair_puts k v : zlen k < 2 ^ 32 ->
  (forall w, tw_ok w -> exists w', tw_run mem (tree_ops v) w = Ret w' /\ puts mem w (encode v) (nest v) (bump (st w) false) w') ->
  item_puts true (WKey k :: tree_ops v) (encode (PBulk k) ++ encode v) (nest v).
Proof.
  intros Hk Hv w Hok Ht. destruct (key_puts k Hk w Hok Ht) as (w1 & E1 & P1).
  destruct (Hv w1) as (w2 & E2 & P2); [apply P1|]. exists w2. split.
  { change (WKey k :: tree_ops v) with ([WKey k] ++ tree_ops v). rewrite tw_run_app, E1. done. }
  assert (puts mem w1 (encode v) (nest v) (bump (st w) true) w2) as P2'.
  { destruct (over w1) eqn:Eo; [by eapply puts_was_over|]. destruct (pu_text _ _ _ _ _ _ P1 Eo) as (_ & Es & _).
    destruct (puts_top _ _ _ _ _ P1 Ht Eo) as (o & s & Et & Em). rewrite Et in P2, Es. simpl in P2. rewrite Em in P2. by rewrite <- Es. }
  pose proof (puts_app _ _ _ _ _ _ 0 _ _ _ _ P1 P2' ltac:(rewrite bumped_len; lia)) as P. pose proof (nest_nonneg v).
  by replace (Z.max 0 (nest v + 0)) with (nest v) in P by lia.
Qed.

Lemma tree_puts v : tree_ok v -> forall w, tw_ok w ->
  exists w', tw_run mem (tree_ops v) w = Ret w' /\ puts mem w (encode v) (nest v) (bump (st w) false) w'.
Proof.
  assert (forall o (P : pc_tw -> Prop) w, (exists w', tw_op mem o w = Ret w' /\ P w') -> exists w', tw_run mem [o] w = Ret w' /\ P w') as One.
  { intros o P w (w' & E & H). exists w'. cbn [tw_run]. by rewrite E. }
  induction v as [x|s|s|s| |b| |l IH|l IH] using ptree_ind; intros Hv w Hok; try apply One.
  - by apply i64_puts.
  - by apply num_puts.
  - by apply bulk_puts.
  - by apply bulk_puts.
  - by apply tag1_puts.
  - by apply tag1_puts.
  - by apply tag1_puts.
  - apply tree_ok_arr in Hv as [Hl Hv]. pose proof (nest_of_pos l).
    destruct (container_puts t_arr false (flat_map tree_ops l) (flat_map encode l) (nest_of l) (length l) ltac:(done)) with (w := w) as (w' & E & P); [|done|by exists w'].
    apply elems_puts. unfold trees_ok in Hv. apply Forall_forall. intros v Hin w0 H0 _. rewrite Forall_forall in IH, Hv. by apply IH; [|apply Hv|].
  - apply tree_ok_map in Hv as [Hl Hv]. rewrite nest_map. pose proof (nest_of_pos (flat l)).
    destruct (container_puts t_map true (flat_map (fun m => WKey m.1 :: tree_ops m.2) l) (flat_map (fun m => encode (PBulk m.1) ++ encode m.2) l) (nest_of (flat l)) (length l) ltac:(done)) with (w := w) as (w' & E & P); [|done|by exists w'].
    replace (nest_of (flat l)) with (foldr (fun m x => Z.max (nest m.2) x) 0 l) by (pose proof (nest_map l) as E; simpl in E; lia).
    apply elems_puts. unfold trees_ok in Hv. apply Forall_forall. intros [k v] Hin. rewrite Forall_forall in IH, Hv.
    assert (In (PBulk k) (flat l) /\ In v (flat l)) as [Hk' Hv'] by (unfold flat; rewrite !in_flat_map; split; exists (k, v); simpl; auto).
    apply pair_puts; [by apply (Hv (PBulk k))|]. intros w0 H0. by apply IH; [|apply Hv|].
Qed.

(** ** Any calls at all *)

Definition twop_ok (o : twop) : Prop :=
  match o with
  | WKey s | WNum s | WBulk s | WErr s | WRaw s => zlen s < 2 ^ 61
  | WBack m => 0 <= m_n m
  | _ => True
  end.

(** What every call keeps. *)
Definition keeps (w w' : pc_tw) : Prop :=
  tw_ok w' /\ towned w' = towned w /\ tcap w <= tcap w' /\ (towned w = false -> tcap w' = tcap w).

Lemma puts_keeps w s d st' w' : puts mem w s d st' w' -> keeps w w'.
Proof. intros [Pk Po [Pc Pc'] _ _ _ _ _]. by split_and!. Qed.

Lemma over_keeps w : tw_ok w -> keeps w (tw_over w).
Proof. intros Hok. split_and!; try done. by apply tw_over_ok. Qed.

Lemma lenitem_keeps w t s : tw_ok w -> zlen s < 2 ^ 61 -> exists w', lenitem mem w t s = Ret w' /\ keeps w w'.
Proof.
  intros Hok Hs. destruct (decide (zlen s < 2 ^ 32)) as [Hl|Hl].
  - destruct (lenitem_puts mem w t s Hok Hl) as (w' & E & P). exists w'. split; [done|by eapply puts_keeps].
  - exists (tw_over w). split; [|by apply over_keeps]. unfold lenitem. rewrite Z.gtb_ltb, (proj2 (Z.ltb_lt _ _)) by lia. done.
Qed.

Lemma counted_keeps w k w' : keeps (counted w k) w' -> keeps w w'.
Proof. rewrite counted_bump. done. Qed.

Lemma open_keeps w t mp : tw_ok w -> exists w', open_c mem w t mp = Ret w' /\ keeps w w'.
Proof. intros Hok. destruct (open_puts mem w t mp Hok) as (w' & j & E & _ & P). exists w'. split; [done|by eapply puts_keeps]. Qed.

Lemma end_keeps w : tw_ok w -> exists w', pc_tw_end w = Ret w' /\ keeps w w'.
Proof.
  intros Hok. unfold pc_tw_end. destruct (st w) as [|o s] eqn:Es; [exists (tw_over w); split; [done|by apply over_keeps]|].
  destruct (over w); [exists (tw_over w); split; [done|by apply over_keeps]|].
  pose proof Hok as [Hb Hn Hc Hh Hd Ho]. rewrite Es in Hd, Ho. apply list.Forall_cons in Ho as [H1 H2]. rewrite zlen_cons in Hd.
  unfold tw_write. cbn [tb tw_st]. rewrite put32_p32, zlen_p32, !(proj2 (Z.leb_le _ _)) by lia. cbn [andb].
  eexists. split; [done|]. split_and!; try done. split; simpl; try done; [rewrite blit_len; rewrite ?zlen_p32; lia|lia].
Qed.

Lemma back_keeps w m : tw_ok w -> 0 <= m_n m -> keeps w (pc_tw_rollback w m).
Proof.
  intros Hok Hm. unfold pc_tw_rollback. rewrite Z.gtb_ltb. destruct (Z.ltb_spec (tn w) (m_n m)) as [|Hn]; [by split_and!|]. simpl.
  destruct (bool_decide _) eqn:Ed; [by split_and!|]. apply bool_decide_eq_false in Ed. pose proof Hok as [Hb Hn' Hc Hh Hd Ho].
  split_and!; try done. apply (Forall_drop _ (length (st w) - m_depth m)) in Ho.
  assert (zlen (drop (length (st w) - m_depth m) (st w)) <= PT_DEPTH) as Hl by (unfold zlen in *; rewrite length_drop; lia).
  destruct (drop _ (st w)) as [|o s]; split; simpl; try done; [lia|lia|]. inversion Ho. by constructor.
Qed.

Lemma raw_keeps w s : tw_ok w -> zlen s < 2 ^ 61 -> exists w', pc_tw_raw mem w s = Ret w' /\ keeps w w'.
Proof.
  intros Hok Hs. unfold pc_tw_raw. destruct (room_ok mem w (zlen s)) as (r & w1 & E & R); [done|pose_lens; lia|]. rewrite E. cbn [obind].
  destruct r; cbn [negb].
  - destruct (emit_bump mem w s w1 R) as (w' & E' & P). exists w'. split; [done|by eapply puts_keeps].
  - exists w1. split; [done|]. eapply puts_keeps. by apply (refuse_puts mem w s w1 []).
Qed.

Lemma num_keeps w s : tw_ok w -> exists w', pc_tw_num mem w s = Ret w' /\ keeps w w'.
Proof.
  intros Hok. destruct (decide (zlen s < 2 ^ 16)) as [Hl|Hl].
  - destruct (num_puts mem w s Hok Hl) as (w' & E & P). exists w'. split; [done|by eapply puts_keeps].
  - exists (tw_over w). split; [|by apply over_keeps]. unfold pc_tw_num. rewrite Z.gtb_ltb, (proj2 (Z.ltb_lt _ _)) by lia. done.
Qed.

Lemma keyn_keeps w k : tw_ok w -> zlen k < 2 ^ 61 -> exists w', pc_tw_keyn mem w k = Ret w' /\ keeps w w'.
Proof.
  intros Hok Hk. unfold pc_tw_keyn. destruct (st w) as [|o s]; [exists (tw_over w); split; [done|by apply over_keeps]|].
  destruct (o_map o); [|exists (tw_over w); split; [done|by apply over_keeps]].
  destruct (lenitem_keeps (counted w true) t_bulk k) as (w' & E & K); [by apply counted_ok|done|]. exists w'. split; [done|by eapply counted_keeps].
Qed.

Lemma op_keeps o w : tw_ok w -> twop_ok o -> exists w', tw_op mem o w = Ret w' /\ keeps w w'.
Proof.
  assert (forall w m s d st', (exists w', m = Ret w' /\ puts mem w s d st' w') -> exists w', m = Ret w' /\ keeps w w') as P.
  { intros w0 m s d st' (w' & E & Pp). exists w'. split; [done|by eapply puts_keeps]. }
  assert (forall w t s, tw_ok w -> zlen s < 2 ^ 61 -> exists w', lenitem mem (counted w false) t s = Ret w' /\ keeps w w') as B.
  { intros w0 t s H0 Hs. destruct (lenitem_keeps (counted w0 false) t s) as (w' & E & K); [by apply counted_ok|done|]. exists w'. split; [done|by eapply counted_keeps]. }
  intros Hok Ho. destruct o; simpl in *; try (by apply open_keeps); try (by eapply P, tag1_puts).
  - by apply end_keeps.
  - by apply keyn_keeps.
  - by eapply P, i64_puts.
  - by apply num_keeps.
  - by apply B.
  - by apply B.
  - by apply raw_keeps.
  - eexists. split; [done|by apply back_keeps].
Qed.

Lemma run_keeps ops : Forall twop_ok ops -> forall w, tw_ok w -> exists w', tw_run mem ops w = Ret w' /\ keeps w w'.
Proof.
  induction 1 as [|o ops Ho Hops IH]; intros w Hok; [by exists w|]. cbn [tw_run].
  destruct (op_keeps o w Hok Ho) as (w1 & -> & K1). cbn [obind]. destruct (IH w1) as (w2 & E & K2); [apply K1|]. exists w2. split; [done|].
  destruct K1 as (_ & A1 & A2 & A3), K2 as (B0 & B1 & B2 & B3). split_and!; [done|congruence|lia|]. intros Hw. rewrite B3 by congruence. auto.
Qed.

End WriterRuns.

Definition buf_ok (buf : option bytes) (cap : Z) : Prop := match buf with Some b => zlen b = cap /\ cap < 2 ^ 62 | None => True end.

Lemma init_ok buf cap : buf_ok buf cap -> tw_ok (pc_tw_init buf cap).
Proof. destruct buf as [b|]; simpl; [intros [<- H]|intros _]; (split; simpl; try done; try constructor; pose_lens; lia). Qed.

(** The tree writer, whatever it is called with, in any order, rollbacks included,
    writes only inside its buffer: a caller's buffer is never grown and a heap buffer
    stays within PT_HEAP_MAX. *)
Theorem tw_memory_safe (mem : Z -> option (nat -> Z)) (buf : option bytes) (cap : Z) (ops : list twop)
  (Hbuf : buf_ok buf cap) (Hops : Forall twop_ok ops) :
  exists w, tw_run mem ops (pc_tw_init buf cap) = Ret w /\ 0 <= tn w <= tcap w /\ zlen (tb w) = tcap w /\
    zlen (st w) <= PT_DEPTH /\ match buf with Some _ => tcap w = cap | None => tcap w <= PT_HEAP_MAX end.
Proof.
  destruct (run_keeps mem ops Hops _ (init_ok _ _ Hbuf)) as (w & E & [Hb Hn Hc Hh Hd Ho] & K1 & K2 & K3).
  exists w. split_and!; try done; try lia. destruct buf; simpl in *; [by apply K3|by apply Hh].
Qed.

(** Writing a tree by its calls: in a buffer of [cap] bytes the writer ends whole
    exactly when the tree's bytes fit and its containers nest to at most PT_DEPTH, and
    with memory to grow exactly when they are within PT_HEAP_MAX; what it has written
    then is the tree's encoding, every count in place. *)
Theorem tw_writes_tree (mem : Z -> option (nat -> Z)) (buf : option bytes) (cap : Z) (v : ptree)
  (Hbuf : buf_ok buf cap) (Hv : tree_ok v) (Hmem : forall c, mem c <> None) :
  exists w, tw_run mem (tree_ops v) (pc_tw_init buf cap) = Ret w /\
    (pc_tw_done w = 0 <-> zlen (encode v) <= match buf with Some _ => cap | None => PT_HEAP_MAX end /\ nest v <= PT_DEPTH) /\
    (pc_tw_done w = 0 -> written w = encode v).
Proof.
  pose proof (init_ok _ _ Hbuf) as Hok.
  destruct (tree_puts mem v Hv _ Hok) as (w & E & [Pk Po [Pc Pc'] Pv Pt Pd Pr Ph]). exists w. split; [done|].
  assert (st (pc_tw_init buf cap) = [] /\ tn (pc_tw_init buf cap) = 0 /\ over (pc_tw_init buf cap) = false /\ written (pc_tw_init buf cap) = []) as (Es & En & Ev & Ew) by by destruct buf.
  rewrite Es, En, Ev, Ew in *. rewrite zlen_nil, ?Z.add_0_l in *. simpl in Pt.
  assert (pc_tw_done w = 0 <-> over w = false) as Hdone.
  { unfold pc_tw_done. destruct (over w); [done|]. by destruct (Pt eq_refl) as (_ & -> & _). }
  rewrite Hdone. split; [|by intros Ho; apply Pt]. pose proof Pk as [Kb Kn Kc Kh Kd Ko]. split.
  - intros Ho. destruct (Pt Ho) as (_ & _ & Hn). split; [|by apply Pd]. destruct buf; simpl in *; [rewrite Pc' in Kn by done; lia|].
    specialize (Kh Po). lia.
  - intros [Hl Hd]. destruct buf; simpl in *; [apply Pr|apply Ph]; done || lia.
Qed.

(** ** The rollback *)

(** [w'] has the first [k] bytes, the position and the containers of [w]. *)
Definition same (k : Z) (w w' : pc_tw) : Prop := ztake k (tb w') = ztake k (tb w) /\ tn w' = tn w /\ st w' = st w.

Lemma write_same w at_ s w' k : tw_write w at_ s = Ret w' -> k <= at_ -> same k w w'.
Proof.
  unfold tw_write. destruct ((0 <=? at_) && _) eqn:E; [|done]. intros [= <-] Hk. bool_facts. split_and!; try done. simpl.
  unfold blit, ztake, zlen in *. rewrite take_app_le by (rewrite length_take; lia). rewrite take_take. f_equal. lia.
Qed.

(** The same open containers, but for the innermost one's count. *)
Definition recount (s s' : list pt_open) : Prop :=
  match s with [] => s' = [] | o :: t => exists c, s' = mk_open (o_at o) c (o_map o) :: t end.

Lemma recount_refl s : recount s s.
Proof. destruct s as [|[a c m] s]; simpl; [done|by exists c]. Qed.

Lemma recount_bump s k : recount s (bump s k).
Proof. destruct s as [|[a c m] s]; simpl; [done|]. destruct (eqb m k); eauto. Qed.

(** A call that closes nothing: what was written stays, and what it opens begins after it. *)
Record adds (w w' : pc_tw) : Prop := {
  ad_n : tn w <= tn w';
  ad_b : ztake (tn w) (tb w') = written w;
  ad_st : exists pre s, st w' = pre ++ s /\ Forall (fun o => tn w <= o_at o) pre /\ recount (st w) s
}.

Lemma adds_item w w' : tn w <= tn w' -> ztake (tn w) (tb w') = written w -> recount (st w) (st w') -> adds w w'.
Proof. intros Hn Hb Hs. split; [done|done|]. exists [], (st w'). split_and!; [done|constructor|done]. Qed.

Section Rollback.
Context (mem : Z -> option (nat -> Z)).

Lemma room_same w k r w1 : tw_ok w -> 0 <= k < 2 ^ 62 -> room mem w k = Ret (r, w1) -> same (tn w) w w1 /\ tw_ok w1.
Proof.
  intros Hok Hk E. destruct (room_ok mem w k Hok Hk) as (r' & w1' & E' & R). rewrite E in E'. injection E' as <- <-.
  destruct (ro_same _ _ _ _ _ R) as (En & Es & _ & Ew). split; [|by apply R]. split_and!; [|done|done]. by rewrite <- En at 1.
Qed.

(** Takes a call of [w] apart into its room and its stores, all at or after the end. *)
Ltac wgo w := repeat match goal with
  | H : obind (room _ ?v ?k) _ = Ret _ |- _ =>
      let r := fresh "r" in let w1 := fresh "w1" in let S := fresh "S" in let K := fresh "K" in
      apply obind_Ret in H as ([r w1] & S & H); cbn [fst snd] in H;
      apply room_same in S as [S K]; [|try done; by apply counted_ok|pose_lens; lia]; rewrite ?counted_bump in S; unfold same in S; simpl in S; destruct S as (? & ? & ?);
      destruct r; cbn [negb] in H
  | H : obind (tw_write _ ?a _) _ = Ret _ |- _ =>
      let w1 := fresh "w1" in let S := fresh "S" in
      apply obind_Ret in H as (w1 & S & H); apply (write_same _ _ _ _ (tn w)) in S; [|rewrite ?counted_bump; simpl; lia];
      rewrite ?counted_bump in S; unfold same in S; simpl in S; destruct S as (? & ? & ?)
  | H : obind (Ret _) _ = Ret _ |- _ => cbn [obind] in H
  | H : Ret _ = Ret _ |- _ => injection H as <-
  end.

Ltac wdone := apply adds_item; unfold written in *; simpl in *;
  [pose_lens; lia|congruence|
   repeat match goal with E : st _ = _ |- _ => rewrite E end; auto using recount_refl, recount_bump].

Lemma tag1_adds w t w' : tw_ok w -> tag1 mem w t = Ret w' -> adds w w'.
Proof. intros Hok E. unfold tag1 in E. wgo w; wdone. Qed.

Lemma i64_adds w v w' : tw_ok w -> pc_tw_i64 mem w v = Ret w' -> adds w w'.
Proof. intros Hok E. unfold pc_tw_i64 in E. wgo w; wdone. Qed.

Lemma raw_adds w s w' : tw_ok w -> zlen s < 2 ^ 61 -> pc_tw_raw mem w s = Ret w' -> adds w w'.
Proof. intros Hok Hs E. unfold pc_tw_raw in E. wgo w; wdone. Qed.

Lemma num_adds w s w' : tw_ok w -> zlen s < 2 ^ 61 -> pc_tw_num mem w s = Ret w' -> adds w w'.
Proof. intros Hok Hs E. unfold pc_tw_num in E. destruct (zlen s >? _); wgo w; wdone. Qed.

Lemma lenitem_adds w s1 t s w' : tw_ok w -> zlen s < 2 ^ 61 -> recount (st w) s1 -> tw_ok (tw_st w s1) ->
  lenitem mem (tw_st w s1) t s = Ret w' -> adds w w'.
Proof. intros Hok Hs Hr Hok1 E. unfold lenitem in E. destruct (zlen s >? _), (zlen s =? 0); wgo w; wdone. Qed.

Lemma open_adds w t mp w' : tw_ok w -> open_c mem w t mp = Ret w' -> adds w w'.
Proof.
  intros Hok E. unfold open_c in E. destruct (zlen (st w) >=? _); [wgo w; wdone|]. wgo w; [|wdone].
  split; unfold written in *; simpl in *; [lia|congruence|]. eexists [_], _. split_and!; [reflexivity| |].
  - repeat constructor. simpl. lia.
  - repeat match goal with E : st _ = _ |- _ => rewrite E end. apply recount_bump.
Qed.

(** The calls of [ops] close no container that was open at depth [d]. *)
Fixpoint above (d : nat) (ops : list twop) (w : pc_tw) : Prop :=
  match ops with
  | [] => True
  | o :: ops =>
      match o with WEnd => (d < length (st w))%nat | WBack _ => False | _ => True end /\
      forall w', tw_op mem o w = Ret w' -> above d ops w'
  end.

(** [w] grew out of [w0]: its bytes are there, its containers are open below [pre]. *)
Definition since (w0 w : pc_tw) : Prop :=
  tn w0 <= tn w /\ ztake (tn w0) (tb w) = written w0 /\
  exists pre s, st w = pre ++ s /\ Forall (fun o => tn w0 <= o_at o) pre /\ recount (st w0) s.

Lemma recount_trans a b c : recount a b -> recount b c -> recount a c.
Proof. destruct a as [|o a]; simpl; [by intros ->|]. intros (n & ->). simpl. intros (m & ->). eauto. Qed.

Lemma ztake_ztake {A} n m (l : list A) : n <= m -> ztake n (ztake m l) = ztake n l.
Proof. intros. unfold ztake. rewrite take_take. f_equal. lia. Qed.

Lemma since_adds w0 w w' : since w0 w -> adds w w' -> since w0 w'.
Proof.
  intros (Hn & Hb & pre & s & Es & Hp & Hr) [An Ab (pre' & s' & Es' & Hp' & Hr')].
  split_and!; [lia| |].
  - rewrite <- Hb. rewrite <- (ztake_ztake (tn w0) (tn w) (tb w')) by lia. rewrite Ab. by apply ztake_ztake.
  - rewrite Es in Hr'. destruct pre as [|o pre]; simpl in Hr'.
    + exists pre', s'. split_and!; [done| |by eapply recount_trans]. eapply list.Forall_impl; [exact Hp'|]. simpl. lia.
    + destruct Hr' as (c & ->). exists (pre' ++ mk_open (o_at o) c (o_map o) :: pre), s. rewrite Es', <- app_assoc. split_and!; [done| |done].
      inversion Hp as [|? ? Ho Hpre]; subst. apply Forall_app. split; [|by constructor]. eapply list.Forall_impl; [exact Hp'|]. simpl. lia.
Qed.

Lemma since_end w0 w w' : tw_ok w -> since w0 w -> (length (st w0) < length (st w))%nat -> pc_tw_end w = Ret w' -> since w0 w'.
Proof.
  intros Hok (Hn & Hb & pre & s & Es & Hp & Hr) Hd E.
  assert (length s = length (st w0)) as Hl by (destruct (st w0); simpl in Hr; [by subst|by destruct Hr as (? & ->)]).
  destruct pre as [|o pre]; [rewrite Es in Hd; simpl in Hd; lia|]. inversion Hp as [|? ? Ho Hpre]; subst.
  unfold pc_tw_end in E. rewrite Es in E. simpl in E. destruct (over w).
  - injection E as <-. split_and!; try done. exists (o :: pre), s. split_and!; [done|by constructor|done].
  - apply (write_same _ _ _ _ (tn w0)) in E; [|done]. destruct E as (E1 & E2 & E3). simpl in *. split_and!; [lia|congruence|]. by exists pre, s.
Qed.

Lemma since_op w0 w o w' ops : tw_ok w -> twop_ok o -> since w0 w -> above (length (st w0)) (o :: ops) w -> tw_op mem o w = Ret w' -> since w0 w'.
Proof.
  intros Hok Ho Hs [Ha _] E.
  assert (forall t s, zlen s < 2 ^ 61 -> lenitem mem (counted w false) t s = Ret w' -> adds w w') as L.
  { intros t s Hs' E'. pose proof (counted_ok w false Hok) as Hc. rewrite counted_bump in *. eapply lenitem_adds; eauto using recount_bump. }
  destruct o; cbn [tw_op twop_ok] in *; [..|by eapply since_adds, raw_adds|done];
    [by eapply since_adds, open_adds|by eapply since_adds, open_adds|by eapply since_end| |
     by eapply since_adds, i64_adds|by eapply since_adds, num_adds|by eapply since_adds, L|by eapply since_adds, L|
     by eapply since_adds, tag1_adds..].
  eapply since_adds; [done|].
  unfold pc_tw_keyn in E. destruct (st w) as [|f s] eqn:Es; [|destruct (o_map f)].
  - injection E as <-. apply adds_item; try done. simpl. apply recount_refl.
  - pose proof (counted_ok w true Hok) as Hc. rewrite counted_bump in *. eapply lenitem_adds; [..|done]; auto using recount_bump.
  - injection E as <-. apply adds_item; try done. simpl. apply recount_refl.
Qed.

Lemma since_run w0 ops : Forall twop_ok ops -> forall w w', tw_ok w -> since w0 w -> above (length (st w0)) ops w ->
  tw_run mem ops w = Ret w' -> since w0 w' /\ tw_ok w'.
Proof.
  induction 1 as [|o ops Ho Hops IH]; intros w w' Hok Hs Ha E; [by injection E as <-|]. cbn [tw_run] in E.
  destruct (op_keeps mem o w Hok Ho) as (w1 & E1 & K & _). rewrite E1 in E. cbn [obind] in E.
  pose proof (since_op w0 w o w1 ops Hok Ho Hs Ha E1). destruct Ha as [_ Ha]. by eapply IH, E; [..|apply Ha].
Qed.

End Rollback.

(** A rollback undoes all that was written since its mark: after any calls that
    close none of the containers open at the mark, overflow included, the bytes
    written, the open containers and their counts are the mark's again. *)
Theorem tw_rollback_undoes (mem : Z -> option (nat -> Z)) (w w' : pc_tw) (ops : list twop)
  (Hok : tw_ok w) (Hops : Forall twop_ok ops) (Ha : above mem (length (st w)) ops w) (E : tw_run mem ops w = Ret w') :
  let r := pc_tw_rollback w' (pc_tw_mark_ w) in
  written r = written w /\ tn r = tn w /\ st r = st w /\ over r = false.
Proof.
  assert (since w w) as H0 by (split_and!; [lia|done|]; exists [], (st w); split_and!; [done|constructor|apply recount_refl]).
  destruct (since_run mem w ops Hops w w' Hok H0 Ha E) as [(Hn & Hb & pre & s & Es & _ & Hr) _].
  unfold pc_tw_rollback, pc_tw_mark_. cbn [m_n m_depth m_cnt]. rewrite Z.gtb_ltb, (proj2 (Z.ltb_ge _ _)) by lia. cbn [orb].
  assert (length s = length (st w)) as Hl by (destruct (st w); simpl in Hr; [by subst|by destruct Hr as (? & ->)]).
  rewrite bool_decide_eq_false_2 by (rewrite Es, length_app; lia). simpl.
  rewrite Es, length_app, Hl, Nat.add_sub, drop_app_length. split_and!; [done|done| |done].
  destruct (st w) as [|[a c m] t]; simpl in Hr; [by subst|]. destruct Hr as (c' & ->). done.
Qed.
