(* ===== verification/PtreeRead.v ===== *)
(** The tree reader ([pc_tv_parse] and the accessors of [ptree.c]): what it accepts.

    Any bytes are read within bounds and to an end.  The reader accepts exactly the
    encodings of trees of at most PT_DEPTH levels, and the nodes it builds are the
    tree's; so what the writer wrote is read back, and the accessors find in the
    nodes what the tree holds. *)

From Stdlib Require Import ZArith Lia.
From stdpp Require Import base tactics list numbers.
From S2P Require Import Prelude Clcodec HtBase Ptree.

#[local] Arguments pc_p16 : simpl never.
#[local] Arguments pc_p32 : simpl never.
#[local] Arguments pc_p64 : simpl never.

(** * Fields read back *)

Lemma zdrop_cons {A} (l : list A) o : 0 <= o < zlen l -> exists x, zdrop o l = x :: zdrop (o + 1) l.
Proof.
  intros Ho. unfold zdrop, zlen in *. destruct (lookup_lt_is_Some_2 l (Z.to_nat o)) as [x Hx]; [lia|].
  exists x. rewrite (drop_S _ _ _ Hx). do 2 f_equal. lia.
Qed.

Lemma byte_at_drop b o x r : zdrop o b = x :: r -> byte_at b o = Ret x.
Proof. intros E. unfold byte_at. by rewrite E. Qed.

Lemma bytes_ok_at b o x r : bytes_ok b -> zdrop o b = x :: r -> is_u8 x.
Proof. intros H E. apply (bytes_ok_zdrop o) in H. rewrite E in H. by inversion H. Qed.

Lemma byte_at_zdrop b o t : 0 <= o -> byte_at b o = Ret t -> zdrop o b = t :: zdrop (o + 1) b.
Proof.
  unfold byte_at. intros Ho Ht. destruct (zdrop o b) as [|x r] eqn:E; [done|]. injection Ht as ->. f_equal. symmetry.
  by apply (zdrop_after b [t] r).
Qed.

Lemma get32_read b o : bytes_ok b -> 0 <= o -> 4 <= zlen b - o ->
  exists l, get32 (zdrop o b) = Ret l /\ is_u32 l /\ zdrop o b = pc_p32 l ++ zdrop (o + 4) b.
Proof.
  intros Hb H0 Hl.
  destruct (zdrop_cons b o) as [b0 E0]; [lia|]. destruct (zdrop_cons b (o + 1)) as [b1 E1]; [lia|].
  destruct (zdrop_cons b (o + 1 + 1)) as [b2 E2]; [lia|]. destruct (zdrop_cons b (o + 1 + 1 + 1)) as [b3 E3]; [lia|].
  pose proof (bytes_ok_at _ _ _ _ Hb E0) as K0. pose proof (bytes_ok_at _ _ _ _ Hb E1) as K1.
  pose proof (bytes_ok_at _ _ _ _ Hb E2) as K2. pose proof (bytes_ok_at _ _ _ _ Hb E3) as K3.
  exists (b0 + b1 * 2 ^ 8 + b2 * 2 ^ 16 + b3 * 2 ^ 24). rewrite E0, E1, E2, E3. split_and!.
  - unfold get32, byte_at, zdrop. change (Z.to_nat 0) with 0%nat. change (Z.to_nat 1) with 1%nat.
    change (Z.to_nat 2) with 2%nat. change (Z.to_nat 3) with 3%nat. cbn [drop obind]. f_equal.
    assert (0 <= b3 * 2 ^ 24 < 2 ^ 32) by word_lia. rewrite (Z.shiftl_mul_pow2 b3), (u32_id (b3 * 2 ^ 24)) by word_lia.
    rewrite <- (Z.shiftl_mul_pow2 b3) by lia. rewrite (lor_shiftl_add b0 b1 8), (lor_shiftl_add _ b2 16), (lor_shiftl_add _ b3 24) by word_lia. by rewrite Z.shiftl_mul_pow2 by lia.
  - word_lia.
  - replace (o + 1 + 1 + 1 + 1) with (o + 4) by lia. rewrite <- put32_p32. unfold put32. cbn [app]. word_list.
Qed.

Lemma len16_read b o : bytes_ok b -> 0 <= o -> 2 <= zlen b - o ->
  exists l, len16 b o = Ret l /\ is_u16 l /\ zdrop o b = pc_p16 l ++ zdrop (o + 2) b.
Proof.
  intros Hb H0 Hl. destruct (zdrop_cons b o) as [b0 E0]; [lia|]. destruct (zdrop_cons b (o + 1)) as [b1 E1]; [lia|].
  pose proof (bytes_ok_at _ _ _ _ Hb E0) as K0. pose proof (bytes_ok_at _ _ _ _ Hb E1) as K1.
  exists (b0 + b1 * 2 ^ 8). unfold len16. rewrite (byte_at_drop _ _ _ _ E0), (byte_at_drop _ _ _ _ E1). cbn [obind]. split_and!.
  - f_equal. apply lor_shiftl_add; word_lia.
  - word_lia.
  - rewrite E0, E1. replace (o + 1 + 1) with (o + 2) by lia. unfold pc_p16. cbn [app]. word_list.
Qed.

(** The bytes from the last to the first, shifted in one after another. *)
Lemma int_bytes_step b o k u x r : zdrop (o + Z.of_nat k) b = x :: r -> is_u8 x -> 0 <= u < 2 ^ 56 ->
  int_bytes b o (S k) u = int_bytes b o k (u * 256 + x).
Proof.
  intros E Hx Hu. cbn [int_bytes]. rewrite (byte_at_drop _ _ _ _ E). cbn [obind]. f_equal.
  rewrite Z.shiftl_mul_pow2 by lia. rewrite u64_id by word_lia. rewrite <- Z.shiftl_mul_pow2 by lia.
  rewrite Z.lor_comm, lor_shiftl_add by word_lia. word_lia.
Qed.

Lemma int_read b o : bytes_ok b -> 0 <= o -> 8 <= zlen b - o ->
  exists u, int_bytes b o 8 0 = Ret u /\ is_u64 u /\ zdrop o b = pc_p64 u ++ zdrop (o + 8) b.
Proof.
  intros Hb H0 Hl.
  destruct (zdrop_cons b o) as [b0 E0]; [lia|]. destruct (zdrop_cons b (o + 1)) as [b1 E1]; [lia|].
  destruct (zdrop_cons b (o + 2)) as [b2 E2]; [lia|]. destruct (zdrop_cons b (o + 3)) as [b3 E3]; [lia|].
  destruct (zdrop_cons b (o + 4)) as [b4 E4]; [lia|]. destruct (zdrop_cons b (o + 5)) as [b5 E5]; [lia|].
  destruct (zdrop_cons b (o + 6)) as [b6 E6]; [lia|]. destruct (zdrop_cons b (o + 7)) as [b7 E7]; [lia|].
  pose proof (bytes_ok_at _ _ _ _ Hb E0) as K0. pose proof (bytes_ok_at _ _ _ _ Hb E1) as K1.
  pose proof (bytes_ok_at _ _ _ _ Hb E2) as K2. pose proof (bytes_ok_at _ _ _ _ Hb E3) as K3.
  pose proof (bytes_ok_at _ _ _ _ Hb E4) as K4. pose proof (bytes_ok_at _ _ _ _ Hb E5) as K5.
  pose proof (bytes_ok_at _ _ _ _ Hb E6) as K6. pose proof (bytes_ok_at _ _ _ _ Hb E7) as K7.
  unfold is_u8 in *. change (2 ^ 8) with 256 in *.
  set (u := ((((((b7 * 256 + b6) * 256 + b5) * 256 + b4) * 256 + b3) * 256 + b2) * 256 + b1) * 256 + b0).
  exists u. split_and!.
  - rewrite (int_bytes_step b o 7 _ _ _ E7), (int_bytes_step b o 6 _ _ _ E6), (int_bytes_step b o 5 _ _ _ E5),
      (int_bytes_step b o 4 _ _ _ E4), (int_bytes_step b o 3 _ _ _ E3), (int_bytes_step b o 2 _ _ _ E2), (int_bytes_step b o 1 _ _ _ E1) by (unfold is_u8; pow2; lia).
    rewrite (int_bytes_step _ _ 0 _ b0 (zdrop (o + 1) b)); [|by rewrite Z.add_0_r|done|lia]. cbn [int_bytes]. done.
  - unfold is_u64. subst u. pow2. lia.
  - rewrite E0, E1. replace (o + 1 + 1) with (o + 2) by lia. rewrite E2. replace (o + 2 + 1) with (o + 3) by lia. rewrite E3.
    replace (o + 3 + 1) with (o + 4) by lia. rewrite E4. replace (o + 4 + 1) with (o + 5) by lia. rewrite E5.
    replace (o + 5 + 1) with (o + 6) by lia. rewrite E6. replace (o + 6 + 1) with (o + 7) by lia. rewrite E7.
    replace (o + 7 + 1) with (o + 8) by lia. rewrite <- int_p64. cbn [fmap list_fmap app].
    subst u. repeat (apply (f_equal2 cons); [rewrite ?shiftr_div by lia; unfold u8; change (2 ^ (8 * 0)) with 1;
      change (2 ^ (8 * 1)) with (256); change (2 ^ (8 * 2)) with 65536; change (2 ^ (8 * 3)) with 16777216; change (2 ^ (8 * 4)) with 4294967296;
      change (2 ^ (8 * 5)) with 1099511627776; change (2 ^ (8 * 6)) with 281474976710656; change (2 ^ (8 * 7)) with 72057594037927936; pow2;
      Z.div_mod_to_equations; lia|]). done.
Qed.

(** * What is accepted is a tree *)

Lemma alter_zlen {A} f (l : list A) c k : alter f (Z.to_nat (zlen l)) (l ++ c :: k) = l ++ f c :: k.
Proof. unfold zlen. by rewrite Nat2Z.id, <- (Nat.add_0_r (length l)), alter_app_r. Qed.

(** [zlen N] is the node just added. *)
Lemma tv_set_last N n k cap f : tv_set (mk_tv (N ++ n :: k) cap) (zlen N) f = mk_tv (N ++ f n :: k) cap.
Proof. unfold tv_set. cbn [nodes vcap]. by rewrite alter_zlen. Qed.

Lemma node_add_spec mem v me v' : node_add mem v = Some (me, v') ->
  me = zlen (nodes v) /\ exists cap, v' = mk_tv (nodes v ++ [mk_tn 0 0 [] 0 0]) cap.
Proof.
  unfold node_add. destruct (_ =? _); [destruct (mem _); [|done]|]; intros [= <- <-]; split; try done; simpl; eauto.
Qed.

Lemma item_done_spec N n k cap o :
  item_done (mk_tv (N ++ n :: k) cap) (zlen N) o = (mk_tv (N ++ set_next (zlen N + 1 + zlen k) n :: k) cap, IOk (zlen N) o).
Proof. unfold item_done. rewrite tv_set_last. cbn [nodes]. do 5 f_equal. zlens. lia. Qed.

Lemma item_done_last N n cap o :
  item_done (mk_tv (N ++ [n]) cap) (zlen N) o = (mk_tv (N ++ [set_next (zlen N + 1) n]) cap, IOk (zlen N) o).
Proof. rewrite item_done_spec. change (zlen (@nil pc_tn)) with 0. by rewrite Z.add_0_r. Qed.

Lemma zlen_drop_le {A} o o' (l k : list A) : 0 <= o <= zlen l -> zdrop o l = k ++ zdrop o' l -> o' = o + zlen k -> o' <= zlen l.
Proof.
  intros Ho E ->. apply (f_equal zlen) in E. rewrite zlen_app, !zlen_zdrop in E. pose proof (zlen_nonneg k). lia.
Qed.

Lemma item_span_spec b N n cap o len : 0 <= o -> 0 <= len ->
  match item_span (mk_tv (N ++ [n]) cap) b (zlen N) o len with
  | (v, IOk me o') => exists s, zlen s = len /\ me = zlen N /\ o' = o + len /\ zdrop o b = s ++ zdrop o' b /\
      nodes v = N ++ [set_next (zlen N + 1) (set_p s (set_len len n))]
  | (_, IErr _) => zlen b - o < len
  | (_, IOob) => False
  end.
Proof.
  intros Ho Hl. unfold item_span. rewrite tv_set_last. destruct (Z.ltb_spec (zlen b - o) len) as [Hs|Hs]; [done|].
  rewrite sub_at_ok by lia. rewrite tv_set_last, item_done_last. exists (ztake len (zdrop o b)). split_and!; try done.
  - rewrite zlen_ztake, zlen_zdrop. lia.
  - rewrite <- (ztake_zdrop len (zdrop o b)) at 1. f_equal. rewrite zdrop_zdrop by lia. done.
Qed.

(** The item read at [o]: a tree whose bytes are there and whose nodes were added. *)
Definition reads (b : bytes) (tv : pc_tv) (o depth : Z) (r : pc_tv * ires) : Prop :=
  match r.2 with
  | IOob => False
  | IErr _ => True
  | IOk me o' => exists v, tree_ok v /\ levels v + depth - 1 <= PT_DEPTH /\ o' = o + zlen (encode v) /\
      zdrop o b = encode v ++ zdrop o' b /\ me = zlen (nodes tv) /\ nodes r.1 = nodes tv ++ nodes_of v me
  end.

(** The trees [l] read one after another from [o] to [o']. *)
Definition got (b : bytes) (tv : pc_tv) (o depth : Z) (l : list ptree) (v' : pc_tv) (o' : Z) : Prop :=
  trees_ok l /\ levels_of l + depth <= PT_DEPTH /\ o' = o + zlen (flat_map encode l) /\
  zdrop o b = flat_map encode l ++ zdrop o' b /\ nodes v' = nodes tv ++ forest l (zlen (nodes tv)).

(** The items of a container read from [o]: [todo] of them, or [todo] pairs. *)
Definition read_all (b : bytes) (tv : pc_tv) (o depth : Z) (mp : bool) (todo : Z) (r : pc_tv * ires) : Prop :=
  match r.2 with
  | IOob => False
  | IErr _ => True
  | IOk _ o' => exists l, got b tv o depth l r.1 o' /\ (if mp then exists m, l = flat m /\ zlen m = todo else zlen l = todo)
  end.

Lemma encode_pos v : 1 <= zlen (encode v).
Proof. destruct v; cbn [encode]; rewrite ?zlen_cons; pose_lens; zlens; try lia. Qed.

Lemma leaf_reads b tv o depth t n v cap :
  byte_at b o = Ret t -> 0 <= o -> depth <= PT_DEPTH -> encode v = [t] -> tree_ok v -> levels v = 1 ->
  (forall i, nodes_of v i = [set_next (i + 1) n]) ->
  reads b tv o depth (item_done (mk_tv (nodes tv ++ [n]) cap) (zlen (nodes tv)) (o + 1)).
Proof.
  intros Ht Ho Hd He Hok Hlv Hn. rewrite item_done_last. cbn [reads snd fst nodes]. exists v. rewrite He.
  pose proof (byte_at_zdrop b o t Ho Ht) as Hb.
  rewrite Hn, Hlv. split_and!; try done; lia.
Qed.

Section Reads.
Context (mem : Z -> bool) (b : bytes).
Hypothesis (Hb : bytes_ok b).

Lemma span_reads tv o depth t hdr len cap v :
  (forall s, zlen s = len -> encode (v s) = t :: hdr ++ s /\ tree_ok (v s) /\ levels (v s) = 1 /\
     forall i, nodes_of (v s) i = [mk_tn t len s 0 (i + 1)]) ->
  byte_at b o = Ret t -> 0 <= o -> depth <= PT_DEPTH -> 0 <= len -> zdrop (o + 1) b = hdr ++ zdrop (o + 1 + zlen hdr) b ->
  reads b tv o depth (item_span (mk_tv (nodes tv ++ [mk_tn t 0 [] 0 0]) cap) b (zlen (nodes tv)) (o + 1 + zlen hdr) len).
Proof.
  intros Hv Ht Ho Hd Hl Hh. pose proof (zlen_nonneg hdr).
  pose proof (item_span_spec b (nodes tv) (mk_tn t 0 [] 0 0) cap (o + 1 + zlen hdr) len ltac:(lia) Hl) as H0.
  destruct (item_span _ _ _ _ _) as [v' [me o'|e|]]; [|done|done]. destruct H0 as (s & Es & -> & -> & Ed & En).
  destruct (Hv s Es) as (He & Hok & Hlv & Hn). exists (v s). cbn [snd fst]. rewrite He, Hlv, Hn, En.
  pose proof (byte_at_zdrop b o t Ho Ht) as Hbo.
  split_and!; try done; [lia|rewrite zlen_cons, zlen_app; lia|]. rewrite Hbo, Hh, Ed. cbn [app]. by rewrite <- app_assoc.
Qed.

(** A container around the items read behind its header. *)
Lemma container_reads tv o depth t cnt cap v' o' (mp : bool) :
  (if mp then t = t_map else t = t_arr) -> 0 <= cnt < 2 ^ 32 -> byte_at b o = Ret t -> 0 <= o ->
  zdrop (o + 1) b = pc_p32 cnt ++ zdrop (o + 5) b ->
  read_all b (mk_tv (nodes tv ++ [mk_tn t cnt [] 0 0]) cap) (o + 5) depth mp cnt (v', IOk 0 o') ->
  reads b tv o depth (item_done v' (zlen (nodes tv)) o').
Proof.
  intros Ht Hc Hbt Ho Hcnt (l & (Hok & Hlv & -> & Hz & Hn) & Hl). cbn [snd fst nodes] in *. destruct v' as [n c]. cbn [nodes] in Hn. subst n.
  rewrite <- app_assoc. cbn [app]. rewrite item_done_spec, zlen_forest, zlen_app. change (zlen [mk_tn t cnt [] 0 0]) with 1.
  pose proof (byte_at_zdrop b o t Ho Hbt) as Hbo. cbn [reads snd fst nodes set_next tn_type tn_len tn_p tn_i].
  destruct mp; subst t.
  - destruct Hl as (m & -> & <-). exists (PMap m). rewrite encode_map, levels_map, nodes_map, count_map.
    split_and!; try done; [apply tree_ok_map; split; [lia|done]|lia|rewrite zlen_cons, zlen_app, zlen_p32; lia| |by rewrite Z.add_assoc].
    rewrite Hbo, Hcnt, Hz. cbn [app]. by rewrite <- app_assoc.
  - subst cnt. exists (PArr l). rewrite nodes_arr. cbn [encode levels count].
    split_and!; try done; [apply tree_ok_arr; split; [lia|done]|unfold levels_of in Hlv; lia|rewrite zlen_cons, zlen_app, zlen_p32; lia| |unfold counts; by rewrite Z.add_assoc].
    rewrite Hbo, Hcnt, Hz. cbn [app]. by rewrite <- app_assoc.
Qed.

Lemma levels_pos v : 1 <= levels v.
Proof.
  destruct v; try (simpl; lia); [cbn [levels]; pose proof (levels_of_pos l); unfold levels_of in *; lia|].
  rewrite levels_map. pose proof (levels_of_pos (flat l)). lia.
Qed.

Lemma got_nil tv o depth : depth <= PT_DEPTH -> got b tv o depth [] tv o.
Proof. intros Hd. split_and!; [by apply list.Forall_nil|simpl; lia|simpl; change (zlen (@nil Z)) with 0; lia|done|simpl; by rewrite app_nil_r]. Qed.

Lemma got_app tv o depth l v1 o1 k v2 o2 : got b tv o depth l v1 o1 -> got b v1 o1 depth k v2 o2 -> got b tv o depth (l ++ k) v2 o2.
Proof.
  intros (A1 & A2 & -> & A4 & A5) (B1 & B2 & -> & B4 & B5). unfold got. rewrite flat_map_app, zlen_app. split_and!.
  - by apply Forall_app.
  - assert (levels_of (l ++ k) = Z.max (levels_of l) (levels_of k)) as ->; [|lia].
    clear. induction l as [|v l IH]; simpl; [pose proof (levels_of_pos k); lia|]. unfold levels_of in *. lia.
  - lia.
  - rewrite A4, B4. by rewrite <- app_assoc.
  - rewrite B5, A5, <- app_assoc, forest_app. do 3 f_equal. by rewrite zlen_app, zlen_forest.
Qed.

Lemma reads_got tv o depth v1 me o1 : reads b tv o (depth + 1) (v1, IOk me o1) ->
  exists v, got b tv o depth [v] v1 o1 /\ (forall t, byte_at b o = Ret t -> hd 0 (encode v) = t) /\ o < o1.
Proof.
  intros (v & Hok & Hlv & -> & Hz & -> & Hn). cbn [snd fst] in *. exists v. pose proof (encode_pos v). split_and!; [split_and!| |lia].
  - by repeat constructor.
  - unfold levels_of. cbn [foldr]. pose proof (levels_pos v). lia.
  - simpl. by rewrite app_nil_r.
  - simpl. by rewrite app_nil_r.
  - simpl. by rewrite app_nil_r.
  - intros t Ht. unfold byte_at in Ht. rewrite Hz in Ht. by destruct (encode v); [|injection Ht].
Qed.

Lemma got_end tv o depth l v' o' : got b tv o depth l v' o' -> 0 <= o <= zlen b -> o' <= zlen b.
Proof. intros (_ & _ & E & Hz & _) Ho. by eapply zlen_drop_le. Qed.

Lemma bulk_head v : hd 0 (encode v) = t_bulk -> exists k, v = PBulk k.
Proof. destruct v as [| | | | |[]| | |]; simpl; try done. eauto. Qed.

(** Enough fuel for the item at [o], and for the items from [o] on. *)
Definition item_ok (fuel : nat) : Prop := forall tv o depth, 0 <= o -> Z.max 1 (2 * (zlen b - o) + 2) <= Z.of_nat fuel ->
  reads b tv o depth (item mem fuel b tv o depth).
Definition items_ok (fuel : nat) : Prop := forall tv o depth mp todo, 0 <= o <= zlen b -> 0 <= todo -> depth <= PT_DEPTH ->
  2 * (zlen b - o) + 3 <= Z.of_nat fuel -> read_all b tv o depth mp todo (items mem fuel b tv o depth mp todo).

Lemma item_step fuel : items_ok fuel -> item_ok (S fuel).
Proof.
  intros IHs. - intros tv o depth Ho Hf. cbn [item].
  rewrite Z.gtb_ltb, Z.geb_leb. destruct (Z.ltb_spec PT_DEPTH depth) as [|Hd]; [done|].
  destruct (Z.leb_spec (zlen b) o) as [|Hlt]; [done|].
  destruct (node_add mem tv) as [[me v1]|] eqn:Ea; [|done]. apply node_add_spec in Ea as [-> (cap & ->)].
  destruct (byte_at_ok b o ltac:(lia)) as [t Ht]. rewrite Ht. rewrite tv_set_last. cbn [set_type tn_len tn_p tn_i tn_next].
  destruct (Z.eqb_spec t t_nil) as [->|Nn]; [by eapply (leaf_reads _ _ _ _ t_nil _ PNil)|]. cbn [orb].
  destruct (Z.eqb_spec t t_true) as [->|Nt]; [by eapply (leaf_reads _ _ _ _ t_true _ (PBool true))|]. cbn [orb].
  destruct (Z.eqb_spec t t_false) as [->|Nf]; [by eapply (leaf_reads _ _ _ _ t_false _ (PBool false))|]. cbn [orb].
  destruct (Z.eqb_spec t t_ok) as [->|No]; [by eapply (leaf_reads _ _ _ _ t_ok _ POk)|]. cbn [orb].
  pose proof (byte_at_zdrop b o t Ho Ht) as Hbo.
  destruct (Z.eqb_spec t t_int) as [->|Ni].
  { destruct (Z.ltb_spec (zlen b - (o + 1)) 8) as [|H8]; [done|].
    destruct (int_read b (o + 1) Hb ltac:(lia) H8) as (u & -> & Hu & Eu). rewrite tv_set_last, item_done_last.
    exists (PInt (s64 u)). cbn [snd fst nodes encode]. assert (u64 (s64 u) = u) as Hus by word_lia. rewrite Hus.
    split_and!; try done; [apply s64_range|simpl; lia|rewrite zlen_cons, zlen_p64; lia|].
    rewrite Hbo, Eu. cbn [app]. by replace (o + 1 + 8) with (o + (1 + 8)) by lia. }
  destruct (Z.eqb_spec t t_num) as [->|Nd].
  { destruct (Z.ltb_spec (zlen b - (o + 1)) 2) as [|H2]; [done|].
    destruct (len16_read b (o + 1) Hb ltac:(lia) H2) as (l & -> & Hl & El).
    apply (span_reads tv o depth t_num (pc_p16 l) l cap PNum); try done; [|word_lia].
    intros s Es. cbn [encode]. rewrite Es. split_and!; [done|simpl; word_lia|done|]. intros i. cbn [nodes_of count]. by rewrite Es. }
  destruct (Z.eqb_spec t t_bulk) as [->|Nb].
  { cbn [orb]. destruct (Z.ltb_spec (zlen b - (o + 1)) 4) as [|H4]; [done|].
    destruct (get32_read b (o + 1) Hb ltac:(lia) ltac:(lia)) as (l & -> & Hl & El).
    apply (span_reads tv o depth t_bulk (pc_p32 l) l cap PBulk); try done; [|word_lia].
    intros s Es. cbn [encode]. rewrite Es. split_and!; [done|simpl; word_lia|done|]. intros i. cbn [nodes_of count]. by rewrite Es. }
  destruct (Z.eqb_spec t t_err) as [->|Ne].
  { cbn [orb]. destruct (Z.ltb_spec (zlen b - (o + 1)) 4) as [|H4]; [done|].
    destruct (get32_read b (o + 1) Hb ltac:(lia) ltac:(lia)) as (l & -> & Hl & El).
    apply (span_reads tv o depth t_err (pc_p32 l) l cap PErr); try done; [|word_lia].
    intros s Es. cbn [encode]. rewrite Es. split_and!; [done|simpl; word_lia|done|]. intros i. cbn [nodes_of count]. by rewrite Es. }
  cbn [orb]. destruct ((t =? t_arr) || (t =? t_map)) eqn:Ta; [|done].
  destruct (Z.ltb_spec (zlen b - (o + 1)) 4) as [|H4]; [done|].
  destruct (get32_read b (o + 1) Hb ltac:(lia) ltac:(lia)) as (l & -> & Hl & El). rewrite tv_set_last. cbn [set_len tn_type tn_p tn_i tn_next].
  replace (o + 1 + 4) with (o + 5) in * by lia. set (v0 := mk_tv _ cap).
  pose proof (IHs v0 (o + 5) depth (t =? t_map) l ltac:(lia) ltac:(word_lia) Hd ltac:(lia)) as R.
  destruct (items mem fuel b v0 (o + 5) depth (t =? t_map) l) as [v' [me' o'|e|]]; [|done|done].
  eapply (container_reads _ _ _ t l cap v' o' (t =? t_map)); try done.
  apply orb_prop in Ta. destruct (Z.eqb_spec t t_map), (Z.eqb_spec t t_arr); try done. by destruct Ta.
Qed.

Lemma items_step fuel : item_ok fuel -> items_ok fuel -> items_ok (S fuel).
Proof.
  intros IHi IHs. - intros tv o depth mp todo Ho Ht Hd Hf. cbn [items]. destruct (Z.leb_spec todo 0) as [Hz|Hz].
  { exists []. split; [by apply got_nil|]. destruct mp; [exists []; split; [done|]|]; change (zlen (@nil _)) with 0; lia. }
  assert (forall pre tv1 o1, got b tv o depth pre tv1 o1 -> o <= o1 <= zlen b -> (if mp then exists k, pre = [PBulk k] else pre = []) ->
    read_all b tv o depth mp todo (match item mem fuel b tv1 o1 (depth + 1) with
      | (v, IOk _ o) => items mem fuel b v o depth mp (todo - 1) | r => r end)) as Value.
  { intros pre tv1 o1 Hg Ho1 Hpre. pose proof (IHi tv1 o1 (depth + 1) ltac:(lia) ltac:(lia)) as R.
    destruct (item mem fuel b tv1 o1 (depth + 1)) as [v2 [me o2|e|]]; [|done|done].
    apply reads_got in R as (v & Hg2 & _ & Hlt). pose proof (got_end _ _ _ _ _ _ Hg2 ltac:(lia)).
    pose proof (IHs v2 o2 depth mp (todo - 1) ltac:(lia) ltac:(lia) Hd ltac:(lia)) as R.
    destruct (items mem fuel b v2 o2 depth mp (todo - 1)) as [v3 [me3 o3|e|]]; [|done|done].
    destruct R as (l & Hg3 & Hl). cbn [snd fst] in *. exists (pre ++ v :: l). cbn [snd fst]. split.
    - by eapply got_app, (got_app _ _ _ [v]).
    - destruct mp; [|subst pre; simpl; rewrite zlen_cons; lia]. destruct Hpre as (k & ->), Hl as (m & -> & Hm).
      exists ((k, v) :: m). split; [done|]. rewrite zlen_cons. lia. }
  destruct mp; [|apply (Value []); [by apply got_nil|lia|done]].
  rewrite Z.geb_leb. destruct (Z.leb_spec (zlen b) o); [done|]. destruct (byte_at_ok b o ltac:(lia)) as [t Hbt]. rewrite Hbt.
  destruct (Z.eqb_spec t t_bulk) as [->|]; cbn [negb]; [|done].
  pose proof (IHi tv o (depth + 1) ltac:(lia) ltac:(lia)) as R.
  destruct (item mem fuel b tv o (depth + 1)) as [v1 [me o1|e|]]; [|done|done].
  apply reads_got in R as (v & Hg & Hh & Hlt). destruct (bulk_head v (Hh _ Hbt)) as (k & ->). pose proof (got_end _ _ _ _ _ _ Hg ltac:(lia)).
  apply (Value [PBulk k]); [done|lia|eauto].
Qed.

Lemma item_reads fuel : item_ok fuel /\ items_ok fuel.
Proof.
  induction fuel as [|fuel [IHi IHs]]; [split; red; intros; lia|]. split; [by apply item_step|by apply items_step].
Qed.

End Reads.

(** * Every tree is accepted *)

Lemma p32_inj a c x y : is_u32 a -> is_u32 c -> pc_p32 a ++ x = pc_p32 c ++ y -> a = c /\ x = y.
Proof.
  intros Ha Hc E. apply app_inj_1 in E as [E ->]; [|done]. split; [|done].
  pose proof (pc_g32_p32 a []) as Ea. rewrite E, pc_g32_p32 in Ea. injection Ea as Ea. by rewrite !u32_id in Ea.
Qed.
Lemma p16_inj a c x y : is_u16 a -> is_u16 c -> pc_p16 a ++ x = pc_p16 c ++ y -> a = c /\ x = y.
Proof.
  intros Ha Hc E. apply app_inj_1 in E as [E ->]; [|done]. split; [|done].
  pose proof (pc_g16_p16 a []) as Ea. rewrite E, pc_g16_p16 in Ea. injection Ea as Ea. by rewrite !u16_id in Ea.
Qed.
Lemma p64_inj a c x y : is_u64 a -> is_u64 c -> pc_p64 a ++ x = pc_p64 c ++ y -> a = c /\ x = y.
Proof.
  intros Ha Hc E. apply app_inj_1 in E as [E ->]; [|done]. split; [|done].
  pose proof (pc_g64_p64 a []) as Ea. rewrite E, pc_g64_p64 in Ea. injection Ea as Ea. by rewrite !u64_id in Ea.
Qed.

Section Complete.
Context (mem : Z -> bool) (b : bytes).
Hypothesis (Hb : bytes_ok b) (Hmem : forall n, mem n = true).

(** The item at [o] is read as [v]. *)
Definition reads_as (v : ptree) (depth : Z) : Prop := forall fuel tv o r, 0 <= o <= zlen b -> zdrop o b = encode v ++ r ->
  2 * (zlen b - o) + 2 <= Z.of_nat fuel ->
  exists cap, item mem fuel b tv o depth = (mk_tv (nodes tv ++ nodes_of v (zlen (nodes tv))) cap, IOk (zlen (nodes tv)) (o + zlen (encode v))).

Lemma node_add_mem tv : exists cap, node_add mem tv = Some (zlen (nodes tv), mk_tv (nodes tv ++ [mk_tn 0 0 [] 0 0]) cap).
Proof. unfold node_add. destruct (_ =? _); [rewrite Hmem|]; eauto. Qed.

Lemma drop_room o k r : 0 <= o <= zlen b -> zdrop o b = k ++ r -> o + zlen k <= zlen b.
Proof. intros Ho E. apply (f_equal zlen) in E. rewrite zlen_app, zlen_zdrop in E. pose proof (zlen_nonneg r). lia. Qed.

(** The first steps of an item: its level, its node and its tag. *)
Lemma item_enter tv o depth t r : 0 <= o <= zlen b -> zdrop o b = t :: r -> depth <= PT_DEPTH ->
  o < zlen b /\ zdrop (o + 1) b = r /\ byte_at b o = Ret t /\
  exists cap, node_add mem tv = Some (zlen (nodes tv), mk_tv (nodes tv ++ [mk_tn 0 0 [] 0 0]) cap).
Proof.
  intros Ho E Hd. pose proof (drop_room o [t] r Ho E) as Hl. change (zlen [t]) with 1 in Hl. split_and!; [lia| |by eapply byte_at_drop|apply node_add_mem].
  apply (zdrop_after b [t] r o); [lia|done].
Qed.

Lemma span_as N n cap o s r : 0 <= o <= zlen b -> zdrop o b = s ++ r ->
  item_span (mk_tv (N ++ [n]) cap) b (zlen N) o (zlen s) =
  (mk_tv (N ++ [set_next (zlen N + 1) (set_p s (set_len (zlen s) n))]) cap, IOk (zlen N) (o + zlen s)).
Proof.
  intros Ho E. pose proof (drop_room o s r Ho E). unfold item_span. rewrite tv_set_last, (proj2 (Z.ltb_ge _ _)) by lia.
  rewrite sub_at_ok by (pose_lens; lia). rewrite tv_set_last, item_done_last. rewrite E, ztake_app by done. done.
Qed.

Ltac enter fuel tv o t r Ho E Hd :=
  destruct fuel as [|fuel]; [simpl in *; lia|]; cbn [item];
  destruct (item_enter tv o _ t r Ho E Hd) as (Hlt & Hr & Hbt & cap & Ea);
  rewrite Z.gtb_ltb, Z.geb_leb, (proj2 (Z.ltb_ge _ _)), (proj2 (Z.leb_gt _ _)) by lia; rewrite Ea, Hbt, tv_set_last; cbn [set_type tn_len tn_p tn_i tn_next].

Lemma leaf_as v depth t : depth <= PT_DEPTH -> encode v = [t] -> (forall i, nodes_of v i = [mk_tn t 0 [] 0 (i + 1)]) ->
  (t =? t_nil) || (t =? t_true) || (t =? t_false) || (t =? t_ok) = true -> reads_as v depth.
Proof.
  intros Hd He Hn Ht fuel tv o r Ho E Hf. rewrite He in *. enter fuel tv o t r Ho E Hd. rewrite Ht, item_done_last, Hn. eauto.
Qed.

Lemma int_as x depth : depth <= PT_DEPTH -> is_s64 x -> reads_as (PInt x) depth.
Proof.
  intros Hd Hx fuel tv o r Ho E Hf. cbn [encode app] in *. pose proof (drop_room o (t_int :: pc_p64 (u64 x)) r Ho E) as Hl. rewrite zlen_cons, zlen_p64 in Hl.
  enter fuel tv o t_int (pc_p64 (u64 x) ++ r) Ho E Hd. cbn -[item_done int_bytes zlen nodes_of].
  rewrite (proj2 (Z.ltb_ge _ _)) by lia. destruct (int_read b (o + 1) Hb ltac:(lia) ltac:(lia)) as (u & -> & Hu & Eu).
  rewrite Hr in Eu. apply p64_inj in Eu as [<- _]; [|apply u64_range|done]. rewrite tv_set_last, item_done_last, s64_u64 by done.
  exists cap. replace (o + 1 + 8) with (o + zlen (t_int :: pc_p64 (u64 x))) by (rewrite zlen_cons, zlen_p64; lia). done.
Qed.

Lemma num_as s depth : depth <= PT_DEPTH -> zlen s < 2 ^ 16 -> reads_as (PNum s) depth.
Proof.
  intros Hd Hs fuel tv o r Ho E Hf. pose proof (drop_room o _ r Ho E) as Hl. cbn [encode app] in *. rewrite zlen_cons, zlen_app, zlen_p16 in *.
  pose proof (zlen_nonneg s). rewrite <- app_assoc in E.
  enter fuel tv o t_num (pc_p16 (zlen s) ++ s ++ r) Ho E Hd. cbn -[item_span len16 zlen nodes_of].
  rewrite (proj2 (Z.ltb_ge _ _)) by lia. destruct (len16_read b (o + 1) Hb ltac:(lia) ltac:(lia)) as (u & -> & Hu & Eu).
  rewrite Hr in Eu. apply p16_inj in Eu as [<- Eu]; [|word_lia|done]. replace (o + 1 + 2) with (o + 3) in * by lia.
  rewrite (span_as _ _ _ _ s r) by (done || lia). exists cap. replace (o + 3 + zlen s) with (o + (1 + (2 + zlen s))) by lia. done.
Qed.

Lemma bulk_as v s t depth : depth <= PT_DEPTH -> zlen s < 2 ^ 32 -> encode v = t :: pc_p32 (zlen s) ++ s -> t = t_bulk \/ t = t_err ->
  (forall i, nodes_of v i = [mk_tn t (zlen s) s 0 (i + 1)]) -> reads_as v depth.
Proof.
  intros Hd Hs He Ht Hn fuel tv o r Ho E Hf. pose proof (drop_room o _ r Ho E) as Hl. rewrite He in *. cbn [app] in *. rewrite zlen_cons, zlen_app, zlen_p32 in *.
  pose proof (zlen_nonneg s). rewrite <- app_assoc in E. enter fuel tv o t (pc_p32 (zlen s) ++ s ++ r) Ho E Hd.
  assert ((t =? t_nil) || (t =? t_true) || (t =? t_false) || (t =? t_ok) = false /\ (t =? t_int) = false /\ (t =? t_num) = false /\ (t =? t_bulk) || (t =? t_err) = true) as (-> & -> & -> & ->) by (by destruct Ht as [-> | ->]).
  rewrite (proj2 (Z.ltb_ge _ _)) by lia. destruct (get32_read b (o + 1) Hb ltac:(lia) ltac:(lia)) as (u & -> & Hu & Eu).
  rewrite Hr in Eu. apply p32_inj in Eu as [<- Eu]; [|word_lia|done]. replace (o + 1 + 4) with (o + 5) in * by lia.
  rewrite (span_as _ _ _ _ s r) by (done || lia). rewrite Hn. exists cap. replace (o + 5 + zlen s) with (o + (1 + (4 + zlen s))) by lia. done.
Qed.

(** The items of a container. *)
Definition all_as (l : list ptree) (depth : Z) (mp : bool) (todo : Z) : Prop := forall fuel tv o r, 0 <= o <= zlen b ->
  zdrop o b = flat_map encode l ++ r -> 2 * (zlen b - o) + 3 <= Z.of_nat fuel ->
  exists cap, items mem fuel b tv o depth mp todo =
    (mk_tv (nodes tv ++ forest l (zlen (nodes tv))) cap, IOk 0 (o + zlen (flat_map encode l))).

Lemma all_nil depth mp : all_as [] depth mp 0.
Proof.
  intros fuel tv o r Ho E Hf. destruct fuel as [|fuel]; [lia|]. simpl. rewrite app_nil_r. change (zlen (@nil Z)) with 0. rewrite Z.add_0_r.
  exists (vcap tv). by destruct tv.
Qed.

Lemma all_cons v l depth n : 0 <= n -> reads_as v (depth + 1) -> all_as l depth false n -> all_as (v :: l) depth false (n + 1).
Proof.
  intros Hn Hv Hl fuel tv o r Ho E Hf. destruct fuel as [|fuel]; [lia|]. cbn [items]. rewrite (proj2 (Z.leb_gt _ _)) by lia.
  cbn [flat_map] in *. rewrite <- app_assoc in E. pose proof (drop_room o _ _ Ho E). pose proof (encode_pos v).
  destruct (Hv fuel tv o _ Ho E ltac:(lia)) as (c1 & ->). replace (n + 1 - 1) with n by lia.
  destruct (Hl fuel (mk_tv (nodes tv ++ nodes_of v (zlen (nodes tv))) c1) (o + zlen (encode v)) r) as (c2 & ->); [lia|apply (zdrop_after b (encode v)); [lia|done]|lia|].
  exists c2. cbn [nodes forest]. rewrite <- app_assoc, !zlen_app, nodes_len. do 2 f_equal. lia.
Qed.

Lemma all_pair k v l depth n : 0 <= n -> reads_as (PBulk k) (depth + 1) -> reads_as v (depth + 1) -> all_as l depth true n ->
  all_as (PBulk k :: v :: l) depth true (n + 1).
Proof.
  intros Hn Hk Hv Hl fuel tv o r Ho E Hf. destruct fuel as [|fuel]; [lia|]. cbn [items]. rewrite (proj2 (Z.leb_gt _ _)) by lia.
  assert (flat_map encode (PBulk k :: v :: l) = encode (PBulk k) ++ encode v ++ flat_map encode l) as Ef by done. rewrite Ef in *. clear Ef.
  rewrite <- !app_assoc in E. pose proof (drop_room o _ _ Ho E) as L1. pose proof (encode_pos (PBulk k)). pose proof (encode_pos v).
  rewrite Z.geb_leb, (proj2 (Z.leb_gt _ _)) by lia. assert (byte_at b o = Ret t_bulk) as -> by (eapply byte_at_drop; rewrite E; reflexivity). cbn [negb]. change (t_bulk =? t_bulk) with true. cbn [negb].
  destruct (Hk fuel tv o _ Ho E ltac:(lia)) as (c1 & ->). apply zdrop_after in E; [|lia]. 
  pose proof (drop_room (o + zlen (encode (PBulk k))) _ _ ltac:(lia) E) as L2.
  destruct (Hv fuel (mk_tv (nodes tv ++ nodes_of (PBulk k) (zlen (nodes tv))) c1) (o + zlen (encode (PBulk k))) _ ltac:(lia) E ltac:(lia)) as (c2 & ->). apply zdrop_after in E; [|lia].
  replace (n + 1 - 1) with n by lia. cbn [nodes].
  destruct (Hl fuel (mk_tv ((nodes tv ++ nodes_of (PBulk k) (zlen (nodes tv))) ++ nodes_of v (zlen (nodes tv ++ nodes_of (PBulk k) (zlen (nodes tv))))) c2) (o + zlen (encode (PBulk k)) + zlen (encode v)) r ltac:(lia) E ltac:(lia)) as (c3 & ->).
  exists c3. cbn [forest]. rewrite <- !app_assoc, !zlen_app, !nodes_len. cbn [nodes]. rewrite <- !Z.add_assoc, !zlen_app, !nodes_len. rewrite ?Z.add_assoc, <- ?app_assoc. done.
Qed.

Lemma container_as v t (mp : bool) l n depth : (if mp then t = t_map else t = t_arr) -> 0 <= n < 2 ^ 32 -> depth <= PT_DEPTH ->
  encode v = t :: pc_p32 n ++ flat_map encode l -> (forall i, nodes_of v i = mk_tn t n [] 0 (i + 1 + counts l) :: forest l (i + 1)) ->
  all_as l depth mp n -> reads_as v depth.
Proof.
  intros Ht Hn Hd He Hnd Hl fuel tv o r Ho E Hf. pose proof (drop_room o _ r Ho E) as Hlen. rewrite He in *. cbn [app] in *. rewrite zlen_cons, zlen_app, zlen_p32 in *.
  pose proof (zlen_nonneg (flat_map encode l)). rewrite <- app_assoc in E. enter fuel tv o t (pc_p32 n ++ flat_map encode l ++ r) Ho E Hd.
  assert ((t =? t_nil) || (t =? t_true) || (t =? t_false) || (t =? t_ok) = false /\ (t =? t_int) = false /\ (t =? t_num) = false /\
    (t =? t_bulk) || (t =? t_err) = false /\ (t =? t_arr) || (t =? t_map) = true /\ (t =? t_map) = mp) as (-> & -> & -> & -> & -> & Tm) by (by destruct mp; subst t). rewrite Tm.
  rewrite (proj2 (Z.ltb_ge _ _)) by lia. destruct (get32_read b (o + 1) Hb ltac:(lia) ltac:(lia)) as (u & -> & Hu & Eu).
  rewrite Hr in Eu. apply p32_inj in Eu as [<- Eu]; [|word_lia|done]. replace (o + 1 + 4) with (o + 5) in * by lia.
  rewrite tv_set_last. unfold set_len, set_type. cbn [tn_type tn_len tn_p tn_i tn_next].
  destruct (Hl fuel (mk_tv (nodes tv ++ [mk_tn t n [] 0 0]) cap) (o + 5) r) as (c2 & ->); [lia|done|lia|].
  cbn [nodes]. rewrite <- app_assoc. cbn [app]. rewrite item_done_spec, zlen_forest, zlen_app. change (zlen [mk_tn t n [] 0 0]) with 1.
  rewrite Hnd. exists c2. replace (o + 5 + zlen (flat_map encode l)) with (o + (1 + (4 + zlen (flat_map encode l)))) by lia. done.
Qed.

Lemma tree_as v : tree_ok v -> forall depth, levels v + depth - 1 <= PT_DEPTH -> reads_as v depth.
Proof.
  induction v as [x|s|s|s| |c| |l IH|l IH] using ptree_ind; intros Hok depth Hd.
  - apply int_as; [cbn [levels] in Hd; lia|done].
  - apply num_as; [cbn [levels] in Hd; lia|done].
  - apply (bulk_as _ s t_bulk); [cbn [levels] in Hd; lia|done|done|by left|done].
  - apply (bulk_as _ s t_err); [cbn [levels] in Hd; lia|done|done|by right|done].
  - apply (leaf_as _ _ t_nil); [cbn [levels] in Hd; lia|done..].
  - apply (leaf_as _ _ (if c then t_true else t_false)); [cbn [levels] in Hd; lia|done|done|by destruct c].
  - apply (leaf_as _ _ t_ok); [cbn [levels] in Hd; lia|done..].
  - apply tree_ok_arr in Hok as [Hn Hok]. cbn [levels] in Hd. fold (levels_of l) in Hd. pose proof (levels_of_pos l).
    eapply (container_as _ t_arr false l (zlen l)); [done|pose_lens; lia|lia|done| |].
    { intros i. rewrite nodes_arr. cbn [count]. fold (counts l). by rewrite Z.add_assoc. }
    clear Hn. induction l as [|v l IHl]; [apply all_nil|]. rewrite zlen_cons, Z.add_comm. apply list.Forall_cons in IH as [IHv IH]. apply list.Forall_cons in Hok as [Hv Hok].
    unfold levels_of in *. cbn [foldr] in *. pose proof (levels_of_pos l). unfold levels_of in *. pose proof (levels_pos v).
    apply all_cons; [apply zlen_nonneg|apply IHv; [done|lia]|apply IHl; done || lia].
  - apply tree_ok_map in Hok as [Hn Hok]. rewrite levels_map in Hd. pose proof (levels_of_pos (flat l)).
    eapply (container_as _ t_map true (flat l) (zlen l)); [done|pose_lens; lia|lia|apply encode_map| |].
    { intros i. rewrite nodes_map, count_map. by rewrite Z.add_assoc. }
    clear Hn. induction l as [|[k v] l IHl]; [apply all_nil|]. rewrite zlen_cons, Z.add_comm. cbn in IH, Hok.
    apply list.Forall_cons in IH as [IHk IH]. apply list.Forall_cons in IH as [IHv IH].
    apply list.Forall_cons in Hok as [Hk Hok]. apply list.Forall_cons in Hok as [Hv Hok].
    unfold levels_of in *. cbn in Hd, H. pose proof (levels_of_pos (flat l)). unfold levels_of, flat in *. pose proof (levels_pos v).
    apply (all_pair k v); [apply zlen_nonneg|apply IHk; [done|simpl; lia]|apply IHv; [done|lia]|apply IHl; done || lia].
Qed.

End Complete.

Lemma tv_parse_trees (mem : Z -> bool) (v0 : pc_tv) (b : bytes) (Hb : bytes_ok b) :
  let '(tv, r) := pc_tv_parse mem v0 b in
  (r = IOk 0 (zlen b) \/ exists e, r = IErr e) /\
  (r = IOk 0 (zlen b) -> exists t, b = encode t /\ tree_ok t /\ levels t <= PT_DEPTH /\ nodes tv = nodes_of t 0) /\
  (forall t, b = encode t -> tree_ok t -> levels t <= PT_DEPTH -> (forall n, mem n = true) ->
     r = IOk 0 (zlen b) /\ nodes tv = nodes_of t 0).
Proof.
  unfold pc_tv_parse. set (v1 := mk_tv [] (vcap v0)). pose proof (zlen_nonneg b) as H0.
  pose proof (proj1 (item_reads mem b Hb (item_fuel b)) v1 0 1 ltac:(lia) ltac:(unfold item_fuel, zlen; lia)) as R.
  assert (forall t, b = encode t -> tree_ok t -> levels t <= PT_DEPTH -> (forall n, mem n = true) ->
    exists cap, item mem (item_fuel b) b v1 0 1 = (mk_tv (nodes_of t 0) cap, IOk 0 (zlen b))) as Hc.
  { intros t E Hok Hl Hm. destruct (tree_as mem b Hb Hm t Hok 1 ltac:(lia) (item_fuel b) v1 0 []) as (cap & Ec);
      [lia|by rewrite app_nil_r|unfold item_fuel, zlen; lia|]. rewrite <- E in Ec. eauto. }
  destruct (item mem (item_fuel b) b v1 0 1) as [tv [me o|e|]]; [|split_and!; [by right; exists e|done|]|done].
  - destruct R as (t & Hok & Hl & Eo & Hz & Em & Hn). cbn [snd fst v1 nodes app] in *. destruct (Z.eqb_spec o (zlen b)) as [->|Ne]; cbn [negb].
    + split_and!; [by left| |].
      * intros _. exists t. rewrite (zdrop_all (zlen b) b), app_nil_r, zdrop_0 in Hz by lia. split_and!; [done|done|lia|]. rewrite Hn, Em. done.
      * intros t' E Hok' Hl' Hm. destruct (Hc t' E Hok' Hl' Hm) as (cap & [= -> ->]). done.
    + split_and!; [right; eauto|done|]. intros t' E Hok' Hl' Hm. destruct (Hc t' E Hok' Hl' Hm) as (cap & [= -> ->]). done.
  - intros t E Hok Hl Hm. by destruct (Hc t E Hok Hl Hm) as (cap & ?).
Qed.

(** C34. The tree reader on any bytes whatever comes to an end without reading outside
    them, and with memory for its nodes it accepts them exactly when they are the
    encoding of a tree of at most PT_DEPTH levels; the nodes it has built then are that
    tree's. *)
Theorem tv_parse_accepts_trees (mem : Z -> bool) (v0 : pc_tv) (b : bytes) (Hb : bytes_ok b) :
  let '(tv, r) := pc_tv_parse mem v0 b in
  (r = IOk 0 (zlen b) \/ exists e, r = IErr e) /\
  (r = IOk 0 (zlen b) -> exists t, b = encode t /\ tree_ok t /\ levels t <= PT_DEPTH /\ nodes tv = nodes_of t 0) /\
  (forall t, b = encode t -> tree_ok t -> levels t <= PT_DEPTH -> (forall n, mem n = true) ->
     r = IOk 0 (zlen b) /\ nodes tv = nodes_of t 0).
Proof. by apply tv_parse_trees. Qed.

(** * The accessors *)

Section Accessors.
Context (tv : pc_tv).

(** The trees [l] lie from node [i] on. *)
Definition at_node (i : Z) (l : list ptree) : Prop := exists A B, nodes tv = A ++ forest l i ++ B /\ zlen A = i.

(** Node [i] is the root of [v]. *)
Definition node_is (i : Z) (v : ptree) : Prop := at_node i [v].

Lemma at_node_cons i v l : at_node i (v :: l) -> node_is i v /\ at_node (i + count v) l.
Proof.
  intros (A & B & E & HA). cbn [forest] in E. split.
  - exists A, (forest l (i + count v) ++ B). simpl. rewrite app_nil_r. split; [|done]. by rewrite E, <- app_assoc.
  - exists (A ++ nodes_of v i), B. rewrite zlen_app, nodes_len, HA. split; [|done]. by rewrite E, <- !app_assoc.
Qed.

Lemma nodes_head v i : exists n r, nodes_of v i = n :: r /\ tn_next n = i + count v.
Proof. destruct v; by eexists _, _. Qed.

Lemma node_is_at i v : node_is i v -> exists n r, node_at tv i = Ret n /\ nodes_of v i = n :: r /\ tn_next n = i + count v /\ in_nodes tv i = true.
Proof.
  intros (A & B & E & HA). cbn [forest] in E. rewrite app_nil_r in E. destruct (nodes_head v i) as (n & r & En & Hn). exists n, r.
  pose proof (zlen_nonneg A). rewrite En in E. cbn [app] in E. unfold node_at, in_nodes. rewrite (proj2 (Z.ltb_ge _ _)) by lia. rewrite E.
  rewrite list_lookup_middle by (unfold zlen in HA; lia). split_and!; try done.
  rewrite (proj2 (Z.leb_le _ _)), (proj2 (Z.ltb_lt _ _)); [done| |lia]. rewrite !zlen_app, zlen_cons. pose_lens. lia.
Qed.

(** The items of a container, and where they begin. *)
Lemma arr_kids i l : node_is i (PArr l) -> at_node (i + 1) l.
Proof.
  intros (A & B & E & HA). cbn [forest] in E. rewrite app_nil_r, nodes_arr in E. eexists (A ++ [_]), B. rewrite <- app_assoc. split; [exact E|].
  rewrite zlen_app, HA. done.
Qed.
Lemma map_kids i l : node_is i (PMap l) -> at_node (i + 1) (flat l).
Proof.
  intros (A & B & E & HA). cbn [forest] in E. rewrite app_nil_r, nodes_map in E. eexists (A ++ [_]), B. rewrite <- app_assoc. split; [exact E|].
  rewrite zlen_app, HA. done.
Qed.

(** Every node is the root of some tree. *)
Lemma forest_roots l : Forall (fun v => forall i, node_is i v -> forall j, i <= j < i + count v -> exists s, node_is j s) l ->
  forall i, at_node i l -> forall j, i <= j < i + counts l -> exists s, node_is j s.
Proof.
  induction 1 as [|v l Hv Hl IH]; intros i Ha j Hj; [simpl in Hj; lia|]. apply at_node_cons in Ha as [Hn Ha].
  destruct (decide (j < i + count v)); [eapply Hv; [done|lia]|]. eapply IH; [done|]. unfold counts in *. simpl in Hj. lia.
Qed.

Lemma tree_roots v : forall i, node_is i v -> forall j, i <= j < i + count v -> exists s, node_is j s.
Proof.
  induction v as [x|s|s|s| |c| |l IH|l IH] using ptree_ind; intros i Hi j Hj;
    try (cbn [count] in Hj; assert (j = i) as -> by lia; by eexists).
  - destruct (decide (j = i)) as [->|]; [by eexists|]. apply (forest_roots l IH (i + 1)); [by apply arr_kids|]. cbn [count] in Hj. unfold counts. lia.
  - destruct (decide (j = i)) as [->|]; [by eexists|]. apply (forest_roots _ IH (i + 1)); [by apply map_kids|]. rewrite count_map in Hj. lia.
Qed.

(** The value of the first pair with this key. *)
Fixpoint assoc (key : bytes) (l : list (bytes * ptree)) : option ptree :=
  match l with [] => None | (k, v) :: l => if decide (k = key) then Some v else assoc key l end.

Lemma get_keys_spec key l : forall k, at_node k (flat l) -> exists r, get_keys tv (length l) k key = Ret r /\
  match assoc key l with Some v => node_is r v | None => r = -1 end.
Proof.
  induction l as [|[x v] l IH]; intros k Ha; [by exists (-1)|]. cbn [length get_keys assoc]. change (flat ((x, v) :: l)) with (PBulk x :: v :: flat l) in Ha.
  apply at_node_cons in Ha as [Hk Ha]. apply at_node_cons in Ha as [Hv Ha].
  destruct (node_is_at _ _ Hk) as (n & r & -> & En & Hn & _). injection En as <- _. cbn [obind tn_next tn_len tn_p].
  change (count (PBulk x)) with 1 in *. destruct (decide (x = key)) as [->|Hne].
  - rewrite Z.eqb_refl, ztake_all by lia. rewrite bool_decide_eq_true_2 by done. by eexists.
  - destruct ((zlen x =? zlen key) && _) eqn:Eb.
    { bool_facts. apply bool_decide_eq_true in H0. rewrite ztake_all in H0 by lia. done. }
    destruct (node_is_at _ _ Hv) as (nv & rv & -> & _ & Hnv & _). cbn [obind]. rewrite Hnv. by apply IH.
Qed.

Lemma type_of v i : exists n r, nodes_of v i = n :: r /\
  (tn_type n =? t_map) = match v with PMap _ => true | _ => false end /\ (tn_type n =? t_arr) = match v with PArr _ => true | _ => false end /\
  (match v with PArr l => tn_len n = zlen l | PMap l => tn_len n = zlen l | _ => True end).
Proof. destruct v as [| | | | |[]| | |]; by eexists _, _. Qed.

Lemma get_spec i v key : node_is i v -> exists r, pc_tv_get tv i key = Ret r /\
  match v with PMap l => match assoc key l with Some x => node_is r x | None => r = -1 end | _ => r = -1 end.
Proof.
  intros Hi. destruct (node_is_at _ _ Hi) as (n & r & En & Enn & _ & Hin). unfold pc_tv_get. rewrite Hin, En. cbn [negb obind].
  destruct (type_of v i) as (n' & r' & En' & Tm & _ & Hl). rewrite Enn in En'. injection En' as <- <-. rewrite Tm.
  destruct v; cbn [negb]; try (by eexists). rewrite Hl. unfold zlen. rewrite Nat2Z.id. apply get_keys_spec. by apply map_kids.
Qed.

Lemma at_arr_spec l : forall idx k, at_node k l -> (idx < length l)%nat -> exists r v, at_loop tv false idx k = Ret r /\ l !! idx = Some v /\ node_is r v.
Proof.
  induction l as [|v l IH]; intros idx k Ha Hi; [simpl in Hi; lia|]. apply at_node_cons in Ha as [Hv Ha]. destruct idx as [|idx]; cbn [at_loop obind].
  - by exists k, v.
  - destruct (node_is_at _ _ Hv) as (n & r & -> & _ & Hn & _). cbn [obind]. rewrite Hn. apply IH; [done|simpl in Hi; lia].
Qed.

Lemma at_map_spec l : forall idx k, at_node k (flat l) -> (idx < length l)%nat ->
  exists r m, at_loop tv true idx k = Ret r /\ l !! idx = Some m /\ node_is r m.2.
Proof.
  induction l as [|[x v] l IH]; intros idx k Ha Hi; [simpl in Hi; lia|]. change (flat ((x, v) :: l)) with (PBulk x :: v :: flat l) in Ha.
  apply at_node_cons in Ha as [Hk Ha]. apply at_node_cons in Ha as [Hv Ha].
  destruct (node_is_at _ _ Hk) as (n & r & En & _ & Hn & _). destruct idx as [|idx]; cbn [at_loop]; rewrite En; cbn [obind]; rewrite Hn.
  - by exists (k + count (PBulk x)), (x, v).
  - destruct (node_is_at _ _ Hv) as (nv & rv & -> & _ & Hnv & _). cbn [obind]. rewrite Hnv. apply IH; [done|simpl in Hi; lia].
Qed.

Lemma key_loop_spec l : forall idx k, at_node k (flat l) -> (idx < length l)%nat ->
  exists r m, key_loop tv idx k = Ret r /\ l !! idx = Some m /\ node_is r (PBulk m.1).
Proof.
  induction l as [|[x v] l IH]; intros idx k Ha Hi; [simpl in Hi; lia|]. change (flat ((x, v) :: l)) with (PBulk x :: v :: flat l) in Ha.
  apply at_node_cons in Ha as [Hk Ha]. apply at_node_cons in Ha as [Hv Ha]. destruct idx as [|idx]; cbn [key_loop].
  - by exists k, (x, v).
  - destruct (node_is_at _ _ Hk) as (n & r & -> & _ & Hn & _). cbn [obind]. rewrite Hn.
    destruct (node_is_at _ _ Hv) as (nv & rv & -> & _ & Hnv & _). cbn [obind]. rewrite Hnv. apply IH; [done|simpl in Hi; lia].
Qed.

(** What an index into a container stands for. *)
Definition item_at (v : ptree) (idx : Z) : option ptree :=
  match v with PArr l => l !! Z.to_nat idx | PMap l => snd <$> l !! Z.to_nat idx | _ => None end.
Definition key_at (v : ptree) (idx : Z) : option ptree :=
  match v with PMap l => (fun m => PBulk m.1) <$> l !! Z.to_nat idx | _ => None end.

Definition found (r : Z) (v : option ptree) : Prop := match v with Some x => node_is r x | None => r = -1 end.

Lemma at_spec i v idx : node_is i v -> 0 <= idx -> exists r, pc_tv_at tv i idx = Ret r /\ found r (item_at v idx).
Proof.
  intros Hi Hx. destruct (node_is_at _ _ Hi) as (n & r & En & Enn & _ & Hin). unfold pc_tv_at. rewrite Hin, En. cbn [negb obind].
  destruct (type_of v i) as (n' & r' & En' & Tm & Ta & Hl). rewrite Enn in En'. injection En' as <- <-. rewrite Tm, Ta, Z.geb_leb.
  destruct v as [| | | | | | |l|l]; cbn [negb andb orb item_at]; try (by exists (-1)); rewrite Hl; destruct (Z.leb_spec (zlen l) idx) as [Hge|Hlt].
  - exists (-1). split; [done|]. rewrite lookup_ge_None_2; [done|]. unfold zlen in Hge. lia.
  - destruct (at_arr_spec l (Z.to_nat idx) (i + 1)) as (k & x & E & Ex & Hn); [by apply arr_kids|unfold zlen in *; lia|]. exists k. by rewrite Ex.
  - exists (-1). split; [done|]. rewrite lookup_ge_None_2; [done|]. unfold zlen in Hge. lia.
  - destruct (at_map_spec l (Z.to_nat idx) (i + 1)) as (k & x & E & Ex & Hn); [by apply map_kids|unfold zlen in *; lia|]. exists k. by rewrite Ex.
Qed.

Lemma key_at_spec i v idx : node_is i v -> 0 <= idx -> exists r, pc_tv_key_at tv i idx = Ret r /\ found r (key_at v idx).
Proof.
  intros Hi Hx. destruct (node_is_at _ _ Hi) as (n & r & En & Enn & _ & Hin). unfold pc_tv_key_at. rewrite Hin, En. cbn [negb obind].
  destruct (type_of v i) as (n' & r' & En' & Tm & _ & Hl). rewrite Enn in En'. injection En' as <- <-. rewrite Tm, Z.geb_leb.
  destruct v as [| | | | | | |l|l]; cbn [negb orb key_at]; try (by exists (-1)); rewrite Hl; destruct (Z.leb_spec (zlen l) idx) as [Hge|Hlt].
  - exists (-1). split; [done|]. rewrite lookup_ge_None_2; [done|]. unfold zlen in Hge. lia.
  - destruct (key_loop_spec l (Z.to_nat idx) (i + 1)) as (k & x & E & Ex & Hn); [by apply map_kids|unfold zlen in *; lia|]. exists k. by rewrite Ex.
Qed.

End Accessors.

(** The accessors on the nodes of a tree: every node is the root of a subtree, and
    at any node and for any key or index they read only nodes that are there and answer
    the node of the map's first pair with that key, of the item, value or key at that
    index, and -1 where the tree has none or the index is out of range. *)
Theorem tv_accessors_exact (tv : pc_tv) (t : ptree) (i : Z) (Ht : nodes tv = nodes_of t 0) :
  (0 <= i < zlen (nodes tv) -> exists v, node_is tv i v) /\
  (forall v key idx, node_is tv i v -> 0 <= idx ->
     (exists r, pc_tv_get tv i key = Ret r /\ found tv r (match v with PMap l => assoc key l | _ => None end)) /\
     (exists r, pc_tv_at tv i idx = Ret r /\ found tv r (item_at v idx)) /\
     (exists r, pc_tv_key_at tv i idx = Ret r /\ found tv r (key_at v idx))) /\
  (forall key idx, ~ 0 <= i < zlen (nodes tv) -> pc_tv_get tv i key = Ret (-1) /\ pc_tv_at tv i idx = Ret (-1) /\ pc_tv_key_at tv i idx = Ret (-1)).
Proof.
  split_and!.
  - intros Hi. apply (tree_roots tv t 0); [|rewrite Ht, nodes_len in Hi; lia]. exists [], []. simpl. by rewrite !app_nil_r.
  - intros v key idx Hv Hx. split_and!; [|by apply at_spec|by apply key_at_spec]. destruct (get_spec tv i v key Hv) as (r & E & H). exists r. split; [done|].
    unfold found. by destruct v.
  - intros key idx Hi. assert (in_nodes tv i = false) as E.
    { unfold in_nodes. destruct (Z.leb_spec 0 i); [|done]. simpl. apply Z.ltb_ge. lia. }
    unfold pc_tv_get, pc_tv_at, pc_tv_key_at. by rewrite E.
Qed.

(** * What was written is read *)

Lemma nest_levels v : nest v <= levels v.
Proof.
  induction v as [x|s|s|s| |c| |l IH|l IH] using ptree_ind; try (simpl; lia).
  - cbn [nest levels]. induction IH as [|v l Hv Hl IH]; simpl in *; lia.
  - rewrite nest_map, levels_map. unfold nest_of, levels_of. induction IH as [|v k Hv Hk IH]; simpl in *; lia.
Qed.

(** What the typed accessors give for a member of a request's map. *)
Definition str_of (v : option ptree) (cap : Z) : option bytes :=
  match v with Some (PBulk s) => if zlen s <=? cap then Some s else None | _ => None end.
Definition int_of (v : option ptree) : option Z :=
  match v with
  | Some (PInt x) => Some x
  | Some (PNum s) => if (zlen s =? 0) || (zlen s >=? 24) then None else match strtoll (c_str s) with (x, []) => Some x | _ => None end
  | _ => None
  end.
Definition bool_of (v : option ptree) : bool := match v with Some (PBool b) => b | _ => false end.

Lemma typed_spec tv l key cap : nodes tv = nodes_of (PMap l) 0 ->
  pc_tv_get_str tv 0 key cap = Ret (str_of (assoc key l) cap) /\ pc_tv_get_int tv 0 key = Ret (int_of (assoc key l)) /\
  pc_tv_get_bool tv 0 key = Ret (bool_of (assoc key l)).
Proof.
  intros Ht. assert (node_is tv 0 (PMap l)) as H0 by (exists [], []; cbn [forest]; by rewrite !app_nil_r).
  destruct (get_spec tv 0 _ key H0) as (r & E & Hr). unfold pc_tv_get_str, pc_tv_get_int, pc_tv_get_bool. rewrite E. cbn [obind].
  destruct (assoc key l) as [v|]; [|by rewrite Hr]. destruct (node_is_at _ _ _ Hr) as (n & k & -> & En & _ & Hin). cbn [obind].
  unfold in_nodes in Hin. apply andb_prop in Hin as [Hi _]. apply Z.leb_le in Hi. rewrite (proj2 (Z.ltb_ge _ _)) by lia.
  destruct v as [x|s|s|s| |[]| |m|m]; [..|rewrite nodes_arr in En|rewrite nodes_map in En]; injection En as <- _; try done.
  - cbn -[strtoll c_str]. unfold int_of. by destruct ((zlen s =? 0) || (zlen s >=? 24)); [|destruct (strtoll (c_str s)) as [? []]].
  - cbn. rewrite Z.gtb_ltb. by destruct (Z.ltb_spec cap (zlen s)), (Z.leb_spec (zlen s) cap); try lia.
Qed.

(** A request's parameters from end to end: a map written by its calls into a
    buffer it fits, of at most PT_DEPTH levels, is whole, the reader accepts what was
    written, and the typed accessors give for each key exactly the map's first value of
    that name: its bytes if they fit the caller's buffer, its integer, its truth value. *)
Theorem tree_params_read (wmem : Z -> option (nat -> Z)) (rmem : Z -> bool) (buf : bytes) (v0 : pc_tv) (l : list (bytes * ptree))
  (Hcap : zlen buf < 2 ^ 62) (Hok : tree_ok (PMap l)) (Hb : bytes_ok (encode (PMap l))) (Hl : levels (PMap l) <= PT_DEPTH)
  (Hfit : zlen (encode (PMap l)) <= zlen buf) (Hmem : forall n, rmem n = true) :
  exists w, tw_run wmem (tree_ops (PMap l)) (pc_tw_init (Some buf) (zlen buf)) = Ret w /\ pc_tw_done w = 0 /\
  let '(tv, r) := pc_tv_parse rmem v0 (written w) in
  r = IOk 0 (tn w) /\
  forall key cap, pc_tv_get_str tv 0 key cap = Ret (str_of (assoc key l) cap) /\
    pc_tv_get_int tv 0 key = Ret (int_of (assoc key l)) /\ pc_tv_get_bool tv 0 key = Ret (bool_of (assoc key l)).
Proof.
  pose proof (init_ok (Some buf) (zlen buf) (conj eq_refl Hcap)) as Hi.
  destruct (tree_puts wmem _ Hok _ Hi) as (w & E & [Pk _ _ _ Pt _ Pr _]). exists w. split; [done|].
  assert (over w = false) as Ho by (apply Pr; [done|pose proof (nest_levels (PMap l)); cbn [pc_tw_init st]; rewrite zlen_nil; lia|cbn [pc_tw_init tn tcap]; lia]).
  destruct (Pt Ho) as (Ew & Es & En). change (written (pc_tw_init (Some buf) (zlen buf))) with (@nil Z) in Ew. cbn [pc_tw_init tn st bump] in *.
  split; [unfold pc_tw_done; by rewrite Ho, Es|]. cbn [app] in Ew. rewrite Ew, En, Z.add_0_l.
  pose proof (tv_parse_trees rmem v0 (encode (PMap l)) Hb) as P. revert P. destruct (pc_tv_parse rmem v0 (encode (PMap l))) as [tv r].
  intros (_ & _ & P). destruct (P _ eq_refl Hok Hl Hmem) as [-> Hn]. split; [done|]. intros key c. by apply typed_spec.
Qed.

(** * Examples *)

Definition x_mem (n : Z) : option (nat -> Z) := Some (fun _ => 170).
Definition x_req : list (bytes * ptree) := [([107], PBulk [1; 2; 3]); ([116], PInt (-5)); ([120], PArr [PNil; PBool true; PMap []])].
Definition x_buf : bytes := replicate 100 255.

Lemma x_req_ok : tree_ok (PMap x_req).
Proof. simpl. unfold is_s64, zlen. simpl. repeat split; lia. Qed.
Lemma x_req_bytes : bytes_ok (encode (PMap x_req)).
Proof. vm_compute. repeat constructor; discriminate. Qed.

Lemma tree_params_read_witness : exists w, tw_run x_mem (tree_ops (PMap x_req)) (pc_tw_init (Some x_buf) (zlen x_buf)) = Ret w /\ pc_tw_done w = 0.
Proof.
  destruct (tree_params_read x_mem (fun _ => true) x_buf (mk_tv [] 0) x_req) as (w & E & D & _); [|apply x_req_ok|apply x_req_bytes| | |reflexivity|].
  - vm_compute. reflexivity.
  - vm_compute. discriminate.
  - vm_compute. discriminate.
  - exists w. exact (conj E D).
Defined.

Lemma tv_parse_accepts_trees_witness : (pc_tv_parse (fun _ => true) (mk_tv [] 0) (encode (PMap x_req))).2 = IOk 0 (zlen (encode (PMap x_req))).
Proof.
  pose proof (tv_parse_accepts_trees (fun _ => true) (mk_tv [] 0) _ x_req_bytes) as P. revert P.
  destruct (pc_tv_parse _ _ _) as [tv r]. intros (_ & _ & P). apply (P (PMap x_req)); [reflexivity|apply x_req_ok| |reflexivity].
  vm_compute. discriminate.
Defined.

Lemma tv_accessors_exact_witness : let tv := (pc_tv_parse (fun _ => true) (mk_tv [] 0) (encode (PMap x_req))).1 in exists v, node_is tv 3 v.
Proof.
  intros tv. apply (tv_accessors_exact tv (PMap x_req) 3); [vm_compute; reflexivity|]. vm_compute. split; [discriminate|reflexivity].
Defined.

Lemma tw_writes_tree_witness : exists w, tw_run x_mem (tree_ops (PMap x_req)) (pc_tw_init None 0) = Ret w /\ written w = encode (PMap x_req).
Proof.
  destruct (tw_writes_tree x_mem None 0 (PMap x_req)) as (w & E & D & W); [exact I|apply x_req_ok|discriminate|]. exists w. split; [exact E|]. apply W, D.
  split; vm_compute; discriminate.
Defined.

Definition x_ops : list twop := [WMap; WKey [1]; WArr; WBulk [2]; WBack (mk_mark 5 1 0); WEnd; WEnd].

Lemma tw_memory_safe_witness : exists w, tw_run x_mem x_ops (pc_tw_init (Some [0; 0; 0; 0; 0; 0]) 6) = Ret w /\ tcap w = 6.
Proof.
  destruct (tw_memory_safe x_mem (Some [0; 0; 0; 0; 0; 0]) 6 x_ops) as (w & E & _ & _ & _ & C).
  - split; [reflexivity|vm_compute; reflexivity].
  - repeat constructor; vm_compute; (reflexivity || discriminate).
  - exists w. exact (conj E C).
Defined.

Definition x_open : pc_tw := mk_tw (t_arr :: replicate 20 7) 5 21 false false [mk_open 1 0 false].

Lemma tw_rollback_undoes_witness : exists w', tw_run x_mem [WArr; WInt 3; WEnd; WInt 4] x_open = Ret w' /\ st (pc_tw_rollback w' (pc_tw_mark_ x_open)) = st x_open.
Proof.
  eexists. split; [vm_compute; reflexivity|]. eapply (tw_rollback_undoes x_mem x_open _ [WArr; WInt 3; WEnd; WInt 4]).
  - split; try (vm_compute; (reflexivity || discriminate || (split; discriminate))). repeat constructor; vm_compute; discriminate.
  - repeat constructor.
  - split; [exact I|]. intros w1 E1. vm_compute in E1. injection E1 as <-. split; [exact I|]. intros w2 E2. vm_compute in E2. injection E2 as <-.
    split; [vm_compute; lia|]. intros w3 E3. vm_compute in E3. injection E3 as <-. split; [exact I|]. intros w4 E4. exact I.
  - vm_compute. reflexivity.
Defined.

(** A nil below 32 arrays: one level more than the reader takes. *)
Definition x_deep : ptree := Nat.iter 32 (fun v => PArr [v]) PNil.

(** The writer checks the level of the containers it opens and not of the items in them:
    it calls this tree whole, and the reader refuses it as too deep. *)
Example deep_written_not_read :
  (exists w, tw_run x_mem (tree_ops x_deep) (pc_tw_init None 0) = Ret w /\ pc_tw_done w = 0 /\ written w = encode x_deep) /\
  (pc_tv_parse (fun _ => true) (mk_tv [] 0) (encode x_deep)).2 = IErr E_deep.
Proof. split; [eexists; split; [vm_compute; reflexivity|by split; vm_compute]|by vm_compute]. Qed.

(** The JSON reader keeps an integer beyond 64 bits as its text, and the accessor then
    answers the largest [long long] for it: it does not look at [errno]. *)
Example get_int_clamps :
  let big := replicate 20 57 in
  pc_tv_get_int (fst (pc_tv_parse (fun _ => true) (mk_tv [] 0) (encode (PMap [([116], PNum big)])))) 0 [116] = Ret (Some (2 ^ 63 - 1)) /\ strtoll_erange big = true.
Proof. vm_compute. by split. Qed.
