(* ===== verification/PtreeText.v ===== *)
(** A tree as text ([ptree.c]): the JSON and RESP renderers.

    [pc_tree_json] and [pc_tree_resp] write one encoded item to a JSON writer, for the
    HTTP door, a client's display and the RESP door.  They recurse on fuel, two turns a
    byte.  [Oob] stands for a read outside the bytes and for fuel that runs out.  The
    specification is [json_text] and [resp_text] of a tree. *)

From Stdlib Require Import ZArith Lia.
From stdpp Require Import base tactics list numbers relations.
From S2P Require Import Prelude Clcodec HtBase Json Ptree PtreeRead.

#[local] Arguments pc_p16 : simpl never.
#[local] Arguments pc_p32 : simpl never.
#[local] Arguments pc_p64 : simpl never.

(** The literals. *)
Definition s_null : bytes := [110; 117; 108; 108].
Definition s_true : bytes := [116; 114; 117; 101].
Definition s_false : bytes := [102; 97; 108; 115; 101].
Definition s_OK : bytes := [34; 79; 75; 34].
Definition s_error : bytes := [123; 34; 101; 114; 114; 111; 114; 34; 58].
Definition crlf : bytes := [13; 10].

Section Render.
Context (mem : Z -> bool).

Definition lit (w : pc_jw) (s : bytes) : pc_jw := pc_jw_lit w s mem.

(** The writer and the bytes consumed; 0 is malformed. *)
Fixpoint one_json (fuel : nat) (w : pc_jw) (b : bytes) (depth : Z) {struct fuel} : outcome (pc_jw * Z) :=
  match fuel with
  | O => Oob
  | S fuel =>
      let n := zlen b in
      if (n =? 0) || (depth >? PT_DEPTH) then Ret (w, 0)
      else
        let! t := byte_at b 0 in
        if t =? t_int then
          if n <? 9 then Ret (w, 0)
          else let! u := int_bytes b 1 8 0 in Ret (pc_jw_i64 w (s64 u) mem, 9)
        else if t =? t_num then
          if n <? 3 then Ret (w, 0)
          else
            let! len := len16 b 1 in
            if n - 3 <? len then Ret (w, 0)
            else let! s := sub_at b 3 len in Ret (pc_jw_raw w s mem, 3 + len)
        else if (t =? t_bulk) || (t =? t_err) then
          if n <? 5 then Ret (w, 0)
          else
            let! len := get32 (zdrop 1 b) in
            if n - 5 <? len then Ret (w, 0)
            else
              let! s := sub_at b 5 len in
              let w := if t =? t_err then lit w s_error else w in
              let w := pc_jw_str_utf8 w s mem in
              Ret (if t =? t_err then lit w [c_rbrace] else w, 5 + len)
        else if t =? t_nil then Ret (lit w s_null, 1)
        else if t =? t_true then Ret (lit w s_true, 1)
        else if t =? t_false then Ret (lit w s_false, 1)
        else if t =? t_ok then Ret (lit w s_OK, 1)
        else if (t =? t_arr) || (t =? t_map) then
          if n <? 5 then Ret (w, 0)
          else
            let! cnt := get32 (zdrop 1 b) in
            let w := lit w (if t =? t_arr then [c_lbrack] else [c_lbrace]) in
            let! (w, used) := json_items fuel w b depth (t =? t_map) 0 cnt 5 in
            if used =? 0 then Ret (w, 0) else Ret (lit w (if t =? t_arr then [c_rbrack] else [c_rbrace]), used)
        else Ret (w, 0)
  end
with json_items (fuel : nat) (w : pc_jw) (b : bytes) (depth : Z) (mp : bool) (i cnt used : Z) {struct fuel} : outcome (pc_jw * Z) :=
  match fuel with
  | O => Oob
  | S fuel =>
      if i >=? cnt then Ret (w, used)
      else
        let w := if i =? 0 then w else lit w [c_comma] in
        let value w used :=
          let! (w, u) := one_json fuel w (zdrop used b) (depth + 1) in
          if u =? 0 then Ret (w, 0) else json_items fuel w b depth mp (i + 1) cnt (used + u) in
        if mp then
          if used >=? zlen b then Ret (w, 0)
          else
            let! t := byte_at b used in
            if negb (t =? t_bulk) then Ret (w, 0)
            else
              let! (w, u) := one_json fuel w (zdrop used b) (depth + 1) in
              if u =? 0 then Ret (w, 0) else value (lit w [c_colon]) (used + u)
        else value w used
  end.

Definition pc_tree_json (w : pc_jw) (b : bytes) : outcome (pc_jw * Z) := one_json (item_fuel b) w b 1.

(** [snprintf(num, sizeof num, "$%u\r\n", len)] and the like. *)
Definition counted_line (c : Z) (x : Z) : bytes := c :: udec 20 x [] ++ crlf.

Fixpoint one_resp (fuel : nat) (w : pc_jw) (b : bytes) (depth : Z) {struct fuel} : outcome (pc_jw * Z) :=
  match fuel with
  | O => Oob
  | S fuel =>
      let n := zlen b in
      if (n =? 0) || (depth >? PT_DEPTH) then Ret (w, 0)
      else
        let! t := byte_at b 0 in
        if t =? t_int then
          if n <? 9 then Ret (w, 0)
          else let! u := int_bytes b 1 8 0 in Ret (pc_jw_raw w (58 :: i64_text (s64 u) ++ crlf) mem, 9)
        else if t =? t_num then
          if n <? 3 then Ret (w, 0)
          else
            let! len := len16 b 1 in
            if n - 3 <? len then Ret (w, 0)
            else
              let! s := sub_at b 3 len in
              Ret (lit (pc_jw_raw (pc_jw_raw w (counted_line 36 len) mem) s mem) crlf, 3 + len)
        else if (t =? t_bulk) || (t =? t_err) then
          if n <? 5 then Ret (w, 0)
          else
            let! len := get32 (zdrop 1 b) in
            if n - 5 <? len then Ret (w, 0)
            else
              let! s := sub_at b 5 len in
              let w := if t =? t_err then lit w [45] else pc_jw_raw w (counted_line 36 len) mem in
              Ret (lit (pc_jw_raw w s mem) crlf, 5 + len)
        else if t =? t_nil then Ret (lit w [36; 45; 49; 13; 10], 1)
        else if t =? t_true then Ret (lit w [58; 49; 13; 10], 1)
        else if t =? t_false then Ret (lit w [58; 48; 13; 10], 1)
        else if t =? t_ok then Ret (lit w [43; 79; 75; 13; 10], 1)
        else if (t =? t_arr) || (t =? t_map) then
          if n <? 5 then Ret (w, 0)
          else
            let! cnt := get32 (zdrop 1 b) in
            let cnt := if t =? t_map then u32 (cnt * 2) else cnt in
            resp_items fuel (pc_jw_raw w (counted_line 42 cnt) mem) b depth 0 cnt 5
        else Ret (w, 0)
  end
with resp_items (fuel : nat) (w : pc_jw) (b : bytes) (depth : Z) (i cnt used : Z) {struct fuel} : outcome (pc_jw * Z) :=
  match fuel with
  | O => Oob
  | S fuel =>
      if i >=? cnt then Ret (w, used)
      else
        let! (w, u) := one_resp fuel w (zdrop used b) (depth + 1) in
        if u =? 0 then Ret (w, 0) else resp_items fuel w b depth (i + 1) cnt (used + u)
  end.

Definition pc_tree_resp (w : pc_jw) (b : bytes) : outcome (pc_jw * Z) := one_resp (item_fuel b) w b 1.

End Render.

(** * The texts *)

(** What [pc_jw_str_utf8] writes for the bytes of a string. *)
Fixpoint utf8_text (fuel : nat) (s : bytes) : bytes :=
  match fuel, s with
  | O, _ | _, [] => []
  | S fuel, c :: s1 =>
      if (c =? c_quote) || (c =? c_bslash) || (c <? 0x20) then jw_esc c ++ utf8_text fuel s1
      else if c <? 0x80 then c :: utf8_text fuel s1
      else match utf8_seq s with
           | O => [92; 117; 102; 102; 102; 100] ++ utf8_text fuel s1
           | n => take n s ++ utf8_text fuel (drop n s)
           end
  end.
Definition utf8_quoted (s : bytes) : bytes := c_quote :: utf8_text (length s) s ++ [c_quote].

(** A tree as JSON. *)
Fixpoint json_text (v : ptree) : bytes :=
  match v with
  | PInt x => i64_text x
  | PNum s => s
  | PBulk s => utf8_quoted s
  | PErr s => s_error ++ utf8_quoted s ++ [c_rbrace]
  | PNil => s_null
  | PBool b => if b then s_true else s_false
  | POk => s_OK
  | PArr l => c_lbrack :: commas (map json_text l) ++ [c_rbrack]
  | PMap l => c_lbrace :: commas (map (fun m => utf8_quoted m.1 ++ c_colon :: json_text m.2) l) ++ [c_rbrace]
  end.

(** A tree as RESP2: a map is its flat array, a boolean 1 or 0. *)
Fixpoint resp_text (v : ptree) : bytes :=
  match v with
  | PInt x => 58 :: i64_text x ++ crlf
  | PNum s | PBulk s => counted_line 36 (zlen s) ++ s ++ crlf
  | PErr s => 45 :: s ++ crlf
  | PNil => [36; 45; 49; 13; 10]
  | PBool b => [58; if b then 49 else 48; 13; 10]
  | POk => [43; 79; 75; 13; 10]
  | PArr l => counted_line 42 (zlen l) ++ flat_map resp_text l
  | PMap l => counted_line 42 (2 * zlen l) ++ flat_map (fun m => (counted_line 36 (zlen m.1) ++ m.1 ++ crlf) ++ resp_text m.2) l
  end.

(** * Rendering a tree *)

Lemma commas_cons x l : commas (x :: l) = x ++ flat_map (cons c_comma) l.
Proof. revert x. induction l as [|y l IH]; intros x; simpl; [by rewrite app_nil_r|]. f_equal. f_equal. apply IH. Qed.

(** The texts with a comma in front of all but the first of the container. *)
Definition seps (i : Z) (l : list bytes) : bytes := if i =? 0 then commas l else flat_map (cons c_comma) l.

Lemma seps_nil i : seps i [] = [].
Proof. unfold seps. by destruct (i =? 0). Qed.
Lemma seps_cons i x l : 0 <= i -> seps i (x :: l) = (if i =? 0 then [] else [c_comma]) ++ x ++ seps (i + 1) l.
Proof.
  intros Hi. unfold seps. rewrite (proj2 (Z.eqb_neq (i + 1) 0)) by lia. destruct (i =? 0); [by rewrite commas_cons|done].
Qed.

Lemma drop_span (b s r : bytes) n : 0 <= n -> zdrop n b = s ++ r -> n + zlen s <= zlen b \/ s = [].
Proof.
  intros Hn E. apply (f_equal zlen) in E. rewrite zlen_app, zlen_zdrop in E. pose proof (zlen_nonneg r).
  destruct s; [by right|left]. rewrite zlen_cons in *. pose proof (zlen_nonneg s). lia.
Qed.

(** The fields of an encoded item at the front of [b]. *)
Lemma front32 b t n x : bytes_ok b -> is_u32 n -> b = t :: pc_p32 n ++ x ->
  byte_at b 0 = Ret t /\ get32 (zdrop 1 b) = Ret n /\ zdrop 5 b = x /\ zlen b = 5 + zlen x.
Proof.
  intros Hb Hn E. assert (zlen b = 5 + zlen x) as Hl by (rewrite E; zlens; lia). pose proof (zlen_nonneg x).
  destruct (get32_read b 1 Hb ltac:(lia) ltac:(lia)) as (l & Eg & Hu & El). split_and!; [by rewrite E| | |done].
  - rewrite Eg. f_equal. rewrite E in El. change (zdrop 1 (t :: pc_p32 n ++ x)) with (pc_p32 n ++ x) in El. by apply p32_inj in El as [-> _].
  - rewrite E. change (zdrop 5 (t :: pc_p32 n ++ x)) with (zdrop 4 (pc_p32 n ++ x)). by apply zdrop_app.
Qed.

Lemma front16 b t n x : bytes_ok b -> is_u16 n -> b = t :: pc_p16 n ++ x ->
  byte_at b 0 = Ret t /\ len16 b 1 = Ret n /\ zdrop 3 b = x /\ zlen b = 3 + zlen x.
Proof.
  intros Hb Hn E. assert (zlen b = 3 + zlen x) as Hl by (rewrite E; zlens; lia). pose proof (zlen_nonneg x).
  destruct (len16_read b 1 Hb ltac:(lia) ltac:(lia)) as (l & Eg & Hu & El). split_and!; [by rewrite E| | |done].
  - rewrite Eg. f_equal. rewrite E in El. change (zdrop 1 (t :: pc_p16 n ++ x)) with (pc_p16 n ++ x) in El. by apply p16_inj in El as [-> _].
  - rewrite E. change (zdrop 3 (t :: pc_p16 n ++ x)) with (zdrop 2 (pc_p16 n ++ x)). by apply zdrop_app.
Qed.

Lemma front64 b t u x : bytes_ok b -> is_u64 u -> b = t :: pc_p64 u ++ x ->
  byte_at b 0 = Ret t /\ int_bytes b 1 8 0 = Ret u /\ zlen b = 9 + zlen x.
Proof.
  intros Hb Hn E. assert (zlen b = 9 + zlen x) as Hl by (rewrite E; zlens; lia). pose proof (zlen_nonneg x).
  destruct (int_read b 1 Hb ltac:(lia) ltac:(lia)) as (l & Eg & Hu & El). split_and!; [by rewrite E| |done].
  rewrite Eg. f_equal. rewrite E in El. change (zdrop 1 (t :: pc_p64 u ++ x)) with (pc_p64 u ++ x) in El. by apply p64_inj in El as [-> _].
Qed.

Section RenderProofs.
Context (mem : Z -> bool).

Lemma lit_wrote w s : wrote mem w s (lit mem w s).
Proof. apply raw_wrote. Qed.

Lemma utf8_loop_wrote fuel : forall w s, wrote mem w (utf8_text fuel s) (utf8_loop fuel w s mem).
Proof.
  induction fuel as [|fuel IH]; intros w [|c s]; cbn [utf8_loop utf8_text]; try apply wrote_nil.
  destruct ((c =? c_quote) || (c =? c_bslash) || (c <? 32)); [eapply wrote_app; [apply raw_wrote|apply IH]|].
  destruct (c <? 128); [apply (wrote_app mem w [c]) with (w1 := pc_jw_raw w [c] mem); [apply raw_wrote|apply IH]|].
  destruct (utf8_seq (c :: s)); (eapply wrote_app; [apply raw_wrote|apply IH]).
Qed.

Lemma utf8_wrote w s : wrote mem w (utf8_quoted s) (pc_jw_str_utf8 w s mem).
Proof.
  unfold pc_jw_str_utf8, utf8_quoted. change (c_quote :: utf8_text (length s) s ++ [c_quote]) with ([c_quote] ++ utf8_text (length s) s ++ [c_quote]).
  eapply wrote_app; [apply raw_wrote|]. eapply wrote_app; [apply utf8_loop_wrote|apply raw_wrote].
Qed.

(** The item at the front of [b] is written as [v]'s text. *)
Definition json_as (v : ptree) (depth : Z) : Prop := forall fuel w b r, bytes_ok b -> b = encode v ++ r -> 2 * zlen b + 2 <= Z.of_nat fuel ->
  exists w', one_json mem fuel w b depth = Ret (w', zlen (encode v)) /\ wrote mem w (json_text v) w'.

Ltac front fuel b Hl Hd :=
  destruct fuel as [|fuel]; [pose_lens; lia|]; cbn [one_json one_resp]; rewrite (proj2 (Z.eqb_neq (zlen b) 0)) by (pose_lens; lia);
  rewrite Z.gtb_ltb, (proj2 (Z.ltb_ge _ _)) by lia; cbn [orb].

Lemma json_leaf v depth t s : depth <= PT_DEPTH -> encode v = [t] -> json_text v = s ->
  (t = t_nil /\ s = s_null) \/ (t = t_true /\ s = s_true) \/ (t = t_false /\ s = s_false) \/ (t = t_ok /\ s = s_OK) -> json_as v depth.
Proof.
  intros Hd He Hs Ht fuel w b r Hb E Hf. rewrite He in *. assert (zlen b = 1 + zlen r) as Hl by (rewrite E; zlens; lia). front fuel b Hl Hd.
  rewrite E, Hs. exists (lit mem w s). split; [|apply lit_wrote]. by destruct Ht as [[-> ->]|[[-> ->]|[[-> ->]|[-> ->]]]].
Qed.

Lemma json_int x depth : depth <= PT_DEPTH -> is_s64 x -> json_as (PInt x) depth.
Proof.
  intros Hd Hx fuel w b r Hb E Hf. cbn [encode app] in E.
  destruct (front64 b t_int (u64 x) r Hb ltac:(apply u64_range) E) as (E0 & E1 & Hl). front fuel b Hl Hd.
  rewrite E0. cbn [obind]. change (t_int =? t_int) with true. cbn [obind]. rewrite (proj2 (Z.ltb_ge _ _)) by (pose_lens; lia).
  rewrite E1. cbn [obind]. rewrite s64_u64 by done. eexists. split; [done|]. by apply i64_wrote.
Qed.

Lemma json_num s depth : depth <= PT_DEPTH -> zlen s < 2 ^ 16 -> json_as (PNum s) depth.
Proof.
  intros Hd Hs fuel w b r Hb E Hf. cbn [encode app] in E. rewrite <- app_assoc in E. pose proof (zlen_nonneg s). pose proof (zlen_nonneg r).
  destruct (front16 b t_num (zlen s) (s ++ r) Hb ltac:(word_lia) E) as (E0 & E1 & E2 & Hl). rewrite zlen_app in Hl. front fuel b Hl Hd.
  rewrite E0. cbn [obind]. change (t_num =? t_int) with false. change (t_num =? t_num) with true. cbn [obind]. rewrite (proj2 (Z.ltb_ge _ _)) by lia.
  rewrite E1. cbn [obind]. rewrite (proj2 (Z.ltb_ge _ _)) by lia. rewrite sub_at_ok, E2, ztake_app by (done || lia). cbn [obind].
  eexists. split; [|apply raw_wrote]. do 2 f_equal. cbn [encode]. zlens. lia.
Qed.

Lemma json_bulk v s t depth : depth <= PT_DEPTH -> zlen s < 2 ^ 32 -> encode v = t :: pc_p32 (zlen s) ++ s ->
  (t = t_bulk /\ json_text v = utf8_quoted s) \/ (t = t_err /\ json_text v = s_error ++ utf8_quoted s ++ [c_rbrace]) -> json_as v depth.
Proof.
  intros Hd Hs He Ht fuel w b r Hb E Hf. assert (zlen (encode v) = 5 + zlen s) as -> by (rewrite He; zlens; lia). rewrite He in E. cbn [app] in E. rewrite <- app_assoc in E. pose proof (zlen_nonneg s). pose proof (zlen_nonneg r).
  destruct (front32 b t (zlen s) (s ++ r) Hb ltac:(word_lia) E) as (E0 & E1 & E2 & Hl). rewrite zlen_app in Hl. front fuel b Hl Hd.
  rewrite E0. cbn [obind]. assert ((t =? t_int) = false /\ (t =? t_num) = false /\ (t =? t_bulk) || (t =? t_err) = true) as (-> & -> & ->) by (by destruct Ht as [[-> _]|[-> _]]).
  rewrite (proj2 (Z.ltb_ge _ _)) by lia. rewrite E1. cbn [obind]. rewrite (proj2 (Z.ltb_ge _ _)) by lia. rewrite sub_at_ok, E2, ztake_app by (done || lia). cbn [obind].
  eexists. split; [done|]. destruct Ht as [[-> ->]|[-> ->]].
  - change (t_bulk =? t_err) with false. apply utf8_wrote.
  - change (t_err =? t_err) with true. eapply wrote_app; [apply lit_wrote|]. eapply wrote_app; [apply utf8_wrote|apply lit_wrote].
Qed.

(** The items of a container from [used] on, the [i]-th first. *)
Definition jitems_as (l : list ptree) (texts : list bytes) (depth : Z) (mp : bool) : Prop := forall fuel w b i cnt used r, bytes_ok b -> 0 <= used <= zlen b ->
  zdrop used b = flat_map encode l ++ r -> 0 <= i -> cnt = i + zlen texts -> 2 * (zlen b - used) + 3 <= Z.of_nat fuel ->
  exists w', json_items mem fuel w b depth mp i cnt used = Ret (w', used + zlen (flat_map encode l)) /\ wrote mem w (seps i texts) w'.

Lemma jitems_nil depth mp : jitems_as [] [] depth mp.
Proof.
  intros fuel w b i cnt used r Hb Hu E Hi -> Hf. destruct fuel as [|fuel]; [lia|]. cbn [json_items]. rewrite zlen_nil, Z.add_0_r, Z.geb_leb, Z.leb_refl.
  rewrite seps_nil. simpl. change (zlen (@nil Z)) with 0. rewrite Z.add_0_r. exists w. split; [done|apply wrote_nil].
Qed.

(** The comma in front of an item. *)
Lemma sep_wrote w i : wrote mem w (if i =? 0 then [] else [c_comma]) (if i =? 0 then w else lit mem w [c_comma]).
Proof. destruct (i =? 0); [apply wrote_nil|apply lit_wrote]. Qed.

Lemma jitems_value v l texts depth mp fuel w0 w b i used r : json_as v (depth + 1) -> jitems_as l texts depth mp -> bytes_ok b -> 0 <= used <= zlen b ->
  zdrop used b = encode v ++ flat_map encode l ++ r -> 0 <= i -> 2 * (zlen b - used) + 2 <= Z.of_nat fuel -> forall pre, wrote mem w0 pre w ->
  exists w', (let! (w, u) := one_json mem fuel w (zdrop used b) (depth + 1) in
    if u =? 0 then Ret (w, 0) else json_items mem fuel w b depth mp (i + 1) (i + 1 + zlen texts) (used + u)) =
    Ret (w', used + (zlen (encode v) + zlen (flat_map encode l))) /\ wrote mem w0 (pre ++ json_text v ++ seps (i + 1) texts) w'.
Proof.
  intros Hv Hl Hb Hu E Hi Hf pre Hp. pose proof (encode_pos v).
  destruct (drop_span b _ _ used ltac:(lia) E) as [Hr|Hr]; [|rewrite Hr in *; change (zlen (@nil Z)) with 0 in *; lia].
  destruct (Hv fuel w (zdrop used b) (flat_map encode l ++ r)) as (w1 & -> & W1); [by apply bytes_ok_zdrop|done|rewrite zlen_zdrop; lia|]. cbn [obind].
  rewrite (proj2 (Z.eqb_neq _ _)) by lia. apply zdrop_after in E; [|lia].
  destruct (Hl fuel w1 b (i + 1) (i + 1 + zlen texts) (used + zlen (encode v)) r Hb ltac:(lia) E ltac:(lia) ltac:(done) ltac:(lia)) as (w2 & -> & W2).
  exists w2. split; [by rewrite Z.add_assoc|]. eapply wrote_app; [done|]. by eapply wrote_app.
Qed.

Lemma jitems_cons v l texts depth : json_as v (depth + 1) -> jitems_as l texts depth false -> jitems_as (v :: l) (json_text v :: texts) depth false.
Proof.
  intros Hv Hl fuel w b i cnt used r Hb Hu E Hi -> Hf. destruct fuel as [|fuel]; [lia|]. cbn [json_items flat_map] in *. rewrite <- app_assoc in E.
  rewrite zlen_cons, Z.geb_leb, (proj2 (Z.leb_gt _ _)) by (pose_lens; lia). rewrite seps_cons, zlen_app, Z.add_assoc by done.
  eapply (jitems_value v l texts); try done; [lia|apply sep_wrote].
Qed.

Lemma jitems_pair k v l texts depth : json_as (PBulk k) (depth + 1) -> json_as v (depth + 1) -> jitems_as l texts depth true ->
  jitems_as (PBulk k :: v :: l) ((utf8_quoted k ++ c_colon :: json_text v) :: texts) depth true.
Proof.
  intros Hk Hv Hl fuel w b i cnt used r Hb Hu E Hi -> Hf. destruct fuel as [|fuel]; [lia|]. cbn [json_items].
  assert (flat_map encode (PBulk k :: v :: l) = encode (PBulk k) ++ encode v ++ flat_map encode l) as Ef by done. rewrite Ef in *. clear Ef.
  rewrite <- !app_assoc in E. pose proof (encode_pos (PBulk k)).
  destruct (drop_span b _ _ used ltac:(lia) E) as [Hr|Hr]; [|rewrite Hr in *; change (zlen (@nil Z)) with 0 in *; lia].
  rewrite zlen_cons, !Z.geb_leb, !(proj2 (Z.leb_gt _ _)) by (pose_lens; lia). rewrite seps_cons, !zlen_app by done.
  assert (byte_at b used = Ret t_bulk) as -> by (eapply byte_at_drop; rewrite E; reflexivity). cbn [obind]. change (negb (t_bulk =? t_bulk)) with false. cbn [negb].
  destruct (Hk fuel (if i =? 0 then w else lit mem w [c_comma]) (zdrop used b) _ ltac:(by apply bytes_ok_zdrop) E ltac:(rewrite zlen_zdrop; lia)) as (w1 & -> & W1).
  cbn [obind]. rewrite (proj2 (Z.eqb_neq _ _)) by lia. apply zdrop_after in E; [|lia]. rewrite !Z.add_assoc.
  destruct (jitems_value v l texts depth true fuel w (lit mem w1 [c_colon]) b i (used + zlen (encode (PBulk k))) r Hv Hl Hb ltac:(lia) E Hi ltac:(lia)
    ((if i =? 0 then [] else [c_comma]) ++ utf8_quoted k ++ [c_colon])) as (w2 & E2 & W2).
  - eapply wrote_app; [apply sep_wrote|]. eapply wrote_app; [exact W1|apply lit_wrote].
  - exists w2. rewrite E2, Z.add_assoc. split; [done|]. rewrite <- !app_assoc in W2. rewrite <- !app_assoc. exact W2.
Qed.

Lemma json_container v t (mp : bool) l n texts depth : (if mp then t = t_map else t = t_arr) -> is_u32 n -> depth <= PT_DEPTH ->
  encode v = t :: pc_p32 n ++ flat_map encode l -> n = zlen texts ->
  json_text v = (if mp then c_lbrace else c_lbrack) :: commas texts ++ [if mp then c_rbrace else c_rbrack] ->
  jitems_as l texts depth mp -> json_as v depth.
Proof.
  intros Ht Hn Hd He Hnt Hj Hl fuel w b r Hb E Hf. assert (zlen (encode v) = 5 + zlen (flat_map encode l)) as -> by (rewrite He; zlens; lia).
  rewrite He in E. cbn [app] in E. rewrite <- app_assoc in E. pose proof (zlen_nonneg (flat_map encode l)). pose proof (zlen_nonneg r).
  destruct (front32 b t n (flat_map encode l ++ r) Hb Hn E) as (E0 & E1 & E2 & Hlen). rewrite zlen_app in Hlen. front fuel b Hlen Hd.
  rewrite E0. cbn [obind]. assert ((t =? t_int) = false /\ (t =? t_num) = false /\ (t =? t_bulk) || (t =? t_err) = false /\ (t =? t_nil) = false /\ (t =? t_true) = false /\
    (t =? t_false) = false /\ (t =? t_ok) = false /\ (t =? t_arr) || (t =? t_map) = true /\ (t =? t_map) = mp /\ (t =? t_arr) = negb mp) as (-> & -> & -> & -> & -> & -> & -> & -> & Tm & Ta) by (by destruct mp; subst t).
  rewrite Tm, Ta. rewrite (proj2 (Z.ltb_ge _ _)) by lia. rewrite E1. cbn [obind].
  destruct (Hl fuel (lit mem w (if negb mp then [c_lbrack] else [c_lbrace])) b 0 n 5 r Hb ltac:(lia) E2 ltac:(lia) ltac:(lia) ltac:(lia)) as (w1 & -> & W1).
  cbn [obind]. rewrite (proj2 (Z.eqb_neq _ _)) by lia. eexists. split; [done|]. rewrite Hj.
  change (seps 0 texts) with (commas texts) in W1.
  replace ((if mp then c_lbrace else c_lbrack) :: commas texts ++ [if mp then c_rbrace else c_rbrack]) with
    ((if negb mp then [c_lbrack] else [c_lbrace]) ++ commas texts ++ (if negb mp then [c_rbrack] else [c_rbrace])) by by destruct mp.
  eapply wrote_app; [apply lit_wrote|]. eapply wrote_app; [done|apply lit_wrote].
Qed.

Lemma json_tree v : tree_ok v -> forall depth, levels v + depth - 1 <= PT_DEPTH -> json_as v depth.
Proof.
  induction v as [x|s|s|s| |c| |l IH|l IH] using ptree_ind; intros Hok depth Hd.
  - apply json_int; [cbn [levels] in Hd; lia|done].
  - apply json_num; [cbn [levels] in Hd; lia|done].
  - apply (json_bulk _ s t_bulk); [cbn [levels] in Hd; lia|done|done|by left].
  - apply (json_bulk _ s t_err); [cbn [levels] in Hd; lia|done|done|by right].
  - apply (json_leaf _ _ t_nil s_null); [cbn [levels] in Hd; lia|done|done|by left].
  - apply (json_leaf _ _ (if c then t_true else t_false) (if c then s_true else s_false)); [cbn [levels] in Hd; lia|done|done|destruct c; auto].
  - apply (json_leaf _ _ t_ok s_OK); [cbn [levels] in Hd; lia|done|done|auto].
  - apply tree_ok_arr in Hok as [Hn Hok]. cbn [levels] in Hd. fold (levels_of l) in Hd. pose proof (levels_of_pos l).
    eapply (json_container _ t_arr false l (zlen l) (map json_text l)); [done|pose_lens; word_lia|lia|done|unfold zlen; by rewrite length_map|done|].
    clear Hn. induction l as [|v l IHl]; [apply jitems_nil|]. apply list.Forall_cons in IH as [IHv IH]. apply list.Forall_cons in Hok as [Hv Hok].
    unfold levels_of in *. cbn [foldr] in *. pose proof (levels_of_pos l). unfold levels_of in *. pose proof (levels_pos v).
    apply jitems_cons; [apply IHv; [done|lia]|apply IHl; done || lia].
  - apply tree_ok_map in Hok as [Hn Hok]. rewrite levels_map in Hd. pose proof (levels_of_pos (flat l)).
    eapply (json_container _ t_map true (flat l) (zlen l) (map (fun m => utf8_quoted m.1 ++ c_colon :: json_text m.2) l));
      [done|pose_lens; word_lia|lia|apply encode_map|unfold zlen; by rewrite length_map|done|].
    clear Hn. induction l as [|[k v] l IHl]; [apply jitems_nil|]. cbn in IH, Hok.
    apply list.Forall_cons in IH as [IHk IH]. apply list.Forall_cons in IH as [IHv IH].
    apply list.Forall_cons in Hok as [Hk Hok]. apply list.Forall_cons in Hok as [Hv Hok].
    unfold levels_of in *. cbn in Hd, H. pose proof (levels_of_pos (flat l)). unfold levels_of, flat in *. pose proof (levels_pos v).
    apply (jitems_pair k v); [apply IHk; [done|simpl; lia]|apply IHv; [done|lia]|apply IHl; done || lia].
Qed.

(** ** RESP *)

Definition resp_as (v : ptree) (depth : Z) : Prop := forall fuel w b r, bytes_ok b -> zlen b < 2 ^ 32 -> b = encode v ++ r -> 2 * zlen b + 2 <= Z.of_nat fuel ->
  exists w', one_resp mem fuel w b depth = Ret (w', zlen (encode v)) /\ wrote mem w (resp_text v) w'.

Lemma resp_leaf v depth t : depth <= PT_DEPTH -> encode v = [t] ->
  (t = t_nil /\ v = PNil) \/ (t = t_true /\ v = PBool true) \/ (t = t_false /\ v = PBool false) \/ (t = t_ok /\ v = POk) -> resp_as v depth.
Proof.
  intros Hd He Ht fuel w b r Hb _ E Hf. rewrite He in *. assert (zlen b = 1 + zlen r) as Hl by (rewrite E; zlens; lia). front fuel b Hl Hd.
  rewrite E. exists (lit mem w (resp_text v)). split; [|apply lit_wrote]. by destruct Ht as [[-> ->]|[[-> ->]|[[-> ->]|[-> ->]]]].
Qed.

Lemma resp_int x depth : depth <= PT_DEPTH -> is_s64 x -> resp_as (PInt x) depth.
Proof.
  intros Hd Hx fuel w b r Hb _ E Hf. cbn [encode app] in E.
  destruct (front64 b t_int (u64 x) r Hb ltac:(apply u64_range) E) as (E0 & E1 & Hl). front fuel b Hl Hd.
  rewrite E0. cbn [obind]. change (t_int =? t_int) with true. cbn [obind]. rewrite (proj2 (Z.ltb_ge _ _)) by (pose_lens; lia).
  rewrite E1. cbn [obind]. rewrite s64_u64 by done. eexists. split; [done|]. apply raw_wrote.
Qed.

Lemma line_wrote w h s : wrote mem w (h ++ s ++ crlf) (lit mem (pc_jw_raw (pc_jw_raw w h mem) s mem) crlf).
Proof. eapply wrote_app; [apply raw_wrote|]. eapply wrote_app; [apply raw_wrote|apply lit_wrote]. Qed.

Lemma resp_num s depth : depth <= PT_DEPTH -> zlen s < 2 ^ 16 -> resp_as (PNum s) depth.
Proof.
  intros Hd Hs fuel w b r Hb _ E Hf. cbn [encode app] in E. rewrite <- app_assoc in E. pose proof (zlen_nonneg s). pose proof (zlen_nonneg r).
  destruct (front16 b t_num (zlen s) (s ++ r) Hb ltac:(word_lia) E) as (E0 & E1 & E2 & Hl). rewrite zlen_app in Hl. front fuel b Hl Hd.
  rewrite E0. cbn [obind]. change (t_num =? t_int) with false. change (t_num =? t_num) with true. cbn [obind]. rewrite (proj2 (Z.ltb_ge _ _)) by lia.
  rewrite E1. cbn [obind]. rewrite (proj2 (Z.ltb_ge _ _)) by lia. rewrite sub_at_ok, E2, ztake_app by (done || lia). cbn [obind].
  eexists. split; [|apply line_wrote]. do 2 f_equal. cbn [encode]. zlens. lia.
Qed.

Lemma resp_bulk v s t depth : depth <= PT_DEPTH -> zlen s < 2 ^ 32 -> encode v = t :: pc_p32 (zlen s) ++ s ->
  (t = t_bulk /\ v = PBulk s) \/ (t = t_err /\ v = PErr s) -> resp_as v depth.
Proof.
  intros Hd Hs He Ht fuel w b r Hb _ E Hf. assert (zlen (encode v) = 5 + zlen s) as -> by (rewrite He; zlens; lia). rewrite He in E. cbn [app] in E. rewrite <- app_assoc in E. pose proof (zlen_nonneg s). pose proof (zlen_nonneg r).
  destruct (front32 b t (zlen s) (s ++ r) Hb ltac:(word_lia) E) as (E0 & E1 & E2 & Hl). rewrite zlen_app in Hl. front fuel b Hl Hd.
  rewrite E0. cbn [obind]. assert ((t =? t_int) = false /\ (t =? t_num) = false /\ (t =? t_bulk) || (t =? t_err) = true) as (-> & -> & ->) by (by destruct Ht as [[-> _]|[-> _]]).
  rewrite (proj2 (Z.ltb_ge _ _)) by lia. rewrite E1. cbn [obind]. rewrite (proj2 (Z.ltb_ge _ _)) by lia. rewrite sub_at_ok, E2, ztake_app by (done || lia). cbn [obind].
  eexists. split; [done|]. destruct Ht as [[-> ->]|[-> ->]]; [apply line_wrote|]. apply (line_wrote w [45] s).
Qed.

Definition ritems_as (l : list ptree) (depth : Z) : Prop := forall fuel w b i cnt used r, bytes_ok b -> zlen b < 2 ^ 32 -> 0 <= used <= zlen b ->
  zdrop used b = flat_map encode l ++ r -> cnt = i + zlen l -> 2 * (zlen b - used) + 3 <= Z.of_nat fuel ->
  exists w', resp_items mem fuel w b depth i cnt used = Ret (w', used + zlen (flat_map encode l)) /\ wrote mem w (flat_map resp_text l) w'.

Lemma ritems l depth : Forall (fun v => resp_as v (depth + 1)) l -> ritems_as l depth.
Proof.
  induction 1 as [|v l Hv Hl IH]; intros fuel w b i cnt used r Hb Hsm Hu E -> Hf; (destruct fuel as [|fuel]; [lia|]); cbn [resp_items flat_map].
  { rewrite zlen_nil, Z.add_0_r, Z.geb_leb, Z.leb_refl. change (zlen (@nil Z)) with 0. rewrite Z.add_0_r. exists w. split; [done|apply wrote_nil]. }
  cbn [flat_map] in E. rewrite <- app_assoc in E. pose proof (encode_pos v). rewrite zlen_cons, Z.geb_leb, (proj2 (Z.leb_gt _ _)) by (pose_lens; lia).
  destruct (drop_span b _ _ used ltac:(lia) E) as [Hr|Hr]; [|rewrite Hr in *; change (zlen (@nil Z)) with 0 in *; lia].
  destruct (Hv fuel w (zdrop used b) (flat_map encode l ++ r)) as (w1 & -> & W1); [by apply bytes_ok_zdrop|rewrite zlen_zdrop; lia|done|rewrite zlen_zdrop; lia|]. cbn [obind].
  rewrite (proj2 (Z.eqb_neq _ _)) by lia. apply zdrop_after in E; [|lia].
  destruct (IH fuel w1 b (i + 1) (i + (1 + zlen l)) (used + zlen (encode v)) r Hb Hsm ltac:(lia) E ltac:(lia) ltac:(lia)) as (w2 & -> & W2).
  exists w2. rewrite zlen_app, Z.add_assoc. split; [done|]. by eapply wrote_app.
Qed.

Lemma flat_len l : zlen (flat l) = 2 * zlen l.
Proof. induction l as [|m l IH]; [done|]. change (flat (m :: l)) with (PBulk m.1 :: m.2 :: flat l). rewrite !zlen_cons. lia. Qed.

Lemma flat_resp l : flat_map (fun m => (counted_line 36 (zlen m.1) ++ m.1 ++ crlf) ++ resp_text m.2) l = flat_map resp_text (flat l).
Proof. induction l as [|[k v] l IH]; [done|]. change (flat ((k, v) :: l)) with (PBulk k :: v :: flat l). cbn [flat_map]. rewrite IH. cbn [fst snd resp_text]. by rewrite <- app_assoc. Qed.

Lemma items_le l : zlen l <= zlen (flat_map encode l).
Proof. induction l as [|v l IH]; [done|]. cbn [flat_map]. rewrite zlen_cons, zlen_app. pose proof (encode_pos v). lia. Qed.

Lemma resp_container v t (mp : bool) l n k depth : (if mp then t = t_map /\ k = 2 * n else t = t_arr /\ k = n) -> is_u32 n -> depth <= PT_DEPTH ->
  encode v = t :: pc_p32 n ++ flat_map encode l -> k = zlen l -> resp_text v = counted_line 42 k ++ flat_map resp_text l ->
  ritems_as l depth -> resp_as v depth.
Proof.
  intros Ht Hn Hd He Hk Hj Hl fuel w b r Hb Hsm E Hf. assert (zlen (encode v) = 5 + zlen (flat_map encode l)) as -> by (rewrite He; zlens; lia).
  rewrite He in E. cbn [app] in E. rewrite <- app_assoc in E. pose proof (zlen_nonneg r). pose proof (items_le l). pose proof (zlen_nonneg l).
  destruct (front32 b t n (flat_map encode l ++ r) Hb Hn E) as (E0 & E1 & E2 & Hlen). rewrite zlen_app in Hlen. front fuel b Hlen Hd.
  rewrite E0. cbn [obind]. assert ((t =? t_int) = false /\ (t =? t_num) = false /\ (t =? t_bulk) || (t =? t_err) = false /\ (t =? t_nil) = false /\ (t =? t_true) = false /\
    (t =? t_false) = false /\ (t =? t_ok) = false /\ (t =? t_arr) || (t =? t_map) = true /\ (t =? t_map) = mp) as (-> & -> & -> & -> & -> & -> & -> & -> & Tm) by (by destruct mp, Ht; subst t).
  rewrite Tm. rewrite (proj2 (Z.ltb_ge _ _)) by lia. rewrite E1. cbn [obind].
  assert ((if mp then u32 (n * 2) else n) = k) as -> by (destruct mp, Ht; [rewrite u32_id; word_lia|done]).
  destruct (Hl fuel (pc_jw_raw w (counted_line 42 k) mem) b 0 k 5 r Hb Hsm ltac:(lia) E2 ltac:(lia) ltac:(lia)) as (w1 & -> & W1).
  exists w1. split; [done|]. rewrite Hj. eapply wrote_app; [apply raw_wrote|done].
Qed.

Lemma levels_In v l : In v l -> levels v <= levels_of l.
Proof. induction l as [|x l IH]; [done|]. unfold levels_of in *. simpl. intros [->|H]; [lia|]. specialize (IH H). lia. Qed.

Lemma resp_tree v : tree_ok v -> forall depth, levels v + depth - 1 <= PT_DEPTH -> resp_as v depth.
Proof.
  induction v as [x|s|s|s| |c| |l IH|l IH] using ptree_ind; intros Hok depth Hd.
  - apply resp_int; [cbn [levels] in Hd; lia|done].
  - apply resp_num; [cbn [levels] in Hd; lia|done].
  - apply (resp_bulk _ s t_bulk); [cbn [levels] in Hd; lia|done|done|by left].
  - apply (resp_bulk _ s t_err); [cbn [levels] in Hd; lia|done|done|by right].
  - apply (resp_leaf _ _ t_nil); [cbn [levels] in Hd; lia|done|by left].
  - apply (resp_leaf _ _ (if c then t_true else t_false)); [cbn [levels] in Hd; lia|done|destruct c; auto].
  - apply (resp_leaf _ _ t_ok); [cbn [levels] in Hd; lia|done|auto].
  - apply tree_ok_arr in Hok as [Hn Hok]. cbn [levels] in Hd. fold (levels_of l) in Hd. pose proof (levels_of_pos l).
    eapply (resp_container _ t_arr false l (zlen l) (zlen l)); [done|pose_lens; word_lia|lia|done..|]. apply ritems.
    unfold trees_ok in Hok. rewrite Forall_forall in IH, Hok |- *. intros v Hin. apply IH; [done|by apply Hok|]. apply list_elem_of_In, levels_In in Hin. lia.
  - apply tree_ok_map in Hok as [Hn Hok]. rewrite levels_map in Hd. pose proof (levels_of_pos (flat l)).
    eapply (resp_container _ t_map true (flat l) (zlen l) (2 * zlen l)); [done|pose_lens; word_lia|lia|apply encode_map|by rewrite flat_len|cbn [resp_text]; by rewrite flat_resp|].
    apply ritems. unfold trees_ok in Hok. rewrite Forall_forall in IH, Hok |- *. intros v Hin. apply IH; [done|by apply Hok|]. apply list_elem_of_In, levels_In in Hin. lia.
Qed.

End RenderProofs.

(** The renderers on the encoding of any tree of at most PT_DEPTH levels, with
    anything behind it: both consume exactly the item and append to their writer its
    JSON and its RESP2 text, a map as an object or as its flat array, as far as the
    writer has room. *)
Theorem tree_rendered (mem : Z -> bool) (w : pc_jw) (v : ptree) (r : bytes)
  (Hok : tree_ok v) (Hl : levels v <= PT_DEPTH) (Hb : bytes_ok (encode v ++ r)) :
  (exists w', pc_tree_json mem w (encode v ++ r) = Ret (w', zlen (encode v)) /\ wrote mem w (json_text v) w') /\
  (zlen (encode v ++ r) < 2 ^ 32 ->
   exists w', pc_tree_resp mem w (encode v ++ r) = Ret (w', zlen (encode v)) /\ wrote mem w (resp_text v) w').
Proof.
  split; [|intros Hsm]; [eapply (json_tree mem v Hok 1)|eapply (resp_tree mem v Hok 1)]; try done; try lia; unfold item_fuel, zlen; lia.
Qed.

(** * Any bytes at all *)

Section RenderSafe.
Context (mem : Z -> bool).

(** The writer and a count of bytes that are there. *)
Definition within (n : Z) (r : outcome (pc_jw * Z)) : Prop := exists w u, r = Ret (w, u) /\ 0 <= u <= n.

Lemma within_ret n w u : 0 <= u <= n -> within n (Ret (w, u)).
Proof. by exists w, u. Qed.

(** A field of [len] bytes at [o], refused when it does not fit. *)
Lemma within_span n b o len (k : bytes -> outcome (pc_jw * Z)) w : n = zlen b -> 0 <= o <= n -> 0 <= len ->
  (forall s, within n (k s) \/ n - o < len) -> within n (if n - o <? len then Ret (w, 0) else let! s := sub_at b o len in k s).
Proof.
  intros -> Ho Hl Hk. destruct (Z.ltb_spec (zlen b - o) len); [apply within_ret; lia|]. rewrite sub_at_ok by lia. cbn [obind].
  destruct (Hk (ztake len (zdrop o b))); [done|lia].
Qed.

Definition json_safe (fuel : nat) : Prop := forall w b depth, bytes_ok b -> 2 * zlen b + 2 <= Z.of_nat fuel -> within (zlen b) (one_json mem fuel w b depth).
Definition jitems_safe (fuel : nat) : Prop := forall w b depth mp i cnt used, bytes_ok b -> 0 <= used <= zlen b -> 2 * (zlen b - used) + 3 <= Z.of_nat fuel ->
  within (zlen b) (json_items mem fuel w b depth mp i cnt used).

Lemma json_safe_step fuel : jitems_safe fuel -> json_safe (S fuel).
Proof.
  intros IH w b depth Hb Hf. cbn [one_json]. destruct ((zlen b =? 0) || (depth >? PT_DEPTH)) eqn:E0; [apply within_ret; pose_lens; lia|].
  apply orb_false_elim in E0 as [E0%Z.eqb_neq _]. pose proof (zlen_nonneg b). destruct (byte_at_ok b 0 ltac:(lia)) as [t ->]. cbn [obind].
  destruct (t =? t_int).
  { destruct (Z.ltb_spec (zlen b) 9); [apply within_ret; lia|]. destruct (int_read b 1 Hb ltac:(lia) ltac:(lia)) as (u & -> & _). apply within_ret. lia. }
  destruct (t =? t_num).
  { destruct (Z.ltb_spec (zlen b) 3); [apply within_ret; lia|]. destruct (len16_read b 1 Hb ltac:(lia) ltac:(lia)) as (l & -> & Hl & _). cbn [obind].
    apply within_span; [done|lia|word_lia|]. intros s. destruct (decide (zlen b - 3 < l)); [by right|left]. apply within_ret. word_lia. }
  destruct ((t =? t_bulk) || (t =? t_err)).
  { destruct (Z.ltb_spec (zlen b) 5); [apply within_ret; lia|]. destruct (get32_read b 1 Hb ltac:(lia) ltac:(lia)) as (l & -> & Hl & _). cbn [obind].
    apply within_span; [done|lia|word_lia|]. intros s. destruct (decide (zlen b - 5 < l)); [by right|left]. apply within_ret. word_lia. }
  destruct (t =? t_nil); [apply within_ret; lia|]. destruct (t =? t_true); [apply within_ret; lia|]. destruct (t =? t_false); [apply within_ret; lia|].
  destruct (t =? t_ok); [apply within_ret; lia|]. destruct ((t =? t_arr) || (t =? t_map)); [|apply within_ret; lia].
  destruct (Z.ltb_spec (zlen b) 5); [apply within_ret; lia|]. destruct (get32_read b 1 Hb ltac:(lia) ltac:(lia)) as (l & -> & Hl & _). cbn [obind].
  match goal with |- within _ (let! _ := json_items _ _ ?w1 _ _ ?mp _ _ _ in _) => destruct (IH w1 b depth mp 0 l 5 Hb ltac:(lia) ltac:(lia)) as (w2 & u & -> & Hu) end.
  cbn [obind]. destruct (u =? 0); apply within_ret; lia.
Qed.

Lemma jitems_safe_step fuel : json_safe fuel -> jitems_safe fuel -> jitems_safe (S fuel).
Proof.
  intros IHj IH w b depth mp i cnt used Hb Hu Hf. cbn [json_items]. destruct (i >=? cnt); [apply within_ret; lia|].
  set (w1 := if i =? 0 then w else _). clearbody w1.
  assert (forall w used1, used <= used1 <= zlen b -> within (zlen b) (let! (w, u) := one_json mem fuel w (zdrop used1 b) (depth + 1) in
    if u =? 0 then Ret (w, 0) else json_items mem fuel w b depth mp (i + 1) cnt (used1 + u))) as Value.
  { intros w2 used1 Hu1. destruct (IHj w2 (zdrop used1 b) (depth + 1)) as (w3 & u & -> & Hu2); [by apply bytes_ok_zdrop|rewrite zlen_zdrop; lia|]. cbn [obind].
    rewrite zlen_zdrop in Hu2. destruct (Z.eqb_spec u 0); [apply within_ret; lia|]. apply IH; [done|lia|lia]. }
  destruct mp; [|apply Value; lia]. rewrite Z.geb_leb. destruct (Z.leb_spec (zlen b) used); [apply within_ret; lia|].
  destruct (byte_at_ok b used ltac:(lia)) as [t ->]. cbn [obind]. destruct (negb (t =? t_bulk)); [apply within_ret; lia|].
  destruct (IHj w1 (zdrop used b) (depth + 1)) as (w3 & u & -> & Hu2); [by apply bytes_ok_zdrop|rewrite zlen_zdrop; lia|]. cbn [obind].
  rewrite zlen_zdrop in Hu2. destruct (Z.eqb_spec u 0); [apply within_ret; lia|]. apply Value. lia.
Qed.

Lemma json_safe_all fuel : json_safe fuel /\ jitems_safe fuel.
Proof.
  induction fuel as [|fuel [IHj IH]]; [split; red; intros; pose_lens; lia|]. split; [by apply json_safe_step|by apply jitems_safe_step].
Qed.

Definition resp_safe (fuel : nat) : Prop := forall w b depth, bytes_ok b -> 2 * zlen b + 2 <= Z.of_nat fuel -> within (zlen b) (one_resp mem fuel w b depth).
Definition ritems_safe (fuel : nat) : Prop := forall w b depth i cnt used, bytes_ok b -> 0 <= used <= zlen b -> 2 * (zlen b - used) + 3 <= Z.of_nat fuel ->
  within (zlen b) (resp_items mem fuel w b depth i cnt used).

Lemma resp_safe_step fuel : ritems_safe fuel -> resp_safe (S fuel).
Proof.
  intros IH w b depth Hb Hf. cbn [one_resp]. destruct ((zlen b =? 0) || (depth >? PT_DEPTH)) eqn:E0; [apply within_ret; pose_lens; lia|].
  apply orb_false_elim in E0 as [E0%Z.eqb_neq _]. pose proof (zlen_nonneg b). destruct (byte_at_ok b 0 ltac:(lia)) as [t ->]. cbn [obind].
  destruct (t =? t_int).
  { destruct (Z.ltb_spec (zlen b) 9); [apply within_ret; lia|]. destruct (int_read b 1 Hb ltac:(lia) ltac:(lia)) as (u & -> & _). apply within_ret. lia. }
  destruct (t =? t_num).
  { destruct (Z.ltb_spec (zlen b) 3); [apply within_ret; lia|]. destruct (len16_read b 1 Hb ltac:(lia) ltac:(lia)) as (l & -> & Hl & _). cbn [obind].
    apply within_span; [done|lia|word_lia|]. intros s. destruct (decide (zlen b - 3 < l)); [by right|left]. apply within_ret. word_lia. }
  destruct ((t =? t_bulk) || (t =? t_err)).
  { destruct (Z.ltb_spec (zlen b) 5); [apply within_ret; lia|]. destruct (get32_read b 1 Hb ltac:(lia) ltac:(lia)) as (l & -> & Hl & _). cbn [obind].
    apply within_span; [done|lia|word_lia|]. intros s. destruct (decide (zlen b - 5 < l)); [by right|left]. apply within_ret. word_lia. }
  destruct (t =? t_nil); [apply within_ret; lia|]. destruct (t =? t_true); [apply within_ret; lia|]. destruct (t =? t_false); [apply within_ret; lia|].
  destruct (t =? t_ok); [apply within_ret; lia|]. destruct ((t =? t_arr) || (t =? t_map)); [|apply within_ret; lia].
  destruct (Z.ltb_spec (zlen b) 5); [apply within_ret; lia|]. destruct (get32_read b 1 Hb ltac:(lia) ltac:(lia)) as (l & -> & Hl & _). cbn [obind].
  apply IH; [done|lia|lia].
Qed.

Lemma ritems_safe_step fuel : resp_safe fuel -> ritems_safe fuel -> ritems_safe (S fuel).
Proof.
  intros IHj IH w b depth i cnt used Hb Hu Hf. cbn [resp_items]. destruct (i >=? cnt); [apply within_ret; lia|].
  destruct (IHj w (zdrop used b) (depth + 1)) as (w3 & u & -> & Hu2); [by apply bytes_ok_zdrop|rewrite zlen_zdrop; lia|]. cbn [obind].
  rewrite zlen_zdrop in Hu2. destruct (Z.eqb_spec u 0); [apply within_ret; lia|]. apply IH; [done|lia|lia].
Qed.

Lemma resp_safe_all fuel : resp_safe fuel /\ ritems_safe fuel.
Proof.
  induction fuel as [|fuel [IHj IH]]; [split; red; intros; pose_lens; lia|]. split; [by apply resp_safe_step|by apply ritems_safe_step].
Qed.

End RenderSafe.

(** The renderers on any bytes whatever come to an end, read nothing outside them
    and consume no more than there is. *)
Theorem tree_render_safe (mem : Z -> bool) (w : pc_jw) (b : bytes) (Hb : bytes_ok b) :
  (exists w' u, pc_tree_json mem w b = Ret (w', u) /\ 0 <= u <= zlen b) /\
  (exists w' u, pc_tree_resp mem w b = Ret (w', u) /\ 0 <= u <= zlen b).
Proof.
  split; [apply (proj1 (json_safe_all mem _)) | apply (proj1 (resp_safe_all mem _))]; try done; unfold item_fuel, zlen; lia.
Qed.

(** The RESP renderer doubles a map's count in 32 bits and does not look at its keys: it
    takes a map of 2^31 pairs with none of them there for an empty one, and a map whose
    key is no string, both of which the reader and the JSON renderer refuse. *)
Example resp_takes_malformed_maps :
  let huge := [t_map; 0; 0; 0; 128] in let nokey := [t_map; 1; 0; 0; 0; t_nil; t_nil] in let t _ := true in
  (jw_buf <$> (fst <$> (match pc_tree_resp t (pc_jw_init 64) huge with Ret x => Some x | _ => None end)) = Some [42; 48; 13; 10]) /\
  (snd <$> (match pc_tree_resp t (pc_jw_init 64) huge with Ret x => Some x | _ => None end) = Some 5) /\
  (snd <$> (match pc_tree_resp t (pc_jw_init 64) nokey with Ret x => Some x | _ => None end) = Some 7) /\
  (pc_tv_parse t (mk_tv [] 0) huge).2 = IErr E_trunc /\ (pc_tv_parse t (mk_tv [] 0) nokey).2 = IErr E_key /\
  (snd <$> (match pc_tree_json t (pc_jw_init 64) huge with Ret x => Some x | _ => None end) = Some 0).
Proof. vm_compute. by split_and!. Qed.

(** * Examples *)

Lemma tree_rendered_witness :
  json_text (PMap x_req) = [123; 34; 107; 34; 58; 34; 92; 117; 48; 48; 48; 49; 92; 117; 48; 48; 48; 50; 92; 117; 48; 48; 48; 51; 34; 44; 34; 116; 34; 58; 45; 53; 44;
    34; 120; 34; 58; 91; 110; 117; 108; 108; 44; 116; 114; 117; 101; 44; 123; 125; 93; 125] /\
  exists w', pc_tree_json (fun _ => true) (pc_jw_init 200) (encode (PMap x_req) ++ [7]) = Ret (w', zlen (encode (PMap x_req))).
Proof.
  split; [vm_compute; reflexivity|]. destruct (tree_rendered (fun _ => true) (pc_jw_init 200) (PMap x_req) [7]) as [(w' & E & _) _].
  - apply x_req_ok.
  - vm_compute. discriminate.
  - vm_compute. repeat constructor; discriminate.
  - exists w'. exact E.
Defined.

Lemma tree_render_safe_witness : exists w' u, pc_tree_resp (fun _ => true) (pc_jw_init 64) [t_map; 1; 0; 0; 0; t_int] = Ret (w', u) /\ 0 <= u <= 6.
Proof.
  apply (tree_render_safe (fun _ => true) (pc_jw_init 64) [t_map; 1; 0; 0; 0; t_int]). vm_compute. repeat constructor; discriminate.
Defined.
