(* ===== verification/PtreeJson.v ===== *)
(** JSON text to a tree ([pc_tree_from_json] of [ptree.c]), over the tokenizer of
    [json.c] and the tree writer.

    The document's tokens are walked and each becomes the calls of the tree writer; the
    value under a key named in [doc_keys] is written as its text.  [doc_keys] is the list
    of names, empty for NULL.  An unescape that fails leaves bytes behind the end of what
    is written, which the model does not record.  The recursion gets two turns a token.

    The specification is [tree_of], the tree of a document. *)

From Stdlib Require Import ZArith Lia.
From stdpp Require Import base tactics list numbers relations.
From S2P Require Import Prelude Clcodec HtBase Json Ptree PtreeRead PtreeText.

#[local] Arguments pc_p16 : simpl never.
#[local] Arguments pc_p32 : simpl never.
#[local] Arguments pc_p64 : simpl never.
#[local] Arguments put32 : simpl never.

Inductive jerr := J_malformed | J_deep | J_room | J_escape | J_mem | J_trailing.
Inductive jres := JErr (e : jerr) | JNext (k : Z).

(** [t[i]]. *)
Definition tok_at (t : list pc_jtok) (i : Z) : outcome pc_jtok :=
  if i <? 0 then Oob else match t !! Z.to_nat i with Some k => Ret k | None => Oob end.

(** [while (p > i) p = t[p].parent;] *)
Fixpoint climb (fuel : nat) (t : list pc_jtok) (i p : Z) : outcome Z :=
  if p >? i then match fuel with O => Oob | S fuel => let! k := tok_at t p in climb fuel t i (parent k) end else Ret p.

Fixpoint skip_loop (fuel : nat) (t : list pc_jtok) (i j : Z) : outcome Z :=
  if j <? zlen t then
    match fuel with
    | O => Oob
    | S fuel =>
        let! k := tok_at t j in
        let! p := climb (length t) t i (parent k) in
        if negb (p =? i) then Ret j else skip_loop fuel t i (j + 1)
    end
  else Ret j.

Definition skip_tok (t : list pc_jtok) (i : Z) : outcome Z := skip_loop (length t) t i (i + 1).

Section FromJson.
Context (mem : Z -> option (nat -> Z)) (json : bytes) (doc_keys : list bytes).

Definition put_str (w : pc_tw) (k : pc_jtok) (is_key : bool) : outcome (pc_tw * option jerr) :=
  let span := end_ k - start k in
  let! (r, w) := room mem w (5 + span) in
  if negb r then Ret (w, Some J_room)
  else
    match pc_json_unescape json k span with
    | None => Ret (w, Some J_escape)
    | Some s =>
        let! w := tw_write w (tn w + 5) s in
        let w := counted w is_key in
        let! w := tw_write w (tn w) [t_bulk] in
        let! w := tw_write w (tn w + 1) (put32 (zlen s)) in
        Ret (tw_n w (tn w + (5 + zlen s)), None)
    end.

Definition is_doc_key (k : pc_jtok) : bool :=
  existsb (fun d => (zlen d =? end_ k - start k) && bool_decide (span json k = d)) doc_keys.

(** A number is an integer when it is digits, with a sign or not, short enough and in range. *)
Definition plain (s : bytes) : bool :=
  (0 <? zlen s) && (zlen s <? 24) &&
  match s with c :: s' => (is_digit c || ((c =? 45) && (zlen s >? 1))) && forallb is_digit s' | [] => false end.

Definition put_prim (w : pc_tw) (s : bytes) : outcome pc_tw :=
  if bool_decide (s = s_true) then pc_tw_bool mem w true
  else if bool_decide (s = s_false) then pc_tw_bool mem w false
  else if bool_decide (s = s_null) then pc_tw_nil mem w
  else if plain s && match strtoll s with (_, []) => negb (strtoll_erange s) | _ => false end
  then pc_tw_i64 mem w (fst (strtoll s))
  else pc_tw_num mem w s.

(** The text of the value at token [k]: a string's with its quotes. *)
Definition doc_text (k : pc_jtok) : outcome bytes :=
  let str := bool_decide (jtype k = PC_J_STR) in
  let a := if str then start k - 1 else start k in
  let b := if str then end_ k + 1 else end_ k in
  sub_at json a (b - a).

Fixpoint from_tok (fuel : nat) (t : list pc_jtok) (i : Z) (w : pc_tw) (depth : Z) {struct fuel} : outcome (pc_tw * jres) :=
  match fuel with
  | O => Oob
  | S fuel =>
      if i >=? zlen t then Ret (w, JErr J_malformed)
      else if depth >? PT_DEPTH then Ret (w, JErr J_deep)
      else
        let! k := tok_at t i in
        match jtype k with
        | PC_J_STR =>
            let! (w, e) := put_str w k false in
            match e with Some e => Ret (w, JErr e) | None => Ret (w, JNext (i + 1)) end
        | PC_J_PRIM => let! w := put_prim w (span json k) in Ret (w, JNext (i + 1))
        | PC_J_ARR =>
            let! w := pc_tw_arr mem w in
            let! (w, r) := from_arr fuel t (i + 1) w depth (size k) in
            match r with JErr e => Ret (w, JErr e) | JNext n => let! w := pc_tw_end w in Ret (w, JNext n) end
        | PC_J_OBJ =>
            let! w := pc_tw_map mem w in
            let! (w, r) := from_obj fuel t (i + 1) w depth (size k) in
            match r with JErr e => Ret (w, JErr e) | JNext n => let! w := pc_tw_end w in Ret (w, JNext n) end
        | PC_J_UNDEF => Ret (w, JErr J_malformed)
        end
  end
with from_arr (fuel : nat) (t : list pc_jtok) (k : Z) (w : pc_tw) (depth todo : Z) {struct fuel} : outcome (pc_tw * jres) :=
  match fuel with
  | O => Oob
  | S fuel =>
      if todo <=? 0 then Ret (w, JNext k)
      else
        let! (w, r) := from_tok fuel t k w (depth + 1) in
        match r with JErr e => Ret (w, JErr e) | JNext k => from_arr fuel t k w depth (todo - 1) end
  end
with from_obj (fuel : nat) (t : list pc_jtok) (k : Z) (w : pc_tw) (depth todo : Z) {struct fuel} : outcome (pc_tw * jres) :=
  match fuel with
  | O => Oob
  | S fuel =>
      if todo <=? 0 then Ret (w, JNext k)
      else if k + 1 >=? zlen t then Ret (w, JErr J_malformed)
      else
        let! key := tok_at t k in
        if negb (bool_decide (jtype key = PC_J_STR)) then Ret (w, JErr J_malformed)
        else
          let! (w, e) := put_str w key true in
          match e with
          | Some e => Ret (w, JErr e)
          | None =>
              if is_doc_key key then
                let! v := tok_at t (k + 1) in
                let! s := doc_text v in
                let! w := pc_tw_bulk mem w s in
                let! k := skip_tok t (k + 1) in
                from_obj fuel t k w depth (todo - 1)
              else
                let! (w, r) := from_tok fuel t (k + 1) w (depth + 1) in
                match r with JErr e => Ret (w, JErr e) | JNext k => from_obj fuel t k w depth (todo - 1) end
          end
  end.

(** Two turns a token, and one to find the end of each loop. *)
Definition tok_fuel (t : list pc_jtok) : nat := 2 * length t + 3.

(** [None] is the 0; [tmem] is whether [malloc] gave the token array. *)
Definition pc_tree_from_json (w : pc_tw) (tmem : bool) : outcome (pc_tw * option jerr) :=
  let n := zlen json in
  let maxt := s32 (n / 2) + 8 in
  let maxt := if maxt >? 262144 then 262144 else maxt in
  if negb tmem then Ret (w, Some J_mem)
  else
    match pc_json_parse json maxt with
    | None | Some [] => Ret (w, Some J_malformed)
    | Some t =>
        let! (w, r) := from_tok (tok_fuel t) t 0 w 1 in
        match r with
        | JErr e => Ret (w, Some e)
        | JNext k =>
            if negb (k =? zlen t) then Ret (w, Some J_trailing)
            else if over w then Ret (w, Some J_room)
            else Ret (w, None)
        end
    end.

End FromJson.

(** * The tree of a document *)

Definition prim_tree (s : bytes) : ptree :=
  if bool_decide (s = s_true) then PBool true
  else if bool_decide (s = s_false) then PBool false
  else if bool_decide (s = s_null) then PNil
  else if plain s && match strtoll s with (_, []) => negb (strtoll_erange s) | _ => false end then PInt (fst (strtoll s))
  else PNum s.

Section TreeOf.
Context (doc_keys : list bytes).

Definition is_doc (k : bytes) : bool := existsb (fun d => bool_decide (d = escape k)) doc_keys.

Fixpoint tree_of (v : jval) : ptree :=
  match v with
  | JStr s => PBulk s
  | JPrim p => prim_tree p
  | JArr l => PArr (map tree_of l)
  | JObj l => PMap (map (fun m => (fst m, if is_doc (fst m) then PBulk (render (snd m)) else tree_of (snd m))) l)
  end.

End TreeOf.

(** * The writer's room *)

Section Doc.
Context (mem : Z -> option (nat -> Z)).

(** [k] more bytes fit, in the buffer or after growing it. *)
Definition fits (w : pc_tw) (k : Z) : Prop := over w = false /\
  (tn w + k <= tcap w \/ (towned w = true /\ (forall c, mem c <> None) /\ tn w + k <= PT_HEAP_MAX)).

Lemma fits_le w k k' : fits w k -> k' <= k -> fits w k'.
Proof. intros [Ho H] Hk. split; [done|]. destruct H as [H|(H1 & H2 & H3)]; [left; lia|right; split_and!; [done..|lia]]. Qed.

Lemma fits_over w s d st' w' k : puts mem w s d st' w' -> fits w k -> zlen s <= k -> zlen (st w) + d <= PT_DEPTH -> over w' = false.
Proof.
  intros P [Ho [H|(H1 & H2 & H3)]] Hk Hd; [eapply (pu_room _ _ _ _ _ _ P)|eapply (pu_heap _ _ _ _ _ _ P)]; done || lia.
Qed.

Lemma fits_puts w s d st' w' k : puts mem w s d st' w' -> over w' = false -> fits w (zlen s + k) -> fits w' k.
Proof.
  intros P Ho [_ H]. split; [done|]. destruct (pu_text _ _ _ _ _ _ P Ho) as (_ & _ & ->). pose proof (pu_cap _ _ _ _ _ _ P) as [Hc _].
  rewrite (pu_own _ _ _ _ _ _ P). destruct H as [H|(H1 & H2 & H3)]; [left; lia|right; split_and!; [done..|lia]].
Qed.

Lemma roomy_le w k k' w1 : roomy mem w k true w1 -> k' <= k -> roomy mem w k' true w1.
Proof. intros [R1 R2 R3 R4 R5] Hk. split; try done. intros _. destruct (R4 eq_refl) as (? & ? & ?). split_and!; [done..|lia]. Qed.

Lemma escape_len s : zlen s <= zlen (escape s).
Proof.
  induction s as [|c s IH]; [done|]. change (escape (c :: s)) with (jw_esc c ++ escape s). rewrite zlen_cons, zlen_app.
  assert (1 <= zlen (jw_esc c)); [|lia]. unfold jw_esc. destruct (_ || _); [done|]. destruct (c <? 32); done.
Qed.

(** The bytes of a string stored before its header. *)
Lemma blit_parts (b x y z : bytes) n : 0 <= n -> n + zlen x + zlen y + zlen z <= zlen b ->
  blit (blit (blit b (n + zlen x + zlen y) z) n x) (n + zlen x) y = blit b n (x ++ y ++ z).
Proof.
  intros Hn Hl. pose proof (zlen_nonneg x). pose proof (zlen_nonneg y). pose proof (zlen_nonneg z).
  rewrite <- (ztake_zdrop n b). set (A := ztake n b). set (R := zdrop n b). assert (zlen A = n) as HA by (subst A; rewrite zlen_ztake; lia).
  rewrite <- (ztake_zdrop (zlen x) R). set (X := ztake (zlen x) R). set (R1 := zdrop (zlen x) R).
  assert (zlen R = zlen b - n) as HR by (subst R; rewrite zlen_zdrop; lia). assert (zlen X = zlen x) as HX by (subst X; rewrite zlen_ztake; lia).
  assert (zlen R1 = zlen R - zlen x) as HR1 by (subst R1; rewrite zlen_zdrop; lia).
  rewrite <- (ztake_zdrop (zlen y) R1). set (Y := ztake (zlen y) R1). set (R2 := zdrop (zlen y) R1).
  assert (zlen Y = zlen y) as HY by (subst Y; rewrite zlen_ztake; lia). assert (zlen R2 = zlen R1 - zlen y) as HR2 by (subst R2; rewrite zlen_zdrop; lia).
  rewrite <- (ztake_zdrop (zlen z) R2). set (Zz := ztake (zlen z) R2). set (R3 := zdrop (zlen z) R2).
  assert (zlen Zz = zlen z) as HZ by (subst Zz; rewrite zlen_ztake; lia). clearbody A X Y Zz R3. clear R R1 R2 HR HR1 HR2.
  replace (A ++ X ++ Y ++ Zz ++ R3) with ((A ++ X ++ Y) ++ Zz ++ R3) by by rewrite <- !app_assoc.
  rewrite (blit_mid _ _ _ z) by (rewrite ?zlen_app; lia).
  replace ((A ++ X ++ Y) ++ z ++ R3) with (A ++ X ++ (Y ++ z ++ R3)) by by rewrite <- !app_assoc.
  rewrite (blit_mid _ _ _ x) by lia.
  replace (A ++ x ++ (Y ++ z ++ R3)) with ((A ++ x) ++ Y ++ (z ++ R3)) by by rewrite <- !app_assoc.
  rewrite (blit_mid _ _ _ y) by (rewrite ?zlen_app; lia).
  replace ((A ++ X ++ Y) ++ Zz ++ R3) with (A ++ (X ++ Y ++ Zz) ++ R3) by by rewrite <- !app_assoc.
  rewrite (blit_mid _ _ _ (x ++ y ++ z)) by (rewrite ?zlen_app; lia). by rewrite <- !app_assoc.
Qed.

Lemma write_parts w s s1 : tw_ok w -> tn w + 5 + zlen s <= tcap w ->
  (let! w := tw_write w (tn w + 5) s in
   let w := tw_st w s1 in
   let! w := tw_write w (tn w) [t_bulk] in
   let! w := tw_write w (tn w + 1) (pc_p32 (zlen s)) in
   Ret (tw_n w (tn w + (5 + zlen s)))) = emit (tw_st w s1) (t_bulk :: pc_p32 (zlen s) ++ s).
Proof.
  intros [Hb Hn _ _ _ _] Hl. pose proof (zlen_nonneg s). unfold emit. assert (zlen (t_bulk :: pc_p32 (zlen s) ++ s) = 5 + zlen s) as -> by (zlens; lia).
  unfold tw_write at 1 4. cbn [tb tn tw_st]. assert (zlen (t_bulk :: pc_p32 (zlen s) ++ s) = 5 + zlen s) as -> by (zlens; lia).
  rewrite !(proj2 (Z.leb_le _ _)) by lia. cbn [andb obind]. unfold tw_write at 1. cbn [tb tn tw_st]. rewrite blit_len by lia.
  rewrite !(proj2 (Z.leb_le _ _)) by (try change (zlen [t_bulk]) with 1; lia). cbn [andb obind]. unfold tw_write. cbn [tb tn tw_st].
  rewrite !blit_len by (rewrite ?blit_len by lia; try change (zlen [t_bulk]) with 1; lia).
  rewrite zlen_p32, !(proj2 (Z.leb_le _ _)) by lia. cbn [andb obind tn]. unfold tw_n. cbn [tb tn tcap over towned st]. do 2 f_equal.
  pose proof (blit_parts (tb w) [t_bulk] (pc_p32 (zlen s)) s (tn w)) as B. change (zlen [t_bulk]) with 1 in B. rewrite zlen_p32 in B.
  replace (tn w + 1 + 4) with (tn w + 5) in B by lia. rewrite B by lia. done.
Qed.

(** A string of the document as one item. *)
Lemma put_str_puts json w s p par r (is_key : bool) : tw_ok w -> bytes_ok s -> 0 <= p -> zdrop p json = quoted s ++ r ->
  fits w (5 + zlen (escape s)) -> zlen (escape s) < 2 ^ 31 ->
  exists w', put_str mem json w (mk_jtok PC_J_STR (p + 1) (p + 1 + zlen (escape s)) 0 par) is_key = Ret (w', None) /\
    puts mem w (encode (PBulk s)) 0 (bump (st w) is_key) w' /\ over w' = false.
Proof.
  intros Hok Hs Hp Hz Hfit Hsm. unfold put_str. cbn [start end_]. replace (p + 1 + zlen (escape s) - (p + 1)) with (zlen (escape s)) by lia.
  pose proof (escape_len s) as Hesc. pose proof (zlen_nonneg s).
  destruct (room_ok mem w (5 + zlen (escape s)) Hok ltac:(lia)) as (r0 & w1 & -> & R). cbn [obind].
  assert (r0 = true) as ->.
  { destruct r0; [done|]. destruct (ro_no _ _ _ _ _ R eq_refl) as (_ & [H0|[H1 H2]]); destruct Hfit as [Hf [Hf1|(Hf1 & Hf2 & Hf3)]]; try congruence; try lia.
    specialize (H2 Hf1 Hf2). lia. }
  cbn [negb]. unfold pc_json_unescape. rewrite (span_key json s r p par Hp Hz), unescape_escape by (try done; change (zlen (@nil Z)) with 0; lia). cbn [app].
  destruct (ro_yes _ _ _ _ _ R eq_refl) as (_ & _ & Hr). destruct (ro_same _ _ _ _ _ R) as (En & Es & _). pose proof (ro_ok _ _ _ _ _ R) as Hok1.
  set (x := t_bulk :: pc_p32 (zlen s) ++ s). assert (zlen x = 5 + zlen s) as Hx by (subst x; zlens; lia).
  destruct (emit_puts mem w x w1 (bump (st w1) is_key)) as (w' & E & P); [apply (roomy_le w _ _ w1 R); lia|by rewrite bumped_len, Es|by apply bump_st_ok|].
  assert (over w' = false) as Ho.
  { eapply (fits_over w x 0); [exact P|exact Hfit|lia|]. rewrite <- Es, Z.add_0_r. by destruct Hok1. }
  exists w'. rewrite <- Es. split_and!; [|exact P|exact Ho]. rewrite <- (write_parts w1 s) in E by (done || lia).
  destruct (tw_write w1 (tn w1 + 5) s) as [w2| |] eqn:E2; [|done|done]. cbn [obind] in E |- *.
  assert (st w2 = st w1) as Est by (unfold tw_write in E2; destruct (_ && _); [by injection E2 as <-|done]).
  rewrite counted_bump, Est, put32_p32. set (w3 := tw_st w2 (bump (st w1) is_key)) in *. clearbody w3.
  destruct (tw_write w3 (tn w3) [t_bulk]) as [w4| |]; [|done|done]. cbn [obind] in E |- *.
  destruct (tw_write w4 (tn w4 + 1) _) as [w5| |]; [|done|done]. cbn [obind] in E |- *. injection E as <-. done.
Qed.

Lemma prim_puts w s : tw_ok w -> tree_ok (prim_tree s) ->
  exists w', put_prim mem w s = Ret w' /\ puts mem w (encode (prim_tree s)) 0 (bump (st w) false) w'.
Proof.
  intros Hok Ht. unfold put_prim, prim_tree in *. do 3 (destruct (bool_decide _); [by apply tag1_puts|]).
  destruct (plain s && _); [by apply i64_puts|by apply num_puts].
Qed.

End Doc.

(** * Tokens *)

(** A token's parent lies before it. *)
Lemma doc_toks_below v : forall p par i, par < i -> forall j t, doc_toks v p par i !! j = Some t -> parent t < i + Z.of_nat j.
Proof.
  induction v as [s|w|l IH|l IH] using jval_ind; intros p par i Hp j t Hj.
  - destruct j; [injection Hj as <-; simpl; lia|done].
  - destruct j; [injection Hj as <-; simpl; lia|done].
  - rewrite doc_toks_arr in Hj. destruct j as [|j]; [injection Hj as <-; simpl; lia|]. simpl in Hj.
    assert (forall q k, i < k -> forall j t, arr_toks i l q k !! j = Some t -> parent t < k + Z.of_nat j) as Ha; [|specialize (Ha _ (i + 1) ltac:(lia) _ _ Hj); lia].
    clear Hj. induction IH as [|v l Hv Hl IHl]; intros q k Hk j' t' Ht; [done|]. simpl in Ht. apply lookup_app_Some in Ht as [Ht|[Hge Ht]].
    + by eapply Hv.
    + pose proof (zlen_nonneg (doc_toks v q i k)). apply IHl in Ht; [|lia]. unfold zlen in *. lia.
  - rewrite doc_toks_obj in Hj. destruct j as [|j]; [injection Hj as <-; simpl; lia|]. simpl in Hj.
    assert (forall q k, i < k -> forall j t, obj_toks i l q k !! j = Some t -> parent t < k + Z.of_nat j) as Ha; [|specialize (Ha _ (i + 1) ltac:(lia) _ _ Hj); lia].
    clear Hj. induction IH as [|[x v] l Hv Hl IHl]; intros q k Hk j' t' Ht; [done|]. simpl in Hv, Ht. destruct j' as [|j']; [injection Ht as <-; simpl; lia|]. simpl in Ht.
    apply lookup_app_Some in Ht as [Ht|[Hge Ht]].
    + apply Hv in Ht; lia.
    + set (d := doc_toks v (q + zlen (quoted x) + 1) i (k + 1)) in *. pose proof (zlen_nonneg d). apply IHl in Ht; [|lia]. unfold zlen in *. lia.
Qed.

(** What follows a value does not hang on it. *)
Definition after (R : list pc_jtok) (i : Z) : Prop := match R with [] => True | h :: _ => parent h < i end.

Lemma after_doc v p par i R j : par < j -> after (doc_toks v p par i ++ R) j.
Proof. by destruct v. Qed.

Lemma after_arr par l p i R j : par < j -> after R j -> after (arr_toks par l p i ++ R) j.
Proof. destruct l as [|v l]; [done|]. intros H _. simpl. rewrite <- app_assoc. by apply after_doc. Qed.

Lemma after_obj par l p i R j : par < j -> after R j -> after (obj_toks par l p i ++ R) j.
Proof. by destruct l as [|[x v] l]. Qed.

Lemma after_le R i j : after R i -> i <= j -> after R j.
Proof. destruct R; simpl; [done|lia]. Qed.

Section Skip.
Context (A : list pc_jtok) (v : jval) (p par : Z) (R : list pc_jtok).
Let i : Z := zlen A.
Let B : list pc_jtok := doc_toks v p par i.
Let T : list pc_jtok := A ++ B ++ R.
Hypothesis (Hpar : par < i) (HR : after R i).

(** A token of the value, but its first, hangs on a token of the value before it. *)
Lemma inner_tok q : i < q < i + zlen B -> exists t, tok_at T q = Ret t /\ i <= parent t < q.
Proof.
  intros Hq. pose proof (zlen_nonneg A). unfold tok_at. rewrite (proj2 (Z.ltb_ge _ _)) by (unfold i in *; lia).
  assert (T !! Z.to_nat q = B !! Z.to_nat (q - i)) as ->.
  { unfold T. rewrite lookup_app_r by (unfold i, zlen in *; lia). rewrite lookup_app_l by (unfold i, zlen in *; lia). f_equal. unfold i, zlen in *. lia. }
  destruct (lookup_lt_is_Some_2 B (Z.to_nat (q - i))) as [t Ht]; [unfold zlen in Hq; lia|]. rewrite Ht. exists t. split; [done|]. split.
  - destruct (doc_toks_parents v p par i) as [Hf _]. fold B in Hf. rewrite Forall_forall in Hf. apply Hf. apply list_elem_of_lookup.
    exists (pred (Z.to_nat (q - i))). destruct B as [|h B']; [done|]. simpl. by replace (Z.to_nat (q - i)) with (S (pred (Z.to_nat (q - i)))) in Ht by lia.
  - apply (doc_toks_below v p par i Hpar) in Ht. lia.
Qed.

Lemma climb_inner fuel : forall q, i <= q < i + zlen B -> q - i <= Z.of_nat fuel -> climb fuel T i q = Ret i.
Proof.
  induction fuel as [|fuel IH]; intros q Hq Hf; cbn [climb]; rewrite Z.gtb_ltb; (destruct (Z.ltb_spec i q); [|f_equal; lia]); [lia|].
  destruct (inner_tok q) as (t & -> & Ht); [lia|]. cbn [obind]. apply IH; lia.
Qed.

Lemma skip_inner fuel : forall j, i < j <= i + zlen B -> i + zlen B - j < Z.of_nat fuel -> skip_loop fuel T i j = Ret (i + zlen B).
Proof.
  pose proof (zlen_nonneg A). pose proof (zlen_nonneg R). assert (zlen T = i + zlen B + zlen R) as HT by (unfold T, i; rewrite !zlen_app; lia).
  induction fuel as [|fuel IH]; intros j Hj Hf; [lia|]. cbn [skip_loop]. destruct (Z.ltb_spec j (zlen T)) as [Hlt|Hge].
  - destruct (decide (j < i + zlen B)).
    + destruct (inner_tok j) as (t & -> & Ht); [lia|]. cbn [obind]. rewrite climb_inner by (unfold zlen in *; lia). cbn [obind]. rewrite Z.eqb_refl. cbn [negb]. apply IH; lia.
    + assert (j = i + zlen B) as -> by lia. destruct R as [|h R']; [change (zlen (@nil pc_jtok)) with 0 in *; lia|].
      assert (tok_at T (i + zlen B) = Ret h) as ->.
      { unfold tok_at. rewrite (proj2 (Z.ltb_ge _ _)) by (unfold i in *; lia). unfold T. rewrite app_assoc. rewrite list_lookup_middle; [done|]. rewrite length_app. unfold i, zlen in *. lia. }
      cbn [obind]. destruct (length T) as [|m] eqn:El; [unfold zlen in *; lia|]. cbn [climb after] in *. rewrite Z.gtb_ltb, (proj2 (Z.ltb_ge _ _)) by lia. cbn [obind].
      rewrite (proj2 (Z.eqb_neq _ _)) by lia. done.
  - f_equal. lia.
Qed.

Lemma skip_tok_doc : skip_tok T i = Ret (i + zlen B).
Proof.
  unfold skip_tok. apply skip_inner; [pose proof (doc_toks_pos v p par i) as H; fold B in H; lia|].
  pose proof (zlen_nonneg R). pose proof (zlen_nonneg A). unfold T, i, zlen in *. rewrite !length_app. lia.
Qed.

End Skip.

(** * The document becomes its tree *)

Lemma val_ok_arr l : val_ok (JArr l) <-> Forall val_ok l.
Proof. simpl. apply foldr_Forall. Qed.
Lemma val_ok_obj l : val_ok (JObj l) <-> Forall (fun m => bytes_ok (fst m) /\ val_ok (snd m)) l.
Proof. simpl. apply foldr_Forall. Qed.

Lemma render_pos v : val_ok v -> 1 <= zlen (render v).
Proof.
  destruct v as [s|p|l|l]; cbn [render val_ok]; intros H; [unfold quoted; zlens; pose_lens; lia| |zlens; pose_lens; lia..].
  destruct p as [|c p]; [by destruct H|]. zlens. pose_lens. lia.
Qed.

Section Main.
Context (mem : Z -> option (nat -> Z)) (json : bytes) (dk : list bytes).
Hypothesis (Hsmall : zlen json < 2 ^ 31).

Abbreviation tree := (tree_of dk).

(** The value at [i] is written as its tree. *)
Definition doc_as (v : jval) : Prop := forall fuel w A R p par r depth,
  let i := zlen A in let B := doc_toks v p par i in let T := A ++ B ++ R in
  val_ok v -> tree_ok (tree v) -> par < i -> after R i -> 0 <= p -> zdrop p json = render v ++ r ->
  2 * (zlen T - i) + 1 <= Z.of_nat fuel -> levels (tree v) + depth - 1 <= PT_DEPTH ->
  tw_ok w -> zlen (st w) + nest (tree v) <= PT_DEPTH -> fits mem w (9 * zlen (render v)) ->
  exists w', from_tok mem json dk fuel T i w depth = Ret (w', JNext (i + zlen B)) /\
    puts mem w (encode (tree v)) (nest (tree v)) (bump (st w) false) w' /\ over w' = false.

Lemma tok_at_front A k B R : tok_at (A ++ (k :: B) ++ R) (zlen A) = Ret k.
Proof.
  unfold tok_at. rewrite (proj2 (Z.ltb_ge _ _)) by apply zlen_nonneg. cbn [app]. rewrite list_lookup_middle; [done|]. unfold zlen. lia.
Qed.

(** The first steps at a token: it is there and not too deep. *)
Lemma tok_enter fuel w A k B R depth : depth <= PT_DEPTH -> 2 * (zlen (A ++ (k :: B) ++ R) - zlen A) + 1 <= Z.of_nat fuel ->
  exists f, fuel = S f /\ 2 * (zlen (A ++ (k :: B) ++ R) - zlen A) <= Z.of_nat f /\
  from_tok mem json dk fuel (A ++ (k :: B) ++ R) (zlen A) w depth =
  match jtype k with
  | PC_J_STR => let! (w, e) := put_str mem json w k false in match e with Some e => Ret (w, JErr e) | None => Ret (w, JNext (zlen A + 1)) end
  | PC_J_PRIM => let! w := put_prim mem w (span json k) in Ret (w, JNext (zlen A + 1))
  | PC_J_ARR => let! w := pc_tw_arr mem w in let! (w, r) := from_arr mem json dk f (A ++ (k :: B) ++ R) (zlen A + 1) w depth (size k) in
      match r with JErr e => Ret (w, JErr e) | JNext n => let! w := pc_tw_end w in Ret (w, JNext n) end
  | PC_J_OBJ => let! w := pc_tw_map mem w in let! (w, r) := from_obj mem json dk f (A ++ (k :: B) ++ R) (zlen A + 1) w depth (size k) in
      match r with JErr e => Ret (w, JErr e) | JNext n => let! w := pc_tw_end w in Ret (w, JNext n) end
  | PC_J_UNDEF => Ret (w, JErr J_malformed)
  end.
Proof.
  intros Hd Hf. assert (zlen (A ++ (k :: B) ++ R) = zlen A + 1 + zlen B + zlen R) as HT by (zlens; lia). pose proof (zlen_nonneg B). pose proof (zlen_nonneg R).
  destruct fuel as [|f]; [lia|]. exists f. split_and!; [done|lia|]. cbn [from_tok].
  rewrite Z.geb_leb, (proj2 (Z.leb_gt _ _)), Z.gtb_ltb, (proj2 (Z.ltb_ge _ _)) by lia. by rewrite tok_at_front.
Qed.

Lemma doc_str s : doc_as (JStr s).
Proof.
  intros fuel w A R p par r depth i B T Hv Ht Hp HR Hp0 Hz Hf Hl Hok Hd Hfit. cbn [tree_of levels] in *.
  destruct (tok_enter fuel w A _ [] R depth ltac:(lia) Hf) as (f & _ & _ & E). subst T B i. cbn [doc_toks]. rewrite E. clear E. cbn [jtype].
  assert (zlen (escape s) + 2 <= zlen (render (JStr s))) as Hr by (cbn [render]; unfold quoted; zlens; lia). pose proof (zlen_nonneg (escape s)).
  assert (zlen (render (JStr s)) < 2 ^ 31) by (apply (f_equal zlen) in Hz; rewrite zlen_zdrop, zlen_app in Hz; pose proof (zlen_nonneg r); lia).
  destruct (put_str_puts mem json w s p par r false Hok Hv Hp0 Hz) as (w' & -> & P & Ho); [eapply fits_le; [exact Hfit|lia]|lia|].
  cbn [obind]. exists w'. split_and!; try done.
Qed.

Lemma enc_prim p : prim_ok p -> zlen (encode (prim_tree p)) <= 9 * zlen p.
Proof.
  intros [_ Hp]. assert (1 <= zlen p) by (destruct p; [done|]; zlens; pose_lens; lia). unfold prim_tree.
  destruct (bool_decide _); [cbn [encode]; zlens; lia|]. destruct (bool_decide _); [cbn [encode]; zlens; lia|]. destruct (bool_decide _); [cbn [encode]; zlens; lia|].
  destruct (plain p && _); cbn [encode]; zlens; lia.
Qed.

Lemma nest_prim p : nest (prim_tree p) = 0.
Proof. unfold prim_tree. by repeat (destruct (bool_decide _); [done|]); destruct (plain p && _). Qed.

Lemma levels_prim p : levels (prim_tree p) = 1.
Proof. unfold prim_tree. by repeat (destruct (bool_decide _); [done|]); destruct (plain p && _). Qed.

Lemma span_at p r par n ty sz : 0 <= n -> zdrop n json = p ++ r -> span json (mk_jtok ty n (n + zlen p) sz par) = p.
Proof. intros Hn Hz. unfold span. cbn [start end_]. replace (n + zlen p - n) with (zlen p) by lia. by rewrite Hz, ztake_app. Qed.

Lemma doc_prim s : doc_as (JPrim s).
Proof.
  intros fuel w A R p par r depth i B T Hv Ht Hp HR Hp0 Hz Hf Hl Hok Hd Hfit. cbn [tree_of] in *. rewrite levels_prim, ?nest_prim in *.
  destruct (tok_enter fuel w A _ [] R depth ltac:(lia) Hf) as (f & _ & _ & E). subst T B i. cbn [doc_toks]. rewrite E. clear E. cbn [jtype].
  rewrite (span_at s r) by done. destruct (prim_puts mem w s Hok Ht) as (w' & -> & P). cbn [obind]. exists w'. split_and!; [done|done|].
  eapply (fits_over mem w _ 0); [exact P|exact Hfit|by apply enc_prim|done].
Qed.

(** ** Lengths *)

Lemma zlen_commas x l : zlen (commas (x :: l)) = zlen x + (match l with [] => 0 | _ => 1 end) + zlen (commas l).
Proof. destruct l; cbn [commas]; zlens; lia. Qed.

Lemma commas_enc {X} (f : X -> bytes) (g : X -> bytes) l : Forall (fun x => zlen (g x) <= 9 * zlen (f x)) l ->
  zlen (flat_map g l) <= 9 * zlen (commas (map f l)).
Proof.
  induction 1 as [|x l Hx Hl IH]; [done|]. cbn [flat_map map]. rewrite zlen_commas, zlen_app. destruct (map f l); lia.
Qed.

Lemma flat_map_map {X Y C} (f : X -> Y) (g : Y -> list C) l : flat_map g (map f l) = flat_map (fun x => g (f x)) l.
Proof. induction l as [|x l IH]; [done|]. simpl. by rewrite IH. Qed.

Definition pair_of (m : bytes * jval) : bytes * ptree := (fst m, if is_doc dk (fst m) then PBulk (render (snd m)) else tree (snd m)).

Lemma tree_obj l : tree (JObj l) = PMap (map pair_of l).
Proof. done. Qed.

Lemma enc_pairs l : flat_map encode (flat (map pair_of l)) = flat_map (fun m => encode (PBulk (fst m)) ++ encode (snd (pair_of m))) l.
Proof. induction l as [|m l IH]; [done|]. cbn [map flat flat_map]. unfold flat in *. cbn [flat_map app]. rewrite IH. by rewrite <- !app_assoc. Qed.

Lemma member_len k v : zlen (member (k, v)) = zlen (escape k) + 3 + zlen (render v).
Proof. unfold member, quoted. cbn [fst snd]. zlens. lia. Qed.

Lemma enc_le v : val_ok v -> zlen (encode (tree v)) <= 9 * zlen (render v).
Proof.
  induction v as [s|s|l IH|l IH] using jval_ind; intros Hv.
  - cbn [tree_of encode render]. unfold quoted. zlens. pose proof (escape_len s). pose_lens. lia.
  - by apply enc_prim.
  - apply val_ok_arr in Hv. cbn [tree_of encode render]. zlens. assert (zlen (flat_map encode (map tree l)) <= 9 * zlen (commas (map render l))); [|pose_lens; lia].
    rewrite flat_map_map. apply commas_enc. rewrite Forall_forall in *. auto.
  - apply val_ok_obj in Hv. rewrite tree_obj, encode_map, enc_pairs, render_obj. zlens.
    assert (zlen (flat_map (fun m => encode (PBulk (fst m)) ++ encode (snd (pair_of m))) l) <= 9 * zlen (commas (map member l))); [|pose_lens; lia].
    apply commas_enc. rewrite Forall_forall in *. intros [k v] Hin. destruct (Hv _ Hin) as [_ Hv']. specialize (IH _ Hin Hv'). cbn [snd fst] in *.
    unfold pair_of. cbn [fst snd]. rewrite member_len. pose proof (escape_len k). destruct (is_doc dk k); cbn [encode]; zlens; pose_lens; lia.
Qed.

(** ** Arrays *)

Lemma from_arr_S fuel t k w depth todo : from_arr mem json dk (S fuel) t k w depth todo =
  if todo <=? 0 then Ret (w, JNext k)
  else
    let! (w, r) := from_tok mem json dk fuel t k w (depth + 1) in
    match r with JErr e => Ret (w, JErr e) | JNext k => from_arr mem json dk fuel t k w depth (todo - 1) end.
Proof. done. Qed.

Lemma arr_loop l : Forall doc_as l -> forall fuel w A R p par r depth,
  let k := zlen A in let B := arr_toks par l p k in let T := A ++ B ++ R in let ts := map tree l in
  Forall val_ok l -> trees_ok ts -> par < k -> after R k -> 0 <= p -> zdrop p json = commas (map render l) ++ r ->
  2 * (zlen T - k) + 2 <= Z.of_nat fuel -> levels_of ts + depth <= PT_DEPTH ->
  tw_ok w -> zlen (st w) + nest_of ts <= PT_DEPTH -> fits mem w (9 * zlen (commas (map render l))) ->
  exists w', from_arr mem json dk fuel T k w depth (zlen l) = Ret (w', JNext (k + zlen B)) /\
    puts mem w (flat_map encode ts) (nest_of ts) (bumps (length l) false (st w)) w' /\ over w' = false.
Proof.
  induction 1 as [|v l Hv Hl IH]; intros fuel w A R p par r depth k B T ts Hval Hts Hpar HR Hp Hz Hf Hd Hok Hn Hfit.
  { destruct fuel as [|fuel]; [subst T; zlens; pose_lens; lia|]. exists w. cbn [from_arr]. split_and!; [subst B; cbn; by rewrite Z.add_0_r|by apply puts_nil|apply Hfit]. }
  apply list.Forall_cons in Hval as [Hv1 Hval]. unfold ts in *. cbn [map] in *. apply list.Forall_cons in Hts as [Ht1 Hts].
  cbn [levels_of nest_of foldr] in Hd, Hn. fold (levels_of (map tree l)) in Hd. fold (nest_of (map tree l)) in Hn.
  cbn [flat_map nest_of foldr length bumps]. fold (nest_of (map tree l)).
  rewrite zlen_commas in Hfit. pose proof (zlen_nonneg (commas (map render l))).
  set (d := doc_toks v p par k) in *. set (q := p + zlen (render v) + 1). set (B' := arr_toks par l q (zlen (A ++ d))).
  assert (B = d ++ B') as HB by (subst B B'; rewrite zlen_app; done). pose proof (doc_toks_pos v p par k) as Hd1. fold d in Hd1.
  pose proof (zlen_nonneg B'). pose proof (zlen_nonneg R). assert (zlen T = k + zlen d + zlen B' + zlen R) as HT by (subst T; rewrite HB; zlens; lia).
  destruct fuel as [|fuel]; [lia|]. rewrite from_arr_S. rewrite zlen_cons, (proj2 (Z.leb_gt _ _)) by (pose proof (zlen_nonneg l); lia).
  assert (exists r1, zdrop p json = render v ++ r1) as [r1 Hz1].
  { rewrite Hz. destruct l; [by eexists|]. cbn [map commas]. rewrite <- app_assoc. by eexists. }
  assert (zlen (st w) + nest (tree v) <= PT_DEPTH /\ levels (tree v) + (depth + 1) - 1 <= PT_DEPTH) as [Hn1 Hd2] by lia.
  destruct (Hv fuel w A (B' ++ R) p par r1 (depth + 1)) as (w1 & E1 & P1 & O1); try done; [by apply after_arr|..].
  { fold k d. rewrite !zlen_app in *. unfold k in *. lia. } { eapply fits_le; [exact Hfit|destruct (map render l); lia]. }
  fold k d in E1. replace (A ++ d ++ B' ++ R) with T in E1 by (subst T; rewrite HB; by rewrite <- !app_assoc). rewrite E1. cbn [obind].
  replace (1 + zlen l - 1) with (zlen l) by lia. destruct (pu_text _ _ _ _ _ _ P1 O1) as (_ & Es & _).
  assert (exists r2, zdrop q json = commas (map render l) ++ r2) as [r2 Hz2].
  { destruct l as [|v2 l]; [by exists (zdrop q json)|]. cbn [map commas] in Hz. rewrite <- app_assoc in Hz. pose proof (zlen_nonneg (render v)).
    apply zdrop_after in Hz; [|done]. change ((c_comma :: ?x) ++ r) with ([c_comma] ++ (x ++ r)) in Hz. apply zdrop_after in Hz; [|lia]. eexists. exact Hz. }
  destruct (IH fuel w1 (A ++ d) R q par r2 depth) as (w2 & E2 & P2 & O2); try done.
  { rewrite zlen_app. unfold k in Hpar. lia. } { eapply after_le; [exact HR|]. rewrite zlen_app. unfold k. lia. } { subst q. pose proof (zlen_nonneg (render v)). lia. }
  { fold B'. rewrite !zlen_app in *. unfold k in *. lia. } { lia. } { apply P1. } { rewrite Es, bumped_len. lia. }
  { eapply fits_puts; [exact P1|done|]. eapply fits_le; [exact Hfit|]. pose proof (enc_le v Hv1). destruct (map render l); lia. }
  fold B' in E2. replace ((A ++ d) ++ B' ++ R) with T in E2 by (subst T; rewrite HB; by rewrite <- !app_assoc). rewrite zlen_app in E2. fold k in E2.
  exists w2. split_and!; [rewrite E2, HB, zlen_app; do 3 f_equal; lia| |done].
  rewrite Es in P2. pose proof (puts_app _ _ _ _ _ _ 0 _ _ _ _ P1 P2 ltac:(rewrite bumped_len; lia)) as P.
  by replace (Z.max (nest (tree v)) (nest_of (map tree l) + 0)) with (Z.max (nest (tree v)) (nest_of (map tree l))) in P by lia.
Qed.

(** ** Objects *)

Lemma from_obj_S fuel t k w depth todo : from_obj mem json dk (S fuel) t k w depth todo =
  if todo <=? 0 then Ret (w, JNext k)
  else if k + 1 >=? zlen t then Ret (w, JErr J_malformed)
  else
    let! key := tok_at t k in
    if negb (bool_decide (jtype key = PC_J_STR)) then Ret (w, JErr J_malformed)
    else
      let! (w, e) := put_str mem json w key true in
      match e with
      | Some e => Ret (w, JErr e)
      | None =>
          if is_doc_key json dk key then
            let! v := tok_at t (k + 1) in
            let! s := doc_text json v in
            let! w := pc_tw_bulk mem w s in
            let! k := skip_tok t (k + 1) in
            from_obj mem json dk fuel t k w depth (todo - 1)
          else
            let! (w, r) := from_tok mem json dk fuel t (k + 1) w (depth + 1) in
            match r with JErr e => Ret (w, JErr e) | JNext k => from_obj mem json dk fuel t k w depth (todo - 1) end
      end.
Proof. done. Qed.

Lemma is_doc_key_doc k r p par : 0 <= p -> zdrop p json = quoted k ++ r ->
  is_doc_key json dk (mk_jtok PC_J_STR (p + 1) (p + 1 + zlen (escape k)) 0 par) = is_doc dk k.
Proof.
  intros Hp Hz. unfold is_doc_key, is_doc. rewrite (span_key json k r p par Hp Hz). cbn [start end_].
  replace (p + 1 + zlen (escape k) - (p + 1)) with (zlen (escape k)) by lia. clear. induction dk as [|d l IH]; [done|]. simpl. rewrite IH. f_equal.
  destruct (decide (d = escape k)) as [->|Hne]; [by rewrite Z.eqb_refl, !bool_decide_true|].
  rewrite !(bool_decide_false) by congruence. by rewrite andb_false_r.
Qed.

Lemma doc_text_doc v p par i r : val_ok v -> 0 <= p -> zdrop p json = render v ++ r ->
  exists h t, doc_toks v p par i = h :: t /\ doc_text json h = Ret (render v).
Proof.
  intros Hv Hp Hz. apply render_pos in Hv. assert (forall a n, a = p -> n = zlen (render v) -> sub_at json a n = Ret (render v)) as Hs.
  { intros a n -> ->. apply (f_equal zlen) in Hz as Hl. rewrite zlen_app, zlen_zdrop in Hl. pose_lens. rewrite sub_at_ok by lia. by rewrite Hz, ztake_app. }
  destruct v as [s|s|l|l]; cbn [doc_toks]; eexists _, _; (split; [done|]); unfold doc_text; cbn [jtype start end_];
    rewrite ?bool_decide_true, ?bool_decide_false by done; apply Hs; cbn [render]; unfold quoted; zlens; lia.
Qed.

Lemma top_bump w : top true w -> bump (st w) false = st w.
Proof. intros (o & s & -> & Ho). simpl. by rewrite Ho. Qed.

(** The value of a member, after its key. *)
Lemma value_step k v fuel w A R p par r depth :
  let i := zlen A in let d := doc_toks v p par i in let T := A ++ d ++ R in let t := snd (pair_of (k, v)) in
  doc_as v -> val_ok v -> tree_ok t -> par < i -> after R i -> 0 <= p -> zdrop p json = render v ++ r ->
  2 * (zlen T - i) + 1 <= Z.of_nat fuel -> levels t + depth <= PT_DEPTH ->
  tw_ok w -> zlen (st w) + nest t <= PT_DEPTH -> fits mem w (9 * zlen (render v) + 5) -> top true w ->
  exists w', (forall todo, (if is_doc dk k then
        let! x := tok_at T i in let! s := doc_text json x in let! w := pc_tw_bulk mem w s in let! n := skip_tok T i in from_obj mem json dk fuel T n w depth todo
      else let! (w, r) := from_tok mem json dk fuel T i w (depth + 1) in
           match r with JErr e => Ret (w, JErr e) | JNext k => from_obj mem json dk fuel T k w depth todo end)
      = from_obj mem json dk fuel T (i + zlen d) w' depth todo) /\
    puts mem w (encode t) (nest t) (st w) w' /\ over w' = false.
Proof.
  intros i d T t Hv Hval Ht Hpar HR Hp Hz Hf Hd Hok Hn Hfit Htop. unfold t, pair_of in *. cbn [fst snd] in *.
  destruct (is_doc dk k) eqn:Ed.
  - cbn [tree_ok nest] in *. destruct (doc_text_doc v p par i r Hval Hp Hz) as (h & tl & E & Es). destruct (bulk_puts mem w t_bulk (render v) Hok Ht) as (w' & E2 & P). rewrite (top_bump w Htop) in P.
    exists w'. split_and!; [|done|].
    + intros todo. assert (tok_at T i = Ret h) as -> by (subst T d; rewrite E; apply tok_at_front). cbn [obind]. rewrite Es. cbn [obind].
      unfold pc_tw_bulk. rewrite E2. cbn [obind]. by rewrite (skip_tok_doc A v p par R Hpar HR : skip_tok T i = _).
    + eapply (fits_over mem w _ 0); [exact P|exact Hfit|zlens; pose_lens; lia|lia].
  - destruct (Hv fuel w A R p par r (depth + 1)) as (w' & E & P & O); try done; [lia|eapply fits_le; [exact Hfit|lia]|]. rewrite (top_bump w Htop) in P.
    exists w'. split_and!; [|done|done]. intros todo. fold i d T in E. by rewrite E.
Qed.

Lemma enc_value m : val_ok (snd m) -> zlen (encode (snd (pair_of m))) <= 9 * zlen (render (snd m)) + 5.
Proof. intros Hv. pose proof (enc_le _ Hv). unfold pair_of. cbn [snd]. destruct (is_doc dk (fst m)); [|lia]. cbn [encode]. zlens. pose_lens. lia. Qed.

(** One member: its key and its value. *)
Lemma member_step k v fuel w A R p par r depth todo :
  let i := zlen A in let q := p + zlen (quoted k) + 1 in let d := doc_toks v q par (i + 1) in
  let T := A ++ (mk_jtok PC_J_STR (p + 1) (p + 1 + zlen (escape k)) 0 par :: d) ++ R in let t := snd (pair_of (k, v)) in
  doc_as v -> bytes_ok k -> val_ok v -> tree_ok t -> par < i -> after R i -> 0 <= p -> zdrop p json = quoted k ++ [c_colon] ++ render v ++ r ->
  2 * (zlen T - i) + 1 <= Z.of_nat (S fuel) -> levels t + depth <= PT_DEPTH -> 0 < todo ->
  tw_ok w -> zlen (st w) + nest t <= PT_DEPTH -> fits mem w (9 * zlen (member (k, v))) -> top true w ->
  exists w', from_obj mem json dk (S fuel) T i w depth todo = from_obj mem json dk fuel T (i + 1 + zlen d) w' depth (todo - 1) /\
    puts mem w (encode (PBulk k) ++ encode t) (nest t) (bump (st w) true) w' /\ over w' = false /\ top true w'.
Proof.
  intros i q d T t Hv Hk Hval Ht Hpar HR Hp Hz Hf Hd Htodo Hok Hn Hfit Htop. set (key := mk_jtok _ _ _ _ _) in T.
  pose proof (doc_toks_pos v q par (i + 1)) as Hd1. fold d in Hd1. pose proof (zlen_nonneg R). assert (zlen T = i + 1 + zlen d + zlen R) as HT by (subst T i; zlens; lia).
  rewrite member_len in Hfit. pose proof (render_pos v Hval). pose proof (escape_len k). pose proof (zlen_nonneg k).
  assert (zlen (escape k) < 2 ^ 31) as Hsm. { apply (f_equal zlen) in Hz. unfold quoted in Hz. rewrite zlen_zdrop in Hz. zlens. pose_lens. lia. }
  rewrite from_obj_S, (proj2 (Z.leb_gt _ _)) by done. rewrite Z.geb_leb, (proj2 (Z.leb_gt _ _)) by lia.
  assert (tok_at T i = Ret key) as -> by apply tok_at_front. cbn [obind]. rewrite bool_decide_true by done. cbn [negb].
  destruct (put_str_puts mem json w k p par _ true Hok Hk Hp Hz) as (w1 & E1 & P1 & O1); [eapply fits_le; [exact Hfit|lia]|done|].
  fold key in E1. rewrite E1. cbn [obind]. clear E1. unfold key. rewrite (is_doc_key_doc k _ p par Hp Hz). fold key.
  pose proof (puts_top mem _ _ _ _ _ P1 (fun _ => Htop) O1) as Htop1. destruct (pu_text _ _ _ _ _ _ P1 O1) as (_ & Es & _).
  apply zdrop_after in Hz; [|done]. apply zdrop_after in Hz; [|pose_lens; lia]. change (zlen [c_colon]) with 1 in Hz.
  assert (zlen (A ++ [key]) = i + 1) as HA by (subst i; zlens; lia). assert (T = (A ++ [key]) ++ doc_toks v q par (zlen (A ++ [key])) ++ R) as ET by (rewrite HA; subst T; by rewrite <- !app_assoc).
  destruct (value_step k v fuel w1 (A ++ [key]) R q par r depth) as (w2 & E2 & P2 & O2); try done.
  { lia. } { eapply after_le; [exact HR|lia]. } { subst q. pose_lens. lia. } { rewrite <- ET. lia. } { apply P1. } { rewrite Es, bumped_len. done. }
  { eapply fits_puts; [exact P1|done|]. eapply fits_le; [exact Hfit|]. cbn [encode]. zlens. lia. }
  rewrite <- ET, HA in E2. fold d in E2. exists w2. rewrite E2. split_and!; [done| |done|].
  - rewrite Es in P2. pose proof (puts_app _ _ _ _ _ _ 0 _ _ _ _ P1 P2 ltac:(rewrite bumped_len; lia)) as P. pose proof (nest_nonneg t).
    fold t in P. by replace (Z.max 0 (nest t + 0)) with (nest t) in P by lia.
  - destruct (pu_text _ _ _ _ _ _ P2 O2) as (_ & Es2 & _). unfold top. by rewrite Es2.
Qed.

Lemma obj_loop l : Forall (fun m => doc_as (snd m)) l -> forall fuel w A R p par r depth,
  let k := zlen A in let B := obj_toks par l p k in let T := A ++ B ++ R in let ts := flat (map pair_of l) in
  Forall (fun m => bytes_ok (fst m) /\ val_ok (snd m)) l -> trees_ok ts -> par < k -> after R k -> 0 <= p ->
  (l <> [] -> zdrop p json = commas (map member l) ++ c_rbrace :: r) ->
  2 * (zlen T - k) + 2 <= Z.of_nat fuel -> levels_of ts + depth <= PT_DEPTH ->
  tw_ok w -> zlen (st w) + nest_of ts <= PT_DEPTH -> fits mem w (9 * zlen (commas (map member l))) -> top true w ->
  exists w', from_obj mem json dk fuel T k w depth (zlen l) = Ret (w', JNext (k + zlen B)) /\
    puts mem w (flat_map encode ts) (nest_of ts) (bumps (length l) true (st w)) w' /\ over w' = false.
Proof.
  induction 1 as [|[x v] l Hv Hl IH]; intros fuel w A R p par r depth k B T ts Hval Hts Hpar HR Hp Hz Hf Hd Hok Hn Hfit Htop.
  { destruct fuel as [|fuel]; [subst T; zlens; pose_lens; lia|]. exists w. cbn [from_obj]. split_and!; [subst B; cbn; by rewrite Z.add_0_r|by apply puts_nil|apply Hfit]. }
  apply list.Forall_cons in Hval as [[Hx Hv1] Hval]. cbn [fst snd] in *. set (t := snd (pair_of (x, v))). set (ts' := flat (map pair_of l)).
  assert (ts = PBulk x :: t :: ts') as Ets by done. rewrite Ets in *. apply list.Forall_cons in Hts as [_ Hts]. apply list.Forall_cons in Hts as [Ht Hts].
  cbn [levels_of nest_of foldr levels nest] in Hd, Hn. fold (levels_of ts') in Hd. fold (nest_of ts') in Hn. pose proof (nest_of_pos ts').
  cbn [map] in Hfit. rewrite zlen_commas in Hfit. pose proof (zlen_nonneg (commas (map member l))). pose proof (nest_nonneg t).
  set (q := p + zlen (quoted x) + 1). set (d := doc_toks v q par (k + 1)). set (key := mk_jtok PC_J_STR (p + 1) (p + 1 + zlen (escape x)) 0 par).
  set (q2 := q + zlen (render v) + 1). set (A2 := A ++ key :: d). assert (zlen A2 = k + 1 + zlen d) as HA2 by (subst A2 k; zlens; lia).
  set (B' := obj_toks par l q2 (zlen A2)). assert (B = (key :: d) ++ B') as HB by (subst B B'; rewrite HA2; done).
  pose proof (zlen_nonneg B'). pose proof (zlen_nonneg R). pose proof (zlen_nonneg d).
  assert (T = A ++ (key :: d) ++ B' ++ R) as ET by (subst T; rewrite HB; by rewrite <- !app_assoc).
  assert (T = A2 ++ B' ++ R) as ET2 by (rewrite ET; subst A2; by rewrite <- !app_assoc). assert (zlen T = k + 1 + zlen d + zlen B' + zlen R) as HT by (rewrite ET2, !zlen_app; lia).
  destruct fuel as [|fuel]; [lia|]. rewrite zlen_cons. destruct (members_step json x v l p r Hp (Hz ltac:(done))) as (r1 & Hz1 & _ & Hz2).
  destruct (member_step x v fuel w A (B' ++ R) p par r1 depth (1 + zlen l)) as (w1 & E1 & P1 & O1 & T1); try done.
  { by apply after_obj. } { fold k q d key. rewrite <- ET. lia. } { fold t. lia. } { pose_lens; lia. } { fold t. lia. } { eapply fits_le; [exact Hfit|destruct (map member l); lia]. }
  fold k key q d t in E1. rewrite <- ET in E1. rewrite E1. replace (1 + zlen l - 1) with (zlen l) by lia. destruct (pu_text _ _ _ _ _ _ P1 O1) as (_ & Es & _).
  destruct (IH fuel w1 A2 R q2 par r depth) as (w2 & E2 & P2 & O2); try done.
  { lia. } { eapply after_le; [exact HR|lia]. } { subst q2 q. pose_lens. lia. } { fold B'. rewrite <- ET2. lia. } { fold ts'. lia. } { apply P1. } { rewrite Es, bumped_len. fold ts'. lia. }
  { eapply fits_puts; [exact P1|done|]. eapply fits_le; [exact Hfit|]. pose proof (enc_value (x, v) Hv1) as Hev. fold t in Hev |- *. pose proof (zlen_nonneg x). pose proof (escape_len x). cbn [snd] in *.
    cbn [encode]. zlens. rewrite member_len. destruct (map member l); lia. }
  fold B' in E2. rewrite <- ET2, HA2 in E2. exists w2. split_and!; [rewrite E2, HB, zlen_app, zlen_cons; do 3 f_equal; lia| |done].
  rewrite Es in P2. pose proof (puts_app _ _ _ _ _ _ 0 _ _ _ _ P1 P2 ltac:(rewrite bumped_len; lia)) as P. fold ts' in P.
  cbn [flat_map nest_of foldr nest length bumps]. fold (nest_of ts'). rewrite <- app_assoc in P. fold t in P |- *.
  by replace (Z.max (nest t) (nest_of ts' + 0)) with (Z.max 0 (Z.max (nest t) (nest_of ts'))) in P by lia.
Qed.

(** ** Values *)

(** A container around what puts its elements. *)
Lemma cont_puts tg mp body d n m w (run : pc_tw -> outcome (pc_tw * jres)) k :
  tw_ok w -> 0 <= d -> zlen (st w) + (1 + d) <= PT_DEPTH -> fits mem w (5 + m) -> zlen body <= m ->
  (forall w1, tw_ok w1 -> zlen (st w1) = zlen (st w) + 1 -> fits mem w1 m -> top mp w1 ->
    exists w2, run w1 = Ret (w2, JNext k) /\ puts mem w1 body d (bumps n mp (st w1)) w2 /\ over w2 = false) ->
  exists w', (let! w := open_c mem w tg mp in let! (w, r) := run w in
      match r with JErr e => Ret (w, JErr e) | JNext n => let! w := pc_tw_end w in Ret (w, JNext n) end) = Ret (w', JNext k) /\
    puts mem w (tg :: pc_p32 (Z.of_nat n) ++ body) (1 + d) (bump (st w) false) w' /\ over w' = false.
Proof.
  intros Hok Hd Hn Hfit Hm Hrun. destruct (open_puts mem w tg mp Hok) as (w1 & j & E1 & Hj & P1). rewrite E1. cbn [obind].
  assert (zlen (tg :: j) = 5) as Hj5 by (zlens; lia). pose proof (zlen_nonneg body).
  assert (over w1 = false) as O1 by (eapply (fits_over mem w _ 1); [exact P1|exact Hfit|lia|lia]).
  destruct (pu_text _ _ _ _ _ _ P1 O1) as (_ & Es & _).
  destruct (Hrun w1) as (w2 & E2 & P2 & O2); [apply P1|rewrite Es, zlen_cons, bumped_len; lia|eapply fits_puts; [exact P1|done|by rewrite Hj5]|by eexists _, _|].
  rewrite E2. cbn [obind]. rewrite Es, bumps_open in P2 by (done || lia).
  pose proof (puts_app _ _ _ _ _ _ 1 _ _ _ _ P1 P2 ltac:(rewrite zlen_cons, bumped_len; lia)) as P. simpl in P.
  replace (Z.max 1 (d + 1)) with (1 + d) in P by lia.
  destruct (end_puts _ _ _ _ _ _ _ _ _ (u32 (Z.of_nat n)) _ P Hj eq_refl eq_refl Hok) as (w3 & E3 & P3). rewrite p32_u32 in P3.
  exists w3. rewrite E3. cbn [obind]. split_and!; [done|done|]. eapply fits_over; [exact P3|exact Hfit|zlens; lia|done].
Qed.

Lemma doc_arr l : Forall doc_as l -> doc_as (JArr l).
Proof.
  intros Hl fuel w A R p par r depth i B T Hv Ht Hp HR Hp0 Hz Hf Hd Hok Hn Hfit. apply val_ok_arr in Hv as Hvl. cbn [tree_of] in *. apply tree_ok_arr in Ht as [_ Ht].
  cbn [levels nest] in Hd, Hn. fold (levels_of (map tree l)) in Hd. fold (nest_of (map tree l)) in Hn. pose proof (levels_of_pos (map tree l)). pose proof (nest_of_pos (map tree l)).
  subst B T. rewrite doc_toks_arr in *. destruct (tok_enter fuel w A _ _ R depth ltac:(lia) Hf) as (f & _ & Hf2 & E). fold i in Hf2, E. rewrite E. clear E. cbn [jtype size].
  set (h := mk_jtok _ _ _ _ _) in *. fold (nest_of (map tree l)).
  assert (zlen (render (JArr l)) = 2 + zlen (commas (map render l))) as Hr by (cbn [render]; zlens; lia).
  assert (zlen (A ++ [h]) = i + 1) as HA by (subst i; zlens; lia). pose proof (enc_le (JArr l) Hv) as Henc. cbn [tree_of encode] in Henc.
  assert (zdrop (p + 1) json = commas (map render l) ++ c_rbrack :: r) as Hz1.
  { change 1 with (zlen [c_lbrack]). apply (zdrop_after _ [c_lbrack]); [done|]. rewrite Hz. cbn [render]. simpl. by rewrite <- app_assoc. }
  replace (i + zlen (h :: arr_toks i l (p + 1) (i + 1))) with (i + 1 + zlen (arr_toks i l (p + 1) (i + 1))) by (zlens; lia).
  destruct (cont_puts t_arr false (flat_map encode (map tree l)) (nest_of (map tree l)) (length l) (9 * zlen (commas (map render l))) w
    (fun w => from_arr mem json dk f (A ++ (h :: arr_toks i l (p + 1) (i + 1)) ++ R) (i + 1) w depth (zlen l)) (i + 1 + zlen (arr_toks i l (p + 1) (i + 1)))) as (w' & E & P & O); try done.
  - eapply fits_le; [exact Hfit|lia].
  - rewrite flat_map_map. apply commas_enc. apply Forall_forall. intros v Hin. rewrite Forall_forall in Hvl. apply enc_le. auto.
  - intros w1 Hok1 Hs1 Hf1 _. pose proof (arr_loop l Hl f w1 (A ++ [h]) R (p + 1) i (c_rbrack :: r) depth) as L. cbv zeta in L. rewrite HA in L.
    replace ((A ++ [h]) ++ arr_toks i l (p + 1) (i + 1) ++ R) with (A ++ (h :: arr_toks i l (p + 1) (i + 1)) ++ R) in L by by rewrite <- !app_assoc.
    apply L; try done; try lia. eapply after_le; [exact HR|lia].
  - exists w'. split_and!; [exact E| |done]. cbn [encode]. unfold zlen in P |- *. rewrite length_map. done.
Qed.

Lemma doc_obj l : Forall (fun m => doc_as (snd m)) l -> doc_as (JObj l).
Proof.
  intros Hl fuel w A R p par r depth i B T Hv Ht Hp HR Hp0 Hz Hf Hd Hok Hn Hfit. apply val_ok_obj in Hv as Hvl. rewrite tree_obj in *. apply tree_ok_map in Ht as [_ Ht].
  rewrite levels_map in Hd. rewrite nest_map, encode_map in *. set (ts := flat (map pair_of l)) in *. pose proof (levels_of_pos ts). pose proof (nest_of_pos ts).
  subst B T. rewrite doc_toks_obj in *. destruct (tok_enter fuel w A _ _ R depth ltac:(lia) Hf) as (f & _ & Hf2 & E). fold i in Hf2, E. rewrite E. clear E. cbn [jtype size].
  set (h := mk_jtok _ _ _ _ _) in *.
  assert (zlen (render (JObj l)) = 2 + zlen (commas (map member l))) as Hr by (rewrite render_obj; zlens; lia).
  assert (zlen (A ++ [h]) = i + 1) as HA by (subst i; zlens; lia).
  assert (zdrop (p + 1) json = commas (map member l) ++ c_rbrace :: r) as Hz1.
  { change 1 with (zlen [c_lbrace]). apply (zdrop_after _ [c_lbrace]); [done|]. rewrite Hz, render_obj. simpl. by rewrite <- app_assoc. }
  replace (i + zlen (h :: obj_toks i l (p + 1) (i + 1))) with (i + 1 + zlen (obj_toks i l (p + 1) (i + 1))) by (zlens; lia).
  destruct (cont_puts t_map true (flat_map encode ts) (nest_of ts) (length l) (9 * zlen (commas (map member l))) w
    (fun w => from_obj mem json dk f (A ++ (h :: obj_toks i l (p + 1) (i + 1)) ++ R) (i + 1) w depth (zlen l)) (i + 1 + zlen (obj_toks i l (p + 1) (i + 1)))) as (w' & E & P & O); try done.
  - eapply fits_le; [exact Hfit|lia].
  - subst ts. rewrite enc_pairs. apply commas_enc. rewrite Forall_forall in Hvl |- *. intros [k v] Hin. destruct (Hvl _ Hin) as [_ Hv']. pose proof (enc_value (k, v) Hv').
    cbn [fst snd] in *. rewrite member_len. cbn [encode]. zlens. pose proof (escape_len k). pose_lens. lia.
  - intros w1 Hok1 Hs1 Hf1 Htop. pose proof (obj_loop l Hl f w1 (A ++ [h]) R (p + 1) i r depth) as L. cbv zeta in L. rewrite HA in L. fold ts in L.
    replace ((A ++ [h]) ++ obj_toks i l (p + 1) (i + 1) ++ R) with (A ++ (h :: obj_toks i l (p + 1) (i + 1)) ++ R) in L by by rewrite <- !app_assoc.
    apply L; try done; try lia. eapply after_le; [exact HR|lia].
  - exists w'. split_and!; [exact E| |done]. unfold zlen in P |- *. rewrite length_map. done.
Qed.

Lemma doc_tree v : doc_as v.
Proof. induction v as [s|s|l IH|l IH] using jval_ind; [apply doc_str|apply doc_prim|by apply doc_arr|by apply doc_obj]. Qed.

End Main.

(** ** The whole document *)

(** A document has at most half as many tokens as bytes. *)
Lemma toks_le v : val_ok v -> forall p par i, 2 * zlen (doc_toks v p par i) <= zlen (render v) + 1.
Proof.
  induction v as [s|s|l IH|l IH] using jval_ind; intros Hv p par i.
  - cbn [doc_toks render]. unfold quoted. zlens. pose_lens. lia.
  - pose proof (render_pos _ Hv). cbn [doc_toks render] in *. zlens. lia.
  - apply val_ok_arr in Hv. rewrite doc_toks_arr, zlen_cons. cbn [render]. rewrite zlen_cons, zlen_app. change (zlen [c_rbrack]) with 1. generalize (p + 1) (i + 1).
    enough (forall p' j, 2 * zlen (arr_toks i l p' j) <= zlen (commas (map render l)) + match l with [] => 0 | _ => 1 end) as H by (intros p' j; specialize (H p' j); destruct l; lia).
    induction IH as [|v l IHv _ IHl]; intros p' j; [done|]. apply list.Forall_cons in Hv as [Hv Hl]. specialize (IHl Hl (p' + zlen (render v) + 1)).
    simpl arr_toks. cbn [map]. rewrite zlen_commas, zlen_app. specialize (IHl (j + zlen (doc_toks v p' i j))). specialize (IHv Hv p' i j). destruct l; cbn [map] in *; lia.
  - apply val_ok_obj in Hv. rewrite doc_toks_obj, zlen_cons, render_obj, zlen_cons, zlen_app. change (zlen [c_rbrace]) with 1. generalize (p + 1) (i + 1).
    enough (forall p' j, 2 * zlen (obj_toks i l p' j) <= zlen (commas (map member l)) + match l with [] => 0 | _ => 1 end) as H by (intros p' j; specialize (H p' j); destruct l; lia).
    induction IH as [|[k v] l IHv _ IHl]; intros p' j; [done|]. apply list.Forall_cons in Hv as [[Hk Hv] Hl]. cbn [fst snd] in *.
    set (q := p' + zlen (quoted k) + 1). specialize (IHl Hl (q + zlen (render v) + 1) (j + 1 + zlen (doc_toks v q i (j + 1)))). specialize (IHv Hv q i (j + 1)).
    simpl obj_toks. fold q. cbn [map]. rewrite zlen_commas, zlen_cons, zlen_app, member_len. pose proof (zlen_nonneg (escape k)). destruct l; cbn [map] in *; lia.
Qed.


(** [{"k":[-7,"x",1.5],"d":{"a":true},"n":null}] with the document key [d]. *)
Definition x_doc : jval :=
  JObj [([107], JArr [JPrim [45; 55]; JStr [120]; JPrim [49; 46; 53]]); ([100], JObj [([97], JPrim s_true)]); ([110], JPrim s_null)].

