(* ===== verification/Clreplay.v ===== *)
(** A sealed cluster frame is taken once ([clreplay.c], [clreplay.h]).

    Every frame names its sender, the sender's incarnation, the sealing thread's stream
    and that stream's sequence ([clwire_id]).  The table [tab] has a slot a sender, found
    by probing; a slot keeps the newest incarnation, when it was last heard, and a window
    a stream: the highest sequence and a bit for each of the [CLREPLAY_WIN] below it, in
    a ring of 64-bit words.

    A call is one step: the lock of a window and the claim of a slot serialise what two
    threads do to the same one.  [mem] is whether [calloc] gives a window.  Times are
    [long long] milliseconds, whose difference does not overflow.

    The specification of a window is the list of the sequences it has taken. *)

From Stdlib Require Import ZArith Lia.
From stdpp Require Import base tactics list numbers.
From S2P Require Import Prelude.

Definition CLREPLAY_WIN : Z := 131072.
Definition CLREPLAY_SENDERS : Z := 512.
Definition CLREPLAY_STREAMS : Z := 256.
Definition CLREPLAY_STALE_MS : Z := 60000.

Inductive replay_rc := CLREPLAY_OK | CLREPLAY_DUP | CLREPLAY_OLD | CLREPLAY_INCARN | CLREPLAY_FULL.

#[global] Instance replay_rc_eq_dec : EqDecision replay_rc.
Proof. solve_decision. Defined.

Record clwire_id := mk_id { id_incarn : Z; id_seq : Z; id_ip : Z; id_port : Z; id_stream : Z }.

Record win := mk_win { w_incarn : Z; w_hi : Z; w_bits : list Z }.

Record sender := mk_sender { s_key : Z; s_incarn : Z; seen_ms : Z; s_w : list (option win) }.

(** The table, and the counts in the order of the results. *)
Record replay := mk_replay { rtab : list sender; cnt : list Z }.

Definition sender0 : sender := mk_sender 0 0 0 (replicate (Z.to_nat CLREPLAY_STREAMS) None).
Definition replay0 : replay := mk_replay (replicate (Z.to_nat CLREPLAY_SENDERS) sender0) (replicate 5 0).

(** * Finding the sender *)

Definition sender_key (ip port : Z) : Z := Z.lor (Z.lor (Z.shiftl 1 48) (Z.shiftl ip 16)) port.
Definition sender_hash (key : Z) : Z := u32 (Z.shiftr (u64 (key * 0x9E3779B97F4A7C15)) 40).

Definition slot_at (h i : Z) : nat := Z.to_nat ((h + i) mod CLREPLAY_SENDERS).
Definition key_at (t : list sender) (j : nat) : Z := match t !! j with Some s => s_key s | None => 0 end.
Definition set_key (key : Z) (s : sender) : sender := mk_sender key (s_incarn s) (seen_ms s) (s_w s).

(** The inner loop, under the table's lock, from [k]; [n] turns are left. *)
Fixpoint claim (n : nat) (t : list sender) (h k key : Z) : list sender * option nat :=
  match n with
  | O => (t, None)
  | S n =>
      let j := slot_at h k in
      if (key_at t j =? key) || (key_at t j =? 0)
      then ((if key_at t j =? 0 then alter (set_key key) j t else t), Some j)
      else claim n t h (k + 1) key
  end.

Fixpoint probe (n : nat) (t : list sender) (h i key : Z) : list sender * option nat :=
  match n with
  | O => (t, None)
  | S n' =>
      let j := slot_at h i in
      if key_at t j =? key then (t, Some j)
      else if negb (key_at t j =? 0) then probe n' t h (i + 1) key
      else claim n t h i key
  end.

Definition sender_of (t : list sender) (ip port : Z) : list sender * option nat :=
  let key := sender_key ip port in
  probe (Z.to_nat CLREPLAY_SENDERS) t (sender_hash key) 0 key.

(** * The window *)

Definition word (bits : list Z) (b : Z) : Z := default 0 (bits !! Z.to_nat (b / 64)).
Definition set_word (bits : list Z) (b v : Z) : list Z := <[Z.to_nat (b / 64) := v]> bits.

(** A turn clears a bit or, at the start of a word of the range, the word. *)
Fixpoint clear_loop (n : nat) (bits : list Z) (i to : Z) : list Z :=
  if i <? to then
    match n with
    | O => bits
    | S n =>
        let b := i mod CLREPLAY_WIN in
        if (Z.land b 63 =? 0) && (to - i >=? 64) then clear_loop n (set_word bits b 0) (u64 (i + 63 + 1)) to
        else clear_loop n (set_word bits b (Z.ldiff (word bits b) (Z.shiftl 1 (Z.land b 63)))) (u64 (i + 1)) to
    end
  else bits.

Definition bit_clear_range (w : win) (from to : Z) : win :=
  mk_win (w_incarn w) (w_hi w) (clear_loop (Z.to_nat (to - from)) (w_bits w) from to).

Definition no_bits : list Z := replicate (Z.to_nat (CLREPLAY_WIN / 64)) 0.

Definition win_admit (w : win) (seq : Z) : win * replay_rc :=
  let b := seq mod CLREPLAY_WIN in
  let m := Z.shiftl 1 (Z.land b 63) in
  let mark w hi := mk_win (w_incarn w) hi (set_word (w_bits w) b (Z.lor (word (w_bits w) b) m)) in
  if seq >? w_hi w then
    let w := if seq - w_hi w >? CLREPLAY_WIN then mk_win (w_incarn w) (w_hi w) no_bits
             else bit_clear_range w (w_hi w + 1) seq in
    (mark w seq, CLREPLAY_OK)
  else if w_hi w - seq >=? CLREPLAY_WIN then (w, CLREPLAY_OLD)
  else if negb (Z.land (word (w_bits w) b) m =? 0) then (w, CLREPLAY_DUP)
  else (mark w (w_hi w), CLREPLAY_OK).

(** * A frame *)

Definition rc_index (rc : replay_rc) : nat :=
  match rc with CLREPLAY_OK => 0 | CLREPLAY_DUP => 1 | CLREPLAY_OLD => 2 | CLREPLAY_INCARN => 3 | CLREPLAY_FULL => 4 end.

Definition counted (r : replay) (rc : replay_rc) : replay * replay_rc :=
  (mk_replay (rtab r) (alter (fun n => u64 (n + 1)) (rc_index rc) (cnt r)), rc).

Definition set_incarn (i : Z) (s : sender) : sender := mk_sender (s_key s) i (seen_ms s) (s_w s).
Definition set_seen (t : Z) (s : sender) : sender := mk_sender (s_key s) (s_incarn s) t (s_w s).
Definition set_win (k : nat) (w : win) (s : sender) : sender := mk_sender (s_key s) (s_incarn s) (seen_ms s) (<[k := Some w]> (s_w s)).
Definition put_sender (r : replay) (j : nat) (s : sender) : replay := mk_replay (<[j := s]> (rtab r)) (cnt r).

(** The stream's window: a frame of another incarnation starts it over, unless it is an
    older one that did not lower the sender's. *)
Definition win_step (w : win) (id : clwire_id) (lower : bool) : win * replay_rc :=
  if negb (id_incarn id =? w_incarn w) then
    if (id_incarn id <? w_incarn w) && negb lower then (w, CLREPLAY_INCARN)
    else win_admit (mk_win (id_incarn id) 0 no_bits) (id_seq id)
  else win_admit w (id_seq id).

(** The frame at its sender's slot [s]. *)
Definition sender_admit (mem : bool) (s : sender) (id : clwire_id) (now : Z) : sender * replay_rc :=
  let older := id_incarn id <? s_incarn s in
  if older && (now - seen_ms s <? CLREPLAY_STALE_MS) then (s, CLREPLAY_INCARN)
  else
    let s := set_incarn (id_incarn id) s in
    let k := Z.to_nat (id_stream id) in
    match (match default None (s_w s !! k) with
           | Some w => Some w
           | None => if mem then Some (mk_win (id_incarn id) 0 no_bits) else None
           end) with
    | None => (s, CLREPLAY_FULL)
    | Some w =>
        let '(w, rc) := win_step w id older in
        let s := set_win k w s in
        ((if bool_decide (rc = CLREPLAY_OK) && (now - seen_ms s >=? 1000) then set_seen now s else s), rc)
    end.

Definition clreplay_admit (mem : bool) (r : replay) (id : clwire_id) (now : Z) : replay * replay_rc :=
  let '(t, o) := sender_of (rtab r) (id_ip id) (id_port id) in
  let r := mk_replay t (cnt r) in
  match o with
  | None => counted r CLREPLAY_FULL
  | Some j =>
      if id_stream id >=? CLREPLAY_STREAMS then counted r CLREPLAY_FULL
      else match t !! j with
           | None => counted r CLREPLAY_FULL
           | Some s =>
               let '(s, rc) := sender_admit mem s id now in
               let r := put_sender r j s in
               if bool_decide (rc = CLREPLAY_OK) then (r, rc) else counted r rc
           end
  end.

Definition clreplay_counts (r : replay) : list Z := cnt r.

(** * Bits of the ring *)

Definition bit_at (bits : list Z) (p : Z) : bool := Z.testbit (word bits p) (p mod 64).

Definition ring_ok (bits : list Z) : Prop := zlen bits = CLREPLAY_WIN / 64.

Lemma land_63 b : Z.land b 63 = b mod 64.
Proof. change 63 with (Z.ones 6). by rewrite Z.land_ones. Qed.

Lemma set_word_ok bits b v : ring_ok bits -> ring_ok (set_word bits b v).
Proof. unfold ring_ok, set_word, zlen. by rewrite length_insert. Qed.

Lemma word_set bits b v p : ring_ok bits -> 0 <= b < CLREPLAY_WIN -> 0 <= p ->
  word (set_word bits b v) p = if decide (p / 64 = b / 64) then v else word bits p.
Proof.
  intros Hr Hb Hp. unfold ring_ok, zlen, CLREPLAY_WIN in *. unfold word, set_word.
  assert (0 <= b / 64 < 2048 /\ 0 <= p / 64) as [Hb' Hp'] by (split; [split; [apply Z.div_pos|apply Z.div_lt_upper_bound]|apply Z.div_pos]; lia).
  destruct (decide (p / 64 = b / 64)) as [E|E].
  - rewrite E, list_lookup_insert_eq; [done|]. change (131072 / 64) with 2048 in Hr. lia.
  - rewrite list_lookup_insert_ne by lia. done.
Qed.

Lemma same_bit p b : p / 64 = b / 64 -> p mod 64 = b mod 64 -> p = b.
Proof. intros H1 H2. rewrite (Z.div_mod p 64), (Z.div_mod b 64) by lia. by rewrite H1, H2. Qed.

(** Setting, clearing a bit, clearing a word. *)
Lemma bit_set bits b p : ring_ok bits -> 0 <= b < CLREPLAY_WIN -> 0 <= p ->
  bit_at (set_word bits b (Z.lor (word bits b) (Z.shiftl 1 (Z.land b 63)))) p = bit_at bits p || (p =? b).
Proof.
  intros Hr Hb Hp. unfold bit_at. rewrite word_set by done. rewrite land_63. pose proof (Z.mod_pos_bound p 64). pose proof (Z.mod_pos_bound b 64).
  destruct (decide (p / 64 = b / 64)) as [E|E].
  - rewrite Z.lor_spec, Z.shiftl_spec, <- (Z.pow_0_r 2), Z.pow2_bits_eqb by lia. unfold word. rewrite E. f_equal.
    destruct (Z.eqb_spec p b) as [->|Hne]; [by rewrite Z.sub_diag|]. apply Z.eqb_neq. intros H1. apply Hne, same_bit; [done|lia].
  - destruct (Z.eqb_spec p b) as [->|Hne]; [done|]. by rewrite orb_false_r.
Qed.

Lemma bit_clear bits b p : ring_ok bits -> 0 <= b < CLREPLAY_WIN -> 0 <= p ->
  bit_at (set_word bits b (Z.ldiff (word bits b) (Z.shiftl 1 (Z.land b 63)))) p = bit_at bits p && negb (p =? b).
Proof.
  intros Hr Hb Hp. unfold bit_at. rewrite word_set by done. rewrite land_63. pose proof (Z.mod_pos_bound p 64). pose proof (Z.mod_pos_bound b 64).
  destruct (decide (p / 64 = b / 64)) as [E|E].
  - rewrite Z.ldiff_spec, Z.shiftl_spec, <- (Z.pow_0_r 2), Z.pow2_bits_eqb by lia. unfold word. rewrite E. do 2 f_equal.
    destruct (Z.eqb_spec p b) as [->|Hne]; [by rewrite Z.sub_diag|]. apply Z.eqb_neq. intros H1. apply Hne, same_bit; [done|lia].
  - destruct (Z.eqb_spec p b) as [->|Hne]; [done|]. by rewrite andb_true_r.
Qed.

Lemma bit_clear_word bits b p : ring_ok bits -> 0 <= b < CLREPLAY_WIN -> 0 <= p ->
  bit_at (set_word bits b 0) p = bit_at bits p && negb (p / 64 =? b / 64).
Proof.
  intros Hr Hb Hp. unfold bit_at. rewrite word_set by done. destruct (decide (p / 64 = b / 64)) as [E|E].
  - by rewrite Z.testbit_0_l, E, Z.eqb_refl, andb_false_r.
  - rewrite (proj2 (Z.eqb_neq _ _) E). by rewrite andb_true_r.
Qed.

Lemma bit_none p : bit_at no_bits p = false.
Proof.
  unfold bit_at, word, no_bits. destruct (replicate _ 0 !! _) as [x|] eqn:E; [|apply Z.testbit_0_l].
  apply lookup_replicate in E as [-> _]. apply Z.testbit_0_l.
Qed.

Lemma no_bits_ok : ring_ok no_bits.
Proof. unfold ring_ok, no_bits, zlen. by rewrite length_replicate. Qed.

(** The loop clears exactly the positions of the sequences in its range. *)
Lemma clear_loop_spec n : forall bits i to, ring_ok bits -> 0 <= i -> to < 2 ^ 64 -> to - i <= Z.of_nat n ->
  ring_ok (clear_loop n bits i to) /\
  forall p, 0 <= p < CLREPLAY_WIN ->
    bit_at (clear_loop n bits i to) p = true <-> bit_at bits p = true /\ (forall s, i <= s < to -> s mod CLREPLAY_WIN <> p).
Proof.
  induction n as [|n IH]; intros bits i to Hr Hi Hto Hn; cbn [clear_loop]; (destruct (Z.ltb_spec i to) as [Hlt|Hge];
    [|split; [done|]; intros p Hp; split; [intros ->; split; [done|lia]|by intros [-> _]]]); [lia|].
  pose proof (Z.mod_pos_bound i CLREPLAY_WIN ltac:(done)) as Hb. set (b := i mod CLREPLAY_WIN) in *.
  destruct ((Z.land b 63 =? 0) && (to - i >=? 64)) eqn:Ew.
  - apply andb_true_iff in Ew as [E1%Z.eqb_eq E2]. rewrite land_63 in E1. rewrite Z.geb_leb in E2. apply Z.leb_le in E2.
    rewrite (u64_id (i + 63 + 1)) by word_lia. destruct (IH (set_word bits b 0) (i + 63 + 1) to) as [H1 H2]; [by apply set_word_ok|lia..|]. split; [done|].
    intros p Hp. rewrite H2, bit_clear_word by (done || lia). rewrite andb_true_iff, negb_true_iff, Z.eqb_neq.
    assert (forall s, i <= s < i + 64 -> s mod CLREPLAY_WIN = b + (s - i)) as Hmod.
    { intros s Hs. unfold b, CLREPLAY_WIN in *. assert (i mod 131072 <= 131072 - 64) by (pose proof (Z.div_mod (i mod 131072) 64); pose proof (Z.div_le_upper_bound (i mod 131072) 64 2047); lia).
      symmetry. apply (Z.mod_unique_pos _ _ (i / 131072)); [lia|]. pose proof (Z.div_mod i 131072). lia. }
    split.
    + intros [[Hbit Hne] Hs]. split; [done|]. intros s Hs' E. destruct (decide (s < i + 64)) as [Hlt'|]; [|apply (Hs s); [lia|done]].
      apply Hne. rewrite <- E, Hmod by lia. pose proof (Z.div_mod b 64). symmetry. apply (Z.div_unique_pos _ _ _ (s - i)); lia.
    + intros [Hbit Hs]. split_and!; [done| |intros s Hs'; apply Hs; lia]. intros E. apply (Hs (i + (p - b))).
      * pose proof (Z.div_mod b 64). pose proof (Z.div_mod p 64). pose proof (Z.mod_pos_bound p 64). lia.
      * rewrite Hmod; [lia|]. pose proof (Z.div_mod b 64). pose proof (Z.div_mod p 64). pose proof (Z.mod_pos_bound p 64). lia.
  - rewrite (u64_id (i + 1)) by word_lia. set (bits1 := set_word bits b _). destruct (IH bits1 (i + 1) to) as [H1 H2]; [by apply set_word_ok|lia..|]. split; [done|].
    intros p Hp. rewrite H2 by done. unfold bits1. rewrite bit_clear by (done || lia). rewrite andb_true_iff, negb_true_iff, Z.eqb_neq. split.
    + intros [[Hbit Hne] Hs]. split; [done|]. intros s Hs' E. destruct (decide (s = i)) as [->|]; [by apply Hne|]. apply (Hs s); [lia|done].
    + intros [Hbit Hs]. split_and!; [done|intros ->; by apply (Hs i); [lia|]|intros s Hs'; apply Hs; lia].
Qed.

(** * The window takes each sequence once *)

(** [L] is what the window has taken. *)
Record win_took (w : win) (L : list Z) : Prop := {
  wt_ring : ring_ok (w_bits w);
  wt_hi : 0 <= w_hi w < 2 ^ 64;
  wt_below : forall s, s ∈ L -> 0 <= s <= w_hi w;
  wt_top : w_hi w = foldr Z.max 0 L;
  wt_bits : forall s, 0 <= s -> w_hi w - CLREPLAY_WIN < s <= w_hi w -> bit_at (w_bits w) (s mod CLREPLAY_WIN) = true <-> s ∈ L
}.

(** What the window answers, from the sequences taken. *)
Definition win_answer (L : list Z) (seq : Z) : replay_rc :=
  let hi := foldr Z.max 0 L in
  if seq >? hi then CLREPLAY_OK
  else if hi - seq >=? CLREPLAY_WIN then CLREPLAY_OLD
  else if bool_decide (seq ∈ L) then CLREPLAY_DUP else CLREPLAY_OK.

Lemma win_fresh i : win_took (mk_win i 0 no_bits) [].
Proof.
  split; cbn [w_hi w_bits]; [apply no_bits_ok|lia|intros s Hs; by apply not_elem_of_nil in Hs|done|].
  intros s _ _. rewrite bit_none. split; [done|]. intros H. by apply not_elem_of_nil in H.
Qed.

(** Two sequences of one window have different positions. *)
Lemma ring_apart s t : s mod CLREPLAY_WIN = t mod CLREPLAY_WIN -> t - CLREPLAY_WIN < s < t + CLREPLAY_WIN -> s = t.
Proof. unfold CLREPLAY_WIN. intros E H. pose proof (Z.div_mod s 131072). pose proof (Z.div_mod t 131072). nia. Qed.

Lemma land_bit x k : 0 <= k -> (Z.land x (Z.shiftl 1 k) =? 0) = negb (Z.testbit x k).
Proof.
  intros Hk. rewrite Z.shiftl_1_l. destruct (Z.testbit x k) eqn:E.
  - apply Z.eqb_neq. intros H0. apply (f_equal (fun z => Z.testbit z k)) in H0. by rewrite Z.land_spec, Z.pow2_bits_true, Z.testbit_0_l, E in H0.
  - apply Z.eqb_eq. apply Z.bits_inj_0. intros n. rewrite Z.land_spec. destruct (decide (n = k)) as [->|Hne]; [by rewrite E|].
    rewrite Z.pow2_bits_false by done. by rewrite andb_false_r.
Qed.

(** The bit of [seq] set in a ring that has exactly the taken sequences of the new window. *)
Lemma mark_took i hi bits L seq : ring_ok bits -> 0 <= seq <= hi -> hi < 2 ^ 64 -> hi - seq < CLREPLAY_WIN ->
  (forall s, s ∈ L -> 0 <= s <= hi) -> hi = Z.max seq (foldr Z.max 0 L) ->
  (forall s, 0 <= s -> hi - CLREPLAY_WIN < s <= hi -> s <> seq -> bit_at bits (s mod CLREPLAY_WIN) = true <-> s ∈ L) ->
  let b := seq mod CLREPLAY_WIN in
  win_took (mk_win i hi (set_word bits b (Z.lor (word bits b) (Z.shiftl 1 (Z.land b 63))))) (seq :: L).
Proof.
  intros Hr Hseq Hhi Hin Hbel Htop Hbits b. pose proof (Z.mod_pos_bound seq CLREPLAY_WIN ltac:(done)) as Hb. fold b in Hb.
  split; cbn [w_hi w_bits]; [by apply set_word_ok|lia| |done|].
  - intros s [->|Hs]%elem_of_cons; [done|by apply Hbel].
  - intros s Hs Hw. pose proof (Z.mod_pos_bound s CLREPLAY_WIN ltac:(done)). rewrite bit_set by (done || lia). rewrite orb_true_iff, Z.eqb_eq, elem_of_cons.
    destruct (decide (s = seq)) as [->|Hne]; [by split; [left|right]|]. rewrite Hbits by done. split; [intros [H1|E]; [by right|]|intros [->|H1]; [done|by left]].
    exfalso. apply Hne, ring_apart; [done|lia].
Qed.

Lemma foldr_max_nonneg L : 0 <= foldr Z.max 0 L.
Proof. induction L; simpl; lia. Qed.

Lemma win_admit_spec w L seq : win_took w L -> 0 <= seq < 2 ^ 64 ->
  (win_admit w seq).2 = win_answer L seq /\ w_incarn (win_admit w seq).1 = w_incarn w /\
  win_took (win_admit w seq).1 (if decide (win_answer L seq = CLREPLAY_OK) then seq :: L else L).
Proof.
  intros W Hseq. pose proof W as [Hr Hhi Hbel Htop Hbits]. unfold win_admit, win_answer. rewrite <- Htop. rewrite Z.gtb_ltb, Z.geb_leb.
  pose proof (Z.mod_pos_bound seq CLREPLAY_WIN ltac:(done)) as Hb. destruct (Z.ltb_spec (w_hi w) seq) as [Hgt|Hle].
  - split_and!; [done|by destruct (_ >? _)|]. cbn [fst]. rewrite decide_True by done. rewrite Z.gtb_ltb. destruct (Z.ltb_spec CLREPLAY_WIN (seq - w_hi w)) as [Hfar|Hnear].
    + apply mark_took; [apply no_bits_ok|lia|lia|unfold CLREPLAY_WIN; lia|intros s Hs; apply Hbel in Hs; lia|lia|]. intros s Hs Hw Hne. rewrite bit_none. split; [done|]. intros H1%Hbel. lia.
    + destruct (clear_loop_spec (Z.to_nat (seq - (w_hi w + 1))) (w_bits w) (w_hi w + 1) seq Hr) as [Hr2 Hc]; [lia..|].
      apply mark_took; [done|lia|lia|unfold CLREPLAY_WIN; lia|intros s Hs; apply Hbel in Hs; lia|lia|]. intros s Hs Hw Hne. cbn [bit_clear_range w_bits].
      rewrite Hc by (apply Z.mod_pos_bound; done). destruct (decide (s <= w_hi w)) as [Hin|Hout].
      * rewrite Hbits by lia. split; [by intros [H1 _]|]. intros H1. split; [done|]. intros t Ht E. apply ring_apart in E; lia.
      * split; [intros [_ H1]; exfalso; apply (H1 s); [lia|done]|]. intros H1%Hbel. lia.
  - destruct (Z.leb_spec CLREPLAY_WIN (w_hi w - seq)) as [Hold|Hin]; [split_and!; [done|done|by rewrite decide_False]|].
    rewrite land_bit by (rewrite land_63; apply Z.mod_pos_bound; done). rewrite negb_involutive, land_63.
    change (Z.testbit (word (w_bits w) (seq mod CLREPLAY_WIN)) (seq mod CLREPLAY_WIN mod 64)) with (bit_at (w_bits w) (seq mod CLREPLAY_WIN)).
    pose proof (Hbits seq ltac:(lia) ltac:(lia)) as Hbs. destruct (bit_at (w_bits w) (seq mod CLREPLAY_WIN)) eqn:Eb.
    + rewrite bool_decide_true by by apply Hbs. split_and!; [done|done|by rewrite decide_False].
    + assert (seq ∉ L) as Hn by (intros H1; by apply Hbs in H1). rewrite bool_decide_false by done. split_and!; [done|done|]. rewrite decide_True by done.
      cbn [fst]. rewrite <- land_63. apply mark_took; [done|lia|lia|done|done|lia|]. intros s Hs Hw Hne. apply Hbits; lia.
Qed.

(** * The slot of a sender *)

(** [K] is in slot [j], and the slots probed before it are others'. *)
Definition placed (t : list sender) (K : Z) (j : nat) : Prop :=
  key_at t j = K /\ exists i0, 0 <= i0 < CLREPLAY_SENDERS /\ j = slot_at (sender_hash K) i0 /\
  forall i, 0 <= i < i0 -> key_at t (slot_at (sender_hash K) i) <> 0 /\ key_at t (slot_at (sender_hash K) i) <> K.

(** No key is changed but that of a free slot. *)
Definition keys_kept (t t' : list sender) : Prop := forall j, key_at t j <> 0 -> key_at t' j = key_at t j.

Lemma placed_kept t t' K j : K <> 0 -> placed t K j -> keys_kept t t' -> placed t' K j.
Proof.
  intros HK (E & i0 & Hi & Ej & Hbefore) Hk. split; [rewrite Hk; [done|by rewrite E]|]. exists i0. split_and!; [lia|lia|done|].
  intros i Hlt. destruct (Hbefore i Hlt) as [H1 H2]. rewrite Hk by done. done.
Qed.

Lemma slot_lt h i : (slot_at h i < Z.to_nat CLREPLAY_SENDERS)%nat.
Proof. unfold slot_at. pose proof (Z.mod_pos_bound (h + i) CLREPLAY_SENDERS ltac:(done)). lia. Qed.

Lemma key_at_alter f j t j' : (j < length t)%nat ->
  key_at (alter f j t) j' = if decide (j' = j) then match t !! j with Some s => s_key (f s) | None => 0 end else key_at t j'.
Proof.
  intros Hl. unfold key_at. destruct (decide (j' = j)) as [->|Hne]; [rewrite list_lookup_alter_eq; by destruct (t !! j)|by rewrite list_lookup_alter_ne].
Qed.

Lemma probe_placed t K j : K <> 0 -> placed t K j -> probe (Z.to_nat CLREPLAY_SENDERS) t (sender_hash K) 0 K = (t, Some j).
Proof.
  intros HK (E & i0 & Hi & Ej & Hb).
  assert (forall n i, 0 <= i <= i0 -> i0 - i < Z.of_nat n -> probe n t (sender_hash K) i K = (t, Some j)) as H; [|apply H; lia].
  induction n as [|n IH]; intros i Hi0 Hn; [lia|]. cbn [probe]. destruct (decide (i = i0)) as [->|Hne]; [by rewrite <- Ej, E, Z.eqb_refl|].
  destruct (Hb i ltac:(lia)) as [H1 H2]. rewrite (proj2 (Z.eqb_neq _ _) H2), (proj2 (Z.eqb_neq _ _) H1). cbn [negb]. apply IH; lia.
Qed.

(** What the probe answers when the key has no slot: a free one claimed, or a full table. *)
Lemma probe_absent t K : K <> 0 -> length t = Z.to_nat CLREPLAY_SENDERS -> (forall j, key_at t j <> K) ->
  (exists j, probe (Z.to_nat CLREPLAY_SENDERS) t (sender_hash K) 0 K = (alter (set_key K) j t, Some j) /\
     key_at t j = 0 /\ (j < length t)%nat /\ placed (alter (set_key K) j t) K j) \/
  (probe (Z.to_nat CLREPLAY_SENDERS) t (sender_hash K) 0 K = (t, None) /\ forall i, 0 <= i < CLREPLAY_SENDERS -> key_at t (slot_at (sender_hash K) i) <> 0).
Proof.
  intros HK Hl Hno. set (P := probe (Z.to_nat CLREPLAY_SENDERS) t (sender_hash K) 0 K).
  assert (forall n i, 0 <= i -> i + Z.of_nat n = CLREPLAY_SENDERS -> (forall x, 0 <= x < i -> key_at t (slot_at (sender_hash K) x) <> 0) ->
    (exists j, probe n t (sender_hash K) i K = (alter (set_key K) j t, Some j) /\ key_at t j = 0 /\ (j < length t)%nat /\ placed (alter (set_key K) j t) K j) \/
    (probe n t (sender_hash K) i K = (t, None) /\ forall i, 0 <= i < CLREPLAY_SENDERS -> key_at t (slot_at (sender_hash K) i) <> 0)) as H; [|apply H; [lia|done|lia]].
  induction n as [|n IH]; intros i Hi Hn Hb; [right; split; [done|]; intros x Hx; apply Hb; lia|]. cbn [probe].
  set (j := slot_at (sender_hash K) i). pose proof (slot_lt (sender_hash K) i) as Hj. fold j in Hj. rewrite (proj2 (Z.eqb_neq _ _) (Hno j)).
  destruct (Z.eqb_spec (key_at t j) 0) as [E|E]; cbn [negb].
  - left. exists j. cbn [claim]. fold j. rewrite E, (proj2 (Z.eqb_neq 0 K)) by done. cbn [orb Z.eqb]. rewrite Hl. split_and!; [done|done|done|].
    assert (key_at (alter (set_key K) j t) j = K) as Ek.
    { rewrite key_at_alter by lia. rewrite decide_True by done. destruct (lookup_lt_is_Some_2 t j) as [s ->]; [lia|done]. }
    split; [done|]. exists i. split_and!; [lia|lia|done|]. intros x Hx. assert (slot_at (sender_hash K) x <> j) as Hne by (intros Ej; apply (Hb x Hx); by rewrite Ej).
    rewrite key_at_alter by lia. rewrite decide_False by done. auto.
  - apply IH; [lia|lia|]. intros x Hx. destruct (decide (x = i)) as [->|]; [done|apply Hb; lia].
Qed.

Lemma sender_key_pos ip port : 0 <= ip -> 0 <= port -> sender_key ip port <> 0.
Proof.
  intros Hi Hp E. apply (f_equal (fun z => Z.testbit z 48)) in E. unfold sender_key in E. rewrite !Z.lor_spec, Z.shiftl_1_l, Z.pow2_bits_true, Z.testbit_0_l in E by lia. done.
Qed.

(** * A frame changes its sender's slot alone *)

Definition key_of (id : clwire_id) : Z := sender_key (id_ip id) (id_port id).

(** The fields are of their widths. *)
Definition id_ok (id : clwire_id) : Prop :=
  is_u64 (id_incarn id) /\ is_u64 (id_seq id) /\ is_u32 (id_ip id) /\ is_u16 (id_port id) /\ is_u16 (id_stream id).

Lemma key_of_pos id : id_ok id -> key_of id <> 0.
Proof. intros (_ & _ & [H1 _] & [H2 _] & _). exact (sender_key_pos _ _ H1 H2). Qed.

Record tab_ok (t : list sender) : Prop := {
  to_len : length t = Z.to_nat CLREPLAY_SENDERS;
  to_placed : forall j, key_at t j <> 0 -> placed t (key_at t j) j;
  to_wins : Forall (fun s => length (s_w s) = Z.to_nat CLREPLAY_STREAMS) t
}.

Lemma sender_admit_same mem s id now : s_key (sender_admit mem s id now).1 = s_key s /\ length (s_w (sender_admit mem s id now).1) = length (s_w s).
Proof.
  unfold sender_admit. destruct (_ && _); [done|]. destruct (match default None _ with Some w => _ | None => _ end) as [w|]; [|done].
  destruct (win_step w id _) as [w' rc]. cbn [fst]. destruct (_ && _); cbn; by rewrite length_insert.
Qed.

(** The sender's slot in the table [t] the lookup leaves. *)
Record at_slot (t0 : list sender) (K : Z) (t : list sender) (j : nat) (s : sender) : Prop := {
  as_slot : t !! j = Some s;
  as_key : s_key s = K;
  as_ok : tab_ok t;
  as_was : t = t0 \/ (t = alter (set_key K) j t0 /\ key_at t0 j = 0 /\ forall j', key_at t0 j' <> K)
}.

Lemma has_key t K : tab_ok t -> (exists j, key_at t j = K /\ (j < length t)%nat) \/ forall j, K <> 0 -> key_at t j <> K.
Proof.
  intros T. destruct (decide (Exists (fun s => s_key s = K) t)) as [H|H].
  - left. apply Exists_exists in H as (s & Hin & E). apply list_elem_of_In, list_elem_of_lookup in Hin as [j Hj]. exists j. unfold key_at. rewrite Hj. split; [done|]. by eapply lookup_lt_Some.
  - right. intros j HK E. apply H. unfold key_at in E. destruct (t !! j) as [s|] eqn:Ej; [|congruence]. apply Exists_exists. exists s. split; [|done].
    apply list_elem_of_In, list_elem_of_lookup. eauto.
Qed.

Lemma lookup_key t j s : t !! j = Some s -> key_at t j = s_key s.
Proof. unfold key_at. by intros ->. Qed.

Lemma claimed_ok t K j : tab_ok t -> K <> 0 -> key_at t j = 0 -> (j < length t)%nat -> placed (alter (set_key K) j t) K j -> tab_ok (alter (set_key K) j t).
Proof.
  intros [T1 T2 T3] HK Hz Hj Hp.
  assert (keys_kept t (alter (set_key K) j t)) as Hk by (intros j' H'; rewrite key_at_alter by done; destruct (decide (j' = j)) as [->|]; [congruence|done]).
  split; [by rewrite length_alter| |].
  - intros j' H'. rewrite key_at_alter in H' |- * by done. destruct (decide (j' = j)) as [->|Hne].
    + destruct (lookup_lt_is_Some_2 t j Hj) as [s ->]. done.
    + apply (placed_kept t); auto.
  - apply Forall_alter; [done|]. intros s Hs H. done.
Qed.

Lemma lookup_or_claim t0 id : tab_ok t0 -> id_ok id ->
  (exists t j s, sender_of t0 (id_ip id) (id_port id) = (t, Some j) /\ at_slot t0 (key_of id) t j s) \/
  (sender_of t0 (id_ip id) (id_port id) = (t0, None) /\ forall i, 0 <= i < CLREPLAY_SENDERS ->
     key_at t0 (slot_at (sender_hash (key_of id)) i) <> 0 /\ key_at t0 (slot_at (sender_hash (key_of id)) i) <> key_of id).
Proof.
  intros T Hid. pose proof (key_of_pos id Hid) as HK. unfold sender_of. fold (key_of id). set (K := key_of id) in *. pose proof T as [T1 T2 T3].
  destruct (has_key t0 K T) as [(j & E & Hj)|Hno].
  - left. destruct (lookup_lt_is_Some_2 t0 j Hj) as [s Hs]. exists t0, j, s. rewrite (probe_placed t0 K j HK) by (rewrite <- E; apply T2; by rewrite E).
    split; [done|]. split; [done|by rewrite <- (lookup_key _ _ _ Hs)|done|by left].
  - destruct (probe_absent t0 K HK T1 (fun j => Hno j HK)) as [(j & E & Hz & Hj & Hp)|[E Hf]]; [left|right].
    + destruct (lookup_lt_is_Some_2 t0 j Hj) as [s Hs]. exists (alter (set_key K) j t0), j, (set_key K s). split; [done|].
      split; [by rewrite list_lookup_alter_eq, Hs|done|by apply claimed_ok|right; split_and!; auto].
    + split; [done|]. intros i Hi. split; [by apply Hf|by apply Hno].
Qed.

(** One call: the sender's slot admits the frame, or the stream or the table is past its bound. *)
Lemma admit_cases mem r id now : tab_ok (rtab r) -> id_ok id ->
  let '(r', rc) := clreplay_admit mem r id now in
  (exists t j s, at_slot (rtab r) (key_of id) t j s /\
     ((id_stream id < CLREPLAY_STREAMS /\ rc = (sender_admit mem s id now).2 /\ rtab r' = <[j := (sender_admit mem s id now).1]> t) \/
      (CLREPLAY_STREAMS <= id_stream id /\ rc = CLREPLAY_FULL /\ rtab r' = t))) \/
  (rc = CLREPLAY_FULL /\ rtab r' = rtab r /\ forall i, 0 <= i < CLREPLAY_SENDERS ->
     key_at (rtab r) (slot_at (sender_hash (key_of id)) i) <> 0 /\ key_at (rtab r) (slot_at (sender_hash (key_of id)) i) <> key_of id).
Proof.
  intros T Hid. unfold clreplay_admit, counted. destruct (lookup_or_claim (rtab r) id T Hid) as [(t & j & s & -> & S)|[-> Hf]]; [|by right].
  rewrite Z.geb_leb. destruct (Z.leb_spec CLREPLAY_STREAMS (id_stream id)) as [Hs|Hs]; [left; exists t, j, s; by split; [|right]|].
  rewrite (as_slot _ _ _ _ _ S). destruct (sender_admit mem s id now) as [s' rc] eqn:E.
  destruct (bool_decide (rc = CLREPLAY_OK)); left; exists t, j, s; rewrite E; by (split; [|left]).
Qed.

Lemma slot_put_ok t0 K t j s s' : at_slot t0 K t j s -> K <> 0 -> s_key s' = K -> length (s_w s') = length (s_w s) -> tab_ok (<[j := s']> t).
Proof.
  intros [E1 E2 [T1 T2 T3] _] HK Ek El. assert (forall j', key_at (<[j := s']> t) j' = key_at t j') as Hk.
  { intros j'. unfold key_at. destruct (decide (j' = j)) as [->|Hne]; [rewrite list_lookup_insert_eq by (by eapply lookup_lt_Some); rewrite E1; congruence|by rewrite list_lookup_insert_ne]. }
  split; [by rewrite length_insert| |].
  - intros j'. rewrite Hk. intros H'. apply (placed_kept t); [done|by apply T2|]. intros x _. apply Hk.
  - apply Forall_insert; [done|]. rewrite El. rewrite Forall_forall in T3. apply T3, list_elem_of_In, list_elem_of_lookup. eauto.
Qed.

Lemma admit_tab_ok mem r id now : tab_ok (rtab r) -> id_ok id -> tab_ok (rtab (clreplay_admit mem r id now).1).
Proof.
  intros T Hid. pose proof (admit_cases mem r id now T Hid) as H. destruct (clreplay_admit mem r id now) as [r' rc]. cbn [fst].
  destruct H as [(t & j & s & S & [(_ & _ & ->)|(_ & _ & ->)])|(_ & -> & _)]; [|by apply S|done].
  destruct (sender_admit_same mem s id now) as [H1 H2]. eapply slot_put_ok; [exact S|by apply key_of_pos|by rewrite H1, (as_key _ _ _ _ _ S)|done].
Qed.

(** * Exactly the frames not taken before *)

(** The frames taken, newest first, and the sequences of a stream among them. *)
Definition of_stream (K k : Z) (id : clwire_id) : Prop := key_of id = K /\ id_stream id = k.
#[global] Instance of_stream_dec K k id : Decision (of_stream K k id) := and_dec _ _.

Definition took (log : list clwire_id) (K k : Z) : list Z := id_seq <$> filter (of_stream K k) log.

Lemma took_cons id log K k : took (id :: log) K k = if decide (of_stream K k id) then id_seq id :: took log K k else took log K k.
Proof. unfold took. rewrite filter_cons. by destruct (decide _). Qed.

(** A frame as it arrives: whether there is memory, the frame, the time. *)
Record arrival := mk_arrival { a_mem : bool; a_id : clwire_id; a_now : Z }.

Definition arrive (r : replay) (a : arrival) : replay * replay_rc := clreplay_admit (a_mem a) r (a_id a) (a_now a).

Fixpoint replay_run (r : replay) (log : list clwire_id) (l : list arrival) : replay * list clwire_id :=
  match l with
  | [] => (r, log)
  | a :: l => let '(r, rc) := arrive r a in replay_run r (if decide (rc = CLREPLAY_OK) then a_id a :: log else log) l
  end.

Section Exact.
Context (inc : Z -> Z).

Record slot_took (s : sender) (log : list clwire_id) : Prop := {
  st_incarn : s_incarn s <= inc (s_key s);
  st_wins : forall k o, s_w s !! k = Some o ->
    match o with
    | Some w => w_incarn w = inc (s_key s) /\ win_took w (took log (s_key s) (Z.of_nat k))
    | None => took log (s_key s) (Z.of_nat k) = []
    end
}.

Record replay_took (r : replay) (log : list clwire_id) : Prop := {
  rt_tab : tab_ok (rtab r);
  rt_slot : forall j s, rtab r !! j = Some s -> s_key s <> 0 -> slot_took s log;
  rt_free : forall j s, rtab r !! j = Some s -> s_key s = 0 -> s_incarn s = 0 /\ forall k o, s_w s !! k = Some o -> o = None;
  rt_none : forall K, (forall j, key_at (rtab r) j <> K) -> forall k, took log K k = []
}.

(** The frame keeps its sender's one incarnation. *)
Definition one_incarn (id : clwire_id) : Prop := id_ok id /\ id_incarn id = inc (key_of id).

Lemma at_slot_took r log t j s id : replay_took r log -> one_incarn id -> at_slot (rtab r) (key_of id) t j s -> slot_took s log.
Proof.
  intros R [Hid Hinc] [E1 E2 _ [->|(-> & Hz & Hno)]]; [apply (rt_slot _ _ R j); [done|rewrite E2; by apply key_of_pos]|].
  rewrite list_lookup_alter_eq in E1. destruct (rtab r !! j) as [s0|] eqn:E0; [|done]. injection E1 as <-. rewrite (lookup_key _ _ _ E0) in Hz.
  destruct (rt_free _ _ R j s0 E0 Hz) as [Hi Hw]. split; cbn [set_key s_incarn s_key s_w].
  - rewrite Hi, <- Hinc. apply Hid.
  - intros k o Ho. rewrite (Hw k o Ho). by apply (rt_none _ _ R).
Qed.

Lemma slot_admit_took mem s log id now : one_incarn id -> s_key s = key_of id -> id_stream id < CLREPLAY_STREAMS ->
  length (s_w s) = Z.to_nat CLREPLAY_STREAMS -> slot_took s log ->
  let '(s', rc) := sender_admit mem s id now in
  slot_took s' (if decide (rc = CLREPLAY_OK) then id :: log else log) /\
  (rc = win_answer (took log (key_of id) (id_stream id)) (id_seq id) \/ (rc = CLREPLAY_FULL /\ mem = false)).
Proof.
  intros [Hid Hinc] Hk Hst Hl [Hi Hw]. destruct Hid as (Hu1 & Hu2 & _ & _ & Hu5). destruct Hu5 as [Hu5 _]. unfold sender_admit.
  rewrite (proj2 (Z.ltb_ge (id_incarn id) (s_incarn s))) by (rewrite Hinc, <- Hk; done). cbn [andb]. cbn [set_incarn s_w].
  destruct (lookup_lt_is_Some_2 (s_w s) (Z.to_nat (id_stream id))) as [o Ho]; [lia|]. rewrite Ho. cbn [default].
  pose proof (Hw _ _ Ho) as Ho'. rewrite Z2Nat.id, Hk in Ho' by done. set (L := took log (key_of id) (id_stream id)) in *.
  assert (forall w, w_incarn w = id_incarn id -> win_took w L ->
    let '(s', rc) := (let '(w, rc) := win_step w id false in let s := set_win (Z.to_nat (id_stream id)) w (set_incarn (id_incarn id) s) in
      ((if bool_decide (rc = CLREPLAY_OK) && (now - seen_ms s >=? 1000) then set_seen now s else s), rc)) in
    slot_took s' (if decide (rc = CLREPLAY_OK) then id :: log else log) /\ (rc = win_answer L (id_seq id) \/ (rc = CLREPLAY_FULL /\ mem = false))) as Main.
  { intros w Hwi Ww. unfold win_step. rewrite Hwi, Z.eqb_refl. cbn [negb]. destruct (win_admit_spec w L (id_seq id) Ww Hu2) as (H1 & H2 & H3).
    destruct (win_admit w (id_seq id)) as [w' rc]. cbn [fst snd] in *. subst rc. split; [|by left]. set (rc := win_answer L (id_seq id)) in *.
    set (s1 := set_win _ _ _). assert (slot_took s1 (if decide (rc = CLREPLAY_OK) then id :: log else log)) as [Q1 Q2]; [|destruct (_ && _); by split].
    split; cbn [s1 set_win set_incarn s_incarn s_key s_w]; [by rewrite Hk, Hinc|]. intros k o' Hk'.
    assert (forall k', took (if decide (rc = CLREPLAY_OK) then id :: log else log) (s_key s) (Z.of_nat k') =
      if decide (rc = CLREPLAY_OK /\ id_stream id = Z.of_nat k') then id_seq id :: took log (s_key s) (Z.of_nat k') else took log (s_key s) (Z.of_nat k')) as Ht.
    { intros k'. destruct (decide (rc = CLREPLAY_OK)) as [Er|Er]; [|by rewrite decide_False by tauto]. rewrite took_cons. unfold of_stream. rewrite Hk.
      destruct (decide (id_stream id = Z.of_nat k')) as [Es|Es]; [by rewrite !decide_True|by rewrite !decide_False by tauto]. }
    rewrite Ht. destruct (decide (k = Z.to_nat (id_stream id))) as [->|Hne].
    - rewrite list_lookup_insert_eq in Hk' by (by eapply lookup_lt_Some). injection Hk' as <-. rewrite Z2Nat.id, Hk by done. fold L. split; [congruence|].
      destruct (decide (rc = CLREPLAY_OK)) as [Er|Er]; [by rewrite decide_True by done|by rewrite decide_False by tauto].
    - rewrite list_lookup_insert_ne in Hk' by done. rewrite decide_False by (intros [_ E]; lia). by apply Hw. }
  destruct o as [w|].
  - destruct Ho' as [H1 H2]. apply Main; [by rewrite H1, Hinc|done].
  - destruct mem; [apply Main; [done|rewrite Ho'; apply win_fresh]|]. split; [|by right]. cbn [decide]. split; cbn [set_incarn s_incarn s_key s_w]; [by rewrite Hk, Hinc|done].
Qed.

Lemma took_other id log K k : key_of id <> K -> forall rc, took (if decide (rc = CLREPLAY_OK) then id :: log else log) K k = took log K k.
Proof. intros Hne rc. destruct (decide _); [|done]. rewrite took_cons, decide_False; [done|]. by intros [? _]. Qed.

Lemma slot_took_other s log id rc : s_key s <> key_of id -> slot_took s log -> slot_took s (if decide (rc = CLREPLAY_OK) then id :: log else log).
Proof. intros Hne [H1 H2]. split; [done|]. intros k o Ho. rewrite took_other by done. by apply H2. Qed.

(** Another sender's slot, before and after. *)
Lemma slot_before r K t j s j' s' : at_slot (rtab r) K t j s -> t !! j' = Some s' -> j' <> j -> rtab r !! j' = Some s'.
Proof. intros [_ _ _ [->|(-> & _ & _)]] H Hne; [done|]. by rewrite list_lookup_alter_ne in H. Qed.

Lemma one_slot t K j s j' s' : at_slot t K t j s -> K <> 0 -> t !! j' = Some s' -> s_key s' = K -> j' = j.
Proof.
  intros [E1 E2 [_ T2 _] _] HK H' Hk. destruct (T2 j) as (_ & i & Hi & Ei & Hb); [by rewrite (lookup_key _ _ _ E1), E2|].
  destruct (T2 j') as (_ & i' & Hi' & Ei' & Hb'); [by rewrite (lookup_key _ _ _ H'), Hk|].
  rewrite (lookup_key _ _ _ E1), E2 in *. rewrite (lookup_key _ _ _ H'), Hk in *. destruct (Z.lt_trichotomy i i') as [H|[->|H]]; [|by rewrite Ei, Ei'|].
  - exfalso. destruct (Hb' i ltac:(lia)) as [_ Hx]. apply Hx. by rewrite <- Ei, (lookup_key _ _ _ E1).
  - exfalso. destruct (Hb i' ltac:(lia)) as [_ Hx]. apply Hx. by rewrite <- Ei', (lookup_key _ _ _ H').
Qed.

Lemma at_slot_self t0 K t j s : at_slot t0 K t j s -> at_slot t K t j s.
Proof. intros [E1 E2 T _]. split; auto. Qed.

(** The table with the sender's slot changed to one that has taken the frame too. *)
Lemma put_took r log t j s s' id rc r' : replay_took r log -> id_ok id -> at_slot (rtab r) (key_of id) t j s -> s_key s' = key_of id -> length (s_w s') = length (s_w s) ->
  slot_took s' (if decide (rc = CLREPLAY_OK) then id :: log else log) -> rtab r' = <[j := s']> t ->
  replay_took r' (if decide (rc = CLREPLAY_OK) then id :: log else log).
Proof.
  intros R Hid S Hk Hl Hs' E. pose proof (key_of_pos id Hid) as HK. pose proof (as_slot _ _ _ _ _ S) as Es. pose proof (lookup_lt_Some _ _ _ Es) as Hj. split; rewrite ?E.
  - by eapply slot_put_ok.
  - intros j' x Hx Hxk. destruct (decide (j' = j)) as [->|Hne]; [rewrite list_lookup_insert_eq in Hx by done; by injection Hx as <-|].
    rewrite list_lookup_insert_ne in Hx by done. apply slot_took_other; [|by apply (rt_slot _ _ R j'); [eapply slot_before|]].
    intros Ek. apply Hne. eapply one_slot; [by eapply at_slot_self|done|exact Hx|done].
  - intros j' x Hx Hxk. destruct (decide (j' = j)) as [->|Hne]; [rewrite list_lookup_insert_eq in Hx by done; injection Hx as <-; congruence|].
    rewrite list_lookup_insert_ne in Hx by done. apply (rt_free _ _ R j'); [by eapply slot_before|done].
  - intros K Hno k. assert (key_of id <> K) as Hne by (intros <-; apply (Hno j); unfold key_at; by rewrite list_lookup_insert_eq).
    rewrite took_other by done. apply (rt_none _ _ R). intros j' Ek. apply (Hno j'). unfold key_at. destruct (decide (j' = j)) as [->|Hj'].
    + exfalso. destruct (as_was _ _ _ _ _ S) as [Et|(_ & Hz & _)]; [|].
      * apply Hne. rewrite <- Ek, <- Et, (lookup_key _ _ _ Es). symmetry. apply (as_key _ _ _ _ _ S).
      * subst K. apply (Hno (length t)). rewrite Hz. unfold key_at. rewrite lookup_ge_None_2; [done|]. by rewrite length_insert.
    + rewrite list_lookup_insert_ne by done. unfold key_at in Ek. destruct (as_was _ _ _ _ _ S) as [Et|(Et & _ & _)]; rewrite Et; [done|]. by rewrite list_lookup_alter_ne.
Qed.

Lemma arrive_took r log a : replay_took r log -> one_incarn (a_id a) ->
  let '(r', rc) := arrive r a in
  replay_took r' (if decide (rc = CLREPLAY_OK) then a_id a :: log else log) /\
  (rc = win_answer (took log (key_of (a_id a)) (id_stream (a_id a))) (id_seq (a_id a)) \/
   (rc = CLREPLAY_FULL /\ (a_mem a = false \/ CLREPLAY_STREAMS <= id_stream (a_id a) \/
      forall j, (j < Z.to_nat CLREPLAY_SENDERS)%nat -> key_at (rtab r) j <> 0 /\ key_at (rtab r) j <> key_of (a_id a)))).
Proof.
  destruct a as [mem id now]. unfold arrive. cbn [a_mem a_id a_now]. intros R Hone. pose proof Hone as [Hid _]. pose proof (rt_tab _ _ R) as T.
  pose proof (admit_cases mem r id now T Hid) as H. destruct (clreplay_admit mem r id now) as [r' rc].
  destruct H as [(t & j & s & S & [(Hst & Hrc & Et)|(Hst & -> & Et)])|(-> & Et & Hfull)].
  - pose proof (at_slot_took _ _ _ _ _ _ R Hone S) as St. pose proof (as_ok _ _ _ _ _ S) as [_ _ Tw]. rewrite Forall_forall in Tw.
    pose proof (slot_admit_took mem s log id now Hone (as_key _ _ _ _ _ S) Hst (Tw s ltac:(apply list_elem_of_In, list_elem_of_lookup; exists j; apply S)) St) as Hs.
    destruct (sender_admit_same mem s id now) as [Q1 Q2]. destruct (sender_admit mem s id now) as [s' rc']. cbn [fst snd] in *. subst rc'. destruct Hs as [Hs Ha].
    split; [|destruct Ha as [->|[-> ->]]; [by left|right; split; [done|by left]]]. eapply put_took; try done. by rewrite Q1, (as_key _ _ _ _ _ S).
  - split; [|right; split; [done|right; by left]]. rewrite decide_False by done.
    eapply (put_took r log t j s s id CLREPLAY_FULL r' R Hid S); [apply (as_key _ _ _ _ _ S)|done|rewrite decide_False by done; by eapply at_slot_took|].
    rewrite Et. symmetry. apply list_insert_id. apply S.
  - split; [rewrite decide_False by done; destruct R; split; rewrite ?Et; done|]. right. split; [done|]. right; right. intros j Hj.
    set (h := sender_hash (key_of id)) in *. replace j with (slot_at h ((Z.of_nat j - h) mod CLREPLAY_SENDERS)); [apply Hfull, Z.mod_pos_bound; done|].
    unfold slot_at. rewrite Zplus_mod_idemp_r. replace (h + (Z.of_nat j - h)) with (Z.of_nat j) by lia. rewrite Z.mod_small by (unfold CLREPLAY_SENDERS in *; lia). apply Nat2Z.id.
Qed.

Lemma run_took l : forall r log, replay_took r log -> Forall (fun a => one_incarn (a_id a)) l -> let '(r', log') := replay_run r log l in replay_took r' log'.
Proof.
  induction l as [|a l IH]; intros r log R Hl; [done|]. apply list.Forall_cons in Hl as [Ha Hl]. cbn [replay_run]. pose proof (arrive_took r log a R Ha) as H.
  destruct (arrive r a) as [r' rc]. apply IH; [apply H|done].
Qed.

End Exact.

Lemma replay0_slot j s : rtab replay0 !! j = Some s -> s = sender0.
Proof. cbn [replay0 rtab]. intros H. by apply lookup_replicate in H as [-> _]. Qed.

Lemma replay0_key j : key_at (rtab replay0) j = 0.
Proof. unfold key_at. destruct (rtab replay0 !! j) eqn:E; [|done]. by rewrite (replay0_slot _ _ E). Qed.

Lemma replay0_ok : tab_ok (rtab replay0).
Proof.
  split; [by apply length_replicate|intros j Hj; by rewrite replay0_key in Hj|]. apply Forall_forall. intros s Hs. apply list_elem_of_In, list_elem_of_lookup in Hs as [j Hj].
  rewrite (replay0_slot _ _ Hj). by apply length_replicate.
Qed.

Lemma replay0_took inc : replay_took inc replay0 [].
Proof.
  split; [apply replay0_ok| | |done].
  - intros j s Hs Hk. rewrite (replay0_slot _ _ Hs) in Hk. done.
  - intros j s Hs _. rewrite (replay0_slot _ _ Hs). split; [done|]. intros k o Ho. by apply lookup_replicate in Ho as [-> _].
Qed.


(** * A frame is taken once *)

(** Every window has taken some sequences. *)
Definition wins_ok (s : sender) : Prop := length (s_w s) = Z.to_nat CLREPLAY_STREAMS /\ forall k w, s_w s !! k = Some (Some w) -> exists L, win_took w L.

Lemma win_step_took w id lower L : win_took w L -> is_u64 (id_seq id) ->
  let '(w', rc) := win_step w id lower in
  (rc = CLREPLAY_INCARN /\ w' = w /\ id_incarn id < w_incarn w /\ lower = false) \/
  (w_incarn w' = id_incarn id /\ (id_incarn id <> w_incarn w -> lower = true \/ w_incarn w < id_incarn id) /\
   exists L0 L', (id_incarn id = w_incarn w -> L0 = L) /\ win_took w' L' /\ L0 ⊆ L' /\ rc = win_answer L0 (id_seq id) /\ (rc = CLREPLAY_OK -> id_seq id ∈ L')).
Proof.
  intros W Hseq. unfold win_step. assert (forall w0 L0, win_took w0 L0 -> w_incarn w0 = id_incarn id -> let '(w', rc) := win_admit w0 (id_seq id) in
    w_incarn w' = id_incarn id /\ exists L', win_took w' L' /\ L0 ⊆ L' /\ rc = win_answer L0 (id_seq id) /\ (rc = CLREPLAY_OK -> id_seq id ∈ L')) as H.
  { intros w0 L0 W0 E0. destruct (win_admit_spec w0 L0 (id_seq id) W0 Hseq) as (H1 & H2 & H3). destruct (win_admit w0 (id_seq id)) as [w' rc]. cbn [fst snd] in *. split; [congruence|].
    eexists. split; [exact H3|]. rewrite <- H1. destruct (decide (rc = CLREPLAY_OK)); (split; [intros x Hx; rewrite ?elem_of_cons; auto|]); (split; [done|]); [by left|done]. }
  destruct (Z.eqb_spec (id_incarn id) (w_incarn w)) as [E|E]; cbn [negb].
  - specialize (H w L W ltac:(done)). destruct (win_admit w (id_seq id)) as [w' rc]. destruct H as (H1 & L' & H2 & H3 & H4 & H5). right. split_and!; [done|done|]. exists L, L'. split_and!; auto.
  - destruct ((id_incarn id <? w_incarn w) && negb lower) eqn:El.
    + left. apply andb_true_iff in El as [El1%Z.ltb_lt El2%negb_true_iff]. done.
    + specialize (H (mk_win (id_incarn id) 0 no_bits) [] (win_fresh _) eq_refl). destruct (win_admit _ (id_seq id)) as [w' rc]. destruct H as (H1 & L' & H2 & H3 & H4 & H5).
      right. split_and!; [done|intros _; apply andb_false_iff in El as [El%Z.ltb_ge|El%negb_false_iff]; [right; lia|by left]|]. exists [], L'. split_and!; auto. done.
Qed.

(** What a call leaves of the slot, from the window [w] it found or made. *)
Lemma sender_admit_cases mem s id now : wins_ok s -> id_ok id -> id_stream id < CLREPLAY_STREAMS ->
  let older := id_incarn id <? s_incarn s in let k := Z.to_nat (id_stream id) in
  let '(s', rc) := sender_admit mem s id now in
  (s' = s /\ rc = CLREPLAY_INCARN /\ id_incarn id < s_incarn s /\ now - seen_ms s < CLREPLAY_STALE_MS) \/
  ((id_incarn id < s_incarn s -> CLREPLAY_STALE_MS <= now - seen_ms s) /\ s_incarn s' = id_incarn id /\
   ((s_w s' = s_w s /\ seen_ms s' = seen_ms s /\ rc = CLREPLAY_FULL /\ s_w s !! k = Some None) \/
    exists w L, win_took w L /\ (s_w s !! k = Some (Some w) \/ (s_w s !! k = Some None /\ w_incarn w = id_incarn id)) /\
      s_w s' = <[k := Some (win_step w id older).1]> (s_w s) /\ rc = (win_step w id older).2 /\
      (seen_ms s' = seen_ms s \/ (now - seen_ms s >= 1000 /\ seen_ms s' = now)) /\
      (rc = CLREPLAY_OK -> now - seen_ms s' < 1000))).
Proof.
  intros [Hl Hw] (_ & Hu2 & _ & _ & [Hu5 _]) Hst older k. unfold sender_admit. fold older. destruct (older && (now - seen_ms s <? CLREPLAY_STALE_MS)) eqn:Eo.
  { left. apply andb_true_iff in Eo as [E1%Z.ltb_lt E2%Z.ltb_lt]. done. }
  cbn [set_incarn s_w]. destruct (lookup_lt_is_Some_2 (s_w s) k) as [o Ho]; [unfold k; lia|]. fold k.
  assert (default None (s_w s !! k) = o) as -> by by rewrite Ho.
  assert (id_incarn id < s_incarn s -> CLREPLAY_STALE_MS <= now - seen_ms s) as Hstale.
  { intros H. unfold older in Eo. rewrite (proj2 (Z.ltb_lt _ _) H) in Eo. cbn [andb] in Eo. by apply Z.ltb_ge in Eo. }
  assert (forall w L, win_took w L -> (s_w s !! k = Some (Some w) \/ (s_w s !! k = Some None /\ w_incarn w = id_incarn id)) ->
    let '(s', rc) := (let '(w, rc) := win_step w id older in let s := set_win k w (set_incarn (id_incarn id) s) in
      ((if bool_decide (rc = CLREPLAY_OK) && (now - seen_ms s >=? 1000) then set_seen now s else s), rc)) in
    (s' = s /\ rc = CLREPLAY_INCARN /\ id_incarn id < s_incarn s /\ now - seen_ms s < CLREPLAY_STALE_MS) \/
    ((id_incarn id < s_incarn s -> CLREPLAY_STALE_MS <= now - seen_ms s) /\ s_incarn s' = id_incarn id /\
    ((s_w s' = s_w s /\ seen_ms s' = seen_ms s /\ rc = CLREPLAY_FULL /\ s_w s !! k = Some None) \/
     exists w L, win_took w L /\ (s_w s !! k = Some (Some w) \/ (s_w s !! k = Some None /\ w_incarn w = id_incarn id)) /\
       s_w s' = <[k := Some (win_step w id older).1]> (s_w s) /\ rc = (win_step w id older).2 /\
       (seen_ms s' = seen_ms s \/ (now - seen_ms s >= 1000 /\ seen_ms s' = now)) /\ (rc = CLREPLAY_OK -> now - seen_ms s' < 1000)))) as Main.
  { intros w L W Hfrom. destruct (win_step w id older) as [w' rc] eqn:Ew. cbn [set_win set_incarn seen_ms]. rewrite Z.geb_leb. right. split; [done|].
    split; [by destruct (bool_decide (rc = CLREPLAY_OK) && (1000 <=? now - seen_ms s))|]. right. exists w, L. rewrite Ew. cbn [fst snd]. split_and!; [done|done|by destruct (bool_decide (rc = CLREPLAY_OK) && (1000 <=? now - seen_ms s))|done|..].
    - destruct (Z.leb_spec 1000 (now - seen_ms s)); [|left; by rewrite andb_false_r]. destruct (bool_decide (rc = CLREPLAY_OK)); cbn; [right; lia|by left].
    - intros ->. rewrite bool_decide_true by done. cbn [andb]. destruct (Z.leb_spec 1000 (now - seen_ms s)); cbn; lia. }
  destruct o as [w|].
  - destruct (Hw k w Ho) as [L W]. apply (Main w L W). by left.
  - destruct mem; [|right; split_and!; [done|done|by left]]. apply (Main _ [] (win_fresh (id_incarn id))). by right.
Qed.

Lemma wins_ok_admit mem s id now : wins_ok s -> id_ok id -> id_stream id < CLREPLAY_STREAMS -> wins_ok (sender_admit mem s id now).1.
Proof.
  intros Hw Hid Hst. pose proof (sender_admit_cases mem s id now Hw Hid Hst) as H. destruct (sender_admit_same mem s id now) as [_ Hl].
  destruct (sender_admit mem s id now) as [s' rc]. cbn [fst] in *. destruct H as [(-> & _)|(_ & _ & [(E & _)|(w & L & W & _ & E & _)])]; [done|by unfold wins_ok; rewrite E|].
  split; [rewrite Hl; apply Hw|]. intros k w' Hk. rewrite E in Hk. destruct (decide (k = Z.to_nat (id_stream id))) as [->|Hne].
  - rewrite list_lookup_insert_eq in Hk by (destruct Hw as [-> _]; destruct Hid as (_ & _ & _ & _ & [? _]); lia). injection Hk as <-.
    pose proof (win_step_took w id (id_incarn id <? s_incarn s) L W ltac:(apply Hid)) as Q. destruct (win_step w id _) as [w1 rc1]. cbn [fst].
    destruct Q as [(_ & -> & _)|(_ & _ & L0 & L' & _ & ? & _)]; eauto.
  - rewrite list_lookup_insert_ne in Hk by done. by eapply Hw.
Qed.

(** The frame [f] is behind the slot: its incarnation is not above the slot's nor its
    stream's, and if its stream is of its incarnation its sequence was taken there. *)
Definition behind (f : clwire_id) (s : sender) : Prop :=
  id_incarn f <= s_incarn s /\ exists w, s_w s !! Z.to_nat (id_stream f) = Some (Some w) /\ id_incarn f <= w_incarn w /\
  (w_incarn w = id_incarn f -> exists L, win_took w L /\ id_seq f ∈ L).

Lemma answer_taken L seq : seq ∈ L -> win_answer L seq <> CLREPLAY_OK /\ win_answer L seq <> CLREPLAY_FULL.
Proof.
  intros H. assert (seq <= foldr Z.max 0 L) by (induction H; simpl; lia). unfold win_answer. rewrite Z.gtb_ltb, (proj2 (Z.ltb_ge _ _)) by done.
  destruct (_ >=? _); [done|]. by rewrite bool_decide_true.
Qed.

(** A frame that does not lower the slot's incarnation leaves [f] behind it. *)
Lemma behind_step f mem s id now : wins_ok s -> id_ok f -> id_ok id -> id_stream id < CLREPLAY_STREAMS -> behind f s ->
  (id_incarn id < s_incarn s -> now - seen_ms s < CLREPLAY_STALE_MS) ->
  behind f (sender_admit mem s id now).1 /\ (id = f -> (sender_admit mem s id now).2 <> CLREPLAY_OK /\ (sender_admit mem s id now).2 <> CLREPLAY_FULL).
Proof.
  intros Hw Hf Hid Hst (Hi & w & Ew & Hwi & HL) Hfresh. pose proof (sender_admit_cases mem s id now Hw Hid Hst) as H.
  destruct (sender_admit mem s id now) as [s' rc]. cbn [fst snd]. destruct H as [(-> & -> & _ & _)|(Hst2 & Hi' & H)]; [split; [|done]; split; [done|]; by exists w|].
  assert (s_incarn s <= id_incarn id) as Hge by (destruct (Z.le_gt_cases (s_incarn s) (id_incarn id)); [done|specialize (Hfresh ltac:(lia)); specialize (Hst2 ltac:(lia)); lia]).
  rewrite (proj2 (Z.ltb_ge _ _) Hge) in H. destruct H as [(E & _ & -> & En)|(w1 & L & W & Hfrom & E & -> & _ & _)].
  { split; [split; [lia|]; exists w; by rewrite E|]. intros ->. by rewrite En in Ew. }
  assert (forall k : nat, (k < length (s_w s))%nat -> <[k := Some (win_step w1 id false).1]> (s_w s) !! k = Some (Some (win_step w1 id false).1)) as Hput by (intros; by apply list_lookup_insert_eq).
  destruct Hw as [Hlen Hws]. assert (Z.to_nat (id_stream id) < length (s_w s))%nat as Hk by (rewrite Hlen; destruct Hid as (_ & _ & _ & _ & [? _]); lia).
  destruct (decide (Z.to_nat (id_stream id) = Z.to_nat (id_stream f))) as [Es|Es].
  2: { split; [|intros ->; done]. split; [lia|]. exists w. rewrite E, list_lookup_insert_ne by done. done. }
  rewrite Es in Hfrom, E, Hk. destruct Hfrom as [Hfrom|[Hfrom _]]; rewrite Ew in Hfrom; [|done]. injection Hfrom as <-.
  assert (exists L, win_took w L /\ (w_incarn w = id_incarn f -> id_seq f ∈ L)) as (L1 & W1 & HL1).
  { destruct (decide (w_incarn w = id_incarn f)) as [Eq|Ne]; [destruct (HL Eq) as (L1 & ? & ?); eauto|exists L; by split]. }
  pose proof (win_step_took w id false L1 W1 ltac:(apply Hid)) as Q. destruct (win_step w id false) as [w' rc']. cbn [fst snd] in *.
  destruct Q as [(-> & -> & _ & _)|(Ei & Hup & L0 & L' & HL0 & W' & Hsub & Hrc & Hnew)].
  - split; [|done]. split; [lia|]. exists w. rewrite E. by split; [apply Hput|].
  - split.
    + split; [lia|]. exists w'. rewrite E. split_and!; [by apply Hput|lia|]. intros Eq. exists L'. split; [done|]. apply Hsub. rewrite HL0; [apply HL1|]; destruct (decide (id_incarn id = w_incarn w)); [congruence| |done|]; exfalso; destruct (Hup ltac:(done)); [done|lia|done|lia].
    + intros ->. rewrite Hrc. destruct (decide (id_incarn f = w_incarn w)) as [Eq|Ne]; [|exfalso; destruct (Hup Ne); [done|lia]]. apply answer_taken. rewrite HL0 by done. by apply HL1.
Qed.

(** The table after the arrivals [l]. *)
Definition replay_after (r : replay) (l : list arrival) : replay := foldl (fun r a => (arrive r a).1) r l.

Record table_ok (r : replay) : Prop := { tk_tab : tab_ok (rtab r); tk_wins : forall j s, rtab r !! j = Some s -> wins_ok s }.

(** Sender [K]'s slot has [P]. *)
Definition slot_has (K : Z) (P : sender -> Prop) (r : replay) : Prop := exists j s, rtab r !! j = Some s /\ s_key s = K /\ P s.

Lemma at_slot_wins r K t j s : table_ok r -> at_slot (rtab r) K t j s -> forall j' x, t !! j' = Some x -> wins_ok x.
Proof.
  intros [T W] [E1 E2 _ [->|(-> & _ & _)]] j' x Hx; [by eapply W|]. destruct (decide (j' = j)) as [->|Hne]; [|rewrite list_lookup_alter_ne in Hx by done; by eapply W].
  rewrite list_lookup_alter_eq in Hx. destruct (rtab r !! j) as [s0|] eqn:E0; [|done]. injection Hx as <-. exact (W _ _ E0).
Qed.

Lemma table_ok_arrive r a : table_ok r -> id_ok (a_id a) -> table_ok (arrive r a).1.
Proof.
  intros T Hid. split; [by apply admit_tab_ok; [apply T|]|]. destruct a as [mem id now]. unfold arrive. cbn [a_mem a_id a_now] in *.
  pose proof (admit_cases mem r id now (tk_tab _ T) Hid) as H. destruct (clreplay_admit mem r id now) as [r' rc]. cbn [fst].
  destruct H as [(t & j & s & S & [(Hst & _ & ->)|(_ & _ & ->)])|(_ & -> & _)]; [|by eapply at_slot_wins|apply T].
  intros j' x Hx. destruct (decide (j' = j)) as [->|Hne]; [|rewrite list_lookup_insert_ne in Hx by done; by eapply at_slot_wins].
  rewrite list_lookup_insert_eq in Hx by (eapply lookup_lt_Some; apply S). injection Hx as <-. apply wins_ok_admit; [|done|done]. eapply at_slot_wins; [exact T|exact S|apply S].
Qed.

Lemma found_slot r id t j s P : table_ok r -> id_ok id -> at_slot (rtab r) (key_of id) t j s -> slot_has (key_of id) P r -> t = rtab r /\ P s.
Proof.
  intros T Hid S (j' & s' & E' & Ek & HP). pose proof (key_of_pos id Hid) as HK. destruct (as_was _ _ _ _ _ S) as [->|(_ & _ & Hno)].
  - split; [done|]. assert (j' = j) as -> by (eapply one_slot; [exact S|done|exact E'|done]). rewrite (as_slot _ _ _ _ _ S) in E'. by injection E' as <-.
  - exfalso. apply (Hno j'). by rewrite (lookup_key _ _ _ E').
Qed.

(** What a sender's own frames keep, every arrival keeps. *)
Lemma slot_has_arrive r a K P : table_ok r -> id_ok (a_id a) -> K <> 0 -> slot_has K P r ->
  (key_of (a_id a) = K -> id_stream (a_id a) < CLREPLAY_STREAMS -> forall s, wins_ok s -> P s -> P (sender_admit (a_mem a) s (a_id a) (a_now a)).1) ->
  slot_has K P (arrive r a).1.
Proof.
  destruct a as [mem id now]. unfold arrive. cbn [a_mem a_id a_now]. intros T Hid HK Hs Hkeep. pose proof (admit_cases mem r id now (tk_tab _ T) Hid) as H.
  destruct (clreplay_admit mem r id now) as [r' rc]. cbn [fst]. destruct H as [(t & j & s & S & Hr)|(_ & E & _)]; [|by unfold slot_has; rewrite E].
  destruct (decide (key_of id = K)) as [<-|Hne].
  - destruct (found_slot _ _ _ _ _ _ T Hid S Hs) as [Et HP]. destruct Hr as [(Hst & _ & E)|(_ & _ & E)]; [|unfold slot_has; by rewrite E, Et].
    exists j, (sender_admit mem s id now).1. rewrite E. split_and!; [apply list_lookup_insert_eq; eapply lookup_lt_Some; apply S| |].
    + destruct (sender_admit_same mem s id now) as [-> _]. apply S.
    + apply Hkeep; try done. eapply at_slot_wins; [exact T|exact S|apply S].
  - destruct Hs as (j' & s' & E' & Ek & HP). assert (j' <> j /\ t !! j' = Some s') as [Hj' Et'].
    { destruct (as_was _ _ _ _ _ S) as [Et|(Et & Hz & _)].
      - subst t. split; [|done]. intros ->. rewrite (as_slot _ _ _ _ _ S) in E'. injection E' as <-. apply Hne. rewrite <- Ek. symmetry. apply S.
      - assert (j' <> j) as Hx by (intros ->; rewrite (lookup_key _ _ _ E') in Hz; congruence). split; [done|]. rewrite Et. by rewrite list_lookup_alter_ne. }
    exists j', s'. split_and!; [|done|done]. destruct Hr as [(_ & _ & ->)|(_ & _ & ->)]; [by rewrite list_lookup_insert_ne|done].
Qed.

Lemma table_ok_after l : forall r, table_ok r -> Forall (fun a => id_ok (a_id a)) l -> table_ok (replay_after r l).
Proof. induction l as [|a l IH]; intros r T Hl; [done|]. apply list.Forall_cons in Hl as [Ha Hl]. apply IH; [by apply table_ok_arrive|done]. Qed.

Lemma slot_has_after K P (ok : arrival -> Prop) l : K <> 0 ->
  (forall a s, ok a -> id_ok (a_id a) -> key_of (a_id a) = K -> id_stream (a_id a) < CLREPLAY_STREAMS -> wins_ok s -> P s -> P (sender_admit (a_mem a) s (a_id a) (a_now a)).1) ->
  Forall ok l -> Forall (fun a => id_ok (a_id a)) l -> forall r, table_ok r -> slot_has K P r -> slot_has K P (replay_after r l).
Proof.
  intros HK Hstep. induction l as [|a l IH]; intros Hl Hids r T Hs; [done|]. apply list.Forall_cons in Hl as [Ha Hl]. apply list.Forall_cons in Hids as [Hid Hids].
  apply IH; [done|done|by apply table_ok_arrive|]. apply slot_has_arrive; [done|done|done|done|]. intros. by apply Hstep.
Qed.

Lemma replay0_table : table_ok replay0.
Proof.
  split; [apply replay0_ok|]. intros j s Hs. rewrite (replay0_slot _ _ Hs). split; [by apply length_replicate|]. intros k w Hw. by apply lookup_replicate in Hw as [? _].
Qed.

Lemma seen_grows mem s id now : wins_ok s -> id_ok id -> id_stream id < CLREPLAY_STREAMS -> seen_ms s <= seen_ms (sender_admit mem s id now).1.
Proof.
  intros Hw Hid Hst. pose proof (sender_admit_cases mem s id now Hw Hid Hst) as H. destruct (sender_admit mem s id now) as [s' rc]. cbn [fst].
  destruct H as [(-> & _)|(_ & _ & [(_ & -> & _)|(w & L & _ & _ & _ & _ & [->|[? ->]] & _)])]; lia.
Qed.

(** A frame just taken is behind its slot, which was heard within the last second. *)
Lemma taken_behind r f : table_ok r -> id_ok (a_id f) -> (arrive r f).2 = CLREPLAY_OK ->
  slot_has (key_of (a_id f)) (fun s => behind (a_id f) s /\ s_incarn s = id_incarn (a_id f) /\ a_now f - 1000 < seen_ms s) (arrive r f).1.
Proof.
  destruct f as [mem id now]. unfold arrive. cbn [a_mem a_id a_now]. intros T Hid Hok. pose proof (admit_cases mem r id now (tk_tab _ T) Hid) as H.
  destruct (clreplay_admit mem r id now) as [r' rc]. cbn [fst snd] in *. subst rc. destruct H as [(t & j & s & S & [(Hst & Hrc & E)|(_ & ? & _)])|(? & _)]; try done.
  assert (wins_ok s) as Hw by (eapply at_slot_wins; [exact T|exact S|apply S]). pose proof (sender_admit_cases mem s id now Hw Hid Hst) as H.
  destruct (sender_admit_same mem s id now) as [Hk _]. exists j, (sender_admit mem s id now).1. rewrite E. split; [apply list_lookup_insert_eq; eapply lookup_lt_Some; apply S|].
  split; [rewrite Hk; apply S|]. destruct (sender_admit mem s id now) as [s' rc]. cbn [fst snd] in *. subst rc.
  destruct H as [(_ & ? & _)|(_ & Hi & [(_ & _ & ? & _)|(w & L & W & _ & Es & Hrc & _ & Hseen)])]; try done.
  pose proof (win_step_took w id (id_incarn id <? s_incarn s) L W ltac:(apply Hid)) as Q. destruct (win_step w id _) as [w' rc']. cbn [fst snd] in *. subst rc'.
  destruct Q as [(? & _)|(Ei & _ & L0 & L' & _ & W' & _ & _ & Hnew)]; [done|]. split_and!; [|done|specialize (Hseen eq_refl); lia]. split; [lia|]. exists w'. rewrite Es. split.
  - apply list_lookup_insert_eq. destruct Hw as [-> _]. destruct Hid as (_ & _ & _ & _ & [? _]). lia.
  - split; [lia|]. intros _. exists L'. auto.
Qed.

(** Nothing is heard of the sender that lowers its incarnation: every arrival comes
    within the staleness bound of the frame, or keeps the frame's incarnation. *)
Definition no_step_back (f : arrival) (l : list arrival) : Prop :=
  Forall (fun a => a_now a < a_now f + CLREPLAY_STALE_MS - 999) l \/
  Forall (fun a => key_of (a_id a) = key_of (a_id f) -> id_incarn (a_id a) = id_incarn (a_id f)) l.

(** A sealed frame is taken once: after any arrivals, a frame that was taken is
    refused when it comes again, whatever arrived in between from whomever, within a
    minute less a second, and for ever while its sender keeps its incarnation. *)
Theorem replay_taken_once (l1 : list arrival) (f : arrival) (l2 : list arrival) (again : arrival)
  (Hids : Forall (fun a => id_ok (a_id a)) (l1 ++ f :: l2)) (Hok : (arrive (replay_after replay0 l1) f).2 = CLREPLAY_OK)
  (Hsame : a_id again = a_id f) (Hq : no_step_back f (l2 ++ [again])) :
  let rc := (arrive (replay_after replay0 (l1 ++ f :: l2)) again).2 in rc <> CLREPLAY_OK /\ rc <> CLREPLAY_FULL.
Proof.
  apply Forall_app in Hids as [H1 H2]. apply list.Forall_cons in H2 as [Hf H2]. pose proof (key_of_pos _ Hf) as HK.
  unfold replay_after. rewrite foldl_app. cbn [foldl]. fold (replay_after replay0 l1). set (r1 := replay_after replay0 l1) in *.
  assert (table_ok r1) as T1 by (apply table_ok_after; [apply replay0_table|done]). pose proof (table_ok_arrive r1 f T1 Hf) as T2.
  pose proof (taken_behind r1 f T1 Hf Hok) as Hs. set (r2 := (arrive r1 f).1) in *. fold (replay_after r2 l2).
  pose proof (table_ok_after l2 r2 T2 H2) as T3.
  assert (exists P, slot_has (key_of (a_id f)) P (replay_after r2 l2) /\ forall s, P s -> behind (a_id f) s /\ (id_incarn (a_id f) < s_incarn s -> a_now again - seen_ms s < CLREPLAY_STALE_MS)) as (P & Hp & HP).
  { destruct Hq as [Hq|Hq]; apply Forall_app in Hq as [Hq Ha]; apply list.Forall_cons in Ha as [Ha _].
    - exists (fun s => behind (a_id f) s /\ a_now f - 1000 < seen_ms s). split; [|intros s [? ?]; split; [done|lia]].
      eapply (slot_has_after _ _ _ l2 HK); [|exact Hq|done|done|destruct Hs as (j & s & ? & ? & ? & ? & ?); exists j, s; done].
      intros a s Hnow Hid Hk Hst Hw [Hb Hseen]. cbn beta in Hnow. split; [apply behind_step; try done; lia|]. pose proof (seen_grows (a_mem a) s (a_id a) (a_now a) Hw Hid Hst). lia.
    - exists (fun s => behind (a_id f) s /\ s_incarn s = id_incarn (a_id f)). split; [|intros s [? ?]; split; [done|lia]].
      eapply (slot_has_after _ _ _ l2 HK); [|exact Hq|done|done|destruct Hs as (j & s & ? & ? & ? & ? & ?); exists j, s; done].
      intros a s Hi Hid Hk Hst Hw [Hb Hseen]. cbn beta in Hi. specialize (Hi Hk). split; [apply behind_step; try done; lia|].
      pose proof (sender_admit_cases (a_mem a) s (a_id a) (a_now a) Hw Hid Hst) as H. destruct (sender_admit (a_mem a) s (a_id a) (a_now a)) as [s' rc]. cbn [fst].
      destruct H as [(-> & _)|(_ & -> & _)]; done. }
  destruct again as [mem id now]. cbn [a_id a_mem a_now] in *. subst id. unfold arrive. cbn [a_mem a_id a_now].
  pose proof (admit_cases mem (replay_after r2 l2) (a_id f) now (tk_tab _ T3) Hf) as H. destruct (clreplay_admit mem _ (a_id f) now) as [r' rc]. cbn [snd].
  assert (id_stream (a_id f) < CLREPLAY_STREAMS) as Hst.
  { destruct Hs as (j & s & Ej & _ & (_ & w & Ew & _) & _). apply lookup_lt_Some in Ew. destruct (tk_wins _ T2 _ _ Ej) as [Hl _]. rewrite Hl in Ew. lia. }
  destruct H as [(t & j & s & S & [(_ & -> & _)|(Hge & _)])|(_ & _ & Hfull)]; [|lia|].
  - destruct (found_slot _ _ _ _ _ _ T3 Hf S Hp) as [_ Hps]. destruct (HP s Hps) as [Hb Hnow].
    apply (behind_step (a_id f) mem s (a_id f) now); try done. eapply at_slot_wins; [exact T3|exact S|apply S].
  - exfalso. destruct Hp as (j & s & Ej & Ek & _). pose proof (to_placed _ (tk_tab _ T3) j) as Hpl. rewrite (lookup_key _ _ _ Ej), Ek in Hpl. destruct (Hpl HK) as (Hkey & i & Hi & Ei & _).
    destruct (Hfull i Hi) as [_ Hne]. apply Hne. by rewrite <- Ei.
Qed.

(** * Examples *)

Definition x_frame (incarn seq stream now : Z) : arrival := mk_arrival true (mk_id incarn seq 0x0a000001 7070 stream) now.


Lemma replay_taken_once_witness :
  (arrive (replay_after replay0 [x_frame 5 9 0 1000; x_frame 6 1 0 2000]) (x_frame 5 9 0 60000)).2 <> CLREPLAY_OK.
Proof.
  apply (replay_taken_once [] (x_frame 5 9 0 1000) [x_frame 6 1 0 2000] (x_frame 5 9 0 60000)).
  - cbn [app]. repeat (apply Forall_cons; [vm_compute; repeat split; discriminate|]). apply Forall_nil.
  - vm_compute. reflexivity.
  - reflexivity.
  - left. cbn [app]. repeat (apply Forall_cons; [vm_compute; reflexivity|]). apply Forall_nil.
Defined.

(** A sender whose clock stepped back: its first frame lowers the slot's incarnation and
    is taken on its stream; on the other streams, whose windows keep the old incarnation,
    every frame is refused, the first and any later one. *)
Example stepped_back_streams_refused :
  let r := replay_after replay0 [x_frame 9 1 0 0; x_frame 9 1 1 0] in
  let r' := replay_after r [x_frame 8 1 0 100000] in
  (arrive r (x_frame 8 1 0 100000)).2 = CLREPLAY_OK /\
  (arrive r' (x_frame 8 1 1 100001)).2 = CLREPLAY_INCARN /\
  (arrive (replay_after r' [x_frame 8 1 1 100001]) (x_frame 8 2 1 1000000)).2 = CLREPLAY_INCARN.
Proof. vm_compute. done. Qed.
