(* ===== verification/Clretain.v ===== *)
(** Retained tombstones ([clretain.c], [clretain.h]).

    Every delete a node plants is remembered for [retain_s] seconds, so that a copy older
    than it is refused and a peer coming back is told of it.  The table has [NSHARD]
    shards.  A shard has its entries, a chained hash over them, and three lists: the
    entries in planting order, the expiries among them in the same order, and a space's
    numbered deletes in arrival order.  An entry is known by its collection and key, of
    which there is one: a pointer to an entry is its key, a linked list is the list of
    its keys, and [s_ents] is the memory behind them.

    The counters are the module's static variables, at their widths; the shard locks
    serialise what two threads do to one shard, and a call is one step.  Of the
    allocations, [smem] is the space table's and [emem] the entry's.  Of [ent] the length
    fields and the bytes are the key's. *)

From Stdlib Require Import ZArith Lia Sorted.
From stdpp Require Import base tactics list numbers gmap.
From S2P Require Import Prelude.

Definition NSHARD : Z := 64.
Definition SPL_MAX : Z := 2052.
(** [sizeof(struct ent)]. *)
Definition ENT_SIZE : Z := 88.

Definition ekey : Type := bytes * bytes.

(** [e_expiry]: 0 a delete, 1 an expiry that may go early, 2 one that is kept. *)
Record ent := mk_ent { e_ver : Z; e_t : Z; e_local : bool; e_expiry : Z; e_spi : nat; e_nseq : Z }.

Record spl := mk_spl { sp_oid : Z; sp_incarn : Z; sp_list : list ekey }.

Record shard := mk_shard {
  s_ents : gmap ekey ent; s_tab : list (list ekey); s_n : Z; s_order : list ekey; s_xorder : list ekey; s_sp : list spl; s_capsp : Z
}.

(** How far a space was forgotten, and the highest of its numbers dropped unconfirmed. *)
Record fgot := mk_fgot { fg_oid : Z; fg_incarn : Z; fg_through : Z; fg_at : Z; fg_lost : Z }.

Inductive ctr :=
  | R_n | R_local | R_exp | R_num | R_lost_upto_s | R_time_hi_s
  | R_bytes | R_dropped_early | R_noted | R_dropped_early_exp | R_noted_exp | R_forgot | R_forgot_exp.

#[global] Instance ctr_eq_dec : EqDecision ctr.
Proof. solve_decision. Defined.

Definition counters : Type := ctr -> Z.

Definition ctr_wrap (x : ctr) (v : Z) : Z :=
  match x with R_n | R_local | R_exp | R_num | R_lost_upto_s | R_time_hi_s => u32 v | _ => u64 v end.

Definition cset (x : ctr) (v : Z) (c : counters) : counters := fun y => if decide (y = x) then ctr_wrap x v else c y.
Definition cadd (x : ctr) (d : Z) (c : counters) : counters := cset x (c x + d) c.

Record retain := mk_retain { r_on : bool; r_retain_s : Z; r_max : Z; r_sh : list shard; r_c : counters; r_fg : list fgot }.

Definition fnv_byte (h b : Z) : Z := u32 (Z.lxor h b * 16777619).
Definition hash_of (k : ekey) : Z := foldl fnv_byte (fnv_byte (foldl fnv_byte 2166136261 (fst k)) 0) (snd k).

(** The shard and the chain of a key. *)
Definition shard_of (k : ekey) : nat := Z.to_nat (hash_of k mod NSHARD).
Definition chain_of (s : shard) (h : Z) : nat := Z.to_nat (Z.land h (zlen (s_tab s) - 1)).
Definition ent_hash (k : ekey) : Z := hash_of k / NSHARD.

(** * Lists of a shard *)

Definition unlink (k : ekey) (l : list ekey) : list ekey := filter (fun x => x <> k) l.

Definition set_ents (s : shard) (m : gmap ekey ent) : shard := mk_shard m (s_tab s) (s_n s) (s_order s) (s_xorder s) (s_sp s) (s_capsp s).
Definition set_tab (s : shard) (t : list (list ekey)) : shard := mk_shard (s_ents s) t (s_n s) (s_order s) (s_xorder s) (s_sp s) (s_capsp s).
Definition set_n (s : shard) (n : Z) : shard := mk_shard (s_ents s) (s_tab s) n (s_order s) (s_xorder s) (s_sp s) (s_capsp s).
Definition set_order (s : shard) (l : list ekey) : shard := mk_shard (s_ents s) (s_tab s) (s_n s) l (s_xorder s) (s_sp s) (s_capsp s).
Definition set_xorder (s : shard) (l : list ekey) : shard := mk_shard (s_ents s) (s_tab s) (s_n s) (s_order s) l (s_sp s) (s_capsp s).
Definition set_sp (s : shard) (l : list spl) (cap : Z) : shard := mk_shard (s_ents s) (s_tab s) (s_n s) (s_order s) (s_xorder s) l cap.
Definition on_ent (s : shard) (k : ekey) (f : ent -> ent) : shard := set_ents s (alter f k (s_ents s)).

Definition e_set_num (spi : nat) (seq : Z) (e : ent) : ent := mk_ent (e_ver e) (e_t e) (e_local e) (e_expiry e) spi seq.
Definition e_set_ver (v : Z) (e : ent) : ent := mk_ent v (e_t e) (e_local e) (e_expiry e) (e_spi e) (e_nseq e).
Definition e_set_t (t : Z) (e : ent) : ent := mk_ent (e_ver e) t (e_local e) (e_expiry e) (e_spi e) (e_nseq e).
Definition e_set_local (b : bool) (e : ent) : ent := mk_ent (e_ver e) (e_t e) b (e_expiry e) (e_spi e) (e_nseq e).
Definition e_set_expiry (x : Z) (e : ent) : ent := mk_ent (e_ver e) (e_t e) (e_local e) x (e_spi e) (e_nseq e).

Definition list_unlink (s : shard) (k : ekey) : shard := set_order s (unlink k (s_order s)).
Definition list_append (s : shard) (k : ekey) : shard := set_order s (s_order s ++ [k]).
Definition xlist_unlink (s : shard) (k : ekey) : shard := set_xorder s (unlink k (s_xorder s)).
Definition xlist_append (s : shard) (k : ekey) : shard := set_xorder s (s_xorder s ++ [k]).

(** * A space's slot *)

Fixpoint spl_find (l : list spl) (oid incarn : Z) : option nat :=
  match l with
  | [] => None
  | x :: l => if (sp_oid x =? oid) && (sp_incarn x =? incarn) then Some 0%nat else S <$> spl_find l oid incarn
  end.

Fixpoint spl_empty (l : list spl) : option nat :=
  match l with
  | [] => None
  | x :: l => match sp_list x with [] => Some 0%nat | _ => S <$> spl_empty l end
  end.

(** The slot made: an emptied one, or a new one as far as there is room. *)
Definition spl_make (smem : bool) (s : shard) (oid incarn : Z) : shard * option nat :=
  match spl_empty (s_sp s) with
  | Some i => (set_sp s (<[i := mk_spl oid incarn []]> (s_sp s)) (s_capsp s), Some i)
  | None =>
      let n := zlen (s_sp s) in
      let add cap := (set_sp s (s_sp s ++ [mk_spl oid incarn []]) cap, Some (length (s_sp s))) in
      if n =? s_capsp s then
        let cap := if s_capsp s =? 0 then 4 else u32 (s_capsp s * 2) in
        let cap := if cap >? SPL_MAX then SPL_MAX else cap in
        if (n =? cap) || negb smem then (s, None) else add cap
      else add (s_capsp s)
  end.

Definition spl_slot (smem : bool) (s : shard) (oid incarn : Z) (make : bool) : shard * option nat :=
  match spl_find (s_sp s) oid incarn with
  | Some i => (s, Some i)
  | None => if make then spl_make smem s oid incarn else (s, None)
  end.

Definition sp_put (f : list ekey -> list ekey) (x : spl) : spl := mk_spl (sp_oid x) (sp_incarn x) (f (sp_list x)).

Definition slist_unlink (s : shard) (c : counters) (k : ekey) (e : ent) : shard * counters :=
  (on_ent (set_sp s (alter (sp_put (unlink k)) (e_spi e) (s_sp s)) (s_capsp s)) k (e_set_num (e_spi e) 0), cadd R_num (-1) c).

Definition slist_append (s : shard) (c : counters) (k : ekey) (spi : nat) (seq : Z) : shard * counters :=
  (on_ent (set_sp s (alter (sp_put (fun l => l ++ [k])) spi (s_sp s)) (s_capsp s)) k (e_set_num spi seq), cadd R_num 1 c).

Definition ent_number (smem : bool) (s : shard) (c : counters) (k : ekey) (e : ent) (oid incarn seq : Z) : shard * counters :=
  let '(s, c) := if e_nseq e =? 0 then (s, c) else slist_unlink s c k e in
  if seq =? 0 then (s, c)
  else match spl_slot smem s oid incarn true with
       | (s, Some spi) => slist_append s c k spi seq
       | (s, None) => (s, c)
       end.

(** * Dropping *)

Fixpoint fg_find (l : list fgot) (oid incarn : Z) : option nat :=
  match l with
  | [] => None
  | x :: l => if (fg_oid x =? oid) && (fg_incarn x =? incarn) then Some 0%nat else S <$> fg_find l oid incarn
  end.

(** The space's row changed by [f], a new one made when there is room. *)
Definition fg_row (l : list fgot) (oid incarn : Z) (f : fgot -> fgot) : list fgot :=
  match fg_find l oid incarn with
  | Some i => alter f i l
  | None => if zlen l <? SPL_MAX then l ++ [f (mk_fgot oid incarn 0 0 0)] else l
  end.

Definition fg_set_lost (seq : Z) (x : fgot) : fgot :=
  if seq >? fg_lost x then mk_fgot (fg_oid x) (fg_incarn x) (fg_through x) (fg_at x) seq else x.
Definition fg_set_through (upto now : Z) (x : fgot) : fgot :=
  mk_fgot (fg_oid x) (fg_incarn x) (if upto >? fg_through x then upto else fg_through x) now (fg_lost x).

Definition lost_note (s : shard) (e : ent) (fg : list fgot) : list fgot :=
  match s_sp s !! e_spi e with
  | Some x => fg_row fg (sp_oid x) (sp_incarn x) (fg_set_lost (e_nseq e))
  | None => fg
  end.

Definition ent_len (k : ekey) : Z := zlen (fst k) + 1 + zlen (snd k).

Definition ent_drop (s : shard) (c : counters) (k : ekey) (e : ent) : shard * counters :=
  let s := set_tab s (alter (unlink k) (chain_of s (ent_hash k)) (s_tab s)) in
  let s := set_n (list_unlink s k) (u32 (s_n s - 1)) in
  let c := cadd R_n (-1) c in
  let c := if e_local e then cadd R_local (-1) c else c in
  let s := if e_expiry e =? 1 then xlist_unlink s k else s in
  let c := if e_expiry e =? 0 then c else cadd R_exp (-1) c in
  let '(s, c) := if e_nseq e =? 0 then (s, c) else slist_unlink s c k e in
  (set_ents s (delete k (s_ents s)), cadd R_bytes (- (ENT_SIZE + ent_len k)) c).

(** The compare-and-swap loops: the highest stays. *)
Definition cmax (x : ctr) (t : Z) (c : counters) : counters := if t >? c x then cset x t c else c.
Definition time_dropped (t : Z) (c : counters) : counters := cmax R_time_hi_s t c.
Definition lost_at (t : Z) (c : counters) : counters := cmax R_lost_upto_s t c.

(** * Noting *)

(** The entry of the key is there: it stands for the newer delete and goes to the tail. *)
Definition note_again (smem : bool) (s : shard) (c : counters) (k : ekey) (e : ent) (ver now : Z) (local : bool) (expiry oid incarn seq : Z) : shard * counters :=
  let '(s, c) := if (ver >? e_ver e) || ((ver =? e_ver e) && negb (seq =? 0) && (e_nseq e =? 0))
                 then ent_number smem s c k e oid incarn seq else (s, c) in
  let s := if ver >? e_ver e then on_ent s k (e_set_ver ver) else s in
  let s := on_ent s k (e_set_t now) in
  let '(s, c) := if negb local && e_local e then (on_ent s k (e_set_local false), cadd R_local (-1) c) else (s, c) in
  let '(s, c) :=
    if (expiry =? 0) && negb (e_expiry e =? 0) then
      (on_ent (if e_expiry e =? 1 then xlist_unlink s k else s) k (e_set_expiry 0), cadd R_exp (-1) c)
    else if (e_expiry e =? 1) && (expiry =? 2) then (on_ent (xlist_unlink s k) k (e_set_expiry 2), c)
    else if e_expiry e =? 1 then (xlist_append (xlist_unlink s k) k, c)
    else (s, c) in
  (list_append (list_unlink s k) k, c).

(** A new entry at the tail. *)
Definition note_new (smem : bool) (s : shard) (c : counters) (k : ekey) (ver now : Z) (local : bool) (expiry oid incarn seq : Z) : shard * counters :=
  let e := mk_ent ver now local expiry 0 0 in
  let s := set_ents s (<[k := e]> (s_ents s)) in
  let s := set_tab s (alter (cons k) (chain_of s (ent_hash k)) (s_tab s)) in
  let s := set_n (list_append s k) (u32 (s_n s + 1)) in
  let c := cadd R_n 1 c in
  let c := if local then cadd R_local 1 c else c in
  let s := if expiry =? 1 then xlist_append s k else s in
  let c := if expiry =? 0 then c else cadd R_exp 1 c in
  let '(s, c) := if seq =? 0 then (s, c) else ent_number smem s c k e oid incarn seq in
  (s, cadd R_bytes (ENT_SIZE + ent_len k) c).

(** The victim at the cap: the oldest expiry, else for a delete the oldest entry. *)
Definition victim (s : shard) (expiry : Z) : option ekey :=
  match s_xorder s with
  | x :: _ => Some x
  | [] => if expiry =? 1 then None else head (s_order s)
  end.

(** An entry not kept or taken before its time. *)
Definition count_early (expiry : Z) (c : counters) : counters :=
  let c := cadd R_dropped_early 1 c in if expiry =? 0 then c else cadd R_dropped_early_exp 1 c.

(** Room at the cap; [None] when there is no entry to give. *)
Definition make_room (r : retain) (s : shard) (c : counters) (now expiry : Z) : option (shard * counters * list fgot) :=
  if (c R_n >=? r_max r) && negb (zlen (s_order s) =? 0) then
    match victim s expiry with
    | None => None
    | Some o =>
        match s_ents s !! o with
        | None => Some (s, c, r_fg r)
        | Some e =>
            let c := if u32 (now - e_t e) <? r_retain_s r then lost_at (e_t e) (count_early (e_expiry e) c) else c in
            let fg := if e_nseq e =? 0 then r_fg r else lost_note s e (r_fg r) in
            let '(s, c) := ent_drop s c o e in Some (s, c, fg)
        end
    end
  else Some (s, c, r_fg r).

Definition put_shard (r : retain) (i : nat) (s : shard) (c : counters) (fg : list fgot) : retain :=
  mk_retain (r_on r) (r_retain_s r) (r_max r) (<[i := s]> (r_sh r)) c fg.

Definition note_in (smem emem : bool) (r : retain) (k : ekey) (ver now : Z) (local : bool) (expiry oid incarn seq : Z) : retain :=
  if negb (r_on r) || (ver =? 0) || (zlen (fst k) >? 255) || (zlen (snd k) >? 4096) then r
  else
    let i := shard_of k in
    match r_sh r !! i with
    | None => r
    | Some s =>
        let c := cadd R_noted 1 (r_c r) in
        let c := if expiry =? 0 then c else cadd R_noted_exp 1 c in
        if bool_decide (k ∈ s_tab s !!! chain_of s (ent_hash k)) then
          match s_ents s !! k with
          | None => r
          | Some e => let '(s, c) := note_again smem s c k e ver now local expiry oid incarn seq in put_shard r i s c (r_fg r)
          end
        else
          match make_room r s c now expiry with
          | None => put_shard r i s (lost_at now (count_early 1 c)) (r_fg r)
          | Some (s, c, fg) =>
              if negb emem then put_shard r i s (lost_at now (count_early expiry c)) fg
              else let '(s, c) := note_new smem s c k ver now local expiry oid incarn seq in put_shard r i s c fg
          end
    end.

Definition clretain_note (smem emem : bool) (r : retain) (k : ekey) (ver now : Z) : retain := note_in smem emem r k ver now false 0 0 0 0.
Definition clretain_note_n (smem emem : bool) (r : retain) (k : ekey) (ver now oid incarn seq : Z) : retain := note_in smem emem r k ver now false 0 oid incarn seq.
Definition clretain_note_expiry (smem emem : bool) (r : retain) (k : ekey) (ver now : Z) (keep : bool) : retain :=
  note_in smem emem r k ver now false (if keep then 2 else 1) 0 0 0.
Definition clretain_note_local (smem emem : bool) (r : retain) (k : ekey) (ver now : Z) : retain := note_in smem emem r k ver now true 0 0 0 0.

(** * Start *)

Definition counters0 : counters := fun _ => 0.
Definition shard0 (nb : Z) : shard := mk_shard ∅ (replicate (Z.to_nat nb) []) 0 [] [] [] 0.
Definition retain0 : retain := mk_retain false 0 0 [] counters0 [].

(** [while (nb < per && nb < (1u << 20)) nb <<= 1;] *)
Fixpoint nb_for (fuel : nat) (nb per : Z) : Z :=
  match fuel with O => nb | S fuel => if (nb <? per) && (nb <? Z.shiftl 1 20) then nb_for fuel (Z.shiftl nb 1) per else nb end.

(** The first call, before use; [tmem] is whether each shard's table could be had. *)
Definition clretain_init (r : retain) (retain_s max : Z) (tmem : nat -> bool) : retain :=
  let c := cset R_n 0 (cset R_local 0 (cset R_exp 0 (cset R_lost_upto_s 0 (cset R_time_hi_s 0 (cset R_num 0 (r_c r)))))) in
  if negb ((retain_s >? 0) && (max >? 0)) then mk_retain false retain_s max (r_sh r) c []
  else
    let per := u32 (max + NSHARD - 1) / NSHARD in
    let nb := nb_for 15 64 per in
    mk_retain (forallb tmem (seq 0 (Z.to_nat NSHARD))) retain_s max
      ((fun i => shard0 (if tmem i then nb else 0)) <$> seq 0 (Z.to_nat NSHARD)) c [].

Definition clretain_enabled (r : retain) : bool := r_on r.

(** * Letting go *)

(** A loop that drops the head of a list while [go] says so; the table of the lost comes along. *)
Fixpoint drop_while (fuel : nat) (hd : shard -> option ekey) (go : ent -> bool) (mark : shard -> ent -> counters * list fgot -> counters * list fgot)
    (s : shard) (c : counters) (fg : list fgot) (n : Z) : shard * counters * list fgot * Z :=
  match fuel with
  | O => (s, c, fg, n)
  | S fuel =>
      match hd s with
      | None => (s, c, fg, n)
      | Some k =>
          match s_ents s !! k with
          | None => (s, c, fg, n)
          | Some e =>
              if go e then
                let '(c, fg) := mark s e (c, fg) in
                let '(s, c) := ent_drop s c k e in
                drop_while fuel hd go mark s c fg (n + 1)
              else (s, c, fg, n)
          end
      end
  end.

(** A list has at most as many entries as the shard. *)
Definition drop_fuel (s : shard) : nat := S (size (s_ents s)).

(** The shards one after the other. *)
Fixpoint each_shard (f : shard -> counters -> list fgot -> shard * counters * list fgot * Z) (l : list shard) (c : counters) (fg : list fgot) (n : Z)
    : list shard * counters * list fgot * Z :=
  match l with
  | [] => ([], c, fg, n)
  | s :: l =>
      let '(s, c, fg, m) := f s c fg in
      let '(l, c, fg, n) := each_shard f l c fg (n + m) in (s :: l, c, fg, n)
  end.

Definition no_mark (s : shard) (e : ent) (x : counters * list fgot) : counters * list fgot := x.

Definition forget_shard (oid incarn upto : Z) (s : shard) (c : counters) (fg : list fgot) : shard * counters * list fgot * Z :=
  match spl_find (s_sp s) oid incarn with
  | Some i => drop_while (drop_fuel s) (fun s => x ← s_sp s !! i; head (sp_list x)) (fun e => e_nseq e <=? upto) no_mark s c fg 0
  | None => (s, c, fg, 0)
  end.

Definition clretain_forget (r : retain) (oid incarn upto now : Z) : retain * Z :=
  if negb (r_on r) || (upto =? 0) then (r, 0)
  else
    let '(l, c, fg, n) := each_shard (forget_shard oid incarn upto) (r_sh r) (r_c r) (r_fg r) 0 in
    let r := mk_retain (r_on r) (r_retain_s r) (r_max r) l in
    if n =? 0 then (r c fg, n) else (r (cadd R_forgot n c) (fg_row fg oid incarn (fg_set_through upto now)), n).

Definition expire_expiries_shard (now hold_s : Z) (s : shard) (c : counters) (fg : list fgot) : shard * counters * list fgot * Z :=
  drop_while (drop_fuel s) (fun s => head (s_xorder s)) (fun e => u32 (now - e_t e) >=? hold_s) no_mark s c fg 0.

Definition clretain_expire_expiries (r : retain) (now hold_s : Z) : retain :=
  if negb (r_on r) then r
  else
    let '(l, c, fg, n) := each_shard (expire_expiries_shard now hold_s) (r_sh r) (r_c r) (r_fg r) 0 in
    mk_retain (r_on r) (r_retain_s r) (r_max r) l (if n =? 0 then c else cadd R_forgot_exp n c) fg.

(** Dropped by time: a numbered entry marks its space, another the newest time. *)
Definition time_mark (s : shard) (e : ent) (x : counters * list fgot) : counters * list fgot :=
  let '(c, fg) := x in if e_nseq e =? 0 then (time_dropped (e_t e) c, fg) else (c, lost_note s e fg).

Definition expire_shard (retain_s now : Z) (s : shard) (c : counters) (fg : list fgot) : shard * counters * list fgot * Z :=
  drop_while (drop_fuel s) (fun s => head (s_order s)) (fun e => u32 (now - e_t e) >=? retain_s) time_mark s c fg 0.

Definition clretain_expire (r : retain) (now : Z) : retain :=
  if negb (r_on r) then r
  else
    let '(l, c, fg, n) := each_shard (expire_shard (r_retain_s r) now) (r_sh r) (r_c r) (r_fg r) 0 in
    mk_retain (r_on r) (r_retain_s r) (r_max r) l c fg.

(** * Reading *)

Definition clretain_get (r : retain) (k : ekey) (now : Z) : Z :=
  if negb (r_on r) then 0
  else
    match r_sh r !! shard_of k with
    | None => 0
    | Some s =>
        if s_n s =? 0 then 0
        else if bool_decide (k ∈ s_tab s !!! chain_of s (ent_hash k)) then
          match s_ents s !! k with
          | Some e => if u32 (now - e_t e) <? r_retain_s r then e_ver e else 0
          | None => 0
          end
        else 0
    end.

(** What a replay hands to its callback: the entry and its number. *)
Record told := mk_told { tl_key : ekey; tl_ver : Z; tl_expiry : Z; tl_oid : Z; tl_incarn : Z; tl_seq : Z }.

Definition tell (s : shard) (k : ekey) (e : ent) : told :=
  match (if e_nseq e =? 0 then None else s_sp s !! e_spi e) with
  | Some x => mk_told k (e_ver e) (e_expiry e) (sp_oid x) (sp_incarn x) (e_nseq e)
  | None => mk_told k (e_ver e) (e_expiry e) 0 0 (e_nseq e)
  end.

(** Planting order: what is later than [upto] ends the walk. *)
Fixpoint each_walk (s : shard) (l : list ekey) (since upto : Z) : list told :=
  match l with
  | [] => []
  | k :: l =>
      match s_ents s !! k with
      | None => each_walk s l since upto
      | Some e =>
          if e_t e <=? since then each_walk s l since upto
          else if e_t e >? upto then []
          else if e_local e then each_walk s l since upto
          else tell s k e :: each_walk s l since upto
      end
  end.

Definition clretain_each (r : retain) (since upto : Z) : list told :=
  if negb (r_on r) then [] else flat_map (fun s => each_walk s (s_order s) since upto) (r_sh r).

Fixpoint space_walk (s : shard) (l : list ekey) (from to : Z) (left_ : nat) : list (ekey * Z * Z) :=
  match l, left_ with
  | k :: l, S n =>
      match s_ents s !! k with
      | Some e => if (from <=? e_nseq e) && (e_nseq e <=? to) then (k, e_ver e, e_nseq e) :: space_walk s l from to n else space_walk s l from to (S n)
      | None => space_walk s l from to (S n)
      end
  | _, _ => []
  end.

Fixpoint space_shards (l : list shard) (oid incarn from to : Z) (max : nat) : list (ekey * Z * Z) :=
  match l with
  | [] => []
  | s :: l =>
      let got := match spl_find (s_sp s) oid incarn with
                 | Some i => match s_sp s !! i with Some x => space_walk s (sp_list x) from to max | None => [] end
                 | None => []
                 end in
      got ++ space_shards l oid incarn from to (max - length got)
  end.

Definition clretain_space_each (r : retain) (oid incarn from to max : Z) : list (ekey * Z * Z) :=
  if negb (r_on r) then [] else space_shards (r_sh r) oid incarn from to (Z.to_nat max).

Definition clretain_forgot_each (r : retain) : list fgot := filter (fun x => fg_through x <> 0) (r_fg r).
Definition clretain_gone_each (r : retain) : list (Z * Z * Z) :=
  (fun x => (fg_oid x, fg_incarn x, if fg_through x >? fg_lost x then fg_through x else fg_lost x)) <$> r_fg r.

Record clretain_stats := mk_rstats {
  entries : Z; st_bytes : Z; dropped_early : Z; noted : Z; st_local : Z; expiries : Z; dropped_early_expiries : Z; noted_expiries : Z;
  numbered : Z; forgotten : Z; forgotten_expiries : Z; st_retain_s : Z; st_max : Z; oldest_age_s : Z
}.

Definition shard_age (now : Z) (s : shard) : Z :=
  match head (s_order s) with Some k => match s_ents s !! k with Some e => u32 (now - e_t e) | None => 0 end | None => 0 end.

Definition clretain_get_stats (r : retain) (now : Z) : clretain_stats :=
  let c := r_c r in
  if negb (r_on r) then mk_rstats 0 0 0 0 0 0 0 0 0 0 0 (r_retain_s r) (r_max r) 0
  else mk_rstats (foldl (fun n s => u64 (n + s_n s)) 0 (r_sh r)) (c R_bytes) (c R_dropped_early) (c R_noted) (c R_local) (c R_exp) (c R_dropped_early_exp)
         (c R_noted_exp) (c R_num) (c R_forgot) (c R_forgot_exp) (r_retain_s r) (r_max r) (foldl (fun m s => Z.max m (shard_age now s)) 0 (r_sh r)).

Definition clretain_dropped_early (r : retain) : Z := r_c r R_dropped_early.
Definition clretain_retain_s (r : retain) : Z := r_retain_s r.

Definition clretain_lost_since (r : retain) (since : Z) : bool :=
  r_on r && ((r_c r R_lost_upto_s >=? since) || (r_c r R_time_hi_s >=? since)).

Definition clretain_complete_since (r : retain) (now : Z) : Z :=
  if negb (r_on r) then 2 ^ 32 - 1
  else
    let c := if now >? r_retain_s r then now - r_retain_s r else 0 in
    if r_c r R_lost_upto_s >? c then r_c r R_lost_upto_s else c.

(** * What a shard keeps *)

(** Of the entries, the three lists see: that they are there, when they were planted and
    whether they are expiries, and their number. *)
Definition when (e : ent) : Z * Z := (e_t e, e_expiry e).
Definition num (e : ent) : nat * Z := (e_spi e, e_nseq e).

(** The chains find exactly the entries; they are at home in this shard. *)
Record index_ok (i : nat) (m : gmap ekey unit) (tab : list (list ekey)) : Prop := {
  ix_tab : tab <> [];
  ix_chain : forall k, k ∈ tab !!! Z.to_nat (Z.land (ent_hash k) (zlen tab - 1)) <-> is_Some (m !! k);
  ix_home : forall k, is_Some (m !! k) -> shard_of k = i
}.

Definition is_x (m : gmap ekey (Z * Z)) (k : ekey) : Prop := snd <$> m !! k = Some 1.
#[global] Instance is_x_dec m k : Decision (is_x m k).
Proof. unfold is_x. apply _. Defined.

Definition planted (m : gmap ekey (Z * Z)) (k : ekey) : Z := match m !! k with Some (t, _) => t | None => 0 end.

(** The planting order: each entry once, in the order of the times, none later than
    [last]; the expiries in the same order. *)
Record order_ok (last : Z) (m : gmap ekey (Z * Z)) (order xorder : list ekey) (n : Z) : Prop := {
  od_nodup : NoDup order;
  od_in : forall k, k ∈ order <-> is_Some (m !! k);
  od_x : xorder = filter (is_x m) order;
  od_n : n = zlen order;
  od_sorted : StronglySorted (fun a b => planted m a <= planted m b) order;
  od_last : forall k, k ∈ order -> 0 <= planted m k <= last
}.

(** A numbered entry is on its space's list, and nothing else is. *)
Record space_ok (m : gmap ekey (nat * Z)) (sp : list spl) : Prop := {
  sk_num : forall k j q, m !! k = Some (j, q) -> q <> 0 -> exists x, sp !! j = Some x /\ k ∈ sp_list x;
  sk_list : forall j x k, sp !! j = Some x -> k ∈ sp_list x -> exists q, m !! k = Some (j, q) /\ q <> 0;
  sk_nodup : forall j x, sp !! j = Some x -> NoDup (sp_list x)
}.

Record shard_ok (i : nat) (last : Z) (s : shard) : Prop := {
  so_index : index_ok i ((fun _ => tt) <$> s_ents s) (s_tab s);
  so_order : order_ok last (when <$> s_ents s) (s_order s) (s_xorder s) (s_n s);
  so_space : space_ok (num <$> s_ents s) (s_sp s)
}.

(** ** Lists *)

Lemma elem_unlink k l x : x ∈ unlink k l <-> x <> k /\ x ∈ l.
Proof. unfold unlink. by rewrite list_elem_of_filter. Qed.

Lemma unlink_nodup k l : NoDup l -> NoDup (unlink k l).
Proof. apply NoDup_filter. Qed.

Lemma unlink_id k l : k ∉ l -> unlink k l = l.
Proof.
  induction l as [|x l IH]; intros H; [done|]. apply not_elem_of_cons in H as [H1 H2]. unfold unlink. rewrite filter_cons_True by congruence. f_equal. by apply IH.
Qed.

Lemma unlink_len k l : NoDup l -> k ∈ l -> zlen (unlink k l) = zlen l - 1.
Proof.
  induction 1 as [|x l Hx Hl IH]; intros H; [by apply not_elem_of_nil in H|]. unfold unlink. apply elem_of_cons in H as [<-|H].
  - rewrite filter_cons_False by (intros H1; by apply H1). fold (unlink k l). rewrite unlink_id by done. rewrite zlen_cons. lia.
  - rewrite filter_cons_True by (intros ->; done). fold (unlink k l). rewrite !zlen_cons, IH by done. lia.
Qed.

Lemma unlink_head k l : NoDup (k :: l) -> unlink k (k :: l) = l.
Proof. intros H. apply NoDup_cons in H as [H1 _]. unfold unlink. rewrite filter_cons_False by (intros H2; by apply H2). by apply unlink_id. Qed.

(** ** The index *)

Lemma zlen_alter {A} f i (l : list A) : zlen (alter f i l) = zlen l.
Proof. unfold zlen. by rewrite length_alter. Qed.

Lemma alter_chain f (i : nat) (tab : list (list ekey)) j : (i < length tab)%nat ->
  alter f i tab !!! j = if decide (j = i) then f (tab !!! i) else tab !!! j.
Proof.
  intros Hi. destruct (decide (j = i)) as [->|Hne].
  - destruct (lookup_lt_is_Some_2 tab i Hi) as [x Hx]. rewrite (list_lookup_total_correct _ _ x Hx). apply list_lookup_total_correct. by rewrite list_lookup_alter_eq, Hx.
  - rewrite !list_lookup_total_alt. by rewrite list_lookup_alter_ne.
Qed.

Lemma chain_in_tab h (tab : list (list ekey)) : tab <> [] -> (Z.to_nat (Z.land h (zlen tab - 1)) < length tab)%nat.
Proof.
  intros H. assert (0 < zlen tab) as Hp by (destruct tab; [done|]; rewrite zlen_cons; pose proof (zlen_nonneg tab); lia).
  assert (0 <= Z.land h (zlen tab - 1) <= zlen tab - 1).
  { split; [apply Z.land_nonneg; lia|]. assert (Z.ldiff (Z.land h (zlen tab - 1)) (zlen tab - 1) = 0) as E.
    { apply Z.bits_inj_0. intros n. rewrite Z.ldiff_spec, Z.land_spec. by destruct (Z.testbit h n), (Z.testbit (zlen tab - 1) n). }
    apply Z.sub_nocarry_ldiff in E. assert (0 <= Z.ldiff (zlen tab - 1) (Z.land h (zlen tab - 1))) by (apply Z.ldiff_nonneg; lia). lia. }
  unfold zlen in *. lia.
Qed.

Lemma index_drop i m tab k : index_ok i m tab -> index_ok i (delete k m) (alter (unlink k) (Z.to_nat (Z.land (ent_hash k) (zlen tab - 1))) tab).
Proof.
  intros [H1 H2 H3]. split.
  - intros E. apply (f_equal length) in E. rewrite length_alter in E. by destruct tab.
  - intros x. rewrite zlen_alter, alter_chain by by apply chain_in_tab. destruct (decide (x = k)) as [->|Hne].
    + rewrite decide_True by done. rewrite elem_unlink, lookup_delete_eq. split; [by intros [? _]|by intros [? ?]].
    + rewrite lookup_delete_ne by done. rewrite <- H2. destruct (decide _) as [E|E]; [|done]. rewrite elem_unlink, <- E. tauto.
  - intros x Hx. apply H3. destruct (decide (x = k)) as [->|Hne]; [rewrite lookup_delete_eq in Hx; by destruct Hx|by rewrite lookup_delete_ne in Hx].
Qed.

Lemma index_add m tab k : index_ok (shard_of k) m tab -> index_ok (shard_of k) (<[k := tt]> m) (alter (cons k) (Z.to_nat (Z.land (ent_hash k) (zlen tab - 1))) tab).
Proof.
  intros [H1 H2 H3]. split.
  - intros E. apply (f_equal length) in E. rewrite length_alter in E. by destruct tab.
  - intros x. rewrite zlen_alter, alter_chain by by apply chain_in_tab. destruct (decide (x = k)) as [->|Hne].
    + rewrite decide_True by done. rewrite elem_of_cons, lookup_insert_eq. split; [by eexists|by left].
    + rewrite lookup_insert_ne by done. rewrite <- H2. destruct (decide _) as [E|E]; [|done]. rewrite elem_of_cons, <- E. split; [intros [?|?]; [done|done]|by right].
  - intros x Hx. destruct (decide (x = k)) as [->|Hne]; [done|]. apply H3. by rewrite lookup_insert_ne in Hx.
Qed.

(** ** The planting order *)

Lemma sorted_on {A} (R R' : A -> A -> Prop) l : StronglySorted R l -> (forall x y, x ∈ l -> y ∈ l -> R x y -> R' x y) -> StronglySorted R' l.
Proof.
  induction 1 as [|x l Hs IH Hx]; intros H; constructor.
  - apply IH. intros a b Ha Hb. apply H; by right.
  - rewrite Forall_forall in Hx |- *. intros y Hy. apply H; [by left|by right|auto].
Qed.

Lemma sorted_filter {A} (R : A -> A -> Prop) (P : A -> Prop) `{!forall x, Decision (P x)} l : StronglySorted R l -> StronglySorted R (filter P l).
Proof.
  induction 1 as [|x l Hs IH Hx]; [constructor|]. rewrite filter_cons. destruct (decide (P x)); [|done]. constructor; [done|].
  rewrite Forall_forall in Hx |- *. intros y Hy. apply Hx. by apply list_elem_of_filter in Hy as [_ ?].
Qed.

Lemma sorted_planted_snoc {A} (R : A -> A -> Prop) l k : StronglySorted R l -> (forall x, x ∈ l -> R x k) -> StronglySorted R (l ++ [k]).
Proof.
  induction 1 as [|x l Hs IH Hx]; intros H; simpl; [repeat constructor|]. constructor; [apply IH; intros y Hy; apply H; by right|].
  apply Forall_app. split; [done|]. repeat constructor. apply H. by left.
Qed.

Lemma planted_ne m k v x : x <> k -> planted (<[k := v]> m) x = planted m x.
Proof. intros H. unfold planted. by rewrite lookup_insert_ne. Qed.

Lemma order_drop last m o x n k : order_ok last m o x n -> k ∈ o -> order_ok last (delete k m) (unlink k o) (unlink k x) (n - 1).
Proof.
  intros [H1 H2 H3 H4 H5 H6] Hk. assert (forall y, y <> k -> planted (delete k m) y = planted m y) as Hp by (intros y Hy; unfold planted; by rewrite lookup_delete_ne).
  split.
  - by apply unlink_nodup.
  - intros y. rewrite elem_unlink. destruct (decide (y = k)) as [->|Hne]; [rewrite lookup_delete_eq; split; [by intros [? _]|by intros [? ?]]|].
    rewrite lookup_delete_ne by done. rewrite <- H2. tauto.
  - rewrite H3. unfold unlink. rewrite !list_filter_filter. apply list_filter_iff. intros y. unfold is_x. destruct (decide (y = k)) as [->|Hne]; [tauto|]. rewrite lookup_delete_ne by done. tauto.
  - rewrite unlink_len by done. lia.
  - eapply sorted_on; [by apply sorted_filter|]. intros a b Ha Hb. apply elem_unlink in Ha as [Ha _]. apply elem_unlink in Hb as [Hb _]. by rewrite !Hp.
  - intros y Hy. apply elem_unlink in Hy as [Hne Hy]. rewrite Hp by done. auto.
Qed.

Lemma order_add last m o x n k now y : order_ok last m o x n -> k ∉ o -> last <= now -> 0 <= now ->
  order_ok now (<[k := (now, y)]> m) (o ++ [k]) (if y =? 1 then x ++ [k] else x) (n + 1).
Proof.
  intros [H1 H2 H3 H4 H5 H6] Hk Hn H0. assert (forall a, a ∈ o -> a <> k) as Hne by (intros a Ha ->; done). split.
  - apply NoDup_app. split_and!; [done|intros a Ha Hb; apply list_elem_of_singleton in Hb as ->; done|apply NoDup_singleton].
  - intros a. rewrite elem_of_app, list_elem_of_singleton. destruct (decide (a = k)) as [->|Ha]; [rewrite lookup_insert_eq; split; [by eexists|by right]|].
    rewrite lookup_insert_ne by done. rewrite <- H2. tauto.
  - rewrite filter_app, H3.
    assert (filter (is_x m) o = filter (is_x (<[k := (now, y)]> m)) o) as <-.
    { clear -Hne. induction o as [|a o IH]; [done|]. rewrite !filter_cons. rewrite IH by (intros b Hb; apply Hne; by right).
      assert (is_x m a <-> is_x (<[k := (now, y)]> m) a) as Hx by (unfold is_x; rewrite lookup_insert_ne; [done|symmetry; apply Hne; by left]).
      destruct (decide (is_x m a)); [rewrite decide_True|rewrite decide_False]; tauto. }
    rewrite filter_cons, filter_nil. assert (is_x (<[k := (now, y)]> m) k <-> y = 1) as Hx by (unfold is_x; rewrite lookup_insert_eq; split; [by intros [= ->]|by intros ->]).
    destruct (Z.eqb_spec y 1) as [Hy|Hy]; [by rewrite decide_True by tauto|]. rewrite decide_False by tauto. by rewrite app_nil_r.
  - rewrite zlen_app. change (zlen [k]) with 1. lia.
  - apply sorted_planted_snoc.
    + eapply sorted_on; [exact H5|]. intros a b Ha Hb. by rewrite !planted_ne by auto.
    + intros a Ha. rewrite planted_ne by auto. unfold planted at 2. rewrite lookup_insert_eq. specialize (H6 a Ha). lia.
  - intros a Ha. apply elem_of_app in Ha as [Ha|Ha%list_elem_of_singleton]; [rewrite planted_ne by auto; specialize (H6 a Ha); lia|]. subst a.
    unfold planted. rewrite lookup_insert_eq. lia.
Qed.

Lemma order_later last last' m o x n : order_ok last m o x n -> last <= last' -> order_ok last' m o x n.
Proof. intros [H1 H2 H3 H4 H5 H6] Hl. split; try done. intros k Hk. specialize (H6 k Hk). lia. Qed.

(** Re-planted: out of its place and to the tail. *)
Lemma order_touch last m o x n k now y : order_ok last m o x n -> k ∈ o -> last <= now -> 0 <= now ->
  order_ok now (<[k := (now, y)]> m) (unlink k o ++ [k]) (if y =? 1 then unlink k x ++ [k] else unlink k x) n.
Proof.
  intros H Hk Hn H0. pose proof (order_drop _ _ _ _ _ _ H Hk) as H1. apply (order_add _ _ _ _ _ k now y) in H1; [|intros Hx; by apply elem_unlink in Hx as [? _]|done|done].
  rewrite insert_delete_eq in H1. by replace (n - 1 + 1) with n in H1 by lia.
Qed.

Lemma not_x_unlink last m o x n k t y : order_ok last m o x n -> m !! k = Some (t, y) -> y <> 1 -> unlink k x = x.
Proof. intros H Hk Hy. apply unlink_id. rewrite (od_x _ _ _ _ _ H), list_elem_of_filter. unfold is_x. rewrite Hk. intros [[= ?] _]. done. Qed.

(** ** The spaces *)

Lemma sp_alter f j (sp : list spl) j' x' : alter (sp_put f) j sp !! j' = Some x' ->
  exists x, sp !! j' = Some x /\ sp_list x' = (if decide (j' = j) then f (sp_list x) else sp_list x).
Proof.
  destruct (decide (j' = j)) as [->|Hne]; [rewrite list_lookup_alter_eq|rewrite list_lookup_alter_ne by done; eauto].
  destruct (sp !! j) as [x|]; [|done]. intros [= <-]. by exists x.
Qed.

Lemma space_unnum m sp k j q : space_ok m sp -> m !! k = Some (j, q) -> space_ok (<[k := (j, 0)]> m) (alter (sp_put (unlink k)) j sp).
Proof.
  intros [H1 H2 H3] Hk. split.
  - intros x j' q' Hx Hq. destruct (decide (x = k)) as [->|Hne]; [rewrite lookup_insert_eq in Hx; congruence|]. rewrite lookup_insert_ne in Hx by done.
    destruct (H1 x j' q' Hx Hq) as (y & Hy & Hin). destruct (decide (j' = j)) as [->|Hj].
    + exists (sp_put (unlink k) y). rewrite list_lookup_alter_eq, Hy. split; [done|]. apply elem_unlink. done.
    + exists y. by rewrite list_lookup_alter_ne.
  - intros j' x' y Hx Hy. apply sp_alter in Hx as (x & Hx & E). rewrite E in Hy. assert (y <> k /\ y ∈ sp_list x) as [Hne Hin].
    { destruct (decide (j' = j)) as [->|Hj]; [by apply elem_unlink in Hy|]. split; [|done]. intros ->. destruct (H2 _ _ _ Hx Hy) as (q' & Hq & _). congruence. }
    rewrite lookup_insert_ne by done. eauto.
  - intros j' x' Hx. apply sp_alter in Hx as (x & Hx & ->). destruct (decide (j' = j)); [apply unlink_nodup|]; eauto.
Qed.

Lemma space_num m sp k j j0 q x0 : space_ok m sp -> m !! k = Some (j0, 0) -> sp !! j = Some x0 -> q <> 0 ->
  space_ok (<[k := (j, q)]> m) (alter (sp_put (fun l => l ++ [k])) j sp).
Proof.
  intros [H1 H2 H3] Hk Hj Hq. assert (forall i x, sp !! i = Some x -> k ∉ sp_list x) as Hno by (intros i x Hx Hin; destruct (H2 _ _ _ Hx Hin) as (q' & E & ?); congruence). split.
  - intros x j' q' Hx Hq'. destruct (decide (x = k)) as [->|Hne].
    + rewrite lookup_insert_eq in Hx. injection Hx as <- <-. exists (sp_put (fun l => l ++ [k]) x0). rewrite list_lookup_alter_eq, Hj. split; [done|]. cbn. apply elem_of_app. right. by apply list_elem_of_singleton.
    + rewrite lookup_insert_ne in Hx by done. destruct (H1 x j' q' Hx Hq') as (y & Hy & Hin). destruct (decide (j' = j)) as [->|Hj'].
      * exists (sp_put (fun l => l ++ [k]) y). rewrite list_lookup_alter_eq, Hy. split; [done|]. cbn. apply elem_of_app. by left.
      * exists y. by rewrite list_lookup_alter_ne.
  - intros j' x' y Hx Hy. apply sp_alter in Hx as (x & Hx & E). rewrite E in Hy. destruct (decide (y = k)) as [->|Hne].
    + rewrite lookup_insert_eq. destruct (decide (j' = j)) as [->|Hj']; [eauto|]. exfalso. by eapply Hno.
    + rewrite lookup_insert_ne by done. destruct (decide (j' = j)) as [->|Hj']; [|eauto]. apply elem_of_app in Hy as [Hy|Hy%list_elem_of_singleton]; [eauto|done].
  - intros j' x' Hx. apply sp_alter in Hx as (x & Hx & ->). destruct (decide (j' = j)); [|eauto]. apply NoDup_app. split_and!; [eauto|intros a Ha Hb; apply list_elem_of_singleton in Hb as ->; by eapply Hno|apply NoDup_singleton].
Qed.

Lemma space_del m sp k j : space_ok m sp -> m !! k = Some (j, 0) -> space_ok (delete k m) sp.
Proof.
  intros [H1 H2 H3] Hk. split; [| |done].
  - intros x j' q Hx. destruct (decide (x = k)) as [->|Hne]; [by rewrite lookup_delete_eq in Hx|]. rewrite lookup_delete_ne in Hx by done. eauto.
  - intros j' x y Hx Hy. destruct (H2 _ _ _ Hx Hy) as (q & E & Hq). exists q. rewrite lookup_delete_ne; [done|]. intros ->. congruence.
Qed.

Lemma space_new m sp k j : space_ok m sp -> m !! k = None -> space_ok (<[k := (j, 0)]> m) sp.
Proof.
  intros [H1 H2 H3] Hk. split; [| |done].
  - intros x j' q Hx Hq. destruct (decide (x = k)) as [->|Hne]; [rewrite lookup_insert_eq in Hx; congruence|]. rewrite lookup_insert_ne in Hx by done. eauto.
  - intros j' x y Hx Hy. destruct (H2 _ _ _ Hx Hy) as (q & E & Hq). exists q. rewrite lookup_insert_ne; [done|]. intros ->. congruence.
Qed.

Lemma spl_empty_spec l i : spl_empty l = Some i -> exists x, l !! i = Some x /\ sp_list x = [].
Proof.
  revert i. induction l as [|x l IH]; intros i H; [done|]. cbn in H. destruct (sp_list x) eqn:E; [injection H as <-; by exists x|].
  destruct (spl_empty l) as [j|]; [|done]. injection H as <-. by apply IH.
Qed.

(** Finding or making a slot leaves the lists and gives a slot that is there. *)
Lemma spl_slot_ok smem s oid incarn m : space_ok m (s_sp s) ->
  let '(s', o) := spl_slot smem s oid incarn true in
  space_ok m (s_sp s') /\ (exists l cap, s' = set_sp s l cap) /\ forall i, o = Some i -> is_Some (s_sp s' !! i).
Proof.
  intros H. assert (exists l cap, s = set_sp s l cap) as Hs by (exists (s_sp s), (s_capsp s); by destruct s). unfold spl_slot. destruct (spl_find (s_sp s) oid incarn) as [i|] eqn:Ef.
  { split_and!; [done|done|]. intros j [= <-]. clear -Ef. revert i Ef. induction (s_sp s) as [|x l IH]; intros i Ef; [done|]. cbn in Ef. destruct (_ && _); [injection Ef as <-; by eexists|].
    destruct (spl_find l oid incarn) as [j|]; [|done]. injection Ef as <-. by apply IH. }
  pose proof H as [H1 H2 H3]. unfold spl_make. destruct (spl_empty (s_sp s)) as [i|] eqn:Ee.
  - destruct (spl_empty_spec _ _ Ee) as (x & Hx & Hnil). pose proof (lookup_lt_Some _ _ _ Hx) as Hlt. split_and!; [|by eexists _, _|intros j [= <-]; cbn; rewrite list_lookup_insert_eq by done; by eexists]. cbn [set_sp s_sp]. split.
    + intros k j q Hk Hq. destruct (H1 k j q Hk Hq) as (y & Hy & Hin). exists y. destruct (decide (j = i)) as [->|Hne]; [|by rewrite list_lookup_insert_ne by done].
      exfalso. rewrite Hx in Hy. injection Hy as <-. rewrite Hnil in Hin. by apply not_elem_of_nil in Hin.
    + intros j y k Hy Hin. destruct (decide (j = i)) as [->|Hne]; [|rewrite list_lookup_insert_ne in Hy by done; eauto]. rewrite list_lookup_insert_eq in Hy by done. injection Hy as <-. by apply not_elem_of_nil in Hin.
    + intros j y Hy. destruct (decide (j = i)) as [->|Hne]; [|rewrite list_lookup_insert_ne in Hy by done; eauto]. rewrite list_lookup_insert_eq in Hy by done. injection Hy as <-. constructor.
  - assert (forall cap, let s' := set_sp s (s_sp s ++ [mk_spl oid incarn []]) cap in space_ok m (s_sp s') /\ (exists l cap, s' = set_sp s l cap) /\ is_Some (s_sp s' !! length (s_sp s))) as Hadd.
    { intros cap s'. split_and!; [|by eexists _, _|cbn; rewrite list_lookup_middle by done; by eexists]. cbn [set_sp s_sp s']. split.
      - intros k j q Hk Hq. destruct (H1 k j q Hk Hq) as (y & Hy & Hin). exists y. split; [by apply lookup_app_l_Some|done].
      - intros j y k Hy Hin. apply lookup_app_Some in Hy as [Hy|[_ Hy]]; [eauto|]. apply list_lookup_singleton_Some in Hy as [_ <-]. by apply not_elem_of_nil in Hin.
      - intros j y Hy. apply lookup_app_Some in Hy as [Hy|[_ Hy]]; [eauto|]. apply list_lookup_singleton_Some in Hy as [_ <-]. constructor. }
    destruct (zlen (s_sp s) =? s_capsp s); [destruct (_ || _); [by split_and!|]|]; (split_and!; [apply Hadd|apply Hadd|intros i [= <-]; apply Hadd]).
Qed.

(** * The operations keep the shard *)

Lemma alter_some (m : gmap ekey ent) k e f : m !! k = Some e -> alter f k m = <[k := f e]> m.
Proof.
  intros H. apply map_eq. intros x. destruct (decide (x = k)) as [->|Hne]; [by rewrite lookup_alter_eq, lookup_insert_eq, H|].
  by rewrite lookup_alter_ne, lookup_insert_ne by done.
Qed.

Lemma fmap_same {B} (f : ent -> B) (m : gmap ekey ent) k e e' : m !! k = Some e -> f e' = f e -> f <$> <[k := e']> m = f <$> m.
Proof. intros H E. rewrite fmap_insert, E. apply insert_id. by rewrite lookup_fmap, H. Qed.

Lemma fmap_at {B} (f : ent -> B) (m : gmap ekey ent) k e : m !! k = Some e -> (f <$> m) !! k = Some (f e).
Proof. intros H. by rewrite lookup_fmap, H. Qed.

(** The counters that an operation may move. *)
Definition only (l : list ctr) (c c' : counters) : Prop := forall x, x ∉ l -> c' x = c x.

Lemma only_refl l c : only l c c.
Proof. done. Qed.
Lemma only_trans l c c1 c2 : only l c c1 -> only l c1 c2 -> only l c c2.
Proof. intros H1 H2 x Hx. by rewrite H2, H1. Qed.
Lemma only_cset l x v c : x ∈ l -> only l c (cset x v c).
Proof. intros H y Hy. unfold cset. rewrite decide_False; [done|]. intros ->. done. Qed.
Lemma only_cadd l x v c : x ∈ l -> only l c (cadd x v c).
Proof. apply only_cset. Qed.
Lemma only_sub l l' c c' : only l c c' -> l ⊆ l' -> only l' c c'.
Proof. intros H Hs x Hx. apply H. intros Hin. apply Hx. by apply Hs. Qed.

Ltac in_list := repeat first [by apply list_elem_of_here | apply list_elem_of_further].

(** The shard with the entry [e] at [k]. *)
Definition upd (s : shard) (k : ekey) (e : ent) : shard := set_ents s (<[k := e]> (s_ents s)).

Lemma on_ent_upd s k e f : on_ent (upd s k e) k f = upd s k (f e).
Proof. unfold on_ent, upd, set_ents. cbn. rewrite (alter_some _ k e) by apply lookup_insert_eq. by rewrite insert_insert_eq. Qed.

Lemma upd_id s k e : s_ents s !! k = Some e -> upd s k e = s.
Proof. intros H. unfold upd. rewrite insert_id by done. by destruct s. Qed.

Lemma set_sp_id s : set_sp s (s_sp s) (s_capsp s) = s.
Proof. by destruct s. Qed.

Lemma ent_number_ok smem s c k e oid incarn seq : s_ents s !! k = Some e -> space_ok (num <$> s_ents s) (s_sp s) ->
  let '(s', c') := ent_number smem s c k e oid incarn seq in
  (exists j q sp cap, s' = upd (set_sp s sp cap) k (e_set_num j q e) /\ space_ok (num <$> s_ents s') sp) /\ only [R_num] c c'.
Proof.
  intros He Hsp. unfold ent_number.
  assert (exists c1 j1 sp1 cap1, (if e_nseq e =? 0 then (s, c) else slist_unlink s c k e) = (upd (set_sp s sp1 cap1) k (e_set_num j1 0 e), c1) /\ only [R_num] c c1 /\
    space_ok (num <$> <[k := e_set_num j1 0 e]> (s_ents s)) sp1) as (c1 & j1 & sp1 & cap1 & -> & Hc & H1).
  { destruct (Z.eqb_spec (e_nseq e) 0) as [E|E].
    - exists c, (e_spi e), (s_sp s), (s_capsp s). assert (e_set_num (e_spi e) 0 e = e) as -> by (destruct e; cbn in *; by subst). rewrite insert_id by done.
      split_and!; [by rewrite set_sp_id, upd_id|apply only_refl|done].
    - eexists _, (e_spi e), _, _. split_and!; [unfold slist_unlink, on_ent, upd, set_ents, set_sp; cbn; by rewrite (alter_some _ _ _ _ He)|apply only_cadd; in_list|].
      rewrite fmap_insert. eapply (space_unnum _ _ _ _ (e_nseq e)); [exact Hsp|]. by apply (fmap_at num) in He. }
  destruct (Z.eqb_spec seq 0) as [_|Hq]; [split; [eexists _, _, _, _; by split|done]|].
  set (s1 := upd _ _ _). pose proof (spl_slot_ok smem s1 oid incarn _ H1) as H. destruct (spl_slot smem s1 oid incarn true) as [s2 [spi|]]; destruct H as (H2 & (l & cap & ->) & Hi); cbn [set_sp s_sp] in *.
  - destruct (Hi spi eq_refl) as [x0 Hx0]. unfold slist_append. split; [|eapply only_trans; [exact Hc|apply only_cadd; in_list]].
    exists spi, seq, (alter (sp_put (fun l => l ++ [k])) spi l), cap. split; [exact (on_ent_upd (set_sp s _ cap) k _ _)|].
    cbn. rewrite (alter_some _ k (e_set_num j1 0 e)) by apply lookup_insert_eq. rewrite fmap_insert. apply (space_num _ _ k spi j1 seq x0 H2); [|done|done]. exact (fmap_at num _ k _ (lookup_insert_eq _ _ _)).
  - split; [|done]. exists j1, 0, l, cap. by split.
Qed.

(** A re-planted entry, once its fields are known. *)
Lemma replant_ok i last s k e e' x' sp cap now : shard_ok i last s -> s_ents s !! k = Some e -> last <= now -> 0 <= now -> e_t e' = now ->
  space_ok (num <$> <[k := e']> (s_ents s)) sp ->
  x' = (if e_expiry e' =? 1 then unlink k (s_xorder s) ++ [k] else unlink k (s_xorder s)) ->
  shard_ok i now (mk_shard (<[k := e']> (s_ents s)) (s_tab s) (s_n s) (unlink k (s_order s) ++ [k]) x' sp cap) /\ zlen (unlink k (s_order s) ++ [k]) = zlen (s_order s).
Proof.
  intros [Hix Hod _] He Hl H0 Ht Hsp ->. assert (k ∈ s_order s) as Hin by (apply (od_in _ _ _ _ _ Hod); rewrite (fmap_at when _ _ _ He); by eexists).
  split; [|rewrite zlen_app, unlink_len by (done || apply Hod); change (zlen [k]) with 1; lia]. split; cbn [s_ents s_tab s_order s_xorder s_n s_sp]; [by rewrite (fmap_same _ _ _ e)| |done].
  rewrite fmap_insert. unfold when at 1. rewrite Ht. by eapply order_touch.
Qed.

(** The number, the version, the time and the local mark of a noted entry. *)
Lemma note_fields smem s c k e ver now local oid incarn seq : s_ents s !! k = Some e -> space_ok (num <$> s_ents s) (s_sp s) ->
  exists e3 c2 sp cap,
  (let '(s, c) := if (ver >? e_ver e) || ((ver =? e_ver e) && negb (seq =? 0) && (e_nseq e =? 0)) then ent_number smem s c k e oid incarn seq else (s, c) in
   let s := if ver >? e_ver e then on_ent s k (e_set_ver ver) else s in
   let s := on_ent s k (e_set_t now) in
   if negb local && e_local e then (on_ent s k (e_set_local false), cadd R_local (-1) c) else (s, c)) = (upd (set_sp s sp cap) k e3, c2) /\
  only [R_num; R_local; R_exp] c c2 /\ e_ver e3 = Z.max ver (e_ver e) /\ e_t e3 = now /\ e_expiry e3 = e_expiry e /\
  forall e', num e' = num e3 -> space_ok (num <$> <[k := e']> (s_ents s)) sp.
Proof.
  intros He Hsp.
  assert (exists c1 j q sp cap, (if (ver >? e_ver e) || ((ver =? e_ver e) && negb (seq =? 0) && (e_nseq e =? 0)) then ent_number smem s c k e oid incarn seq else (s, c)) =
    (upd (set_sp s sp cap) k (e_set_num j q e), c1) /\ only [R_num] c c1 /\ space_ok (num <$> <[k := e_set_num j q e]> (s_ents s)) sp) as (c1 & j & q & sp & cap & -> & Hc & H1).
  { destruct (_ || _).
    - pose proof (ent_number_ok smem s c k e oid incarn seq He Hsp) as H. destruct (ent_number smem s c k e oid incarn seq) as [s1 c1]. destruct H as [(j & q & sp & cap & -> & H1) Hc]. by eexists _, _, _, _, _.
    - exists c, (e_spi e), (e_nseq e), (s_sp s), (s_capsp s). assert (e_set_num (e_spi e) (e_nseq e) e = e) as -> by by destruct e. split_and!; [by rewrite set_sp_id, upd_id|done|by rewrite insert_id]. }
  set (e1 := if ver >? e_ver e then e_set_ver ver (e_set_num j q e) else e_set_num j q e). set (S := set_sp s sp cap).
  assert ((if ver >? e_ver e then on_ent (upd S k (e_set_num j q e)) k (e_set_ver ver) else upd S k (e_set_num j q e)) = upd S k e1) as -> by (unfold e1; destruct (ver >? e_ver e); [apply on_ent_upd|done]).
  cbv zeta. rewrite on_ent_upd. assert (only [R_num; R_local; R_exp] c c1) as Hc1 by (eapply only_sub; [exact Hc|]; intros x Hx; apply list_elem_of_singleton in Hx as ->; in_list).
  assert (forall e', num e' = (j, q) -> space_ok (num <$> <[k := e']> (s_ents s)) sp) as Hn by (intros e' E; rewrite fmap_insert, E; by rewrite fmap_insert in H1).
  assert (e_ver e1 = Z.max ver (e_ver e)) as Hv by (unfold e1; rewrite Z.gtb_ltb; destruct (Z.ltb_spec (e_ver e) ver); cbn; lia).
  assert (e_expiry e1 = e_expiry e /\ num e1 = (j, q)) as [Hx Hq] by (unfold e1; by destruct (ver >? e_ver e)).
  destruct (negb local && e_local e); eexists _, _, sp, cap; rewrite ?on_ent_upd; (split; [done|]); split_and!; try done.
  - eapply only_trans; [exact Hc1|apply only_cadd; in_list].
  - intros e' E. apply Hn. by rewrite E.
  - intros e' E. apply Hn. by rewrite E.
Qed.

Lemma note_again_ok smem i last s c k e ver now local expiry oid incarn seq : shard_ok i last s -> s_ents s !! k = Some e -> last <= now -> 0 <= now ->
  let '(s', c') := note_again smem s c k e ver now local expiry oid incarn seq in
  shard_ok i now s' /\ only [R_num; R_local; R_exp] c c' /\ zlen (s_order s') = zlen (s_order s) /\
  exists e', s_ents s' = <[k := e']> (s_ents s) /\ e_ver e' = Z.max ver (e_ver e) /\ e_t e' = now /\
    (e_expiry e' = 0 <-> expiry = 0 \/ e_expiry e = 0).
Proof.
  intros Hok He Hl H0. pose proof Hok as [Hix Hod Hsp]. unfold note_again. destruct (note_fields smem s c k e ver now local oid incarn seq He Hsp) as (e3 & c2 & sp & cap & E & Hc & Hv & Ht & Hx & Hn).
  destruct (if _ || _ then ent_number smem s c k e oid incarn seq else (s, c)) as [s1 c1]. cbv zeta in E |- *. rewrite E. clear E s1 c1.
  assert (forall y, y <> 1 -> e_expiry e = y -> s_xorder s = unlink k (s_xorder s)) as Hu by (intros y Hy Ey; symmetry; eapply not_x_unlink; [exact Hod|by apply (fmap_at when) in He|congruence]).
  destruct ((expiry =? 0) && negb (e_expiry e =? 0)) eqn:B1; [|destruct ((e_expiry e =? 1) && (expiry =? 2)) eqn:B2; [|destruct (Z.eqb_spec (e_expiry e) 1) as [B3|B3]]].
  - apply andb_true_iff in B1 as [B1%Z.eqb_eq _].
    assert (on_ent (if e_expiry e =? 1 then xlist_unlink (upd (set_sp s sp cap) k e3) k else upd (set_sp s sp cap) k e3) k (e_set_expiry 0) = upd (set_xorder (set_sp s sp cap) (unlink k (s_xorder s))) k (e_set_expiry 0 e3)) as ->.
    { destruct (Z.eqb_spec (e_expiry e) 1) as [E|E]; [exact (on_ent_upd (xlist_unlink (set_sp s sp cap) k) k _ _)|]. rewrite on_ent_upd, <- (Hu _ E eq_refl). by destruct s. }
    destruct (replant_ok i last s k e (e_set_expiry 0 e3) _ sp cap now Hok He Hl H0 Ht (Hn (e_set_expiry 0 e3) eq_refl) eq_refl) as [Q1 Q2].
    split_and!; [exact Q1|eapply only_trans; [exact Hc|apply only_cadd; in_list]|exact Q2|]. eexists. split; [done|]. cbn. split_and!; auto; lia.
  - apply andb_true_iff in B2 as [B3%Z.eqb_eq B2%Z.eqb_eq]. change (on_ent (xlist_unlink (upd (set_sp s sp cap) k e3) k) k (e_set_expiry 2)) with (on_ent (upd (xlist_unlink (set_sp s sp cap) k) k e3) k (e_set_expiry 2)). rewrite on_ent_upd.
    destruct (replant_ok i last s k e (e_set_expiry 2 e3) _ sp cap now Hok He Hl H0 Ht (Hn (e_set_expiry 2 e3) eq_refl) eq_refl) as [Q1 Q2]. split_and!; [exact Q1|done|exact Q2|]. eexists. split; [done|]. cbn. split_and!; auto; lia.
  - destruct (replant_ok i last s k e e3 (unlink k (s_xorder s) ++ [k]) sp cap now Hok He Hl H0 Ht (Hn _ eq_refl)) as [Q1 Q2]; [by rewrite Hx, B3|].
    split_and!; [exact Q1|done|exact Q2|]. eexists. split; [done|]. split_and!; auto; lia.
  - destruct (replant_ok i last s k e e3 (s_xorder s) sp cap now Hok He Hl H0 Ht (Hn _ eq_refl)) as [Q1 Q2]; [rewrite Hx, (proj2 (Z.eqb_neq _ _) B3); by eapply Hu|].
    split_and!; [exact Q1|done|exact Q2|]. eexists. split; [done|]. split_and!; auto; lia.
Qed.

Lemma order_n i last s : shard_ok i last s -> s_n s = zlen (s_order s).
Proof. intros H. apply (so_order _ _ _ H). Qed.

Lemma in_order i last s k : shard_ok i last s -> k ∈ s_order s <-> is_Some (s_ents s !! k).
Proof. intros H. rewrite (od_in _ _ _ _ _ (so_order _ _ _ H)), lookup_fmap. unfold is_Some. destruct (s_ents s !! k); cbn; split; intros [? ?]; eauto; done. Qed.

Lemma ent_drop_ok i last s c k e : shard_ok i last s -> s_ents s !! k = Some e -> zlen (s_order s) < 2 ^ 32 ->
  let '(s', c') := ent_drop s c k e in
  shard_ok i last s' /\ s_ents s' = delete k (s_ents s) /\ s_order s' = unlink k (s_order s) /\
  c' R_n = u32 (c R_n - 1) /\ only [R_n; R_local; R_exp; R_num; R_bytes] c c'.
Proof.
  intros Hok He Hsm. pose proof Hok as [Hix Hod Hsp]. assert (k ∈ s_order s) as Hin by (apply (in_order _ _ _ _ Hok); by eexists).
  assert (u32 (s_n s - 1) = s_n s - 1) as Hn by (rewrite (order_n _ _ _ Hok); pose proof (unlink_len k (s_order s) ltac:(apply Hod) Hin); pose proof (zlen_nonneg (unlink k (s_order s))); apply u32_id; word_lia).
  unfold ent_drop. cbn [set_n list_unlink set_order set_tab s_n s_order s_tab]. rewrite Hn.
  set (c1 := if e_expiry e =? 0 then _ else _). assert (c1 R_n = u32 (c R_n - 1) /\ only [R_n; R_local; R_exp; R_num; R_bytes] c c1) as [Hc1 Hc2].
  { unfold c1. split; [destruct (e_local e), (e_expiry e =? 0); done|]. set (l := [R_n; _; _; _; _]). assert (only l c (cadd R_n (-1) c)) as H1 by (apply only_cadd; in_list).
    assert (only l c (if e_local e then cadd R_local (-1) (cadd R_n (-1) c) else cadd R_n (-1) c)) as H2 by (destruct (e_local e); [|done]; eapply only_trans; [exact H1|apply only_cadd; in_list]).
    destruct (e_expiry e =? 0); [done|]. eapply only_trans; [exact H2|apply only_cadd; in_list]. }
  clearbody c1. set (s2 := if e_expiry e =? 1 then _ else _).
  assert (s2 = mk_shard (s_ents s) (alter (unlink k) (chain_of s (ent_hash k)) (s_tab s)) (s_n s - 1) (unlink k (s_order s)) (unlink k (s_xorder s)) (s_sp s) (s_capsp s)) as ->.
  { unfold s2. destruct (Z.eqb_spec (e_expiry e) 1) as [E|E]; [done|]. rewrite (not_x_unlink _ _ _ _ _ k (e_t e) (e_expiry e) Hod); [done|by apply (fmap_at when) in He|done]. }
  assert (index_ok i ((fun _ => tt) <$> delete k (s_ents s)) (alter (unlink k) (chain_of s (ent_hash k)) (s_tab s))) as Q1 by (rewrite fmap_delete; by apply index_drop).
  assert (order_ok last (when <$> delete k (s_ents s)) (unlink k (s_order s)) (unlink k (s_xorder s)) (s_n s - 1)) as Q2 by (rewrite fmap_delete; by apply order_drop).
  destruct (Z.eqb_spec (e_nseq e) 0) as [E|E].
  - split_and!; cbn; try done; [split; cbn; try done; rewrite fmap_delete; eapply space_del; [exact Hsp|rewrite (fmap_at num _ _ _ He); unfold num; by rewrite E]|].
    eapply only_trans; [exact Hc2|apply only_cadd; in_list].
  - unfold slist_unlink. cbn. rewrite (alter_some _ _ _ _ He), delete_insert_eq. split_and!; try done.
    + split; cbn; try done. rewrite fmap_delete, <- (delete_insert_eq _ k (e_spi e, 0)). eapply (space_del _ _ k (e_spi e)); [|apply lookup_insert_eq].
      eapply (space_unnum _ _ k (e_spi e) (e_nseq e)); [exact Hsp|by apply (fmap_at num) in He].
    + eapply only_trans; [exact Hc2|]. eapply only_trans; apply only_cadd; in_list.
Qed.

Lemma note_new_ok smem last s c k ver now local expiry oid incarn seq : shard_ok (shard_of k) last s -> s_ents s !! k = None -> last <= now -> 0 <= now -> zlen (s_order s) + 1 < 2 ^ 32 ->
  let '(s', c') := note_new smem s c k ver now local expiry oid incarn seq in
  shard_ok (shard_of k) now s' /\ s_order s' = s_order s ++ [k] /\ c' R_n = u32 (c R_n + 1) /\ only [R_n; R_local; R_exp; R_num; R_bytes] c c' /\
  exists e', s_ents s' = <[k := e']> (s_ents s) /\ e_ver e' = ver /\ e_t e' = now /\ e_expiry e' = expiry.
Proof.
  intros Hok He Hl H0 Hsm. pose proof Hok as [Hix Hod Hsp]. assert (k ∉ s_order s) as Hin by (rewrite (in_order _ _ _ _ Hok), He; by intros [? ?]).
  assert (u32 (s_n s + 1) = s_n s + 1) as Hn by (rewrite (order_n _ _ _ Hok); pose proof (zlen_nonneg (s_order s)); apply u32_id; word_lia).
  unfold note_new. cbn [set_n list_append set_order set_tab set_ents s_n s_order s_tab]. rewrite Hn. set (e := mk_ent ver now local expiry 0 0).
  set (c1 := if expiry =? 0 then _ else _). set (l := [R_n; R_local; R_exp; R_num; R_bytes]). assert (c1 R_n = u32 (c R_n + 1) /\ only l c c1) as [Hc1 Hc2].
  { unfold c1. split; [destruct local, (expiry =? 0); done|]. assert (only l c (cadd R_n 1 c)) as H1 by (apply only_cadd; in_list).
    assert (only l c (if local then cadd R_local 1 (cadd R_n 1 c) else cadd R_n 1 c)) as H2 by (destruct local; [|done]; eapply only_trans; [exact H1|apply only_cadd; in_list]).
    destruct (expiry =? 0); [done|]. eapply only_trans; [exact H2|apply only_cadd; in_list]. }
  clearbody c1. set (s2 := if expiry =? 1 then _ else _).
  assert (s2 = mk_shard (<[k := e]> (s_ents s)) (alter (cons k) (chain_of s (ent_hash k)) (s_tab s)) (s_n s + 1) (s_order s ++ [k]) (if expiry =? 1 then s_xorder s ++ [k] else s_xorder s) (s_sp s) (s_capsp s)) as E2 by (unfold s2; by destruct (expiry =? 1)).
  clearbody s2. subst s2.
  assert (forall m (e' : ent), m = <[k := e']> (s_ents s) -> index_ok (shard_of k) ((fun _ => tt) <$> m) (alter (cons k) (chain_of s (ent_hash k)) (s_tab s))) as Q1 by (intros m e' ->; rewrite fmap_insert; by apply index_add).
  assert (forall m (e' : ent), m = <[k := e']> (s_ents s) -> when e' = (now, expiry) -> order_ok now (when <$> m) (s_order s ++ [k]) (if expiry =? 1 then s_xorder s ++ [k] else s_xorder s) (s_n s + 1)) as Q2.
  { intros m e' -> E. rewrite fmap_insert, E. by eapply order_add. }
  assert (space_ok (num <$> <[k := e]> (s_ents s)) (s_sp s)) as Q3 by (rewrite fmap_insert; apply space_new; [done|by rewrite lookup_fmap, He]).
  destruct (Z.eqb_spec seq 0) as [Es|Es].
  - split_and!; [split; cbn; [by eapply Q1|by eapply Q2|done]|done|done|eapply only_trans; [exact Hc2|apply only_cadd; in_list]|by exists e].
  - set (s2 := mk_shard _ _ _ _ _ _ _). pose proof (ent_number_ok smem s2 c1 k e oid incarn seq (lookup_insert_eq _ _ _) Q3) as H.
    destruct (ent_number smem s2 c1 k e oid incarn seq) as [s3 c3]. destruct H as [(j & q & sp & cap & -> & H3) Hc3].
    assert (s_ents (upd (set_sp s2 sp cap) k (e_set_num j q e)) = <[k := e_set_num j q e]> (s_ents s)) as Em by (cbn; by rewrite insert_insert_eq).
    assert (only l c1 c3) as Hc4 by (eapply only_sub; [exact Hc3|]; intros x Hx; apply list_elem_of_singleton in Hx as ->; in_list).
    split_and!; [split; [by eapply Q1|by eapply Q2|done]|done| |eapply only_trans; [exact Hc2|eapply only_trans; [exact Hc4|apply only_cadd; in_list]]|by exists (e_set_num j q e)].
    change (c3 R_n = u32 (c R_n + 1)). rewrite Hc3; [done|]. intros Hx. apply list_elem_of_singleton in Hx. done.
Qed.

(** * The whole table *)

Definition sum_over (f : shard -> Z) (l : list shard) : Z := foldr (fun s n => f s + n) 0 l.
Definition held (s : shard) : Z := zlen (s_order s).
(** What a shard holds beyond its first entry, which the cap does not stop. *)
Definition load (s : shard) : Z := Z.max 0 (held s - 1).

Record retain_ok (last : Z) (r : retain) : Prop := {
  rk_len : length (r_sh r) = Z.to_nat NSHARD;
  rk_sh : forall i s, r_sh r !! i = Some s -> shard_ok i last s;
  rk_n : r_c r R_n = sum_over held (r_sh r);
  rk_cap : sum_over load (r_sh r) <= r_max r;
  rk_max : r_max r <= 2 ^ 32 - 66
}.

Lemma sum_insert f l : forall i s s', l !! i = Some s -> sum_over f (<[i := s']> l) = sum_over f l - f s + f s'.
Proof.
  induction l as [|x l IH]; intros i s s' H; [done|]. destruct i as [|i]; cbn in H; [injection H as ->; unfold sum_over; cbn; lia|].
  specialize (IH i s s' H). change (sum_over f (<[S i := s']> (x :: l))) with (f x + sum_over f (<[i := s']> l)). rewrite IH. unfold sum_over. cbn. lia.
Qed.

Lemma held_nonneg s : 0 <= held s.
Proof. apply zlen_nonneg. Qed.

Lemma sum_held_load l : sum_over load l <= sum_over held l <= sum_over load l + zlen l.
Proof.
  induction l as [|s l IH]; [done|]. rewrite zlen_cons. assert (load s <= held s <= load s + 1) by (pose proof (held_nonneg s); unfold load; lia).
  change (sum_over load (s :: l)) with (load s + sum_over load l). change (sum_over held (s :: l)) with (held s + sum_over held l). lia.
Qed.

Lemma held_le l i s : l !! i = Some s -> held s <= sum_over held l.
Proof.
  assert (forall l, 0 <= sum_over held l) as Hp by (clear; induction l as [|x l IH]; [done|]; unfold sum_over in *; cbn; pose proof (held_nonneg x); lia).
  revert i. induction l as [|x l IH]; intros i H; [done|]. destruct i as [|i]; cbn in H; unfold sum_over in *; cbn.
  - injection H as ->. specialize (Hp l). lia.
  - specialize (IH i H). pose proof (held_nonneg x). lia.
Qed.

Lemma total_small last r : retain_ok last r -> sum_over held (r_sh r) < 2 ^ 32 - 1.
Proof. intros [H1 _ _ H4 H5]. pose proof (sum_held_load (r_sh r)). unfold zlen in *. rewrite H1 in *. change (Z.of_nat (Z.to_nat NSHARD)) with 64 in *. lia. Qed.

Lemma shard_small last r i s : retain_ok last r -> r_sh r !! i = Some s -> zlen (s_order s) < 2 ^ 32.
Proof. intros H Hi. pose proof (total_small _ _ H). pose proof (held_le _ _ _ Hi). unfold held in *. lia. Qed.

Lemma shard_later i last last' s : shard_ok i last s -> last <= last' -> shard_ok i last' s.
Proof. intros [H1 H2 H3] Hl. split; [done|by eapply order_later|done]. Qed.

(** One shard replaced. *)
Lemma put_shard_ok last now r i s s' c fg : retain_ok last r -> last <= now -> r_sh r !! i = Some s -> shard_ok i now s' ->
  c R_n = r_c r R_n - held s + held s' -> sum_over load (r_sh r) - load s + load s' <= r_max r -> retain_ok now (put_shard r i s' c fg).
Proof.
  intros [H1 H2 H3 H4 H5] Hl Hi Hs Hc Hcap. split; cbn [put_shard r_sh r_c r_max]; [by rewrite length_insert| | | |done].
  - intros j x Hx. destruct (decide (j = i)) as [->|Hne]; [rewrite list_lookup_insert_eq in Hx by (by eapply lookup_lt_Some); by injection Hx as <-|].
    rewrite list_lookup_insert_ne in Hx by done. eapply shard_later; eauto.
  - rewrite (sum_insert _ _ _ _ _ Hi). lia.
  - by rewrite (sum_insert _ _ _ _ _ Hi).
Qed.

(** The entry of a key. *)
Definition entry (r : retain) (k : ekey) : option ent := s ← r_sh r !! shard_of k; s_ents s !! k.

Lemma entry_at r k s : r_sh r !! shard_of k = Some s -> entry r k = s_ents s !! k.
Proof. unfold entry. by intros ->. Qed.

Lemma shard_there last r k : retain_ok last r -> exists s, r_sh r !! shard_of k = Some s /\ shard_ok (shard_of k) last s.
Proof.
  intros R. destruct (lookup_lt_is_Some_2 (r_sh r) (shard_of k)) as [s Hs].
  - rewrite (rk_len _ _ R). unfold shard_of. pose proof (Z.mod_pos_bound (hash_of k) NSHARD ltac:(done)). lia.
  - exists s. split; [done|]. by eapply rk_sh.
Qed.

Lemma entry_put r i s c fg k : (i < length (r_sh r))%nat -> entry (put_shard r i s c fg) k = if decide (shard_of k = i) then s_ents s !! k else entry r k.
Proof.
  intros Hi. unfold entry. cbn [put_shard r_sh]. destruct (decide (shard_of k = i)) as [->|Hne]; [by rewrite list_lookup_insert_eq|by rewrite list_lookup_insert_ne].
Qed.

(** The entry with this key is of this shard alone. *)
Lemma elsewhere i last s k : shard_ok i last s -> shard_of k <> i -> s_ents s !! k = None.
Proof.
  intros H Hne. destruct (s_ents s !! k) as [e|] eqn:E; [|done]. exfalso. apply Hne. apply (ix_home _ _ _ (so_index _ _ _ H)). rewrite lookup_fmap, E. by eexists.
Qed.

Lemma chain_has i last s k : shard_ok i last s -> k ∈ s_tab s !!! chain_of s (ent_hash k) <-> is_Some (s_ents s !! k).
Proof. intros H. unfold chain_of. rewrite (ix_chain _ _ _ (so_index _ _ _ H)), lookup_fmap. unfold is_Some. destruct (s_ents s !! k); cbn; split; intros [? ?]; eauto; done. Qed.

(** ** The cap *)

Lemma victim_spec i last s expiry k : shard_ok i last s -> victim s expiry = Some k ->
  exists e, s_ents s !! k = Some e /\ (e_expiry e = 1 \/ (expiry <> 1 /\ forall x ex, s_ents s !! x = Some ex -> e_expiry ex <> 1)).
Proof.
  intros H Hv. unfold victim in Hv. pose proof (od_x _ _ _ _ _ (so_order _ _ _ H)) as Hx. destruct (s_xorder s) as [|x l] eqn:E.
  - destruct (Z.eqb_spec expiry 1) as [?|Hne]; [done|]. destruct (s_order s) as [|y o] eqn:Eo; [done|]. injection Hv as ->.
    destruct (proj1 (in_order _ _ _ k H)) as [e He]; [rewrite Eo; by left|]. exists e. split; [done|]. right. split; [done|]. intros y ey Hy Ey.
    assert (y ∈ filter (is_x (when <$> s_ents s)) (k :: o)) as Hin; [|rewrite <- Hx in Hin; by apply not_elem_of_nil in Hin].
    apply list_elem_of_filter. split; [unfold is_x; rewrite (fmap_at when _ _ _ Hy); by rewrite <- Ey|]. rewrite <- Eo. apply (in_order _ _ _ _ H). by eexists.
  - injection Hv as ->. assert (k ∈ filter (is_x (when <$> s_ents s)) (s_order s)) as Hin by (rewrite <- Hx; by left). apply list_elem_of_filter in Hin as [Hin _].
    unfold is_x in Hin. rewrite lookup_fmap in Hin. destruct (s_ents s !! k) as [e|]; [|done]. exists e. split; [done|]. left. cbn in Hin. by injection Hin as ->.
Qed.

Lemma cmax_le x t c : is_u32 t -> (forall c' : counters, ctr_wrap x t = t) -> c x <= cmax x t c x /\ t <= cmax x t c x.
Proof.
  intros Ht Hw. unfold cmax. rewrite Z.gtb_ltb. destruct (Z.ltb_spec (c x) t); [|lia]. unfold cset. rewrite decide_True by done. rewrite (Hw c). lia.
Qed.

Lemma lost_at_le t c : is_u32 t -> c R_lost_upto_s <= lost_at t c R_lost_upto_s /\ t <= lost_at t c R_lost_upto_s.
Proof. intros Ht. apply cmax_le; [done|]. intros _. by apply u32_id. Qed.

Lemma lost_at_only t c : only [R_lost_upto_s] c (lost_at t c).
Proof. unfold lost_at, cmax. destruct (_ >? _); [apply only_cset; in_list|apply only_refl]. Qed.

Lemma count_early_only x c : only [R_dropped_early; R_dropped_early_exp] c (count_early x c).
Proof. unfold count_early. destruct (x =? 0); [apply only_cadd; in_list|]. eapply only_trans; apply only_cadd; in_list. Qed.

(** What the cap took: nothing, or an entry that had had its time or that is said to be
    lost, an expiry unless the shard has none and the newcomer is not one. *)
Record room_made (retain_s now expiry : Z) (s : shard) (c : counters) (s' : shard) (c' : counters) : Prop := {
  rm_lost : c R_lost_upto_s <= c' R_lost_upto_s;
  rm_ents : forall x e, s_ents s !! x = Some e -> s_ents s' !! x = Some e \/
    ((retain_s <= now - e_t e \/ e_t e <= c' R_lost_upto_s) /\ (e_expiry e = 1 \/ (expiry <> 1 /\ forall y ey, s_ents s !! y = Some ey -> e_expiry ey <> 1)));
  rm_sub : forall x, s_ents s !! x = None -> s_ents s' !! x = None;
  rm_n : c' R_n = c R_n - held s + held s'
}.

Lemma make_room_ok i last r s c now expiry : shard_ok i last s -> last <= now < 2 ^ 32 -> zlen (s_order s) <= c R_n < 2 ^ 32 ->
  match make_room r s c now expiry with
  | None => expiry = 1
  | Some (s', c', fg) => shard_ok i last s' /\ room_made (r_retain_s r) now expiry s c s' c' /\ load s' <= load s /\ (c R_n < r_max r -> held s' = held s) /\ (r_max r <= c R_n -> held s' = Z.max 0 (held s - 1))
  end.
Proof.
  intros H Hnow Hc. pose proof (held_nonneg s) as Hh. assert (room_made (r_retain_s r) now expiry s c s c) as Hsame by (split; try done; [eauto|lia]). unfold make_room.
  destruct ((c R_n >=? r_max r) && negb (zlen (s_order s) =? 0)) eqn:E.
  2: { split_and!; [done|done|done|done|]. intros Hm. apply andb_false_iff in E as [E|E]; [rewrite Z.geb_leb in E; apply Z.leb_gt in E; lia|]. apply negb_false_iff, Z.eqb_eq in E. unfold held in *. lia. }
  apply andb_true_iff in E as [E1 E2%negb_true_iff%Z.eqb_neq]. rewrite Z.geb_leb in E1. apply Z.leb_le in E1. destruct (victim s expiry) as [k|] eqn:Ev.
  2: { unfold victim in Ev. destruct (s_xorder s); [|done]. destruct (Z.eqb_spec expiry 1); [done|]. destruct (s_order s); [done|done]. }
  destruct (victim_spec _ _ _ _ _ H Ev) as (e & He & Hx). rewrite He. set (c1 := if u32 (now - e_t e) <? r_retain_s r then lost_at (e_t e) (count_early (e_expiry e) c) else c).
  assert (0 <= e_t e <= last) as Ht by (pose proof (od_last _ _ _ _ _ (so_order _ _ _ H) k ltac:(apply (in_order _ _ _ _ H); by eexists)) as Q; unfold planted in Q; by rewrite (fmap_at when _ _ _ He) in Q).
  assert (c1 R_n = c R_n /\ c R_lost_upto_s <= c1 R_lost_upto_s /\ (r_retain_s r <= now - e_t e \/ e_t e <= c1 R_lost_upto_s)) as (C1 & C2 & C3).
  { unfold c1. rewrite u32_id by word_lia. destruct (Z.ltb_spec (now - e_t e) (r_retain_s r)); [|split_and!; [done|done|by left]].
    pose proof (count_early_only (e_expiry e) c) as Ho. destruct (lost_at_le (e_t e) (count_early (e_expiry e) c) ltac:(word_lia)) as [L1 L2].
    rewrite lost_at_only by (intros Hx1; apply list_elem_of_singleton in Hx1; done). rewrite Ho by (intros Hx1; apply list_elem_of_In in Hx1; cbn in Hx1; intuition done).
    split_and!; [done| |by right]. rewrite Ho in L1 by (intros Hx1; apply list_elem_of_In in Hx1; cbn in Hx1; intuition done). done. }
  clearbody c1. pose proof (ent_drop_ok i last s c1 k e H He ltac:(lia)) as D. destruct (ent_drop s c1 k e) as [s' c']. destruct D as (D1 & D2 & D3 & D4 & D5).
  assert (held s' = held s - 1) as Hd by (unfold held; rewrite D3; apply unlink_len; [apply (so_order _ _ _ H)|apply (in_order _ _ _ _ H); by eexists]).
  split_and!; [done| |unfold load; lia|lia|pose proof (held_nonneg s'); lia]. assert (c' R_lost_upto_s = c1 R_lost_upto_s) as El by (apply D5; intros Hx1; apply list_elem_of_In in Hx1; cbn in Hx1; intuition done).
  split.
  - lia.
  - intros x ex Hex. rewrite D2. destruct (decide (x = k)) as [->|Hne]; [|left; by rewrite lookup_delete_ne]. right. rewrite He in Hex. injection Hex as <-. by rewrite El.
  - intros x Hex. rewrite D2. destruct (decide (x = k)) as [->|Hne]; [apply lookup_delete_eq|by rewrite lookup_delete_ne].
  - rewrite D4, C1, Hd. pose proof (held_nonneg s'). rewrite u32_id by (unfold held in *; word_lia). lia.
Qed.

(** ** Noting *)

(** What a note of [k] at [now] does to the entries. *)
Record noted_as (r : retain) (k : ekey) (ver now expiry : Z) (r' : retain) : Prop := {
  na_conf : r_on r' = r_on r /\ r_retain_s r' = r_retain_s r /\ r_max r' = r_max r;
  na_lost : r_c r R_lost_upto_s <= r_c r' R_lost_upto_s;
  na_own : (exists e', entry r' k = Some e' /\ ver <= e_ver e' /\ e_t e' = now /\ (expiry = 0 -> e_expiry e' = 0) /\
              forall e, entry r k = Some e -> e_ver e <= e_ver e' /\ (e_expiry e = 0 -> e_expiry e' = 0)) \/
           (entry r k = None /\ now <= r_c r' R_lost_upto_s);
  na_others : forall x e, x <> k -> entry r x = Some e -> entry r' x = Some e \/
    ((r_retain_s r <= now - e_t e \/ e_t e <= r_c r' R_lost_upto_s) /\
     (e_expiry e = 1 \/ (expiry <> 1 /\ forall y ey, shard_of y = shard_of k -> entry r y = Some ey -> e_expiry ey <> 1)))
}.

Definition noteable (r : retain) (k : ekey) (ver : Z) : Prop := r_on r = true /\ ver <> 0 /\ zlen (fst k) <= 255 /\ zlen (snd k) <= 4096.

Lemma only_at l c c' x : only l c c' -> x ∉ l -> c' x = c x.
Proof. auto. Qed.

Ltac not_listed := let H := fresh in intros H; apply list_elem_of_In in H; cbn in H; intuition done.

(** A shard put back with the entries [s'] has. *)
Lemma put_noted last r k s s' c fg ver now expiry : retain_ok last r -> r_sh r !! shard_of k = Some s -> shard_ok (shard_of k) last s ->
  r_c r R_lost_upto_s <= c R_lost_upto_s ->
  ((exists e', s_ents s' !! k = Some e' /\ ver <= e_ver e' /\ e_t e' = now /\ (expiry = 0 -> e_expiry e' = 0) /\ forall e, s_ents s !! k = Some e -> e_ver e <= e_ver e' /\ (e_expiry e = 0 -> e_expiry e' = 0)) \/ (s_ents s !! k = None /\ now <= c R_lost_upto_s)) ->
  (forall x e, x <> k -> s_ents s !! x = Some e -> s_ents s' !! x = Some e \/
    ((r_retain_s r <= now - e_t e \/ e_t e <= c R_lost_upto_s) /\ (e_expiry e = 1 \/ (expiry <> 1 /\ forall y ey, s_ents s !! y = Some ey -> e_expiry ey <> 1)))) ->
  noted_as r k ver now expiry (put_shard r (shard_of k) s' c fg).
Proof.
  intros R Hs Hok Hl Hown Hoth. pose proof (lookup_lt_Some _ _ _ Hs) as Hi. split; [done|done|..].
  - rewrite !entry_put, decide_True by done. rewrite (entry_at _ _ _ Hs). exact Hown.
  - intros x e Hne He. rewrite entry_put by done. destruct (decide (shard_of x = shard_of k)) as [Ex|Ex]; [|by left].
    unfold entry in He. rewrite Ex, Hs in He. destruct (Hoth x e Hne He) as [?|[H1 [H2|[H2 H3]]]]; [by left|right; auto|]. right. split; [done|]. right. split; [done|].
    intros y ey Ey Hy. apply (H3 y). unfold entry in Hy. by rewrite Ey, Hs in Hy.
Qed.

Lemma note_in_ok last r smem emem k ver now local expiry oid incarn seq : retain_ok last r -> last <= now < 2 ^ 32 -> 0 <= now -> noteable r k ver ->
  let r' := note_in smem emem r k ver now local expiry oid incarn seq in
  retain_ok now r' /\ noted_as r k ver now expiry r'.
Proof.
  intros R Hnow H0 (Hon & Hver & Hc & Hk). unfold note_in. rewrite Hon, (proj2 (Z.eqb_neq _ _) Hver). rewrite !Z.gtb_ltb, !(proj2 (Z.ltb_ge _ _)) by lia. cbn [negb orb].
  destruct (shard_there _ _ k R) as (s & Hs & Hok). rewrite Hs. set (c := if expiry =? 0 then cadd R_noted 1 (r_c r) else cadd R_noted_exp 1 (cadd R_noted 1 (r_c r))).
  assert (c R_n = r_c r R_n /\ c R_lost_upto_s = r_c r R_lost_upto_s) as [Cn Cl] by (unfold c; by destruct (expiry =? 0)). clearbody c.
  pose proof (shard_small _ _ _ _ R Hs) as Hsm. pose proof (held_le _ _ _ Hs) as Hle. pose proof (rk_n _ _ R) as Hn. pose proof (total_small _ _ R) as Htot. pose proof (rk_cap _ _ R) as Hcap.
  destruct (bool_decide (k ∈ s_tab s !!! chain_of s (ent_hash k))) eqn:Ein; [apply bool_decide_eq_true in Ein|apply bool_decide_eq_false in Ein]; rewrite (chain_has _ _ _ _ Hok) in Ein.
  - destruct Ein as [e He]. rewrite He. pose proof (note_again_ok smem (shard_of k) last s c k e ver now local expiry oid incarn seq Hok He ltac:(lia) H0) as N.
    destruct (note_again smem s c k e ver now local expiry oid incarn seq) as [s' c']. destruct N as (N1 & N2 & N3 & e' & N4 & N5 & N6 & N7).
    assert (c' R_n = c R_n /\ c' R_lost_upto_s = c R_lost_upto_s) as [D1 D2] by (split; apply (only_at _ _ _ _ N2); not_listed). split.
    + eapply put_shard_ok; [exact R|lia|exact Hs|done|unfold held; lia|unfold load, held in *; lia].
    + apply (put_noted last r k s); try done; [lia|left; exists e'; rewrite N4, lookup_insert_eq; split_and!; [done|lia|done|tauto|intros x Hx; rewrite He in Hx; injection Hx as <-; split; [lia|tauto]]|].
      intros x ex Hne Hx. left. by rewrite N4, lookup_insert_ne.
  - assert (s_ents s !! k = None) as He by (destruct (s_ents s !! k) as [e|]; [exfalso; apply Ein; by eexists|done]).
    pose proof (make_room_ok (shard_of k) last r s c now expiry Hok ltac:(lia) ltac:(unfold held in *; lia)) as M. destruct (make_room r s c now expiry) as [[[s1 c1] fg]|].
    2: { subst expiry. set (c' := lost_at now (count_early 1 c)). destruct (lost_at_le now (count_early 1 c) ltac:(word_lia)) as [L1 L2].
         rewrite (only_at _ _ _ R_lost_upto_s (count_early_only 1 c)) in L1 by not_listed.
         assert (c' R_n = c R_n) as D1 by (unfold c'; rewrite (only_at _ _ _ _ (lost_at_only now (count_early 1 c))) by not_listed; apply (only_at _ _ _ _ (count_early_only 1 c)); not_listed). split.
         - eapply put_shard_ok; [exact R|lia|exact Hs|eapply shard_later; [done|lia]|lia|lia].
         - apply (put_noted last r k s); try done; [fold c' in L1; lia|by right|intros; by left]. }
    destruct M as (M1 & [P1 P2 P3 P4] & M2 & M3 & M4). destruct emem; cbn [negb].
    + assert (zlen (s_order s1) + 1 < 2 ^ 32 /\ sum_over load (r_sh r) - load s + load s1 <= r_max r /\ sum_over load (r_sh r) - load s + Z.max 0 (held s1) <= r_max r) as (B1 & B2 & B3).
      { pose proof (sum_held_load (r_sh r)) as [S1 _]. pose proof (rk_max _ _ R). destruct (Z.lt_ge_cases (c R_n) (r_max r)) as [Hlt|Hge]; [specialize (M3 Hlt)|specialize (M4 Hge)]; unfold load, held in *; lia. }
      pose proof (note_new_ok smem last s1 c1 k ver now local expiry oid incarn seq M1 (P3 k He) ltac:(lia) H0 B1) as N.
      destruct (note_new smem s1 c1 k ver now local expiry oid incarn seq) as [s2 c2]. destruct N as (N1 & N2 & N3 & N4 & e' & N5 & N6 & N7 & N8).
      assert (c2 R_lost_upto_s = c1 R_lost_upto_s) as D2 by (apply (only_at _ _ _ _ N4); not_listed). assert (held s2 = held s1 + 1) as H2 by (unfold held; rewrite N2, zlen_app; done).
      assert (c2 R_n = c1 R_n + 1) as D1 by (rewrite N3; apply u32_id; pose proof (held_nonneg s); pose proof (held_nonneg s1); unfold held in *; word_lia). split.
      * eapply put_shard_ok; [exact R|lia|exact Hs|done|lia|]. assert (load s2 = Z.max 0 (held s1)) by (unfold load; lia). lia.
      * apply (put_noted last r k s); try done; [lia|left; exists e'; rewrite N5, lookup_insert_eq; split_and!; [done|lia|done|congruence|intros x Hx; congruence]|].
        intros x ex Hne Hx. rewrite N5, lookup_insert_ne, D2 by done. by apply P2.
    + set (c' := lost_at now (count_early expiry c1)). destruct (lost_at_le now (count_early expiry c1) ltac:(word_lia)) as [L1 L2].
      rewrite (only_at _ _ _ R_lost_upto_s (count_early_only expiry c1)) in L1 by not_listed. fold c' in L1, L2.
      assert (c' R_n = c1 R_n) as D1 by (unfold c'; rewrite (only_at _ _ _ _ (lost_at_only now (count_early expiry c1))) by not_listed; apply (only_at _ _ _ _ (count_early_only expiry c1)); not_listed). split.
      * eapply put_shard_ok; [exact R|lia|exact Hs|eapply shard_later; [done|lia]|lia|lia].
      * apply (put_noted last r k s); try done; [lia|by right|]. intros x ex Hne Hx. destruct (P2 x ex Hx) as [?|[[?|?] ?]]; [by left|right; auto|right; split; [right; lia|done]].
Qed.

(** ** Letting go *)

(** [s'] is [s] less entries that [go] let go. *)
Record dropped (go : ent -> Prop) (i : nat) (last : Z) (s : shard) (c : counters) (s' : shard) (c' : counters) : Prop := {
  dr_ok : shard_ok i last s';
  dr_ents : forall x e, s_ents s !! x = Some e -> s_ents s' !! x = Some e \/ (s_ents s' !! x = None /\ go e);
  dr_sub : forall x e, s_ents s' !! x = Some e -> s_ents s !! x = Some e;
  dr_held : held s' <= held s;
  dr_n : c' R_n = c R_n - held s + held s';
  dr_lost : c' R_lost_upto_s = c R_lost_upto_s
}.

Lemma dropped_refl go i last s c : shard_ok i last s -> dropped go i last s c s c.
Proof. intros H. split; try done; [eauto|lia]. Qed.

Lemma dropped_trans go i last s c s1 c1 s2 c2 : dropped go i last s c s1 c1 -> dropped go i last s1 c1 s2 c2 -> dropped go i last s c s2 c2.
Proof.
  intros [A1 A2 A3 A4 A5 A6] [B1 B2 B3 B4 B5 B6]. split; try done; try lia; [|eauto]. intros x e Hx. destruct (A2 x e Hx) as [H|[H Hg]].
  - by apply B2.
  - right. split; [|done]. destruct (s_ents s2 !! x) as [e2|] eqn:E; [|done]. apply B3 in E. congruence.
Qed.

(** Marking touches neither count. *)
Definition mark_ok (mark : shard -> ent -> counters * list fgot -> counters * list fgot) : Prop :=
  forall s e (c : counters) fg, only [R_time_hi_s] c (mark s e (c, fg)).1.

Lemma marked mark s e (c : counters) fg c1 fg1 : mark_ok mark -> mark s e (c, fg) = (c1, fg1) -> c1 R_n = c R_n /\ c1 R_lost_upto_s = c R_lost_upto_s.
Proof. intros H E. pose proof (H s e c fg) as Hm. rewrite E in Hm. split; apply (only_at _ _ _ _ Hm); not_listed. Qed.

Lemma no_mark_ok : mark_ok no_mark.
Proof. intros s e c fg. apply only_refl. Qed.

Lemma time_mark_ok : mark_ok time_mark.
Proof. intros s e c fg. unfold time_mark. destruct (_ =? 0); [|apply only_refl]. cbn. unfold time_dropped, cmax. destruct (_ >? _); [apply only_cset; in_list|apply only_refl]. Qed.

Section DropWhile.
Context (i : nat) (last : Z) (hd : shard -> option ekey) (go : ent -> bool) (mark : shard -> ent -> counters * list fgot -> counters * list fgot).
Context (P : ent -> Prop).
Hypothesis Hmark : mark_ok mark.
Hypothesis Hhead : forall s k e, shard_ok i last s -> hd s = Some k -> s_ents s !! k = Some e -> P e.

Lemma drop_while_ok fuel : forall s (c : counters) fg n, shard_ok i last s -> held s <= c R_n < 2 ^ 32 ->
  let '(s', c', fg', n') := drop_while fuel hd go mark s c fg n in dropped (fun e => go e = true /\ P e) i last s c s' c'.
Proof.
  induction fuel as [|fuel IH]; intros s c fg n Hok Hc; cbn [drop_while]; [by apply dropped_refl|].
  destruct (hd s) as [k|] eqn:Eh; [|by apply dropped_refl]. destruct (s_ents s !! k) as [e|] eqn:He; [|by apply dropped_refl]. destruct (go e) eqn:Eg; [|by apply dropped_refl].
  destruct (mark s e (c, fg)) as [c1 fg1] eqn:Em. destruct (marked _ _ _ _ _ _ _ Hmark Em) as [C1 C2].
  pose proof (ent_drop_ok i last s c1 k e Hok He ltac:(unfold held in *; lia)) as D. destruct (ent_drop s c1 k e) as [s2 c2]. destruct D as (D1 & D2 & D3 & D4 & D5).
  assert (held s2 = held s - 1) as Hd by (unfold held; rewrite D3; apply unlink_len; [apply (so_order _ _ _ Hok)|apply (in_order _ _ _ _ Hok); by eexists]).
  pose proof (held_nonneg s2). assert (c2 R_n = c R_n - 1) as C3 by (rewrite D4, C1; apply u32_id; word_lia).
  specialize (IH s2 c2 fg1 (n + 1) D1 ltac:(lia)). destruct (drop_while fuel hd go mark s2 c2 fg1 (n + 1)) as [[[s3 c3] fg3] n3]. eapply dropped_trans; [|exact IH].
  split; [done| | |lia|lia|rewrite <- C2; apply (only_at _ _ _ _ D5); not_listed].
  - intros x ex Hx. rewrite D2. destruct (decide (x = k)) as [->|Hne]; [right; rewrite lookup_delete_eq; rewrite He in Hx; injection Hx as <-; eauto|left; by rewrite lookup_delete_ne].
  - intros x ex Hx. rewrite D2 in Hx. by apply lookup_delete_Some in Hx as [_ ?].
Qed.

(** With the fuel it gets, it stops at an entry that stays or at the end. *)
Lemma drop_while_end fuel : (forall s k, shard_ok i last s -> hd s = Some k -> is_Some (s_ents s !! k)) ->
  forall s (c : counters) fg n, shard_ok i last s -> held s <= c R_n < 2 ^ 32 -> (size (s_ents s) < fuel)%nat ->
  let '(s', c', fg', n') := drop_while fuel hd go mark s c fg n in forall k, hd s' = Some k -> exists e, s_ents s' !! k = Some e /\ go e = false.
Proof.
  intros Hhd. induction fuel as [|fuel IH]; intros s c fg n Hok Hc Hf; [lia|]. cbn [drop_while]. destruct (hd s) as [k|] eqn:Eh; [|intros k Hk; congruence].
  destruct (Hhd s k Hok Eh) as [e He]. rewrite He. destruct (go e) eqn:Eg; [|intros k' Hk; rewrite Eh in Hk; injection Hk as <-; eauto].
  destruct (mark s e (c, fg)) as [c1 fg1] eqn:Em. destruct (marked _ _ _ _ _ _ _ Hmark Em) as [C1 _].
  pose proof (ent_drop_ok i last s c1 k e Hok He ltac:(unfold held in *; lia)) as D. destruct (ent_drop s c1 k e) as [s2 c2]. destruct D as (D1 & D2 & D3 & D4 & D5).
  assert (held s2 = held s - 1) as Hd by (unfold held; rewrite D3; apply unlink_len; [apply (so_order _ _ _ Hok)|apply (in_order _ _ _ _ Hok); by eexists]).
  pose proof (held_nonneg s2). assert (c2 R_n = c R_n - 1) as C3 by (rewrite D4, C1; apply u32_id; word_lia).
  apply (IH s2 c2 fg1 (n + 1) D1 ltac:(lia)). rewrite D2, map_size_delete_Some by (by eexists). pose proof (map_size_ne_0_lookup_2 (s_ents s) k ltac:(by eexists)). lia.
Qed.

End DropWhile.

(** All shards, each losing what [go] lets go. *)
Record all_dropped (go : shard -> ent -> Prop) (last : Z) (l : list shard) (c : counters) (l' : list shard) (c' : counters) : Prop := {
  ad_len : length l' = length l;
  ad_each : forall j s s', l !! j = Some s -> l' !! j = Some s' ->
    (forall x e, s_ents s !! x = Some e -> s_ents s' !! x = Some e \/ (s_ents s' !! x = None /\ go s e)) /\ (forall x e, s_ents s' !! x = Some e -> s_ents s !! x = Some e);
  ad_n : c' R_n = c R_n - sum_over held l + sum_over held l';
  ad_load : sum_over load l' <= sum_over load l;
  ad_lost : c' R_lost_upto_s = c R_lost_upto_s
}.

Lemma each_shard_ok f go last l : forall i0 (c : counters) fg n,
  (forall i s (c : counters) fg, shard_ok i last s -> held s <= c R_n < 2 ^ 32 -> let '(s', c', _, _) := f s c fg in dropped (go s) i last s c s' c') ->
  (forall j s, l !! j = Some s -> shard_ok (i0 + j) last s) -> sum_over held l <= c R_n < 2 ^ 32 ->
  let '(l', c', fg', n') := each_shard f l c fg n in all_dropped go last l c l' c' /\ forall j s, l' !! j = Some s -> shard_ok (i0 + j) last s.
Proof.
  induction l as [|s l IH]; intros i0 c fg n Hf Hl Hc; cbn [each_shard]; [split; [split; try done; cbn; lia|done]|].
  pose proof (Hl 0%nat s eq_refl) as Hs. rewrite Nat.add_0_r in Hs. change (sum_over held (s :: l)) with (held s + sum_over held l) in Hc.
  assert (0 <= sum_over held l) as Hp by (clear; induction l as [|x l IH]; [done|]; change (sum_over held (x :: l)) with (held x + sum_over held l); pose proof (held_nonneg x); lia).
  pose proof (Hf i0 s c fg Hs ltac:(pose proof (held_nonneg s); lia)) as D. destruct (f s c fg) as [[[s' c1] fg1] m]. destruct D as [D1 D2 D3 D4 D5 D6].
  pose proof (held_nonneg s'). specialize (IH (S i0) c1 fg1 (n + m) Hf ltac:(intros j x Hx; replace (S i0 + j)%nat with (i0 + S j)%nat by lia; by apply Hl) ltac:(lia)).
  destruct (each_shard f l c1 fg1 (n + m)) as [[[l' c2] fg2] n2]. destruct IH as [[E1 E2 E3 E4 E5] E6]. split; [split|].
  - cbn. by rewrite E1.
  - intros [|j] x x' Hx Hx'; cbn in Hx, Hx'; [injection Hx as <-; injection Hx' as <-; by split|by eapply E2].
  - change (sum_over held (s :: l)) with (held s + sum_over held l). change (sum_over held (s' :: l')) with (held s' + sum_over held l'). lia.
  - change (sum_over load (s :: l)) with (load s + sum_over load l). change (sum_over load (s' :: l')) with (load s' + sum_over load l'). unfold load at 1 3. lia.
  - congruence.
  - intros [|j] x Hx; cbn in Hx; [injection Hx as <-; by rewrite Nat.add_0_r|]. replace (i0 + S j)%nat with (S i0 + j)%nat by lia. by apply E6.
Qed.

(** A table that lost what [go] lets go, and nothing else changed. *)
Record let_go (go : shard -> ent -> Prop) (r r' : retain) : Prop := {
  lg_conf : r_on r' = r_on r /\ r_retain_s r' = r_retain_s r /\ r_max r' = r_max r;
  lg_lost : r_c r' R_lost_upto_s = r_c r R_lost_upto_s;
  lg_ents : forall x e, entry r x = Some e -> entry r' x = Some e \/ (entry r' x = None /\ exists s, r_sh r !! shard_of x = Some s /\ go s e);
  lg_sub : forall x e, entry r' x = Some e -> entry r x = Some e
}.

Lemma shards_let_go f go last r c' fg' l' n' n : retain_ok last r ->
  (forall i s (c : counters) fg, shard_ok i last s -> held s <= c R_n < 2 ^ 32 -> let '(s', c', _, _) := f s c fg in dropped (go s) i last s c s' c') ->
  each_shard f (r_sh r) (r_c r) (r_fg r) n = (l', c', fg', n') -> forall c2 fg2, only [R_forgot; R_forgot_exp] c' c2 ->
  let r' := mk_retain (r_on r) (r_retain_s r) (r_max r) l' c2 fg2 in retain_ok last r' /\ let_go go r r'.
Proof.
  intros R Hf E c2 fg2 Hc2 r'. pose proof (each_shard_ok f go last (r_sh r) 0 (r_c r) (r_fg r) n Hf (rk_sh _ _ R) ltac:(rewrite (rk_n _ _ R); pose proof (total_small _ _ R); lia)) as H.
  rewrite E in H. destruct H as [[E1 E2 E3 E4 E5] E6]. assert (c2 R_n = c' R_n /\ c2 R_lost_upto_s = c' R_lost_upto_s) as [C1 C2] by (split; apply (only_at _ _ _ _ Hc2); not_listed). split.
  - split; unfold r'; cbn [r_sh r_c r_max]; [by rewrite E1, (rk_len _ _ R)|done|rewrite C1, E3, (rk_n _ _ R); lia|pose proof (rk_cap _ _ R); lia|apply R].
  - split; [done|cbn; congruence|..]; intros x e; unfold entry; cbn [r' r_sh].
    + destruct (r_sh r !! shard_of x) as [s|] eqn:Es; [|done]. cbn. intros Hx. destruct (lookup_lt_is_Some_2 l' (shard_of x)) as [s' Hs']; [rewrite E1; by eapply lookup_lt_Some|]. rewrite Hs'. cbn. destruct (proj1 (E2 _ _ _ Es Hs') x e Hx) as [?|[? ?]]; eauto.
    + destruct (l' !! shard_of x) as [s'|] eqn:Es'; [|done]. cbn. intros Hx. destruct (lookup_lt_is_Some_2 (r_sh r) (shard_of x)) as [s Hs]; [rewrite <- E1; by eapply lookup_lt_Some|]. rewrite Hs. cbn. by apply (E2 _ _ _ Hs Es').
Qed.

Lemma let_go_refl go r : let_go go r r.
Proof. split; auto. Qed.

Lemma x_head i last s k e : shard_ok i last s -> head (s_xorder s) = Some k -> s_ents s !! k = Some e -> e_expiry e = 1.
Proof.
  intros H Hk He. rewrite (od_x _ _ _ _ _ (so_order _ _ _ H)) in Hk. apply head_Some_elem_of in Hk. apply list_elem_of_filter in Hk as [Hx _].
  unfold is_x in Hx. rewrite (fmap_at when _ _ _ He) in Hx. by injection Hx.
Qed.

Lemma sp_head i last s j k e : shard_ok i last s -> (x ← s_sp s !! j; head (sp_list x)) = Some k -> s_ents s !! k = Some e -> e_spi e = j /\ e_nseq e <> 0.
Proof.
  intros H Hk He. destruct (s_sp s !! j) as [x|] eqn:Ex; [|done]. cbn in Hk. apply head_Some_elem_of in Hk.
  destruct (sk_list _ _ (so_space _ _ _ H) _ _ _ Ex Hk) as (q & Hq & Hn). rewrite (fmap_at num _ _ _ He) in Hq. unfold num in Hq. injection Hq as -> ->. done.
Qed.

(** What each of the three lets go. *)
Definition expired (r : retain) (now : Z) (s : shard) (e : ent) : Prop := r_retain_s r <= u32 (now - e_t e).
Definition reaped (now hold_s : Z) (s : shard) (e : ent) : Prop := e_expiry e = 1 /\ hold_s <= u32 (now - e_t e).
Definition forgotten_of (oid incarn upto : Z) (s : shard) (e : ent) : Prop :=
  spl_find (s_sp s) oid incarn = Some (e_spi e) /\ e_nseq e <> 0 /\ e_nseq e <= upto.

Lemma dropped_sub (go go' : ent -> Prop) i last s c s' c' : (forall e, go e -> go' e) -> dropped go i last s c s' c' -> dropped go' i last s c s' c'.
Proof. intros H [A1 A2 A3 A4 A5 A6]. split; try done. intros x e Hx. destruct (A2 x e Hx) as [?|[? ?]]; eauto. Qed.

Lemma expire_ok last r now : retain_ok last r -> retain_ok last (clretain_expire r now) /\ let_go (expired r now) r (clretain_expire r now).
Proof.
  intros R. unfold clretain_expire. destruct (negb (r_on r)); [split; [done|apply let_go_refl]|].
  destruct (each_shard (expire_shard (r_retain_s r) now) (r_sh r) (r_c r) (r_fg r) 0) as [[[l c] fg] n] eqn:E. refine (shards_let_go _ (expired r now) _ _ _ _ _ _ _ R _ E c fg (only_refl _ _)).
  intros i s c0 fg0 Hs Hc. unfold expire_shard.
  pose proof (drop_while_ok i last (fun s => head (s_order s)) (fun e => u32 (now - e_t e) >=? r_retain_s r) time_mark (fun _ => True) time_mark_ok ltac:(done) (drop_fuel s) s c0 fg0 0 Hs Hc) as H.
  destruct (drop_while _ _ _ _ s c0 fg0 0) as [[[s' c'] fg'] n']. eapply dropped_sub; [|exact H]. intros e [He _]. unfold expired. lia.
Qed.

Lemma reap_ok last r now hold_s : retain_ok last r ->
  retain_ok last (clretain_expire_expiries r now hold_s) /\ let_go (reaped now hold_s) r (clretain_expire_expiries r now hold_s).
Proof.
  intros R. unfold clretain_expire_expiries. destruct (negb (r_on r)); [split; [done|apply let_go_refl]|].
  destruct (each_shard (expire_expiries_shard now hold_s) (r_sh r) (r_c r) (r_fg r) 0) as [[[l c] fg] n] eqn:E. refine (shards_let_go _ (reaped now hold_s) _ _ _ _ _ _ _ R _ E _ fg _).
  - intros i s c0 fg0 Hs Hc. unfold expire_expiries_shard.
    pose proof (drop_while_ok i last (fun s => head (s_xorder s)) (fun e => u32 (now - e_t e) >=? hold_s) no_mark (fun e => e_expiry e = 1) no_mark_ok (x_head i last) (drop_fuel s) s c0 fg0 0 Hs Hc) as H.
    destruct (drop_while _ _ _ _ s c0 fg0 0) as [[[s' c'] fg'] n']. eapply dropped_sub; [|exact H]. intros e [He Hx]. unfold reaped. split; [done|lia].
  - destruct (n =? 0); [apply only_refl|apply only_cadd; in_list].
Qed.

Lemma forget_ok last r oid incarn upto now : retain_ok last r ->
  retain_ok last (clretain_forget r oid incarn upto now).1 /\ let_go (forgotten_of oid incarn upto) r (clretain_forget r oid incarn upto now).1.
Proof.
  intros R. unfold clretain_forget. destruct (negb (r_on r) || (upto =? 0)); [split; [done|apply let_go_refl]|].
  destruct (each_shard (forget_shard oid incarn upto) (r_sh r) (r_c r) (r_fg r) 0) as [[[l c] fg] n] eqn:E.
  assert (forall i s (c : counters) fg, shard_ok i last s -> held s <= c R_n < 2 ^ 32 -> let '(s', c', _, _) := forget_shard oid incarn upto s c fg in dropped (forgotten_of oid incarn upto s) i last s c s' c') as Hf.
  { intros i s c0 fg0 Hs Hc. unfold forget_shard. destruct (spl_find (s_sp s) oid incarn) as [j|] eqn:Ej; [|by apply dropped_refl].
    pose proof (drop_while_ok i last (fun s => x ← s_sp s !! j; head (sp_list x)) (fun e => e_nseq e <=? upto) no_mark (fun e => e_spi e = j /\ e_nseq e <> 0) no_mark_ok
      ltac:(intros s1 k e H1 H2 H3; by eapply sp_head) (drop_fuel s) s c0 fg0 0 Hs Hc) as H.
    destruct (drop_while _ _ _ _ s c0 fg0 0) as [[[s' c'] fg'] n']. eapply dropped_sub; [|exact H]. intros e [He [Hj Hx]]. unfold forgotten_of. rewrite Hj. split_and!; [done|done|lia]. }
  destruct (n =? 0); refine (shards_let_go _ (forgotten_of oid incarn upto) _ _ _ _ _ _ _ R Hf E _ _ _); [apply only_refl|apply only_cadd; in_list].
Qed.

(** ** The start *)

Lemma nb_for_ge fuel : forall nb per, 0 < nb -> nb <= nb_for fuel nb per.
Proof.
  induction fuel as [|fuel IH]; intros nb per H; cbn; [lia|]. destruct (_ && _); [|lia]. rewrite Z.shiftl_mul_pow2 by lia. specialize (IH (nb * 2 ^ 1) per ltac:(lia)). lia.
Qed.

Lemma shard0_ok i nb : 0 < nb -> shard_ok i 0 (shard0 nb).
Proof.
  intros H. split; cbn.
  - split; [intros E; apply (f_equal length) in E; rewrite length_replicate in E; cbn in E; lia| |]; intros k; rewrite fmap_empty, lookup_empty.
    + rewrite list_lookup_total_alt. set (j := Z.to_nat _). destruct (replicate (Z.to_nat nb) [] !! j) as [x|] eqn:E; cbn.
      * apply lookup_replicate in E as [-> _]. split; [by intros ?%not_elem_of_nil|by intros [? ?]].
      * split; [by intros ?%not_elem_of_nil|by intros [? ?]].
    + by intros [? ?].
  - rewrite fmap_empty. split; [apply NoDup_nil_2| |done|done|constructor|].
    + intros k. rewrite lookup_empty. split; [by intros ?%not_elem_of_nil|by intros [? ?]].
    + by intros k ?%not_elem_of_nil.
  - rewrite fmap_empty. split; intros; done.
Qed.

Lemma retain_init_ok r retain_s max tmem : max <= 2 ^ 32 - 66 -> r_on (clretain_init r retain_s max tmem) = true -> retain_ok 0 (clretain_init r retain_s max tmem).
Proof.
  unfold clretain_init. intros Hmax. destruct (negb _) eqn:Eb; [done|]. cbn [r_on]. intros Hon. apply negb_false_iff, andb_true_iff in Eb as [_ Eb].
  set (nb := nb_for 15 64 _). assert (0 < nb) as Hnb by (pose proof (nb_for_ge 15 64 (u32 (max + NSHARD - 1) / NSHARD) ltac:(lia)); unfold nb; lia). clearbody nb.
  assert (forall n a, forallb tmem (seq a n) = true -> (fun i => shard0 (if tmem i then nb else 0)) <$> seq a n = replicate n (shard0 nb)) as Hall.
  { induction n as [|n IH]; intros a Ha; [done|]. cbn in Ha |- *. apply andb_true_iff in Ha as [-> Ha]. f_equal. by apply IH. }
  rewrite (Hall _ _ Hon). split; cbn [r_sh r_c r_max].
  - by rewrite length_replicate.
  - intros i s Hi. apply lookup_replicate in Hi as [-> _]. by apply shard0_ok.
  - rewrite <- (Z2Nat.id 0) at 1 by lia. vm_compute. done.
  - change (sum_over load (replicate (Z.to_nat NSHARD) (shard0 nb))) with 0. lia.
  - done.
Qed.

(** ** A run *)

Inductive rop :=
  | ONote (smem emem : bool) (k : ekey) (ver now : Z) (local : bool) (expiry oid incarn seq : Z)
  | OExpire (now : Z)
  | OReap (now hold_s : Z)
  | OForget (oid incarn upto now : Z).

Definition rstep (r : retain) (o : rop) : retain :=
  match o with
  | ONote smem emem k ver now local expiry oid incarn seq => note_in smem emem r k ver now local expiry oid incarn seq
  | OExpire now => clretain_expire r now
  | OReap now hold_s => clretain_expire_expiries r now hold_s
  | OForget oid incarn upto now => (clretain_forget r oid incarn upto now).1
  end.

Definition op_now (o : rop) : Z :=
  match o with ONote _ _ _ _ now _ _ _ _ _ => now | OExpire now => now | OReap now _ => now | OForget _ _ _ now => now end.

(** The clock does not run backwards. *)
Fixpoint clocked (last : Z) (ops : list rop) (now : Z) : Prop :=
  match ops with [] => last <= now < 2 ^ 32 | o :: ops => last <= op_now o /\ clocked (op_now o) ops now end.

Lemma clocked_end ops : forall last now, clocked last ops now -> last <= now < 2 ^ 32.
Proof. induction ops as [|o ops IH]; intros last now H; [done|]. destruct H as [H1 H2]. apply IH in H2. lia. Qed.

Lemma clocked_app a : forall last b now, clocked last (a ++ b) now -> exists mid, clocked last a mid /\ clocked mid b now.
Proof.
  induction a as [|o a IH]; intros last b now H; cbn in *; [exists last; split; [|done]; apply clocked_end in H; lia|]. destruct H as [H1 H2]. destruct (IH _ _ _ H2) as (mid & ? & ?). eauto.
Qed.

Lemma noteable_dec r k ver smem emem now local expiry oid incarn seq : noteable r k ver \/ note_in smem emem r k ver now local expiry oid incarn seq = r.
Proof.
  unfold noteable, note_in. destruct (r_on r); cbn [negb orb]; [|by right]. destruct (Z.eqb_spec ver 0); cbn [orb]; [by right|].
  rewrite !Z.gtb_ltb. destruct (Z.ltb_spec 255 (zlen (fst k))); cbn [orb]; [by right|]. destruct (Z.ltb_spec 4096 (zlen (snd k))); cbn [orb]; [by right|]. left. split_and!; done.
Qed.

Lemma off_stays r o : r_on r = false -> rstep r o = r.
Proof. intros H. destruct o; cbn; unfold note_in, clretain_expire, clretain_expire_expiries, clretain_forget; by rewrite H. Qed.

Lemma retain_later last now r : retain_ok last r -> last <= now -> retain_ok now r.
Proof. intros [H1 H2 H3 H4 H5] H. split; try done. intros i s Hs. eapply shard_later; eauto. Qed.

Lemma rstep_ok last r o : retain_ok last r -> 0 <= last <= op_now o -> op_now o < 2 ^ 32 -> retain_ok (op_now o) (rstep r o).
Proof.
  intros R H0 H1. destruct o as [smem emem k ver now local expiry oid incarn seq|now|now hold_s|oid incarn upto now]; cbn in *.
  - destruct (noteable_dec r k ver smem emem now local expiry oid incarn seq) as [Hn| ->]; [|by apply (retain_later last); [|lia]]. apply (note_in_ok last); try done; lia.
  - apply (retain_later last); [|lia]. by apply expire_ok.
  - apply (retain_later last); [|lia]. by apply reap_ok.
  - apply (retain_later last); [|lia]. by apply forget_ok.
Qed.

Lemma rstep_conf last r o : retain_ok last r -> 0 <= last <= op_now o -> op_now o < 2 ^ 32 ->
  r_on (rstep r o) = r_on r /\ r_retain_s (rstep r o) = r_retain_s r /\ r_max (rstep r o) = r_max r.
Proof.
  intros R H0 H1. destruct o as [smem emem k ver now local expiry oid incarn seq|now|now hold_s|oid incarn upto now]; cbn in *.
  - destruct (noteable_dec r k ver smem emem now local expiry oid incarn seq) as [Hn| ->]; [|done].
    destruct (note_in_ok last r smem emem k ver now local expiry oid incarn seq) as [_ N]; try done; try lia. destruct N as [(? & ? & ?) ? _ _]. done.
  - destruct (expire_ok last r now R) as [_ [(? & ? & ?) ? _ _] ]. done.
  - destruct (reap_ok last r now hold_s R) as [_ [(? & ? & ?) ? _ _] ]. done.
  - destruct (forget_ok last r oid incarn upto now R) as [_ [(? & ? & ?) ? _ _] ]. done.
Qed.

(** The call that says the delete's space is confirmed as far as the entry's number. *)
Definition confirms (o : rop) (r : retain) (k : ekey) (ver : Z) : Prop :=
  match o with
  | OForget oid incarn upto _ => exists s e, r_sh r !! shard_of k = Some s /\ s_ents s !! k = Some e /\ ver <= e_ver e /\ forgotten_of oid incarn upto s e
  | _ => False
  end.

Fixpoint confirmed (ops : list rop) (r : retain) (k : ekey) (ver : Z) : Prop :=
  match ops with [] => False | o :: ops => confirms o r k ver \/ confirmed ops (rstep r o) k ver end.

(** The delete [ver] of [k] planted at [t] is held, or counted as lost, or its time is over. *)
Definition kept (k : ekey) (ver t last : Z) (r : retain) : Prop :=
  (exists e, entry r k = Some e /\ ver <= e_ver e /\ t <= e_t e /\ e_expiry e = 0) \/ t <= r_c r R_lost_upto_s \/ r_retain_s r <= last - t.

Lemma ent_last i last s k e : shard_ok i last s -> s_ents s !! k = Some e -> 0 <= e_t e <= last.
Proof.
  intros Hok He. pose proof (od_last _ _ _ _ _ (so_order _ _ _ Hok) k ltac:(apply (in_order _ _ _ _ Hok); by eexists)) as H. unfold planted in H. by rewrite (fmap_at when _ _ _ He) in H.
Qed.

Lemma entry_last last r k e : retain_ok last r -> entry r k = Some e -> 0 <= e_t e <= last.
Proof. intros R He. destruct (shard_there _ _ k R) as (s & Hs & Hok). rewrite (entry_at _ _ _ Hs) in He. by eapply ent_last. Qed.

Lemma let_go_kept go last now r r' k ver t : let_go go r r' -> kept k ver t last r -> last <= now ->
  (forall s e, r_sh r !! shard_of k = Some s -> s_ents s !! k = Some e -> ver <= e_ver e -> t <= e_t e -> e_expiry e = 0 -> go s e -> r_retain_s r <= now - t) -> kept k ver t now r'.
Proof.
  intros [(_ & L1 & _) L2 L3 _] H Hl Hgo. unfold kept in *. rewrite L2, L1. destruct H as [(e & He & Hv & Ht & Hx)|[H|H]]; [|by right; left|right; right; lia].
  destruct (L3 _ _ He) as [H|[_ (s & Hs & Hg)]]; [left; eauto|]. right; right. rewrite (entry_at _ _ _ Hs) in He. eauto.
Qed.

Lemma kept_step last r o k ver t : retain_ok last r -> 0 <= last <= op_now o -> op_now o < 2 ^ 32 -> 0 <= t <= last -> kept k ver t last r ->
  kept k ver t (op_now o) (rstep r o) \/ confirms o r k ver.
Proof.
  intros R H0 H1 Ht Hk. destruct o as [smem emem k' ver' now local expiry oid incarn seq|now|now hold_s|oid incarn upto now]; cbn in *.
  - left. destruct (noteable_dec r k' ver' smem emem now local expiry oid incarn seq) as [Hn| ->].
    2: { destruct Hk as [?|[?|?]]; [by left|by right; left|right; right; lia]. }
    destruct (note_in_ok last r smem emem k' ver' now local expiry oid incarn seq) as [_ N]; try done; try lia. destruct N as [(_ & N1 & _) N2 N3 N4].
    destruct Hk as [(e & He & Hv & Hte & Hx)|[?|?]]; [|right; left; lia|right; right; rewrite N1; lia]. destruct (decide (k = k')) as [->|Hne].
    + destruct N3 as [(e' & E1 & E2 & E3 & _ & E4)|[E1 _]]; [|congruence]. destruct (E4 e He) as [E5 E6]. left. exists e'. split_and!; [done|lia|lia|auto].
    + destruct (N4 k e Hne He) as [?|[[?|?] _]]; [left; eauto|right; right; lia|right; left; lia].
  - left. destruct (expire_ok last r now R) as [_ L]. eapply let_go_kept; [exact L|done|lia|]. intros s e Hs He _ Hte _ Hg. unfold expired in Hg.
    pose proof (entry_last last r k e R ltac:(by rewrite (entry_at _ _ _ Hs))). rewrite u32_id in Hg by word_lia. lia.
  - left. destruct (reap_ok last r now hold_s R) as [_ L]. eapply let_go_kept; [exact L|done|lia|]. intros s e _ _ _ _ Hx [Hg _]. lia.
  - destruct (forget_ok last r oid incarn upto now R) as [_ L]. destruct Hk as [(e & He & Hv & Hte & Hx)|Hk].
    + destruct (lg_ents _ _ _ L _ _ He) as [H|[_ (s & Hs & Hg)]]; [left; left; eauto|]. right. exists s, e. by rewrite <- (entry_at _ _ _ Hs).
    + left. right. rewrite (lg_lost _ _ _ L). destruct (lg_conf _ _ _ L) as (_ & -> & _). destruct Hk; [by left|right; lia].
Qed.

Lemma kept_run ops : forall last r k ver t now, retain_ok last r -> 0 <= t <= last -> clocked last ops now -> kept k ver t last r ->
  confirmed ops r k ver \/ kept k ver t now (foldl rstep r ops).
Proof.
  induction ops as [|o ops IH]; intros last r k ver t now R Ht Hc Hk; cbn in *.
  - right. destruct Hk as [?|[?|?]]; [by left|by right; left|right; right; lia].
  - destruct Hc as [H1 H2]. pose proof (clocked_end _ _ _ H2) as H3. destruct (kept_step last r o k ver t R ltac:(lia) ltac:(lia) Ht Hk) as [Hk'|Hcf]; [|by left; left].
    destruct (IH (op_now o) (rstep r o) k ver t now) as [?|?]; [apply (rstep_ok last); try done; lia|lia|done|done|left; by right|by right].
Qed.

Lemma retain_run_ok ops : forall last r now, retain_ok last r -> 0 <= last -> clocked last ops now ->
  retain_ok now (foldl rstep r ops) /\ r_on (foldl rstep r ops) = r_on r /\ r_retain_s (foldl rstep r ops) = r_retain_s r /\ r_max (foldl rstep r ops) = r_max r.
Proof.
  induction ops as [|o ops IH]; intros last r now R H0 Hc; cbn in *; [split_and!; [apply (retain_later last); [done|lia]|done|done|done]|].
  destruct Hc as [H1 H2]. pose proof (clocked_end _ _ _ H2) as H3. destruct (rstep_conf last r o R ltac:(lia) ltac:(lia)) as (C1 & C2 & C3).
  destruct (IH (op_now o) (rstep r o) now) as (D1 & D2 & D3 & D4); [apply (rstep_ok last); try done; lia|lia|done|]. split_and!; congruence.
Qed.

Lemma off_run ops : forall r, r_on r = false -> foldl rstep r ops = r.
Proof. induction ops as [|o ops IH]; intros r H; [done|]. cbn. rewrite off_stays by done. by apply IH. Qed.

Lemma enabled_start ops r : clretain_enabled (foldl rstep r ops) = true -> r_on r = true.
Proof. intros H. destruct (r_on r) eqn:E; [done|]. rewrite off_run in H by done. unfold clretain_enabled in H. congruence. Qed.

(** The newest version an entry in its time tells. *)
Lemma get_of last r k e now : retain_ok last r -> last <= now < 2 ^ 32 -> r_on r = true -> entry r k = Some e -> now - e_t e < r_retain_s r -> clretain_get r k now = e_ver e.
Proof.
  intros R Hn Hon He Ht. pose proof (entry_last _ _ _ _ R He). unfold clretain_get. rewrite Hon. cbn [negb]. destruct (shard_there _ _ k R) as (s & Hs & Hok). rewrite Hs. rewrite (entry_at _ _ _ Hs) in He.
  assert (s_n s <> 0) as Hz. { rewrite (order_n _ _ _ Hok). assert (k ∈ s_order s) as Hin by (apply (in_order _ _ _ _ Hok); by eexists). destruct (s_order s); [by apply not_elem_of_nil in Hin|]. rewrite zlen_cons. pose proof (zlen_nonneg l). lia. }
  rewrite (proj2 (Z.eqb_neq _ _) Hz), bool_decide_eq_true_2 by (apply (chain_has _ _ _ _ Hok); by eexists). rewrite He, u32_id by word_lia. by rewrite (proj2 (Z.ltb_lt _ _) Ht).
Qed.

Lemma kept_told last r k ver t now : retain_ok last r -> 0 <= t <= last -> last <= now < 2 ^ 32 -> r_on r = true -> kept k ver t last r -> clretain_complete_since r now < t -> ver <= clretain_get r k now.
Proof.
  intros R Ht Hn Hon Hk. unfold clretain_complete_since. rewrite Hon. cbn [negb]. rewrite !Z.gtb_ltb. intros Hc.
  assert (r_c r R_lost_upto_s < t /\ now - r_retain_s r < t) as [Hl Hr].
  { destruct (Z.ltb_spec (r_retain_s r) now) as [E1|E1]; [set (x := now - r_retain_s r) in *|set (x := 0) in *]; destruct (Z.ltb_spec x (r_c r R_lost_upto_s)); subst x; lia. }
  destruct Hk as [(e & He & Hv & Hte & _)|[?|?]]; [|lia|lia]. rewrite (get_of last r k e now); try done. lia.
Qed.

(** ** What a replay tells *)

Lemma elem_flat_map {A B} (f : A -> list B) l y : y ∈ flat_map f l <-> exists j x, l !! j = Some x /\ y ∈ f x.
Proof.
  induction l as [|x l IH]; cbn; [split; [by intros ?%not_elem_of_nil|by intros (? & ? & ? & _)]|]. rewrite elem_of_app, IH. split.
  - intros [H|(j & z & H1 & H2)]; [by exists 0%nat, x|by exists (S j), z].
  - intros ([|j] & z & H1 & H2); cbn in H1; [injection H1 as ->; by left|right; eauto].
Qed.

Definition to_tell (since upto : Z) (e : ent) : bool := (since <? e_t e) && (e_t e <=? upto) && negb (e_local e).

(** The walk stops at the first entry later than [upto], behind which there is none to tell. *)
Lemma each_walk_exact s l since upto y : StronglySorted (fun a b => planted (when <$> s_ents s) a <= planted (when <$> s_ents s) b) l ->
  y ∈ each_walk s l since upto <-> exists k e, k ∈ l /\ s_ents s !! k = Some e /\ to_tell since upto e = true /\ y = tell s k e.
Proof.
  unfold to_tell. induction 1 as [|k l Hl IH Hk]; cbn [each_walk]; [split; [by intros ?%not_elem_of_nil|by intros (? & ? & ?%not_elem_of_nil & _)]|].
  destruct (s_ents s !! k) as [e|] eqn:He.
  2: { rewrite IH. split; intros (k' & e' & H1 & H2); [exists k', e'; split; [by right|done]|]. apply elem_of_cons in H1 as [->|H1]; [destruct H2; congruence|eauto]. }
  destruct (Z.leb_spec (e_t e) since) as [B|B].
  { rewrite IH. split; intros (k' & e' & H1 & H2 & H3 & H4); [exists k', e'; split; [by right|done]|]. apply elem_of_cons in H1 as [->|H1]; [|eauto 10]. rewrite He in H2. injection H2 as <-. rewrite (proj2 (Z.ltb_ge _ _)) in H3 by lia. done. }
  rewrite Z.gtb_ltb. destruct (Z.ltb_spec upto (e_t e)) as [B2|B2].
  { split; [by intros ?%not_elem_of_nil|]. intros (k' & e' & H1 & H2 & H3 & _). exfalso. rewrite !andb_true_iff in H3. assert (e_t e <= e_t e'); [|lia]. apply elem_of_cons in H1 as [->|H1]; [rewrite He in H2; injection H2 as <-; lia|].
    rewrite Forall_forall in Hk. specialize (Hk k' H1). unfold planted in Hk. by rewrite (fmap_at when _ _ _ He), (fmap_at when _ _ _ H2) in Hk. }
  destruct (e_local e) eqn:El; [rewrite IH|rewrite elem_of_cons, IH]; split.
  - intros (k' & e' & H1 & H2). exists k', e'. split; [by right|done].
  - intros (k' & e' & H1 & H2 & H3 & H4). apply elem_of_cons in H1 as [->|H1]; [|eauto 10]. rewrite He in H2. injection H2 as <-. rewrite El, andb_false_r in H3. done.
  - intros [->|(k' & e' & H1 & H2)]; [exists k, e; rewrite El, (proj2 (Z.ltb_lt _ _)), (proj2 (Z.leb_le _ _)) by lia; split; [by left|done]|exists k', e'; split; [by right|done]].
  - intros (k' & e' & H1 & H2 & H3 & H4). apply elem_of_cons in H1 as [->|H1]; [left; congruence|right; eauto 10].
Qed.

Lemma each_exact last r since upto y : retain_ok last r -> r_on r = true ->
  y ∈ clretain_each r since upto <-> exists k s e, r_sh r !! shard_of k = Some s /\ s_ents s !! k = Some e /\ to_tell since upto e = true /\ y = tell s k e.
Proof.
  intros R Hon. unfold clretain_each. rewrite Hon. cbn [negb]. rewrite elem_flat_map. split.
  - intros (j & s & Hs & Hy). pose proof (rk_sh _ _ R _ _ Hs) as Hok. apply each_walk_exact in Hy; [|apply (so_order _ _ _ Hok)]. destruct Hy as (k & e & H1 & H2 & H3 & H4). exists k, s, e.
    assert (shard_of k = j) as ->; [|done]. apply (ix_home _ _ _ (so_index _ _ _ Hok)). rewrite lookup_fmap, H2. by eexists.
  - intros (k & s & e & Hs & He & Ht & Hy). exists (shard_of k), s. split; [done|]. pose proof (rk_sh _ _ R _ _ Hs) as Hok. apply each_walk_exact; [apply (so_order _ _ _ Hok)|].
    exists k, e. split_and!; try done. apply (in_order _ _ _ _ Hok). by eexists.
Qed.

(** ** The time rule *)

Lemma each_shard_all (Q : shard -> Prop) f go last l : forall i0 (c : counters) fg n,
  (forall i s (c : counters) fg, shard_ok i last s -> held s <= c R_n < 2 ^ 32 -> let '(s', c', _, _) := f s c fg in dropped (go s) i last s c s' c' /\ Q s') ->
  (forall j s, l !! j = Some s -> shard_ok (i0 + j) last s) -> sum_over held l <= c R_n < 2 ^ 32 ->
  let '(l', c', fg', n') := each_shard f l c fg n in forall j s, l' !! j = Some s -> Q s.
Proof.
  induction l as [|s l IH]; intros i0 c fg n Hf Hl Hc; cbn [each_shard]; [done|].
  pose proof (Hl 0%nat s eq_refl) as Hs. rewrite Nat.add_0_r in Hs. change (sum_over held (s :: l)) with (held s + sum_over held l) in Hc.
  assert (0 <= sum_over held l) as Hp by (clear; induction l as [|x l IH]; [done|]; change (sum_over held (x :: l)) with (held x + sum_over held l); pose proof (held_nonneg x); lia).
  pose proof (Hf i0 s c fg Hs ltac:(pose proof (held_nonneg s); lia)) as D. destruct (f s c fg) as [[[s' c1] fg1] m]. destruct D as [[D1 D2 D3 D4 D5 D6] DQ].
  pose proof (held_nonneg s'). specialize (IH (S i0) c1 fg1 (n + m) Hf ltac:(intros j x Hx; replace (S i0 + j)%nat with (i0 + S j)%nat by lia; by apply Hl) ltac:(lia)).
  destruct (each_shard f l c1 fg1 (n + m)) as [[[l' c2] fg2] n2]. intros [|j] x Hx; cbn in Hx; [by injection Hx as <-|by eapply IH].
Qed.

Lemma order_head i last s k : shard_ok i last s -> head (s_order s) = Some k -> is_Some (s_ents s !! k).
Proof. intros H Hk. apply (in_order _ _ _ _ H). by apply head_Some_elem_of. Qed.

(** The oldest is at the head: when it stays, all stay. *)
Lemma head_in_time i last s (now d : Z) : shard_ok i last s -> last <= now -> (forall k, head (s_order s) = Some k -> exists e, s_ents s !! k = Some e /\ now - e_t e < d) ->
  forall k e, s_ents s !! k = Some e -> now - e_t e < d.
Proof.
  intros H Hn Hh k e He. assert (k ∈ s_order s) as Hin by (apply (in_order _ _ _ _ H); by eexists). pose proof (od_sorted _ _ _ _ _ (so_order _ _ _ H)) as Hs.
  destruct (s_order s) as [|x l]; [by apply not_elem_of_nil in Hin|]. destruct (Hh x eq_refl) as (ex & Hx & Hxt). apply StronglySorted_inv in Hs as [_ Hs].
  apply elem_of_cons in Hin as [->|Hin]; [congruence|]. rewrite Forall_forall in Hs. specialize (Hs k Hin). unfold planted in Hs. rewrite (fmap_at when _ _ _ Hx), (fmap_at when _ _ _ He) in Hs. cbn in Hs. lia.
Qed.

Lemma expire_none_left last r now : retain_ok last r -> last <= now < 2 ^ 32 -> r_on r = true -> forall k e, entry (clretain_expire r now) k = Some e -> now - e_t e < r_retain_s r.
Proof.
  intros R Hn Hon. unfold clretain_expire. rewrite Hon. cbn [negb].
  pose proof (each_shard_all (fun s => forall k e, s_ents s !! k = Some e -> now - e_t e < r_retain_s r) (expire_shard (r_retain_s r) now) (fun _ _ => True) last (r_sh r) 0 (r_c r) (r_fg r) 0) as H.
  destruct (each_shard (expire_shard (r_retain_s r) now) (r_sh r) (r_c r) (r_fg r) 0) as [[[l c] fg] n]. intros k e He. unfold entry in He. cbn [r_sh] in He. destruct (l !! shard_of k) as [s|] eqn:Es; [|done].
  refine (H _ (rk_sh _ _ R) _ _ _ Es k e He); [|rewrite (rk_n _ _ R); pose proof (total_small _ _ R); lia].
  clear - Hn. intros i s c fg Hs Hc. unfold expire_shard. set (go := fun e => u32 (now - e_t e) >=? r_retain_s r). set (hd := fun s => head (s_order s)).
  pose proof (drop_while_ok i last hd go time_mark (fun _ => True) time_mark_ok ltac:(done) (drop_fuel s) s c fg 0 Hs Hc) as H1.
  pose proof (drop_while_end i last hd go time_mark time_mark_ok (drop_fuel s) (order_head i last) s c fg 0 Hs Hc ltac:(unfold drop_fuel; lia)) as H2.
  destruct (drop_while _ _ _ _ s c fg 0) as [[[s' c'] fg'] n']. split; [by eapply dropped_sub; [|exact H1]|]. eapply (head_in_time i last); [apply H1|lia|].
  intros k Hk. destruct (H2 k Hk) as (e & He & Hg). exists e. split; [done|]. pose proof (ent_last _ _ _ _ _ (dr_ok _ _ _ _ _ _ _ H1) He). unfold go in Hg. rewrite u32_id in Hg by word_lia. lia.
Qed.

(** * The promises *)

(** The promise of [clretain_complete_since], along a run. *)
Lemma complete_run retain_s max tmem smem emem k ver t local oid incarn seq pre post now :
  max <= 2 ^ 32 - 66 -> ver <> 0 -> zlen (fst k) <= 255 -> zlen (snd k) <= 4096 ->
  let note := ONote smem emem k ver t local 0 oid incarn seq in
  clocked 0 (pre ++ note :: post) now ->
  let r1 := foldl rstep (clretain_init retain0 retain_s max tmem) (pre ++ [note]) in
  let r := foldl rstep r1 post in
  ver <= clretain_get r k now \/ confirmed post r1 k ver \/ t <= clretain_complete_since r now.
Proof.
  intros Hmax Hv Hc Hk note Hcl r1 r. apply clocked_app in Hcl as (mid & Hp & [H1 H2]). cbn in H1, H2. set (r0 := clretain_init retain0 retain_s max tmem) in *.
  pose proof (clocked_end _ _ _ Hp) as Hm. pose proof (clocked_end _ _ _ H2) as Hn.
  destruct (r_on r0) eqn:Hon; [|right; right; unfold r, r1; rewrite !off_run by (rewrite ?off_run; done); unfold clretain_complete_since; rewrite Hon; cbn [negb]; lia].
  pose proof (retain_init_ok retain0 retain_s max tmem Hmax Hon) as R0. fold r0 in R0. destruct (retain_run_ok pre 0 r0 mid R0 ltac:(lia) Hp) as (R1 & Hon1 & _).
  assert (r1 = note_in smem emem (foldl rstep r0 pre) k ver t local 0 oid incarn seq) as E1 by (unfold r1; rewrite foldl_app; done).
  destruct (note_in_ok mid (foldl rstep r0 pre) smem emem k ver t local 0 oid incarn seq R1 ltac:(lia) ltac:(lia)) as [R2 [(N0 & _) N1 N2 _]]; [split_and!; [congruence|done|done|done]|]. rewrite <- E1 in *.
  assert (kept k ver t t r1) as Hkp by (destruct N2 as [(e & E2 & E3 & E4 & E5 & _)|[_ ?]]; [left; exists e; split_and!; [done|done|lia|auto]|by right; left]).
  destruct (retain_run_ok post t r1 now R2 ltac:(lia) H2) as (R3 & Hon3 & _). fold r in R3, Hon3. destruct (kept_run post t r1 k ver t now R2 ltac:(lia) H2 Hkp) as [?|Hkr]; [by right; left|]. fold r in Hkr.
  destruct (Z.lt_ge_cases (clretain_complete_since r now) t) as [Hlt|?]; [|right; right; lia]. left. apply (kept_told now r k ver t now); try done; [lia|lia|congruence].
Qed.

(** C35. The table keeps the promise of [clretain_complete_since].  From the start, after
    any calls that note deletes and expiries, let them go by time, reap expiries and
    forget confirmed spaces, with a clock that does not run backwards and whatever
    allocations fail: a delete of [k] at version [ver], planted at [t] with a key the
    table takes, is after any further calls either told by [clretain_get] with a version
    at least [ver], or was let go by a [clretain_forget] that covers its number, or [t] is
    no later than the second [clretain_complete_since] returns. *)
Theorem retain_complete retain_s max tmem smem emem k ver t local oid incarn seq pre post now :
  max <= 2 ^ 32 - 66 -> ver <> 0 -> zlen (fst k) <= 255 -> zlen (snd k) <= 4096 ->
  let note := ONote smem emem k ver t local 0 oid incarn seq in
  clocked 0 (pre ++ note :: post) now ->
  let r1 := foldl rstep (clretain_init retain0 retain_s max tmem) (pre ++ [note]) in
  let r := foldl rstep r1 post in
  ver <= clretain_get r k now \/ confirmed post r1 k ver \/ t <= clretain_complete_since r now.
Proof. exact (complete_run retain_s max tmem smem emem k ver t local oid incarn seq pre post now). Qed.

(** At the cap expiries give way first.  In every state that calls reach, noting [k]
    takes no entry of another key that is a delete or a kept expiry, except when the note
    is not a plain expiry and no plain expiry is in the shard; and the table never holds
    more than [max] entries and one for each of the 64 shards. *)
Theorem retain_expiries_first retain_s max tmem ops smem emem k ver now local expiry oid incarn seq :
  max <= 2 ^ 32 - 66 -> clocked 0 ops now ->
  let r := foldl rstep (clretain_init retain0 retain_s max tmem) ops in
  let r' := note_in smem emem r k ver now local expiry oid incarn seq in
  (forall x e, x <> k -> entry r x = Some e -> e_expiry e <> 1 ->
     entry r' x = Some e \/ (expiry <> 1 /\ forall y ey, shard_of y = shard_of k -> entry r y = Some ey -> e_expiry ey <> 1)) /\
  (clretain_enabled r' = true -> r_c r' R_n = sum_over held (r_sh r') /\ r_c r' R_n <= max + NSHARD).
Proof.
  intros Hmax Hcl r r'. set (r0 := clretain_init retain0 retain_s max tmem) in *. pose proof (clocked_end _ _ _ Hcl) as Hn.
  destruct (r_on r0) eqn:Hon.
  2: { assert (r = r0) as E by (by apply off_run). assert (r' = r0) as E' by (unfold r'; rewrite E; unfold note_in; by rewrite Hon). rewrite E, E'. split; [by left|]. unfold clretain_enabled. congruence. }
  pose proof (retain_init_ok retain0 retain_s max tmem Hmax Hon) as R0. fold r0 in R0. destruct (retain_run_ok ops 0 r0 now R0 ltac:(lia) Hcl) as (R1 & Hon1 & _ & Hm1). fold r in R1, Hon1, Hm1.
  assert (r_max r0 = max) as Hm0 by (unfold r0, clretain_init; by destruct (negb _)).
  destruct (rstep_conf now r (ONote smem emem k ver now local expiry oid incarn seq) R1 ltac:(cbn; lia) ltac:(cbn; lia)) as (_ & _ & Hm2). cbn [rstep] in Hm2. fold r' in Hm2.
  pose proof (rstep_ok now r (ONote smem emem k ver now local expiry oid incarn seq) R1 ltac:(cbn; lia) ltac:(cbn; lia)) as R2. cbn [rstep op_now] in R2. fold r' in R2. split.
  - intros x e Hne He Hx. destruct (noteable_dec r k ver smem emem now local expiry oid incarn seq) as [Hno|Eq]; [|left; unfold r'; by rewrite Eq].
    destruct (note_in_ok now r smem emem k ver now local expiry oid incarn seq R1 ltac:(lia) ltac:(lia) Hno) as [_ N]. destruct (na_others _ _ _ _ _ _ N x e Hne He) as [?|[_ [?|?]]]; [by left|done|by right].
  - intros _. split; [apply R2|]. pose proof (rk_n _ _ R2). pose proof (rk_cap _ _ R2). pose proof (sum_held_load (r_sh r')). unfold zlen in *. rewrite (rk_len _ _ R2) in *. change (Z.of_nat (Z.to_nat NSHARD)) with NSHARD in *. lia.
Qed.

(** A peer that comes back is told of what it missed, all of it and nothing else.  In
    every state that calls reach, [clretain_each] for the seconds after [since] up to
    [upto] hands out exactly the entries planted then that are not the node's own, each
    with its version, its kind and its space's number; and the walk, which stops at the
    first entry too late, misses none. *)
Theorem retain_each_exact retain_s max tmem ops now since upto :
  max <= 2 ^ 32 - 66 -> clocked 0 ops now ->
  let r := foldl rstep (clretain_init retain0 retain_s max tmem) ops in
  clretain_enabled r = true -> forall y,
  y ∈ clretain_each r since upto <->
  exists k s e, r_sh r !! shard_of k = Some s /\ s_ents s !! k = Some e /\ since < e_t e <= upto /\ e_local e = false /\ y = tell s k e.
Proof.
  intros Hmax Hcl r Hen y. set (r0 := clretain_init retain0 retain_s max tmem) in *. pose proof (enabled_start ops r0 Hen) as Hon.
  destruct (retain_run_ok ops 0 r0 now (retain_init_ok _ _ _ _ Hmax Hon) ltac:(lia) Hcl) as (R1 & _). fold r in R1. rewrite (each_exact now r since upto y R1 Hen). unfold to_tell.
  split; intros (k & s & e & H1 & H2 & H3); exists k, s, e; rewrite !andb_true_iff, negb_true_iff, Z.ltb_lt, Z.leb_le in *; tauto.
Qed.

(** The time rule takes exactly what is over.  In every state that calls reach,
    [clretain_expire] at [now] leaves an entry precisely when it was planted less than
    [retain_s] seconds before, although each shard's walk stops at the first that stays. *)
Theorem retain_expire_exact retain_s max tmem ops now :
  max <= 2 ^ 32 - 66 -> clocked 0 ops now ->
  let r := foldl rstep (clretain_init retain0 retain_s max tmem) ops in
  clretain_enabled r = true -> forall k e,
  entry (clretain_expire r now) k = Some e <-> entry r k = Some e /\ now - e_t e < clretain_retain_s r.
Proof.
  intros Hmax Hcl r Hen k e. set (r0 := clretain_init retain0 retain_s max tmem) in *. pose proof (enabled_start ops r0 Hen) as Hon.
  pose proof (clocked_end _ _ _ Hcl) as Hn. destruct (retain_run_ok ops 0 r0 now (retain_init_ok _ _ _ _ Hmax Hon) ltac:(lia) Hcl) as (R1 & _). fold r in R1. destruct (expire_ok now r now R1) as [_ [_ _ L1 L2] ]. split.
  - intros H. split; [by apply L2|]. by apply (expire_none_left now r now R1 ltac:(lia) Hen k).
  - intros [He Ht]. destruct (L1 k e He) as [?|[_ (s & _ & Hg)]]; [done|]. unfold expired, clretain_retain_s in *. pose proof (entry_last _ _ _ _ R1 He). rewrite u32_id in Hg by word_lia. lia.
Qed.

(** ** On a small table *)

Definition ka : ekey := ([97], [1]).
Definition kb : ekey := ([97], [2]).
Definition small : retain := clretain_init retain0 10 2 (fun _ => true).
Definition note_a : rop := ONote true true ka 7 3 false 0 0 0 0.
Definition then_b : list rop := [ONote true true kb 9 5 false 1 0 0 0; OExpire 6].

Example small_tells : clretain_get (foldl rstep small (note_a :: then_b)) ka 12 = 7 /\ clretain_complete_since (foldl rstep small (note_a :: then_b)) 12 = 2.
Proof. vm_compute. done. Qed.

(** The header says the table is capped at [max] entries: a shard with none takes one past the cap. *)
Example past_the_cap : r_c (foldl rstep (clretain_init retain0 10 1 (fun _ => true)) [note_a; ONote true true kb 9 5 false 0 0 0 0]) R_n = 2.
Proof. vm_compute. done. Qed.

Lemma then_b_clocked : clocked 0 (note_a :: then_b) 12.
Proof. cbn. lia. Qed.

Lemma retain_complete_witness :
  7 <= clretain_get (foldl rstep (foldl rstep small [note_a]) then_b) ka 12 \/ confirmed then_b (foldl rstep small [note_a]) ka 7 \/
  3 <= clretain_complete_since (foldl rstep (foldl rstep small [note_a]) then_b) 12.
Proof. refine (retain_complete 10 2 (fun _ => true) true true ka 7 3 false 0 0 0 [] then_b 12 _ _ _ _ then_b_clocked); [lia|lia|vm_compute; discriminate|vm_compute; discriminate]. Defined.

Lemma retain_expiries_first_witness :
  let r := foldl rstep small (note_a :: then_b) in
  let r' := note_in true true r kb 10 12 false 1 0 0 0 in
  (forall x e, x <> kb -> entry r x = Some e -> e_expiry e <> 1 ->
     entry r' x = Some e \/ (1 <> 1 /\ forall y ey, shard_of y = shard_of kb -> entry r y = Some ey -> e_expiry ey <> 1)) /\
  (clretain_enabled r' = true -> r_c r' R_n = sum_over held (r_sh r') /\ r_c r' R_n <= 2 + NSHARD).
Proof. refine (retain_expiries_first 10 2 (fun _ => true) (note_a :: then_b) true true kb 10 12 false 1 0 0 0 _ then_b_clocked). lia. Defined.

Lemma retain_each_exact_witness : forall y, y ∈ clretain_each (foldl rstep small (note_a :: then_b)) 2 12 <->
  exists k s e, r_sh (foldl rstep small (note_a :: then_b)) !! shard_of k = Some s /\ s_ents s !! k = Some e /\ 2 < e_t e <= 12 /\ e_local e = false /\ y = tell s k e.
Proof. refine (retain_each_exact 10 2 (fun _ => true) (note_a :: then_b) 12 2 12 _ then_b_clocked _); [lia|vm_compute; reflexivity]. Defined.

Lemma retain_expire_exact_witness : forall k e, entry (clretain_expire (foldl rstep small (note_a :: then_b)) 12) k = Some e <->
  entry (foldl rstep small (note_a :: then_b)) k = Some e /\ 12 - e_t e < clretain_retain_s (foldl rstep small (note_a :: then_b)).
Proof. refine (retain_expire_exact 10 2 (fun _ => true) (note_a :: then_b) 12 _ then_b_clocked _); [lia|vm_compute; reflexivity]. Defined.
