(* ===== verification/ArenaCell.v ===== *)
(** The cell layer of the arena ([core/pcache_arena.c]).

    A chunk is one 256 KB slot cut into cells of one size class.  A cell is at one of four
    places: with a user, on a thread's private free stack, in the unused rest of the chunk
    a thread is carving, or home on its chunk's free list.  Chunks with cells home are on
    their class's stack ([avail]) or are the class's current one ([cur]).

    Slots come from the layer below, of which this one knows the operations and the laws of
    [SlotSource]: a slot taken is aligned and was not in use, and stays in use until it is
    given back, whatever else that layer does ([ss_step]).

    A pointer is its address.  A free list, linked through its cells, is the list of its
    cells, and a stack of chunks the list of theirs; [a_byte0] is the first byte of each
    cell, the only one the allocator reads of a cell it does not own.  Each operation is
    one step; a thread's [my_palloc] and its stripe are entries of [a_pl] and [a_stripe].
    The backing is the file's own allocator; the sanitizer's and the debug build's calls
    have no effect on this state. *)

From Stdlib Require Import ZArith Lia.
From stdpp Require Import base tactics list numbers gmap.
From S2P Require Import Prelude HtBase.
#[local] Open Scope Z_scope.

Definition PCACHE_SLOT : Z := Z.shiftl 1 18.
Definition PCACHE_SLOT_MASK : Z := Z.lnot (PCACHE_SLOT - 1).
Definition PCACHE_CHUNK_HDR : Z := 64.
Definition PCACHE_REFILL_BATCH : Z := 32.
Definition PCACHE_PRIVATE_MAX : Z := 256.
Definition PCACHE_DONATE : nat := 128.
Definition PCACHE_LIVE_STRIPES : nat := 64.

(** * What the slot layer promises *)

Class SlotSource (E Sl : Type) := {
  ss_take : E -> Sl -> Sl * option Z;
  ss_give : Sl -> Z -> Sl;
  ss_tick : Sl -> Z;
  ss_next : Sl -> Sl;
  ss_ok : Sl -> Prop;
  ss_used : Sl -> Z -> Prop;
  ss_step : Sl -> Sl -> Prop;
  ss_take_ok : forall e s, ss_ok s -> ss_ok (ss_take e s).1;
  ss_take_some : forall e s ch, ss_ok s -> (ss_take e s).2 = Some ch ->
    0 < ch /\ ch mod PCACHE_SLOT = 0 /\ ~ ss_used s ch /\ forall x, ss_used (ss_take e s).1 x <-> x = ch \/ ss_used s x;
  ss_take_none : forall e s, ss_ok s -> (ss_take e s).2 = None -> forall x, ss_used (ss_take e s).1 x <-> ss_used s x;
  ss_give_ok : forall s ch, ss_ok s -> ss_used s ch -> ss_ok (ss_give s ch);
  ss_give_used : forall s ch, ss_ok s -> ss_used s ch -> forall x, ss_used (ss_give s ch) x <-> x <> ch /\ ss_used s x;
  ss_next_ok : forall s, ss_ok s -> ss_ok (ss_next s);
  ss_next_used : forall s x, ss_used (ss_next s) x <-> ss_used s x;
  ss_step_ok : forall s s', ss_ok s -> ss_step s s' -> ss_ok s';
  ss_step_used : forall s s', ss_ok s -> ss_step s s' -> forall x, ss_used s' x <-> ss_used s x
}.

(** * State *)

Record chunk := mk_chunk {
  ch_cls : nat; ch_cell_size : Z; ch_cells : Z; ch_free : list Z; ch_nfree : Z; ch_in_avail : bool; ch_home_since : Z; ch_sparse : bool
}.

(** A class of a thread's allocator; [p_bump] is 0 for [NULL]. *)
Record pclass := mk_pclass { p_bump : Z; p_left : Z; p_free : list Z; p_nfree : Z }.

Definition palloc0 : list pclass := replicate PCACHE_NCLASSES (mk_pclass 0 0 [] 0).

Section Cells.
Context {E Sl : Type} `{!SlotSource E Sl}.

Record arena := mk_arena {
  a_sl : Sl; a_chunks : gmap Z chunk; a_byte0 : gmap Z nat;
  a_avail : list (list Z); a_cur : list (option Z); a_chunks_cls : list Z; a_chunks_peak_cls : list Z;
  a_live : list Z; a_live_next : Z; a_sparse_chunks : Z; a_evacuated : Z; a_chunks_retired : Z;
  a_pl : gmap nat (list pclass); a_stripe : gmap nat nat
}.

Definition set_sl (s : Sl) (a : arena) : arena :=
  mk_arena s (a_chunks a) (a_byte0 a) (a_avail a) (a_cur a) (a_chunks_cls a) (a_chunks_peak_cls a) (a_live a) (a_live_next a) (a_sparse_chunks a) (a_evacuated a) (a_chunks_retired a) (a_pl a) (a_stripe a).
Definition set_chunks (m : gmap Z chunk) (a : arena) : arena :=
  mk_arena (a_sl a) m (a_byte0 a) (a_avail a) (a_cur a) (a_chunks_cls a) (a_chunks_peak_cls a) (a_live a) (a_live_next a) (a_sparse_chunks a) (a_evacuated a) (a_chunks_retired a) (a_pl a) (a_stripe a).
Definition set_byte0 (m : gmap Z nat) (a : arena) : arena :=
  mk_arena (a_sl a) (a_chunks a) m (a_avail a) (a_cur a) (a_chunks_cls a) (a_chunks_peak_cls a) (a_live a) (a_live_next a) (a_sparse_chunks a) (a_evacuated a) (a_chunks_retired a) (a_pl a) (a_stripe a).
Definition set_avail (l : list (list Z)) (a : arena) : arena :=
  mk_arena (a_sl a) (a_chunks a) (a_byte0 a) l (a_cur a) (a_chunks_cls a) (a_chunks_peak_cls a) (a_live a) (a_live_next a) (a_sparse_chunks a) (a_evacuated a) (a_chunks_retired a) (a_pl a) (a_stripe a).
Definition set_cur (c : nat) (x : option Z) (a : arena) : arena :=
  mk_arena (a_sl a) (a_chunks a) (a_byte0 a) (a_avail a) (<[c := x]> (a_cur a)) (a_chunks_cls a) (a_chunks_peak_cls a) (a_live a) (a_live_next a) (a_sparse_chunks a) (a_evacuated a) (a_chunks_retired a) (a_pl a) (a_stripe a).
Definition set_counts (n p : list Z) (a : arena) : arena :=
  mk_arena (a_sl a) (a_chunks a) (a_byte0 a) (a_avail a) (a_cur a) n p (a_live a) (a_live_next a) (a_sparse_chunks a) (a_evacuated a) (a_chunks_retired a) (a_pl a) (a_stripe a).
Definition set_live (l : list Z) (n : Z) (st : gmap nat nat) (a : arena) : arena :=
  mk_arena (a_sl a) (a_chunks a) (a_byte0 a) (a_avail a) (a_cur a) (a_chunks_cls a) (a_chunks_peak_cls a) l n (a_sparse_chunks a) (a_evacuated a) (a_chunks_retired a) (a_pl a) st.
Definition set_stats (sp ev re : Z) (a : arena) : arena :=
  mk_arena (a_sl a) (a_chunks a) (a_byte0 a) (a_avail a) (a_cur a) (a_chunks_cls a) (a_chunks_peak_cls a) (a_live a) (a_live_next a) sp ev re (a_pl a) (a_stripe a).
Definition set_pl (m : gmap nat (list pclass)) (a : arena) : arena :=
  mk_arena (a_sl a) (a_chunks a) (a_byte0 a) (a_avail a) (a_cur a) (a_chunks_cls a) (a_chunks_peak_cls a) (a_live a) (a_live_next a) (a_sparse_chunks a) (a_evacuated a) (a_chunks_retired a) m (a_stripe a).

Definition put_chunk (ch : Z) (k : chunk) (a : arena) : arena := set_chunks (<[ch := k]> (a_chunks a)) a.
Definition put_class (t : nat) (c : nat) (p : pclass) (a : arena) : arena := set_pl (alter (fun l => <[c := p]> l) t (a_pl a)) a.
Definition class_of (a : arena) (t c : nat) : pclass := default (mk_pclass 0 0 [] 0) (l ← a_pl a !! t; l !! c).

Definition k_home (cell : Z) (k : chunk) : chunk :=
  mk_chunk (ch_cls k) (ch_cell_size k) (ch_cells k) (cell :: ch_free k) (u32 (ch_nfree k + 1)) (ch_in_avail k) (ch_home_since k) (ch_sparse k).
Definition k_pop (l : list Z) (k : chunk) : chunk :=
  mk_chunk (ch_cls k) (ch_cell_size k) (ch_cells k) l (u32 (ch_nfree k - 1)) (ch_in_avail k) (ch_home_since k) (ch_sparse k).
Definition k_avail (b : bool) (k : chunk) : chunk :=
  mk_chunk (ch_cls k) (ch_cell_size k) (ch_cells k) (ch_free k) (ch_nfree k) b (ch_home_since k) (ch_sparse k).
Definition k_since (t : Z) (k : chunk) : chunk :=
  mk_chunk (ch_cls k) (ch_cell_size k) (ch_cells k) (ch_free k) (ch_nfree k) (ch_in_avail k) t (ch_sparse k).
Definition k_sparse (b : bool) (k : chunk) : chunk :=
  mk_chunk (ch_cls k) (ch_cell_size k) (ch_cells k) (ch_free k) (ch_nfree k) (ch_in_avail k) (ch_home_since k) b.

Definition size_of (c : nat) : Z := default 0 (cell_sizes !! c).

Definition cell_chunk (cell : Z) : Z := Z.land cell PCACHE_SLOT_MASK.

(** The cell a request of [n] bytes takes, for the budget. *)
Definition pcache_arena_cell_size (n : Z) : Z :=
  let idx := Z.shiftr (u64 (n + 31)) 5 in
  if 2048 <? idx then 0 else size_of (Z.to_nat (size2class idx)).

(** * Live bytes *)

Definition live_add (t : nat) (delta : Z) (a : arena) : arena :=
  match a_stripe a !! t with
  | Some s => set_live (alter (fun v => s64 (v + delta)) s (a_live a)) (a_live_next a) (a_stripe a) a
  | None =>
      let s := Z.to_nat (a_live_next a mod Z.of_nat PCACHE_LIVE_STRIPES) in
      set_live (alter (fun v => s64 (v + delta)) s (a_live a)) (u32 (a_live_next a + 1)) (<[t := s]> (a_stripe a)) a
  end.

Definition live_sum (a : arena) : Z :=
  let sum := foldl (fun n v => s64 (n + v)) 0 (a_live a) in if sum >? 0 then sum else 0.

(** * Home *)

Definition avail_push (c : nat) (ch : Z) (a : arena) : arena := set_avail (alter (cons ch) c (a_avail a)) a.

Definition cell_home (cell : Z) (a : arena) : arena :=
  let ch := cell_chunk cell in
  match a_chunks a !! ch with
  | None => a
  | Some k =>
      let c := ch_cls k in
      let k := k_home cell k in
      if negb (ch_nfree k =? 1) then put_chunk ch k a
      else
        let k := k_since (ss_tick (a_sl a)) k in
        if ch_in_avail k then put_chunk ch k a
        else avail_push c ch (put_chunk ch (k_avail true k) a)
  end.

Definition chunk_pop (ch : Z) (a : arena) : arena * option Z :=
  match a_chunks a !! ch with
  | None => (a, None)
  | Some k => match ch_free k with [] => (a, None) | x :: l => (put_chunk ch (k_pop l k) a, Some x) end
  end.

Definition avail_pop (c : nat) (a : arena) : arena * option Z :=
  match a_avail a !! c with
  | Some (ch :: l) => (set_chunks (alter (k_avail false) ch (a_chunks a)) (set_avail (<[c := l]> (a_avail a)) a), Some ch)
  | _ => (a, None)
  end.

(** * Carving *)

Definition cells_in (c : nat) : Z := (PCACHE_SLOT - PCACHE_CHUNK_HDR) / size_of c.
Definition cell_at (ch : Z) (c : nat) (i : nat) : Z := ch + PCACHE_CHUNK_HDR + Z.of_nat i * size_of c.

(** The class byte of every cell is stamped. *)
Definition stamp (ch : Z) (c : nat) (m : gmap Z nat) : gmap Z nat :=
  foldl (fun m i => <[cell_at ch c i := c]> m) m (seq 0 (Z.to_nat (cells_in c))).

Definition bump_counts (c : nat) (a : arena) : arena :=
  let n := alter (fun n => u32 (n + 1)) c (a_chunks_cls a) in
  let v := default 0 (n !! c) in
  set_counts n (alter (fun p => if v >? p then v else p) c (a_chunks_peak_cls a)) a.

Definition carve_chunk (e : E) (c t : nat) (a : arena) : arena * bool :=
  let '(s, got) := ss_take e (a_sl a) in
  let a := set_sl s a in
  match got with
  | None => (a, false)
  | Some ch =>
      let a := put_chunk ch (mk_chunk c (size_of c) (cells_in c) [] 0 false 0 false) a in
      let a := bump_counts c (set_byte0 (stamp ch c (a_byte0 a)) a) in
      let p := class_of a t c in
      (put_class t c (mk_pclass (ch + PCACHE_CHUNK_HDR) (cells_in c) (p_free p) (p_nfree p)) a, true)
  end.

(** The thread's allocator, made on the first use; [false] when there is no memory for it. *)
Definition get_palloc (mem : bool) (t : nat) (a : arena) : arena * bool :=
  match a_pl a !! t with
  | Some _ => (a, true)
  | None => if mem then (set_pl (<[t := palloc0]> (a_pl a)) a, true) else (a, false)
  end.

Fixpoint bump_loop (n : nat) (t c : nat) (a : arena) : arena :=
  match n with
  | O => a
  | S n =>
      let a := cell_home (p_bump (class_of a t c)) a in
      let p := class_of a t c in
      bump_loop n t c (put_class t c (mk_pclass (p_bump p + size_of c) (u32 (p_left p - 1)) (p_free p) (p_nfree p)) a)
  end.

Definition bump_home (t c : nat) (a : arena) : arena :=
  let a := bump_loop (Z.to_nat (p_left (class_of a t c))) t c a in
  let p := class_of a t c in put_class t c (mk_pclass 0 (p_left p) (p_free p) (p_nfree p)) a.

(** * Allocation *)

Definition p_take (l : list Z) (p : pclass) : pclass := mk_pclass (p_bump p) (p_left p) l (u32 (p_nfree p - 1)).
Definition p_push (x : Z) (p : pclass) : pclass := mk_pclass (p_bump p) (p_left p) (x :: p_free p) (u32 (p_nfree p + 1)).

(** A cell off the private stack, else off the rest of the chunk. *)
Definition take_private (t c : nat) (a : arena) : arena * option Z :=
  match p_free (class_of a t c) with
  | x :: l => (live_add t (size_of c) (put_class t c (p_take l (class_of a t c)) a), Some x)
  | [] => (a, None)
  end.

Definition take_bump (t c : nat) (a : arena) : arena * Z :=
  let p := class_of a t c in
  (live_add t (size_of c) (put_class t c (mk_pclass (p_bump p + size_of c) (u32 (p_left p - 1)) (p_free p) (p_nfree p)) a), p_bump p).

(** Up to a batch of the class's home cells; [got] counts them. *)
Fixpoint refill (fuel : nat) (t c : nat) (got : Z) (a : arena) : arena * Z :=
  match fuel with
  | O => (a, got)
  | S fuel =>
      if negb (got <? PCACHE_REFILL_BATCH) then (a, got)
      else
        let '(a, cur) := match default None (a_cur a !! c) with
                         | Some ch => (a, Some ch)
                         | None => let '(a, top) := avail_pop c a in
                                   match top with Some ch => (set_cur c (Some ch) a, Some ch) | None => (a, None) end
                         end in
        match cur with
        | None => (a, got)
        | Some ch =>
            match chunk_pop ch a with
            | (a, None) => refill fuel t c got (set_cur c None a)
            | (a, Some x) => refill fuel t c (got + 1) (put_class t c (p_push x (class_of a t c)) a)
            end
        end
  end.

(** Each turn takes a cell, or an empty current chunk off, which the stack has to replace. *)
Definition refill_fuel (c : nat) (a : arena) : nat := Z.to_nat PCACHE_REFILL_BATCH + S (length (default [] (a_avail a !! c))) + 1.

Definition pcache_cell_alloc (e : E) (mem : bool) (t : nat) (size : Z) (a : arena) : arena * option Z :=
  match cell_class size with
  | None => (a, None)
  | Some c =>
      let c := Z.to_nat c in
      let '(a, ok) := get_palloc mem t a in
      if negb ok then (a, None)
      else
        match take_private t c a with
        | (a, Some x) => (a, Some x)
        | (a, None) =>
            if negb (p_left (class_of a t c) =? 0) then let '(a, x) := take_bump t c a in (a, Some x)
            else
              let '(a, got) := refill (refill_fuel c a) t c 0 a in
              let '(a, ok) := if got =? 0 then carve_chunk e c t a else (a, true) in
              if negb ok then (a, None)
              else match take_private t c a with
                   | (a, Some x) => (a, Some x)
                   | (a, None) => let '(a, x) := take_bump t c a in (a, Some x)
                   end
        end
  end.

(** * Freeing *)

Fixpoint donate (n : nat) (t c : nat) (a : arena) : arena :=
  match n with
  | O => a
  | S n =>
      match p_free (class_of a t c) with
      | [] => a
      | d :: l => donate n t c (cell_home d (put_class t c (p_take l (class_of a t c)) a))
      end
  end.

Definition pcache_cell_free (mem : bool) (t : nat) (cell : Z) (a : arena) : arena :=
  match a_byte0 a !! cell with
  | None => a
  | Some c =>
      if (PCACHE_NCLASSES <=? c)%nat then a
      else
        let a := live_add t (- size_of c) a in
        let '(a, ok) := get_palloc mem t a in
        if negb ok then cell_home cell a
        else
          let a := put_class t c (p_push cell (class_of a t c)) a in
          if p_nfree (class_of a t c) >? PCACHE_PRIVATE_MAX then bump_home t c (donate PCACHE_DONATE t c a) else a
  end.

Definition pcache_cell_free_global (t : nat) (cell : Z) (a : arena) : arena :=
  match a_byte0 a !! cell with
  | None => a
  | Some c => if (PCACHE_NCLASSES <=? c)%nat then a else cell_home cell (live_add t (- size_of c) a)
  end.

(** All a thread has, class by class. *)
Definition flush_class (t c : nat) (a : arena) : arena := bump_home t c (donate (length (p_free (class_of a t c))) t c a).

Definition pcache_arena_flush_private (t : nat) (a : arena) : arena :=
  match a_pl a !! t with None => a | Some _ => foldl (fun a c => flush_class t c a) a (seq 0 PCACHE_NCLASSES) end.

(** A child has its parent's [my_palloc] until it drops it. *)
Definition fork (parent child : nat) (a : arena) : arena :=
  match a_pl a !! parent with Some l => set_pl (<[child := l]> (a_pl a)) a | None => a end.
Definition pcache_arena_child_init (t : nat) (a : arena) : arena := set_pl (delete t (a_pl a)) a.

(** * Evacuation *)

Definition pcache_cell_evacuable (cell : Z) (a : arena) : bool :=
  match a_chunks a !! cell_chunk cell with Some k => ch_sparse k | None => false end.

(** The chunk of the stack with the fewest free cells, of those [ok] takes. *)
Fixpoint densest (ok : chunk -> bool) (src : Z) (l : list Z) (a : arena) (best : option Z) (best_free : Z) : option Z :=
  match l with
  | [] => best
  | ch :: l =>
      match a_chunks a !! ch with
      | None => densest ok src l a best best_free
      | Some k =>
          let nf := ch_nfree k in
          if negb (nf =? 0) && (nf <? ch_cells k) && (nf <? best_free) && ok k && negb (ch =? src)
          then densest ok src l a (Some ch) nf else densest ok src l a best best_free
      end
  end.

Definition dense_target (c : nat) (src : Z) (a : arena) : arena * option Z :=
  let l := default [] (a_avail a !! c) in
  match densest (fun k => negb (ch_sparse k)) src l a None (2 ^ 32 - 1) with
  | Some ch => (a, Some ch)
  | None =>
      match densest (fun _ => true) src l a None (2 ^ 32 - 1) with
      | Some ch => (set_chunks (alter (k_sparse false) ch (a_chunks a)) a, Some ch)
      | None => (a, None)
      end
  end.

Definition pcache_cell_alloc_dense (t : nat) (from size : Z) (a : arena) : arena * option Z :=
  match cell_class size with
  | None => (a, None)
  | Some c =>
      let c := Z.to_nat c in
      let '(a, best) := dense_target c (cell_chunk from) a in
      match best with
      | None => (a, None)
      | Some ch =>
          match chunk_pop ch a with
          | (a, None) => (a, None)
          | (a, Some x) =>
              let a := live_add t (size_of c) a in
              (set_stats (a_sparse_chunks a) (u64 (a_evacuated a + 1)) (a_chunks_retired a) a, Some x)
          end
      end
  end.

(** * The reclaim tick *)

Record reclaim_conf := mk_rconf { rc_keep : Z; rc_quiet_s : Z }.

Definition chunk_retire (ch : Z) (a : arena) : arena :=
  match a_chunks a !! ch with
  | None => a
  | Some k =>
      let c := ch_cls k in
      let a := if decide (default None (a_cur a !! c) = Some ch) then set_cur c None a else a in
      let a := set_sl (ss_give (a_sl a) ch) (set_chunks (delete ch (a_chunks a)) a) in
      let a := set_counts (alter (fun n => u32 (n - 1)) c (a_chunks_cls a)) (a_chunks_peak_cls a) a in
      set_stats (a_sparse_chunks a) (a_evacuated a) (u64 (a_chunks_retired a + 1)) a
  end.

(** The stack taken off, chunk by chunk: drained ones beyond [keep] retired, the rest put
    back.  [lin] counts those a hoard pins, [sp] the sparse ones. *)
Fixpoint reclaim_walk (cf : reclaim_conf) (c : nat) (l : list Z) (kept lin sp : Z) (a : arena) : arena * Z * Z * Z :=
  match l with
  | [] => (a, kept, lin, sp)
  | ch :: l =>
      match a_chunks a !! ch with
      | None => reclaim_walk cf c l kept lin sp a
      | Some k =>
          let full := ch_nfree k =? ch_cells k in
          if full && (kept >=? rc_keep cf) then reclaim_walk cf c l (kept + 1) lin sp (chunk_retire ch a)
          else
            let kept := if full then kept + 1 else kept in
            let quiet := u32 (ss_tick (a_sl a) - ch_home_since k) >=? rc_quiet_s cf in
            let lin := if negb (ch_nfree k =? 0) && (ch_nfree k <? ch_cells k) && quiet then lin + 1 else lin in
            let b := (ch_nfree k <? ch_cells k) && (ch_cells k - ch_cells k / 8 <=? ch_nfree k) && quiet in
            reclaim_walk cf c l kept lin (if b then sp + 1 else sp) (avail_push c ch (put_chunk ch (k_sparse b k) a))
      end
  end.

Definition reclaim_cur (cf : reclaim_conf) (c : nat) (kept : Z) (a : arena) : arena :=
  match default None (a_cur a !! c) with
  | None => a
  | Some ch =>
      match a_chunks a !! ch with
      | None => a
      | Some k => if negb (ch_in_avail k) && (ch_nfree k =? ch_cells k) && (kept >=? rc_keep cf) then chunk_retire ch a else a
      end
  end.

Definition reclaim_class (cf : reclaim_conf) (x : arena * Z * Z) (c : nat) : arena * Z * Z :=
  let '(a, lin, sp) := x in
  let l := default [] (a_avail a !! c) in
  let '(a, kept, lin, sp) := reclaim_walk cf c l 0 lin sp (set_avail (<[c := []]> (a_avail a)) a) in
  (reclaim_cur cf c kept a, lin, sp).

(** The tick as far as the classes go; the second component says whether a hoard lingers. *)
Definition reclaim_tick (cf : reclaim_conf) (a : arena) : arena * bool :=
  let '(a, lin, sp) := foldl (reclaim_class cf) (set_sl (ss_next (a_sl a)) a, 0, 0) (seq 0 PCACHE_NCLASSES) in
  (set_stats sp (a_evacuated a) (a_chunks_retired a) a, negb (lin =? 0)).

Definition arena0 (s : Sl) : arena :=
  mk_arena s ∅ ∅ (replicate PCACHE_NCLASSES []) (replicate PCACHE_NCLASSES None) (replicate PCACHE_NCLASSES 0) (replicate PCACHE_NCLASSES 0)
    (replicate PCACHE_LIVE_STRIPES 0) 0 0 0 0 ∅ ∅.

End Cells.
