(* ===== verification/ArenaCensus.v ===== *)
(** Where every cell of the arena is (over [ArenaCell]).

    The invariant has a map from each cell to its place, and says that the chunks' lists,
    the threads' stacks and the chunks being carved are exactly that map: every cell in
    one place, and only one. *)

From Stdlib Require Import ZArith Lia.
From stdpp Require Import base tactics list numbers gmap.
From S2P Require Import Prelude HtBase ArenaCell.
#[local] Open Scope Z_scope.

(** * Geometry *)

Lemma slot_val : PCACHE_SLOT = 262144.
Proof. done. Qed.

Lemma size_of_range c : (c < PCACHE_NCLASSES)%nat -> 64 <= size_of c <= 262080.
Proof. intros H. unfold PCACHE_NCLASSES in H. do 27 (destruct c as [|c]; [vm_compute; split; discriminate|]). lia. Qed.

Lemma cells_in_range c : (c < PCACHE_NCLASSES)%nat -> 1 <= cells_in c <= 4095 /\ cells_in c * size_of c <= PCACHE_SLOT - PCACHE_CHUNK_HDR.
Proof. intros H. pose proof (size_of_range c H). unfold cells_in. rewrite slot_val. change PCACHE_CHUNK_HDR with 64. split; [split|]; Z.div_mod_to_equations; nia. Qed.

Lemma cell_chunk_mod x : 0 <= x -> cell_chunk x = x - x mod PCACHE_SLOT.
Proof.
  intros H. unfold cell_chunk, PCACHE_SLOT_MASK. rewrite <- Z.ldiff_land. change (PCACHE_SLOT - 1) with (Z.ones 18). rewrite Z.ldiff_ones_r by lia.
  rewrite Z.shiftr_div_pow2, Z.shiftl_mul_pow2 by lia. change (2 ^ 18) with PCACHE_SLOT. rewrite slot_val. Z.div_mod_to_equations; lia.
Qed.

Lemma cell_chunk_at ch c i : 0 < ch -> ch mod PCACHE_SLOT = 0 -> (c < PCACHE_NCLASSES)%nat -> Z.of_nat i < cells_in c -> cell_chunk (cell_at ch c i) = ch.
Proof.
  intros H0 Hm Hc Hi. pose proof (size_of_range c Hc). pose proof (cells_in_range c Hc) as [_ Hr]. unfold cell_at in *. rewrite slot_val in *. change PCACHE_CHUNK_HDR with 64 in *.
  rewrite cell_chunk_mod by nia. rewrite slot_val. assert (0 <= 64 + Z.of_nat i * size_of c < 262144) by nia.
  replace (ch + 64 + Z.of_nat i * size_of c) with (64 + Z.of_nat i * size_of c + ch) by lia. rewrite <- Z.add_mod_idemp_r, Hm by lia. rewrite Z.add_0_r, Z.mod_small by lia. lia.
Qed.

Lemma cell_at_inj ch c i j : (c < PCACHE_NCLASSES)%nat -> cell_at ch c i = cell_at ch c j -> i = j.
Proof. intros Hc H. pose proof (size_of_range c Hc). unfold cell_at in H. nia. Qed.

(** Writing one value at a list of places. *)
Lemma lookup_foldl_insert {V} (f : nat -> Z) (v : V) l : forall (m : gmap Z V) x, foldl (fun m i => <[f i := v]> m) m l !! x = if decide (x ∈ f <$> l) then Some v else m !! x.
Proof.
  induction l as [|i l IH]; intros m x; cbn; [by rewrite decide_False by apply not_elem_of_nil|]. rewrite IH. destruct (decide (x ∈ f <$> l)) as [H|H]; [by rewrite decide_True by (by right)|].
  destruct (decide (x = f i)) as [->|Hne]; [by rewrite lookup_insert_eq, decide_True by (by left)|]. rewrite lookup_insert_ne, decide_False by (try rewrite elem_of_cons; naive_solver). done.
Qed.

(** * The places *)

Inductive place := Out | Priv (t c : nat) | Bump (t c : nat) | Home.

Abbreviation places := (gmap Z place).

Section Census.
Context {E Sl : Type} `{!SlotSource E Sl}.
#[local] Abbreviation arena := (@arena Sl).

(** The cell [x] of class [c] in the chunk [ch]. *)
Definition is_cell (m : gmap Z chunk) (x : Z) (c : nat) (ch : Z) : Prop :=
  exists i : nat, ch_cls <$> m !! ch = Some c /\ Z.of_nat i < cells_in c /\ x = cell_at ch c i.

Record chunk_ok (loc : places) (ch : Z) (k : chunk) : Prop := {
  ck_cls : (ch_cls k < PCACHE_NCLASSES)%nat;
  ck_size : ch_cell_size k = size_of (ch_cls k);
  ck_cells : ch_cells k = cells_in (ch_cls k);
  ck_addr : 0 < ch /\ ch mod PCACHE_SLOT = 0;
  ck_nodup : NoDup (ch_free k);
  ck_nfree : ch_nfree k = zlen (ch_free k);
  ck_home : forall x, x ∈ ch_free k <-> loc !! x = Some Home /\ cell_chunk x = ch
}.

Record home_ok (s : Sl) (m : gmap Z chunk) (b : gmap Z nat) (loc : places) : Prop := {
  ho_sl : ss_ok s;
  ho_used : forall ch, ss_used s ch <-> is_Some (m !! ch);
  ho_chunk : forall ch k, m !! ch = Some k -> chunk_ok loc ch k;
  ho_loc : forall x, is_Some (loc !! x) <-> exists c ch, is_cell m x c ch;
  ho_byte0 : forall x c ch, is_cell m x c ch -> b !! x = Some c;
  ho_cls : forall x t c, loc !! x = Some (Priv t c) \/ loc !! x = Some (Bump t c) -> exists ch, is_cell m x c ch
}.

Record pclass_ok (loc : places) (t c : nat) (p : pclass) : Prop := {
  pc_nodup : NoDup (p_free p);
  pc_nfree : p_nfree p = zlen (p_free p);
  pc_small : zlen (p_free p) <= PCACHE_PRIVATE_MAX;
  pc_free : forall x, x ∈ p_free p <-> loc !! x = Some (Priv t c);
  pc_left : 0 <= p_left p < 2 ^ 32;
  pc_bump : forall x, loc !! x = Some (Bump t c) <-> exists i : nat, Z.of_nat i < p_left p /\ x = p_bump p + Z.of_nat i * size_of c
}.

Record pl_ok (pl : gmap nat (list pclass)) (loc : places) : Prop := {
  po_len : forall t l, pl !! t = Some l -> length l = PCACHE_NCLASSES;
  po_cls : forall t c, pclass_ok loc t c (default (mk_pclass 0 0 [] 0) (l ← pl !! t; l !! c))
}.

Record stack_ok (av : list (list Z)) (cur : list (option Z)) (m : gmap Z chunk) : Prop := {
  st_len : length av = PCACHE_NCLASSES /\ length cur = PCACHE_NCLASSES;
  st_avail : forall c l, av !! c = Some l -> NoDup l /\ forall ch, ch ∈ l <-> exists k, m !! ch = Some k /\ ch_cls k = c /\ ch_in_avail k = true;
  st_cur : forall c ch, cur !! c = Some (Some ch) -> exists k, m !! ch = Some k /\ ch_cls k = c;
  st_reach : forall ch k, m !! ch = Some k -> ch_free k <> [] -> ch_in_avail k = true \/ cur !! ch_cls k = Some (Some ch)
}.

Record cells_ok (a : arena) (loc : places) : Prop := {
  co_home : home_ok (a_sl a) (a_chunks a) (a_byte0 a) loc;
  co_pl : pl_ok (a_pl a) loc;
  co_stack : stack_ok (a_avail a) (a_cur a) (a_chunks a)
}.

(** ** Cells *)

Lemma cell_in s m b loc x c ch : home_ok s m b loc -> is_cell m x c ch ->
  exists k, m !! ch = Some k /\ ch_cls k = c /\ (c < PCACHE_NCLASSES)%nat /\ cell_chunk x = ch.
Proof.
  intros H (i & Hk & Hi & ->). destruct (m !! ch) as [k|] eqn:Ek; [|done]. cbn in Hk. injection Hk as Hk. exists k. pose proof (ho_chunk _ _ _ _ H _ _ Ek) as K.
  pose proof (ck_cls _ _ _ K) as Hc. rewrite Hk in Hc. split_and!; [done|done|done|]. apply cell_chunk_at; try done; apply (ck_addr _ _ _ K).
Qed.

Lemma cell_unique s m b loc x c ch c' ch' : home_ok s m b loc -> is_cell m x c ch -> is_cell m x c' ch' -> c = c' /\ ch = ch'.
Proof.
  intros H H1 H2. destruct (cell_in _ _ _ _ _ _ _ H H1) as (k1 & E1 & E2 & _ & E3). destruct (cell_in _ _ _ _ _ _ _ H H2) as (k2 & F1 & F2 & _ & F3).
  assert (ch = ch') as <- by congruence. rewrite E1 in F1. injection F1 as <-. split; congruence.
Qed.

(** Two cells do not share a byte. *)
Lemma cells_apart s m b loc x y c d ch dh : home_ok s m b loc -> is_cell m x c ch -> is_cell m y d dh -> x <> y -> x + size_of c <= y \/ y + size_of d <= x.
Proof.
  intros H Hx Hy Hne. destruct (cell_in _ _ _ _ _ _ _ H Hx) as (k & E1 & E2 & E3 & _). destruct (cell_in _ _ _ _ _ _ _ H Hy) as (k' & F1 & F2 & F3 & _).
  destruct Hx as (i & _ & Hi & ->). destruct Hy as (j & _ & Hj & ->). pose proof (size_of_range c E3). pose proof (size_of_range d F3).
  pose proof (cells_in_range c E3) as [_ Rc]. pose proof (cells_in_range d F3) as [_ Rd]. unfold cell_at in *. change PCACHE_CHUNK_HDR with 64 in *. rewrite slot_val in *. destruct (decide (ch = dh)) as [->|Hch].
  - assert (c = d) as <- by congruence. destruct (decide (i = j)) as [->|Hij]; [done|]. nia.
  - destruct (ck_addr _ _ _ (ho_chunk _ _ _ _ H _ _ E1)) as [A1 A2]. destruct (ck_addr _ _ _ (ho_chunk _ _ _ _ H _ _ F1)) as [B1 B2]. rewrite slot_val in *.
    assert (ch + 262144 <= dh \/ dh + 262144 <= ch) as Hd by (Z.div_mod_to_equations; lia). assert (Z.of_nat i * size_of c + size_of c <= 262080) by nia. assert (Z.of_nat j * size_of d + size_of d <= 262080) by nia. lia.
Qed.

(** A chunk's list holds no more than its cells. *)
Lemma home_bound s m b loc ch k : home_ok s m b loc -> m !! ch = Some k -> zlen (ch_free k) <= cells_in (ch_cls k) /\
  (zlen (ch_free k) = cells_in (ch_cls k) -> forall x c, is_cell m x c ch -> x ∈ ch_free k).
Proof.
  intros H Hk. pose proof (ho_chunk _ _ _ _ H _ _ Hk) as K. pose proof (cells_in_range _ (ck_cls _ _ _ K)) as [Hr _]. set (c := ch_cls k) in *. set (all := cell_at ch c <$> seq 0 (Z.to_nat (cells_in c))).
  assert (ch_free k ⊆ all) as Hsub.
  { intros x Hx. apply (ck_home _ _ _ K) in Hx as [Hx1 Hx2]. destruct (proj1 (ho_loc _ _ _ _ H x) ltac:(by eexists)) as (c' & ch' & Hc). destruct (cell_in _ _ _ _ _ _ _ H Hc) as (k' & E1 & E2 & _ & E3).
    rewrite Hx2 in E3. subst ch'. rewrite Hk in E1. injection E1 as <-. destruct Hc as (i & _ & Hi & ->). unfold all. subst c'. apply list_elem_of_fmap. exists i. split; [done|]. apply elem_of_seq. fold c in Hi. lia. }
  assert (length all = Z.to_nat (cells_in c)) as Hl by (unfold all; by rewrite length_fmap, length_seq). pose proof (NoDup_submseteq _ _ (ck_nodup _ _ _ K) Hsub) as Hs. pose proof (submseteq_length _ _ Hs).
  split; [unfold zlen; lia|]. intros He x c' Hx. destruct Hx as (i & Hi & Hj & ->). rewrite Hk in Hi. cbn in Hi. injection Hi as <-. fold c in Hj |- *.
  assert (ch_free k ≡ₚ all) as Hp by (apply submseteq_length_Permutation; [done|unfold zlen in He; lia]). rewrite Hp. apply list_elem_of_fmap. exists i. split; [done|]. apply elem_of_seq. lia.
Qed.

(** ** A chunk's own fields *)

(** The same chunk with its list changed as the places changed. *)
Lemma home_update s m b loc loc' ch k k' : home_ok s m b loc -> m !! ch = Some k -> ch_cls k' = ch_cls k -> ch_cell_size k' = ch_cell_size k -> ch_cells k' = ch_cells k ->
  NoDup (ch_free k') -> ch_nfree k' = zlen (ch_free k') -> (forall x, x ∈ ch_free k' <-> loc' !! x = Some Home /\ cell_chunk x = ch) ->
  (forall x, is_Some (loc' !! x) <-> is_Some (loc !! x)) ->
  (forall x, cell_chunk x <> ch -> loc' !! x = Some Home <-> loc !! x = Some Home) ->
  (forall x t c, loc' !! x = Some (Priv t c) \/ loc' !! x = Some (Bump t c) -> exists ch, is_cell m x c ch) ->
  home_ok s (<[ch := k']> m) b loc'.
Proof.
  intros H Hk Hc Hs Hn Hd Hf Hh Hdom Hoth Hcls.
  assert (forall x c dh, is_cell (<[ch := k']> m) x c dh <-> is_cell m x c dh) as Hic.
  { intros x c dh. unfold is_cell. destruct (decide (dh = ch)) as [->|Hne]; [|by rewrite lookup_insert_ne]. rewrite lookup_insert_eq, Hk. cbn. by rewrite Hc. }
  split.
  - apply H.
  - intros x. rewrite (ho_used _ _ _ _ H). destruct (decide (x = ch)) as [->|Hne]; [rewrite lookup_insert_eq, Hk; split; by eexists|by rewrite lookup_insert_ne].
  - intros dh kd. destruct (decide (dh = ch)) as [->|Hne].
    + rewrite lookup_insert_eq. intros [= <-]. pose proof (ho_chunk _ _ _ _ H _ _ Hk) as K. split; try done; try (rewrite Hc; apply K); [by rewrite Hs, Hc, (ck_size _ _ _ K)|by rewrite Hn, Hc, (ck_cells _ _ _ K)|apply K].
    + rewrite lookup_insert_ne by done. intros Hd'. pose proof (ho_chunk _ _ _ _ H _ _ Hd') as K. split; try apply K. intros x. rewrite (ck_home _ _ _ K). split; intros [H1 H2]; (split; [|done]); apply Hoth; try done; congruence.
  - intros x. rewrite Hdom, (ho_loc _ _ _ _ H). split; intros (c & dh & Hx); exists c, dh; by apply Hic.
  - intros x c dh Hx. apply Hic in Hx. by eapply ho_byte0.
  - intros x t c Hx. destruct (Hcls x t c Hx) as [dh Hd']. exists dh. by apply Hic.
Qed.

(** The places changed at one cell, neither from nor to home. *)
Lemma home_move s m b loc x p : home_ok s m b loc -> is_Some (loc !! x) -> loc !! x <> Some Home -> p <> Home ->
  (forall t c, p = Priv t c \/ p = Bump t c -> exists ch, is_cell m x c ch) -> home_ok s m b (<[x := p]> loc).
Proof.
  intros H Hx Hnh Hp Hcls. split; try apply H.
  - intros ch k Hk. pose proof (ho_chunk _ _ _ _ H _ _ Hk) as K. split; try apply K. intros y. rewrite (ck_home _ _ _ K). destruct (decide (y = x)) as [->|Hne]; [|by rewrite lookup_insert_ne].
    rewrite lookup_insert_eq. split; intros [? ?]; congruence.
  - intros y. rewrite <- (ho_loc _ _ _ _ H y). destruct (decide (y = x)) as [->|Hne]; [|by rewrite lookup_insert_ne]. rewrite lookup_insert_eq. split; [done|by eexists].
  - intros y t c. destruct (decide (y = x)) as [->|Hne]; [|rewrite lookup_insert_ne by done; by apply (ho_cls _ _ _ _ H)]. rewrite lookup_insert_eq. intros [[= ->]|[= ->]]; apply (Hcls t); auto.
Qed.

(** ** Threads *)

Definition same_thread (loc loc' : places) (t c : nat) : Prop :=
  forall x, (loc' !! x = Some (Priv t c) <-> loc !! x = Some (Priv t c)) /\ (loc' !! x = Some (Bump t c) <-> loc !! x = Some (Bump t c)).

Lemma pclass_same loc loc' t c p : pclass_ok loc t c p -> same_thread loc loc' t c -> pclass_ok loc' t c p.
Proof. intros [H1 H2 H3 H4 H5 H6] Hs. split; try done; intros x; [rewrite H4|rewrite <- H6]; [symmetry|]; apply Hs. Qed.

Lemma pl_same pl loc loc' : pl_ok pl loc -> (forall t c, same_thread loc loc' t c) -> pl_ok pl loc'.
Proof. intros [H1 H2] Hs. split; [done|]. intros t c. eapply pclass_same; [apply H2|apply Hs]. Qed.

Lemma same_insert loc x p t c : (forall q, loc !! x = Some q -> q <> Priv t c /\ q <> Bump t c) -> p <> Priv t c -> p <> Bump t c -> same_thread loc (<[x := p]> loc) t c.
Proof.
  intros H H1 H2 y. destruct (decide (y = x)) as [->|Hne]; [|by rewrite lookup_insert_ne]. rewrite lookup_insert_eq. split; split; intros Hy; try congruence; destruct (H _ Hy); congruence.
Qed.

Lemma pl_update pl loc loc' t l c p : pl_ok pl loc -> pl !! t = Some l -> (c < PCACHE_NCLASSES)%nat -> pclass_ok loc' t c p ->
  (forall t' c', ~ (t' = t /\ c' = c) -> same_thread loc loc' t' c') -> pl_ok (alter (fun l => <[c := p]> l) t pl) loc'.
Proof.
  intros [H1 H2] Ht Hc Hp Hs. split.
  - intros t' l'. destruct (decide (t' = t)) as [->|Hne]; [|rewrite lookup_alter_ne by done; apply H1]. rewrite lookup_alter_eq, Ht. intros [= <-]. rewrite length_insert. by eapply H1.
  - intros t' c'. destruct (decide (t' = t)) as [->|Hne]; [|rewrite lookup_alter_ne by done; eapply pclass_same; [apply H2|apply Hs; naive_solver]].
    rewrite lookup_alter_eq, Ht. cbn. specialize (H2 t c') as H2'. rewrite Ht in H2'. cbn in H2'. destruct (decide (c' = c)) as [->|Hnc].
    + rewrite list_lookup_insert_eq by (rewrite (H1 _ _ Ht); lia). done.
    + rewrite list_lookup_insert_ne by done. eapply pclass_same; [apply H2'|apply Hs; naive_solver].
Qed.

(** ** The stacks *)

Lemma stack_update av cur m ch k k' : stack_ok av cur m -> m !! ch = Some k -> ch_cls k' = ch_cls k -> ch_in_avail k' = ch_in_avail k ->
  (ch_free k' <> [] -> ch_free k <> [] \/ ch_in_avail k = true) -> stack_ok av cur (<[ch := k']> m).
Proof.
  intros [H1 H2 H3 H4] Hk Hc Ha Hf. split; [done|..].
  - intros c l Hl. destruct (H2 c l Hl) as [N1 N2]. split; [done|]. intros x. rewrite N2. destruct (decide (x = ch)) as [->|Hne]; [|by rewrite lookup_insert_ne]. rewrite lookup_insert_eq, Hk.
    split; intros (k0 & [= <-] & E1 & E2); eexists; (split; [done|]); split; congruence.
  - intros c x Hx. destruct (H3 c x Hx) as (k0 & E1 & E2). destruct (decide (x = ch)) as [->|Hne]; [rewrite lookup_insert_eq; exists k'; split; [done|congruence]|rewrite lookup_insert_ne by done; eauto].
  - intros x k0. destruct (decide (x = ch)) as [->|Hne]; [|rewrite lookup_insert_ne by done; apply H4]. rewrite lookup_insert_eq. intros [= <-] Hn. rewrite Ha, Hc. destruct (Hf Hn) as [?|?]; [by apply H4|by left].
Qed.

Lemma stack_push av cur m ch k k' : stack_ok av cur m -> m !! ch = Some k -> (ch_cls k < PCACHE_NCLASSES)%nat -> ch_cls k' = ch_cls k -> ch_in_avail k = false -> ch_in_avail k' = true ->
  stack_ok (alter (cons ch) (ch_cls k) av) cur (<[ch := k']> m).
Proof.
  intros [[H0 H1] H2 H3 H4] Hk Hlt Hc Ha Ha'. split; [by rewrite length_alter|..].
  - intros c l. destruct (decide (c = ch_cls k)) as [->|Hnc].
    + rewrite list_lookup_alter_eq. destruct (av !! ch_cls k) as [l0|] eqn:El; [|done]. intros [= <-]. destruct (H2 _ _ El) as [N1 N2]. split.
      * apply NoDup_cons. split; [|done]. rewrite N2. intros (k0 & E1 & _ & E2). congruence.
      * intros x. rewrite elem_of_cons, N2. destruct (decide (x = ch)) as [->|Hne]; [|rewrite lookup_insert_ne by done; naive_solver]. rewrite lookup_insert_eq. split; [intros _; exists k'; split_and!; congruence|by left].
    + rewrite list_lookup_alter_ne by done. intros Hl. destruct (H2 _ _ Hl) as [N1 N2]. split; [done|]. intros x. rewrite N2. destruct (decide (x = ch)) as [->|Hne]; [|by rewrite lookup_insert_ne]. rewrite lookup_insert_eq, Hk.
      split; intros (k0 & [= <-] & E1 & E2); exfalso; congruence.
  - intros c x Hx. destruct (H3 c x Hx) as (k0 & E1 & E2). destruct (decide (x = ch)) as [->|Hne]; [rewrite lookup_insert_eq; exists k'; split; [done|congruence]|rewrite lookup_insert_ne by done; eauto].
  - intros x k0. destruct (decide (x = ch)) as [->|Hne]; [rewrite lookup_insert_eq; intros [= <-] _; by left|rewrite lookup_insert_ne by done; apply H4].
Qed.

(** The top of the stack made the current chunk, of which there was none. *)
Lemma stack_pop av cur m c ch l : stack_ok av cur m -> av !! c = Some (ch :: l) -> cur !! c = Some None ->
  stack_ok (<[c := l]> av) (<[c := Some ch]> cur) (alter (k_avail false) ch m) /\ exists k, m !! ch = Some k /\ ch_cls k = c.
Proof.
  intros [[H0 H1] H2 H3 H4] Hl Hcur. destruct (H2 _ _ Hl) as [N1 N2]. apply NoDup_cons in N1 as [N0 N1]. destruct (proj1 (N2 ch) ltac:(by left)) as (k & Hk & Hc & Ha). split; [|by exists k].
  pose proof (lookup_lt_Some _ _ _ Hl) as L1. pose proof (lookup_lt_Some _ _ _ Hcur) as L2.
  assert (forall x, alter (k_avail false) ch m !! x = if decide (x = ch) then Some (k_avail false k) else m !! x) as Hm.
  { intros x. destruct (decide (x = ch)) as [->|Hne]; [by rewrite lookup_alter_eq, Hk|by rewrite lookup_alter_ne]. }
  split; [by rewrite !length_insert|..].
  - intros d l'. destruct (decide (d = c)) as [->|Hnd].
    + rewrite list_lookup_insert_eq by done. intros [= <-]. split; [done|]. intros x. rewrite Hm. destruct (decide (x = ch)) as [->|Hne].
      * split; [done|]. by intros (k0 & [= <-] & _ & ?).
      * rewrite <- N2, elem_of_cons. naive_solver.
    + rewrite list_lookup_insert_ne by done. intros Hl'. destruct (H2 _ _ Hl') as [M1 M2]. split; [done|]. intros x. rewrite M2, Hm. destruct (decide (x = ch)) as [->|Hne]; [|done]. rewrite Hk. split; intros (k0 & [= <-] & E1 & E2); [congruence|done].
  - intros d x. destruct (decide (d = c)) as [->|Hnd]; [rewrite list_lookup_insert_eq by done; intros [= <-]; rewrite Hm, decide_True by done; by exists (k_avail false k)|].
    rewrite list_lookup_insert_ne by done. intros Hx. destruct (H3 _ _ Hx) as (k0 & E1 & E2). rewrite Hm. destruct (decide (x = ch)) as [->|Hne]; [|eauto]. congruence.
  - intros x k0. rewrite Hm. destruct (decide (x = ch)) as [->|Hne]; [intros [= <-] _; right; cbn; rewrite Hc, list_lookup_insert_eq by done; done|]. intros Hx Hf. destruct (H4 _ _ Hx Hf) as [?|Hq]; [by left|right].
    rewrite list_lookup_insert_ne; [done|]. intros Heq. rewrite <- Heq in Hq. congruence.
Qed.

(** No current chunk any more, when that one's list is empty. *)
Lemma stack_uncur av cur m c ch k : stack_ok av cur m -> cur !! c = Some (Some ch) -> m !! ch = Some k -> ch_free k = [] -> stack_ok av (<[c := None]> cur) m.
Proof.
  intros [[H0 H1] H2 H3 H4] Hcur Hk Hf. pose proof (lookup_lt_Some _ _ _ Hcur) as L2. split; [by rewrite length_insert|done|..].
  - intros d x. destruct (decide (d = c)) as [->|Hnd]; [by rewrite list_lookup_insert_eq|rewrite list_lookup_insert_ne by done; apply H3].
  - intros x k0 Hx Hn. destruct (H4 _ _ Hx Hn) as [?|Hq]; [by left|]. right. rewrite list_lookup_insert_ne; [done|]. intros Heq. rewrite <- Heq, Hcur in Hq. congruence.
Qed.

(** ** Moves *)

Lemma class_of_def (a : arena) t c : class_of a t c = default (mk_pclass 0 0 [] 0) (l ← a_pl a !! t; l !! c).
Proof. done. Qed.

Lemma pl_at a loc t c : cells_ok a loc -> pclass_ok loc t c (class_of a t c).
Proof. intros H. apply (co_pl _ _ H). Qed.

Lemma live_add_ok a loc t d : cells_ok a loc -> cells_ok (live_add t d a) loc.
Proof. intros [H1 H2 H3]. unfold live_add. destruct (a_stripe a !! t); by split. Qed.

(** A cell that nobody holds on a list belongs to a chunk that is there. *)
Lemma cell_there a loc x : cells_ok a loc -> is_Some (loc !! x) -> exists c ch k, is_cell (a_chunks a) x c ch /\ a_chunks a !! ch = Some k /\ ch_cls k = c /\ (c < PCACHE_NCLASSES)%nat /\ cell_chunk x = ch.
Proof.
  intros H Hx. destruct (proj1 (ho_loc _ _ _ _ (co_home _ _ H) x) Hx) as (c & ch & Hc). destruct (cell_in _ _ _ _ _ _ _ (co_home _ _ H) Hc) as (k & E1 & E2 & E3 & E4). by exists c, ch, k.
Qed.

(** Sent home. *)
Lemma cell_home_ok a loc x : cells_ok a loc -> loc !! x = Some Out -> cells_ok (cell_home x a) (<[x := Home]> loc).
Proof.
  intros H Hx. destruct (cell_there a loc x H ltac:(by eexists)) as (c & ch & k & Hc & Hk & Hkc & Hlt & Hch). unfold cell_home. rewrite Hch, Hk.
  pose proof (ho_chunk _ _ _ _ (co_home _ _ H) _ _ Hk) as K. destruct (home_bound _ _ _ _ _ _ (co_home _ _ H) Hk) as [Hb _]. pose proof (cells_in_range _ (ck_cls _ _ _ K)) as [Hr _].
  assert (x ∉ ch_free k) as Hnin by (rewrite (ck_home _ _ _ K); intros [? _]; congruence). assert (u32 (ch_nfree k + 1) = zlen (x :: ch_free k)) as Hn by (rewrite (ck_nfree _ _ _ K), zlen_cons; pose proof (zlen_nonneg (ch_free k)); rewrite u32_id by word_lia; lia).
  assert (pl_ok (a_pl a) (<[x := Home]> loc)) as Hpl by (eapply pl_same; [apply H|]; intros t d; apply same_insert; [intros q Hq; rewrite Hx in Hq; injection Hq as <-; done|done|done]).
  assert (forall k', ch_cls k' = ch_cls k -> ch_cell_size k' = ch_cell_size k -> ch_cells k' = ch_cells k -> ch_free k' = x :: ch_free k -> ch_nfree k' = u32 (ch_nfree k + 1) ->
    home_ok (a_sl a) (<[ch := k']> (a_chunks a)) (a_byte0 a) (<[x := Home]> loc)) as Hho.
  { intros k' F1 F2 F3 F4 F5. eapply (home_update _ _ _ loc); try done; [apply H|rewrite F4; by apply NoDup_cons; split; [|apply K]|by rewrite F5, F4| | | |].
    - intros y. rewrite F4, elem_of_cons, (ck_home _ _ _ K). destruct (decide (y = x)) as [->|Hne]; [rewrite lookup_insert_eq; split; [done|by left]|rewrite lookup_insert_ne by done; naive_solver].
    - intros y. destruct (decide (y = x)) as [->|Hne]; [rewrite lookup_insert_eq, Hx; split; by eexists|by rewrite lookup_insert_ne].
    - intros y Hy. rewrite lookup_insert_ne; [done|congruence].
    - intros y t d. destruct (decide (y = x)) as [->|Hne]; [rewrite lookup_insert_eq; intros [?|?]; done|rewrite lookup_insert_ne by done; apply (ho_cls _ _ _ _ (co_home _ _ H))]. }
  cbn [k_home ch_nfree]. destruct (negb (u32 (ch_nfree k + 1) =? 1)) eqn:Eb.
  - split; [by apply Hho|done|]. cbn [put_chunk set_chunks a_avail a_cur a_chunks]. eapply stack_update; [apply H|done|done|done|]. intros _. left. intros E0. rewrite (ck_nfree _ _ _ K), E0 in Eb. done.
  - cbn [k_since ch_in_avail k_home]. destruct (ch_in_avail k) eqn:Ea.
    + split; [by apply Hho|done|]. cbn [put_chunk set_chunks a_avail a_cur a_chunks]. eapply stack_update; [apply H|done|done|done|]. by right.
    + split; [by apply Hho|done|]. cbn [avail_push set_avail put_chunk set_chunks a_avail a_cur a_chunks]. eapply stack_push; [apply H|done|by rewrite Hkc|done|done|done].
Qed.

(** Off its chunk's list. *)
Lemma chunk_pop_ok a loc ch a' x : cells_ok a loc -> chunk_pop ch a = (a', Some x) ->
  loc !! x = Some Home /\ cells_ok a' (<[x := Out]> loc) /\ a_pl a' = a_pl a /\ a_cur a' = a_cur a /\ a_avail a' = a_avail a /\ exists k, a_chunks a !! ch = Some k /\ is_cell (a_chunks a') x (ch_cls k) ch.
Proof.
  intros H E0. unfold chunk_pop in E0. destruct (a_chunks a !! ch) as [k|] eqn:Hk; [|done]. destruct (ch_free k) as [|y l] eqn:Hf; [done|]. injection E0 as <- <-.
  pose proof (ho_chunk _ _ _ _ (co_home _ _ H) _ _ Hk) as K. destruct (proj1 (ck_home _ _ _ K y) ltac:(rewrite Hf; by left)) as [Hx Hch]. split; [done|].
  pose proof (ck_nodup _ _ _ K) as Hd. rewrite Hf in Hd. apply NoDup_cons in Hd as [Hd1 Hd2]. destruct (home_bound _ _ _ _ _ _ (co_home _ _ H) Hk) as [Hb _]. pose proof (cells_in_range _ (ck_cls _ _ _ K)) as [Hr _].
  assert (u32 (ch_nfree k - 1) = zlen l) as Hn by (rewrite (ck_nfree _ _ _ K), Hf, zlen_cons in *; pose proof (zlen_nonneg l); rewrite u32_id by word_lia; lia).
  assert (home_ok (a_sl a) (<[ch := k_pop l k]> (a_chunks a)) (a_byte0 a) (<[y := Out]> loc)) as Hho.
  { eapply (home_update _ _ _ loc); try done; [apply H| | | |].
    - intros z. cbn [k_pop ch_free]. destruct (decide (z = y)) as [->|Hne]; [rewrite lookup_insert_eq; split; [done|by intros [? _]]|]. rewrite lookup_insert_ne by done. rewrite <- (ck_home _ _ _ K), Hf, elem_of_cons. naive_solver.
    - intros z. destruct (decide (z = y)) as [->|Hne]; [rewrite lookup_insert_eq, Hx; split; by eexists|by rewrite lookup_insert_ne].
    - intros z Hz. rewrite lookup_insert_ne; [done|congruence].
    - intros z t d. destruct (decide (z = y)) as [->|Hne]; [rewrite lookup_insert_eq; intros [?|?]; done|rewrite lookup_insert_ne by done; apply (ho_cls _ _ _ _ (co_home _ _ H))]. }
  split_and!; try done.
  - split; [done| |].
    + cbn. eapply pl_same; [apply H|]. intros t d. apply same_insert; [intros q Hq; rewrite Hx in Hq; injection Hq as <-; done|done|done].
    + cbn [put_chunk set_chunks a_avail a_cur a_chunks]. eapply stack_update; [apply H|done|done|done|]. intros _. left. by rewrite Hf.
  - exists k. split; [done|]. cbn [put_chunk set_chunks a_chunks]. destruct (proj1 (ho_loc _ _ _ _ Hho y) ltac:(rewrite lookup_insert_eq; by eexists)) as (c & dh & Hc).
    destruct (cell_in _ _ _ _ _ _ _ Hho Hc) as (k2 & E1 & E2 & _ & E3). rewrite Hch in E3. subst dh. rewrite lookup_insert_eq in E1. injection E1 as <-. by rewrite <- E2 in Hc.
Qed.

(** Onto a thread's stack. *)
Lemma push_ok a loc t c x ch l : cells_ok a loc -> loc !! x = Some Out -> is_cell (a_chunks a) x c ch -> a_pl a !! t = Some l -> (c < PCACHE_NCLASSES)%nat -> zlen (p_free (class_of a t c)) < PCACHE_PRIVATE_MAX ->
  cells_ok (put_class t c (p_push x (class_of a t c)) a) (<[x := Priv t c]> loc).
Proof.
  intros H Hx Hc Hl Hlt Hs. pose proof (pl_at a loc t c H) as [P1 P2 P3 P4 P5 P6]. split; [|cbn|apply H].
  - eapply home_move; [apply H|by eexists|congruence|done|]. intros t' c' [[= -> ->]|?]; [by exists ch|done].
  - eapply pl_update; [apply H|done|done| |].
    + split; cbn [p_push p_free p_nfree p_left p_bump].
      * apply NoDup_cons. split; [|done]. rewrite P4. congruence.
      * rewrite P2, zlen_cons. pose proof (zlen_nonneg (p_free (class_of a t c))). unfold PCACHE_PRIVATE_MAX in *. rewrite u32_id by word_lia. lia.
      * rewrite zlen_cons. lia.
      * intros y. rewrite elem_of_cons, P4. destruct (decide (y = x)) as [->|Hne]; [rewrite lookup_insert_eq; split; [done|by left]|rewrite lookup_insert_ne by done; naive_solver].
      * done.
      * intros y. rewrite <- P6. destruct (decide (y = x)) as [->|Hne]; [rewrite lookup_insert_eq, Hx; split; done|by rewrite lookup_insert_ne].
    + intros t' c' Hne. apply same_insert; [intros q Hq; rewrite Hx in Hq; injection Hq as <-; done|intros [= -> ->]; by apply Hne|done].
Qed.

(** Off a thread's stack. *)
Lemma take_ok a loc t c x l : cells_ok a loc -> p_free (class_of a t c) = x :: l -> (c < PCACHE_NCLASSES)%nat ->
  loc !! x = Some (Priv t c) /\ cells_ok (put_class t c (p_take l (class_of a t c)) a) (<[x := Out]> loc).
Proof.
  intros H Hf Hlt. pose proof (pl_at a loc t c H) as [P1 P2 P3 P4 P5 P6]. assert (loc !! x = Some (Priv t c)) as Hx by (apply P4; rewrite Hf; by left). split; [done|].
  assert (exists pl, a_pl a !! t = Some pl) as [pl Hpl] by (unfold class_of in Hf; destruct (a_pl a !! t); [eauto|done]). rewrite Hf in P1, P2, P3. apply NoDup_cons in P1 as [P0 P1]. split; [|cbn|apply H].
  - eapply home_move; [apply H|by eexists|congruence|done|]. intros t' c' [?|?]; done.
  - eapply pl_update; [apply H|done|done| |].
    + split; cbn [p_take p_free p_nfree p_left p_bump].
      * done.
      * rewrite P2, zlen_cons in *. pose proof (zlen_nonneg l). unfold PCACHE_PRIVATE_MAX in *. rewrite u32_id by word_lia. lia.
      * rewrite zlen_cons in P3. lia.
      * intros y. destruct (decide (y = x)) as [->|Hne]; [rewrite lookup_insert_eq; split; done|]. rewrite lookup_insert_ne by done. rewrite <- P4, Hf, elem_of_cons. naive_solver.
      * done.
      * intros y. rewrite <- P6. destruct (decide (y = x)) as [->|Hne]; [rewrite lookup_insert_eq, Hx; split; done|by rewrite lookup_insert_ne].
    + intros t' c' Hne. apply same_insert; [|done|done]. intros q Hq. rewrite Hx in Hq. injection Hq as <-. split; [|done]. intros [= -> ->]. by apply Hne.
Qed.

(** Off the rest of a thread's chunk. *)
Lemma bump_taken_ok a loc t c : cells_ok a loc -> p_left (class_of a t c) <> 0 -> (c < PCACHE_NCLASSES)%nat ->
  let p := class_of a t c in
  loc !! p_bump p = Some (Bump t c) /\ cells_ok (put_class t c (mk_pclass (p_bump p + size_of c) (u32 (p_left p - 1)) (p_free p) (p_nfree p)) a) (<[p_bump p := Out]> loc).
Proof.
  intros H Hn Hlt p. pose proof (pl_at a loc t c H) as [P1 P2 P3 P4 P5 P6]. fold p in Hn, P1, P2, P3, P4, P5, P6. pose proof (size_of_range c Hlt) as Hsz.
  assert (loc !! p_bump p = Some (Bump t c)) as Hx by (apply P6; exists 0%nat; split; lia). split; [done|].
  assert (exists pl, a_pl a !! t = Some pl) as [pl Hpl] by (unfold p, class_of in Hn; destruct (a_pl a !! t); [eauto|done]). split; [|cbn|apply H].
  - eapply home_move; [apply H|by eexists|congruence|done|]. intros t' c' [?|?]; done.
  - eapply pl_update; [apply H|done|done| |].
    + split; cbn [p_free p_nfree p_left p_bump]; try done.
      * intros y. rewrite P4. destruct (decide (y = p_bump p)) as [->|Hne]; [rewrite lookup_insert_eq, Hx; split; done|by rewrite lookup_insert_ne].
      * rewrite u32_id by word_lia. lia.
      * intros y. rewrite u32_id by word_lia. destruct (decide (y = p_bump p)) as [->|Hne].
        -- rewrite lookup_insert_eq. split; [done|]. intros (i & Hi & Hj). nia.
        -- rewrite lookup_insert_ne, P6 by done. split.
           ++ intros ([|i] & Hi & ->); [exfalso; apply Hne; lia|]. exists i. split; [lia|]. nia.
           ++ intros (i & Hi & ->). exists (S i). split; [lia|]. nia.
    + intros t' c' Hne. apply same_insert; [|done|done]. intros q Hq. rewrite Hx in Hq. injection Hq as <-. split; [done|]. intros [= -> ->]. by apply Hne.
Qed.

(** ** Sending home *)

Definition same_out (loc loc' : places) : Prop := forall y, loc' !! y = Some Out <-> loc !! y = Some Out.

Lemma same_out_trans l1 l2 l3 : same_out l1 l2 -> same_out l2 l3 -> same_out l1 l3.
Proof. intros H1 H2 y. by rewrite (H2 y). Qed.

(** Through the hands of the allocator. *)
Lemma same_out_via loc x p q : loc !! x = Some p -> p <> Out -> q <> Out -> same_out loc (<[x := q]> (<[x := Out]> loc)).
Proof. intros Hx Hp Hq y. rewrite insert_insert_eq. destruct (decide (y = x)) as [->|Hne]; [rewrite lookup_insert_eq, Hx; split; congruence|by rewrite lookup_insert_ne]. Qed.

Lemma cell_home_pl (a : arena) x : a_pl (cell_home x a) = a_pl a.
Proof. unfold cell_home. destruct (a_chunks a !! cell_chunk x) as [k|]; [|done]. destruct (negb _); [done|]. by destruct (ch_in_avail _). Qed.

Lemma cell_home_class (a : arena) x t c : class_of (cell_home x a) t c = class_of a t c.
Proof. unfold class_of. by rewrite cell_home_pl. Qed.

Lemma cell_home_put (a : arena) x t c p : put_class t c p (cell_home x a) = cell_home x (put_class t c p a).
Proof. unfold cell_home. cbn. destruct (a_chunks a !! cell_chunk x) as [k|]; [|done]. destruct (negb _); [done|]. by destruct (ch_in_avail _). Qed.

Lemma class_of_put a loc t c p l : cells_ok a loc -> a_pl a !! t = Some l -> (c < PCACHE_NCLASSES)%nat -> class_of (put_class t c p a) t c = p.
Proof. intros H Hl Hlt. unfold class_of, put_class. cbn. rewrite lookup_alter_eq, Hl. cbn. rewrite list_lookup_insert_eq; [done|]. by rewrite (po_len _ _ (co_pl _ _ H) _ _ Hl). Qed.

Lemma put_thread (a : arena) t c p l : a_pl a !! t = Some l -> a_pl (put_class t c p a) !! t = Some (<[c := p]> l).
Proof. intros H. cbn. by rewrite lookup_alter_eq, H. Qed.

Lemma bump_loop_ok n : forall a loc t c l, cells_ok a loc -> a_pl a !! t = Some l -> (c < PCACHE_NCLASSES)%nat -> Z.of_nat n <= p_left (class_of a t c) ->
  exists loc', cells_ok (bump_loop n t c a) loc' /\ same_out loc loc' /\ is_Some (a_pl (bump_loop n t c a) !! t) /\ p_left (class_of (bump_loop n t c a) t c) = p_left (class_of a t c) - Z.of_nat n.
Proof.
  induction n as [|n IH]; intros a loc t c l H Hl Hlt Hn; cbn [bump_loop]; [exists loc; split_and!; [done|done|by eexists|lia]|].
  destruct (bump_taken_ok a loc t c H ltac:(lia) Hlt) as [Hx H1]. set (p := class_of a t c) in *. pose proof (pc_left _ _ _ _ (pl_at a loc t c H)) as Hp. fold p in Hp.
  rewrite cell_home_class, cell_home_put. fold p. set (p' := mk_pclass _ _ _ _) in *. pose proof (cell_home_ok _ _ (p_bump p) H1 ltac:(by rewrite lookup_insert_eq)) as H2.
  assert (class_of (cell_home (p_bump p) (put_class t c p' a)) t c = p') as Ec by (rewrite cell_home_class; by eapply class_of_put).
  destruct (IH _ _ t c (<[c := p']> l) H2) as (loc' & J1 & J2 & J3 & J4); [by rewrite cell_home_pl, (put_thread _ _ _ _ _ Hl)|done|rewrite Ec; cbn; rewrite u32_id by word_lia; lia|].
  exists loc'. split_and!; [done| |done|]. { eapply same_out_trans; [|exact J2]. by eapply same_out_via. }
  rewrite J4, Ec. cbn. rewrite u32_id by word_lia. lia.
Qed.

Lemma bump_home_ok a loc t c l : cells_ok a loc -> a_pl a !! t = Some l -> (c < PCACHE_NCLASSES)%nat -> exists loc', cells_ok (bump_home t c a) loc' /\ same_out loc loc' /\ is_Some (a_pl (bump_home t c a) !! t).
Proof.
  intros H Hl Hlt. pose proof (pc_left _ _ _ _ (pl_at a loc t c H)) as Hp. destruct (bump_loop_ok (Z.to_nat (p_left (class_of a t c))) a loc t c l H Hl Hlt ltac:(lia)) as (loc' & J1 & J2 & [l' J3] & J4).
  rewrite Z2Nat.id, Z.sub_diag in J4 by lia. exists loc'. unfold bump_home. set (a1 := bump_loop _ t c a) in *. split_and!; [|done|rewrite (put_thread _ _ _ _ _ J3); by eexists].
  split; [apply J1|cbn|apply J1]. pose proof (pl_at _ _ t c J1) as [P1 P2 P3 P4 P5 P6]. eapply pl_update; [apply J1|done|done| |by intros].
  split; cbn [p_free p_nfree p_left p_bump]; try done. intros y. rewrite P6, J4. split; intros (i & Hi & _); lia.
Qed.

Lemma donate_ok n : forall a loc t c l, cells_ok a loc -> a_pl a !! t = Some l -> (c < PCACHE_NCLASSES)%nat ->
  exists loc', cells_ok (donate n t c a) loc' /\ same_out loc loc' /\ is_Some (a_pl (donate n t c a) !! t) /\ zlen (p_free (class_of (donate n t c a) t c)) = Z.max 0 (zlen (p_free (class_of a t c)) - Z.of_nat n).
Proof.
  induction n as [|n IH]; intros a loc t c l H Hl Hlt; cbn [donate]; [exists loc; split_and!; [done|done|by eexists|pose proof (zlen_nonneg (p_free (class_of a t c))); lia]|].
  destruct (p_free (class_of a t c)) as [|x r] eqn:Ef; [exists loc; split_and!; [done|done|by eexists|rewrite ?Ef, !zlen_nil; lia]|].
  destruct (take_ok a loc t c x r H Ef Hlt) as [Hx H1]. set (p' := p_take r (class_of a t c)) in *. pose proof (cell_home_ok _ _ x H1 ltac:(by rewrite lookup_insert_eq)) as H2.
  destruct (IH _ _ t c (<[c := p']> l) H2) as (loc' & J1 & J2 & J3 & J4); [by rewrite cell_home_pl, (put_thread _ _ _ _ _ Hl)|done|].
  exists loc'. split_and!; [done| |done|]. { eapply same_out_trans; [|exact J2]. by eapply same_out_via. }
  rewrite J4, cell_home_class, (class_of_put _ _ _ _ _ _ H Hl Hlt). cbn [p' p_take p_free]. rewrite zlen_cons. pose proof (zlen_nonneg r). lia.
Qed.

(** ** Refilling *)

Definition no_home (a : arena) (c : nat) : Prop := forall ch k, a_chunks a !! ch = Some k -> ch_cls k = c -> ch_free k = [].

Definition has (o : option Z) : nat := match o with Some _ => 1 | None => 0 end.

Definition refill_left (a : arena) (c : nat) (got : Z) : nat :=
  Z.to_nat (PCACHE_REFILL_BATCH - got) + length (default [] (a_avail a !! c)) + has (default None (a_cur a !! c)).

Lemma cur_lookup a loc c : cells_ok a loc -> (c < PCACHE_NCLASSES)%nat -> a_cur a !! c = Some (default None (a_cur a !! c)).
Proof. intros H Hlt. destruct (lookup_lt_is_Some_2 (a_cur a) c) as [x Hx]; [by rewrite (proj2 (st_len _ _ _ (co_stack _ _ H)))|]. by rewrite Hx. Qed.

(** One turn's choice of chunk. *)
Lemma next_chunk a loc c : cells_ok a loc -> (c < PCACHE_NCLASSES)%nat ->
  let '(a', cur) := match default None (a_cur a !! c) with
                    | Some ch => (a, Some ch)
                    | None => let '(a, top) := avail_pop c a in match top with Some ch => (set_cur c (Some ch) a, Some ch) | None => (a, None) end
                    end in
  cells_ok a' loc /\ a_pl a' = a_pl a /\ a_sl a' = a_sl a /\
  match cur with
  | Some ch => a_cur a' !! c = Some (Some ch) /\ (exists k, a_chunks a' !! ch = Some k /\ ch_cls k = c) /\ (length (default [] (a_avail a' !! c)) + 1 = length (default [] (a_avail a !! c)) + has (default None (a_cur a !! c)))%nat
  | None => no_home a' c
  end.
Proof.
  intros H Hlt. pose proof (cur_lookup a loc c H Hlt) as Hcur. destruct (default None (a_cur a !! c)) as [ch|].
  - split_and!; [done|done|done|done|by apply (st_cur _ _ _ (co_stack _ _ H))|cbn; lia].
  - unfold avail_pop. destruct (lookup_lt_is_Some_2 (a_avail a) c) as [l Hl]; [by rewrite (proj1 (st_len _ _ _ (co_stack _ _ H)))|]. rewrite Hl. destruct l as [|ch l].
    + split_and!; [done|done|done|]. intros ch k Hk Hc. destruct (ch_free k) eqn:Ef; [done|]. destruct (st_reach _ _ _ (co_stack _ _ H) _ _ Hk ltac:(by rewrite Ef)) as [Ha|Hq]; [|congruence].
      destruct (st_avail _ _ _ (co_stack _ _ H) _ _ Hl) as [_ N]. exfalso. apply (not_elem_of_nil ch), N. eauto.
    + destruct (stack_pop _ _ _ c ch l (co_stack _ _ H) Hl Hcur) as [S1 (k & Hk & Hc)]. split_and!; cbn.
      * split; [|apply H|done]. cbn. pose proof (ho_chunk _ _ _ _ (co_home _ _ H) _ _ Hk) as K.
        replace (alter (k_avail false) ch (a_chunks a)) with (<[ch := k_avail false k]> (a_chunks a)) by (apply map_eq; intros i; destruct (decide (i = ch)) as [->|Hne]; [by rewrite lookup_insert_eq, lookup_alter_eq, Hk|by rewrite lookup_insert_ne, lookup_alter_ne]).
        eapply (home_update _ _ _ loc); try done; try apply K; [apply H|apply (ho_cls _ _ _ _ (co_home _ _ H))].
      * done.
      * done.
      * rewrite list_lookup_insert_eq; [done|]. by rewrite (proj2 (st_len _ _ _ (co_stack _ _ H))).
      * exists (k_avail false k). by rewrite lookup_alter_eq, Hk.
      * rewrite list_lookup_insert_eq; [cbn; lia|]. by eapply lookup_lt_Some.
Qed.

Lemma refill_ok fuel : forall a loc t c l got, cells_ok a loc -> a_pl a !! t = Some l -> (c < PCACHE_NCLASSES)%nat -> zlen (p_free (class_of a t c)) = got -> (refill_left a c got < fuel)%nat ->
  let '(a', got') := refill fuel t c got a in
  exists loc', cells_ok a' loc' /\ same_out loc loc' /\ is_Some (a_pl a' !! t) /\ zlen (p_free (class_of a' t c)) = got' /\ p_left (class_of a' t c) = p_left (class_of a t c) /\ (got' = 0 -> no_home a' c) /\ a_sl a' = a_sl a.
Proof.
  induction fuel as [|fuel IH]; intros a loc t c l got H Hl Hlt Hg Hf; cbn [refill]; [lia|]. destruct (negb (got <? PCACHE_REFILL_BATCH)) eqn:Eb.
  { exists loc. split_and!; try done. intros ->. done. }
  apply negb_false_iff, Z.ltb_lt in Eb. pose proof (next_chunk a loc c H Hlt) as Hn. unfold refill_left in Hf.
  destruct (match default None (a_cur a !! c) with Some ch => _ | None => _ end) as [a1 cur] eqn:E1. destruct Hn as (H1 & Hpl & Hsl & Hn). assert (class_of a1 t c = class_of a t c) as Ec by (unfold class_of; by rewrite Hpl).
  destruct cur as [ch|]; [|exists loc; rewrite Hpl, Ec; by split_and!]. destruct Hn as (Hcur & (k & Hk & Hkc) & Hlen). destruct (chunk_pop ch a1) as [a2 [x|]] eqn:Ep.
  - destruct (chunk_pop_ok a1 loc ch a2 x H1 Ep) as (Hx & H2 & Hpl2 & Hc2 & Ha2 & k' & Hk' & Hic). rewrite Hk in Hk'. injection Hk' as <-. rewrite Hkc in Hic.
    assert (a_pl a2 !! t = Some l) as Hl2 by congruence. assert (class_of a2 t c = class_of a t c) as Ec2 by (unfold class_of; by rewrite Hpl2, Hpl).
    pose proof (push_ok a2 _ t c x ch l H2 ltac:(by rewrite lookup_insert_eq) Hic Hl2 Hlt ltac:(rewrite Ec2, Hg; unfold PCACHE_PRIVATE_MAX, PCACHE_REFILL_BATCH in *; lia)) as H3.
    pose proof (class_of_put a2 _ t c (p_push x (class_of a2 t c)) l H2 Hl2 Hlt) as Ecl. set (a3 := put_class t c _ a2) in *.
    specialize (IH a3 _ t c (<[c := p_push x (class_of a2 t c)]> l) (got + 1) H3). destruct (refill fuel t c (got + 1) a3) as [a' got'].
    destruct IH as (loc' & J1 & J2 & J3 & J4 & J5 & J6 & J7); [by apply put_thread|done|rewrite Ecl; cbn; rewrite zlen_cons, Ec2; lia| |].
    + unfold refill_left. change (a_avail a3) with (a_avail a2). change (a_cur a3) with (a_cur a2). rewrite Ha2, Hc2, Hcur. unfold PCACHE_REFILL_BATCH in *. change (has (default None (Some (Some ch)))) with 1%nat. lia.
    + exists loc'. split_and!; try done; [|by rewrite J5, Ecl; cbn; rewrite Ec2|]. { eapply same_out_trans; [|exact J2]. by eapply same_out_via. }
      rewrite J7. unfold chunk_pop in Ep. rewrite Hk in Ep. destruct (ch_free k); [done|]. injection Ep as <- _. done.
  - unfold chunk_pop in Ep. rewrite Hk in Ep. destruct (ch_free k) eqn:Ef; [|done]. injection Ep as <-.
    specialize (IH (set_cur c None a1) loc t c l got). destruct (refill fuel t c got (set_cur c None a1)) as [a' got'].
    destruct IH as (loc' & J1 & J2 & J3 & J4 & J5 & J6 & J7); [|cbn; congruence|done|by change (class_of (set_cur c None a1) t c) with (class_of a1 t c); rewrite Ec| |].
    + split; [apply H1|apply H1|]. cbn. by eapply stack_uncur; [apply H1| | |].
    + unfold refill_left. change (a_avail (set_cur c None a1)) with (a_avail a1). change (a_cur (set_cur c None a1)) with (<[c := None]> (a_cur a1)). rewrite list_lookup_insert_eq by (by eapply lookup_lt_Some). change (has (default None (Some None))) with 0%nat. lia.
    + exists loc'. change (class_of (set_cur c None a1) t c) with (class_of a1 t c) in J5. split_and!; try done; [by rewrite J5, Ec|]. by rewrite J7.
Qed.

(** The turns left are enough: more of them change nothing. *)
Lemma refill_more fuel n t c : forall (a : arena) got, (c < length (a_cur a))%nat -> (refill_left a c got < fuel)%nat -> refill (fuel + n) t c got a = refill fuel t c got a.
Proof.
  induction fuel as [|fuel IH]; intros a got Hc Hf; [lia|]. cbn [refill Nat.add]. destruct (negb (got <? PCACHE_REFILL_BATCH)) eqn:Eb; [done|]. apply negb_false_iff, Z.ltb_lt in Eb.
  assert (forall (b : arena) ch, a_cur b !! c = Some (Some ch) -> (length (a_cur b) = length (a_cur a))%nat -> (Z.to_nat (PCACHE_REFILL_BATCH - got) + length (default [] (a_avail b !! c)) + 1 < S fuel)%nat ->
    match chunk_pop ch b with (b, None) => refill (fuel + n) t c got (set_cur c None b) | (b, Some x) => refill (fuel + n) t c (got + 1) (put_class t c (p_push x (class_of b t c)) b) end =
    match chunk_pop ch b with (b, None) => refill fuel t c got (set_cur c None b) | (b, Some x) => refill fuel t c (got + 1) (put_class t c (p_push x (class_of b t c)) b) end) as Hturn.
  { intros b ch Hb Hlen Hm. assert (forall b' r, chunk_pop ch b = (b', r) -> a_cur b' = a_cur b /\ a_avail b' = a_avail b) as Hp by (intros b' r; unfold chunk_pop; destruct (a_chunks b !! ch) as [k|]; [destruct (ch_free k)|]; by intros [= <- _]).
    destruct (chunk_pop ch b) as [b' [x|]] eqn:Ep; destruct (Hp _ _ eq_refl) as [P1 P2]; apply IH; cbn [a_cur set_cur put_class set_pl].
    - rewrite P1. lia.
    - unfold refill_left. cbn [a_cur a_avail put_class set_pl]. rewrite P1, P2, Hb. unfold PCACHE_REFILL_BATCH in *. change (has (default None (Some (Some ch)))) with 1%nat. lia.
    - rewrite length_insert, P1. lia.
    - unfold refill_left. cbn [a_cur a_avail set_cur]. rewrite list_lookup_insert_eq by (rewrite P1; lia). rewrite P2. change (has (default None (Some None))) with 0%nat. lia. }
  unfold refill_left in Hf. destruct (lookup_lt_is_Some_2 (a_cur a) c Hc) as [o Ho]. rewrite Ho in *. destruct o as [ch|]; cbn [default from_option id has] in *.
  - apply Hturn; try done; lia.
  - unfold avail_pop. destruct (a_avail a !! c) as [[|ch l]|] eqn:Ha; [done| |done]. cbn [default from_option id length] in Hf. apply Hturn; cbn [a_cur a_avail set_cur set_chunks set_avail]; [by rewrite list_lookup_insert_eq|by rewrite length_insert|]. rewrite list_lookup_insert_eq by (by eapply lookup_lt_Some). cbn [default from_option id]. lia.
Qed.

(** ** Carving *)

Definition new_cells (ch : Z) (c : nat) : list Z := cell_at ch c <$> seq 0 (Z.to_nat (cells_in c)).

Lemma elem_new ch c x : x ∈ new_cells ch c <-> exists i : nat, Z.of_nat i < cells_in c /\ x = cell_at ch c i.
Proof. unfold new_cells. rewrite list_elem_of_fmap. split; intros (i & H1 & H2); exists i; [apply elem_of_seq in H2; split; [lia|done]|split; [done|apply elem_of_seq; lia]]. Qed.

Definition carve_loc (ch : Z) (c t : nat) (loc : places) : places := foldl (fun m i => <[cell_at ch c i := Bump t c]> m) loc (seq 0 (Z.to_nat (cells_in c))).

Lemma carve_loc_at ch c t loc x : carve_loc ch c t loc !! x = if decide (x ∈ new_cells ch c) then Some (Bump t c) else loc !! x.
Proof. apply lookup_foldl_insert. Qed.

Lemma is_cell_new m ch k x c d : is_cell (<[ch := k]> m) x c d <-> (d = ch /\ c = ch_cls k /\ x ∈ new_cells ch c) \/ (d <> ch /\ is_cell m x c d).
Proof.
  unfold is_cell. rewrite elem_new. destruct (decide (d = ch)) as [->|Hne].
  - rewrite lookup_insert_eq. cbn. split; [intros (i & [= <-] & H1 & H2); left; eauto|intros [(_ & -> & i & H1 & H2)|[? _]]; [eauto|done]].
  - rewrite lookup_insert_ne by done. split; [by right|intros [[? _]|[_ ?]]; done].
Qed.

Section Carve.
Context (a : arena) (loc : places) (s' : Sl) (ch : Z) (c t : nat) (l : list pclass).
Hypothesis (H : cells_ok a loc) (Hl : a_pl a !! t = Some l) (Hlt : (c < PCACHE_NCLASSES)%nat) (Hz : p_left (class_of a t c) = 0).
Hypothesis (Haddr : 0 < ch /\ ch mod PCACHE_SLOT = 0) (Hfree : ~ ss_used (a_sl a) ch) (Hs : ss_ok s') (Hu : forall x, ss_used s' x <-> x = ch \/ ss_used (a_sl a) x).

Let k := mk_chunk c (size_of c) (cells_in c) [] 0 false 0 false.

Lemma carve_absent : a_chunks a !! ch = None.
Proof. destruct (a_chunks a !! ch) eqn:Ec; [|done]. exfalso. apply Hfree, (ho_used _ _ _ _ (co_home _ _ H)). by eexists. Qed.

Lemma new_chunk x : x ∈ new_cells ch c -> cell_chunk x = ch.
Proof. intros Hx. apply elem_new in Hx as (i & Hi & ->). destruct Haddr. by apply cell_chunk_at. Qed.

Lemma not_new x : is_Some (loc !! x) -> (x ∉ new_cells ch c) /\ cell_chunk x <> ch.
Proof.
  intros Hx. destruct (cell_there a loc x H Hx) as (c' & ch' & k' & _ & Hk' & _ & _ & Hch). assert (cell_chunk x <> ch) as Hne by (intros Eq; pose proof carve_absent; congruence).
  split; [|done]. intros Hn. by apply Hne, new_chunk.
Qed.

Lemma carve_old x : is_Some (loc !! x) -> carve_loc ch c t loc !! x = loc !! x.
Proof. intros Hx. rewrite carve_loc_at, decide_False; [done|by apply not_new]. Qed.

Lemma carve_iff x p : p <> Bump t c -> carve_loc ch c t loc !! x = Some p <-> loc !! x = Some p.
Proof.
  intros Hp. rewrite carve_loc_at. destruct (decide (x ∈ new_cells ch c)) as [Hn|Hn]; [|done]. split; [congruence|]. intros Hx. exfalso. by destruct (not_new x ltac:(by eexists)).
Qed.

Lemma carve_home : home_ok s' (<[ch := k]> (a_chunks a)) (stamp ch c (a_byte0 a)) (carve_loc ch c t loc).
Proof.
  pose proof (co_home _ _ H) as O. split.
  - done.
  - intros x. rewrite Hu, (ho_used _ _ _ _ O). destruct (decide (x = ch)) as [->|Hne]; [rewrite lookup_insert_eq; split; [by eexists|by left]|rewrite lookup_insert_ne by done; split; [by intros [?|?]|by right]].
  - intros d kd. destruct (decide (d = ch)) as [->|Hne].
    + rewrite lookup_insert_eq. intros [= <-]. split; cbn; try done; [constructor|]. intros x. split; [by intros ?%not_elem_of_nil|]. intros [Hx Hc]. apply carve_iff in Hx; [|done]. exfalso. by destruct (not_new x ltac:(by eexists)).
    + rewrite lookup_insert_ne by done. intros Hd. pose proof (ho_chunk _ _ _ _ O _ _ Hd) as K. split; try apply K. intros x. by rewrite (ck_home _ _ _ K), carve_iff.
  - intros x. rewrite carve_loc_at. destruct (decide (x ∈ new_cells ch c)) as [Hn|Hn].
    + split; [intros _; exists c, ch; apply is_cell_new; by left|by eexists].
    + rewrite (ho_loc _ _ _ _ O). split; intros (d & dh & Hd); exists d, dh.
      * apply is_cell_new. right. split; [|done]. destruct (cell_in _ _ _ _ _ _ _ O Hd) as (kd & Hkd & _). pose proof carve_absent. congruence.
      * apply is_cell_new in Hd as [(-> & -> & ?)|[_ ?]]; done.
  - intros x d dh Hd. unfold stamp. rewrite (lookup_foldl_insert (cell_at ch c) c). fold (new_cells ch c). apply is_cell_new in Hd as [(-> & -> & ?)|[Hne Hd]]; [by rewrite decide_True|].
    rewrite decide_False; [by apply (ho_byte0 _ _ _ _ O _ _ dh)|]. intros Hn. apply new_chunk in Hn. destruct (cell_in _ _ _ _ _ _ _ O Hd) as (_ & _ & _ & _ & ?). congruence.
  - intros x t' c' Hx. rewrite carve_loc_at in Hx. destruct (decide (x ∈ new_cells ch c)) as [Hn|Hn].
    + destruct Hx as [[=]|[= <- <-]]. exists ch. apply is_cell_new. by left.
    + destruct (ho_cls _ _ _ _ O x t' c' Hx) as [dh Hd]. exists dh. apply is_cell_new. right. split; [|done]. destruct (cell_in _ _ _ _ _ _ _ O Hd) as (kd & Hkd & _). pose proof carve_absent. congruence.
Qed.

Lemma carve_pl : pl_ok (alter (fun l => <[c := mk_pclass (ch + PCACHE_CHUNK_HDR) (cells_in c) (p_free (class_of a t c)) (p_nfree (class_of a t c))]> l) t (a_pl a)) (carve_loc ch c t loc).
Proof.
  pose proof (pl_at a loc t c H) as [P1 P2 P3 P4 P5 P6]. eapply pl_update; [apply H|done|done| |].
  - split; cbn [p_free p_nfree p_left p_bump]; try done.
    + intros x. by rewrite P4, carve_iff.
    + pose proof (cells_in_range c Hlt). lia.
    + intros x. rewrite carve_loc_at. destruct (decide (x ∈ new_cells ch c)) as [Hn|Hn]; [split; [intros _; by apply elem_new in Hn|done]|].
      rewrite P6, Hz. split; [intros (i & ? & _); lia|]. intros (i & Hi & ->). exfalso. apply Hn, elem_new. by exists i.
  - intros t' c' Hne x. rewrite !carve_iff; [done|intros [= -> ->]; by apply Hne|done].
Qed.

Lemma carve_stack : stack_ok (a_avail a) (a_cur a) (<[ch := k]> (a_chunks a)).
Proof.
  pose proof (co_stack _ _ H) as [H1 H2 H3 H4]. pose proof carve_absent as Hn. split; [done|..].
  - intros d r Hr. destruct (H2 d r Hr) as [N1 N2]. split; [done|]. intros x. rewrite N2. destruct (decide (x = ch)) as [->|Hne]; [|by rewrite lookup_insert_ne]. rewrite lookup_insert_eq, Hn. split; intros (k0 & E0 & _ & Ha); [done|]. injection E0 as <-. done.
  - intros d x Hx. destruct (H3 d x Hx) as (k0 & Hk0 & Hc). exists k0. rewrite lookup_insert_ne; [done|congruence].
  - intros x k0. destruct (decide (x = ch)) as [->|Hne]; [rewrite lookup_insert_eq; intros [= <-] Hf; done|rewrite lookup_insert_ne by done; apply H4].
Qed.

End Carve.

Lemma carve_ok e a loc c t l : cells_ok a loc -> a_pl a !! t = Some l -> (c < PCACHE_NCLASSES)%nat -> p_left (class_of a t c) = 0 ->
  let '(a', ok) := carve_chunk e c t a in
  if ok then exists loc', cells_ok a' loc' /\ same_out loc loc' /\ is_Some (a_pl a' !! t) /\ p_left (class_of a' t c) = cells_in c /\ p_free (class_of a' t c) = p_free (class_of a t c)
  else cells_ok a' loc /\ (ss_take e (a_sl a)).2 = None /\ a_chunks a' = a_chunks a.
Proof.
  intros H Hl Hlt Hz. unfold carve_chunk. destruct (ss_take e (a_sl a)) as [s' [ch|]] eqn:Et; pose proof (ss_take_ok e (a_sl a) (ho_sl _ _ _ _ (co_home _ _ H))) as Hs; rewrite Et in Hs; cbn in Hs.
  - destruct (ss_take_some e (a_sl a) ch (ho_sl _ _ _ _ (co_home _ _ H)) ltac:(by rewrite Et)) as (A1 & A2 & A3 & A4). rewrite Et in A4. cbn in A4.
    exists (carve_loc ch c t loc). cbv zeta. set (a' := put_class _ _ _ _). assert (a_pl a' = alter (fun l => <[c := mk_pclass (ch + PCACHE_CHUNK_HDR) (cells_in c) (p_free (class_of a t c)) (p_nfree (class_of a t c))]> l) t (a_pl a)) as Epl by done.
    assert (class_of a' t c = mk_pclass (ch + PCACHE_CHUNK_HDR) (cells_in c) (p_free (class_of a t c)) (p_nfree (class_of a t c))) as Ecl.
    { rewrite class_of_def, Epl, lookup_alter_eq, Hl. cbn. rewrite list_lookup_insert_eq; [done|]. by rewrite (po_len _ _ (co_pl _ _ H) _ _ Hl). }
    split_and!.
    + split; [exact (carve_home a loc s' ch c t H Hlt (conj A1 A2) A3 Hs A4)|rewrite Epl; exact (carve_pl a loc ch c t l H Hl Hlt Hz (conj A1 A2) A3)|exact (carve_stack a loc ch c H A3)].
    + intros x. by apply (carve_iff a loc ch c t H Hlt (conj A1 A2) A3).
    + rewrite Epl, lookup_alter_eq, Hl. by eexists.
    + by rewrite Ecl.
    + by rewrite Ecl.
  - split; [|done]. pose proof (ss_take_none e (a_sl a) (ho_sl _ _ _ _ (co_home _ _ H)) ltac:(by rewrite Et)) as Hn. rewrite Et in Hn. cbn in Hn.
    split; [|apply H|apply H]. destruct (co_home _ _ H) as [O1 O2 O3 O4 O5 O6]. split; try done. intros x. cbn. by rewrite Hn.
Qed.

(** ** Retiring *)

Definition retire_loc (ch : Z) (loc : places) : places := filter (fun '(x, _) => cell_chunk x <> ch) loc.

Lemma retire_loc_at ch loc x p : retire_loc ch loc !! x = Some p <-> loc !! x = Some p /\ cell_chunk x <> ch.
Proof. unfold retire_loc. rewrite map_lookup_filter_Some. done. Qed.

(** A chunk with all its cells home has nothing anywhere else. *)
Lemma full_home s m b loc ch k x p : home_ok s m b loc -> m !! ch = Some k -> ch_nfree k = ch_cells k -> loc !! x = Some p -> cell_chunk x = ch -> p = Home.
Proof.
  intros O Hk Hn Hx Hch. pose proof (ho_chunk _ _ _ _ O _ _ Hk) as K. destruct (home_bound _ _ _ _ _ _ O Hk) as [_ Hall]. rewrite (ck_nfree _ _ _ K), (ck_cells _ _ _ K) in Hn.
  destruct (proj1 (ho_loc _ _ _ _ O x) ltac:(by eexists)) as (c & dh & Hc). destruct (cell_in _ _ _ _ _ _ _ O Hc) as (_ & _ & _ & _ & Hd). assert (dh = ch) as -> by congruence.
  specialize (Hall Hn x c Hc). apply (ck_home _ _ _ K) in Hall as [? _]. congruence.
Qed.

Lemma retire_home s m b loc ch k : home_ok s m b loc -> m !! ch = Some k -> home_ok (ss_give s ch) (delete ch m) b (retire_loc ch loc).
Proof.
  intros O Hk. assert (ss_used s ch) as Hu by (apply (ho_used _ _ _ _ O); by eexists).
  assert (forall x c dh, is_cell (delete ch m) x c dh <-> dh <> ch /\ is_cell m x c dh) as Hic.
  { intros x c dh. unfold is_cell. destruct (decide (dh = ch)) as [->|Hne]; [rewrite lookup_delete_eq; split; [by intros (? & ? & _)|by intros [? _]]|rewrite lookup_delete_ne by done; naive_solver]. }
  split.
  - apply ss_give_ok; [apply O|done].
  - intros x. rewrite (ss_give_used s ch (ho_sl _ _ _ _ O) Hu), (ho_used _ _ _ _ O). destruct (decide (x = ch)) as [->|Hne]; [rewrite lookup_delete_eq; split; [by intros [? _]|by intros [? ?]]|rewrite lookup_delete_ne by done; naive_solver].
  - intros dh kd Hd. apply lookup_delete_Some in Hd as [Hne Hd]. pose proof (ho_chunk _ _ _ _ O _ _ Hd) as K. split; try apply K. intros x. rewrite (ck_home _ _ _ K), retire_loc_at. naive_solver.
  - intros x. split.
    + intros [p Hp]. apply retire_loc_at in Hp as [Hp Hn]. destruct (proj1 (ho_loc _ _ _ _ O x) ltac:(by eexists)) as (c & dh & Hc). exists c, dh. apply Hic. split; [|done]. destruct (cell_in _ _ _ _ _ _ _ O Hc) as (_ & _ & _ & _ & ?). congruence.
    + intros (c & dh & Hc). apply Hic in Hc as [Hne Hc]. destruct (proj2 (ho_loc _ _ _ _ O x) ltac:(eauto)) as [p Hp]. exists p. apply retire_loc_at. split; [done|]. destruct (cell_in _ _ _ _ _ _ _ O Hc) as (_ & _ & _ & _ & ?). congruence.
  - intros x c dh Hc. apply Hic in Hc as [_ Hc]. by apply (ho_byte0 _ _ _ _ O _ _ dh).
  - intros x t c Hx. rewrite !retire_loc_at in Hx. destruct (ho_cls _ _ _ _ O x t c ltac:(naive_solver)) as [dh Hd]. exists dh. apply Hic. split; [|done]. destruct (cell_in _ _ _ _ _ _ _ O Hd) as (_ & _ & _ & _ & ?). naive_solver.
Qed.

Lemma retire_iff s m b loc ch k x p : home_ok s m b loc -> m !! ch = Some k -> ch_nfree k = ch_cells k -> p <> Home -> retire_loc ch loc !! x = Some p <-> loc !! x = Some p.
Proof. intros O Hk Hn Hp. rewrite retire_loc_at. split; [by intros [? _]|]. intros Hx. split; [done|]. intros Hch. by apply Hp, (full_home _ _ _ _ _ _ _ _ O Hk Hn Hx). Qed.

Lemma stack_perm av cur m c l l' : stack_ok av cur m -> av !! c = Some l -> l ≡ₚ l' -> stack_ok (<[c := l']> av) cur m.
Proof.
  intros [[H0 H1] H2 H3 H4] Hl Hp. split; [by rewrite length_insert| |done|done]. intros d r. destruct (decide (d = c)) as [->|Hne]; [|rewrite list_lookup_insert_ne by done; apply H2].
  rewrite list_lookup_insert_eq by (by eapply lookup_lt_Some). intros [= <-]. destruct (H2 _ _ Hl) as [N1 N2]. split; [by rewrite <- Hp|]. intros x. by rewrite <- Hp.
Qed.

Lemma stack_remove av cur m ch k l l' : stack_ok av cur m -> m !! ch = Some k -> av !! ch_cls k = Some l -> NoDup l' -> (forall x, x ∈ l' <-> x ∈ l /\ x <> ch) ->
  stack_ok (<[ch_cls k := l']> av) (if decide (default None (cur !! ch_cls k) = Some ch) then <[ch_cls k := None]> cur else cur) (delete ch m).
Proof.
  intros [[H0 H1] H2 H3 H4] Hk Hl Hd Hl'. assert (length cur = length av) as Hlen by congruence. pose proof (lookup_lt_Some _ _ _ Hl) as L1.
  assert (forall d x, (if decide (default None (cur !! ch_cls k) = Some ch) then <[ch_cls k := None]> cur else cur) !! d = Some (Some x) <-> cur !! d = Some (Some x) /\ x <> ch) as Hcur.
  { intros d x. assert (cur !! d = Some (Some ch) -> d = ch_cls k) as Hd1 by (intros Hq; destruct (H3 _ _ Hq) as (k0 & E1 & E2); congruence). destruct (decide (default None (cur !! ch_cls k) = Some ch)) as [Eq|Hn].
    - destruct (cur !! ch_cls k) as [o|] eqn:Eo; [|done]. cbn in Eq. subst o. destruct (decide (d = ch_cls k)) as [->|Hne]; [rewrite list_lookup_insert_eq by congruence; rewrite Eo; naive_solver|].
      rewrite list_lookup_insert_ne by done. split; [|by intros [? _]]. intros Hq. split; [done|]. intros ->. by apply Hne, Hd1.
    - split; [|by intros [? _]]. intros Hq. split; [done|]. intros ->. apply Hn. rewrite <- (Hd1 Hq), Hq. done. }
  split.
  - split; [by rewrite length_insert|destruct (decide _); by rewrite ?length_insert].
  - intros d r. destruct (decide (d = ch_cls k)) as [->|Hne].
    + rewrite list_lookup_insert_eq by done. intros [= <-]. split; [done|]. destruct (H2 _ _ Hl) as [_ N2]. intros x. rewrite Hl', N2. split; [intros [(k0 & E1 & E2) Hx]; exists k0; by rewrite lookup_delete_ne|].
      intros (k0 & E1 & E2). apply lookup_delete_Some in E1 as [E0 E1]. naive_solver.
    + rewrite list_lookup_insert_ne by done. intros Hr. destruct (H2 _ _ Hr) as [N1 N2]. split; [done|]. intros x. rewrite N2. split; intros (k0 & E1 & E2 & E3); exists k0; [rewrite lookup_delete_ne; [done|congruence]|by apply lookup_delete_Some in E1 as [_ E1]].
  - intros d x Hx. apply Hcur in Hx as [Hx Hne]. destruct (H3 _ _ Hx) as (k0 & E1 & E2). exists k0. by rewrite lookup_delete_ne.
  - intros x k0 Hx Hf. apply lookup_delete_Some in Hx as [Hne Hx]. destruct (H4 _ _ Hx Hf) as [?|?]; [by left|right]. apply Hcur. done.
Qed.

(** The arena while the class [c]'s stack is in the walk's hands, [rest] of it to come. *)
Record walk_ok (c : nat) (rest : list Z) (a : arena) (loc : places) : Prop := {
  wk_home : home_ok (a_sl a) (a_chunks a) (a_byte0 a) loc;
  wk_pl : pl_ok (a_pl a) loc;
  wk_stack : stack_ok (alter (app rest) c (a_avail a)) (a_cur a) (a_chunks a)
}.

Lemma alter_app_nil c (av : list (list Z)) : alter (app []) c av = av.
Proof. apply list_eq. intros i. destruct (decide (i = c)) as [->|Hne]; [rewrite list_lookup_alter_eq; by destruct (av !! c)|by rewrite list_lookup_alter_ne]. Qed.

Lemma walk_done c a loc : walk_ok c [] a loc <-> cells_ok a loc.
Proof. split; intros [H1 H2 H3]; split; try done; by rewrite alter_app_nil in *. Qed.

Lemma retire_ok c rest a loc ch k : walk_ok c rest a loc -> a_chunks a !! ch = Some k -> ch_cls k = c -> ch_nfree k = ch_cells k ->
  forall rest', (NoDup (rest' ++ default [] (a_avail a !! c)) /\ forall x, x ∈ rest' ++ default [] (a_avail a !! c) <-> x ∈ rest ++ default [] (a_avail a !! c) /\ x <> ch) ->
  exists loc', walk_ok c rest' (chunk_retire ch a) loc' /\ same_out loc loc' /\ a_avail (chunk_retire ch a) = a_avail a.
Proof.
  intros [W1 W2 W3] Hk Hc Hn rest' [Hd Hl']. exists (retire_loc ch loc). unfold chunk_retire. rewrite Hk.
  assert ((c < PCACHE_NCLASSES)%nat) as Hlt by (rewrite <- Hc; apply (ck_cls _ _ _ (ho_chunk _ _ _ _ W1 _ _ Hk))). pose proof (st_len _ _ _ W3) as [L1 L2]. rewrite length_alter in L1.
  destruct (lookup_lt_is_Some_2 (a_avail a) c ltac:(lia)) as [l0 Hl0]. rewrite Hl0 in Hd, Hl'. cbn in Hd, Hl'.
  assert (stack_ok (alter (app rest') c (a_avail a)) (if decide (default None (a_cur a !! c) = Some ch) then <[c := None]> (a_cur a) else a_cur a) (delete ch (a_chunks a))) as Hst.
  { pose proof (stack_remove _ _ _ ch k (rest ++ l0) (rest' ++ l0) W3 Hk ltac:(rewrite Hc, list_lookup_alter_eq, Hl0; done) Hd Hl') as S1. rewrite Hc in S1.
    replace (alter (app rest') c (a_avail a)) with (<[c := rest' ++ l0]> (alter (app rest) c (a_avail a))); [done|].
    apply list_eq. intros i. destruct (decide (i = c)) as [->|Hne]; [rewrite list_lookup_insert_eq by (rewrite length_alter; lia); by rewrite list_lookup_alter_eq, Hl0|by rewrite list_lookup_insert_ne, !list_lookup_alter_ne]. }
  rewrite Hc. split_and!; [|intros x; by eapply retire_iff|by destruct (decide _)].
  destruct (decide (default None (a_cur a !! c) = Some ch)); (split; [by eapply retire_home|eapply pl_same; [exact W2|]; intros t d x; by rewrite !(retire_iff _ _ _ _ _ _ _ _ W1 Hk Hn)|done]).
Qed.

(** ** The reclaim tick *)

Lemma sparse_home a loc ch k b : home_ok (a_sl a) (a_chunks a) (a_byte0 a) loc -> a_chunks a !! ch = Some k -> home_ok (a_sl a) (<[ch := k_sparse b k]> (a_chunks a)) (a_byte0 a) loc.
Proof. intros O Hk. pose proof (ho_chunk _ _ _ _ O _ _ Hk) as K. eapply (home_update _ _ _ loc); try done; try apply K. apply (ho_cls _ _ _ _ O). Qed.

(** The chunk put back on the stack. *)
Lemma walk_back c rest a loc ch k b : walk_ok c (ch :: rest) a loc -> a_chunks a !! ch = Some k -> (c < PCACHE_NCLASSES)%nat -> walk_ok c rest (avail_push c ch (put_chunk ch (k_sparse b k) a)) loc.
Proof.
  intros [W1 W2 W3] Hk Hlt. split; [exact (sparse_home a loc ch k b W1 Hk)|done|]. cbn [avail_push set_avail put_chunk set_chunks a_avail a_cur a_chunks].
  pose proof (stack_update _ _ _ ch k (k_sparse b k) W3 Hk eq_refl eq_refl ltac:(by left)) as S1. pose proof (st_len _ _ _ W3) as [L1 _]. rewrite length_alter in L1.
  destruct (lookup_lt_is_Some_2 (a_avail a) c ltac:(lia)) as [l0 Hl0].
  pose proof (stack_perm _ _ _ c ((ch :: rest) ++ l0) (rest ++ ch :: l0) S1 ltac:(by rewrite list_lookup_alter_eq, Hl0) ltac:(cbn; apply Permutation_middle)) as S2.
  replace (alter (app rest) c (alter (cons ch) c (a_avail a))) with (<[c := rest ++ ch :: l0]> (alter (app (ch :: rest)) c (a_avail a))); [done|].
  apply list_eq. intros i. destruct (decide (i = c)) as [->|Hne]; [rewrite list_lookup_insert_eq by (rewrite length_alter; lia); by rewrite !list_lookup_alter_eq, Hl0|by rewrite list_lookup_insert_ne, !list_lookup_alter_ne].
Qed.

Lemma reclaim_walk_ok cf c rest : (c < PCACHE_NCLASSES)%nat -> forall kept lin sp a loc, walk_ok c rest a loc ->
  let '(a', _, _, _) := reclaim_walk cf c rest kept lin sp a in exists loc', cells_ok a' loc' /\ same_out loc loc'.
Proof.
  intros Hlt. induction rest as [|ch rest IH]; intros kept lin sp a loc W; cbn [reclaim_walk]; [exists loc; split; [by apply (walk_done c)|done]|].
  pose proof (st_len _ _ _ (wk_stack _ _ _ _ W)) as [L1 _]. rewrite length_alter in L1. destruct (lookup_lt_is_Some_2 (a_avail a) c ltac:(lia)) as [l0 Hl0].
  destruct (st_avail _ _ _ (wk_stack _ _ _ _ W) c ((ch :: rest) ++ l0) ltac:(by rewrite list_lookup_alter_eq, Hl0)) as [N1 N2]. destruct (proj1 (N2 ch) ltac:(by left)) as (k & Hk & Hkc & _). rewrite Hk.
  destruct ((ch_nfree k =? ch_cells k) && (kept >=? rc_keep cf)) eqn:Eb.
  - apply andb_true_iff in Eb as [Eb%Z.eqb_eq _]. cbn in N1. apply NoDup_cons in N1 as [N0 N1].
    destruct (retire_ok c (ch :: rest) a loc ch k W Hk Hkc Eb rest) as (loc1 & W1 & Hs1 & _). { rewrite Hl0. cbn. split; [done|]. intros x. rewrite elem_of_cons. split; [intros Hx; split; [by right|]; intros ->; done|intros [[?|?] ?]; done]. }
    specialize (IH (kept + 1) lin sp _ loc1 W1). destruct (reclaim_walk cf c rest _ _ _ (chunk_retire ch a)) as [[[a' ?] ?] ?]. destruct IH as (loc' & J1 & J2). exists loc'. split; [done|by eapply same_out_trans].
  - cbv zeta. match goal with |- context [k_sparse ?b k] => pose proof (walk_back c rest a loc ch k b W Hk Hlt) as W1 end.
    match goal with |- context [reclaim_walk cf c rest ?x ?y ?z ?w] => specialize (IH x y z w loc W1); by destruct (reclaim_walk cf c rest x y z w) as [[[a' ?] ?] ?] end.
Qed.

Lemma reclaim_cur_ok cf c kept a loc : cells_ok a loc -> (c < PCACHE_NCLASSES)%nat -> exists loc', cells_ok (reclaim_cur cf c kept a) loc' /\ same_out loc loc'.
Proof.
  intros H Hlt. unfold reclaim_cur. pose proof (cur_lookup a loc c H Hlt) as Hcur. destruct (default None (a_cur a !! c)) as [ch|]; [|by exists loc].
  destruct (st_cur _ _ _ (co_stack _ _ H) _ _ Hcur) as (k & Hk & Hkc). rewrite Hk. destruct (negb (ch_in_avail k) && (ch_nfree k =? ch_cells k) && (kept >=? rc_keep cf)) eqn:Eb; [|by exists loc].
  apply andb_true_iff in Eb as [Eb _]. apply andb_true_iff in Eb as [Ea%negb_true_iff Eb%Z.eqb_eq]. destruct (lookup_lt_is_Some_2 (a_avail a) c) as [l0 Hl0]; [by rewrite (proj1 (st_len _ _ _ (co_stack _ _ H)))|].
  destruct (st_avail _ _ _ (co_stack _ _ H) _ _ Hl0) as [N1 N2]. destruct (retire_ok c [] a loc ch k ltac:(by apply walk_done) Hk Hkc Eb []) as (loc' & W & Hs & _).
  - rewrite Hl0. cbn. split; [done|]. intros x. split; [|by intros [? _]]. intros Hx. split; [done|]. intros ->. apply N2 in Hx as (k0 & E1 & _ & E2). congruence.
  - exists loc'. split; [by apply (walk_done c)|done].
Qed.

Lemma reclaim_class_walk cf a loc lin sp c l0 : cells_ok a loc -> (c < PCACHE_NCLASSES)%nat -> a_avail a !! c = Some l0 ->
  let '(a', _, _, _) := reclaim_walk cf c l0 0 lin sp (set_avail (<[c := []]> (a_avail a)) a) in exists loc', cells_ok a' loc' /\ same_out loc loc'.
Proof.
  intros H Hlt Hl0. apply (reclaim_walk_ok cf c l0 Hlt 0 lin sp _ loc). split; [apply H|apply H|]. cbn. replace (alter (app l0) c (<[c := []]> (a_avail a))) with (a_avail a); [apply H|]. apply list_eq. intros i. destruct (decide (i = c)) as [->|Hne].
  - rewrite list_lookup_alter_eq, list_lookup_insert_eq by (by eapply lookup_lt_Some). cbn. by rewrite app_nil_r.
  - by rewrite list_lookup_alter_ne, list_lookup_insert_ne.
Qed.

Lemma next_ok (a : arena) loc : cells_ok a loc -> cells_ok (set_sl (ss_next (a_sl a)) a) loc.
Proof. intros H. split; [|apply H|apply H]. destruct (co_home _ _ H) as [O1 O2 O3 O4 O5 O6]. split; try done; [by apply ss_next_ok|]. intros x. cbn. by rewrite ss_next_used. Qed.

Lemma reclaim_class_ok cf a loc lin sp c : cells_ok a loc -> (c < PCACHE_NCLASSES)%nat -> let '(a', _, _) := reclaim_class cf (a, lin, sp) c in exists loc', cells_ok a' loc' /\ same_out loc loc'.
Proof.
  intros H Hlt. unfold reclaim_class. destruct (lookup_lt_is_Some_2 (a_avail a) c) as [l0 Hl0]; [by rewrite (proj1 (st_len _ _ _ (co_stack _ _ H)))|]. rewrite Hl0. cbn [default from_option id].
  pose proof (reclaim_class_walk cf a loc lin sp c l0 H Hlt Hl0) as Hw. destruct (reclaim_walk cf c l0 0 lin sp _) as [[[a1 kept] lin1] sp1]. destruct Hw as (loc1 & H1 & S1).
  destruct (reclaim_cur_ok cf c kept a1 loc1 H1 Hlt) as (loc2 & H2 & S2). exists loc2. split; [done|by eapply same_out_trans].
Qed.

Lemma reclaim_tick_ok cf a loc : cells_ok a loc -> exists loc', cells_ok (reclaim_tick cf a).1 loc' /\ same_out loc loc'.
Proof.
  intros H. unfold reclaim_tick. assert (cells_ok (set_sl (ss_next (a_sl a)) a) loc)  as H0 by (by apply next_ok).
  assert (forall l a loc lin sp, cells_ok a loc -> Forall (fun c => (c < PCACHE_NCLASSES)%nat) l -> let '(a', _, _) := foldl (reclaim_class cf) (a, lin, sp) l in exists loc', cells_ok a' loc' /\ same_out loc loc') as Hl.
  { clear. induction l as [|c l IH]; intros a loc lin sp H Hf; cbn [foldl]; [by exists loc|]. apply Forall_cons in Hf as [Hc Hf]. pose proof (reclaim_class_ok cf a loc lin sp c H Hc) as Hr.
    destruct (reclaim_class cf (a, lin, sp) c) as [[a1 lin1] sp1]. destruct Hr as (loc1 & H1 & S1). specialize (IH a1 loc1 lin1 sp1 H1 Hf). destruct (foldl (reclaim_class cf) (a1, lin1, sp1) l) as [[a2 ?] ?]. destruct IH as (loc2 & H2 & S2).
    exists loc2. split; [done|by eapply same_out_trans]. }
  specialize (Hl (seq 0 PCACHE_NCLASSES) _ loc 0 0 H0 ltac:(apply Forall_forall; intros x Hx; apply elem_of_seq in Hx; lia)). destruct (foldl _ _ _) as [[a1 lin] sp]. destruct Hl as (loc' & [J1 J2 J3] & J4). exists loc'. split; [by split|done].
Qed.

(** ** A drained arena *)

Definition full (a : arena) : Prop := forall ch k, a_chunks a !! ch = Some k -> ch_nfree k = ch_cells k.

Lemma full_sub (a a' : arena) : full a -> a_chunks a' ⊆ a_chunks a -> full a'.
Proof. intros H Hs ch k Hk. apply (H ch). by eapply lookup_weaken. Qed.

(** With every cell home every chunk is full. *)
Lemma home_full a loc : cells_ok a loc -> (forall x p, loc !! x = Some p -> p = Home) -> full a.
Proof.
  intros H Hall ch k Hk. pose proof (ho_chunk _ _ _ _ (co_home _ _ H) _ _ Hk) as [K1 K2 K3 [K4 K4'] K5 K6 K7]. rewrite K6, K3. pose proof (cells_in_range (ch_cls k) K1) as [Hc _]. set (c := ch_cls k) in *.
  assert (ch_free k ≡ₚ new_cells ch c) as Hp; [|unfold zlen; rewrite (Permutation_length Hp); unfold new_cells; rewrite length_fmap, length_seq; lia].
  apply NoDup_Permutation; [done|unfold new_cells; apply NoDup_fmap_2_strong; [intros i j _ _; by apply cell_at_inj|apply NoDup_seq]|]. intros x. rewrite K7, elem_new. split.
  - intros [Hx Hch]. destruct (cell_there a loc x H ltac:(by eexists)) as (c' & ch' & k' & Hic & Hk' & Hkc & _ & Hchk). assert (ch' = ch) as -> by congruence. assert (c' = c) as -> by (unfold c; congruence). destruct Hic as (i & _ & Hi & ->). by exists i.
  - intros (i & Hi & ->). assert (is_cell (a_chunks a) (cell_at ch c i) c ch) as Hic by (exists i; rewrite Hk; done). split; [|by apply cell_chunk_at]. destruct (proj2 (ho_loc _ _ _ _ (co_home _ _ H) (cell_at ch c i)) ltac:(by exists c, ch)) as [p Hq]. by rewrite Hq, (Hall _ _ Hq).
Qed.

Lemma retire_chunks ch (a : arena) : a_chunks (chunk_retire ch a) = delete ch (a_chunks a) /\ a_avail (chunk_retire ch a) = a_avail a.
Proof. unfold chunk_retire. destruct (a_chunks a !! ch) as [k|] eqn:Hk; [by destruct (decide _)|]. split; [|done]. by rewrite delete_id. Qed.

Lemma walk_retires cf c l : forall kept lin sp (a : arena), rc_keep cf <= kept -> full a ->
  let '(a', _, _, _) := reclaim_walk cf c l kept lin sp a in a_chunks a' ⊆ a_chunks a /\ a_avail a' = a_avail a.
Proof.
  induction l as [|ch l IH]; intros kept lin sp a Hk Hf; [done|]. cbn [reclaim_walk]. destruct (a_chunks a !! ch) as [k|] eqn:Ek; [|by apply IH]. rewrite (Hf ch k Ek), Z.eqb_refl. assert ((kept >=? rc_keep cf) = true) as -> by lia. cbn [andb].
  destruct (retire_chunks ch a) as [R1 R2]. assert (a_chunks (chunk_retire ch a) ⊆ a_chunks a) as Hs by (rewrite R1; apply delete_subseteq). specialize (IH (kept + 1) lin sp (chunk_retire ch a) ltac:(lia) (full_sub _ _ Hf Hs)). destruct (reclaim_walk _ _ _ _ _ _ _) as [[[a' ?] ?] ?]. destruct IH as [I1 I2]. split; [by etransitivity|congruence].
Qed.

Lemma walk_kept cf c l : forall kept lin sp (a : arena), kept <= (reclaim_walk cf c l kept lin sp a).1.1.2.
Proof.
  induction l as [|ch l IH]; intros kept lin sp a; cbn [reclaim_walk]; [done|]. destruct (a_chunks a !! ch) as [k|]; [|apply IH]. destruct (_ && _); [etransitivity; [|apply IH]; lia|]. etransitivity; [|apply IH]. destruct (_ =? _); lia.
Qed.

(** The tick takes back every chunk of a class whose chunks are all full. *)
Lemma class_drained cf a loc lin sp c : cells_ok a loc -> (c < PCACHE_NCLASSES)%nat -> rc_keep cf <= 0 -> full a ->
  let '(a', _, _) := reclaim_class cf (a, lin, sp) c in a_chunks a' ⊆ a_chunks a /\ forall ch k, a_chunks a' !! ch = Some k -> ch_cls k <> c.
Proof.
  intros H Hlt Hk Hf. unfold reclaim_class. destruct (lookup_lt_is_Some_2 (a_avail a) c) as [l0 Hl0]; [by rewrite (proj1 (st_len _ _ _ (co_stack _ _ H)))|]. rewrite Hl0. cbn [default from_option id]. pose proof (reclaim_class_walk cf a loc lin sp c l0 H Hlt Hl0) as Hw.
  set (a0 := set_avail (<[c := []]> (a_avail a)) a) in *. pose proof (walk_retires cf c l0 0 lin sp a0 Hk Hf) as Hr. pose proof (walk_kept cf c l0 0 lin sp a0) as Hkept. destruct (reclaim_walk cf c l0 0 lin sp a0) as [[[a1 kept] lin1] sp1]. destruct Hw as (loc1 & H1 & _). destruct Hr as [Hs Hav]. cbn [fst snd] in Hkept.
  assert (a_avail a1 !! c = Some []) as Hnil by (rewrite Hav; apply list_lookup_insert_eq; by eapply lookup_lt_Some). pose proof (full_sub a a1 Hf Hs) as Hf1.
  assert (forall ch k, a_chunks a1 !! ch = Some k -> ch_cls k = c -> a_cur a1 !! c = Some (Some ch) /\ ch_in_avail k = false) as Hcur.
  { intros ch k Hck Hcls. assert (ch_in_avail k = false) as Hia by (destruct (ch_in_avail k) eqn:Hi; [|done]; exfalso; apply (not_elem_of_nil ch), (st_avail _ _ _ (co_stack _ _ H1) _ _ Hnil); eauto). split; [|done].
    pose proof (ho_chunk _ _ _ _ (co_home _ _ H1) _ _ Hck) as K. destruct (st_reach _ _ _ (co_stack _ _ H1) _ _ Hck) as [?|Hq]; [|congruence|by rewrite Hcls in Hq].
    intros Hnl. pose proof (Hf1 ch k Hck) as Hfull. rewrite (ck_nfree _ _ _ K), (ck_cells _ _ _ K), Hnl in Hfull. pose proof (cells_in_range _ (ck_cls _ _ _ K)). unfold zlen in Hfull. cbn in Hfull. lia. }
  unfold reclaim_cur. destruct (a_cur a1 !! c) as [[ch|]|] eqn:Hc1; cbn [default from_option id]; [|split; [done|]; intros ch k Hck Hcls; destruct (Hcur ch k Hck Hcls); congruence|split; [done|]; intros ch k Hck Hcls; destruct (Hcur ch k Hck Hcls); congruence].
  destruct (a_chunks a1 !! ch) as [k|] eqn:Hk1; [|split; [done|]; intros ch' k' Hck Hcls; destruct (Hcur ch' k' Hck Hcls); congruence]. destruct (st_cur _ _ _ (co_stack _ _ H1) _ _ Hc1) as (k0 & Hk0 & Hkc). assert (k0 = k) as -> by congruence. destruct (Hcur ch k Hk1 Hkc) as [_ Hia]. rewrite Hia, (Hf1 ch k Hk1), Z.eqb_refl. assert ((kept >=? rc_keep cf) = true) as -> by lia. cbn [negb andb].
  destruct (retire_chunks ch a1) as [R1 _]. rewrite R1. split; [etransitivity; [apply delete_subseteq|exact Hs]|]. intros ch' k' Hck Hcls. apply lookup_delete_Some in Hck as [Hne Hck]. destruct (Hcur ch' k' Hck Hcls). congruence.
Qed.

Lemma tick_drains cf a loc : cells_ok a loc -> rc_keep cf <= 0 -> full a -> a_chunks (reclaim_tick cf a).1 = ∅.
Proof.
  intros H Hk Hf. unfold reclaim_tick. assert (cells_ok (set_sl (ss_next (a_sl a)) a) loc) as H0 by (by apply next_ok).
  assert (forall l a loc lin sp, cells_ok a loc -> full a -> Forall (fun c => (c < PCACHE_NCLASSES)%nat) l -> let '(a', _, _) := foldl (reclaim_class cf) (a, lin, sp) l in
    a_chunks a' ⊆ a_chunks a /\ (exists loc', cells_ok a' loc') /\ forall ch k, a_chunks a' !! ch = Some k -> ch_cls k ∉ l) as Hl.
  { clear -Hk. induction l as [|c l IH]; intros a loc lin sp H Hf Hl; cbn [foldl]; [split_and!; [done|by exists loc|by intros ch k _ ?%not_elem_of_nil]|]. apply Forall_cons in Hl as [Hc Hl]. pose proof (reclaim_class_ok cf a loc lin sp c H Hc) as Hr. pose proof (class_drained cf a loc lin sp c H Hc Hk Hf) as Hd.
    destruct (reclaim_class cf (a, lin, sp) c) as [[a1 lin1] sp1]. destruct Hr as (loc1 & H1 & S1). destruct Hd as [D1 D2]. specialize (IH a1 loc1 lin1 sp1 H1 (full_sub _ _ Hf D1) Hl). destruct (foldl (reclaim_class cf) (a1, lin1, sp1) l) as [[a2 ?] ?]. destruct IH as (I1 & I2 & I3).
    split_and!; [by etransitivity|done|]. intros ch k Hck [Hx|Hx]%elem_of_cons; [|by apply (I3 ch k Hck)]. apply (D2 ch k); [by eapply lookup_weaken|done]. }
  specialize (Hl (seq 0 PCACHE_NCLASSES) _ loc 0 0 H0 Hf ltac:(apply Forall_forall; intros x Hx; apply elem_of_seq in Hx; lia)). destruct (foldl _ _ _) as [[a1 lin] sp]. destruct Hl as (_ & (loc' & H1) & Hn). cbn [fst set_stats a_chunks]. apply map_eq. intros ch. rewrite lookup_empty. destruct (a_chunks a1 !! ch) as [k|] eqn:Hck; [|done]. exfalso. apply (Hn ch k Hck). apply elem_of_seq. pose proof (ck_cls _ _ _ (ho_chunk _ _ _ _ (co_home _ _ H1) _ _ Hck)). lia.
Qed.

(** ** Allocation *)

(** [x] taken by a user, who had not got it; and [x] given back. *)
Definition new_out (loc loc' : places) (x : Z) : Prop := loc !! x <> Some Out /\ forall y, loc' !! y = Some Out <-> y = x \/ loc !! y = Some Out.
Definition less_out (loc loc' : places) (x : Z) : Prop := forall y, loc' !! y = Some Out <-> y <> x /\ loc !! y = Some Out.

Lemma new_out_insert loc loc1 x p : same_out loc loc1 -> loc1 !! x = Some p -> p <> Out -> new_out loc (<[x := Out]> loc1) x.
Proof.
  intros Hs Hx Hp. split; [rewrite <- (Hs x); congruence|]. intros y. destruct (decide (y = x)) as [->|Hne]; [rewrite lookup_insert_eq; split; [by left|done]|rewrite lookup_insert_ne, (Hs y) by done; naive_solver].
Qed.

Lemma less_out_insert loc loc' x p : loc !! x = Some Out -> p <> Out -> same_out (<[x := p]> loc) loc' -> less_out loc loc' x.
Proof.
  intros Hx Hp Hs y. rewrite (Hs y). destruct (decide (y = x)) as [->|Hne]; [rewrite lookup_insert_eq; naive_solver|rewrite lookup_insert_ne by done; naive_solver].
Qed.

Lemma class_lt size c : 0 <= size -> cell_class size = Some c -> (Z.to_nat c < PCACHE_NCLASSES)%nat /\ size <= size_of (Z.to_nat c).
Proof.
  intros H0 Hc. pose proof (cell_class_fits size c H0 Hc) as Hf. unfold cell_class in Hc. destruct (size >? PCACHE_CELL_MAX); [done|]. injection Hc as <-. set (c := size2class _) in *.
  pose proof (class_from_ge cell_sizes (Z.shiftr (size + 31) 5 * 32) 0) as [Hr _]. fold (size2class (Z.shiftr (size + 31) 5)) in Hr. fold c in Hr. unfold pcache_cell_bound in Hf.
  destruct ((0 <=? c) && (c <? Z.of_nat PCACHE_NCLASSES)) eqn:Eb; [apply andb_true_iff in Eb as [_ Eb%Z.ltb_lt]; split; [lia|done]|]. assert (size = 0) as -> by lia. vm_compute. split; [lia|done].
Qed.

Lemma get_palloc_ok mem t a loc : cells_ok a loc -> let '(a', ok) := get_palloc mem t a in cells_ok a' loc /\ (forall c, class_of a' t c = class_of a t c) /\ (ok = true -> is_Some (a_pl a' !! t)) /\ (ok = false -> a' = a).
Proof.
  intros H. unfold get_palloc. destruct (a_pl a !! t) as [l|] eqn:El; [split_and!; [done|done|by rewrite El; eexists|done]|]. destruct mem; [|by split_and!].
  assert (forall c, default (mk_pclass 0 0 [] 0) (palloc0 !! c) = mk_pclass 0 0 [] 0) as Hd by (intros c; unfold palloc0; destruct (replicate _ _ !! c) as [p|] eqn:Ep; [by apply lookup_replicate in Ep as [-> _]|done]).
  split_and!; [|intros c; unfold class_of; cbn; rewrite lookup_insert_eq, El; cbn; apply Hd|cbn; by rewrite lookup_insert_eq; eexists|done].
  split; [apply H|cbn|apply H]. pose proof (co_pl _ _ H) as [P1 P2]. split.
  - intros t' l'. destruct (decide (t' = t)) as [->|Hne]; [rewrite lookup_insert_eq; intros [= <-]; done|rewrite lookup_insert_ne by done; apply P1].
  - intros t' c'. specialize (P2 t' c'). destruct (decide (t' = t)) as [->|Hne]; [rewrite lookup_insert_eq; rewrite El in P2; cbn; by rewrite Hd|by rewrite lookup_insert_ne].
Qed.

(** A taken cell is one of the class's. *)
Lemma taken_cell a loc t c x : cells_ok a loc -> loc !! x = Some (Priv t c) \/ loc !! x = Some (Bump t c) -> exists ch, is_cell (a_chunks a) x c ch.
Proof. intros H Hx. by apply (ho_cls _ _ _ _ (co_home _ _ H) x t c). Qed.

Lemma take_private_ok t c a loc : cells_ok a loc -> (c < PCACHE_NCLASSES)%nat ->
  match take_private t c a with
  | (a', Some x) => exists loc', cells_ok a' loc' /\ new_out loc loc' x /\ exists ch, is_cell (a_chunks a') x c ch
  | (a', None) => a' = a /\ p_free (class_of a t c) = []
  end.
Proof.
  intros H Hlt. unfold take_private. destruct (p_free (class_of a t c)) as [|x l] eqn:Ef; [done|]. destruct (take_ok a loc t c x l H Ef Hlt) as [Hx H1]. exists (<[x := Out]> loc). split_and!.
  - by apply live_add_ok.
  - by eapply new_out_insert.
  - destruct (taken_cell a loc t c x H (or_introl Hx)) as [ch Hc]. exists ch. unfold live_add. by destruct (a_stripe _ !! t).
Qed.

Lemma take_bump_ok t c a loc : cells_ok a loc -> (c < PCACHE_NCLASSES)%nat -> p_left (class_of a t c) <> 0 ->
  let '(a', x) := take_bump t c a in exists loc', cells_ok a' loc' /\ new_out loc loc' x /\ exists ch, is_cell (a_chunks a') x c ch.
Proof.
  intros H Hlt Hn. unfold take_bump. destruct (bump_taken_ok a loc t c H Hn Hlt) as [Hx H1]. eexists. split_and!; [apply live_add_ok, H1|by eapply new_out_insert|].
  destruct (taken_cell a loc t c _ H (or_intror Hx)) as [ch Hc]. exists ch. unfold live_add. by destruct (a_stripe _ !! t).
Qed.

Lemma new_out_same loc loc1 loc2 x : same_out loc loc1 -> new_out loc1 loc2 x -> new_out loc loc2 x.
Proof. intros Hs [H1 H2]. split; [by rewrite <- (Hs x)|]. intros y. by rewrite H2, (Hs y). Qed.

(** Why there was no cell. *)
Definition refused (e : E) (mem : bool) (t : nat) (size : Z) (a a' : arena) : Prop :=
  cell_class size = None \/ (a_pl a !! t = None /\ mem = false) \/ exists c, cell_class size = Some c /\ no_home a' (Z.to_nat c) /\ (ss_take e (a_sl a)).2 = None.

Lemma cell_alloc_ok e mem t size a loc : cells_ok a loc -> 0 <= size ->
  let '(a', r) := pcache_cell_alloc e mem t size a in
  exists loc', cells_ok a' loc' /\
  match r with
  | Some x => new_out loc loc' x /\ exists c ch, cell_class size = Some c /\ size <= size_of (Z.to_nat c) /\ is_cell (a_chunks a') x (Z.to_nat c) ch
  | None => same_out loc loc' /\ refused e mem t size a a'
  end.
Proof.
  intros H H0. unfold pcache_cell_alloc. destruct (cell_class size) as [cz|] eqn:Ec; [|exists loc; split_and!; [done|done|by left]]. destruct (class_lt size cz H0 Ec) as [Hlt Hsz]. set (c := Z.to_nat cz) in *.
  pose proof (get_palloc_ok mem t a loc H) as G. assert (a_sl (get_palloc mem t a).1 = a_sl a) as Esl by (unfold get_palloc; destruct (a_pl a !! t); [done|by destruct mem]).
  assert ((get_palloc mem t a).2 = false -> a_pl a !! t = None /\ mem = false) as Ef by (unfold get_palloc; destruct (a_pl a !! t); [done|by destruct mem]).
  destruct (get_palloc mem t a) as [a1 ok]. destruct G as (H1 & Hcl & Hpl & _). cbn in Esl, Ef. destruct ok; cbn [negb]; [|exists loc; split_and!; [done|done|right; left; by apply Ef]]. destruct (Hpl eq_refl) as [l Hl].
  pose proof (take_private_ok t c a1 loc H1 Hlt) as P. destruct (take_private t c a1) as [a2 [x|]]; [destruct P as (loc' & P1 & P2 & ch & P3); exists loc'; split_and!; eauto 10|]. destruct P as [-> Hf].
  destruct (Z.eqb_spec (p_left (class_of a1 t c)) 0) as [Hz|Hz]; cbn [negb].
  2: { pose proof (take_bump_ok t c a1 loc H1 Hlt Hz) as B. destruct (take_bump t c a1) as [a3 x]. destruct B as (loc' & B1 & B2 & ch & B3). exists loc'. split_and!; eauto 10. }
  pose proof (refill_ok (refill_fuel c a1) a1 loc t c l 0 H1 Hl Hlt ltac:(by rewrite Hf)) as R. destruct (refill (refill_fuel c a1) t c 0 a1) as [a3 got].
  destruct R as (loc3 & R1 & R2 & [l3 R3] & R4 & R5 & R6 & R7); [unfold refill_fuel, refill_left, has; destruct (default None (a_cur a1 !! c)); rewrite ?Z.sub_0_r; lia|].
  destruct (Z.eqb_spec got 0) as [->|Hg].
  - pose proof (carve_ok e a3 loc3 c t l3 R1 R3 Hlt ltac:(by rewrite R5)) as V. destruct (carve_chunk e c t a3) as [a4 ok]. destruct ok; cbn [negb].
    + destruct V as (loc4 & V1 & V2 & V3 & V4 & V5). assert (p_free (class_of a4 t c) = []) as Hf4 by (rewrite V5; by apply zlen_zero).
      unfold take_private. rewrite Hf4. pose proof (take_bump_ok t c a4 loc4 V1 Hlt ltac:(rewrite V4; pose proof (cells_in_range c Hlt); lia)) as B. destruct (take_bump t c a4) as [a5 x]. destruct B as (loc' & B1 & B2 & ch & B3).
      exists loc'. split_and!; [done| |eauto 10]. eapply new_out_same; [|exact B2]. by eapply same_out_trans.
    + destruct V as (V1 & V2 & V3). exists loc3. split_and!; [done|done|]. right; right. exists cz. split_and!; [done| |by rewrite <- Esl, <- R7].
      intros d k Hk. rewrite V3 in Hk. exact (R6 eq_refl d k Hk).
  - cbn [negb]. pose proof (take_private_ok t c a3 loc3 R1 Hlt) as P. destruct (take_private t c a3) as [a4 [x|]].
    + destruct P as (loc' & P1 & P2 & ch & P3). exists loc'. split_and!; [done|by eapply new_out_same|eauto 10].
    + destruct P as [_ Hf3]. rewrite Hf3 in R4. exfalso. apply Hg. by rewrite <- R4.
Qed.

(** ** Freeing *)

Lemma put_class_id (a : arena) t c l p : a_pl a !! t = Some l -> l !! c = Some p -> put_class t c p a = a.
Proof.
  intros Hl Hp. unfold put_class. replace (alter (fun l => <[c := p]> l) t (a_pl a)) with (a_pl a); [by destruct a|]. apply map_eq. intros i. destruct (decide (i = t)) as [->|Hne]; [|by rewrite lookup_alter_ne].
  rewrite lookup_alter_eq, Hl. cbn. by rewrite list_insert_id.
Qed.

Lemma class_lookup a loc t c l : cells_ok a loc -> a_pl a !! t = Some l -> (c < PCACHE_NCLASSES)%nat -> l !! c = Some (class_of a t c).
Proof. intros H Hl Hlt. destruct (lookup_lt_is_Some_2 l c) as [p Hp]; [by rewrite (po_len _ _ (co_pl _ _ H) _ _ Hl)|]. rewrite class_of_def, Hl. cbn. by rewrite Hp. Qed.

(** Pushed onto a full stack and taken off again for home. *)
Lemma donate_pushed a loc t c x l n : cells_ok a loc -> a_pl a !! t = Some l -> (c < PCACHE_NCLASSES)%nat ->
  donate (S n) t c (put_class t c (p_push x (class_of a t c)) a) = donate n t c (cell_home x a).
Proof.
  intros H Hl Hlt. cbn [donate]. set (p := class_of a t c). rewrite (class_of_put a loc t c (p_push x p) l H Hl Hlt). cbn [p_push p_free].
  assert (p_take (p_free p) (p_push x p) = p) as Ep.
  { pose proof (pl_at a loc t c H) as [P1 P2 P3 _ _ _]. fold p in P1, P2, P3. unfold p_take, p_push. cbn. destruct p as [b lf fr nf]. cbn in *. f_equal. rewrite P2 in *. pose proof (zlen_nonneg fr). unfold PCACHE_PRIVATE_MAX in *. rewrite (u32_id (zlen fr + 1)) by word_lia. rewrite u32_id by word_lia. lia. }
  assert (put_class t c p (put_class t c (p_push x p) a) = a) as Ea; [|by rewrite Ep, Ea].
  transitivity (put_class t c p a); [|by eapply put_class_id; [done|eapply class_lookup]]. unfold put_class. cbn. unfold set_pl. cbn. f_equal. apply map_eq. intros i. destruct (decide (i = t)) as [->|Hne]; [|by rewrite !lookup_alter_ne].
  rewrite !lookup_alter_eq, Hl. cbn. by rewrite list_insert_insert_eq.
Qed.

Lemma cell_free_ok mem t x a loc : cells_ok a loc -> loc !! x = Some Out -> exists loc', cells_ok (pcache_cell_free mem t x a) loc' /\ less_out loc loc' x.
Proof.
  intros H Hx. destruct (cell_there a loc x H ltac:(by eexists)) as (c & ch & k & Hc & Hk & Hkc & Hlt & Hch). unfold pcache_cell_free. rewrite (ho_byte0 _ _ _ _ (co_home _ _ H) _ _ _ Hc).
  rewrite (proj2 (Nat.leb_gt _ _) Hlt). pose proof (live_add_ok a loc t (- size_of c) H) as H1. set (a1 := live_add t (- size_of c) a) in *. assert (a_chunks a1 = a_chunks a) as Ech by (unfold a1, live_add; by destruct (a_stripe a !! t)).
  pose proof (get_palloc_ok mem t a1 loc H1) as G. assert (a_chunks (get_palloc mem t a1).1 = a_chunks a1) as Ech2 by (unfold get_palloc; destruct (a_pl a1 !! t); [done|by destruct mem]).
  destruct (get_palloc mem t a1) as [a2 ok]. destruct G as (H2 & Hcl & Hpl & _). cbn in Ech2. destruct ok; cbn [negb].
  2: { exists (<[x := Home]> loc). split; [by apply cell_home_ok|by apply (less_out_insert loc _ x Home)]. }
  destruct (Hpl eq_refl) as [l Hl]. rewrite (class_of_put a2 loc t c _ l H2 Hl Hlt). pose proof (pl_at a2 loc t c H2) as P. pose proof (zlen_nonneg (p_free (class_of a2 t c))) as Hz. pose proof (pc_small _ _ _ _ P) as Hs. pose proof (pc_nfree _ _ _ _ P) as Hn.
  cbn [p_push p_nfree]. rewrite Hn, Z.gtb_ltb. unfold PCACHE_PRIVATE_MAX in *. rewrite u32_id by word_lia. destruct (Z.ltb_spec 256 (zlen (p_free (class_of a2 t c)) + 1)) as [Hb|Hb].
  - unfold PCACHE_DONATE. rewrite (donate_pushed a2 loc t c x l 127 H2 Hl Hlt). pose proof (cell_home_ok a2 loc x H2 Hx) as H3.
    destruct (donate_ok 127 _ _ t c l H3 ltac:(by rewrite cell_home_pl) Hlt) as (loc4 & D1 & D2 & [l4 D3] & _). destruct (bump_home_ok _ _ t c l4 D1 D3 Hlt) as (loc5 & B1 & B2 & _).
    exists loc5. split; [done|]. apply (less_out_insert loc _ x Home); [done|done|by eapply same_out_trans].
  - exists (<[x := Priv t c]> loc). split; [|by apply (less_out_insert loc _ x (Priv t c))]. eapply push_ok; try done; [by rewrite Ech2, Ech|unfold PCACHE_PRIVATE_MAX; lia].
Qed.

Lemma cell_free_global_ok t x a loc : cells_ok a loc -> loc !! x = Some Out -> exists loc', cells_ok (pcache_cell_free_global t x a) loc' /\ less_out loc loc' x.
Proof.
  intros H Hx. destruct (cell_there a loc x H ltac:(by eexists)) as (c & ch & k & Hc & Hk & Hkc & Hlt & Hch). unfold pcache_cell_free_global. rewrite (ho_byte0 _ _ _ _ (co_home _ _ H) _ _ _ Hc), (proj2 (Nat.leb_gt _ _) Hlt).
  exists (<[x := Home]> loc). split; [apply cell_home_ok; [by apply live_add_ok|done]|by apply (less_out_insert loc _ x Home)].
Qed.

Lemma flush_ok t a loc : cells_ok a loc -> exists loc', cells_ok (pcache_arena_flush_private t a) loc' /\ same_out loc loc'.
Proof.
  intros H. unfold pcache_arena_flush_private. destruct (a_pl a !! t) as [l|] eqn:El; [|by exists loc].
  assert (forall cs a loc l, cells_ok a loc -> a_pl a !! t = Some l -> Forall (fun c => (c < PCACHE_NCLASSES)%nat) cs -> exists loc', cells_ok (foldl (fun a c => flush_class t c a) a cs) loc' /\ same_out loc loc') as Hl.
  { clear. induction cs as [|c cs IH]; intros a loc l H Hl Hf; cbn [foldl]; [by exists loc|]. apply Forall_cons in Hf as [Hc Hf]. unfold flush_class at 2.
    destruct (donate_ok (length (p_free (class_of a t c))) a loc t c l H Hl Hc) as (loc1 & D1 & D2 & [l1 D3] & _). destruct (bump_home_ok _ loc1 t c l1 D1 D3 Hc) as (loc2 & B1 & B2 & [l2 B3]).
    destruct (IH _ loc2 l2 B1 B3 Hf) as (loc3 & J1 & J2). exists loc3. split; [done|]. eapply same_out_trans; [by eapply same_out_trans|done]. }
  apply (Hl _ a loc l H El). apply Forall_forall. intros x Hx. apply elem_of_seq in Hx. lia.
Qed.

(** A child that drops its copy has changed nothing. *)
Lemma fork_child_ok t t' (a : arena) : a_pl a !! t' = None -> pcache_arena_child_init t' (fork t t' a) = a.
Proof.
  intros Ht. unfold fork, pcache_arena_child_init, set_pl. destruct (a_pl a !! t) as [l|]; cbn; destruct a; cbn in *; f_equal; [rewrite delete_insert_id; [done|done]|by apply delete_id].
Qed.

(** ** Evacuation *)

(** What a target must be: on the stack, partly in use, not where the record comes from. *)
Definition target_ok (a : arena) (c : nat) (src ch : Z) : Prop :=
  exists k, a_chunks a !! ch = Some k /\ ch_cls k = c /\ ch_nfree k <> 0 /\ ch_nfree k < ch_cells k /\ ch <> src.

Lemma densest_ok f src (a : arena) c l : (forall ch k, ch ∈ l -> a_chunks a !! ch = Some k -> ch_cls k = c) -> forall best bf r, (forall ch, best = Some ch -> target_ok a c src ch) -> densest f src l a best bf = Some r -> target_ok a c src r.
Proof.
  induction l as [|ch l IH]; intros Hl best bf r Hb; cbn [densest]; [by intros ->; apply Hb|]. assert (forall d k, d ∈ l -> a_chunks a !! d = Some k -> ch_cls k = c) as Hl' by (intros d k Hd; apply Hl; by right).
  destruct (a_chunks a !! ch) as [k|] eqn:Hk; [|by apply IH]. destruct (negb (ch_nfree k =? 0) && (ch_nfree k <? ch_cells k) && (ch_nfree k <? bf) && f k && negb (ch =? src)) eqn:Eb; [|by apply IH].
  apply IH; [done|]. intros d [= <-]. rewrite !andb_true_iff, !negb_true_iff in Eb. destruct Eb as [[[[E1%Z.eqb_neq E2%Z.ltb_lt] _] _] E3%Z.eqb_neq]. exists k. split_and!; [done|apply (Hl ch); [by left|done]|done|done|done].
Qed.

Lemma sparse_ok a loc ch k b : cells_ok a loc -> a_chunks a !! ch = Some k -> cells_ok (set_chunks (alter (k_sparse b) ch (a_chunks a)) a) loc.
Proof.
  intros H Hk. replace (alter (k_sparse b) ch (a_chunks a)) with (<[ch := k_sparse b k]> (a_chunks a)) by (apply map_eq; intros i; destruct (decide (i = ch)) as [->|Hne]; [by rewrite lookup_insert_eq, lookup_alter_eq, Hk|by rewrite lookup_insert_ne, lookup_alter_ne]).
  split; [cbn; exact (sparse_home a loc ch k b (co_home _ _ H) Hk)|apply H|]. cbn. eapply stack_update; [apply H|done|done|done|by left].
Qed.

Lemma dense_target_ok a loc c src : cells_ok a loc -> (c < PCACHE_NCLASSES)%nat ->
  let '(a', best) := dense_target c src a in cells_ok a' loc /\ match best with Some ch => target_ok a' c src ch | None => a' = a end.
Proof.
  intros H Hlt. unfold dense_target. destruct (lookup_lt_is_Some_2 (a_avail a) c) as [l Hl]; [by rewrite (proj1 (st_len _ _ _ (co_stack _ _ H)))|]. rewrite Hl. cbn [default from_option id].
  assert (forall ch k, ch ∈ l -> a_chunks a !! ch = Some k -> ch_cls k = c) as Hc by (intros ch k Hin Hk; destruct (st_avail _ _ _ (co_stack _ _ H) _ _ Hl) as [_ N]; apply N in Hin as (k0 & E1 & E2 & _); congruence).
  destruct (densest (fun k => negb (ch_sparse k)) src l a None (2 ^ 32 - 1)) as [ch|] eqn:E1; [split; [done|exact (densest_ok _ src a c l Hc None _ ch ltac:(done) E1)]|].
  destruct (densest (fun _ => true) src l a None (2 ^ 32 - 1)) as [ch|] eqn:E2; [|done]. pose proof (densest_ok _ src a c l Hc None _ ch ltac:(done) E2) as (k & Hk & T1 & T2 & T3 & T4). split; [by eapply sparse_ok|].
  exists (k_sparse false k). cbn. by rewrite lookup_alter_eq, Hk.
Qed.

Lemma alloc_dense_ok t from size a loc : cells_ok a loc -> 0 <= size ->
  let '(a', r) := pcache_cell_alloc_dense t from size a in
  exists loc', cells_ok a' loc' /\
  match r with Some x => new_out loc loc' x /\ cell_chunk x <> cell_chunk from /\ exists c ch, cell_class size = Some c /\ size <= size_of (Z.to_nat c) /\ is_cell (a_chunks a') x (Z.to_nat c) ch | None => same_out loc loc' end.
Proof.
  intros H H0. unfold pcache_cell_alloc_dense. destruct (cell_class size) as [cz|] eqn:Ec; [|by exists loc]. destruct (class_lt size cz H0 Ec) as [Hlt Hsz]. set (c := Z.to_nat cz) in *.
  pose proof (dense_target_ok a loc c (cell_chunk from) H Hlt) as D. destruct (dense_target c (cell_chunk from) a) as [a1 [ch|]]; destruct D as [H1 D]; [|by exists loc]. destruct D as (k & Hk & T1 & T2 & T3 & T4).
  destruct (chunk_pop ch a1) as [a2 [x|]] eqn:Ep; [|exists loc; unfold chunk_pop in Ep; rewrite Hk in Ep; destruct (ch_free k); [|done]; by injection Ep as <-].
  destruct (chunk_pop_ok a1 loc ch a2 x H1 Ep) as (Hx & H2 & _ & _ & _ & k' & Hk' & Hic). rewrite Hk in Hk'. injection Hk' as <-. rewrite T1 in Hic. exists (<[x := Out]> loc). split_and!.
  - pose proof (live_add_ok a2 _ t (size_of c) H2) as [J1 J2 J3]. by split.
  - by eapply new_out_insert.
  - destruct (cell_in _ _ _ _ _ _ _ (co_home _ _ H2) Hic) as (_ & _ & _ & _ & Hch). congruence.
  - exists cz, ch. split_and!; [done|done|]. cbn. unfold live_add. by destruct (a_stripe a2 !! t).
Qed.

(** ** Live bytes *)

(** The part of the state that counts live bytes. *)
Definition meter (a : arena) : list Z * Z * gmap nat nat := (a_live a, a_live_next a, a_stripe a).

Lemma cell_home_frame (a : arena) x : meter (cell_home x a) = meter a /\ a_byte0 (cell_home x a) = a_byte0 a.
Proof. unfold cell_home. destruct (a_chunks a !! cell_chunk x) as [k|]; [|done]. destruct (negb _); [done|]. by destruct (ch_in_avail _). Qed.

Lemma bump_loop_frame n t c : forall a : arena, meter (bump_loop n t c a) = meter a /\ a_byte0 (bump_loop n t c a) = a_byte0 a.
Proof. induction n as [|n IH]; intros a; cbn [bump_loop]; [done|]. destruct (IH (put_class t c (mk_pclass (p_bump (class_of (cell_home (p_bump (class_of a t c)) a) t c) + size_of c) (u32 (p_left (class_of (cell_home (p_bump (class_of a t c)) a) t c) - 1)) (p_free (class_of (cell_home (p_bump (class_of a t c)) a) t c)) (p_nfree (class_of (cell_home (p_bump (class_of a t c)) a) t c))) (cell_home (p_bump (class_of a t c)) a))) as [-> ->]. apply cell_home_frame. Qed.

Lemma bump_home_frame t c (a : arena) : meter (bump_home t c a) = meter a /\ a_byte0 (bump_home t c a) = a_byte0 a.
Proof. apply (bump_loop_frame _ t c a). Qed.

Lemma donate_frame n t c : forall a : arena, meter (donate n t c a) = meter a /\ a_byte0 (donate n t c a) = a_byte0 a.
Proof. induction n as [|n IH]; intros a; cbn [donate]; [done|]. destruct (p_free (class_of a t c)) as [|x l]; [done|]. destruct (IH (cell_home x (put_class t c (p_take l (class_of a t c)) a))) as [-> ->]. apply (cell_home_frame (put_class t c (p_take l (class_of a t c)) a)). Qed.

Lemma refill_frame fuel t c : forall got (a : arena), meter (refill fuel t c got a).1 = meter a /\ a_byte0 (refill fuel t c got a).1 = a_byte0 a.
Proof.
  induction fuel as [|fuel IH]; intros got a; cbn [refill]; [done|]. destruct (negb _); [done|].
  assert (exists a1 cur, (match default None (a_cur a !! c) with Some ch => (a, Some ch) | None => let '(a, top) := avail_pop c a in match top with Some ch => (set_cur c (Some ch) a, Some ch) | None => (a, None) end end) = (a1, cur) /\ meter a1 = meter a /\ a_byte0 a1 = a_byte0 a) as (a1 & cur & -> & M1 & M2).
  { destruct (default None (a_cur a !! c)) as [ch|]; [by eexists _, _|]. unfold avail_pop. destruct (a_avail a !! c) as [[|ch l]|]; by eexists _, _. }
  destruct cur as [ch|]; [|done]. unfold chunk_pop. destruct (a_chunks a1 !! ch) as [k|]; [destruct (ch_free k) as [|x l]|].
  - destruct (IH got (set_cur c None a1)) as [-> ->]. done.
  - destruct (IH (got + 1) (put_class t c (p_push x (class_of (put_chunk ch (k_pop l k) a1) t c)) (put_chunk ch (k_pop l k) a1))) as [-> ->]. done.
  - destruct (IH got (set_cur c None a1)) as [-> ->]. done.
Qed.

Lemma retire_frame ch (a : arena) : meter (chunk_retire ch a) = meter a /\ a_byte0 (chunk_retire ch a) = a_byte0 a.
Proof. unfold chunk_retire. destruct (a_chunks a !! ch) as [k|]; [|done]. by destruct (decide _). Qed.

Lemma reclaim_walk_frame cf c l : forall kept lin sp (a : arena), let '(a', _, _, _) := reclaim_walk cf c l kept lin sp a in meter a' = meter a /\ a_byte0 a' = a_byte0 a.
Proof.
  induction l as [|ch l IH]; intros kept lin sp a; cbn [reclaim_walk]; [done|]. destruct (a_chunks a !! ch) as [k|]; [|by apply IH]. destruct (_ && (kept >=? _)).
  - specialize (IH (kept + 1) lin sp (chunk_retire ch a)). destruct (reclaim_walk _ _ _ _ _ _ _) as [[[a' ?] ?] ?]. destruct IH as [-> ->]. apply retire_frame.
  - cbv zeta. match goal with |- context [reclaim_walk cf c l ?x ?y ?z ?w] => specialize (IH x y z w); by destruct (reclaim_walk cf c l x y z w) as [[[a' ?] ?] ?] end.
Qed.

Lemma reclaim_tick_frame cf (a : arena) : meter (reclaim_tick cf a).1 = meter a /\ a_byte0 (reclaim_tick cf a).1 = a_byte0 a.
Proof.
  unfold reclaim_tick. assert (forall l (a : arena) lin sp, let '(a', _, _) := foldl (reclaim_class cf) (a, lin, sp) l in meter a' = meter a /\ a_byte0 a' = a_byte0 a) as Hl.
  { clear. induction l as [|c l IH]; intros a lin sp; cbn [foldl]; [done|]. unfold reclaim_class at 2. pose proof (reclaim_walk_frame cf c (default [] (a_avail a !! c)) 0 lin sp (set_avail (<[c := []]> (a_avail a)) a)) as W.
    destruct (reclaim_walk cf c _ 0 lin sp _) as [[[a1 kept] lin1] sp1]. specialize (IH (reclaim_cur cf c kept a1) lin1 sp1). destruct (foldl _ _ l) as [[a2 ?] ?]. destruct IH as [-> ->].
    assert (meter (reclaim_cur cf c kept a1) = meter a1 /\ a_byte0 (reclaim_cur cf c kept a1) = a_byte0 a1) as [-> ->]; [|done].
    unfold reclaim_cur. destruct (default None _) as [ch|]; [|done]. destruct (a_chunks a1 !! ch); [|done]. destruct (_ && _); [apply retire_frame|done]. }
  specialize (Hl (seq 0 PCACHE_NCLASSES) (set_sl (ss_next (a_sl a)) a) 0 0). destruct (foldl _ _ _) as [[a1 lin] sp]. destruct Hl as [H1 H2]. split; [exact H1|exact H2].
Qed.

Definition zsum (l : list Z) : Z := foldr Z.add 0 l.

Record meter_ok (a : arena) (bytes : Z) : Prop := {
  mt_len : length (a_live a) = PCACHE_LIVE_STRIPES;
  mt_next : 0 <= a_live_next a;
  mt_stripe : forall t s, a_stripe a !! t = Some s -> (s < PCACHE_LIVE_STRIPES)%nat;
  mt_sum : (zsum (a_live a) - bytes) mod 2 ^ 64 = 0
}.

Lemma zsum_alter f l : forall i v, l !! i = Some v -> zsum (alter f i l) = zsum l - v + f v.
Proof. induction l as [|x l IH]; intros [|i] v H; cbn in H; [done|done|injection H as ->; unfold zsum; cbn; lia|]. change (zsum (alter f (S i) (x :: l))) with (x + zsum (alter f i l)). rewrite (IH i v H). unfold zsum. cbn. lia. Qed.

Lemma s64_cong x : (s64 x - x) mod 2 ^ 64 = 0.
Proof. unfold s64. Z.div_mod_to_equations; lia. Qed.

Lemma meter_frame (a a' : arena) b : meter a' = meter a -> meter_ok a b -> meter_ok a' b.
Proof. unfold meter. intros [= E1 E2 E3] [H1 H2 H3 H4]. split; by rewrite ?E1, ?E2, ?E3. Qed.

Lemma live_add_meter t d (a : arena) b : meter_ok a b -> meter_ok (live_add t d a) (b + d).
Proof.
  intros [H1 H2 H3 H4]. unfold live_add.
  assert (forall s, (s < PCACHE_LIVE_STRIPES)%nat -> (zsum (alter (fun v => s64 (v + d)) s (a_live a)) - (b + d)) mod 2 ^ 64 = 0) as Hs.
  { intros s Hs. destruct (lookup_lt_is_Some_2 (a_live a) s ltac:(lia)) as [v Hv]. rewrite (zsum_alter _ _ _ _ Hv). pose proof (s64_cong (v + d)). Z.div_mod_to_equations; lia. }
  destruct (a_stripe a !! t) as [s|] eqn:Es.
  - split; cbn; [by rewrite length_alter|done|done|by apply Hs, (H3 t)].
  - set (s := Z.to_nat _). assert ((s < PCACHE_LIVE_STRIPES)%nat) as Hlt by (unfold s, PCACHE_LIVE_STRIPES; pose proof (Z.mod_pos_bound (a_live_next a) 64 ltac:(lia)); change (Z.of_nat 64) with 64; lia).
    split; cbn; [by rewrite length_alter|apply u32_range| |by apply Hs]. intros t' s'. destruct (decide (t' = t)) as [->|Hne]; [rewrite lookup_insert_eq; intros [= <-]; done|rewrite lookup_insert_ne by done; apply H3].
Qed.

(** The sum is exact while the bytes fit. *)
Lemma live_sum_exact (a : arena) b : meter_ok a b -> 0 <= b < 2 ^ 63 -> live_sum a = b.
Proof.
  intros [H1 _ _ H4] Hb. unfold live_sum. assert (forall l n, (foldl (fun n v => s64 (n + v)) n l - (n + zsum l)) mod 2 ^ 64 = 0) as Hf.
  { induction l as [|v l IH]; intros n; cbn [foldl]; [unfold zsum; cbn; rewrite Z.add_0_r, Z.sub_diag; done|]. specialize (IH (s64 (n + v))). pose proof (s64_cong (n + v)). change (zsum (v :: l)) with (v + zsum l). Z.div_mod_to_equations; lia. }
  assert (forall l, l <> [] -> is_s64 (foldl (fun n v => s64 (n + v)) 0 l)) as Hr.
  { intros l Hl. destruct (exists_last Hl) as (l' & v & ->). rewrite foldl_app. cbn. apply s64_range. }
  specialize (Hf (a_live a) 0). destruct (a_live a) as [|v l] eqn:El; [done|].
  specialize (Hr (v :: l) ltac:(done)). set (S := foldl _ 0 (v :: l)) in *. clearbody S. unfold is_s64 in Hr. assert (S = b) as -> by (Z.div_mod_to_equations; lia).
  rewrite Z.gtb_ltb. destruct (Z.ltb_spec 0 b); lia.
Qed.

(** The class bytes of what is out do not change. *)
Definition same_class (loc : places) (a a' : arena) : Prop := forall x, loc !! x = Some Out -> a_byte0 a' !! x = a_byte0 a !! x.

Definition got_bytes (c : nat) (r : option Z) : Z := match r with Some _ => size_of c | None => 0 end.

Lemma take_private_meter t c (a : arena) b : meter_ok a b -> meter_ok (take_private t c a).1 (b + got_bytes c (take_private t c a).2) /\ a_byte0 (take_private t c a).1 = a_byte0 a.
Proof.
  intros M. unfold take_private. destruct (p_free (class_of a t c)) as [|x l]; cbn [fst snd got_bytes]; [by rewrite Z.add_0_r|]. split; [apply live_add_meter; by eapply meter_frame; [|exact M]|]. unfold live_add. by destruct (a_stripe _ !! t).
Qed.

Lemma take_bump_meter t c (a : arena) b : meter_ok a b -> meter_ok (take_bump t c a).1 (b + size_of c) /\ a_byte0 (take_bump t c a).1 = a_byte0 a.
Proof. intros M. unfold take_bump. cbn [fst]. split; [apply live_add_meter; by eapply meter_frame; [|exact M]|]. unfold live_add. by destruct (a_stripe _ !! t). Qed.

Lemma carve_frame e c t a loc : cells_ok a loc -> (c < PCACHE_NCLASSES)%nat -> meter (carve_chunk e c t a).1 = meter a /\ same_class loc a (carve_chunk e c t a).1.
Proof.
  intros H Hlt. unfold carve_chunk. destruct (ss_take e (a_sl a)) as [s' [ch|]] eqn:Et; [|by split]. destruct (ss_take_some e (a_sl a) ch (ho_sl _ _ _ _ (co_home _ _ H)) ltac:(by rewrite Et)) as (A1 & A2 & A3 & _).
  split; [done|]. intros x Hx. cbn. unfold stamp. rewrite (lookup_foldl_insert (cell_at ch c) c). fold (new_cells ch c). rewrite decide_False; [done|]. by destruct (not_new a loc ch c H Hlt (conj A1 A2) A3 x ltac:(by eexists)).
Qed.

Lemma alloc_meter e mem t size a loc b : cells_ok a loc -> 0 <= size -> meter_ok a b ->
  let '(a', r) := pcache_cell_alloc e mem t size a in meter_ok a' (b + got_bytes (Z.to_nat (default 0 (cell_class size))) r) /\ same_class loc a a'.
Proof.
  intros H H0 M. unfold pcache_cell_alloc. destruct (cell_class size) as [cz|] eqn:Ec; [|cbn; rewrite Z.add_0_r; by split]. destruct (class_lt size cz H0 Ec) as [Hlt _]. cbn [default from_option id]. set (c := Z.to_nat cz) in *.
  pose proof (get_palloc_ok mem t a loc H) as G. assert (meter (get_palloc mem t a).1 = meter a /\ a_byte0 (get_palloc mem t a).1 = a_byte0 a) as [Gm Gb] by (unfold get_palloc; destruct (a_pl a !! t); [done|by destruct mem]).
  destruct (get_palloc mem t a) as [a1 ok]. cbn in Gm, Gb. destruct G as (H1 & Hcl & Hpl & _). pose proof (meter_frame a a1 b Gm M) as M1. destruct ok; cbn [negb]; [|cbn; rewrite Z.add_0_r; split; [done|intros x _; by rewrite Gb]]. destruct (Hpl eq_refl) as [l Hl].
  pose proof (take_private_meter t c a1 b M1) as [T1 T2]. pose proof (take_private_ok t c a1 loc H1 Hlt) as P. destruct (take_private t c a1) as [a2 [x|]]; cbn in T1, T2; [split; [done|intros y _; by rewrite T2, Gb]|]. destruct P as [-> Hf].
  destruct (Z.eqb_spec (p_left (class_of a1 t c)) 0) as [Hz|Hz]; cbn [negb].
  2: { destruct (take_bump_meter t c a1 b M1) as [B1 B2]. destruct (take_bump t c a1) as [a3 x]. split; [done|intros y _; cbn in B2; by rewrite B2, Gb]. }
  pose proof (refill_ok (refill_fuel c a1) a1 loc t c l 0 H1 Hl Hlt ltac:(by rewrite Hf)) as R. destruct (refill_frame (refill_fuel c a1) t c 0 a1) as [F1 F2]. destruct (refill (refill_fuel c a1) t c 0 a1) as [a3 got]. cbn in F1, F2.
  destruct R as (loc3 & R1 & R2 & _); [unfold refill_fuel, refill_left, has; destruct (default None (a_cur a1 !! c)); rewrite ?Z.sub_0_r; lia|]. pose proof (meter_frame a1 a3 b F1 M1) as M3.
  assert (exists a4 ok, (if got =? 0 then carve_chunk e c t a3 else (a3, true)) = (a4, ok) /\ meter_ok a4 b /\ same_class loc a a4) as (a4 & ok & -> & M4 & S4).
  { destruct (got =? 0); [|eexists _, _; split; [done|]; split; [done|intros y _; by rewrite F2, Gb]]. destruct (carve_frame e c t a3 loc3 R1 Hlt) as [V1 V2]. destruct (carve_chunk e c t a3) as [a4 ok]. cbn in V1, V2. eexists _, _. split; [done|]. split; [by eapply meter_frame|].
    intros y Hy. rewrite V2 by (by apply R2). by rewrite F2, Gb. }
  destruct ok; cbn [negb]; [|cbn; by rewrite Z.add_0_r]. destruct (take_private_meter t c a4 b M4) as [T3 T4]. destruct (take_private t c a4) as [a5 [x|]] eqn:E5; cbn in T3, T4; [split; [done|intros y Hy; rewrite T4; by apply S4]|].
  rewrite Z.add_0_r in T3. destruct (take_bump_meter t c a5 b T3) as [B1 B2]. destruct (take_bump t c a5) as [a6 x]. split; [done|]. intros y Hy. cbn in B2. rewrite B2, T4. by apply S4.
Qed.

Lemma free_meter mem t x a loc b c : cells_ok a loc -> loc !! x = Some Out -> meter_ok a b -> a_byte0 a !! x = Some c -> (c < PCACHE_NCLASSES)%nat ->
  meter_ok (pcache_cell_free mem t x a) (b - size_of c) /\ a_byte0 (pcache_cell_free mem t x a) = a_byte0 a.
Proof.
  intros H Hx M Hb Hlt. unfold pcache_cell_free. rewrite Hb, (proj2 (Nat.leb_gt _ _) Hlt). pose proof (live_add_meter t (- size_of c) a b M) as M1. replace (b + - size_of c) with (b - size_of c) in M1 by lia.
  assert (a_byte0 (live_add t (- size_of c) a) = a_byte0 a) as B1 by (unfold live_add; by destruct (a_stripe a !! t)). set (a1 := live_add t (- size_of c) a) in *. clearbody a1.
  assert (meter (get_palloc mem t a1).1 = meter a1 /\ a_byte0 (get_palloc mem t a1).1 = a_byte0 a1) as [Gm Gb] by (unfold get_palloc; destruct (a_pl a1 !! t); [done|by destruct mem]). destruct (get_palloc mem t a1) as [a2 ok]. cbn in Gm, Gb.
  pose proof (meter_frame a1 a2 _ Gm M1) as M2. destruct ok; cbn [negb]; [|destruct (cell_home_frame a2 x) as [F1 F2]; split; [by eapply meter_frame|congruence]].
  set (a3 := put_class t c _ a2). assert (meter a3 = meter a2 /\ a_byte0 a3 = a_byte0 a2) as [F3 F4] by done. clearbody a3. destruct (_ >? _); [|split; [by eapply meter_frame|congruence]].
  destruct (donate_frame PCACHE_DONATE t c a3) as [D1 D2]. destruct (bump_home_frame t c (donate PCACHE_DONATE t c a3)) as [E1 E2]. split; [eapply meter_frame; [|exact M2]; congruence|congruence].
Qed.

Lemma flush_frame t (a : arena) : meter (pcache_arena_flush_private t a) = meter a /\ a_byte0 (pcache_arena_flush_private t a) = a_byte0 a.
Proof.
  unfold pcache_arena_flush_private. destruct (a_pl a !! t) as [pl|]; [|done]. clear pl. generalize (seq 0 PCACHE_NCLASSES). intros l. revert a. induction l as [|c l IH]; intros a; cbn [foldl]; [done|]. destruct (IH (flush_class t c a)) as [-> ->].
  unfold flush_class. destruct (bump_home_frame t c (donate (length (p_free (class_of a t c))) t c a)) as [-> ->]. apply donate_frame.
Qed.

Lemma dense_frame t from size (a : arena) b : meter_ok a b -> meter_ok (pcache_cell_alloc_dense t from size a).1 (b + got_bytes (Z.to_nat (default 0 (cell_class size))) (pcache_cell_alloc_dense t from size a).2) /\ a_byte0 (pcache_cell_alloc_dense t from size a).1 = a_byte0 a.
Proof.
  intros M. unfold pcache_cell_alloc_dense. destruct (cell_class size) as [cz|]; [|cbn; by rewrite Z.add_0_r]. cbn [default from_option id]. set (c := Z.to_nat cz).
  assert (meter (dense_target c (cell_chunk from) a).1 = meter a /\ a_byte0 (dense_target c (cell_chunk from) a).1 = a_byte0 a) as [D1 D2] by (unfold dense_target; destruct (densest _ _ _ _ _ _); [done|]; by destruct (densest _ _ _ _ _ _)).
  destruct (dense_target c (cell_chunk from) a) as [a1 best]. cbn in D1, D2. destruct best as [ch|]; [|cbn; rewrite Z.add_0_r; split; [by eapply meter_frame|done]].
  assert (meter (chunk_pop ch a1).1 = meter a1 /\ a_byte0 (chunk_pop ch a1).1 = a_byte0 a1) as [P1 P2] by (unfold chunk_pop; destruct (a_chunks a1 !! ch) as [k|]; [|done]; by destruct (ch_free k)).
  destruct (chunk_pop ch a1) as [a2 [x|]]; cbn in P1, P2; cbn [fst snd got_bytes]; [|rewrite Z.add_0_r; split; [eapply meter_frame; [|exact M]; congruence|congruence]].
  assert (meter_ok a2 b) as M2 by (eapply meter_frame; [|exact M]; congruence). pose proof (live_add_meter t (size_of c) a2 b M2) as M3. split; [by eapply meter_frame; [|exact M3]|]. cbn. unfold live_add. destruct (a_stripe a2 !! t); cbn; congruence.
Qed.

(** * Runs *)

(** A state: the arena and the cells its users have.  A user frees only what it has. *)
Inductive astep : arena * list Z -> arena * list Z -> Prop :=
  | st_alloc e mem t size a o : 0 <= size ->
      astep (a, o) ((pcache_cell_alloc e mem t size a).1, match (pcache_cell_alloc e mem t size a).2 with Some x => x :: o | None => o end)
  | st_dense t from size a o : 0 <= size ->
      astep (a, o) ((pcache_cell_alloc_dense t from size a).1, match (pcache_cell_alloc_dense t from size a).2 with Some x => x :: o | None => o end)
  | st_free mem t x a o : x ∈ o -> astep (a, o) (pcache_cell_free mem t x a, filter (fun y => y <> x) o)
  | st_free_global t x a o : x ∈ o -> astep (a, o) (pcache_cell_free_global t x a, filter (fun y => y <> x) o)
  | st_flush t a o : astep (a, o) (pcache_arena_flush_private t a, o)
  | st_fork parent child a o : a_pl a !! child = None -> astep (a, o) (pcache_arena_child_init child (fork parent child a), o)
  | st_reclaim cf a o : astep (a, o) ((reclaim_tick cf a).1, o)
  | st_slots sl a o : ss_step (a_sl a) sl -> astep (a, o) (set_sl sl a, o).

Definition cell_bytes (a : arena) (x : Z) : Z := size_of (default 0%nat (a_byte0 a !! x)).
Definition out_bytes (a : arena) (o : list Z) : Z := zsum (cell_bytes a <$> o).

Record arena_ok (st : arena * list Z) : Prop := {
  ao_places : exists loc, cells_ok st.1 loc /\ forall x, loc !! x = Some Out <-> x ∈ st.2;
  ao_nodup : NoDup st.2;
  ao_meter : meter_ok st.1 (out_bytes st.1 st.2)
}.

Lemma out_bytes_same (loc : places) (a a' : arena) o : same_class loc a a' -> (forall x, x ∈ o -> loc !! x = Some Out) -> out_bytes a' o = out_bytes a o.
Proof. intros Hs Ho. unfold out_bytes. f_equal. apply list_fmap_ext. intros i x Hx. unfold cell_bytes. rewrite Hs; [done|]. apply Ho. by eapply list_elem_of_lookup_2. Qed.

Lemma out_bytes_less (a : arena) x o : NoDup o -> x ∈ o -> out_bytes a (filter (fun y => y <> x) o) = out_bytes a o - cell_bytes a x.
Proof.
  unfold out_bytes. induction 1 as [|y o Hy Hd IH]; intros Hx; [by apply not_elem_of_nil in Hx|]. change (zsum (cell_bytes a <$> y :: o)) with (cell_bytes a y + zsum (cell_bytes a <$> o)). apply elem_of_cons in Hx as [<-|Hx].
  - rewrite filter_cons_False by (intros Hn; by apply Hn). assert (filter (fun y => y <> x) o = o) as ->; [|lia]. clear IH Hd. induction o as [|z o IH]; [done|]. apply not_elem_of_cons in Hy as [Hz Hy]. rewrite filter_cons_True by congruence. f_equal. by apply IH.
  - rewrite filter_cons_True by (intros ->; done). change (zsum (cell_bytes a <$> y :: filter (fun y => y <> x) o)) with (cell_bytes a y + zsum (cell_bytes a <$> filter (fun y => y <> x) o)). rewrite IH by done. lia.
Qed.

Lemma arena0_ok s : ss_ok s -> (forall ch, ~ ss_used s ch) -> arena_ok (arena0 s, []).
Proof.
  intros Hs Hu. split; cbn [fst snd]; [|constructor|].
  - exists ∅. split; [|intros x; rewrite lookup_empty; split; [done|by intros ?%not_elem_of_nil]]. split; unfold arena0; cbn [a_sl a_chunks a_byte0 a_pl a_avail a_cur].
    + split; try done; [intros ch; rewrite lookup_empty; split; [intros Hc; by destruct (Hu ch)|by intros [? ?]]| | | ]; unfold is_cell.
      * intros x. rewrite lookup_empty. split; [by intros [? ?]|intros (c & ch & i & Hc & _); by rewrite lookup_empty in Hc].
      * intros x c ch (i & Hc & _). by rewrite lookup_empty in Hc.
      * intros x t c [Hc|Hc]; by rewrite lookup_empty in Hc.
    + split; [done|]. intros t c. rewrite lookup_empty. cbn. split; cbn; try done; [constructor|intros x; rewrite lookup_empty; split; [by intros ?%not_elem_of_nil|done]|]. intros x. rewrite lookup_empty. split; [done|]. intros (i & Hi & _). lia.
    + split; [done|..].
      * intros c l Hl. apply lookup_replicate in Hl as [-> _]. split; [constructor|]. intros ch. rewrite lookup_empty. split; [by intros ?%not_elem_of_nil|by intros (? & ? & _)].
      * intros c ch Hc. by apply lookup_replicate in Hc as [? _].
      * intros ch k Hk. by rewrite lookup_empty in Hk.
  - split; cbn; try done.
Qed.

Lemma step_out loc loc' x (o : list Z) : new_out loc loc' x -> (forall y, loc !! y = Some Out <-> y ∈ o) -> (x ∉ o) /\ forall y, loc' !! y = Some Out <-> y ∈ x :: o.
Proof. intros [H1 H2] Ho. split; [by rewrite <- Ho|]. intros y. by rewrite H2, elem_of_cons, Ho. Qed.

Lemma step_less loc loc' x (o : list Z) : less_out loc loc' x -> (forall y, loc !! y = Some Out <-> y ∈ o) -> forall y, loc' !! y = Some Out <-> y ∈ filter (fun y => y <> x) o.
Proof. intros H Ho y. rewrite list_elem_of_filter, <- Ho. apply H. Qed.

Lemma same_byte0 loc (a a' : arena) : a_byte0 a' = a_byte0 a -> same_class loc a a'.
Proof. intros H x _. by rewrite H. Qed.

(** A cell handed out counts as many bytes as its class has. *)
Lemma out_bytes_new loc (a a' : arena) x c ch loc' o : cells_ok a' loc' -> is_cell (a_chunks a') x c ch -> same_class loc a a' -> (forall y, y ∈ o -> loc !! y = Some Out) -> out_bytes a' (x :: o) = out_bytes a o + size_of c.
Proof.
  intros H Hc Hs Ho. change (out_bytes a' (x :: o)) with (cell_bytes a' x + out_bytes a' o). rewrite (out_bytes_same loc a a' o Hs Ho). unfold cell_bytes. rewrite (ho_byte0 _ _ _ _ (co_home _ _ H) _ _ _ Hc). cbn. lia.
Qed.

Lemma out_class a loc x : cells_ok a loc -> loc !! x = Some Out -> exists c, a_byte0 a !! x = Some c /\ (c < PCACHE_NCLASSES)%nat /\ cell_bytes a x = size_of c.
Proof.
  intros H Hx. destruct (cell_there a loc x H ltac:(by eexists)) as (c & ch & k & Hc & _ & _ & Hlt & _). exists c. pose proof (ho_byte0 _ _ _ _ (co_home _ _ H) _ _ _ Hc) as Hb. split_and!; [done|done|]. unfold cell_bytes. by rewrite Hb.
Qed.

Lemma slots_step_ok sl a loc : cells_ok a loc -> ss_step (a_sl a) sl -> cells_ok (set_sl sl a) loc.
Proof. intros [[H1 H2 H3 H4 H5 H6] Hp Hs] Hst. split; try done. split; try done; [by eapply ss_step_ok|]. intros ch. cbn [a_sl set_sl a_chunks]. rewrite (ss_step_used _ _ H1 Hst). apply H2. Qed.

Lemma astep_ok st st'  : arena_ok st -> astep st st' -> arena_ok st'.
Proof.
  intros [(loc & H & Ho) Hd M] Hst. assert (forall (o : list Z), (forall x, loc !! x = Some Out <-> x ∈ o) -> forall y, y ∈ o -> loc !! y = Some Out) as Hin by (intros o Hq y; apply Hq).
  destruct Hst as [e mem t size a o H0|t from size a o H0|mem t x a o Hx|t x a o Hx|t a o|parent child a o Hc|cf a o|sl a o Hs]; cbn [fst snd] in *.
  - pose proof (cell_alloc_ok e mem t size a loc H H0) as A. pose proof (alloc_meter e mem t size a loc _ H H0 M) as B.
    destruct (pcache_cell_alloc e mem t size a) as [a' r]. destruct A as (loc' & H1 & A). destruct B as [M1 S1]. cbn [fst snd] in *. destruct r as [x|].
    + destruct A as [N (c & ch & Hcz & _ & Hc)]. destruct (step_out _ _ _ _ N Ho) as [N1 N2]. split; cbn [fst snd]; [by exists loc'|by apply NoDup_cons|]. rewrite (out_bytes_new loc a a' x _ ch loc' o H1 Hc S1 (Hin o Ho)). rewrite Hcz in M1. exact M1.
    + destruct A as [Sm _]. split; cbn [fst snd]; [exists loc'; split; [done|intros y; by rewrite (Sm y)]|done|]. rewrite (out_bytes_same loc a a' o S1 (Hin o Ho)). cbn in M1. by rewrite Z.add_0_r in M1.
  - pose proof (alloc_dense_ok t from size a loc H H0) as A. destruct (dense_frame t from size a _ M) as [M1 S1]. destruct (pcache_cell_alloc_dense t from size a) as [a' r]. cbn [fst snd] in *. destruct A as (loc' & H1 & A). destruct r as [x|].
    + destruct A as (N & _ & c & ch & Hcz & _ & Hc). destruct (step_out _ _ _ _ N Ho) as [N1 N2]. split; cbn [fst snd]; [by exists loc'|by apply NoDup_cons|]. rewrite (out_bytes_new loc a a' x _ ch loc' o H1 Hc (same_byte0 loc a a' S1) (Hin o Ho)). rewrite Hcz in M1. exact M1.
    + split; cbn [fst snd]; [exists loc'; split; [done|intros y; by rewrite (A y)]|done|]. rewrite (out_bytes_same loc a a' o (same_byte0 loc a a' S1) (Hin o Ho)). cbn in M1. by rewrite Z.add_0_r in M1.
  - destruct (cell_free_ok mem t x a loc H (Hin o Ho x Hx)) as (loc' & H1 & L). destruct (out_class a loc x H (Hin o Ho x Hx)) as (c & Hb & Hlt & Hc). destruct (free_meter mem t x a loc _ c H (Hin o Ho x Hx) M Hb Hlt) as [M1 S1].
    split; cbn [fst snd]; [exists loc'; split; [done|by eapply step_less]|by apply NoDup_filter|]. rewrite (out_bytes_same loc a _ _ (same_byte0 loc a _ S1)) by (intros y Hy; apply list_elem_of_filter in Hy as [_ Hy]; by apply Ho). rewrite out_bytes_less by done. by rewrite Hc.
  - destruct (cell_free_global_ok t x a loc H (Hin o Ho x Hx)) as (loc' & H1 & L). destruct (out_class a loc x H (Hin o Ho x Hx)) as (c & Hb & Hlt & Hc).
    assert (meter_ok (pcache_cell_free_global t x a) (out_bytes a o - size_of c) /\ a_byte0 (pcache_cell_free_global t x a) = a_byte0 a) as [M1 S1].
    { unfold pcache_cell_free_global. rewrite Hb, (proj2 (Nat.leb_gt _ _) Hlt). destruct (cell_home_frame (live_add t (- size_of c) a) x) as [F1 F2]. split; [eapply meter_frame; [exact F1|]; replace (out_bytes a o - size_of c) with (out_bytes a o + - size_of c) by lia; by apply live_add_meter|].
      rewrite F2. unfold live_add. by destruct (a_stripe a !! t). }
    split; cbn [fst snd]; [exists loc'; split; [done|by eapply step_less]|by apply NoDup_filter|]. rewrite (out_bytes_same loc a _ _ (same_byte0 loc a _ S1)) by (intros y Hy; apply list_elem_of_filter in Hy as [_ Hy]; by apply Ho). rewrite out_bytes_less by done. by rewrite Hc.
  - destruct (flush_ok t a loc H) as (loc' & H1 & Sm). destruct (flush_frame t a) as [F1 F2]. split; cbn [fst snd]; [exists loc'; split; [done|intros y; by rewrite (Sm y)]|done|]. rewrite (out_bytes_same loc a _ o (same_byte0 loc a _ F2) (Hin o Ho)). by eapply meter_frame.
  - rewrite fork_child_ok by done. split; [by exists loc|done|done].
  - destruct (reclaim_tick_ok cf a loc H) as (loc' & H1 & Sm). destruct (reclaim_tick_frame cf a) as [F1 F2]. split; cbn [fst snd]; [exists loc'; split; [done|intros y; by rewrite (Sm y)]|done|]. rewrite (out_bytes_same loc a _ o (same_byte0 loc a _ F2) (Hin o Ho)). by eapply meter_frame.
  - split; cbn [fst snd]; [exists loc; split; [by apply slots_step_ok|done]|done|by eapply (meter_frame a)].
Qed.

Lemma reach_ok s a o : ss_ok s -> (forall ch, ~ ss_used s ch) -> rtc astep (arena0 s, []) (a, o) -> arena_ok (a, o).
Proof. intros Hs Hu H. remember (arena0 s, []) as st eqn:Est. assert (arena_ok st) as Hok by (subst; by apply arena0_ok). clear Est. induction H as [st|st st1 st2 H1 H2 IH]; [done|]. apply IH. by eapply astep_ok. Qed.

End Census.
