(* ===== verification/ArenaSlot.v ===== *)
(** The slot layer of the arena ([core/pcache_arena.c]).

    Memory comes in slots of 256 KB.  The reservation is one run of them: chunks are carved
    upward from its start ([hoff]), index regions downward from its end ([rtop]).  A free
    slot below [hoff] is resident ([rwarm]) or given back to the host ([rcold]); the same
    for the regions' ([zwarm], [zcold]); memory is given back and brought back in groups of
    eight slots.  Past the reservation, slots come from pages of 16.

    The scalars of the arena are [sl_v], each at its width, its bitmaps [sl_maps], as words
    of 64 bits; [sl_hdr] has of a chunk header the fields this layer writes, [h_free] for
    [cls == PCACHE_CLS_FREE].  [sl_flight] is what a give-back has taken off the maps and
    not yet settled, the runs of its stack frame.  What the host answers comes with the
    call ([env]); an address it gives that overlaps memory it gave before is no answer.  A
    bit past the end of its map is left alone (see [hcommit_short] in [Arena]). *)

From Stdlib Require Import ZArith Lia.
From stdpp Require Import base tactics list numbers gmap.
From S2P Require Import Prelude HtBase ArenaCell.
#[local] Open Scope Z_scope.

Definition PCACHE_PAGE_SLOTS : nat := 16.
Definition PCACHE_GROUP_SLOTS : nat := 8.
Definition PCACHE_HPS : Z := PCACHE_SLOT * Z.of_nat PCACHE_GROUP_SLOTS.
Definition PCACHE_AHEAD_GROUPS : nat := 4.
Definition PUNCH_RUNS_MAX : nat := 256.
(** A page and its alignment slot. *)
Definition PAGE_BYTES : Z := Z.of_nat (S PCACHE_PAGE_SLOTS) * PCACHE_SLOT.

(** * Bitmaps *)

Definition word_of (m : list Z) (i : nat) : Z := default 0 (m !! (i / 64)%nat).
Definition bit_set (m : list Z) (i : nat) : list Z := <[(i / 64)%nat := Z.lor (word_of m i) (Z.shiftl 1 (Z.of_nat (i mod 64)))]> m.
Definition bit_clr (m : list Z) (i : nat) : list Z := <[(i / 64)%nat := Z.ldiff (word_of m i) (Z.shiftl 1 (Z.of_nat (i mod 64)))]> m.
Definition bit_get (m : list Z) (i : nat) : bool := negb (Z.land (Z.shiftr (word_of m i) (Z.of_nat (i mod 64))) 1 =? 0).

(** The number of the lowest set bit, from [k] on. *)
Fixpoint ctz (fuel : nat) (w : Z) (k : nat) : nat :=
  match fuel with O => k | S fuel => if Z.testbit w (Z.of_nat k) then k else ctz fuel w (S k) end.

Fixpoint first_word (m : list Z) (w : nat) : option nat :=
  match m with [] => None | x :: m => if x =? 0 then first_word m (S w) else Some (w * 64 + ctz 63 x 0)%nat end.

Definition bit_first (m : list Z) (n : nat) : option nat := first_word (take ((n + 63) / 64) m) 0.

(** * State *)

Inductive av :=
  | A_bytes | A_regions_bytes | A_nfree_warm | A_nfree_cold | A_nzfree_warm | A_nzfree_cold | A_npages | A_slots_total | A_chunks_used
  | A_tick | A_carve_tick | A_hoff | A_rtop | A_committed | A_pinned | A_pin_failed | A_hlocked_mb | A_cold_bytes | A_released_bytes
  | A_pages_freed | A_punch_calls | A_punch_groups | A_tail_next | A_ahead_from | A_tail_done | A_tail_fl_lo | A_tail_fl_hi | A_tail_released
  | A_giveback_off | A_commits_inline | A_commits_ahead | A_commits_index | A_zregions_retired | A_zregion_reuse | A_zregions_raised
  | A_refused | A_ceiling_since | A_pool_empty | A_lo | A_hi.

#[global] Instance av_eq_dec : EqDecision av.
Proof. solve_decision. Defined.

Definition av_wrap (x : av) (n : Z) : Z :=
  match x with
  | A_nfree_warm | A_nfree_cold | A_nzfree_warm | A_nzfree_cold | A_npages | A_slots_total | A_chunks_used | A_tick | A_carve_tick | A_pinned | A_pin_failed
  | A_tail_done | A_giveback_off => u32 n
  | _ => u64 n
  end.

Inductive bm := RWARM | RCOLD | ZWARM | ZCOLD | HCOMMIT.

#[global] Instance bm_eq_dec : EqDecision bm.
Proof. solve_decision. Defined.

Record page := mk_page { pg_raw : Z; pg_base : Z; pg_free : list Z; pg_nfree : Z }.

Record shdr := mk_shdr { h_free : bool; h_free_at : Z; h_cold : bool; h_page : option Z }.

(** A run of groups on its way back to the host. *)
Record punch_run := mk_run { ru_g0 : nat; ru_n : nat; ru_tail : bool; ru_zone : bool }.

Record aconf := mk_aconf {
  hbase : Z; rslots : nat; hugetlb : bool; max_bytes : Z; floor_bytes : Z; shrink_step_bytes : Z;
  reclaim_keep : Z; reclaim_quiet_s : Z; reclaim_cooloff_s : Z; reclaim_giveback : bool
}.

Definition hsize (cf : aconf) : Z := Z.of_nat (rslots cf) * PCACHE_SLOT.

Record slots := mk_slots {
  sl_cf : aconf; sl_v : av -> Z; sl_maps : bm -> list Z; sl_zfree_at : list Z; sl_pages : list page; sl_regions : list (Z * Z); sl_hdr : gmap Z shdr; sl_flight : list punch_run
}.

(** What the host answers: whether a huge page of the group is to be had, the commit's
    code, the block for a page or a region, the time. *)
Record env := mk_env { e_secure : nat -> bool; e_commit : nat -> Z; e_block : option Z; e_now : Z }.

Definition vset (x : av) (n : Z) (s : slots) : slots :=
  mk_slots (sl_cf s) (fun y => if decide (y = x) then av_wrap x n else sl_v s y) (sl_maps s) (sl_zfree_at s) (sl_pages s) (sl_regions s) (sl_hdr s) (sl_flight s).
Definition vadd (x : av) (d : Z) (s : slots) : slots := vset x (sl_v s x + d) s.
Definition set_map (b : bm) (m : list Z) (s : slots) : slots :=
  mk_slots (sl_cf s) (sl_v s) (fun y => if decide (y = b) then m else sl_maps s y) (sl_zfree_at s) (sl_pages s) (sl_regions s) (sl_hdr s) (sl_flight s).
Definition set_zfree (l : list Z) (s : slots) : slots := mk_slots (sl_cf s) (sl_v s) (sl_maps s) l (sl_pages s) (sl_regions s) (sl_hdr s) (sl_flight s).
Definition set_pages (l : list page) (s : slots) : slots := mk_slots (sl_cf s) (sl_v s) (sl_maps s) (sl_zfree_at s) l (sl_regions s) (sl_hdr s) (sl_flight s).
Definition set_regions (l : list (Z * Z)) (s : slots) : slots := mk_slots (sl_cf s) (sl_v s) (sl_maps s) (sl_zfree_at s) (sl_pages s) l (sl_hdr s) (sl_flight s).
Definition set_hdr (m : gmap Z shdr) (s : slots) : slots := mk_slots (sl_cf s) (sl_v s) (sl_maps s) (sl_zfree_at s) (sl_pages s) (sl_regions s) m (sl_flight s).
Definition set_flight (l : list punch_run) (s : slots) : slots := mk_slots (sl_cf s) (sl_v s) (sl_maps s) (sl_zfree_at s) (sl_pages s) (sl_regions s) (sl_hdr s) l.

Definition bget (b : bm) (i : nat) (s : slots) : bool := bit_get (sl_maps s b) i.
Definition bset (b : bm) (i : nat) (s : slots) : slots := set_map b (bit_set (sl_maps s b) i) s.
Definition bclr (b : bm) (i : nat) (s : slots) : slots := set_map b (bit_clr (sl_maps s b) i) s.
Definition bfirst (b : bm) (s : slots) : option nat := bit_first (sl_maps s b) (rslots (sl_cf s)).
Definition put_hdr (ch : Z) (h : shdr) (s : slots) : slots := set_hdr (<[ch := h]> (sl_hdr s)) s.

Definition reserved (s : slots) : bool := negb (hbase (sl_cf s) =? 0).
Definition rslot_at (s : slots) (i : nat) : Z := hbase (sl_cf s) + Z.of_nat i * PCACHE_SLOT.
Definition rslot_idx (s : slots) (ch : Z) : nat := Z.to_nat (Z.shiftr (ch - hbase (sl_cf s)) 18).

Definition extents_add (lo hi : Z) (s : slots) : slots :=
  let s := if lo <? sl_v s A_lo then vset A_lo lo s else s in
  if hi >? sl_v s A_hi then vset A_hi hi s else s.

(** * Commit *)

Definition group_secure (e : env) (g : nat) (s : slots) : slots * bool :=
  if negb (hugetlb (sl_cf s)) then (s, true) else if e_secure e g then (s, true) else (vadd A_pool_empty 1 s, false).

Definition group_commit (e : env) (g : nat) (s : slots) : slots * bool :=
  if bget HCOMMIT g s then (s, true)
  else
    let '(s, ok) := group_secure e g s in
    if negb ok then (s, false)
    else
      let rc := if hugetlb (sl_cf s) then 0 else e_commit e g in
      if rc <? 0 then (s, false)
      else
        let s := if rc >? 0 then vset A_pinned 0 (vset A_pin_failed 1 s) else s in
        let s := vadd A_committed PCACHE_HPS (bset HCOMMIT g s) in
        (if sl_v s A_pinned =? 0 then s else vset A_hlocked_mb (Z.shiftr (sl_v s A_committed) 20) s, true).

Definition carve_commit (e : env) (g : nat) (s : slots) : slots * bool :=
  let fresh := negb (bget HCOMMIT g s) in
  let '(s, ok) := group_commit e g s in
  (if ok && fresh then vadd A_commits_inline 1 s else s, ok).

(** Every group of [g], [g] + 1, ... that begins below [hi]. *)
Fixpoint groups_loop (e : env) (n : nat) (g : nat) (s : slots) : slots * bool :=
  match n with
  | O => (s, true)
  | S n =>
      let fresh := negb (bget HCOMMIT g s) in
      let '(s, ok) := group_commit e g s in
      if negb ok then (s, false) else groups_loop e n (S g) (if fresh then vadd A_commits_index 1 s else s)
  end.

Definition groups_commit (e : env) (lo hi : Z) (s : slots) : slots * bool :=
  let g := lo / PCACHE_HPS in groups_loop e (Z.to_nat ((hi + PCACHE_HPS - 1) / PCACHE_HPS - g)) (Z.to_nat g) s.

Definition group_slots (g : nat) : list nat := seq (g * PCACHE_GROUP_SLOTS) PCACHE_GROUP_SLOTS.

(** A cold slot of the group is resident again, its header written anew. *)
Definition warm_slot (s : slots) (i : nat) : slots :=
  if negb (bget RCOLD i s) then s
  else
    let s := bset RWARM i (bclr RCOLD i s) in
    let s := vadd A_nfree_warm 1 (vadd A_nfree_cold (-1) s) in
    let s := vadd A_bytes PCACHE_SLOT (vadd A_cold_bytes (- PCACHE_SLOT) s) in
    put_hdr (rslot_at s i) (mk_shdr true (sl_v s A_tick) false None) s.

Definition group_recommit (e : env) (g : nat) (s : slots) : slots * bool :=
  let '(s, ok) := group_commit e g s in
  if negb ok then (s, false) else (foldl warm_slot s (group_slots g), true).

Definition zwarm_slot (s : slots) (i : nat) : slots :=
  if negb (bget ZCOLD i s) then s
  else
    let s := bset ZWARM i (bclr ZCOLD i s) in
    let s := vadd A_nzfree_warm 1 (vadd A_nzfree_cold (-1) s) in
    let s := vadd A_bytes PCACHE_SLOT (vadd A_cold_bytes (- PCACHE_SLOT) s) in
    set_zfree (<[i := sl_v s A_tick]> (sl_zfree_at s)) s.

Definition zgroup_recommit (e : env) (g : nat) (s : slots) : slots * bool :=
  let '(s, ok) := group_commit e g s in
  if negb ok then (s, false) else (foldl zwarm_slot s (group_slots g), true).

(** * Taking a slot *)

Definition tail_inflight (lo hi : Z) (s : slots) : bool :=
  (sl_v s A_tail_fl_hi >? sl_v s A_tail_fl_lo) && (lo <? sl_v s A_tail_fl_hi) && (hi >? sl_v s A_tail_fl_lo).

(** A block the host gives does not overlap the reservation, a page or a region. *)
Definition apart (lo n lo' n' : Z) : bool := (lo + n <=? lo') || (lo' + n' <=? lo).
Definition fresh_block (s : slots) (raw n : Z) : bool :=
  (0 <? raw) && (raw + n <? 2 ^ 64) && (negb (reserved s) || apart raw n (hbase (sl_cf s)) (hsize (sl_cf s))) &&
  forallb (fun p => apart raw n (pg_raw p) PAGE_BYTES) (sl_pages s) && forallb (fun r => apart raw n (fst r) (snd r)) (sl_regions s).
Definition shm_malloc (e : env) (n : Z) (s : slots) : option Z :=
  match e_block e with Some raw => if fresh_block s raw n then Some raw else None | None => None end.

Definition page_slot (base : Z) (j : nat) : Z := base + Z.of_nat j * PCACHE_SLOT.
Definition page_slots (base : Z) : list Z := page_slot base <$> seq 0 PCACHE_PAGE_SLOTS.

Definition page_add (e : env) (s : slots) : slots * bool :=
  match shm_malloc e PAGE_BYTES s with
  | None => (s, false)
  | Some raw =>
      let base := Z.land (raw + PCACHE_SLOT - 1) PCACHE_SLOT_MASK in
      let pg := mk_page raw base (reverse (page_slots base)) (Z.of_nat PCACHE_PAGE_SLOTS) in
      let s := set_pages (pg :: sl_pages s) s in
      let s := extents_add raw (raw + PAGE_BYTES) (vadd A_bytes PAGE_BYTES (vadd A_npages 1 s)) in
      let s := foldl (fun s ch => put_hdr ch (mk_shdr true 0 false (Some base)) s) s (page_slots base) in
      (vadd A_slots_total (Z.of_nat PCACHE_PAGE_SLOTS) (vadd A_nfree_warm (Z.of_nat PCACHE_PAGE_SLOTS) s), true)
  end.

(** The first of the pages with the fewest free slots, of those that have one. *)
Fixpoint fullest (l : list page) (i : nat) (best : option (nat * Z)) : option nat :=
  match l with
  | [] => fst <$> best
  | p :: l =>
      fullest l (S i)
        (if negb (pg_nfree p =? 0) && (match best with Some (_, n) => pg_nfree p <? n | None => true end) then Some (i, pg_nfree p) else best)
  end.

Definition take_warm (s : slots) : slots * option Z :=
  if negb (reserved s) then (s, None)
  else match bfirst RWARM s with
       | Some i => (vadd A_nfree_warm (-1) (bclr RWARM i s), Some (rslot_at s i))
       | None => (s, None)
       end.

Definition take_cold (e : env) (s : slots) : slots * option Z :=
  if negb (reserved s) then (s, None)
  else match bfirst RCOLD s with
       | Some i =>
           let '(s, ok) := group_recommit e (i / PCACHE_GROUP_SLOTS)%nat s in
           if ok then (vadd A_nfree_warm (-1) (bclr RWARM i s), Some (rslot_at s i)) else (s, None)
       | None => (s, None)
       end.

Definition take_frontier (e : env) (s : slots) : slots * option Z :=
  let off := sl_v s A_hoff in
  if negb (reserved s) || negb (off + PCACHE_SLOT <=? sl_v s A_rtop) || tail_inflight off (off + PCACHE_SLOT) s then (s, None)
  else
    let '(s, ok) := carve_commit e (Z.to_nat (off / PCACHE_HPS)) s in
    if negb ok then (s, None)
    else
      let ch := hbase (sl_cf s) + off in
      let s := vadd A_bytes PCACHE_SLOT (vadd A_slots_total 1 (vadd A_hoff PCACHE_SLOT s)) in
      (put_hdr ch (mk_shdr true 0 false None) s, Some ch).

(** The slot off the page's list. *)
Definition take_off_page (i : nat) (s : slots) : slots * option Z :=
  match sl_pages s !! i with
  | Some p =>
      match pg_free p with
      | ch :: l => (vadd A_nfree_warm (-1) (set_pages (<[i := mk_page (pg_raw p) (pg_base p) l (u32 (pg_nfree p - 1))]> (sl_pages s)) s), Some ch)
      | [] => (s, None)
      end
  | None => (s, None)
  end.

Definition take_page (e : env) (s : slots) : slots * option Z :=
  match fullest (sl_pages s) 0 None with
  | Some i => take_off_page i s
  | None =>
      if negb (max_bytes (sl_cf s) =? 0) && (max_bytes (sl_cf s) <? u64 (sl_v s A_bytes + PAGE_BYTES)) then
        (vadd A_refused 1 (if sl_v s A_ceiling_since =? 0 then vset A_ceiling_since (e_now e) s else s), None)
      else
        let '(s, ok) := page_add e s in
        if ok then take_off_page 0 s else (s, None)
  end.

(** [carve_chunk] gives the slot its class in the same hold of the lock. *)
Definition slot_used (ch : Z) (s : slots) : slots :=
  match sl_hdr s !! ch with Some h => put_hdr ch (mk_shdr false (h_free_at h) (h_cold h) (h_page h)) s | None => s end.

Definition slot_take (e : env) (s : slots) : slots * option Z :=
  let '(s, got) := take_warm s in
  let '(s, got) := match got with Some ch => (s, got) | None => take_cold e s end in
  let '(s, got) := match got with Some ch => (s, got) | None => take_frontier e s end in
  let '(s, got) := match got with Some ch => (s, got) | None => take_page e s end in
  match got with
  | None => (s, None)
  | Some ch =>
      let s := vset A_ceiling_since 0 (vset A_carve_tick (sl_v s A_tick) (vadd A_chunks_used 1 s)) in
      (slot_used ch s, Some ch)
  end.

(** * Giving a slot back: the end of [chunk_retire] *)

Definition page_back (base ch : Z) (p : page) : page :=
  if pg_base p =? base then mk_page (pg_raw p) (pg_base p) (ch :: pg_free p) (u32 (pg_nfree p + 1)) else p.

Definition slot_give (s : slots) (ch : Z) : slots :=
  match sl_hdr s !! ch with
  | None => s
  | Some h =>
      let s := put_hdr ch (mk_shdr true (sl_v s A_tick) (h_cold h) (h_page h)) s in
      let s := match h_page h with
               | Some base => set_pages (page_back base ch <$> sl_pages s) s
               | None => bset RWARM (rslot_idx s ch) s
               end in
      vadd A_chunks_used (-1) (vadd A_nfree_warm 1 s)
  end.

Definition slot_tick (s : slots) : slots := vadd A_tick 1 s.

(** * Regions *)

Definition pcache_arena_region_cost (size : Z) : Z := u64 (Z.shiftr (u64 (size + PCACHE_SLOT - 1)) 18 * PCACHE_SLOT).

Definition pcache_arena_room_for (bytes : Z) (s : slots) : bool :=
  if max_bytes (sl_cf s) =? 0 then true
  else
    let credit := sl_v s A_nzfree_warm * PCACHE_SLOT in
    let bytes := if bytes >? credit then bytes - credit else 0 in
    u64 (sl_v s A_bytes + bytes) <=? max_bytes (sl_cf s).

(** The frontier goes up over the zone's free slots that border it. *)
Fixpoint raise_loop (fuel : nat) (n : Z) (s : slots) : slots * Z :=
  match fuel with
  | O => (s, n)
  | S fuel =>
      if negb (sl_v s A_rtop <? hsize (sl_cf s)) then (s, n)
      else
        let i := Z.to_nat (Z.shiftr (sl_v s A_rtop) 18) in
        if (rslots (sl_cf s) <=? i)%nat then (s, n)
        else if bget ZWARM i s then
          raise_loop fuel (n + 1) (vadd A_rtop PCACHE_SLOT (vadd A_bytes (- PCACHE_SLOT) (vadd A_nzfree_warm (-1) (bclr ZWARM i s))))
        else if bget ZCOLD i s then
          raise_loop fuel (n + 1) (vadd A_rtop PCACHE_SLOT (vadd A_cold_bytes (- PCACHE_SLOT) (vadd A_nzfree_cold (-1) (bclr ZCOLD i s))))
        else (s, n)
  end.

Definition zone_raise_locked (s : slots) : slots :=
  let from := sl_v s A_rtop in
  if negb (reserved s) then s
  else
    let '(s, n) := raise_loop (S (rslots (sl_cf s))) 0 s in
    if n =? 0 then s
    else
      let s := vadd A_zregions_raised n s in
      let from := from / PCACHE_HPS * PCACHE_HPS in
      let s := if sl_v s A_tail_next >? from then vset A_tail_next from s else s in
      vset A_tail_done 0 s.

(** One slot of a region given back; a second time changes nothing. *)
Definition free_slot (x : slots * Z) (i : nat) : slots * Z :=
  let '(s, n) := x in
  if (rslots (sl_cf s) <=? i)%nat then (s, n)
  else if bget ZWARM i s || bget ZCOLD i s then (s, n)
  else
    let s := set_zfree (<[i := sl_v s A_tick]> (sl_zfree_at s)) (bset ZWARM i s) in
    let s := vadd A_zregions_retired 1 (vadd A_regions_bytes (- PCACHE_SLOT) (vadd A_nzfree_warm 1 s)) in
    (s, n + PCACHE_SLOT).

Definition region_slots (size : Z) : nat := Z.to_nat (Z.shiftr (size + PCACHE_SLOT - 1) 18).

Definition pcache_region_free (p size : Z) (s : slots) : slots * Z :=
  if negb (reserved s) || (p <? hbase (sl_cf s) + sl_v s A_rtop) || (hbase (sl_cf s) + hsize (sl_cf s) <=? p) then (s, 0)
  else
    let i := Z.to_nat (Z.shiftr (p - hbase (sl_cf s)) 18) in
    let '(s, n) := foldl free_slot (s, 0) (seq i (region_slots size)) in
    (zone_raise_locked s, n).

(** A retired slot, resident or brought back. *)
Definition region_reuse (e : env) (s : slots) : slots * option Z :=
  let '(s, i) := match bfirst ZWARM s with
                 | Some i => (s, Some i)
                 | None => match bfirst ZCOLD s with
                           | Some i => let '(s, ok) := zgroup_recommit e (i / PCACHE_GROUP_SLOTS)%nat s in (s, if ok then Some i else None)
                           | None => (s, None)
                           end
                 end in
  match i with
  | Some i => (vadd A_zregion_reuse 1 (vadd A_regions_bytes PCACHE_SLOT (vadd A_nzfree_warm (-1) (bclr ZWARM i s))), Some (rslot_at s i))
  | None => (s, None)
  end.

(** Off the region frontier. *)
Definition region_carve (e : env) (n : nat) (s : slots) : slots * option Z :=
  let need := Z.of_nat n * PCACHE_SLOT in
  let top := sl_v s A_rtop in
  if negb (reserved s) || negb (sl_v s A_hoff + need <=? top) || tail_inflight (top - need) top s then (s, None)
  else
    let '(s, ok) := groups_commit e (top - need) top s in
    if negb ok then (s, None)
    else (vadd A_regions_bytes need (vadd A_bytes need (vset A_rtop (top - need) s)), Some (hbase (sl_cf s) + (top - need))).

(** Past the reservation: the bytes are reserved before the block is asked for. *)
Definition region_shm (e : env) (size : Z) (s : slots) : slots * option Z :=
  let need := u64 (size + 16 + 64) in
  if negb (max_bytes (sl_cf s) =? 0) && (max_bytes (sl_cf s) <? u64 (sl_v s A_bytes + need)) then (s, None)
  else
    let s := vadd A_bytes need s in
    match shm_malloc e need s with
    | None => (vadd A_bytes (- need) s, None)
    | Some rg =>
        let s := extents_add rg (rg + need) (vadd A_regions_bytes need (set_regions ((rg, need) :: sl_regions s) s)) in
        (s, Some (Z.land (rg + 16 + 63) (Z.lnot 63)))
    end.

Definition pcache_region_alloc (e : env) (size : Z) (s : slots) : slots * option Z :=
  let n := region_slots size in
  let '(s, got) := if (n =? 1)%nat && reserved s then region_reuse e s else (s, None) in
  let '(s, got) := match got with Some _ => (s, got) | None => region_carve e n s end in
  match got with Some _ => (s, got) | None => region_shm e size s end.

(** * Commit ahead *)

Definition ahead_wanted (s : slots) : bool :=
  let win := u32 (reclaim_cooloff_s (sl_cf s)) in
  u32 (sl_v s A_tick - sl_v s A_carve_tick) <=? (if win <? 2 then 2 else win).

Fixpoint ahead_loop (e : env) (n : nat) (off : Z) (s : slots) : slots :=
  match n with
  | O => s
  | S n =>
      if sl_v s A_rtop <? off + PCACHE_HPS then s
      else
        let g := Z.to_nat (off / PCACHE_HPS) in
        let s := if (sl_v s A_ahead_from =? 0) || (off <? sl_v s A_ahead_from) then vset A_ahead_from off s else s in
        if bget HCOMMIT g s then ahead_loop e n (off + PCACHE_HPS) s
        else
          let '(s, ok) := group_commit e g s in
          if negb ok then s else ahead_loop e n (off + PCACHE_HPS) (vadd A_commits_ahead 1 s)
  end.

Definition commit_ahead (e : env) (s : slots) : slots :=
  if negb (reserved s) || hugetlb (sl_cf s) || negb (ahead_wanted s) then s
  else ahead_loop e (S PCACHE_AHEAD_GROUPS) (sl_v s A_hoff / PCACHE_HPS * PCACHE_HPS) s.

(** * Giving memory back to the host

    The first phase, under the lock, picks runs of groups and whole pages and takes them
    off the warm maps; the second, without it, is the host's; the third, under the lock
    again, writes down what happened.  Other threads' steps come between the two. *)

Definition slot_quiet (s : slots) (ch : Z) : bool :=
  match sl_hdr s !! ch with
  | Some h => h_free h && negb (h_cold h) && (u32 (reclaim_quiet_s (sl_cf s)) <=? u32 (sl_v s A_tick - h_free_at h))
  | None => false
  end.

Definition range_quiet (s : slots) (l : list Z) : bool := forallb (slot_quiet s) l.

Definition floor_allows (s : slots) (amount : Z) : bool :=
  (floor_bytes (sl_cf s) =? 0) || ((amount <=? sl_v s A_bytes) && (floor_bytes (sl_cf s) <=? sl_v s A_bytes - amount)).

Definition shrink_step (s : slots) : Z :=
  let cf := sl_cf s in
  if negb (shrink_step_bytes cf =? 0) then (if PAGE_BYTES <? shrink_step_bytes cf then shrink_step_bytes cf else PAGE_BYTES)
  else
    let base := if negb (max_bytes cf =? 0) then max_bytes cf else hsize cf in
    if 4 * PCACHE_HPS <? base / 8 then base / 8 else 4 * PCACHE_HPS.

(** The runs so far, the last first; a group that follows the last of its kind extends it. *)
Definition add_run (tail zone : bool) (g : nat) (runs : list punch_run) : list punch_run :=
  match runs with
  | r :: l =>
      if (if tail then ru_tail r else eqb (ru_zone r) zone) && (ru_g0 r + ru_n r =? g)%nat
      then mk_run (ru_g0 r) (S (ru_n r)) (ru_tail r) (ru_zone r) :: l
      else mk_run g 1 tail zone :: runs
  | [] => [mk_run g 1 tail zone]
  end.

(** What a plan has so far: the state, the runs, the bytes. *)
Record plan := mk_plan { pn_s : slots; pn_runs : list punch_run; pn_bytes : Z }.

Definition fits (step : Z) (n : Z) (x : plan) : bool := u64 (pn_bytes x + n) <=? step.
Definition more_runs (x : plan) : bool := (length (pn_runs x) <? PUNCH_RUNS_MAX)%nat.

Definition take_group (b : bm) (g : nat) (s : slots) : slots := foldl (fun s i => bclr b i s) s (group_slots g).

(** The groups below the chunk frontier. *)
Fixpoint plan_chunks (step : Z) (gs : list nat) (x : plan) : plan :=
  match gs with
  | [] => x
  | g :: gs =>
      let s := pn_s x in
      if negb (more_runs x) then x
      else if negb (forallb (fun i => bget RWARM i s) (group_slots g)) || negb (range_quiet s (rslot_at s <$> group_slots g)) then plan_chunks step gs x
      else if negb (fits step PCACHE_HPS x) || negb (floor_allows s (u64 (pn_bytes x + PCACHE_HPS))) then x
      else plan_chunks step gs (mk_plan (vadd A_nfree_warm (- Z.of_nat PCACHE_GROUP_SLOTS) (take_group RWARM g s)) (add_run false false g (pn_runs x)) (u64 (pn_bytes x + PCACHE_HPS)))
  end.

Definition zslot_quiet (s : slots) (i : nat) : bool :=
  bget ZWARM i s && (u32 (reclaim_quiet_s (sl_cf s)) <=? u32 (sl_v s A_tick - default 0 (sl_zfree_at s !! i))).

(** The groups of the region zone, as long as two groups' worth is resident. *)
Fixpoint plan_zone (step : Z) (gs : list nat) (x : plan) : plan :=
  match gs with
  | [] => x
  | g :: gs =>
      let s := pn_s x in
      if negb (more_runs x) || negb (2 * Z.of_nat PCACHE_GROUP_SLOTS <=? sl_v s A_nzfree_warm) then x
      else if negb (forallb (zslot_quiet s) (group_slots g)) then plan_zone step gs x
      else if negb (fits step PCACHE_HPS x) || negb (floor_allows s (u64 (pn_bytes x + PCACHE_HPS))) then x
      else plan_zone step gs (mk_plan (vadd A_nzfree_warm (- Z.of_nat PCACHE_GROUP_SLOTS) (take_group ZWARM g s)) (add_run false true g (pn_runs x)) (u64 (pn_bytes x + PCACHE_HPS)))
  end.

(** The groups between the frontiers, from [tail_next] on. *)
Fixpoint plan_tail (fuel : nat) (step hi : Z) (x : plan) : plan :=
  match fuel with
  | O => x
  | S fuel =>
      let s := pn_s x in
      let next := sl_v s A_tail_next in
      if negb (next <? hi) || negb (more_runs x) || negb (fits step PCACHE_HPS x) then x
      else
        let g := Z.to_nat (next / PCACHE_HPS) in
        let s' := vadd A_tail_next PCACHE_HPS s in
        if negb (bget HCOMMIT g s) then plan_tail fuel step hi (mk_plan s' (pn_runs x) (pn_bytes x))
        else plan_tail fuel step hi (mk_plan s' (add_run true false g (pn_runs x)) (u64 (pn_bytes x + PCACHE_HPS)))
  end.

Definition tail_lo (s : slots) : Z :=
  let lo := (sl_v s A_hoff + PCACHE_HPS - 1) / PCACHE_HPS * PCACHE_HPS in
  if ahead_wanted s then
    let keep := sl_v s A_hoff / PCACHE_HPS * PCACHE_HPS + Z.of_nat (S PCACHE_AHEAD_GROUPS) * PCACHE_HPS in if lo <? keep then keep else lo
  else lo.

Definition plan_tails (step : Z) (x : plan) : plan :=
  let s := pn_s x in
  if negb (sl_v s A_giveback_off =? 0) || negb (sl_v s A_tail_done =? 0) then x
  else
    let hi := sl_v s A_rtop / PCACHE_HPS * PCACHE_HPS in
    let s := if sl_v s A_tail_next <? tail_lo s then vset A_tail_next (tail_lo s) s else s in
    let x := plan_tail (S (rslots (sl_cf s))) step hi (mk_plan s (pn_runs x) (pn_bytes x)) in
    if hi <=? sl_v (pn_s x) A_tail_next then mk_plan (vset A_tail_done 1 (pn_s x)) (pn_runs x) (pn_bytes x) else x.

(** The window above the frontier is no longer wanted: the tail walk goes back over it. *)
Definition unwindow (s : slots) : slots :=
  if negb (sl_v s A_ahead_from =? 0) && negb (ahead_wanted s) then
    let s := if sl_v s A_tail_next >? sl_v s A_ahead_from then vset A_tail_next (sl_v s A_ahead_from) s else s in
    vset A_ahead_from 0 (vset A_tail_done 0 s)
  else s.

Definition drop_hdrs (l : list Z) (s : slots) : slots := set_hdr (foldr delete (sl_hdr s) l) s.

(** A page goes back: its slots are none any more. *)
Definition page_drop (p : page) (s : slots) : slots :=
  let s := vadd A_slots_total (- Z.of_nat PCACHE_PAGE_SLOTS) (vadd A_nfree_warm (- Z.of_nat PCACHE_PAGE_SLOTS) s) in
  let s := vadd A_released_bytes PAGE_BYTES (vadd A_bytes (- PAGE_BYTES) s) in
  drop_hdrs (page_slots (pg_base p)) (vadd A_pages_freed 1 (vadd A_npages (-1) s)).

(** The pages in order; [done] the ones that stay, the last first; the second component
    says whether one goes. *)
Fixpoint plan_pages (step : Z) (ps done : list page) (kept : Z) (any : bool) (x : plan) : plan * bool :=
  let stop l := (mk_plan (set_pages (reverse done ++ l) (pn_s x)) (pn_runs x) (pn_bytes x), any) in
  match ps with
  | [] => stop []
  | p :: l =>
      let s := pn_s x in
      if (pg_nfree p <? Z.of_nat PCACHE_PAGE_SLOTS) || negb (range_quiet s (page_slots (pg_base p))) then plan_pages step l (p :: done) kept any x
      else if kept <? u32 (reclaim_keep (sl_cf s)) then plan_pages step l (p :: done) (kept + 1) any x
      else if negb (fits step PAGE_BYTES x) then stop ps
      else if negb (floor_allows s (u64 (pn_bytes x + PAGE_BYTES))) then plan_pages step l (p :: done) kept any x
      else plan_pages step l done kept true (mk_plan (page_drop p s) (pn_runs x) (u64 (pn_bytes x + PAGE_BYTES)))
  end.

(** The hull of the tail's runs. *)
Definition fly_tail (s : slots) (r : punch_run) : slots :=
  if negb (ru_tail r) then s
  else
    let lo := Z.of_nat (ru_g0 r) * PCACHE_HPS in
    let hi := Z.of_nat (ru_g0 r + ru_n r) * PCACHE_HPS in
    let s := if (sl_v s A_tail_fl_hi =? sl_v s A_tail_fl_lo) || (lo <? sl_v s A_tail_fl_lo) then vset A_tail_fl_lo lo s else s in
    if hi >? sl_v s A_tail_fl_hi then vset A_tail_fl_hi hi s else s.

Definition off_ceiling (s : slots) : slots :=
  if negb (sl_v s A_ceiling_since =? 0) && negb (negb (max_bytes (sl_cf s) =? 0) && (max_bytes (sl_cf s) <? u64 (sl_v s A_bytes + PAGE_BYTES)))
  then vset A_ceiling_since 0 s else s.

Definition plan_reservation (step : Z) (s : slots) : plan :=
  let x := mk_plan s [] 0 in
  if negb (reserved s) then x
  else
    let on := sl_v s A_giveback_off =? 0 in
    let x := if on then plan_chunks step (seq 0 (Z.to_nat (sl_v s A_hoff / PCACHE_HPS))) x else x in
    let z0 := Z.to_nat (sl_v s A_rtop / PCACHE_HPS) in
    let x := if on && (2 * Z.of_nat PCACHE_GROUP_SLOTS <? sl_v (pn_s x) A_nzfree_warm)
             then plan_zone step (seq z0 (Z.to_nat (hsize (sl_cf s) / PCACHE_HPS) - z0)) x else x in
    plan_tails step (mk_plan (unwindow (pn_s x)) (pn_runs x) (pn_bytes x)).

(** Phase one; whether the others follow. *)
Definition giveback_plan (s : slots) : slots * bool :=
  let s := off_ceiling s in
  let cf := sl_cf s in
  if negb (reclaim_giveback cf) || (u32 (sl_v s A_tick - sl_v s A_carve_tick) <? u32 (reclaim_cooloff_s cf)) then (s, false)
  else
    let step := shrink_step s in
    let x := plan_reservation step s in
    let '(x, freed) := plan_pages step (sl_pages (pn_s x)) [] 0 false x in
    match pn_runs x, freed with
    | [], false => (pn_s x, false)
    | runs, _ =>
        let runs := reverse runs in
        (set_flight runs (foldl fly_tail (vset A_tail_fl_hi 0 (vset A_tail_fl_lo 0 (pn_s x))) runs), true)
    end.

Definition run_groups (r : punch_run) : list nat := seq (ru_g0 r) (ru_n r).
Definition run_bytes (r : punch_run) : Z := Z.of_nat (ru_n r) * PCACHE_HPS.
Definition put_group (b : bm) (s : slots) (g : nat) : slots := foldl (fun s i => bset b i s) s (group_slots g).

Definition uncommit (s : slots) (g : nat) : slots :=
  if bget HCOMMIT g s then vadd A_committed (- PCACHE_HPS) (bclr HCOMMIT g s) else s.

Definition punched (r : punch_run) (s : slots) : slots := vadd A_punch_groups (Z.of_nat (ru_n r)) (vadd A_punch_calls 1 s).

Definition land_group (cold : bm) (nfree : av) (s : slots) (g : nat) : slots :=
  let s := vadd nfree (Z.of_nat PCACHE_GROUP_SLOTS) (put_group cold s g) in
  vadd A_released_bytes PCACHE_HPS (vadd A_bytes (- PCACHE_HPS) (vadd A_cold_bytes PCACHE_HPS s)).

(** A run the host has taken. *)
Definition land_run (s : slots) (r : punch_run) : slots :=
  let s := foldl uncommit s (run_groups r) in
  let s := if sl_v s A_pinned =? 0 then s else vset A_hlocked_mb (Z.shiftr (sl_v s A_committed) 20) s in
  if ru_tail r then vadd A_tail_released (run_bytes r) (vadd A_released_bytes (run_bytes r) (punched r s))
  else if ru_zone r then punched r (foldl (land_group ZCOLD A_nzfree_cold) s (run_groups r))
  else punched r (foldl (land_group RCOLD A_nfree_cold) s (run_groups r)).

(** A run it refused: back on the warm map. *)
Definition refuse_run (s : slots) (r : punch_run) : slots :=
  if ru_tail r then vset A_tail_done 0 s
  else if ru_zone r then vadd A_nzfree_warm (Z.of_nat (PCACHE_GROUP_SLOTS * ru_n r)) (foldl (put_group ZWARM) s (run_groups r))
  else vadd A_nfree_warm (Z.of_nat (PCACHE_GROUP_SLOTS * ru_n r)) (foldl (put_group RWARM) s (run_groups r)).

(** Phase three, the host having taken the first [done] runs. *)
Definition giveback_land (done : nat) (s : slots) : slots :=
  let runs := sl_flight s in
  let s := set_flight [] (vset A_tail_fl_hi 0 (vset A_tail_fl_lo 0 s)) in
  let s := foldl land_run s (take done runs) in
  let s := match drop done runs with [] => s | l => foldl refuse_run (vset A_giveback_off 1 s) l end in
  zone_raise_locked s.

(** * Start, and the rows of the arena's card *)

(** The settings, as the configuration has them. *)
Record init_conf := mk_iconf {
  ic_mb : Z; ic_cap_mb : Z; ic_max_bytes : Z; ic_floor_bytes : Z; ic_shrink_step : Z; ic_keep : Z; ic_quiet_s : Z; ic_cooloff_s : Z; ic_giveback : bool
}.

(** What [pcache_mem_reserve] answers: where, on which tier, how much of it pinned. *)
Record reservation := mk_resv { rv_base : Z; rv_hugetlb : bool; rv_locked_mb : Z }.

Definition words (n : nat) : nat := ((n + 63) / 64)%nat.

Definition init_hsize (ic : init_conf) : Z :=
  let commit := u64 (Z.shiftl (ic_mb ic) 20) in
  let h := u64 (Z.shiftl (ic_cap_mb ic) 20) in
  if h <? commit then commit else h.

(** The commit map: a bit for each group that begins below the initial commit. *)
Definition init_hcommit (ngroups : nat) (commit : Z) : list Z :=
  foldl (fun m g => if Z.of_nat g * PCACHE_HPS <? commit then bit_set m g else m) (replicate (words ngroups) 0) (seq 0 ngroups).

Definition init_conf_of (ic : init_conf) (base : Z) (n : nat) (huge : bool) : aconf :=
  mk_aconf base n huge (ic_max_bytes ic) (ic_floor_bytes ic) (ic_shrink_step ic) (ic_keep ic) (ic_quiet_s ic) (ic_cooloff_s ic) (ic_giveback ic).

(** [None] when the settings are refused or there is no memory for the maps ([mem]). *)
Definition pcache_arena_init (ic : init_conf) (rv : option reservation) (mem : bool) : option slots :=
  if (ic_keep ic <? 0) || (ic_quiet_s ic <? 0) || (ic_cooloff_s ic <? 0) then None
  else
    let none := mk_slots (init_conf_of ic 0 0 false) (fun x => match x with A_lo => 2 ^ 64 - 1 | _ => 0 end) (fun _ => []) [] [] [] ∅ [] in
    if negb (0 <? ic_mb ic) then Some none
    else
      match rv with
      | None => Some none
      | Some rv =>
          if negb mem then None
          else
            let commit := u64 (Z.shiftl (ic_mb ic) 20) in
            let hsize := init_hsize ic in
            let ngroups := Z.to_nat (hsize / PCACHE_HPS) in
            let n := Z.to_nat (Z.shiftr hsize 18) in
            let c := (commit + PCACHE_HPS - 1) / PCACHE_HPS * PCACHE_HPS in
            Some (mk_slots (init_conf_of ic (rv_base rv) n (rv_hugetlb rv))
                    (fun x => match x with
                              | A_rtop => hsize | A_committed => if c >? hsize then hsize else c | A_pinned => if 0 <? rv_locked_mb rv then 1 else 0
                              | A_hlocked_mb => rv_locked_mb rv | A_lo => rv_base rv | A_hi => u64 (rv_base rv + hsize) | _ => 0
                              end)
                    (fun b => match b with HCOMMIT => init_hcommit ngroups commit | _ => replicate (words n) 0 end)
                    (replicate n 0) [] [] ∅ [])
      end.

(** Rows of [pcache_arena_pressure], each an [unsigned long]. *)
Definition class_chunk_bytes (s : slots) : Z := u64 (sl_v s A_chunks_used * PCACHE_SLOT).
Definition warm_free_bytes (s : slots) : Z := u64 ((sl_v s A_nfree_warm + sl_v s A_nzfree_warm) * PCACHE_SLOT).
Definition page_slack_bytes (s : slots) : Z := u64 (sl_v s A_npages * PCACHE_SLOT).
