(* ===== verification/ArenaSlotOk.v ===== *)
(** Every slot of the arena in one use: the invariant of the slot layer
    ([core/pcache_arena.c]) and its preservation.

    Of a reservation slot below the chunk frontier: in a chunk, free and resident, free and
    given back, or on its way back.  Of one above the region frontier: in a region, or the
    same three.  Of a page's: in a chunk or on the page's list. *)

From Stdlib Require Import ZArith Lia.
From stdpp Require Import base tactics list numbers gmap.
From S2P Require Import Prelude HtBase ArenaCell ArenaCensus ArenaSlot.
#[local] Open Scope Z_scope.

(** * Bitmaps *)

Definition word_ok (w : Z) : Prop := 0 <= w < 2 ^ 64.
(** A map with a bit for each of [n] slots. *)
Definition map_ok (n : nat) (m : list Z) : Prop := length m = ((n + 63) / 64)%nat /\ Forall word_ok m.

Lemma bit_get_testbit m i : bit_get m i = Z.testbit (word_of m i) (Z.of_nat (i mod 64)).
Proof.
  unfold bit_get. rewrite Z.testbit_eqb by lia. rewrite Z.shiftr_div_pow2 by lia. change 1 with (Z.ones 1) at 1. rewrite Z.land_ones by lia. change (2 ^ 1) with 2.
  destruct (Z.mod_pos_bound (word_of m i / 2 ^ Z.of_nat (i mod 64)) 2 ltac:(lia)) as [H1 H2]. destruct (Z.eqb_spec (word_of m i / 2 ^ Z.of_nat (i mod 64) mod 2) 0) as [-> |Hn]; [done|]. symmetry. apply Z.eqb_eq. lia.
Qed.

Lemma word_in n m i : map_ok n m -> (i < n)%nat -> (i / 64 < length m)%nat /\ word_ok (word_of m i).
Proof.
  intros [Hl Hf] Hi. assert (i / 64 < length m)%nat as Hlt by (rewrite Hl; apply Nat.Div0.div_lt_upper_bound; pose proof (Nat.div_mod (n + 63) 64 ltac:(lia)); pose proof (Nat.mod_upper_bound (n + 63) 64 ltac:(lia)); lia).
  split; [done|]. unfold word_of. destruct (lookup_lt_is_Some_2 m _ Hlt) as [w Hw]. rewrite Hw. by eapply Forall_lookup_1.
Qed.

Lemma map_word_set m i w j : (i / 64 < length m)%nat -> word_of (<[(i / 64)%nat := w]> m) j = if decide (j / 64 = i / 64)%nat then w else word_of m j.
Proof. intros Hl. unfold word_of. destruct (decide _) as [->|Hn]; [by rewrite list_lookup_insert_eq|]. by rewrite list_lookup_insert_ne. Qed.

Lemma shift_bit k j : Z.testbit (Z.shiftl 1 (Z.of_nat k)) (Z.of_nat j) = bool_decide (j = k).
Proof. rewrite Z.shiftl_1_l, Z.pow2_bits_eqb by lia. destruct (Z.eqb_spec (Z.of_nat k) (Z.of_nat j)); case_bool_decide; try done; lia. Qed.

Lemma bit_place i j : (i / 64 = j / 64)%nat -> (i mod 64 = j mod 64)%nat -> i = j.
Proof. intros H1 H2. pose proof (Nat.div_mod i 64 ltac:(lia)). pose proof (Nat.div_mod j 64 ltac:(lia)). lia. Qed.

Lemma bit_get_set n m i j : map_ok n m -> (i < n)%nat -> bit_get (bit_set m i) j = if decide (j = i) then true else bit_get m j.
Proof.
  intros Hm Hi. destruct (word_in n m i Hm Hi) as [Hl _]. rewrite !bit_get_testbit. unfold bit_set. rewrite map_word_set by done. destruct (decide (j / 64 = i / 64)%nat) as [Hq|Hq].
  - rewrite Z.lor_spec, shift_bit. destruct (decide (j = i)) as [->|Hn]; [by rewrite bool_decide_true, orb_true_r|]. rewrite bool_decide_false by (intros Hr; by apply Hn, bit_place). rewrite orb_false_r. unfold word_of. by rewrite Hq.
  - destruct (decide (j = i)) as [->|Hn]; done.
Qed.

Lemma bit_get_clr n m i j : map_ok n m -> (i < n)%nat -> bit_get (bit_clr m i) j = if decide (j = i) then false else bit_get m j.
Proof.
  intros Hm Hi. destruct (word_in n m i Hm Hi) as [Hl _]. rewrite !bit_get_testbit. unfold bit_clr. rewrite map_word_set by done. destruct (decide (j / 64 = i / 64)%nat) as [Hq|Hq].
  - rewrite Z.ldiff_spec, shift_bit. destruct (decide (j = i)) as [->|Hn]; [by rewrite bool_decide_true, andb_false_r|]. rewrite bool_decide_false by (intros Hr; by apply Hn, bit_place). rewrite andb_true_r. unfold word_of. by rewrite Hq.
  - destruct (decide (j = i)) as [->|Hn]; done.
Qed.

Lemma bits_range w : word_ok w <-> 0 <= w /\ forall k, 64 <= k -> Z.testbit w k = false.
Proof.
  unfold word_ok. split.
  - intros [H1 H2]. split; [done|]. intros k Hk. rewrite <- (Z.mod_small w (2 ^ 64)) by lia. by apply Z.mod_pow2_bits_high.
  - intros [H1 H2]. split; [done|]. destruct (Z.eq_dec w 0) as [->|Hn]; [done|]. apply Z.log2_lt_pow2; [lia|]. destruct (Z.lt_ge_cases (Z.log2 w) 64) as [?|Hg]; [done|]. specialize (H2 _ Hg). rewrite Z.bit_log2 in H2 by lia. done.
Qed.

Lemma map_ok_set n m i : map_ok n m -> (i < n)%nat -> map_ok n (bit_set m i).
Proof.
  intros Hm Hi. destruct (word_in n m i Hm Hi) as [Hl Hw]. destruct Hm as [Hl' Hf]. split; [by unfold bit_set; rewrite length_insert|]. apply Forall_insert; [done|]. apply bits_range in Hw as [Hw1 Hw2]. apply bits_range. split; [apply Z.lor_nonneg; split; [done|]; apply Z.shiftl_nonneg; lia|].
  intros k Hk. rewrite Z.lor_spec, Hw2 by done. pose proof (Nat.mod_upper_bound i 64 ltac:(lia)). rewrite Z.shiftl_1_l, Z.pow2_bits_false by lia. done.
Qed.

Lemma map_ok_clr n m i : map_ok n m -> (i < n)%nat -> map_ok n (bit_clr m i).
Proof.
  intros Hm Hi. destruct (word_in n m i Hm Hi) as [Hl Hw]. destruct Hm as [Hl' Hf]. split; [by unfold bit_clr; rewrite length_insert|]. apply Forall_insert; [done|]. apply bits_range in Hw as [Hw1 Hw2]. apply bits_range. split; [apply Z.ldiff_nonneg; by left|].
  intros k Hk. by rewrite Z.ldiff_spec, Hw2.
Qed.

Lemma ctz_spec fuel : forall w k j, (j <= fuel)%nat -> Z.testbit w (Z.of_nat (k + j)) = true -> Z.testbit w (Z.of_nat (ctz fuel w k)) = true /\ (ctz fuel w k <= k + fuel)%nat.
Proof.
  induction fuel as [|fuel IH]; intros w k j Hj Hb; cbn [ctz]; [assert (j = 0)%nat as -> by lia; rewrite Nat.add_0_r in Hb; split; [done|lia]|]. destruct (Z.testbit w (Z.of_nat k)) eqn:Hk; [split; [done|lia]|].
  destruct j as [|j]; [rewrite Nat.add_0_r in Hb; congruence|]. destruct (IH w (S k) j ltac:(lia) ltac:(by replace (S k + j)%nat with (k + S j)%nat by lia)) as [H1 H2]. split; [done|lia].
Qed.

Lemma bit_get_low x m j : (j < 64)%nat -> bit_get (x :: m) j = Z.testbit x (Z.of_nat j).
Proof. intros Hj. rewrite bit_get_testbit. unfold word_of. by rewrite Nat.div_small, Nat.mod_small by lia. Qed.

Lemma bit_get_high x m j : bit_get (x :: m) (j + 1 * 64) = bit_get m j.
Proof. rewrite !bit_get_testbit. unfold word_of. rewrite Nat.div_add, Nat.Div0.mod_add by lia. by rewrite Nat.add_1_r. Qed.

(** The bit found is set; none is found only when none is set. *)
Lemma first_word_some m : forall w i, Forall word_ok m -> first_word m w = Some i -> exists j, i = (w * 64 + j)%nat /\ bit_get m j = true.
Proof.
  induction m as [|x m IH]; intros w i Hf Hw; [done|]. apply Forall_cons in Hf as [Hx Hf]. cbn [first_word] in Hw. destruct (Z.eqb_spec x 0) as [->|Hn].
  - destruct (IH _ _ Hf Hw) as (j & -> & Hj). exists (j + 1 * 64)%nat. split; [lia|]. by rewrite bit_get_high.
  - injection Hw as <-. assert (exists k, (k <= 63)%nat /\ Z.testbit x (Z.of_nat (0 + k)) = true) as (k & Hk & Hb).
    { destruct Hx as [Hx1 Hx2]. exists (Z.to_nat (Z.log2 x)). pose proof (Z.log2_nonneg x). assert (Z.log2 x < 64) by (apply Z.log2_lt_pow2; lia). split; [lia|]. rewrite Nat.add_0_l, Z2Nat.id by done. apply Z.bit_log2. lia. }
    destruct (ctz_spec 63 x 0 k Hk Hb) as [H1 H2]. exists (ctz 63 x 0). split; [done|]. by rewrite bit_get_low by lia.
Qed.

Lemma first_word_none m : forall w, first_word m w = None -> forall j, bit_get m j = false.
Proof.
  induction m as [|x m IH]; intros w Hw j; [rewrite bit_get_testbit; unfold word_of; by rewrite lookup_nil, Z.bits_0|]. cbn [first_word] in Hw. destruct (Z.eqb_spec x 0) as [->|Hn]; [|done].
  destruct (decide (j < 64)%nat) as [Hj|Hj]; [by rewrite bit_get_low, Z.bits_0|]. replace j with ((j - 64) + 1 * 64)%nat by lia. rewrite bit_get_high. by eapply IH.
Qed.

Lemma bit_first_some n m i : map_ok n m -> bit_first m n = Some i -> bit_get m i = true.
Proof. intros [Hl Hf] H. unfold bit_first in H. rewrite take_ge in H by lia. destruct (first_word_some m 0 i Hf H) as (j & -> & Hj). done. Qed.

Lemma bit_first_none n m : map_ok n m -> bit_first m n = None -> forall i, bit_get m i = false.
Proof. intros [Hl Hf] H. unfold bit_first in H. rewrite take_ge in H by lia. by eapply first_word_none. Qed.

(** * Counting *)

Definition ones (n : nat) (f : nat -> bool) : nat := length (filter (fun i => f i = true) (seq 0 n)).

Lemma ones_same n f g : (forall j, g j = f j) -> ones n g = ones n f.
Proof. intros H. unfold ones. f_equal. apply list_filter_iff. intros j. by rewrite H. Qed.

Lemma ones_put n f g i : (i < n)%nat -> f i = false -> g i = true -> (forall j, j <> i -> g j = f j) -> ones n g = S (ones n f).
Proof.
  intros Hi Hf Hg Hr. unfold ones. replace n with (i + (1 + (n - S i)))%nat by lia. rewrite !seq_app. cbn [seq Nat.add]. rewrite !filter_app, !length_app.
  assert (forall l : list nat, i ∉ l -> filter (fun j => g j = true) l = filter (fun j => f j = true) l) as Hs.
  { intros l Hl. induction l as [|x l IH]; [done|]. apply not_elem_of_cons in Hl as [Hx Hl]. rewrite !filter_cons, IH by done. by rewrite Hr. }
  rewrite (Hs (seq 0 i)), (Hs (seq (i + 1) _)) by (rewrite elem_of_seq; lia). rewrite filter_cons_True, (filter_cons_False _ i) by congruence. cbn. lia.
Qed.

(** * The invariant *)

(** The groups of the runs in flight, of chunks or of the region zone. *)
Definition fly (zone : bool) (fl : list punch_run) : list nat := concat (run_groups <$> filter (fun r => ru_tail r = false /\ ru_zone r = zone) fl).
Definition flying (zone : bool) (s : slots) (i : nat) : bool := bool_decide ((i / PCACHE_GROUP_SLOTS)%nat ∈ fly zone (sl_flight s)).

(** The reservation slots of an outstanding region. *)
Definition covers (s : slots) (r : Z * Z) (i : nat) : bool := (i <? rslots (sl_cf s))%nat && (r.1 <=? rslot_at s i) && (rslot_at s i <? r.1 + r.2).
Definition owners (s : slots) (rg : list (Z * Z)) (i : nat) : nat := length (filter (fun r => covers s r i = true) rg).

(** A slot below the chunk frontier, or not. *)
Definition chunk_pt (inn rw rc fl : bool) (oh : option shdr) : Prop :=
  if inn then exists h, oh = Some h /\ h_page h = None /\ (Nat.b2n rw + Nat.b2n rc + Nat.b2n fl = Nat.b2n (h_free h))%nat
  else rw = false /\ rc = false /\ fl = false.
(** A slot of the region zone, or not. *)
Definition zone_pt (inn zw zc fl : bool) (own : nat) : Prop :=
  (Nat.b2n zw + Nat.b2n zc + Nat.b2n fl + own = if inn then 1 else 0)%nat.

Definition in_zone (s : slots) (nr i : nat) : bool := (nr <=? i)%nat && (i <? rslots (sl_cf s))%nat.

Record geom (s : slots) (nh nr : nat) : Prop := {
  ge_hoff : sl_v s A_hoff = Z.of_nat nh * PCACHE_SLOT;
  ge_rtop : sl_v s A_rtop = Z.of_nat nr * PCACHE_SLOT;
  ge_le : (nh <= nr <= rslots (sl_cf s))%nat;
  ge_base : 0 <= hbase (sl_cf s) /\ hbase (sl_cf s) mod PCACHE_SLOT = 0 /\ hbase (sl_cf s) + hsize (sl_cf s) < 2 ^ 63;
  ge_none : hbase (sl_cf s) = 0 -> rslots (sl_cf s) = 0%nat;
  ge_maps : forall b, b <> HCOMMIT -> map_ok (rslots (sl_cf s)) (sl_maps s b)
}.

Record res_ok (s : slots) (nh nr : nat) (rg : list (Z * Z)) : Prop := {
  re_chunk : forall i, chunk_pt (i <? nh)%nat (bget RWARM i s) (bget RCOLD i s) (flying false s i) (sl_hdr s !! rslot_at s i);
  re_zone : forall i, zone_pt (in_zone s nr i) (bget ZWARM i s) (bget ZCOLD i s) (flying true s i) (owners s rg i);
  re_fly : forall z, NoDup (fly z (sl_flight s))
}.

Record page_ok (s : slots) (p : page) : Prop := {
  po_raw : 0 < pg_raw p /\ pg_raw p + PAGE_BYTES < 2 ^ 64;
  po_base : pg_base p = Z.land (pg_raw p + PCACHE_SLOT - 1) PCACHE_SLOT_MASK;
  po_res : reserved s = true -> apart (pg_raw p) PAGE_BYTES (hbase (sl_cf s)) (hsize (sl_cf s)) = true;
  po_free : NoDup (pg_free p) /\ pg_nfree p = zlen (pg_free p) /\ forall ch, ch ∈ pg_free p -> ch ∈ page_slots (pg_base p);
  po_hdr : forall ch, ch ∈ page_slots (pg_base p) -> exists h, sl_hdr s !! ch = Some h /\ h_page h = Some (pg_base p) /\ (h_free h = true <-> ch ∈ pg_free p)
}.

Record pages_ok (s : slots) (nh : nat) : Prop := {
  pa_each : forall p, p ∈ sl_pages s -> page_ok s p;
  pa_apart : forall i j p q, sl_pages s !! i = Some p -> sl_pages s !! j = Some q -> i <> j -> apart (pg_raw p) PAGE_BYTES (pg_raw q) PAGE_BYTES = true;
  pa_dom : forall ch h, sl_hdr s !! ch = Some h -> (exists i, (i < nh)%nat /\ ch = rslot_at s i) \/ exists p, p ∈ sl_pages s /\ ch ∈ page_slots (pg_base p)
}.

(** The outstanding regions: in the zone, or each in a block of its own. *)
Definition zone_region (s : slots) (r : Z * Z) : Prop :=
  exists j, r.1 = rslot_at s j /\ (j + region_slots r.2 <= rslots (sl_cf s))%nat /\ reserved s = true.
Definition in_block (b r : Z * Z) : bool := (b.1 <=? r.1) && (r.1 + r.2 <=? b.1 + b.2).
Definition lodgers (b : Z * Z) (rg : list (Z * Z)) : nat := length (filter (fun r => in_block b r = true) rg).

Record regions_ok (s : slots) (rg : list (Z * Z)) : Prop := {
  rk_each : forall r, r ∈ rg -> 0 < r.2 /\ (zone_region s r \/ exists b, b ∈ sl_regions s /\ in_block b r = true);
  rk_blocks : forall b, b ∈ sl_regions s -> 0 < b.1 /\ 0 < b.2 /\ (reserved s = true -> apart b.1 b.2 (hbase (sl_cf s)) (hsize (sl_cf s)) = true) /\
    forall p, p ∈ sl_pages s -> apart b.1 b.2 (pg_raw p) PAGE_BYTES = true;
  rk_apart : forall i j b c, sl_regions s !! i = Some b -> sl_regions s !! j = Some c -> i <> j -> apart b.1 b.2 c.1 c.2 = true;
  rk_own : forall b, b ∈ sl_regions s -> (lodgers b rg <= 1)%nat
}.

(** What the meters read, of the slots in each use. *)
Definition on (b : bm) (s : slots) : Z := Z.of_nat (ones (rslots (sl_cf s)) (fun i => bget b i s)).
Definition out_of (zone : bool) (s : slots) : Z := Z.of_nat PCACHE_GROUP_SLOTS * zlen (fly zone (sl_flight s)).
Definition page_free (s : slots) : Z := zsum (pg_nfree <$> sl_pages s).
Definition block_bytes (s : slots) : Z := zsum (snd <$> sl_regions s).

Definition meter_of (s : slots) (nh nr : nat) (x : av) : option Z :=
  let zone := Z.of_nat (rslots (sl_cf s)) - Z.of_nat nr in
  match x with
  | A_nfree_warm => Some (on RWARM s + page_free s)
  | A_nfree_cold => Some (on RCOLD s)
  | A_nzfree_warm => Some (on ZWARM s)
  | A_nzfree_cold => Some (on ZCOLD s)
  | A_npages => Some (zlen (sl_pages s))
  | A_slots_total => Some (Z.of_nat nh + Z.of_nat PCACHE_PAGE_SLOTS * zlen (sl_pages s))
  | A_chunks_used => Some (Z.of_nat nh - on RWARM s - on RCOLD s - out_of false s + Z.of_nat PCACHE_PAGE_SLOTS * zlen (sl_pages s) - page_free s)
  | A_bytes => Some (PCACHE_SLOT * (Z.of_nat nh - on RCOLD s + zone - on ZCOLD s) + PAGE_BYTES * zlen (sl_pages s) + block_bytes s)
  | A_regions_bytes => Some (PCACHE_SLOT * (zone - on ZWARM s - on ZCOLD s - out_of true s) + block_bytes s)
  | A_cold_bytes => Some (PCACHE_SLOT * (on RCOLD s + on ZCOLD s))
  | _ => None
  end.

Definition meters_ok (s : slots) (nh nr : nat) : Prop := forall x n, meter_of s nh nr x = Some n -> sl_v s x = av_wrap x n.

(** The tail's runs in flight lie between the frontiers. *)
Record tail_ok (s : slots) (nh nr : nat) : Prop := {
  ta_next : 0 <= sl_v s A_tail_next < 2 ^ 64 /\ sl_v s A_tail_next mod PCACHE_HPS = 0;
  ta_from : 0 <= sl_v s A_ahead_from < 2 ^ 64 /\ sl_v s A_ahead_from mod PCACHE_HPS = 0;
  ta_hull : sl_v s A_tail_fl_lo < sl_v s A_tail_fl_hi -> Z.of_nat nh * PCACHE_SLOT <= sl_v s A_tail_fl_lo /\ sl_v s A_tail_fl_hi <= Z.of_nat nr * PCACHE_SLOT;
  ta_runs : forall r g, r ∈ sl_flight s -> ru_tail r = true -> g ∈ run_groups r ->
    sl_v s A_tail_fl_lo <= Z.of_nat g * PCACHE_HPS /\ Z.of_nat (S g) * PCACHE_HPS <= sl_v s A_tail_fl_hi
}.

Record slots_ok (x : slots * list (Z * Z)) (nh nr : nat) : Prop := {
  so_geom : geom x.1 nh nr;
  so_res : res_ok x.1 nh nr x.2;
  so_pages : pages_ok x.1 nh;
  so_regions : regions_ok x.1 x.2;
  so_meters : meters_ok x.1 nh nr;
  so_tail : tail_ok x.1 nh nr
}.

Definition slot_used_at (s : slots) (ch : Z) : Prop := exists h, sl_hdr s !! ch = Some h /\ h_free h = false.

(** * Steps that leave the uses alone *)

Definition free_av (x : av) : bool :=
  match x with
  | A_hoff | A_rtop | A_tail_next | A_ahead_from | A_tail_fl_lo | A_tail_fl_hi | A_nfree_warm | A_nfree_cold | A_nzfree_warm | A_nzfree_cold
  | A_npages | A_slots_total | A_chunks_used | A_bytes | A_regions_bytes | A_cold_bytes => false
  | _ => true
  end.

Record alike (s s' : slots) : Prop := {
  al_cf : sl_cf s' = sl_cf s;
  al_v : forall x, free_av x = false -> sl_v s' x = sl_v s x;
  al_maps : forall b, b <> HCOMMIT -> sl_maps s' b = sl_maps s b;
  al_pages : sl_pages s' = sl_pages s;
  al_regions : sl_regions s' = sl_regions s;
  al_hdr : sl_hdr s' = sl_hdr s;
  al_flight : sl_flight s' = sl_flight s
}.

#[global] Instance alike_refl : Reflexive alike.
Proof. by split. Qed.
#[global] Instance alike_trans : Transitive alike.
Proof. intros a b c [A1 A2 A3 A4 A5 A6 A7] [B1 B2 B3 B4 B5 B6 B7]. split; try congruence; [intros x Hx; by rewrite B2, A2|intros x Hx; by rewrite B3, A3]. Qed.

Lemma alike_vset x n s : free_av x = true -> alike s (vset x n s).
Proof. intros Hx. split; try done. intros y Hy. cbn. destruct (decide (y = x)) as [->|]; [congruence|done]. Qed.

Lemma alike_vadd x d s : free_av x = true -> alike s (vadd x d s).
Proof. apply alike_vset. Qed.

Lemma alike_hcommit m s : alike s (set_map HCOMMIT m s).
Proof. split; try done. intros b Hb. cbn. by destruct (decide (b = HCOMMIT)). Qed.

Lemma alike_zfree l s : alike s (set_zfree l s).
Proof. by split. Qed.

Lemma alike_bget s s' b i : alike s s' -> b <> HCOMMIT -> bget b i s' = bget b i s.
Proof. intros [] Hb. unfold bget. by rewrite al_maps0. Qed.

Lemma alike_at s s' i : alike s s' -> rslot_at s' i = rslot_at s i.
Proof. intros []. unfold rslot_at. by rewrite al_cf0. Qed.

Lemma alike_on s s' b : alike s s' -> b <> HCOMMIT -> on b s' = on b s.
Proof. intros H Hb. unfold on. rewrite (al_cf _ _ H). f_equal. apply ones_same. intros j. by apply alike_bget. Qed.

Lemma alike_meter s s' nh nr x : alike s s' -> meter_of s' nh nr x = meter_of s nh nr x.
Proof.
  intros H. destruct x; cbn; try done; unfold out_of, page_free, block_bytes; rewrite ?(alike_on s s') by done; rewrite ?(al_cf _ _ H), ?(al_pages _ _ H), ?(al_regions _ _ H), ?(al_flight _ _ H); done.
Qed.

Lemma alike_reserved s s' : alike s s' -> reserved s' = reserved s.
Proof. intros H. unfold reserved. by rewrite (al_cf _ _ H). Qed.

Lemma alike_owners s s' rg i : alike s s' -> owners s' rg i = owners s rg i.
Proof. intros H. unfold owners, covers. by rewrite (alike_at _ _ i H), (al_cf _ _ H). Qed.

Lemma alike_ok s s' rg nh nr : alike s s' -> slots_ok (s, rg) nh nr -> slots_ok (s', rg) nh nr.
Proof.
  intros H [[G1 G2 G3 G4 G5 G6] [R1 R2 R3] [P1 P2 P3] [K1 K2 K3 K4] M [T1 T2 T3 T4]]. cbn [fst snd] in *. pose proof (alike_reserved _ _ H) as Hr. split; cbn [fst snd].
  - split; rewrite ?(al_cf _ _ H), ?(al_v _ _ H); try done. intros b Hb. rewrite (al_maps _ _ H) by done. by apply G6.
  - split; [intros i|intros i|by rewrite (al_flight _ _ H)].
    + rewrite !(alike_bget s s'), (alike_at s s'), (al_hdr _ _ H) by done. unfold flying. rewrite (al_flight _ _ H). apply R1.
    + rewrite !(alike_bget s s'), (alike_owners s s') by done. unfold flying, in_zone. rewrite (al_flight _ _ H), (al_cf _ _ H). apply R2.
  - split; rewrite ?(al_pages _ _ H), ?(al_hdr _ _ H); [|done|].
    + intros p Hp. destruct (P1 p Hp) as [Q1 Q2 Q3 Q4 Q5]. split; rewrite ?Hr, ?(al_cf _ _ H), ?(al_hdr _ _ H); done.
    + intros ch h Hh. destruct (P3 ch h Hh) as [(i & Hi & ->)|Hp]; [left; exists i; by rewrite (alike_at s s')|by right].
  - split; unfold zone_region; rewrite ?(al_regions _ _ H), ?Hr, ?(al_cf _ _ H), ?(al_pages _ _ H); try done.
    intros r Hin. destruct (K1 r Hin) as [H0 [(j & Hj & Hk)|Hb]]; (split; [done|]); [left; exists j; by rewrite (alike_at s s')|right; done].
  - intros x n Hx. rewrite (alike_meter s s') in Hx by done. rewrite (al_v _ _ H); [by apply M|]. destruct x; done.
  - split; rewrite ?(al_v _ _ H), ?(al_flight _ _ H) by done; done.
Qed.

Lemma alike_used s s' ch : alike s s' -> slot_used_at s' ch <-> slot_used_at s ch.
Proof. intros H. unfold slot_used_at. by rewrite (al_hdr _ _ H). Qed.

Ltac alike_tac := repeat first [ done | apply alike_vset; done | apply alike_vadd; done | apply alike_hcommit | apply alike_zfree
  | match goal with |- alike ?s (if ?b then _ else _) => destruct b end
  | match goal with |- alike ?s (vset _ _ ?t) => transitivity t end
  | match goal with |- alike ?s (vadd _ _ ?t) => transitivity t end
  | match goal with |- alike ?s (bset HCOMMIT _ ?t) => transitivity t end
  | match goal with |- alike ?s (bclr HCOMMIT _ ?t) => transitivity t end ].

Lemma group_secure_alike e g s : alike s (group_secure e g s).1.
Proof. unfold group_secure. destruct (negb _); [done|]. destruct (e_secure e g); cbn [fst]; alike_tac. Qed.

Lemma group_commit_alike e g s : alike s (group_commit e g s).1.
Proof.
  unfold group_commit. destruct (bget HCOMMIT g s); [done|]. pose proof (group_secure_alike e g s) as H. destruct (group_secure e g s) as [s1 ok]; cbn [fst] in H. destruct (negb ok); [done|]. destruct (_ <? 0); [done|]. cbn [fst]. etransitivity; [exact H|]. alike_tac.
Qed.

Lemma carve_commit_alike e g s : alike s (carve_commit e g s).1.
Proof. unfold carve_commit. pose proof (group_commit_alike e g s) as H. destruct (group_commit e g s) as [s1 ok]; cbn [fst] in *. etransitivity; [exact H|]. alike_tac. Qed.

Lemma groups_loop_alike e n : forall g s, alike s (groups_loop e n g s).1.
Proof.
  induction n as [|n IH]; intros g s; [done|]. cbn [groups_loop]. pose proof (group_commit_alike e g s) as H. destruct (group_commit e g s) as [s1 ok]; cbn [fst] in *. destruct (negb ok); [done|].
  etransitivity; [exact H|]. etransitivity; [|apply IH]. alike_tac.
Qed.

Lemma groups_commit_alike e lo hi s : alike s (groups_commit e lo hi s).1.
Proof. apply groups_loop_alike. Qed.

(** * Addresses *)

Lemma res_slot s nh nr i : geom s nh nr -> (i < rslots (sl_cf s))%nat ->
  reserved s = true /\ 0 < rslot_at s i /\ rslot_at s i mod PCACHE_SLOT = 0 /\ hbase (sl_cf s) <= rslot_at s i /\ rslot_at s i + PCACHE_SLOT <= hbase (sl_cf s) + hsize (sl_cf s).
Proof.
  intros G Hi. pose proof (ge_base _ _ _ G) as (B1 & B2 & B3). pose proof (ge_none _ _ _ G) as Bn. assert (hbase (sl_cf s) <> 0) as Hn by (intros Hz; specialize (Bn Hz); lia). unfold rslot_at, hsize, reserved. rewrite slot_val in *. split_and!; [|lia| |lia|lia].
  - destruct (Z.eqb_spec (hbase (sl_cf s)) 0); [done|done].
  - rewrite Z.mod_add by lia. done.
Qed.

Lemma rslot_inj s i j : rslot_at s i = rslot_at s j -> i = j.
Proof. unfold rslot_at. rewrite slot_val. lia. Qed.

Lemma rslot_idx_at s i : rslot_idx s (rslot_at s i) = i.
Proof. unfold rslot_idx, rslot_at. replace (hbase (sl_cf s) + Z.of_nat i * PCACHE_SLOT - hbase (sl_cf s)) with (Z.of_nat i * PCACHE_SLOT) by lia. rewrite Z.shiftr_div_pow2 by lia. unfold PCACHE_SLOT. change (Z.shiftl 1 18) with (2 ^ 18). rewrite Z.div_mul by lia. lia. Qed.

Lemma page_base_range p : 0 < pg_raw p -> pg_base p = Z.land (pg_raw p + PCACHE_SLOT - 1) PCACHE_SLOT_MASK -> pg_raw p <= pg_base p < pg_raw p + PCACHE_SLOT /\ pg_base p mod PCACHE_SLOT = 0.
Proof.
  intros Hr ->. pose proof (cell_chunk_mod (pg_raw p + PCACHE_SLOT - 1) ltac:(rewrite slot_val; lia)) as Hc. unfold cell_chunk in Hc. rewrite Hc. rewrite slot_val in *. pose proof (Z.mod_pos_bound (pg_raw p + 262144 - 1) 262144 ltac:(lia)). split; [lia|].
  rewrite Zminus_mod, Z.mod_mod, Z.sub_diag by lia. done.
Qed.

Lemma elem_page_slots base ch : ch ∈ page_slots base <-> exists j, (j < PCACHE_PAGE_SLOTS)%nat /\ ch = base + Z.of_nat j * PCACHE_SLOT.
Proof. unfold page_slots, page_slot. rewrite list_elem_of_fmap. split; intros (j & H1 & H2); exists j; [rewrite elem_of_seq in H2; split; [lia|done]|rewrite elem_of_seq; split; [done|lia]]. Qed.

Lemma page_slot_in s p ch : page_ok s p -> ch ∈ page_slots (pg_base p) -> 0 < ch /\ ch mod PCACHE_SLOT = 0 /\ pg_raw p <= ch /\ ch + PCACHE_SLOT <= pg_raw p + PAGE_BYTES.
Proof.
  intros P (j & Hj & ->)%elem_page_slots. destruct (page_base_range p (proj1 (po_raw _ _ P)) (po_base _ _ P)) as [H1 H2]. pose proof (po_raw _ _ P) as [H3 _]. unfold PAGE_BYTES, PCACHE_PAGE_SLOTS in *. rewrite slot_val in *. rewrite Z.mod_add by lia. split_and!; [lia|done|lia|lia].
Qed.

Lemma apart_spec a n b m : apart a n b m = true <-> a + n <= b \/ b + m <= a.
Proof. unfold apart. rewrite orb_true_iff, !Z.leb_le. done. Qed.

Lemma res_not_page s nh nr i p : geom s nh nr -> pages_ok s nh -> (i < rslots (sl_cf s))%nat -> p ∈ sl_pages s -> rslot_at s i ∉ page_slots (pg_base p).
Proof.
  intros G P Hi Hp Hin. destruct (res_slot s nh nr i G Hi) as (Hr & _ & _ & H1 & H2). destruct (page_slot_in s p _ (pa_each _ _ P p Hp) Hin) as (_ & _ & H3 & H4).
  pose proof (po_res _ _ (pa_each _ _ P p Hp) Hr) as Ha. apply apart_spec in Ha. rewrite slot_val in *. lia.
Qed.

Lemma page_slots_apart s nh i j p q ch : pages_ok s nh -> sl_pages s !! i = Some p -> sl_pages s !! j = Some q -> ch ∈ page_slots (pg_base p) -> ch ∈ page_slots (pg_base q) -> i = j.
Proof.
  intros P Hi Hj H1 H2. destruct (decide (i = j)) as [|Hn]; [done|]. pose proof (pa_apart _ _ P i j p q Hi Hj Hn) as Ha. apply apart_spec in Ha.
  destruct (page_slot_in s p ch (pa_each _ _ P p (list_elem_of_lookup_2 _ _ _ Hi)) H1) as (_ & _ & A1 & A2). destruct (page_slot_in s q ch (pa_each _ _ P q (list_elem_of_lookup_2 _ _ _ Hj)) H2) as (_ & _ & B1 & B2). rewrite slot_val in *. lia.
Qed.

(** * Bits and meters *)

Lemma bget_bset s nh nr b i b' j : geom s nh nr -> b <> HCOMMIT -> (i < rslots (sl_cf s))%nat -> bget b' j (bset b i s) = if decide (b' = b /\ j = i) then true else bget b' j s.
Proof.
  intros G Hb Hi. unfold bget, bset, set_map. cbn [sl_maps]. destruct (decide (b' = b)) as [->|Hn].
  - rewrite (bit_get_set (rslots (sl_cf s))) by (try done; by apply (ge_maps _ _ _ G)). destruct (decide (j = i)) as [->|]; [by rewrite decide_True|]. rewrite decide_False by tauto. done.
  - by rewrite decide_False by tauto.
Qed.

Lemma bget_bclr s nh nr b i b' j : geom s nh nr -> b <> HCOMMIT -> (i < rslots (sl_cf s))%nat -> bget b' j (bclr b i s) = if decide (b' = b /\ j = i) then false else bget b' j s.
Proof.
  intros G Hb Hi. unfold bget, bclr, set_map. cbn [sl_maps]. destruct (decide (b' = b)) as [->|Hn].
  - rewrite (bit_get_clr (rslots (sl_cf s))) by (try done; by apply (ge_maps _ _ _ G)). destruct (decide (j = i)) as [->|]; [by rewrite decide_True|]. rewrite decide_False by tauto. done.
  - by rewrite decide_False by tauto.
Qed.

Lemma geom_bset s nh nr b i : geom s nh nr -> (i < rslots (sl_cf s))%nat -> b <> HCOMMIT -> geom (bset b i s) nh nr.
Proof. intros [G1 G2 G3 G4 G5 G6] Hi Hb. split; try done. intros b' Hb'. unfold bset, bclr, set_map. cbn [sl_maps sl_cf]. destruct (decide (b' = b)); [apply map_ok_set; [by apply G6|done]|by apply G6]. Qed.

Lemma geom_bclr s nh nr b i : geom s nh nr -> (i < rslots (sl_cf s))%nat -> b <> HCOMMIT -> geom (bclr b i s) nh nr.
Proof. intros [G1 G2 G3 G4 G5 G6] Hi Hb. split; try done. intros b' Hb'. unfold bset, bclr, set_map. cbn [sl_maps sl_cf]. destruct (decide (b' = b)); [apply map_ok_clr; [by apply G6|done]|by apply G6]. Qed.

Definition d1 (b b' : bm) : Z := if decide (b = b') then 1 else 0.

Lemma on_bset s nh nr b i b' : geom s nh nr -> b <> HCOMMIT -> (i < rslots (sl_cf s))%nat -> bget b i s = false -> on b' (bset b i s) = on b' s + d1 b' b.
Proof.
  intros G Hb Hi H0. unfold on, d1. change (sl_cf (bset b i s)) with (sl_cf s). destruct (decide (b' = b)) as [->|Hn].
  - rewrite (ones_put _ (fun j => bget b j s) _ i); try done; [lia| |]; intros; rewrite (bget_bset s nh nr) by done; [by rewrite decide_True|]. rewrite decide_False by tauto. done.
  - rewrite (ones_same _ (fun j => bget b' j s)); [lia|]. intros j. rewrite (bget_bset s nh nr) by done. by rewrite decide_False by tauto.
Qed.

Lemma on_bclr s nh nr b i b' : geom s nh nr -> b <> HCOMMIT -> (i < rslots (sl_cf s))%nat -> bget b i s = true -> on b' (bclr b i s) = on b' s - d1 b' b.
Proof.
  intros G Hb Hi H0. unfold on, d1. change (sl_cf (bclr b i s)) with (sl_cf s). destruct (decide (b' = b)) as [->|Hn].
  - rewrite (ones_put _ (fun j => bget b j (bclr b i s)) (fun j => bget b j s) i); try done; [lia| |]; intros; rewrite (bget_bclr s nh nr) by done; [by rewrite decide_True|]. rewrite decide_False by tauto. done.
  - rewrite (ones_same _ (fun j => bget b' j s)); [lia|]. intros j. rewrite (bget_bclr s nh nr) by done. by rewrite decide_False by tauto.
Qed.

Lemma wrap_add x n d : av_wrap x (av_wrap x n + d) = av_wrap x (n + d).
Proof. destruct x; cbn; unfold u32, u64; by rewrite Zplus_mod_idemp_l. Qed.

Lemma wrap_idem x n : av_wrap x (av_wrap x n) = av_wrap x n.
Proof. pose proof (wrap_add x n 0) as H. by rewrite !Z.add_0_r in H. Qed.

(** The meters follow a step that moves each by what its sum moves. *)
Lemma meters_tracked s s' nh nr nh' nr' (d : av -> Z) : meters_ok s nh nr ->
  (forall x, free_av x = false -> sl_v s' x = sl_v s x /\ d x = 0 \/ sl_v s' x = av_wrap x (sl_v s x + d x)) ->
  (forall x n n', meter_of s nh nr x = Some n -> meter_of s' nh' nr' x = Some n' -> n' = n + d x) -> meters_ok s' nh' nr'.
Proof.
  intros M Hv Hm x n' Hx. assert (exists n, meter_of s nh nr x = Some n) as [n Hn] by (destruct x; cbn in Hx; try discriminate; by eexists). rewrite (Hm x n n' Hn Hx). pose proof (M x n Hn) as Hs. destruct (Hv x ltac:(by destruct x)) as [[-> ->]| ->]; rewrite Hs; [by rewrite Z.add_0_r|by rewrite wrap_add].
Qed.

Lemma meters_step s s' nh nr nh' nr' (d : av -> Z) : meters_ok s nh nr -> (forall x, sl_v s' x = sl_v s x /\ d x = 0 \/ sl_v s' x = av_wrap x (sl_v s x + d x)) ->
  (forall x n n', meter_of s nh nr x = Some n -> meter_of s' nh' nr' x = Some n' -> n' = n + d x) -> meters_ok s' nh' nr'.
Proof. intros M Hv. by apply meters_tracked. Qed.

(** * Moves of one slot *)

Lemma flying_same z s s' i : sl_flight s' = sl_flight s -> flying z s' i = flying z s i.
Proof. unfold flying. by intros ->. Qed.

Lemma res_point s s' nh nr nh' nr' rg rg' i : res_ok s nh nr rg -> sl_cf s' = sl_cf s -> sl_flight s' = sl_flight s ->
  (forall j, j <> i -> (forall b, b <> HCOMMIT -> bget b j s' = bget b j s) /\ sl_hdr s' !! rslot_at s j = sl_hdr s !! rslot_at s j /\ owners s rg' j = owners s rg j /\
    (j <? nh')%nat = (j <? nh)%nat /\ in_zone s nr' j = in_zone s nr j) ->
  chunk_pt (i <? nh')%nat (bget RWARM i s') (bget RCOLD i s') (flying false s i) (sl_hdr s' !! rslot_at s i) ->
  zone_pt (in_zone s nr' i) (bget ZWARM i s') (bget ZCOLD i s') (flying true s i) (owners s rg' i) -> res_ok s' nh' nr' rg'.
Proof.
  intros [R1 R2 R3] Hc Hf Hj Hi Hz. assert (forall j, rslot_at s' j = rslot_at s j) as Ha by (intros j; unfold rslot_at; by rewrite Hc). split; [intros j|intros j|by rewrite Hf].
  - rewrite Ha, (flying_same false s s' j Hf). destruct (decide (j = i)) as [->|Hn]; [done|]. destruct (Hj j Hn) as (B & -> & _ & -> & _). rewrite !B by done. apply R1.
  - unfold in_zone in *. rewrite Hc, (flying_same true s s' j Hf). assert (owners s' rg' j = owners s rg' j) as -> by (unfold owners, covers; by rewrite Ha, Hc). destruct (decide (j = i)) as [->|Hn]; [done|]. destruct (Hj j Hn) as (B & _ & -> & _ & ->). rewrite !B by done. apply R2.
Qed.

Lemma pages_hdr s s' nh nh' : pages_ok s nh -> sl_cf s' = sl_cf s -> sl_pages s' = sl_pages s -> (nh <= nh')%nat ->
  (forall p ch, p ∈ sl_pages s -> ch ∈ page_slots (pg_base p) -> sl_hdr s' !! ch = sl_hdr s !! ch) ->
  (forall ch h, sl_hdr s' !! ch = Some h -> is_Some (sl_hdr s !! ch) \/ exists i, (i < nh')%nat /\ ch = rslot_at s i) -> pages_ok s' nh'.
Proof.
  intros [P1 P2 P3] Hc Hp Hn Hh Hd. split; rewrite ?Hp; [|done|].
  - intros p Hin. destruct (P1 p Hin) as [Q1 Q2 Q3 Q4 Q5]. split; unfold reserved in *; rewrite ?Hc; try done. intros ch Hch. rewrite (Hh p) by done. by apply Q5.
  - assert (forall i, rslot_at s' i = rslot_at s i) as Ha by (intros i; unfold rslot_at; by rewrite Hc). intros ch h H. destruct (Hd ch h H) as [[h' H']|(i & Hi & ->)]; [|left; exists i; by rewrite Ha]. destruct (P3 ch h' H') as [(i & Hi & ->)|?]; [left; exists i; rewrite Ha; split; [lia|done]|by right].
Qed.

Lemma pages_put_res s s' nh nh' nr i h : geom s nh nr -> pages_ok s nh -> sl_cf s' = sl_cf s -> sl_pages s' = sl_pages s -> (nh <= nh')%nat -> (i < nh')%nat -> (nh' <= rslots (sl_cf s))%nat ->
  sl_hdr s' = <[rslot_at s i := h]> (sl_hdr s) -> pages_ok s' nh'.
Proof.
  intros G P Hc Hp Hn Hi Hle Hh. apply (pages_hdr s s' nh nh'); try done; rewrite Hh.
  - intros p ch Hin Hch. rewrite lookup_insert_ne; [done|]. intros <-. by apply (res_not_page s nh nr i p G P ltac:(lia) Hin).
  - intros ch h' H. destruct (decide (ch = rslot_at s i)) as [->|Hne]; [right; by exists i|]. rewrite lookup_insert_ne in H by done. left. by exists h'.
Qed.

Lemma regions_same s s' rg : regions_ok s rg -> sl_cf s' = sl_cf s -> sl_pages s' = sl_pages s -> sl_regions s' = sl_regions s -> regions_ok s' rg.
Proof.
  intros [K1 K2 K3 K4] Hc Hp Hr. assert (forall i, rslot_at s' i = rslot_at s i) as Ha by (intros i; unfold rslot_at; by rewrite Hc). split; unfold zone_region, reserved in *; rewrite ?Hc, ?Hp, ?Hr; try done.
  intros r Hin. destruct (K1 r Hin) as [H0 [(j & Hj & Hk)|Hb]]; (split; [done|]); [left; exists j; by rewrite Ha|by right].
Qed.

Lemma tail_same s s' nh nr nh' nr' : tail_ok s nh nr -> sl_flight s' = sl_flight s -> (forall x, x ∈ [A_tail_next; A_ahead_from; A_tail_fl_lo; A_tail_fl_hi] -> sl_v s' x = sl_v s x) ->
  (sl_v s A_tail_fl_lo < sl_v s A_tail_fl_hi -> Z.of_nat nh' * PCACHE_SLOT <= sl_v s A_tail_fl_lo /\ sl_v s A_tail_fl_hi <= Z.of_nat nr' * PCACHE_SLOT) -> tail_ok s' nh' nr'.
Proof. intros [T1 T2 T3 T4] Hf Hv Hh. split; rewrite ?Hf, ?(Hv A_tail_next), ?(Hv A_ahead_from), ?(Hv A_tail_fl_lo), ?(Hv A_tail_fl_hi) by set_solver; done. Qed.

(** A resident free slot. *)
Lemma warm_is s nh nr rg i : geom s nh nr -> res_ok s nh nr rg -> bget RWARM i s = true ->
  (i < nh)%nat /\ (i < rslots (sl_cf s))%nat /\ bget RCOLD i s = false /\ flying false s i = false /\ exists h, sl_hdr s !! rslot_at s i = Some h /\ h_page h = None /\ h_free h = true.
Proof.
  intros G R Hi. pose proof (re_chunk _ _ _ _ R i) as C. unfold chunk_pt in C. destruct (Nat.ltb_spec i nh) as [Hlt|]; [|destruct C as (C & _); congruence]. destruct C as (h & Hh & Hp & Hs). rewrite Hi in Hs. pose proof (ge_le _ _ _ G).
  destruct (bget RCOLD i s), (flying false s i), (h_free h) eqn:Hf; cbn in Hs; try lia. split_and!; try done; [lia|]. by exists h.
Qed.

Lemma geom_same s s' nh nr : geom s nh nr -> sl_cf s' = sl_cf s -> sl_v s' A_hoff = sl_v s A_hoff -> sl_v s' A_rtop = sl_v s A_rtop -> (forall b, sl_maps s' b = sl_maps s b) -> geom s' nh nr.
Proof. intros [G1 G2 G3 G4 G5 G6] Hc Hh Hr Hm. split; rewrite ?Hc, ?Hh, ?Hr; try done. intros b Hb. rewrite Hm. by apply G6. Qed.

(** A step that changes the use of one reservation slot. *)
Record moves (s s' : slots) (nh nr nh' nr' : nat) (rg rg' : list (Z * Z)) (i : nat) (d : av -> Z) : Prop := {
  mv_cf : sl_cf s' = sl_cf s;
  mv_flight : sl_flight s' = sl_flight s;
  mv_pages : sl_pages s' = sl_pages s;
  mv_blocks : sl_regions s' = sl_regions s;
  mv_geom : geom s' nh' nr';
  mv_nh : (nh <= nh')%nat;
  mv_bits : forall b j, j <> i -> b <> HCOMMIT -> bget b j s' = bget b j s;
  mv_rest : forall j, j <> i -> owners s rg' j = owners s rg j /\ (j <? nh')%nat = (j <? nh)%nat /\ in_zone s nr' j = in_zone s nr j;
  mv_hdr : sl_hdr s' = sl_hdr s \/ exists h, (i < nh')%nat /\ sl_hdr s' = <[rslot_at s i := h]> (sl_hdr s);
  mv_chunk : chunk_pt (i <? nh')%nat (bget RWARM i s') (bget RCOLD i s') (flying false s i) (sl_hdr s' !! rslot_at s i);
  mv_zone : zone_pt (in_zone s nr' i) (bget ZWARM i s') (bget ZCOLD i s') (flying true s i) (owners s rg' i);
  mv_regions : regions_ok s' rg';
  mv_v : forall x, sl_v s' x = sl_v s x /\ d x = 0 \/ sl_v s' x = av_wrap x (sl_v s x + d x);
  mv_meter : forall x n n', meter_of s nh nr x = Some n -> meter_of s' nh' nr' x = Some n' -> n' = n + d x;
  mv_tail : forall x, x ∈ [A_tail_next; A_ahead_from; A_tail_fl_lo; A_tail_fl_hi] -> sl_v s' x = sl_v s x;
  mv_hull : sl_v s A_tail_fl_lo < sl_v s A_tail_fl_hi -> Z.of_nat nh' * PCACHE_SLOT <= sl_v s A_tail_fl_lo /\ sl_v s A_tail_fl_hi <= Z.of_nat nr' * PCACHE_SLOT
}.

Lemma moves_ok s s' nh nr nh' nr' rg rg' i d : slots_ok (s, rg) nh nr -> moves s s' nh nr nh' nr' rg rg' i d -> slots_ok (s', rg') nh' nr'.
Proof.
  intros [G R P K M T] [V1 V2 V3 V4 V5 V6 V7 V8 V9 V10 V11 V12 V13 V14 V15 V16]. cbn [fst snd] in *. pose proof (ge_le _ _ _ V5) as Hle. rewrite V1 in Hle. split; cbn [fst snd]; try done.
  - eapply (res_point s s' nh nr nh' nr' rg rg' i R); try done. intros j Hj. destruct (V8 j Hj) as (W1 & W2 & W3). split_and!; try done; [intros b Hb; by apply V7|]. destruct V9 as [-> |(h & Hi & ->)]; [done|]. rewrite lookup_insert_ne; [done|]. intros Hq. by apply rslot_inj in Hq.
  - destruct V9 as [V9|(h & Hi & V9)]; [|apply (pages_put_res s s' nh nh' nr i h G P); try done; lia]. apply (pages_hdr s s' nh nh' P); try done; rewrite V9; [done|]. intros ch h Hh. left. by exists h.
  - by apply (meters_step s s' nh nr nh' nr' d M).
  - by apply (tail_same s s' nh nr nh' nr' T).
Qed.

(** The meters of a step, from what it does to the maps. *)
Lemma move_meter s s' nh nr nh' nr' d (db : bm -> Z) : sl_cf s' = sl_cf s -> sl_flight s' = sl_flight s -> sl_pages s' = sl_pages s -> sl_regions s' = sl_regions s ->
  (forall b, b <> HCOMMIT -> on b s' = on b s + db b) ->
  (forall x, d x = match x with
    | A_nfree_warm => db RWARM | A_nfree_cold => db RCOLD | A_nzfree_warm => db ZWARM | A_nzfree_cold => db ZCOLD
    | A_slots_total => Z.of_nat nh' - Z.of_nat nh | A_chunks_used => Z.of_nat nh' - Z.of_nat nh - db RWARM - db RCOLD
    | A_bytes => PCACHE_SLOT * (Z.of_nat nh' - Z.of_nat nh - db RCOLD + (Z.of_nat nr - Z.of_nat nr') - db ZCOLD)
    | A_regions_bytes => PCACHE_SLOT * (Z.of_nat nr - Z.of_nat nr' - db ZWARM - db ZCOLD) | A_cold_bytes => PCACHE_SLOT * (db RCOLD + db ZCOLD)
    | _ => d x end) -> d A_npages = 0 ->
  forall x n n', meter_of s nh nr x = Some n -> meter_of s' nh' nr' x = Some n' -> n' = n + d x.
Proof.
  intros Hc Hf Hp Hr Hon Hd Hnp x n n' Hx Hx'. rewrite Hd. destruct x; cbn [meter_of] in *; try discriminate; unfold out_of, page_free, block_bytes in *; rewrite ?Hc, ?Hf, ?Hp, ?Hr, ?Hon in Hx' by done; injection Hx as <-; injection Hx' as <-; lia.
Qed.

Ltac tail_tac := let x := fresh in let Hx := fresh in intros x Hx; set_unfold in Hx; destruct_or! Hx; subst x; done.
Ltac v_tac := let x := fresh in intros x; destruct x; (left; done) || (right; done).

Definition use (s : slots) (i : nat) : slots :=
  slot_used (rslot_at s i) (vadd A_chunks_used 1 (vadd A_nfree_warm (-1) (bclr RWARM i s))).

Lemma use_ok s rg nh nr i : slots_ok (s, rg) nh nr -> bget RWARM i s = true -> slots_ok (use s i, rg) nh nr /\ ~ slot_used_at s (rslot_at s i) /\ forall x, slot_used_at (use s i) x <-> x = rslot_at s i \/ slot_used_at s x.
Proof.
  intros Hok Hi. pose proof Hok as [G R P K M T]. cbn [fst snd] in *. destruct (warm_is s nh nr rg i G R Hi) as (Hlt & HN & Hc & Hfl & h & Hh & Hpg & Hfr). pose (h' := mk_shdr false (h_free_at h) (h_cold h) (h_page h)).
  assert (use s i = put_hdr (rslot_at s i) h' (vadd A_chunks_used 1 (vadd A_nfree_warm (-1) (bclr RWARM i s)))) as Eu by (unfold use, slot_used; cbn [sl_hdr vadd vset bclr set_map]; by rewrite Hh).
  assert (forall b j, bget b j (use s i) = if decide (b = RWARM /\ j = i) then false else bget b j s) as Hb by (intros b j; rewrite Eu; exact (bget_bclr s nh nr RWARM i b j G ltac:(done) HN)).
  assert (sl_hdr (use s i) = <[rslot_at s i := h']> (sl_hdr s)) as Hhd by (by rewrite Eu).
  split; [|split].
  - apply (moves_ok s _ nh nr nh nr rg rg i (fun x => match x with A_chunks_used => 1 | A_nfree_warm => -1 | _ => 0 end) Hok). split; try done; try (by rewrite Eu).
    + rewrite Eu. by apply (geom_same (bclr RWARM i s)); [apply geom_bclr|..].
    + intros b j Hj _. rewrite Hb. by rewrite decide_False by tauto.
    + right. by exists h'.
    + rewrite !Hb, Hhd, lookup_insert_eq, decide_True, decide_False by (done || (intros [? ?]; done)). rewrite (proj2 (Nat.ltb_lt _ _) Hlt), Hc, Hfl. by exists h'.
    + rewrite !Hb, !decide_False by (intros [? ?]; done). apply (re_zone _ _ _ _ R).
    + by apply (regions_same s); rewrite ?Eu.
    + rewrite Eu. v_tac.
    + rewrite Eu. apply (move_meter s _ nh nr nh nr _ (fun b => - d1 b RWARM)); try done; [|intros []; unfold d1; rewrite ?Z.sub_diag; reflexivity]. intros b _. pose proof (on_bclr s nh nr RWARM i b G ltac:(done) HN Hi) as Hon. unfold Z.sub in Hon. exact Hon.
    + rewrite Eu. tail_tac.
    + apply (ta_hull _ _ _ T).
  - intros (h0 & H0 & Hf0). congruence.
  - intros x. unfold slot_used_at. rewrite Hhd. destruct (decide (x = rslot_at s i)) as [->|Hne]; [rewrite lookup_insert_eq; split; [by left|intros _; by exists h']|]. rewrite lookup_insert_ne by done. naive_solver.
Qed.

(** A slot in use is a reservation slot below the frontier, or a page's. *)
Lemma used_res s nh nr rg i h : geom s nh nr -> res_ok s nh nr rg -> sl_hdr s !! rslot_at s i = Some h -> h_free h = false -> (i < nh)%nat ->
  h_page h = None /\ (i < rslots (sl_cf s))%nat /\ bget RWARM i s = false /\ bget RCOLD i s = false /\ flying false s i = false.
Proof.
  intros G R Hh Hf Hlt. pose proof (re_chunk _ _ _ _ R i) as C. unfold chunk_pt in C. rewrite (proj2 (Nat.ltb_lt _ _) Hlt) in C. destruct C as (h' & Hh' & Hp & Hs). assert (h' = h) as -> by congruence. rewrite Hf in Hs. pose proof (ge_le _ _ _ G).
  destruct (bget RWARM i s), (bget RCOLD i s), (flying false s i); cbn in Hs; try lia. split_and!; try done. lia.
Qed.

Lemma give_res_ok s rg nh nr i h : slots_ok (s, rg) nh nr -> sl_hdr s !! rslot_at s i = Some h -> h_free h = false -> (i < nh)%nat -> slots_ok (slot_give s (rslot_at s i), rg) nh nr.
Proof.
  intros Hok Hh Hf Hlt. pose proof Hok as [G R P K M T]. cbn [fst snd] in *. destruct (used_res s nh nr rg i h G R Hh Hf Hlt) as (Hpg & HN & Hw & Hc & Hfl). pose (h' := mk_shdr true (sl_v s A_tick) (h_cold h) (h_page h)).
  set (s' := slot_give s (rslot_at s i)). assert (s' = vadd A_chunks_used (-1) (vadd A_nfree_warm 1 (bset RWARM i (put_hdr (rslot_at s i) h' s)))) as Eu.
  { unfold s', slot_give. rewrite Hh, Hpg. change (rslot_idx (put_hdr _ _ s)) with (rslot_idx s). rewrite rslot_idx_at. unfold h'. by rewrite Hpg. }
  assert (geom (put_hdr (rslot_at s i) h' s) nh nr) as G' by (by apply (geom_same s)).
  assert (forall b j, bget b j s' = if decide (b = RWARM /\ j = i) then true else bget b j s) as Hb by (intros b j; rewrite Eu; exact (bget_bset (put_hdr (rslot_at s i) h' s) nh nr RWARM i b j G' ltac:(done) HN)).
  assert (sl_hdr s' = <[rslot_at s i := h']> (sl_hdr s)) as Hhd by (by rewrite Eu).
  apply (moves_ok s _ nh nr nh nr rg rg i (fun x => match x with A_chunks_used => -1 | A_nfree_warm => 1 | _ => 0 end) Hok). split; try done; try (by rewrite Eu).
  - rewrite Eu. by apply (geom_same (bset RWARM i (put_hdr (rslot_at s i) h' s))); [apply geom_bset|..].
  - intros b j Hj _. rewrite Hb. by rewrite decide_False by tauto.
  - right. by exists h'.
  - rewrite !Hb, Hhd, lookup_insert_eq, decide_True, decide_False by (done || (intros [? ?]; done)). rewrite (proj2 (Nat.ltb_lt _ _) Hlt), Hc, Hfl. by exists h'.
  - rewrite !Hb, !decide_False by (intros [? ?]; done). apply (re_zone _ _ _ _ R).
  - by apply (regions_same s); rewrite ?Eu.
  - rewrite Eu. v_tac.
  - rewrite Eu. apply (move_meter s _ nh nr nh nr _ (fun b => d1 b RWARM)); try done; [|intros []; unfold d1; rewrite ?Z.sub_diag; reflexivity]. intros b _. exact (on_bset (put_hdr (rslot_at s i) h' s) nh nr RWARM i b G' ltac:(done) HN Hw).
  - rewrite Eu. tail_tac.
  - apply (ta_hull _ _ _ T).
Qed.

Lemma b2n_cold a b c : (Nat.b2n a + 1 + Nat.b2n b = Nat.b2n c)%nat -> a = false /\ b = false /\ c = true.
Proof. destruct a, b, c; cbn; intros H; try done; lia. Qed.

Lemma warm_slot_ok s rg nh nr i : slots_ok (s, rg) nh nr -> slots_ok (warm_slot s i, rg) nh nr /\ forall x, slot_used_at (warm_slot s i) x <-> slot_used_at s x.
Proof.
  intros Hok. unfold warm_slot. destruct (bget RCOLD i s) eqn:Hi; cbn [negb]; [|done]. pose proof Hok as [G R P K M T]. cbn [fst snd] in *.
  pose proof (re_chunk _ _ _ _ R i) as C. unfold chunk_pt in C. destruct (Nat.ltb_spec i nh) as [Hlt|]; [|destruct C as (_ & C & _); congruence]. destruct C as (h & Hh & Hp & Hs). rewrite Hi in Hs. apply b2n_cold in Hs as (Hw & Hfl & Hfr). pose proof (ge_le _ _ _ G) as Hle. assert (i < rslots (sl_cf s))%nat as HN by lia.
  match goal with |- slots_ok (?x, _) _ _ /\ _ => set (s' := x) end. set (s1 := bclr RCOLD i s). assert (geom s1 nh nr) as G1 by (by apply geom_bclr).
  assert (bget RWARM i s1 = false) as Hw1 by (unfold s1; rewrite (bget_bclr s nh nr) by done; rewrite decide_False by (intros [? ?]; done); done).
  assert (forall b j, bget b j s' = if decide (b = RWARM /\ j = i) then true else if decide (b = RCOLD /\ j = i) then false else bget b j s) as Hb.
  { intros b j. change (bget b j s') with (bget b j (bset RWARM i s1)). rewrite (bget_bset s1 nh nr) by done. unfold s1. by rewrite (bget_bclr s nh nr) by done. }
  assert (sl_hdr s' = <[rslot_at s i := mk_shdr true (sl_v s A_tick) false None]> (sl_hdr s)) as Hhd by done. split.
  - apply (moves_ok s _ nh nr nh nr rg rg i (fun x => match x with A_nfree_warm => 1 | A_nfree_cold => -1 | A_bytes => PCACHE_SLOT | A_cold_bytes => - PCACHE_SLOT | _ => 0 end) Hok). split; try done.
    + by apply (geom_same (bset RWARM i (bclr RCOLD i s))); [apply geom_bset; [apply geom_bclr|..]|..].
    + intros b j Hj _. rewrite Hb. by rewrite !decide_False by tauto.
    + right. by eexists.
    + rewrite !Hb, Hhd, lookup_insert_eq. rewrite (decide_True (P := RWARM = RWARM /\ i = i)), (decide_False (P := RCOLD = RWARM /\ i = i)), (decide_True (P := RCOLD = RCOLD /\ i = i)) by (done || (intros [? ?]; done)). rewrite (proj2 (Nat.ltb_lt _ _) Hlt), Hfl. by eexists.
    + rewrite !Hb, !decide_False by (intros [? ?]; done). apply (re_zone _ _ _ _ R).
    + by apply (regions_same s).
    + v_tac.
    + apply (move_meter s _ nh nr nh nr _ (fun b => d1 b RWARM - d1 b RCOLD)); try done; [|intros []; unfold d1; rewrite ?Z.sub_diag; reflexivity]. intros b Hbb. change (on b s') with (on b (bset RWARM i s1)). rewrite (on_bset s1 nh nr) by done. unfold s1. rewrite (on_bclr s nh nr) by done. lia.
    + tail_tac.
    + apply (ta_hull _ _ _ T).
  - intros x. unfold slot_used_at. rewrite Hhd. destruct (decide (x = rslot_at s i)) as [->|Hne]; [rewrite lookup_insert_eq; naive_solver|]. by rewrite lookup_insert_ne by done.
Qed.

(** * Taking a slot *)

Definition finish (ch : Z) (s : slots) : slots := slot_used ch (vset A_ceiling_since 0 (vset A_carve_tick (sl_v s A_tick) (vadd A_chunks_used 1 s))).

(** What a stage of [slot_take] leaves, with the end of the function when it has found a slot. *)
Definition took (s : slots) (rg : list (Z * Z)) (nr : nat) (r : slots * option Z) : Prop :=
  match r.2 with
  | None => exists nh, slots_ok (r.1, rg) nh nr /\ forall x, slot_used_at r.1 x <-> slot_used_at s x
  | Some ch => (exists nh, slots_ok (finish ch r.1, rg) nh nr) /\ 0 < ch /\ ch mod PCACHE_SLOT = 0 /\ ~ slot_used_at s ch /\ forall x, slot_used_at (finish ch r.1) x <-> x = ch \/ slot_used_at s x
  end.

Lemma took_after s s1 rg nr r : (forall x, slot_used_at s1 x <-> slot_used_at s x) -> took s1 rg nr r -> took s rg nr r.
Proof.
  intros Hu. unfold took. destruct (r.2) as [ch|]; [intros (H1 & H2 & H3 & H4 & H5)|intros (nh & H1 & H2)]; [|exists nh; split; [done|]; intros x; by rewrite H2].
  split_and!; try done; [by rewrite <- Hu|]. intros x. by rewrite H5, Hu.
Qed.

Lemma use_alike s i : alike (use s i) (finish (rslot_at s i) (vadd A_nfree_warm (-1) (bclr RWARM i s))).
Proof.
  unfold use, finish, slot_used. cbn [sl_hdr vadd vset bclr set_map]. destruct (sl_hdr s !! rslot_at s i) as [h|]; split; try done; intros x Hx; cbn; destruct x; try discriminate; done.
Qed.

Lemma took_warm s rg nh nr i : slots_ok (s, rg) nh nr -> bget RWARM i s = true -> took s rg nr (vadd A_nfree_warm (-1) (bclr RWARM i s), Some (rslot_at s i)).
Proof.
  intros Hok Hi. pose proof Hok as [G R _ _ _ _]. cbn [fst snd] in *. destruct (warm_is s nh nr rg i G R Hi) as (_ & HN & _). destruct (res_slot s nh nr i G HN) as (_ & H0 & Ha & _). destruct (use_ok s rg nh nr i Hok Hi) as (U1 & U2 & U3). pose proof (use_alike s i) as A. unfold took. cbn [fst snd].
  split_and!; try done; [exists nh; by eapply alike_ok|]. intros x. rewrite (alike_used _ _ x A). apply U3.
Qed.

Lemma take_warm_ok s rg nh nr : slots_ok (s, rg) nh nr -> took s rg nr (take_warm s).
Proof.
  intros Hok. unfold take_warm. destruct (negb (reserved s)); [by exists nh|]. destruct (bfirst RWARM s) as [i|] eqn:Hf; [|by exists nh]. apply (took_warm s rg nh nr i Hok). eapply bit_first_some; [|exact Hf]. by apply (ge_maps _ _ _ (so_geom _ _ _ Hok)).
Qed.

Lemma warm_slots_ok l : forall s rg nh nr, slots_ok (s, rg) nh nr -> slots_ok (foldl warm_slot s l, rg) nh nr /\ forall x, slot_used_at (foldl warm_slot s l) x <-> slot_used_at s x.
Proof.
  induction l as [|i l IH]; intros s rg nh nr Hok; [done|]. cbn [foldl]. destruct (warm_slot_ok s rg nh nr i Hok) as [H1 H2]. destruct (IH _ _ _ _ H1) as [H3 H4]. split; [done|]. intros x. by rewrite H4, H2.
Qed.

(** A slot of the group that was cold is resident afterwards. *)
Lemma warm_slot_bit s nh nr rg i j : slots_ok (s, rg) nh nr -> bget RWARM j s = true \/ (j = i /\ bget RCOLD j s = true) -> bget RWARM j (warm_slot s i) = true.
Proof.
  intros Hok Hj. pose proof Hok as [G R _ _ _ _]. cbn [fst snd] in *. unfold warm_slot. destruct (bget RCOLD i s) eqn:Hi; cbn [negb]; [|destruct Hj as [?|[-> ?]]; [done|congruence]].
  pose proof (re_chunk _ _ _ _ R i) as C. unfold chunk_pt in C. destruct (Nat.ltb_spec i nh) as [Hlt|]; [|destruct C as (_ & C & _); congruence]. pose proof (ge_le _ _ _ G).
  match goal with |- bget RWARM j ?x = true => change (bget RWARM j x) with (bget RWARM j (bset RWARM i (bclr RCOLD i s))) end. rewrite (bget_bset _ nh nr) by (done || (apply geom_bclr; (done || lia)) || (cbn; lia)). destruct (decide _) as [|Hn]; [done|]. rewrite (bget_bclr s nh nr) by (try done; lia). rewrite decide_False by (intros [? ?]; done). destruct Hj as [?|[-> _]]; [done|]. tauto.
Qed.

Lemma warm_slot_cold s nh nr rg i j : slots_ok (s, rg) nh nr -> j <> i -> bget RCOLD j (warm_slot s i) = bget RCOLD j s.
Proof.
  intros Hok Hj. pose proof Hok as [G R _ _ _ _]. cbn [fst snd] in *. unfold warm_slot. destruct (bget RCOLD i s) eqn:Hi; cbn [negb]; [|done].
  pose proof (re_chunk _ _ _ _ R i) as C. unfold chunk_pt in C. destruct (Nat.ltb_spec i nh) as [Hlt|]; [|destruct C as (_ & C & _); congruence]. pose proof (ge_le _ _ _ G).
  match goal with |- bget RCOLD j ?x = _ => change (bget RCOLD j x) with (bget RCOLD j (bset RWARM i (bclr RCOLD i s))) end. rewrite (bget_bset _ nh nr) by (done || (apply geom_bclr; (done || lia)) || (cbn; lia)). rewrite decide_False by (intros [? ?]; done). rewrite (bget_bclr s nh nr) by (try done; lia). by rewrite decide_False by tauto.
Qed.

Lemma warm_slots_bit l : forall s rg nh nr j, slots_ok (s, rg) nh nr -> bget RWARM j s = true \/ (j ∈ l /\ bget RCOLD j s = true) -> bget RWARM j (foldl warm_slot s l) = true.
Proof.
  induction l as [|i l IH]; intros s rg nh nr j Hok Hj; [destruct Hj as [?|[Hj _]]; [done|by apply not_elem_of_nil in Hj]|]. cbn [foldl]. destruct (warm_slot_ok s rg nh nr i Hok) as [H1 _]. apply (IH _ rg nh nr j H1).
  destruct Hj as [Hj|[Hin Hj]]; [left; eapply warm_slot_bit; [done|by left]|]. destruct (decide (j = i)) as [->|Hn]; [left; eapply warm_slot_bit; [done|by right]|]. right. split; [apply elem_of_cons in Hin; tauto|]. by rewrite (warm_slot_cold s nh nr rg i j).
Qed.

Lemma group_of i : i ∈ group_slots (i / PCACHE_GROUP_SLOTS).
Proof. unfold group_slots, PCACHE_GROUP_SLOTS. apply elem_of_seq. pose proof (Nat.div_mod i 8 ltac:(lia)). pose proof (Nat.mod_upper_bound i 8 ltac:(lia)). lia. Qed.

Lemma take_cold_ok e s rg nh nr : slots_ok (s, rg) nh nr -> took s rg nr (take_cold e s).
Proof.
  intros Hok. unfold take_cold. destruct (negb (reserved s)); [by exists nh|]. destruct (bfirst RCOLD s) as [i|] eqn:Hf; [|by exists nh]. apply (bit_first_some _ _ _ (ge_maps _ _ _ (so_geom _ _ _ Hok) RCOLD ltac:(done))) in Hf.
  unfold group_recommit. pose proof (group_commit_alike e (i / PCACHE_GROUP_SLOTS) s) as A. destruct (group_commit e (i / PCACHE_GROUP_SLOTS) s) as [s1 ok]. cbn [fst] in A. pose proof (alike_ok _ _ _ _ _ A Hok) as Hok1.
  destruct ok; cbn [negb]; [|exists nh; split; [done|intros x; by apply alike_used]]. destruct (warm_slots_ok (group_slots (i / PCACHE_GROUP_SLOTS)) s1 rg nh nr Hok1) as [Hok2 Hu].
  eapply took_after; [|apply (took_warm _ rg nh nr i Hok2)].
  - intros x. rewrite Hu. by apply alike_used.
  - eapply warm_slots_bit; [done|]. right. split; [apply group_of|]. rewrite (alike_bget s s1) by done. exact Hf.
Qed.

Lemma no_hdr_above s rg nh nr i : slots_ok (s, rg) nh nr -> (nh <= i < rslots (sl_cf s))%nat -> sl_hdr s !! rslot_at s i = None.
Proof.
  intros [G R P K M T] Hi. cbn [fst snd] in *. destruct (sl_hdr s !! rslot_at s i) as [h|] eqn:Hh; [|done]. exfalso. destruct (pa_dom _ _ P _ _ Hh) as [(j & Hj & He)|(p & Hp & Hin)]; [apply rslot_inj in He; lia|]. by apply (res_not_page s nh nr i p G P ltac:(lia) Hp).
Qed.

Definition extend (s : slots) (nh : nat) : slots :=
  put_hdr (rslot_at s nh) (mk_shdr false 0 false None) (vadd A_chunks_used 1 (vadd A_bytes PCACHE_SLOT (vadd A_slots_total 1 (vadd A_hoff PCACHE_SLOT s)))).

Lemma wrap_small n : 0 <= n < 2 ^ 64 -> u64 n = n.
Proof. intros H. unfold u64. by apply Z.mod_small. Qed.

Lemma extend_ok s rg nh nr : slots_ok (s, rg) nh nr -> (nh < nr)%nat -> tail_inflight (Z.of_nat nh * PCACHE_SLOT) (Z.of_nat nh * PCACHE_SLOT + PCACHE_SLOT) s = false ->
  slots_ok (extend s nh, rg) (S nh) nr /\ forall x, slot_used_at (extend s nh) x <-> x = rslot_at s nh \/ slot_used_at s x.
Proof.
  intros Hok Hlt Htl. pose proof Hok as [G R P K M T]. cbn [fst snd] in *. pose proof (ge_le _ _ _ G) as Hle. assert (nh < rslots (sl_cf s))%nat as HN by lia. pose proof (no_hdr_above s rg nh nr nh Hok ltac:(lia)) as Hno. pose proof (ge_base _ _ _ G) as (B1 & _ & B3).
  split.
  - apply (moves_ok s _ nh nr (S nh) nr rg rg nh (fun x => match x with A_chunks_used => 1 | A_bytes => PCACHE_SLOT | A_slots_total => 1 | A_hoff => PCACHE_SLOT | _ => 0 end) Hok). split; try done; try lia.
    + destruct G as [G1 G2 G3 G4 G5 G6]. split; try done; [|cbn; lia]. change (u64 (sl_v s A_hoff + PCACHE_SLOT) = Z.of_nat (S nh) * PCACHE_SLOT). rewrite G1. unfold hsize in B3. rewrite slot_val in *. rewrite wrap_small; lia.
    + intros j Hj. split_and!; try done. destruct (Nat.ltb_spec j (S nh)), (Nat.ltb_spec j nh); try done; lia.
    + right. eexists. split; [lia|done].
    + pose proof (re_chunk _ _ _ _ R nh) as C. rewrite Nat.ltb_irrefl in C. destruct C as (C1 & C2 & C3). change (bget RWARM nh (extend s nh)) with (bget RWARM nh s). change (bget RCOLD nh (extend s nh)) with (bget RCOLD nh s). rewrite C1, C2, C3, (proj2 (Nat.ltb_lt nh (S nh))) by lia.
      eexists. split; [by apply lookup_insert_eq|done].
    + apply (re_zone _ _ _ _ R).
    + by apply (regions_same s).
    + v_tac.
    + apply (move_meter s _ nh nr (S nh) nr _ (fun b => 0)); try done; [intros b _; by rewrite Z.add_0_r|]. intros []; try done; lia.
    + tail_tac.
    + intros Hf. pose proof (ta_hull _ _ _ T Hf) as [H1 H2]. split; [|done]. unfold tail_inflight in Htl. rewrite slot_val in *. lia.
  - intros x. unfold slot_used_at, extend. cbn [sl_hdr put_hdr set_hdr vadd vset]. destruct (decide (x = rslot_at s nh)) as [->|Hne]; [rewrite lookup_insert_eq; split; [by left|intros _; by eexists]|]. rewrite lookup_insert_ne by done. naive_solver.
Qed.

Lemma take_frontier_ok e s rg nh nr : slots_ok (s, rg) nh nr -> took s rg nr (take_frontier e s).
Proof.
  intros Hok. unfold take_frontier. destruct (negb (reserved s) || _ || _) eqn:Hg; [by exists nh|]. apply orb_false_iff in Hg as [Hg Htl]. apply orb_false_iff in Hg as [_ Hg]. apply negb_false_iff, Z.leb_le in Hg.
  pose proof (so_geom _ _ _ Hok) as G. cbn [fst] in G. assert (nh < nr)%nat as Hlt by (rewrite (ge_hoff _ _ _ G), (ge_rtop _ _ _ G), slot_val in Hg; lia).
  rewrite (ge_hoff _ _ _ G) in *. set (g := Z.to_nat _). pose proof (carve_commit_alike e g s) as A. destruct (carve_commit e g s) as [s1 ok]. cbn [fst] in A. pose proof (alike_ok _ _ _ _ _ A Hok) as Hok1.
  destruct ok; cbn [negb]; [|exists nh; split; [done|intros x; by apply alike_used]].
  assert (tail_inflight (Z.of_nat nh * PCACHE_SLOT) (Z.of_nat nh * PCACHE_SLOT + PCACHE_SLOT) s1 = false) as Htl1 by (unfold tail_inflight in *; by rewrite !(al_v _ _ A) by done).
  destruct (extend_ok s1 rg nh nr Hok1 Hlt Htl1) as [E1 E2]. pose proof (so_geom _ _ _ Hok1) as G1. cbn [fst] in G1. pose proof (ge_le _ _ _ G1). destruct (res_slot s1 nh nr nh G1 ltac:(lia)) as (_ & H0 & Ha & _).
  change (hbase (sl_cf s1) + Z.of_nat nh * PCACHE_SLOT) with (rslot_at s1 nh). match goal with |- took _ _ _ (?x, _) => assert (alike (extend s1 nh) (finish (rslot_at s1 nh) x)) as A2 end.
  { unfold extend, finish, slot_used. cbn [sl_hdr put_hdr set_hdr vadd vset]. rewrite lookup_insert_eq. cbn [h_free_at h_cold h_page]. split; try done; [intros x Hx; destruct x; try discriminate; done|]. cbn [sl_hdr put_hdr set_hdr vadd vset]. by rewrite insert_insert_eq. }
  unfold took. cbn [fst snd]. split_and!; try done; [exists (S nh); by eapply alike_ok| |].
  - rewrite <- (alike_used _ _ _ A). intros (h & Hh & _). by rewrite (no_hdr_above s1 rg nh nr nh Hok1) in Hh by lia.
  - intros x. rewrite (alike_used _ _ x A2), E2. by rewrite (alike_used _ _ x A).
Qed.

(** * Pages *)

Lemma zsum_insert l : forall i v w, l !! i = Some v -> zsum (<[i := w]> l) = zsum l - v + w.
Proof. induction l as [|x l IH]; intros [|i] v w H; try done; cbn in *; [injection H as ->; lia|]. fold (zsum l). change (foldr Z.add 0 (<[i := w]> l)) with (zsum (<[i := w]> l)). rewrite (IH i v) by done. lia. Qed.

(** A step that changes one slot of one page. *)
Lemma page_move s s' rg nh nr i p p' ch h' : slots_ok (s, rg) nh nr -> sl_pages s !! i = Some p -> sl_pages s' = <[i := p']> (sl_pages s) -> pg_raw p' = pg_raw p -> pg_base p' = pg_base p ->
  sl_hdr s' = <[ch := h']> (sl_hdr s) -> ch ∈ page_slots (pg_base p) -> h_page h' = Some (pg_base p) ->
  NoDup (pg_free p') -> pg_nfree p' = zlen (pg_free p') -> (h_free h' = true <-> ch ∈ pg_free p') -> (forall x, x <> ch -> x ∈ pg_free p' <-> x ∈ pg_free p) ->
  sl_cf s' = sl_cf s -> sl_flight s' = sl_flight s -> sl_maps s' = sl_maps s -> sl_regions s' = sl_regions s ->
  (forall x, sl_v s' x = match x with A_nfree_warm => u32 (sl_v s x + (pg_nfree p' - pg_nfree p)) | A_chunks_used => u32 (sl_v s x - (pg_nfree p' - pg_nfree p)) | _ => sl_v s x end) -> slots_ok (s', rg) nh nr.
Proof.
  intros [G R P K M T] Hi Hp Hr Hb Hh Hch Hpg Hnd Hnf Hfr Hx Hc Hf Hm Hrg Hv. cbn [fst snd] in *. assert (forall j, rslot_at s' j = rslot_at s j) as Ha by (intros j; unfold rslot_at; by rewrite Hc). assert (p ∈ sl_pages s) as Hpin by (by eapply list_elem_of_lookup_2). assert (reserved s' = reserved s) as Hres by (unfold reserved; by rewrite Hc).
  assert (forall j, (j < rslots (sl_cf s))%nat -> rslot_at s j <> ch) as Hne by (intros j Hj He; apply (res_not_page s nh nr j p G P Hj Hpin); by rewrite He).
  assert (forall q, q ∈ sl_pages s' -> q = p' \/ exists j, j <> i /\ sl_pages s !! j = Some q) as Hin.
  { intros q [j Hj]%list_elem_of_lookup. rewrite Hp in Hj. destruct (decide (j = i)) as [->|Hn]; [rewrite list_lookup_insert_eq in Hj by (by eapply lookup_lt_Some); left; congruence|]. rewrite list_lookup_insert_ne in Hj by done. right. by exists j. }
  split; cbn [fst snd].
  - destruct G as [G1 G2 G3 G4 G5 G6]. split; rewrite ?Hc, ?Hm, ?Hv; done.
  - destruct R as [R1 R2 R3]. split; [intros j|intros j|by rewrite Hf]; unfold bget, in_zone, owners, covers in *; rewrite ?Hm, ?Ha, ?Hc, (flying_same _ s s' j Hf); [|apply R2].
    rewrite Hh. destruct (decide (j < nh)%nat) as [Hj|Hj]; [rewrite lookup_insert_ne by (intros He; apply (Hne j); [pose proof (ge_le _ _ _ G); lia|done]); apply R1|]. specialize (R1 j). unfold chunk_pt in *. assert ((j <? nh)%nat = false) as Hq by (apply Nat.ltb_ge; lia). by rewrite Hq in *.
  - destruct P as [P1 P2 P3]. split.
    + intros q [->|(j & Hj & Hq)]%Hin.
      * destruct (P1 p Hpin) as [Q1 Q2 Q3 Q4 Q5]. split; rewrite ?Hr, ?Hb, ?Hc, ?Hres; try done.
        -- split_and!; try done. intros x Hxin. destruct (decide (x = ch)) as [->|Hn]; [done|]. apply Q4. by apply Hx.
        -- intros x Hxin. rewrite Hh. destruct (decide (x = ch)) as [->|Hn]; [rewrite lookup_insert_eq; by exists h'|]. rewrite lookup_insert_ne by done. destruct (Q5 x Hxin) as (h & H1 & H2 & H3). exists h. split_and!; try done. by rewrite H3, Hx.
      * destruct (P1 q ltac:(by eapply list_elem_of_lookup_2)) as [Q1 Q2 Q3 Q4 Q5]. split; rewrite ?Hc, ?Hres; try done. intros x Hxin. rewrite Hh, lookup_insert_ne; [by apply Q5|]. intros <-. apply Hj. by eapply (page_slots_apart s nh j i q p ch).
    + intros j k q r. rewrite Hp. intros Hj Hk Hn. assert (forall m z, <[i := p']> (sl_pages s) !! m = Some z -> exists y, sl_pages s !! m = Some y /\ pg_raw y = pg_raw z) as Hold.
      { intros m z Hz. destruct (decide (m = i)) as [->|Hmi]; [rewrite list_lookup_insert_eq in Hz by (by eapply lookup_lt_Some); injection Hz as <-; by exists p|]. rewrite list_lookup_insert_ne in Hz by done. by exists z. }
      destruct (Hold j q Hj) as (q0 & Hq0 & <-). destruct (Hold k r Hk) as (r0 & Hr0 & <-). by apply (P2 j k).
    + intros x h. rewrite Hh. intros H. destruct (decide (x = ch)) as [->|Hn].
      * right. exists p'. rewrite Hp, Hb. split; [|done]. apply list_elem_of_lookup_2 with i. apply list_lookup_insert_eq. by eapply lookup_lt_Some.
      * rewrite lookup_insert_ne in H by done. destruct (P3 x h H) as [(j & Hj & ->)|(q & [j Hq]%list_elem_of_lookup & Hxq)]; [left; exists j; by rewrite Ha|]. right. rewrite Hp. destruct (decide (j = i)) as [->|Hji].
        -- exists p'. rewrite Hb. split; [apply list_elem_of_lookup_2 with i; apply list_lookup_insert_eq; by eapply lookup_lt_Some|congruence].
        -- exists q. split; [|done]. apply list_elem_of_lookup_2 with j. by rewrite list_lookup_insert_ne.
  - destruct K as [K1 K2 K3 K4]. split; unfold zone_region in *; rewrite ?Hrg, ?Hres, ?Hc; try done.
    + intros r Hrin. destruct (K1 r Hrin) as [H0 [(j & Hj & Hk)|Hbk]]; (split; [done|]); [left; exists j; by rewrite Ha|by right].
    + intros b Hbin. destruct (K2 b Hbin) as (A1 & A2 & A3 & A4). split_and!; try done. intros q [->|(j & _ & Hq)]%Hin; [rewrite Hr; by apply A4|]. apply A4. by eapply list_elem_of_lookup_2.
  - assert (page_free s' = page_free s + (pg_nfree p' - pg_nfree p)) as Hpf by (unfold page_free; rewrite Hp, list_fmap_insert, (zsum_insert _ i (pg_nfree p)) by (by rewrite list_lookup_fmap, Hi); lia).
    assert (forall b, on b s' = on b s) as Hon by (intros b; unfold on, bget; by rewrite Hc, Hm). assert (zlen (sl_pages s') = zlen (sl_pages s)) as Hlen by (unfold zlen; by rewrite Hp, length_insert).
    apply (meters_step s s' nh nr nh nr (fun x => match x with A_nfree_warm => pg_nfree p' - pg_nfree p | A_chunks_used => - (pg_nfree p' - pg_nfree p) | _ => 0 end) M).
    + intros x. rewrite Hv. destruct x; (left; done) || (right; done).
    + intros x n n' H1 H2. destruct x; cbn [meter_of] in *; try discriminate; unfold out_of, block_bytes in *; rewrite ?Hon, ?Hpf, ?Hlen, ?Hf, ?Hrg, ?Hc in H2; injection H1 as <-; injection H2 as <-; lia.
  - destruct T as [T1 T2 T3 T4]. split; rewrite ?Hv, ?Hf; done.
Qed.

Lemma page_slots_length base : length (page_slots base) = PCACHE_PAGE_SLOTS.
Proof. unfold page_slots. by rewrite length_fmap, length_seq. Qed.

Lemma off_page_ok s rg nh nr i p : slots_ok (s, rg) nh nr -> sl_pages s !! i = Some p -> pg_nfree p <> 0 -> took s rg nr (take_off_page i s).
Proof.
  intros Hok Hi Hn. pose proof Hok as [G R P K M T]. cbn [fst snd] in *. unfold take_off_page. rewrite Hi. assert (p ∈ sl_pages s) as Hpin by (by eapply list_elem_of_lookup_2). pose proof (pa_each _ _ P p Hpin) as Q. destruct (po_free _ _ Q) as (F1 & F2 & F3). destruct (pg_free p) as [|ch l] eqn:Hl; [done|].
  apply NoDup_cons in F1 as [F0 F1]. pose proof (F3 ch ltac:(apply list_elem_of_here)) as Hch. destruct (page_slot_in s p ch Q Hch) as (C1 & C2 & _). destruct (po_hdr _ _ Q ch Hch) as (h & H1 & H2 & H3). assert (h_free h = true) as Hf by (apply H3; rewrite Hl; apply list_elem_of_here).
  assert (zlen (ch :: l) <= Z.of_nat PCACHE_PAGE_SLOTS) as Hlen.
  { unfold zlen. apply inj_le. rewrite <- (page_slots_length (pg_base p)). apply submseteq_length, NoDup_submseteq; [by apply NoDup_cons|exact F3]. }
  unfold zlen in *. cbn [length] in *. unfold PCACHE_PAGE_SLOTS in Hlen. assert (u32 (pg_nfree p - 1) = Z.of_nat (length l)) as Hu by (rewrite F2; unfold u32; rewrite Z.mod_small; lia).
  unfold took. cbn [fst snd]. match goal with |- context [finish ch ?x] => set (s1 := x) end. set (h' := mk_shdr false (h_free_at h) (h_cold h) (h_page h)).
  assert (sl_hdr (finish ch s1) = <[ch := h']> (sl_hdr s)) as Hh by (unfold finish, slot_used; cbn [sl_hdr vadd vset]; change (sl_hdr s1) with (sl_hdr s); by rewrite H1).
  set (s2 := put_hdr ch h' (vadd A_chunks_used 1 s1)).
  assert (alike s2 (finish ch s1)) as A by (unfold finish, slot_used; cbn [sl_hdr vadd vset]; change (sl_hdr s1) with (sl_hdr s); rewrite H1; split; try done; intros x Hx; destruct x; try discriminate; done).
  split_and!; try done.
  - exists nh. apply (alike_ok _ _ _ _ _ A). apply (page_move s s2 rg nh nr i p (mk_page (pg_raw p) (pg_base p) l (u32 (pg_nfree p - 1))) ch h' Hok); try done.
    + intros x Hx. cbn. rewrite Hl, elem_of_cons. tauto.
    + cbn [pg_nfree]. rewrite Hu, F2. intros x. destruct x; try done; [change (u32 (sl_v s A_nfree_warm + -1) = u32 (sl_v s A_nfree_warm + (Z.of_nat (length l) - Z.of_nat (S (length l)))))|change (u32 (sl_v s A_chunks_used + 1) = u32 (sl_v s A_chunks_used - (Z.of_nat (length l) - Z.of_nat (S (length l)))))]; f_equal; lia.
  - intros (h0 & Hh0 & Hf0). congruence.
  - intros x. unfold slot_used_at. rewrite Hh. destruct (decide (x = ch)) as [->|Hne]; [rewrite lookup_insert_eq; split; [by left|intros _; by exists h']|]. rewrite lookup_insert_ne by done. naive_solver.
Qed.

Lemma fullest_some l : forall i best k, fullest l i best = Some k -> (exists n, best = Some (k, n)) \/ exists j p, k = (i + j)%nat /\ l !! j = Some p /\ pg_nfree p <> 0.
Proof.
  induction l as [|p l IH]; intros i best k H; cbn [fullest] in H; [destruct best as [[b n]|]; [left; injection H as <-; by exists n|done]|].
  destruct (IH _ _ _ H) as [(n & Hb)|(j & q & -> & Hj & Hq)]; [|right; exists (S j), q; split_and!; [lia|done|done]]. destruct (negb (pg_nfree p =? 0) && _) eqn:Hc; [|left; by exists n]. injection Hb as <- <-. right. exists 0%nat, p. split_and!; [lia|done|lia].
Qed.

Lemma foldl_put_hdr l h : forall s, sl_hdr (foldl (fun s ch => put_hdr ch h s) s l) = foldl (fun m ch => <[ch := h]> m) (sl_hdr s) l /\ alike (set_hdr ∅ s) (set_hdr ∅ (foldl (fun s ch => put_hdr ch h s) s l)).
Proof. induction l as [|ch l IH]; intros s; [done|]. cbn [foldl]. destruct (IH (put_hdr ch h s)) as [H1 H2]. split; [done|]. etransitivity; [|exact H2]. by split. Qed.

Lemma lookup_foldl_put (l : list Z) (h : shdr) : forall (m : gmap Z shdr) x, foldl (fun m ch => <[ch := h]> m) m l !! x = if decide (x ∈ l) then Some h else m !! x.
Proof.
  induction l as [|c l IH]; intros m x; cbn [foldl]; [by rewrite decide_False by (by intros ?%not_elem_of_nil)|]. rewrite IH. destruct (decide (x ∈ l)) as [Hx|Hx]; [rewrite decide_True by set_solver; done|]. destruct (decide (x = c)) as [->|Hn]; [rewrite lookup_insert_eq, decide_True by set_solver; done|]. rewrite lookup_insert_ne, decide_False by set_solver. done.
Qed.

Lemma forallb_in {A} (f : A -> bool) l x : forallb f l = true -> x ∈ l -> f x = true.
Proof. induction l as [|y l IH]; cbn; intros H Hx; [by apply not_elem_of_nil in Hx|]. apply andb_prop in H as [H1 H2]. apply elem_of_cons in Hx as [->|Hx]; [done|by apply IH]. Qed.

Lemma fresh_spec s raw n : fresh_block s raw n = true -> 0 < raw /\ raw + n < 2 ^ 64 /\ (reserved s = true -> apart raw n (hbase (sl_cf s)) (hsize (sl_cf s)) = true) /\
  (forall p, p ∈ sl_pages s -> apart raw n (pg_raw p) PAGE_BYTES = true) /\ forall r, r ∈ sl_regions s -> apart raw n r.1 r.2 = true.
Proof.
  unfold fresh_block. intros H. repeat apply andb_prop in H as [H ?]. split_and!; try lia.
  - intros Hr. rewrite Hr in *. done.
  - intros p Hp. match goal with H1 : forallb _ (sl_pages s) = true |- _ => exact (forallb_in _ _ p H1 Hp) end.
  - intros r Hr. match goal with H1 : forallb _ (sl_regions s) = true |- _ => exact (forallb_in _ _ r H1 Hr) end.
Qed.

Lemma apart_sym a n b m : apart a n b m = apart b m a n.
Proof. unfold apart. by rewrite orb_comm. Qed.

Lemma page_new s s' rg nh nr pg : slots_ok (s, rg) nh nr -> fresh_block s (pg_raw pg) PAGE_BYTES = true -> pg_base pg = Z.land (pg_raw pg + PCACHE_SLOT - 1) PCACHE_SLOT_MASK ->
  pg_free pg = reverse (page_slots (pg_base pg)) -> pg_nfree pg = Z.of_nat PCACHE_PAGE_SLOTS -> sl_pages s' = pg :: sl_pages s ->
  (forall x, sl_hdr s' !! x = if decide (x ∈ page_slots (pg_base pg)) then Some (mk_shdr true 0 false (Some (pg_base pg))) else sl_hdr s !! x) ->
  sl_cf s' = sl_cf s -> sl_flight s' = sl_flight s -> sl_maps s' = sl_maps s -> sl_regions s' = sl_regions s ->
  (forall x, free_av x = false -> sl_v s' x = match x with A_nfree_warm | A_slots_total => u32 (sl_v s x + Z.of_nat PCACHE_PAGE_SLOTS) | A_npages => u32 (sl_v s x + 1) | A_bytes => u64 (sl_v s x + PAGE_BYTES) | _ => sl_v s x end) ->
  slots_ok (s', rg) nh nr /\ forall x, slot_used_at s' x <-> slot_used_at s x.
Proof.
  intros [G R P K M T] Hfb Hb Hfr Hnf Hp Hh Hc Hf Hm Hrg Hv. cbn [fst snd] in *. destruct (fresh_spec s _ _ Hfb) as (F1 & F2 & F3 & F4 & F5). assert (forall j, rslot_at s' j = rslot_at s j) as Ha by (intros j; unfold rslot_at; by rewrite Hc). assert (reserved s' = reserved s) as Hres by (unfold reserved; by rewrite Hc).
  destruct (page_base_range pg F1 Hb) as [B1 B2].
  assert (forall x, x ∈ page_slots (pg_base pg) -> pg_raw pg <= x /\ x + PCACHE_SLOT <= pg_raw pg + PAGE_BYTES) as Hrange by (intros x (j & Hj & ->)%elem_page_slots; unfold PAGE_BYTES, PCACHE_PAGE_SLOTS in *; rewrite slot_val in *; lia).
  assert (forall x, is_Some (sl_hdr s !! x) -> x ∉ page_slots (pg_base pg)) as Hold.
  { intros x [h Hx] Hin. apply Hrange in Hin. destruct (pa_dom _ _ P x h Hx) as [(j & Hj & ->)|(q & Hq & Hxq)].
    - destruct (res_slot s nh nr j G ltac:(pose proof (ge_le _ _ _ G); lia)) as (Hr & _ & _ & A1 & A2). pose proof (F3 Hr) as Hap. apply apart_spec in Hap. rewrite slot_val in *. lia.
    - destruct (page_slot_in s q x (pa_each _ _ P q Hq) Hxq) as (_ & _ & A1 & A2). pose proof (F4 q Hq) as Hap. apply apart_spec in Hap. rewrite slot_val in *. lia. }
  assert (forall x, is_Some (sl_hdr s !! x) -> sl_hdr s' !! x = sl_hdr s !! x) as Hkeep by (intros x Hx; rewrite Hh, decide_False by (by apply Hold); done).
  split; [split; cbn [fst snd]|].
  - destruct G as [G1 G2 G3 G4 G5 G6]. split; rewrite ?Hc, ?Hm, ?Hv; done.
  - destruct R as [R1 R2 R3]. split; [intros j|intros j|by rewrite Hf]; unfold bget, in_zone, owners, covers in *; rewrite ?Hm, ?Ha, ?Hc, (flying_same _ s s' j Hf); [|apply R2].
    specialize (R1 j). unfold chunk_pt in *. destruct (j <? nh)%nat; [|done]. destruct R1 as (h & H1 & H2). exists h. by rewrite Hkeep by (by exists h).
  - destruct P as [P1 P2 P3]. split.
    + intros q. rewrite Hp. intros [->|Hq]%elem_of_cons.
      * split; rewrite ?Hc, ?Hres; try done.
        -- rewrite Hfr. split_and!; [apply (NoDup_Permutation_proper _ _ (reverse_Permutation _)); unfold page_slots; apply NoDup_fmap_2; [intros x y; unfold page_slot; rewrite slot_val; lia|apply NoDup_seq]|unfold zlen; by rewrite Hnf, length_reverse, page_slots_length|]. intros ch. by rewrite elem_of_reverse.
        -- intros ch Hch. rewrite Hh, decide_True by done. eexists. split; [done|]. split; [done|]. rewrite Hfr, elem_of_reverse. done.
      * destruct (P1 q Hq) as [Q1 Q2 Q3 Q4 Q5]. split; rewrite ?Hc, ?Hres; try done. intros ch Hch. destruct (Q5 ch Hch) as (h & H1 & H2). exists h. by rewrite Hkeep by (by exists h).
    + intros [|i] [|j] p q Hi Hj Hn; rewrite Hp in *; cbn in Hi, Hj; try done; [injection Hi as <-; apply F4; by eapply list_elem_of_lookup_2|injection Hj as <-; rewrite apart_sym; apply F4; by eapply list_elem_of_lookup_2|]. apply (P2 i j); try done. congruence.
    + intros ch h. rewrite Hh, Hp. destruct (decide _) as [Hin|_]; [intros _; right; exists pg; split; [apply list_elem_of_here|done]|]. intros H. destruct (P3 ch h H) as [(i & Hi & ->)|(q & Hq & Hin)]; [left; exists i; by rewrite Ha|]. right. exists q. split; [by apply list_elem_of_further|done].
  - destruct K as [K1 K2 K3 K4]. split; unfold zone_region in *; rewrite ?Hrg, ?Hres, ?Hc; try done.
    + intros r Hrin. destruct (K1 r Hrin) as [H0 [(j & Hj & Hk)|Hbk]]; (split; [done|]); [left; exists j; by rewrite Ha|by right].
    + intros b Hbin. destruct (K2 b Hbin) as (A1 & A2 & A3 & A4). split_and!; try done. intros q. rewrite Hp. intros [->|Hq]%elem_of_cons; [rewrite apart_sym; by apply F5|by apply A4].
  - assert (page_free s' = page_free s + Z.of_nat PCACHE_PAGE_SLOTS) as Hpf by (unfold page_free; rewrite Hp; change (zsum (pg_nfree <$> pg :: sl_pages s)) with (pg_nfree pg + zsum (pg_nfree <$> sl_pages s)); rewrite Hnf; lia).
    assert (forall b, on b s' = on b s) as Hon by (intros b; unfold on, bget; by rewrite Hc, Hm). assert (zlen (sl_pages s') = zlen (sl_pages s) + 1) as Hlen by (unfold zlen; rewrite Hp; cbn [length]; lia).
    intros x n' Hx. assert (free_av x = false) as Hfx by (destruct x; done). rewrite (Hv x Hfx). assert (exists n, meter_of s nh nr x = Some n) as [n Hn] by (destruct x; cbn in Hx; try discriminate; by eexists). pose proof (M x n Hn) as Mx.
    destruct x; cbn [meter_of] in *; try discriminate; unfold out_of, block_bytes in *; rewrite ?Hon, ?Hpf, ?Hlen, ?Hf, ?Hrg, ?Hc in Hx; injection Hx as <-; injection Hn as <-; rewrite Mx; cbn [av_wrap]; unfold u32, u64; rewrite ?Zplus_mod_idemp_l; f_equal; lia.
  - destruct T as [T1 T2 T3 T4]. split; rewrite ?Hv, ?Hf; done.
  - intros x. unfold slot_used_at. rewrite Hh. destruct (decide _) as [Hin|]; [|done]. split; [by intros (h & [= <-] & ?)|]. intros (h & Hx & _). exfalso. apply (Hold x); [by exists h|done].
Qed.

Lemma extents_alike lo hi s : alike s (extents_add lo hi s).
Proof. unfold extents_add. destruct (lo <? _); destruct (hi >? _); alike_tac. Qed.

Lemma shm_spec e n s raw : shm_malloc e n s = Some raw -> fresh_block s raw n = true.
Proof. unfold shm_malloc. destruct (e_block e) as [r|]; [|done]. destruct (fresh_block s r n) eqn:H; [|done]. by intros [= <-]. Qed.

Lemma page_added s rg nh nr raw base s2 s3 : slots_ok (s, rg) nh nr -> fresh_block s raw PAGE_BYTES = true -> base = Z.land (raw + PCACHE_SLOT - 1) PCACHE_SLOT_MASK ->
  let pg := mk_page raw base (reverse (page_slots base)) (Z.of_nat PCACHE_PAGE_SLOTS) in
  alike (vadd A_bytes PAGE_BYTES (vadd A_npages 1 (set_pages (pg :: sl_pages s) s))) s2 -> sl_hdr s3 = foldl (fun m ch => <[ch := mk_shdr true 0 false (Some base)]> m) (sl_hdr s2) (page_slots base) -> alike (set_hdr ∅ s2) (set_hdr ∅ s3) ->
  let s4 := vadd A_slots_total (Z.of_nat PCACHE_PAGE_SLOTS) (vadd A_nfree_warm (Z.of_nat PCACHE_PAGE_SLOTS) s3) in
  slots_ok (s4, rg) nh nr /\ (forall x, slot_used_at s4 x <-> slot_used_at s x) /\ exists p, sl_pages s4 !! 0%nat = Some p /\ pg_nfree p <> 0.
Proof.
  intros Hok Hs Hbase pg A F1 F2 s4. assert (sl_pages s4 = pg :: sl_pages s) as Hp by (etransitivity; [apply (al_pages _ _ F2)|apply (al_pages _ _ A)]).
  assert (forall b, b <> HCOMMIT -> sl_maps s4 b = sl_maps s b) as Hm by (intros b Hb; etransitivity; [apply (al_maps _ _ F2 b Hb)|apply (al_maps _ _ A b Hb)]).
  destruct (page_new s (mk_slots (sl_cf s4) (sl_v s4) (sl_maps s) (sl_zfree_at s4) (sl_pages s4) (sl_regions s4) (sl_hdr s4) (sl_flight s4)) rg nh nr pg Hok Hs) as [Hok' Hu]; try done.
  - intros x. cbn [sl_hdr]. change (sl_hdr s4) with (sl_hdr s3). rewrite F1, lookup_foldl_put. by rewrite (al_hdr _ _ A).
  - cbn [sl_cf]. etransitivity; [apply (al_cf _ _ F2)|apply (al_cf _ _ A)].
  - cbn [sl_flight]. etransitivity; [apply (al_flight _ _ F2)|apply (al_flight _ _ A)].
  - cbn [sl_regions]. etransitivity; [apply (al_regions _ _ F2)|apply (al_regions _ _ A)].
  - intros x Hx. cbn [sl_v]. pose proof (al_v _ _ F2 x Hx) as H3. rewrite (al_v _ _ A x Hx : sl_v (set_hdr ∅ s2) x = _) in H3. destruct x; try discriminate; try exact H3.
    + change (u32 (sl_v (set_hdr ∅ s3) A_nfree_warm + Z.of_nat PCACHE_PAGE_SLOTS) = u32 (sl_v s A_nfree_warm + Z.of_nat PCACHE_PAGE_SLOTS)). by rewrite H3.
    + change (u32 (sl_v (set_hdr ∅ s3) A_slots_total + Z.of_nat PCACHE_PAGE_SLOTS) = u32 (sl_v s A_slots_total + Z.of_nat PCACHE_PAGE_SLOTS)). by rewrite H3.
  - split_and!; [|exact Hu|exists pg; by rewrite Hp]. eapply alike_ok; [|exact Hok']. split; done.
Qed.

Lemma page_add_ok e s rg nh nr : slots_ok (s, rg) nh nr -> slots_ok ((page_add e s).1, rg) nh nr /\ (forall x, slot_used_at (page_add e s).1 x <-> slot_used_at s x) /\
  ((page_add e s).2 = true -> exists p, sl_pages (page_add e s).1 !! 0%nat = Some p /\ pg_nfree p <> 0).
Proof.
  intros Hok. unfold page_add. destruct (shm_malloc e PAGE_BYTES s) as [raw|] eqn:Hs; [|done]. apply shm_spec in Hs. cbn beta zeta. remember (Z.land _ _) as base eqn:Hb. match goal with |- context [extents_add raw ?hi ?x] => set (s1 := x); remember (extents_add raw hi s1) as s2 eqn:H2 end.
  destruct (foldl_put_hdr (page_slots base) (mk_shdr true 0 false (Some base)) s2) as [F1 F2]. match goal with |- context [foldl ?f s2 ?l] => remember (foldl f s2 l) as s3 eqn:H3 end. cbn [fst snd].
  destruct (page_added s rg nh nr raw base s2 s3 Hok Hs Hb ltac:(subst s2; apply extents_alike) F1 F2) as (P1 & P2 & P3). split_and!; done.
Qed.

Lemma take_page_ok e s rg nh nr : slots_ok (s, rg) nh nr -> took s rg nr (take_page e s).
Proof.
  intros Hok. unfold take_page. destruct (fullest (sl_pages s) 0 None) as [i|] eqn:Hf.
  - destruct (fullest_some _ _ _ _ Hf) as [(n & ?)|(j & p & -> & Hj & Hp)]; [done|]. by apply (off_page_ok s rg nh nr j p).
  - destruct (negb _ && _).
    + exists nh. cbn [fst]. assert (alike s (vadd A_refused 1 (if sl_v s A_ceiling_since =? 0 then vset A_ceiling_since (e_now e) s else s))) as A by (destruct (sl_v s A_ceiling_since =? 0); alike_tac). split; [by eapply alike_ok|intros x; by apply alike_used].
    + destruct (page_add_ok e s rg nh nr Hok) as (H1 & H2 & H3). destruct (page_add e s) as [s1 ok]. cbn [fst snd] in *. destruct ok; [|by exists nh]. destruct (H3 eq_refl) as (p & Hp & Hn). eapply took_after; [exact H2|]. by apply (off_page_ok s1 rg nh nr 0 p).
Qed.

(** A stage that found nothing leaves the next one a good state. *)
Lemma took_then s rg nr (f : slots -> slots * option Z) r : took s rg nr r -> (forall s1 nh, slots_ok (s1, rg) nh nr -> took s1 rg nr (f s1)) ->
  took s rg nr (match r.2 with Some _ => r | None => f r.1 end).
Proof. intros H Hf. unfold took in H. destruct r as [s1 [ch|]]; cbn [fst snd] in *; [exact H|]. destruct H as (nh & H1 & H2). eapply took_after; [exact H2|]. by eapply Hf. Qed.

Lemma slot_take_ok e s rg nh nr : slots_ok (s, rg) nh nr ->
  (exists nh', slots_ok ((slot_take e s).1, rg) nh' nr) /\
  match (slot_take e s).2 with
  | Some ch => 0 < ch /\ ch mod PCACHE_SLOT = 0 /\ ~ slot_used_at s ch /\ forall x, slot_used_at (slot_take e s).1 x <-> x = ch \/ slot_used_at s x
  | None => forall x, slot_used_at (slot_take e s).1 x <-> slot_used_at s x
  end.
Proof.
  intros Hok. pose proof (took_then s rg nr (take_cold e) _ (take_warm_ok s rg nh nr Hok) (fun s1 nh H => take_cold_ok e s1 rg nh nr H)) as T1.
  pose proof (took_then s rg nr (take_frontier e) _ T1 (fun s1 nh H => take_frontier_ok e s1 rg nh nr H)) as T2. pose proof (took_then s rg nr (take_page e) _ T2 (fun s1 nh H => take_page_ok e s1 rg nh nr H)) as T3. clear T1 T2. unfold slot_take.
  destruct (take_warm s) as [s1 [c1|]]; cbn [fst snd] in *; [destruct T3 as (H1 & H2); done|]. destruct (take_cold e s1) as [s2 [c2|]]; cbn [fst snd] in *; [destruct T3 as (H1 & H2); done|].
  destruct (take_frontier e s2) as [s3 [c3|]]; cbn [fst snd] in *; [destruct T3 as (H1 & H2); done|]. destruct (take_page e s3) as [s4 [c4|]]; cbn [fst snd] in *; [destruct T3 as (H1 & H2); done|]. destruct T3 as (nh' & H1 & H2). split; [by exists nh'|done].
Qed.

(** * Giving a slot back *)

Lemma page_back_at s nh i p ch : pages_ok s nh -> sl_pages s !! i = Some p -> page_back (pg_base p) ch <$> sl_pages s = <[i := mk_page (pg_raw p) (pg_base p) (ch :: pg_free p) (u32 (pg_nfree p + 1))]> (sl_pages s).
Proof.
  intros P Hi. apply list_eq. intros j. rewrite list_lookup_fmap. destruct (decide (j = i)) as [->|Hn].
  - rewrite list_lookup_insert_eq, Hi by (by eapply lookup_lt_Some). cbn. unfold page_back. by rewrite Z.eqb_refl.
  - rewrite list_lookup_insert_ne by done. destruct (sl_pages s !! j) as [q|] eqn:Hj; [|done]. cbn. f_equal. unfold page_back. destruct (Z.eqb_spec (pg_base q) (pg_base p)) as [He|]; [|done]. exfalso. apply Hn.
    apply (page_slots_apart s nh j i q p (pg_base p) P Hj Hi); apply elem_page_slots; exists 0%nat; (split; [unfold PCACHE_PAGE_SLOTS; lia|]); lia.
Qed.

Lemma give_page_ok s rg nh nr i p ch h : slots_ok (s, rg) nh nr -> sl_pages s !! i = Some p -> ch ∈ page_slots (pg_base p) -> sl_hdr s !! ch = Some h -> h_free h = false -> slots_ok (slot_give s ch, rg) nh nr.
Proof.
  intros Hok Hi Hch Hh Hf. pose proof Hok as [G R P K M T]. cbn [fst snd] in *. pose proof (pa_each _ _ P p ltac:(by eapply list_elem_of_lookup_2)) as Q. destruct (po_hdr _ _ Q ch Hch) as (h0 & H1 & H2 & H3). assert (h0 = h) as -> by congruence. destruct (po_free _ _ Q) as (F1 & F2 & F3).
  assert (ch ∉ pg_free p) as Hnin by (intros Hin; apply H3 in Hin; congruence). assert (zlen (ch :: pg_free p) <= Z.of_nat PCACHE_PAGE_SLOTS) as Hlen.
  { unfold zlen. apply inj_le. rewrite <- (page_slots_length (pg_base p)). apply submseteq_length, NoDup_submseteq; [by apply NoDup_cons|]. intros x [->|Hx]%elem_of_cons; [done|by apply F3]. }
  unfold zlen in *. cbn [length] in *. unfold PCACHE_PAGE_SLOTS in Hlen. assert (u32 (pg_nfree p + 1) = Z.of_nat (S (length (pg_free p)))) as Hu by (rewrite F2; unfold u32; rewrite Z.mod_small; lia).
  unfold slot_give. rewrite Hh, H2. set (s1 := put_hdr _ _ s). change (sl_pages s1) with (sl_pages s). rewrite (page_back_at s nh i p ch P Hi).
  apply (page_move s _ rg nh nr i p (mk_page (pg_raw p) (pg_base p) (ch :: pg_free p) (u32 (pg_nfree p + 1))) ch (mk_shdr true (sl_v s A_tick) (h_cold h) (h_page h)) Hok); try done.
  - cbn. by rewrite H2.
  - by apply NoDup_cons.
  - split; [intros _; apply list_elem_of_here|done].
  - intros x Hx. cbn. rewrite elem_of_cons. tauto.
  - cbn [pg_nfree]. rewrite Hu, F2. intros x. destruct x; try done; [change (u32 (sl_v s A_nfree_warm + 1) = u32 (sl_v s A_nfree_warm + (Z.of_nat (S (length (pg_free p))) - Z.of_nat (length (pg_free p)))))|change (u32 (sl_v s A_chunks_used + -1) = u32 (sl_v s A_chunks_used - (Z.of_nat (S (length (pg_free p))) - Z.of_nat (length (pg_free p)))))]; f_equal; lia.
Qed.

Lemma slot_give_ok s rg nh nr ch : slots_ok (s, rg) nh nr -> slot_used_at s ch -> slots_ok (slot_give s ch, rg) nh nr /\ forall x, slot_used_at (slot_give s ch) x <-> x <> ch /\ slot_used_at s x.
Proof.
  intros Hok (h & Hh & Hf). split.
  - destruct (pa_dom _ _ (so_pages _ _ _ Hok) ch h Hh) as [(i & Hi & ->)|(p & [i Hp]%list_elem_of_lookup & Hin)]; [by eapply give_res_ok|by eapply give_page_ok].
  - intros x. unfold slot_used_at. assert (sl_hdr (slot_give s ch) = <[ch := mk_shdr true (sl_v s A_tick) (h_cold h) (h_page h)]> (sl_hdr s)) as -> by (unfold slot_give; rewrite Hh; by destruct (h_page h)).
    destruct (decide (x = ch)) as [->|Hne]; [rewrite lookup_insert_eq; naive_solver|]. rewrite lookup_insert_ne by done. naive_solver.
Qed.

(** * The region zone *)

#[global] Instance owners_perm s : Proper ((≡ₚ) ==> eq ==> eq) (owners s).
Proof. intros l l' H i ? <-. unfold owners. by rewrite H. Qed.
#[global] Instance lodgers_perm b : Proper ((≡ₚ) ==> eq) (lodgers b).
Proof. intros l l' H. unfold lodgers. by rewrite H. Qed.

Lemma perm_ok s rg rg' nh nr : slots_ok (s, rg) nh nr -> rg ≡ₚ rg' -> slots_ok (s, rg') nh nr.
Proof.
  intros [G R P K M T] Hp. split; try done; cbn [fst snd] in *.
  - destruct R as [R1 R2 R3]. split; try done. intros i. rewrite <- Hp. apply R2.
  - destruct K as [K1 K2 K3 K4]. split; try done; [intros r; rewrite <- Hp; apply K1|intros b; rewrite <- Hp; apply K4].
Qed.

Lemma owners_cons s r rg i : owners s (r :: rg) i = (Nat.b2n (covers s r i) + owners s rg i)%nat.
Proof. unfold owners. rewrite filter_cons. destruct (covers s r i); [by rewrite decide_True|by rewrite decide_False]. Qed.

Lemma lodgers_cons b r rg : lodgers b (r :: rg) = (Nat.b2n (in_block b r) + lodgers b rg)%nat.
Proof. unfold lodgers. rewrite filter_cons. destruct (in_block b r); [by rewrite decide_True|by rewrite decide_False]. Qed.

Lemma region_slots_pos sz : 0 < sz -> region_slots sz = Z.to_nat ((sz - 1) / PCACHE_SLOT + 1) /\ (0 < region_slots sz)%nat.
Proof.
  intros H. unfold region_slots. rewrite Z.shiftr_div_pow2 by lia. change (2 ^ 18) with 262144. rewrite slot_val. replace (sz + 262144 - 1) with (sz - 1 + 1 * 262144) by lia. rewrite Z.div_add by lia. split; [done|]. pose proof (Z.div_pos (sz - 1) 262144 ltac:(lia) ltac:(lia)). lia.
Qed.

Lemma lodgers_zero b rg : (forall r, r ∈ rg -> in_block b r = false) -> lodgers b rg = 0%nat.
Proof. induction rg as [|r rg IH]; intros H; [done|]. rewrite lodgers_cons, H, IH; [done| |apply list_elem_of_here]. intros q Hq. apply H. by apply list_elem_of_further. Qed.

Lemma covers_at s j sz i : 0 < sz -> (j + region_slots sz <= rslots (sl_cf s))%nat -> covers s (rslot_at s j, sz) i = (j <=? i)%nat && (i <? j + region_slots sz)%nat.
Proof.
  intros H0 Hle. destruct (region_slots_pos sz H0) as [Hn _]. unfold covers, rslot_at. cbn [fst snd]. rewrite slot_val in *. pose proof (Z.div_mod (sz - 1) 262144 ltac:(lia)). pose proof (Z.mod_pos_bound (sz - 1) 262144 ltac:(lia)). pose proof (Z.div_pos (sz - 1) 262144 ltac:(lia) ltac:(lia)).
  destruct (Nat.leb_spec j i), (Nat.ltb_spec i (j + region_slots sz)), (Nat.ltb_spec i (rslots (sl_cf s))); lia.
Qed.

(** A region of the reservation is no block's. *)
Lemma zone_no_lodger s nh nr b r : geom s nh nr -> (reserved s = true -> apart b.1 b.2 (hbase (sl_cf s)) (hsize (sl_cf s)) = true) -> 0 < r.2 -> zone_region s r -> in_block b r = false.
Proof.
  intros G Hb H0 (j & Hr & Hj & Hres). specialize (Hb Hres). apply apart_spec in Hb. unfold in_block. apply andb_false_iff. rewrite !Z.leb_gt. rewrite Hr. destruct (region_slots_pos r.2 H0) as [_ Hp]. destruct (res_slot s nh nr j G ltac:(lia)) as (_ & _ & _ & A1 & A2). rewrite slot_val in *. lia.
Qed.

Definition zfreed (s : slots) (i : nat) : slots :=
  vadd A_zregions_retired 1 (vadd A_regions_bytes (- PCACHE_SLOT) (vadd A_nzfree_warm 1 (set_zfree (<[i := sl_v s A_tick]> (sl_zfree_at s)) (bset ZWARM i s)))).

(** The rest of a region when its first slot has gone. *)
Definition rest_of (s : slots) (i : nat) (sz : Z) : list (Z * Z) := if decide (region_slots sz = 1%nat) then [] else [(rslot_at s (S i), sz - PCACHE_SLOT)].

Lemma rest_slots sz : 0 < sz -> region_slots sz <> 1%nat -> 0 < sz - PCACHE_SLOT /\ region_slots (sz - PCACHE_SLOT) = Nat.pred (region_slots sz).
Proof.
  intros H0 Hn. destruct (region_slots_pos sz H0) as [H1 H2]. rewrite slot_val in *. assert (262144 < sz) as Hbig.
  { destruct (Z.lt_ge_cases 262144 sz) as [?|Hle]; [done|]. exfalso. apply Hn. rewrite H1, Z.div_small by lia. done. }
  split; [lia|]. destruct (region_slots_pos (sz - 262144) ltac:(lia)) as [H3 _]. rewrite slot_val in H3. rewrite H3, H1. replace (sz - 1) with (sz - 262144 - 1 + 1 * 262144) by lia. rewrite Z.div_add by lia. pose proof (Z.div_pos (sz - 262144 - 1) 262144 ltac:(lia) ltac:(lia)). lia.
Qed.

Lemma owners_rest s i sz rg j : 0 < sz -> (i + region_slots sz <= rslots (sl_cf s))%nat -> owners s (rest_of s i sz ++ rg) j = (owners s ((rslot_at s i, sz) :: rg) j - (if decide (j = i) then 1 else 0))%nat.
Proof.
  intros H0 HN. destruct (region_slots_pos sz H0) as [_ Hp]. rewrite owners_cons, covers_at by done. unfold rest_of. destruct (decide (region_slots sz = 1%nat)) as [->|Hn].
  - cbn [app]. destruct (decide (j = i)) as [->|Hj]; [rewrite Nat.leb_refl, (proj2 (Nat.ltb_lt i (i + 1))) by lia; cbn; lia|]. destruct (Nat.leb_spec i j), (Nat.ltb_spec j (i + 1)); cbn; lia.
  - cbn [app]. destruct (rest_slots sz H0 Hn) as [Hr0 Hr]. rewrite owners_cons, covers_at, Hr by (done || lia). destruct (decide (j = i)) as [->|Hj].
    + rewrite Nat.leb_refl, (proj2 (Nat.ltb_lt i (i + region_slots sz))), (proj2 (Nat.leb_gt (S i) i)) by lia. cbn. lia.
    + destruct (Nat.leb_spec i j), (Nat.leb_spec (S i) j), (Nat.ltb_spec j (i + region_slots sz)), (Nat.ltb_spec j (S i + Nat.pred (region_slots sz))); cbn; lia.
Qed.

Lemma in_zone_spec s nr i : in_zone s nr i = true <-> (nr <= i < rslots (sl_cf s))%nat.
Proof. unfold in_zone. rewrite andb_true_iff, Nat.leb_le, Nat.ltb_lt. done. Qed.

(** A slot of an outstanding region is in the zone and nobody else's. *)
Lemma owned_slot s rg nh nr i : geom s nh nr -> res_ok s nh nr rg -> (0 < owners s rg i)%nat ->
  in_zone s nr i = true /\ bget ZWARM i s = false /\ bget ZCOLD i s = false /\ flying true s i = false /\ owners s rg i = 1%nat.
Proof.
  intros G R Ho. pose proof (re_zone _ _ _ _ R i) as Z. unfold zone_pt in Z. destruct (in_zone s nr i), (bget ZWARM i s), (bget ZCOLD i s), (flying true s i); cbn in Z; lia || (split_and!; try done; lia).
Qed.

Lemma regions_rest s s' nh nr i sz rg : geom s nh nr -> regions_ok s ((rslot_at s i, sz) :: rg) -> zone_region s (rslot_at s i, sz) -> sl_cf s' = sl_cf s -> sl_pages s' = sl_pages s -> sl_regions s' = sl_regions s -> regions_ok s' (rest_of s i sz ++ rg).
Proof.
  intros G K Hz Hc Hp Hr. apply (regions_same s); try done. destruct K as [K1 K2 K3 K4]. pose proof (proj1 (K1 _ (list_elem_of_here _ _))) as H0. cbn in H0.
  assert (forall r, r ∈ rest_of s i sz -> 0 < r.2 /\ zone_region s r) as Hrest.
  { unfold rest_of. destruct (decide _) as [|Hn]; intros r; [by intros ?%not_elem_of_nil|]. intros ->%list_elem_of_singleton. destruct (rest_slots sz H0 Hn) as [H1 H2]. split; [done|]. destruct Hz as (j & Hj & Hle & Hre). cbn in Hj. apply rslot_inj in Hj as <-. exists (S i). cbn [fst snd] in *. split_and!; try done. pose proof (region_slots_pos sz H0). lia. }
  split; try done.
  - intros r [Hin|Hin]%elem_of_app; [destruct (Hrest r Hin); split; [done|by left]|]. apply K1. by apply list_elem_of_further.
  - intros b Hb. pose proof (K4 b Hb) as Hl. rewrite lodgers_cons in Hl. unfold lodgers in *. rewrite filter_app, length_app. assert (filter (fun r => in_block b r = true) (rest_of s i sz) = []) as ->; [|cbn; lia].
    destruct (K2 b Hb) as (_ & _ & Ha & _). unfold rest_of in *. destruct (decide (region_slots sz = 1%nat)); [done|]. rewrite filter_cons_False; [done|]. destruct (Hrest _ (list_elem_of_here _ _)) as [R1 R2]. rewrite (zone_no_lodger s nh nr b _ G Ha R1 R2). done.
Qed.

Lemma zone_bound s i sz : zone_region s (rslot_at s i, sz) -> (i + region_slots sz <= rslots (sl_cf s))%nat.
Proof. intros (j & Hj & Hle & _). cbn in Hj. apply rslot_inj in Hj as <-. exact Hle. Qed.

Lemma zfreed_ok s rg nh nr i sz : slots_ok (s, (rslot_at s i, sz) :: rg) nh nr -> zone_region s (rslot_at s i, sz) -> slots_ok (zfreed s i, rest_of s i sz ++ rg) nh nr.
Proof.
  intros Hok Hz. pose proof (zone_bound s i sz Hz) as HNs. pose proof Hok as [G R P K M T]. cbn [fst snd] in *. pose proof (proj1 (rk_each _ _ K _ (list_elem_of_here _ _))) as H0. cbn in H0. destruct (region_slots_pos sz H0) as [_ Hp].
  assert (0 < owners s ((rslot_at s i, sz) :: rg) i)%nat as Ho by (rewrite owners_cons, covers_at, Nat.leb_refl, (proj2 (Nat.ltb_lt i (i + region_slots sz))) by (done || lia); cbn; lia). destruct (owned_slot s _ nh nr i G R Ho) as (Hin & Hw & Hc & Hfl & Ho1).
  assert (i < rslots (sl_cf s))%nat as HN by (apply in_zone_spec in Hin; lia). assert (forall b j, bget b j (zfreed s i) = if decide (b = ZWARM /\ j = i) then true else bget b j s) as Hb by (intros b j; exact (bget_bset s nh nr ZWARM i b j G ltac:(done) HN)).
  apply (moves_ok s _ nh nr nh nr ((rslot_at s i, sz) :: rg) _ i (fun x => match x with A_zregions_retired => 1 | A_nzfree_warm => 1 | A_regions_bytes => - PCACHE_SLOT | _ => 0 end) Hok). split; try done.
  - by apply (geom_same (bset ZWARM i s)); [apply geom_bset|..].
  - intros b j Hj _. rewrite Hb. by rewrite decide_False by tauto.
  - intros j Hj. split_and!; try done. rewrite owners_rest, decide_False by done. lia.
  - by left.
  - rewrite !Hb, !decide_False by (intros [? ?]; done). apply (re_chunk _ _ _ _ R).
  - rewrite !Hb, decide_True, decide_False by (done || (intros [? ?]; done)). rewrite owners_rest, decide_True, Ho1, Hin, Hc, Hfl by done. done.
  - by apply (regions_rest s _ nh nr).
  - v_tac.
  - apply (move_meter s _ nh nr nh nr _ (fun b => d1 b ZWARM)); try done; [|intros []; unfold d1; rewrite ?Z.sub_diag; reflexivity]. intros b _. exact (on_bset s nh nr ZWARM i b G ltac:(done) HN Hw).
  - tail_tac.
  - apply (ta_hull _ _ _ T).
Qed.

Lemma free_slot_eq s n i nr : bget ZWARM i s = false -> bget ZCOLD i s = false -> in_zone s nr i = true -> free_slot (s, n) i = (zfreed s i, n + PCACHE_SLOT).
Proof. intros H1 H2 H3. unfold free_slot. assert ((rslots (sl_cf s) <=? i)%nat = false) as -> by (apply in_zone_spec in H3; apply Nat.leb_gt; lia). by rewrite H1, H2. Qed.

Lemma free_slots_ok k : forall s rg nh nr i sz n, slots_ok (s, (rslot_at s i, sz) :: rg) nh nr -> zone_region s (rslot_at s i, sz) -> region_slots sz = k ->
  slots_ok ((foldl free_slot (s, n) (seq i k)).1, rg) nh nr /\ (foldl free_slot (s, n) (seq i k)).2 = n + Z.of_nat k * PCACHE_SLOT /\ sl_hdr (foldl free_slot (s, n) (seq i k)).1 = sl_hdr s.
Proof.
  induction k as [|k IH]; intros s rg nh nr i sz n Hok Hz Hk; pose proof (zone_bound s i sz Hz) as HNs; pose proof Hok as [G R P K M T]; cbn [fst snd] in *; pose proof (proj1 (rk_each _ _ K _ (list_elem_of_here _ _))) as H0; cbn in H0; destruct (region_slots_pos sz H0) as [_ Hp]; [lia|].
  assert (0 < owners s ((rslot_at s i, sz) :: rg) i)%nat as Ho by (rewrite owners_cons, covers_at, Nat.leb_refl, (proj2 (Nat.ltb_lt i (i + region_slots sz))) by (done || lia); cbn; lia). destruct (owned_slot s _ nh nr i G R Ho) as (Hin & Hw & Hc & _).
  pose proof (zfreed_ok s rg nh nr i sz Hok Hz) as H1. cbn [seq foldl]. rewrite (free_slot_eq s n i nr Hw Hc Hin). unfold rest_of in H1. destruct (decide (region_slots sz = 1%nat)) as [He|Hn].
  - assert (k = 0)%nat as -> by lia. cbn [seq foldl fst snd app] in *. split_and!; [done|lia|done].
  - destruct (rest_slots sz H0 Hn) as [R1 R2]. destruct (IH (zfreed s i) rg nh nr (S i) (sz - PCACHE_SLOT) (n + PCACHE_SLOT) H1) as (I1 & I2 & I3); [|lia|split_and!; [done|rewrite I2; lia|exact I3]].
    destruct Hz as (j & Hj & Hle & Hre). cbn in Hj. apply rslot_inj in Hj as <-. exists (S i). cbn [fst snd] in *. split_and!; try done. change (sl_cf (zfreed s i)) with (sl_cf s). lia.
Qed.

(** The frontier goes up over a free slot of the zone, [b] the map it is on. *)
Definition raised (b : bm) (i : nat) (s : slots) : slots :=
  match b with
  | ZWARM => vadd A_rtop PCACHE_SLOT (vadd A_bytes (- PCACHE_SLOT) (vadd A_nzfree_warm (-1) (bclr ZWARM i s)))
  | _ => vadd A_rtop PCACHE_SLOT (vadd A_cold_bytes (- PCACHE_SLOT) (vadd A_nzfree_cold (-1) (bclr ZCOLD i s)))
  end.

Lemma zone_bit s rg nh nr i b : geom s nh nr -> res_ok s nh nr rg -> b = ZWARM \/ b = ZCOLD -> bget b i s = true ->
  (nr <= i < rslots (sl_cf s))%nat /\ (forall b', b' = ZWARM \/ b' = ZCOLD -> b' <> b -> bget b' i s = false) /\ flying true s i = false /\ owners s rg i = 0%nat.
Proof.
  intros G R Hb Hi. pose proof (re_zone _ _ _ _ R i) as Z. unfold zone_pt in Z. rewrite <- in_zone_spec. destruct Hb as [-> | ->]; rewrite Hi in Z.
  - destruct (in_zone s nr i), (bget ZCOLD i s) eqn:Hc, (flying true s i); cbn in Z; try lia. split_and!; try done; [by intros b' [-> | ->] Hn|lia].
  - destruct (in_zone s nr i), (bget ZWARM i s) eqn:Hc, (flying true s i); cbn in Z; try lia. split_and!; try done; [by intros b' [-> | ->] Hn|lia].
Qed.

Lemma d1_same b : d1 b b = 1.
Proof. unfold d1. by rewrite decide_True. Qed.

Lemma raised_ok s rg nh nr b : slots_ok (s, rg) nh nr -> b = ZWARM \/ b = ZCOLD -> bget b nr s = true -> slots_ok (raised b nr s, rg) nh (S nr).
Proof.
  intros Hok Hb Hi. pose proof Hok as [G R P K M T]. cbn [fst snd] in *. destruct (zone_bit s rg nh nr nr b G R Hb Hi) as (Hr & Hoth & Hfl & Ho). assert (b <> HCOMMIT) as Hnh by (by destruct Hb as [-> | ->]). pose proof (ge_base _ _ _ G) as (B1 & _ & B3).
  assert (forall b' j, bget b' j (raised b nr s) = if decide (b' = b /\ j = nr) then false else bget b' j s) as Hbit by (intros b' j; destruct Hb as [-> | ->]; exact (bget_bclr s nh nr _ nr b' j G ltac:(done) (proj2 Hr))).
  set (d := fun x => match x with A_rtop => PCACHE_SLOT | A_bytes => (match b with ZWARM => - PCACHE_SLOT | _ => 0 end) | A_cold_bytes => (match b with ZWARM => 0 | _ => - PCACHE_SLOT end) | A_nzfree_warm => (match b with ZWARM => -1 | _ => 0 end) | A_nzfree_cold => (match b with ZWARM => 0 | _ => -1 end) | _ => 0 end).
  apply (moves_ok s _ nh nr nh (S nr) rg rg nr d Hok). split; try done; try (by destruct Hb as [-> | ->]).
  - assert (geom (bclr b nr s) nh nr) as G1 by (apply geom_bclr; [done|lia|done]). destruct G1 as [G1 G2 G3 G4 G5 G6]. cbn in G1, G2, G3.
    assert (u64 (sl_v s A_rtop + PCACHE_SLOT) = Z.of_nat (S nr) * PCACHE_SLOT) as Hu by (rewrite G2; unfold hsize in B3; rewrite slot_val in *; rewrite wrap_small; lia).
    destruct Hb as [-> | ->]; (split; first [exact Hu | done | cbn; lia]).
  - intros b' j Hj _. rewrite Hbit. by rewrite decide_False by tauto.
  - intros j Hj. split_and!; try done. apply eq_bool_prop_intro. split; intros Hq%Is_true_true; apply Is_true_true; rewrite in_zone_spec in *; lia.
  - left. by destruct Hb as [-> | ->].
  - rewrite !Hbit, !decide_False by (intros [? ?]; destruct Hb as [-> | ->]; done). assert (sl_hdr (raised b nr s) = sl_hdr s) as -> by (by destruct Hb as [-> | ->]). apply (re_chunk _ _ _ _ R).
  - rewrite Hfl, Ho. assert (in_zone s (S nr) nr = false) as -> by (unfold in_zone; rewrite (proj2 (Nat.leb_gt (S nr) nr)) by lia; done). rewrite !Hbit. destruct Hb as [-> | ->].
    + rewrite decide_True, decide_False, (Hoth ZCOLD) by (try done; try (by right); intros [? ?]; done). done.
    + rewrite decide_False, decide_True, (Hoth ZWARM) by (try done; try (by left); intros [? ?]; done). done.
  - by apply (regions_same s); destruct Hb as [-> | ->].
  - destruct Hb as [-> | ->]; v_tac.
  - apply (move_meter s _ nh nr nh (S nr) _ (fun b' => - d1 b' b)); try (by destruct Hb as [-> | ->]).
    + intros b' _. destruct Hb as [-> | ->]; [pose proof (on_bclr s nh nr ZWARM nr b' G ltac:(done) (proj2 Hr) Hi) as Hon|pose proof (on_bclr s nh nr ZCOLD nr b' G ltac:(done) (proj2 Hr) Hi) as Hon]; unfold Z.sub in Hon; exact Hon.
    + intros x. unfold d. destruct Hb as [-> | ->]; destruct x; unfold d1; rewrite ?Z.sub_diag; try reflexivity; replace (Z.of_nat nr - Z.of_nat (S nr)) with (-1) by lia; reflexivity.
  - destruct Hb as [-> | ->]; tail_tac.
  - intros Hf. destruct (ta_hull _ _ _ T Hf). rewrite slot_val in *. split; lia.
Qed.

Lemma rtop_slot s nh nr : geom s nh nr -> Z.to_nat (Z.shiftr (sl_v s A_rtop) 18) = nr.
Proof. intros G. rewrite (ge_rtop _ _ _ G), Z.shiftr_div_pow2 by lia. change (2 ^ 18) with 262144. rewrite slot_val, Z.div_mul by lia. lia. Qed.

Lemma raise_loop_ok fuel : forall s rg nh nr n, slots_ok (s, rg) nh nr -> exists nr', slots_ok ((raise_loop fuel n s).1, rg) nh nr' /\ sl_hdr (raise_loop fuel n s).1 = sl_hdr s.
Proof.
  induction fuel as [|fuel IH]; intros s rg nh nr n Hok; [by exists nr|]. cbn [raise_loop]. pose proof (so_geom _ _ _ Hok) as G. cbn [fst] in G. rewrite (rtop_slot s nh nr G). destruct (negb _); [by exists nr|]. destruct (_ <=? _)%nat; [by exists nr|].
  destruct (bget ZWARM nr s) eqn:Hw; [|destruct (bget ZCOLD nr s) eqn:Hc; [|by exists nr]].
  - destruct (IH _ rg nh (S nr) (n + 1) (raised_ok s rg nh nr ZWARM Hok ltac:(by left) Hw)) as (nr' & H1 & H2). exists nr'. split; [exact H1|]. etransitivity; [exact H2|done].
  - destruct (IH _ rg nh (S nr) (n + 1) (raised_ok s rg nh nr ZCOLD Hok ltac:(by right) Hc)) as (nr' & H1 & H2). exists nr'. split; [exact H1|]. etransitivity; [exact H2|done].
Qed.

Lemma tail_next_ok s rg nh nr n : slots_ok (s, rg) nh nr -> 0 <= n < 2 ^ 64 -> n mod PCACHE_HPS = 0 -> slots_ok (vset A_tail_next n s, rg) nh nr.
Proof.
  intros [G R P K M T] Hn Hm. split; try done; cbn [fst snd] in *.
  - by apply (geom_same s).
  - destruct R. by split.
  - destruct P as [P1 P2 P3]. split; try done. intros p Hp. destruct (P1 p Hp). by split.
  - destruct K. by split.
  - intros x m Hx. pose proof (M x m Hx) as Hq. destruct x; try discriminate; exact Hq.
  - destruct T as [T1 T2 T3 T4]. split; try done. change (0 <= u64 n < 2 ^ 64 /\ u64 n mod PCACHE_HPS = 0). rewrite (wrap_small n Hn). split; [lia|done].
Qed.

Lemma rtop_range s nh nr : geom s nh nr -> 0 <= sl_v s A_rtop < 2 ^ 63 /\ 0 <= sl_v s A_hoff <= sl_v s A_rtop.
Proof. intros G. pose proof (ge_base _ _ _ G) as (B1 & _ & B3). pose proof (ge_le _ _ _ G). rewrite (ge_rtop _ _ _ G), (ge_hoff _ _ _ G). unfold hsize in B3. rewrite slot_val in *. lia. Qed.

Lemma hps_val : PCACHE_HPS = 2097152.
Proof. reflexivity. Qed.

Lemma floor_hps n : 0 <= n -> 0 <= n / PCACHE_HPS * PCACHE_HPS <= n /\ (n / PCACHE_HPS * PCACHE_HPS) mod PCACHE_HPS = 0.
Proof. intros H. rewrite hps_val. pose proof (Z.div_mod n 2097152 ltac:(lia)). pose proof (Z.mod_pos_bound n 2097152 ltac:(lia)). pose proof (Z.div_pos n 2097152 H ltac:(lia)). split; [lia|]. by rewrite Z.mod_mul. Qed.

Lemma zone_raise_ok s rg nh nr : slots_ok (s, rg) nh nr -> exists nr', slots_ok (zone_raise_locked s, rg) nh nr' /\ sl_hdr (zone_raise_locked s) = sl_hdr s.
Proof.
  intros Hok. unfold zone_raise_locked. destruct (negb (reserved s)); [by exists nr|]. destruct (raise_loop_ok (S (rslots (sl_cf s))) s rg nh nr 0 Hok) as (nr' & H1 & H2). destruct (raise_loop _ 0 s) as [s1 n]. cbn [fst] in *. exists nr'. destruct (n =? 0); [done|].
  set (s2 := vadd A_zregions_raised n s1). assert (slots_ok (s2, rg) nh nr') as H3 by (eapply alike_ok; [apply alike_vadd; done|exact H1]). pose proof (so_geom _ _ _ Hok) as G. cbn [fst] in G. destruct (rtop_range s nh nr G) as [Hr _]. destruct (floor_hps (sl_v s A_rtop) ltac:(lia)) as [F1 F2].
  split; [|by destruct (_ >? _)]. eapply alike_ok; [apply alike_vset; done|]. destruct (_ >? _); [|exact H3]. apply tail_next_ok; [exact H3|lia|done].
Qed.

(** A region of a block covers no slot of the reservation. *)
Lemma block_covers s nh nr b r i : geom s nh nr -> (reserved s = true -> apart b.1 b.2 (hbase (sl_cf s)) (hsize (sl_cf s)) = true) -> in_block b r = true -> covers s r i = false.
Proof.
  intros G Hb Hin. unfold covers. destruct (Nat.ltb_spec i (rslots (sl_cf s))) as [Hi|]; [|done]. destruct (res_slot s nh nr i G Hi) as (Hr & _ & _ & A1 & A2). specialize (Hb Hr). apply apart_spec in Hb. unfold in_block in Hin. apply andb_prop in Hin as [I1 I2]. rewrite slot_val in *.
  apply andb_false_iff. rewrite Z.ltb_ge. destruct (r.1 <=? rslot_at s i) eqn:Hq; [right; lia|by left].
Qed.

Lemma forget_block s rg nh nr b r : slots_ok (s, r :: rg) nh nr -> b ∈ sl_regions s -> in_block b r = true -> slots_ok (s, rg) nh nr.
Proof.
  intros [G R P K M T] Hb Hin. split; try done; cbn [fst snd] in *.
  - destruct R as [R1 R2 R3]. split; try done. intros i. specialize (R2 i). rewrite owners_cons in R2. destruct (rk_blocks _ _ K b Hb) as (_ & _ & Ha & _). by rewrite (block_covers s nh nr b r i G Ha Hin) in R2.
  - destruct K as [K1 K2 K3 K4]. split; try done; [intros q Hq; apply K1; by apply list_elem_of_further|]. intros c Hc. specialize (K4 c Hc). rewrite lodgers_cons in K4. lia.
Qed.

Lemma region_free_ok s rg nh nr p size : slots_ok (s, (p, size) :: rg) nh nr ->
  exists nr', slots_ok ((pcache_region_free p size s).1, rg) nh nr' /\ sl_hdr (pcache_region_free p size s).1 = sl_hdr s /\
  (zone_region s (p, size) -> (pcache_region_free p size s).2 = Z.of_nat (region_slots size) * PCACHE_SLOT).
Proof.
  intros Hok. pose proof Hok as [G R P K M T]. cbn [fst snd] in *. destruct (rk_each _ _ K _ (list_elem_of_here _ _)) as [H0 Hreg]. cbn in H0.
  assert (zone_region s (p, size) \/ (~ zone_region s (p, size) /\ exists b, b ∈ sl_regions s /\ in_block b (p, size) = true)) as [Hz|(Hnz & b & Hb & Hin)].
  { destruct Hreg as [?|(b & Hb & Hin)]; [by left|]. right. split; [|by exists b]. intros Hz. destruct (rk_blocks _ _ K b Hb) as (_ & _ & Ha & _). rewrite (zone_no_lodger s nh nr b (p, size) G Ha H0 Hz) in Hin. done. }
  - destruct Hz as (j & Hj & Hle & Hre). cbn [fst snd] in *. subst p. pose proof (region_slots_pos size H0) as [_ Hp]. assert (0 < owners s ((rslot_at s j, size) :: rg) j)%nat as Ho by (rewrite owners_cons, covers_at, Nat.leb_refl, (proj2 (Nat.ltb_lt j (j + region_slots size))) by (done || lia); cbn; lia).
    destruct (owned_slot s _ nh nr j G R Ho) as (Hin & _). apply in_zone_spec in Hin. destruct (res_slot s nh nr j G ltac:(lia)) as (_ & _ & _ & A1 & A2). unfold pcache_region_free. rewrite Hre. cbn [negb orb].
    assert ((rslot_at s j <? hbase (sl_cf s) + sl_v s A_rtop) || (hbase (sl_cf s) + hsize (sl_cf s) <=? rslot_at s j) = false) as -> by (apply orb_false_iff; rewrite Z.ltb_ge, Z.leb_gt, (ge_rtop _ _ _ G); unfold rslot_at in *; rewrite slot_val in *; lia).
    pose proof (rslot_idx_at s j : Z.to_nat (Z.shiftr (rslot_at s j - hbase (sl_cf s)) 18) = j) as ->. destruct (free_slots_ok (region_slots size) s rg nh nr j size 0 Hok ltac:(by exists j) eq_refl) as (F1 & F2 & F3). destruct (foldl free_slot (s, 0) _) as [s1 n]. cbn [fst snd] in *.
    destruct (zone_raise_ok s1 rg nh nr F1) as (nr' & Z1 & Z2). exists nr'. split_and!; [done|congruence|intros _; lia].
  - exists nr. assert (pcache_region_free p size s = (s, 0)) as ->; [|split_and!; [by eapply forget_block|done|done]]. unfold pcache_region_free. destruct (reserved s) eqn:Hre; [|done]. cbn [negb orb]. destruct (rk_blocks _ _ K b Hb) as (_ & _ & Ha & _). specialize (Ha Hre). apply apart_spec in Ha. unfold in_block in Hin. cbn [fst snd] in Hin. destruct (rtop_range s nh nr G) as [Hr _].
    assert ((p <? hbase (sl_cf s) + sl_v s A_rtop) || (hbase (sl_cf s) + hsize (sl_cf s) <=? p) = true) as ->; [|done]. apply orb_true_iff. lia.
Qed.

(** * Taking a region *)

(** A region given out: in a state that holds it, none of it in use before. *)
Definition gave (s : slots) (rg : list (Z * Z)) (nh : nat) (size : Z) (r : slots * option Z) : Prop :=
  sl_hdr r.1 = sl_hdr s /\ exists nr, slots_ok (r.1, match r.2 with Some p => (p, size) :: rg | None => rg end) nh nr.

Lemma gave_after s s1 rg nh size r : sl_hdr s1 = sl_hdr s -> gave s1 rg nh size r -> gave s rg nh size r.
Proof. intros Hh [H1 H2]. split; [congruence|done]. Qed.

Lemma zwarm_slot_ok s rg nh nr i : slots_ok (s, rg) nh nr -> slots_ok (zwarm_slot s i, rg) nh nr /\ sl_hdr (zwarm_slot s i) = sl_hdr s /\ (forall j, bget ZWARM j s = true \/ (j = i /\ bget ZCOLD j s = true) -> bget ZWARM j (zwarm_slot s i) = true) /\
  forall j, j <> i -> bget ZCOLD j (zwarm_slot s i) = bget ZCOLD j s.
Proof.
  intros Hok. unfold zwarm_slot. destruct (bget ZCOLD i s) eqn:Hi; cbn [negb]; [|split_and!; try done; intros j [?|[-> ?]]; [done|congruence]]. pose proof Hok as [G R P K M T]. cbn [fst snd] in *. destruct (zone_bit s rg nh nr i ZCOLD G R ltac:(by right) Hi) as ([Hr HN] & Hoth & Hfl & Ho). pose proof (Hoth ZWARM ltac:(by left) ltac:(done)) as Hw.
  match goal with |- slots_ok (?x, _) _ _ /\ _ => set (s' := x) end. set (s1 := bclr ZCOLD i s). assert (geom s1 nh nr) as G1 by (by apply geom_bclr).
  assert (bget ZWARM i s1 = false) as Hw1 by (unfold s1; rewrite (bget_bclr s nh nr) by done; rewrite decide_False by (intros [? ?]; done); done).
  assert (forall b j, bget b j s' = if decide (b = ZWARM /\ j = i) then true else if decide (b = ZCOLD /\ j = i) then false else bget b j s) as Hb.
  { intros b j. change (bget b j s') with (bget b j (bset ZWARM i s1)). rewrite (bget_bset s1 nh nr) by done. unfold s1. by rewrite (bget_bclr s nh nr) by done. }
  split_and!; try done.
  - apply (moves_ok s _ nh nr nh nr rg rg i (fun x => match x with A_nzfree_warm => 1 | A_nzfree_cold => -1 | A_bytes => PCACHE_SLOT | A_cold_bytes => - PCACHE_SLOT | _ => 0 end) Hok). split; try done.
    + by apply (geom_same (bset ZWARM i s1)); [apply geom_bset|..].
    + intros b j Hj _. rewrite Hb. by rewrite !decide_False by tauto.
    + by left.
    + rewrite !Hb, !decide_False by (intros [? ?]; done). apply (re_chunk _ _ _ _ R).
    + rewrite !Hb. rewrite (decide_True (P := ZWARM = ZWARM /\ i = i)), (decide_False (P := ZCOLD = ZWARM /\ i = i)), (decide_True (P := ZCOLD = ZCOLD /\ i = i)) by (done || (intros [? ?]; done)). rewrite Hfl, Ho, (proj2 (in_zone_spec s nr i)) by done. done.
    + by apply (regions_same s).
    + v_tac.
    + apply (move_meter s _ nh nr nh nr _ (fun b => d1 b ZWARM - d1 b ZCOLD)); try done; [|intros []; unfold d1; rewrite ?Z.sub_diag; reflexivity]. intros b Hbb. change (on b s') with (on b (bset ZWARM i s1)). rewrite (on_bset s1 nh nr) by done. unfold s1. rewrite (on_bclr s nh nr) by done. lia.
    + tail_tac.
    + apply (ta_hull _ _ _ T).
  - intros j Hj. rewrite Hb. destruct (decide (ZWARM = ZWARM /\ j = i)) as [|Hn]; [done|]. rewrite decide_False by (intros [? ?]; done). destruct Hj as [?|[-> _]]; [done|tauto].
  - intros j Hj. rewrite Hb. by rewrite !decide_False by tauto.
Qed.

Lemma zwarm_slots_ok l : forall s rg nh nr, slots_ok (s, rg) nh nr -> slots_ok (foldl zwarm_slot s l, rg) nh nr /\ sl_hdr (foldl zwarm_slot s l) = sl_hdr s /\
  forall j, bget ZWARM j s = true \/ (j ∈ l /\ bget ZCOLD j s = true) -> bget ZWARM j (foldl zwarm_slot s l) = true.
Proof.
  induction l as [|i l IH]; intros s rg nh nr Hok; [split_and!; try done; intros j [?|[Hj _]]; [done|by apply not_elem_of_nil in Hj]|]. cbn [foldl]. destruct (zwarm_slot_ok s rg nh nr i Hok) as (H1 & H2 & H3 & H4). destruct (IH _ _ _ _ H1) as (I1 & I2 & I3). split_and!; [done|congruence|].
  intros j Hj. apply I3. destruct Hj as [Hj|[Hin Hj]]; [left; apply H3; by left|]. destruct (decide (j = i)) as [->|Hn]; [left; apply H3; by right|]. right. split; [apply elem_of_cons in Hin; tauto|]. by rewrite H4.
Qed.

Definition reused (s : slots) (i : nat) : slots := vadd A_zregion_reuse 1 (vadd A_regions_bytes PCACHE_SLOT (vadd A_nzfree_warm (-1) (bclr ZWARM i s))).

(** A region of the zone joins the outstanding ones. *)
Lemma regions_zone s s' nh nr r rg : geom s nh nr -> regions_ok s rg -> 0 < r.2 -> zone_region s r -> sl_cf s' = sl_cf s -> sl_pages s' = sl_pages s -> sl_regions s' = sl_regions s -> regions_ok s' (r :: rg).
Proof.
  intros G K H0 Hz Hc Hp Hr. apply (regions_same s); try done. destruct K as [K1 K2 K3 K4]. split; try done.
  - intros q [->|Hq]%elem_of_cons; [split; [done|by left]|by apply K1].
  - intros b Hb. rewrite lodgers_cons. destruct (K2 b Hb) as (_ & _ & Ha & _). rewrite (zone_no_lodger s nh nr b r G Ha H0 Hz). by apply K4.
Qed.

Lemma reused_ok s rg nh nr i size : slots_ok (s, rg) nh nr -> 0 < size -> region_slots size = 1%nat -> bget ZWARM i s = true -> slots_ok (reused s i, (rslot_at s i, size) :: rg) nh nr.
Proof.
  intros Hok H0 H1 Hi. pose proof Hok as [G R P K M T]. cbn [fst snd] in *. destruct (zone_bit s rg nh nr i ZWARM G R ltac:(by left) Hi) as ([Hr HN] & Hoth & Hfl & Ho). pose proof (Hoth ZCOLD ltac:(by right) ltac:(done)) as Hc.
  assert (forall b j, bget b j (reused s i) = if decide (b = ZWARM /\ j = i) then false else bget b j s) as Hb by (intros b j; exact (bget_bclr s nh nr ZWARM i b j G ltac:(done) HN)). destruct (res_slot s nh nr i G HN) as (Hres & _).
  apply (moves_ok s _ nh nr nh nr rg _ i (fun x => match x with A_zregion_reuse => 1 | A_nzfree_warm => -1 | A_regions_bytes => PCACHE_SLOT | _ => 0 end) Hok). split; try done.
  - by apply (geom_same (bclr ZWARM i s)); [apply geom_bclr|..].
  - intros b j Hj _. rewrite Hb. by rewrite decide_False by tauto.
  - intros j Hj. split_and!; try done. rewrite owners_cons, covers_at, H1 by (done || lia). destruct (Nat.leb_spec i j), (Nat.ltb_spec j (i + 1)); cbn; lia.
  - by left.
  - rewrite !Hb, !decide_False by (intros [? ?]; done). apply (re_chunk _ _ _ _ R).
  - rewrite !Hb, decide_True, decide_False by (done || (intros [? ?]; done)). rewrite owners_cons, covers_at, H1, Nat.leb_refl, (proj2 (Nat.ltb_lt i (i + 1))), Ho, Hc, Hfl, (proj2 (in_zone_spec s nr i)) by (done || lia). done.
  - apply (regions_zone s _ nh nr); try done. exists i. cbn [fst snd]. split_and!; [done|lia|done].
  - v_tac.
  - apply (move_meter s _ nh nr nh nr _ (fun b => - d1 b ZWARM)); try done; [|intros []; unfold d1; rewrite ?Z.sub_diag; reflexivity]. intros b _. pose proof (on_bclr s nh nr ZWARM i b G ltac:(done) HN Hi) as Hon. unfold Z.sub in Hon. exact Hon.
  - tail_tac.
  - apply (ta_hull _ _ _ T).
Qed.

Lemma region_reuse_ok e s rg nh nr size : slots_ok (s, rg) nh nr -> 0 < size -> region_slots size = 1%nat -> gave s rg nh size (region_reuse e s).
Proof.
  intros Hok H0 H1. pose proof (so_geom _ _ _ Hok) as G. cbn [fst] in G. unfold region_reuse. destruct (bfirst ZWARM s) as [i|] eqn:Hw.
  - apply (bit_first_some _ _ _ (ge_maps _ _ _ G ZWARM ltac:(done))) in Hw. split; [done|]. exists nr. by apply reused_ok.
  - destruct (bfirst ZCOLD s) as [i|] eqn:Hc; [|split; [done|by exists nr]]. apply (bit_first_some _ _ _ (ge_maps _ _ _ G ZCOLD ltac:(done))) in Hc. unfold zgroup_recommit. pose proof (group_commit_alike e (i / PCACHE_GROUP_SLOTS) s) as A. destruct (group_commit e _ s) as [s1 ok]. cbn [fst] in A. pose proof (alike_ok _ _ _ _ _ A Hok) as Hok1. destruct ok; cbn [negb].
    + destruct (zwarm_slots_ok (group_slots (i / PCACHE_GROUP_SLOTS)) s1 rg nh nr Hok1) as (Z1 & Z2 & Z3). apply (gave_after s (foldl zwarm_slot s1 (group_slots (i / PCACHE_GROUP_SLOTS)))); [rewrite Z2; apply (al_hdr _ _ A)|]. split; [done|]. exists nr. apply reused_ok; try done. apply Z3. right. split; [apply group_of|]. rewrite (alike_bget s s1) by done. exact Hc.
    + split; [apply (al_hdr _ _ A)|by exists nr].
Qed.

(** Slots off the region frontier. *)
Definition lowered (s : slots) (top need : Z) : slots := vadd A_regions_bytes need (vadd A_bytes need (vset A_rtop (top - need) s)).

Lemma lowered_ok s rg nh nr n size : slots_ok (s, rg) nh nr -> 0 < size -> region_slots size = n -> (nh + n <= nr)%nat -> reserved s = true ->
  tail_inflight (Z.of_nat (nr - n) * PCACHE_SLOT) (Z.of_nat nr * PCACHE_SLOT) s = false ->
  slots_ok (lowered s (Z.of_nat nr * PCACHE_SLOT) (Z.of_nat n * PCACHE_SLOT), (rslot_at s (nr - n), size) :: rg) nh (nr - n).
Proof.
  intros Hok H0 Hn Hle Hre Htl. pose proof Hok as [G R P K M T]. cbn [fst snd] in *. pose proof (ge_le _ _ _ G) as Hge. destruct (region_slots_pos size H0) as [_ Hp]. destruct (rtop_range s nh nr G) as [Hrt _]. rewrite (ge_rtop _ _ _ G) in Hrt. set (s' := lowered _ _ _).
  assert (zone_region s (rslot_at s (nr - n), size)) as Hz by (exists (nr - n)%nat; cbn [fst snd]; split_and!; [done|lia|done]).
  split; cbn [fst snd].
  - destruct G as [G1 G2 G3 G4 G5 G6]. split; try done; [|cbn; lia]. change (u64 (Z.of_nat nr * PCACHE_SLOT - Z.of_nat n * PCACHE_SLOT) = Z.of_nat (nr - n) * PCACHE_SLOT). rewrite slot_val in *. rewrite wrap_small; lia.
  - destruct R as [R1 R2 R3]. split; try done. intros i. specialize (R2 i). change (owners s' ((rslot_at s (nr - n), size) :: rg) i) with (owners s ((rslot_at s (nr - n), size) :: rg) i). rewrite owners_cons, covers_at, Hn by (done || lia). unfold zone_pt in *. change (in_zone s' (nr - n) i) with (in_zone s (nr - n) i). change (bget ZWARM i s') with (bget ZWARM i s). change (bget ZCOLD i s') with (bget ZCOLD i s). change (flying true s' i) with (flying true s i).
    replace (nr - n + n)%nat with nr by lia. unfold in_zone in *. destruct (Nat.leb_spec nr i), (Nat.leb_spec (nr - n) i), (Nat.ltb_spec i nr), (Nat.ltb_spec i (rslots (sl_cf s))); cbn in *; lia.
  - destruct P as [P1 P2 P3]. split; try done. intros p Hp'. destruct (P1 p Hp'). by split.
  - by apply (regions_zone s _ nh nr).
  - apply (meters_step s s' nh nr nh (nr - n) (fun x => match x with A_regions_bytes | A_bytes => Z.of_nat n * PCACHE_SLOT | A_rtop => - (Z.of_nat n * PCACHE_SLOT) | _ => 0 end) M).
    + intros x. destruct x; try (left; done); try (right; done). right. change (u64 (Z.of_nat nr * PCACHE_SLOT - Z.of_nat n * PCACHE_SLOT) = u64 (sl_v s A_rtop + - (Z.of_nat n * PCACHE_SLOT))). rewrite (ge_rtop _ _ _ G). f_equal; lia.
    + intros x m m' Hx Hx'. destruct x; cbn [meter_of] in *; try discriminate; try (assert (Some m' = Some m) as [= ->] by (rewrite <- Hx, <- Hx'; done); lia); change (on RCOLD s') with (on RCOLD s) in Hx'; change (on ZCOLD s') with (on ZCOLD s) in Hx'; change (on ZWARM s') with (on ZWARM s) in Hx'; change (sl_cf s') with (sl_cf s) in Hx'; injection Hx as <-; injection Hx' as <-; change (sl_pages s') with (sl_pages s); change (block_bytes s') with (block_bytes s); change (out_of true s') with (out_of true s); rewrite slot_val; lia.
  - apply (tail_same s s' nh nr nh (nr - n) T); [done|tail_tac|]. intros Hf. destruct (ta_hull _ _ _ T Hf) as [T1 T2]. split; [done|]. clear -Htl Hf T2 Hle. unfold tail_inflight in Htl. rewrite slot_val in *. rewrite !andb_false_iff, !Z.gtb_ltb, !Z.ltb_ge in Htl. lia.
Qed.

Lemma region_carve_ok e s rg nh nr size : slots_ok (s, rg) nh nr -> 0 < size -> gave s rg nh size (region_carve e (region_slots size) s).
Proof.
  intros Hok H0. pose proof (so_geom _ _ _ Hok) as G. cbn [fst] in G. unfold region_carve. rewrite (ge_hoff _ _ _ G), (ge_rtop _ _ _ G). set (n := region_slots size). destruct (negb (reserved s) || _ || _) eqn:Hg; [split; [done|by exists nr]|].
  apply orb_false_iff in Hg as [Hg Htl]. apply orb_false_iff in Hg as [Hre Hg]. apply negb_false_iff in Hre. apply negb_false_iff, Z.leb_le in Hg. rewrite slot_val in Hg. pose proof (groups_commit_alike e (Z.of_nat nr * PCACHE_SLOT - Z.of_nat n * PCACHE_SLOT) (Z.of_nat nr * PCACHE_SLOT) s) as A. destruct (groups_commit e _ _ s) as [s1 ok]. cbn [fst] in A.
  pose proof (alike_ok _ _ _ _ _ A Hok) as Hok1. destruct ok; cbn [negb]; [|split; [apply (al_hdr _ _ A)|by exists nr]]. replace (Z.of_nat nr * PCACHE_SLOT - Z.of_nat n * PCACHE_SLOT) with (Z.of_nat (nr - n) * PCACHE_SLOT) in * by (rewrite slot_val; lia).
  split; [apply (al_hdr _ _ A)|]. exists (nr - n)%nat. cbn [fst snd]. change (hbase (sl_cf s1) + Z.of_nat (nr - n) * PCACHE_SLOT) with (rslot_at s1 (nr - n)). replace (Z.of_nat (nr - n) * PCACHE_SLOT) with (Z.of_nat nr * PCACHE_SLOT - Z.of_nat n * PCACHE_SLOT) by (rewrite slot_val; lia).
  apply lowered_ok; try done; [lia|rewrite (alike_reserved s s1) by done; done|]. unfold tail_inflight in *. by rewrite !(al_v _ _ A) by done.
Qed.

Lemma align64 x : 0 <= x -> Z.land x (Z.lnot 63) = x - x mod 64.
Proof. intros H. rewrite <- Z.ldiff_land. change 63 with (Z.ones 6). rewrite Z.ldiff_ones_r by lia. rewrite Z.shiftl_mul_pow2, Z.shiftr_div_pow2 by lia. change (2 ^ 6) with 64. pose proof (Z.div_mod x 64 ltac:(lia)). lia. Qed.

Lemma block_ok s s' rg nh nr raw need p size : slots_ok (s, rg) nh nr -> fresh_block s raw need = true -> 0 < size -> in_block (raw, need) (p, size) = true -> 0 < need ->
  sl_cf s' = sl_cf s -> sl_maps s' = sl_maps s -> sl_flight s' = sl_flight s -> sl_pages s' = sl_pages s -> sl_hdr s' = sl_hdr s -> sl_regions s' = (raw, need) :: sl_regions s ->
  (forall x, free_av x = false -> sl_v s' x = match x with A_bytes | A_regions_bytes => u64 (sl_v s x + need) | _ => sl_v s x end) -> slots_ok (s', (p, size) :: rg) nh nr.
Proof.
  intros [G R P K M T] Hf H0 Hin Hn Hc Hm Hfl Hp Hh Hr Hv. cbn [fst snd] in *. destruct (fresh_spec s raw need Hf) as (F1 & F2 & F3 & F4 & F5). assert (forall j, rslot_at s' j = rslot_at s j) as Ha by (intros j; unfold rslot_at; by rewrite Hc). assert (reserved s' = reserved s) as Hres by (unfold reserved; by rewrite Hc).
  split; cbn [fst snd].
  - destruct G as [G1 G2 G3 G4 G5 G6]. split; rewrite ?Hc, ?Hm, ?Hv; done.
  - destruct R as [R1 R2 R3]. split; [intros j|intros j|by rewrite Hfl]; unfold bget, in_zone in *; rewrite ?Hm, ?Ha, ?Hc, ?Hh, (flying_same _ s s' j Hfl); [apply R1|]. assert (owners s' ((p, size) :: rg) j = owners s rg j) as ->; [|apply R2].
    transitivity (owners s ((p, size) :: rg) j); [unfold owners, covers; by rewrite Ha, Hc|]. by rewrite owners_cons, (block_covers s nh nr (raw, need) (p, size) j G F3 Hin).
  - destruct P as [P1 P2 P3]. split; rewrite ?Hp, ?Hh; try done; [|intros ch h Hch; destruct (P3 ch h Hch) as [(i & Hi & ->)|?]; [left; exists i; by rewrite Ha|by right]]. intros q Hq. destruct (P1 q Hq) as [Q1 Q2 Q3 Q4 Q5]. split; rewrite ?Hc, ?Hh, ?Hres; done.
  - assert (forall b r, b ∈ sl_regions s -> in_block b r = true -> in_block (raw, need) r = true -> 0 < r.2 -> False) as Hone.
    { intros b r Hb I1 I2 Hr0. pose proof (F5 b Hb) as Hap. apply apart_spec in Hap. unfold in_block in I1, I2. cbn [fst snd] in I2. lia. }
    destruct K as [K1 K2 K3 K4]. split.
    + intros r [->|Hrin]%elem_of_cons; [split; [done|right; exists (raw, need); rewrite Hr; split; [apply list_elem_of_here|done]]|]. destruct (K1 r Hrin) as [Q0 [(j & Hj & Hk)|(b & Hb & Hbi)]]; (split; [done|]); [left; exists j; by rewrite Ha, Hc, Hres|right; exists b; rewrite Hr; split; [by apply list_elem_of_further|done]].
    + intros b. rewrite Hr, Hres, Hc, Hp. intros [->|Hb]%elem_of_cons; [|by apply K2]. cbn [fst snd]. split_and!; try done.
    + intros i j b c. rewrite Hr. intros Hi Hj Hij. destruct i as [|i], j as [|j]; cbn in Hi, Hj; try done; [injection Hi as <-; apply F5; by eapply list_elem_of_lookup_2|injection Hj as <-; rewrite apart_sym; apply F5; by eapply list_elem_of_lookup_2|]. apply (K3 i j); try done. congruence.
    + intros b. rewrite Hr, lodgers_cons. intros [->|Hb]%elem_of_cons.
      * rewrite Hin, lodgers_zero; [done|]. intros r Hrin. destruct (K1 r Hrin) as [Q0 [Hz|(b & Hb & Hbi)]]; [by apply (zone_no_lodger s nh nr)|]. destruct (in_block (raw, need) r) eqn:Hq; [|done]. exfalso. by apply (Hone b r).
      * destruct (in_block b (p, size)) eqn:Hq; [exfalso; by apply (Hone b (p, size))|]. by apply K4.
  - assert (block_bytes s' = block_bytes s + need) as Hbb by (unfold block_bytes; rewrite Hr; change (zsum (snd <$> (raw, need) :: sl_regions s)) with (need + zsum (snd <$> sl_regions s)); lia).
    assert (forall b, on b s' = on b s) as Hon by (intros b; unfold on, bget; by rewrite Hc, Hm).
    intros x n' Hx. assert (free_av x = false) as Hfx by (destruct x; done). rewrite (Hv x Hfx). assert (exists n, meter_of s nh nr x = Some n) as [n Hn'] by (destruct x; cbn in Hx; try discriminate; by eexists). pose proof (M x n Hn') as Mx.
    destruct x; cbn [meter_of] in *; try discriminate; unfold out_of, page_free in *; rewrite ?Hon, ?Hbb, ?Hp, ?Hfl, ?Hc in Hx; injection Hx as <-; injection Hn' as <-; rewrite Mx; cbn [av_wrap]; unfold u32, u64; rewrite ?Zplus_mod_idemp_l; f_equal; lia.
  - destruct T as [T1 T2 T3 T4]. split; rewrite ?Hv, ?Hfl; done.
Qed.

Lemma region_shm_ok e s rg nh nr size : slots_ok (s, rg) nh nr -> 0 < size < 2 ^ 63 -> gave s rg nh size (region_shm e size s).
Proof.
  intros Hok H0. pose proof Hok as [G R P K M T]. cbn [fst snd] in *. unfold region_shm. rewrite (wrap_small (size + 16 + 64)) by lia. set (need := size + 16 + 64). destruct (negb _ && _); [split; [done|by exists nr]|]. set (s1 := vadd A_bytes need s).
  destruct (shm_malloc e need s1) as [raw|] eqn:Hs.
  - apply shm_spec in Hs. assert (fresh_block s raw need = true) as Hf by exact Hs. split; cbn [fst snd]; [unfold extents_add; destruct (raw <? _); destruct (_ >? _); done|]. exists nr. set (s2 := vadd A_regions_bytes need _). eapply alike_ok; [apply (extents_alike raw (raw + need) s2)|]. destruct (fresh_spec s raw need Hf) as (F1 & F2 & _).
    apply (block_ok s s2 rg nh nr raw need _ size Hok Hf); try done; [lia| |unfold need; lia|intros x Hx; by destruct x]. rewrite align64 by lia. pose proof (Z.mod_pos_bound (raw + 16 + 63) 64 ltac:(lia)). unfold in_block. cbn [fst snd]. unfold need. apply andb_true_iff. lia.
  - split; [done|]. exists nr. eapply alike_ok; [|exact Hok]. split; try done. intros x Hx. destruct x; try done. change (av_wrap A_bytes (av_wrap A_bytes (sl_v s A_bytes + need) + - need) = sl_v s A_bytes). rewrite (M A_bytes _ eq_refl), wrap_add, Z.add_opp_r, Z.add_simpl_r. apply wrap_idem.
Qed.

Lemma region_alloc_ok e s rg nh nr size : slots_ok (s, rg) nh nr -> 0 < size < 2 ^ 63 -> gave s rg nh size (pcache_region_alloc e size s).
Proof.
  intros Hok H0. unfold pcache_region_alloc. assert (gave s rg nh size (if (region_slots size =? 1)%nat && reserved s then region_reuse e s else (s, None))) as H1.
  { destruct (Nat.eqb_spec (region_slots size) 1) as [He|]; cbn [andb]; [destruct (reserved s)|]; [by apply (region_reuse_ok e s rg nh nr); [|lia|]|split; [done|by exists nr]|split; [done|by exists nr]]. }
  destruct (if (region_slots size =? 1)%nat && reserved s then region_reuse e s else (s, None)) as [s1 [p|]]; cbn [fst snd] in *; [exact H1|]. destruct H1 as [Hh1 [nr1 Hok1]]. cbn [fst snd] in *. pose proof (region_carve_ok e s1 rg nh nr1 size Hok1 ltac:(lia)) as H2. destruct (region_carve e (region_slots size) s1) as [s2 [p|]]; [by apply (gave_after s s1)|].
  destruct H2 as [Hh2 [nr2 Hok2]]. cbn [fst snd] in *. apply (gave_after s s2); [congruence|]. by apply (region_shm_ok e s2 rg nh nr2).
Qed.
