(* ===== verification/ArenaGive.v ===== *)
(** Memory given back to the host, and brought ahead: the rest of the slot layer's steps
    ([giveback_tick] and [commit_ahead] of [core/pcache_arena.c]).

    A give-back is two steps, for other threads take and give slots between its phases:
    the groups it has picked are on no map meanwhile, and the tail's runs are kept from
    the frontiers by their hull.  Either way a slot stays in one use. *)

From Stdlib Require Import ZArith Lia.
From stdpp Require Import base tactics list numbers gmap.
From S2P Require Import Prelude HtBase ArenaCell ArenaCensus ArenaSlot ArenaSlotOk.
#[local] Open Scope Z_scope.

(** * Groups of slots on a map *)

Lemma fold_bclr l : forall s nh nr b, geom s nh nr -> b <> HCOMMIT -> NoDup l -> (forall i, i ∈ l -> (i < rslots (sl_cf s))%nat /\ bget b i s = true) ->
  let s' := foldl (fun s i => bclr b i s) s l in
  geom s' nh nr /\ (forall b' j, bget b' j s' = if decide (b' = b /\ j ∈ l) then false else bget b' j s) /\ forall b', on b' s' = on b' s - d1 b' b * zlen l.
Proof.
  induction l as [|i l IH]; intros s nh nr b G Hb Hd Hl; cbn [foldl].
  - split_and!; [done|intros b' j; by rewrite decide_False by (intros [_ ?%not_elem_of_nil]; done)|intros b'; unfold zlen; cbn; lia].
  - apply NoDup_cons in Hd as [Hi Hd]. destruct (Hl i (list_elem_of_here _ _)) as [HN Hset]. destruct (IH (bclr b i s) nh nr b (geom_bclr s nh nr b i G HN Hb) Hb Hd) as (I1 & I2 & I3).
    { intros j Hj. destruct (Hl j (list_elem_of_further _ _ _ Hj)) as [HNj Hj']. split; [done|]. rewrite (bget_bclr s nh nr) by done. rewrite decide_False by (intros [_ ->]; done). done. }
    split_and!; [done| |].
    + intros b' j. rewrite I2, (bget_bclr s nh nr) by done. destruct (decide (b' = b /\ j ∈ l)) as [[-> Hj]|Hn]; [rewrite decide_True by (split; [done|by apply list_elem_of_further]); done|]. destruct (decide (b' = b /\ j = i)) as [[-> ->]|Hn']; [rewrite decide_True by (split; [done|apply list_elem_of_here]); done|].
      rewrite decide_False; [done|]. intros [-> [->|?]%elem_of_cons]; tauto.
    + intros b'. rewrite I3, (on_bclr s nh nr) by done. unfold zlen. cbn [length]. lia.
Qed.

Lemma fold_bset l : forall s nh nr b, geom s nh nr -> b <> HCOMMIT -> NoDup l -> (forall i, i ∈ l -> (i < rslots (sl_cf s))%nat /\ bget b i s = false) ->
  let s' := foldl (fun s i => bset b i s) s l in
  geom s' nh nr /\ (forall b' j, bget b' j s' = if decide (b' = b /\ j ∈ l) then true else bget b' j s) /\ forall b', on b' s' = on b' s + d1 b' b * zlen l.
Proof.
  induction l as [|i l IH]; intros s nh nr b G Hb Hd Hl; cbn [foldl].
  - split_and!; [done|intros b' j; by rewrite decide_False by (intros [_ ?%not_elem_of_nil]; done)|intros b'; unfold zlen; cbn; lia].
  - apply NoDup_cons in Hd as [Hi Hd]. destruct (Hl i (list_elem_of_here _ _)) as [HN Hset]. destruct (IH (bset b i s) nh nr b (geom_bset s nh nr b i G HN Hb) Hb Hd) as (I1 & I2 & I3).
    { intros j Hj. destruct (Hl j (list_elem_of_further _ _ _ Hj)) as [HNj Hj']. split; [done|]. rewrite (bget_bset s nh nr) by done. rewrite decide_False by (intros [_ ->]; done). done. }
    split_and!; [done| |].
    + intros b' j. rewrite I2, (bget_bset s nh nr) by done. destruct (decide (b' = b /\ j ∈ l)) as [[-> Hj]|Hn]; [rewrite decide_True by (split; [done|by apply list_elem_of_further]); done|]. destruct (decide (b' = b /\ j = i)) as [[-> ->]|Hn']; [rewrite decide_True by (split; [done|apply list_elem_of_here]); done|].
      rewrite decide_False; [done|]. intros [-> [->|?]%elem_of_cons]; tauto.
    + intros b'. rewrite I3, (on_bset s nh nr) by done. unfold zlen. cbn [length]. lia.
Qed.

Lemma in_group i g : i ∈ group_slots g <-> (i / PCACHE_GROUP_SLOTS)%nat = g.
Proof.
  unfold group_slots, PCACHE_GROUP_SLOTS. rewrite elem_of_seq. pose proof (Nat.div_mod i 8 ltac:(lia)). pose proof (Nat.mod_upper_bound i 8 ltac:(lia)). lia.
Qed.

Lemma fold_frame (f : slots -> nat -> slots) l : (forall s i, sl_cf (f s i) = sl_cf s /\ sl_v (f s i) = sl_v s /\ sl_pages (f s i) = sl_pages s /\ sl_regions (f s i) = sl_regions s /\ sl_hdr (f s i) = sl_hdr s /\ sl_flight (f s i) = sl_flight s /\ sl_zfree_at (f s i) = sl_zfree_at s) ->
  forall s, let s' := foldl f s l in sl_cf s' = sl_cf s /\ sl_v s' = sl_v s /\ sl_pages s' = sl_pages s /\ sl_regions s' = sl_regions s /\ sl_hdr s' = sl_hdr s /\ sl_flight s' = sl_flight s /\ sl_zfree_at s' = sl_zfree_at s.
Proof. intros Hf. induction l as [|i l IH]; intros s; [done|]. cbn [foldl]. destruct (IH (f s i)) as (H1 & H2 & H3 & H4 & H5 & H6 & H7). destruct (Hf s i) as (F1 & F2 & F3 & F4 & F5 & F6 & F7). split_and!; congruence. Qed.

(** * Runs in flight *)

(** The map of a kind of slot a run takes its groups from or leaves them on. *)
Definition map_of (z : bool) (b : bm) : Prop := if z then b = ZWARM \/ b = ZCOLD else b = RWARM \/ b = RCOLD.

Definition sum_c (s : slots) (i : nat) : nat := (Nat.b2n (bget RWARM i s) + Nat.b2n (bget RCOLD i s) + Nat.b2n (flying false s i))%nat.
Definition sum_z (s : slots) (i : nat) : nat := (Nat.b2n (bget ZWARM i s) + Nat.b2n (bget ZCOLD i s) + Nat.b2n (flying true s i))%nat.

Lemma res_sums s s' nh nr rg : res_ok s nh nr rg -> sl_cf s' = sl_cf s -> sl_hdr s' = sl_hdr s -> (forall i, sum_c s' i = sum_c s i) -> (forall i, sum_z s' i = sum_z s i) -> (forall z, NoDup (fly z (sl_flight s'))) -> res_ok s' nh nr rg.
Proof.
  intros [R1 R2 R3] Hc Hh Hsc Hsz Hf. assert (forall j, rslot_at s' j = rslot_at s j) as Ha by (intros j; unfold rslot_at; by rewrite Hc). split; [intros i|intros i|done].
  - specialize (R1 i). specialize (Hsc i). rewrite Ha, Hh. unfold chunk_pt, sum_c in *. destruct (i <? nh)%nat.
    + destruct R1 as (h & H1 & H2 & H3). exists h. split_and!; try done. lia.
    + destruct R1 as (H1 & H2 & H3). rewrite H1, H2, H3 in Hsc. destruct (bget RWARM i s'), (bget RCOLD i s'), (flying false s' i); cbn in Hsc; done || lia.
  - specialize (R2 i). specialize (Hsz i). unfold zone_pt, sum_z, in_zone in *. rewrite Hc. assert (owners s' rg i = owners s rg i) as -> by (unfold owners, covers; by rewrite Ha, Hc). lia.
Qed.

(** What [slots_ok] asks of the runs besides their groups. *)
Definition tail_fits (s : slots) (l : list punch_run) : Prop :=
  forall r g, r ∈ l -> ru_tail r = true -> g ∈ run_groups r -> sl_v s A_tail_fl_lo <= Z.of_nat g * PCACHE_HPS /\ Z.of_nat (S g) * PCACHE_HPS <= sl_v s A_tail_fl_hi.

(** The flight of the same groups, in another order or other runs. *)
Lemma flight_ok s rg nh nr l l' : slots_ok (set_flight l s, rg) nh nr -> (forall z, fly z l' ≡ₚ fly z l) -> tail_fits s l' -> slots_ok (set_flight l' s, rg) nh nr.
Proof.
  intros [G R P K M T] Hl Ht. cbn [fst snd] in *. assert (forall z i, flying z (set_flight l' s) i = flying z (set_flight l s) i) as Hfl by (intros z i; unfold flying; cbn [sl_flight set_flight]; apply bool_decide_ext; by rewrite Hl). split; cbn [fst snd].
  - by apply (geom_same (set_flight l s)).
  - apply (res_sums (set_flight l s)); try done; [intros i; unfold sum_c; by rewrite Hfl|intros i; unfold sum_z; by rewrite Hfl|]. intros z. cbn [sl_flight set_flight]. rewrite Hl. apply (re_fly _ _ _ _ R).
  - destruct P as [P1 P2 P3]. split; try done. intros p Hp. destruct (P1 p Hp). by split.
  - by apply (regions_same (set_flight l s)).
  - intros x n Hx. apply M. rewrite <- Hx. destruct x; try done; cbn [meter_of]; unfold out_of, zlen; cbn [sl_flight set_flight]; by rewrite (Permutation_length (Hl _)).
  - destruct T as [T1 T2 T3 T4]. by split.
Qed.

(** * A group leaves a map for the flight, and back *)

Lemma fly_cons_flying z s l l' g i : fly z l' ≡ₚ g :: fly z l -> flying z (set_flight l' s) i = bool_decide ((i / PCACHE_GROUP_SLOTS)%nat = g) || flying z (set_flight l s) i.
Proof. intros H. unfold flying. cbn [sl_flight set_flight]. rewrite <- bool_decide_or. apply bool_decide_ext. by rewrite H, elem_of_cons. Qed.

Lemma fly_same_flying z s s' l l' i : fly z l' ≡ₚ fly z l -> flying z (set_flight l' s') i = flying z (set_flight l s) i.
Proof. intros H. unfold flying. cbn [sl_flight set_flight]. apply bool_decide_ext. by rewrite H. Qed.

(** A slot of a group on the map of the kind is in range and not in flight. *)
Lemma mapped_bit s rg nh nr z b i : geom s nh nr -> res_ok s nh nr rg -> map_of z b -> bget b i s = true -> (i < rslots (sl_cf s))%nat /\ flying z s i = false.
Proof.
  intros G R Hb Hi. pose proof (ge_le _ _ _ G). destruct z; unfold map_of in Hb.
  - destruct (zone_bit s rg nh nr i b G R Hb Hi) as ([_ ?] & _ & ? & _). done.
  - pose proof (re_chunk _ _ _ _ R i) as C. unfold chunk_pt in C. destruct (Nat.ltb_spec i nh) as [Hlt|]; [|destruct Hb as [-> | ->]; destruct C as (C1 & C2 & _); congruence]. destruct C as (h & _ & _ & Hs). split; [lia|]. destruct Hb as [-> | ->]; rewrite Hi in Hs; destruct (flying false s i); [|done| |done]; destruct (h_free h); cbn in Hs; lia.
Qed.

(** A slot in flight is in range and on no map. *)
Lemma flying_bit s rg nh nr z b i : geom s nh nr -> res_ok s nh nr rg -> map_of z b -> flying z s i = true -> (i < rslots (sl_cf s))%nat /\ bget b i s = false.
Proof.
  intros G R Hb Hi. pose proof (ge_le _ _ _ G). destruct z; unfold map_of in Hb.
  - pose proof (re_zone _ _ _ _ R i) as Z. unfold zone_pt in Z. rewrite Hi in Z. destruct (in_zone s nr i) eqn:Hz; [|cbn in Z; lia]. apply in_zone_spec in Hz. split; [lia|]. destruct Hb as [-> | ->]; [destruct (bget ZWARM i s)|destruct (bget ZCOLD i s)]; cbn in Z; done || lia.
  - pose proof (re_chunk _ _ _ _ R i) as C. unfold chunk_pt in C. destruct (Nat.ltb_spec i nh) as [Hlt|]; [|destruct C as (_ & _ & C); congruence]. destruct C as (h & _ & _ & Hs). rewrite Hi in Hs. split; [lia|]. destruct Hb as [-> | ->]; [destruct (bget RWARM i s)|destruct (bget RCOLD i s)]; destruct (h_free h); cbn in Hs; done || lia.
Qed.

Definition warm_map (z : bool) : bm := if z then ZWARM else RWARM.
Definition warm_meter (z : bool) : av := if z then A_nzfree_warm else A_nfree_warm.

Lemma group_nodup g : NoDup (group_slots g).
Proof. apply NoDup_seq. Qed.

Lemma group_len g : zlen (group_slots g) = Z.of_nat PCACHE_GROUP_SLOTS.
Proof. unfold zlen, group_slots. by rewrite length_seq. Qed.

(** The parts of [slots_ok] a step on maps, meters and flight leaves alone. *)
Lemma rest_ok s s' rg nh nr : slots_ok (s, rg) nh nr -> sl_cf s' = sl_cf s -> sl_hdr s' = sl_hdr s -> sl_pages s' = sl_pages s -> sl_regions s' = sl_regions s -> pages_ok s' nh /\ regions_ok s' rg.
Proof.
  intros [G R P K M T] Hc Hh Hp Hr. cbn [fst snd] in *. split; [|by apply (regions_same s)]. apply (pages_hdr s s' nh nh P); try done; rewrite Hh; [done|]. intros ch h H. left. by exists h.
Qed.

Lemma other_fly (z z' : bool) : z' <> z -> z' = negb z.
Proof. by destruct z, z'. Qed.

(** A step on the maps, the meters and the flight that keeps each slot's use. *)
Lemma sums_ok s s' rg nh nr (db : bm -> Z) (df : bool -> Z) (d : av -> Z) : slots_ok (s, rg) nh nr ->
  sl_cf s' = sl_cf s -> sl_hdr s' = sl_hdr s -> sl_pages s' = sl_pages s -> sl_regions s' = sl_regions s -> geom s' nh nr ->
  (forall i, sum_c s' i = sum_c s i) -> (forall i, sum_z s' i = sum_z s i) -> (forall z, NoDup (fly z (sl_flight s'))) ->
  (forall b, b <> HCOMMIT -> on b s' = on b s + db b) -> (forall z, out_of z s' = out_of z s + df z) ->
  (forall x, free_av x = false -> sl_v s' x = sl_v s x /\ d x = 0 \/ sl_v s' x = av_wrap x (sl_v s x + d x)) ->
  (forall x, d x = match x with
    | A_nfree_warm => db RWARM | A_nfree_cold => db RCOLD | A_nzfree_warm => db ZWARM | A_nzfree_cold => db ZCOLD | A_npages | A_slots_total => 0
    | A_chunks_used => - db RWARM - db RCOLD - df false | A_bytes => - PCACHE_SLOT * (db RCOLD + db ZCOLD)
    | A_regions_bytes => - PCACHE_SLOT * (db ZWARM + db ZCOLD + df true) | A_cold_bytes => PCACHE_SLOT * (db RCOLD + db ZCOLD)
    | _ => d x end) ->
  (forall x, x ∈ [A_tail_next; A_ahead_from; A_tail_fl_lo; A_tail_fl_hi] -> sl_v s' x = sl_v s x) -> tail_fits s (sl_flight s') -> slots_ok (s', rg) nh nr.
Proof.
  intros Hok Hc Hh Hp Hr G' Hsc Hsz Hf Hon Ho Hv Hd Ht Hfit. pose proof Hok as [G R P K M T]. destruct (rest_ok s s' rg nh nr Hok Hc Hh Hp Hr) as [HP HK]. cbn [fst snd] in *. split; cbn [fst snd]; try done.
  - by apply (res_sums s).
  - apply (meters_tracked s s' nh nr nh nr d M Hv). intros x n n' Hx Hx'. rewrite Hd. destruct x; cbn [meter_of] in *; try discriminate; unfold page_free, block_bytes in *; rewrite ?Hon, ?Ho, ?Hc, ?Hp, ?Hr in Hx' by done; injection Hx as <-; injection Hx' as <-; lia.
  - destruct T as [T1 T2 T3 T4]. split; rewrite ?(Ht A_tail_next), ?(Ht A_ahead_from), ?(Ht A_tail_fl_lo), ?(Ht A_tail_fl_hi) by set_solver; try done; apply Hfit.
Qed.

(** The flight with one group more. *)
Definition joins (z : bool) (g : nat) (l l' : list punch_run) : Prop := fly z l' ≡ₚ g :: fly z l /\ fly (negb z) l' ≡ₚ fly (negb z) l.

Lemma joins_flying z g l l' s s' : joins z g l l' -> (forall i, flying z (set_flight l' s') i = bool_decide (i ∈ group_slots g) || flying z (set_flight l s) i) /\ forall i, flying (negb z) (set_flight l' s') i = flying (negb z) (set_flight l s) i.
Proof.
  intros [Hl Hn]. split; intros i; [|by apply fly_same_flying]. transitivity (flying z (set_flight l' s) i); [done|]. rewrite (fly_cons_flying z s l l' g i Hl). f_equal. apply bool_decide_ext. by rewrite in_group.
Qed.

Lemma joins_out z g l l' s s' z' : joins z g l l' -> out_of z' (set_flight l' s') = out_of z' (set_flight l s) + (if decide (z' = z) then Z.of_nat PCACHE_GROUP_SLOTS else 0).
Proof. intros [Hl Hn]. unfold out_of, zlen. cbn [sl_flight set_flight]. destruct (decide (z' = z)) as [->|Hz]; [rewrite (Permutation_length Hl); cbn [length]; lia|]. rewrite (other_fly z z' Hz), (Permutation_length Hn). lia. Qed.

Lemma sum_at z b t s l l' : map_of z b -> (forall b' i, b' <> b -> bget b' i t = bget b' i s) -> (forall i, flying (negb z) (set_flight l' t) i = flying (negb z) (set_flight l s) i) ->
  (forall i, (Nat.b2n (bget b i t) + Nat.b2n (flying z (set_flight l' t) i) = Nat.b2n (bget b i s) + Nat.b2n (flying z (set_flight l s) i))%nat) ->
  (forall i, sum_c (set_flight l' t) i = sum_c (set_flight l s) i) /\ forall i, sum_z (set_flight l' t) i = sum_z (set_flight l s) i.
Proof.
  intros Hb Hbo Hf Hs. unfold sum_c, sum_z. change (fun b i => bget b i (set_flight l' t)) with (fun b i => bget b i t).
  assert (forall b' i, bget b' i (set_flight l' t) = bget b' i t) as H1 by done. assert (forall b' i, bget b' i (set_flight l s) = bget b' i s) as H2 by done.
  split; intros i; specialize (Hs i); specialize (Hf i); rewrite !H1, !H2; destruct z; destruct Hb as [-> | ->]; cbn [negb] in *;
    first [rewrite (Hbo RWARM), (Hbo RCOLD), Hf by done; done | rewrite (Hbo ZWARM), (Hbo ZCOLD), Hf by done; done | rewrite (Hbo RCOLD) by done; lia | rewrite (Hbo RWARM) by done; lia | rewrite (Hbo ZCOLD) by done; lia | rewrite (Hbo ZWARM) by done; lia].
Qed.

Lemma take_group_ok s rg nh nr z g l l' : slots_ok (set_flight l s, rg) nh nr -> (forall i, i ∈ group_slots g -> bget (warm_map z) i s = true) -> joins z g l l' -> tail_fits s l' ->
  slots_ok (set_flight l' (vadd (warm_meter z) (- Z.of_nat PCACHE_GROUP_SLOTS) (take_group (warm_map z) g s)), rg) nh nr.
Proof.
  intros Hok Hg Hj Ht. pose proof Hok as [G R P K M T]. cbn [fst snd] in *. set (b := warm_map z) in *. assert (map_of z b) as Hmb by (destruct z; by left). assert (b <> HCOMMIT) as Hb by (by destruct z). assert (geom s nh nr) as Gs by (by apply (geom_same (set_flight l s))).
  assert (forall i, i ∈ group_slots g -> (i < rslots (sl_cf s))%nat /\ flying z (set_flight l s) i = false) as Hin by (intros i Hi; apply (mapped_bit (set_flight l s) rg nh nr z b i G R Hmb); by apply Hg).
  destruct (fold_bclr (group_slots g) s nh nr b Gs Hb (group_nodup g)) as (F1 & F2 & F3); [intros i Hi; split; [by apply Hin|by apply Hg]|]. fold (take_group b g s) in F1, F2, F3.
  destruct (fold_frame (fun s i => bclr b i s) (group_slots g) ltac:(done) s) as (A1 & A2 & A3 & A4 & A5 & A6 & _). fold (take_group b g s) in A1, A2, A3, A4, A5, A6. set (t := take_group b g s) in *. clearbody t. set (s' := vadd _ _ t).
  destruct (joins_flying z g l l' s s' Hj) as [Hf1 Hf2]. destruct (sum_at z b s' s l l' Hmb) as [S1 S2]; [intros b' i Hn; etransitivity; [apply F2|]; by rewrite decide_False by tauto|exact Hf2| |].
  { intros i. rewrite Hf1. change (bget b i s') with (bget b i t). rewrite F2. destruct (decide (i ∈ group_slots g)) as [Hi|Hi]; [rewrite decide_True, bool_decide_true, (Hg i Hi), (proj2 (Hin i Hi)) by done; done|]. rewrite decide_False, bool_decide_false by tauto. done. }
  apply (sums_ok (set_flight l s) _ rg nh nr (fun b' => - (d1 b' b * Z.of_nat PCACHE_GROUP_SLOTS)) (fun z' => if decide (z' = z) then Z.of_nat PCACHE_GROUP_SLOTS else 0) (fun x => if decide (x = warm_meter z) then - Z.of_nat PCACHE_GROUP_SLOTS else 0) Hok); try done.
  - apply (geom_same t _ nh nr F1); try done; by destruct z.
  - intros z'. cbn [sl_flight set_flight]. destruct Hj as [Hl Hn]. destruct (decide (z' = z)) as [->|Hz]; [|rewrite (other_fly z z' Hz), Hn; apply (re_fly _ _ _ _ R)]. rewrite Hl. apply NoDup_cons. split; [|apply (re_fly _ _ _ _ R)].
    pose proof (proj2 (Hin (g * PCACHE_GROUP_SLOTS)%nat ltac:(apply in_group, Nat.div_mul; done))) as Hq. unfold flying in Hq. cbn [sl_flight set_flight] in Hq. rewrite Nat.div_mul in Hq by done. by apply bool_decide_eq_false in Hq.
  - intros b' _. rewrite <- (group_len g). exact (F3 b').
  - intros z'. exact (joins_out z g l l' s s' z' Hj).
  - intros x _. change (sl_v (set_flight l' s') x) with (sl_v (vadd (warm_meter z) (- Z.of_nat PCACHE_GROUP_SLOTS) t) x). unfold vadd, vset. cbn [sl_v set_flight]. rewrite A2. destruct (decide (x = warm_meter z)) as [->|]; [by right|by left].
  - intros x. unfold b. destruct z; destruct x; reflexivity.
  - intros x Hx. change (sl_v (vadd (warm_meter z) (- Z.of_nat PCACHE_GROUP_SLOTS) t) x = sl_v s x). rewrite <- A2. set_unfold in Hx. destruct z; destruct_or! Hx; subst x; done.
Qed.

Definition cold_meter (z : bool) : av := if z then A_nzfree_cold else A_nfree_cold.

(** What the meters gain when a group comes down on a map. *)
Definition put_delta (b : bm) (x : av) : Z :=
  match b, x with
  | RWARM, A_nfree_warm | ZWARM, A_nzfree_warm | RCOLD, A_nfree_cold | ZCOLD, A_nzfree_cold => Z.of_nat PCACHE_GROUP_SLOTS
  | RCOLD, A_bytes | ZCOLD, A_bytes => - PCACHE_HPS
  | RCOLD, A_cold_bytes | ZCOLD, A_cold_bytes => PCACHE_HPS
  | _, _ => 0
  end.

Lemma put_group_ok s s' rg nh nr z b g l l' : slots_ok (set_flight l s, rg) nh nr -> map_of z b -> joins z g l' l -> tail_fits s l' ->
  sl_cf s' = sl_cf s -> sl_hdr s' = sl_hdr s -> sl_pages s' = sl_pages s -> sl_regions s' = sl_regions s -> sl_maps s' = sl_maps (put_group b s g) ->
  (forall x, free_av x = false -> sl_v s' x = if decide (put_delta b x = 0) then sl_v s x else av_wrap x (sl_v s x + put_delta b x)) -> slots_ok (set_flight l' s', rg) nh nr.
Proof.
  intros Hok Hmb Hj Ht B1 B2 B3 B4 Bm Bv. pose proof Hok as [G R P K M T]. cbn [fst snd] in *. assert (b <> HCOMMIT) as Hb by (destruct z; by destruct Hmb as [-> | ->]). assert (geom s nh nr) as Gs by (by apply (geom_same (set_flight l s))).
  destruct (joins_flying z g l' l s' s Hj) as [Hf1 Hf2]. assert (forall i, i ∈ group_slots g -> flying z (set_flight l s) i = true) as Hfl by (intros i Hi; rewrite Hf1, bool_decide_true by done; done).
  assert (forall i, i ∈ group_slots g -> (i < rslots (sl_cf s))%nat /\ bget b i s = false) as Hin by (intros i Hi; apply (flying_bit (set_flight l s) rg nh nr z b i G R Hmb); by apply Hfl).
  destruct (fold_bset (group_slots g) s nh nr b Gs Hb (group_nodup g) Hin) as (F1 & F2 & F3). fold (put_group b s g) in F1, F2, F3.
  destruct (fold_frame (fun s i => bset b i s) (group_slots g) ltac:(done) s) as (A1 & A2 & _). fold (put_group b s g) in A1, A2. set (t := put_group b s g) in *. clearbody t.
  assert (NoDup (g :: fly z l')) as [Hg Hnd]%NoDup_cons by (rewrite <- (proj1 Hj); apply (re_fly _ _ _ _ R)).
  assert (forall b' i, bget b' i s' = bget b' i t) as Hbt by (intros b' i; unfold bget; by rewrite Bm).
  destruct (sum_at z b s' s l l' Hmb) as [S1 S2]; [intros b' i Hn; rewrite Hbt, F2; by rewrite decide_False by tauto|intros i; by rewrite <- Hf2| |].
  { intros i. rewrite Hf1, Hbt, F2. destruct (decide (i ∈ group_slots g)) as [Hi|Hi]; [|rewrite decide_False, bool_decide_false by tauto; done]. rewrite decide_True, bool_decide_true, (proj2 (Hin i Hi)) by done. apply in_group in Hi. unfold flying. cbn [sl_flight set_flight]. rewrite Hi, bool_decide_false by done. done. }
  apply (sums_ok (set_flight l s) _ rg nh nr (fun b' => d1 b' b * Z.of_nat PCACHE_GROUP_SLOTS) (fun z' => - (if decide (z' = z) then Z.of_nat PCACHE_GROUP_SLOTS else 0)) (put_delta b) Hok); try done.
  - destruct F1 as [G1 G2 G3 G4 G5 G6]. rewrite A1, A2 in *. split; cbn [sl_v set_flight sl_cf sl_maps]; rewrite ?B1, ?Bm; rewrite ?Bv by done; (done || (rewrite decide_True by (by destruct b); done)).
  - intros z'. cbn [sl_flight set_flight]. destruct Hj as [Hl Hn]. destruct (decide (z' = z)) as [->|Hz]; [exact Hnd|]. rewrite (other_fly z z' Hz), <- Hn. apply (re_fly _ _ _ _ R).
  - intros b' Hb'. rewrite <- (group_len g). transitivity (on b' t); [unfold on; cbn [sl_cf set_flight]; rewrite B1, A1; f_equal; apply ones_same; intros j; by rewrite <- Hbt|]. exact (F3 b').
  - intros z'. rewrite (joins_out z g l' l s' s z' Hj). lia.
  - intros x Hx. cbn [sl_v set_flight]. rewrite Bv by done. destruct (decide _); [by left|by right].
  - intros x. destruct z; destruct Hmb as [-> | ->]; destruct x; reflexivity.
  - intros x Hx. cbn [sl_v set_flight]. assert (free_av x = false /\ put_delta b x = 0) as [Hx1 Hx2] by (set_unfold in Hx; destruct b; destruct_or! Hx; subst x; done). rewrite Bv by done. by rewrite decide_True.
Qed.

(** * Phase one *)

Lemma fly_cons z r l : fly z (r :: l) = (if decide (ru_tail r = false /\ ru_zone r = z) then run_groups r else []) ++ fly z l.
Proof. unfold fly. rewrite filter_cons. by destruct (decide _). Qed.

Lemma add_run_joins zone g runs : Forall (fun r => ru_tail r = false) runs -> joins zone g runs (add_run false zone g runs) /\ Forall (fun r => ru_tail r = false) (add_run false zone g runs).
Proof.
  intros Hf. assert (joins zone g runs (mk_run g 1 false zone :: runs) /\ Forall (fun r => ru_tail r = false) (mk_run g 1 false zone :: runs)) as Hnew.
  { split; [|by apply Forall_cons]. split; rewrite fly_cons; cbn [ru_tail ru_zone]; [by rewrite decide_True|]. rewrite decide_False; [done|]. intros [_ ?]. by destruct zone. }
  destruct runs as [|r l]; [exact Hnew|]. cbn [add_run]. destruct (eqb (ru_zone r) zone && (ru_g0 r + ru_n r =? g)%nat) eqn:Hc; [|exact Hnew]. apply andb_prop in Hc as [H1 H2]. apply eqb_prop in H1. apply Nat.eqb_eq in H2. apply Forall_cons in Hf as [Hr Hl]. split; [|by apply Forall_cons]. split; rewrite !fly_cons; cbn [ru_tail ru_zone].
  - rewrite !decide_True by done. unfold run_groups. cbn [ru_g0 ru_n]. rewrite seq_S, H2. rewrite <- app_assoc. cbn [app]. symmetry. apply Permutation_middle.
  - rewrite !decide_False; [done|intros [_ Hz]; rewrite H1 in Hz; by destruct zone|intros [_ Hz]; rewrite H1 in Hz; by destruct zone].
Qed.

Lemma no_tail_fits s l : Forall (fun r => ru_tail r = false) l -> tail_fits s l.
Proof. intros Hf r g Hr Ht. rewrite Forall_forall in Hf. specialize (Hf r Hr). congruence. Qed.

(** A plan that has picked no tail yet. *)
Definition plan_ok (x : plan) (rg : list (Z * Z)) (nh nr : nat) : Prop := slots_ok (set_flight (pn_runs x) (pn_s x), rg) nh nr /\ Forall (fun r => ru_tail r = false) (pn_runs x).

Lemma pick_ok z x rg nh nr g n : plan_ok x rg nh nr -> forallb (fun i => bget (warm_map z) i (pn_s x)) (group_slots g) = true ->
  plan_ok (mk_plan (vadd (warm_meter z) (- Z.of_nat PCACHE_GROUP_SLOTS) (take_group (warm_map z) g (pn_s x))) (add_run false z g (pn_runs x)) n) rg nh nr.
Proof.
  intros [Hok Hf] Hg. destruct (add_run_joins z g (pn_runs x) Hf) as [Hj Hf']. split; [|done]. cbn [pn_s pn_runs]. eapply take_group_ok; [exact Hok| |exact Hj|by apply no_tail_fits]. intros i Hi. exact (forallb_in _ _ i Hg Hi).
Qed.

Lemma plan_chunks_ok step gs : forall x rg nh nr, plan_ok x rg nh nr -> plan_ok (plan_chunks step gs x) rg nh nr.
Proof.
  induction gs as [|g gs IH]; intros x rg nh nr Hok; [done|]. cbn [plan_chunks]. destruct (negb (more_runs x)); [done|]. destruct (negb (forallb _ (group_slots g)) || _) eqn:Hg; [by apply IH|]. destruct (negb (fits _ _ _) || _); [done|]. apply IH. apply orb_false_iff in Hg as [Hg _]. apply negb_false_iff in Hg. by apply (pick_ok false).
Qed.

Lemma plan_zone_ok step gs : forall x rg nh nr, plan_ok x rg nh nr -> plan_ok (plan_zone step gs x) rg nh nr.
Proof.
  induction gs as [|g gs IH]; intros x rg nh nr Hok; [done|]. cbn [plan_zone]. destruct (negb (more_runs x) || _); [done|]. destruct (forallb (zslot_quiet (pn_s x)) (group_slots g)) eqn:Hg; cbn [negb]; [|by apply IH]. destruct (negb (fits _ _ _) || _); [done|]. apply IH. apply (pick_ok true); [done|].
  revert Hg. generalize (group_slots g). intros l. induction l as [|i l IHl]; [done|]. cbn [forallb]. intros [H1 H2]%andb_prop. unfold zslot_quiet in H1. apply andb_prop in H1 as [H1 _]. unfold warm_map. rewrite H1. by apply IHl.
Qed.

(** ** The tail *)

(** The runs of the tail lie between the frontiers, the others are [l0]'s groups. *)
Definition tail_in (nh nr : nat) (runs : list punch_run) : Prop :=
  forall r g, r ∈ runs -> ru_tail r = true -> g ∈ run_groups r -> Z.of_nat nh * PCACHE_SLOT <= Z.of_nat g * PCACHE_HPS /\ Z.of_nat (S g) * PCACHE_HPS <= Z.of_nat nr * PCACHE_SLOT.

Record tplan_ok (l0 : list punch_run) (x : plan) (rg : list (Z * Z)) (nh nr : nat) : Prop := {
  tp_ok : slots_ok (set_flight l0 (pn_s x), rg) nh nr;
  tp_l0 : Forall (fun r => ru_tail r = false) l0;
  tp_fly : forall z, fly z (pn_runs x) = fly z l0;
  tp_in : tail_in nh nr (pn_runs x)
}.

Lemma add_tail g runs : (forall z, fly z (add_run true false g runs) = fly z runs) /\
  forall r k, r ∈ add_run true false g runs -> ru_tail r = true -> k ∈ run_groups r -> k = g \/ exists r', r' ∈ runs /\ ru_tail r' = true /\ k ∈ run_groups r'.
Proof.
  assert ((forall z, fly z (mk_run g 1 true false :: runs) = fly z runs) /\ forall r k, r ∈ mk_run g 1 true false :: runs -> ru_tail r = true -> k ∈ run_groups r -> k = g \/ exists r', r' ∈ runs /\ ru_tail r' = true /\ k ∈ run_groups r') as Hnew.
  { split; [intros z; rewrite fly_cons; cbn; by rewrite decide_False by (intros [? ?]; done)|]. intros r k [->|Hr]%elem_of_cons Ht Hk; [left; by apply list_elem_of_singleton in Hk|right; by exists r]. }
  destruct runs as [|q l]; [exact Hnew|]. cbn [add_run]. destruct (ru_tail q && (ru_g0 q + ru_n q =? g)%nat) eqn:Hc; [|exact Hnew]. apply andb_prop in Hc as [H1 H2%Nat.eqb_eq]. split.
  - intros z. rewrite !fly_cons. cbn [ru_tail ru_zone]. by rewrite !decide_False by (intros [? ?]; congruence).
  - intros r k [->|Hr]%elem_of_cons Ht Hk; [|right; exists r; split_and!; try done; by apply list_elem_of_further]. unfold run_groups in Hk. cbn [ru_g0 ru_n] in Hk. rewrite seq_S, H2, elem_of_app, list_elem_of_singleton in Hk. destruct Hk as [Hk| ->]; [right; exists q; split_and!; try done; apply list_elem_of_here|by left].
Qed.

Lemma floor_hi n m : 0 <= n -> 0 <= m -> m mod PCACHE_HPS = 0 -> m < n / PCACHE_HPS * PCACHE_HPS -> m + PCACHE_HPS <= n /\ Z.of_nat (Z.to_nat (m / PCACHE_HPS)) * PCACHE_HPS = m.
Proof.
  intros Hn Hm H0 Hlt. rewrite hps_val in *. pose proof (Z.div_mod m 2097152 ltac:(lia)). pose proof (Z.div_mod n 2097152 ltac:(lia)). pose proof (Z.mod_pos_bound n 2097152 ltac:(lia)). pose proof (Z.div_pos m 2097152 Hm ltac:(lia)). split; lia.
Qed.

Lemma set_flight_vset x n l s : set_flight l (vset x n s) = vset x n (set_flight l s).
Proof. done. Qed.

Lemma plan_tail_ok fuel step l0 : forall x rg nh nr, tplan_ok l0 x rg nh nr -> Z.of_nat nh * PCACHE_SLOT <= sl_v (pn_s x) A_tail_next -> 
  tplan_ok l0 (plan_tail fuel step (sl_v (pn_s x) A_rtop / PCACHE_HPS * PCACHE_HPS) x) rg nh nr.
Proof.
  induction fuel as [|fuel IH]; intros x rg nh nr Hx Hlo; [done|]. cbn [plan_tail]. destruct (negb (_ <? _) || _ || _) eqn:Hg; [done|]. apply orb_false_iff in Hg as [Hg _]. apply orb_false_iff in Hg as [Hg _]. apply negb_false_iff, Z.ltb_lt in Hg.
  pose proof Hx as [Hok Hl Hfl Hin]. pose proof (so_geom _ _ _ Hok) as G. pose proof (so_tail _ _ _ Hok) as T. cbn [fst] in *. destruct (rtop_range _ nh nr G) as [Hr _]. destruct (ta_next _ _ _ T) as [T1 T2]. cbn [sl_v set_flight] in *. pose proof (ge_rtop _ _ _ G) as Hrt. cbn [sl_v set_flight] in Hrt.
  destruct (floor_hi (sl_v (pn_s x) A_rtop) (sl_v (pn_s x) A_tail_next) ltac:(lia) ltac:(lia) T2 Hg) as [F1 F2]. set (g := Z.to_nat _) in *. set (s' := vadd A_tail_next PCACHE_HPS (pn_s x)).
  assert (sl_v s' A_tail_next = sl_v (pn_s x) A_tail_next + PCACHE_HPS) as Hn by (change (u64 (sl_v (pn_s x) A_tail_next + PCACHE_HPS) = sl_v (pn_s x) A_tail_next + PCACHE_HPS); rewrite wrap_small by (rewrite hps_val in *; lia); done).
  assert (slots_ok (set_flight l0 s', rg) nh nr) as Hok' by (unfold s', vadd; rewrite set_flight_vset; apply tail_next_ok; [exact Hok|rewrite hps_val in *; lia|]; rewrite <- (Z.mul_1_l PCACHE_HPS) at 1; rewrite Z.mod_add by (rewrite hps_val; lia); done).
  change (sl_v (pn_s x) A_rtop) with (sl_v s' A_rtop) in *. destruct (negb (bget HCOMMIT g (pn_s x))); (match goal with |- tplan_ok _ (plan_tail _ _ _ ?y) _ _ _ => apply (IH y) end; [split; try done|cbn [pn_s]; rewrite Hn, hps_val; lia]); cbn [pn_runs].
  - intros z. by rewrite (proj1 (add_tail g (pn_runs x))).
  - intros r k Hr' Ht Hk. destruct (proj2 (add_tail g (pn_runs x)) r k Hr' Ht Hk) as [->|(r' & H1 & H2 & H3)]; [|by apply (Hin r' k)]. rewrite F2. split; [done|]. rewrite Nat2Z.inj_succ, Z.mul_succ_l, F2. lia.
Qed.

(** A step on the tail's cursors. *)
Lemma cursor_ok x n s rg nh nr : x = A_tail_next \/ x = A_ahead_from -> slots_ok (s, rg) nh nr -> 0 <= n < 2 ^ 64 -> n mod PCACHE_HPS = 0 -> slots_ok (vset x n s, rg) nh nr.
Proof.
  intros [-> | ->] Hok Hn Hm; [by apply tail_next_ok|]. destruct Hok as [G R P K M T]. split; try done; cbn [fst snd] in *.
  - by apply (geom_same s).
  - destruct R. by split.
  - destruct P as [P1 P2 P3]. split; try done. intros p Hp. destruct (P1 p Hp). by split.
  - destruct K. by split.
  - intros x m Hx. pose proof (M x m Hx) as Hq. destruct x; try discriminate; exact Hq.
  - destruct T as [T1 T2 T3 T4]. split; try done. change (0 <= u64 n < 2 ^ 64 /\ u64 n mod PCACHE_HPS = 0). rewrite (wrap_small n Hn). split; [lia|done].
Qed.

(** [l0] in the place of the flight does not matter to what leaves it alone. *)
Lemma flight_vset x n l s rg nh nr : free_av x = true -> slots_ok (set_flight l s, rg) nh nr -> slots_ok (set_flight l (vset x n s), rg) nh nr.
Proof. intros Hx Hok. rewrite set_flight_vset. eapply alike_ok; [by apply alike_vset|exact Hok]. Qed.

Lemma tail_range s nh nr l rg : slots_ok (set_flight l s, rg) nh nr -> 0 <= sl_v s A_ahead_from < 2 ^ 64 /\ sl_v s A_ahead_from mod PCACHE_HPS = 0 /\ 0 <= sl_v s A_hoff < 2 ^ 63 /\ 0 <= sl_v s A_rtop < 2 ^ 63 /\ sl_v s A_hoff = Z.of_nat nh * PCACHE_SLOT.
Proof. intros Hok. destruct (rtop_range _ nh nr (so_geom _ _ _ Hok)) as [H1 H2]. destruct (ta_from _ _ _ (so_tail _ _ _ Hok)) as [H3 H4]. pose proof (ge_hoff _ _ _ (so_geom _ _ _ Hok)) as H5. cbn [fst sl_v set_flight] in *. split_and!; try done; lia. Qed.

Lemma unwindow_ok s l rg nh nr : slots_ok (set_flight l s, rg) nh nr -> slots_ok (set_flight l (unwindow s), rg) nh nr /\ sl_hdr (unwindow s) = sl_hdr s.
Proof.
  intros Hok. destruct (tail_range s nh nr l rg Hok) as (H1 & H2 & _). unfold unwindow. destruct (negb _ && _); [|done]. split; [|by destruct (_ >? _)]. rewrite !set_flight_vset. apply cursor_ok; [by right| |done|done]. eapply alike_ok; [by apply alike_vset|].
  destruct (_ >? _); [|done]. rewrite set_flight_vset. apply cursor_ok; [by left|done|lia|done].
Qed.

Lemma tail_lo_spec s nh nr l rg : slots_ok (set_flight l s, rg) nh nr -> sl_v s A_hoff <= tail_lo s < 2 ^ 64 /\ tail_lo s mod PCACHE_HPS = 0.
Proof.
  intros Hok. destruct (tail_range s nh nr l rg Hok) as (_ & _ & Hh & _). unfold tail_lo. change (Z.of_nat (S PCACHE_AHEAD_GROUPS)) with 5. rewrite hps_val. set (h := sl_v s A_hoff) in *. pose proof (Z.div_mod (h + 2097152 - 1) 2097152 ltac:(lia)). pose proof (Z.mod_pos_bound (h + 2097152 - 1) 2097152 ltac:(lia)). pose proof (Z.div_mod h 2097152 ltac:(lia)). pose proof (Z.mod_pos_bound h 2097152 ltac:(lia)).
  assert (((h + 2097152 - 1) / 2097152 * 2097152) mod 2097152 = 0) as E1 by (by rewrite Z.mod_mul). assert ((h / 2097152 * 2097152 + 5 * 2097152) mod 2097152 = 0) as E2 by (rewrite <- Z.mul_add_distr_r; by rewrite Z.mod_mul).
  destruct (ahead_wanted s); [|split; [lia|done]]. destruct (_ <? _); (split; [lia|done]).
Qed.

Lemma plan_tail_hdr fuel step hi : forall x, sl_hdr (pn_s (plan_tail fuel step hi x)) = sl_hdr (pn_s x).
Proof. induction fuel as [|fuel IH]; intros x; [done|]. cbn [plan_tail]. destruct (negb _ || _ || _); [done|]. destruct (negb (bget HCOMMIT _ _)); by rewrite IH. Qed.

Lemma plan_tails_ok step x rg nh nr : plan_ok x rg nh nr -> tplan_ok (pn_runs x) (plan_tails step x) rg nh nr /\ sl_hdr (pn_s (plan_tails step x)) = sl_hdr (pn_s x).
Proof.
  intros [Hok Hf]. assert (tail_in nh nr (pn_runs x)) as Hno by (intros r g Hr Ht; rewrite Forall_forall in Hf; specialize (Hf r Hr); congruence). unfold plan_tails. destruct (negb _ || _); [by split|]. destruct (tail_lo_spec (pn_s x) nh nr (pn_runs x) rg Hok) as [L1 L2]. destruct (tail_range (pn_s x) nh nr (pn_runs x) rg Hok) as (_ & _ & Hh & _ & Hnh).
  set (s1 := if _ <? _ then _ else _). assert (slots_ok (set_flight (pn_runs x) s1, rg) nh nr) as Hok1 by (unfold s1; destruct (_ <? _); [rewrite set_flight_vset; apply cursor_ok; [by left|done|lia|done]|done]).
  assert (Z.of_nat nh * PCACHE_SLOT <= sl_v s1 A_tail_next) as Hlo by (unfold s1; destruct (Z.ltb_spec (sl_v (pn_s x) A_tail_next) (tail_lo (pn_s x))); [change (Z.of_nat nh * PCACHE_SLOT <= u64 (tail_lo (pn_s x))); rewrite wrap_small by lia|]; lia).
  assert (sl_v s1 A_rtop = sl_v (pn_s x) A_rtop) as Hr by (unfold s1; by destruct (_ <? _)). assert (sl_hdr s1 = sl_hdr (pn_s x)) as Hhd by (unfold s1; by destruct (_ <? _)). rewrite <- Hr. set (y := mk_plan s1 (pn_runs x) (pn_bytes x)).
  assert (tplan_ok (pn_runs x) y rg nh nr) as Hy by (by split). pose proof (plan_tail_ok (S (rslots (sl_cf s1))) step (pn_runs x) y rg nh nr Hy Hlo) as Ht. cbn [pn_s] in Ht. pose proof (plan_tail_hdr (S (rslots (sl_cf s1))) step (sl_v s1 A_rtop / PCACHE_HPS * PCACHE_HPS) y) as Hth. set (w := plan_tail _ step _ y) in *. clearbody w. destruct (_ <=? _); [|split; [done|etransitivity; [exact Hth|exact Hhd]]].
  split; [|cbn [pn_s]; etransitivity; [exact Hth|exact Hhd]]. destruct Ht as [T1 T2 T3 T4]. split; try done. cbn [pn_s]. by apply flight_vset.
Qed.

(** ** Pages *)

Lemma lookup_foldr_delete (l : list Z) (m : gmap Z shdr) x : foldr delete m l !! x = if decide (x ∈ l) then None else m !! x.
Proof.
  induction l as [|c l IH]; cbn [foldr]; [by rewrite decide_False by (by intros ?%not_elem_of_nil)|]. destruct (decide (x = c)) as [->|Hn]; [rewrite lookup_delete_eq, decide_True by (apply list_elem_of_here); done|]. rewrite lookup_delete_ne, IH by done. destruct (decide (x ∈ l)) as [Hx|Hx]; [by rewrite decide_True by (by apply list_elem_of_further)|]. rewrite decide_False; [done|]. by intros [?|?]%elem_of_cons.
Qed.

Lemma lookup_less {A} (l1 : list A) p l2 i q : (l1 ++ l2) !! i = Some q -> (l1 ++ p :: l2) !! (if decide (i < length l1)%nat then i else S i) = Some q.
Proof.
  intros H. destruct (decide _) as [Hi|Hi]; [by rewrite lookup_app_l in H |- * by done|]. rewrite lookup_app_r in H |- * by lia. replace (S i - length l1)%nat with (S (i - length l1)) by lia. exact H.
Qed.

Lemma full_page s p : page_ok s p -> pg_nfree p = Z.of_nat PCACHE_PAGE_SLOTS -> forall ch, ch ∈ page_slots (pg_base p) -> ch ∈ pg_free p.
Proof.
  intros Q Hn ch Hch. destruct (po_free _ _ Q) as (F1 & F2 & F3). assert (pg_free p ≡ₚ page_slots (pg_base p)) as Hp; [|by rewrite Hp].
  apply submseteq_length_Permutation; [apply NoDup_submseteq; done|]. rewrite page_slots_length. unfold zlen in F2. lia.
Qed.

Lemma page_drop_ok s rg nh nr p l1 l2 : slots_ok (set_pages (l1 ++ p :: l2) s, rg) nh nr -> pg_nfree p = Z.of_nat PCACHE_PAGE_SLOTS ->
  slots_ok (set_pages (l1 ++ l2) (page_drop p s), rg) nh nr /\ forall x, slot_used_at (page_drop p s) x <-> slot_used_at s x.
Proof.
  intros Hok Hn. pose proof Hok as [G R P K M T]. cbn [fst snd] in *. set (s0 := set_pages (l1 ++ p :: l2) s) in *. set (s' := set_pages (l1 ++ l2) (page_drop p s)). assert (p ∈ sl_pages s0) as Hpin by (apply elem_of_app; right; apply list_elem_of_here). assert (sl_pages s0 !! length l1 = Some p) as Hpi by (by apply list_lookup_middle).
  assert (forall x, sl_hdr s' !! x = if decide (x ∈ page_slots (pg_base p)) then None else sl_hdr s !! x) as Hh by (intros x; apply lookup_foldr_delete).
  assert (forall i q, (l1 ++ l2) !! i = Some q -> exists j, sl_pages s0 !! j = Some q /\ j = (if decide (i < length l1)%nat then i else S i)) as Hidx by (intros i q Hq; eexists; split; [exact (lookup_less l1 p l2 i q Hq)|done]).
  assert (forall q, q ∈ l1 ++ l2 -> exists j, sl_pages s0 !! j = Some q /\ j <> length l1) as Hin by (intros q [i Hq]%list_elem_of_lookup; destruct (Hidx i q Hq) as (j & Hj & ->); eexists; split; [exact Hj|]; destruct (decide _); lia).
  assert (forall q ch, q ∈ l1 ++ l2 -> ch ∈ page_slots (pg_base q) -> sl_hdr s' !! ch = sl_hdr s !! ch) as Hkq by (intros q ch Hq Hch; destruct (Hin q Hq) as (j & Hj & Hne); rewrite Hh, decide_False; [done|]; intros Hcp; apply Hne; by eapply (page_slots_apart s0 nh j (length l1) q p ch)).
  assert (forall i, (i < nh)%nat -> sl_hdr s' !! rslot_at s i = sl_hdr s !! rslot_at s i) as Hkr by (intros i Hi; rewrite Hh, decide_False; [done|]; apply (res_not_page s0 nh nr i p G P); [pose proof (ge_le _ _ _ G); lia|done]).
  split; [split; cbn [fst snd]|].
  - by apply (geom_same s0).
  - destruct R as [R1 R2 R3]. split; try done. intros i. specialize (R1 i). unfold chunk_pt in *. destruct (Nat.ltb_spec i nh) as [Hi|]; [|done]. destruct R1 as (h & H1 & H2). exists h. split; [|done]. etransitivity; [exact (Hkr i Hi)|exact H1].
  - destruct P as [P1 P2 P3]. split.
    + intros q Hq. destruct (Hin q Hq) as (j & Hj & _). destruct (P1 q ltac:(by eapply list_elem_of_lookup_2)) as [Q1 Q2 Q3 Q4 Q5]. split; try done. intros ch Hch. rewrite (Hkq q ch Hq Hch). by apply Q5.
    + intros i j q r Hi Hj Hij. destruct (Hidx i q Hi) as (i' & Hi' & ->). destruct (Hidx j r Hj) as (j' & Hj' & ->). eapply P2; [exact Hi'|exact Hj'|]. destruct (decide (i < length l1)%nat), (decide (j < length l1)%nat); lia.
    + intros ch h. rewrite Hh. destruct (decide _) as [|Hnp]; [done|]. intros H. destruct (P3 ch h H) as [?|(q & Hq & Hch)]; [by left|]. right. exists q. split; [|done]. change (q ∈ l1 ++ l2). change (q ∈ l1 ++ p :: l2) in Hq. rewrite elem_of_app, elem_of_cons in Hq. rewrite elem_of_app. destruct Hq as [?|[->|?]]; [by left|done|by right].
  - destruct K as [K1 K2 K3 K4]. split; try done. intros b Hb. destruct (K2 b Hb) as (A1 & A2 & A3 & A4). split_and!; try done. intros q Hq. destruct (Hin q Hq) as (j & Hj & _). apply A4. by eapply list_elem_of_lookup_2.
  - assert (zlen (l1 ++ p :: l2) = zlen (l1 ++ l2) + 1) as Hlen by (unfold zlen; rewrite !length_app; cbn [length]; lia). assert (zsum (pg_nfree <$> l1 ++ p :: l2) = zsum (pg_nfree <$> l1 ++ l2) + Z.of_nat PCACHE_PAGE_SLOTS) as Hsum.
    { rewrite <- Hn. clear. induction l1 as [|a l IH]; cbn; [change (foldr Z.add 0) with zsum; lia|]. change (foldr Z.add 0) with zsum in *. cbn in IH. change (list_fmap page Z) with (@fmap list _ page Z) in *. lia. }
    apply (meters_tracked s0 s' nh nr nh nr (fun x => match x with A_nfree_warm | A_slots_total => - Z.of_nat PCACHE_PAGE_SLOTS | A_npages => -1 | A_bytes => - PAGE_BYTES | _ => 0 end) M); [intros x Hx; destruct x; try discriminate; (left; done) || (right; done)|].
    intros x n n' Hx Hx'. destruct x; cbn [meter_of] in *; try discriminate; unfold page_free in *; change (sl_pages s0) with (l1 ++ p :: l2) in Hx; change (sl_pages s') with (l1 ++ l2) in Hx'; rewrite ?Hlen, ?Hsum in Hx; injection Hx as <-; injection Hx' as <-; change (on RWARM s') with (on RWARM s0); change (on RCOLD s') with (on RCOLD s0); change (on ZWARM s') with (on ZWARM s0); change (on ZCOLD s') with (on ZCOLD s0); change (block_bytes s') with (block_bytes s0); change (out_of false s') with (out_of false s0); change (out_of true s') with (out_of true s0); change (sl_cf s') with (sl_cf s0); lia.
  - destruct T as [T1 T2 T3 T4]. by split.
  - intros x. unfold slot_used_at. change (sl_hdr (page_drop p s)) with (sl_hdr s'). rewrite Hh. destruct (decide _) as [Hx|]; [|done]. split; [by intros (? & ? & _)|]. intros (h & H1 & H2). exfalso. destruct (po_hdr _ _ (pa_each _ _ P p Hpin) x Hx) as (h' & H3 & _ & H4). change (sl_hdr s0) with (sl_hdr s) in H3. assert (h_free h' = true) by (apply H4; by apply (full_page s0 p (pa_each _ _ P p Hpin) Hn)). congruence.
Qed.

Lemma page_nfree_le s p : page_ok s p -> pg_nfree p <= Z.of_nat PCACHE_PAGE_SLOTS.
Proof. intros Q. destruct (po_free _ _ Q) as (F1 & F2 & F3). rewrite F2, <- (page_slots_length (pg_base p)). unfold zlen. apply inj_le. by apply submseteq_length, NoDup_submseteq. Qed.

Lemma plan_pages_ok step ps : forall l0 x rg nh nr dn kept any, tplan_ok l0 (mk_plan (set_pages (reverse dn ++ ps) (pn_s x)) (pn_runs x) (pn_bytes x)) rg nh nr ->
  tplan_ok l0 (plan_pages step ps dn kept any x).1 rg nh nr /\ pn_runs (plan_pages step ps dn kept any x).1 = pn_runs x /\ forall c, slot_used_at (pn_s (plan_pages step ps dn kept any x).1) c <-> slot_used_at (pn_s x) c.
Proof.
  induction ps as [|p ps IH]; intros l0 x rg nh nr dn kept any Hx; cbn [plan_pages]; [done|].
  assert (forall kept any, tplan_ok l0 (plan_pages step ps (p :: dn) kept any x).1 rg nh nr /\ pn_runs (plan_pages step ps (p :: dn) kept any x).1 = pn_runs x /\ forall c, slot_used_at (pn_s (plan_pages step ps (p :: dn) kept any x).1) c <-> slot_used_at (pn_s x) c) as Hkeep.
  { intros k a. apply IH. rewrite reverse_cons, <- app_assoc. exact Hx. }
  destruct ((pg_nfree p <? Z.of_nat PCACHE_PAGE_SLOTS) || _) eqn:Hq; [apply Hkeep|]. destruct (kept <? _); [apply Hkeep|]. destruct (negb (fits _ _ _)); [done|]. destruct (negb (floor_allows _ _)); [apply Hkeep|]. clear Hkeep.
  apply orb_false_iff in Hq as [Hq _]. apply Z.ltb_ge in Hq. destruct Hx as [X1 X2 X3 X4]. cbn [pn_s pn_runs] in *. pose proof (so_pages _ _ _ X1) as P. cbn [fst] in P. assert (pg_nfree p = Z.of_nat PCACHE_PAGE_SLOTS) as Hn by (pose proof (page_nfree_le _ p (pa_each _ _ P p ltac:(apply elem_of_app; right; apply list_elem_of_here))); lia).
  destruct (page_drop_ok (set_flight l0 (pn_s x)) rg nh nr p (reverse dn) ps X1 Hn) as [D1 D2]. set (y := mk_plan (page_drop p (pn_s x)) (pn_runs x) (u64 (pn_bytes x + PAGE_BYTES))).
  destruct (IH l0 y rg nh nr dn kept true) as (I1 & I2 & I3); [split; done|]. split_and!; try done. intros c. rewrite I3. exact (D2 c).
Qed.

(** ** The hull of the tail's runs *)

Definition hull_in (s : slots) (nh nr : nat) : Prop := sl_v s A_tail_fl_lo < sl_v s A_tail_fl_hi -> Z.of_nat nh * PCACHE_SLOT <= sl_v s A_tail_fl_lo /\ sl_v s A_tail_fl_hi <= Z.of_nat nr * PCACHE_SLOT.

Lemma hull_vset l s rg nh nr (lo hi : Z) : slots_ok (set_flight l s, rg) nh nr -> Forall (fun r => ru_tail r = false) l -> 0 <= lo < 2 ^ 64 -> 0 <= hi < 2 ^ 64 -> (lo < hi -> Z.of_nat nh * PCACHE_SLOT <= lo /\ hi <= Z.of_nat nr * PCACHE_SLOT) ->
  slots_ok (set_flight l (vset A_tail_fl_hi hi (vset A_tail_fl_lo lo s)), rg) nh nr.
Proof.
  intros [G R P K M T] Hl H1 H2 Hh. split; try done; cbn [fst snd] in *.
  - by apply (geom_same (set_flight l s)).
  - destruct R. by split.
  - destruct P as [P1 P2 P3]. split; try done. intros p Hp. destruct (P1 p Hp). by split.
  - destruct K. by split.
  - intros x m Hx. pose proof (M x m Hx) as Hq. destruct x; try discriminate; exact Hq.
  - destruct T as [T1 T2 T3 T4]. split; try done; [change (u64 lo < u64 hi -> Z.of_nat nh * PCACHE_SLOT <= u64 lo /\ u64 hi <= Z.of_nat nr * PCACHE_SLOT); by rewrite !wrap_small|]. intros r g Hr Ht. rewrite Forall_forall in Hl. specialize (Hl r Hr). congruence.
Qed.

(** One run of the tail. *)
Lemma hull_step s r nh nr l0 rg : slots_ok (set_flight l0 s, rg) nh nr -> Forall (fun r => ru_tail r = false) l0 -> ru_tail r = true ->
  sl_v s A_tail_fl_lo = 0 /\ sl_v s A_tail_fl_hi = 0 \/ 0 <= sl_v s A_tail_fl_lo < sl_v s A_tail_fl_hi ->
  let lo := Z.of_nat (ru_g0 r) * PCACHE_HPS in let hi := Z.of_nat (ru_g0 r + ru_n r) * PCACHE_HPS in
  Z.of_nat nh * PCACHE_SLOT <= lo /\ hi <= Z.of_nat nr * PCACHE_SLOT -> 0 <= lo < hi -> Z.of_nat nr * PCACHE_SLOT < 2 ^ 63 ->
  let s' := fly_tail s r in
  slots_ok (set_flight l0 s', rg) nh nr /\ 0 <= sl_v s' A_tail_fl_lo < sl_v s' A_tail_fl_hi /\ sl_v s' A_tail_fl_lo <= lo /\ hi <= sl_v s' A_tail_fl_hi /\
  (sl_v s A_tail_fl_lo < sl_v s A_tail_fl_hi -> sl_v s' A_tail_fl_lo <= sl_v s A_tail_fl_lo /\ sl_v s A_tail_fl_hi <= sl_v s' A_tail_fl_hi) /\ sl_hdr s' = sl_hdr s.
Proof.
  intros Hok Hl0 Ht Hst lo hi [L1 L2] Llt Hnr s'. pose proof (ta_hull _ _ _ (so_tail _ _ _ Hok)) as Hh0. cbn [fst sl_v set_flight] in Hh0. set (l := sl_v s A_tail_fl_lo) in *. set (h := sl_v s A_tail_fl_hi) in *.
  set (lo' := if (h =? l) || (lo <? l) then lo else l). set (hi' := if hi >? h then hi else h).
  assert (0 <= lo' < hi' /\ lo' <= lo /\ hi <= hi' /\ hi' < 2 ^ 63 /\ Z.of_nat nh * PCACHE_SLOT <= lo' /\ hi' <= Z.of_nat nr * PCACHE_SLOT /\ (l < h -> lo' <= l /\ h <= hi')) as (C1 & C2 & C3 & C4 & C5 & C6 & C7).
  { unfold lo', hi'. rewrite Z.gtb_ltb. destruct (Z.eqb_spec h l) as [He|He]; cbn [orb]; [|destruct (Z.ltb_spec lo l)]; destruct (Z.ltb_spec h hi); destruct Hst as [[? ?]|?]; try lia; destruct (Hh0 ltac:(lia)); lia. }
  assert (0 <= l < 2 ^ 64 /\ 0 <= h < 2 ^ 64) as [B1 B2] by (destruct Hst as [[-> ->]|Hlh]; [lia|]; destruct (Hh0 ltac:(lia)); lia). pose proof (hull_vset l0 s rg nh nr lo' hi' Hok Hl0 ltac:(lia) ltac:(lia) ltac:(done)) as Hok'.
  assert (sl_hdr s' = sl_hdr s /\ alike (set_flight l0 (vset A_tail_fl_hi hi' (vset A_tail_fl_lo lo' s))) (set_flight l0 s')) as [Hhd A].
  { unfold s', fly_tail. rewrite Ht. cbn [negb]. fold lo hi. destruct ((h =? l) || (lo <? l)) eqn:E1; destruct (hi >? h) eqn:E2; unfold l, h in E1, E2; rewrite E1; try change (sl_v (vset A_tail_fl_lo lo s) A_tail_fl_hi) with (sl_v s A_tail_fl_hi); rewrite E2;
      (split; [done|]; split; try done; intros x Hx; destruct x; try done; unfold lo', hi', l, h; rewrite ?E1, ?E2; cbn; rewrite ?(wrap_small (sl_v s A_tail_fl_lo)), ?(wrap_small (sl_v s A_tail_fl_hi)) by done; done). }
  assert (sl_v s' A_tail_fl_lo = lo') as -> by (rewrite (al_v _ _ A A_tail_fl_lo eq_refl : sl_v s' A_tail_fl_lo = _); change (u64 lo' = lo'); rewrite wrap_small; lia).
  assert (sl_v s' A_tail_fl_hi = hi') as -> by (rewrite (al_v _ _ A A_tail_fl_hi eq_refl : sl_v s' A_tail_fl_hi = _); change (u64 hi' = hi'); rewrite wrap_small; lia).
  split_and!; try done; try lia. by eapply alike_ok.
Qed.

(** The fold keeps the hull between the frontiers and takes in each run's groups. *)
Lemma fly_tail_hull l : forall s nh nr l0 rg, slots_ok (set_flight l0 s, rg) nh nr -> Forall (fun r => ru_tail r = false) l0 -> tail_in nh nr l -> Forall (fun r => (0 < ru_n r)%nat) l ->
  sl_v s A_tail_fl_lo = 0 /\ sl_v s A_tail_fl_hi = 0 \/ 0 <= sl_v s A_tail_fl_lo < sl_v s A_tail_fl_hi ->
  let s' := foldl fly_tail s l in
  slots_ok (set_flight l0 s', rg) nh nr /\ tail_fits s' l /\ sl_hdr s' = sl_hdr s /\ (sl_v s A_tail_fl_lo < sl_v s A_tail_fl_hi -> sl_v s' A_tail_fl_lo <= sl_v s A_tail_fl_lo /\ sl_v s A_tail_fl_hi <= sl_v s' A_tail_fl_hi).
Proof.
  induction l as [|r l IH]; intros s nh nr l0 rg Hok Hl0 Hin Hpos Hst; cbn [foldl]; [split_and!; try done; by intros r g Hr%not_elem_of_nil|].
  apply Forall_cons in Hpos as [Hp Hpos]. assert (tail_in nh nr l) as Hin' by (intros q g Hq; apply Hin; by apply list_elem_of_further). destruct (ru_tail r) eqn:Ht.
  - set (lo := Z.of_nat (ru_g0 r) * PCACHE_HPS). set (hi := Z.of_nat (ru_g0 r + ru_n r) * PCACHE_HPS).
    assert (Z.of_nat nh * PCACHE_SLOT <= lo /\ hi <= Z.of_nat nr * PCACHE_SLOT) as [L1 L2].
    { destruct (Hin r (ru_g0 r) (list_elem_of_here _ _) Ht ltac:(apply elem_of_seq; lia)) as [Q1 _]. destruct (Hin r (ru_g0 r + ru_n r - 1)%nat (list_elem_of_here _ _) Ht ltac:(apply elem_of_seq; lia)) as [_ Q2]. split; [done|]. unfold hi. replace (ru_g0 r + ru_n r)%nat with (S (ru_g0 r + ru_n r - 1)) by lia. done. }
    assert (0 <= lo < hi) as Llt by (unfold lo, hi; rewrite hps_val; lia). destruct (rtop_range _ nh nr (so_geom _ _ _ Hok)) as [Hr _]. rewrite (ge_rtop _ _ _ (so_geom _ _ _ Hok)) in Hr.
    pose proof (ta_hull _ _ _ (so_tail _ _ _ Hok)) as Hh0. cbn [fst sl_v set_flight] in Hh0. destruct (hull_step s r nh nr l0 rg Hok Hl0 Ht Hst (conj L1 L2) Llt ltac:(lia)) as (S1 & S2 & S3 & S4 & S5 & S6). fold lo in S3. fold hi in S4.
    destruct (IH (fly_tail s r) nh nr l0 rg S1 Hl0 Hin' Hpos ltac:(right; lia)) as (I1 & I2 & I3 & I4). specialize (I4 ltac:(lia)). split_and!; [done| |congruence|lia].
    intros q g [->|Hq]%elem_of_cons Hqt Hg; [|by apply (I2 q g)]. apply elem_of_seq in Hg. assert (lo <= Z.of_nat g * PCACHE_HPS /\ Z.of_nat (S g) * PCACHE_HPS <= hi) by (unfold lo, hi; rewrite hps_val; lia). lia.
  - assert (fly_tail s r = s) as -> by (unfold fly_tail; by rewrite Ht). destruct (IH s nh nr l0 rg Hok Hl0 Hin' Hpos Hst) as (I1 & I2 & I3 & I4). split_and!; try done. intros q g [->|Hq]%elem_of_cons Hqt Hg; [congruence|by apply (I2 q g)].
Qed.

(** ** The whole of phase one *)

Definition all_pos (l : list punch_run) : Prop := Forall (fun r => (0 < ru_n r)%nat) l.

(** What a loop of the plan leaves alone. *)
Record plan_frame (x y : plan) : Prop := { pf_flight : sl_flight (pn_s y) = sl_flight (pn_s x); pf_hdr : sl_hdr (pn_s y) = sl_hdr (pn_s x); pf_pos : all_pos (pn_runs x) -> all_pos (pn_runs y) }.

#[global] Instance plan_frame_refl : Reflexive plan_frame.
Proof. by split. Qed.
#[global] Instance plan_frame_trans : Transitive plan_frame.
Proof. intros a b c [A1 A2 A3] [B1 B2 B3]. split; [congruence|congruence|auto]. Qed.

Lemma add_run_pos t z g l : all_pos l -> all_pos (add_run t z g l).
Proof.
  intros H. destruct l as [|r l]; cbn [add_run]; [apply Forall_cons; split; [cbn; lia|done]|]. destruct (_ && _); [|apply Forall_cons; split; [cbn; lia|done]]. apply Forall_cons in H as [H1 H2]. apply Forall_cons. split; [cbn; lia|done].
Qed.

Lemma take_frame b g s : sl_flight (take_group b g s) = sl_flight s /\ sl_hdr (take_group b g s) = sl_hdr s.
Proof. destruct (fold_frame (fun s i => bclr b i s) (group_slots g) ltac:(done) s) as (_ & _ & _ & _ & A5 & A6 & _). by split. Qed.

Lemma plan_chunks_frame step gs : forall x, plan_frame x (plan_chunks step gs x).
Proof.
  induction gs as [|g gs IH]; intros x; [done|]. cbn [plan_chunks]. destruct (negb (more_runs x)); [done|]. destruct (negb _ || _); [done|]. destruct (negb _ || _); [done|]. etransitivity; [|apply IH]. destruct (take_frame RWARM g (pn_s x)) as [T1 T2]. split; [exact T1|exact T2|apply add_run_pos].
Qed.

Lemma plan_zone_frame step gs : forall x, plan_frame x (plan_zone step gs x).
Proof.
  induction gs as [|g gs IH]; intros x; [done|]. cbn [plan_zone]. destruct (negb (more_runs x) || _); [done|]. destruct (negb _); [done|]. destruct (negb _ || _); [done|]. etransitivity; [|apply IH]. destruct (take_frame ZWARM g (pn_s x)) as [T1 T2]. split; [exact T1|exact T2|apply add_run_pos].
Qed.

Lemma plan_tail_frame fuel step hi : forall x, plan_frame x (plan_tail fuel step hi x).
Proof. induction fuel as [|fuel IH]; intros x; [done|]. cbn [plan_tail]. destruct (negb _ || _ || _); [done|]. destruct (negb (bget HCOMMIT _ _)); (etransitivity; [|apply IH]); split; try done. apply add_run_pos. Qed.

Lemma plan_tails_frame step x : plan_frame x (plan_tails step x).
Proof.
  unfold plan_tails. destruct (negb _ || _); [done|]. set (y := mk_plan _ _ _). assert (plan_frame x y) as Hy by (unfold y; destruct (_ <? _); by split). pose proof (plan_tail_frame (S (rslots (sl_cf (pn_s y)))) step (sl_v (pn_s x) A_rtop / PCACHE_HPS * PCACHE_HPS) y) as Hw.
  change (pn_s y) with (if sl_v (pn_s x) A_tail_next <? tail_lo (pn_s x) then vset A_tail_next (tail_lo (pn_s x)) (pn_s x) else pn_s x) in Hw. assert (plan_frame x (plan_tail (S (rslots (sl_cf (if sl_v (pn_s x) A_tail_next <? tail_lo (pn_s x) then vset A_tail_next (tail_lo (pn_s x)) (pn_s x) else pn_s x)))) step (sl_v (pn_s x) A_rtop / PCACHE_HPS * PCACHE_HPS) y)) as Ht by (etransitivity; [exact Hy|exact Hw]).
  destruct (_ <=? _); [|exact Ht]. etransitivity; [exact Ht|]. by split.
Qed.

Lemma unwindow_frame x : plan_frame x (mk_plan (unwindow (pn_s x)) (pn_runs x) (pn_bytes x)).
Proof. unfold unwindow. destruct (negb _ && _); [|by split]. destruct (_ >? _); by split. Qed.

Lemma set_flight_id s : set_flight (sl_flight s) s = s.
Proof. by destruct s. Qed.

Lemma plan_reservation_ok step s rg nh nr : slots_ok (s, rg) nh nr -> sl_flight s = [] -> let x := plan_reservation step s in
  (exists l0, tplan_ok l0 x rg nh nr) /\ plan_frame (mk_plan s [] 0) x.
Proof.
  intros Hok Hf. cbn zeta. unfold plan_reservation. set (x0 := mk_plan s [] 0). assert (plan_ok x0 rg nh nr) as H0 by (split; [cbn [pn_runs pn_s x0]; rewrite <- Hf, set_flight_id; exact Hok|constructor]).
  destruct (negb (reserved s)); [split; [exists []; split; [apply H0|constructor|done|by intros r g ?%not_elem_of_nil]|done]|].
  set (x1 := if sl_v s A_giveback_off =? 0 then _ else x0). assert (plan_ok x1 rg nh nr /\ plan_frame x0 x1) as [H1 F1] by (unfold x1; destruct (_ =? 0); [split; [by apply plan_chunks_ok|apply plan_chunks_frame]|done]). clearbody x1.
  set (x2 := if _ && _ then _ else x1). assert (plan_ok x2 rg nh nr /\ plan_frame x1 x2) as [H2 F2] by (unfold x2; destruct (_ && _); [split; [by apply plan_zone_ok|apply plan_zone_frame]|done]). clearbody x2.
  set (x3 := mk_plan (unwindow (pn_s x2)) (pn_runs x2) (pn_bytes x2)). assert (plan_ok x3 rg nh nr) as H3 by (destruct H2 as [H2 H2']; split; [apply (unwindow_ok (pn_s x2) (pn_runs x2) rg nh nr H2)|done]).
  destruct (plan_tails_ok step x3 rg nh nr H3) as [H4 _]. split; [by exists (pn_runs x3)|]. transitivity x1; [exact F1|]. transitivity x2; [exact F2|]. transitivity x3; [apply unwindow_frame|apply plan_tails_frame].
Qed.

Lemma fly_perm z l l' : l ≡ₚ l' -> fly z l ≡ₚ fly z l'.
Proof. intros H. unfold fly. induction H as [|x l l' H IH|x y l|l1 l2 l3 H1 IH1 H2 IH2]; [done| | |by etransitivity]; rewrite !filter_cons; repeat destruct (decide _); cbn; rewrite ?IH; try done. rewrite !app_assoc. by rewrite (Permutation_app_comm (run_groups y) (run_groups x)). Qed.

Lemma plan_pages_flight step ps : forall x dn kept any, sl_flight (pn_s (plan_pages step ps dn kept any x).1) = sl_flight (pn_s x).
Proof.
  induction ps as [|p ps IH]; intros x dn kept any; cbn [plan_pages]; [done|]. destruct (_ || _); [apply IH|]. destruct (_ <? _); [apply IH|]. destruct (negb _); [done|]. destruct (negb _); [apply IH|]. by rewrite IH.
Qed.

(** [giveback_tick] to the point where it lets the lock go. *)
Lemma giveback_plan_ok s rg nh nr : slots_ok (s, rg) nh nr -> sl_flight s = [] -> slots_ok ((giveback_plan s).1, rg) nh nr /\ forall x, slot_used_at (giveback_plan s).1 x <-> slot_used_at s x.
Proof.
  intros Hok Hf. unfold giveback_plan. assert (alike s (off_ceiling s)) as A by (unfold off_ceiling; destruct (_ && _); alike_tac). set (s0 := off_ceiling s) in *. clearbody s0. pose proof (alike_ok _ _ _ _ _ A Hok) as Hok0. assert (sl_flight s0 = []) as Hf0 by (rewrite (al_flight _ _ A); done).
  assert (forall x, slot_used_at s0 x <-> slot_used_at s x) as Hu0 by (intros x; by apply alike_used). destruct (negb _ || _); [done|]. destruct (plan_reservation_ok (shrink_step s0) s0 rg nh nr Hok0 Hf0) as [(l0 & Hx) [F1 F2 F3]]. set (x := plan_reservation _ s0) in *. clearbody x. cbn [pn_s pn_runs] in F1, F2, F3. specialize (F3 ltac:(constructor)).
  destruct (plan_pages_ok (shrink_step s0) (sl_pages (pn_s x)) l0 x rg nh nr [] 0 false) as (P1 & P2 & P3); [replace (set_pages (reverse [] ++ sl_pages (pn_s x)) (pn_s x)) with (pn_s x) by (cbn; by destruct (pn_s x)); by destruct x|].
  pose proof (plan_pages_flight (shrink_step s0) (sl_pages (pn_s x)) x [] 0 false) as Pf. destruct (plan_pages _ _ _ _ _ x) as [y freed]. cbn [fst] in *. assert (forall c, slot_used_at (pn_s y) c <-> slot_used_at s c) as Hu by (intros c; rewrite P3, <- Hu0; unfold slot_used_at; by rewrite F2). destruct P1 as [Y1 Y2 Y3 Y4].
  assert (slots_ok (set_flight (reverse (pn_runs y)) (foldl fly_tail (vset A_tail_fl_hi 0 (vset A_tail_fl_lo 0 (pn_s y))) (reverse (pn_runs y))), rg) nh nr /\ sl_hdr (foldl fly_tail (vset A_tail_fl_hi 0 (vset A_tail_fl_lo 0 (pn_s y))) (reverse (pn_runs y))) = sl_hdr (pn_s y)) as [E1 E2].
  { destruct (fly_tail_hull (reverse (pn_runs y)) (vset A_tail_fl_hi 0 (vset A_tail_fl_lo 0 (pn_s y))) nh nr l0 rg) as (Q1 & Q2 & Q3 & _); try done.
    - apply hull_vset; try done; lia.
    - intros r g Hr. apply Y4. by rewrite elem_of_reverse in Hr.
    - apply Forall_reverse. rewrite P2. exact F3.
    - by left.
    - split; [|exact Q3]. apply (flight_ok _ rg nh nr l0); [exact Q1| |exact Q2]. intros z. rewrite <- Y3. apply fly_perm, reverse_Permutation. }
  destruct (pn_runs y) as [|r runs] eqn:Hr; [destruct freed|].
  - split; [exact E1|]. intros c. rewrite <- Hu. unfold slot_used_at. by rewrite <- E2.
  - cbn [fst]. split; [|exact Hu]. rewrite <- (set_flight_id (pn_s y)), Pf, F1, Hf0. apply (flight_ok _ rg nh nr l0 [] Y1); [intros z; by rewrite <- Y3|by intros r g ?%not_elem_of_nil].
  - split; [exact E1|]. intros c. rewrite <- Hu. unfold slot_used_at. by rewrite <- E2.
Qed.

(** * Phase three *)

Lemma alike_flight l s s' : alike s s' -> alike (set_flight l s) (set_flight l s').
Proof. intros [A1 A2 A3 A4 A5 A6 A7]. by split. Qed.

Lemma vadd_twice x a b s : alike (vadd x a (vadd x b s)) (vadd x (a + b) s).
Proof.
  split; try done. intros y _. unfold vadd, vset. cbn [sl_v]. destruct (decide (y = x)) as [->|]; [|done]. rewrite decide_True by done. rewrite wrap_add. f_equal. lia.
Qed.

Lemma alike_vadd_any x d s s' : alike s s' -> free_av x = false -> alike (vadd x d s) (vadd x d s').
Proof. intros A Hx. destruct A as [A1 A2 A3 A4 A5 A6 A7]. split; try done. intros y Hy. unfold vadd, vset. cbn [sl_v]. destruct (decide (y = x)) as [->|]; [by rewrite A2|by apply A2]. Qed.

Lemma put_vadd b x d g t : put_group b (vadd x d t) g = vadd x d (put_group b t g).
Proof. unfold put_group. generalize (group_slots g). intros l. revert t. induction l as [|i l IH]; intros t; [done|]. cbn [foldl]. apply (IH (bset b i t)). Qed.

Lemma puts_vadd b x d l : forall t, foldl (put_group b) (vadd x d t) l = vadd x d (foldl (put_group b) t l).
Proof. induction l as [|g l IH]; intros t; [done|]. cbn [foldl]. rewrite put_vadd. apply IH. Qed.

Lemma put_frame b s g : sl_cf (put_group b s g) = sl_cf s /\ sl_v (put_group b s g) = sl_v s /\ sl_pages (put_group b s g) = sl_pages s /\ sl_regions (put_group b s g) = sl_regions s /\ sl_hdr (put_group b s g) = sl_hdr s /\ sl_flight (put_group b s g) = sl_flight s.
Proof. destruct (fold_frame (fun s i => bset b i s) (group_slots g) ltac:(done) s) as (A1 & A2 & A3 & A4 & A5 & A6 & _). by split_and!. Qed.

Definition put_one (b : bm) (x : av) (t : slots) (g : nat) : slots := vadd x (Z.of_nat PCACHE_GROUP_SLOTS) (put_group b t g).

(** The groups of a run and one addition for them all, or one by one. *)
Lemma puts_once b x l : free_av x = false -> forall t, sl_v t x = av_wrap x (sl_v t x) -> alike (foldl (put_one b x) t l) (vadd x (Z.of_nat (PCACHE_GROUP_SLOTS * length l)) (foldl (put_group b) t l)).
Proof.
  intros Hx. induction l as [|g l IH]; intros t Ht; cbn [foldl length].
  - rewrite Nat.mul_0_r. split; try done. intros y _. unfold vadd, vset. cbn [sl_v]. destruct (decide (y = x)) as [->|]; [|done]. rewrite Z.add_0_r. by rewrite <- Ht.
  - etransitivity; [apply IH|].
    + unfold put_one, vadd, vset. cbn [sl_v]. rewrite decide_True by done. by rewrite wrap_idem.
    + unfold put_one at 1. rewrite puts_vadd. etransitivity; [apply vadd_twice|]. replace (Z.of_nat (PCACHE_GROUP_SLOTS * length l) + Z.of_nat PCACHE_GROUP_SLOTS) with (Z.of_nat (PCACHE_GROUP_SLOTS * S (length l))) by lia. done.
Qed.

Definition drop_run (g0 k : nat) (z : bool) (l : list punch_run) : list punch_run := mk_run g0 k false z :: l.

Lemma drop_joins z g0 k l : joins z g0 (drop_run (S g0) k z l) (drop_run g0 (S k) z l).
Proof. unfold drop_run. split; rewrite !fly_cons; cbn [ru_tail ru_zone]; [by rewrite !decide_True by done|]. by rewrite !decide_False by (intros [_ ?]; destruct z; done). Qed.

Lemma drop_none z g0 l y : fly y (drop_run g0 0 z l) = fly y l.
Proof. unfold drop_run. rewrite fly_cons. cbn [ru_tail ru_zone]. by destruct (decide (false = false /\ z = y)). Qed.

(** A run's groups come down one by one, on the map [b]. *)
Lemma puts_ok (f : slots -> nat -> slots) b z : map_of z b ->
  (forall t g, sl_cf (f t g) = sl_cf t /\ sl_hdr (f t g) = sl_hdr t /\ sl_pages (f t g) = sl_pages t /\ sl_regions (f t g) = sl_regions t /\ sl_maps (f t g) = sl_maps (put_group b t g) /\
    forall x, free_av x = false -> sl_v (f t g) x = if decide (put_delta b x = 0) then sl_v t x else av_wrap x (sl_v t x + put_delta b x)) ->
  forall k t g0 l rg nh nr, Forall (fun r => ru_tail r = false) l -> slots_ok (set_flight (drop_run g0 k z l) t, rg) nh nr -> slots_ok (set_flight l (foldl f t (seq g0 k)), rg) nh nr.
Proof.
  intros Hb Hf k. induction k as [|k IH]; intros t g0 l rg nh nr Hl Hok.
  - cbn [seq foldl]. apply (flight_ok _ rg nh nr _ _ Hok); [intros y; by rewrite drop_none|by apply no_tail_fits].
  - cbn [seq foldl]. apply IH; [done|]. destruct (Hf t g0) as (F1 & F2 & F3 & F4 & F5 & F6). eapply (put_group_ok t (f t g0) rg nh nr z b g0); try done; [apply drop_joins|]. apply no_tail_fits. by apply Forall_cons.
Qed.

Lemma land_group_facts (z : bool) b t g : b = (if z then ZCOLD else RCOLD) -> let f := land_group b (cold_meter z) in
  sl_cf (f t g) = sl_cf t /\ sl_hdr (f t g) = sl_hdr t /\ sl_pages (f t g) = sl_pages t /\ sl_regions (f t g) = sl_regions t /\ sl_maps (f t g) = sl_maps (put_group b t g) /\
  forall x, free_av x = false -> sl_v (f t g) x = if decide (put_delta b x = 0) then sl_v t x else av_wrap x (sl_v t x + put_delta b x).
Proof.
  intros -> f. destruct (put_frame (if z then ZCOLD else RCOLD) t g) as (A1 & A2 & A3 & A4 & A5 & A6). split_and!; try done. unfold f, land_group. set (u := put_group _ t g) in *. clearbody u. intros x Hx. destruct z; destruct x; try discriminate; cbn; rewrite A2; done.
Qed.

Lemma put_one_facts z t g : let f := put_one (warm_map z) (warm_meter z) in
  sl_cf (f t g) = sl_cf t /\ sl_hdr (f t g) = sl_hdr t /\ sl_pages (f t g) = sl_pages t /\ sl_regions (f t g) = sl_regions t /\ sl_maps (f t g) = sl_maps (put_group (warm_map z) t g) /\
  forall x, free_av x = false -> sl_v (f t g) x = if decide (put_delta (warm_map z) x = 0) then sl_v t x else av_wrap x (sl_v t x + put_delta (warm_map z) x).
Proof.
  intros f. destruct (put_frame (warm_map z) t g) as (A1 & A2 & A3 & A4 & A5 & A6). split_and!; try done. unfold f, put_one. set (u := put_group _ t g) in *. clearbody u. intros x Hx. destruct z; destruct x; try discriminate; cbn; rewrite A2; done.
Qed.

Definition still (s s' : slots) : Prop := sl_hdr s' = sl_hdr s /\ sl_flight s' = sl_flight s.

Lemma foldl_still {A} (f : slots -> A -> slots) l : (forall t a, still t (f t a)) -> forall t, still t (foldl f t l).
Proof. intros Hf. induction l as [|a l IH]; intros t; [done|]. cbn [foldl]. destruct (IH (f t a)) as [H1 H2]. destruct (Hf t a) as [H3 H4]. split; congruence. Qed.

Lemma alike_still s s' : alike s s' -> still s s'.
Proof. intros A. split; [apply (al_hdr _ _ A)|apply (al_flight _ _ A)]. Qed.

Lemma uncommit_alike t g : alike t (uncommit t g).
Proof. unfold uncommit. destruct (bget HCOMMIT g t); alike_tac. Qed.

Lemma uncommits_alike l : forall t, alike t (foldl uncommit t l).
Proof. induction l as [|g l IH]; intros t; [done|]. cbn [foldl]. etransitivity; [apply uncommit_alike|apply IH]. Qed.

Lemma punched_alike r t : alike t (punched r t).
Proof. unfold punched. alike_tac. Qed.

(** The runs of chunks and zone among those in flight. *)
Definition nt (l : list punch_run) : list punch_run := filter (fun r => ru_tail r = false) l.

Lemma nt_fly z l : fly z (nt l) = fly z l.
Proof. unfold nt. induction l as [|r l IH]; [done|]. rewrite filter_cons, (fly_cons z r l). destruct (decide (ru_tail r = false)) as [Ht|Ht]; [by rewrite fly_cons, IH|]. rewrite IH. by rewrite decide_False by tauto. Qed.

Lemma nt_all l : Forall (fun r => ru_tail r = false) (nt l).
Proof. apply Forall_forall. intros r Hr. by apply list_elem_of_filter in Hr as [? _]. Qed.

Lemma nt_run r l : nt (r :: l) = if decide (ru_tail r = false) then drop_run (ru_g0 r) (ru_n r) (ru_zone r) (nt l) else nt l.
Proof. unfold nt. rewrite filter_cons. destruct (decide (ru_tail r = false)) as [Ht|]; [|done]. unfold drop_run. f_equal. destruct r; cbn in *. by rewrite Ht. Qed.

Lemma land_group_still b x t g : still t (land_group b x t g).
Proof. destruct (put_frame b t g) as (_ & _ & _ & _ & A5 & A6). by split. Qed.

Lemma land_run_still t r : still t (land_run t r).
Proof.
  unfold land_run. pose proof (alike_still _ _ (uncommits_alike (run_groups r) t)) as [U1 U2]. set (u := foldl uncommit t (run_groups r)) in *. clearbody u. set (v := if _ =? 0 then u else _). assert (still u v) as [V1 V2] by (unfold v; by destruct (_ =? 0)). clearbody v.
  destruct (ru_tail r); [split; etransitivity; [exact V1|exact U1|exact V2|exact U2]|]. destruct (ru_zone r); [destruct (foldl_still (land_group ZCOLD A_nzfree_cold) (run_groups r) (land_group_still _ _) v) as [W1 W2]|destruct (foldl_still (land_group RCOLD A_nfree_cold) (run_groups r) (land_group_still _ _) v) as [W1 W2]]; (split; [etransitivity; [exact W1|congruence]|etransitivity; [exact W2|congruence]]).
Qed.

Lemma land_run_ok t r l rg nh nr : slots_ok (set_flight (nt (r :: l)) t, rg) nh nr -> slots_ok (set_flight (nt l) (land_run t r), rg) nh nr.
Proof.
  rewrite nt_run. intros Hok. unfold land_run. assert (alike t (let u := foldl uncommit t (run_groups r) in if sl_v u A_pinned =? 0 then u else vset A_hlocked_mb (Z.shiftr (sl_v u A_committed) 20) u)) as A by (cbn zeta; etransitivity; [apply (uncommits_alike (run_groups r))|]; destruct (_ =? 0); alike_tac).
  cbn zeta in A |- *. set (v := if _ =? 0 then _ else _) in *. clearbody v. pose proof (alike_ok _ _ _ _ _ (alike_flight _ _ _ A) Hok) as Hok1. destruct (ru_tail r) eqn:Ht; cbn [decide] in Hok1.
  - rewrite decide_False in Hok1 by done. eapply alike_ok; [|exact Hok1]. apply alike_flight. etransitivity; [apply (punched_alike r)|]. alike_tac.
  - rewrite decide_True in Hok1 by done. destruct (ru_zone r) eqn:Hz; (eapply alike_ok; [apply alike_flight, punched_alike|]).
    + apply (puts_ok (land_group ZCOLD A_nzfree_cold) ZCOLD true ltac:(by right) (fun t g => land_group_facts true ZCOLD t g eq_refl) (ru_n r)); [apply nt_all|exact Hok1].
    + apply (puts_ok (land_group RCOLD A_nfree_cold) RCOLD false ltac:(by right) (fun t g => land_group_facts false RCOLD t g eq_refl) (ru_n r)); [apply nt_all|exact Hok1].
Qed.

Lemma refuse_run_still t r : still t (refuse_run t r).
Proof.
  unfold refuse_run. destruct (ru_tail r); [done|]. assert (forall b t g, still t (put_group b t g)) as Hp by (intros b u g; destruct (put_frame b u g) as (_ & _ & _ & _ & A5 & A6); by split).
  destruct (ru_zone r); [destruct (foldl_still (put_group ZWARM) (run_groups r) (Hp _) t) as [W1 W2]|destruct (foldl_still (put_group RWARM) (run_groups r) (Hp _) t) as [W1 W2]]; by split.
Qed.

Lemma refuse_run_ok t r l rg nh nr : slots_ok (set_flight (nt (r :: l)) t, rg) nh nr -> slots_ok (set_flight (nt l) (refuse_run t r), rg) nh nr.
Proof.
  rewrite nt_run. intros Hok. unfold refuse_run. destruct (ru_tail r) eqn:Ht; [rewrite decide_False in Hok by done; eapply alike_ok; [apply alike_flight, alike_vset; done|exact Hok]|]. rewrite decide_True in Hok by done. pose proof (so_meters _ _ _ Hok) as M. cbn [fst] in M.
  assert (length (run_groups r) = ru_n r) as Hlen by (unfold run_groups; by rewrite length_seq). destruct (ru_zone r) eqn:Hz.
  - assert (sl_v t A_nzfree_warm = av_wrap A_nzfree_warm (sl_v t A_nzfree_warm)) as Hw by (pose proof (M A_nzfree_warm _ eq_refl) as Hm; cbn [sl_v set_flight] in Hm; rewrite Hm; by rewrite wrap_idem).
    pose proof (puts_once ZWARM A_nzfree_warm (run_groups r) eq_refl t Hw) as A. rewrite Hlen in A. eapply alike_ok; [apply alike_flight; exact A|]. apply (puts_ok (put_one ZWARM A_nzfree_warm) ZWARM true ltac:(by left) (put_one_facts true) (ru_n r)); [apply nt_all|exact Hok].
  - assert (sl_v t A_nfree_warm = av_wrap A_nfree_warm (sl_v t A_nfree_warm)) as Hw by (pose proof (M A_nfree_warm _ eq_refl) as Hm; cbn [sl_v set_flight] in Hm; rewrite Hm; by rewrite wrap_idem).
    pose proof (puts_once RWARM A_nfree_warm (run_groups r) eq_refl t Hw) as A. rewrite Hlen in A. eapply alike_ok; [apply alike_flight; exact A|]. apply (puts_ok (put_one RWARM A_nfree_warm) RWARM false ltac:(by left) (put_one_facts false) (ru_n r)); [apply nt_all|exact Hok].
Qed.

Lemma runs_ok (f : slots -> punch_run -> slots) : (forall t r l rg nh nr, slots_ok (set_flight (nt (r :: l)) t, rg) nh nr -> slots_ok (set_flight (nt l) (f t r), rg) nh nr) ->
  forall l l' t rg nh nr, slots_ok (set_flight (nt (l ++ l')) t, rg) nh nr -> slots_ok (set_flight (nt l') (foldl f t l), rg) nh nr.
Proof. intros Hf l. induction l as [|r l IH]; intros l' t rg nh nr Hok; [done|]. cbn [foldl]. apply IH. by apply Hf. Qed.

(** [giveback_tick] from where it has the lock again. *)
Lemma giveback_land_ok k s rg nh nr : slots_ok (s, rg) nh nr -> exists nr', slots_ok (giveback_land k s, rg) nh nr' /\ (forall x, slot_used_at (giveback_land k s) x <-> slot_used_at s x).
Proof.
  intros Hok. unfold giveback_land. set (runs := sl_flight s). set (s0 := vset A_tail_fl_hi 0 (vset A_tail_fl_lo 0 s)). set (s1 := set_flight [] s0).
  assert (slots_ok (set_flight (nt runs) s1, rg) nh nr) as H1.
  { change (set_flight (nt runs) s1) with (set_flight (nt runs) s0). apply hull_vset; [|apply nt_all|lia|lia|lia]. apply (flight_ok s rg nh nr runs); [unfold runs; by rewrite set_flight_id|intros z; by rewrite nt_fly|apply no_tail_fits, nt_all]. }
  rewrite <- (take_drop k runs) in H1. pose proof (runs_ok land_run land_run_ok _ _ _ _ _ _ H1) as H2. pose proof (foldl_still land_run (take k runs) land_run_still s1) as [S1 S2]. set (s2 := foldl land_run s1 (take k runs)) in *. clearbody s2.
  set (s3 := match drop k runs with [] => s2 | _ => _ end). assert (slots_ok (set_flight [] s3, rg) nh nr /\ still s2 s3) as [H3 [S3 S4]].
  { unfold s3. destruct (drop k runs) as [|r l] eqn:Hd; [done|]. pose proof (foldl_still refuse_run (r :: l) refuse_run_still (vset A_giveback_off 1 s2)) as [Q1 Q2]. split; [|by split]. apply (runs_ok refuse_run refuse_run_ok (r :: l) []). rewrite app_nil_r. by apply flight_vset. }
  clearbody s3. assert (slots_ok (s3, rg) nh nr) as H4 by (rewrite <- (set_flight_id s3), S4, S2; exact H3). destruct (zone_raise_ok s3 rg nh nr H4) as (nr' & H5 & H6). exists nr'. split; [exact H5|]. intros x. unfold slot_used_at. rewrite H6, S3, S1. done.
Qed.

(** * Commit ahead *)

Lemma ahead_loop_ok e n : forall off s rg nh nr, slots_ok (s, rg) nh nr -> 0 <= off -> off mod PCACHE_HPS = 0 -> slots_ok (ahead_loop e n off s, rg) nh nr /\ sl_hdr (ahead_loop e n off s) = sl_hdr s /\ sl_flight (ahead_loop e n off s) = sl_flight s.
Proof.
  induction n as [|n IH]; intros off s rg nh nr Hok H0 Hm; [done|]. cbn [ahead_loop]. destruct (Z.ltb_spec (sl_v s A_rtop) (off + PCACHE_HPS)) as [|Hle]; [done|]. destruct (rtop_range s nh nr (so_geom _ _ _ Hok)) as [Hr _]. set (s1 := if _ || _ then _ else s).
  assert (slots_ok (s1, rg) nh nr /\ sl_hdr s1 = sl_hdr s /\ sl_flight s1 = sl_flight s) as (H1 & S1 & S2) by (unfold s1; destruct (_ || _); [split_and!; try done; apply cursor_ok; [by right|done|rewrite hps_val in *; lia|done]|done]). clearbody s1.
  assert (0 <= off + PCACHE_HPS /\ (off + PCACHE_HPS) mod PCACHE_HPS = 0) as [N1 N2] by (rewrite hps_val in *; split; [lia|]; rewrite <- (Z.mul_1_l 2097152) at 1; by rewrite Z.mod_add by lia).
  destruct (bget HCOMMIT _ s1); [destruct (IH (off + PCACHE_HPS) s1 rg nh nr H1 N1 N2) as (I1 & I2 & I3); split_and!; [done|congruence|congruence]|]. set (g := Z.to_nat _). pose proof (group_commit_alike e g s1) as A. destruct (group_commit e g s1) as [s2 ok]. cbn [fst] in A. pose proof (alike_ok _ _ _ _ _ A H1) as H2. destruct (negb ok).
  - split_and!; [done|rewrite (al_hdr _ _ A); done|rewrite (al_flight _ _ A); done].
  - destruct (IH (off + PCACHE_HPS) (vadd A_commits_ahead 1 s2) rg nh nr ltac:(eapply alike_ok; [apply alike_vadd; done|exact H2]) N1 N2) as (I1 & I2 & I3). split_and!; [done|rewrite I2; etransitivity; [apply (al_hdr _ _ A)|done]|rewrite I3; etransitivity; [apply (al_flight _ _ A)|done]].
Qed.

Lemma commit_ahead_ok e s rg nh nr : slots_ok (s, rg) nh nr -> slots_ok (commit_ahead e s, rg) nh nr /\ sl_hdr (commit_ahead e s) = sl_hdr s /\ sl_flight (commit_ahead e s) = sl_flight s.
Proof.
  intros Hok. unfold commit_ahead. destruct (negb _ || _ || _); [done|]. destruct (rtop_range s nh nr (so_geom _ _ _ Hok)) as [_ Hh]. destruct (floor_hps (sl_v s A_hoff) ltac:(lia)) as [F1 F2]. apply ahead_loop_ok; [done|lia|done].
Qed.
