(* ===== verification/Arena.v ===== *)
(** The arena as a whole ([core/pcache_arena.c]): the slot layer under the cell layer.

    The slot layer with its regions and its give-back ([ArenaSlot]) is a source of slots
    ([SlotSource]), by the invariant of [ArenaSlotOk] and [ArenaGive]; so a run of the
    whole arena, from [pcache_arena_init] on, is a run of [astep], and what [ArenaCensus]
    shows of every source holds of it. *)

From Stdlib Require Import ZArith Lia.
From stdpp Require Import base tactics list numbers gmap.
From S2P Require Import Prelude HtBase ArenaCell ArenaCensus ArenaSlot ArenaSlotOk ArenaGive.
#[local] Open Scope Z_scope.

(** The slot layer and the regions its users have. *)
Abbreviation layer := (slots * list (Z * Z))%type.

(** What it does besides giving out chunks' slots.  One thread gives memory back, and its
    second phase ends before its next first one; the host takes any number of its runs. *)
Inductive sstep : layer -> layer -> Prop :=
  | sl_region e size s rg : 0 < size < 2 ^ 63 ->
      sstep (s, rg) ((pcache_region_alloc e size s).1, match (pcache_region_alloc e size s).2 with Some p => (p, size) :: rg | None => rg end)
  | sl_region_free p size s l1 l2 : sstep (s, l1 ++ (p, size) :: l2) ((pcache_region_free p size s).1, l1 ++ l2)
  | sl_ahead e s rg : sstep (s, rg) (commit_ahead e s, rg)
  | sl_plan s rg : sl_flight s = [] -> sstep (s, rg) ((giveback_plan s).1, rg)
  | sl_land k s rg : sstep (s, rg) (giveback_land k s, rg).

Definition layer_ok (x : layer) : Prop := exists nh nr, slots_ok x nh nr.

Lemma sstep_ok x y : layer_ok x -> sstep x y -> layer_ok y /\ forall c, slot_used_at y.1 c <-> slot_used_at x.1 c.
Proof.
  intros (nh & nr & Hok) Hs. destruct Hs as [e size s rg H0|p size s l1 l2|e s rg|s rg Hf|k s rg]; cbn [fst].
  - destruct (region_alloc_ok e s rg nh nr size Hok H0) as [H1 [nr' H2]]. split; [by exists nh, nr'|]. intros c. unfold slot_used_at. by rewrite H1.
  - destruct (region_free_ok s (l1 ++ l2) nh nr p size) as (nr' & H1 & H2 & _); [eapply perm_ok; [exact Hok|]; by rewrite Permutation_middle|]. split; [by exists nh, nr'|]. intros c. unfold slot_used_at. by rewrite H2.
  - destruct (commit_ahead_ok e s rg nh nr Hok) as (H1 & H2 & _). split; [by exists nh, nr|]. intros c. unfold slot_used_at. by rewrite H2.
  - destruct (giveback_plan_ok s rg nh nr Hok Hf) as [H1 H2]. split; [by exists nh, nr|done].
  - destruct (giveback_land_ok k s rg nh nr Hok) as (nr' & H1 & H2). split; [by exists nh, nr'|done].
Qed.

#[global] Program Instance arena_slots : SlotSource env layer := {|
  ss_take e x := (((slot_take e x.1).1, x.2), (slot_take e x.1).2);
  ss_give x ch := (slot_give x.1 ch, x.2);
  ss_tick x := sl_v x.1 A_tick;
  ss_next x := (slot_tick x.1, x.2);
  ss_ok := layer_ok;
  ss_used x ch := slot_used_at x.1 ch;
  ss_step := sstep
|}.
Next Obligation. intros e [s rg] (nh & nr & Hok). destruct (slot_take_ok e s rg nh nr Hok) as [[nh' H] _]. by exists nh', nr. Qed.
Next Obligation. intros e [s rg] ch (nh & nr & Hok) H. cbn [fst snd] in *. destruct (slot_take_ok e s rg nh nr Hok) as [_ Ht]. by rewrite H in Ht. Qed.
Next Obligation. intros e [s rg] (nh & nr & Hok) H. cbn [fst snd] in *. destruct (slot_take_ok e s rg nh nr Hok) as [_ Ht]. by rewrite H in Ht. Qed.
Next Obligation. intros [s rg] ch (nh & nr & Hok) Hu. exists nh, nr. by apply slot_give_ok. Qed.
Next Obligation. intros [s rg] ch (nh & nr & Hok) Hu. by apply (slot_give_ok s rg nh nr ch Hok Hu). Qed.
Next Obligation. intros [s rg] (nh & nr & Hok). exists nh, nr. eapply alike_ok; [|exact Hok]. by apply alike_vadd. Qed.
Next Obligation. done. Qed.
Next Obligation. intros x y Hok Hs. by destruct (sstep_ok x y Hok Hs). Qed.
Next Obligation. intros x y Hok Hs. by destruct (sstep_ok x y Hok Hs). Qed.

(** * The start *)

Lemma bit_get_zero k i : bit_get (replicate k 0) i = false.
Proof. rewrite bit_get_testbit. unfold word_of. destruct (replicate k 0 !! (i / 64)%nat) as [w|] eqn:Hw; [apply lookup_replicate in Hw as [-> _]|]; by rewrite Z.bits_0. Qed.

Lemma ones_zero n f : (forall i, f i = false) -> ones n f = 0%nat.
Proof. intros H. unfold ones. generalize (seq 0 n). intros l. induction l as [|i l IH]; [done|]. rewrite filter_cons_False by (by rewrite H). done. Qed.

(** No slot in any use. *)
Lemma empty_ok cf v maps zf n : rslots cf = n -> 0 <= hbase cf /\ hbase cf mod PCACHE_SLOT = 0 /\ hbase cf + hsize cf < 2 ^ 63 -> (hbase cf = 0 -> n = 0%nat) ->
  (forall b, b <> HCOMMIT -> maps b = replicate (words n) 0) -> (forall x, free_av x = false -> x <> A_rtop -> v x = 0) -> v A_rtop = Z.of_nat n * PCACHE_SLOT ->
  slots_ok (mk_slots cf v maps zf [] [] ∅ [], []) 0 n.
Proof.
  intros Hn Hb Hz Hm Hv Hr. set (s := mk_slots _ _ _ _ _ _ _ _). assert (forall b i, b <> HCOMMIT -> bget b i s = false) as Hbit by (intros b i Hb'; unfold bget; cbn [sl_maps s]; rewrite Hm by done; apply bit_get_zero).
  assert (forall b, b <> HCOMMIT -> on b s = 0) as Hon by (intros b Hb'; unfold on; rewrite ones_zero; [done|]; intros i; by apply Hbit). split; cbn [fst snd].
  - split; cbn [sl_v sl_cf s]; rewrite ?Hn, ?Hv by done; try done; [lia|]. intros b Hb'. cbn [sl_maps s]. rewrite Hm by done. split; [by rewrite length_replicate|]. apply Forall_replicate. done.
  - split; [intros i|intros i|intros z; constructor]; rewrite !Hbit by done; [done|]. unfold zone_pt, in_zone. cbn [sl_cf s]. rewrite Hn. destruct (Nat.leb_spec n i), (Nat.ltb_spec i n); cbn; lia || done.
  - split; cbn [sl_pages s]; [by intros p ?%not_elem_of_nil|done|]. intros ch h. unfold s. cbn [sl_hdr]. by rewrite lookup_empty.
  - split; cbn [sl_regions s]; try done; [by intros r ?%not_elem_of_nil|by intros r ?%not_elem_of_nil|by intros r ?%not_elem_of_nil].
  - intros x m Hx. assert (free_av x = false /\ x <> A_rtop) as [H1 H2] by (destruct x; done). cbn [sl_v s]. rewrite (Hv x H1 H2). destruct x; cbn [meter_of] in Hx; try discriminate; rewrite ?Hon in Hx by done; cbn [sl_cf s] in Hx; rewrite ?Hn in Hx; injection Hx as <-; rewrite ?Z.sub_diag, ?Z.sub_0_r; rewrite ?Z.mul_0_r; reflexivity.
  - split; cbn [sl_v sl_flight s]; rewrite ?Hv by done; try done; try lia. by intros r g ?%not_elem_of_nil.
Qed.

(** The reservation is aligned and fits the address space. *)
Definition resv_ok (ic : init_conf) (rv : reservation) : Prop := 0 < rv_base rv /\ rv_base rv mod PCACHE_SLOT = 0 /\ rv_base rv + init_hsize ic < 2 ^ 63.

Lemma mb_slots m : 0 <= u64 (Z.shiftl m 20) /\ u64 (Z.shiftl m 20) mod PCACHE_SLOT = 0.
Proof.
  unfold u64. split; [apply Z.mod_pos_bound; lia|]. rewrite slot_val, Z.shiftl_mul_pow2 by lia. rewrite Z.mod_mod_divide by (exists (2 ^ 46); done). replace (m * 2 ^ 20) with (m * 4 * 262144) by lia. by rewrite Z.mod_mul.
Qed.

Lemma arena_init_ok ic rv mem s : (forall r, rv = Some r -> resv_ok ic r) -> pcache_arena_init ic rv mem = Some s -> (exists n, slots_ok (s, []) 0 n) /\ sl_flight s = [] /\ forall ch, ~ slot_used_at s ch.
Proof.
  intros Hrv. assert (slots_ok (mk_slots (init_conf_of ic 0 0 false) (fun x => match x with A_lo => 2 ^ 64 - 1 | _ => 0 end) (fun _ => []) [] [] [] ∅ [], []) 0 0) as Hnone by (apply empty_ok; try done; intros x; by destruct x).
  assert (forall t : slots, sl_hdr t = ∅ -> forall ch, ~ slot_used_at t ch) as Hno by (intros t Ht ch (h & Hh & _); by rewrite Ht, lookup_empty in Hh). unfold pcache_arena_init. destruct (_ || _); [done|]. destruct (negb (0 <? ic_mb ic)); [intros <-%(inj Some); split_and!; [by exists 0%nat|done|by apply Hno]|].
  destruct rv as [rv|]; [|intros <-%(inj Some); split_and!; [by exists 0%nat|done|by apply Hno]]. destruct (negb mem); [done|]. intros <-%(inj Some). split_and!; [|done|by apply Hno]. destruct (Hrv rv eq_refl) as (R1 & R2 & R3). set (n := Z.to_nat (Z.shiftr (init_hsize ic) 18)). exists n.
  assert (0 <= init_hsize ic /\ init_hsize ic mod PCACHE_SLOT = 0) as [I1 I2] by (unfold init_hsize; destruct (_ <? _); apply mb_slots).
  assert (Z.of_nat n * PCACHE_SLOT = init_hsize ic) as In by (unfold n; rewrite Z.shiftr_div_pow2 by lia; change (2 ^ 18) with 262144; rewrite slot_val in *; pose proof (Z.div_mod (init_hsize ic) 262144 ltac:(lia)); pose proof (Z.div_pos (init_hsize ic) 262144 I1 ltac:(lia)); lia).
  apply empty_ok; cbn [hbase rslots init_conf_of]; try done; [unfold hsize; cbn [rslots hbase init_conf_of]; rewrite In; split_and!; [lia|done|done]|lia|intros b Hb; by destruct b|intros x Hx Hne; by destruct x].
Qed.

(** * Where things are *)

(** The bytes of a group of the reservation. *)
Definition group_at (s : slots) (g : nat) : Z := rslot_at s (g * PCACHE_GROUP_SLOTS).

Lemma group_at_val s g : group_at s g = hbase (sl_cf s) + Z.of_nat g * PCACHE_HPS.
Proof. unfold group_at, rslot_at, PCACHE_HPS. lia. Qed.

(** A chunk's slot: below the chunk frontier and not in flight, or a page's. *)
Lemma used_where s rg nh nr ch : slots_ok (s, rg) nh nr -> slot_used_at s ch ->
  (exists i, (i < nh)%nat /\ ch = rslot_at s i /\ flying false s i = false) \/ exists p, p ∈ sl_pages s /\ pg_raw p <= ch /\ ch + PCACHE_SLOT <= pg_raw p + PAGE_BYTES.
Proof.
  intros Hok (h & Hh & Hf). pose proof Hok as [G R P _ _ _]. cbn [fst snd] in *. destruct (pa_dom _ _ P ch h Hh) as [(i & Hi & ->)|(p & Hp & Hin)].
  - left. exists i. destruct (used_res s nh nr rg i h G R Hh Hf Hi) as (_ & _ & _ & _ & Hfl). done.
  - right. exists p. destruct (page_slot_in s p ch (pa_each _ _ P p Hp) Hin) as (_ & _ & H1 & H2). done.
Qed.

(** A region's bytes: slots of the zone that are not in flight, or a block of its own. *)
Lemma region_where s rg nh nr r : slots_ok (s, rg) nh nr -> r ∈ rg ->
  (exists j, (nr <= j)%nat /\ r.1 = rslot_at s j /\ (j + region_slots r.2 <= rslots (sl_cf s))%nat /\ r.2 <= Z.of_nat (region_slots r.2) * PCACHE_SLOT /\ forall i, (j <= i < j + region_slots r.2)%nat -> covers s r i = true /\ flying true s i = false) \/
  exists b, b ∈ sl_regions s /\ b.1 <= r.1 /\ r.1 + r.2 <= b.1 + b.2.
Proof.
  intros Hok Hr. pose proof Hok as [G R P K _ _]. cbn [fst snd] in *. destruct (rk_each _ _ K r Hr) as [H0 [(j & Hj & Hle & Hre)|(b & Hb & Hin)]]; [left|right; exists b; split; [done|]; unfold in_block in Hin; lia].
  destruct (region_slots_pos r.2 H0) as [Hn Hp]. exists j. assert (forall i, (j <= i < j + region_slots r.2)%nat -> covers s r i = true) as Hc by (intros i Hi; destruct r as [p size]; cbn [fst snd] in *; subst p; rewrite covers_at by done; apply andb_true_iff; rewrite Nat.leb_le, Nat.ltb_lt; lia).
  assert (forall i, (j <= i < j + region_slots r.2)%nat -> (0 < owners s rg i)%nat) as Ho by (intros i Hi; unfold owners; assert (r ∈ filter (fun r => covers s r i = true) rg) as Hf by (apply list_elem_of_filter; split; [by apply Hc|done]); destruct (filter _ rg); [by apply not_elem_of_nil in Hf|cbn; lia]).
  split_and!; try done.
  - destruct (owned_slot s rg nh nr j G R (Ho j ltac:(lia))) as (Hz & _). apply in_zone_spec in Hz. lia.
  - rewrite slot_val in *. pose proof (Z.div_mod (r.2 - 1) 262144 ltac:(lia)). pose proof (Z.mod_pos_bound (r.2 - 1) 262144 ltac:(lia)). pose proof (Z.div_pos (r.2 - 1) 262144 ltac:(lia) ltac:(lia)). lia.
  - intros i Hi. split; [by apply Hc|]. by destruct (owned_slot s rg nh nr i G R (Ho i Hi)) as (_ & _ & _ & ? & _).
Qed.

(** A group in flight: below the chunk frontier, in the zone, or between the frontiers. *)
Lemma flight_where s rg nh nr r g : slots_ok (s, rg) nh nr -> r ∈ sl_flight s -> g ∈ run_groups r ->
  ((g * 8 + 8 <= nh)%nat /\ forall i, (g * 8 <= i < g * 8 + 8)%nat -> flying false s i = true) \/ ((nr <= g * 8)%nat /\ (g * 8 + 8 <= rslots (sl_cf s))%nat /\ forall i, (g * 8 <= i < g * 8 + 8)%nat -> flying true s i = true) \/ (nh <= g * 8 /\ g * 8 + 8 <= nr)%nat.
Proof.
  intros Hok Hr Hg. pose proof Hok as [G R P K M T]. cbn [fst snd] in *. destruct (ru_tail r) eqn:Ht.
  - right; right. destruct (ta_runs _ _ _ T r g Hr Ht Hg) as [H1 H2]. rewrite hps_val in *. destruct (ta_hull _ _ _ T ltac:(lia)) as [H3 H4]. rewrite slot_val in *. lia.
  - assert (forall i, (g * 8 <= i < g * 8 + 8)%nat -> flying (ru_zone r) s i = true) as Hfl.
    { intros i Hi. unfold flying. apply bool_decide_eq_true. replace (i / PCACHE_GROUP_SLOTS)%nat with g by (symmetry; apply in_group; unfold group_slots, PCACHE_GROUP_SLOTS; apply elem_of_seq; lia). unfold fly. apply list_elem_of_In, in_concat. exists (run_groups r). split; [|by apply list_elem_of_In]. apply list_elem_of_In, list_elem_of_fmap. exists r. split; [done|]. by apply list_elem_of_filter. }
    destruct (ru_zone r).
    + right; left. assert (forall i, (g * 8 <= i < g * 8 + 8)%nat -> (nr <= i < rslots (sl_cf s))%nat) as Hz by (intros i Hi; rewrite <- in_zone_spec; pose proof (re_zone _ _ _ _ R i) as Z; unfold zone_pt in Z; rewrite (Hfl i Hi) in Z; destruct (in_zone s nr i); [done|cbn in Z; lia]).
      pose proof (Hz (g * 8)%nat ltac:(lia)). pose proof (Hz (g * 8 + 7)%nat ltac:(lia)). split_and!; [lia|lia|done].
    + left. assert (forall i, (g * 8 <= i < g * 8 + 8)%nat -> (i < nh)%nat) as Hz by (intros i Hi; pose proof (re_chunk _ _ _ _ R i) as C; unfold chunk_pt in C; rewrite (Hfl i Hi) in C; destruct (Nat.ltb_spec i nh); [done|by destruct C as (_ & _ & ?)]).
      pose proof (Hz (g * 8 + 7)%nat ltac:(lia)). split; [lia|done].
Qed.

Lemma apart_intro a n b m : a + n <= b \/ b + m <= a -> apart a n b m = true.
Proof. apply apart_spec. Qed.

Lemma page_res s rg nh nr p : slots_ok (s, rg) nh nr -> p ∈ sl_pages s -> (0 < rslots (sl_cf s))%nat -> pg_raw p + PAGE_BYTES <= hbase (sl_cf s) \/ hbase (sl_cf s) + hsize (sl_cf s) <= pg_raw p.
Proof. intros Hok Hp Hn. destruct (res_slot s nh nr 0 (so_geom _ _ _ Hok) Hn) as (Hr & _). apply apart_spec. by apply (po_res _ _ (pa_each _ _ (so_pages _ _ _ Hok) p Hp)). Qed.

Lemma chunk_region_apart s rg nh nr ch r : slots_ok (s, rg) nh nr -> slot_used_at s ch -> r ∈ rg -> apart ch PCACHE_SLOT r.1 r.2 = true.
Proof.
  intros Hok Hu Hr. pose proof (so_geom _ _ _ Hok) as G. cbn [fst] in G. pose proof (ge_le _ _ _ G) as Hle. apply apart_intro. destruct (used_where s rg nh nr ch Hok Hu) as [(i & Hi & -> & _)|(p & Hp & P1 & P2)], (region_where s rg nh nr r Hok Hr) as [(j & Hj & J1 & J2 & J3 & _)|(b & Hb & B1 & B2)].
  - left. rewrite J1. unfold rslot_at. rewrite slot_val in *. lia.
  - destruct (res_slot s nh nr i G ltac:(lia)) as (Hres & _ & _ & A1 & A2). destruct (rk_blocks _ _ (so_regions _ _ _ Hok) b Hb) as (_ & _ & Ha & _). specialize (Ha Hres). apply apart_spec in Ha. cbn [fst] in *. lia.
  - assert (0 < rslots (sl_cf s))%nat as Hn by (destruct (rk_each _ _ (so_regions _ _ _ Hok) r Hr) as [H0 _]; destruct (region_slots_pos r.2 H0); lia). pose proof (page_res s rg nh nr p Hok Hp Hn). rewrite J1. unfold rslot_at, hsize in *. rewrite slot_val in *. lia.
  - destruct (rk_blocks _ _ (so_regions _ _ _ Hok) b Hb) as (_ & _ & _ & Ha). specialize (Ha p Hp). apply apart_spec in Ha. lia.
Qed.

Lemma chunk_flight_apart s rg nh nr ch r g : slots_ok (s, rg) nh nr -> slot_used_at s ch -> r ∈ sl_flight s -> g ∈ run_groups r -> apart ch PCACHE_SLOT (group_at s g) PCACHE_HPS = true.
Proof.
  intros Hok Hu Hr Hg. pose proof (so_geom _ _ _ Hok) as G. cbn [fst] in G. pose proof (ge_le _ _ _ G) as Hle. apply apart_intro. unfold group_at, rslot_at, PCACHE_GROUP_SLOTS. rewrite hps_val, slot_val.
  assert ((0 < rslots (sl_cf s))%nat /\ (g * 8 + 8 <= rslots (sl_cf s))%nat) as [Hn Hg8] by (destruct (flight_where s rg nh nr r g Hok Hr Hg) as [(? & _)|[(? & ? & _)|?]]; lia).
  destruct (used_where s rg nh nr ch Hok Hu) as [(i & Hi & -> & Hfl)|(p & Hp & P1 & P2)].
  - unfold rslot_at. rewrite slot_val. destruct (flight_where s rg nh nr r g Hok Hr Hg) as [(_ & Hf)|[(? & _)|?]]; [|lia|lia]. destruct (decide (g * 8 <= i < g * 8 + 8)%nat) as [Hi'|Hi']; [rewrite (Hf i Hi') in Hfl; done|lia].
  - pose proof (page_res s rg nh nr p Hok Hp Hn). unfold hsize in *. rewrite slot_val in *. lia.
Qed.

Lemma region_flight_apart s rg nh nr q r g : slots_ok (s, rg) nh nr -> q ∈ rg -> r ∈ sl_flight s -> g ∈ run_groups r -> apart q.1 q.2 (group_at s g) PCACHE_HPS = true.
Proof.
  intros Hok Hq Hr Hg. pose proof (so_geom _ _ _ Hok) as G. cbn [fst] in G. pose proof (ge_le _ _ _ G) as Hle. apply apart_intro. unfold group_at, rslot_at, PCACHE_GROUP_SLOTS. rewrite hps_val, slot_val.
  assert ((0 < rslots (sl_cf s))%nat /\ (g * 8 + 8 <= rslots (sl_cf s))%nat) as [Hn Hg8] by (destruct (flight_where s rg nh nr r g Hok Hr Hg) as [(? & _)|[(? & ? & _)|?]]; lia).
  destruct (region_where s rg nh nr q Hok Hq) as [(j & Hj & J1 & J2 & J3 & J4)|(b & Hb & B1 & B2)].
  - rewrite J1. unfold rslot_at. rewrite slot_val in *. destruct (flight_where s rg nh nr r g Hok Hr Hg) as [(? & _)|[(H1 & H2 & Hf)|?]]; [lia| |lia].
    destruct (decide (j + region_slots q.2 <= g * 8 \/ g * 8 + 8 <= j)%nat) as [|Hov]; [lia|]. exfalso. set (i := Nat.max j (g * 8)). destruct (rk_each _ _ (so_regions _ _ _ Hok) q Hq) as [R0 _]. destruct (region_slots_pos q.2 R0). destruct (J4 i ltac:(unfold i; lia)) as [_ Hno]. rewrite (Hf i ltac:(unfold i; lia)) in Hno. done.
  - destruct (res_slot s nh nr 0 G Hn) as (Hres & _). destruct (rk_blocks _ _ (so_regions _ _ _ Hok) b Hb) as (_ & _ & Ha & _). specialize (Ha Hres). apply apart_spec in Ha. cbn [fst] in *. unfold hsize in *. rewrite slot_val in *. lia.
Qed.

Lemma two_count {A} (P : A -> Prop) `{!forall x, Decision (P x)} (l : list A) i j x y : l !! i = Some x -> l !! j = Some y -> i <> j -> P x -> P y -> (2 <= length (filter P l))%nat.
Proof.
  revert i j. induction l as [|a l IH]; intros [|i] [|j] Hi Hj Hn Px Py; cbn in Hi, Hj; try done.
  - injection Hi as ->. rewrite filter_cons_True by done. cbn. assert (y ∈ filter P l) as Hy by (apply list_elem_of_filter; split; [done|by eapply list_elem_of_lookup_2]). destruct (filter P l); [by apply not_elem_of_nil in Hy|cbn; lia].
  - injection Hj as ->. rewrite filter_cons_True by done. cbn. assert (x ∈ filter P l) as Hy by (apply list_elem_of_filter; split; [done|by eapply list_elem_of_lookup_2]). destruct (filter P l); [by apply not_elem_of_nil in Hy|cbn; lia].
  - specialize (IH i j Hi Hj ltac:(lia) Px Py). rewrite filter_cons. destruct (decide (P a)); cbn; lia.
Qed.

Lemma regions_apart s rg nh nr i j r q : slots_ok (s, rg) nh nr -> rg !! i = Some r -> rg !! j = Some q -> i <> j -> apart r.1 r.2 q.1 q.2 = true.
Proof.
  intros Hok Hi Hj Hn. pose proof Hok as [G R P K M T]. cbn [fst snd] in *. assert (r ∈ rg /\ q ∈ rg) as [Hr Hq] by (split; by eapply list_elem_of_lookup_2). apply apart_intro.
  destruct (region_where s rg nh nr r Hok Hr) as [(k & Hk & J1 & J2 & J3 & J4)|(b & Hb & B1 & B2)], (region_where s rg nh nr q Hok Hq) as [(k' & Hk' & J1' & J2' & J3' & J4')|(b' & Hb' & B1' & B2')].
  - rewrite J1, J1'. unfold rslot_at. rewrite slot_val in *. destruct (decide (k + region_slots r.2 <= k' \/ k' + region_slots q.2 <= k)%nat) as [|Hov]; [lia|]. exfalso. set (m := Nat.max k k'). destruct (rk_each _ _ K r Hr) as [R0 _]. destruct (rk_each _ _ K q Hq) as [Q0 _]. destruct (region_slots_pos r.2 R0), (region_slots_pos q.2 Q0).
    pose proof (two_count (fun r => covers s r m = true) rg i j r q Hi Hj Hn (proj1 (J4 m ltac:(unfold m; lia))) (proj1 (J4' m ltac:(unfold m; lia)))) as Htwo. fold (owners s rg m) in Htwo. pose proof (re_zone _ _ _ _ R m) as Z. unfold zone_pt in Z. destruct (in_zone s nr m); lia.
  - destruct (rk_each _ _ K r Hr) as [R0 _]. destruct (region_slots_pos r.2 R0). destruct (res_slot s nh nr k G ltac:(lia)) as (Hres & _). destruct (rk_blocks _ _ K b' Hb') as (_ & _ & Ha & _). specialize (Ha Hres). apply apart_spec in Ha. rewrite J1. unfold rslot_at, hsize in *. rewrite slot_val in *. lia.
  - destruct (rk_each _ _ K q Hq) as [R0 _]. destruct (region_slots_pos q.2 R0). destruct (res_slot s nh nr k' G ltac:(lia)) as (Hres & _). destruct (rk_blocks _ _ K b Hb) as (_ & _ & Ha & _). specialize (Ha Hres). apply apart_spec in Ha. rewrite J1'. unfold rslot_at, hsize in *. rewrite slot_val in *. lia.
  - assert (in_block b r = true /\ in_block b' q = true) as [I1 I2] by (unfold in_block; split; apply andb_true_iff; lia). apply list_elem_of_lookup in Hb as [n Hb]. apply list_elem_of_lookup in Hb' as [n' Hb']. destruct (decide (n = n')) as [->|Hnn]; [|pose proof (rk_apart _ _ K n n' b b' Hb Hb' Hnn) as Ha; apply apart_spec in Ha; lia].
    assert (b' = b) as -> by congruence. exfalso. pose proof (two_count (fun r => in_block b r = true) rg i j r q Hi Hj Hn I1 I2) as Htwo. fold (lodgers b rg) in Htwo. pose proof (rk_own _ _ K b ltac:(by eapply list_elem_of_lookup_2)). lia.
Qed.

(** * Counting the slots in each use *)

Lemma ones_sum n f : ones n f = sum_list ((fun i => Nat.b2n (f i)) <$> seq 0 n).
Proof. unfold ones. generalize (seq 0 n). intros l. induction l as [|i l IH]; [done|]. rewrite filter_cons. cbn [fmap list_fmap sum_list]. destruct (f i); [rewrite decide_True by done|rewrite decide_False by done]; cbn; lia. Qed.

Lemma ones_three n f g h k : (forall i, (Nat.b2n (f i) + Nat.b2n (g i) + Nat.b2n (h i) <= Nat.b2n (k i))%nat) -> (ones n f + ones n g + ones n h <= ones n k)%nat.
Proof.
  intros H. rewrite !ones_sum. generalize (seq 0 n). intros l. induction l as [|i l IH]; [done|]. cbn [fmap list_fmap sum_list foldr] in *. specialize (H i). unfold sum_list in *. cbn in *. lia.
Qed.

Lemma ones_le n f : (ones n f <= n)%nat.
Proof. unfold ones. etransitivity; [apply length_filter|]. by rewrite length_seq. Qed.

Lemma ones_list n l : NoDup l -> (forall i, i ∈ l -> (i < n)%nat) -> ones n (fun i => bool_decide (i ∈ l)) = length l.
Proof.
  induction 1 as [|i l Hi Hd IH]; intros Hl; [apply ones_zero; intros i; apply bool_decide_false, not_elem_of_nil|]. rewrite (ones_put n (fun i => bool_decide (i ∈ l)) _ i); [by rewrite IH by (intros j Hj; apply Hl; by apply list_elem_of_further)|apply Hl, list_elem_of_here|by apply bool_decide_false|apply bool_decide_true, list_elem_of_here|].
  intros j Hj. apply bool_decide_ext. rewrite elem_of_cons. tauto.
Qed.

Lemma ones_below n m : (m <= n)%nat -> ones n (fun i => (i <? m)%nat) = m.
Proof.
  intros H. transitivity (length (seq 0 m)); [|apply length_seq]. rewrite <- (ones_list n (seq 0 m)); [|apply NoDup_seq|intros i Hi; apply elem_of_seq in Hi; lia]. apply ones_same. intros i. destruct (Nat.ltb_spec i m); [symmetry; apply bool_decide_true, elem_of_seq; lia|symmetry; apply bool_decide_false; rewrite elem_of_seq; lia].
Qed.

(** The slots of the groups in flight. *)
Lemma ones_flying n s z : NoDup (fly z (sl_flight s)) -> (forall i, flying z s i = true -> (i < n)%nat) -> Z.of_nat (ones n (flying z s)) = out_of z s.
Proof.
  intros Hd Hn. set (l := concat (group_slots <$> fly z (sl_flight s))). assert (forall i, i ∈ l <-> (i / PCACHE_GROUP_SLOTS)%nat ∈ fly z (sl_flight s)) as Hl.
  { intros i. unfold l. rewrite list_elem_of_In, in_concat. split; [intros (x & Hx & Hi); apply list_elem_of_In, list_elem_of_fmap in Hx as (g & -> & Hg); apply list_elem_of_In, in_group in Hi; by rewrite Hi|]. intros Hg. exists (group_slots (i / PCACHE_GROUP_SLOTS)). split; [apply list_elem_of_In, list_elem_of_fmap; by eexists|apply list_elem_of_In, group_of]. }
  assert (NoDup l /\ length l = (PCACHE_GROUP_SLOTS * length (fly z (sl_flight s)))%nat) as [Hnd Hlen].
  { unfold l. clear Hl. induction Hd as [|g gs Hg Hd IH]; [split; [constructor|done]|]. destruct IH as [I1 I2]. cbn [fmap list_fmap concat]. split; [|rewrite length_app, I2; unfold group_slots; rewrite length_seq; cbn [length]; lia]. apply NoDup_app. split_and!; [apply group_nodup| |done].
    intros i Hi%in_group Hc. apply list_elem_of_In, in_concat in Hc as (x & Hx & Hix). apply list_elem_of_In, list_elem_of_fmap in Hx as (g' & -> & Hg'). apply list_elem_of_In, in_group in Hix. congruence. }
  unfold out_of, zlen. rewrite <- Nat2Z.inj_mul, <- Hlen. rewrite <- (ones_list n l Hnd); [|intros i Hi; apply Hn; unfold flying; apply bool_decide_true; by apply Hl]. f_equal. apply ones_same. intros i. unfold flying. apply bool_decide_ext. by rewrite Hl.
Qed.

Lemma chunk_counts s rg nh nr : slots_ok (s, rg) nh nr -> 0 <= on RWARM s /\ 0 <= on RCOLD s /\ 0 <= out_of false s /\ on RWARM s + on RCOLD s + out_of false s <= Z.of_nat nh.
Proof.
  intros Hok. pose proof Hok as [G R P K M T]. cbn [fst snd] in *. pose proof (ge_le _ _ _ G) as Hle. rewrite <- (ones_flying (rslots (sl_cf s)) s false (re_fly _ _ _ _ R false)).
  - unfold on. pose proof (ones_three (rslots (sl_cf s)) (fun i => bget RWARM i s) (fun i => bget RCOLD i s) (flying false s) (fun i => (i <? nh)%nat)) as H3. rewrite ones_below in H3 by lia. assert (forall i, (Nat.b2n (bget RWARM i s) + Nat.b2n (bget RCOLD i s) + Nat.b2n (flying false s i) <= Nat.b2n (i <? nh))%nat) as Hp; [|specialize (H3 Hp); lia].
    intros i. pose proof (re_chunk _ _ _ _ R i) as C. unfold chunk_pt in C. destruct (i <? nh)%nat; [destruct C as (h & _ & _ & ->); destruct (h_free h); cbn; lia|]. destruct C as (-> & -> & ->). done.
  - intros i Hi. apply (flying_bit s rg nh nr false RWARM i G R ltac:(by left) Hi).
Qed.

Lemma page_counts s rg nh nr : slots_ok (s, rg) nh nr -> 0 <= page_free s <= Z.of_nat PCACHE_PAGE_SLOTS * zlen (sl_pages s).
Proof.
  intros Hok. pose proof (pa_each _ _ (so_pages _ _ _ Hok)) as P. cbn [fst] in P. unfold page_free. assert (forall p, p ∈ sl_pages s -> 0 <= pg_nfree p <= Z.of_nat PCACHE_PAGE_SLOTS) as Hp by (intros p Hin; pose proof (page_nfree_le s p (P p Hin)); destruct (po_free _ _ (P p Hin)) as (_ & Hz & _); unfold zlen in Hz; lia).
  revert Hp. generalize (sl_pages s). intros l. induction l as [|p l IH]; intros Hp; [done|]. change (zsum (pg_nfree <$> p :: l)) with (pg_nfree p + zsum (pg_nfree <$> l)). rewrite zlen_cons. pose proof (Hp p (list_elem_of_here _ _)). specialize (IH (fun q Hq => Hp q (list_elem_of_further _ _ _ Hq))). lia.
Qed.

Lemma u32_small n : 0 <= n < 2 ^ 32 -> u32 n = n.
Proof. intros H. unfold u32. by apply Z.mod_small. Qed.

Lemma mod_sum n a b c d e : n <> 0 -> (a mod n + b mod n + c mod n + d mod n + e) mod n = (a + b + c + d + e) mod n.
Proof.
  intros Hn. pose proof (Z.div_mod a n Hn). pose proof (Z.div_mod b n Hn). pose proof (Z.div_mod c n Hn). pose proof (Z.div_mod d n Hn).
  replace (a mod n + b mod n + c mod n + d mod n + e) with (a + b + c + d + e + - (a / n + b / n + c / n + d / n) * n) by lia. by rewrite Z.mod_add.
Qed.

Lemma rows_of s rg nh nr : slots_ok (s, rg) nh nr -> Z.of_nat (rslots (sl_cf s)) + Z.of_nat PCACHE_PAGE_SLOTS * zlen (sl_pages s) < 2 ^ 31 ->
  sl_v s A_bytes = u64 (sl_v s A_regions_bytes + class_chunk_bytes s + warm_free_bytes s + page_slack_bytes s + PCACHE_SLOT * (out_of false s + out_of true s)).
Proof.
  intros Hok Hs. pose proof (so_meters _ _ _ Hok) as M. pose proof (ge_le _ _ _ (so_geom _ _ _ Hok)) as Hle. destruct (chunk_counts s rg nh nr Hok) as (C1 & C2 & C3 & C4). pose proof (page_counts s rg nh nr Hok) as C5. cbn [fst] in *. assert (0 <= on ZWARM s <= Z.of_nat (rslots (sl_cf s))) as C6 by (unfold on; pose proof (ones_le (rslots (sl_cf s)) (fun i => bget ZWARM i s)); lia).
  pose proof (zlen_nonneg (sl_pages s)) as C7. unfold PCACHE_PAGE_SLOTS in *. rewrite (M A_bytes _ eq_refl), (M A_regions_bytes _ eq_refl). unfold class_chunk_bytes, warm_free_bytes, page_slack_bytes. rewrite (M A_chunks_used _ eq_refl), (M A_nfree_warm _ eq_refl), (M A_nzfree_warm _ eq_refl), (M A_npages _ eq_refl). cbn [av_wrap]. rewrite !u32_small by (unfold PCACHE_PAGE_SLOTS; lia).
  unfold u64. rewrite mod_sum by lia. f_equal. unfold PAGE_BYTES, PCACHE_PAGE_SLOTS. rewrite slot_val. lia.
Qed.

(** * The arena's promises *)

Abbreviation arena := (@ArenaCell.arena layer).

(** A state the arena comes to, with the cells its users have. *)
Definition areach (ic : init_conf) (rv : option reservation) (mem : bool) (a : arena) (o : list Z) : Prop :=
  (forall r, rv = Some r -> resv_ok ic r) /\ exists s, pcache_arena_init ic rv mem = Some s /\ rtc astep (arena0 (s, []), []) (a, o).

Lemma areach_ok ic rv mem a o : areach ic rv mem a o -> arena_ok (a, o).
Proof.
  intros (Hrv & s & Hi & Hr). destruct (arena_init_ok ic rv mem s Hrv Hi) as ((n & Hok) & _ & Hno). apply (reach_ok (s, []) a o); [by exists 0%nat, n|exact Hno|exact Hr].
Qed.

(** A cell out lies in a slot in use. *)
Lemma out_slot (a : arena) o x : arena_ok (a, o) -> x ∈ o -> exists ch, slot_used_at (a_sl a).1 ch /\ ch <= x /\ x + cell_bytes a x <= ch + PCACHE_SLOT.
Proof.
  intros [(loc & H & Ho) _ _] Hx. cbn [fst snd] in *. destruct (cell_there a loc x H ltac:(exists Out; by apply Ho)) as (c & ch & k & Hic & Hk & Hkc & Hlt & _). exists ch.
  assert (cell_bytes a x = size_of c) as -> by (unfold cell_bytes; by rewrite (ho_byte0 _ _ _ _ (co_home _ _ H) _ _ _ Hic)). split; [apply (ho_used _ _ _ _ (co_home _ _ H)); by exists k|]. destruct Hic as (i & _ & Hi & ->). unfold cell_at. pose proof (cells_in_range c Hlt) as [_ Hc]. pose proof (size_of_range c Hlt). change PCACHE_CHUNK_HDR with 64 in *. rewrite slot_val in *. split; nia.
Qed.

Lemma apart_sub a n b m a' n' : apart a n b m = true -> a <= a' -> a' + n' <= a + n -> apart a' n' b m = true.
Proof. rewrite !apart_spec. lia. Qed.



(** C37. The live meter, kept in signed stripes that threads add to and take from, reads
    exactly the bytes of the cells out, whichever stripe each change went to. *)
Theorem arena_live_exact ic rv mem a o : areach ic rv mem a o -> out_bytes a o < 2 ^ 63 -> live_sum a = out_bytes a o.
Proof.
  intros Hr Hlt. pose proof (areach_ok _ _ _ _ _ Hr) as [_ _ M]. cbn [fst snd] in M. apply live_sum_exact; [done|]. split; [|done]. unfold out_bytes. generalize (o). intros l. induction l as [|x l IH]; [done|]. change (zsum (cell_bytes a <$> x :: l)) with (cell_bytes a x + zsum (cell_bytes a <$> l)).
  assert (0 <= cell_bytes a x); [|lia]. unfold cell_bytes. destruct (decide (default 0%nat (a_byte0 a !! x) < PCACHE_NCLASSES)%nat) as [Hc|Hc]; [pose proof (size_of_range _ Hc); lia|]. unfold size_of. rewrite lookup_ge_None_2; [done|]. apply Nat.nlt_ge in Hc. exact Hc.
Qed.


(** C39. With every cell freed and no thread holding any of them back, one reclaim tick that
    keeps no spare takes back every chunk: no class owns a slot any more. *)
Theorem arena_drains ic rv mem a cf : areach ic rv mem a [] -> (forall t l p, a_pl a !! t = Some l -> p ∈ l -> p_free p = [] /\ p_left p = 0) -> rc_keep cf = 0 ->
  a_chunks (reclaim_tick cf a).1 = ∅ /\ forall ch, ~ slot_used_at (a_sl (reclaim_tick cf a).1).1 ch.
Proof.
  intros Hr Hp Hk. pose proof (areach_ok _ _ _ _ _ Hr) as [(loc & H & Ho) _ _]. cbn [fst snd] in *. assert (forall t c, p_free (class_of a t c) = [] /\ p_left (class_of a t c) = 0) as Hcl.
  { intros t c. unfold class_of. destruct (a_pl a !! t) as [l|] eqn:Hl; [|done]. cbn [option_bind mbind]. destruct (l !! c) as [p|] eqn:Hc; [|done]. cbn. apply (Hp t l p Hl). by eapply list_elem_of_lookup_2. }
  assert (a_chunks (reclaim_tick cf a).1 = ∅) as He.
  { apply (tick_drains cf a loc H); [lia|]. apply (home_full a loc H). intros x [| t c|t c|] Hx; [exfalso; apply Ho in Hx; by apply not_elem_of_nil in Hx| | |done].
    - exfalso. apply (pc_free _ _ _ _ (pl_at a loc t c H)) in Hx. rewrite (proj1 (Hcl t c)) in Hx. by apply not_elem_of_nil in Hx.
    - exfalso. apply (pc_bump _ _ _ _ (pl_at a loc t c H)) in Hx as (i & Hi & _). rewrite (proj2 (Hcl t c)) in Hi. lia. }
  split; [done|]. destruct (reclaim_tick_ok cf a loc H) as (loc' & H' & _). intros ch Hu. apply (ho_used _ _ _ _ (co_home _ _ H')) in Hu as [k Hk']. by rewrite He, lookup_empty in Hk'.
Qed.


(** * The reclaim tick

    The tick holds the lock twice: up to the give-back's plan, and from its landing on. *)

Record flusher := mk_flusher { flush_tick : Z; flush_broadcasts : Z }.

(** The first half; whether a hoard lingers, and whether the second phase follows. *)
Definition tick_begin (e : env) (a : arena) : arena * bool * bool :=
  let cf := sl_cf (a_sl a).1 in
  let '(a, lingering) := reclaim_tick (mk_rconf (u32 (reclaim_keep cf)) (u32 (reclaim_quiet_s cf))) a in
  let '(s, go) := giveback_plan (commit_ahead e (a_sl a).1) in
  (set_sl (s, (a_sl a).2) a, lingering, go).

(** The second, the host having taken [done] runs; whether every process is asked to send
    its hoard home. *)
Definition tick_end (lingering go : bool) (done : nat) (f : flusher) (a : arena) : arena * flusher * bool :=
  let a := if go then set_sl (giveback_land done (a_sl a).1, (a_sl a).2) a else a in
  let s := (a_sl a).1 in
  if lingering && (u32 (reclaim_quiet_s (sl_cf s)) <=? u32 (sl_v s A_tick - flush_tick f))
  then (a, mk_flusher (sl_v s A_tick) (u64 (flush_broadcasts f + 1)), true)
  else (a, f, false).

Lemma areach_on ic rv mem a o b p : areach ic rv mem a o -> rtc astep (a, o) (b, p) -> areach ic rv mem b p.
Proof. intros (Hrv & s & Hi & Hrun) Hs. split; [done|]. exists s. split; [done|]. by etransitivity. Qed.

(** The tick's two halves are runs of the arena, so whatever other threads do between them. *)
Lemma tick_runs ic rv mem a o e :
  areach ic rv mem a o -> sl_flight (commit_ahead e (a_sl (reclaim_tick (mk_rconf (u32 (reclaim_keep (sl_cf (a_sl a).1))) (u32 (reclaim_quiet_s (sl_cf (a_sl a).1)))) a).1).1) = [] -> areach ic rv mem (tick_begin e a).1.1 o.
Proof.
  intros Hr Hf. apply (areach_on _ _ _ _ _ _ _ Hr). unfold tick_begin. pose proof (st_reclaim (mk_rconf (u32 (reclaim_keep (sl_cf (a_sl a).1))) (u32 (reclaim_quiet_s (sl_cf (a_sl a).1)))) a o) as H1. destruct (reclaim_tick _ a) as [a1 lin]. cbn [fst] in *.
  eapply rtc_l; [exact H1|]. assert (astep (a1, o) (set_sl (commit_ahead e (a_sl a1).1, (a_sl a1).2) a1, o)) as H2 by (apply st_slots; destruct (a_sl a1); apply (sl_ahead e)). eapply rtc_l; [exact H2|]. apply rtc_once. pose proof (sl_plan _ (a_sl a1).2 Hf) as H3. destruct (giveback_plan _) as [s go] eqn:Hp. cbn [fst] in *.
  exact (st_slots (s, (a_sl a1).2) (set_sl (commit_ahead e (a_sl a1).1, (a_sl a1).2) a1) o H3).
Qed.

Lemma tick_ends ic rv mem a o lin go k f : areach ic rv mem a o -> areach ic rv mem (tick_end lin go k f a).1.1 o.
Proof.
  intros Hr. apply (areach_on _ _ _ _ _ _ _ Hr). unfold tick_end. set (a1 := if go then _ else _). assert (rtc astep (a, o) (a1, o)) as H; [|by destruct (_ && _)]. unfold a1. destruct go; [|apply rtc_refl]. apply rtc_once, st_slots. destruct (a_sl a) as [s rg]. apply (sl_land k).
Qed.

(** * An arena of 16 MB *)

Definition small_ic : init_conf := mk_iconf 16 0 (Z.shiftl 16 20) 0 0 0 0 0 true.
Definition small_rv : reservation := mk_resv (2 ^ 30) false 0.
Definition small_env : env := mk_env (fun _ => true) (fun _ => 0) None 0.
Definition small_s : slots := default (mk_slots (init_conf_of small_ic 0 0 false) (fun _ => 0) (fun _ => []) [] [] [] ∅ []) (pcache_arena_init small_ic (Some small_rv) true).

Definition do_alloc (size : Z) (st : arena * list Z) : arena * list Z :=
  ((pcache_cell_alloc small_env true 0 size st.1).1, match (pcache_cell_alloc small_env true 0 size st.1).2 with Some x => x :: st.2 | None => st.2 end).
Definition do_region (size : Z) (st : arena * list Z) : arena * list Z :=
  let r := pcache_region_alloc small_env size (a_sl st.1).1 in
  (set_sl (r.1, match r.2 with Some p => (p, size) :: (a_sl st.1).2 | None => (a_sl st.1).2 end) st.1, st.2).
Definition do_free (x : Z) (st : arena * list Z) : arena * list Z := (pcache_cell_free true 0 x st.1, filter (fun y => y <> x) st.2).
Definition do_flush (st : arena * list Z) : arena * list Z := (pcache_arena_flush_private 0 st.1, st.2).

(** Two cells and a region; one cell, freed and flushed. *)
Definition small_two : arena * list Z := do_region 1000 (do_alloc 200000 (do_alloc 200000 (arena0 (small_s, []), []))).
Definition small_empty : arena * list Z := do_flush (do_free (2 ^ 30 + 64) (do_alloc 200000 (arena0 (small_s, []), []))).

Lemma small_start : (forall r, Some small_rv = Some r -> resv_ok small_ic r) /\ pcache_arena_init small_ic (Some small_rv) true = Some small_s.
Proof. split; [|done]. intros r [= <-]. split_and!; [done|done|vm_compute; done]. Qed.

Lemma step_alloc size st : 0 <= size -> astep st (do_alloc size st).
Proof. destruct st as [a o]. intros H. by apply st_alloc. Qed.

Lemma step_region size st : 0 < size < 2 ^ 63 -> astep st (do_region size st).
Proof. destruct st as [a o]. intros H. apply st_slots. cbn [fst]. destruct (a_sl a) as [s rg]. by apply (sl_region small_env size s rg). Qed.

Lemma step_free x st : x ∈ st.2 -> astep st (do_free x st).
Proof. destruct st as [a o]. apply st_free. Qed.

Lemma step_flush st : astep st (do_flush st).
Proof. destruct st as [a o]. apply st_flush. Qed.

(** States the small arena comes to. *)
Definition small_reach (st : arena * list Z) : Prop := areach small_ic (Some small_rv) true st.1 st.2.

Lemma small_at_start : small_reach (arena0 (small_s, []), []).
Proof. destruct small_start as [H1 H2]. split; [exact H1|]. exists small_s. split; [exact H2|]. apply rtc_refl. Qed.

Lemma small_on st st' : small_reach st -> astep st st' -> small_reach st'.
Proof.
  intros (H1 & s & H2 & H3) Hs. split; [exact H1|]. exists s. split; [exact H2|]. rewrite <- surjective_pairing in *. exact (rtc_r _ _ _ H3 Hs).
Qed.

Lemma small_one_reach : small_reach (do_alloc 200000 (arena0 (small_s, []), [])).
Proof. apply (small_on _ _ small_at_start), step_alloc. lia. Qed.

Lemma small_two_reach : small_reach small_two.
Proof.
  unfold small_two. assert (small_reach (do_alloc 200000 (do_alloc 200000 (arena0 (small_s, []), [])))) as H by (apply (small_on _ _ small_one_reach), step_alloc; lia). apply (small_on _ _ H), step_region. lia.
Qed.

Lemma small_empty_reach : small_reach small_empty.
Proof.
  unfold small_empty. assert (small_reach (do_free (2 ^ 30 + 64) (do_alloc 200000 (arena0 (small_s, []), [])))) as H; [|exact (small_on _ _ H (step_flush _))]. apply (small_on _ _ small_one_reach), step_free.
  assert ((do_alloc 200000 (arena0 (small_s, []), [])).2 = [2 ^ 30 + 64]) as -> by (vm_compute; reflexivity). apply list_elem_of_here.
Qed.

#[local] Opaque small_two small_empty.



Lemma arena_live_exact_witness : out_bytes small_two.1 small_two.2 = 2 * 262080 /\ live_sum small_two.1 = 2 * 262080.
Proof.
  assert (out_bytes small_two.1 small_two.2 = 2 * 262080) as E by (vm_compute; reflexivity). split; [exact E|]. rewrite <- E. apply (arena_live_exact small_ic (Some small_rv) true small_two.1 small_two.2 small_two_reach). rewrite E. lia.
Defined.


Lemma arena_drains_witness : a_chunks small_empty.1 <> ∅ /\ a_chunks (reclaim_tick (mk_rconf 0 0) small_empty.1).1 = ∅.
Proof.
  split; [intros H; apply (f_equal size) in H; vm_compute in H; discriminate|].
  refine (proj1 (arena_drains small_ic (Some small_rv) true small_empty.1 (mk_rconf 0 0) _ _ eq_refl)); [|intros t l p Hl Hp].
  - assert (small_empty.2 = []) as <- by (vm_compute; reflexivity). exact small_empty_reach.
  - assert (bool_decide (map_Forall (fun _ l => Forall (fun p => p_free p = [] /\ p_left p = 0) l) (a_pl small_empty.1)) = true) as H%bool_decide_eq_true by (vm_compute; reflexivity).
    specialize (H t l Hl). rewrite Forall_forall in H. exact (H p Hp).
Defined.


(** * A reservation of an odd number of megabytes

    The commit map has a bit for each whole group of the reservation, and the reservation
    need not be whole groups: with 129 MB it ends half way through group 64, whose bit is
    the first of a second word the map does not have.  The first region is carved there. *)
Definition odd_ic : init_conf := mk_iconf 129 0 (Z.shiftl 129 20) 0 0 0 0 0 true.
Definition odd_s : slots := default small_s (pcache_arena_init odd_ic (Some small_rv) true).

Lemma hcommit_short : (length (sl_maps odd_s HCOMMIT) = 1)%nat /\ (pcache_region_alloc small_env 1000 odd_s).2 = Some (2 ^ 30 + 129 * 2 ^ 20 - PCACHE_SLOT) /\
  (rslot_idx odd_s (2 ^ 30 + 129 * 2 ^ 20 - PCACHE_SLOT) / PCACHE_GROUP_SLOTS = 64)%nat.
Proof. split_and!; vm_compute; reflexivity. Qed.

(** * Records above 64 KB

    The budget counts nothing for a record the allocator gives a cell of one of the two
    largest classes. *)
Lemma cell_size_above : pcache_arena_cell_size 65536 = 65536 /\ pcache_arena_cell_size 65537 = 0 /\ size_of (Z.to_nat (default 0 (cell_class 65537))) = 98304.
Proof. split_and!; vm_compute; reflexivity. Qed.

(** * A cell's way home, in its two steps

    The count of the cells home moves before the chunk is announced, and the reclaim tick
    may come between. *)

(** The cell pushed and counted; whether the chunk is to be announced. *)
Definition home_count (cell : Z) (a : arena) : arena * bool :=
  match a_chunks a !! cell_chunk cell with
  | None => (a, false)
  | Some k => (put_chunk (cell_chunk cell) (k_home cell k) a, ch_nfree (k_home cell k) =? 1)
  end.

(** The announcement, for the class the push read. *)
Definition home_announce (c : nat) (ch : Z) (a : arena) : arena :=
  match a_chunks a !! ch with
  | None => avail_push c ch a
  | Some k =>
      let k := k_since (ss_tick (a_sl a)) k in
      if ch_in_avail k then put_chunk ch k a else avail_push c ch (put_chunk ch (k_avail true k) a)
  end.

Lemma cell_home_steps cell a k : a_chunks a !! cell_chunk cell = Some k ->
  cell_home cell a = if (home_count cell a).2 then home_announce (ch_cls k) (cell_chunk cell) (home_count cell a).1 else (home_count cell a).1.
Proof.
  intros Hk. unfold cell_home, home_count, home_announce. rewrite Hk. cbn [fst snd]. destruct (_ =? 1); cbn [negb]; [|done]. cbn [put_chunk set_chunks a_chunks]. rewrite lookup_insert_eq. unfold put_chunk, set_chunks, avail_push, set_avail. cbn. rewrite !insert_insert_eq. by destruct k as [? ? ? ? ? [] ? ?].
Qed.

(** Thirty-two chunks of one cell, all home, and one cell taken: the batch ends on the last
    chunk, which stays the class's current one with no cell home. *)
Definition race_free (st : arena * list Z) : arena := foldl (fun a x => pcache_cell_free_global 0 x a) st.1 st.2.
Definition race_a : arena * option Z := pcache_cell_alloc small_env true 1 200000 (race_free (Nat.iter 32 (do_alloc 200000) (arena0 (small_s, []), []))).
Definition race_ch : Z := cell_chunk (default 0 race_a.2).

(** That cell comes home; the tick runs between the count and the announcement, sees every
    cell of the current chunk home and its flag down, and gives its slot back; the
    announcement then puts the free slot on the class's stack. *)
Lemma home_announce_late :
  let a1 := home_count (default 0 race_a.2) race_a.1 in
  let a2 := (reclaim_tick (mk_rconf 0 0) a1.1).1 in
  let a3 := home_announce 26 race_ch a2 in
  a1.2 = true /\ bool_decide (a_chunks a1.1 !! race_ch = None) = false /\ bool_decide (a_chunks a3 !! race_ch = None) = true /\ a_avail a3 !! 26%nat = Some [race_ch].
Proof. vm_compute. split_and!; reflexivity. Qed.
