(* ===== verification/Clpush.v ===== *)
(** The write path's push groups ([clpush.c]) and what cluster.c does at their ends.

    A worker that stored a write appends its record to the open group of each peer; a group
    leaves as one datagram when it is full or old.  A record this node took as a non-holder
    has its key noted beside the group; the group then goes with a request number and its
    notes wait in a table of 4096 slots, and the holder's acknowledgement, for as many
    records as the group had, is what lets this node's copies go.

    A worker's groups are its own; the table's slots are moved from state to state by an
    atomic compare-and-exchange, which is one step here.  A block from [malloc] is a list of
    its size, and a write outside it is [Oob]; each allocation of a call may fail ([amem]). *)

From Stdlib Require Import ZArith Lia.
From stdpp Require Import base tactics list numbers gmap.
From S2P Require Import Prelude Clcodec Clfwd Clmig.
#[local] Open Scope Z_scope.

Definition PC_TIDX_MAX : Z := 528.
Definition CLPUSH_ACKS : Z := 4096.
Definition CLPUSH_ACK_TAG : Z := 0x80000000.
Definition M_REPL_MANY : Z := 18.

(** A write into a block. *)
Definition wr_blk (buf : bytes) (pos : Z) (src : bytes) : outcome bytes :=
  if (0 <=? pos) && (pos + zlen src <=? zlen buf) then Ret (blit buf pos src) else Oob.

Definition malloc (n : Z) : bytes := replicate (Z.to_nat n) 0.
Definition realloc_to (b : bytes) (n : Z) : bytes := ztake n b ++ malloc (n - zlen b).

Section Push.
Context {addr : Type} `{!EqDecision addr}.

Record wgroup := mk_wg {
  wg_q : option bytes; wg_qcap : Z; wg_qlen : Z; wg_qcount : Z; wg_qopen_ms : Z; wg_to : option addr;
  wg_nh : bytes; wg_nhlen : Z; wg_nhcap : Z; wg_nhcount : Z
}.

Record clpush_ack := mk_pack {
  pa_state : Z; pa_req : Z; pa_count : Z; pa_sent_ms : Z; pa_to : option addr; pa_nh : bytes; pa_nhlen : Z; pa_nhcount : Z
}.

Record clpush := mk_push {
  p_g : gmap Z (list wgroup); p_npeers : Z; p_hdr : Z; p_cap : Z; p_flush_bytes : Z; p_flush_ms : Z; p_open : Z;
  p_acks : option (gmap Z clpush_ack); p_ack_seq : Z
}.

(** Which allocations of a call succeed: the thread's groups, a group's buffer, its growth,
    the growth of its notes, the table of acknowledgements. *)
Record amem := mk_amem { am_groups : bool; am_q : bool; am_grow : bool; am_nh : bool; am_acks : bool }.

Definition am_all (m : amem) : bool := am_groups m && am_q m && am_grow m && am_nh m && am_acks m.

(** What leaves: the datagram, for whom, under which request. *)
Record dgram := mk_dgram { d_to : option addr; d_req : Z; d_bytes : bytes }.

Definition wg0 : wgroup := mk_wg None 0 0 0 0 None [] 0 0 0.
Definition ack0 : clpush_ack := mk_pack 0 0 0 0 None [] 0 0.

Definition clpush_init (npeers hdr cap flush_bytes flush_ms : Z) : clpush := mk_push ∅ npeers hdr cap flush_bytes flush_ms 0 None 0.

Definition set_g (m : gmap Z (list wgroup)) (p : clpush) : clpush :=
  mk_push m (p_npeers p) (p_hdr p) (p_cap p) (p_flush_bytes p) (p_flush_ms p) (p_open p) (p_acks p) (p_ack_seq p).
Definition add_open (d : Z) (p : clpush) : clpush :=
  mk_push (p_g p) (p_npeers p) (p_hdr p) (p_cap p) (p_flush_bytes p) (p_flush_ms p) (s32 (p_open p + d)) (p_acks p) (p_ack_seq p).
Definition set_acks (t : option (gmap Z clpush_ack)) (seq : Z) (p : clpush) : clpush :=
  mk_push (p_g p) (p_npeers p) (p_hdr p) (p_cap p) (p_flush_bytes p) (p_flush_ms p) (p_open p) t seq.

Definition ack_slot (t : gmap Z clpush_ack) (req : Z) : clpush_ack := default ack0 (t !! Z.land req (CLPUSH_ACKS - 1)).
Definition put_slot (req : Z) (a : clpush_ack) (p : clpush) : clpush :=
  match p_acks p with Some t => set_acks (Some (<[Z.land req (CLPUSH_ACKS - 1) := a]> t)) (p_ack_seq p) p | None => p end.
Definition pa_set_state (s : Z) (a : clpush_ack) : clpush_ack :=
  mk_pack s (pa_req a) (pa_count a) (pa_sent_ms a) (pa_to a) (pa_nh a) (pa_nhlen a) (pa_nhcount a).

Definition clpush_open (p : clpush) : Z := p_open p.

(** A group emptied, for the buffer it keeps. *)
Definition wg_reset (p : clpush) (g : wgroup) : wgroup := mk_wg (wg_q g) (wg_qcap g) (p_hdr p) 0 (wg_qopen_ms g) (wg_to g) (wg_nh g) 0 (wg_nhcap g) 0.

Definition clpush_sent (p : clpush) (g : wgroup) : clpush * wgroup :=
  (add_open (-1) p, mk_wg (wg_q g) (wg_qcap g) (p_hdr p) 0 0 (wg_to g) (wg_nh g) 0 (wg_nhcap g) 0).

(** * Notes *)

Record note := mk_note { no_col : bytes; no_key : bytes; no_ver : Z }.

Definition be64 (v : Z) : bytes := (fun b => u8 (Z.shiftr v (56 - 8 * b))) <$> [0; 1; 2; 3; 4; 5; 6; 7].
Definition note_bytes (n : note) : bytes :=
  [u8 (zlen (no_col n)); u8 (Z.shiftr (zlen (no_key n)) 8); u8 (zlen (no_key n))] ++ be64 (no_ver n) ++ no_col n ++ no_key n.

Definition nh_note (mem : bool) (n : note) (g : wgroup) : outcome wgroup :=
  let need := 11 + zlen (no_col n) + zlen (no_key n) in
  let put g :=
    let! nh := wr_blk (wg_nh g) (wg_nhlen g) (note_bytes n) in
    Ret (mk_wg (wg_q g) (wg_qcap g) (wg_qlen g) (wg_qcount g) (wg_qopen_ms g) (wg_to g) nh (wg_nhlen g + need) (wg_nhcap g) (u32 (wg_nhcount g + 1))) in
  if wg_nhlen g + need >? wg_nhcap g then
    let want := (wg_nhlen g + need) * 2 + 1024 in
    if mem then put (mk_wg (wg_q g) (wg_qcap g) (wg_qlen g) (wg_qcount g) (wg_qopen_ms g) (wg_to g) (realloc_to (wg_nh g) want) (wg_nhlen g) want (wg_nhcount g))
    else Ret g
  else put g.

(** * Acknowledgements *)

Definition acks_of (mem : bool) (p : clpush) : clpush * option (gmap Z clpush_ack) :=
  match p_acks p with
  | Some t => (p, Some t)
  | None => if mem then (set_acks (Some ∅) (p_ack_seq p) p, Some ∅) else (p, None)
  end.

Definition clpush_ack_park (mem : bool) (p : clpush) (g : wgroup) (now : Z) : clpush * wgroup * Z :=
  if wg_nhcount g =? 0 then (p, g, 0)
  else
    match acks_of mem p with
    | (p, None) => (p, g, 0)
    | (p, Some t) =>
        let seq := u32 (p_ack_seq p + 1) in
        let req := Z.lor CLPUSH_ACK_TAG (Z.ldiff seq CLPUSH_ACK_TAG) in
        let p := set_acks (Some t) seq p in
        if negb (pa_state (ack_slot t req) =? 0) then (p, g, 0)
        else
          (put_slot req (mk_pack 2 req (wg_qcount g) now (wg_to g) (wg_nh g) (wg_nhlen g) (wg_nhcount g)) p,
           mk_wg (wg_q g) (wg_qcap g) (wg_qlen g) (wg_qcount g) (wg_qopen_ms g) (wg_to g) [] (wg_nhlen g) 0 (wg_nhcount g), req)
    end.

(** The slot an acknowledgement is for, taken. *)
Definition clpush_ack_take (p : clpush) (req : Z) (from : addr) : clpush * option clpush_ack :=
  match p_acks p with
  | None => (p, None)
  | Some t =>
      if Z.land req CLPUSH_ACK_TAG =? 0 then (p, None)
      else
        let a := ack_slot t req in
        if negb (pa_state a =? 2) then (p, None)
        else if negb (pa_req a =? req) || negb (bool_decide (pa_to a = Some from)) then (p, None)
        else (put_slot req (pa_set_state 3 a) p, Some a)
  end.

Definition clpush_ack_done (p : clpush) (req : Z) : clpush :=
  match p_acks p with
  | None => p
  | Some t => let a := ack_slot t req in put_slot req (mk_pack 0 (pa_req a) (pa_count a) (pa_sent_ms a) (pa_to a) [] 0 0) p
  end.

Definition expire_one (now ms : Z) (x : clpush * Z) (i : nat) : clpush * Z :=
  let '(p, lost) := x in
  match p_acks p with
  | None => x
  | Some t =>
      let a := ack_slot t (Z.of_nat i) in
      if negb (pa_state a =? 2) || (now - pa_sent_ms a <? ms) then x
      else (clpush_ack_done p (Z.of_nat i), u32 (lost + pa_nhcount a))
  end.

Definition clpush_ack_expire (p : clpush) (now ms : Z) : clpush * Z := foldl (expire_one now ms) (p, 0) (seq 0 (Z.to_nat CLPUSH_ACKS)).

(** * A group leaves ([cl_wgroup_send_cb] of clwork.c) *)

Definition wgroup_send (mem : bool) (node now : Z) (p : clpush) (g : wgroup) : outcome (clpush * wgroup * list dgram) :=
  if wg_qcount g =? 0 then Ret (p, g, [])
  else
    let '(p, g, req) := clpush_ack_park mem p g now in
    let! q := wr_blk (default [] (wg_q g)) 0 (clmig_group_hdr CLMIG_GHDR M_REPL_MANY req node (wg_qcount g)).2 in
    let g := mk_wg (Some q) (wg_qcap g) (wg_qlen g) (wg_qcount g) (wg_qopen_ms g) (wg_to g) (wg_nh g) (wg_nhlen g) (wg_nhcap g) (wg_nhcount g) in
    let d := mk_dgram (wg_to g) req (ztake (wg_qlen g) q) in
    let '(p, g) := clpush_sent p g in
    Ret (p, g, [d]).

(** * A record joins *)

(** The group's buffer, made on its first record. *)
Definition wg_make (mem : bool) (p : clpush) (n : Z) (g : wgroup) : option wgroup :=
  match wg_q g with
  | Some _ => Some g
  | None => if mem then Some (mk_wg (Some (malloc (p_hdr p + p_flush_bytes p + n))) (p_hdr p + p_flush_bytes p + n) (p_hdr p) 0 (wg_qopen_ms g) (wg_to g) (wg_nh g) (wg_nhlen g) (wg_nhcap g) (wg_nhcount g)) else None
  end.

(** What was gathered for another peer is dropped. *)
Definition wg_turn (to : addr) (p : clpush) (g : wgroup) : clpush * wgroup :=
  if negb (wg_qcount g =? 0) && negb (bool_decide (wg_to g = Some to)) then (add_open (-1) p, wg_reset p g) else (p, g).

Definition wg_start (to : addr) (now : Z) (p : clpush) (g : wgroup) : clpush * wgroup :=
  if wg_qcount g =? 0 then (add_open 1 p, mk_wg (wg_q g) (wg_qcap g) (wg_qlen g) (wg_qcount g) now (Some to) (wg_nh g) (wg_nhlen g) (wg_nhcap g) (wg_nhcount g)) else (p, g).

(** The record copied in, the buffer grown where it is too small; [None] when it cannot be. *)
Definition wg_copy (rec : bytes) (g : wgroup) : outcome wgroup :=
  let! q := wr_blk (default [] (wg_q g)) (wg_qlen g) rec in
  Ret (mk_wg (Some q) (wg_qcap g) (wg_qlen g + zlen rec) (u32 (wg_qcount g + 1)) (wg_qopen_ms g) (wg_to g) (wg_nh g) (wg_nhlen g) (wg_nhcap g) (wg_nhcount g)).

Definition wg_put (mem : bool) (p : clpush) (rec : bytes) (g : wgroup) : outcome (option wgroup) :=
  if wg_qlen g + zlen rec >? wg_qcap g then
    let want := wg_qlen g + zlen rec + p_flush_bytes p in
    if mem then
      let! g := wg_copy rec (mk_wg (Some (realloc_to (default [] (wg_q g)) want)) want (wg_qlen g) (wg_qcount g) (wg_qopen_ms g) (wg_to g) (wg_nh g) (wg_nhlen g) (wg_nhcap g) (wg_nhcount g)) in
      Ret (Some g)
    else Ret None
  else let! g := wg_copy rec g in Ret (Some g).

Definition group_append (m : amem) (node now : Z) (to : addr) (rec : bytes) (no : option note) (p : clpush) (g : wgroup) : outcome (clpush * wgroup * list dgram) :=
  let n := zlen rec in
  match wg_make (am_q m) p n g with
  | None => Ret (p, mk_wg (wg_q g) 0 (wg_qlen g) (wg_qcount g) (wg_qopen_ms g) (wg_to g) (wg_nh g) (wg_nhlen g) (wg_nhcap g) (wg_nhcount g), [])
  | Some g =>
      let '(p, g) := wg_turn to p g in
      let! x := (if negb (wg_qcount g =? 0) && ((wg_qlen g + n >? p_cap p) || (p_flush_ms p <=? now - wg_qopen_ms g))
                 then wgroup_send (am_acks m) node now p g else Ret (p, g, [])) in
      let '(p, g, ds) := x in
      let '(p, g) := wg_start to now p g in
      let! y := wg_put (am_grow m) p rec g in
      match y with
      | None => Ret (p, g, ds)
      | Some g =>
          let! g := match no with Some nt => nh_note (am_nh m) nt g | None => Ret g end in
          if (p_flush_bytes p <=? wg_qlen g) || (n >? p_cap p)
          then let! z := wgroup_send (am_acks m) node now p g in Ret (z.1.1, z.1.2, ds ++ z.2)
          else Ret (p, g, ds)
      end
  end.

Definition append (m : amem) (node tidx i now : Z) (to : addr) (rec : bytes) (no : option note) (p : clpush) : outcome (clpush * list dgram) :=
  if (tidx <? 0) || (PC_TIDX_MAX <=? tidx) || (i <? 0) || (p_npeers p <=? i) then Ret (p, [])
  else
    match p_g p !! tidx, am_groups m with
    | None, false => Ret (p, [])
    | gs, _ =>
        let gs := default (replicate (Z.to_nat (p_npeers p)) wg0) gs in
        let p := set_g (<[tidx := gs]> (p_g p)) p in
        let! x := group_append m node now to rec no p (default wg0 (gs !! Z.to_nat i)) in
        let '(p, g, ds) := x in
        Ret (set_g (<[tidx := <[Z.to_nat i := g]> gs]> (p_g p)) p, ds)
    end.

Definition clpush_append (m : amem) (node tidx i now : Z) (to : addr) (rec : bytes) (p : clpush) : outcome (clpush * list dgram) :=
  append m node tidx i now to rec None p.

Definition clpush_append_nh (m : amem) (node tidx i now : Z) (to : addr) (rec : bytes) (nt : note) (p : clpush) : outcome (clpush * list dgram) :=
  append m node tidx i now to rec (if (255 <? zlen (no_col nt)) || (0xFFFF <? zlen (no_key nt)) then None else Some nt) p.

(** Every group of the thread that is old goes; each datagram with the peer it was for. *)
Fixpoint flush_loop (mem : bool) (node tidx now : Z) (l : list nat) (p : clpush) : outcome (clpush * list (nat * dgram)) :=
  match l with
  | [] => Ret (p, [])
  | i :: l =>
      let gs := default [] (p_g p !! tidx) in
      let g := default wg0 (gs !! i) in
      if negb (wg_qcount g =? 0) && (p_flush_ms p <=? now - wg_qopen_ms g) then
        let! x := wgroup_send mem node now p g in
        let '(p, g, ds) := x in
        let! y := flush_loop mem node tidx now l (set_g (<[tidx := <[i := g]> gs]> (p_g p)) p) in
        Ret (y.1, (pair i <$> ds) ++ y.2)
      else flush_loop mem node tidx now l p
  end.

Definition clpush_flush_mine (mem : bool) (node tidx now : Z) (p : clpush) : outcome (clpush * list (nat * dgram)) :=
  if (tidx <? 0) || (PC_TIDX_MAX <=? tidx) then Ret (p, [])
  else match p_g p !! tidx with
       | None => Ret (p, [])
       | Some gs => flush_loop mem node tidx now (seq 0 (Z.to_nat (p_npeers p))) p
       end.

(** * The copies go ([spread_ack_drop] of cluster.c) *)

Definition be_get64 (p : bytes) : outcome Z :=
  foldl (fun v b => let! v := v in let! x := byte_at p b in Ret (Z.lor (u64 (Z.shiftl v 8)) x)) (Ret 0) [3; 4; 5; 6; 7; 8; 9; 10].

(** The notes of a slot, each key with the version below which its copy goes. *)
Fixpoint drop_loop (fuel : nat) (r : bytes) : outcome (list note) :=
  match fuel with
  | O => Ret []
  | S fuel =>
      if negb (11 <=? zlen r) then Ret []
      else
        let! collen := byte_at r 0 in
        let! k1 := byte_at r 1 in
        let! k0 := byte_at r 2 in
        let klen := Z.lor (Z.shiftl k1 8) k0 in
        if zlen r <? 11 + collen + klen then Ret []
        else
          let! ver := be_get64 r in
          let! col := sub_at r 11 collen in
          let! key := sub_at r (11 + collen) klen in
          let! l := drop_loop fuel (zdrop (11 + collen + klen) r) in
          Ret (if ver =? 0 then l else mk_note col key ver :: l)
  end.

Definition spread_ack_drop (a : clpush_ack) (stored : Z) : outcome (list note) :=
  if negb (stored =? pa_count a) then Ret [] else drop_loop (length (pa_nh a)) (ztake (pa_nhlen a) (pa_nh a)).

End Push.

(** * What a group holds *)

(** A record the write path makes: its fields fit the wire and it fits a datagram. *)
Definition rec_fits (r : clmig_rec) : Prop := mrec_wf r /\ 9 + rec_len r <= 65535.

Definition note_of (r : clmig_rec) : note := mk_note (mr_col r) (mr_key r) (mr_ver r).

Section Ok.
Context {addr : Type} `{!EqDecision addr}.
#[local] Abbreviation wgroup := (@wgroup addr).
#[local] Abbreviation clpush := (@clpush addr).
#[local] Abbreviation dgram := (@dgram addr).
#[local] Abbreviation clpush_ack := (@clpush_ack addr).

Definition frames (rs : list clmig_rec) : bytes := concat (rec_frame <$> rs).
Definition note_frames (ns : list note) : bytes := concat (note_bytes <$> ns).

(** The group holds the records [rs] and the notes [ns], each of one of them. *)
Record wg_ok (g : wgroup) (rs : list clmig_rec) (ns : list note) : Prop := {
  wo_q : match wg_q g with
         | None => rs = []
         | Some q => zlen q = wg_qcap g /\ wg_qlen g = 9 + zlen (frames rs) /\ exists h x, q = h ++ frames rs ++ x /\ zlen h = 9
         end;
  wo_count : wg_qcount g = zlen rs;
  wo_recs : Forall rec_fits rs;
  wo_small : rs = [] \/ wg_qlen g <= 56000 \/ zlen rs = 1;
  wo_nh : zlen (wg_nh g) = wg_nhcap g /\ wg_nhlen g = zlen (note_frames ns) /\ exists x, wg_nh g = note_frames ns ++ x;
  wo_nhcount : wg_nhcount g = zlen ns;
  wo_few : zlen ns <= zlen rs;
  wo_notes : Forall (fun n => exists r, r ∈ rs /\ n = note_of r) ns
}.

(** A datagram carries the records [rs]. *)
Definition carries (d : dgram) (rs : list clmig_rec) : Prop :=
  exists node, d_bytes d = group_bytes (mk_group M_REPL_MANY (d_req d) node rs) /\ group_wf (mk_group M_REPL_MANY (d_req d) node rs).

(** A slot that waits has a datagram of the log, its count and notes of its records. *)
Definition ack_slot_ok (log : list (Z * Z * dgram)) (a : clpush_ack) : Prop :=
  pa_state a = 0 \/
  exists x d rs ns, (x, d) ∈ log /\ carries d rs /\ d_req d = pa_req a /\ d_to d = pa_to a /\ pa_count a = zlen rs /\
    ztake (pa_nhlen a) (pa_nh a) = note_frames ns /\ Forall (fun n => exists r, r ∈ rs /\ n = note_of r) ns.

Definition acks_ok (t : option (gmap Z clpush_ack)) (log : list (Z * Z * dgram)) : Prop :=
  forall m k a, t = Some m -> m !! k = Some a -> ack_slot_ok log a.

(** Request numbers: [n] of them asked for. *)
Record reqs_ok (seq : Z) (log : list (Z * Z * dgram)) (n : Z) : Prop := {
  rq_seq : seq = u32 n;
  rq_n : 0 <= n <= zlen log;
  rq_range : n < 2 ^ 31 -> forall x d, (x, d) ∈ log -> d_req d = 0 \/ CLPUSH_ACK_TAG + 1 <= d_req d <= CLPUSH_ACK_TAG + n;
  rq_once : n < 2 ^ 31 -> forall i j x y d e, log !! i = Some (x, d) -> log !! j = Some (y, e) -> d_req d <> 0 -> d_req d = d_req e -> i = j
}.

Record plane_ok (p : clpush) (log : list (Z * Z * dgram)) : Prop := {
  po_hdr : p_hdr p = 9; po_cap : p_cap p = 56000; po_flush : 0 <= p_flush_bytes p; po_peers : 0 <= p_npeers p;
  po_acks : acks_ok (p_acks p) log;
  po_reqs : exists n, reqs_ok (p_ack_seq p) log n
}.

Lemma realloc_more b n : zlen b <= n -> realloc_to b n = b ++ malloc (n - zlen b) /\ zlen (realloc_to b n) = n.
Proof. intros H. unfold realloc_to. rewrite ztake_all by lia. split; [done|]. rewrite zlen_app. unfold malloc. rewrite zlen_replicate. lia. Qed.

Lemma wr_ok a b src pos : pos = zlen a -> zlen src <= zlen b -> exists x, wr_blk (a ++ b) pos src = Ret (a ++ src ++ x) /\ zlen (a ++ src ++ x) = zlen (a ++ b).
Proof.
  intros -> Hs. destruct (room_split (zlen src) b) as (b1 & x & -> & Hb1); [pose proof (zlen_nonneg src); lia|]. exists x. unfold wr_blk. pose proof (zlen_nonneg a). rewrite !zlen_app in *. pose proof (zlen_nonneg x).
  rewrite (proj2 (andb_true_iff _ _)) by lia. rewrite (blit_mid a b1) by lia. split; [done|]. lia.
Qed.

Lemma frames_snoc rs r : frames (rs ++ [r]) = frames rs ++ rec_frame r.
Proof. unfold frames. rewrite fmap_app, concat_app. cbn. by rewrite app_nil_r. Qed.

Lemma note_frames_snoc ns n : note_frames (ns ++ [n]) = note_frames ns ++ note_bytes n.
Proof. unfold note_frames. rewrite fmap_app, concat_app. cbn. by rewrite app_nil_r. Qed.

Lemma note_len n : zlen (note_bytes n) = 11 + zlen (no_col n) + zlen (no_key n).
Proof. unfold note_bytes. rewrite !zlen_app. change (zlen (be64 (no_ver n))) with 8. change (zlen [_; _; _]) with 3. lia. Qed.

Lemma hdr_bytes req node n : (clmig_group_hdr CLMIG_GHDR M_REPL_MANY req node n).2 = [u8 M_REPL_MANY] ++ pc_p32 req ++ pc_p16 (u16 node) ++ pc_p16 (u16 n).
Proof.
  unfold clmig_group_hdr, built. cbv zeta. unfold_w. rewrite !wseq_built; [cbn [w_ok w_out concat snd]|]; [by rewrite app_nil_r|].
  cbn [concat]. rewrite !zlen_app, zlen_cons, !zlen_nil, zlen_p32, !zlen_p16. done.
Qed.

(** * Leaving *)

Lemma wg_bytes g rs ns : wg_ok g rs ns -> rs <> [] -> exists q h x, wg_q g = Some q /\ q = h ++ frames rs ++ x /\ zlen h = 9 /\ wg_qlen g = 9 + zlen (frames rs) /\ zlen q = wg_qcap g.
Proof. intros H Hne. pose proof (wo_q _ _ _ H) as Hq. destruct (wg_q g) as [q|]; [|done]. destruct Hq as (H1 & H2 & h & x & H3 & H4). by exists q, h, x. Qed.

Lemma frames_total rs : zlen (frames rs) = foldr (fun r n => rec_len r + n) 0 rs.
Proof. induction rs as [|r rs IH]; [done|]. unfold frames in *. cbn [fmap list_fmap concat foldr]. rewrite zlen_app, IH, zlen_rec_frame. done. Qed.

Lemma wg_wf g rs ns req node : wg_ok g rs ns -> rs <> [] -> is_u32 req -> group_wf (mk_group M_REPL_MANY req node rs).
Proof.
  intros H Hne Hr. destruct (wg_bytes _ _ _ H Hne) as (q & h & x & _ & _ & _ & Hl & _). split_and!; [done| |done|].
  - eapply Forall_impl; [exact (wo_recs _ _ _ H)|]. by intros r [? _].
  - rewrite zlen_group. cbn [gr_recs]. fold (frames rs). destruct (wo_small _ _ _ H) as [|[Hs|Hs]]; [done|lia|]. destruct rs as [|r [|r' rs]]; [done| |rewrite !zlen_cons in Hs; pose proof (zlen_nonneg rs); lia].
    pose proof (wo_recs _ _ _ H) as Hf. apply Forall_cons in Hf as [[_ Hf] _]. rewrite frames_total. cbn [foldr]. lia.
Qed.

Lemma wg_count_u16 g rs ns : wg_ok g rs ns -> rs <> [] -> is_u16 (zlen rs).
Proof.
  intros H Hne. pose proof (wg_wf g rs ns 0 0 H Hne ltac:(unfold is_u32; lia)) as (_ & _ & _ & Hl). rewrite zlen_group in Hl. cbn [gr_recs] in Hl. pose proof (recs_count rs). pose proof (zlen_nonneg rs). unfold is_u16. lia.
Qed.



Definition same_conf (p p' : clpush) : Prop :=
  p_npeers p' = p_npeers p /\ p_hdr p' = p_hdr p /\ p_cap p' = p_cap p /\ p_flush_bytes p' = p_flush_bytes p /\ p_flush_ms p' = p_flush_ms p.

Lemma slot_mono log l a : ack_slot_ok log a -> ack_slot_ok (log ++ l) a.
Proof. intros [H|(x & d & rs & ns & Hin & H)]; [by left|right]. exists x, d, rs, ns. split; [|done]. apply elem_of_app. by left. Qed.

Lemma acks_mono t log l : acks_ok t log -> acks_ok t (log ++ l).
Proof. intros H m k a Ht Hk. by apply slot_mono, (H m k a). Qed.

(** The request number of the [n]th group that asks for one. *)
Definition req_no (seq : Z) : Z := Z.lor CLPUSH_ACK_TAG (Z.ldiff seq CLPUSH_ACK_TAG).

Lemma tag_pow : CLPUSH_ACK_TAG = 2 ^ 31.
Proof. done. Qed.

Lemma high_bit s n : 0 <= s < 2 ^ 31 -> 31 <= n -> Z.testbit s n = false.
Proof. intros Hs Hn. rewrite <- (Z.mod_small s (2 ^ 31)) by lia. by apply Z.mod_pow2_bits_high. Qed.

Lemma req_small s : 0 <= s < 2 ^ 31 -> req_no s = CLPUSH_ACK_TAG + s.
Proof.
  intros Hs. unfold req_no. rewrite tag_pow. assert (Z.ldiff s (2 ^ 31) = s) as ->.
  { apply Z.bits_inj'. intros n Hn. rewrite Z.ldiff_spec, Z.pow2_bits_eqb by lia. destruct (Z.eqb_spec 31 n) as [<-|]; [by rewrite high_bit by lia|]. by rewrite andb_true_r. }
  assert (Z.land (2 ^ 31) s = 0) as H0. { apply Z.bits_inj'. intros n Hn. rewrite Z.land_spec, Z.pow2_bits_eqb, Z.bits_0 by lia. destruct (Z.eqb_spec 31 n) as [<-|]; [by rewrite high_bit by lia|done]. }
  by rewrite <- Z.lxor_lor, <- Z.add_nocarry_lxor by done.
Qed.

Lemma req_u32 s : 0 <= s < 2 ^ 32 -> is_u32 (req_no s) /\ req_no s <> 0.
Proof.
  intros Hs. assert (Z.testbit (req_no s) 31 = true) as Hb by (unfold req_no; by rewrite Z.lor_spec). split; [|intros E; by rewrite E in Hb].
  assert (req_no s = req_no s mod 2 ^ 32) as ->; [|apply Z.mod_pos_bound; lia]. apply Z.bits_inj'. intros n Hn. destruct (Z.ltb_spec n 32); [by rewrite Z.mod_pow2_bits_low by lia|]. rewrite Z.mod_pow2_bits_high by lia. unfold req_no. rewrite tag_pow, Z.lor_spec, Z.ldiff_spec, Z.pow2_bits_eqb by lia. destruct (Z.eqb_spec 31 n); [lia|].
  rewrite <- (Z.mod_small s (2 ^ 32)) by lia. by rewrite Z.mod_pow2_bits_high by lia.
Qed.

(** ** Parking a group's notes *)

Lemma reqs_zero seq log n x d : reqs_ok seq log n -> d_req d = 0 -> reqs_ok seq (log ++ [(x, d)]) n.
Proof.
  intros [H1 H2 H3 H4] Hd. split; [done|rewrite zlen_app; change (zlen [_]) with 1; lia| |].
  - intros Hn y e [Hin|Hin]%elem_of_app; [by apply H3 in Hin|]. apply list_elem_of_singleton in Hin as [= -> ->]. by left.
  - intros Hn i j y z e f Hi Hj Hne He. apply lookup_app_Some in Hi as [Hi|[Hi1 Hi]]; [|apply list_lookup_singleton_Some in Hi as [_ [= <- <-]]; done]. apply lookup_app_Some in Hj as [Hj|[Hj1 Hj]]; [|apply list_lookup_singleton_Some in Hj as [_ [= <- <-]]; congruence]. by eapply H4.
Qed.

Lemma reqs_more seq log n x d : reqs_ok seq log n -> d_req d = 0 \/ d_req d = req_no (u32 (seq + 1)) -> reqs_ok (u32 (seq + 1)) (log ++ [(x, d)]) (n + 1).
Proof.
  intros [H1 H2 H3 H4] Hd. assert (u32 (seq + 1) = u32 (n + 1)) as Hs by (rewrite H1; unfold u32; by rewrite Z.add_mod_idemp_l). assert (n + 1 < 2 ^ 31 -> d_req d = 0 \/ d_req d = CLPUSH_ACK_TAG + (n + 1)) as Hr.
  { intros Hn. destruct Hd as [|Hd]; [by left|right]. rewrite Hd, Hs, u32_id by (unfold is_u32; lia). apply req_small. lia. }
  split; [done|rewrite zlen_app; change (zlen [_]) with 1; lia| |].
  - intros Hn y e [Hin|Hin]%elem_of_app; [apply H3 in Hin as [|]; [by left|right; lia|lia]|]. apply list_elem_of_singleton in Hin as [= -> ->]. destruct (Hr Hn) as [|Hr']; [by left|right; rewrite Hr'; lia].
  - intros Hn i j y z e f Hi Hj Hne He. assert (forall k w g, log !! k = Some (w, g) -> d_req g <> CLPUSH_ACK_TAG + (n + 1)) as Hno by (intros k w g Hk Hg; apply list_elem_of_lookup_2, (H3 ltac:(lia)) in Hk as [Hk|Hk]; rewrite Hg in Hk; [change CLPUSH_ACK_TAG with 2147483648 in Hk|]; lia).
    apply lookup_app_Some in Hi as [Hi|[Hi1 Hi]]; apply lookup_app_Some in Hj as [Hj|[Hj1 Hj]]; [by eapply (H4 ltac:(lia))| | |].
    + apply list_lookup_singleton_Some in Hj as [_ [= <- <-]]. destruct (Hr Hn) as [E|E]; [congruence|]. exfalso. apply (Hno _ _ _ Hi). congruence.
    + apply list_lookup_singleton_Some in Hi as [_ [= <- <-]]. destruct (Hr Hn) as [E|E]; [congruence|]. exfalso. apply (Hno _ _ _ Hj). congruence.
    + apply list_lookup_singleton_Some in Hi as [Hi _]. apply list_lookup_singleton_Some in Hj as [Hj _]. lia.
Qed.

(** What a park leaves of the group: all but its notes. *)
Definition parked (g g' : wgroup) : Prop :=
  wg_q g' = wg_q g /\ wg_qcap g' = wg_qcap g /\ wg_qlen g' = wg_qlen g /\ wg_qcount g' = wg_qcount g /\ wg_to g' = wg_to g /\ zlen (wg_nh g') = wg_nhcap g'.

Lemma plane_log p log p' l : plane_ok p log -> same_conf p p' -> acks_ok (p_acks p') (log ++ l) -> (exists n, reqs_ok (p_ack_seq p') (log ++ l) n) -> plane_ok p' (log ++ l).
Proof. intros [H1 H2 H3 H4 _ _] (C1 & C2 & C3 & C4 & C5) Ha Hr. split; try congruence; done. Qed.

Lemma park_ok mem now p g rs ns log : plane_ok p log -> wg_ok g rs ns -> rs <> [] ->
  exists p' g' req, clpush_ack_park mem p g now = (p', g', req) /\ is_u32 req /\ p_g p' = p_g p /\ p_open p' = p_open p /\ same_conf p p' /\ parked g g' /\
    forall x d, carries d rs -> d_req d = req -> d_to d = wg_to g -> plane_ok p' (log ++ [(x, d)]).
Proof.
  intros Hp Hg Hne. assert (same_conf p p) as Hc by done. assert (parked g g) as Hpk by (destruct (wo_nh _ _ _ Hg) as [? _]; done). destruct (po_reqs _ _ Hp) as [n Hn]. assert (is_u32 0) as H0 by (unfold is_u32; lia). unfold clpush_ack_park.
  assert (forall x d, d_req d = 0 -> plane_ok p (log ++ [(x, d)])) as Hsame by (intros x d Hd; apply (plane_log p log p); [done|done|by apply acks_mono, Hp|exists n; by apply reqs_zero]).
  destruct (wg_nhcount g =? 0); [exists p, g, 0; split_and!; try done; intros; by apply Hsame|].
  assert (exists q t, acks_of mem p = (q, t) /\ p_g q = p_g p /\ p_open q = p_open p /\ same_conf p q /\ p_ack_seq q = p_ack_seq p /\ p_acks q = t /\ acks_ok t log) as (q & t & Hq & Q1 & Q2 & Q3 & Q4 & Q5 & Q6).
  { unfold acks_of. pose proof (po_acks _ _ Hp). destruct (p_acks p) as [t|] eqn:Et; [by exists p, (Some t)|]. destruct mem; [|by exists p, None]. eexists _, _. split_and!; try done. intros m k a [= <-]. by rewrite lookup_empty. }
  rewrite Hq. destruct t as [t|]; [|exists q, g, 0; split_and!; try done; intros x d _ Hd _; apply (plane_log p log q); [done|done|rewrite Q5; by apply acks_mono|exists n; rewrite Q4; by apply reqs_zero]].
  cbv zeta. fold (req_no (u32 (p_ack_seq q + 1))). rewrite Q4. destruct (req_u32 (u32 (p_ack_seq p + 1)) (u32_range _)) as [R1 R2].
  destruct (negb _).
  - exists (set_acks (Some t) (u32 (p_ack_seq p + 1)) q), g, 0. split_and!; try done. intros x d _ Hd _. apply (plane_log p log); [done|done|cbn; by apply acks_mono|]. exists (n + 1). apply reqs_more; [done|by left].
  - eexists _, _, _. split_and!; [reflexivity|done|cbn; congruence|cbn; congruence|done|done|]. intros x d Hcar Hd Hto. apply (plane_log p log); [done|done| |exists (n + 1); apply reqs_more; [done|by right]].
    cbn. intros m k a [= <-] Hk. apply lookup_insert_Some in Hk as [[_ <-]|[_ Hk]]; [|by apply slot_mono, (Q6 t k)]. right. destruct (wo_nh _ _ _ Hg) as (_ & N2 & y & N3). exists x, d, rs, ns. cbn [pa_req pa_to pa_count pa_nhlen pa_nh].
    split_and!; [apply elem_of_app; right; by apply list_elem_of_singleton|done|done|done|exact (wo_count _ _ _ Hg)|rewrite N3, N2; by apply ztake_app|exact (wo_notes _ _ _ Hg)].
Qed.

Lemma s32_add n d : s32 (s32 n + d) = s32 (n + d).
Proof. unfold s32. replace ((n + 2 ^ 31) mod 2 ^ 32 - 2 ^ 31 + d + 2 ^ 31) with ((n + 2 ^ 31) mod 2 ^ 32 + d) by lia. rewrite Z.add_mod_idemp_l by lia. do 2 f_equal. lia. Qed.

(** ** A datagram leaves *)

Lemma send_ok x mem node now p g rs ns log : plane_ok p log -> wg_ok g rs ns -> rs <> [] ->
  exists p' g' d, wgroup_send mem node now p g = Ret (p', g', [d]) /\ carries d rs /\ d_to d = wg_to g /\ wg_to g' = wg_to g /\ wg_ok g' [] [] /\ is_Some (wg_q g') /\
    plane_ok p' (log ++ [(x, d)]) /\ p_g p' = p_g p /\ same_conf p p' /\ p_open p' = s32 (p_open p + -1).
Proof.
  intros Hp Hg Hne. destruct (park_ok mem now p g rs ns log Hp Hg Hne) as (p1 & g1 & req & Hpk & Hreq & P1 & P2 & P3 & (G1 & G2 & G3 & G4 & G5 & G6) & P4). destruct (wg_bytes g rs ns Hg Hne) as (q & h & y & Hq & Eq & Hh & Hl & Hcap).
  unfold wgroup_send. rewrite (wo_count _ _ _ Hg). destruct (Z.eqb_spec (zlen rs) 0) as [E|_]; [by apply zlen_zero in E|]. rewrite Hpk. rewrite G1, Hq, G4, (wo_count _ _ _ Hg), hdr_bytes. change (default [] (Some q)) with q.
  pose proof (wg_count_u16 g rs ns Hg Hne) as Hcnt. rewrite (u16_id (zlen rs)) by done. set (hd := [u8 M_REPL_MANY] ++ _). assert (zlen hd = 9) as Hhd by (unfold hd; rewrite !zlen_app, zlen_p32, !zlen_p16; done).
  assert (wr_blk q 0 hd = Ret (hd ++ frames rs ++ y)) as ->. { rewrite Eq. unfold wr_blk. rewrite (proj2 (andb_true_iff _ _)) by (rewrite !zlen_app; pose proof (zlen_nonneg (frames rs)); pose proof (zlen_nonneg y); lia). f_equal. apply (blit_mid [] h); [done|lia]. }
  cbn [obind]. set (q' := hd ++ frames rs ++ y). assert (zlen q' = wg_qcap g) as Hq' by (rewrite <- Hcap, Eq; unfold q'; rewrite !zlen_app; lia).
  assert (ztake (wg_qlen g) q' = group_bytes (mk_group M_REPL_MANY req node rs)) as Hb.
  { rewrite Hl. unfold q'. rewrite app_assoc. rewrite ztake_app by (rewrite zlen_app; lia). unfold hd, group_bytes, group_head. cbn [gr_type gr_req gr_node gr_recs]. rewrite <- !app_assoc. done. }
  cbn [wg_qlen wg_to clpush_sent]. rewrite G3, G5. eexists _, _, _. split; [reflexivity|]. assert (carries (mk_dgram (wg_to g) req (ztake (wg_qlen g) q')) rs) as Hcar by (exists node; split; [exact Hb|by eapply wg_wf]).
  split_and!; try done.
  - split; cbn [wg_q wg_qcap wg_qlen wg_qcount wg_nh wg_nhlen wg_nhcap wg_nhcount]; try done; [|by left|].
    + destruct P3 as (_ & -> & _). rewrite (po_hdr _ _ Hp), G2. split_and!; [done|done|]. exists hd, (frames rs ++ y). done.
    + split_and!; [done|done|by exists (wg_nh g1)].
  - destruct (P4 x (mk_dgram (wg_to g) req (ztake (wg_qlen g) q')) Hcar eq_refl eq_refl) as [O1 O2 O3 O4 O5 O6]. by split.
  - cbn. congruence.
Qed.

(** * A record joins *)

Lemma make_ok mem p n g rs ns log g' : plane_ok p log -> wg_ok g rs ns -> 0 <= n -> wg_make mem p n g = Some g' -> wg_ok g' rs ns /\ is_Some (wg_q g') /\ wg_to g' = wg_to g.
Proof.
  intros Hp Hg Hn. unfold wg_make. destruct (wg_q g) as [q|] eqn:Hq; [intros [= <-]; by rewrite Hq|]. destruct mem; [|done]. intros [= <-]. split_and!; [|done|done]. pose proof (wo_q _ _ _ Hg) as Hrs. rewrite Hq in Hrs. subst rs. pose proof (po_hdr _ _ Hp) as Hh. pose proof (po_flush _ _ Hp) as Hf. rewrite Hh.
  split; cbn [wg_q wg_qcap wg_qlen wg_qcount wg_nh wg_nhlen wg_nhcap wg_nhcount]; try apply Hg; [|done|by left]. unfold malloc. rewrite zlen_replicate. split_and!; [lia|done|]. exists (replicate 9 0), (replicate (Z.to_nat (p_flush_bytes p + n)) 0). split; [|done]. cbn [frames fmap list_fmap concat app]. rewrite <- replicate_add. f_equal. lia.
Qed.

Lemma reset_ok p g log rs ns q : plane_ok p log -> wg_ok g rs ns -> wg_q g = Some q -> wg_ok (wg_reset p g) [] [].
Proof.
  intros Hp Hg Hq. pose proof (wo_q _ _ _ Hg) as H. rewrite Hq in H. destruct H as (H1 & H2 & h & x & H3 & H4). destruct (wo_nh _ _ _ Hg) as (N1 & _). split; cbn [wg_reset wg_q wg_qcap wg_qlen wg_qcount wg_nh wg_nhlen wg_nhcap wg_nhcount]; try done; [|by left|by eauto].
  rewrite Hq, (po_hdr _ _ Hp). split_and!; [done|done|]. by exists h, (frames rs ++ x).
Qed.

(** The number of groups with records this one makes. *)
Definition busy1 (rs : list clmig_rec) : Z := match rs with [] => 0 | _ => 1 end.

Lemma turn_ok to p g rs ns log : plane_ok p log -> wg_ok g rs ns -> is_Some (wg_q g) ->
  exists p' g' rs' ns', wg_turn to p g = (p', g') /\ plane_ok p' log /\ wg_ok g' rs' ns' /\ is_Some (wg_q g') /\ p_g p' = p_g p /\ same_conf p p' /\ (rs' = [] \/ wg_to g' = Some to) /\
    (rs = [] \/ wg_to g = Some to -> rs' = rs) /\ forall n, p_open p = s32 n -> p_open p' = s32 (n + busy1 rs' - busy1 rs).
Proof.
  intros Hp Hg [q Hq]. unfold wg_turn. rewrite (wo_count _ _ _ Hg). destruct (negb _ && negb _) eqn:E.
  - apply andb_true_iff in E as [E1 E2]. apply negb_true_iff in E1, E2. apply Z.eqb_neq in E1. apply bool_decide_eq_false in E2. eexists _, _, [], []. split; [reflexivity|]. split_and!; try done; [destruct Hp; by split|by eapply reset_ok|by left|intros [->|?]; done|].
    intros n Hn. destruct rs; [done|]. cbn [add_open p_open busy1]. rewrite Hn, s32_add. f_equal. lia.
  - exists p, g, rs, ns. split_and!; try done; [|intros n ->; f_equal; lia]. destruct rs as [|r rs]; [by left|right]. apply andb_false_iff in E as [E|E]; apply negb_false_iff in E; [|by apply bool_decide_eq_true in E]. apply Z.eqb_eq in E. rewrite zlen_cons in E. pose proof (zlen_nonneg rs). lia.
Qed.

Lemma start_ok to now p g rs ns log : plane_ok p log -> wg_ok g rs ns -> rs = [] \/ wg_to g = Some to ->
  exists p' g', wg_start to now p g = (p', g') /\ plane_ok p' log /\ wg_ok g' rs ns /\ wg_q g' = wg_q g /\ wg_qlen g' = wg_qlen g /\ wg_to g' = Some to /\ p_g p' = p_g p /\ same_conf p p' /\
    forall n, p_open p = s32 n -> p_open p' = s32 (n + 1 - busy1 rs).
Proof.
  intros Hp Hg Hto. unfold wg_start. rewrite (wo_count _ _ _ Hg). destruct (Z.eqb_spec (zlen rs) 0) as [E|E].
  - apply zlen_zero in E as ->. eexists _, _. split; [reflexivity|]. split_and!; try done; [destruct Hp; by split|destruct Hg; by split|]. intros n Hn. cbn [add_open p_open busy1]. rewrite Hn, s32_add. f_equal. lia.
  - destruct rs as [|r rs]; [done|]. destruct Hto as [|Hto]; [done|]. exists p, g. split_and!; try done. intros n ->. f_equal. cbn [busy1]. lia.
Qed.

Lemma wg_copy_ok r g rs ns h b : wg_ok g rs ns -> rec_fits r -> rs = [] \/ wg_qlen g + rec_len r <= 56000 -> wg_q g = Some (h ++ frames rs ++ b) -> zlen h = 9 -> zlen (rec_frame r) <= zlen b ->
  exists g', wg_copy (rec_frame r) g = Ret g' /\ wg_ok g' (rs ++ [r]) ns /\ wg_to g' = wg_to g /\ is_Some (wg_q g').
Proof.
  intros Hg Hr Hfit Hq H4 Hroom. pose proof (wo_q _ _ _ Hg) as H. rewrite Hq in H. destruct H as (H1 & H2 & _). pose proof (zlen_rec_frame r) as Hlen. fold (rec_len r) in Hlen.
  unfold wg_copy. rewrite Hq. change (default [] (Some (h ++ frames rs ++ b))) with (h ++ frames rs ++ b). rewrite app_assoc. destruct (wr_ok (h ++ frames rs) b (rec_frame r) (wg_qlen g)) as (y & -> & Hy); [rewrite zlen_app; lia|done|]. cbn [obind]. eexists. split; [reflexivity|]. split_and!; try done.
  rewrite <- !app_assoc in Hy. assert (zlen (rs ++ [r]) = zlen rs + 1) as Hz by (by rewrite zlen_app). assert (zlen rs < 65536) as Hsm by (destruct (decide (rs = [])) as [->|Hne]; [done|pose proof (wg_count_u16 g rs ns Hg Hne) as Hu; unfold is_u16 in Hu; lia]). pose proof (zlen_nonneg rs).
  split; cbn [wg_q wg_qcap wg_qlen wg_qcount wg_nh wg_nhlen wg_nhcap wg_nhcount]; try apply Hg.
  - rewrite frames_snoc, <- !app_assoc. split_and!; [congruence|rewrite zlen_app; lia|]. exists h, y. by rewrite <- ?app_assoc.
  - rewrite (wo_count _ _ _ Hg), Hz. apply u32_id. unfold is_u32. lia.
  - apply Forall_app. split; [apply Hg|]. by apply Forall_singleton.
  - right. destruct Hfit as [->|Hfit]; [by right|left]. lia.
  - rewrite Hz. pose proof (wo_few _ _ _ Hg). lia.
  - eapply Forall_impl; [exact (wo_notes _ _ _ Hg)|]. intros n (r' & Hin & ->). exists r'. split; [|done]. apply elem_of_app. by left.
Qed.

Lemma wg_put_ok mem p r g rs ns log : plane_ok p log -> wg_ok g rs ns -> is_Some (wg_q g) -> rec_fits r -> rs = [] \/ wg_qlen g + rec_len r <= 56000 ->
  exists y, wg_put mem p (rec_frame r) g = Ret y /\ match y with None => mem = false | Some g' => wg_ok g' (rs ++ [r]) ns /\ wg_to g' = wg_to g /\ is_Some (wg_q g') end.
Proof.
  intros Hp Hg [q Hq] Hr Hfit. pose proof (wo_q _ _ _ Hg) as H. rewrite Hq in H. destruct H as (H1 & H2 & h & x & H3 & H4). pose proof (zlen_nonneg (rec_frame r)). pose proof (po_flush _ _ Hp) as Hf. assert (zlen q = 9 + zlen (frames rs) + zlen x) as Hz by (rewrite H3, !zlen_app; lia).
  unfold wg_put. rewrite Hq. change (default [] (Some q)) with q. destruct (_ >? _) eqn:E; bool_facts.
  - destruct mem; [|by exists None]. set (want := wg_qlen g + zlen (rec_frame r) + p_flush_bytes p). destruct (realloc_more q want) as [R1 R2]; [unfold want; lia|]. assert (realloc_to q want = h ++ frames rs ++ x ++ malloc (want - zlen q)) as R3 by (rewrite R1, H3 at 1; by rewrite <- !app_assoc).
    destruct (wg_copy_ok r (mk_wg (Some (realloc_to q want)) want (wg_qlen g) (wg_qcount g) (wg_qopen_ms g) (wg_to g) (wg_nh g) (wg_nhlen g) (wg_nhcap g) (wg_nhcount g)) rs ns h (x ++ malloc (want - zlen q))) as (g' & -> & Hg'); [|done|done|cbn [wg_q]; by rewrite R3|done| |by exists (Some g')].
    + split; cbn [wg_q wg_qcap wg_qlen wg_qcount wg_nh wg_nhlen wg_nhcap wg_nhcount]; try apply Hg. split_and!; [done|done|]. by exists h, (x ++ malloc (want - zlen q)).
    + unfold malloc. rewrite zlen_app, zlen_replicate. unfold want. lia.
  - destruct (wg_copy_ok r g rs ns h x) as (g' & -> & Hg'); [done|done|done|by rewrite Hq, H3|done|lia|]. by exists (Some g').
Qed.

Lemma note_ok mem r g rs ns : wg_ok g rs ns -> r ∈ rs -> zlen ns < zlen rs ->
  exists g' ns', nh_note mem (note_of r) g = Ret g' /\ wg_ok g' rs ns' /\ wg_to g' = wg_to g /\ is_Some (wg_q g') /\ wg_qlen g' = wg_qlen g.
Proof.
  intros Hg Hr Hlt. assert (rs <> []) as Hne by (intros ->; by apply not_elem_of_nil in Hr). pose proof (wg_count_u16 g rs ns Hg Hne) as Hu. unfold is_u16 in Hu. destruct (wg_bytes g rs ns Hg Hne) as (q & h & y & Hq & _). destruct (wo_nh _ _ _ Hg) as (N1 & N2 & x & N3). pose proof (note_len (note_of r)) as Hlen. cbn [no_col no_key note_of] in Hlen. pose proof (zlen_nonneg ns).
  assert (forall b cap, zlen (note_frames ns ++ b) = cap -> zlen (note_bytes (note_of r)) <= zlen b ->
    exists g', (let! nh := wr_blk (note_frames ns ++ b) (wg_nhlen g) (note_bytes (note_of r)) in Ret (mk_wg (wg_q g) (wg_qcap g) (wg_qlen g) (wg_qcount g) (wg_qopen_ms g) (wg_to g) nh (wg_nhlen g + (11 + zlen (mr_col r) + zlen (mr_key r))) cap (u32 (wg_nhcount g + 1)))) = Ret g' /\ wg_ok g' rs (ns ++ [note_of r]) /\ wg_to g' = wg_to g /\ is_Some (wg_q g') /\ wg_qlen g' = wg_qlen g) as Hput.
  { intros b cap Hc Hb. destruct (wr_ok (note_frames ns) b (note_bytes (note_of r)) (wg_nhlen g) N2 Hb) as (z & -> & Hz). cbn [obind]. eexists. split; [reflexivity|]. split_and!; try done.
    destruct Hg as [A1 A2 A3 A4 A5 A6 A7 A8]. split; cbn [wg_q wg_qcap wg_qlen wg_qcount wg_nh wg_nhlen wg_nhcap wg_nhcount]; try done.
    - rewrite note_frames_snoc. split_and!; [congruence|rewrite zlen_app; lia|]. exists z. by rewrite <- app_assoc.
    - rewrite A6, zlen_app. change (zlen [_]) with 1. apply u32_id. unfold is_u32. lia.
    - rewrite zlen_app. change (zlen [_]) with 1. lia.
    - apply Forall_app. split; [done|]. apply Forall_singleton. by exists r. }
  unfold nh_note. cbn [no_col no_key note_of]. destruct (_ >? _) eqn:E; bool_facts.
  - destruct mem; [|exists g, ns; rewrite Hq; done]. assert (zlen (wg_nh g) <= (wg_nhlen g + (11 + zlen (mr_col r) + zlen (mr_key r))) * 2 + 1024) as Hw by (rewrite N3 in *; rewrite zlen_app in *; pose proof (zlen_nonneg (note_frames ns)); pose proof (zlen_nonneg (mr_col r)); pose proof (zlen_nonneg (mr_key r)); lia).
    destruct (realloc_more _ _ Hw) as [R1 R2]. cbn [wg_nh wg_nhlen wg_q wg_qcap wg_qlen wg_qcount wg_qopen_ms wg_to wg_nhcap wg_nhcount]. destruct (Hput (x ++ malloc ((wg_nhlen g + (11 + zlen (mr_col r) + zlen (mr_key r))) * 2 + 1024 - zlen (wg_nh g))) ((wg_nhlen g + (11 + zlen (mr_col r) + zlen (mr_key r))) * 2 + 1024)) as (g' & E1 & E2).
    + rewrite app_assoc, <- N3, <- R1. exact R2.
    + rewrite zlen_app. unfold malloc. rewrite zlen_replicate. assert (zlen (wg_nh g) = zlen (note_frames ns) + zlen x) by (rewrite N3, zlen_app; lia). pose proof (zlen_nonneg (note_frames ns)). pose proof (zlen_nonneg (mr_col r)). pose proof (zlen_nonneg (mr_key r)). lia.
    + exists g', (ns ++ [note_of r]). split; [|exact E2]. rewrite R1. rewrite N3 at 1. rewrite <- app_assoc. exact E1.
  - destruct (Hput x (wg_nhcap g)) as (g' & E1 & E2); [by rewrite <- N3|assert (zlen (wg_nh g) = zlen (note_frames ns) + zlen x) by (rewrite N3, zlen_app; lia); lia|]. exists g', (ns ++ [note_of r]). split; [|exact E2]. rewrite N3 at 1. exact E1.
Qed.

Definition am_recs (m : amem) : bool := am_groups m && am_q m && am_grow m.

(** What a step did: the datagrams that left and the records they carried. *)
Record left (x : Z * Z) (p : clpush) (log : list (Z * Z * dgram)) (rs : list clmig_rec) (p' : clpush) (ds : list dgram) (rss : list (list clmig_rec)) (rs' : list clmig_rec) (d : Z) : Prop := {
  lf_plane : plane_ok p' (log ++ (pair x <$> ds));
  lf_g : p_g p' = p_g p;
  lf_conf : same_conf p p';
  lf_carry : Forall2 carries ds rss;
  lf_recs : concat rss ++ rs' = rs;
  lf_open : forall n, p_open p = s32 n -> p_open p' = s32 (n + d)
}.

Lemma same_conf_trans p q r : same_conf p q -> same_conf q r -> same_conf p r.
Proof. intros (?&?&?&?&?) (?&?&?&?&?). split_and!; congruence. Qed.

(** A send, where its condition holds. *)
Lemma maybe_send_ok x (b : bool) mem node now p g rs ns log : plane_ok p log -> wg_ok g rs ns -> is_Some (wg_q g) -> (b = true -> rs <> []) ->
  exists p' g' ds rss rs' ns', (if b then wgroup_send mem node now p g else Ret (p, g, [])) = Ret (p', g', ds) /\ left x p log rs p' ds rss rs' (busy1 rs' - busy1 rs) /\ wg_ok g' rs' ns' /\
    is_Some (wg_q g') /\ wg_to g' = wg_to g /\ Forall (fun d => d_to d = wg_to g) ds /\ (if b then rs' = [] else g' = g /\ rs' = rs /\ ds = []).
Proof.
  intros Hp Hg Hq Hb. destruct b.
  - destruct (send_ok x mem node now p g rs ns log Hp Hg (Hb eq_refl)) as (p' & g' & d & E & S1 & S2 & S3 & S4 & S5 & S6 & S7 & S8 & S9). exists p', g', [d], [rs], [], []. split_and!; try done; [|by apply Forall_singleton].
    split; try done; [by repeat constructor|cbn; by rewrite !app_nil_r|]. intros n Hn. rewrite S9, Hn, s32_add. f_equal. specialize (Hb eq_refl). destruct rs; [done|]. cbn. lia.
  - exists p, g, [], [], rs, ns. split_and!; try done. split; try done; [cbn; by rewrite app_nil_r|]. intros n ->. f_equal. lia.
Qed.

Lemma group_append_ok x m node now to r (no : bool) p g rs ns log : plane_ok p log -> wg_ok g rs ns -> rec_fits r ->
  exists p' g' ds rs' ns' rss lk,
    group_append m node now to (rec_frame r) (if no then Some (note_of r) else None) p g = Ret (p', g', ds) /\
    plane_ok p' (log ++ (pair x <$> ds)) /\ p_g p' = p_g p /\ same_conf p p' /\ wg_ok g' rs' ns' /\ Forall2 carries ds rss /\ Forall (fun d => d_to d = Some to) ds /\
    0 <= lk /\ busy1 rs' - busy1 rs + lk <= 1 /\ (forall n, p_open p = s32 n -> p_open p' = s32 (n + (busy1 rs' - busy1 rs + lk))) /\
    (am_recs m = true -> lk = 0 /\ (rs' = [] \/ wg_to g' = Some to) /\ (rs = [] \/ wg_to g = Some to -> concat rss ++ rs' = rs ++ [r])).
Proof.
  intros Hp Hg Hr. assert (forall l, 0 <= busy1 l <= 1) as Hfull by (intros []; cbn; lia). unfold group_append. destruct (wg_make (am_q m) p (zlen (rec_frame r)) g) as [g1|] eqn:Hmk.
  2:{ eexists p, _, [], rs, ns, [], 0. assert (wg_q g = None /\ am_q m = false) as [Hq Ha] by (unfold wg_make in Hmk; destruct (wg_q g); [done|]; by destruct (am_q m)). split; [reflexivity|]. split_and!; try done; [cbn; by rewrite app_nil_r|pose proof (wo_q _ _ _ Hg) as H; rewrite Hq in H; destruct Hg; split; try done; cbn [wg_q]; by rewrite Hq|lia|intros n ->; f_equal; lia|]. unfold am_recs. rewrite Ha, andb_false_r. done. }
  destruct (make_ok _ _ _ _ _ _ _ _ Hp Hg (zlen_nonneg _) Hmk) as (Hg1 & Hq1 & Ht1). destruct (turn_ok to p g1 rs ns log Hp Hg1 Hq1) as (p2 & g2 & rs2 & ns2 & -> & Hp2 & Hg2 & Hq2 & E2 & C2 & T2 & K2 & O2).
  set (b := negb (wg_qcount g2 =? 0) && _). assert (b = true -> rs2 <> []) as Hb by (intros Hb ->; unfold b in Hb; rewrite (wo_count _ _ _ Hg2) in Hb; done).
  destruct (maybe_send_ok x b (am_acks m) node now p2 g2 rs2 ns2 log Hp2 Hg2 Hq2 Hb) as (p3 & g3 & ds & rss & rs3 & ns3 & -> & L3 & Hg3 & Hq3 & T3 & D3 & B3). cbn [obind].
  assert (rs3 = [] \/ wg_to g3 = Some to) as T3' by (destruct b; [by left|destruct B3 as (-> & -> & _); done]). destruct (start_ok to now p3 g3 rs3 ns3 _ (lf_plane _ _ _ _ _ _ _ _ _ L3) Hg3 T3') as (p4 & g4 & -> & Hp4 & Hg4 & Q4 & Q4' & T4 & E4 & C4 & O4).
  assert (rs3 = [] \/ wg_qlen g4 + rec_len r <= 56000) as Hfit.
  { destruct b eqn:Eb; [by left|]. destruct B3 as (-> & -> & _). unfold b in Eb. rewrite (wo_count _ _ _ Hg2), <- Q4' in *. destruct rs2 as [|r2 rs2]; [by left|right]. apply andb_false_iff in Eb as [Eb|Eb]; [apply negb_false_iff, Z.eqb_eq in Eb; rewrite zlen_cons in Eb; pose proof (zlen_nonneg rs2); lia|]. apply orb_false_iff in Eb as [Eb _]. destruct C2 as (_ & _ & C & _). rewrite C, (po_cap _ _ Hp), zlen_rec_frame in Eb. fold (rec_len r) in Eb. bool_facts. lia. }
  destruct (wg_put_ok (am_grow m) p4 r g4 rs3 ns3 _ Hp4 Hg4 ltac:(by rewrite Q4) Hr Hfit) as (y & -> & Hy). cbn [obind].
  assert (Forall (fun d => d_to d = Some to) ds) as Dall by (destruct b; [destruct T2 as [T2|T2]; [by specialize (Hb eq_refl)|by rewrite T2 in D3]|destruct B3 as (_ & _ & ->); done]).
  assert (forall n, p_open p = s32 n -> p_open p4 = s32 (n + 1 - busy1 rs)) as O5 by (intros n Hn; apply O2, (lf_open _ _ _ _ _ _ _ _ _ L3), O4 in Hn; rewrite Hn; f_equal; lia). pose proof (lf_conf _ _ _ _ _ _ _ _ _ L3) as C3. assert (same_conf p p4) as C5 by (eapply same_conf_trans; [exact C2|]; by eapply same_conf_trans). assert (p_g p4 = p_g p) as E5 by (rewrite E4, (lf_g _ _ _ _ _ _ _ _ _ L3); done).
  destruct y as [g5|]; [destruct Hy as (Hg5 & T5 & Hq5)|].
  2:{ exists p4, g4, ds, rs3, ns3, rss, (1 - busy1 rs3). pose proof (Hfull rs3). pose proof (Hfull rs). split_and!; try done; [apply L3|lia|lia|intros n Hn; rewrite (O5 n Hn); f_equal; lia|]. unfold am_recs. rewrite Hy, andb_false_r. done. }
  assert (exists g6 ns6, match (if no then Some (note_of r) else None) with Some nt => nh_note (am_nh m) nt g5 | None => Ret g5 end = Ret g6 /\ wg_ok g6 (rs3 ++ [r]) ns6 /\ wg_to g6 = Some to /\ is_Some (wg_q g6)) as (g6 & ns6 & -> & Hg6 & T6 & Hq6).
  { destruct no; [|exists g5, ns3; split_and!; [done|done|congruence|done]]. destruct (note_ok (am_nh m) r g5 (rs3 ++ [r]) ns3 Hg5) as (g6 & ns6 & -> & H1 & H2 & H3 & _); [apply elem_of_app; right; by apply list_elem_of_singleton|rewrite zlen_app; pose proof (wo_few _ _ _ Hg3); change (zlen [r]) with 1; lia|]. exists g6, ns6. split_and!; [done|done|congruence|done]. }
  cbn [obind]. set (b2 := _ || _). destruct (maybe_send_ok x b2 (am_acks m) node now p4 g6 (rs3 ++ [r]) ns6 _ Hp4 Hg6 Hq6 ltac:(intros _; by destruct rs3)) as (p7 & g7 & ds7 & rss7 & rs7 & ns7 & E7 & L7 & Hg7 & Hq7 & T7 & D7 & B7).
  assert ((if b2 then let! z := wgroup_send (am_acks m) node now p4 g6 in Ret (z.1.1, z.1.2, ds ++ z.2) else Ret (p4, g6, ds)) = Ret (p7, g7, ds ++ ds7)) as -> by (destruct b2; [by rewrite E7|injection E7 as <- <- <-; by rewrite app_nil_r]).
  exists p7, g7, (ds ++ ds7), rs7, ns7, (rss ++ rss7), 0. pose proof (Hfull rs). pose proof (Hfull rs7). assert (busy1 (rs3 ++ [r]) = 1) as F by (by destruct rs3). split_and!; try done.
  - rewrite fmap_app, app_assoc. apply L7.
  - rewrite (lf_g _ _ _ _ _ _ _ _ _ L7). done.
  - eapply same_conf_trans; [exact C5|apply L7].
  - apply Forall2_app; [apply L3|apply L7].
  - apply Forall_app. split; [done|]. by rewrite T6 in D7.
  - lia.
  - intros n Hn. rewrite (lf_open _ _ _ _ _ _ _ _ _ L7 _ (O5 n Hn)). f_equal. lia.
  - intros _. split_and!; [done|by right; rewrite T7|]. intros Hto. rewrite concat_app, <- app_assoc, (lf_recs _ _ _ _ _ _ _ _ _ L7), app_assoc, (lf_recs _ _ _ _ _ _ _ _ _ L3). f_equal. apply K2. by rewrite Ht1.
Qed.

(** * Notes read back *)

Lemma note_byte v s t : is_u64 v -> 0 <= s <= 56 -> t = s + 8 -> Z.lor (u64 (Z.shiftl (Z.shiftr v t) 8)) (u8 (Z.shiftr v s)) = Z.shiftr v s.
Proof.
  intros Hv Hs ->. unfold is_u64 in Hv. assert (0 <= Z.shiftr v (s + 8) < 2 ^ 56) as Hw.
  { rewrite Z.shiftr_div_pow2 by lia. split; [apply Z.div_pos; lia|]. apply Z.div_lt_upper_bound; [lia|]. rewrite <- Z.pow_add_r by lia. eapply Z.lt_le_trans; [apply Hv|]. apply Z.pow_le_mono_r; lia. }
  rewrite u64_id by (unfold is_u64; rewrite Z.shiftl_mul_pow2 by lia; lia). unfold u8. change 256 with (2 ^ 8). apply Z.bits_inj'. intros n Hn. rewrite Z.lor_spec, Z.shiftl_spec by lia. destruct (Z.ltb_spec n 8).
  - rewrite Z.mod_pow2_bits_low by lia. by rewrite Z.testbit_neg_r by lia.
  - rewrite Z.mod_pow2_bits_high by lia. rewrite orb_false_r, !Z.shiftr_spec by lia. f_equal. lia.
Qed.

Definition be_join (v x : Z) : Z := Z.lor (u64 (Z.shiftl v 8)) x.

Lemma be_get64_bytes a b c x0 x1 x2 x3 x4 x5 x6 x7 r :
  be_get64 ([a; b; c] ++ [x0; x1; x2; x3; x4; x5; x6; x7] ++ r) = Ret (be_join (be_join (be_join (be_join (be_join (be_join (be_join (be_join 0 x0) x1) x2) x3) x4) x5) x6) x7).
Proof.
  set (l := [a; b; c] ++ _). assert (byte_at l 3 = Ret x0 /\ byte_at l 4 = Ret x1 /\ byte_at l 5 = Ret x2 /\ byte_at l 6 = Ret x3 /\ byte_at l 7 = Ret x4 /\ byte_at l 8 = Ret x5 /\ byte_at l 9 = Ret x6 /\ byte_at l 10 = Ret x7) as (E3 & E4 & E5 & E6 & E7 & E8 & E9 & E10) by (split_and!; reflexivity).
  unfold be_get64. cbn [foldl obind]. rewrite E3, E4, E5, E6, E7, E8, E9, E10. cbn [obind]. unfold be_join. done.
Qed.

Lemma be_get64_put a b c v r : is_u64 v -> be_get64 ([a; b; c] ++ be64 v ++ r) = Ret v.
Proof.
  intros Hv. assert (Z.shiftr v 64 = 0) as H0 by (rewrite Z.shiftr_div_pow2 by lia; apply Z.div_small; exact Hv).
  unfold be64. cbn [fmap list_fmap]. rewrite be_get64_bytes. unfold be_join.
  replace (u64 (Z.shiftl 0 8)) with (u64 (Z.shiftl (Z.shiftr v 64) 8)) by (by rewrite H0). change (56 - 8 * 0) with 56. change (56 - 8 * 1) with 48. change (56 - 8 * 2) with 40. change (56 - 8 * 3) with 32. change (56 - 8 * 4) with 24. change (56 - 8 * 5) with 16. change (56 - 8 * 6) with 8. change (56 - 8 * 7) with 0.
  rewrite (note_byte v 56 64), (note_byte v 48 56), (note_byte v 40 48), (note_byte v 32 40), (note_byte v 24 32), (note_byte v 16 24), (note_byte v 8 16), (note_byte v 0 8) by (done || lia). done.
Qed.

Lemma note_klen k : 0 <= k <= 65535 -> Z.lor (Z.shiftl (u8 (Z.shiftr k 8)) 8) (u8 k) = k.
Proof.
  intros Hk. pose proof (note_byte k 0 8 ltac:(unfold is_u64; lia) ltac:(lia) eq_refl) as H. rewrite Z.shiftr_0_r in H. assert (0 <= Z.shiftr k 8 < 256) by (rewrite Z.shiftr_div_pow2 by lia; split; [apply Z.div_pos; lia|apply Z.div_lt_upper_bound; lia]).
  rewrite u64_id in H by (unfold is_u64; rewrite Z.shiftl_mul_pow2 by lia; lia). by rewrite (u8_id (Z.shiftr k 8)).
Qed.

Definition note_wf (n : note) : Prop := zlen (no_col n) <= 255 /\ zlen (no_key n) <= 65535 /\ is_u64 (no_ver n).

Lemma drop_loop_notes ns fuel : Forall note_wf ns -> (length ns <= fuel)%nat -> drop_loop fuel (note_frames ns) = Ret (filter (fun n => no_ver n <> 0) ns).
Proof.
  revert fuel. induction ns as [|n ns IH]; intros [|fuel] Hwf Hf; cbn [length] in Hf; try lia; [done|done|]. apply Forall_cons in Hwf as [(H1 & H2 & H3) Hwf]. pose proof (note_len n) as Hl. pose proof (zlen_nonneg (note_frames ns)). pose proof (zlen_nonneg (no_col n)). pose proof (zlen_nonneg (no_key n)).
  assert (note_frames (n :: ns) = note_bytes n ++ note_frames ns) as -> by done. cbn [drop_loop]. rewrite zlen_app. rewrite (proj2 (Z.leb_le _ _)) by lia. cbn [negb].
  set (t := note_frames ns) in *. assert (note_bytes n ++ t = [u8 (zlen (no_col n)); u8 (Z.shiftr (zlen (no_key n)) 8); u8 (zlen (no_key n))] ++ be64 (no_ver n) ++ no_col n ++ no_key n ++ t) as E by (unfold note_bytes; by rewrite <- !app_assoc).
  rewrite E. pose proof (be_get64_put (u8 (zlen (no_col n))) (u8 (Z.shiftr (zlen (no_key n)) 8)) (u8 (zlen (no_key n))) (no_ver n) (no_col n ++ no_key n ++ t) H3) as Hb. set (h := [u8 (zlen (no_col n)); u8 (Z.shiftr (zlen (no_key n)) 8); u8 (zlen (no_key n))] ++ be64 (no_ver n)). assert (zlen h = 11) as Hh by done.
  set (l := [u8 (zlen (no_col n)); _; _] ++ be64 _ ++ _) in *. assert (l = h ++ no_col n ++ no_key n ++ t) as El by (unfold l, h; by rewrite <- app_assoc).
  assert (byte_at l 0 = Ret (u8 (zlen (no_col n))) /\ byte_at l 1 = Ret (u8 (Z.shiftr (zlen (no_key n)) 8)) /\ byte_at l 2 = Ret (u8 (zlen (no_key n)))) as (-> & -> & ->) by done. cbn [obind]. rewrite note_klen by lia. rewrite (u8_id (zlen (no_col n))) by (unfold is_u8; lia).
  rewrite (proj2 (Z.ltb_ge _ _)) by lia. rewrite Hb. cbn [obind]. rewrite El. rewrite (sub_at_app h (no_col n)) by lia. cbn [obind]. rewrite (app_assoc h). rewrite (sub_at_app (h ++ no_col n) (no_key n)) by (rewrite ?zlen_app; lia). cbn [obind].
  rewrite app_assoc. rewrite zdrop_app by (rewrite !zlen_app; lia). unfold t. rewrite IH by (done || lia). cbn [obind]. rewrite filter_cons. destruct (Z.eqb_spec (no_ver n) 0) as [E0|E0]; [rewrite decide_False by (intros ?; done)|rewrite decide_True by done]; [done|]. by destruct n.
Qed.

(** * Runs of the plane

    The log has each datagram with the thread and peer whose group it was; [w_in] the records
    given in; [w_short] whether memory failed a record; [w_cur] the slot the cluster's thread
    has taken, with the acknowledgement's count; [w_drops] the copies let go, with the
    acknowledgement that let them. *)
Record push_world := mk_world {
  w_p : clpush; w_log : list (Z * Z * dgram); w_in : list (Z * Z * addr * clmig_rec); w_short : bool;
  w_cur : option (Z * addr * clpush_ack * Z); w_drops : list (note * Z * addr * Z)
}.

Definition in_range (p : clpush) (t i : Z) : Prop := 0 <= t < PC_TIDX_MAX /\ 0 <= i < p_npeers p.

Inductive push_step : push_world -> push_world -> Prop :=
  | ps_push m node t i now to r p p' ds log inn sh cur dr : in_range p t i -> rec_fits r ->
      clpush_append m node t i now to (clmig_rec_write r) p = Ret (p', ds) ->
      push_step (mk_world p log inn sh cur dr) (mk_world p' (log ++ (pair (t, i) <$> ds)) (inn ++ [(t, i, to, r)]) (sh || negb (am_recs m)) cur dr)
  | ps_push_nh m node t i now to r p p' ds log inn sh cur dr : in_range p t i -> rec_fits r ->
      clpush_append_nh m node t i now to (clmig_rec_write r) (note_of r) p = Ret (p', ds) ->
      push_step (mk_world p log inn sh cur dr) (mk_world p' (log ++ (pair (t, i) <$> ds)) (inn ++ [(t, i, to, r)]) (sh || negb (am_recs m)) cur dr)
  | ps_flush mem node t now p p' ds log inn sh cur dr : 0 <= t < PC_TIDX_MAX ->
      clpush_flush_mine mem node t now p = Ret (p', ds) ->
      push_step (mk_world p log inn sh cur dr) (mk_world p' (log ++ ((fun x => (t, Z.of_nat x.1, x.2)) <$> ds)) inn sh cur dr)
  | ps_take req from stored p p' a log inn sh dr :
      clpush_ack_take p req from = (p', Some a) ->
      push_step (mk_world p log inn sh None dr) (mk_world p' log inn sh (Some (req, from, a, stored)) dr)
  | ps_done req from stored p a l log inn sh dr :
      spread_ack_drop a stored = Ret l ->
      push_step (mk_world p log inn sh (Some (req, from, a, stored)) dr) (mk_world (clpush_ack_done p req) log inn sh None (dr ++ ((fun n => (n, req, from, stored)) <$> l)))
  | ps_expire now ms p log inn sh dr :
      push_step (mk_world p log inn sh None dr) (mk_world (clpush_ack_expire p now ms).1 log inn sh None dr).

Definition world0 (npeers flush_bytes flush_ms : Z) : push_world := mk_world (clpush_init npeers CLMIG_GHDR MIG_GATHER_CAP flush_bytes flush_ms) [] [] false None [].

Definition wgroup_at (p : clpush) (t i : Z) : wgroup := default wg0 (default [] (p_g p !! t) !! Z.to_nat i).

Definition dgrams_of (t i : Z) (log : list (Z * Z * dgram)) : list dgram := snd <$> filter (fun x => x.1 = (t, i)) log.
Definition recs_in (t i : Z) (inn : list (Z * Z * addr * clmig_rec)) : list clmig_rec := snd <$> filter (fun x => x.1.1 = (t, i)) inn.

(** Every record given to that group was for that peer. *)
Definition one_peer (t i : Z) (to : addr) (inn : list (Z * Z * addr * clmig_rec)) : Prop := forall a r, (t, i, a, r) ∈ inn -> a = to.

Definition drop_ok (log : list (Z * Z * dgram)) (x : note * Z * addr * Z) : Prop :=
  exists y d rs r, (y, d) ∈ log /\ carries d rs /\ d_req d = x.1.1.2 /\ d_req d <> 0 /\ d_to d = Some x.1.2 /\ x.2 = zlen rs /\ r ∈ rs /\ x.1.1.1 = note_of r.

Record push_world_ok (w : push_world) (c : Z -> Z -> list clmig_rec) : Prop := {
  wk_plane : plane_ok (w_p w) (w_log w);
  wk_len : forall t gs, p_g (w_p w) !! t = Some gs -> length gs = Z.to_nat (p_npeers (w_p w));
  wk_group : forall t i, 0 <= i -> exists ns, wg_ok (wgroup_at (w_p w) t i) (c t i) ns;
  wk_open : exists (s : gset (Z * Z)) k, (forall t i, (t, i) ∈ s <-> 0 <= i /\ c t i <> []) /\ 0 <= k /\ p_open (w_p w) = s32 (Z.of_nat (size s) + k) /\ Z.of_nat (size s) + k <= zlen (w_in w) /\ (w_short w = false -> k = 0);
  wk_sent : w_short w = false -> forall t i to, 0 <= i -> one_peer t i to (w_in w) -> (c t i = [] \/ wg_to (wgroup_at (w_p w) t i) = Some to) /\
    exists rss, Forall2 carries (dgrams_of t i (w_log w)) rss /\ Forall (fun d => d_to d = Some to) (dgrams_of t i (w_log w)) /\ concat rss ++ c t i = recs_in t i (w_in w);
  wk_cur : forall req from a stored, w_cur w = Some (req, from, a, stored) -> pa_state a = 2 /\ pa_req a = req /\ req <> 0 /\ pa_to a = Some from /\ ack_slot_ok (w_log w) a;
  wk_drops : Forall (drop_ok (w_log w)) (w_drops w)
}.

Lemma wg0_ok : wg_ok wg0 [] [].
Proof. split; try done; [by left|]. split_and!; [done|done|by exists []]. Qed.

Lemma dgrams_app t i l k : dgrams_of t i (l ++ k) = dgrams_of t i l ++ dgrams_of t i k.
Proof. unfold dgrams_of. by rewrite filter_app, fmap_app. Qed.

Lemma dgrams_here t i ds : dgrams_of t i (pair (t, i) <$> ds) = ds.
Proof. unfold dgrams_of. induction ds as [|d ds IH]; [done|]. cbn [fmap list_fmap]. rewrite filter_cons_True by done. cbn. by f_equal. Qed.

Lemma dgrams_there t i t' i' ds : (t', i') <> (t, i) -> dgrams_of t' i' (pair (t, i) <$> ds) = [].
Proof. intros Hne. unfold dgrams_of. induction ds as [|d ds IH]; [done|]. cbn [fmap list_fmap]. rewrite filter_cons_False by (cbn; congruence). done. Qed.

Lemma recs_app t i l k : recs_in t i (l ++ k) = recs_in t i l ++ recs_in t i k.
Proof. unfold recs_in. by rewrite filter_app, fmap_app. Qed.

Lemma drop_mono log l x : drop_ok log x -> drop_ok (log ++ l) x.
Proof. intros (y & d & rs & r & Hin & H). exists y, d, rs, r. split; [|done]. apply elem_of_app. by left. Qed.

Lemma group_put p t i t' i' g gs : p_g p !! t = Some gs -> 0 <= i -> 0 <= i' -> (Z.to_nat i < length gs)%nat ->
  wgroup_at (set_g (<[t := <[Z.to_nat i := g]> gs]> (p_g p)) p) t' i' = if decide ((t', i') = (t, i)) then g else wgroup_at p t' i'.
Proof.
  intros Hgs Hi Hi' Hl. unfold wgroup_at. cbn [p_g set_g]. destruct (decide (t' = t)) as [->|Hne]; [|rewrite lookup_insert_ne by done; rewrite decide_False by congruence; done]. rewrite lookup_insert_eq, Hgs. change (default [] (Some ?x)) with x.
  destruct (decide (i' = i)) as [->|Hni]; [rewrite decide_True by done; by rewrite list_lookup_insert_eq by done|]. rewrite decide_False by congruence. rewrite list_lookup_insert_ne by lia. done.
Qed.

(** The set of groups with records follows one group's change. *)
Lemma set_follow (s : gset (Z * Z)) (c : Z -> Z -> list clmig_rec) t i rs' : 0 <= i -> (forall t i, (t, i) ∈ s <-> 0 <= i /\ c t i <> []) ->
  exists s' : gset (Z * Z), (forall t' i', (t', i') ∈ s' <-> 0 <= i' /\ (if decide ((t', i') = (t, i)) then rs' else c t' i') <> []) /\ Z.of_nat (size s') = Z.of_nat (size s) + busy1 rs' - busy1 (c t i).
Proof.
  intros Hi Hs. destruct (decide (rs' = [])) as [->|Hne].
  - exists (s ∖ {[(t, i)]}). split; [intros t' i'; rewrite elem_of_difference, elem_of_singleton, Hs; destruct (decide _); naive_solver|]. destruct (decide ((t, i) ∈ s)) as [Hin|Hin].
    + rewrite size_difference by set_solver. rewrite size_singleton. assert (size s <> 0%nat) by (intros E; apply size_empty_inv in E; set_solver). apply Hs in Hin as [_ Hin]. destruct (c t i); [done|]. cbn. lia.
    + rewrite difference_disjoint_L by set_solver. rewrite Hs in Hin. destruct (c t i); [cbn; lia|]. exfalso. apply Hin. by split.
  - exists ({[(t, i)]} ∪ s). split; [intros t' i'; rewrite elem_of_union, elem_of_singleton, Hs; destruct (decide _); naive_solver|]. assert (busy1 rs' = 1) as -> by (by destruct rs'). destruct (decide ((t, i) ∈ s)) as [Hin|Hin].
    + rewrite (subseteq_union_1_L {[(t, i)]} s) by set_solver. apply Hs in Hin as [_ Hin]. destruct (c t i); [done|]. cbn. lia.
    + rewrite size_union by set_solver. rewrite size_singleton. rewrite Hs in Hin. destruct (c t i); [cbn; lia|]. exfalso. apply Hin. by split.
Qed.

Definition wg_upd (c : Z -> Z -> list clmig_rec) (t i : Z) (rs : list clmig_rec) : Z -> Z -> list clmig_rec := fun t' i' => if decide ((t', i') = (t, i)) then rs else c t' i'.

(** One group changes: datagrams leave it, records join. *)
Lemma one_group p log inn sh cur dr c t i gs p' g' ds rs' ns' rss lk ex sh' :
  push_world_ok (mk_world p log inn sh cur dr) c -> 0 <= i -> p_g p !! t = Some gs -> (Z.to_nat i < length gs)%nat ->
  p_g p' = p_g p -> same_conf p p' -> plane_ok p' (log ++ (pair (t, i) <$> ds)) -> wg_ok g' rs' ns' -> Forall2 carries ds rss ->
  (forall n, p_open p = s32 n -> p_open p' = s32 (n + (busy1 rs' - busy1 (c t i) + lk))) -> 0 <= lk -> busy1 rs' - busy1 (c t i) + lk <= zlen ex -> (sh' = false -> sh = false /\ lk = 0) ->
  (forall t' i', (t', i') <> (t, i) -> recs_in t' i' ex = []) ->
  (sh' = false -> forall to, one_peer t i to (inn ++ ex) -> c t i = [] \/ wg_to (wgroup_at p t i) = Some to ->
     (rs' = [] \/ wg_to g' = Some to) /\ Forall (fun d => d_to d = Some to) ds /\ concat rss ++ rs' = c t i ++ recs_in t i ex) ->
  push_world_ok (mk_world (set_g (<[t := <[Z.to_nat i := g']> gs]> (p_g p')) p') (log ++ (pair (t, i) <$> ds)) (inn ++ ex) sh' cur dr) (wg_upd c t i rs').
Proof.
  intros [W1 W2 W3 W4 W5 W6 W7] Hi Hgs Hl Eg Hc Hp Hg Hcar Ho Hlk Hin Hsh Hother Hsent. cbn [w_p w_log w_in w_short w_cur w_drops] in *. destruct Hc as (C1 & C2 & C3 & C4 & C5).
  assert (forall t' i', 0 <= i' -> wgroup_at (set_g (<[t := <[Z.to_nat i := g']> gs]> (p_g p')) p') t' i' = if decide ((t', i') = (t, i)) then g' else wgroup_at p t' i') as Hat by (intros t' i' Hi'; rewrite <- Eg in Hgs; rewrite (group_put p' t i t' i' g' gs Hgs Hi Hi' Hl); destruct (decide _); [done|]; unfold wgroup_at; by rewrite Eg).
  split; cbn [w_p w_log w_in w_short w_cur w_drops].
  - destruct Hp. by split.
  - cbn [p_g set_g p_npeers]. intros t' gs' Hgs'. apply lookup_insert_Some in Hgs' as [[_ <-]|[_ Hgs']]; [rewrite length_insert, C1; by apply (W2 t)|]. rewrite C1. apply (W2 t'). by rewrite <- Eg.
  - intros t' i' Hi'. rewrite (Hat t' i' Hi'). unfold wg_upd. destruct (decide _); [by exists ns'|by apply W3].
  - destruct W4 as (s & k & S1 & S2 & S3 & S4 & S5). destruct (set_follow s c t i rs' Hi S1) as (s' & F1 & F2). exists s', (k + lk). cbn [p_open set_g]. split_and!; [exact F1|lia|rewrite (Ho _ S3); f_equal; lia|rewrite zlen_app; lia|intros Hs; destruct (Hsh Hs) as [Hs1 ->]; rewrite (S5 Hs1); lia].
  - intros Hs t' i' to Hi' Hone. destruct (Hsh Hs) as [Hs1 _]. assert (one_peer t' i' to inn) as Hone' by (intros a r Hin'; apply (Hone a r), elem_of_app; by left). destruct (W5 Hs1 t' i' to Hi' Hone') as (V1 & rss0 & V2 & V3 & V4). rewrite (Hat t' i' Hi'), dgrams_app, recs_app. unfold wg_upd. destruct (decide ((t', i') = (t, i))) as [E|E].
    + injection E as -> ->. rewrite dgrams_here. destruct (Hsent Hs to Hone V1) as (U1 & U2 & U3). split; [done|]. exists (rss0 ++ rss). split_and!; [by apply Forall2_app|by apply Forall_app|]. rewrite concat_app, <- app_assoc, U3, app_assoc. by rewrite V4.
    + rewrite dgrams_there by done. rewrite Hother by done. rewrite !app_nil_r. split; [done|]. by exists rss0.
  - intros req from a stored Hcur. destruct (W6 _ _ _ _ Hcur) as (? & ? & ? & ? & ?). split_and!; try done. by apply slot_mono.
  - eapply Forall_impl; [exact W7|]. intros x. apply drop_mono.
Qed.

(** The thread's groups are made. *)
Lemma made_ok p log inn sh cur dr c t : push_world_ok (mk_world p log inn sh cur dr) c ->
  push_world_ok (mk_world (set_g (<[t := default (replicate (Z.to_nat (p_npeers p)) wg0) (p_g p !! t)]> (p_g p)) p) log inn sh cur dr) c.
Proof.
  intros [W1 W2 W3 W4 W5 W6 W7]. cbn [w_p w_log w_in w_short w_cur w_drops] in *. set (gs := default _ _).
  assert (forall t' i', wgroup_at (set_g (<[t := gs]> (p_g p)) p) t' i' = wgroup_at p t' i') as Hat.
  { intros t' i'. unfold wgroup_at. cbn [p_g set_g]. destruct (decide (t' = t)) as [->|]; [|by rewrite lookup_insert_ne by done]. rewrite lookup_insert_eq. change (default [] (Some ?x)) with x. unfold gs. destruct (p_g p !! t); [done|]. change (default ?x None) with x. rewrite lookup_nil. destruct (replicate _ wg0 !! _) as [g|] eqn:E; [by apply lookup_replicate in E as [-> _]|done]. }
  split; cbn [w_p w_log w_in w_short w_cur w_drops]; try done.
  - destruct W1. by split.
  - cbn [p_g set_g p_npeers]. intros t' gs' Hgs'. apply lookup_insert_Some in Hgs' as [[_ <-]|[_ Hgs']]; [|by apply (W2 t')]. unfold gs. destruct (p_g p !! t) as [l|] eqn:E; [by apply (W2 t)|]. apply length_replicate.
  - intros t' i' Hi'. rewrite Hat. by apply W3.
  - intros Hs t' i' to Hi' Hone. rewrite Hat. by apply W5.
Qed.

Lemma world_ext w c c' : (forall t i, c t i = c' t i) -> push_world_ok w c -> push_world_ok w c'.
Proof.
  intros He [W1 W2 W3 W4 W5 W6 W7]. split; try done.
  - intros t i Hi. rewrite <- He. by apply W3.
  - destruct W4 as (s & k & S1 & S2). exists s, k. split; [|done]. intros t i. rewrite <- He. apply S1.
  - intros Hs t i to Hi Ho. rewrite <- He. by apply W5.
Qed.

Lemma record_push_ok m node t i now to r (no : bool) p log inn sh cur dr c : push_world_ok (mk_world p log inn sh cur dr) c -> in_range p t i -> rec_fits r ->
  exists p' ds c', append m node t i now to (rec_frame r) (if no then Some (note_of r) else None) p = Ret (p', ds) /\
    push_world_ok (mk_world p' (log ++ (pair (t, i) <$> ds)) (inn ++ [(t, i, to, r)]) (sh || negb (am_recs m)) cur dr) c'.
Proof.
  intros W [Ht Hi] Hr. unfold append. replace (_ || _ || _ || _) with false by (symmetry; rewrite !orb_false_iff; lia).
  assert (forall t' i', (t', i') <> (t, i) -> recs_in t' i' [(t, i, to, r)] = []) as Hother by (intros t' i' Hne; unfold recs_in; by rewrite filter_cons_False by (cbn; congruence)).
  assert (recs_in t i [(t, i, to, r)] = [r]) as Hhere by (unfold recs_in; by rewrite filter_cons_True). destruct (p_g p !! t) as [gs|] eqn:Hgs; [|destruct (am_groups m) eqn:Hm].
  3:{ exists p, [], c. split; [done|]. cbn [fmap list_fmap]. rewrite app_nil_r. unfold am_recs. rewrite Hm, orb_true_r. destruct W as [W1 W2 W3 (s & k & S1 & S2 & S3 & S4 & S5) W5 W6 W7]. split; try done. exists s, k. cbn [w_in] in *. rewrite zlen_app. pose proof (zlen_nonneg [(t, i, to, r)]). cbn [w_p w_short] in *. split_and!; [done|done|done|lia|done]. }
  all: pose proof (made_ok _ _ _ _ _ _ _ t W) as W'; rewrite Hgs in W'; set (gs' := default (replicate (Z.to_nat (p_npeers p)) wg0) _) in *; set (p1 := set_g _ p) in *; assert (p_g p1 !! t = Some gs') as Hgs' by (cbn [p1 set_g p_g]; by rewrite lookup_insert_eq); assert (Z.to_nat i < length gs')%nat as Hl by (rewrite (wk_len _ _ W' t gs' Hgs'); cbn [w_p]; change (p_npeers p1) with (p_npeers p); lia); destruct (wk_group _ _ W' t i ltac:(lia)) as [ns Hg]; cbn [w_p] in Hg; assert (default wg0 (gs' !! Z.to_nat i) = wgroup_at p1 t i) as -> by (unfold wgroup_at; by rewrite Hgs').
  all: destruct (group_append_ok (t, i) m node now to r no p1 (wgroup_at p1 t i) (c t i) ns log (wk_plane _ _ W') Hg Hr) as (p' & g' & ds & rs' & ns' & rss & lk & -> & G1 & G2 & G3 & G4 & G5 & G6 & G7 & G8 & G9 & G10); cbn [obind]; eexists _, _, (wg_upd c t i rs'); (split; [reflexivity|]).
  all: apply (one_group p1 log inn sh cur dr c t i gs' p' g' ds rs' ns' rss lk); try done; [lia|intros Hs; apply orb_false_iff in Hs as [-> Hs]; apply negb_false_iff in Hs; by destruct (G10 Hs)|].
  all: intros Hs to' Hone Hto; apply orb_false_iff in Hs as [_ Hs]; apply negb_false_iff in Hs; destruct (G10 Hs) as (_ & U1 & U2); assert (to' = to) as -> by (symmetry; apply (Hone to r), elem_of_app; right; by apply list_elem_of_singleton); rewrite Hhere; split_and!; [exact U1|exact G6|by apply U2].
Qed.

Lemma groups_flush_ok mem node t now l p log inn sh cur dr c gs : push_world_ok (mk_world p log inn sh cur dr) c -> p_g p !! t = Some gs -> Forall (fun i => (i < Z.to_nat (p_npeers p))%nat) l ->
  exists p' ds c', flush_loop mem node t now l p = Ret (p', ds) /\ push_world_ok (mk_world p' (log ++ ((fun x => (t, Z.of_nat x.1, x.2)) <$> ds)) inn sh cur dr) c'.
Proof.
  revert p log c gs. induction l as [|i l IH]; intros p log c gs W Hgs Hl; [exists p, [], c; cbn; by rewrite app_nil_r|]. apply Forall_cons in Hl as [Hi Hl]. cbn [flush_loop]. rewrite Hgs. change (default [] (Some gs)) with gs. assert (default wg0 (gs !! i) = wgroup_at p t (Z.of_nat i)) as -> by (unfold wgroup_at; by rewrite Hgs, Nat2Z.id).
  destruct (wk_group _ _ W t (Z.of_nat i) ltac:(lia)) as [ns Hg]. cbn [w_p] in Hg. rewrite (wo_count _ _ _ Hg). destruct (negb _ && _) eqn:E; [|by apply (IH p log c gs)]. apply andb_true_iff in E as [E _]. apply negb_true_iff, Z.eqb_neq in E. assert (c t (Z.of_nat i) <> []) as Hne by (intros E'; by rewrite E' in E).
  destruct (send_ok (t, Z.of_nat i) mem node now p _ _ ns log (wk_plane _ _ W) Hg Hne) as (p1 & g1 & d & -> & S1 & S2 & S3 & S4 & S5 & S6 & S7 & S8 & S9). cbn [obind]. assert (i < length gs)%nat as Hlen by (rewrite (wk_len _ _ W t gs Hgs); exact Hi).
  assert (push_world_ok (mk_world (set_g (<[t := <[Z.to_nat (Z.of_nat i) := g1]> gs]> (p_g p1)) p1) (log ++ (pair (t, Z.of_nat i) <$> [d])) (inn ++ []) sh cur dr) (wg_upd c t (Z.of_nat i) [])) as W'.
  { apply (one_group p log inn sh cur dr c t (Z.of_nat i) gs p1 g1 [d] [] [] [c t (Z.of_nat i)] 0); try done; [lia|by rewrite Nat2Z.id|apply Forall2_cons_2; [exact S1|apply Forall2_nil_2]| |unfold zlen; destruct (c t (Z.of_nat i)); cbn; lia|].
    - intros n Hn. rewrite S9, Hn, s32_add. f_equal. destruct (c t (Z.of_nat i)); [done|]. cbn. lia.
    - intros _ to _ [|Hto]; [done|]. split_and!; [by left|apply Forall_singleton; congruence|cbn; by rewrite !app_nil_r]. }
  rewrite app_nil_r, Nat2Z.id in W'. assert (p_g (set_g (<[t := <[i := g1]> gs]> (p_g p1)) p1) !! t = Some (<[i := g1]> gs)) as Hgs1 by (cbn [p_g set_g]; by rewrite lookup_insert_eq). destruct (IH _ _ _ _ W' Hgs1) as (p' & ds & c' & -> & W2); [cbn [p_npeers set_g]; destruct S8 as (-> & _); exact Hl|].
  cbn [obind]. eexists _, _, c'. split; [reflexivity|]. cbn [fst snd fmap list_fmap app]. rewrite <- app_assoc in W2. exact W2.
Qed.

(** Only the table of acknowledgements changes. *)
Lemma acks_only p log inn sh cur dr c p' : push_world_ok (mk_world p log inn sh cur dr) c -> p_g p' = p_g p -> p_open p' = p_open p -> same_conf p p' -> plane_ok p' log -> push_world_ok (mk_world p' log inn sh cur dr) c.
Proof.
  intros [W1 W2 W3 W4 W5 W6 W7] Eg Eo (C1 & _) Hp. cbn [w_p w_log w_in w_short w_cur w_drops] in *. assert (forall t i, wgroup_at p' t i = wgroup_at p t i) as Hat by (intros t i; unfold wgroup_at; by rewrite Eg). split; cbn [w_p w_log w_in w_short w_cur w_drops]; try done.
  - rewrite Eg, C1. exact W2.
  - intros t i Hi. rewrite Hat. by apply W3.
  - by rewrite Eo.
  - intros Hs t i to Hi Ho. rewrite Hat. by apply W5.
Qed.

Lemma slot_plane req a p log : plane_ok p log -> ack_slot_ok log a -> plane_ok (put_slot req a p) log /\ p_g (put_slot req a p) = p_g p /\ p_open (put_slot req a p) = p_open p /\ same_conf p (put_slot req a p).
Proof.
  intros [H1 H2 H3 H4 H5 H6] Ha. unfold put_slot. destruct (p_acks p) as [t|] eqn:Et; [|split_and!; try done; split; try done; by rewrite Et]. split_and!; try done. split; try done. cbn. intros m k b [= <-] Hk. apply lookup_insert_Some in Hk as [[_ <-]|[_ Hk]]; [done|by apply (H5 t k)].
Qed.

Lemma done_plane req p log : plane_ok p log -> plane_ok (clpush_ack_done p req) log /\ p_g (clpush_ack_done p req) = p_g p /\ p_open (clpush_ack_done p req) = p_open p /\ same_conf p (clpush_ack_done p req).
Proof. intros Hp. unfold clpush_ack_done. destruct (p_acks p); [|done]. apply slot_plane; [done|by left]. Qed.

Lemma expire_plane now ms p log : plane_ok p log -> plane_ok (clpush_ack_expire p now ms).1 log /\ p_g (clpush_ack_expire p now ms).1 = p_g p /\ p_open (clpush_ack_expire p now ms).1 = p_open p /\ same_conf p (clpush_ack_expire p now ms).1.
Proof.
  intros Hp. unfold clpush_ack_expire. generalize (seq 0 (Z.to_nat CLPUSH_ACKS)) as l. assert (forall l q n, plane_ok q log /\ p_g q = p_g p /\ p_open q = p_open p /\ same_conf p q -> let r := (foldl (expire_one now ms) (q, n) l).1 in plane_ok r log /\ p_g r = p_g p /\ p_open r = p_open p /\ same_conf p r) as H; [|intros l; by apply (H l p 0)].
  induction l as [|i l IH]; intros q n Hq; [done|]. cbn [foldl]. destruct (expire_one now ms (q, n) i) as [q' n'] eqn:E. apply IH. revert E. unfold expire_one. destruct (p_acks q) as [t|]; [|by intros [= <- <-]]. destruct (_ || _); [by intros [= <- <-]|]. intros [= <- _].
  destruct Hq as (Q1 & Q2 & Q3 & Q4). destruct (done_plane (Z.of_nat i) q log Q1) as (D1 & D2 & D3 & D4). split_and!; [done|congruence|congruence|by eapply same_conf_trans].
Qed.

Lemma ack_take_ok p log req from p' a : plane_ok p log -> clpush_ack_take p req from = (p', Some a) ->
  (plane_ok p' log /\ p_g p' = p_g p /\ p_open p' = p_open p /\ same_conf p p') /\ pa_state a = 2 /\ pa_req a = req /\ req <> 0 /\ pa_to a = Some from /\ ack_slot_ok log a.
Proof.
  intros Hp. unfold clpush_ack_take. destruct (p_acks p) as [t|] eqn:Et; [|done]. destruct (Z.eqb_spec (Z.land req CLPUSH_ACK_TAG) 0) as [|Htag]; [done|]. destruct (Z.eqb_spec (pa_state (ack_slot t req)) 2) as [Hs|]; [|done]. cbn [negb]. destruct (negb _ || negb _) eqn:E; [done|]. apply orb_false_iff in E as [E1 E2]. apply negb_false_iff in E1, E2. apply Z.eqb_eq in E1. apply bool_decide_eq_true in E2. intros [= <- <-].
  assert (ack_slot_ok log (ack_slot t req)) as Ho. { unfold ack_slot in *. destruct (t !! Z.land req (CLPUSH_ACKS - 1)) as [b|] eqn:Eb; [by apply (po_acks _ _ Hp t _ b Et Eb)|by left]. }
  split; [apply slot_plane; [done|]; destruct Ho as [Ho|Ho]; [by rewrite Hs in Ho|right; exact Ho]|]. split_and!; try done. intros ->. by rewrite Z.land_0_l in Htag.
Qed.

Lemma drop_notes log a stored : ack_slot_ok log a -> pa_state a = 2 -> exists l, spread_ack_drop a stored = Ret l /\
  forall n, n ∈ l -> exists y d rs r, (y, d) ∈ log /\ carries d rs /\ d_req d = pa_req a /\ d_to d = pa_to a /\ stored = zlen rs /\ r ∈ rs /\ n = note_of r.
Proof.
  intros [H|(y & d & rs & ns & H1 & H2 & H3 & H4 & H5 & H6 & H7)] Hs; [by rewrite H in Hs|]. unfold spread_ack_drop. destruct (Z.eqb_spec stored (pa_count a)) as [->|Hcne]; [|exists []; split; [done|by intros n ?%not_elem_of_nil]]. cbn [negb]. rewrite H6.
  rewrite drop_loop_notes.
  - eexists. split; [reflexivity|]. intros n [_ Hn]%list_elem_of_filter. rewrite Forall_forall in H7. destruct (H7 n Hn) as (r & Hr & ->). by exists y, d, rs, r.
  - destruct H2 as (node & _ & _ & Hwf & _). cbn [gr_recs] in Hwf. rewrite Forall_forall in H7. rewrite Forall_forall in Hwf. apply Forall_forall. intros n Hn. destruct (H7 n Hn) as (r & Hr & ->). destruct (Hwf r Hr). done.
  - assert (zlen (note_frames ns) <= zlen (pa_nh a)) as Hz by (rewrite <- H6, zlen_ztake; lia). assert (11 * zlen ns <= zlen (note_frames ns)) as Hn; [|unfold zlen in *; lia]. clear. induction ns as [|n ns IH]; [done|]. unfold note_frames in *. cbn [fmap list_fmap concat]. rewrite zlen_app, zlen_cons, note_len. pose proof (zlen_nonneg (no_col n)). pose proof (zlen_nonneg (no_key n)). lia.
Qed.

Lemma pstep_ok w w' c : push_world_ok w c -> push_step w w' -> exists c', push_world_ok w' c'.
Proof.
  intros W Hs. destruct Hs as [m node t i now to r p p' ds log inn sh cur dr Hr Hf E|m node t i now to r p p' ds log inn sh cur dr Hr Hf E|mem node t now p p' ds log inn sh cur dr Ht E|req from stored p p' a log inn sh dr E|req from stored p a l log inn sh dr E|now ms p log inn sh dr].
  - destruct (record_push_ok m node t i now to r false p log inn sh cur dr c W Hr Hf) as (p1 & ds1 & c' & E' & W'). unfold clpush_append in E. rewrite rec_write_frame in E. rewrite E' in E. injection E as <- <-. by exists c'.
  - destruct (record_push_ok m node t i now to r true p log inn sh cur dr c W Hr Hf) as (p1 & ds1 & c' & E' & W'). unfold clpush_append_nh in E. destruct Hf as [[F1 F2 F3 F4 F5 F6] _]. cbn [no_col no_key note_of] in E. rewrite !(proj2 (Z.ltb_ge _ _)) in E by lia. cbn [orb] in E. rewrite rec_write_frame in E. rewrite E' in E. injection E as <- <-. by exists c'.
  - unfold clpush_flush_mine in E. rewrite (proj2 (orb_false_iff _ _)) in E by lia. destruct (p_g p !! t) as [gs|] eqn:Hgs; [|injection E as <- <-; exists c; cbn; by rewrite app_nil_r]. destruct (groups_flush_ok mem node t now (seq 0 (Z.to_nat (p_npeers p))) p log inn sh cur dr c gs W Hgs) as (p1 & ds1 & c' & E' & W'); [apply Forall_forall; intros i Hi; apply elem_of_seq in Hi; lia|]. rewrite E' in E. injection E as <- <-. by exists c'.
  - destruct (ack_take_ok p log req from p' a (wk_plane _ _ W) E) as ((T1 & T2 & T3 & T4) & T5). exists c. pose proof (acks_only _ _ _ _ _ _ _ _ W T2 T3 T4 T1) as W'. destruct W'. split; try done. intros req' from' a' stored' [= <- <- <- <-]. exact T5.
  - exists c. destruct (wk_cur _ _ W _ _ _ _ eq_refl) as (K1 & K2 & K3 & K4 & K5). destruct (drop_notes _ a stored K5 K1) as (l' & E' & Hl'). rewrite E' in E. injection E as <-. destruct (done_plane req p log (wk_plane _ _ W)) as (D1 & D2 & D3 & D4). pose proof (acks_only _ _ _ _ _ _ _ _ W D2 D3 D4 D1) as W'. destruct W' as [X1 X2 X3 X4 X5 X6 X7]. split; try done. cbn [w_drops w_log] in *. apply Forall_app. split; [done|]. apply Forall_forall. intros x (n & -> & Hn)%list_elem_of_fmap. destruct (Hl' n Hn) as (y & d & rs & r & N1 & N2 & N3 & N4 & N5 & N6 & N7). exists y, d, rs, r. cbn. split_and!; try done; congruence.
  - exists c. destruct (expire_plane now ms p log (wk_plane _ _ W)) as (D1 & D2 & D3 & D4). by apply (acks_only p).
Qed.

Lemma world0_ok npeers fb fms : 0 <= npeers -> 0 <= fb -> push_world_ok (world0 npeers fb fms) (fun _ _ => []).
Proof.
  intros H1 H2. split; try done.
  - split; try done. exists 0. split; try done. intros _ x d Hin. by apply not_elem_of_nil in Hin.
  - intros t i Hi. exists []. exact wg0_ok.
  - exists ∅, 0. split_and!; try done. intros t i. split; [set_solver|naive_solver].
  - intros _ t i to Hi _. split; [by left|]. by exists [].
Qed.

Lemma push_run_ok npeers fb fms w : 0 <= npeers -> 0 <= fb -> rtc push_step (world0 npeers fb fms) w -> exists c, push_world_ok w c.
Proof.
  intros H1 H2 Hr. assert (forall v u, rtc push_step v u -> (exists c, push_world_ok v c) -> exists c, push_world_ok u c) as H; [|apply (H _ _ Hr); eexists; by apply world0_ok].
  induction 1 as [v|v u x Hs _ IH]; [done|]. intros [c W]. apply IH. by eapply pstep_ok.
Qed.

Lemma carries_handled d rs : carries d rs -> handle_many (d_bytes d) = Ret (d_req d, rs).
Proof. intros (node & -> & Hwf). by apply handle_group. Qed.

(** C13. A copy this node took as a non-holder goes only when the peer that was sent it said
    so: for each copy let go there is a datagram of the log that went to the peer the
    acknowledgement came from, under the acknowledged number, its receiver parses it into
    records of which the copy's key and version is one, and the acknowledgement counted all
    of them; before the numbers come round, it is the only datagram with that number. *)
Theorem push_drops_only_acked npeers fb fms w n req from stored : 0 <= npeers -> 0 <= fb -> rtc push_step (world0 npeers fb fms) w -> (n, req, from, stored) ∈ w_drops w ->
  exists y d rs r, (y, d) ∈ w_log w /\ handle_many (d_bytes d) = Ret (req, rs) /\ d_to d = Some from /\ stored = zlen rs /\ r ∈ rs /\ n = note_of r /\
    (zlen (w_log w) < 2 ^ 31 -> forall y' d', (y', d') ∈ w_log w -> d_req d' = req -> d' = d).
Proof.
  intros H1 H2 Hr Hin. destruct (push_run_ok _ _ _ _ H1 H2 Hr) as [c W]. pose proof (wk_drops _ _ W) as Hd. rewrite Forall_forall in Hd. destruct (Hd _ Hin) as (y & d & rs & r & D1 & D2 & D3 & D4 & D5 & D6 & D7 & D8). cbn [fst snd] in *. exists y, d, rs, r. split_and!; try done; [by rewrite (carries_handled d rs D2), D3|].
  intros Hl y' d' Hin' Hreq. destruct (po_reqs _ _ (wk_plane _ _ W)) as [k [_ Hk _ Honce]]. apply list_elem_of_lookup in D1 as [i Hi]. apply list_elem_of_lookup in Hin' as [j Hj]. assert (i = j) as <- by (eapply (Honce ltac:(lia)); [exact Hi|exact Hj|done|congruence]). congruence.
Qed.


(** No call of the plane writes or reads outside a block, whichever allocations fail:
    in every state it comes to, an append, a flush and the reading of a taken slot's keys
    return. *)
Theorem push_memory_safe npeers fb fms w : 0 <= npeers -> 0 <= fb -> rtc push_step (world0 npeers fb fms) w ->
  (forall m node t i now to r, in_range (w_p w) t i -> rec_fits r -> exists x y, clpush_append m node t i now to (clmig_rec_write r) (w_p w) = Ret x /\ clpush_append_nh m node t i now to (clmig_rec_write r) (note_of r) (w_p w) = Ret y) /\
  (forall mem node t now, exists x, clpush_flush_mine mem node t now (w_p w) = Ret x) /\ forall req from a stored, w_cur w = Some (req, from, a, stored) -> exists l, spread_ack_drop a stored = Ret l.
Proof.
  intros H1 H2 Hr. destruct (push_run_ok _ _ _ _ H1 H2 Hr) as [c W]. destruct w as [p log inn sh cur dr]. cbn [w_p w_cur]. split_and!.
  - intros m node t i now to r Hin Hf. destruct (record_push_ok m node t i now to r false p log inn sh cur dr c W Hin Hf) as (p1 & d1 & _ & E1 & _). destruct (record_push_ok m node t i now to r true p log inn sh cur dr c W Hin Hf) as (p2 & d2 & _ & E2 & _). exists (p1, d1), (p2, d2). unfold clpush_append, clpush_append_nh. rewrite rec_write_frame. split; [exact E1|].
    destruct Hf as [[F1 F2 F3 F4 F5 F6] _]. cbn [no_col no_key note_of]. rewrite !(proj2 (Z.ltb_ge _ _)) by lia. exact E2.
  - intros mem node t now. unfold clpush_flush_mine. destruct (_ || _); [by eexists|]. destruct (p_g p !! t) as [gs|] eqn:Hgs; [|by eexists]. destruct (groups_flush_ok mem node t now (seq 0 (Z.to_nat (p_npeers p))) p log inn sh cur dr c gs W Hgs) as (p1 & ds1 & c' & E' & _); [apply Forall_forall; intros i Hi; apply elem_of_seq in Hi; lia|]. by exists (p1, ds1).
  - intros req from a stored Hc. destruct (wk_cur _ _ W _ _ _ _ Hc) as (K1 & _ & _ & _ & K5). destruct (drop_notes _ a stored K5 K1) as (l & E & _). by exists l.
Qed.

(** The count of open groups the cluster's timer reads is positive while any group has a
    record, so no record waits behind a timer that was not set. *)
Theorem push_open_seen npeers fb fms w t i : 0 <= npeers -> 0 <= fb -> rtc push_step (world0 npeers fb fms) w -> zlen (w_in w) < 2 ^ 31 -> 0 <= i -> wg_qcount (wgroup_at (w_p w) t i) <> 0 -> 0 < clpush_open (w_p w).
Proof.
  intros H1 H2 Hr Hl Hi Hc. destruct (push_run_ok _ _ _ _ H1 H2 Hr) as [c W]. destruct (wk_group _ _ W t i Hi) as [ns Hg]. rewrite (wo_count _ _ _ Hg) in Hc. destruct (wk_open _ _ W) as (s & k & S1 & S2 & S3 & S4 & _). assert ((t, i) ∈ s) as Hin by (apply S1; split; [done|]; intros E; by rewrite E in Hc). assert (size s <> 0%nat) by (intros E; apply size_empty_inv in E; set_solver).
  unfold clpush_open. rewrite S3. unfold s32. rewrite Z.mod_small by lia. lia.
Qed.

End Ok.

(** * A run *)

Definition x_rec : clmig_rec := mk_mrec 5 [99] [107; 49] [1; 2; 3] 77 0.
Definition x_amem : amem := mk_amem true true true true true.

Lemma x_fits : rec_fits x_rec.
Proof. split; [split|]; vm_compute; (discriminate || (split; [discriminate|reflexivity])). Qed.

(** One record noted, flushed, acknowledged. *)
Lemma x_run : exists w : @push_world Z, rtc push_step (world0 2 100 3) w /\ w_short w = false /\ one_peer 0 0 7 (w_in w) /\ zlen (w_in w) = 2 /\ w_drops w = [(note_of x_rec, CLPUSH_ACK_TAG + 1, 7, 1)] /\ zlen (w_log w) = 1 /\ wg_qcount (wgroup_at (w_p w) 0 0) = 1.
Proof.
  assert (forall a : Z, 0 <= 0 < PC_TIDX_MAX) as Ht by (intros _; vm_compute; split; [discriminate|reflexivity]).
  eexists. split.
  - eapply rtc_l; [eapply (ps_push_nh x_amem 1 0 0 0 7 x_rec); [split; [apply (Ht 0)|vm_compute; split; [discriminate|reflexivity]]|exact x_fits|vm_compute; reflexivity]|].
    eapply rtc_l; [eapply (ps_flush true 1 0 10); [apply (Ht 0)|vm_compute; reflexivity]|].
    eapply rtc_l; [eapply (ps_take (CLPUSH_ACK_TAG + 1) 7 1); vm_compute; reflexivity|].
    eapply rtc_l; [eapply ps_done; vm_compute; reflexivity|].
    eapply rtc_l; [eapply (ps_push x_amem 1 0 0 20 7 x_rec); [split; [apply (Ht 0)|vm_compute; split; [discriminate|reflexivity]]|exact x_fits|vm_compute; reflexivity]|]. apply rtc_refl.
  - split_and!; try (vm_compute; reflexivity). intros a r Hin. vm_compute in Hin. repeat (apply elem_of_cons in Hin as [[= -> _]|Hin]; [done|]). by apply not_elem_of_nil in Hin.
Qed.

Lemma push_drops_only_acked_witness : exists (w : @push_world Z) y d rs r, (y, d) ∈ w_log w /\ handle_many (d_bytes d) = Ret (CLPUSH_ACK_TAG + 1, rs) /\ d_to d = Some 7 /\ 1 = zlen rs /\ r ∈ rs /\ note_of x_rec = note_of r.
Proof.
  destruct x_run as (w & Hr & _ & _ & _ & Hd & _). exists w. destruct (push_drops_only_acked 2 100 3 w (note_of x_rec) (CLPUSH_ACK_TAG + 1) 7 1 ltac:(lia) ltac:(lia) Hr) as (y & d & rs & r & H1 & H2 & H3 & H4 & H5 & H6 & _); [rewrite Hd; apply list_elem_of_here|]. exists y, d, rs, r. split_and!; assumption.
Defined.


Lemma push_memory_safe_witness : exists (w : @push_world Z) x, clpush_flush_mine true 1 0 0 (w_p w) = Ret x.
Proof. destruct x_run as (w & Hr & _). exists w. exact (proj1 (proj2 (push_memory_safe 2 100 3 w ltac:(lia) ltac:(lia) Hr)) true 1 0 0). Defined.

Lemma push_open_seen_witness : exists w : @push_world Z, wg_qcount (wgroup_at (w_p w) 0 0) = 1 /\ 0 < clpush_open (w_p w).
Proof.
  destruct x_run as (w & Hr & _ & _ & Hi & _ & _ & Hq). exists w. split; [exact Hq|]. apply (push_open_seen 2 100 3 w 0 0 ltac:(lia) ltac:(lia) Hr); [rewrite Hi; lia|lia|rewrite Hq; lia].
Defined.

(** A growth that fails after the group was counted open leaves the count up with no record
    anywhere, and the next record counts it again. *)
Definition x_big : clmig_rec := mk_mrec 5 [99] [107; 49] (replicate 400 1) 77 0.

Lemma push_open_leaks :
  let p := clpush_init 2 CLMIG_GHDR MIG_GATHER_CAP 100 3 in
  let r1 := match clpush_append x_amem 1 0 0 0 (7 : Z) (clmig_rec_write x_rec) p with Ret x => x.1 | _ => p end in
  let r2 := match clpush_flush_mine true 1 0 10 r1 with Ret x => x.1 | _ => p end in
  let r3 := match clpush_append (mk_amem true true false true true) 1 0 0 20 (7 : Z) (clmig_rec_write x_big) r2 with Ret x => x.1 | _ => p end in
  clpush_open r2 = 0 /\ clpush_open r3 = 1 /\ wg_qcount (wgroup_at r3 0 0) = 0 /\ wg_qcount (wgroup_at r3 0 1) = 0.
Proof. vm_compute. split_and!; reflexivity. Qed.
