(* ===== verification/Clloc.v ===== *)
(** The locator and the negative cache ([clloc.c], [clloc.h]), with the calls of cluster.c
    that pair the negative cache with the retained tombstones.

    A delete plants a negative entry with its version, a write clears it; a copy of the
    record that arrives late is refused by the version.  Both tables are arrays in sets of
    four ways, over one key hash.  The arrays are finite maps whose absent indices hold the
    zero entry; [neg_in] and [loc_in] are their bounds.

    Two levels.  The calls one after the other ([lstep]), where a call is a function of the
    tables.  And the word-by-word steps of the entry's sequence lock ([seq_step]): an entry of
    the negative cache is written under a sequence number that is odd meanwhile, and read
    between two looks at it, by any threads at once. *)

From Stdlib Require Import ZArith Lia.
From stdpp Require Import base tactics list numbers gmap relations.
From S2P Require Import Prelude Clterm Clretain.
#[local] Open Scope Z_scope.

Definition NEG_SLOTS : Z := 65536.
Definition NEG_WAYS : Z := 4.
Definition LOC_SLOTS : Z := 262144.
Definition LOC_WAYS : Z := 4.

Record neg_ent := mk_neg { ne_h : Z; ne_exp : Z; ne_ver : Z; ne_seq : Z }.
Record loc_ent := mk_loc { lo_h : Z; lo_node : Z }.

Record clloc := mk_lc {
  lc_neg : gmap Z neg_ent; lc_loc : gmap Z loc_ent;
  lc_neg_hits : Z; lc_loc_hits : Z; lc_loc_clears : Z; lc_loc_forgets : Z; lc_neg_displaced : Z; lc_tomb_displaced : Z;
  lc_neg_until_ms : Z
}.

Definition neg0 : neg_ent := mk_neg 0 0 0 0.
Definition loc0 : loc_ent := mk_loc 0 0.
Definition clloc0 : clloc := mk_lc ∅ ∅ 0 0 0 0 0 0 0.

Definition neg_at (l : clloc) (i : Z) : neg_ent := default neg0 (lc_neg l !! i).
Definition loc_at (l : clloc) (i : Z) : loc_ent := default loc0 (lc_loc l !! i).

Definition set_neg (i : Z) (e : neg_ent) (l : clloc) : clloc :=
  mk_lc (<[i := e]> (lc_neg l)) (lc_loc l) (lc_neg_hits l) (lc_loc_hits l) (lc_loc_clears l) (lc_loc_forgets l) (lc_neg_displaced l) (lc_tomb_displaced l) (lc_neg_until_ms l).
Definition set_loc (i : Z) (e : loc_ent) (l : clloc) : clloc :=
  mk_lc (lc_neg l) (<[i := e]> (lc_loc l)) (lc_neg_hits l) (lc_loc_hits l) (lc_loc_clears l) (lc_loc_forgets l) (lc_neg_displaced l) (lc_tomb_displaced l) (lc_neg_until_ms l).
Definition count_neg_hit (l : clloc) : clloc :=
  mk_lc (lc_neg l) (lc_loc l) (u64 (lc_neg_hits l + 1)) (lc_loc_hits l) (lc_loc_clears l) (lc_loc_forgets l) (lc_neg_displaced l) (lc_tomb_displaced l) (lc_neg_until_ms l).
Definition count_loc_hit (l : clloc) : clloc :=
  mk_lc (lc_neg l) (lc_loc l) (lc_neg_hits l) (u64 (lc_loc_hits l + 1)) (lc_loc_clears l) (lc_loc_forgets l) (lc_neg_displaced l) (lc_tomb_displaced l) (lc_neg_until_ms l).
Definition count_loc_clear (l : clloc) : clloc :=
  mk_lc (lc_neg l) (lc_loc l) (lc_neg_hits l) (lc_loc_hits l) (u64 (lc_loc_clears l + 1)) (lc_loc_forgets l) (lc_neg_displaced l) (lc_tomb_displaced l) (lc_neg_until_ms l).
Definition count_forgets (n : Z) (l : clloc) : clloc :=
  mk_lc (lc_neg l) (lc_loc l) (lc_neg_hits l) (lc_loc_hits l) (lc_loc_clears l) (u64 (lc_loc_forgets l + n)) (lc_neg_displaced l) (lc_tomb_displaced l) (lc_neg_until_ms l).
Definition count_displaced (ver : Z) (l : clloc) : clloc :=
  mk_lc (lc_neg l) (lc_loc l) (lc_neg_hits l) (lc_loc_hits l) (lc_loc_clears l) (lc_loc_forgets l) (u64 (lc_neg_displaced l + 1))
    (if ver =? 0 then lc_tomb_displaced l else u64 (lc_tomb_displaced l + 1)) (lc_neg_until_ms l).

(** The separator keeps [("ab", "c")] apart from [("a", "bc")]; 0 is the free entry's. *)
Definition clloc_hash (col key : bytes) : Z :=
  let h := fnv1a64_more (fnv1a64_byte (fnv1a64 col) 0x2f) key in if h =? 0 then 1 else h.

Definition neg_base (h : Z) : Z := (h mod (NEG_SLOTS / NEG_WAYS)) * NEG_WAYS.
Definition loc_base (h : Z) : Z := (h mod (LOC_SLOTS / LOC_WAYS)) * LOC_WAYS.

(** The first way a test accepts. *)
Fixpoint first_way (p : Z -> bool) (ws : list Z) : option Z :=
  match ws with [] => None | w :: ws => if p w then Some w else first_way p ws end.

(** * The negative cache *)

Definition neg_wlock (i : Z) (l : clloc) : clloc := let e := neg_at l i in set_neg i (mk_neg (ne_h e) (ne_exp e) (ne_ver e) (u32 (ne_seq e + 1))) l.
Definition neg_wunlock (i : Z) (l : clloc) : clloc := let e := neg_at l i in set_neg i (mk_neg (ne_h e) (ne_exp e) (ne_ver e) (u32 (ne_seq e + 1))) l.
Definition neg_put (i h exp ver : Z) (l : clloc) : clloc := set_neg i (mk_neg h exp ver (ne_seq (neg_at l i))) l.

Definition neg_read (l : clloc) (i : Z) : option (Z * Z * Z) :=
  let e := neg_at l i in if Z.odd (ne_seq e) then None else Some (ne_h e, ne_exp e, ne_ver e).

Definition neg_find (l : clloc) (b h now : Z) : option (Z * Z) :=
  w ← first_way (fun w => match neg_read l (b + w) with Some (eh, ex, _) => (eh =? h) && (now <? ex) | None => false end) [0; 1; 2; 3];
  Some (w, ne_ver (neg_at l (b + w))).

Definition neg_slot_for (l : clloc) (b h now : Z) : clloc * Z :=
  match first_way (fun w => ne_h (neg_at l (b + w)) =? h) [0; 1; 2; 3] with
  | Some w => (l, b + w)
  | None =>
      match first_way (fun w => (ne_h (neg_at l (b + w)) =? 0) || (ne_exp (neg_at l (b + w)) <=? now)) [0; 1; 2; 3] with
      | Some w => (l, b + w)
      | None =>
          let old := foldl (fun old w => if ne_exp (neg_at l (b + w)) <? ne_exp (neg_at l old) then b + w else old) b [1; 2; 3] in
          (count_displaced (ne_ver (neg_at l old)) l, old)
      end
  end.

Definition clloc_neg_hit (l : clloc) (col key : bytes) (now : Z) : clloc * bool :=
  let h := clloc_hash col key in
  match neg_find l (neg_base h) h now with Some _ => (count_neg_hit l, true) | None => (l, false) end.

Definition neg_until (until : Z) (l : clloc) : clloc :=
  mk_lc (lc_neg l) (lc_loc l) (lc_neg_hits l) (lc_loc_hits l) (lc_loc_clears l) (lc_loc_forgets l) (lc_neg_displaced l) (lc_tomb_displaced l)
    (if lc_neg_until_ms l <? until then until else lc_neg_until_ms l).

Definition clloc_neg_set (l : clloc) (col key : bytes) (now ms : Z) : clloc :=
  let h := clloc_hash col key in
  let '(l, i) := neg_slot_for l (neg_base h) h now in
  neg_until (now + ms) (neg_wunlock i (neg_put i h (now + ms) 0 (neg_wlock i l))).

(** The second half of a versioned plant: under the entry's lock, a later version stays. *)
Definition plant_ver (i h now ms ver : Z) (l : clloc) : clloc :=
  let l := neg_wlock i l in
  let e := neg_at l i in
  let ver := if (ne_h e =? h) && (now <? ne_exp e) && (ver <? ne_ver e) then ne_ver e else ver in
  neg_until (now + ms) (neg_wunlock i (neg_put i h (now + ms) ver l)).

Definition clloc_neg_set_ver (l : clloc) (col key : bytes) (now ms ver : Z) : clloc :=
  let h := clloc_hash col key in
  let '(l, i) := neg_slot_for l (neg_base h) h now in
  plant_ver i h now ms ver l.

Definition clloc_neg_ver (l : clloc) (col key : bytes) (now : Z) : bool * Z :=
  let h := clloc_hash col key in
  match neg_find l (neg_base h) h now with Some (_, v) => (true, v) | None => (false, 0) end.

Definition clear_way (h b : Z) (l : clloc) (w : Z) : clloc :=
  if ne_h (neg_at l (b + w)) =? h then
    let l := neg_wlock (b + w) l in
    let e := neg_at l (b + w) in
    neg_wunlock (b + w) (if ne_h e =? h then set_neg (b + w) (mk_neg 0 (ne_exp e) (ne_ver e) (ne_seq e)) l else l)
  else l.

Definition clloc_neg_clear (l : clloc) (col key : bytes) : clloc :=
  let h := clloc_hash col key in foldl (clear_way h (neg_base h)) l [0; 1; 2; 3].

(** * The locator *)

Definition clloc_get (l : clloc) (col key : bytes) : clloc * Z :=
  let h := clloc_hash col key in
  let b := loc_base h in
  match first_way (fun w => (lo_h (loc_at l (b + w)) =? h) && negb (lo_node (loc_at l (b + w)) =? 0)) [0; 1; 2; 3] with
  | Some w => (count_loc_hit l, lo_node (loc_at l (b + w)))
  | None => (l, 0)
  end.

Definition clloc_set (l : clloc) (col key : bytes) (node : Z) : clloc :=
  let h := clloc_hash col key in
  let b := loc_base h in
  match first_way (fun w => lo_h (loc_at l (b + w)) =? h) [0; 1; 2; 3] with
  | Some w => set_loc (b + w) (mk_loc (lo_h (loc_at l (b + w))) (u16 node)) l
  | None =>
      match first_way (fun w => lo_node (loc_at l (b + w)) =? 0) [0; 1; 2; 3] with
      | Some w => set_loc (b + w) (mk_loc h (u16 node)) l
      | None => set_loc (b + Z.land (Z.shiftr h 32) (LOC_WAYS - 1)) (mk_loc h (u16 node)) l
      end
  end.

Definition clloc_clear (l : clloc) (col key : bytes) : clloc :=
  let h := clloc_hash col key in
  let b := loc_base h in
  match first_way (fun w => lo_h (loc_at l (b + w)) =? h) [0; 1; 2; 3] with
  | Some w => count_loc_clear (set_loc (b + w) (mk_loc (lo_h (loc_at l (b + w))) 0) l)
  | None => l
  end.

Definition forget_ent (e : loc_ent) : loc_ent := mk_loc (lo_h e) 0.
Definition clloc_forget_holders (l : clloc) : clloc * Z :=
  let n := Z.of_nat (size (filter (fun x => lo_node x.2 <> 0) (lc_loc l))) in
  (count_forgets n (mk_lc (lc_neg l) (forget_ent <$> lc_loc l) (lc_neg_hits l) (lc_loc_hits l) (lc_loc_clears l) (lc_loc_forgets l) (lc_neg_displaced l) (lc_tomb_displaced l) (lc_neg_until_ms l)), n).

(** * With the retained tombstones (cluster.c) *)

Record marks := mk_marks { mk_lc_ : clloc; mk_rt : retain }.

Definition pc_neg_hit (m : marks) (col key : bytes) (now : Z) : marks * bool :=
  let '(l, b) := clloc_neg_hit (mk_lc_ m) col key now in (mk_marks l (mk_rt m), b).
Definition pc_neg_set (m : marks) (col key : bytes) (now ms : Z) : marks := mk_marks (clloc_neg_set (mk_lc_ m) col key now ms) (mk_rt m).

(** The write path's clear, skipped past the latest expiry by the coarse clock. *)
Definition pc_neg_clear (m : marks) (col key : bytes) (coarse : Z) : marks :=
  if lc_neg_until_ms (mk_lc_ m) + 20 <? coarse then m else mk_marks (clloc_neg_clear (mk_lc_ m) col key) (mk_rt m).

Definition pc_neg_set_ver (smem emem : bool) (m : marks) (col key : bytes) (now ms ver : Z) : marks :=
  mk_marks (clloc_neg_set_ver (mk_lc_ m) col key now ms ver) (clretain_note smem emem (mk_rt m) (col, key) ver (u32 (now / 1000))).
Definition neg_set_ver_num (smem emem : bool) (m : marks) (col key : bytes) (now ms ver oid incarn seq : Z) : marks :=
  mk_marks (clloc_neg_set_ver (mk_lc_ m) col key now ms ver) (clretain_note_n smem emem (mk_rt m) (col, key) ver (u32 (now / 1000)) oid incarn seq).
Definition neg_set_ver_expiry (smem emem : bool) (m : marks) (col key : bytes) (now ms ver : Z) (keep : bool) : marks :=
  mk_marks (clloc_neg_set_ver (mk_lc_ m) col key now ms ver) (clretain_note_expiry smem emem (mk_rt m) (col, key) ver (u32 (now / 1000)) keep).
Definition pc_neg_set_ver_local (smem emem : bool) (m : marks) (col key : bytes) (now ms ver : Z) : marks :=
  mk_marks (clloc_neg_set_ver (mk_lc_ m) col key now ms ver) (clretain_note_local smem emem (mk_rt m) (col, key) ver (u32 (now / 1000))).

Definition pc_neg_ver (m : marks) (col key : bytes) (now : Z) : bool * Z :=
  let '(r, v) := clloc_neg_ver (mk_lc_ m) col key now in
  let rv := clretain_get (mk_rt m) (col, key) (u32 (now / 1000)) in
  if v <? rv then (true, rv) else (r, v).

Definition pc_loc_get (m : marks) (col key : bytes) : marks * Z := let '(l, n) := clloc_get (mk_lc_ m) col key in (mk_marks l (mk_rt m), n).
Definition pc_loc_set (m : marks) (col key : bytes) (node : Z) : marks := mk_marks (clloc_set (mk_lc_ m) col key node) (mk_rt m).
Definition pc_loc_clear (m : marks) (col key : bytes) : marks := mk_marks (clloc_clear (mk_lc_ m) col key) (mk_rt m).

(** A copy that arrives is refused by a tombstone no older than it ([apply_refuse]). *)
Definition tomb_refuses (m : marks) (col key : bytes) (now ver : Z) : bool :=
  let '(r, tv) := pc_neg_ver m col key now in r && negb (tv =? 0) && (ver <=? tv).
Definition apply_tomb (m : marks) (col key : bytes) (now : Z) : Z := let '(r, tv) := pc_neg_ver m col key now in if r then tv else 0.

(** * Runs of calls *)

Inductive lop :=
  | LHit (col key : bytes) (now : Z)
  | LSet (col key : bytes) (now ms : Z)
  | LSetVer (col key : bytes) (now ms ver : Z)
  | LClear (col key : bytes)
  | LGet (col key : bytes)
  | LLocSet (col key : bytes) (node : Z)
  | LLocClear (col key : bytes)
  | LForget.

Definition lstep (l : clloc) (o : lop) : clloc :=
  match o with
  | LHit col key now => (clloc_neg_hit l col key now).1
  | LSet col key now ms => clloc_neg_set l col key now ms
  | LSetVer col key now ms ver => clloc_neg_set_ver l col key now ms ver
  | LClear col key => clloc_neg_clear l col key
  | LGet col key => (clloc_get l col key).1
  | LLocSet col key node => clloc_set l col key node
  | LLocClear col key => clloc_clear l col key
  | LForget => (clloc_forget_holders l).1
  end.

(** The hash whose live entry a plant of [h] displaces. *)
Definition neg_evicts (l : clloc) (h now : Z) : option Z :=
  let b := neg_base h in
  match first_way (fun w => ne_h (neg_at l (b + w)) =? h) [0; 1; 2; 3], first_way (fun w => (ne_h (neg_at l (b + w)) =? 0) || (ne_exp (neg_at l (b + w)) <=? now)) [0; 1; 2; 3] with
  | None, None => Some (ne_h (neg_at l (neg_slot_for l b h now).2))
  | _, _ => None
  end.

Definition evicted (l : clloc) (o : lop) : list Z :=
  match o with
  | LSet col key now _ | LSetVer col key now _ _ => option_list (neg_evicts l (clloc_hash col key) now)
  | _ => []
  end.

Definition lrun1 (x : clloc * list Z) (o : lop) : clloc * list Z := (lstep x.1 o, x.2 ++ evicted x.1 o).
Definition lrun (ops : list lop) : clloc * list Z := foldl lrun1 (clloc0, []) ops.

(** The clock of the plants does not run backwards. *)
Fixpoint lclocked (last : Z) (ops : list lop) (now : Z) : Prop :=
  match ops with
  | [] => last <= now
  | (LSet _ _ t _ | LSetVer _ _ t _ _) :: ops => last <= t /\ lclocked t ops now
  | _ :: ops => lclocked last ops now
  end.

(** What a negative cache without bounds holds: for each hash, an expiry and a version. *)
Definition plant_max (m : gmap Z (Z * Z)) (h now ver : Z) : Z :=
  match m !! h with Some (e, v) => if (now <? e) && (ver <? v) then v else ver | None => ver end.

Definition ideal_step (m : gmap Z (Z * Z)) (o : lop) : gmap Z (Z * Z) :=
  match o with
  | LSet col key now ms => <[clloc_hash col key := (now + ms, 0)]> m
  | LSetVer col key now ms ver => let h := clloc_hash col key in <[h := (now + ms, plant_max m h now ver)]> m
  | LClear col key => delete (clloc_hash col key) m
  | _ => m
  end.

Definition ideal_ver (m : gmap Z (Z * Z)) (h now : Z) : bool * Z :=
  match m !! h with Some (e, v) => if now <? e then (true, v) else (false, 0) | None => (false, 0) end.

(** * The negative cache keeps its entries *)

Record neg_ok (l : clloc) : Prop := {
  no_seq : forall i, Z.even (ne_seq (neg_at l i)) = true;
  no_home : forall i, ne_h (neg_at l i) <> 0 -> neg_base (ne_h (neg_at l i)) <= i < neg_base (ne_h (neg_at l i)) + 4;
  no_once : forall i j, ne_h (neg_at l i) <> 0 -> ne_h (neg_at l i) = ne_h (neg_at l j) -> i = j;
  no_until : forall i, ne_h (neg_at l i) <> 0 -> ne_exp (neg_at l i) <= lc_neg_until_ms l
}.

Lemma hash_pos col key : clloc_hash col key <> 0.
Proof. unfold clloc_hash. destruct (Z.eqb_spec (fnv1a64_more (fnv1a64_byte (fnv1a64 col) 0x2f) key) 0); lia. Qed.

Lemma neg_in h w : 0 <= w < 4 -> 0 <= neg_base h + w < NEG_SLOTS.
Proof. intros Hw. unfold neg_base, NEG_SLOTS, NEG_WAYS. change (65536 / 4) with 16384. pose proof (Z.mod_pos_bound h 16384 ltac:(lia)). lia. Qed.

Lemma loc_in h w : 0 <= w < 4 -> 0 <= loc_base h + w < LOC_SLOTS.
Proof. intros Hw. unfold loc_base, LOC_SLOTS, LOC_WAYS. change (262144 / 4) with 65536. pose proof (Z.mod_pos_bound h 65536 ltac:(lia)). lia. Qed.

Lemma way_in w : w ∈ [0; 1; 2; 3] <-> 0 <= w < 4.
Proof. rewrite !elem_of_cons. pose proof (not_elem_of_nil w). split; [intros [->|[->|[->|[->|?]]]]; (lia || done)|]. intros. assert (w = 0 \/ w = 1 \/ w = 2 \/ w = 3) as [->|[->|[->| ->]]] by lia; tauto. Qed.

Lemma first_way_spec p ws : match first_way p ws with Some w => w ∈ ws /\ p w = true | None => forall w, w ∈ ws -> p w = false end.
Proof.
  induction ws as [|w ws IH]; cbn [first_way]; [by intros w ?%not_elem_of_nil|]. destruct (p w) eqn:E; [split; [by left|done]|]. destruct (first_way p ws) as [v|]; [destruct IH; split; [by right|done]|].
  intros v [->|Hv]%elem_of_cons; [done|by apply IH].
Qed.

(** Over the four ways of a set. *)
Lemma ways_spec p : match first_way p [0; 1; 2; 3] with Some w => 0 <= w < 4 /\ p w = true | None => forall w, 0 <= w < 4 -> p w = false end.
Proof. pose proof (first_way_spec p [0; 1; 2; 3]) as H. destruct (first_way p _) as [w|]; [by rewrite <- way_in|]. intros w Hw. by apply H, way_in. Qed.

Lemma neg_at_set l i j e : neg_at (set_neg i e l) j = if decide (j = i) then e else neg_at l j.
Proof. unfold neg_at. cbn [set_neg lc_neg]. destruct (decide (j = i)) as [->|Hne]; [by rewrite lookup_insert_eq|by rewrite lookup_insert_ne]. Qed.

Lemma even_u32 s : Z.even (u32 s) = Z.even s.
Proof. unfold u32. rewrite (Z.div_mod s (2 ^ 32)) at 2 by lia. rewrite Z.even_add, Z.even_mul. change (Z.even (2 ^ 32)) with true. cbn [orb]. by destruct (Z.even (s mod 2 ^ 32)). Qed.

Lemma even_two s : Z.even (u32 (u32 (s + 1) + 1)) = Z.even s.
Proof. rewrite even_u32, Z.even_add, even_u32, Z.even_add. by destruct (Z.even s). Qed.

(** A live entry of [h] is found, with its version, and nothing else is. *)
Lemma neg_find_spec l h now : neg_ok l -> h <> 0 ->
  match neg_find l (neg_base h) h now with
  | Some (w, v) => exists i, ne_h (neg_at l i) = h /\ now < ne_exp (neg_at l i) /\ v = ne_ver (neg_at l i)
  | None => forall i, ne_h (neg_at l i) = h -> ne_exp (neg_at l i) <= now
  end.
Proof.
  intros Hok Hh. unfold neg_find, neg_read. assert (forall i, Z.odd (ne_seq (neg_at l i)) = false) as Ho by (intros i; rewrite <- Z.negb_even, (no_seq _ Hok); done).
  match goal with |- context [first_way ?p _] => pose proof (ways_spec p) as Hp; destruct (first_way p _) as [w|] end; cbn [mbind option_bind]; cbn beta in Hp.
  - destruct Hp as [_ Hp]. rewrite Ho in Hp. apply andb_true_iff in Hp as [H1 H2]. exists (neg_base h + w). split_and!; [by apply Z.eqb_eq|by apply Z.ltb_lt|done].
  - intros i Hi. pose proof (no_home _ Hok i ltac:(congruence)) as Hhome. rewrite Hi in Hhome. specialize (Hp (i - neg_base h) ltac:(lia)). replace (neg_base h + (i - neg_base h)) with i in Hp by lia.
    rewrite Ho, Hi, Z.eqb_refl in Hp. cbn in Hp. by apply Z.ltb_ge.
Qed.

Lemma oldest_spec (f : Z -> Z) b ws : forall old, let o := foldl (fun old w => if f (b + w) <? f old then b + w else old) old ws in
  (o = old \/ exists w, w ∈ ws /\ o = b + w) /\ f o <= f old /\ forall w, w ∈ ws -> f o <= f (b + w).
Proof.
  induction ws as [|w ws IH]; intros old; cbn [foldl]; [split_and!; [by left|lia|by intros w ?%not_elem_of_nil]|]. destruct (IH (if f (b + w) <? f old then b + w else old)) as (O1 & O2 & O3). split_and!.
  - destruct O1 as [O1|(v & Hv & O1)]; [|right; exists v; split; [by right|done]]. destruct (_ <? _); [right; exists w; split; [by left|done]|by left].
  - destruct (Z.ltb_spec (f (b + w)) (f old)); lia.
  - intros v [->|Hv]%elem_of_cons; [|by apply O3]. destruct (Z.ltb_spec (f (b + w)) (f old)); lia.
Qed.

(** Where a plant goes. *)
Lemma neg_slot_spec l h now l' i : neg_slot_for l (neg_base h) h now = (l', i) ->
  lc_neg l' = lc_neg l /\ lc_loc l' = lc_loc l /\ lc_neg_until_ms l' = lc_neg_until_ms l /\ neg_base h <= i < neg_base h + 4 /\
  ((ne_h (neg_at l i) = h /\ neg_evicts l h now = None /\ lc_neg_displaced l' = lc_neg_displaced l) \/
   (forall w, 0 <= w < 4 -> ne_h (neg_at l (neg_base h + w)) <> h) /\
    ((ne_h (neg_at l i) = 0 \/ ne_exp (neg_at l i) <= now) /\ neg_evicts l h now = None /\ lc_neg_displaced l' = lc_neg_displaced l \/
     (forall w, 0 <= w < 4 -> ne_h (neg_at l (neg_base h + w)) <> 0 /\ now < ne_exp (neg_at l (neg_base h + w)) /\ ne_exp (neg_at l i) <= ne_exp (neg_at l (neg_base h + w))) /\
     neg_evicts l h now = Some (ne_h (neg_at l i)) /\ lc_neg_displaced l' = u64 (lc_neg_displaced l + 1))).
Proof.
  unfold neg_evicts, neg_slot_for. set (b := neg_base h). pose proof (ways_spec (fun w => ne_h (neg_at l (b + w)) =? h)) as H1. destruct (first_way _ _) as [w|]; cbn beta in H1.
  { destruct H1 as [Hw H1]. intros [= <- <-]. apply Z.eqb_eq in H1. split_and!; try done; try lia. by left. }
  assert (forall w, 0 <= w < 4 -> ne_h (neg_at l (b + w)) <> h) as H1' by (intros w Hw; by apply Z.eqb_neq, H1).
  pose proof (ways_spec (fun w => (ne_h (neg_at l (b + w)) =? 0) || (ne_exp (neg_at l (b + w)) <=? now))) as H2. destruct (first_way _ _) as [w|]; cbn beta in H2.
  { destruct H2 as [Hw H2]. intros [= <- <-]. split_and!; try done; try lia. right. split; [done|]. left. split_and!; try done. apply orb_true_iff in H2 as [H2|H2]; [left; by apply Z.eqb_eq|right; by apply Z.leb_le]. }
  set (old := foldl _ _ _). intros [= <- <-].
  destruct (oldest_spec (fun i => ne_exp (neg_at l i)) b [1; 2; 3] b) as (O1 & O2 & O3). fold old in O1, O2, O3.
  assert (exists w, 0 <= w < 4 /\ old = b + w) as (w & Hw & Hold) by (destruct O1 as [O1|(w & Hw & O1)]; [exists 0; lia|exists w; split; [apply way_in; by right|done]]).
  assert (forall w, 0 <= w < 4 -> ne_exp (neg_at l old) <= ne_exp (neg_at l (b + w))) as Hmin by (intros v [->|Hv]%way_in%elem_of_cons; [by rewrite Z.add_0_r|by apply O3]).
  cbn [count_displaced lc_neg lc_loc lc_neg_until_ms lc_neg_displaced]. split_and!; try done; try lia. right. split; [done|]. right. split_and!; try done.
  intros v Hv. specialize (H2 v Hv). apply orb_false_iff in H2 as [H2 H3]. split_and!; [by apply Z.eqb_neq|by apply Z.leb_gt|by apply Hmin].
Qed.

(** The entry at [i] written under its lock. *)
Definition planted_at (i h e v : Z) (l : clloc) : clloc := neg_until e (neg_wunlock i (neg_put i h e v (neg_wlock i l))).

Lemma planted_neg i h e v l j : neg_at (planted_at i h e v l) j = if decide (j = i) then mk_neg h e v (u32 (u32 (ne_seq (neg_at l i) + 1) + 1)) else neg_at l j.
Proof.
  unfold planted_at, neg_wunlock, neg_put, neg_wlock. change (neg_at (neg_until e ?x) j) with (neg_at x j). repeat (rewrite neg_at_set; cbn [ne_h ne_exp ne_ver ne_seq]). rewrite !(decide_True (P := i = i)) by done. cbn [ne_h ne_exp ne_ver ne_seq]. by destruct (decide (j = i)).
Qed.

Lemma planted_until i h e v l : lc_neg_until_ms (planted_at i h e v l) = Z.max (lc_neg_until_ms l) e.
Proof. unfold planted_at, neg_until, neg_wunlock, neg_put, neg_wlock, set_neg. cbn [lc_neg_until_ms]. destruct (Z.ltb_spec (lc_neg_until_ms l) e); lia. Qed.

Lemma planted_rest i h e v l : lc_loc (planted_at i h e v l) = lc_loc l /\ lc_neg_displaced (planted_at i h e v l) = lc_neg_displaced l.
Proof. done. Qed.

(** The cache [l] against the one without bounds, the hashes [vs] displaced, at [t]. *)
Record neg_rel (l : clloc) (m : gmap Z (Z * Z)) (vs : list Z) (t : Z) : Prop := {
  nr_ok : neg_ok l;
  nr_have : forall i, ne_h (neg_at l i) <> 0 -> ne_h (neg_at l i) ∉ vs -> m !! ne_h (neg_at l i) = Some (ne_exp (neg_at l i), ne_ver (neg_at l i));
  nr_all : forall h e v, h ∉ vs -> m !! h = Some (e, v) -> t < e -> exists i, ne_h (neg_at l i) = h;
  nr_pos : m !! 0 = None;
  nr_count : lc_neg_displaced l = u64 (zlen vs)
}.

Lemma neg_rel_ext l l' m vs t : lc_neg l' = lc_neg l -> lc_neg_until_ms l' = lc_neg_until_ms l -> lc_neg_displaced l' = lc_neg_displaced l -> neg_rel l m vs t -> neg_rel l' m vs t.
Proof.
  intros E1 E2 E3 [[O1 O2 O3 O4] H2 H3 H4 H5]. assert (forall i, neg_at l' i = neg_at l i) as E by (intros i; unfold neg_at; by rewrite E1).
  split; [split; intros i; rewrite ?E; [apply O1|apply O2| |rewrite E2; apply O4]; intros j; rewrite E; apply O3|intros i; rewrite E; apply H2| |done|congruence].
  intros h e v Hh Hm Ht. destruct (H3 h e v Hh Hm Ht) as [i Hi]. exists i. by rewrite E.
Qed.

Lemma neg_plant l m vs t h now e v l' i : neg_rel l m vs t -> t <= now -> h <> 0 -> neg_slot_for l (neg_base h) h now = (l', i) ->
  neg_rel (planted_at i h e v l') (<[h := (e, v)]> m) (vs ++ option_list (neg_evicts l h now)) now.
Proof.
  intros [[O1 O2 O3 O4] H2 H3 H4 H5] Ht Hh Hs. destruct (neg_slot_spec _ _ _ _ _ Hs) as (E1 & _ & E3 & Hi & Hc). assert (forall j, neg_at l' j = neg_at l j) as E by (intros j; unfold neg_at; by rewrite E1).
  assert (forall j, neg_at (planted_at i h e v l') j = if decide (j = i) then mk_neg h e v (u32 (u32 (ne_seq (neg_at l i) + 1) + 1)) else neg_at l j) as Hat by (intros j; by rewrite planted_neg, !E). clear E.
  assert (forall j, j <> i -> ne_h (neg_at l j) <> h) as Hno.
  { intros j Hj Hjh. pose proof (O2 j ltac:(congruence)) as Hj4. rewrite Hjh in Hj4. destruct Hc as [(Hc & _)|(Hc & _)]; [apply Hj, O3; congruence|]. apply (Hc (j - neg_base h) ltac:(lia)). by replace (neg_base h + (j - neg_base h)) with j by lia. }
  split.
  - split.
    + intros j. rewrite Hat. destruct (decide (j = i)); [cbn [ne_seq]; by rewrite even_two|done].
    + intros j. rewrite Hat. destruct (decide (j = i)) as [->|]; [cbn [ne_h]; lia|apply O2].
    + intros j k. rewrite !Hat. destruct (decide (j = i)) as [->|Hj], (decide (k = i)) as [->|Hk]; cbn [ne_h]; [done|intros _ Hx; by destruct (Hno k Hk)|intros _ Hx; by destruct (Hno j Hj)|apply O3].
    + intros j. rewrite Hat, planted_until, E3. destruct (decide (j = i)); cbn [ne_h ne_exp]; [lia|]. intros Hx%O4. lia.
  - intros j. rewrite Hat. destruct (decide (j = i)) as [->|Hj]; cbn [ne_h ne_exp ne_ver]; [intros; by rewrite lookup_insert_eq|]. intros Hz Hv. rewrite lookup_insert_ne by (intros E; by apply (Hno j Hj)). apply H2; [done|]. intros ?. apply Hv, elem_of_app. by left.
  - intros k e' v' Hk. assert ((k ∉ vs) /\ (k ∉ option_list (neg_evicts l h now))) as [Hk1 Hk2] by (split; intros ?; apply Hk, elem_of_app; [by left|by right]). destruct (decide (k = h)) as [->|Hkh]; [intros _ _; exists i; rewrite Hat, decide_True by done; done|].
    rewrite lookup_insert_ne by done. intros Hm Hlt. destruct (H3 k e' v' Hk1 Hm ltac:(lia)) as [j Hj]. exists j. rewrite Hat. destruct (decide (j = i)) as [->|]; [exfalso|done]. assert (k <> 0) as Hk0 by (intros ->; congruence).
    destruct Hc as [(Hc & _)|(_ & [([Hc|Hc] & _)|(_ & Hc & _)])]; [congruence|congruence| |].
    + pose proof (H2 i ltac:(congruence) ltac:(congruence)) as He. rewrite Hj, Hm in He. injection He as -> ->. lia.
    + apply Hk2. rewrite Hc. cbn. rewrite Hj. by apply list_elem_of_singleton.
  - by rewrite lookup_insert_ne.
  - change (lc_neg_displaced (planted_at i h e v l')) with (lc_neg_displaced l'). destruct Hc as [(_ & -> & ->)|(_ & [(_ & -> & ->)|(_ & -> & ->)])]; cbn [option_list]; rewrite ?app_nil_r; try done. rewrite H5, zlen_app. change (zlen [_]) with 1. unfold u64. by rewrite Zplus_mod_idemp_l.
Qed.

Lemma clear_way_at h b l w j : neg_at (clear_way h b l w) j =
  if decide (j = b + w) then if ne_h (neg_at l j) =? h then mk_neg 0 (ne_exp (neg_at l j)) (ne_ver (neg_at l j)) (u32 (u32 (ne_seq (neg_at l j) + 1) + 1)) else neg_at l j else neg_at l j.
Proof.
  unfold clear_way. destruct (Z.eqb_spec (ne_h (neg_at l (b + w))) h) as [E|E].
  - unfold neg_wunlock, neg_wlock. repeat (rewrite neg_at_set; rewrite ?(decide_True (P := b + w = b + w)) by done; cbn [ne_h ne_exp ne_ver ne_seq]). rewrite (proj2 (Z.eqb_eq _ _) E). repeat (rewrite neg_at_set; rewrite ?(decide_True (P := b + w = b + w)) by done; cbn [ne_h ne_exp ne_ver ne_seq]).
    destruct (decide (j = b + w)) as [->|]; [|done]. by rewrite (proj2 (Z.eqb_eq _ _) E).
  - destruct (decide (j = b + w)) as [->|]; [|done]. by rewrite (proj2 (Z.eqb_neq _ _) E).
Qed.

Lemma clear_rest h b ws : forall l, let l' := foldl (clear_way h b) l ws in lc_loc l' = lc_loc l /\ lc_neg_until_ms l' = lc_neg_until_ms l /\ lc_neg_displaced l' = lc_neg_displaced l.
Proof. induction ws as [|w ws IH]; intros l; [done|]. cbn [foldl]. destruct (IH (clear_way h b l w)) as (-> & -> & ->). unfold clear_way. destruct (_ =? h); [|done]. by destruct (_ =? h). Qed.

(** After the clear no entry has the hash, and the others are as they were. *)
Lemma clear_ways h b ws : h <> 0 -> forall l j, let e := neg_at (foldl (clear_way h b) l ws) j in
  (e = neg_at l j /\ (j - b ∈ ws -> ne_h e <> h)) \/ (ne_h (neg_at l j) = h /\ ne_h e = 0 /\ Z.even (ne_seq e) = Z.even (ne_seq (neg_at l j))).
Proof.
  intros Hh. induction ws as [|w ws IH]; intros l j; cbn [foldl]; [left; split; [done|by intros ?%not_elem_of_nil]|]. destruct (IH (clear_way h b l w) j) as [(-> & H)|(H1 & H2 & H3)]; rewrite clear_way_at in *.
  - destruct (decide (j = b + w)) as [->|Hj]; [|left; split; [done|]; intros [E|Hin]%elem_of_cons; [lia|by apply H]]. destruct (Z.eqb_spec (ne_h (neg_at l (b + w))) h) as [E|E]; [right|left; by split].
    split_and!; [done|done|]. cbn [ne_seq]. apply even_two.
  - destruct (decide (j = b + w)) as [->|Hj]; [|by right]. destruct (Z.eqb_spec (ne_h (neg_at l (b + w))) h) as [E|E]; [|by right]. by cbn in H1.
Qed.

Lemma neg_cleared l m vs t col key : neg_rel l m vs t -> neg_rel (clloc_neg_clear l col key) (delete (clloc_hash col key) m) vs t.
Proof.
  intros [[O1 O2 O3 O4] H2 H3 H4 H5]. pose proof (hash_pos col key) as Hh. unfold clloc_neg_clear. set (h := clloc_hash col key) in *. destruct (clear_rest h (neg_base h) [0; 1; 2; 3] l) as (_ & E2 & E3). pose proof (clear_ways h (neg_base h) [0; 1; 2; 3] Hh l) as Hat. set (l' := foldl _ _ _) in *. cbn zeta in Hat.
  assert (forall j, ne_h (neg_at l' j) <> 0 -> neg_at l' j = neg_at l j /\ ne_h (neg_at l j) <> h) as Hsame.
  { intros j Hz. destruct (Hat j) as [(E & Hn)|(_ & ? & _)]; [|done]. split; [done|]. intros Eh. rewrite E in *. apply Hn; [|done]. apply way_in. pose proof (O2 j ltac:(congruence)) as Hj. rewrite Eh in Hj. lia. }
  split.
  - split.
    + intros j. destruct (Hat j) as [(-> & _)|(_ & _ & ->)]; apply O1.
    + intros j Hz. destruct (Hsame j Hz) as [E _]. rewrite E in *. by apply O2.
    + intros j k Hz Hjk. destruct (Hsame j Hz) as [Ej _], (Hsame k ltac:(congruence)) as [Ek _]. rewrite Ej, Ek in *. by apply O3.
    + intros j Hz. destruct (Hsame j Hz) as [E _]. rewrite E, E2 in *. by apply O4.
  - intros j Hz Hv. destruct (Hsame j Hz) as [E Hne]. rewrite E in *. rewrite lookup_delete_ne by done. by apply H2.
  - intros k e v Hk Hm Ht. destruct (decide (k = h)) as [->|Hne]; [by rewrite lookup_delete_eq in Hm|]. rewrite lookup_delete_ne in Hm by done. destruct (H3 k e v Hk Hm Ht) as [j Hj]. exists j. destruct (Hat j) as [(-> & _)|(Ej & _)]; [done|congruence].
  - rewrite lookup_delete_ne; done.
  - congruence.
Qed.

Lemma plant_is l m vs t h now ver l' i : neg_rel l m vs t -> t <= now -> h <> 0 -> h ∉ vs -> neg_slot_for l (neg_base h) h now = (l', i) ->
  let e := neg_at (neg_wlock i l') i in (if (ne_h e =? h) && (now <? ne_exp e) && (ver <? ne_ver e) then ne_ver e else ver) = plant_max m h now ver.
Proof.
  intros H Ht Hh Hv Hs. destruct (neg_slot_spec _ _ _ _ _ Hs) as (E1 & _ & _ & Hi & Hc). unfold neg_wlock. rewrite neg_at_set, decide_True by done. cbn [ne_h ne_exp ne_ver]. assert (neg_at l' i = neg_at l i) as -> by (unfold neg_at; by rewrite E1). unfold plant_max.
  destruct Hc as [(Hc & _)|(Hc & _)].
  - pose proof (nr_have _ _ _ _ H i ltac:(congruence) ltac:(by rewrite Hc)) as He. rewrite Hc in He. by rewrite He, Hc, Z.eqb_refl.
  - assert (ne_h (neg_at l i) <> h) as Hne by (intros E; apply (Hc (i - neg_base h) ltac:(lia)); by replace (neg_base h + (i - neg_base h)) with i by lia). rewrite (proj2 (Z.eqb_neq _ _) Hne). cbn [andb].
    destruct (m !! h) as [[e v]|] eqn:Hm; [|done]. destruct (Z.ltb_spec now e) as [Hlt|]; [|done]. exfalso. destruct (nr_all _ _ _ _ H h e v Hv Hm ltac:(lia)) as [j Hj]. pose proof (no_home _ (nr_ok _ _ _ _ H) j ltac:(congruence)) as Hj4. rewrite Hj in Hj4. apply (Hc (j - neg_base h) ltac:(lia)). by replace (neg_base h + (j - neg_base h)) with j by lia.
Qed.

(** What the unbounded cache has of a displaced hash does not matter. *)
Lemma neg_rel_free l m m' vs t : (forall h, h ∉ vs -> m' !! h = m !! h) -> m' !! 0 = None -> neg_rel l m vs t -> neg_rel l m' vs t.
Proof. intros Hm Hz [H1 H2 H3 H4 H5]. split; try done; [intros i Hi Hv; rewrite Hm by done; by apply H2|]. intros h e v Hv. rewrite Hm by done. by apply H3. Qed.

Definition op_time (t : Z) (o : lop) : Z := match o with LSet _ _ now _ | LSetVer _ _ now _ _ => now | _ => t end.

Lemma lstep_rel l m vs t o : neg_rel l m vs t -> t <= op_time t o -> neg_rel (lstep l o) (ideal_step m o) (vs ++ evicted l o) (op_time t o).
Proof.
  intros H Ht. destruct o as [col key now|col key now ms|col key now ms ver|col key|col key|col key node|col key|]; cbn [lstep ideal_step evicted op_time] in *; rewrite ?app_nil_r.
  - eapply neg_rel_ext; [| | |exact H]; unfold clloc_neg_hit; by destruct (neg_find _ _ _ _).
  - unfold clloc_neg_set. destruct (neg_slot_for _ _ _ _) as [l' i] eqn:Hs. exact (neg_plant _ _ _ _ _ _ (now + ms) 0 _ _ H Ht (hash_pos _ _) Hs).
  - unfold clloc_neg_set_ver, plant_ver. destruct (neg_slot_for _ _ _ _) as [l' i] eqn:Hs. set (h := clloc_hash col key) in *. match goal with |- context [neg_put i h _ ?x _] => set (v := x) end. pose proof (neg_plant _ _ _ _ _ _ (now + ms) v _ _ H Ht (hash_pos _ _) Hs) as Hp. fold h in Hp.
    apply (neg_rel_free _ (<[h := (now + ms, v)]> m)); [|rewrite lookup_insert_ne by apply hash_pos; apply H|exact Hp]. intros k Hk. destruct (decide (k = h)) as [->|]; [|by rewrite !lookup_insert_ne]. rewrite !lookup_insert_eq. do 2 f_equal. symmetry. eapply plant_is; try done; [apply hash_pos|]. intros ?. apply Hk, elem_of_app. by left.
  - by apply neg_cleared.
  - eapply neg_rel_ext; [| | |exact H]; unfold clloc_get; by destruct (first_way _ _).
  - eapply neg_rel_ext; [| | |exact H]; unfold clloc_set; by repeat destruct (first_way _ _).
  - eapply neg_rel_ext; [| | |exact H]; unfold clloc_clear; by destruct (first_way _ _).
  - by eapply neg_rel_ext; [| | |exact H].
Qed.

Lemma neg_rel0 t : neg_rel clloc0 ∅ [] t.
Proof. split; [split|..]; unfold neg_at; cbn [lc_neg clloc0]; intros; rewrite ?lookup_empty in *; cbn in *; done. Qed.

Lemma lrun_rel ops : forall l m vs t now, neg_rel l m vs t -> lclocked t ops now -> let x := foldl lrun1 (l, vs) ops in exists t', t' <= now /\ neg_rel x.1 (foldl ideal_step m ops) x.2 t'.
Proof.
  induction ops as [|o ops IH]; intros l m vs t now H Hc; cbn [foldl]; [by exists t|]. assert (t <= op_time t o /\ lclocked (op_time t o) ops now) as [H1 H2] by (destruct o; cbn [op_time lclocked] in *; [split; [lia|done]|tauto|tauto|split; [lia|done]..]). exact (IH _ _ _ _ _ (lstep_rel _ _ _ _ _ H H1) H2).
Qed.


(** A plant displaces a live entry only from a set whose four ways all live, and of
    those one that expires first: four hashes of that set, none of them the planted one, are
    live until no earlier than the displaced. *)
Theorem neg_displaces_oldest t0 ops now col key hv : lclocked t0 ops now -> neg_evicts (lrun ops).1 (clloc_hash col key) now = Some hv ->
  exists e hs, NoDup hs /\ length hs = 4%nat /\ hv ∈ hs /\ (clloc_hash col key ∉ hs) /\ now < e /\
    (exists i, ne_h (neg_at (lrun ops).1 i) = hv /\ ne_exp (neg_at (lrun ops).1 i) = e) /\
    Forall (fun h => neg_base h = neg_base (clloc_hash col key) /\ exists i, ne_h (neg_at (lrun ops).1 i) = h /\ e <= ne_exp (neg_at (lrun ops).1 i)) hs.
Proof.
  intros Hc He. destruct (lrun_rel ops clloc0 ∅ [] t0 now (neg_rel0 t0) Hc) as (t' & Ht & H). fold (lrun ops) in H. destruct (lrun ops) as [l vs]. cbn [fst snd] in *. set (h := clloc_hash col key) in *. pose proof (nr_ok _ _ _ _ H) as Hok. destruct (neg_slot_for l (neg_base h) h now) as [l' i] eqn:Hs.
  destruct (neg_slot_spec _ _ _ _ _ Hs) as (_ & _ & _ & Hi & [(_ & Hn & _)|(Hno & [(_ & Hn & _)|(Hall & Hn & _)])]); [congruence|congruence|]. rewrite Hn in He. injection He as <-.
  exists (ne_exp (neg_at l i)), ((fun w => ne_h (neg_at l (neg_base h + w))) <$> [0; 1; 2; 3]).
  split_and!.
  - apply NoDup_fmap_2_strong; [|repeat (apply NoDup_cons; split; [rewrite ?elem_of_cons; intros; pose proof (not_elem_of_nil (A := Z)); intuition (lia || eauto)|]); apply NoDup_nil_2].
    intros x y Hx%way_in Hy%way_in E. apply (no_once _ Hok) in E; [lia|]. apply Hall. lia.
  - done.
  - apply list_elem_of_fmap. exists (i - neg_base h). split; [f_equal; f_equal; lia|apply way_in; lia].
  - intros (w & E & Hw%way_in)%list_elem_of_fmap. by apply (Hno w Hw).
  - destruct (Hall (i - neg_base h) ltac:(lia)) as (_ & Hl & _). by replace (neg_base h + (i - neg_base h)) with i in Hl by lia.
  - by exists i.
  - apply Forall_forall. intros x (w & -> & Hw%way_in)%list_elem_of_fmap. destruct (Hall w Hw) as (A1 & A2 & A3). split; [|by eauto]. pose proof (no_home _ Hok (neg_base h + w) A1) as Hb. clear -Hb Hw. unfold neg_base, NEG_WAYS, NEG_SLOTS in *. lia.
Qed.

Lemma find_none l h now : neg_ok l -> h <> 0 -> (forall i, ne_h (neg_at l i) = h -> ne_exp (neg_at l i) <= now) -> neg_find l (neg_base h) h now = None.
Proof. intros Hok Hh H. pose proof (neg_find_spec l h now Hok Hh) as Hf. destruct (neg_find _ _ _ _) as [[w v]|]; [|done]. destruct Hf as (i & Hi & Hlt & _). pose proof (H i Hi). lia. Qed.

(** Two caches that hold the same of a hash answer it alike. *)
Lemma ver_same l l' col key now : neg_ok l -> neg_ok l' -> (forall i, ne_h (neg_at l i) = clloc_hash col key -> neg_at l' i = neg_at l i) -> (forall i, ne_h (neg_at l' i) = clloc_hash col key -> neg_at l' i = neg_at l i) ->
  clloc_neg_ver l' col key now = clloc_neg_ver l col key now.
Proof.
  intros H H' E E'. set (h := clloc_hash col key) in *. assert (h <> 0) as Hh by apply hash_pos. unfold clloc_neg_ver. fold h. pose proof (neg_find_spec l h now H Hh) as F. pose proof (neg_find_spec l' h now H' Hh) as F'.
  destruct (neg_find l _ _ _) as [[w v]|], (neg_find l' _ _ _) as [[w' v']|]; [| | |done].
  - destruct F as (i & Hi & _ & ->), F' as (j & Hj & _ & ->). pose proof (E' j Hj) as Ej. rewrite Ej in *. assert (i = j) as -> by (apply (no_once _ H); [by rewrite Hi|by rewrite Hi, Hj]). done.
  - destruct F as (i & Hi & Hlt & _). pose proof (F' i ltac:(by rewrite (E i Hi))) as F2. rewrite (E i Hi) in F2. lia.
  - destruct F' as (i & Hi & Hlt & _). pose proof (E' i Hi) as Ei. rewrite Ei in *. pose proof (F i Hi). lia.
Qed.

(** A write makes its key visible.  Whether [pc_neg_clear] clears the entry or the coarse
    clock lets it skip the table, no negative answer is left for the key, and every key of
    another hash is answered as before. *)
Theorem neg_clear_visible t0 ops t r col key coarse now : lclocked t0 ops t -> coarse - 20 <= now ->
  let m := mk_marks (lrun ops).1 r in
  let m' := pc_neg_clear m col key coarse in
  clloc_neg_ver (mk_lc_ m') col key now = (false, 0) /\ (pc_neg_hit m' col key now).2 = false /\
  forall col' key' now', clloc_hash col' key' <> clloc_hash col key -> clloc_neg_ver (mk_lc_ m') col' key' now' = clloc_neg_ver (mk_lc_ m) col' key' now'.
Proof.
  intros Hc Hn m m'. destruct (lrun_rel ops clloc0 ∅ [] t0 t (neg_rel0 t0) Hc) as (t' & _ & H). fold (lrun ops) in H. subst m m'. cbn [mk_lc_]. destruct (lrun ops) as [l vs]. cbn [fst snd] in *. set (h := clloc_hash col key). assert (h <> 0) as Hh by apply hash_pos. pose proof (nr_ok _ _ _ _ H) as Hok.
  unfold pc_neg_clear, pc_neg_hit, clloc_neg_hit. cbn [mk_lc_ mk_rt]. destruct (Z.ltb_spec (lc_neg_until_ms l + 20) coarse) as [E|E]; cbn [mk_lc_].
  - assert (neg_find l (neg_base h) h now = None) as Hf by (apply find_none; [done|done|]; intros i Hi; pose proof (no_until _ Hok i ltac:(congruence)); lia). unfold clloc_neg_ver. fold h. by rewrite Hf.
  - pose proof (nr_ok _ _ _ _ (neg_cleared _ _ _ _ col key H)) as Hok'. pose proof (clear_ways h (neg_base h) [0; 1; 2; 3] Hh l) as Hat. unfold clloc_neg_clear in *. fold h in Hok' |- *. set (l' := foldl (clear_way _ _) _ _) in *. cbn zeta in Hat.
    assert (forall i, ne_h (neg_at l' i) <> h) as Hgone.
    { intros i Hi. destruct (Hat i) as [(Ei & Hx)|(_ & Hx & _)]; [|congruence]. pose proof (no_home _ Hok' i ltac:(congruence)) as Hb. rewrite Hi in Hb. apply Hx; [apply way_in; lia|done]. }
    assert (neg_find l' (neg_base h) h now = None) as Hf by (apply find_none; [done|done|]; intros i Hi; by destruct (Hgone i)). unfold clloc_neg_ver at 1. fold h. rewrite Hf. split_and!; [done|done|]. intros col' key' now' Hne.
    apply ver_same; [done|done| |]; intros i Hi; destruct (Hat i) as [(Ei & _)|(E1 & E2 & _)]; try done; [congruence|pose proof (hash_pos col' key'); congruence].
Qed.

(** * The locator never names a wrong holder *)

(** What a locator without bounds holds. *)
Definition ideal_loc (m : gmap Z Z) (o : lop) : gmap Z Z :=
  match o with
  | LLocSet col key node => <[clloc_hash col key := u16 node]> m
  | LLocClear col key => delete (clloc_hash col key) m
  | LForget => ∅
  | _ => m
  end.

Record loc_rel (l : clloc) (m : gmap Z Z) : Prop := {
  lr_home : forall i, lo_h (loc_at l i) <> 0 -> loc_base (lo_h (loc_at l i)) <= i < loc_base (lo_h (loc_at l i)) + 4;
  lr_once : forall i j, lo_h (loc_at l i) <> 0 -> lo_h (loc_at l i) = lo_h (loc_at l j) -> i = j;
  lr_have : forall i, lo_h (loc_at l i) <> 0 -> lo_node (loc_at l i) <> 0 -> m !! lo_h (loc_at l i) = Some (lo_node (loc_at l i))
}.

Lemma loc_at_set l i j e : loc_at (set_loc i e l) j = if decide (j = i) then e else loc_at l j.
Proof. unfold loc_at. cbn [set_loc lc_loc]. destruct (decide (j = i)) as [->|Hne]; [by rewrite lookup_insert_eq|by rewrite lookup_insert_ne]. Qed.

Lemma loc_rel_ext l l' m : lc_loc l' = lc_loc l -> loc_rel l m -> loc_rel l' m.
Proof. intros E [H1 H2 H3]. assert (forall i, loc_at l' i = loc_at l i) as Ei by (intros i; unfold loc_at; by rewrite E). split; intros i; rewrite Ei; [apply H1| |apply H3]. intros j. rewrite Ei. apply H2. Qed.

(** An entry of [h] written in its set, where no other entry has [h]. *)
Lemma loc_put l m h i n : loc_rel l m -> h <> 0 -> loc_base h <= i < loc_base h + 4 -> (forall j, j <> i -> lo_h (loc_at l j) <> h) -> loc_rel (set_loc i (mk_loc h n) l) (<[h := n]> m).
Proof.
  intros [H1 H2 H3] Hh Hi Hno. split.
  - intros j. rewrite loc_at_set. destruct (decide (j = i)) as [->|]; cbn [lo_h]; [done|apply H1].
  - intros j k. rewrite !loc_at_set. destruct (decide (j = i)) as [->|Hj], (decide (k = i)) as [->|Hk]; cbn [lo_h]; [done|intros _ E; by destruct (Hno k Hk)|intros _ E; by destruct (Hno j Hj)|apply H2].
  - intros j. rewrite loc_at_set. destruct (decide (j = i)) as [->|Hj]; cbn [lo_h lo_node]; [intros; by rewrite lookup_insert_eq|]. intros Hz Hn. rewrite lookup_insert_ne by (intros E; by apply (Hno j Hj)). by apply H3.
Qed.

Lemma loc_only l m h i : loc_rel l m -> h <> 0 -> (lo_h (loc_at l i) = h \/ forall w, 0 <= w < 4 -> lo_h (loc_at l (loc_base h + w)) <> h) -> forall j, j <> i -> lo_h (loc_at l j) <> h.
Proof.
  intros H Hh Hi j Hj E. destruct Hi as [Hi|Hi]; [apply Hj, (lr_once _ _ H); congruence|]. pose proof (lr_home _ _ H j ltac:(congruence)) as Hb. rewrite E in Hb. apply (Hi (j - loc_base h) ltac:(lia)). by replace (loc_base h + (j - loc_base h)) with j by lia.
Qed.

(** Where the locator writes a holder. *)
Lemma loc_set_spec l m col key node : loc_rel l m -> exists i, let h := clloc_hash col key in
  clloc_set l col key node = set_loc i (mk_loc h (u16 node)) l /\ loc_base h <= i < loc_base h + 4 /\ forall j, j <> i -> lo_h (loc_at l j) <> h.
Proof.
  intros H. unfold clloc_set. set (h := clloc_hash col key). assert (h <> 0) as Hh by apply hash_pos. pose proof (ways_spec (fun w => lo_h (loc_at l (loc_base h + w)) =? h)) as H1. destruct (first_way _ _) as [w|]; cbn beta in H1.
  { destruct H1 as [Hw E%Z.eqb_eq]. exists (loc_base h + w). rewrite E. split_and!; [done|lia|lia|]. apply (loc_only l m h _ H Hh). by left. }
  assert (forall w, 0 <= w < 4 -> lo_h (loc_at l (loc_base h + w)) <> h) as H1' by (intros w Hw; by apply Z.eqb_neq, H1). pose proof (ways_spec (fun w => lo_node (loc_at l (loc_base h + w)) =? 0)) as H2.
  destruct (first_way _ _) as [w|]; cbn beta in H2; [exists (loc_base h + w); destruct H2 as [Hw _]|exists (loc_base h + Z.land (Z.shiftr h 32) (LOC_WAYS - 1))]; (split_and!; [done| | |by apply (loc_only l m h _ H Hh); right]); try lia.
  all: change (LOC_WAYS - 1) with (Z.ones 2); rewrite Z.land_ones by lia; pose proof (Z.mod_pos_bound (Z.shiftr h 32) (2 ^ 2) ltac:(lia)); lia.
Qed.

Lemma loc_rel_sub l m m' : loc_rel l m -> (forall i, lo_h (loc_at l i) <> 0 -> lo_node (loc_at l i) <> 0 -> m' !! lo_h (loc_at l i) = m !! lo_h (loc_at l i)) -> loc_rel l m'.
Proof. intros [H1 H2 H3] E. split; try done. intros i Hz Hn. rewrite E by done. by apply H3. Qed.

Lemma loc_step l m o : loc_rel l m -> loc_rel (lstep l o) (ideal_loc m o).
Proof.
  intros H. destruct o as [col key now|col key now ms|col key now ms ver|col key|col key|col key node|col key|]; cbn [lstep ideal_loc].
  - eapply loc_rel_ext; [|exact H]. unfold clloc_neg_hit. by destruct (neg_find _ _ _ _).
  - eapply loc_rel_ext; [|exact H]. unfold clloc_neg_set. destruct (neg_slot_for _ _ _ _) as [l' i] eqn:Hs. destruct (neg_slot_spec _ _ _ _ _ Hs) as (_ & E & _). exact E.
  - eapply loc_rel_ext; [|exact H]. unfold clloc_neg_set_ver. destruct (neg_slot_for _ _ _ _) as [l' i] eqn:Hs. destruct (neg_slot_spec _ _ _ _ _ Hs) as (_ & E & _). exact E.
  - eapply loc_rel_ext; [|exact H]. apply clear_rest.
  - eapply loc_rel_ext; [|exact H]. unfold clloc_get. by destruct (first_way _ _).
  - destruct (loc_set_spec l m col key node H) as (i & -> & Hi & Hno). apply loc_put; [done|apply hash_pos|done|done].
  - unfold clloc_clear. set (h := clloc_hash col key). assert (h <> 0) as Hh by apply hash_pos. pose proof (ways_spec (fun w => lo_h (loc_at l (loc_base h + w)) =? h)) as H1. destruct (first_way _ _) as [w|]; cbn beta in H1.
    + destruct H1 as [Hw E%Z.eqb_eq]. rewrite E. apply (loc_rel_ext (set_loc (loc_base h + w) (mk_loc h 0) l)); [done|]. eapply loc_rel_sub; [apply (loc_put l m h (loc_base h + w) 0 H Hh); [lia|apply (loc_only l m h _ H Hh); by left]|].
      intros i. rewrite loc_at_set. destruct (decide (i = loc_base h + w)); cbn [lo_h lo_node]; [done|]. intros _ _. destruct (decide (lo_h (loc_at l i) = h)) as [E'|]; [|by rewrite lookup_delete_ne, lookup_insert_ne]. exfalso. by eapply (loc_only l m h (loc_base h + w) H Hh ltac:(by left) i).
    + eapply loc_rel_sub; [exact H|]. intros i Hz _. rewrite lookup_delete_ne; [done|]. intros E. symmetry in E. pose proof (lr_home _ _ H i ltac:(congruence)) as Hb. rewrite E in Hb. pose proof (H1 (i - loc_base h) ltac:(lia)) as Hx. replace (loc_base h + (i - loc_base h)) with i in Hx by lia. by apply Z.eqb_neq in Hx.
  - assert (forall i, loc_at (clloc_forget_holders l).1 i = forget_ent (loc_at l i)) as E by (intros i; unfold loc_at; cbn [clloc_forget_holders fst count_forgets lc_loc]; rewrite lookup_fmap; by destruct (lc_loc l !! i)).
    destruct H as [H1 H2 H3]. split; intros i; rewrite E; cbn [forget_ent lo_h lo_node]; [apply H1| |done]. intros j. rewrite E. apply H2.
Qed.

Lemma lrun_fst ops : forall x, (foldl lrun1 x ops).1 = foldl lstep x.1 ops.
Proof. induction ops as [|o ops IH]; intros x; [done|]. cbn [foldl]. by rewrite IH. Qed.

Lemma loc_run ops : forall l m, loc_rel l m -> loc_rel (foldl lstep l ops) (foldl ideal_loc m ops).
Proof. induction ops as [|o ops IH]; intros l m H; [done|]. cbn [foldl]. by apply IH, loc_step. Qed.

(** The locator names a key's holder or none: after any calls, what [clloc_get] returns is
    0 or the node last set for the key's hash, and 0 when that was cleared or all holders
    were forgotten since; right after a set it is that node. *)
Theorem loc_never_wrong ops col key :
  let l := (lrun ops).1 in
  let n := (clloc_get l col key).2 in
  (n = 0 \/ n = default 0 (foldl ideal_loc ∅ ops !! clloc_hash col key)) /\ forall node, (clloc_get (clloc_set l col key node) col key).2 = u16 node.
Proof.
  cbn zeta. unfold lrun. rewrite lrun_fst. cbn [fst]. assert (loc_rel (foldl lstep clloc0 ops) (foldl ideal_loc ∅ ops)) as H by (apply loc_run; split; unfold loc_at; cbn [lc_loc clloc0]; intros; rewrite ?lookup_empty in *; cbn in *; done). set (l := foldl lstep clloc0 ops) in *. set (h := clloc_hash col key). assert (h <> 0) as Hh by apply hash_pos. split.
  - unfold clloc_get. fold h. match goal with |- context [first_way ?p _] => pose proof (ways_spec p) as Hp; destruct (first_way p _) as [w|] end; [|by left]. cbn beta in Hp. destruct Hp as [_ Hp]. apply andb_true_iff in Hp as [E%Z.eqb_eq Hn%negb_true_iff%Z.eqb_neq]. right. cbn [snd]. rewrite <- E at 2. rewrite (lr_have _ _ H); [done|congruence|done].
  - intros node. destruct (loc_set_spec l _ col key node H) as (i & -> & Hi & Hno). fold h in Hi, Hno |- *. unfold clloc_get. fold h. match goal with |- context [first_way ?p _] => pose proof (ways_spec p) as Hp; destruct (first_way p _) as [w|] end; cbn beta in Hp; cbn [snd].
    + destruct Hp as [_ Hp]. rewrite loc_at_set in *. destruct (decide (loc_base h + w = i)) as [|Hne]; [done|]. apply andb_true_iff in Hp as [E%Z.eqb_eq _]. by destruct (Hno _ Hne).
    + specialize (Hp (i - loc_base h) ltac:(lia)). replace (loc_base h + (i - loc_base h)) with i in Hp by lia. rewrite loc_at_set, decide_True in Hp by done. cbn [lo_h lo_node] in Hp. rewrite Z.eqb_refl in Hp. cbn in Hp. apply negb_false_iff, Z.eqb_eq in Hp. congruence.
Qed.

(** * Deletes, with the retained tombstones *)

Inductive mop :=
  | MHit (col key : bytes) (now : Z)
  | MSet (col key : bytes) (now ms : Z)
  | MClear (col key : bytes) (coarse : Z)
  | MDel (smem emem : bool) (col key : bytes) (now ms ver : Z)
  | MNum (smem emem : bool) (col key : bytes) (now ms ver oid incarn seq : Z)
  | MExpiry (smem emem : bool) (col key : bytes) (now ms ver : Z) (keep : bool)
  | MLocal (smem emem : bool) (col key : bytes) (now ms ver : Z)
  | MExpire (now_s : Z)
  | MReap (now_s hold_s : Z)
  | MForget (oid incarn upto now_s : Z).

Definition on_retain (o : rop) (m : marks) : marks := mk_marks (mk_lc_ m) (rstep (mk_rt m) o).

Definition mstep (m : marks) (o : mop) : marks :=
  match o with
  | MHit col key now => (pc_neg_hit m col key now).1
  | MSet col key now ms => pc_neg_set m col key now ms
  | MClear col key coarse => pc_neg_clear m col key coarse
  | MDel smem emem col key now ms ver => pc_neg_set_ver smem emem m col key now ms ver
  | MNum smem emem col key now ms ver oid incarn seq => neg_set_ver_num smem emem m col key now ms ver oid incarn seq
  | MExpiry smem emem col key now ms ver keep => neg_set_ver_expiry smem emem m col key now ms ver keep
  | MLocal smem emem col key now ms ver => pc_neg_set_ver_local smem emem m col key now ms ver
  | MExpire now_s => on_retain (OExpire now_s) m
  | MReap now_s hold_s => on_retain (OReap now_s hold_s) m
  | MForget oid incarn upto now_s => on_retain (OForget oid incarn upto now_s) m
  end.

(** What a call does to the retained tombstones. *)
Definition retained (o : mop) : list rop :=
  match o with
  | MDel smem emem col key now _ ver => [ONote smem emem (col, key) ver (u32 (now / 1000)) false 0 0 0 0]
  | MNum smem emem col key now _ ver oid incarn seq => [ONote smem emem (col, key) ver (u32 (now / 1000)) false 0 oid incarn seq]
  | MExpiry smem emem col key now _ ver keep => [ONote smem emem (col, key) ver (u32 (now / 1000)) false (if keep then 2 else 1) 0 0 0]
  | MLocal smem emem col key now _ ver => [ONote smem emem (col, key) ver (u32 (now / 1000)) true 0 0 0 0]
  | MExpire now_s => [OExpire now_s]
  | MReap now_s hold_s => [OReap now_s hold_s]
  | MForget oid incarn upto now_s => [OForget oid incarn upto now_s]
  | _ => []
  end.

Definition all_retained (ops : list mop) : list rop := concat (retained <$> ops).

(** A delete: at this node, numbered, or a local drop. *)
Definition is_delete (o : mop) (col key : bytes) (now ver : Z) : Prop :=
  (exists smem emem ms, o = MDel smem emem col key now ms ver) \/ (exists smem emem ms oid incarn seq, o = MNum smem emem col key now ms ver oid incarn seq) \/ (exists smem emem ms, o = MLocal smem emem col key now ms ver).

Lemma mstep_retain m o : mk_rt (mstep m o) = foldl rstep (mk_rt m) (retained o).
Proof. destruct o; cbn [mstep retained foldl]; try done; [unfold pc_neg_hit; by destruct (clloc_neg_hit _ _ _ _)|unfold pc_neg_clear; by destruct (_ <? _)]. Qed.

Lemma mrun_retain ops : forall m, mk_rt (foldl mstep m ops) = foldl rstep (mk_rt m) (all_retained ops).
Proof. induction ops as [|o ops IH]; intros m; [done|]. unfold all_retained. cbn [foldl fmap list_fmap concat]. by rewrite IH, mstep_retain, foldl_app. Qed.

Lemma neg_ver_none l col key now v : clloc_neg_ver l col key now = (false, v) -> v = 0.
Proof. unfold clloc_neg_ver. destruct (neg_find _ _ _ _) as [[w x]|]; congruence. Qed.

(** The later of the two is told. *)
Lemma told_at_least m col key now ver : 0 < ver -> ver <= clretain_get (mk_rt m) (col, key) (u32 (now / 1000)) -> exists v, pc_neg_ver m col key now = (true, v) /\ ver <= v.
Proof.
  intros Hv Hg. unfold pc_neg_ver. destruct (clloc_neg_ver _ _ _ _) as [r v] eqn:E. destruct (Z.ltb_spec v (clretain_get (mk_rt m) (col, key) (u32 (now / 1000)))); [by eexists|]. destruct r; [exists v; split; [done|lia]|]. apply neg_ver_none in E. lia.
Qed.

(** C14. A deleted key's old copies stay out.  After any calls on the caches and the retained
    tombstones, whatever allocations fail and entries are displaced: a delete of a key at a
    version, planted at some second, makes every later arrival of a copy at that version or
    below refused, unless a confirmed forget covered its number or the second is no later
    than the one [clretain_complete_since] returns. *)
Theorem delete_guarded retain_s max tmem col key t ver o pre post now cver : max <= 2 ^ 32 - 66 -> 0 < ver -> zlen col <= 255 -> zlen key <= 4096 -> is_delete o col key t ver ->
  clocked 0 (all_retained (pre ++ o :: post)) (u32 (now / 1000)) -> cver <= ver ->
  let m1 := foldl mstep (mk_marks clloc0 (clretain_init retain0 retain_s max tmem)) (pre ++ [o]) in
  let m := foldl mstep m1 post in
  tomb_refuses m col key now cver = true /\ ver <= apply_tomb m col key now \/ confirmed (all_retained post) (mk_rt m1) (col, key) ver \/ u32 (t / 1000) <= clretain_complete_since (mk_rt m) (u32 (now / 1000)).
Proof.
  intros Hmax Hv Hc Hk Hdel Hcl Hcv m1 m. assert (exists smem emem local oid incarn seq, retained o = [ONote smem emem (col, key) ver (u32 (t / 1000)) local 0 oid incarn seq]) as (smem & emem & local & oid & incarn & seq & Ho).
  { destruct Hdel as [(? & ? & ? & ->)|[(? & ? & ? & ? & ? & ? & ->)|(? & ? & ? & ->)]]; by repeat eexists. }
  assert (all_retained (pre ++ o :: post) = all_retained pre ++ ONote smem emem (col, key) ver (u32 (t / 1000)) local 0 oid incarn seq :: all_retained post) as Er by (unfold all_retained; rewrite fmap_app, concat_app; cbn [fmap list_fmap concat]; by rewrite Ho).
  rewrite Er in Hcl. pose proof (complete_run retain_s max tmem smem emem (col, key) ver (u32 (t / 1000)) local oid incarn seq _ _ _ Hmax ltac:(lia) Hc Hk Hcl) as H. cbn zeta in H.
  assert (mk_rt m1 = foldl rstep (clretain_init retain0 retain_s max tmem) (all_retained pre ++ [ONote smem emem (col, key) ver (u32 (t / 1000)) local 0 oid incarn seq])) as E1.
  { unfold m1. rewrite mrun_retain. cbn [mk_rt]. f_equal. unfold all_retained. rewrite fmap_app, concat_app. cbn [fmap list_fmap concat]. by rewrite Ho. }
  assert (mk_rt m = foldl rstep (mk_rt m1) (all_retained post)) as E2 by (unfold m; by rewrite mrun_retain). rewrite <- E1, <- E2 in H. destruct H as [H|H]; [left|by right].
  destruct (told_at_least m col key now ver Hv H) as (v & E & Hle). unfold tomb_refuses, apply_tomb. rewrite E. split; [|done]. rewrite (proj2 (Z.eqb_neq v 0)), (proj2 (Z.leb_le cver v)) by lia. done.
Qed.

(** * The sequence lock, word by word *)

(** What is written under an entry's lock: a negative entry, a tombstone, a clear. *)
Inductive wop := WPut (h e : Z) | WPutVer (h now e ver : Z) | WClear (h : Z).

(** Where a thread is: outside, before the lock, in it, at the stores it has left, before the
    unlock; in a read after its first look, which saw the sequence [s] when the entry had
    been written [k] times; done with a read. *)
Inductive spc :=
  | Idle
  | Lock (i : Z) (w : wop)
  | Held (i : Z) (w : wop)
  | StoreH (i h e v : Z)
  | StoreE (i e v : Z)
  | StoreV (i v : Z)
  | StoreZ (i : Z)
  | Unlock (i : Z)
  | LookH (i : Z) (k : nat) (s : Z)
  | LookE (i : Z) (k : nat) (s h : Z)
  | LookV (i : Z) (k : nat) (s h e : Z)
  | LookS (i : Z) (k : nat) (s h e v : Z)
  | Got (i : Z) (k : nat) (r : option (Z * Z * Z)).

(** The entries, the threads; and what was written, entry by entry. *)
Record sworld := mk_sworld { sw_mem : Z -> neg_ent; sw_pc : nat -> spc; sw_hist : Z -> list (Z * Z * Z) }.

Definition sw0 : sworld := mk_sworld (fun _ => neg0) (fun _ => Idle) (fun _ => [(0, 0, 0)]).

Definition ent_words (e : neg_ent) : Z * Z * Z := (ne_h e, ne_exp e, ne_ver e).
Definition at_pc (t : nat) (p : spc) (f : nat -> spc) : nat -> spc := fun t' => if decide (t' = t) then p else f t'.
Definition at_i {A} (i : Z) (x : A) (f : Z -> A) : Z -> A := fun j => if decide (j = i) then x else f j.
Definition moved (t : nat) (p : spc) (w : sworld) : sworld := mk_sworld (sw_mem w) (at_pc t p (sw_pc w)) (sw_hist w).
Definition stored_by (t : nat) (p : spc) (i : Z) (e : neg_ent) (w : sworld) : sworld := mk_sworld (at_i i e (sw_mem w)) (at_pc t p (sw_pc w)) (sw_hist w).
Definition unlocked (t : nat) (i : Z) (w : sworld) : sworld :=
  let e := sw_mem w i in mk_sworld (at_i i (mk_neg (ne_h e) (ne_exp e) (ne_ver e) (u32 (ne_seq e + 1))) (sw_mem w)) (at_pc t Idle (sw_pc w)) (at_i i (sw_hist w i ++ [ent_words e]) (sw_hist w)).

(** What the holder of the lock does next. *)
Definition held_next (i : Z) (o : wop) (e : neg_ent) : spc :=
  match o with
  | WPut h x => StoreH i h x 0
  | WPutVer h now x ver => StoreH i h x (if (ne_h e =? h) && (now <? ne_exp e) && (ver <? ne_ver e) then ne_ver e else ver)
  | WClear h => if ne_h e =? h then StoreZ i else Unlock i
  end.

Inductive seq_step (w : sworld) : sworld -> Prop :=
  | ss_write t i o : sw_pc w t = Idle -> seq_step w (moved t (Lock i o) w)
  | ss_lock t i o : sw_pc w t = Lock i o -> Z.odd (ne_seq (sw_mem w i)) = false ->
      seq_step w (stored_by t (Held i o) i (mk_neg (ne_h (sw_mem w i)) (ne_exp (sw_mem w i)) (ne_ver (sw_mem w i)) (u32 (ne_seq (sw_mem w i) + 1))) w)
  | ss_held t i o : sw_pc w t = Held i o -> seq_step w (moved t (held_next i o (sw_mem w i)) w)
  | ss_h t i h e v : sw_pc w t = StoreH i h e v -> seq_step w (stored_by t (StoreE i e v) i (mk_neg h (ne_exp (sw_mem w i)) (ne_ver (sw_mem w i)) (ne_seq (sw_mem w i))) w)
  | ss_e t i e v : sw_pc w t = StoreE i e v -> seq_step w (stored_by t (StoreV i v) i (mk_neg (ne_h (sw_mem w i)) e (ne_ver (sw_mem w i)) (ne_seq (sw_mem w i))) w)
  | ss_v t i v : sw_pc w t = StoreV i v -> seq_step w (stored_by t (Unlock i) i (mk_neg (ne_h (sw_mem w i)) (ne_exp (sw_mem w i)) v (ne_seq (sw_mem w i))) w)
  | ss_z t i : sw_pc w t = StoreZ i -> seq_step w (stored_by t (Unlock i) i (mk_neg 0 (ne_exp (sw_mem w i)) (ne_ver (sw_mem w i)) (ne_seq (sw_mem w i))) w)
  | ss_unlock t i : sw_pc w t = Unlock i -> seq_step w (unlocked t i w)
  | ss_look t i : sw_pc w t = Idle ->
      seq_step w (moved t (if Z.odd (ne_seq (sw_mem w i)) then Got i (length (sw_hist w i)) None else LookH i (length (sw_hist w i)) (ne_seq (sw_mem w i))) w)
  | ss_look_h t i k s : sw_pc w t = LookH i k s -> seq_step w (moved t (LookE i k s (ne_h (sw_mem w i))) w)
  | ss_look_e t i k s h : sw_pc w t = LookE i k s h -> seq_step w (moved t (LookV i k s h (ne_exp (sw_mem w i))) w)
  | ss_look_v t i k s h e : sw_pc w t = LookV i k s h e -> seq_step w (moved t (LookS i k s h e (ne_ver (sw_mem w i))) w)
  | ss_look_s t i k s h e v : sw_pc w t = LookS i k s h e v -> seq_step w (moved t (Got i k (if ne_seq (sw_mem w i) =? s then Some (h, e, v) else None)) w)
  | ss_done t i k r : sw_pc w t = Got i k r -> seq_step w (moved t Idle w).

Definition in_lock (p : spc) : option Z :=
  match p with Held i _ | StoreH i _ _ _ | StoreE i _ _ | StoreV i _ | StoreZ i | Unlock i => Some i | _ => None end.

(** What a reader has seen so far, of an entry not written since its first look. *)
Definition seen (p : spc) (e : neg_ent) : Prop :=
  match p with
  | LookE _ _ _ h => h = ne_h e
  | LookV _ _ _ h x => h = ne_h e /\ x = ne_exp e
  | LookS _ _ _ h x v => h = ne_h e /\ x = ne_exp e /\ v = ne_ver e
  | _ => True
  end.

Definition looking (p : spc) : option (Z * nat * Z) :=
  match p with LookH i k s | LookE i k s _ | LookV i k s _ _ | LookS i k s _ _ _ => Some (i, k, s) | _ => None end.

(** [own] says which thread is in an entry's lock. *)
Record seq_ok (w : sworld) (own : Z -> option nat) : Prop := {
  so_own : forall t i, in_lock (sw_pc w t) = Some i <-> own i = Some t;
  so_seq : forall i, ne_seq (sw_mem w i) = u32 (2 * (zlen (sw_hist w i) - 1) + match own i with Some _ => 1 | None => 0 end);
  so_last : forall i, own i = None -> last (sw_hist w i) = Some (ent_words (sw_mem w i));
  so_look : forall t i k s, looking (sw_pc w t) = Some (i, k, s) -> (1 <= k <= length (sw_hist w i))%nat /\ s = u32 (2 * (Z.of_nat k - 1)) /\
              (own i = None -> length (sw_hist w i) = k -> seen (sw_pc w t) (sw_mem w i));
  so_got : forall t i k x, sw_pc w t = Got i k (Some x) -> (1 <= k <= length (sw_hist w i))%nat /\ (zlen (sw_hist w i) <= 2 ^ 31 -> sw_hist w i !! (k - 1)%nat = Some x)
}.

Lemma at_pc_cases t p f t' : at_pc t p f t' = p /\ t' = t \/ at_pc t p f t' = f t' /\ t' <> t.
Proof. unfold at_pc. destruct (decide (t' = t)); [by left|by right]. Qed.

Lemma at_i_eq {A} i (x : A) f : at_i i x f i = x.
Proof. unfold at_i. by rewrite decide_True. Qed.

Lemma at_i_ne {A} i j (x : A) f : j <> i -> at_i i x f j = f j.
Proof. intros. unfold at_i. by rewrite decide_False. Qed.

(** A thread moves, outside the locks or in the one it holds. *)
Lemma moved_ok w own t p : seq_ok w own -> in_lock p = in_lock (sw_pc w t) ->
  (forall i k s, looking p = Some (i, k, s) -> (1 <= k <= length (sw_hist w i))%nat /\ s = u32 (2 * (Z.of_nat k - 1)) /\ (own i = None -> length (sw_hist w i) = k -> seen p (sw_mem w i))) ->
  (forall i k x, p = Got i k (Some x) -> (1 <= k <= length (sw_hist w i))%nat /\ (zlen (sw_hist w i) <= 2 ^ 31 -> sw_hist w i !! (k - 1)%nat = Some x)) -> seq_ok (moved t p w) own.
Proof.
  intros [H1 H2 H3 H4 H5] Hh Hl Hg. split; cbn [moved sw_mem sw_pc sw_hist]; try done.
  - intros t' i. destruct (at_pc_cases t p (sw_pc w) t') as [[-> ->]|[-> _]]; [rewrite Hh|]; apply H1.
  - intros t' i k s. destruct (at_pc_cases t p (sw_pc w) t') as [[-> ->]|[-> _]]; [apply Hl|apply H4].
  - intros t' i k x. destruct (at_pc_cases t p (sw_pc w) t') as [[-> ->]|[-> _]]; [apply Hg|apply H5].
Qed.

(** The holder of a lock stores one word of the entry. *)
Lemma stored_ok w own t p i e : seq_ok w own -> in_lock (sw_pc w t) = Some i -> in_lock p = Some i -> ne_seq e = ne_seq (sw_mem w i) -> seq_ok (stored_by t p i e w) own.
Proof.
  intros [H1 H2 H3 H4 H5] Hh Hp He. pose proof (proj1 (H1 t i) Hh) as Hown. assert (forall j, own j = None -> j <> i) as Hne by (intros j Hj ->; congruence). split; cbn [stored_by sw_mem sw_pc sw_hist].
  - intros t' j. destruct (at_pc_cases t p (sw_pc w) t') as [[-> ->]|[-> _]]; [rewrite Hp, <- Hh|]; apply H1.
  - intros j. destruct (decide (j = i)) as [->|]; [by rewrite at_i_eq, He|by rewrite at_i_ne].
  - intros j Hj. rewrite at_i_ne by auto. by apply H3.
  - intros t' j k s. destruct (at_pc_cases t p (sw_pc w) t') as [[-> ->]|[-> _]]; [by destruct p|]. intros Hl. destruct (H4 t' j k s Hl) as (A & B & C). split_and!; [apply A|apply A|done|]. intros Hj. rewrite at_i_ne by auto. by apply C.
  - intros t' j k x. destruct (at_pc_cases t p (sw_pc w) t') as [[-> ->]|[-> _]]; [by intros ->|apply H5].
Qed.

Lemma seq_odd w own i : seq_ok w own -> Z.odd (ne_seq (sw_mem w i)) = match own i with Some _ => true | None => false end.
Proof. intros H. rewrite (so_seq _ _ H), <- Z.negb_even, even_u32, Z.even_add, Z.even_mul. by destruct (own i). Qed.

Lemma u32_next x y : y = x + 1 -> u32 (u32 x + 1) = u32 y.
Proof. intros ->. unfold u32. by rewrite Zplus_mod_idemp_l. Qed.

Lemma locked_ok w own t i o : seq_ok w own -> sw_pc w t = Lock i o -> Z.odd (ne_seq (sw_mem w i)) = false ->
  seq_ok (stored_by t (Held i o) i (mk_neg (ne_h (sw_mem w i)) (ne_exp (sw_mem w i)) (ne_ver (sw_mem w i)) (u32 (ne_seq (sw_mem w i) + 1))) w) (at_i i (Some t) own).
Proof.
  intros H Hp Ho. rewrite (seq_odd _ _ _ H) in Ho. destruct (own i) as [?|] eqn:Hi; [done|]. destruct H as [H1 H2 H3 H4 H5]. split; cbn [stored_by sw_mem sw_pc sw_hist].
  - intros t' j. destruct (at_pc_cases t (Held i o) (sw_pc w) t') as [[-> ->]|[-> Hne]]; cbn [in_lock]; destruct (decide (j = i)) as [->|Hj].
    + by rewrite at_i_eq.
    + rewrite at_i_ne, <- H1, Hp by done. cbn. split; congruence.
    + rewrite at_i_eq. split; [rewrite H1; congruence|congruence].
    + rewrite at_i_ne by done. apply H1.
  - intros j. destruct (decide (j = i)) as [->|]; [|by rewrite !at_i_ne]. rewrite !at_i_eq. cbn [ne_seq]. rewrite H2, Hi. apply u32_next. lia.
  - intros j Hj. destruct (decide (j = i)) as [->|]; [by rewrite at_i_eq in Hj|]. rewrite !at_i_ne in * by done. by apply H3.
  - intros t' j k s. destruct (at_pc_cases t (Held i o) (sw_pc w) t') as [[-> ->]|[-> _]]; [done|]. intros Hl. destruct (H4 t' j k s Hl) as (A & B & C). split_and!; [apply A|apply A|done|]. destruct (decide (j = i)) as [->|]; [by rewrite at_i_eq|]. rewrite !at_i_ne by done. done.
  - intros t' j k x. destruct (at_pc_cases t (Held i o) (sw_pc w) t') as [[-> ->]|[-> _]]; [done|apply H5].
Qed.

Lemma unlocked_ok w own t i : seq_ok w own -> sw_pc w t = Unlock i -> seq_ok (unlocked t i w) (at_i i None own).
Proof.
  intros [H1 H2 H3 H4 H5] Hp. pose proof (proj1 (H1 t i) ltac:(by rewrite Hp)) as Hi. split; cbn [unlocked sw_mem sw_pc sw_hist].
  - intros t' j. destruct (at_pc_cases t Idle (sw_pc w) t') as [[-> ->]|[-> Hne]]; cbn [in_lock]; destruct (decide (j = i)) as [->|Hj].
    + by rewrite at_i_eq.
    + rewrite at_i_ne, <- H1, Hp by done. cbn. split; congruence.
    + rewrite at_i_eq. split; [rewrite H1; congruence|congruence].
    + rewrite at_i_ne by done. apply H1.
  - intros j. destruct (decide (j = i)) as [->|]; [|by rewrite !at_i_ne]. rewrite !at_i_eq. cbn [ne_seq]. rewrite H2, Hi, zlen_app. apply u32_next. change (zlen [_]) with 1. lia.
  - intros j. destruct (decide (j = i)) as [->|]; [|rewrite !at_i_ne by done; apply H3]. intros _. rewrite !at_i_eq. by rewrite last_snoc.
  - intros t' j k s. destruct (at_pc_cases t Idle (sw_pc w) t') as [[-> ->]|[-> _]]; [done|]. intros Hl. destruct (H4 t' j k s Hl) as (A & B & C). destruct (decide (j = i)) as [->|]; [|by rewrite !at_i_ne]. rewrite !at_i_eq, length_app. split_and!; [lia|lia|done|]. cbn [length]. lia.
  - intros t' j k x. destruct (at_pc_cases t Idle (sw_pc w) t') as [[-> ->]|[-> _]]; [done|]. intros Hx. destruct (H5 t' j k x Hx) as [A B]. destruct (decide (j = i)) as [->|]; [|by rewrite !at_i_ne]. rewrite !at_i_eq, length_app. split; [lia|]. rewrite zlen_app. change (zlen [_]) with 1. intros Hz. rewrite lookup_app_l by lia. apply B. lia.
Qed.

(** A read that sees its first sequence again has the words of the entry as it was. *)
Lemma look_again w own t i k s h e v : seq_ok w own -> sw_pc w t = LookS i k s h e v -> ne_seq (sw_mem w i) = s -> zlen (sw_hist w i) <= 2 ^ 31 -> sw_hist w i !! (k - 1)%nat = Some (h, e, v).
Proof.
  intros H Hp Hs Hz. destruct (so_look _ _ H t i k s ltac:(by rewrite Hp)) as (A & -> & C). rewrite (so_seq _ _ H) in Hs. unfold zlen in *. assert (Z.of_nat (length (sw_hist w i)) - 1 < 2 ^ 31) by lia.
  assert (own i = None /\ length (sw_hist w i) = k) as [Ho Hk]. { unfold u32 in Hs. destruct (own i); rewrite !Z.mod_small in Hs by lia; [lia|]. split; [done|lia]. }
  specialize (C Ho Hk). rewrite Hp in C. cbn [seen] in C. destruct C as (-> & -> & ->). pose proof (so_last _ _ H i Ho) as Hl. rewrite last_lookup in Hl. rewrite <- Hk, Nat.sub_1_r. exact Hl.
Qed.

Lemma seq_step_ok w own w' : seq_ok w own -> seq_step w w' -> exists own', seq_ok w' own'.
Proof.
  intros H [t i o Hp|t i o Hp Ho|t i o Hp|t i h e v Hp|t i e v Hp|t i v Hp|t i Hp|t i Hp|t i Hp|t i k s Hp|t i k s h Hp|t i k s h e Hp|t i k s h e v Hp|t i k r Hp].
  2: { eexists. by eapply locked_ok. }
  7: { eexists. by eapply unlocked_ok. }
  3-6: exists own; apply stored_ok; [done|by rewrite Hp|done|done].
  all: exists own; apply moved_ok; [done|rewrite Hp; cbn [in_lock]; try done| |].
  all: try (intros i' k' s' Hx; cbn [looking] in Hx; try done); try (intros i' k' x Hx; try done).
  - destruct o; cbn [held_next in_lock]; try done. by destruct (_ =? _).
  - destruct o; cbn [held_next looking] in Hx; try done. by destruct (_ =? _) in Hx.
  - destruct o; cbn [held_next] in Hx; try done. by destruct (_ =? _) in Hx.
  - by destruct (Z.odd _).
  - rewrite (seq_odd _ _ _ H) in Hx. destruct (own i) eqn:Hi; cbn [looking] in Hx; [done|]. injection Hx as <- <- <-. pose proof (so_last _ _ H i Hi) as Hl. assert (length (sw_hist w i) <> 0)%nat by (destruct (sw_hist w i); [done|cbn; lia]).
    split_and!; [lia|lia|rewrite (so_seq _ _ H), Hi; f_equal; unfold zlen; lia|]. intros _ _. by rewrite (seq_odd _ _ _ H), Hi.
  - by destruct (Z.odd _) in Hx.
  - injection Hx as <- <- <-. destruct (so_look _ _ H t i k s ltac:(by rewrite Hp)) as (A & B & C). split_and!; [apply A|apply A|done|done].
  - injection Hx as <- <- <-. destruct (so_look _ _ H t i k s ltac:(by rewrite Hp)) as (A & B & C). split_and!; [apply A|apply A|done|]. intros Ho Hk. specialize (C Ho Hk). rewrite Hp in C. cbn [seen] in *. done.
  - injection Hx as <- <- <-. destruct (so_look _ _ H t i k s ltac:(by rewrite Hp)) as (A & B & C). split_and!; [apply A|apply A|done|]. intros Ho Hk. specialize (C Ho Hk). rewrite Hp in C. cbn [seen] in *. tauto.
  - destruct (Z.eqb_spec (ne_seq (sw_mem w i)) s) as [Es|]; [|done]. injection Hx as <- <- <-. destruct (so_look _ _ H t i k s ltac:(by rewrite Hp)) as (A & _). split; [done|]. intros Hz. by eapply look_again.
Qed.

Lemma sw0_ok : seq_ok sw0 (fun _ => None).
Proof. split; cbn; try done; intros; try done. Qed.

Lemma srun_ok w : rtc seq_step sw0 w -> exists own, seq_ok w own.
Proof.
  intros Hr. cut (forall w0, rtc seq_step w0 w -> forall own, seq_ok w0 own -> exists own, seq_ok w own); [intros H; exact (H _ Hr _ sw0_ok)|]. clear Hr. intros w0 Hr. induction Hr as [w0|w0 w1 w Hs _ IH]; [eauto|]. intros own H. destruct (seq_step_ok _ _ _ H Hs) as [own' H']. by eapply IH.
Qed.

(** C17. A read of an entry is never torn.  With any number of threads planting, clearing and
    reading word by word in any interleaving: a read that succeeds returns the three words
    one writer left together, those the entry had at the read's first look, as long as the
    entry was written fewer than 2^31 times; and no two threads are in one entry's lock. *)
Theorem neg_read_whole w t i k h e v : rtc seq_step sw0 w ->
  (sw_pc w t = Got i k (Some (h, e, v)) -> zlen (sw_hist w i) <= 2 ^ 31 -> sw_hist w i !! (k - 1)%nat = Some (h, e, v)) /\
  forall t', in_lock (sw_pc w t) = Some i -> in_lock (sw_pc w t') = Some i -> t = t'.
Proof.
  intros Hr. destruct (srun_ok w Hr) as [own H]. split; [intros Hp; by apply (so_got _ _ H t)|]. intros t' H1%(so_own _ _ H) H2%(so_own _ _ H). congruence.
Qed.

(** * Runs *)

(** Five keys of one set. *)
Definition y_col : bytes := [99].
Definition x_keys : list bytes := [[0; 0]; [42; 146]; [127; 13]; [145; 7]; [187; 145]].
Definition x_key (n : nat) : bytes := default [] (x_keys !! n).

Definition x_plants : list lop := (fun n => LSetVer y_col (x_key n) (100 + Z.of_nat n) 2000 (7 + Z.of_nat n)) <$> seq 0 4.


Lemma neg_displaces_oldest_witness : exists e hs, NoDup hs /\ length hs = 4%nat /\ clloc_hash y_col (x_key 0) ∈ hs /\ 104 < e.
Proof.
  destruct (neg_displaces_oldest 0 x_plants 104 y_col (x_key 4) (clloc_hash y_col (x_key 0))) as (e & hs & H1 & H2 & H3 & _ & H5 & _); [vm_compute; intuition discriminate|vm_compute; reflexivity|]. exists e, hs. split_and!; assumption.
Defined.

Lemma neg_clear_visible_witness : clloc_neg_ver (mk_lc_ (pc_neg_clear (mk_marks (lrun x_plants).1 retain0) y_col (x_key 0) 110)) y_col (x_key 0) 110 = (false, 0).
Proof. refine (proj1 (neg_clear_visible 0 x_plants 103 retain0 y_col (x_key 0) 110 110 _ _)); [vm_compute; intuition discriminate|lia]. Defined.

Lemma x_retain_clocked : clocked 0 (all_retained ([] ++ MDel true true y_col (x_key 0) 3000 2000 7 :: [MSet y_col (x_key 0) 3500 2000])) (u32 (6000 / 1000)).
Proof. vm_compute. intuition discriminate. Qed.

(** The cache's entry lost its version to a plain negative one; the retained table has it. *)
Lemma delete_guarded_witness :
  let m1 := foldl mstep (mk_marks clloc0 (clretain_init retain0 10 2 (fun _ => true))) [MDel true true y_col (x_key 0) 3000 2000 7] in
  tomb_refuses (foldl mstep m1 [MSet y_col (x_key 0) 3500 2000]) y_col (x_key 0) 6000 6 = true.
Proof.
  destruct (delete_guarded 10 2 (fun _ => true) y_col (x_key 0) 3000 7 (MDel true true y_col (x_key 0) 3000 2000 7) [] [MSet y_col (x_key 0) 3500 2000] 6000 6) as [[H _]|[H|H]];
    [lia|lia|vm_compute; discriminate|vm_compute; discriminate|left; by repeat eexists|exact x_retain_clocked|lia|exact H|destruct H|exfalso; vm_compute in H; by apply H].
Defined.

Lemma neg_read_whole_witness : exists w, rtc seq_step sw0 w /\ sw_pc w 1 = Got 3 2 (Some (5, 100, 0)) /\ sw_hist w 3 !! 1%nat = Some (5, 100, 0).
Proof.
  assert (exists w, rtc seq_step sw0 w /\ sw_pc w 1 = Got 3 2 (Some (5, 100, 0)) /\ zlen (sw_hist w 3) <= 2 ^ 31) as (w & Hr & Hp & Hz).
  { eexists. split; [|split].
    - eapply rtc_l; [eapply (ss_write _ 0 3 (WPut 5 100)); reflexivity|]. eapply rtc_l; [eapply (ss_lock _ 0 3 (WPut 5 100)); reflexivity|]. eapply rtc_l; [eapply (ss_held _ 0 3 (WPut 5 100)); reflexivity|]. cbn [held_next].
      eapply rtc_l; [eapply (ss_h _ 0 3 5 100 0); reflexivity|]. eapply rtc_l; [eapply (ss_e _ 0 3 100 0); reflexivity|]. eapply rtc_l; [eapply (ss_v _ 0 3 0); reflexivity|]. eapply rtc_l; [eapply (ss_unlock _ 0 3); reflexivity|].
      eapply rtc_l; [eapply (ss_look _ 1 3); reflexivity|]. eapply rtc_l; [eapply (ss_look_h _ 1 3 2 2); reflexivity|]. eapply rtc_l; [eapply (ss_look_e _ 1 3 2 2 5); reflexivity|]. eapply rtc_l; [eapply (ss_look_v _ 1 3 2 2 5 100); reflexivity|].
      eapply rtc_l; [eapply (ss_look_s _ 1 3 2 2 5 100 0); reflexivity|]. apply rtc_refl.
    - reflexivity.
    - vm_compute. discriminate. }
  exists w. split_and!; [exact Hr|exact Hp|]. exact (proj1 (neg_read_whole w 1 3 2 5 100 0 Hr) Hp Hz).
Defined.

(** A plain negative entry takes the version off a live tombstone. *)
Lemma neg_set_drops_version : clloc_neg_ver (clloc_neg_set (clloc_neg_set_ver clloc0 y_col (x_key 0) 100 2000 20) y_col (x_key 0) 150 300) y_col (x_key 0) 200 = (true, 0).
Proof. vm_compute. reflexivity. Qed.

(** The way is chosen before the lock is taken: of two deletes of a key, the one that chose
    first writes last, into the way another key took meanwhile; the earlier version is
    found first, and the other key's live tombstone is gone uncounted. *)
Lemma tomb_race :
  let h := clloc_hash y_col (x_key 0) in
  let '(l, i) := neg_slot_for clloc0 (neg_base h) h 100 in
  let l := clloc_neg_set_ver l y_col (x_key 1) 100 2000 5 in
  let l := clloc_neg_set_ver l y_col (x_key 0) 100 2000 20 in
  let l := plant_ver i h 100 2000 10 l in
  clloc_neg_ver l y_col (x_key 0) 200 = (true, 10) /\ clloc_neg_ver l y_col (x_key 1) 200 = (false, 0) /\ lc_neg_displaced l = 0.
Proof. vm_compute. split_and!; reflexivity. Qed.
